(* ===== verification/_CoqProject ===== *)
-Q . S2P
Prelude.v
ODict.v
Bytes.v
Protocol.v
QueueDb.v
QueueStore.v
QueueInv.v
QueueSteps.v
QueueUnits.v
QueueJobs.v
QueueHistory.v
QueueSpec.v
Churn.v
Scheduler.v
SchedulerSpec.v
Supervisor.v
Preempt.v
SupervisorSpec.v
PreemptSpec.v
Idle.v
Reconcile.v
ReconcileSpec.v
ReconcileWorld.v
AgentServices.v
Mesh.v
MeshSpec.v
Relay.v
RelaySpec.v
Tasks.v
HttpAuth.v
Discovery.v
Registry.v
RegistrySpec.v
Enroll.v
JoinBundles.v
JoinBundlesSpec.v
JoinForceSpec.v
Gateway.v
QuotaSpec.v
GatewaySpec.v
GatewayBody.v
GatewayBodySpec.v
Admission.v
GatewayService.v
Metrics.v
RagStore.v
RagStoreSpec.v
Chunker.v
RagIngest.v
RagIngestSpec.v
RagQuery.v
AgentClient.v
AgentWork.v
AgentWorkSpec.v
AgentBeat.v
ModelFetch.v
JsonText.v
Offline.v
StoreSchema.v
MeshFetch.v
MeshFetchSpec.v
Standby.v
Config.v
AgentSettings.v
Gguf.v
Pull.v
PullSpec.v
BenchChurn.v
CoordinatorLife.v
CoordinatorState.v
AgentRoutes.v
AdminRoutes.v
CoordinatorInv.v
CoordinatorSound.v
CoordinatorLogic.v
CoordinatorHelpers.v
CoordinatorHandlers.v
CoordinatorSpec.v
