(* ===== verification/Prelude.v ===== *)
(** * Fallow: a verification development

    Fallow turns the idle hours of office machines into an inference and batch
    cluster.  A coordinator keeps the registry of agents, a durable queue of work
    units, the placement policies and an OpenAI-compatible gateway; an agent on
    every machine watches for its user, runs model servers while the user is away
    and gives the machine back at once; model files travel as content-addressed
    chunks between peers.  The library models the decisions, the state and the
    concurrency of these parts, and proves what each promises to the others.

    ** Parts, files and sources

    Paths are relative to src/packages; [coordinator], [agent], [protocol] and
    [modelmesh] stand for fallow-coordinator/src/fallow_coordinator and so on.

    - Shared: this file (exact rationals, Python's [min], [max], [sorted] and key
      functions, the state-and-exception monad [Eff] with its weakest
      preconditions [wp], list and map lemmas), [ODict] (insertion-ordered
      dictionaries), [Bytes] (hexadecimal, JSON string literals, [strip], [join]),
      [Protocol] (protocol/messages.py, models.py, capabilities.py: records and
      enumerations with the source's names).
    - The durable queue, coordinator/queue: [QueueDb] (schema.sql, _sql.py,
      _serialization.py, _jobstate.py: the tables are a record [Db] of finite maps,
      one definition per SQL statement), [QueueStore] (store.py: one definition per
      method), [QueueInv] (the invariant and a closed form of every method),
      [QueueSteps] (calls as a transition system), [QueueUnits] (the abstract life
      cycle and the refinement), [QueueJobs] (job states), [QueueHistory] (the
      emitted transitions), [QueueSpec] (the theorems).
    - Placement, coordinator/scheduler: [Churn] (protocol/churn_events.py,
      churn_model.py, reliability.py), [Scheduler] (eligibility, the three arms as
      instances of the class [SchedulerPolicy], backups, auto-assignment),
      [SchedulerSpec].
    - The agent: [Supervisor] (agent/supervisor/supervisor.py, child.py: locked
      sections, signals, health threads and process exits as steps of [World]),
      [Preempt] (agent/preempt, over any instance of the class
      [ProcessSupervisor]), [SupervisorSpec], [PreemptSpec], [Idle] (agent/idle and
      agent/bench: what the detectors read, on each platform),
      [Reconcile] (agent/main/reconcile.py, ports.py, manifest.py, over any instance
      of the class [SupervisorLike]), [ReconcileSpec], [ReconcileWorld] (the child
      process supervisor as that instance).
    - The agent's life: [AgentServices] (agent/main/services.py,
      heartbeat_wiring.py), [Enroll] (main/identity.py,
      enroll.py, against [Registry]), [AgentSettings]
      (main/settings.py, assembly.py, mesh/config.py, supervisor/config.py,
      commands.py, health.py).
    - Model distribution: [Mesh] (modelmesh: chunking, manifests, the LRU chunk
      store, delta fetching, reconstruction, signatures, bundles, peers, pacing),
      [MeshSpec], [JsonText] (Python's [json.loads] and compact [json.dumps]),
      [Offline] (bundle.py and the directories of offline.py).
    - The site relay: [Relay] (coordinator/site_relay/broker.py: the broker's
      locked sections and the awaits after them), [RelaySpec].
    - The registry: [Registry] (coordinator/registry: agents, tokens, presence,
      models, keys, quota snapshots), [RegistrySpec].
    - The gateway, coordinator/gateway: [Gateway] (quota.py, affinity.py,
      inflight.py, proxy.py), [QuotaSpec], [GatewaySpec], [GatewayBody]
      (bodyparse.py, eligibility.py, session.py, ragcontext.py),
      [GatewayBodySpec], [Admission] (admission.py),
      [GatewayService] (service.py, router.py, streaming.py, logentry.py); [HttpAuth] (httpauth.py: bearer tokens).
    - Retrieval, coordinator/rag and coordinator/app: [RagStore] (rag/store.py: the
      tables and the vector index), [RagStoreSpec], [Chunker] (app/chunker.py),
      [RagIngest] (app/rag_ingestion.py, over any vector sink with the laws of
      [VectorSink]), [RagIngestSpec], [RagQuery] (rag/retrieval.py, rag/query.py and
      the retriever of app/factory.py).
    - The agent's loops: [AgentClient] (agent/heartbeat/client.py,
      main/result_upload.py: a [World] of awaits and the answers of an environment),
      [AgentWork] (main/work.py, runner_wiring.py, workers), [AgentWorkSpec],
      [AgentBeat] (heartbeat/loop.py, event_sink.py, idle/predictor.py).
    - Model files: [ModelFetch] (coordinator/modelserve/blob.py, agent/modelcache),
      [MeshFetch] (coordinator/modelserve/mesh.py and router.py,
      agent/mesh), [MeshFetchSpec].
    - The command line, fallow-cli/src/fallow_cli: [Gguf] (gguf.py),
      [Pull] (hf.py, catalog.py, pull.py, blobs.py and the pull command of main.py),
      [PullSpec], [JoinBundles] (site/join_bundles.py: every system call may fail and
      other processes act in between), [JoinBundlesSpec] (without overwriting),
      [JoinForceSpec] (with it).
    - The bench, fallow-bench/src/fallow_bench: [BenchChurn] (churn and
      workload/schedule.py).
    - The coordinator's operation: [Standby] (coordinator/app/standby.py, promote.py:
      steps on a file system, SQLite as the class [Sqlite] with its laws),
      [Config] (app/config.py), [Metrics]
      (app/metrics.py), [Discovery] (coordinator/discovery), [StoreSchema] (the opening
      of the registry's and the vector store's files), [CoordinatorLife]
      (app/factory.py: start-up decisions and the lifespan).
    - The coordinator process, coordinator/app and coordinator/site: [Tasks]
      (interleaved programs of store calls), [CoordinatorState] (the shared state and
      one call), [AgentRoutes] (agent_routes.py, deps.py), [AdminRoutes]
      (admin_routes.py, background.py, site/router.py, scheduler/dispatch.py),
      [CoordinatorInv], [CoordinatorSound], [CoordinatorLogic],
      [CoordinatorHelpers], [CoordinatorHandlers] (the invariant, its preservation by
      every call and the program logic of the handlers), [CoordinatorSpec].

    ** How they interact

    The queue emits its transitions to the reliability model; placement reads
    registry snapshots and the queue's leases through [SchedulerPolicy], whose laws
    all three arms satisfy; preemption drives the supervisor only through
    [ProcessSupervisor], whose laws [SupervisorSpec] discharges for the child
    process supervisor; the reconcile loop starts and stops replicas through
    [SupervisorLike], the idle detectors feed the preemption's polls, and the
    services stop all of them in order; the gateway reads replicas and keys from [Registry], saves
    its quotas there, holds slots in its tracker and reaches agents directly or
    through the relay.  The registry's and the queue's SQL tables are the state;
    every method is taken as one committed step.  The coordinator's handlers and
    background loops are programs over these methods, run interleaved on one state,
    and any of them may be cancelled between two of its calls.  What a cancellation or
    an error inside a method leaves in the open transaction of its connection, and
    what another method's rollback does to it, is outside these steps; [Registry]
    takes two transactions apart to show one such case.  Ingestion submits jobs to the queue and writes to the
    vector sink that [RagStore] implements; the mesh fetch runs [Mesh] against the
    coordinator's routes and falls back to the cache of [ModelFetch].

    ** What the theorems show

    - The queue: every reachable database is consistent; every call moves every
      unit by a step of its abstract life cycle; leases are granted in the order of
      priority and age and numbered without gap within the attempt budget;
      completions are fenced by holder, attempt and uploaded payload; a success is
      permanent; requeueing and submission do exactly what they say.
    - Placement: in each of the three arms only fit agents get work, work is placed
      whenever somebody can take it, and the choice is the documented one; the survival
      estimate is the empirical one.
    - The agent: no model server runs while the user is present, over every history
      of polls; suspend and resume are inverse; the supervisor's dictionaries stay
      consistent in every interleaving of its threads; with the detectors of each
      platform a running replica means its user has been away; the
      reconcile loop books no port twice whatever the supervisor does, and an
      undisturbed pass converges to the desired models; where no signal overlaps a stop
      ([SupervisorSpec.supervisor_races] has the schedules in which one does) live
      replicas have ports of their own and a shutdown leaves no replica and no task,
      though the poll thread may outlive its join; the identity file is replaced atomically and a machine
      enrols once; settings that load build an agent that binds no wildcard address.
    - Model distribution: what is reconstructed is the file that was chunked, or a
      SHA-256 collision is exhibited; nothing unverified is stored; capacity holds;
      a manifest survives its own JSON text, and a file carried by an offline bundle
      arrives byte for byte whatever the directory held before.
    - The relay: the broker stays consistent and bounded in every interleaving;
      uploads are authorised; a generation fence is never crossed; the client reads
      exactly the bytes that were accepted.
    - The registry: enrolment tokens work once, revocation is final, presence
      updates commute, the routing views are exact.
    - The gateway: nothing is routed without authentication, quota, permission and
      a well-formed body; quotas hold over any history and the advertised delay is
      exact; one retry, elsewhere; first come first served admission with bounded
      waiting; at most one answer per request, and one log entry that says how it ended
      unless the transport raised or a stream was never iterated or not closed.
    - The coordinator process, with its stores' methods as steps: in every interleaving
      calls are authorised by what the request carried and nothing is read before its
      token was looked up, the sweep requeues only the work of agents offline at that
      moment, long polls end, each store is in a state of its own transition system,
      and a revoked agent's relay work is gone for good.
    - Retrieval: the tables implement a map of collections with its own check of a batch; a search returns the
      nearest chunks; ingestion writes everything or nothing, once; only permitted
      keys read.
    - The agent's loops: retries stay within their budgets; an iteration of the work
      loop raises only on a cancellation or a body that cannot be decoded; a result is
      reported done only with an accepted payload and within its lease; events are neither lost nor
      reordered; predictions are bounded.
    - Model files: range requests and resumed downloads fit together; whatever is sent,
      a file handed out has its manifest's digest; over the mesh the agent gets the
      coordinator's blob; the GGUF reader inverts the format and reads nothing past
      the header.
    - The command line: join files are written all or none, or a backup is named; a
      pull keeps every registered model's blob with its manifest's digest.
    - The bench: schedules are complete and the injector records every event once.
    - Operation: opening upgrades any earlier registry file and may be cut off anywhere;
      the coordinator is announced only while it can answer, releases everything when
      it stops and keeps its quotas over restarts; a scrape counts the log exactly and labels read back; an
      advertisement fits its DNS record and the responder is never leaked; a snapshot
      is never torn and a failover resumes the exported state; a
      configuration that loads has the documented fields, ranges, defaults and
      precedence.
    - Schedules in which the code does less than it means to: a replica started
      after the user returned, three races of the supervisor, a token lost to a
      rollback on the shared connection, an inflight slot lost to an exception, a stream
      that is neither logged nor freed, a job
      whose details can no longer be read, a crash that leaves an old model file
      vouched for by a new marker, a complete partial download that is never accepted,
      a chunk cache too small to fall back, a promotion that discards newer
      commits, ports that dead replicas keep, an enrolment token spent without an
      identity, a rollback that loses a join file, pulls that leave a model with the
      wrong bytes, wildcard spellings the guard accepts, a goodbye that
      keeps the coordinator from shutting down, and bundle files that do not
      fail as documented.

    ** Conventions, bounds and fuel

    Instants are whole microseconds (Python's [datetime] resolution); floats are
    exact rationals, so rounding is not modelled; strings are sequences of code
    points below 256, and ASCII where a digest is taken of them.  Random tokens,
    uuids, clock readings and what the network answered are arguments of the
    operations.  SHA-256 and HMAC-SHA256 are parameters about which only the length
    of the digest is assumed.  Unordered SQL rows come in any order ([RowOrder]).
    Recursion is structural except for: reading a file in chunks and the Merkle
    climb (fuel: the length of the data, proved enough), bisection (fuel: the
    length of the list, proved enough), stripping fence markers (fuel: the length
    of the text; it is proved that a result is always reached), the gateway's
    attempts (the code's own budget of two), the retries of the agent's
    client, uploads and downloads (the configured budgets), streaming a file (fuel:
    its length, proved enough), the JSON scanner (fuel: the length of the text, proved
    enough for every text [dumps] writes) and the bench's poll for a flip (fuel: the
    turns its configuration allows, proved enough).  Steps of concurrent parts are the
    stretches between two suspension points or inside one lock.

    ** Not modelled

    Statements of a store method apart from each other (above), errors of the disk under
    SQLite, connection pragmas, indexes and the queue's schema script, the text form of timestamps and of
    stored JSON, HTTP framing, argument parsing and rendering of the command line,
    mounting of routers and construction of the agent's objects, TOML parsing, signal
    handlers, the operating system's GPU, memory and process interfaces (their
    readings are inputs), what pydantic makes of a raw value, DNS, URL parsing and
    certificates (arguments of [Config]), JSON escapes above code point 255, the
    vector index (an external SQLite extension, given by the dimensions it takes and the
    nearest-neighbour law it documents), the live experiment driver of the bench, its data frames and its plots
    (they measure and render). *)

From stdpp Require Export base tactics gmap strings list sorting relations.
From Stdlib Require Export QArith Qround Lqa.
From Stdlib Require Export Lia.

#[export] Set Warnings "-notation-overridden,-clear-no-such-hyp".
Open Scope stdpp_scope.
Close Scope Q_scope.
Close Scope nat_scope.
Close Scope Z_scope.

(** ** Notations *)

Declare Scope fallow_scope.
Delimit Scope fallow_scope with fallow.
Open Scope fallow_scope.

(** Boolean comparisons of exact rationals (Python's [<] and [<=] on floats). *)
Definition Qlt_bool (x y : Q) : bool := negb (Qle_bool y x).

Notation "x <=?q y" := (Qle_bool x y) (at level 70, no associativity) : fallow_scope.
Notation "x <?q y" := (Qlt_bool x y) (at level 70, no associativity) : fallow_scope.

Lemma Qle_bool_true (x y : Q) : (x <=?q y) = true ↔ (x <= y)%Q.
Proof. apply Qle_bool_iff. Qed.

Lemma Qle_bool_false (x y : Q) : (x <=?q y) = false ↔ (y < x)%Q.
Proof.
  rewrite <- not_true_iff_false, Qle_bool_true. split.
  - apply Qnot_le_lt.
  - apply Qlt_not_le.
Qed.

Lemma Qlt_bool_true (x y : Q) : (x <?q y) = true ↔ (x < y)%Q.
Proof. unfold Qlt_bool. rewrite negb_true_iff. apply Qle_bool_false. Qed.

Lemma Qlt_bool_false (x y : Q) : (x <?q y) = false ↔ (y <= x)%Q.
Proof. unfold Qlt_bool. rewrite negb_false_iff. apply Qle_bool_true. Qed.

(** ** Automation *)

Create HintDb fallow.

(** Turn boolean tests on rationals and integers in the context into
    propositions. *)
Ltac reflect_bools :=
  repeat match goal with
  | H : (_ <=?q _) = true |- _ => apply Qle_bool_true in H
  | H : (_ <=?q _) = false |- _ => apply Qle_bool_false in H
  | H : (_ <?q _) = true |- _ => apply Qlt_bool_true in H
  | H : (_ <?q _) = false |- _ => apply Qlt_bool_false in H
  | H : (_ <=? _)%Z = true |- _ => apply Z.leb_le in H
  | H : (_ <=? _)%Z = false |- _ => apply Z.leb_gt in H
  | H : (_ <? _)%Z = true |- _ => apply Z.ltb_lt in H
  | H : (_ <? _)%Z = false |- _ => apply Z.ltb_ge in H
  | H : (_ =? _)%Z = true |- _ => apply Z.eqb_eq in H
  | H : (_ =? _)%Z = false |- _ => apply Z.eqb_neq in H
  | H : (_ && _) = true |- _ => apply andb_true_iff in H as [? ?]
  | H : (_ || _) = false |- _ => apply orb_false_iff in H as [? ?]
  | H : negb _ = true |- _ => apply negb_true_iff in H
  | H : negb _ = false |- _ => apply negb_false_iff in H
  | H : bool_decide _ = true |- _ => apply bool_decide_eq_true in H
  | H : bool_decide _ = false |- _ => apply bool_decide_eq_false in H
  end.

(** Split every [match]/[if] scrutinee of the goal, simplifying as it goes. *)
Ltac split_matches :=
  repeat (case_match; simplify_eq/=; try done).

(** ** Sort keys

    Python compares the keys given to [min] and [sorted] with [<]; tuples
    compare lexicographically.  A [KeyOrder] is the boolean [<=] of such a key
    type and [KeyOrderLaws] says it is a total preorder (only a preorder,
    because two rationals may be equal without being identical). *)

Class KeyOrder (K : Type) := key_le : K → K → bool.

Class KeyOrderLaws (K : Type) `{KeyOrder K} := {
  key_le_total : ∀ a b : K, key_le a b = true ∨ key_le b a = true;
  key_le_trans : ∀ a b c : K, key_le a b = true → key_le b c = true → key_le a c = true
}.

Definition key_lt `{KeyOrder K} (a b : K) : bool := negb (key_le b a).

#[export] Instance bool_key : KeyOrder bool := λ a b, negb a || b.
#[export] Instance Z_key : KeyOrder Z := Z.leb.
#[export] Instance Q_key : KeyOrder Q := Qle_bool.
#[export] Instance string_key : KeyOrder string := String.leb.
#[export] Instance pair_key `{KeyOrder A, KeyOrder B} : KeyOrder (A * B) :=
  λ p q, key_le p.1 q.1 && (negb (key_le q.1 p.1) || key_le p.2 q.2).

#[export] Instance bool_key_laws : KeyOrderLaws bool.
Proof. split; [intros [] [] | intros [] [] []]; cbn; auto. Qed.

#[export] Instance Z_key_laws : KeyOrderLaws Z.
Proof. split; unfold key_le, Z_key; intros; rewrite ?Z.leb_le in *; lia. Qed.

#[export] Instance Q_key_laws : KeyOrderLaws Q.
Proof.
  split; unfold key_le, Q_key.
  - intros a b. rewrite !Qle_bool_true. destruct (Qlt_le_dec a b); [left | right]; lra.
  - intros a b c. rewrite !Qle_bool_true. lra.
Qed.

#[export] Instance string_key_laws : KeyOrderLaws string.
Proof.
  split; unfold key_le, string_key.
  - intros a b. apply String.leb_total.
  - intros a b c Hab Hbc. apply Is_true_true.
    apply (transitivity (R := String.le) (y := b)); by apply Is_true_true.
Qed.

Lemma pair_key_le `{KeyOrder A, KeyOrder B} (p q : A * B) :
  key_le p q = key_le p.1 q.1 && (negb (key_le q.1 p.1) || key_le p.2 q.2).
Proof. done. Qed.

#[export] Instance pair_key_laws `{KeyOrderLaws A, KeyOrderLaws B} : KeyOrderLaws (A * B).
Proof.
  split.
  - intros [a b] [c d]; rewrite !pair_key_le; cbn.
    destruct (key_le_total a c), (key_le_total c a), (key_le_total b d);
      destruct (key_le a c), (key_le c a), (key_le b d), (key_le d b); cbn in *; naive_solver.
  - intros [a b] [c d] [e f]; rewrite !pair_key_le; cbn.
    rewrite !andb_true_iff, !orb_true_iff, !negb_true_iff.
    intros [Hac Hbd] [Hce Hdf]. split; [by eapply key_le_trans |].
    destruct (key_le e a) eqn:Hea; [| by left]. right.
    assert (key_le c a = true) by (by eapply key_le_trans).
    assert (key_le e c = true) by (by eapply key_le_trans).
    destruct Hbd, Hdf; try congruence. by eapply key_le_trans.
Qed.

Lemma key_le_refl `{KeyOrderLaws K} (a : K) : key_le a a = true.
Proof. by destruct (key_le_total a a). Qed.

Lemma key_lt_le `{KeyOrderLaws K} (a b : K) : key_lt a b = true → key_le a b = true.
Proof. unfold key_lt. destruct (key_le_total a b); [done |]. by intros ?%negb_true_iff; congruence. Qed.

(** The string order is antisymmetric, so a key that ends in a distinct
    identifier determines its element. *)
Lemma string_key_antisym (a b : string) : key_le a b = true → key_le b a = true → a = b.
Proof. apply String.leb_antisym. Qed.

(** Equivalent keys have equivalent components. *)
Lemma pair_key_equiv `{KeyOrder A, KeyOrder B} (p q : A * B) :
  key_le p q = true → key_le q p = true → key_le p.2 q.2 = true ∧ key_le q.2 p.2 = true.
Proof.
  rewrite !pair_key_le, !andb_true_iff, !orb_true_iff, !negb_true_iff.
  intros [Ha Hb] [Hc Hd]. destruct Hb, Hd; try congruence. done.
Qed.

(** ** [min] and [sorted] *)

(** [min(xs, key=k)]: the first element whose key no later element beats
    strictly; [None] on an empty sequence (the callers test for emptiness). *)
Definition py_min `{KeyOrder K} {A} (k : A → K) (l : list A) : option A :=
  match l with
  | [] => None
  | x :: xs => Some (fold_left (λ best y, if key_lt (k y) (k best) then y else best) xs x)
  end.

(** [sorted(xs, key=k)]: stable, so an element goes after the equal ones. *)
Fixpoint py_insert `{KeyOrder K} {A} (k : A → K) (x : A) (l : list A) : list A :=
  match l with
  | [] => [x]
  | y :: ys => if key_lt (k x) (k y) then x :: y :: ys else y :: py_insert k x ys
  end.

Definition py_sorted `{KeyOrder K} {A} (k : A → K) (l : list A) : list A :=
  fold_left (λ acc x, py_insert k x acc) l [].

Section py_min.
  Context `{KeyOrderLaws K} {A : Type} (k : A → K).
  Implicit Types (l : list A) (x y : A).

Lemma py_min_fold_spec l x b :
  fold_left (λ best y, if key_lt (k y) (k best) then y else best) l x = b →
  (b = x ∨ b ∈ l) ∧ key_le (k b) (k x) = true ∧ ∀ y, y ∈ l → key_le (k b) (k y) = true.
Proof.
  revert x; induction l as [| z l IH]; intros x; cbn.
  { intros <-. split_and!; [by left | apply key_le_refl | set_solver]. }
  intros Hb. apply IH in Hb as (Hin & Hx & Hall).
  destruct (key_lt (k z) (k x)) eqn:Hzx.
  - apply key_lt_le in Hzx. split_and!; [set_solver | by eapply key_le_trans |].
    intros y [-> | ?]%elem_of_cons; auto.
  - apply negb_false_iff in Hzx. split_and!; [set_solver | done |].
    intros y [-> | ?]%elem_of_cons; [by eapply key_le_trans | auto].
Qed.

Lemma py_min_Some l b :
  py_min k l = Some b → b ∈ l ∧ ∀ y, y ∈ l → key_le (k b) (k y) = true.
Proof.
  destruct l as [| x l]; [done |]. cbn. intros [= Hb].
  apply py_min_fold_spec in Hb as (Hin & Hx & Hall). split.
  - set_solver.
  - intros y [-> | ?]%elem_of_cons; auto.
Qed.

Lemma py_min_None l : py_min k l = None ↔ l = [].
Proof. destruct l; cbn; naive_solver. Qed.

Lemma py_min_is_Some l x : x ∈ l → is_Some (py_min k l).
Proof. destruct l; [set_solver | by eexists]. Qed.
End py_min.

Section py_sorted.
  Context `{KeyOrderLaws K} {A : Type} (k : A → K).
  Implicit Types (l : list A) (x y : A).

Definition key_rel : relation A := λ x y, key_le (k x) (k y) = true.

Lemma key_rel_trans : Transitive key_rel.
Proof. intros x y z. apply key_le_trans. Qed.

Lemma py_insert_perm x l : py_insert k x l ≡ₚ x :: l.
Proof.
  induction l as [| y l IH]; [done |]. cbn. destruct (key_lt _ _); [done |].
  rewrite IH. apply Permutation_swap.
Qed.

Lemma py_insert_sorted x l : StronglySorted key_rel l → StronglySorted key_rel (py_insert k x l).
Proof.
  induction 1 as [| y l Hl IH Hy]; cbn; [by repeat constructor |].
  destruct (key_lt (k x) (k y)) eqn:Hxy.
  - apply key_lt_le in Hxy. constructor; [by constructor |].
    constructor; [done |]. eapply Forall_impl; [done |].
    intros z Hz. by eapply key_rel_trans.
  - apply negb_false_iff in Hxy. constructor; [done |].
    rewrite py_insert_perm. by constructor.
Qed.

Lemma py_sorted_fold_spec l acc :
  StronglySorted key_rel acc →
  StronglySorted key_rel (fold_left (λ acc x, py_insert k x acc) l acc) ∧
  fold_left (λ acc x, py_insert k x acc) l acc ≡ₚ acc ++ l.
Proof.
  revert acc; induction l as [| x l IH]; intros acc Hacc; cbn.
  - by rewrite app_nil_r.
  - destruct (IH (py_insert k x acc)) as [Hs Hp]; [by apply py_insert_sorted |].
    split; [done |]. rewrite Hp, py_insert_perm. cbn. by rewrite Permutation_middle.
Qed.

Lemma py_sorted_sorted l : StronglySorted key_rel (py_sorted k l).
Proof. apply py_sorted_fold_spec. constructor. Qed.

Lemma py_sorted_perm l : py_sorted k l ≡ₚ l.
Proof. by rewrite (proj2 (py_sorted_fold_spec l [] ltac:(constructor))). Qed.

Lemma py_sorted_nil l : py_sorted k l = [] ↔ l = [].
Proof.
  split; [| by intros ->]. intros Hn. apply Permutation_nil. rewrite <- Hn. apply py_sorted_perm.
Qed.
End py_sorted.

(** [min(a, b)] and [max(a, b)] on floats *)
Definition py_min2 (a b : Q) : Q := if b <?q a then b else a.
Definition py_max2 (a b : Q) : Q := if a <?q b then b else a.

(** ** Lists *)

(** Keep the first occurrence of every element, in order
    ([dict.fromkeys(xs)], or the usual [seen]-set loop), by a key. *)
Fixpoint unique_by `{EqDecision K} {A} (k : A → K) (seen : list K) (l : list A) : list A :=
  match l with
  | [] => []
  | x :: xs =>
      if bool_decide (k x ∈ seen) then unique_by k seen xs
      else x :: unique_by k (k x :: seen) xs
  end.

Section unique_by.
  Context `{EqDecision K} {A : Type} (k : A → K).

Lemma unique_by_subset seen l x : x ∈ unique_by k seen l → x ∈ l ∧ k x ∉ seen.
Proof.
  revert seen; induction l as [| y l IH]; intros seen; cbn; [set_solver |].
  case_bool_decide; [intros ?%IH; set_solver |].
  intros [-> | Hx%IH]%elem_of_cons; set_solver.
Qed.

Lemma unique_by_complete seen l x :
  x ∈ l → k x ∉ seen → ∃ y, y ∈ unique_by k seen l ∧ k y = k x.
Proof.
  revert seen; induction l as [| y l IH]; intros seen; cbn; [set_solver |].
  intros Hx Hk. case_bool_decide as Hy.
  - apply IH; [| done]. apply elem_of_cons in Hx as [-> | ?]; [done | done].
  - destruct (decide (k x = k y)) as [Heq |].
    + exists y. set_solver.
    + destruct (IH (k y :: seen)) as (z & ? & ?); set_solver.
Qed.

Lemma unique_by_NoDup seen l : NoDup (k <$> unique_by k seen l).
Proof.
  revert seen; induction l as [| y l IH]; intros seen; cbn; [constructor |].
  case_bool_decide; [done |]. cbn. constructor; [| done].
  intros (z & Hz & Hin)%list_elem_of_fmap. apply unique_by_subset in Hin. set_solver.
Qed.

Lemma unique_by_id seen l :
  NoDup (k <$> l) → (∀ x, x ∈ l → k x ∉ seen) → unique_by k seen l = l.
Proof.
  revert seen; induction l as [| y l IH]; intros seen; cbn; [done |].
  intros [Hy Hnd]%NoDup_cons Hs. rewrite bool_decide_eq_false_2 by set_solver.
  f_equal. apply IH; [done |]. intros x Hx.
  assert (k x ∈ k <$> l) by (by apply list_elem_of_fmap_2). set_solver.
Qed.
End unique_by.

Lemma filter_none {A} (P : A → Prop) `{!∀ x, Decision (P x)} (l : list A) :
  (∀ x, x ∈ l → ~ P x) → filter P l = [].
Proof.
  induction l as [| x l IH]; intros Hl; [done |]. rewrite filter_cons_False by (apply Hl; set_solver).
  apply IH. set_solver.
Qed.

Lemma filter_all {A} (P : A → Prop) `{!∀ x, Decision (P x)} (l : list A) :
  (∀ x, x ∈ l → P x) → filter P l = l.
Proof.
  induction l as [| x l IH]; intros Hl; [done |]. rewrite filter_cons_True by (apply Hl; set_solver).
  f_equal. apply IH. set_solver.
Qed.

(** A fold whose body preserves an observation preserves it. *)
Lemma fold_left_preserves {A B C} (obs : A → C) (f : A → B → A) l a :
  (∀ a b, obs (f a b) = obs a) → obs (fold_left f l a) = obs a.
Proof. intros Hf. revert a; induction l as [| b l IH]; intros a; cbn; [done |]. by rewrite IH. Qed.

(** ** Effects

    Methods that read and write shared state and may raise.  A raised exception
    keeps the state it reached: neither SQLite connection rolls back on an
    exception of its own (the one explicit [rollback], in the registry, is
    modelled where it is called). *)

Definition Eff (S E A : Type) : Type := S → S * (E + A).

#[export] Instance eff_ret {S E} : MRet (Eff S E) := λ A a s, (s, inr a).
#[export] Instance eff_bind {S E} : MBind (Eff S E) := λ A B f c s,
  match c s with
  | (s', inl e) => (s', inl e)
  | (s', inr a) => f a s'
  end.

Definition raise {S E A} (e : E) : Eff S E A := λ s, (s, inl e).
Definition gets {S E A} (f : S → A) : Eff S E A := λ s, (s, inr (f s)).
Definition modify {S E} (f : S → S) : Eff S E unit := λ s, (f s, inr tt).

(** [for x in xs: body(x)] *)
Fixpoint for_each {S E A} (body : A → Eff S E unit) (l : list A) : Eff S E unit :=
  match l with
  | [] => mret tt
  | x :: xs => body x ;; for_each body xs
  end.

(** [wp c Q R s]: running [c] from [s] either returns a value satisfying [Q] or
    raises an exception satisfying [R]. *)
Definition wp {S E A} (c : Eff S E A) (Q : A → S → Prop) (R : E → S → Prop) (s : S) : Prop :=
  match c s with
  | (s', inr a) => Q a s'
  | (s', inl e) => R e s'
  end.

Section wp.
  Context {S E : Type}.
  Implicit Types (s : S).

Lemma wp_ret {A} (a : A) (Q : A → S → Prop) (R : E → S → Prop) s :
  Q a s → wp (mret a) Q R s.
Proof. done. Qed.

Lemma wp_raise {A} e (Q : A → S → Prop) (R : E → S → Prop) s :
  R e s → wp (raise e) Q R s.
Proof. done. Qed.

Lemma wp_gets {A} (f : S → A) (Q : A → S → Prop) (R : E → S → Prop) s :
  Q (f s) s → wp (gets f) Q R s.
Proof. done. Qed.

Lemma wp_modify f (Q : unit → S → Prop) (R : E → S → Prop) s :
  Q tt (f s) → wp (modify f) Q R s.
Proof. done. Qed.

Lemma wp_bind {A B} (c : Eff S E A) (f : A → Eff S E B) Q R s :
  wp c (λ a s', wp (f a) Q R s') R s → wp (c ≫= f) Q R s.
Proof. unfold wp, mbind, eff_bind. by destruct (c s) as [s' [e | a]]. Qed.

Lemma wp_mono {A} (c : Eff S E A) (Q Q' : A → S → Prop) (R R' : E → S → Prop) s :
  (∀ a s', Q a s' → Q' a s') → (∀ e s', R e s' → R' e s') →
  wp c Q R s → wp c Q' R' s.
Proof. unfold wp. destruct (c s) as [s' [e | a]]; auto. Qed.

  (** Sequencing through an intermediate assertion. *)
Lemma wp_seq {A B} (P : A → S → Prop) (c : Eff S E A) (f : A → Eff S E B) Q R s :
  wp c P R s → (∀ a s', P a s' → wp (f a) Q R s') → wp (c ≫= f) Q R s.
Proof. intros Hc Hf. apply wp_bind. eapply wp_mono; [| done | done]. intros a s'. apply Hf. Qed.

Lemma wp_elim {A} (c : Eff S E A) Q R s s' r :
  wp c Q R s → c s = (s', r) → match r with inr a => Q a s' | inl e => R e s' end.
Proof. unfold wp. intros Hwp Hc. rewrite Hc in Hwp. by destruct r. Qed.

  (** The loop rule: [I xs] holds with [xs] still to visit. *)
Lemma wp_for_each {A} (body : A → Eff S E unit) (I : list A → S → Prop) R l s :
  I l s →
  (∀ x xs s', I (x :: xs) s' → wp (body x) (λ _, I xs) R s') →
  wp (for_each body l) (λ _, I []) R s.
Proof.
  intros HI Hbody. revert s HI; induction l as [| x l IH]; intros s HI; [done |].
  apply wp_bind. eapply wp_mono; [| done | by apply Hbody].
  intros ? s' HI'. by apply IH.
Qed.
End wp.

(** Step through straight-line effectful code. *)
Ltac wp_step :=
  lazymatch goal with
  | |- wp (mbind _ _) _ _ _ => apply wp_bind
  | |- wp (mret _) _ _ _ => apply wp_ret
  | |- wp (raise _) _ _ _ => apply wp_raise
  | |- wp (gets _) _ _ _ => apply wp_gets
  | |- wp (modify _) _ _ _ => apply wp_modify
  | |- wp (match _ with _ => _ end) _ _ _ => case_match
  end; cbn beta.
