(* ===== verification/ODict.v ===== *)
(** * Insertion-ordered dictionaries

    Python's [dict] (and [OrderedDict]) where the iteration order is observable:
    an association list without repeated keys.  Assignment to a present key
    keeps its place; a new key goes to the end. *)

From S2P Require Export Prelude.

Abbreviation odict A := (list (string * A)).

Section odict.
  Context {A : Type}.
  Implicit Types (m : odict A) (k : string) (x : A).

(** [m.get(k)] *)
Fixpoint od_get k m : option A :=
  match m with
  | [] => None
  | (k', x) :: m => if bool_decide (k = k') then Some x else od_get k m
  end.

(** [m[k] = x] *)
Fixpoint od_set k x m : odict A :=
  match m with
  | [] => [(k, x)]
  | (k', y) :: m => if bool_decide (k = k') then (k, x) :: m else (k', y) :: od_set k x m
  end.

(** [m.pop(k, None)], the remaining dictionary *)
Definition od_pop k m : odict A := filter (λ p, p.1 ≠ k) m.

(** [OrderedDict.move_to_end(k)] *)
Definition od_move_to_end k m : odict A :=
  match od_get k m with
  | Some x => od_pop k m ++ [(k, x)]
  | None => m
  end.

Definition od_keys m : list string := m.*1.

Definition od_wf m : Prop := NoDup m.*1.

Lemma od_get_elem k x m : od_get k m = Some x → (k, x) ∈ m.
Proof.
  induction m as [| [k' y] m IH]; [done |]. cbn. case_bool_decide; [| set_solver].
  intros [= ->]. subst. apply list_elem_of_here.
Qed.

Lemma od_get_None k m : od_get k m = None ↔ k ∉ m.*1.
Proof.
  induction m as [| [k' y] m IH]; cbn; [set_solver |]. case_bool_decide; set_solver.
Qed.

Lemma od_get_is_Some k m : is_Some (od_get k m) ↔ k ∈ m.*1.
Proof.
  destruct (od_get k m) eqn:Hk.
  - split; [intros _ | by eexists]. apply od_get_elem in Hk. by apply (list_elem_of_fmap_2 fst) in Hk.
  - apply od_get_None in Hk. split; [by intros [] | done].
Qed.

Lemma elem_of_od_get k x m : od_wf m → (k, x) ∈ m → od_get k m = Some x.
Proof.
  unfold od_wf. induction m as [| [k' y] m IH]; [set_solver |]. cbn. intros [Hk Hm]%NoDup_cons.
  intros [[= -> ->] | Hin]%elem_of_cons; [by rewrite bool_decide_eq_true_2 |].
  rewrite bool_decide_eq_false_2; [by apply IH |]. intros ->. apply Hk.
  by apply (list_elem_of_fmap_2 fst) in Hin.
Qed.

Lemma od_get_set k x m k' : od_get k' (od_set k x m) = if bool_decide (k' = k) then Some x else od_get k' m.
Proof.
  induction m as [| [k0 y] m IH]; cbn; [done |].
  destruct (bool_decide (k = k0)) eqn:H1; cbn; reflect_bools.
  - subst. by destruct (bool_decide (k' = k0)).
  - rewrite IH. destruct (bool_decide (k' = k0)) eqn:H2, (bool_decide (k' = k)) eqn:H3; reflect_bools; congruence.
Qed.

Lemma od_get_set_eq k x m : od_get k (od_set k x m) = Some x.
Proof. rewrite od_get_set. by rewrite bool_decide_eq_true_2. Qed.

Lemma od_get_set_ne k k' x m : k' ≠ k → od_get k' (od_set k x m) = od_get k' m.
Proof. intros ?. rewrite od_get_set. by rewrite bool_decide_eq_false_2. Qed.

Lemma od_set_keys k x m : (od_set k x m).*1 = if bool_decide (k ∈ m.*1) then m.*1 else m.*1 ++ [k].
Proof.
  induction m as [| [k' y] m IH]; cbn.
  - by rewrite bool_decide_eq_false_2 by set_solver.
  - destruct (decide (k = k')) as [-> |].
    + rewrite !bool_decide_eq_true_2; [done | set_solver | done].
    + rewrite (bool_decide_eq_false_2 (k = k')) by done. cbn. rewrite IH. destruct (decide (k ∈ m.*1)).
      * rewrite !bool_decide_eq_true_2; [done | set_solver | done].
      * rewrite !bool_decide_eq_false_2; [done | set_solver | done].
Qed.

Lemma od_set_wf k x m : od_wf m → od_wf (od_set k x m).
Proof.
  unfold od_wf. rewrite od_set_keys. case_bool_decide; [done |]. intros Hm.
  apply NoDup_app. split_and!; [done | set_solver | apply NoDup_singleton].
Qed.

Lemma od_set_present k x m :
  k ∈ m.*1 → length (od_set k x m) = length m.
Proof.
  intros Hk. rewrite <- !(length_fmap fst), od_set_keys. by rewrite bool_decide_eq_true_2.
Qed.

Lemma od_pop_keys k m : (od_pop k m).*1 = filter (λ k', k' ≠ k) m.*1.
Proof.
  unfold od_pop. induction m as [| [k' y] m IH]; [done |]. cbn [fmap list_fmap fst].
  rewrite !filter_cons. cbn [fst]. destruct (decide (k' ≠ k)); cbn; by rewrite IH.
Qed.

Lemma od_pop_wf k m : od_wf m → od_wf (od_pop k m).
Proof. unfold od_wf. rewrite od_pop_keys. apply NoDup_filter. Qed.

Lemma od_get_pop k k' m : od_get k' (od_pop k m) = if bool_decide (k' = k) then None else od_get k' m.
Proof.
  unfold od_pop. induction m as [| [k0 y] m IH]; [by destruct (bool_decide _) |].
  rewrite filter_cons. cbn [fst od_get]. destruct (decide (k0 ≠ k)); cbn [od_get]; rewrite IH;
    destruct (bool_decide (k' = k0)) eqn:H2, (bool_decide (k' = k)) eqn:H3; reflect_bools; try congruence; naive_solver.
Qed.

Lemma elem_of_od_pop k p m : p ∈ od_pop k m ↔ p ∈ m ∧ p.1 ≠ k.
Proof. unfold od_pop. rewrite list_elem_of_filter. tauto. Qed.

Lemma od_pop_absent k m : k ∉ m.*1 → od_pop k m = m.
Proof. intros Hk. apply filter_all. intros [k' x] Hin Heq. cbn in Heq. subst. apply Hk. by apply (list_elem_of_fmap_2 fst) in Hin. Qed.

Lemma od_get_move k k' m : od_get k' (od_move_to_end k m) = od_get k' m.
Proof.
  unfold od_move_to_end. destruct (od_get k m) as [x |] eqn:Hk; [| done].
  assert (H : ∀ l, od_get k' (l ++ [(k, x)]) =
    match od_get k' l with Some y => Some y | None => if bool_decide (k' = k) then Some x else None end).
  { induction l as [| [k0 y] l IH]; cbn; [done |]. by destruct (bool_decide (k' = k0)). }
  rewrite H, od_get_pop. case_bool_decide; [congruence | by destruct (od_get k' m)].
Qed.

Lemma od_move_perm k m : od_wf m → od_move_to_end k m ≡ₚ m.
Proof.
  unfold od_wf, od_move_to_end. destruct (od_get k m) as [x |] eqn:Hk; [| done]. intros Hm.
  apply NoDup_Permutation.
  - apply (NoDup_fmap_1 fst). rewrite fmap_app, od_pop_keys. cbn. apply NoDup_app. split_and!.
    + by apply NoDup_filter.
    + intros k' [Hne _]%list_elem_of_filter. set_solver.
    + apply NoDup_singleton.
  - by apply (NoDup_fmap_1 fst).
  - intros [k' y]. rewrite elem_of_app, elem_of_od_pop. cbn. split.
    + intros [[? _] | [= -> ->]%list_elem_of_singleton]; [done |]. by apply od_get_elem.
    + intros Hin. destruct (decide (k' = k)) as [-> |]; [| by left]. right.
      apply elem_of_od_get in Hin; [| done]. simplify_eq. apply list_elem_of_here.
Qed.

Lemma od_move_wf k m : od_wf m → od_wf (od_move_to_end k m).
Proof. intros Hm. unfold od_wf. by rewrite (od_move_perm k m Hm). Qed.
End odict.

Lemma bool_decide_elem_cons (k k' : string) (l : list string) :
  bool_decide (k ∈ k' :: l) = bool_decide (k = k') || bool_decide (k ∈ l).
Proof. rewrite <- bool_decide_or. apply bool_decide_ext. apply elem_of_cons. Qed.

Lemma od_set_fresh {A} (m : odict A) k x : k ∉ m.*1 → od_set k x m = m ++ [(k, x)].
Proof.
  induction m as [| [k' y] m IH]; intros Hk; [done |]. cbn. rewrite bool_decide_eq_false_2 by set_solver.
  rewrite IH by set_solver. done.
Qed.
