(* ===== verification/Bytes.v ===== *)
(** * Bytes and text

    The parts of Python's [bytes] and [str] the coordinator and the model mesh
    use: hexadecimal, JSON string literals, [strip], [partition], [split], [lower] and [join].  A [str]
    is a sequence of code points below 256; where a digest is taken of it, it is
    ASCII, so its UTF-8 encoding is itself. *)

From Stdlib Require Export Strings.Byte Ascii.
From S2P Require Export Prelude.

Abbreviation bytes := (list byte).

#[export] Instance byte_eq_dec : EqDecision byte := Byte.byte_eq_dec.

(** ** Hexadecimal *)

Definition hex_digit (n : N) : ascii := Ascii.ascii_of_N (if (n <? 10)%N then n + 48 else n + 87).

Definition hex_byte (b : byte) : list ascii := [hex_digit (Byte.to_N b / 16); hex_digit (Byte.to_N b mod 16)].

(** [bytes.hex()] *)
Definition to_hex (bs : bytes) : string := String.string_of_list_ascii (bs ≫= hex_byte).

Definition hex_value (c : ascii) : option N :=
  let n := Ascii.N_of_ascii c in
  if (48 <=? n)%N && (n <=? 57)%N then Some (n - 48)%N
  else if (97 <=? n)%N && (n <=? 102)%N then Some (n - 87)%N
  else if (65 <=? n)%N && (n <=? 70)%N then Some (n - 55)%N
  else None.

Definition is_space (c : ascii) : bool :=
  let n := Ascii.N_of_ascii c in (n =? 32)%N || ((9 <=? n)%N && (n <=? 13)%N).

Fixpoint hex_parse (l : list ascii) : option bytes :=
  match l with
  | [] => Some []
  | c :: l =>
      if is_space c then hex_parse l
      else
        match l with
        | [] => None
        | d :: l =>
            hi ← hex_value c; lo ← hex_value d; b ← Byte.of_N (hi * 16 + lo);
            rest ← hex_parse l; Some (b :: rest)
        end
  end.

(** [bytes.fromhex(s)]; [None] is its [ValueError]. *)
Definition from_hex (s : string) : option bytes := hex_parse (String.list_ascii_of_string s).

(** ** JSON strings, as [json.dumps] writes them (ensure_ascii) *)

Definition json_char (c : ascii) : list ascii :=
  let n := Ascii.N_of_ascii c in
  let bs := "\"%char in
  if (n =? 34)%N then [bs; c]
  else if (n =? 92)%N then [bs; c]
  else if (n =? 10)%N then [bs; "n"%char]
  else if (n =? 13)%N then [bs; "r"%char]
  else if (n =? 9)%N then [bs; "t"%char]
  else if (n =? 8)%N then [bs; "b"%char]
  else if (n =? 12)%N then [bs; "f"%char]
  else if (n <? 32)%N || (126 <? n)%N
  then [bs; "u"%char; "0"%char; "0"%char; hex_digit (n / 16); hex_digit (n mod 16)]
  else [c].

Definition json_string (s : string) : string :=
  let quote := String.string_of_list_ascii [Ascii.ascii_of_N 34] in
  quote +:+ String.string_of_list_ascii (String.list_ascii_of_string s ≫= json_char) +:+ quote.

(** [str.strip()] *)
Definition is_py_space (c : ascii) : bool :=
  let n := Ascii.N_of_ascii c in
  ((9 <=? n)%N && (n <=? 13)%N) || ((28 <=? n)%N && (n <=? 32)%N) || (n =? 133)%N || (n =? 160)%N.

Fixpoint lstrip (l : list ascii) : list ascii :=
  match l with
  | c :: rest => if is_py_space c then lstrip rest else l
  | [] => []
  end.

Definition strip (s : string) : string :=
  String.string_of_list_ascii (reverse (lstrip (reverse (lstrip (String.list_ascii_of_string s))))).

(** [s.partition(c)], without the separator *)
Fixpoint str_partition (c : ascii) (s : string) : string * string :=
  match s with
  | EmptyString => ("", "")
  | String d s => if bool_decide (d = c) then ("", s) else let '(a, b) := str_partition c s in (String d a, b)
  end.

(** [s.split(c)] *)
Fixpoint split_on (c : ascii) (s : string) : list string :=
  match s with
  | EmptyString => [""]
  | String d s =>
      match split_on c s with
      | w :: ws => if bool_decide (d = c) then "" :: w :: ws else String d w :: ws
      | [] => []
      end
  end.

(** [str.lower()] on ASCII *)
Definition lower (s : string) : string :=
  String.string_of_list_ascii ((λ c,
    let n := Ascii.N_of_ascii c in
    if (65 <=? n)%N && (n <=? 90)%N then Ascii.ascii_of_N (n + 32) else c) <$> String.list_ascii_of_string s).

Fixpoint join (sep : string) (l : list string) : string :=
  match l with
  | [] => ""
  | [x] => x
  | x :: l => x +:+ sep +:+ join sep l
  end.

(** [int(text)]: an optional sign and decimal digits, single underscores between
    digits, surrounded by whitespace. *)
Definition digit_value (c : ascii) : option Z :=
  let n := Z.of_N (Ascii.N_of_ascii c) in
  if (48 <=? n)%Z && (n <=? 57)%Z then Some (n - 48)%Z else None.

Fixpoint py_digits (l : list ascii) (acc : Z) : option Z :=
  match l with
  | [] => Some acc
  | c :: rest =>
      match digit_value c with
      | Some d => py_digits rest (acc * 10 + d)
      | None =>
          if bool_decide (c = "_"%char) then
            match rest with
            | c' :: rest' => d ← digit_value c'; py_digits rest' (acc * 10 + d)
            | [] => None
            end
          else None
      end
  end.

Definition py_unsigned (l : list ascii) : option Z :=
  match l with
  | c :: rest => d ← digit_value c; py_digits rest d
  | [] => None
  end.

Definition py_int (text : string) : option Z :=
  match String.list_ascii_of_string (strip text) with
  | c :: rest =>
      if bool_decide (c = "-"%char) then Z.opp <$> py_unsigned rest
      else if bool_decide (c = "+"%char) then py_unsigned rest
      else py_unsigned (c :: rest)
  | [] => None
  end.

(** ** Hexadecimal is faithful *)

Lemma hex_byte_parse b l : hex_parse (hex_byte b ++ l) = cons b <$> hex_parse l.
Proof. destruct b; cbn; by destruct (hex_parse l). Qed.

Lemma hex_roundtrip bs : from_hex (to_hex bs) = Some bs.
Proof.
  unfold from_hex, to_hex. rewrite String.list_ascii_of_string_of_list_ascii.
  induction bs as [| b bs IH]; [done |]. rewrite bind_cons, hex_byte_parse, IH. done.
Qed.

Lemma to_hex_inj bs bs' : to_hex bs = to_hex bs' → bs = bs'.
Proof. intros H. apply (f_equal from_hex) in H. rewrite !hex_roundtrip in H. by simplify_eq. Qed.

(** Two inputs with one digest. *)
Definition collision (sha256 : bytes → bytes) : Prop := ∃ a b, a ≠ b ∧ sha256 a = sha256 b.

(** ** Suffixed names *)

Lemma name_suffix name s : s ≠ "" → name +:+ s ≠ name.
Proof.
  intros Hs. induction name as [| c name IH]; [done |]. intros [= Heq]. by apply IH.
Qed.

Lemma suffix_inj name s s' : name +:+ s = name +:+ s' → s = s'.
Proof. induction name as [| c name IH]; [done |]. intros [= Heq]. by apply IH. Qed.
