(* ===== verification/Protocol.v ===== *)
(** * Wire types shared by the coordinator and the agents

    The enumerations and records of [fallow_protocol]
    (src/packages/fallow-protocol/src/fallow_protocol/: capabilities.py,
    models.py, messages.py) that the components below exchange.  A
    [datetime] is an [instant], the number of microseconds since
    0001-01-01T00:00:00 UTC; a Python [float] is an exact rational. *)

From S2P Require Export Prelude.

Abbreviation instant := Z.
Abbreviation agent_id := string.
Abbreviation model_id := string.
Abbreviation unit_id := string.
Abbreviation job_id := string.

(** ** Enumerations *)

Inductive OsFamily := WINDOWS | MACOS | LINUX.

Inductive WorkerKind := CHAT | EMBED | TRANSCRIBE.

Inductive ReplicaState := LOADING | READY | SUSPENDED | STOPPED.

Inductive AgentState := IDLE | ACTIVE | DRAINING.

Inductive EventKind :=
  | USER_RETURNED | USER_IDLE | REPLICA_READY | REPLICA_SUSPENDED
  | REPLICA_RESUMED | REPLICA_STOPPED | AGENT_STARTING | AGENT_STOPPING.

Inductive JobState := JOB_PENDING | JOB_RUNNING | JOB_DONE | JOB_CANCELLED.

Inductive WorkUnitState := PENDING | LEASED | DONE | DEAD.

Inductive WorkResultStatus := SUCCEEDED | FAILED.

#[export] Instance WorkerKind_eq_dec : EqDecision WorkerKind.
Proof. solve_decision. Defined.
#[export] Instance ReplicaState_eq_dec : EqDecision ReplicaState.
Proof. solve_decision. Defined.
#[export] Instance AgentState_eq_dec : EqDecision AgentState.
Proof. solve_decision. Defined.
#[export] Instance EventKind_eq_dec : EqDecision EventKind.
Proof. solve_decision. Defined.
#[export] Instance JobState_eq_dec : EqDecision JobState.
Proof. solve_decision. Defined.
#[export] Instance WorkUnitState_eq_dec : EqDecision WorkUnitState.
Proof. solve_decision. Defined.
#[export] Instance WorkResultStatus_eq_dec : EqDecision WorkResultStatus.
Proof. solve_decision. Defined.

(** The [StrEnum] values, as written to SQLite and to the JSONL logs. *)
Definition WorkUnitState_value (s : WorkUnitState) : string :=
  match s with
  | PENDING => "pending" | LEASED => "leased" | DONE => "done" | DEAD => "dead"
  end.

(** [WorkUnitState(value)]: [None] stands for the [ValueError] of an unknown
    value. *)
Definition WorkUnitState_of (v : string) : option WorkUnitState :=
  if bool_decide (v = "pending") then Some PENDING
  else if bool_decide (v = "leased") then Some LEASED
  else if bool_decide (v = "done") then Some DONE
  else if bool_decide (v = "dead") then Some DEAD
  else None.

Definition EventKind_value (k : EventKind) : string :=
  match k with
  | USER_RETURNED => "user_returned" | USER_IDLE => "user_idle"
  | REPLICA_READY => "replica_ready" | REPLICA_SUSPENDED => "replica_suspended"
  | REPLICA_RESUMED => "replica_resumed" | REPLICA_STOPPED => "replica_stopped"
  | AGENT_STARTING => "agent_starting" | AGENT_STOPPING => "agent_stopping"
  end.

(** ** Devices and models *)

Record GpuInfo := { gi_index : Z; gi_name : string; gi_vendor : string; gi_vram_mb : Z }.

Record GpuStatus := {
  gs_index : Z; gs_vram_free_mb : Z; gs_util_percent : Q;
  gs_power_w : option Q; gs_temp_c : option Q
}.

Record DeviceCaps := {
  dc_hostname : string; dc_os : OsFamily; dc_os_version : string; dc_cpu_model : string;
  dc_cpu_cores : Z; dc_ram_mb : Z; dc_disk_free_mb : Z;
  dc_gpus : list GpuInfo; dc_agent_version : string
}.

Record ModelManifest := {
  mm_model_id : model_id; mm_family : string; mm_quant : string; mm_worker_kind : WorkerKind;
  mm_file_name : string; mm_sha256 : string; mm_size_bytes : Z; mm_min_ram_mb : Z;
  mm_min_vram_mb : Z; mm_default_args : list string; mm_chat_template_hint : option string;
  mm_license : option string; mm_source_url : option string
}.

Record ReplicaStatus := {
  rs_model_id : model_id; rs_port : Z; rs_state : ReplicaState;
  rs_inflight : Z; rs_gpu : bool
}.

Record AgentSnapshot := {
  as_agent_id : agent_id; as_host : string; as_state : AgentState; as_suspect : bool;
  as_caps : DeviceCaps; as_mem_available_mb : Z; as_gpus : list GpuStatus;
  as_replicas : list ReplicaStatus; as_user_idle_s : Q; as_serving_paused : bool;
  as_predicted_idle_remaining_s : option Q; as_predicted_idle_confidence : option Q
}.

Record ReplicaEndpoint := {
  re_agent_id : agent_id; re_host : string; re_port : Z;
  re_model_id : model_id; re_inflight : Z
}.

#[export] Instance ReplicaStatus_eq_dec : EqDecision ReplicaStatus.
Proof. solve_decision. Defined.
#[export] Instance ReplicaEndpoint_eq_dec : EqDecision ReplicaEndpoint.
Proof. solve_decision. Defined.

(** ** Registration, heartbeats and events *)

Record AgentConfig := {
  ac_heartbeat_interval_s : Q; ac_idle_threshold_s : Q; ac_poll_interval_ms : Z;
  ac_vram_evict_after_s : Q; ac_bench_mode : bool; ac_assigned_models : list model_id
}.

(** The defaults an agent gets when the operator sets nothing. *)
Definition default_agent_config : AgentConfig := {|
  ac_heartbeat_interval_s := 5; ac_idle_threshold_s := 120; ac_poll_interval_ms := 100;
  ac_vram_evict_after_s := 60; ac_bench_mode := false; ac_assigned_models := [] |}.

Record Heartbeat := {
  hb_agent_id : agent_id; hb_seq : Z; hb_sent_at : instant; hb_protocol_version : Z;
  hb_state : AgentState; hb_user_idle_s : Q; hb_cpu_percent : Q; hb_mem_available_mb : Z;
  hb_load_avg : option Q; hb_temp_cpu_c : option Q; hb_gpus : list GpuStatus;
  hb_replicas : list ReplicaStatus; hb_lease_ids : list unit_id; hb_serving_paused : bool;
  hb_predicted_idle_remaining_s : option Q; hb_predicted_idle_confidence : option Q
}.

Record HeartbeatResponse := {
  hr_desired_models : list model_id; hr_revoked_lease_ids : list unit_id;
  hr_config : option AgentConfig
}.

Record AgentEvent := {
  ev_agent_id : agent_id; ev_kind : EventKind; ev_at : instant; ev_detail : gmap string string
}.

(** ** Batch jobs and work units *)

Record JobSubmit := {
  js_kind : WorkerKind; js_model_id : model_id; js_payload_ref : string;
  js_params : gmap string string; js_priority : Z
}.

Record WorkUnitSpec := {
  us_work_unit_id : unit_id; us_idx : Z; us_input_ref : string;
  us_est_duration_s : option Q
}.

Record WorkMetrics := { wm_duration_s : Q; wm_items : option Z; wm_tokens : option Z }.

Record WorkResult := {
  wr_work_unit_id : unit_id; wr_status : WorkResultStatus;
  wr_result_ref : option string; wr_error : option string;
  wr_metrics : option WorkMetrics
}.

Record UnitTransition := {
  ut_work_unit_id : unit_id; ut_job_id : job_id; ut_agent_id : agent_id;
  ut_attempt : Z; ut_state : WorkUnitState; ut_at : instant
}.

Record WorkUnitLease := {
  wl_work_unit_id : unit_id; wl_job_id : job_id; wl_kind : WorkerKind;
  wl_model_id : model_id; wl_input_url : string; wl_lease_expires : instant;
  wl_attempt : Z; wl_est_duration_s : option Q
}.

Record JobStatus := {
  st_job_id : job_id; st_state : JobState;
  st_total_units : nat; st_done_units : nat; st_dead_units : nat
}.

#[export] Instance Q_eq_dec : EqDecision Q.
Proof. solve_decision. Defined.
#[export] Instance WorkMetrics_eq_dec : EqDecision WorkMetrics.
Proof. solve_decision. Defined.
#[export] Instance WorkUnitSpec_eq_dec : EqDecision WorkUnitSpec.
Proof. solve_decision. Defined.

(** Parsing a stored unit state inverts printing it. *)
Lemma WorkUnitState_of_value s : WorkUnitState_of (WorkUnitState_value s) = Some s.
Proof. by destruct s. Qed.

Lemma WorkUnitState_of_Some v s : WorkUnitState_of v = Some s → v = WorkUnitState_value s.
Proof. unfold WorkUnitState_of. repeat case_bool_decide; naive_solver. Qed.
