(* ===== verification/QueueDb.v ===== *)
(** * The queue's database: tables, pure helpers and SQL statements

    Models src/packages/fallow-coordinator/src/fallow_coordinator/queue/:
    schema.sql (the tables), _constants.py, _serialization.py, _jobstate.py and
    the statements of _sql.py.  Every table is a finite map from its primary key
    to the remaining columns; a nullable column is an [option]; a statement is a
    function from the database to the database or to its rows.

    Stored timestamps are [instant]s.  The store writes them as fixed-width
    ISO-8601 text in UTC and compares the text, which orders it as the instants.  [params_json] keeps the parameter dictionary
    itself, of which the stored text is the canonical (sorted-key) encoding, and
    [metrics_json] likewise. *)

From S2P Require Export Protocol.

(** ** Tables *)

Record JobRow := {
  j_kind : WorkerKind; j_model_id : model_id; j_payload_ref : string;
  j_params : gmap string string; j_priority : Z; j_state : JobState;
  j_created_at : instant
}.

Record UnitRow := {
  u_job_id : job_id; u_idx : Z; u_input_ref : string; u_est_duration_s : option Q;
  u_state : WorkUnitState; u_attempts : Z; u_lease_agent : option agent_id;
  u_lease_expires : option instant; u_created_at : instant
}.

Record ResultRow := {
  r_status : WorkResultStatus; r_result_ref : option string; r_error : option string;
  r_metrics : option WorkMetrics; r_agent_id : agent_id; r_completed_at : instant
}.

Record BindingRow := {
  b_agent_id : agent_id; b_digest : string; b_result_ref : string; b_accepted_at : instant
}.

Record MemberRow := {
  m_idx : Z; m_input_ref : string; m_terminal_state : option WorkUnitState;
  m_result_status : option WorkResultStatus; m_result_ref : option string
}.

Record BackupRow := {
  bl_job_id : job_id; bl_agent_id : agent_id; bl_attempt : Z;
  bl_lease_expires : instant; bl_created_at : instant
}.

(** The database, and the transitions the observer has been called with. *)
Record Db := {
  jobs : gmap job_id JobRow;
  work_units : gmap unit_id UnitRow;
  unit_results : gmap unit_id ResultRow;
  result_payload_bindings : gmap (unit_id * Z) BindingRow;
  job_unit_memberships : gmap (job_id * unit_id) MemberRow;
  job_finalizations : gmap job_id Z;
  backup_leases : gmap unit_id BackupRow;
  emitted : list UnitTransition
}.

Definition empty_db : Db := {|
  jobs := ∅; work_units := ∅; unit_results := ∅; result_payload_bindings := ∅;
  job_unit_memberships := ∅; job_finalizations := ∅; backup_leases := ∅; emitted := []
|}.

(** Functional update of one table. *)
Definition on_jobs f (d : Db) : Db := {|
  jobs := f (jobs d); work_units := work_units d; unit_results := unit_results d;
  result_payload_bindings := result_payload_bindings d;
  job_unit_memberships := job_unit_memberships d; job_finalizations := job_finalizations d;
  backup_leases := backup_leases d; emitted := emitted d |}.

Definition on_units f (d : Db) : Db := {|
  jobs := jobs d; work_units := f (work_units d); unit_results := unit_results d;
  result_payload_bindings := result_payload_bindings d;
  job_unit_memberships := job_unit_memberships d; job_finalizations := job_finalizations d;
  backup_leases := backup_leases d; emitted := emitted d |}.

Definition on_results f (d : Db) : Db := {|
  jobs := jobs d; work_units := work_units d; unit_results := f (unit_results d);
  result_payload_bindings := result_payload_bindings d;
  job_unit_memberships := job_unit_memberships d; job_finalizations := job_finalizations d;
  backup_leases := backup_leases d; emitted := emitted d |}.

Definition on_bindings f (d : Db) : Db := {|
  jobs := jobs d; work_units := work_units d; unit_results := unit_results d;
  result_payload_bindings := f (result_payload_bindings d);
  job_unit_memberships := job_unit_memberships d; job_finalizations := job_finalizations d;
  backup_leases := backup_leases d; emitted := emitted d |}.

Definition on_members f (d : Db) : Db := {|
  jobs := jobs d; work_units := work_units d; unit_results := unit_results d;
  result_payload_bindings := result_payload_bindings d;
  job_unit_memberships := f (job_unit_memberships d); job_finalizations := job_finalizations d;
  backup_leases := backup_leases d; emitted := emitted d |}.

Definition on_finalizations f (d : Db) : Db := {|
  jobs := jobs d; work_units := work_units d; unit_results := unit_results d;
  result_payload_bindings := result_payload_bindings d;
  job_unit_memberships := job_unit_memberships d; job_finalizations := f (job_finalizations d);
  backup_leases := backup_leases d; emitted := emitted d |}.

Definition on_backups f (d : Db) : Db := {|
  jobs := jobs d; work_units := work_units d; unit_results := unit_results d;
  result_payload_bindings := result_payload_bindings d;
  job_unit_memberships := job_unit_memberships d; job_finalizations := job_finalizations d;
  backup_leases := f (backup_leases d); emitted := emitted d |}.

Definition on_emitted f (d : Db) : Db := {|
  jobs := jobs d; work_units := work_units d; unit_results := unit_results d;
  result_payload_bindings := result_payload_bindings d;
  job_unit_memberships := job_unit_memberships d; job_finalizations := job_finalizations d;
  backup_leases := backup_leases d; emitted := f (emitted d) |}.

(** ** Constants and serialization helpers *)

Definition LEASE_EST_MULTIPLIER : Q := 2.
Definition DEFAULT_LEASE_S : Q := 120.
Definition DEFAULT_MAX_ATTEMPTS : Z := 4.

(** [timedelta(seconds=s)] keeps whole microseconds, rounding halves to even. *)
Definition round_half_even (q : Q) : Z :=
  let f := Qfloor q in
  let r := (q - inject_Z f)%Q in
  if r <?q (1 # 2) then f
  else if (1 # 2) <?q r then (f + 1)%Z
  else if Z.even f then f else (f + 1)%Z.

Definition timedelta_us (seconds : Q) : Z := round_half_even (seconds * 1000000).

Definition lease_window_s (est_duration_s : option Q) (default_lease_s : Q) : Q :=
  let estimated := (default 0 est_duration_s * LEASE_EST_MULTIPLIER)%Q in
  if estimated <?q default_lease_s then default_lease_s else estimated.

Definition lease_expiry (now : instant) (est_duration_s : option Q) (default_lease_s : Q)
    : instant :=
  (now + timedelta_us (lease_window_s est_duration_s default_lease_s))%Z.

Definition result_row (result : WorkResult) (agent : agent_id) (completed_at : instant)
    : ResultRow := {|
  r_status := wr_status result; r_result_ref := wr_result_ref result;
  r_error := wr_error result; r_metrics := wr_metrics result;
  r_agent_id := agent; r_completed_at := completed_at |}.

(** ** Job lifecycle *)

Record UnitCounts := {
  c_total : nat; c_pending : nat; c_leased : nat; c_done : nat; c_dead : nat
}.

Definition next_job_state (counts : UnitCounts) : JobState :=
  if (c_total counts =? 0)%nat || ((c_pending counts =? 0)%nat && (c_leased counts =? 0)%nat)
  then JOB_DONE
  else if (0 <? c_done counts + c_dead counts + c_leased counts)%nat then JOB_RUNNING
  else JOB_PENDING.

(** ** Row order

    A SELECT without a total ORDER BY returns its rows in an order SQLite does
    not promise.  The order is a parameter: any permutation of the table. *)

Class RowOrder := {
  rows : ∀ {A}, gmap string A → list (string * A);
  rows_perm : ∀ {A} (m : gmap string A), rows m ≡ₚ map_to_list m
}.

Definition key_row_order : RowOrder := {|
  rows := λ A m, map_to_list m; rows_perm := λ A m, Permutation_refl _ |}.

Lemma elem_of_rows `{!RowOrder} {A} (m : gmap string A) k x :
  (k, x) ∈ rows m ↔ m !! k = Some x.
Proof. rewrite rows_perm. apply elem_of_map_to_list. Qed.

(** ** Statements *)

Definition is_terminal (s : WorkUnitState) : bool :=
  match s with DONE | DEAD => true | PENDING | LEASED => false end.

Definition is_active (s : WorkUnitState) : bool := negb (is_terminal s).

(** [EXISTS (SELECT 1 FROM result_payload_bindings b WHERE ...)], the subquery
    that ties a result to a payload its agent uploaded. *)
Definition binding_exists (d : Db) (uid : unit_id) (agent : agent_id) (ref : string) : bool :=
  bool_decide (map_Exists (λ k b, k.1 = uid ∧ b_agent_id b = agent ∧ b_result_ref b = ref)
    (result_payload_bindings d)).

(** SELECT_SUCCEEDED_RESULTS for one id, which is also SELECT_COMPLETED_RESULT_REF. *)
Definition succeeded_ref (d : Db) (uid : unit_id) : option string :=
  r ← unit_results d !! uid;
  ref ← r_result_ref r;
  if bool_decide (r_status r = SUCCEEDED) && binding_exists d uid (r_agent_id r) ref
  then Some ref else None.

Definition SELECT_SUCCEEDED_RESULTS (d : Db) (ids : list unit_id) : gmap unit_id string :=
  list_to_map (omap (λ uid, (uid,.) <$> succeeded_ref d uid) ids).

(** The columns the membership table copies from a finished unit. *)
Definition outcome_status (d : Db) (uid : unit_id) (s : WorkUnitState)
    : option WorkResultStatus :=
  if bool_decide (s = DONE) then r_status <$> unit_results d !! uid else None.

Definition outcome_ref (d : Db) (uid : unit_id) (s : WorkUnitState) : option string :=
  if bool_decide (s = DONE) then succeeded_ref d uid else None.

Definition membership_of (d : Db) (uid : unit_id) (u : UnitRow) : MemberRow := {|
  m_idx := u_idx u; m_input_ref := u_input_ref u;
  m_terminal_state := if is_terminal (u_state u) then Some (u_state u) else None;
  m_result_status := outcome_status d uid (u_state u);
  m_result_ref := outcome_ref d uid (u_state u) |}.

(** INSERT OR IGNORE of every unit's membership in its owning job. *)
Definition BACKFILL_JOB_UNIT_MEMBERSHIPS (d : Db) : Db :=
  on_members (λ ms, ms ∪ list_to_map
    ((λ p : unit_id * UnitRow, ((u_job_id p.2, p.1), membership_of d p.1 p.2))
       <$> map_to_list (work_units d))) d.

(** Record the owner's outcome of a finished unit unless it already has one. *)
Definition SNAPSHOT_TERMINAL_OWNER (uid : unit_id) (d : Db) : Db :=
  match work_units d !! uid with
  | Some u =>
      if is_terminal (u_state u) then
        let row := membership_of d uid u in
        match job_unit_memberships d !! (u_job_id u, uid) with
        | None => on_members <[(u_job_id u, uid) := row]> d
        | Some m =>
            match m_terminal_state m with
            | Some _ => d
            | None =>
                on_members <[(u_job_id u, uid) := {|
                  m_idx := m_idx m; m_input_ref := m_input_ref m;
                  m_terminal_state := m_terminal_state row;
                  m_result_status := m_result_status row;
                  m_result_ref := m_result_ref row |}]> d
            end
        end
      else d
  | None => d
  end.

Definition DELETE_INCOMPLETE_RESULT_BINDINGS (uid : unit_id) : Db → Db :=
  on_bindings (filter (λ kb, kb.1.1 ≠ uid)).

Definition DELETE_STALE_RESULT (uid : unit_id) : Db → Db := on_results (delete uid).

Definition DELETE_BACKUP_LEASE (uid : unit_id) : Db → Db := on_backups (delete uid).

Definition UPSERT_WORK_UNIT (spec : WorkUnitSpec) (job : job_id) (s : WorkUnitState)
    (created_at : instant) : Db → Db :=
  on_units <[us_work_unit_id spec := {|
    u_job_id := job; u_idx := us_idx spec; u_input_ref := us_input_ref spec;
    u_est_duration_s := us_est_duration_s spec; u_state := s; u_attempts := 0%Z;
    u_lease_agent := None; u_lease_expires := None; u_created_at := created_at |}]>.

Definition with_state (s : WorkUnitState) (u : UnitRow) : UnitRow := {|
  u_job_id := u_job_id u; u_idx := u_idx u; u_input_ref := u_input_ref u;
  u_est_duration_s := u_est_duration_s u; u_state := s; u_attempts := u_attempts u;
  u_lease_agent := u_lease_agent u; u_lease_expires := u_lease_expires u;
  u_created_at := u_created_at u |}.

Definition with_lease (agent : agent_id) (expires : instant) (u : UnitRow) : UnitRow := {|
  u_job_id := u_job_id u; u_idx := u_idx u; u_input_ref := u_input_ref u;
  u_est_duration_s := u_est_duration_s u; u_state := LEASED;
  u_attempts := (u_attempts u + 1)%Z; u_lease_agent := Some agent;
  u_lease_expires := Some expires; u_created_at := u_created_at u |}.

Definition with_expiry (expires : instant) (u : UnitRow) : UnitRow := {|
  u_job_id := u_job_id u; u_idx := u_idx u; u_input_ref := u_input_ref u;
  u_est_duration_s := u_est_duration_s u; u_state := u_state u; u_attempts := u_attempts u;
  u_lease_agent := u_lease_agent u; u_lease_expires := Some expires;
  u_created_at := u_created_at u |}.

(** The candidate's sort key: highest priority, then oldest, then lowest index. *)
Definition candidate_key (c : unit_id * (UnitRow * JobRow)) : Z * (Z * Z) :=
  ((- j_priority c.2.2)%Z, (u_created_at c.2.1, u_idx c.2.1)).

(** The joined rows of SELECT_LEASE_CANDIDATE before ORDER BY and LIMIT. *)
Definition lease_candidates `{!RowOrder} (model_ids : list model_id) (d : Db)
    : list (unit_id * (UnitRow * JobRow)) :=
  omap (λ p : unit_id * UnitRow,
    j ← jobs d !! u_job_id p.2;
    if bool_decide (u_state p.2 = PENDING) && bool_decide (j_model_id j ∈ model_ids)
    then Some (p.1, (p.2, j)) else None) (rows (work_units d)).

Definition SELECT_LEASE_CANDIDATE `{!RowOrder} (model_ids : list model_id) (d : Db)
    : option (unit_id * (UnitRow * JobRow)) :=
  py_min candidate_key (lease_candidates model_ids d).

(** Is the unit leased to this agent ([state = 'leased' AND lease_agent = ?])? *)
Definition leased_to (agent : agent_id) (u : UnitRow) : bool :=
  bool_decide (u_state u = LEASED) && bool_decide (u_lease_agent u = Some agent).

(** Leased to some other agent; a NULL holder compares as unknown, hence false. *)
Definition leased_to_other (agent : agent_id) (u : UnitRow) : bool :=
  bool_decide (u_state u = LEASED) &&
  match u_lease_agent u with
  | Some holder => bool_decide (holder ≠ agent)
  | None => false
  end.

Definition EXTEND_LEASES (agent : agent_id) (ids : list unit_id) (expires : instant) : Db → Db :=
  on_units (map_imap (λ uid u,
    Some (if leased_to agent u && bool_decide (uid ∈ ids) then with_expiry expires u else u))).

Definition SELECTOR_EXPIRED (now : instant) (u : UnitRow) : bool :=
  bool_decide (u_state u = LEASED) &&
  match u_lease_expires u with Some e => (e <? now)%Z | None => false end.

Definition SELECTOR_BY_AGENT (agent : agent_id) : UnitRow → bool := leased_to agent.

(** UPDATE work_units SET state = s WHERE sel: the table after, and the rows. *)
Definition update_where (sel : UnitRow → bool) (s : WorkUnitState) : Db → Db :=
  on_units (fmap (λ u, if sel u then with_state s u else u)).

Definition returning_where (sel : UnitRow → bool) (d : Db) : list (unit_id * UnitRow) :=
  filter (λ p, sel p.2 = true) (map_to_list (work_units d)).

Definition MARK_UNIT_DONE (uid : unit_id) : Db → Db := on_units (alter (with_state DONE) uid).

Definition MARK_JOB_UNIT_TERMINAL (job : job_id) (uid : unit_id) (s : WorkUnitState)
    (status : option WorkResultStatus) (ref : option string) : Db → Db :=
  on_members (alter (λ m, {|
    m_idx := m_idx m; m_input_ref := m_input_ref m; m_terminal_state := Some s;
    m_result_status := status; m_result_ref := ref |}) (job, uid)).

(** INSERT OR IGNORE INTO unit_results. *)
Definition INSERT_RESULT (uid : unit_id) (row : ResultRow) (d : Db) : Db :=
  match unit_results d !! uid with
  | Some _ => d
  | None => on_results <[uid := row]> d
  end.

(** [COALESCE(m.terminal_state, u.state)] over the LEFT JOIN of a job's
    membership with the unit it still owns; NULL when the unit moved on. *)
Definition effective_state (d : Db) (job : job_id) (uid : unit_id) (m : MemberRow)
    : option WorkUnitState :=
  match m_terminal_state m with
  | Some s => Some s
  | None =>
      u ← work_units d !! uid;
      if bool_decide (u_job_id u = job) then Some (u_state u) else None
  end.

Definition job_members (d : Db) (job : job_id) : list (unit_id * MemberRow) :=
  (λ p : (job_id * unit_id) * MemberRow, (p.1.2, p.2))
    <$> filter (λ p, p.1.1 = job) (map_to_list (job_unit_memberships d)).

Definition count_state (d : Db) (job : job_id) (s : WorkUnitState) : nat :=
  length (filter (λ p, effective_state d job p.1 p.2 = Some s) (job_members d job)).

Definition COUNT_JOB_UNITS (d : Db) (job : job_id) : UnitCounts := {|
  c_total := length (job_members d job);
  c_pending := count_state d job PENDING;
  c_leased := count_state d job LEASED;
  c_done := count_state d job DONE;
  c_dead := count_state d job DEAD |}.

Definition with_job_state (s : JobState) (j : JobRow) : JobRow := {|
  j_kind := j_kind j; j_model_id := j_model_id j; j_payload_ref := j_payload_ref j;
  j_params := j_params j; j_priority := j_priority j; j_state := s;
  j_created_at := j_created_at j |}.

Definition SET_JOB_STATE (job : job_id) (s : JobState) : Db → Db :=
  on_jobs (alter (with_job_state s) job).
