(* ===== verification/QueueStore.v ===== *)
(** * The durable queue: [SqliteQueueStore]

    Models src/packages/fallow-coordinator/src/fallow_coordinator/queue/store.py.
    A method is an effect over the database [Db]; the reading of the injected
    clock and the fresh [uuid4] hex id are arguments.  Every mutating method
    holds the store's lock from its first read to its commit, so a method is one
    atomic step.  Opening and closing the connection is not modelled, apart from
    the back-fill that [init] runs. *)

From S2P Require Export QueueDb.

Inductive QueueError :=
  | ActiveWorkUnitConflictError   (* would steal units from another active job *)
  | IntegrityError                (* a primary- or foreign-key violation *)
  | ValidationError               (* pydantic refused a UnitTransition or a lease *)
  | ValueError.

Abbreviation Q_eff := (Eff Db QueueError).

Record JobUnitOutcome := {
  o_work_unit_id : unit_id; o_idx : Z; o_input_ref : string; o_state : WorkUnitState;
  o_result_status : option WorkResultStatus; o_result_ref : option string
}.

Record JobDetails := {
  jd_model_id : model_id; jd_params : gmap string string; jd_units : list JobUnitOutcome
}.

Record BackupCandidate := {
  bc_work_unit_id : unit_id; bc_job_id : job_id; bc_model_id : model_id;
  bc_holder_agent_id : agent_id; bc_est_duration_s : option Q
}.

(** The arguments [SqliteQueueStore.__init__] accepts. *)
Definition queue_config_ok (max_attempts : Z) (default_lease_s : Q) : bool :=
  (1 <=? max_attempts)%Z && (0 <?q default_lease_s).

Section Store.
  Context (max_attempts : Z) (default_lease_s : Q).
  Context `{!RowOrder}.

(** [init]: back-fill the memberships of a database from before that table. *)
Definition init_backfill : Q_eff unit := modify BACKFILL_JOB_UNIT_MEMBERSHIPS.

(** ** Shared private helpers *)

Definition recompute_job_state (job : job_id) : Q_eff unit :=
  counts ← gets (λ d, COUNT_JOB_UNITS d job);
  modify (SET_JOB_STATE job (next_job_state counts)).

(** [UnitTransition(...)]: the wire type requires [attempt >= 1]. *)
Definition make_transition (uid : unit_id) (job : job_id) (agent : agent_id) (attempt : Z)
    (s : WorkUnitState) (at_ : instant) : Q_eff UnitTransition :=
  if (1 <=? attempt)%Z then
    mret {| ut_work_unit_id := uid; ut_job_id := job; ut_agent_id := agent;
            ut_attempt := attempt; ut_state := s; ut_at := at_ |}
  else raise ValidationError.

(** [WorkUnitLease(...)], with the same constraint on [attempt]. *)
Definition make_lease (uid : unit_id) (u : UnitRow) (j : JobRow) (expiry : instant)
    (attempt : Z) : Q_eff WorkUnitLease :=
  if (1 <=? attempt)%Z then
    mret {| wl_work_unit_id := uid; wl_job_id := u_job_id u; wl_kind := j_kind j;
            wl_model_id := j_model_id j; wl_input_url := u_input_ref u;
            wl_lease_expires := expiry; wl_attempt := attempt;
            wl_est_duration_s := u_est_duration_s u |}
  else raise ValidationError.

(** The observer is called after the commit and its exceptions are swallowed. *)
Definition emit_transition (t : UnitTransition) : Q_eff unit :=
  modify (on_emitted (λ ts, ts ++ [t])).

(** ** Submission *)

Definition INSERT_JOB (id : job_id) (job : JobSubmit) (created_at : instant) : Q_eff unit :=
  taken ← gets (λ d, jobs d !! id);
  match taken with
  | Some _ => raise IntegrityError
  | None => modify (on_jobs <[id := {|
      j_kind := js_kind job; j_model_id := js_model_id job;
      j_payload_ref := js_payload_ref job; j_params := js_params job;
      j_priority := js_priority job; j_state := JOB_PENDING; j_created_at := created_at |}]>)
  end.

Definition INSERT_JOB_UNIT_MEMBERSHIP (job : job_id) (uid : unit_id) (row : MemberRow)
    : Q_eff unit :=
  taken ← gets (λ d, job_unit_memberships d !! (job, uid));
  match taken with
  | Some _ => raise IntegrityError
  | None => modify (on_members <[(job, uid) := row]>)
  end.

(** The distinct jobs with a pending or leased unit among [ids]. *)
Definition active_jobs_for_units (d : Db) (ids : list unit_id) : list (job_id * JobRow) :=
  unique_by fst [] (omap (λ uid,
    u ← work_units d !! uid;
    j ← jobs d !! u_job_id u;
    if is_active (u_state u) then Some (u_job_id u, j) else None) ids).

Definition job_matches (job : JobSubmit) (j : JobRow) : bool :=
  bool_decide (j_kind j = js_kind job) && bool_decide (j_model_id j = js_model_id job) &&
  bool_decide (j_payload_ref j = js_payload_ref job) && bool_decide (j_params j = js_params job) &&
  (j_priority j =? js_priority job)%Z.

Definition matching_active_job (job : JobSubmit) (ids : list unit_id) : Q_eff (option job_id) :=
  active ← gets (λ d, active_jobs_for_units d ids);
  match active with
  | [] => mret None
  | _ =>
      match active, filter (λ p, job_matches job p.2 = true) active with
      | [_], [m] => mret (Some m.1)
      | _, _ => raise ActiveWorkUnitConflictError
      end
  end.

(** The body of the loop over the submitted units. *)
Definition submit_unit (job : job_id) (created_at : instant) (deduped : gmap unit_id string)
    (spec : WorkUnitSpec) : Q_eff unit :=
  let uid := us_work_unit_id spec in
  let is_done := bool_decide (is_Some (deduped !! uid)) in
  modify (SNAPSHOT_TERMINAL_OWNER uid) ;;
  (if is_done then mret tt
   else
     modify (DELETE_INCOMPLETE_RESULT_BINDINGS uid) ;;
     modify (DELETE_STALE_RESULT uid) ;;
     modify (DELETE_BACKUP_LEASE uid)) ;;
  modify (UPSERT_WORK_UNIT spec job (if is_done then DONE else PENDING) created_at) ;;
  INSERT_JOB_UNIT_MEMBERSHIP job uid {|
    m_idx := us_idx spec; m_input_ref := us_input_ref spec;
    m_terminal_state := if is_done then Some DONE else None;
    m_result_status := if is_done then Some SUCCEEDED else None;
    m_result_ref := deduped !! uid |}.

(** The writes of [submit_job] once no active job is being reused. *)
Definition insert_new_job (job : JobSubmit) (units : list WorkUnitSpec) (fresh_id : job_id)
    (now : instant) : Q_eff job_id :=
  INSERT_JOB fresh_id job now ;;
  deduped ← gets (λ d, SELECT_SUCCEEDED_RESULTS d (us_work_unit_id <$> units));
  for_each (submit_unit fresh_id now deduped) units ;;
  recompute_job_state fresh_id ;;
  mret fresh_id.

Definition submit_job (job : JobSubmit) (units : list WorkUnitSpec) (reuse_active : bool)
    (fresh_id : job_id) (now : instant) : Q_eff job_id :=
  let units := unique_by us_work_unit_id [] units in
  if reuse_active then
    active ← matching_active_job job (us_work_unit_id <$> units);
    match active with
    | Some id => mret id
    | None => insert_new_job job units fresh_id now
    end
  else insert_new_job job units fresh_id now.

(** ** Leasing *)

(** CLAIM_UNIT ... RETURNING attempts *)
Definition CLAIM_UNIT (agent : agent_id) (expires : instant) (uid : unit_id)
    : Q_eff (option Z) :=
  row ← gets (λ d, work_units d !! uid);
  match row with
  | Some u =>
      if bool_decide (u_state u = PENDING) then
        modify (on_units <[uid := with_lease agent expires u]>) ;;
        mret (Some (u_attempts u + 1)%Z)
      else mret None
  | None => mret None
  end.

Definition lease_next (agent : agent_id) (model_ids : list model_id) (now : instant)
    : Q_eff (option WorkUnitLease) :=
  match model_ids with
  | [] => mret None
  | _ =>
      candidate ← gets (SELECT_LEASE_CANDIDATE model_ids);
      match candidate with
      | None => mret None
      | Some (uid, (u, j)) =>
          let expiry := lease_expiry now (u_est_duration_s u) default_lease_s in
          claimed ← CLAIM_UNIT agent expiry uid;
          match claimed with
          | None => mret None
          | Some attempts =>
              recompute_job_state (u_job_id u) ;;
              transition ← make_transition uid (u_job_id u) agent attempts LEASED now;
              lease ← make_lease uid u j expiry attempts;
              emit_transition transition ;;
              mret (Some lease)
          end
      end
  end.

Definition extend_leases (agent : agent_id) (ids : list unit_id) (now : instant)
    : Q_eff unit :=
  match ids with
  | [] => mret tt
  | _ => modify (EXTEND_LEASES agent ids (lease_expiry now None default_lease_s))
  end.

(** ** Speculative backup dispatch *)

Definition backup_attempt : Z := (max_attempts + 1)%Z.

(** A job's units that are still pending or leased. *)
Definition remaining_units (d : Db) (job : job_id) : nat :=
  length (filter (λ p, effective_state d job p.1 p.2 = Some PENDING ∨
                       effective_state d job p.1 p.2 = Some LEASED) (job_members d job)).

Definition backup_candidate_of (d : Db) (agent : agent_id) (model_ids : list model_id)
    (tail_max_remaining : Z) (p : unit_id * UnitRow) : option BackupCandidate :=
  j ← jobs d !! u_job_id p.2;
  holder ← u_lease_agent p.2;
  if leased_to_other agent p.2 && bool_decide (j_model_id j ∈ model_ids) &&
     bool_decide (backup_leases d !! p.1 = None) && bool_decide (unit_results d !! p.1 = None) &&
     (Z.of_nat (remaining_units d (u_job_id p.2)) <=? tail_max_remaining)%Z
  then Some {| bc_work_unit_id := p.1; bc_job_id := u_job_id p.2; bc_model_id := j_model_id j;
               bc_holder_agent_id := holder; bc_est_duration_s := u_est_duration_s p.2 |}
  else None.

Definition backup_candidates (agent : agent_id) (model_ids : list model_id)
    (tail_max_remaining : Z) : Q_eff (list BackupCandidate) :=
  match model_ids with
  | [] => mret []
  | _ => gets (λ d, py_sorted bc_work_unit_id
           (omap (backup_candidate_of d agent model_ids tail_max_remaining)
              (map_to_list (work_units d))))
  end.

Definition lease_backup (agent : agent_id) (uid : unit_id) (now : instant)
    : Q_eff (option WorkUnitLease) :=
  target ← gets (λ d, u ← work_units d !! uid; j ← jobs d !! u_job_id u;
                      if leased_to_other agent u then Some (u, j) else None);
  match target with
  | None => mret None
  | Some (u, j) =>
      let expiry := lease_expiry now (u_est_duration_s u) default_lease_s in
      existing ← gets (λ d, backup_leases d !! uid);
      match existing with
      | Some _ => mret None
      | None =>
          modify (on_backups <[uid := {|
            bl_job_id := u_job_id u; bl_agent_id := agent; bl_attempt := backup_attempt;
            bl_lease_expires := expiry; bl_created_at := now |}]>) ;;
          lease ← make_lease uid u j expiry backup_attempt;
          mret (Some lease)
      end
  end.

(** ** Completion *)

Definition result_upload_attempt (agent : agent_id) (uid : unit_id) : Q_eff (option Z) :=
  gets (λ d,
    match u ← work_units d !! uid; if leased_to agent u then Some (u_attempts u) else None with
    | Some attempts => Some attempts
    | None =>
        bl ← backup_leases d !! uid;
        if bool_decide (bl_agent_id bl = agent) && bool_decide (unit_results d !! uid = None)
        then Some (bl_attempt bl) else None
    end).

(** Is this unit's current lease exactly (agent, attempt)? *)
Definition current_lease (agent : agent_id) (attempt : Z) (u : UnitRow) : bool :=
  leased_to agent u && (u_attempts u =? attempt)%Z.

(** A backup lease for exactly (agent, attempt). *)
Definition backup_holder_exists (d : Db) (uid : unit_id) (agent : agent_id) (attempt : Z)
    : bool :=
  match backup_leases d !! uid with
  | Some bl => bool_decide (bl_agent_id bl = agent) && (bl_attempt bl =? attempt)%Z
  | None => false
  end.

(** INSERT ... ON CONFLICT(work_unit_id, attempt) DO NOTHING RETURNING 1, gated
    by [authorised]. *)
Definition insert_binding (authorised : Db → bool) (uid : unit_id) (attempt : Z)
    (row : BindingRow) : Q_eff bool :=
  ok ← gets (λ d, authorised d &&
                  bool_decide (result_payload_bindings d !! (uid, attempt) = None));
  if (ok : bool) then
    modify (on_bindings <[(uid, attempt) := row]>) ;; mret true
  else mret false.

Definition primary_upload_ok (agent : agent_id) (uid : unit_id) (attempt : Z) (d : Db) : bool :=
  match work_units d !! uid with Some u => current_lease agent attempt u | None => false end.

Definition backup_upload_ok (agent : agent_id) (uid : unit_id) (attempt : Z) (d : Db) : bool :=
  backup_holder_exists d uid agent attempt && bool_decide (unit_results d !! uid = None).

(** The binding stored for (unit, attempt) is the one being presented again. *)
Definition binding_matches (d : Db) (uid : unit_id) (agent : agent_id) (attempt : Z)
    (digest ref : string) : bool :=
  match result_payload_bindings d !! (uid, attempt) with
  | Some b => bool_decide (b_agent_id b = agent) && bool_decide (b_digest b = digest) &&
              bool_decide (b_result_ref b = ref)
  | None => false
  end.

Definition bind_result_payload (agent : agent_id) (uid : unit_id) (attempt : Z)
    (digest ref : string) (now : instant) : Q_eff bool :=
  let row := {| b_agent_id := agent; b_digest := digest; b_result_ref := ref;
                b_accepted_at := now |} in
  accepted ← insert_binding (primary_upload_ok agent uid attempt) uid attempt row;
  accepted ← (if (accepted : bool) then mret true
              else gets (λ d, binding_matches d uid agent attempt digest ref &&
                              primary_upload_ok agent uid attempt d));
  accepted ← (if (accepted : bool) then mret true
              else insert_binding (backup_upload_ok agent uid attempt) uid attempt row);
  if (accepted : bool) then mret true
  else gets (λ d, binding_matches d uid agent attempt digest ref &&
                  backup_holder_exists d uid agent attempt).

(** Two stored metrics columns are the same text: same numbers. *)
Definition metrics_eqb (a b : option WorkMetrics) : bool :=
  match a, b with
  | None, None => true
  | Some x, Some y =>
      Qeq_bool (wm_duration_s x) (wm_duration_s y) &&
      bool_decide (wm_items x = wm_items y) && bool_decide (wm_tokens x = wm_tokens y)
  | _, _ => false
  end.

(** SELECT_MATCHING_COMPLETION *)
Definition matching_completion (d : Db) (agent : agent_id) (attempt : Z) (result : WorkResult)
    : bool :=
  match unit_results d !! wr_work_unit_id result, work_units d !! wr_work_unit_id result with
  | Some r, Some u =>
      bool_decide (r_status r = wr_status result) &&
      bool_decide (r_result_ref r = wr_result_ref result) &&
      bool_decide (r_error r = wr_error result) && metrics_eqb (r_metrics r) (wr_metrics result) &&
      bool_decide (r_agent_id r = agent) && bool_decide (u_lease_agent u = Some agent) &&
      (u_attempts u =? attempt)%Z
  | _, _ => false
  end.

(** A binding of exactly this attempt, agent and reference; a NULL reference
    matches nothing. *)
Definition result_binding_accepted (d : Db) (agent : agent_id) (attempt : Z)
    (result : WorkResult) : bool :=
  match result_payload_bindings d !! (wr_work_unit_id result, attempt), wr_result_ref result with
  | Some b, Some ref => bool_decide (b_agent_id b = agent) && bool_decide (b_result_ref b = ref)
  | _, _ => false
  end.

Definition backup_role (d : Db) (uid : unit_id) (agent : agent_id) (attempt : Z) (u : UnitRow)
    : bool :=
  is_active (u_state u) && backup_holder_exists d uid agent attempt.

Definition backup_binding_accepted (d : Db) (agent : agent_id) (attempt : Z)
    (result : WorkResult) : bool :=
  result_binding_accepted d agent attempt result &&
  backup_holder_exists d (wr_work_unit_id result) agent attempt.

(** The writes of an accepted completion. *)
Definition finalize_unit (agent : agent_id) (u : UnitRow) (result : WorkResult) (now : instant)
    : Q_eff bool :=
  let uid := wr_work_unit_id result in
  modify (INSERT_RESULT uid (result_row result agent now)) ;;
  modify (MARK_UNIT_DONE uid) ;;
  modify (MARK_JOB_UNIT_TERMINAL (u_job_id u) uid DONE (Some (wr_status result))
            (if bool_decide (wr_status result = SUCCEEDED) then wr_result_ref result else None)) ;;
  recompute_job_state (u_job_id u) ;;
  transition ← make_transition uid (u_job_id u) agent (u_attempts u) DONE now;
  emit_transition transition ;;
  mret true.

Definition complete_unit (agent : agent_id) (attempt : Z) (result : WorkResult) (now : instant)
    : Q_eff bool :=
  let uid := wr_work_unit_id result in
  d ← gets id;
  match work_units d !! uid with
  | None => mret false
  | Some u =>
      if bool_decide (is_Some (unit_results d !! uid)) then
        mret (matching_completion d agent attempt result ||
              backup_holder_exists d uid agent attempt)
      else
        let is_primary := current_lease agent attempt u in
        let is_backup := negb is_primary && backup_role d uid agent attempt u in
        if negb (is_primary || is_backup) then mret false
        else if bool_decide (wr_status result = SUCCEEDED) &&
                negb (if is_primary then result_binding_accepted d agent attempt result
                      else backup_binding_accepted d agent attempt result)
        then mret false
        else finalize_unit agent u result now
  end.

Definition completed_result_ref (uid : unit_id) : Q_eff (option string) :=
  gets (λ d, succeeded_ref d uid).

(** ** Requeue *)

Fixpoint make_transitions (s : WorkUnitState) (at_ : instant) (l : list (unit_id * UnitRow))
    : Q_eff (list UnitTransition) :=
  match l with
  | [] => mret []
  | (uid, u) :: l =>
      t ← make_transition uid (u_job_id u) (default "None" (u_lease_agent u)) (u_attempts u) s at_;
      ts ← make_transitions s at_ l;
      mret (t :: ts)
  end.

(** UPDATE ... RETURNING, and the transitions built from the returned rows. *)
Definition run_requeue_branch (sel : UnitRow → bool) (s : WorkUnitState) (at_ : instant)
    : Q_eff (list UnitTransition) :=
  updated ← gets (returning_where sel);
  modify (update_where sel s) ;;
  make_transitions s at_ updated.

Definition requeue (selector : UnitRow → bool) (at_ : instant) : Q_eff (list UnitTransition) :=
  pending ← run_requeue_branch (λ u, selector u && (u_attempts u <? max_attempts)%Z) PENDING at_;
  dead ← run_requeue_branch (λ u, selector u && (max_attempts <=? u_attempts u)%Z) DEAD at_;
  let transitions := py_sorted ut_work_unit_id (pending ++ dead) in
  for_each (λ t, modify (MARK_JOB_UNIT_TERMINAL (ut_job_id t) (ut_work_unit_id t) DEAD None None))
    dead ;;
  for_each recompute_job_state (remove_dups (ut_job_id <$> transitions)) ;;
  mret transitions.

Definition requeue_and_emit (selector : UnitRow → bool) (at_ : instant) : Q_eff nat :=
  transitions ← requeue selector at_;
  for_each emit_transition transitions ;;
  mret (length transitions).

Definition requeue_expired (now : instant) : Q_eff nat :=
  requeue_and_emit (SELECTOR_EXPIRED now) now.

Definition requeue_agent (agent : agent_id) (now : instant) : Q_eff nat :=
  requeue_and_emit (SELECTOR_BY_AGENT agent) now.

(** ** Status *)

Definition job_status (id : job_id) : Q_eff (option JobStatus) :=
  gets (λ d,
    j ← jobs d !! id;
    let counts := COUNT_JOB_UNITS d id in
    Some {| st_job_id := id; st_state := j_state j; st_total_units := c_total counts;
            st_done_units := c_done counts; st_dead_units := c_dead counts |}).

(** ORDER BY m.idx, m.work_unit_id *)
Definition ordered_members (d : Db) (id : job_id) : list (unit_id * MemberRow) :=
  py_sorted (λ p : unit_id * MemberRow, (m_idx p.2, p.1)) (job_members d id).

(** [WorkUnitState(str(row["state"]))] raises [ValueError] on a NULL state. *)
Fixpoint unit_outcomes (d : Db) (id : job_id) (l : list (unit_id * MemberRow))
    : option (list JobUnitOutcome) :=
  match l with
  | [] => Some []
  | (uid, m) :: l =>
      s ← effective_state d id uid m;
      os ← unit_outcomes d id l;
      Some ({| o_work_unit_id := uid; o_idx := m_idx m; o_input_ref := m_input_ref m;
               o_state := s; o_result_status := m_result_status m;
               o_result_ref := m_result_ref m |} :: os)
  end.

Definition job_details (id : job_id) : Q_eff (option JobDetails) :=
  d ← gets (λ d : Db, d);
  match jobs d !! id with
  | None => mret None
  | Some j =>
      match unit_outcomes d id (ordered_members d id) with
      | Some units => mret (Some {| jd_model_id := j_model_id j; jd_params := j_params j;
                                    jd_units := units |})
      | None => raise ValueError
      end
  end.

Definition job_finalization (id : job_id) : Q_eff (option Z) :=
  gets (λ d, job_finalizations d !! id).

Definition mark_job_finalized (id : job_id) (indexed_items : Z) : Q_eff Z :=
  if (indexed_items <? 0)%Z then raise ValueError
  else
    d ← gets (λ d : Db, d);
    match job_finalizations d !! id with
    | Some n => mret n
    | None =>
        if bool_decide (is_Some (jobs d !! id)) then
          modify (on_finalizations <[id := indexed_items]>) ;; mret indexed_items
        else raise IntegrityError
    end.

End Store.
