(* ===== verification/QueueInv.v ===== *)
(** * The queue's database invariant

    What every committed state of the queue satisfies: referential integrity,
    the bounds on [attempts], the agreement of a unit's state with its result
    and with the membership of the job that owns it, and the payload binding
    behind every successful result.  Every method preserves it, whatever it
    returns or raises. *)

From S2P Require Export QueueStore.

(** ** Statement-level facts *)

Lemma is_terminal_active s : is_terminal s = negb (is_active s).
Proof. by destruct s. Qed.

Lemma binding_exists_spec d uid agent ref :
  binding_exists d uid agent ref = true ↔
  ∃ a b, result_payload_bindings d !! (uid, a) = Some b ∧ b_agent_id b = agent ∧ b_result_ref b = ref.
Proof.
  unfold binding_exists. rewrite bool_decide_eq_true. split.
  - intros ([uid' a] & b & Hb & Hu & ?). cbn in Hu. subst. naive_solver.
  - intros (a & b & ? & ? & ?). exists (uid, a), b. naive_solver.
Qed.

Lemma succeeded_ref_Some d uid ref :
  succeeded_ref d uid = Some ref ↔
  ∃ r, unit_results d !! uid = Some r ∧ r_status r = SUCCEEDED ∧ r_result_ref r = Some ref ∧
       binding_exists d uid (r_agent_id r) ref = true.
Proof.
  unfold succeeded_ref. destruct (unit_results d !! uid) as [r |]; cbn; [| naive_solver].
  destruct (r_result_ref r) as [ref' |] eqn:Href; cbn; [| naive_solver].
  case_bool_decide; cbn; [| naive_solver].
  destruct (binding_exists d uid (r_agent_id r) ref') eqn:?;
    (split; [intros [= <-]; eauto 10 | intros (? & [= <-] & ? & ? & ?); congruence]).
Qed.

(** Dedup looks only at the unit's own result and bindings. *)
Lemma succeeded_ref_frame d d' uid :
  unit_results d' !! uid = unit_results d !! uid →
  (∀ a, result_payload_bindings d' !! (uid, a) = result_payload_bindings d !! (uid, a)) →
  succeeded_ref d' uid = succeeded_ref d uid.
Proof.
  intros Hr Hb. apply option_eq; intros ref. rewrite !succeeded_ref_Some.
  setoid_rewrite binding_exists_spec. setoid_rewrite Hr. setoid_rewrite Hb. done.
Qed.

Lemma lookup_succeeded_results d ids uid :
  uid ∈ ids → SELECT_SUCCEEDED_RESULTS d ids !! uid = succeeded_ref d uid.
Proof.
  intros Hin. unfold SELECT_SUCCEEDED_RESULTS.
  destruct (succeeded_ref d uid) as [ref |] eqn:Hs.
  - apply elem_of_list_to_map_1'.
    + intros y (uid' & Hin' & Hy)%list_elem_of_omap.
      destruct (succeeded_ref d uid') eqn:?; naive_solver.
    + apply list_elem_of_omap. exists uid. by rewrite Hs.
  - apply not_elem_of_list_to_map_1.
    intros ([uid' y] & -> & (uid'' & Hin' & Hy)%list_elem_of_omap)%list_elem_of_fmap.
    destruct (succeeded_ref d uid'') eqn:?; naive_solver.
Qed.

Lemma current_lease_spec agent attempt u :
  current_lease agent attempt u = true ↔
  u_state u = LEASED ∧ u_lease_agent u = Some agent ∧ u_attempts u = attempt.
Proof.
  unfold current_lease, leased_to.
  rewrite !andb_true_iff, !bool_decide_eq_true, Z.eqb_eq. naive_solver.
Qed.

Lemma backup_holder_spec d uid agent attempt :
  backup_holder_exists d uid agent attempt = true ↔
  ∃ bl, backup_leases d !! uid = Some bl ∧ bl_agent_id bl = agent ∧ bl_attempt bl = attempt.
Proof.
  unfold backup_holder_exists. destruct (backup_leases d !! uid) as [bl |]; [| naive_solver].
  rewrite andb_true_iff, bool_decide_eq_true, Z.eqb_eq. naive_solver.
Qed.

Lemma result_binding_spec d agent attempt result :
  result_binding_accepted d agent attempt result = true ↔
  ∃ b ref, result_payload_bindings d !! (wr_work_unit_id result, attempt) = Some b ∧
    wr_result_ref result = Some ref ∧ b_agent_id b = agent ∧ b_result_ref b = ref.
Proof.
  unfold result_binding_accepted.
  destruct (result_payload_bindings d !! _) as [b |], (wr_result_ref result) as [ref |];
    rewrite ?andb_true_iff, ?bool_decide_eq_true; naive_solver.
Qed.

Lemma metrics_eqb_refl m : metrics_eqb m m = true.
Proof.
  destruct m as [m |]; [| done]. cbn. rewrite !bool_decide_eq_true_2 by done.
  by rewrite (proj2 (Qeq_bool_iff _ _)) by apply Qeq_refl.
Qed.

Section Invariant.
  Context (max_attempts : Z).
  Implicit Types (d : Db) (u : UnitRow) (uid : unit_id) (job : job_id).

(** [attempts] counts leases: it stays within the budget, a pending unit still
    has budget left, a leased one has a holder and an expiry, a dead one has
    spent everything. *)
Definition attempts_ok (u : UnitRow) : Prop :=
  (0 ≤ u_attempts u ≤ max_attempts)%Z ∧
  match u_state u with
  | PENDING => (u_attempts u < max_attempts)%Z
  | LEASED => (1 ≤ u_attempts u)%Z ∧ is_Some (u_lease_agent u) ∧ is_Some (u_lease_expires u)
  | DONE => True
  | DEAD => u_attempts u = max_attempts
  end.

(** The owning job's membership records the outcome once the unit is terminal,
    except for the units of [X], which are being buried. *)
Definition unit_ok (X : gset unit_id) d uid u : Prop :=
  is_Some (jobs d !! u_job_id u) ∧
  (∃ m, job_unit_memberships d !! (u_job_id u, uid) = Some m ∧
        (uid ∉ X → m_terminal_state m = if is_terminal (u_state u) then Some (u_state u) else None)) ∧
  attempts_ok u ∧
  (u_state u = DONE ↔ is_Some (unit_results d !! uid)).

Definition result_ok d uid (r : ResultRow) : Prop :=
  is_Some (work_units d !! uid) ∧
  (r_status r = SUCCEEDED →
     ∃ ref, r_result_ref r = Some ref ∧ binding_exists d uid (r_agent_id r) ref = true).

Definition backup_ok d uid (bl : BackupRow) : Prop :=
  is_Some (jobs d !! bl_job_id bl) ∧ bl_attempt bl = (max_attempts + 1)%Z ∧
  ∃ u, work_units d !! uid = Some u ∧ ((1 ≤ u_attempts u)%Z ∨ u_state u = DONE).

Record Inv_except (X : gset unit_id) d : Prop := {
  inv_unit uid u : work_units d !! uid = Some u → unit_ok X d uid u;
  inv_member job uid m :
    job_unit_memberships d !! (job, uid) = Some m → is_Some (jobs d !! job);
  inv_result uid r : unit_results d !! uid = Some r → result_ok d uid r;
  inv_binding uid a b :
    result_payload_bindings d !! (uid, a) = Some b →
    is_Some (work_units d !! uid) ∧ (1 ≤ a ≤ max_attempts + 1)%Z;
  inv_backup uid bl : backup_leases d !! uid = Some bl → backup_ok d uid bl;
  inv_final job n :
    job_finalizations d !! job = Some n → is_Some (jobs d !! job) ∧ (0 ≤ n)%Z
}.

Definition Inv : Db → Prop := Inv_except ∅.

Lemma Inv_empty : Inv empty_db.
Proof. split; intros *; cbn; rewrite lookup_empty; done. Qed.

(** A successful result is exactly what dedup accepts. *)
Lemma Inv_succeeded X d uid r :
  Inv_except X d → unit_results d !! uid = Some r → r_status r = SUCCEEDED →
  ∃ ref, r_result_ref r = Some ref ∧ succeeded_ref d uid = Some ref.
Proof.
  intros HI Hr Hs. destruct (inv_result _ _ HI _ _ Hr) as [_ (ref & Href & Hb)]; [done |].
  exists ref. split; [done |]. apply succeeded_ref_Some. naive_solver.
Qed.

(** ** Frames: what single statements leave alone *)

(** Only the domain of [jobs] matters. *)
Lemma Inv_on_jobs X d f :
  (∀ job, is_Some (jobs d !! job) → is_Some (f (jobs d) !! job)) →
  Inv_except X d → Inv_except X (on_jobs f d).
Proof.
  intros Hf [Hu Hm Hr Hb Hbl Hfin]. split; cbn; intros.
  - destruct (Hu _ _ H) as (? & ? & ? & ?). split_and!; auto.
  - eauto.
  - eauto.
  - eauto.
  - destruct (Hbl _ _ H) as (? & ? & ?). split_and!; auto.
  - destruct (Hfin _ _ H). auto.
Qed.

Lemma Inv_on_emitted X d f : Inv_except X d → Inv_except X (on_emitted f d).
Proof. by intros [Hu Hm Hr Hb Hbl Hfin]; split. Qed.

Lemma Inv_set_job_state X d job s : Inv_except X d → Inv_except X (SET_JOB_STATE job s d).
Proof. apply Inv_on_jobs. intros j Hj. by apply lookup_alter_is_Some. Qed.

(** ** Lease-preserving updates of the unit table *)

(** How leasing, extending and requeueing rewrite a row: the owner stays, and
    an active unit stays active without losing attempts. *)
Definition evolves (u u' : UnitRow) : Prop :=
  u' = u ∨
  (u_job_id u' = u_job_id u ∧ is_active (u_state u) = true ∧ is_active (u_state u') = true ∧
   attempts_ok u' ∧ (u_attempts u ≤ u_attempts u')%Z).

(** Every row evolves, none appears or disappears. *)
Definition table_evolves (m m' : gmap unit_id UnitRow) : Prop :=
  ∀ uid, option_Forall2 evolves (m !! uid) (m' !! uid).

Lemma table_evolves_inv m m' uid u' :
  table_evolves m m' → m' !! uid = Some u' → ∃ u, m !! uid = Some u ∧ evolves u u'.
Proof. intros He Hu. specialize (He uid). rewrite Hu in He. inversion He; naive_solver. Qed.

Lemma table_evolves_fwd m m' uid u :
  table_evolves m m' → m !! uid = Some u → ∃ u', m' !! uid = Some u' ∧ evolves u u'.
Proof. intros He Hu. specialize (He uid). rewrite Hu in He. inversion He; naive_solver. Qed.

Lemma table_evolves_insert m uid u u' :
  m !! uid = Some u → evolves u u' → table_evolves m (<[uid := u']> m).
Proof.
  intros Hu He uid'. destruct (decide (uid = uid')) as [<- |].
  - rewrite lookup_insert_eq, Hu. by constructor.
  - rewrite lookup_insert_ne by done. destruct (m !! uid'); constructor. by left.
Qed.

Lemma table_evolves_imap m g :
  (∀ uid u, m !! uid = Some u → evolves u (g uid u)) →
  table_evolves m (map_imap (λ uid u, Some (g uid u)) m).
Proof.
  intros Hg uid. rewrite map_lookup_imap. destruct (m !! uid) eqn:Hu; constructor. by apply Hg.
Qed.

Lemma evolves_state_done u u' : evolves u u' → u_state u' = DONE ↔ u_state u = DONE.
Proof.
  intros [-> | (_ & Ha & Ha' & _)]; [done |].
  destruct (u_state u), (u_state u'); naive_solver.
Qed.

Lemma evolves_job u u' : evolves u u' → u_job_id u' = u_job_id u.
Proof. intros [-> | (? & _)]; done. Qed.

Lemma Inv_table_evolves X d m :
  table_evolves (work_units d) m → Inv_except X d → Inv_except X (on_units (λ _, m) d).
Proof.
  intros He [Hu Hm Hr Hb Hbl Hfin]. split; cbn.
  - intros uid u' Hu'. destruct (table_evolves_inv _ _ _ _ He Hu') as (u & Hlu & Heu).
    destruct (Hu _ _ Hlu) as (Hj & (mm & Hmm & Ht) & Ha & Hd).
    unfold unit_ok; cbn. rewrite (evolves_job _ _ Heu), (evolves_state_done _ _ Heu).
    destruct Heu as [-> | (_ & Hact & Hact' & Ha' & _)]; [naive_solver |].
    split_and!; [done | | done | done]. exists mm. split; [done |].
    intros Hx. rewrite (Ht Hx), !is_terminal_active, Hact, Hact'. done.
  - done.
  - intros uid r Hlr. destruct (Hr _ _ Hlr) as ([u Hlu] & Hs).
    destruct (table_evolves_fwd _ _ _ _ He Hlu) as (u' & ? & _). split; [by eexists | done].
  - intros uid a b Hlb. destruct (Hb _ _ _ Hlb) as ([u Hlu] & Hs).
    destruct (table_evolves_fwd _ _ _ _ He Hlu) as (u' & ? & _). split; [by eexists | done].
  - intros uid bl Hlbl. destruct (Hbl _ _ Hlbl) as (? & ? & u & Hlu & Hau).
    destruct (table_evolves_fwd _ _ _ _ He Hlu) as (u' & Hlu' & Heu).
    split_and!; [done | done |]. exists u'. split; [done |].
    rewrite (evolves_state_done _ _ Heu).
    destruct Heu as [-> | (_ & _ & _ & _ & ?)]; [done |]. destruct Hau; [left; lia | by right].
  - done.
Qed.

(** ** Finishing a unit *)

Lemma INSERT_RESULT_fresh uid row d :
  unit_results d !! uid = None → INSERT_RESULT uid row d = on_results <[uid := row]> d.
Proof. intros H. unfold INSERT_RESULT. by rewrite H. Qed.

(** The three writes of an accepted completion, together. *)
Definition finish_db (uid : unit_id) (u : UnitRow) (row : ResultRow)
    (status : option WorkResultStatus) (ref : option string) (d : Db) : Db :=
  MARK_JOB_UNIT_TERMINAL (u_job_id u) uid DONE status ref
    (MARK_UNIT_DONE uid (INSERT_RESULT uid row d)).

Lemma Inv_finish d uid u row status ref :
  Inv d → work_units d !! uid = Some u → unit_results d !! uid = None →
  (r_status row = SUCCEEDED →
     ∃ ref, r_result_ref row = Some ref ∧ binding_exists d uid (r_agent_id row) ref = true) →
  Inv (finish_db uid u row status ref d).
Proof.
  intros [Hu Hm Hr Hb Hbl Hfin] Hlu Hnr Hrow. unfold finish_db. rewrite INSERT_RESULT_fresh by done.
  destruct (Hu _ _ Hlu) as (Hj & (m & Hlm & _) & [Ha _] & _).
  split; cbn.
  - intros uid' u' Hlu'. unfold unit_ok; cbn. destruct (decide (uid = uid')) as [<- | Hne].
    + rewrite lookup_alter_eq, Hlu in Hlu'. cbn in Hlu'. simplify_eq. cbn.
      rewrite lookup_alter_eq, Hlm, lookup_insert_eq. cbn.
      split_and!; [done | by eexists | done |]. split; [by eexists | done].
    + rewrite lookup_alter_ne in Hlu' by done. rewrite lookup_alter_ne by congruence.
      rewrite lookup_insert_ne by done. by apply Hu.
  - intros job uid' m' Hlm'. apply lookup_alter_Some in Hlm' as [(? & ? & ? & _) | (_ & ?)];
      [simplify_eq |]; eauto.
  - intros uid' r' Hlr'. destruct (decide (uid = uid')) as [<- | Hne].
    + rewrite lookup_insert_eq in Hlr'. simplify_eq. split; cbn; [| done].
      by rewrite lookup_alter_eq, Hlu; eexists.
    + rewrite lookup_insert_ne in Hlr' by done. destruct (Hr _ _ Hlr') as [? ?].
      split; cbn; [by rewrite lookup_alter_ne | done].
  - intros uid' a b Hlb. rewrite lookup_alter_is_Some. eauto.
  - intros uid' bl Hlbl. destruct (Hbl _ _ Hlbl) as (? & ? & u' & Hlu' & ?).
    split_and!; [done | done |]. cbn. destruct (decide (uid = uid')) as [<- | Hne].
    + rewrite lookup_alter_eq, Hlu. eexists. split; [done |]. by right.
    + rewrite lookup_alter_ne by done. eauto.
  - done.
Qed.

(** ** Burying dead units *)

(** The rows a requeue sends to [DEAD] lose their match with the membership
    until MARK_JOB_UNIT_TERMINAL runs for each of them. *)
Lemma Inv_bury X d sel :
  (∀ u, attempts_ok u → sel u = true → u_state u = LEASED ∧ u_attempts u = max_attempts) →
  Inv_except X d →
  Inv_except (X ∪ list_to_set (returning_where sel d).*1) (update_where sel DEAD d).
Proof.
  intros Hsel [Hu Hm Hr Hb Hbl Hfin].
  assert (Hdone : ∀ uid u, work_units d !! uid = Some u → sel u = true →
            u_state u = LEASED ∧ u_attempts u = max_attempts ∧ attempts_ok u).
  { intros uid u Hlu Hs. destruct (Hu _ _ Hlu) as (_ & _ & Ha & _). naive_solver. }
  split; cbn.
  - intros uid u'. rewrite lookup_fmap, fmap_Some. intros (u & Hlu & ->).
    destruct (Hu _ _ Hlu) as (? & (m & Hlm & Ht) & Ha & Hd).
    destruct (sel u) eqn:Hs; unfold unit_ok; cbn.
    + destruct (Hdone _ _ Hlu Hs) as (Hst & Hat & _).
      split_and!; [done | | | rewrite <- Hd, Hst; naive_solver].
      * exists m. split; [done |]. intros Hx. exfalso. apply Hx, elem_of_union_r, elem_of_list_to_set.
        apply list_elem_of_fmap. exists (uid, u). split; [done |]. unfold returning_where.
        apply list_elem_of_filter. split; [done |]. by apply elem_of_map_to_list.
      * split; cbn; [destruct Ha as [? _]; lia | done].
    + split_and!; [done | | done | done]. exists m. split; [done |]. intros Hx. apply Ht. set_solver.
  - done.
  - intros uid r Hlr. destruct (Hr _ _ Hlr) as ([u Hlu] & ?).
    split; cbn; [rewrite lookup_fmap, Hlu; by eexists | done].
  - intros uid a b Hlb. destruct (Hb _ _ _ Hlb) as ([u Hlu] & ?).
    split; [rewrite lookup_fmap, Hlu; by eexists | done].
  - intros uid bl Hlbl. destruct (Hbl _ _ Hlbl) as (? & ? & u & Hlu & Hor).
    split_and!; [done | done |]. cbn. rewrite lookup_fmap, Hlu. cbn. eexists. split; [done |].
    destruct (sel u) eqn:Hs; [| done]. left. cbn.
    destruct (Hdone _ _ Hlu Hs) as (Hst & _ & [_ Hl]). rewrite Hst in Hl. naive_solver.
  - done.
Qed.

Lemma Inv_mark_dead X d uid u :
  Inv_except X d → work_units d !! uid = Some u → u_state u = DEAD →
  Inv_except (X ∖ {[uid]}) (MARK_JOB_UNIT_TERMINAL (u_job_id u) uid DEAD None None d).
Proof.
  intros [Hu Hm Hr Hb Hbl Hfin] Hlu Hst. split; cbn; [| | done | done | done | done].
  - intros uid' u' Hlu'. destruct (Hu _ _ Hlu') as (? & (m & Hlm & Ht) & ? & ?).
    split_and!; [done | | done | done]. cbn. destruct (decide (uid = uid')) as [<- | Hne].
    + simplify_eq. rewrite lookup_alter_eq, Hlm. cbn. eexists. split; [done |]. by rewrite Hst.
    + rewrite lookup_alter_ne by congruence. exists m. split; [done |]. intros Hx. apply Ht. set_solver.
  - intros job uid' m' Hlm'. apply lookup_alter_Some in Hlm' as [(? & ? & ? & _) | (_ & ?)];
      [simplify_eq |]; eauto.
Qed.

(** ** Submitting a unit *)

(** The owner's outcome is already recorded, so the snapshot changes nothing. *)
Lemma snapshot_noop d uid : Inv d → SNAPSHOT_TERMINAL_OWNER uid d = d.
Proof.
  intros HI. unfold SNAPSHOT_TERMINAL_OWNER. destruct (work_units d !! uid) as [u |] eqn:Hu; [| done].
  destruct (is_terminal (u_state u)) eqn:Ht; [| done].
  destruct (inv_unit _ _ HI _ _ Hu) as (_ & (m & -> & Hm) & _).
  rewrite Hm by set_solver. by rewrite Ht.
Qed.

(** Back-filling memberships is a no-op as well. *)
Lemma backfill_noop d : Inv d → BACKFILL_JOB_UNIT_MEMBERSHIPS d = d.
Proof.
  intros HI. unfold BACKFILL_JOB_UNIT_MEMBERSHIPS.
  enough (job_unit_memberships d ∪ list_to_map
    ((λ p : unit_id * UnitRow, ((u_job_id p.2, p.1), membership_of d p.1 p.2))
       <$> map_to_list (work_units d)) = job_unit_memberships d) as Heq.
  { unfold on_members. rewrite Heq. by destruct d. }
  apply map_eq; intros k. destruct (job_unit_memberships d !! k) as [m |] eqn:Hm.
  { by apply lookup_union_Some_l. }
  rewrite lookup_union_r by done. apply not_elem_of_list_to_map_1.
  intros ([k' m'] & -> & ([uid u] & Hk & Hin)%list_elem_of_fmap)%list_elem_of_fmap.
  apply elem_of_map_to_list in Hin.
  destruct (inv_unit _ _ HI _ _ Hin) as (_ & (m & Hlm & _) & _). naive_solver.
Qed.

Definition fresh_unit_row (spec : WorkUnitSpec) (job : job_id) (s : WorkUnitState)
    (created_at : instant) : UnitRow := {|
  u_job_id := job; u_idx := us_idx spec; u_input_ref := us_input_ref spec;
  u_est_duration_s := us_est_duration_s spec; u_state := s; u_attempts := 0%Z;
  u_lease_agent := None; u_lease_expires := None; u_created_at := created_at |}.

(** The database after a deduplicated unit, and after a new one. *)
Definition submit_done_db (spec : WorkUnitSpec) (job : job_id) (now : instant) (row : MemberRow)
    (d : Db) : Db :=
  on_members <[(job, us_work_unit_id spec) := row]> (UPSERT_WORK_UNIT spec job DONE now d).

Definition submit_new_db (spec : WorkUnitSpec) (job : job_id) (now : instant) (row : MemberRow)
    (d : Db) : Db :=
  let uid := us_work_unit_id spec in
  on_members <[(job, uid) := row]> (UPSERT_WORK_UNIT spec job PENDING now
    (DELETE_BACKUP_LEASE uid (DELETE_STALE_RESULT uid (DELETE_INCOMPLETE_RESULT_BINDINGS uid d)))).

Hypothesis Hmax : (1 ≤ max_attempts)%Z.

Lemma Inv_submit_done spec job now row d :
  Inv d → is_Some (jobs d !! job) → is_Some (succeeded_ref d (us_work_unit_id spec)) →
  job_unit_memberships d !! (job, us_work_unit_id spec) = None →
  m_terminal_state row = Some DONE →
  Inv (submit_done_db spec job now row d).
Proof.
  intros [Hu Hm Hr Hb Hbl Hfin] Hj [ref (r & Hlr & _)%succeeded_ref_Some] Hnm Hrow.
  split; cbn.
  - intros uid u'. rewrite lookup_insert_Some. intros [[<- <-] | [Hne Hlu]]; unfold unit_ok; cbn.
    + rewrite lookup_insert_eq. split_and!; [done | by eexists | | by rewrite Hlr; naive_solver].
      split; cbn; [lia | done].
    + destruct (Hu _ _ Hlu) as (? & (m & Hlm & ?) & ? & ?).
      rewrite lookup_insert_ne by congruence. eauto 10.
  - intros job' uid m. rewrite lookup_insert_Some. intros [[? ?] | [_ ?]]; naive_solver.
  - intros uid r' Hlr'. destruct (Hr _ _ Hlr') as [? ?].
    split; [by apply lookup_insert_is_Some'; right | done].
  - intros uid a b Hlb. destruct (Hb _ _ _ Hlb) as [? ?].
    split; [by apply lookup_insert_is_Some'; right | done].
  - intros uid bl Hlbl. destruct (Hbl _ _ Hlbl) as (? & ? & u & Hlu & ?).
    split_and!; [done | done |]. cbn. destruct (decide (us_work_unit_id spec = uid)) as [<- |].
    + rewrite lookup_insert_eq. eexists. split; [done |]. by right.
    + rewrite lookup_insert_ne by done. eauto.
  - done.
Qed.

Lemma lookup_bindings_filter uid (m : gmap (unit_id * Z) BindingRow) k b :
  filter (λ kb, kb.1.1 ≠ uid) m !! k = Some b ↔ m !! k = Some b ∧ k.1 ≠ uid.
Proof. apply map_lookup_filter_Some. Qed.

Lemma Inv_submit_new spec job now row d :
  Inv d → is_Some (jobs d !! job) →
  job_unit_memberships d !! (job, us_work_unit_id spec) = None →
  m_terminal_state row = None →
  Inv (submit_new_db spec job now row d).
Proof.
  intros [Hu Hm Hr Hb Hbl Hfin] Hj Hnm Hrow. split; cbn.
  - intros uid u'. rewrite lookup_insert_Some. intros [[<- <-] | [Hne Hlu]]; unfold unit_ok; cbn.
    + rewrite lookup_insert_eq, lookup_delete_eq. split_and!; [done | by eexists | |].
      * split; cbn; lia.
      * split; [done | by intros []].
    + destruct (Hu _ _ Hlu) as (? & (m & Hlm & ?) & ? & ?).
      rewrite lookup_insert_ne by congruence. rewrite lookup_delete_ne by done. eauto 10.
  - intros job' uid m. rewrite lookup_insert_Some. intros [[? ?] | [_ ?]]; naive_solver.
  - intros uid r' [Hne Hlr']%lookup_delete_Some. destruct (Hr _ _ Hlr') as [? Hs].
    split; cbn; [by apply lookup_insert_is_Some'; right |].
    intros (ref & Href & (a & b & Hlb & ?)%binding_exists_spec)%Hs. exists ref. split; [done |].
    apply binding_exists_spec. exists a, b. cbn. rewrite lookup_bindings_filter. naive_solver.
  - intros uid a b [Hlb Hne]%lookup_bindings_filter. destruct (Hb _ _ _ Hlb) as [? ?].
    split; [by apply lookup_insert_is_Some'; right | done].
  - intros uid bl [Hne Hlbl]%lookup_delete_Some. destruct (Hbl _ _ Hlbl) as (? & ? & u & Hlu & ?).
    split_and!; [done | done |]. cbn. rewrite lookup_insert_ne by done. eauto.
  - done.
Qed.

(** One iteration of the submission loop as a function of the database. *)
Definition submit_db (job : job_id) (now : instant) (deduped : gmap unit_id string)
    (d : Db) (spec : WorkUnitSpec) : Db :=
  match deduped !! us_work_unit_id spec with
  | Some ref => submit_done_db spec job now {|
      m_idx := us_idx spec; m_input_ref := us_input_ref spec; m_terminal_state := Some DONE;
      m_result_status := Some SUCCEEDED; m_result_ref := Some ref |} d
  | None => submit_new_db spec job now {|
      m_idx := us_idx spec; m_input_ref := us_input_ref spec; m_terminal_state := None;
      m_result_status := None; m_result_ref := None |} d
  end.

(** What holds with [rest] still to submit: the job exists, its memberships of
    [rest] do not, and the dedup map is still accurate for [rest]. *)
Definition submit_ready (job : job_id) (deduped : gmap unit_id string)
    (rest : list WorkUnitSpec) (d : Db) : Prop :=
  Inv d ∧ is_Some (jobs d !! job) ∧ NoDup (us_work_unit_id <$> rest) ∧
  ∀ spec, spec ∈ rest →
    deduped !! us_work_unit_id spec = succeeded_ref d (us_work_unit_id spec) ∧
    job_unit_memberships d !! (job, us_work_unit_id spec) = None.

Lemma submit_unit_eq job now deduped spec rest d :
  submit_ready job deduped (spec :: rest) d →
  submit_unit job now deduped spec d = (submit_db job now deduped d spec, inr tt).
Proof.
  intros (HI & _ & _ & Hs). destruct (Hs spec) as [Hd Hm]; [set_solver |].
  unfold submit_unit, submit_db, INSERT_JOB_UNIT_MEMBERSHIP.
  destruct (deduped !! us_work_unit_id spec) as [ref |] eqn:Hded; cbn.
  all: unfold mbind, eff_bind; cbn; rewrite (snapshot_noop _ _ HI); cbn; by rewrite Hm.
Qed.

(** Submitting one unit leaves every other unit's tables alone. *)
Lemma submit_db_frame job now deduped d spec uid :
  uid ≠ us_work_unit_id spec →
  let d' := submit_db job now deduped d spec in
  work_units d' !! uid = work_units d !! uid ∧
  unit_results d' !! uid = unit_results d !! uid ∧
  backup_leases d' !! uid = backup_leases d !! uid ∧
  (∀ a, result_payload_bindings d' !! (uid, a) = result_payload_bindings d !! (uid, a)) ∧
  (∀ job', job_unit_memberships d' !! (job', uid) = job_unit_memberships d !! (job', uid)).
Proof.
  intros Hne. unfold submit_db. destruct (deduped !! _); cbn.
  all: rewrite !lookup_insert_ne by done; rewrite ?lookup_delete_ne by done.
  all: split_and!; try done; intros; rewrite ?lookup_insert_ne by congruence; try done.
  apply option_eq; intros b. rewrite lookup_bindings_filter. naive_solver.
Qed.

Lemma submit_db_jobs job now deduped d spec : jobs (submit_db job now deduped d spec) = jobs d.
Proof. unfold submit_db. by destruct (deduped !! _). Qed.

Lemma submit_ready_step job now deduped spec rest d :
  submit_ready job deduped (spec :: rest) d →
  submit_ready job deduped rest (submit_db job now deduped d spec).
Proof.
  intros (HI & Hj & Hnd & Hs). cbn in Hnd. apply NoDup_cons in Hnd as [Hnin Hnd].
  destruct (Hs spec) as [Hd Hm]; [set_solver |]. split_and!; [| by rewrite submit_db_jobs | done |].
  - unfold submit_db. destruct (deduped !! us_work_unit_id spec) eqn:Hded.
    + apply Inv_submit_done; by rewrite <- ?Hd.
    + by apply Inv_submit_new.
  - intros spec' Hin. destruct (Hs spec') as [Hd' Hm']; [set_solver |].
    assert (us_work_unit_id spec' ≠ us_work_unit_id spec) as Hne.
    { intros Heq. apply Hnin. rewrite <- Heq. by apply list_elem_of_fmap_2. }
    destruct (submit_db_frame job now deduped d spec _ Hne) as (_ & Hr & _ & Hb & Hmm).
    rewrite Hd', Hmm. split; [| done]. symmetry. by apply succeeded_ref_frame.
Qed.

Lemma submit_units_eq job now deduped specs d :
  submit_ready job deduped specs d →
  for_each (submit_unit job now deduped) specs d =
    (fold_left (submit_db job now deduped) specs d, inr tt) ∧
  Inv (fold_left (submit_db job now deduped) specs d).
Proof.
  revert d; induction specs as [| spec specs IH]; intros d Hr; [by destruct Hr |].
  cbn [for_each fold_left]. unfold mbind, eff_bind. rewrite (submit_unit_eq _ _ _ _ _ _ Hr).
  by apply IH, submit_ready_step.
Qed.

(** The job row [submit_job] starts from. *)
Definition new_job_row (job : JobSubmit) (now : instant) : JobRow := {|
  j_kind := js_kind job; j_model_id := js_model_id job; j_payload_ref := js_payload_ref job;
  j_params := js_params job; j_priority := js_priority job; j_state := JOB_PENDING;
  j_created_at := now |}.

Definition recomputed (job : job_id) (d : Db) : Db :=
  SET_JOB_STATE job (next_job_state (COUNT_JOB_UNITS d job)) d.

Definition new_job_db (job : JobSubmit) (units : list WorkUnitSpec) (id : job_id) (now : instant)
    (d : Db) : Db :=
  fold_left (submit_db id now (SELECT_SUCCEEDED_RESULTS d (us_work_unit_id <$> units))) units
    (on_jobs <[id := new_job_row job now]> d).

Lemma submit_ready_init (job : JobSubmit) (units : list WorkUnitSpec) id now d :
  Inv d → jobs d !! id = None → NoDup (us_work_unit_id <$> units) →
  submit_ready id (SELECT_SUCCEEDED_RESULTS d (us_work_unit_id <$> units)) units
    (on_jobs <[id := new_job_row job now]> d).
Proof.
  intros HI Hid Hnd. split_and!; [| cbn; rewrite lookup_insert_eq; by eexists | done |].
  - apply Inv_on_jobs; [| done]. intros j Hj. by apply lookup_insert_is_Some'; right.
  - intros spec Hin. split; cbn.
    + rewrite lookup_succeeded_results by (by apply list_elem_of_fmap_2). done.
    + destruct (job_unit_memberships d !! _) eqn:Hm; [| done].
      apply (inv_member _ _ HI) in Hm. rewrite Hid in Hm. by destruct Hm.
Qed.

Lemma insert_new_job_eq (job : JobSubmit) (units : list WorkUnitSpec) id now d :
  Inv d → jobs d !! id = None → NoDup (us_work_unit_id <$> units) →
  insert_new_job job units id now d = (recomputed id (new_job_db job units id now d), inr id) ∧
  Inv (new_job_db job units id now d).
Proof.
  intros HI Hid Hnd.
  destruct (submit_units_eq id now _ units _ (submit_ready_init job units id now d HI Hid Hnd))
    as [Heq HI'].
  split; [| done].
  unfold insert_new_job, INSERT_JOB, mbind, eff_bind; cbn. rewrite Hid. cbn.
  change (on_jobs (insert id _)) with (on_jobs (<[id := new_job_row job now]>)).
  replace (SELECT_SUCCEEDED_RESULTS (on_jobs <[id:=new_job_row job now]> d) (us_work_unit_id <$> units))
    with (SELECT_SUCCEEDED_RESULTS d (us_work_unit_id <$> units)) by done.
  rewrite Heq. done.
Qed.

Lemma Inv_recomputed X job d : Inv_except X d → Inv_except X (recomputed job d).
Proof. apply Inv_set_job_state. Qed.

Context (default_lease_s : Q) `{!RowOrder}.

Lemma submit_job_wp (job : JobSubmit) (units : list WorkUnitSpec) reuse id now d :
  Inv d → jobs d !! id = None →
  wp (submit_job job units reuse id now) (λ _, Inv)
     (λ e d', reuse = true ∧ e = ActiveWorkUnitConflictError ∧ d' = d) d.
Proof.
  intros HI Hid. unfold submit_job.
  assert (Hnew : ∀ R, wp (insert_new_job job (unique_by us_work_unit_id [] units) id now) (λ _, Inv) R d).
  { intros R. unfold wp. destruct (insert_new_job_eq job (unique_by us_work_unit_id [] units) id now d)
      as [-> HI']; [done | done | apply unique_by_NoDup | by apply Inv_recomputed]. }
  destruct reuse; [| apply Hnew]. unfold matching_active_job.
  repeat first [wp_step | done | apply Hnew].
Qed.

(** ** Leasing *)

Definition lease_transition (agent : agent_id) (uid : unit_id) (u : UnitRow) (now : instant)
    : UnitTransition := {|
  ut_work_unit_id := uid; ut_job_id := u_job_id u; ut_agent_id := agent;
  ut_attempt := (u_attempts u + 1)%Z; ut_state := LEASED; ut_at := now |}.

Definition granted_lease (uid : unit_id) (u : UnitRow) (j : JobRow) (now : instant)
    : WorkUnitLease := {|
  wl_work_unit_id := uid; wl_job_id := u_job_id u; wl_kind := j_kind j;
  wl_model_id := j_model_id j; wl_input_url := u_input_ref u;
  wl_lease_expires := lease_expiry now (u_est_duration_s u) default_lease_s;
  wl_attempt := (u_attempts u + 1)%Z; wl_est_duration_s := u_est_duration_s u |}.

(** The database after leasing [uid]. *)
Definition leased_db (agent : agent_id) (uid : unit_id) (u : UnitRow) (now : instant)
    (d : Db) : Db :=
  on_emitted (λ ts, ts ++ [lease_transition agent uid u now])
    (recomputed (u_job_id u)
       (on_units <[uid := with_lease agent (lease_expiry now (u_est_duration_s u) default_lease_s) u]>
          d)).

Lemma lease_candidates_elem model_ids d uid u j :
  (uid, (u, j)) ∈ lease_candidates model_ids d ↔
  work_units d !! uid = Some u ∧ jobs d !! u_job_id u = Some j ∧
  u_state u = PENDING ∧ j_model_id j ∈ model_ids.
Proof.
  unfold lease_candidates. rewrite list_elem_of_omap. split.
  - intros ([uid' u'] & Hin%elem_of_rows & Hsome). cbn in Hsome.
    destruct (jobs d !! u_job_id u') as [j' |] eqn:Hj; [| done]. cbn in Hsome.
    destruct (bool_decide _ && bool_decide _) eqn:Hb; simplify_eq. reflect_bools. done.
  - intros (Hu & Hj & Hst & Hm). exists (uid, u). rewrite elem_of_rows. split; [done |].
    cbn. rewrite Hj. cbn. by rewrite !bool_decide_eq_true_2.
Qed.

Lemma lease_next_eq agent model_ids now d :
  Inv d → model_ids ≠ [] →
  lease_next default_lease_s agent model_ids now d =
  match SELECT_LEASE_CANDIDATE model_ids d with
  | None => (d, inr None)
  | Some (uid, (u, j)) => (leased_db agent uid u now d, inr (Some (granted_lease uid u j now)))
  end.
Proof.
  intros HI Hne. unfold lease_next. destruct model_ids as [| m ms]; [done |].
  unfold mbind, eff_bind; cbn [gets]. destruct (SELECT_LEASE_CANDIDATE _ d) as [[uid [u j]] |] eqn:Hc; [| done].
  apply py_min_Some in Hc as [Hin%lease_candidates_elem _]. destruct Hin as (Hu & Hj & Hst & _).
  destruct (inv_unit _ _ HI _ _ Hu) as (_ & _ & [Ha _] & _).
  unfold CLAIM_UNIT, mbind, eff_bind; cbn. rewrite Hu. cbn. rewrite bool_decide_eq_true_2 by done. cbn.
  unfold make_transition, make_lease. destruct (Z.leb_spec 1 (u_attempts u + 1)); [done | lia].
Qed.

Lemma with_lease_evolves agent expires u :
  attempts_ok u → u_state u = PENDING → evolves u (with_lease agent expires u).
Proof.
  intros [Ha Hst] Hp. rewrite Hp in Hst. right. cbn. rewrite Hp. split_and!; try done; [| lia].
  split; cbn; [lia |]. split_and!; [lia | by eexists | by eexists].
Qed.

Lemma Inv_leased d agent uid u now :
  Inv d → work_units d !! uid = Some u → u_state u = PENDING →
  Inv (leased_db agent uid u now d).
Proof.
  intros HI Hu Hst. apply Inv_on_emitted, Inv_recomputed.
  apply (Inv_table_evolves _ d (<[uid := _]> (work_units d))); [| done].
  eapply table_evolves_insert; [done |]. destruct (inv_unit _ _ HI _ _ Hu) as (_ & _ & Ha & _).
  by apply with_lease_evolves.
Qed.

Lemma lease_next_wp agent model_ids now d :
  Inv d → wp (lease_next default_lease_s agent model_ids now) (λ _, Inv) (λ _ _, False) d.
Proof.
  intros HI. destruct (decide (model_ids = [])) as [-> | Hne]; [done |].
  unfold wp. rewrite lease_next_eq by done.
  destruct (SELECT_LEASE_CANDIDATE model_ids d) as [[uid [u j]] |] eqn:Hc; [| done].
  apply py_min_Some in Hc as [(Hu & _ & Hst & _)%lease_candidates_elem _]. by apply Inv_leased.
Qed.

Lemma extend_leases_wp agent ids now d :
  Inv d → wp (extend_leases default_lease_s agent ids now) (λ _, Inv) (λ _ _, False) d.
Proof.
  intros HI. unfold extend_leases. destruct ids as [| i ids]; [done |]. apply wp_modify.
  apply (Inv_table_evolves _ d (map_imap _ (work_units d))); [| done].
  apply table_evolves_imap. intros uid u Hu.
  destruct (leased_to agent u && _) eqn:Hl; [| by left]. unfold leased_to in Hl. reflect_bools.
  destruct (inv_unit _ _ HI _ _ Hu) as (_ & _ & [Ha Hs] & _). right.
  unfold attempts_ok. cbn. destruct (u_state u); try done.
  destruct Hs as (? & ? & ?). split_and!; eauto; lia.
Qed.

(** ** Backup leases and payload bindings *)

Lemma lease_backup_wp agent uid now d :
  Inv d → wp (lease_backup max_attempts default_lease_s agent uid now) (λ _, Inv) (λ _ _, False) d.
Proof.
  intros HI. unfold lease_backup. do 2 wp_step.
  destruct (work_units d !! uid) as [u |] eqn:Hu; cbn; [| done].
  destruct (jobs d !! u_job_id u) as [j |] eqn:Hj; cbn; [| done].
  destruct (leased_to_other agent u) eqn:Hl; cbn; [| done].
  do 2 wp_step. destruct (backup_leases d !! uid) eqn:Hbl; [done |].
  do 2 wp_step. unfold make_lease, backup_attempt. destruct (Z.leb_spec 1 (max_attempts + 1)); [| lia].
  do 3 wp_step. destruct (inv_unit _ _ HI _ _ Hu) as (_ & _ & [_ Hs] & _).
  unfold leased_to_other in Hl. reflect_bools.
  destruct HI as [HU Hm Hr Hb HBL Hf]. split; cbn; try done.
  intros uid' bl. rewrite lookup_insert_Some. intros [[<- <-] | [_ ?]]; [| by apply HBL].
  split_and!; cbn; [by eexists | done |]. exists u. split; [done |]. left.
  destruct (u_state u); try done. lia.
Qed.

Lemma Inv_insert_binding d uid a b :
  Inv d → is_Some (work_units d !! uid) → (1 ≤ a ≤ max_attempts + 1)%Z →
  result_payload_bindings d !! (uid, a) = None →
  Inv (on_bindings <[(uid, a) := b]> d).
Proof.
  intros [HU Hm Hr Hb HBL Hf] Hu Ha Hnone. split; cbn; try done.
  - intros uid' r Hlr. destruct (Hr _ _ Hlr) as [? Hs]. split; [done |].
    intros (ref & ? & (a' & b' & Hlb & ?)%binding_exists_spec)%Hs. exists ref. split; [done |].
    apply binding_exists_spec. exists a', b'. cbn. rewrite lookup_insert_ne by congruence. done.
  - intros uid' a' b'. rewrite lookup_insert_Some. intros [[? <-] | [_ ?]]; [by simplify_eq |].
    by eapply Hb.
Qed.

Lemma insert_binding_wp (auth : Db → bool) uid a b d :
  Inv d → (auth d = true → is_Some (work_units d !! uid) ∧ (1 ≤ a ≤ max_attempts + 1)%Z) →
  wp (insert_binding auth uid a b) (λ _, Inv) (λ _ _, False) d.
Proof.
  intros HI Hauth. unfold insert_binding. do 2 wp_step. wp_step; [| by wp_step].
  reflect_bools. do 3 wp_step. destruct Hauth as [? ?]; [done |]. by apply Inv_insert_binding.
Qed.

Lemma primary_upload_bound agent uid a d :
  Inv d → primary_upload_ok agent uid a d = true →
  is_Some (work_units d !! uid) ∧ (1 ≤ a ≤ max_attempts + 1)%Z.
Proof.
  intros HI. unfold primary_upload_ok. destruct (work_units d !! uid) as [u |] eqn:Hu; [| done].
  intros (Hst & _ & <-)%current_lease_spec. split; [by eexists |].
  destruct (inv_unit _ _ HI _ _ Hu) as (_ & _ & [Ha Hs] & _). rewrite Hst in Hs. lia.
Qed.

Lemma backup_upload_bound agent uid a d :
  Inv d → backup_upload_ok agent uid a d = true →
  is_Some (work_units d !! uid) ∧ (1 ≤ a ≤ max_attempts + 1)%Z.
Proof.
  intros HI. unfold backup_upload_ok. intros [(bl & Hbl & _ & <-)%backup_holder_spec _]%andb_true_iff.
  destruct (inv_backup _ _ HI _ _ Hbl) as (_ & -> & u & Hu & _). split; [by eexists | lia].
Qed.

Lemma bind_result_payload_wp agent uid a digest ref now d :
  Inv d → wp (bind_result_payload agent uid a digest ref now) (λ _, Inv) (λ _ _, False) d.
Proof.
  intros HI. unfold bind_result_payload.
  apply (wp_seq (λ _, Inv)); [apply insert_binding_wp; [done | by apply primary_upload_bound] |].
  intros acc d1 HI1. apply (wp_seq (λ _, Inv)); [by destruct acc |].
  intros acc2 d2 HI2. apply (wp_seq (λ _, Inv)).
  - destruct acc2; [done |]. apply insert_binding_wp; [done | by apply backup_upload_bound].
  - intros acc3 d3 HI3. by destruct acc3.
Qed.

(** ** Completion *)

(** When [complete_unit] accepts a result for a unit without one. *)
Definition completion_accepted (d : Db) (agent : agent_id) (attempt : Z) (u : UnitRow)
    (result : WorkResult) : bool :=
  let uid := wr_work_unit_id result in
  let is_primary := current_lease agent attempt u in
  (is_primary || backup_role d uid agent attempt u) &&
  (negb (bool_decide (wr_status result = SUCCEEDED)) ||
   result_binding_accepted d agent attempt result).

Definition done_transition (agent : agent_id) (uid : unit_id) (u : UnitRow) (now : instant)
    : UnitTransition := {|
  ut_work_unit_id := uid; ut_job_id := u_job_id u; ut_agent_id := agent;
  ut_attempt := u_attempts u; ut_state := DONE; ut_at := now |}.

(** The database after an accepted completion. *)
Definition completed_db (agent : agent_id) (u : UnitRow) (result : WorkResult) (now : instant)
    (d : Db) : Db :=
  on_emitted (λ ts, ts ++ [done_transition agent (wr_work_unit_id result) u now])
    (recomputed (u_job_id u)
       (finish_db (wr_work_unit_id result) u (result_row result agent now) (Some (wr_status result))
          (if bool_decide (wr_status result = SUCCEEDED) then wr_result_ref result else None) d)).

Lemma accepted_attempts d agent attempt u result :
  Inv d → work_units d !! wr_work_unit_id result = Some u →
  unit_results d !! wr_work_unit_id result = None →
  current_lease agent attempt u || backup_role d (wr_work_unit_id result) agent attempt u = true →
  (1 ≤ u_attempts u)%Z.
Proof.
  intros HI Hu Hnr. destruct (inv_unit _ _ HI _ _ Hu) as (_ & _ & [_ Hs] & Hd).
  intros [(Hst & _)%current_lease_spec | Hb]%orb_true_iff.
  - rewrite Hst in Hs. lia.
  - unfold backup_role in Hb. apply andb_true_iff in Hb as [Hact (bl & Hbl & _)%backup_holder_spec].
    destruct (inv_backup _ _ HI _ _ Hbl) as (_ & _ & u' & Hu' & Hor). simplify_eq.
    destruct Hor as [? | Hst]; [done |]. by rewrite Hst in Hact.
Qed.

Lemma complete_unit_eq agent attempt result now d :
  Inv d →
  complete_unit agent attempt result now d =
  match work_units d !! wr_work_unit_id result with
  | None => (d, inr false)
  | Some u =>
      match unit_results d !! wr_work_unit_id result with
      | Some _ => (d, inr (matching_completion d agent attempt result ||
                           backup_holder_exists d (wr_work_unit_id result) agent attempt))
      | None =>
          if completion_accepted d agent attempt u result
          then (completed_db agent u result now d, inr true) else (d, inr false)
      end
  end.
Proof.
  intros HI. unfold complete_unit, mbind, eff_bind; cbn [gets id].
  destruct (work_units d !! wr_work_unit_id result) as [u |] eqn:Hu; [| done].
  destruct (unit_results d !! wr_work_unit_id result) as [r |] eqn:Hr.
  { rewrite bool_decide_eq_true_2 by (by eexists). done. }
  rewrite bool_decide_eq_false_2 by (by intros []). unfold completion_accepted.
  destruct (current_lease agent attempt u || backup_role d (wr_work_unit_id result) agent attempt u)
    eqn:Hrole.
  - assert (Ha := accepted_attempts d agent attempt u result HI Hu Hr Hrole).
    assert (Hfin : finalize_unit agent u result now d = (completed_db agent u result now d, inr true)).
    { unfold finalize_unit, mbind, eff_bind; cbn. unfold make_transition.
      by destruct (Z.leb_spec 1 (u_attempts u)); [| lia]. }
    unfold backup_binding_accepted. unfold backup_role in *.
    destruct (current_lease agent attempt u); cbn in *; [| rewrite Hrole; apply andb_true_iff in Hrole as [_ ->]];
      cbn; rewrite ?andb_true_r;
      destruct (bool_decide _); cbn; [destruct (result_binding_accepted _ _ _ _); cbn | | destruct (result_binding_accepted _ _ _ _); cbn |];
      done.
  - apply orb_false_iff in Hrole as [-> ->]. done.
Qed.

Lemma completion_accepted_bound d agent attempt u result :
  completion_accepted d agent attempt u result = true → wr_status result = SUCCEEDED →
  ∃ ref, wr_result_ref result = Some ref ∧ binding_exists d (wr_work_unit_id result) agent ref = true.
Proof.
  unfold completion_accepted. intros [_ [Hs | Hb]%orb_true_iff]%andb_true_iff Hst; [by reflect_bools |].
  apply result_binding_spec in Hb as (b & ref & Hb & Href & ? & ?). exists ref. split; [done |].
  apply binding_exists_spec. eauto.
Qed.

Lemma complete_unit_wp agent attempt result now d :
  Inv d → wp (complete_unit agent attempt result now) (λ _, Inv) (λ _ _, False) d.
Proof.
  intros HI. unfold wp. rewrite complete_unit_eq by done.
  destruct (work_units d !! _) as [u |] eqn:Hu; [| done].
  destruct (unit_results d !! _) as [r |] eqn:Hr; [done |].
  destruct (completion_accepted d agent attempt u result) eqn:Hc; [| done].
  apply Inv_on_emitted, Inv_recomputed, Inv_finish; try done.
  intros Hs. by eapply completion_accepted_bound.
Qed.

(** ** Requeue *)

Definition requeue_transition (s : WorkUnitState) (at_ : instant) (p : unit_id * UnitRow)
    : UnitTransition := {|
  ut_work_unit_id := p.1; ut_job_id := u_job_id p.2;
  ut_agent_id := default "None" (u_lease_agent p.2); ut_attempt := u_attempts p.2;
  ut_state := s; ut_at := at_ |}.

Lemma make_transitions_eq s at_ l (d : Db) :
  Forall (λ p : unit_id * UnitRow, (1 ≤ u_attempts p.2)%Z) l →
  make_transitions s at_ l d = (d, inr (requeue_transition s at_ <$> l)).
Proof.
  induction 1 as [| [uid u] l Hu Hl IH]; [done |]. cbn.
  unfold mbind, eff_bind, make_transition. cbn in Hu.
  destruct (Z.leb_spec 1 (u_attempts u)); [| lia]. unfold mret, eff_ret. cbv beta iota.
  by rewrite IH.
Qed.

Lemma elem_of_returning sel d uid u :
  (uid, u) ∈ returning_where sel d ↔ work_units d !! uid = Some u ∧ sel u = true.
Proof. unfold returning_where. rewrite list_elem_of_filter, elem_of_map_to_list. naive_solver. Qed.

Section Requeue.
  Context (sel : UnitRow → bool) (Hsel : ∀ u, sel u = true → u_state u = LEASED).

Definition sel_retry u := sel u && (u_attempts u <? max_attempts)%Z.
Definition sel_bury u := sel u && (max_attempts <=? u_attempts u)%Z.

  (** After the two UPDATEs, before the memberships are marked. *)
Definition swept_db (d : Db) : Db := update_where sel_bury DEAD (update_where sel_retry PENDING d).

Definition mark_dead (d : Db) (t : UnitTransition) : Db :=
  MARK_JOB_UNIT_TERMINAL (ut_job_id t) (ut_work_unit_id t) DEAD None None d.

Definition retried (at_ : instant) (d : Db) : list UnitTransition :=
  requeue_transition PENDING at_ <$> returning_where sel_retry d.

Definition buried (at_ : instant) (d : Db) : list UnitTransition :=
  requeue_transition DEAD at_ <$> returning_where sel_bury (update_where sel_retry PENDING d).

Definition marked_db (at_ : instant) (d : Db) : Db :=
  fold_left mark_dead (buried at_ d) (swept_db d).

Definition requeue_result (at_ : instant) (d : Db) : list UnitTransition :=
  py_sorted ut_work_unit_id (retried at_ d ++ buried at_ d).

Definition requeued_db (at_ : instant) (d : Db) : Db :=
  fold_left (λ d job, recomputed job d) (remove_dups (ut_job_id <$> requeue_result at_ d))
    (marked_db at_ d).

Lemma for_each_modify {A} (f : A → Db → Db) (l : list A) (d : Db) :
  for_each (λ x, modify (E := QueueError) (f x)) l d = (fold_left (λ d x, f x d) l d, inr tt).
Proof. revert d; induction l as [| x l IH]; intros d; [done |]. cbn. by rewrite <- IH. Qed.

Lemma for_each_recompute l (d : Db) :
  for_each recompute_job_state l d = (fold_left (λ d job, recomputed job d) l d, inr tt).
Proof. revert d; induction l as [| x l IH]; intros d; [done |]. cbn. by rewrite <- IH. Qed.

Lemma Inv_retry d : Inv d → Inv (update_where sel_retry PENDING d).
Proof.
  intros HI. apply (Inv_table_evolves _ d (_ <$> work_units d)); [| done].
  intros uid. rewrite lookup_fmap. destruct (work_units d !! uid) as [u |] eqn:Hu; constructor.
  unfold sel_retry. destruct (sel u) eqn:Hs; [| by left]. cbn.
  destruct (Z.ltb_spec (u_attempts u) max_attempts); [| by left]. right.
  destruct (inv_unit _ _ HI _ _ Hu) as (_ & _ & [Ha Hst] & _). cbn. rewrite (Hsel _ Hs).
  split_and!; [done | done | done | split; cbn; lia | lia].
Qed.

Lemma swept_leased_attempts d P :
  Inv d → (∀ u, P u = true → u_state u = LEASED) →
  Forall (λ p : unit_id * UnitRow, (1 ≤ u_attempts p.2)%Z) (returning_where P d).
Proof.
  intros HI HP. apply Forall_forall. intros [uid u] [Hu Hp]%elem_of_returning. cbn.
  destruct (inv_unit _ _ HI _ _ Hu) as (_ & _ & [_ Hst] & _). rewrite (HP _ Hp) in Hst. lia.
Qed.

Lemma run_requeue_branch_eq P s at_ d :
  Inv d → (∀ u, P u = true → u_state u = LEASED) →
  run_requeue_branch P s at_ d =
  (update_where P s d, inr (requeue_transition s at_ <$> returning_where P d)).
Proof.
  intros HI HP. unfold run_requeue_branch, mbind, eff_bind, gets, modify. cbv beta iota.
  by rewrite make_transitions_eq by (by apply swept_leased_attempts).
Qed.

Lemma sel_retry_leased u : sel_retry u = true → u_state u = LEASED.
Proof. intros [? _]%andb_true_iff. auto. Qed.

Lemma sel_bury_leased u : sel_bury u = true → u_state u = LEASED.
Proof. intros [? _]%andb_true_iff. auto. Qed.

Lemma requeue_eq at_ d :
  Inv d → requeue max_attempts sel at_ d = (requeued_db at_ d, inr (requeue_result at_ d)).
Proof.
  intros HI. unfold requeue, mbind, eff_bind.
  rewrite (run_requeue_branch_eq _ _ _ _ HI sel_retry_leased).
  rewrite (run_requeue_branch_eq _ _ _ _ (Inv_retry _ HI) sel_bury_leased).
  rewrite (for_each_modify (λ t, MARK_JOB_UNIT_TERMINAL (ut_job_id t) (ut_work_unit_id t) DEAD None None)).
  rewrite for_each_recompute. done.
Qed.

  (** Marking the buried rows one by one empties the exception set. *)
Lemma Inv_mark_all at_ l X d :
  Inv_except X d →
  (∀ uid u, (uid, u) ∈ l → ∃ u', work_units d !! uid = Some u' ∧ u_state u' = DEAD ∧
                                 u_job_id u' = u_job_id u) →
  Inv_except (X ∖ list_to_set l.*1)
    (fold_left mark_dead (requeue_transition DEAD at_ <$> l) d).
Proof.
  revert X d; induction l as [| [uid u] l IH]; intros X d HI Hl; cbn.
  { by replace (X ∖ ∅) with X by set_solver. }
  destruct (Hl uid u) as (u' & Hu' & Hst & Hj); [set_solver |].
  replace (X ∖ ({[uid]} ∪ _)) with ((X ∖ {[uid]}) ∖ list_to_set l.*1 : gset unit_id) by set_solver.
  apply IH; unfold mark_dead; cbn.
  - rewrite <- Hj. by apply Inv_mark_dead.
  - intros uid1 u1 Hin. apply Hl. set_solver.
Qed.

Lemma Inv_marked at_ d : Inv d → Inv (marked_db at_ d).
Proof.
  intros HI. apply Inv_retry in HI. unfold marked_db, buried, swept_db.
  generalize dependent (update_where sel_retry PENDING d). clear d. intros d1 HI.
  pose proof (Inv_bury ∅ d1 sel_bury) as Hb.
  apply (Inv_mark_all at_ (returning_where sel_bury d1)) in Hb.
  - by replace (_ ∖ _) with (∅ : gset unit_id) in Hb by set_solver.
  - intros u [Ha _] Hs. pose proof (sel_bury_leased _ Hs). unfold sel_bury in Hs.
    reflect_bools. split; [done | lia].
  - done.
  - intros uid u [Hu Hs]%elem_of_returning. cbn. rewrite lookup_fmap, Hu. cbn. rewrite Hs. eauto.
Qed.

Lemma Inv_requeued at_ d : Inv d → Inv (requeued_db at_ d).
Proof.
  intros HI%(Inv_marked at_). unfold requeued_db. revert HI. generalize (marked_db at_ d) as d'.
  induction (remove_dups _) as [| j js IH]; intros d' HI; [done |]. by apply IH, Inv_recomputed.
Qed.

Lemma for_each_emit l (d : Db) :
  for_each emit_transition l d = (on_emitted (λ ts, ts ++ l) d, inr tt).
Proof.
  revert d; induction l as [| t l IH]; intros d; cbn.
  - unfold on_emitted. rewrite app_nil_r. by destruct d.
  - unfold mbind, eff_bind; cbn. rewrite IH. unfold on_emitted; cbn. by rewrite <- app_assoc.
Qed.

Lemma requeue_and_emit_eq at_ d :
  Inv d →
  requeue_and_emit max_attempts sel at_ d =
  (on_emitted (λ ts, ts ++ requeue_result at_ d) (requeued_db at_ d),
   inr (length (requeue_result at_ d))).
Proof.
  intros HI. unfold requeue_and_emit, mbind, eff_bind. rewrite requeue_eq by done.
  by rewrite for_each_emit.
Qed.

Lemma requeue_and_emit_wp at_ d :
  Inv d → wp (requeue_and_emit max_attempts sel at_) (λ _, Inv) (λ _ _, False) d.
Proof.
  intros HI. unfold wp. rewrite requeue_and_emit_eq by done. by apply Inv_on_emitted, Inv_requeued.
Qed.
End Requeue.

Lemma SELECTOR_EXPIRED_leased now u : SELECTOR_EXPIRED now u = true → u_state u = LEASED.
Proof. unfold SELECTOR_EXPIRED. intros. by reflect_bools. Qed.

Lemma SELECTOR_BY_AGENT_leased agent u : SELECTOR_BY_AGENT agent u = true → u_state u = LEASED.
Proof. unfold SELECTOR_BY_AGENT, leased_to. intros. by reflect_bools. Qed.

Lemma mark_job_finalized_wp id n d :
  Inv d →
  wp (mark_job_finalized id n) (λ _, Inv)
     (λ e d', d' = d ∧ (e = ValueError ∧ (n < 0)%Z ∨ e = IntegrityError ∧ jobs d !! id = None)) d.
Proof.
  intros HI. unfold mark_job_finalized. destruct (Z.ltb_spec n 0); [by split; [| left] |].
  do 2 wp_step. destruct (job_finalizations d !! id) eqn:Hf; [done |].
  case_bool_decide as Hj.
  - do 3 wp_step. destruct HI as [HU Hm Hr Hb HBL HF]. split; cbn; try done.
    intros job m. rewrite lookup_insert_Some. intros [[<- <-] | [_ ?]]; eauto.
  - apply wp_raise. split; [done |]. right. split; [done |]. by apply eq_None_not_Some.
Qed.
End Invariant.
