(* ===== verification/QueueSteps.v ===== *)
(** * The queue as a transition system

    One step is one call of a [SqliteQueueStore] method, taken atomically under
    the store's lock, with any clock reading and any row order SQLite may
    choose.  Every step is one of a few transformations of the database
    ([effect]); the theorems about histories are proved by cases on it. *)

From S2P Require Export QueueInv.

Inductive qcall :=
  | Init
  | SubmitJob (job : JobSubmit) (units : list WorkUnitSpec) (reuse_active : bool)
      (fresh_id : job_id) (now : instant)
  | LeaseNext (agent : agent_id) (model_ids : list model_id) (now : instant)
  | ExtendLeases (agent : agent_id) (ids : list unit_id) (now : instant)
  | LeaseBackup (agent : agent_id) (uid : unit_id) (now : instant)
  | BindResultPayload (agent : agent_id) (uid : unit_id) (attempt : Z) (digest ref : string)
      (now : instant)
  | CompleteUnit (agent : agent_id) (attempt : Z) (result : WorkResult) (now : instant)
  | RequeueExpired (now : instant)
  | RequeueAgent (agent : agent_id) (now : instant)
  | MarkJobFinalized (job : job_id) (indexed_items : Z).

Section Steps.
  Context (max_attempts : Z) (default_lease_s : Q).

(** Run a call for its effect on the database. *)
Definition run_call (ro : RowOrder) (c : qcall) : Q_eff unit :=
  match c with
  | Init => init_backfill
  | SubmitJob job units reuse id now => submit_job job units reuse id now ;; mret tt
  | LeaseNext agent models now => lease_next default_lease_s agent models now ;; mret tt
  | ExtendLeases agent ids now => extend_leases default_lease_s agent ids now
  | LeaseBackup agent uid now => lease_backup max_attempts default_lease_s agent uid now ;; mret tt
  | BindResultPayload agent uid a digest ref now =>
      bind_result_payload agent uid a digest ref now ;; mret tt
  | CompleteUnit agent a result now => complete_unit agent a result now ;; mret tt
  | RequeueExpired now => requeue_expired max_attempts now ;; mret tt
  | RequeueAgent agent now => requeue_agent max_attempts agent now ;; mret tt
  | MarkJobFinalized job n => mark_job_finalized job n ;; mret tt
  end.

(** A [uuid4] the database has not seen. *)
Definition fresh_id_ok (d : Db) (c : qcall) : Prop :=
  match c with SubmitJob _ _ _ id _ => jobs d !! id = None | _ => True end.

Inductive qstep (c : qcall) (d d' : Db) : Prop :=
  | qstep_intro (ro : RowOrder) r : fresh_id_ok d c → run_call ro c d = (d', r) → qstep c d d'.

Definition queue_step (d d' : Db) : Prop := ∃ c, qstep c d d'.

Definition reachable : Db → Prop := rtc queue_step empty_db.

(** ** The transformations *)

Definition no_active_unit (d : Db) (units : list WorkUnitSpec) : Prop :=
  ∀ spec u, spec ∈ units → work_units d !! us_work_unit_id spec = Some u → is_active (u_state u) = false.

Definition requeue_selector (c : qcall) : option (UnitRow → bool) :=
  match c with
  | RequeueExpired now => Some (SELECTOR_EXPIRED now)
  | RequeueAgent agent _ => Some (SELECTOR_BY_AGENT agent)
  | _ => None
  end.

Inductive effect (c : qcall) (d : Db) : Db → Prop :=
  | effect_none : effect c d d
  | effect_submit job units reuse id now :
      c = SubmitJob job units reuse id now → jobs d !! id = None →
      (reuse = true → no_active_unit d (unique_by us_work_unit_id [] units)) →
      effect c d (recomputed id (new_job_db job (unique_by us_work_unit_id [] units) id now d))
  | effect_lease agent uid u j now models :
      c = LeaseNext agent models now →
      work_units d !! uid = Some u → u_state u = PENDING → jobs d !! u_job_id u = Some j →
      effect c d (leased_db default_lease_s agent uid u now d)
  | effect_extend agent ids now expires :
      c = ExtendLeases agent ids now →
      effect c d (EXTEND_LEASES agent ids expires d)
  | effect_backup agent uid now bl :
      c = LeaseBackup agent uid now → backup_leases d !! uid = None →
      bl_agent_id bl = agent →
      effect c d (on_backups <[uid := bl]> d)
  | effect_bind agent uid a digest ref now b :
      c = BindResultPayload agent uid a digest ref now →
      result_payload_bindings d !! (uid, a) = None →
      effect c d (on_bindings <[(uid, a) := b]> d)
  | effect_finish agent a result now u :
      c = CompleteUnit agent a result now →
      work_units d !! wr_work_unit_id result = Some u →
      unit_results d !! wr_work_unit_id result = None →
      completion_accepted d agent a u result = true →
      effect c d (completed_db agent u result now d)
  | effect_requeue sel at_ :
      requeue_selector c = Some sel →
      effect c d (on_emitted (λ ts, ts ++ requeue_result max_attempts sel at_ d)
                    (requeued_db max_attempts sel at_ d))
  | effect_final job n :
      c = MarkJobFinalized job n →
      effect c d (on_finalizations <[job := n]> d).

Lemma requeue_selector_leased c sel u :
  requeue_selector c = Some sel → sel u = true → u_state u = LEASED.
Proof.
  destruct c; try done; intros [= <-]; [apply SELECTOR_EXPIRED_leased | apply SELECTOR_BY_AGENT_leased].
Qed.

(** [c ;; mret tt] has the state of [c]. *)
Lemma run_seq_inv {S E A} (c : Eff S E A) s s' r :
  (c ;; mret tt) s = (s', r) → ∃ r', c s = (s', r').
Proof.
  unfold mbind, eff_bind, mret, eff_ret. destruct (c s) as [s1 [e | a]]; intros [= -> _]; eauto.
Qed.

Hypothesis Hmax : (1 ≤ max_attempts)%Z.

Notation Inv := (Inv max_attempts).

Lemma active_jobs_nil d ids :
  Inv d → active_jobs_for_units d ids = [] →
  ∀ uid u, uid ∈ ids → work_units d !! uid = Some u → is_active (u_state u) = false.
Proof.
  intros HI Hnil uid u Hin Hu. destruct (is_active (u_state u)) eqn:Ha; [| done].
  destruct (inv_unit _ _ _ HI _ _ Hu) as ([j Hj] & _).
  edestruct (unique_by_complete fst [] (omap (λ uid,
    u ← work_units d !! uid; j ← jobs d !! u_job_id u;
    if is_active (u_state u) then Some (u_job_id u, j) else None) ids) (u_job_id u, j))
    as (y & Hy & _); [| set_solver |].
  - apply list_elem_of_omap. exists uid. rewrite Hu. cbn. rewrite Hj. cbn. by rewrite Ha.
  - unfold active_jobs_for_units in Hnil. rewrite Hnil in Hy. by apply elem_of_nil in Hy.
Qed.

Lemma matching_active_job_inv job ids d :
  ∃ r, matching_active_job job ids d = (d, r) ∧
       (r = inr None → active_jobs_for_units d ids = []).
Proof.
  unfold matching_active_job, mbind, eff_bind, gets. cbv beta iota.
  destruct (active_jobs_for_units d ids) as [| p [| q l]]; [by eexists | |].
  - destruct (filter _ _) as [| m [| ? ?]]; by eexists.
  - by eexists.
Qed.

Lemma submit_effect job units reuse id now d d' r :
  Inv d → jobs d !! id = None → submit_job job units reuse id now d = (d', r) →
  effect (SubmitJob job units reuse id now) d d'.
Proof.
  intros HI Hid. unfold submit_job.
  destruct (insert_new_job_eq _ Hmax job (unique_by us_work_unit_id [] units) id now d)
    as [Hnew _]; [done | done | apply unique_by_NoDup |].
  destruct reuse; [| rewrite Hnew; intros [= <- _]; by eapply effect_submit].
  unfold mbind, eff_bind.
  destruct (matching_active_job_inv job (us_work_unit_id <$> unique_by us_work_unit_id [] units) d)
    as (r' & -> & Hnil).
  destruct r' as [e | [id' |]]; [intros [= <- _]; constructor | intros [= <- _]; constructor |].
  rewrite Hnew. intros [= <- _]. eapply effect_submit; [done | done |]. intros _ spec u Hin Hu.
  eapply active_jobs_nil; [done | by apply Hnil | | done]. by apply list_elem_of_fmap_2.
Qed.

Lemma lease_effect (ro : RowOrder) agent models now d d' r :
  Inv d → lease_next default_lease_s agent models now d = (d', r) →
  effect (LeaseNext agent models now) d d'.
Proof.
  intros HI. destruct (decide (models = [])) as [-> | Hne]; [intros [= <- _]; constructor |].
  rewrite (lease_next_eq _ _ _ _ _ _ HI Hne).
  destruct (SELECT_LEASE_CANDIDATE models d) as [[uid [u j]] |] eqn:Hc; intros [= <- _]; [| constructor].
  apply py_min_Some in Hc as [(Hu & Hj & Hst & _)%lease_candidates_elem _]. by eapply effect_lease.
Qed.

Lemma backup_effect agent uid now d d' r :
  Inv d → lease_backup max_attempts default_lease_s agent uid now d = (d', r) →
  effect (LeaseBackup agent uid now) d d'.
Proof.
  intros HI. unfold lease_backup, mbind, eff_bind, gets, make_lease, backup_attempt. cbv beta iota.
  match goal with |- context [match ?o with Some _ => _ | None => _ end] =>
    destruct o as [[u j] |] end; [| intros [= <- _]; constructor].
  destruct (backup_leases d !! uid) eqn:Hbl; cbn; [intros [= <- _]; constructor |].
  destruct (Z.leb_spec 1 (max_attempts + 1)); [| lia]. intros [= <- _]. by eapply effect_backup.
Qed.

Lemma insert_binding_inv auth uid a b d :
  ∃ r : bool, insert_binding auth uid a b d =
    (if r then on_bindings <[(uid, a) := b]> d else d, inr r) ∧
  (r = true → result_payload_bindings d !! (uid, a) = None).
Proof.
  unfold insert_binding, mbind, eff_bind, gets. cbv beta iota.
  destruct (auth d && _) eqn:Ha; [exists true | by exists false]. reflect_bools. done.
Qed.

Lemma bind_effect agent uid a digest ref now d d' r :
  bind_result_payload agent uid a digest ref now d = (d', r) →
  effect (BindResultPayload agent uid a digest ref now) d d'.
Proof.
  unfold bind_result_payload, mbind, eff_bind.
  set (row := {| b_agent_id := agent; b_digest := digest; b_result_ref := ref; b_accepted_at := now |}).
  destruct (insert_binding_inv (primary_upload_ok agent uid a) uid a row d) as ([] & -> & H1); cbn.
  { intros [= <- _]. eapply effect_bind; eauto. }
  destruct (binding_matches _ _ _ _ _ _ && _); cbn; [intros [= <- _]; constructor |].
  destruct (insert_binding_inv (backup_upload_ok agent uid a) uid a row d) as ([] & -> & H2); cbn.
  { intros [= <- _]. eapply effect_bind; eauto. }
  intros [= <- _]. constructor.
Qed.

Lemma complete_effect agent a result now d d' r :
  Inv d → complete_unit agent a result now d = (d', r) →
  effect (CompleteUnit agent a result now) d d'.
Proof.
  intros HI. rewrite (complete_unit_eq _ _ _ _ _ _ HI).
  destruct (work_units d !! _) as [u |] eqn:Hu; [| intros [= <- _]; constructor].
  destruct (unit_results d !! _) as [row |] eqn:Hr; [intros [= <- _]; constructor |].
  destruct (completion_accepted _ _ _ _ _) eqn:Hc; intros [= <- _]; [| constructor].
  by eapply effect_finish.
Qed.

Lemma final_effect job n d d' r :
  mark_job_finalized job n d = (d', r) → effect (MarkJobFinalized job n) d d'.
Proof.
  unfold mark_job_finalized, mbind, eff_bind, gets, raise, modify, mret, eff_ret.
  destruct (n <? 0)%Z; [intros [= <- _]; constructor |].
  destruct (job_finalizations d !! job); [intros [= <- _]; constructor |].
  destruct (bool_decide _); intros [= <- _]; [by eapply effect_final | constructor].
Qed.

(** Every call is one of the transformations. *)
Lemma qstep_effect c d d' : Inv d → qstep c d d' → effect c d d'.
Proof.
  intros HI [ro r Hfresh Hrun]. destruct c; cbn in Hrun; cbn in Hfresh;
    try (apply run_seq_inv in Hrun as [r' Hrun]).
  - unfold init_backfill, modify in Hrun. rewrite (backfill_noop _ _ HI) in Hrun.
    injection Hrun as <- _. constructor.
  - by eapply submit_effect.
  - by eapply lease_effect.
  - unfold extend_leases in Hrun. destruct ids; injection Hrun as <- _; [constructor |].
    by eapply effect_extend.
  - by eapply backup_effect.
  - by eapply bind_effect.
  - by eapply complete_effect.
  - unfold requeue_expired in Hrun.
    rewrite (requeue_and_emit_eq _ _ (SELECTOR_EXPIRED_leased now) _ _ HI) in Hrun.
    injection Hrun as <- _. by eapply effect_requeue.
  - unfold requeue_agent in Hrun.
    rewrite (requeue_and_emit_eq _ _ (SELECTOR_BY_AGENT_leased agent) _ _ HI) in Hrun.
    injection Hrun as <- _. by eapply effect_requeue.
  - by eapply final_effect.
Qed.

(** What a call may raise, and that it then leaves the database alone. *)
Definition call_error (d : Db) (c : qcall) (e : QueueError) : Prop :=
  match c with
  | SubmitJob _ _ reuse _ _ => reuse = true ∧ e = ActiveWorkUnitConflictError
  | MarkJobFinalized job n =>
      e = ValueError ∧ (n < 0)%Z ∨ e = IntegrityError ∧ jobs d !! job = None
  | _ => False
  end.

Lemma wp_ignore {A} (c : Q_eff A) R d :
  wp c (λ _, Inv) R d → wp (c ;; mret tt) (λ _, Inv) R d.
Proof. intros H. by apply (wp_seq (λ _, Inv)). Qed.

Lemma run_call_wp ro c d :
  Inv d → fresh_id_ok d c →
  wp (run_call ro c) (λ _, Inv) (λ e d', call_error d c e ∧ d' = d) d.
Proof.
  intros HI Hf. destruct c; cbn [run_call]; try apply wp_ignore.
  - apply wp_modify. by rewrite (backfill_noop _ _ HI).
  - eapply wp_mono; [| | by apply submit_job_wp]; [done |]. by intros e d' (-> & -> & ->).
  - eapply wp_mono; [| | by apply lease_next_wp]; [done |]. by intros e d' [].
  - eapply wp_mono; [| | by apply extend_leases_wp]; [done |]. by intros e d' [].
  - eapply wp_mono; [| | by apply lease_backup_wp]; [done |]. by intros e d' [].
  - eapply wp_mono; [| | by apply bind_result_payload_wp]; [done |]. by intros e d' [].
  - eapply wp_mono; [| | by apply complete_unit_wp]; [done |]. by intros e d' [].
  - eapply wp_mono; [| | apply requeue_and_emit_wp; [done | apply SELECTOR_EXPIRED_leased | done]]; [done |].
    by intros e d' [].
  - eapply wp_mono; [| | apply requeue_and_emit_wp; [done | apply SELECTOR_BY_AGENT_leased | done]]; [done |].
    by intros e d' [].
  - eapply wp_mono; [| | by apply mark_job_finalized_wp]; [done |].
    intros e d' [-> [[-> ?] | [-> ?]]]; (split; [cbn; auto | done]).
Qed.

Lemma Inv_step c d d' : Inv d → qstep c d d' → Inv d'.
Proof.
  intros HI [ro r Hf Hrun]. pose proof (wp_elim _ _ _ _ _ _ (run_call_wp ro c d HI Hf) Hrun) as H.
  destruct r; [by destruct H as [_ ->] | done].
Qed.

Lemma Inv_reachable d : reachable d → Inv d.
Proof.
  intros Hr. apply (rtc_ind_r (R := queue_step) Inv empty_db); [apply Inv_empty | | done].
  intros d1 d2 _ [c Hs] HI. by eapply Inv_step.
Qed.

(** Induction over histories with the invariant at hand. *)
Lemma history_ind (P : Db → Prop) d0 d :
  Inv d0 → P d0 → (∀ c d1 d2, Inv d1 → P d1 → effect c d1 d2 → P d2) →
  rtc queue_step d0 d → P d.
Proof.
  intros HI0 H0 Hstep Hr.
  enough (Inv d ∧ P d) as [_ ?] by done.
  apply (rtc_ind_r (R := queue_step) (λ d, Inv d ∧ P d) d0); [done | | done].
  intros d1 d2 _ [c Hs] [HI HP]. split; [by eapply Inv_step |]. eapply Hstep; [done | done |].
  by apply qstep_effect.
Qed.
End Steps.
