(* ===== verification/QueueUnits.v ===== *)
(** * One work unit through the queue's history

    What each transformation of the database does to a single unit, the
    abstract life cycle of a unit and the proof that the queue refines it:
    leases are exclusive and bounded, completions are fenced, successful
    results are permanent. *)

From S2P Require Export QueueSteps.

(** ** Frames of the composite updates *)

Section Frames.
  Context (max_attempts : Z) (default_lease_s : Q).

Lemma requeued_frame {C} (obs : Db → C) sel at_ d :
  (∀ d job s, obs (SET_JOB_STATE job s d) = obs d) →
  obs (requeued_db max_attempts sel at_ d) = obs (marked_db max_attempts sel at_ d).
Proof. intros H. unfold requeued_db. apply fold_left_preserves. intros. apply H. Qed.

Lemma marked_frame {C} (obs : Db → C) sel at_ d :
  (∀ d job uid, obs (MARK_JOB_UNIT_TERMINAL job uid DEAD None None d) = obs d) →
  obs (marked_db max_attempts sel at_ d) = obs (swept_db max_attempts sel d).
Proof. intros H. unfold marked_db. apply fold_left_preserves. intros. apply H. Qed.

(** What a requeue makes of a row it selects. *)
Definition requeue_row (sel : UnitRow → bool) (u : UnitRow) : UnitRow :=
  if sel u then with_state (if (u_attempts u <? max_attempts)%Z then PENDING else DEAD) u else u.

Lemma requeued_units sel at_ d :
  (∀ u, sel u = true → u_state u = LEASED) →
  work_units (requeued_db max_attempts sel at_ d) = requeue_row sel <$> work_units d.
Proof.
  intros Hsel. rewrite (requeued_frame work_units), (marked_frame work_units) by done. cbn.
  rewrite <- map_fmap_compose. apply map_fmap_ext. intros uid u _. cbn.
  unfold requeue_row, sel_retry, sel_bury. destruct (sel u) eqn:Hs; cbn; [| by rewrite Hs].
  destruct (Z.ltb_spec (u_attempts u) max_attempts); cbn.
  - destruct (sel (with_state PENDING u)) eqn:Hs'; [| done]. apply Hsel in Hs'. done.
  - rewrite Hs. cbn. destruct (Z.leb_spec max_attempts (u_attempts u)); [done | lia].
Qed.

Lemma requeued_others sel at_ d :
  let d' := requeued_db max_attempts sel at_ d in
  unit_results d' = unit_results d ∧ result_payload_bindings d' = result_payload_bindings d ∧
  backup_leases d' = backup_leases d ∧ emitted d' = emitted d ∧
  job_finalizations d' = job_finalizations d.
Proof.
  cbn. split_and!.
  - by rewrite (requeued_frame unit_results), (marked_frame unit_results).
  - by rewrite (requeued_frame result_payload_bindings), (marked_frame result_payload_bindings).
  - by rewrite (requeued_frame backup_leases), (marked_frame backup_leases).
  - by rewrite (requeued_frame emitted), (marked_frame emitted).
  - by rewrite (requeued_frame job_finalizations), (marked_frame job_finalizations).
Qed.

(** Submitting [units] touches only the tables of those units. *)
Lemma fold_submit_frame id now deduped units d uid :
  (∀ spec, spec ∈ units → us_work_unit_id spec ≠ uid) →
  let d' := fold_left (submit_db id now deduped) units d in
  work_units d' !! uid = work_units d !! uid ∧ unit_results d' !! uid = unit_results d !! uid ∧
  (∀ job', job_unit_memberships d' !! (job', uid) = job_unit_memberships d !! (job', uid)).
Proof.
  revert d. induction units as [| spec units IH]; intros d Hne; cbn; [done |].
  destruct (submit_db_frame id now deduped d spec uid) as (Hw & Hr & _ & _ & Hm).
  { intros ->. by eapply Hne; [apply list_elem_of_here |]. }
  destruct (IH (submit_db id now deduped d spec)) as (Hw' & Hr' & Hm').
  { intros. apply Hne. set_solver. }
  split_and!; [by rewrite Hw' | by rewrite Hr' |]. intros job'. by rewrite Hm', Hm.
Qed.

(** ... and only the memberships of the new job. *)
Lemma new_job_members job units id now d job' uid :
  job' ≠ id →
  job_unit_memberships (new_job_db job units id now d) !! (job', uid) =
  job_unit_memberships d !! (job', uid).
Proof.
  intros Hne. unfold new_job_db.
  rewrite (fold_left_preserves (λ d, job_unit_memberships d !! (job', uid))); [done |].
  intros d0 spec. unfold submit_db. destruct (_ !! us_work_unit_id spec); cbn;
    by rewrite lookup_insert_ne by congruence.
Qed.

Lemma new_job_jobs job units id now d :
  jobs (new_job_db job units id now d) = <[id := new_job_row job now]> (jobs d).
Proof.
  unfold new_job_db. rewrite (fold_left_preserves jobs); [done |]. intros. apply submit_db_jobs.
Qed.

Lemma new_job_emitted job units id now d : emitted (new_job_db job units id now d) = emitted d.
Proof.
  unfold new_job_db. rewrite (fold_left_preserves emitted); [done |]. intros d0 spec.
  unfold submit_db. by destruct (_ !! us_work_unit_id spec).
Qed.

(** A submitted unit: deduplicated against its successful result, or new. *)
Definition submitted_unit (d d' : Db) (id : job_id) (now : instant) (spec : WorkUnitSpec) : Prop :=
  let uid := us_work_unit_id spec in
  match succeeded_ref d uid with
  | Some ref =>
      work_units d' !! uid = Some (fresh_unit_row spec id DONE now) ∧
      unit_results d' !! uid = unit_results d !! uid ∧
      job_unit_memberships d' !! (id, uid) = Some {|
        m_idx := us_idx spec; m_input_ref := us_input_ref spec; m_terminal_state := Some DONE;
        m_result_status := Some SUCCEEDED; m_result_ref := Some ref |}
  | None =>
      work_units d' !! uid = Some (fresh_unit_row spec id PENDING now) ∧
      unit_results d' !! uid = None ∧
      job_unit_memberships d' !! (id, uid) = Some {|
        m_idx := us_idx spec; m_input_ref := us_input_ref spec; m_terminal_state := None;
        m_result_status := None; m_result_ref := None |}
  end.

Lemma submit_db_head id now deduped d spec :
  deduped !! us_work_unit_id spec = succeeded_ref d (us_work_unit_id spec) →
  submitted_unit d (submit_db id now deduped d spec) id now spec.
Proof.
  intros Hd. unfold submitted_unit, submit_db. rewrite Hd.
  destruct (succeeded_ref d _); cbn; rewrite !lookup_insert_eq; split_and!; try done.
  by rewrite lookup_delete_eq.
Qed.

Lemma fold_submitted id now deduped units d spec :
  NoDup (us_work_unit_id <$> units) →
  (∀ spec, spec ∈ units → deduped !! us_work_unit_id spec = succeeded_ref d (us_work_unit_id spec)) →
  spec ∈ units →
  submitted_unit d (fold_left (submit_db id now deduped) units d) id now spec.
Proof.
  revert d; induction units as [| sp units IH]; intros d Hnd Hded Hin; [set_solver |].
  cbn in Hnd. apply NoDup_cons in Hnd as [Hnin Hnd]. cbn.
  assert (Hne : ∀ sp', sp' ∈ units → us_work_unit_id sp' ≠ us_work_unit_id sp).
  { intros sp' Hin' Heq. apply Hnin. rewrite <- Heq. by apply list_elem_of_fmap_2. }
  apply elem_of_cons in Hin as [-> | Hin].
  - destruct (fold_submit_frame id now deduped units (submit_db id now deduped d sp)
      (us_work_unit_id sp) Hne) as (Hw & Hr & Hm).
    pose proof (submit_db_head id now deduped d sp (Hded sp ltac:(set_solver))) as Hs.
    unfold submitted_unit in *. by rewrite Hw, Hr, Hm.
  - assert (Hsame : ∀ sp', sp' ∈ units → succeeded_ref (submit_db id now deduped d sp) (us_work_unit_id sp')
              = succeeded_ref d (us_work_unit_id sp')).
    { intros sp' Hin'. destruct (submit_db_frame id now deduped d sp _ (Hne _ Hin'))
        as (_ & Hr & _ & Hb & _). by apply succeeded_ref_frame. }
    destruct (submit_db_frame id now deduped d sp _ (Hne _ Hin)) as (_ & Hr & _).
    specialize (IH (submit_db id now deduped d sp) Hnd).
    unfold submitted_unit in *. rewrite Hsame, Hr in IH by done. apply IH; [| done].
    intros sp' Hin'. rewrite Hsame by done. apply Hded. set_solver.
Qed.

Lemma new_job_submitted job units id now d spec :
  NoDup (us_work_unit_id <$> units) → spec ∈ units →
  submitted_unit d (new_job_db job units id now d) id now spec.
Proof.
  intros Hnd Hin.
  assert (H := fold_submitted id now (SELECT_SUCCEEDED_RESULTS d (us_work_unit_id <$> units)) units
    (on_jobs <[id := new_job_row job now]> d) spec Hnd). apply H; [| done].
  intros sp Hsp. rewrite lookup_succeeded_results by (by apply list_elem_of_fmap_2). done.
Qed.
End Frames.

(** ** The life cycle of a unit

    The promise of the queue to one unit, independent of tables: [Waiting] for
    a worker with so many leases spent, [Held] by an agent, [Finished] with a
    result, or [Abandoned]. *)

Inductive phase :=
  | Waiting (attempts : Z)
  | Held (agent : agent_id) (attempts : Z)
  | Finished (r : ResultRow)
  | Abandoned.

Definition phase_of (d : Db) (uid : unit_id) : option phase :=
  u ← work_units d !! uid;
  match u_state u with
  | PENDING => Some (Waiting (u_attempts u))
  | LEASED => (λ agent, Held agent (u_attempts u)) <$> u_lease_agent u
  | DONE => Finished <$> unit_results d !! uid
  | DEAD => Some Abandoned
  end.

(** The leases spent by a unit that is still wanted. *)
Definition spent (p : phase) : option Z :=
  match p with Waiting n | Held _ n => Some n | _ => None end.

Inductive unit_step (max_attempts : Z) : option phase → option phase → Prop :=
  | unit_stay p : unit_step max_attempts p p
  | unit_submit p :
      (∀ r, p = Some (Finished r) → r_status r ≠ SUCCEEDED) →
      unit_step max_attempts p (Some (Waiting 0))
  | unit_lease agent n :
      (n < max_attempts)%Z →
      unit_step max_attempts (Some (Waiting n)) (Some (Held agent (n + 1)))
  | unit_retry agent n :
      (n < max_attempts)%Z →
      unit_step max_attempts (Some (Held agent n)) (Some (Waiting n))
  | unit_bury agent :
      unit_step max_attempts (Some (Held agent max_attempts)) (Some Abandoned)
  | unit_finish p n r :
      spent p = Some n → (1 ≤ n)%Z →
      unit_step max_attempts (Some p) (Some (Finished r)).

Section LifeCycle.
  Context (max_attempts : Z) (default_lease_s : Q).
  Hypothesis Hmax : (1 ≤ max_attempts)%Z.

  Notation Inv := (Inv max_attempts).
  Notation effect := (effect max_attempts default_lease_s).

(** The phase depends on the unit's own row and result. *)
Lemma phase_frame d d' uid :
  work_units d' !! uid = work_units d !! uid → unit_results d' !! uid = unit_results d !! uid →
  phase_of d' uid = phase_of d uid.
Proof. unfold phase_of. by intros -> ->. Qed.

Lemma phase_stay d d' uid :
  work_units d' !! uid = work_units d !! uid → unit_results d' !! uid = unit_results d !! uid →
  unit_step max_attempts (phase_of d uid) (phase_of d' uid).
Proof. intros Hw Hr. rewrite (phase_frame d d' uid Hw Hr). constructor. Qed.

Lemma phase_submit job units id now d uid :
  Inv d → NoDup (us_work_unit_id <$> units) →
  unit_step max_attempts (phase_of d uid) (phase_of (recomputed id (new_job_db job units id now d)) uid).
Proof.
  intros HI Hnd. destruct (decide (uid ∈ us_work_unit_id <$> units)) as [Hin | Hnin].
  - apply list_elem_of_fmap in Hin as (spec & -> & Hin).
    pose proof (new_job_submitted job units id now d spec Hnd Hin) as Hs. unfold submitted_unit in Hs.
    destruct (succeeded_ref d (us_work_unit_id spec)) as [ref |] eqn:Href; destruct Hs as (Hw & Hr & _).
    + apply succeeded_ref_Some in Href as (r & Hlr & _).
      assert (phase_of d (us_work_unit_id spec) = Some (Finished r)) as ->.
      { destruct (inv_result _ _ _ HI _ _ Hlr) as [[u Hu] _].
        destruct (inv_unit _ _ _ HI _ _ Hu) as (_ & _ & _ & Hd).
        unfold phase_of. rewrite Hu. cbn. rewrite (proj2 Hd) by (by eexists). by rewrite Hlr. }
      unfold phase_of; cbn. rewrite Hw. cbn. rewrite Hr, Hlr. constructor.
    + assert (phase_of (recomputed id (new_job_db job units id now d)) (us_work_unit_id spec)
              = Some (Waiting 0)) as -> by (unfold phase_of; cbn; by rewrite Hw).
      constructor. intros r Hp Hst. unfold phase_of in Hp.
      destruct (work_units d !! us_work_unit_id spec) as [u |]; [| done]. cbn in Hp.
      destruct (u_state u); try done; [by destruct (u_lease_agent u) |].
      destruct (unit_results d !! us_work_unit_id spec) as [r' |] eqn:Hlr; [| done].
      cbn in Hp. simplify_eq. destruct (Inv_succeeded _ _ _ _ _ HI Hlr Hst) as (? & _ & ?). congruence.
  - destruct (fold_submit_frame id now (SELECT_SUCCEEDED_RESULTS d (us_work_unit_id <$> units)) units
      (on_jobs <[id := new_job_row job now]> d) uid) as (Hw & Hr & _).
    { intros spec Hin <-. apply Hnin. by apply list_elem_of_fmap_2. }
    by apply phase_stay.
Qed.

Lemma phase_requeue sel at_ d uid :
  Inv d → (∀ u, sel u = true → u_state u = LEASED) →
  unit_step max_attempts (phase_of d uid) (phase_of (requeued_db max_attempts sel at_ d) uid).
Proof.
  intros HI Hsel. pose proof (requeued_units max_attempts sel at_ d Hsel) as Hw.
  destruct (requeued_others max_attempts sel at_ d) as (Hr & _).
  destruct (work_units d !! uid) as [u |] eqn:Hu.
  2: { apply phase_stay; [by rewrite Hw, lookup_fmap, Hu | by rewrite Hr]. }
  destruct (sel u) eqn:Hs.
  2: { apply phase_stay; [| by rewrite Hr]. rewrite Hw, lookup_fmap, Hu. unfold requeue_row. cbn.
       by rewrite Hs. }
  destruct (inv_unit _ _ _ HI _ _ Hu) as (_ & _ & [Ha Hl] & _). pose proof (Hsel u Hs) as Hst.
  rewrite Hst in Hl. destruct Hl as (H1 & [agent Hag] & _).
  unfold phase_of. rewrite Hw, lookup_fmap, Hu. unfold requeue_row. cbn. rewrite Hs, Hst, Hag. cbn.
  destruct (Z.ltb_spec (u_attempts u) max_attempts); [by constructor |].
  replace (u_attempts u) with max_attempts by lia. constructor.
Qed.

Lemma phase_finish agent a u result now d :
  Inv d → work_units d !! wr_work_unit_id result = Some u →
  unit_results d !! wr_work_unit_id result = None →
  completion_accepted d agent a u result = true →
  unit_step max_attempts (phase_of d (wr_work_unit_id result))
    (phase_of (completed_db agent u result now d) (wr_work_unit_id result)).
Proof.
  intros HI Hu Hr Hc.
  assert (Ha : (1 ≤ u_attempts u)%Z).
  { eapply accepted_attempts; [done | done | done |]. by apply andb_true_iff in Hc as [? _]. }
  destruct (inv_unit _ _ _ HI _ _ Hu) as (_ & _ & [_ Hst] & Hd).
  assert (u_state u ≠ DONE) as Hnd by (rewrite Hd, Hr; by intros []).
  assert (phase_of (completed_db agent u result now d) (wr_work_unit_id result)
          = Some (Finished (result_row result agent now))) as ->.
  { unfold phase_of, completed_db, finish_db. rewrite INSERT_RESULT_fresh by done. cbn.
    by rewrite lookup_alter_eq, Hu, lookup_insert_eq. }
  unfold phase_of. rewrite Hu. cbn. destruct (u_state u) eqn:Hs.
  - by eapply unit_finish.
  - destruct Hst as (_ & [ag ->] & _). by eapply unit_finish.
  - done.
  - exfalso. unfold completion_accepted, current_lease, leased_to, backup_role in Hc.
    rewrite Hs in Hc. done.
Qed.

(** Every transformation moves every unit along its life cycle. *)
Lemma effect_unit_step c d d' uid :
  Inv d → effect c d d' → unit_step max_attempts (phase_of d uid) (phase_of d' uid).
Proof.
  intros HI He. destruct He; subst.
  - constructor.
  - apply phase_submit; [done | apply unique_by_NoDup].
  - destruct (decide (uid0 = uid)) as [-> | Hne].
    + unfold phase_of at 2; cbn. rewrite lookup_insert_eq; cbn. unfold phase_of. rewrite H0; cbn.
      rewrite H1. constructor. destruct (inv_unit _ _ _ HI _ _ H0) as (_ & _ & [_ Ha] & _).
      by rewrite H1 in Ha.
    + apply phase_stay; cbn; [by rewrite lookup_insert_ne | done].
  - unfold phase_of; cbn. rewrite map_lookup_imap.
    destruct (work_units d !! uid) as [u |]; cbn; [| constructor].
    destruct (leased_to agent u && _); constructor.
  - by apply phase_stay.
  - by apply phase_stay.
  - destruct (decide (wr_work_unit_id result = uid)) as [<- | Hne]; [by eapply phase_finish |].
    apply phase_stay; unfold completed_db, finish_db; rewrite INSERT_RESULT_fresh by done; cbn.
    + by rewrite lookup_alter_ne.
    + by rewrite lookup_insert_ne.
  - apply phase_requeue; [done |]. intros u. by eapply requeue_selector_leased.
  - by apply phase_stay.
Qed.

(** A successful result survives any transformation. *)
Lemma effect_succeeded c d d' uid r :
  Inv d → unit_results d !! uid = Some r → r_status r = SUCCEEDED → effect c d d' →
  unit_results d' !! uid = Some r.
Proof.
  intros HI Hr Hs He.
  destruct He; subst; try done.
  - destruct (Inv_succeeded _ _ _ _ _ HI Hr Hs) as (ref & _ & Hsr).
    set (us := unique_by us_work_unit_id [] units).
    destruct (decide (uid ∈ us_work_unit_id <$> us)) as [Hin | Hnin].
    + apply list_elem_of_fmap in Hin as (spec & -> & Hin).
      pose proof (new_job_submitted job us id now d spec (unique_by_NoDup _ _ _) Hin) as Hsub.
      unfold submitted_unit in Hsub. rewrite Hsr in Hsub. destruct Hsub as (_ & Hr' & _). cbn.
      by rewrite Hr'.
    + destruct (fold_submit_frame id now (SELECT_SUCCEEDED_RESULTS d (us_work_unit_id <$> us)) us
        (on_jobs <[id := new_job_row job now]> d) uid) as (_ & Hr' & _).
      { intros spec Hin <-. apply Hnin. by apply list_elem_of_fmap_2. }
      cbn. unfold new_job_db. by rewrite Hr'.
  - unfold completed_db, finish_db. rewrite INSERT_RESULT_fresh by done. cbn.
    rewrite lookup_insert_ne; [done | congruence].
  - cbn. by destruct (requeued_others max_attempts sel at_ d) as (-> & _).
Qed.
End LifeCycle.
