(* ===== verification/QueueJobs.v ===== *)
(** * Jobs and their units

    A job's stored state is a function of the effective states of its member
    units.  [job_ok] says the stored state is up to date and that every member
    without a recorded outcome is still owned by the job; it is kept by every
    step that does not steal an active unit from another job.  The other steps
    leave an [orphan], which no later step can repair. *)

From S2P Require Export QueueUnits.

(** ** Counting *)

(** The members of a job with their effective states. *)
Definition member_states (d : Db) (job : job_id) : list (unit_id * option WorkUnitState) :=
  (λ p : unit_id * MemberRow, (p.1, effective_state d job p.1 p.2)) <$> job_members d job.

Lemma elem_of_job_members d job uid m :
  (uid, m) ∈ job_members d job ↔ job_unit_memberships d !! (job, uid) = Some m.
Proof.
  unfold job_members. rewrite list_elem_of_fmap. split.
  - intros ([[job' uid'] m'] & Heq & [Hj Hin]%list_elem_of_filter). cbn in *. simplify_eq.
    by apply elem_of_map_to_list.
  - intros Hm. exists ((job, uid), m). split; [done |]. apply list_elem_of_filter.
    split; [done |]. by apply elem_of_map_to_list.
Qed.

Lemma elem_of_member_states d job uid e :
  (uid, e) ∈ member_states d job ↔
  ∃ m, job_unit_memberships d !! (job, uid) = Some m ∧ effective_state d job uid m = e.
Proof.
  unfold member_states. rewrite list_elem_of_fmap. split.
  - intros ([uid' m] & Heq & Hin%elem_of_job_members). cbn in Heq. simplify_eq. eauto.
  - intros (m & Hm & <-). exists (uid, m). split; [done |]. by apply elem_of_job_members.
Qed.

Lemma NoDup_job_members d job : NoDup (job_members d job).*1.
Proof.
  unfold job_members. rewrite <- list_fmap_compose. apply NoDup_fmap_2_strong.
  - intros [[j1 u1] m1] [[j2 u2] m2] [Hj1 H1]%list_elem_of_filter [Hj2 H2]%list_elem_of_filter Heq.
    cbn in *. subst. apply elem_of_map_to_list in H1, H2. congruence.
  - apply NoDup_filter, NoDup_map_to_list.
Qed.

Lemma NoDup_member_states d job : NoDup (member_states d job).
Proof.
  apply (NoDup_fmap_1 fst). unfold member_states. rewrite <- list_fmap_compose. apply NoDup_job_members.
Qed.

Lemma count_state_states d job s :
  count_state d job s = length (filter (λ p, p.2 = Some s) (member_states d job)).
Proof.
  unfold count_state, member_states. induction (job_members d job) as [| p l IH]; [done |].
  rewrite fmap_cons, !filter_cons. cbn [fst snd].
  destruct (decide (effective_state d job p.1 p.2 = Some s)); cbn [length]; by rewrite IH.
Qed.

(** Members unchanged up to effective state: same counts. *)
Lemma counts_ext d d' job :
  (∀ uid e, (uid, e) ∈ member_states d job ↔ (uid, e) ∈ member_states d' job) →
  COUNT_JOB_UNITS d' job = COUNT_JOB_UNITS d job.
Proof.
  intros Hext.
  assert (Hp : member_states d job ≡ₚ member_states d' job).
  { apply NoDup_Permutation; [apply NoDup_member_states .. |]. intros []. apply Hext. }
  unfold COUNT_JOB_UNITS. f_equal; [| by rewrite !count_state_states, Hp ..].
  apply Permutation_length in Hp. unfold member_states in Hp. rewrite !length_fmap in Hp. done.
Qed.

Lemma count_zero d job s :
  count_state d job s = 0%nat ↔
  ∀ uid m, job_unit_memberships d !! (job, uid) = Some m → effective_state d job uid m ≠ Some s.
Proof.
  rewrite count_state_states, length_zero_iff_nil. split.
  - intros Hnil uid m Hm He. apply (elem_of_nil (uid, Some s)). rewrite <- Hnil.
    apply list_elem_of_filter. split; [done |]. apply elem_of_member_states. eauto.
  - intros Hall. destruct (filter _ _) as [| [uid e] l] eqn:Hf; [done |].
    assert ((uid, e) ∈ filter (λ p : unit_id * option WorkUnitState, p.2 = Some s) (member_states d job))
      as [He (m & Hm & <-)%elem_of_member_states]%list_elem_of_filter by (rewrite Hf; set_solver).
    by apply Hall in Hm.
Qed.

(** ** Job consistency *)

Definition owned (d : Db) (job : job_id) (uid : unit_id) : Prop :=
  ∃ u, work_units d !! uid = Some u ∧ u_job_id u = job.

Record job_ok (d : Db) : Prop := {
  job_owned job uid m :
    job_unit_memberships d !! (job, uid) = Some m → m_terminal_state m = None → owned d job uid;
  job_fresh job j :
    jobs d !! job = Some j → j_state j = next_job_state (COUNT_JOB_UNITS d job)
}.

(** Recomputing the jobs of [js] restores [job_fresh] when the other jobs kept
    their effective states. *)
Lemma recomputed_counts job d job' :
  COUNT_JOB_UNITS (recomputed job d) job' = COUNT_JOB_UNITS d job'.
Proof. done. Qed.

Definition recompute_all (js : list job_id) (d : Db) : Db :=
  fold_left (λ d job, recomputed job d) js d.

Lemma recompute_all_counts js d job :
  COUNT_JOB_UNITS (recompute_all js d) job = COUNT_JOB_UNITS d job.
Proof. apply (fold_left_preserves (λ d, COUNT_JOB_UNITS d job)). done. Qed.

Lemma recompute_all_jobs js d job j' :
  jobs (recompute_all js d) !! job = Some j' →
  j_state j' = next_job_state (COUNT_JOB_UNITS d job) ∨ (job ∉ js ∧ jobs d !! job = Some j').
Proof.
  revert d; induction js as [| k js IH]; intros d; cbn; [right; set_solver |].
  intros [Hst | [Hnin Hj]]%IH; [by left |]. cbn in Hj.
  apply lookup_alter_Some in Hj as [(<- & j & Hj & ->) | [Hne ?]]; [by left |].
  right. set_solver.
Qed.

Lemma job_ok_recompute d d1 js :
  job_ok d →
  (∀ job uid m, job_unit_memberships d1 !! (job, uid) = Some m → m_terminal_state m = None →
                owned d1 job uid) →
  (∀ job j, jobs d1 !! job = Some j → job ∉ js →
     jobs d !! job = Some j ∧
     ∀ uid e, (uid, e) ∈ member_states d job ↔ (uid, e) ∈ member_states d1 job) →
  job_ok (recompute_all js d1).
Proof.
  intros [_ Hfresh] Hown Hsame. split.
  - intros job uid m. unfold recompute_all.
    rewrite (fold_left_preserves job_unit_memberships) by done. intros Hm Ht.
    destruct (Hown _ _ _ Hm Ht) as (u & Hu & Hj). exists u. split; [| done].
    by rewrite (fold_left_preserves work_units).
  - intros job j Hj. rewrite recompute_all_counts.
    apply recompute_all_jobs in Hj as [? | [Hnin Hj]]; [done |].
    destruct (Hsame _ _ Hj Hnin) as [Hj0 Hext]. rewrite (counts_ext d d1) by done. by apply Hfresh.
Qed.

(** An update local to the jobs of [js]: owners stay, other jobs' units keep
    their states, memberships of [js] may only gain an outcome. *)
Definition row_local (js : list job_id) (u u' : UnitRow) : Prop :=
  u_job_id u' = u_job_id u ∧ (u_job_id u ∈ js ∨ u_state u' = u_state u).

Definition member_local (js : list job_id) (job : job_id) (o o' : option MemberRow) : Prop :=
  o' = o ∨ (job ∈ js ∧ ∃ m', o' = Some m' ∧ m_terminal_state m' ≠ None).

Lemma job_ok_local d d1 js :
  job_ok d → jobs d1 = jobs d →
  (∀ uid, option_Forall2 (row_local js) (work_units d !! uid) (work_units d1 !! uid)) →
  (∀ job uid, member_local js job (job_unit_memberships d !! (job, uid))
                (job_unit_memberships d1 !! (job, uid))) →
  job_ok (recompute_all js d1).
Proof.
  intros Hok Hjobs Hrow Hmem. apply (job_ok_recompute d); [done | |].
  - intros job uid m Hm Ht. destruct (Hmem job uid) as [Heq | (_ & m' & Hm' & Hn)]; [| congruence].
    rewrite Hm in Heq. destruct (job_owned _ Hok job uid m) as (u & Hu & Hj); [done | done |].
    specialize (Hrow uid). rewrite Hu in Hrow. inversion Hrow as [? u' [Hju _] Hu1 Hu2 |].
    exists u'. split; [done | congruence].
  - intros job j Hj Hnin. rewrite Hjobs in Hj. split; [done |]. intros uid e.
    rewrite !elem_of_member_states. destruct (Hmem job uid) as [-> | [? _]]; [| done].
    enough (∀ m, effective_state d1 job uid m = effective_state d job uid m) as Heff
      by (by setoid_rewrite Heff).
    intros m. unfold effective_state. destruct (m_terminal_state m); [done |].
    destruct (Hrow uid) as [u u' [Hju Hst] |]; [cbn | done]. rewrite Hju.
    case_bool_decide; [| done]. destruct Hst as [? | ->]; [congruence | done].
Qed.

Lemma row_local_refl js o : option_Forall2 (row_local js) o o.
Proof. destruct o; constructor. split; [done | by right]. Qed.

Lemma member_local_refl js job o : member_local js job o o.
Proof. by left. Qed.

#[local] Hint Resolve row_local_refl member_local_refl : fallow.

Lemma job_ok_on_emitted f d : job_ok d → job_ok (on_emitted f d).
Proof. by intros [Ho Hf]; split. Qed.

Lemma mark_dead_members l d job uid :
  member_local (ut_job_id <$> l) job (job_unit_memberships d !! (job, uid))
    (job_unit_memberships (fold_left mark_dead l d) !! (job, uid)).
Proof.
  revert d; induction l as [| t l IH]; intros d; [by left |]. rewrite fmap_cons. cbn [fold_left].
  destruct (IH (mark_dead d t)) as [Heq | (Hin & m' & Hm' & Ht)].
  - rewrite Heq. cbn. destruct (decide ((ut_job_id t, ut_work_unit_id t) = (job, uid))) as [[= <- <-] |].
    + rewrite lookup_alter_eq.
      destruct (job_unit_memberships d !! (ut_job_id t, ut_work_unit_id t)) as [m |]; [| by left].
      right. split; [apply list_elem_of_here | by eexists].
    + rewrite lookup_alter_ne by done. by left.
  - right. split; [by apply list_elem_of_further | eauto].
Qed.

Lemma member_local_mono js js' job o o' :
  js ⊆ js' → member_local js job o o' → member_local js' job o o'.
Proof. intros Hs [-> | [? ?]]; [by left | right; set_solver]. Qed.

Section JobSteps.
  Context (max_attempts : Z) (default_lease_s : Q).
  Hypothesis Hmax : (1 ≤ max_attempts)%Z.

  Notation Inv := (Inv max_attempts).
  Notation effect := (effect max_attempts default_lease_s).

(** Submissions that take no active unit from another job. *)
Definition calm (d : Db) (c : qcall) : Prop :=
  match c with
  | SubmitJob _ units reuse _ _ => reuse = true ∨ no_active_unit d units
  | _ => True
  end.

Lemma requeue_transition_of sel at_ d uid u :
  (∀ u, sel u = true → u_state u = LEASED) → work_units d !! uid = Some u → sel u = true →
  ∃ s, requeue_transition s at_ (uid, u) ∈ requeue_result max_attempts sel at_ d.
Proof.
  intros Hsel Hu Hs. unfold requeue_result. setoid_rewrite py_sorted_perm.
  setoid_rewrite elem_of_app. unfold retried, buried.
  destruct (sel_retry max_attempts sel u) eqn:Hr.
  - exists PENDING. left. apply list_elem_of_fmap_2, elem_of_returning. done.
  - exists DEAD. right. apply list_elem_of_fmap_2, elem_of_returning. cbn.
    rewrite lookup_fmap, Hu. cbn. rewrite Hr. split; [done |].
    unfold sel_retry, sel_bury in *. rewrite Hs in *. cbn in *. reflect_bools.
    by apply Z.leb_le.
Qed.

Lemma job_ok_requeue sel at_ d :
  (∀ u, sel u = true → u_state u = LEASED) → job_ok d →
  job_ok (requeued_db max_attempts sel at_ d).
Proof.
  intros Hsel Hok. apply (job_ok_local d); [done | | |].
  - by rewrite (marked_frame _ jobs).
  - intros uid. rewrite (marked_frame _ work_units) by done.
    rewrite <- (marked_frame _ work_units sel at_), <- (requeued_frame _ work_units) by done.
    rewrite requeued_units by done. rewrite lookup_fmap.
    destruct (work_units d !! uid) as [u |] eqn:Hu; constructor.
    unfold requeue_row. destruct (sel u) eqn:Hs; [| split; [done | by right]].
    split; [done |]. left. destruct (requeue_transition_of sel at_ d uid u Hsel Hu Hs) as [s Hin].
    apply elem_of_remove_dups, list_elem_of_fmap. eexists. split; [| done]. done.
  - intros job uid.
    change (job_unit_memberships d) with (job_unit_memberships (swept_db max_attempts sel d)).
    eapply member_local_mono; [| apply mark_dead_members]. intros j Hj.
    apply elem_of_remove_dups. unfold requeue_result. rewrite py_sorted_perm, fmap_app.
    by apply elem_of_app; right.
Qed.

Lemma job_ok_submit job units id now d :
  Inv d → job_ok d → jobs d !! id = None → NoDup (us_work_unit_id <$> units) →
  no_active_unit d units →
  job_ok (recomputed id (new_job_db job units id now d)).
Proof.
  intros HI Hok Hid Hnd Hna.
  (* a member without an outcome is an active unit, hence not submitted *)
  assert (Hkeep : ∀ job' uid m, job_unit_memberships d !! (job', uid) = Some m →
            m_terminal_state m = None →
            work_units (new_job_db job units id now d) !! uid = work_units d !! uid).
  { intros job' uid m Hm Ht. destruct (job_owned _ Hok _ _ _ Hm Ht) as (u & Hu & <-).
    destruct (inv_unit _ _ _ HI _ _ Hu) as (_ & (m' & Hm' & Ht') & _). simplify_eq.
    rewrite Ht in Ht'. specialize (Ht' ltac:(set_solver)).
    destruct (fold_submit_frame id now (SELECT_SUCCEEDED_RESULTS d (us_work_unit_id <$> units)) units
      (on_jobs <[id := new_job_row job now]> d) uid) as (Hw & _ & _); [| done].
    intros spec Hin <-. specialize (Hna _ _ Hin Hu). unfold is_active in Hna.
    destruct (is_terminal (u_state u)); done. }
  apply (job_ok_recompute d _ [id]); [done | |].
  - intros job' uid m Hm Ht. destruct (decide (job' = id)) as [-> | Hne].
    + destruct (decide (uid ∈ us_work_unit_id <$> units)) as [Hin | Hnin].
      * apply list_elem_of_fmap in Hin as (spec & -> & Hin).
        pose proof (new_job_submitted job units id now d spec Hnd Hin) as Hs.
        unfold submitted_unit in Hs.
        destruct (succeeded_ref d _); destruct Hs as (Hw & _); eexists; by split.
      * destruct (fold_submit_frame id now (SELECT_SUCCEEDED_RESULTS d (us_work_unit_id <$> units))
          units (on_jobs <[id := new_job_row job now]> d) uid) as (_ & _ & Hmm).
        { intros spec Hin <-. apply Hnin. by apply list_elem_of_fmap_2. }
        unfold new_job_db in Hm. rewrite Hmm in Hm. apply (inv_member _ _ _ HI) in Hm.
        rewrite Hid in Hm. by destruct Hm.
    + rewrite new_job_members in Hm by done. destruct (job_owned _ Hok _ _ _ Hm Ht) as (u & Hu & Hj).
      exists u. by rewrite (Hkeep _ _ _ Hm Ht).
  - intros job' j Hj Hnin. assert (job' ≠ id) as Hne by set_solver.
    rewrite new_job_jobs, lookup_insert_ne in Hj by done. split; [done |].
    intros uid e. rewrite !elem_of_member_states, new_job_members by done.
    enough (∀ m, job_unit_memberships d !! (job', uid) = Some m →
      effective_state (new_job_db job units id now d) job' uid m = effective_state d job' uid m) as Heff.
    { split; intros (m & Hm & <-); exists m; (split; [done |]); by rewrite Heff. }
    intros m Hm. unfold effective_state. destruct (m_terminal_state m) eqn:Ht; [done |].
    by rewrite (Hkeep _ _ _ Hm Ht).
Qed.

Lemma effect_job_ok c d d' :
  Inv d → calm d c → job_ok d → effect c d d' → job_ok d'.
Proof.
  intros HI Hcalm Hok He. destruct He; subst.
  - done.
  - apply job_ok_submit; try done; [apply unique_by_NoDup |]. destruct reuse; [auto |].
    destruct Hcalm as [? | Hna]; [done |]. intros spec u [Hin _]%unique_by_subset. by apply Hna.
  - apply job_ok_on_emitted, (job_ok_local d _ [u_job_id u]); auto with fallow. intros uid'. cbn.
    destruct (decide (uid = uid')) as [<- | Hne].
    + rewrite lookup_insert_eq, H0. constructor. split; [done |]. left. set_solver.
    + rewrite lookup_insert_ne by done. auto with fallow.
  - apply (job_ok_local d _ []); auto with fallow. intros uid. cbn. rewrite map_lookup_imap.
    destruct (work_units d !! uid) as [u |]; constructor.
    destruct (leased_to agent u && _); (split; [done | by right]).
  - apply (job_ok_local d _ []); auto with fallow.
  - apply (job_ok_local d _ []); auto with fallow.
  - apply job_ok_on_emitted, (job_ok_local d _ [u_job_id u]); unfold finish_db;
      rewrite ?INSERT_RESULT_fresh by done; auto with fallow.
    + intros uid. cbn. destruct (decide (wr_work_unit_id result = uid)) as [<- | Hne].
      * rewrite lookup_alter_eq, H0. constructor. split; [done |]. left. set_solver.
      * rewrite lookup_alter_ne by done. auto with fallow.
    + intros job uid. cbn.
      destruct (decide ((u_job_id u, wr_work_unit_id result) = (job, uid))) as [[= <- <-] | Hne].
      * rewrite lookup_alter_eq.
        destruct (job_unit_memberships d !! (u_job_id u, wr_work_unit_id result)) as [m |]; [| by left].
        right. cbn. split; [set_solver | by eexists].
      * rewrite lookup_alter_ne by done. by left.
  - apply job_ok_on_emitted, job_ok_requeue; [| done]. intros u. by eapply requeue_selector_leased.
  - apply (job_ok_local d _ []); auto with fallow.
Qed.
End JobSteps.

(** ** Orphans

    A member without an outcome whose unit another job now owns. *)

Definition orphan (d : Db) (job : job_id) (uid : unit_id) : Prop :=
  is_Some (jobs d !! job) ∧
  (∃ m, job_unit_memberships d !! (job, uid) = Some m ∧ m_terminal_state m = None) ∧
  ∃ u, work_units d !! uid = Some u ∧ u_job_id u ≠ job.

Lemma mark_dead_other l d job uid :
  (∀ t, t ∈ l → (ut_job_id t, ut_work_unit_id t) ≠ (job, uid)) →
  job_unit_memberships (fold_left mark_dead l d) !! (job, uid) =
  job_unit_memberships d !! (job, uid).
Proof.
  revert d; induction l as [| t l IH]; intros d Hne; [done |]. cbn [fold_left].
  rewrite IH by (intros; apply Hne; by apply list_elem_of_further). cbn.
  by rewrite lookup_alter_ne by (apply Hne; apply list_elem_of_here).
Qed.

(** An unowned member blocks the details of its job. *)
Lemma unit_outcomes_None d job l uid m :
  (uid, m) ∈ l → effective_state d job uid m = None → unit_outcomes d job l = None.
Proof.
  induction l as [| [uid' m'] l IH]; [set_solver |].
  intros [[= <- <-] | Hin]%elem_of_cons He; cbn; [by rewrite He |].
  destruct (effective_state d job uid' m'); cbn; [| done]. by rewrite IH.
Qed.

Lemma unit_outcomes_Some d job l :
  (∀ uid m, (uid, m) ∈ l → is_Some (effective_state d job uid m)) →
  ∃ os, unit_outcomes d job l = Some os ∧
    Forall2 (λ p o, o_work_unit_id o = p.1 ∧ Some (o_state o) = effective_state d job p.1 p.2 ∧
                    o_idx o = m_idx p.2 ∧ o_input_ref o = m_input_ref p.2 ∧
                    o_result_status o = m_result_status p.2 ∧ o_result_ref o = m_result_ref p.2) l os.
Proof.
  induction l as [| [uid m] l IH]; intros Hl; [by eexists |].
  destruct (Hl uid m) as [s Hs]; [set_solver |].
  destruct IH as (os & Hos & HF); [intros; apply Hl; set_solver |].
  cbn. rewrite Hs. cbn. rewrite Hos. cbn. eexists. split; [done |].
  constructor; [cbn; by rewrite Hs | done].
Qed.

Lemma elem_of_ordered_members d job uid m :
  (uid, m) ∈ ordered_members d job ↔ job_unit_memberships d !! (job, uid) = Some m.
Proof. unfold ordered_members. rewrite py_sorted_perm. apply elem_of_job_members. Qed.

Lemma orphan_details d job uid :
  orphan d job uid → job_details job d = (d, inl ValueError).
Proof.
  intros ([j Hj] & (m & Hm & Ht) & u & Hu & Hne). unfold job_details, mbind, eff_bind; cbn.
  rewrite Hj. rewrite (unit_outcomes_None d job _ uid m); [done | by apply elem_of_ordered_members |].
  unfold effective_state. rewrite Ht, Hu. cbn. by rewrite bool_decide_eq_false_2.
Qed.

Section Orphans.
  Context (max_attempts : Z) (default_lease_s : Q).
  Hypothesis Hmax : (1 ≤ max_attempts)%Z.

  Notation Inv := (Inv max_attempts).
  Notation effect := (effect max_attempts default_lease_s).

(** Any transformation that keeps owners keeps orphans. *)
Lemma orphan_frame d d' job uid :
  (∀ j, is_Some (jobs d !! j) → is_Some (jobs d' !! j)) →
  job_unit_memberships d' !! (job, uid) = job_unit_memberships d !! (job, uid) →
  (∀ u, work_units d !! uid = Some u → u_job_id u ≠ job →
     ∃ u', work_units d' !! uid = Some u' ∧ u_job_id u' ≠ job) →
  orphan d job uid → orphan d' job uid.
Proof.
  intros Hj Hm Hu (Hjob & (m & Hlm & Ht) & u & Hlu & Hne). split_and!; [by apply Hj | | by eapply Hu].
  exists m. by rewrite Hm.
Qed.

Lemma jobs_alter_dom (ms : gmap job_id JobRow) f k j :
  is_Some (ms !! j) → is_Some (alter f k ms !! j).
Proof. by rewrite lookup_alter_is_Some. Qed.

Lemma requeued_jobs_dom sel at_ d j :
  is_Some (jobs d !! j) → is_Some (jobs (requeued_db max_attempts sel at_ d) !! j).
Proof.
  intros Hj. unfold requeued_db.
  assert (is_Some (jobs (marked_db max_attempts sel at_ d) !! j)) as H
    by (by rewrite (marked_frame _ jobs)).
  revert H. generalize (marked_db max_attempts sel at_ d).
  induction (remove_dups _) as [| k l IH]; intros d' H; [done |]. apply IH. by apply jobs_alter_dom.
Qed.

Lemma effect_orphan c d d' job uid :
  Inv d → effect c d d' → orphan d job uid → orphan d' job uid.
Proof.
  intros HI He Ho. destruct He; subst; try done.
  - destruct Ho as ([j Hj] & Hm & u & Hu & Hne). apply (orphan_frame d); [| | |].
    + intros j' Hj'. apply jobs_alter_dom. rewrite new_job_jobs. by apply lookup_insert_is_Some'; right.
    + apply new_job_members. congruence.
    + intros u0 Hu0 Hne0. set (us := unique_by us_work_unit_id [] units).
      destruct (decide (uid ∈ us_work_unit_id <$> us)) as [Hin | Hnin].
      * apply list_elem_of_fmap in Hin as (spec & -> & Hin).
        pose proof (new_job_submitted job0 us id now d spec (unique_by_NoDup _ _ _) Hin) as Hs.
        unfold submitted_unit in Hs. cbn.
        destruct (succeeded_ref d _); destruct Hs as (-> & _); eexists; (split; [done |]); cbn; congruence.
      * destruct (fold_submit_frame id now (SELECT_SUCCEEDED_RESULTS d (us_work_unit_id <$> us)) us
          (on_jobs <[id := new_job_row job0 now]> d) uid) as (Hw & _ & _).
        { intros spec Hin <-. apply Hnin. by apply list_elem_of_fmap_2. }
        exists u0. split; [| done]. cbn. unfold new_job_db. by rewrite Hw.
    + split_and!; [by eexists | done | eauto].
  - apply (orphan_frame d); [intros j'; apply jobs_alter_dom | done | | done]. intros u0 Hu0 Hne0. cbn.
    destruct (decide (uid0 = uid)) as [-> |]; [| rewrite lookup_insert_ne by done; eauto].
    rewrite lookup_insert_eq. simplify_eq. eauto.
  - apply (orphan_frame d); [done | done | | done]. intros u0 Hu0 Hne0. cbn.
    rewrite map_lookup_imap, Hu0. cbn. eexists. split; [done |].
    by destruct (leased_to agent u0 && _).
  - apply (orphan_frame d); [| | | done]; unfold completed_db, finish_db;
      rewrite INSERT_RESULT_fresh by done; cbn.
    + intros j'; apply jobs_alter_dom.
    + destruct Ho as (_ & _ & u0 & Hu0 & Hne). rewrite lookup_alter_ne; [done |].
      intros [= Hj Hw]. rewrite Hw in *. congruence.
    + intros u0 Hu0 Hne0. destruct (decide (wr_work_unit_id result = uid)) as [<- |].
      * rewrite lookup_alter_eq, Hu0. eauto.
      * rewrite lookup_alter_ne by done. eauto.
  - assert (Hsel : ∀ u, sel u = true → u_state u = LEASED)
      by (intros u; by eapply requeue_selector_leased).
    apply (orphan_frame d); [| | | done]; cbn.
    + apply requeued_jobs_dom.
    + rewrite (requeued_frame _ (λ d, job_unit_memberships d !! (job, uid))) by done.
      unfold marked_db. rewrite mark_dead_other; [done |].
      intros t ([uid' u'] & -> & Hin)%list_elem_of_fmap [= <- <-].
      apply elem_of_returning in Hin as [Hin _]. cbn in Hin. rewrite lookup_fmap in Hin.
      destruct Ho as (_ & _ & u0 & Hu0 & Hne). rewrite Hu0 in Hin. cbn in Hin.
      apply Hne. simplify_eq. by destruct (sel_retry _ _ _).
    + intros u0 Hu0 Hne0. rewrite requeued_units by done. rewrite lookup_fmap, Hu0.
      eexists. split; [done |]. unfold requeue_row. by destruct (sel u0).
Qed.
End Orphans.

(** ** Recorded outcomes are terminal *)

Definition outcomes_terminal (d : Db) : Prop :=
  ∀ k m s, job_unit_memberships d !! k = Some m → m_terminal_state m = Some s → is_terminal s = true.

Section Outcomes.
  Context (max_attempts : Z) (default_lease_s : Q).

Lemma outcomes_alter d f k :
  (∀ m, m_terminal_state (f m) = Some DONE ∨ m_terminal_state (f m) = Some DEAD) →
  outcomes_terminal d → outcomes_terminal (on_members (alter f k) d).
Proof.
  intros Hf Hd k' m s. cbn. intros [(<- & m0 & _ & ->) | [_ ?]]%lookup_alter_Some Ht; [| by eapply Hd].
  destruct (Hf m0) as [Hm | Hm]; rewrite Hm in Ht; by simplify_eq.
Qed.

Lemma outcomes_fold {B} (f : Db → B → Db) l d :
  (∀ d b, outcomes_terminal d → outcomes_terminal (f d b)) →
  outcomes_terminal d → outcomes_terminal (fold_left f l d).
Proof. intros Hf. revert d; induction l as [| b l IH]; cbn; auto. Qed.

Lemma outcomes_insert d k m :
  m_terminal_state m = None ∨ m_terminal_state m = Some DONE →
  outcomes_terminal d → outcomes_terminal (on_members <[k := m]> d).
Proof.
  intros Hm Hd k' m' s. cbn. intros [[<- <-] | [_ ?]]%lookup_insert_Some Ht; [| by eapply Hd].
  destruct Hm as [Hm | Hm]; rewrite Hm in Ht; by simplify_eq.
Qed.

Lemma effect_outcomes c d d' :
  effect max_attempts default_lease_s c d d' → outcomes_terminal d → outcomes_terminal d'.
Proof.
  intros He Hd. destruct He; subst; try done.
  - unfold new_job_db. apply (outcomes_fold _ _ (on_jobs _ d)); [| done]. intros d0 spec Hd0.
    unfold submit_db. destruct (_ !! us_work_unit_id spec);
      [apply (outcomes_insert (UPSERT_WORK_UNIT _ _ _ _ _)) | apply (outcomes_insert (UPSERT_WORK_UNIT _ _ _ _ _))];
      cbn; auto.
  - unfold completed_db, finish_db. rewrite INSERT_RESULT_fresh by done.
    apply (outcomes_alter (MARK_UNIT_DONE _ _)); [by left | done].
  - unfold requeued_db. intros k m s. cbn. rewrite (fold_left_preserves job_unit_memberships) by done.
    unfold marked_db. revert k m s. apply outcomes_fold; [| done].
    intros d0 t Hd0. apply outcomes_alter; [by right | done].
Qed.
End Outcomes.

(** ** What a job's state and details say *)

Lemma next_job_state_done c :
  next_job_state c = JOB_DONE ↔ c_total c = 0%nat ∨ (c_pending c = 0%nat ∧ c_leased c = 0%nat).
Proof.
  unfold next_job_state. destruct (Nat.eqb_spec (c_total c) 0), (Nat.eqb_spec (c_pending c) 0),
    (Nat.eqb_spec (c_leased c) 0); cbn; split_matches; naive_solver.
Qed.

Section Answers.
  Context (max_attempts : Z) (d : Db).
  Context (HI : Inv max_attempts d) (Hok : job_ok d) (Hterm : outcomes_terminal d).

(** A member's effective state is always known; it is active exactly while no
    outcome is recorded. *)
Lemma member_effective job uid m :
  job_unit_memberships d !! (job, uid) = Some m →
  ∃ s, effective_state d job uid m = Some s ∧ (m_terminal_state m = None ↔ is_active s = true).
Proof.
  intros Hm. unfold effective_state, is_active. destruct (m_terminal_state m) as [s |] eqn:Ht.
  - exists s. rewrite (Hterm _ _ _ Hm Ht). done.
  - destruct (job_owned _ Hok _ _ _ Hm Ht) as (u & Hu & <-).
    destruct (inv_unit _ _ _ HI _ _ Hu) as (_ & (m' & Hm' & Ht') & _). simplify_eq.
    specialize (Ht' ltac:(set_solver)). rewrite Hu. cbn. rewrite bool_decide_eq_true_2 by done.
    exists (u_state u). split; [done |]. rewrite Ht in Ht'. by destruct (is_terminal (u_state u)).
Qed.

Lemma job_done_terminal job j :
  jobs d !! job = Some j →
  j_state j = JOB_DONE ↔
  ∀ uid m, job_unit_memberships d !! (job, uid) = Some m → is_Some (m_terminal_state m).
Proof.
  intros Hj. rewrite (job_fresh _ Hok _ _ Hj), next_job_state_done. cbn. rewrite !count_zero. split.
  - intros Hc uid m Hm. destruct (member_effective _ _ _ Hm) as (s & He & Hs).
    destruct (m_terminal_state m); [by eexists |]. exfalso. destruct Hc as [Hz | [Hp Hl]].
    + apply length_zero_iff_nil in Hz. apply elem_of_job_members in Hm. rewrite Hz in Hm.
      by apply elem_of_nil in Hm.
    + pose proof (Hp _ _ Hm). pose proof (Hl _ _ Hm). destruct s; naive_solver.
  - intros Hall. right. split; intros uid m Hm He; destruct (member_effective _ _ _ Hm) as (s & He' & Hs);
      destruct (Hall _ _ Hm) as [t Ht]; rewrite Ht, He in *; simplify_eq; naive_solver.
Qed.

Lemma job_details_total job j :
  jobs d !! job = Some j →
  ∃ det, job_details job d = (d, inr (Some det)) ∧ jd_model_id det = j_model_id j ∧
    jd_params det = j_params j ∧
    (∀ uid m, job_unit_memberships d !! (job, uid) = Some m →
       ∃ o, o ∈ jd_units det ∧ o_work_unit_id o = uid ∧ Some (o_state o) = effective_state d job uid m ∧
            o_result_ref o = m_result_ref m) ∧
    (∀ o, o ∈ jd_units det → is_Some (job_unit_memberships d !! (job, o_work_unit_id o))).
Proof.
  intros Hj. destruct (unit_outcomes_Some d job (ordered_members d job)) as (os & Hos & HF).
  { intros uid m Hm%elem_of_ordered_members. destruct (member_effective _ _ _ Hm) as (s & -> & _). eauto. }
  unfold job_details, mbind, eff_bind; cbn. rewrite Hj, Hos. eexists. split_and!; try done; cbn.
  - intros uid m Hm. apply elem_of_ordered_members, list_elem_of_lookup in Hm as [i Hi].
    destruct (Forall2_lookup_l _ _ _ _ _ HF Hi) as (o & Ho & ? & ? & _ & _ & _ & ?).
    exists o. split_and!; try done. by apply list_elem_of_lookup_2 in Ho.
  - intros o [i Hi]%list_elem_of_lookup. destruct (Forall2_lookup_r _ _ _ _ _ HF Hi) as ([uid m] & Hp & -> & _).
    apply list_elem_of_lookup_2, elem_of_ordered_members in Hp. by eexists.
Qed.
End Answers.
