(* ===== verification/QueueHistory.v ===== *)
(** * The transitions the queue emits

    The observer sees every committed lease.  The attempts it sees leased for
    one unit under one job are 1, 2, 3, ... in this order, and never more than
    the budget; a replayed event stream can rely on it. *)

From S2P Require Export QueueJobs.

(** The attempts leased so far for [uid] under [job], oldest first. *)
Definition lease_attempts (job : job_id) (uid : unit_id) (ts : list UnitTransition) : list Z :=
  omap (λ t, if bool_decide (ut_job_id t = job ∧ ut_work_unit_id t = uid ∧ ut_state t = LEASED)
             then Some (ut_attempt t) else None) ts.

Lemma lease_attempts_app job uid ts ts' :
  lease_attempts job uid (ts ++ ts') = lease_attempts job uid ts ++ lease_attempts job uid ts'.
Proof. apply omap_app. Qed.

Lemma lease_attempts_none job uid ts :
  (∀ t, t ∈ ts → ut_state t ≠ LEASED ∨ ut_job_id t ≠ job) → lease_attempts job uid ts = [].
Proof.
  induction ts as [| t ts IH]; intros H; [done |]. cbn.
  rewrite bool_decide_eq_false_2.
  - apply IH. intros t' Hin. apply H. by apply list_elem_of_further.
  - intros (Hj & _ & Hst). destruct (H t ltac:(apply list_elem_of_here)); done.
Qed.

Section History.
  Context (max_attempts : Z) (default_lease_s : Q).
  Hypothesis Hmax : (1 ≤ max_attempts)%Z.

  Notation Inv := (Inv max_attempts).
  Notation effect := (effect max_attempts default_lease_s).

(** The log agrees with the table for the current owner. *)
Definition logged (d : Db) (job : job_id) (uid : unit_id) : Prop :=
  ∃ n, (0 ≤ n ≤ max_attempts)%Z ∧ lease_attempts job uid (emitted d) = seqZ 1 n ∧
       ∀ u, work_units d !! uid = Some u → u_job_id u = job → u_attempts u = n.

Definition log_ok (d : Db) : Prop :=
  (∀ t, t ∈ emitted d → is_Some (jobs d !! ut_job_id t)) ∧ ∀ job uid, logged d job uid.

(** Rows that keep their owner and attempts, and events that are not leases. *)
Lemma log_ok_frame d d' l :
  log_ok d → emitted d' = emitted d ++ l →
  (∀ t, t ∈ l → ut_state t ≠ LEASED ∧ is_Some (jobs d !! ut_job_id t)) →
  (∀ j, is_Some (jobs d !! j) → is_Some (jobs d' !! j)) →
  (∀ uid, option_Forall2 (λ u u', u_job_id u' = u_job_id u ∧ u_attempts u' = u_attempts u)
            (work_units d !! uid) (work_units d' !! uid)) →
  log_ok d'.
Proof.
  intros [Hjobs Hlog] He Hl Hdom Hrow. split.
  - intros t. rewrite He. intros [? | Hin]%elem_of_app; [eauto |]. apply Hdom. by apply Hl.
  - intros job uid. destruct (Hlog job uid) as (n & Hn & Hseq & Hu). exists n. split_and!; [lia | lia | |].
    + rewrite He, lease_attempts_app, Hseq, (lease_attempts_none _ _ l), app_nil_r; [done |].
      intros t Ht. left. by apply Hl.
    + intros u' Hu' Hj'. destruct (Hrow uid) as [u u'' [Hj Ha] |]; simplify_eq. rewrite Ha. by apply Hu.
Qed.

Lemma rows_same (m : gmap unit_id UnitRow) uid :
  option_Forall2 (λ u u', u_job_id u' = u_job_id u ∧ u_attempts u' = u_attempts u) (m !! uid) (m !! uid).
Proof. by destruct (m !! uid); constructor. Qed.

Lemma leased_emitted d agent uid u now :
  emitted (leased_db default_lease_s agent uid u now d) = emitted d ++ [lease_transition agent uid u now].
Proof. done. Qed.

Lemma log_ok_lease d agent uid u now :
  Inv d → work_units d !! uid = Some u → u_state u = PENDING → log_ok d →
  log_ok (leased_db default_lease_s agent uid u now d).
Proof.
  intros HI Hu Hst [Hjobs Hlog]. destruct (inv_unit _ _ _ HI _ _ Hu) as (Hj & _ & [Ha Hp] & _).
  rewrite Hst in Hp. split.
  - cbn. intros t [Hin | ->%list_elem_of_singleton]%elem_of_app; apply jobs_alter_dom; [auto | done].
  - intros job uid'. destruct (Hlog job uid') as (n & Hn & Hseq & Hrow).
    destruct (decide (u_job_id u = job ∧ uid = uid')) as [[<- <-] | Hne].
    + specialize (Hrow u Hu eq_refl). exists (n + 1)%Z. split_and!; [lia | lia | |].
      * rewrite leased_emitted, lease_attempts_app, Hseq. cbn. rewrite bool_decide_eq_true_2 by done.
        rewrite seqZ_app by lia. f_equal. change (seqZ (1 + n) 1) with [(0 + (1 + n))%Z]. f_equal. lia.
      * cbn. intros u'. rewrite lookup_insert_eq. intros [= <-] _. cbn. lia.
    + exists n. split_and!; [lia | lia | |].
      * rewrite leased_emitted, lease_attempts_app, Hseq. cbn. rewrite bool_decide_eq_false_2 by naive_solver.
        by rewrite app_nil_r.
      * cbn. intros u'. rewrite lookup_insert_Some. intros [[<- <-] | [_ ?]]; [cbn | auto]. naive_solver.
Qed.

Lemma log_ok_submit job units id now d :
  Inv d → jobs d !! id = None → NoDup (us_work_unit_id <$> units) → log_ok d →
  log_ok (recomputed id (new_job_db job units id now d)).
Proof.
  intros HI Hid Hnd [Hjobs Hlog]. split.
  - cbn. rewrite new_job_emitted. intros t Ht. apply jobs_alter_dom. rewrite new_job_jobs. apply lookup_insert_is_Some'. auto.
  - intros job' uid. destruct (Hlog job' uid) as (n & Hn & Hseq & Hrow).
    assert (Hn0 : job' = id → n = 0%Z).
    { intros ->. rewrite lease_attempts_none in Hseq.
      - apply (f_equal length) in Hseq. rewrite length_seqZ in Hseq. cbn in Hseq. lia.
      - intros t Ht. right. intros Heq. specialize (Hjobs t Ht). rewrite Heq, Hid in Hjobs.
        by destruct Hjobs. }
    exists n. split_and!; [lia | lia | |].
    { replace (emitted (recomputed id _)) with (emitted d) by (symmetry; apply new_job_emitted). done. }
    intros u Hu Hj. cbn in Hu.
    destruct (decide (uid ∈ us_work_unit_id <$> units)) as [Hin | Hnin].
    + apply list_elem_of_fmap in Hin as (spec & -> & Hin).
      pose proof (new_job_submitted job units id now d spec Hnd Hin) as Hs. unfold submitted_unit in Hs.
      destruct (succeeded_ref d _); destruct Hs as (Hw & _); rewrite Hw in Hu; simplify_eq; cbn in *;
        by rewrite Hn0.
    + destruct (fold_submit_frame id now (SELECT_SUCCEEDED_RESULTS d (us_work_unit_id <$> units)) units
        (on_jobs <[id := new_job_row job now]> d) uid) as (Hw & _ & _).
      { intros spec Hin <-. apply Hnin. by apply list_elem_of_fmap_2. }
      unfold new_job_db in Hu. rewrite Hw in Hu. auto.
Qed.

Lemma requeue_result_inv sel at_ d t :
  (∀ u, sel u = true → u_state u = LEASED) → t ∈ requeue_result max_attempts sel at_ d →
  ∃ uid u, work_units d !! uid = Some u ∧ sel u = true ∧
    t = requeue_transition (if (u_attempts u <? max_attempts)%Z then PENDING else DEAD) at_ (uid, u).
Proof.
  intros Hsel. unfold requeue_result. rewrite py_sorted_perm, elem_of_app. unfold retried, buried.
  intros [([uid u] & -> & [Hu Hs]%elem_of_returning)%list_elem_of_fmap
         |([uid u] & -> & [Hu Hs]%elem_of_returning)%list_elem_of_fmap]; exists uid.
  - exists u. unfold sel_retry in Hs. apply andb_true_iff in Hs as [Hs Hlt]. rewrite Hlt. done.
  - cbn in Hu. rewrite lookup_fmap, fmap_Some in Hu. destruct Hu as (u0 & Hu0 & ->).
    pose proof (sel_bury_leased _ _ Hsel _ Hs) as Hl.
    destruct (sel_retry max_attempts sel u0); [done |]. exists u0. unfold sel_bury in Hs. reflect_bools.
    by replace (u_attempts u0 <? max_attempts)%Z with false by lia.
Qed.

Lemma effect_log_ok c d d' : Inv d → log_ok d → effect c d d' → log_ok d'.
Proof.
  intros HI Hlog He. destruct He; subst; try done.
  - apply log_ok_submit; try done. apply unique_by_NoDup.
  - by apply log_ok_lease.
  - apply (log_ok_frame d _ []); try done; [by rewrite app_nil_r | set_solver |]. intros uid. cbn.
    rewrite map_lookup_imap. destruct (work_units d !! uid) as [u |]; constructor.
    by destruct (leased_to agent u && _).
  - eapply (log_ok_frame d _ [_]); unfold completed_db, finish_db; rewrite ?INSERT_RESULT_fresh by done; try done.
    + intros t ->%list_elem_of_singleton. split; [done |]. cbn.
      by destruct (inv_unit _ _ _ HI _ _ H0) as (? & _).
    + intros j'. apply jobs_alter_dom.
    + intros uid. cbn. destruct (decide (wr_work_unit_id result = uid)) as [<- |].
      * rewrite lookup_alter_eq, H0. by constructor.
      * rewrite lookup_alter_ne by done. apply rows_same.
  - assert (Hsel : ∀ u, sel u = true → u_state u = LEASED)
      by (intros u; by eapply requeue_selector_leased).
    destruct (requeued_others max_attempts sel at_ d) as (_ & _ & _ & Hem & _).
    apply (log_ok_frame d _ (requeue_result max_attempts sel at_ d)); try done; cbn.
    + by rewrite Hem.
    + intros t (uid & u & Hu & _ & ->)%(requeue_result_inv _ _ _ _ Hsel). split.
      * cbn. by destruct (_ <? _)%Z.
      * by destruct (inv_unit _ _ _ HI _ _ Hu) as (? & _).
    + apply requeued_jobs_dom.
    + intros uid. rewrite requeued_units by done. rewrite lookup_fmap.
      destruct (work_units d !! uid) as [u |]; constructor. unfold requeue_row. by destruct (sel u).
Qed.

Lemma log_ok_empty : log_ok empty_db.
Proof.
  split; cbn; [set_solver |]. intros job uid. exists 0%Z. split_and!; [lia | lia | done |].
  intros u Hu. cbn in Hu. by rewrite lookup_empty in Hu.
Qed.
End History.
