(* ===== verification/QueueSpec.v ===== *)
(** * What the durable queue promises

    The theorems about every reachable state of the queue, each with an
    instance on a concrete history. *)

From S2P Require Export QueueHistory.

Section Replay.
  Context (max_attempts : Z) (default_lease_s : Q).

(** Run a list of calls, refusing a job id that is already taken. *)
Fixpoint replay (cs : list qcall) (d : Db) : option Db :=
  match cs with
  | [] => Some d
  | c :: cs =>
      if match c with SubmitJob _ _ _ id _ => bool_decide (jobs d !! id = None) | _ => true end
      then replay cs (run_call max_attempts default_lease_s key_row_order c d).1
      else None
  end.

Lemma replay_steps cs d d' :
  replay cs d = Some d' → rtc (queue_step max_attempts default_lease_s) d d'.
Proof.
  revert d; induction cs as [| c cs IH]; intros d; cbn; [by intros [= <-] |].
  destruct (match c with SubmitJob _ _ _ _ _ => _ | _ => _ end) eqn:Hc; [| done].
  intros Hr. eapply rtc_l; [| by apply IH]. exists c.
  eapply (qstep_intro _ _ c d _ key_row_order); [| apply surjective_pairing].
  destruct c; try done. by apply bool_decide_eq_true in Hc.
Qed.

Definition calm_step (d d' : Db) : Prop :=
  ∃ c, calm d c ∧ qstep max_attempts default_lease_s c d d'.
End Replay.

(** ** A concrete history *)

Definition demo_submit (priority : Z) : JobSubmit := {|
  js_kind := EMBED; js_model_id := "m1"; js_payload_ref := "blob:1"; js_params := ∅;
  js_priority := priority |}.

Definition demo_spec (uid : unit_id) (idx : Z) : WorkUnitSpec := {|
  us_work_unit_id := uid; us_idx := idx; us_input_ref := "in"; us_est_duration_s := None |}.

Definition demo_result (uid : unit_id) (ref : string) : WorkResult := {|
  wr_work_unit_id := uid; wr_status := SUCCEEDED; wr_result_ref := Some ref; wr_error := None;
  wr_metrics := None |}.

(** Two units submitted, [u1] leased by agent [a] with its payload uploaded. *)
Definition demo_calls : list qcall := [
  Init;
  SubmitJob (demo_submit 0) [demo_spec "u1" 0; demo_spec "u2" 1; demo_spec "u1" 0] true "j1" 0;
  LeaseNext "a" ["m1"] 10;
  BindResultPayload "a" "u1" 1 "digest" "blob:r1" 20].

Definition demo_db : Db := default empty_db (replay 4 120 demo_calls empty_db).

Lemma demo_reachable : reachable 4 120 demo_db.
Proof. apply (replay_steps 4 120 demo_calls). vm_compute. reflexivity. Qed.

(** The same history with [u1] completed. *)
Definition demo_done_db : Db :=
  (run_call 4 120 key_row_order (CompleteUnit "a" 1 (demo_result "u1" "blob:r1") 30) demo_db).1.

Lemma demo_done_reachable : reachable 4 120 demo_done_db.
Proof.
  eapply rtc_r; [apply demo_reachable |].
  exists (CompleteUnit "a" 1 (demo_result "u1" "blob:r1") 30).
  eapply (qstep_intro _ _ _ _ _ key_row_order); [done | apply surjective_pairing].
Qed.

(** ** The invariant and the errors *)

(** C7: every state the queue can reach satisfies the database invariant:
    foreign keys hold, [attempts] stays within [0, max_attempts] and agrees with
    the unit's state, a unit is done exactly when it has a result, its owner's
    membership records the outcome exactly when it is terminal, and every
    successful result has a payload binding of its own agent. *)
Theorem queue_invariant max_attempts default_lease_s d :
  (1 ≤ max_attempts)%Z → reachable max_attempts default_lease_s d → Inv max_attempts d.
Proof. intros Hmax. by apply Inv_reachable. Qed.

Lemma queue_invariant_witness : Inv 4 demo_done_db ∧ map_size (work_units demo_done_db) = 2%nat.
Proof.
  split; [apply (queue_invariant 4 120); [lia | apply demo_done_reachable] | vm_compute; reflexivity].
Defined.

(** In a reachable state no method hits an integrity or validation error of
    its own: the only exceptions are the documented refusal to steal units, a
    negative item count and finalising an unknown job, and each of them leaves
    the database unchanged. *)
Theorem queue_errors max_attempts default_lease_s ro c d d' e :
  (1 ≤ max_attempts)%Z → reachable max_attempts default_lease_s d → fresh_id_ok d c →
  run_call max_attempts default_lease_s ro c d = (d', inl e) → call_error d c e ∧ d' = d.
Proof.
  intros Hmax Hr Hf Hrun. pose proof (Inv_reachable _ _ Hmax _ Hr) as HI.
  exact (wp_elim _ _ _ _ _ _ (run_call_wp _ _ Hmax ro c d HI Hf) Hrun).
Qed.

Lemma queue_errors_witness :
  call_error demo_db (MarkJobFinalized "nope" 3) IntegrityError ∧ demo_db = demo_db.
Proof.
  apply (queue_errors 4 120 key_row_order (MarkJobFinalized "nope" 3) demo_db demo_db);
    [lia | apply demo_reachable | done | vm_compute; reflexivity].
Defined.

(** ** Leasing *)

(** The order in which pending units are served: higher priority of the job
    first, then the older unit, then the lower index within its job. *)
Definition served_before (u u' : UnitRow) (j j' : JobRow) : Prop :=
  (j_priority j' < j_priority j ∨
   j_priority j = j_priority j' ∧
   (u_created_at u < u_created_at u' ∨
    u_created_at u = u_created_at u' ∧ u_idx u ≤ u_idx u'))%Z.

Lemma candidate_key_order uid u j uid' u' j' :
  key_le (candidate_key (uid, (u, j))) (candidate_key (uid', (u', j'))) = true ↔
  served_before u u' j j'.
Proof.
  unfold served_before, candidate_key. rewrite !pair_key_le. cbn [fst snd]. unfold key_le, Z_key.
  rewrite !andb_true_iff, !orb_true_iff, !andb_true_iff, !orb_true_iff, !negb_true_iff, !Z.leb_le, !Z.leb_gt. lia.
Qed.

(** What one call of [lease_next] does: a pending unit of an offered model that
    no other one precedes is granted to the agent with one more attempt, within
    the budget, until the expiry of its estimate, with the model and input of its
    job, and nothing else changes; or there is no such unit and nothing happens. *)
Definition lease_next_post (max_attempts : Z) (default_lease_s : Q) (agent : agent_id) (models : list model_id)
    (now : instant) (d d' : Db) (r : option WorkUnitLease) : Prop :=
  let candidate uid u j := work_units d !! uid = Some u ∧ jobs d !! u_job_id u = Some j ∧
                           u_state u = PENDING ∧ j_model_id j ∈ models in
  match r with
  | Some l =>
      ∃ u j, candidate (wl_work_unit_id l) u j ∧
        (∀ uid' u' j', candidate uid' u' j' → served_before u u' j j') ∧
        wl_job_id l = u_job_id u ∧ wl_model_id l = j_model_id j ∧ wl_input_url l = u_input_ref u ∧
        wl_lease_expires l = lease_expiry now (u_est_duration_s u) default_lease_s ∧
        wl_attempt l = (u_attempts u + 1)%Z ∧ (1 ≤ wl_attempt l ≤ max_attempts)%Z ∧
        work_units d' =
          <[wl_work_unit_id l := with_lease agent (wl_lease_expires l) u]> (work_units d) ∧
        unit_results d' = unit_results d ∧ job_unit_memberships d' = job_unit_memberships d ∧
        result_payload_bindings d' = result_payload_bindings d ∧ backup_leases d' = backup_leases d
  | None => d' = d ∧ ∀ uid u j, ~ candidate uid u j
  end.

(** C8: [lease_next] always returns, and does exactly [lease_next_post]: highest
    priority first, then oldest, then lowest index, one unit and one attempt at
    a time, never beyond the budget; [None] exactly when nothing is pending. *)
Theorem lease_next_spec `{!RowOrder} max_attempts default_lease_s agent models now d :
  (1 ≤ max_attempts)%Z → reachable max_attempts default_lease_s d →
  ∃ d' r, lease_next default_lease_s agent models now d = (d', inr r) ∧
          lease_next_post max_attempts default_lease_s agent models now d d' r.
Proof.
  intros Hmax Hr. pose proof (Inv_reachable _ _ Hmax _ Hr) as HI.
  destruct (decide (models = [])) as [-> | Hne].
  { exists d, None. split; [done |]. split; [done |]. intros uid u j (_ & _ & _ & Hin).
    by apply elem_of_nil in Hin. }
  rewrite (lease_next_eq _ _ _ _ _ _ HI Hne). destruct (SELECT_LEASE_CANDIDATE models d) as [[uid [u j]] |] eqn:Hc.
  - apply py_min_Some in Hc as [Hin Hmin]. pose proof Hin as Hin'.
    apply lease_candidates_elem in Hin' as (Hu & Hj & Hst & Hm).
    destruct (inv_unit _ _ _ HI _ _ Hu) as (_ & _ & [Ha Hp] & _). rewrite Hst in Hp.
    do 2 eexists. split; [done |]. exists u, j. cbn. split_and!; try done; try lia.
    intros uid' u' j' Hc'. by eapply candidate_key_order, Hmin, lease_candidates_elem.
  - apply py_min_None in Hc. do 2 eexists. split; [done |]. split; [done |]. intros uid u j Hcand.
    apply (lease_candidates_elem models d uid u j) in Hcand. rewrite Hc in Hcand.
    by apply elem_of_nil in Hcand.
Qed.

Lemma lease_next_spec_witness :
  ∃ d' r, @lease_next 120 key_row_order "b" ["m1"] 40 demo_db = (d', inr r) ∧
          lease_next_post 4 120 "b" ["m1"] 40 demo_db d' r.
Proof. apply (@lease_next_spec key_row_order 4 120); [lia | apply demo_reachable]. Defined.

(** Along any history the attempts leased for one unit under one job are
    numbered 1, 2, 3, ... without gap or repetition, and there are at most
    [max_attempts] of them, so no two primary leases of a unit share a fencing
    number. *)
Theorem leases_in_order max_attempts default_lease_s d job uid :
  (1 ≤ max_attempts)%Z → reachable max_attempts default_lease_s d →
  ∃ n, (0 ≤ n ≤ max_attempts)%Z ∧ lease_attempts job uid (emitted d) = seqZ 1 n.
Proof.
  intros Hmax Hr.
  assert (log_ok max_attempts d) as [_ Hlog].
  { apply (history_ind max_attempts default_lease_s Hmax (log_ok max_attempts) empty_db d);
      [apply Inv_empty | by apply log_ok_empty | | done].
    intros c d1 d2. by apply effect_log_ok. }
  destruct (Hlog job uid) as (n & ? & ? & _). eauto.
Qed.

Lemma leases_in_order_witness :
  ∃ n, (0 ≤ n ≤ 4)%Z ∧ lease_attempts "j1" "u1" (emitted demo_done_db) = seqZ 1 n.
Proof. apply (leases_in_order 4 120); [lia | apply demo_done_reachable]. Defined.

(** ** Completion *)

(** C2: [complete_unit] is fenced.  It accepts a first result only from the
    agent holding the unit at exactly that attempt, or from the unit's backup
    holder; a success only with a payload uploaded by that agent for that
    attempt; and it then stores precisely that result and finishes the unit.
    Every other answer leaves the database unchanged. *)
Theorem completion_fenced max_attempts default_lease_s agent attempt result now d d' r :
  (1 ≤ max_attempts)%Z → reachable max_attempts default_lease_s d →
  complete_unit agent attempt result now d = (d', r) →
  let uid := wr_work_unit_id result in
  d' = d ∨
  r = inr true ∧ unit_results d !! uid = None ∧
  unit_results d' = <[uid := result_row result agent now]> (unit_results d) ∧
  work_units d' = alter (with_state DONE) uid (work_units d) ∧
  (∃ u, work_units d !! uid = Some u ∧
        (current_lease agent attempt u = true ∨
         is_active (u_state u) = true ∧ backup_holder_exists d uid agent attempt = true)) ∧
  (wr_status result = SUCCEEDED →
     ∃ b, result_payload_bindings d !! (uid, attempt) = Some b ∧ b_agent_id b = agent ∧
          wr_result_ref result = Some (b_result_ref b)).
Proof.
  intros Hmax Hr. pose proof (Inv_reachable _ _ Hmax _ Hr) as HI. rewrite (complete_unit_eq _ _ _ _ _ _ HI).
  destruct (work_units d !! wr_work_unit_id result) as [u |] eqn:Hu; [| intros [= <- _]; by left].
  destruct (unit_results d !! wr_work_unit_id result) eqn:Hres; [intros [= <- _]; by left |].
  destruct (completion_accepted d agent attempt u result) eqn:Hc; intros [= <- <-]; [right | by left].
  unfold completed_db, finish_db. rewrite INSERT_RESULT_fresh by done. cbn.
  unfold completion_accepted in Hc. apply andb_true_iff in Hc as [Hrole Hbind]. split_and!; try done.
  - exists u. split; [done |]. apply orb_true_iff in Hrole as [? | Hb]; [by left | right].
    by apply andb_true_iff in Hb.
  - intros Hs. rewrite Hs in Hbind. cbn in Hbind.
    apply result_binding_spec in Hbind as (b & ref & Hb & Href & Ha & Hrr). exists b. by subst.
Qed.

Lemma completion_fenced_witness :
  demo_done_db = demo_db ∨
  @inr QueueError bool true = inr true ∧ unit_results demo_db !! "u1" = None ∧
  unit_results demo_done_db =
    <["u1" := result_row (demo_result "u1" "blob:r1") "a" 30]> (unit_results demo_db) ∧
  work_units demo_done_db = alter (with_state DONE) "u1" (work_units demo_db) ∧
  (∃ u, work_units demo_db !! "u1" = Some u ∧
        (current_lease "a" 1 u = true ∨
         is_active (u_state u) = true ∧ backup_holder_exists demo_db "u1" "a" 1 = true)) ∧
  (SUCCEEDED = SUCCEEDED →
     ∃ b, result_payload_bindings demo_db !! ("u1", 1%Z) = Some b ∧ b_agent_id b = "a" ∧
          Some "blob:r1" = Some (b_result_ref b)).
Proof.
  apply (completion_fenced 4 120 "a" 1 (demo_result "u1" "blob:r1") 30 demo_db demo_done_db (inr true));
    [lia | apply demo_reachable | vm_compute; reflexivity].
Defined.

(** A worker that lost the reply may repeat an accepted completion, at any
    later time: it is accepted again and changes nothing. *)
Theorem completion_retry max_attempts default_lease_s agent attempt result now now' d d' :
  (1 ≤ max_attempts)%Z → reachable max_attempts default_lease_s d →
  complete_unit agent attempt result now d = (d', inr true) →
  complete_unit agent attempt result now' d' = (d', inr true).
Proof.
  intros Hmax Hr Hc. pose proof (Inv_reachable _ _ Hmax _ Hr) as HI.
  pose proof (complete_unit_wp _ agent attempt result now d HI) as HI'.
  unfold wp in HI'. rewrite Hc in HI'.
  rewrite (complete_unit_eq _ _ _ _ _ _ HI'). rewrite (complete_unit_eq _ _ _ _ _ _ HI) in Hc.
  destruct (work_units d !! wr_work_unit_id result) as [u |] eqn:Hu; [| done].
  destruct (unit_results d !! wr_work_unit_id result) eqn:Hres.
  { injection Hc as <- Hok. by rewrite Hu, Hres, Hok. }
  destruct (completion_accepted d agent attempt u result) eqn:Hacc; [| done]. injection Hc as <-.
  apply andb_true_iff in Hacc as [Hrole _].
  unfold matching_completion, backup_holder_exists, completed_db, finish_db.
  rewrite INSERT_RESULT_fresh by done. cbn. rewrite lookup_alter_eq, Hu, lookup_insert_eq. cbn.
  do 2 f_equal. apply orb_true_iff in Hrole as [(_ & -> & <-)%current_lease_spec | Hb].
  - rewrite !bool_decide_eq_true_2 by done. by rewrite metrics_eqb_refl, Z.eqb_refl.
  - apply andb_true_iff in Hb as [_ Hb]. unfold backup_holder_exists in Hb. rewrite Hb. apply orb_true_r.
Qed.

Lemma completion_retry_witness :
  complete_unit "a" 1 (demo_result "u1" "blob:r1") 99 demo_done_db = (demo_done_db, inr true).
Proof.
  apply (completion_retry 4 120 "a" 1 (demo_result "u1" "blob:r1") 30 99 demo_db demo_done_db);
    [lia | apply demo_reachable | vm_compute; reflexivity].
Defined.

(** A successful result is permanent: whatever happens afterwards (expiry,
    backups, late completions, resubmission of the same content) its row never
    changes, so its result reference stays valid for every job that needs it. *)
Theorem succeeded_forever max_attempts default_lease_s d d' uid r :
  (1 ≤ max_attempts)%Z → reachable max_attempts default_lease_s d →
  unit_results d !! uid = Some r → r_status r = SUCCEEDED →
  rtc (queue_step max_attempts default_lease_s) d d' →
  unit_results d' !! uid = Some r.
Proof.
  intros Hmax Hr Hres Hs Hsteps.
  apply (history_ind max_attempts default_lease_s Hmax (λ d, unit_results d !! uid = Some r) d d');
    [by eapply Inv_reachable | done | | done].
  intros c d1 d2 HI Hd1 He. by eapply effect_succeeded.
Qed.

Lemma succeeded_forever_witness :
  unit_results (default empty_db (replay 4 120
    [SubmitJob (demo_submit 5) [demo_spec "u1" 0] false "j2" 50; RequeueExpired 60] demo_done_db))
    !! "u1" = Some (result_row (demo_result "u1" "blob:r1") "a" 30).
Proof.
  apply (succeeded_forever 4 120 demo_done_db); [lia | apply demo_done_reachable | vm_compute; reflexivity
    | reflexivity |].
  apply (replay_steps 4 120 [SubmitJob (demo_submit 5) [demo_spec "u1" 0] false "j2" 50; RequeueExpired 60]).
  vm_compute. reflexivity.
Defined.

(** ** Requeue *)

(** Requeueing (expired leases, or all leases of an agent that left) returns
    every selected unit with attempts to spare to [PENDING], buries the others,
    keeps their attempts, touches no other unit and no result, and reports
    exactly the selected units, in order of their ids. *)
Theorem requeue_spec max_attempts default_lease_s c sel at_ d :
  (1 ≤ max_attempts)%Z → reachable max_attempts default_lease_s d →
  requeue_selector c = Some sel →
  ∃ d' ts, requeue max_attempts sel at_ d = (d', inr ts) ∧
    work_units d' = requeue_row max_attempts sel <$> work_units d ∧
    unit_results d' = unit_results d ∧
    StronglySorted (key_rel ut_work_unit_id) ts ∧
    ∀ t, t ∈ ts ↔ ∃ uid u, work_units d !! uid = Some u ∧ sel u = true ∧
      t = requeue_transition (if (u_attempts u <? max_attempts)%Z then PENDING else DEAD) at_ (uid, u).
Proof.
  intros Hmax Hr Hc. pose proof (Inv_reachable _ _ Hmax _ Hr) as HI.
  assert (Hsel : ∀ u, sel u = true → u_state u = LEASED) by (intros u; by eapply requeue_selector_leased).
  destruct (requeued_others max_attempts sel at_ d) as (Hres & _).
  do 2 eexists. split; [by apply requeue_eq |]. split_and!; [by apply requeued_units | done | |].
  - apply py_sorted_sorted.
  - intros t. split; [by apply requeue_result_inv |]. intros (uid & u & Hu & Hs & ->).
    destruct (requeue_transition_of max_attempts sel at_ d uid u Hsel Hu Hs) as (s & Hin).
    pose proof (requeue_result_inv _ _ _ _ _ Hsel Hin) as (uid' & u' & Hu' & Hs' & [= -> Hj _ Ha ->]).
    simplify_eq. done.
Qed.

Lemma requeue_spec_witness :
  ∃ d' ts, requeue 4 (SELECTOR_BY_AGENT "a") 70 demo_db = (d', inr ts) ∧
    work_units d' = requeue_row 4 (SELECTOR_BY_AGENT "a") <$> work_units demo_db ∧
    unit_results d' = unit_results demo_db ∧
    StronglySorted (key_rel ut_work_unit_id) ts ∧
    ∀ t, t ∈ ts ↔ ∃ uid u, work_units demo_db !! uid = Some u ∧ SELECTOR_BY_AGENT "a" u = true ∧
      t = requeue_transition (if (u_attempts u <? 4)%Z then PENDING else DEAD) 70 (uid, u).
Proof.
  apply (requeue_spec 4 120 (RequeueAgent "a" 70)); [lia | apply demo_reachable | reflexivity].
Defined.

(** ** Refinement *)

(** C1: the queue refines the abstract life cycle of each unit: every call moves
    every unit by a step of [unit_step] (possibly none).  In particular a unit
    is leased only from [Waiting] with budget left, it is abandoned only with
    the budget spent, and a successful unit never goes back. *)
Theorem queue_refines_life_cycle max_attempts default_lease_s d d' uid :
  (1 ≤ max_attempts)%Z → reachable max_attempts default_lease_s d →
  queue_step max_attempts default_lease_s d d' →
  unit_step max_attempts (phase_of d uid) (phase_of d' uid).
Proof.
  intros Hmax Hr [c Hs]. pose proof (Inv_reachable _ _ Hmax _ Hr) as HI.
  eapply effect_unit_step; [done |]. by apply qstep_effect.
Qed.

Lemma queue_refines_life_cycle_witness :
  unit_step 4 (phase_of demo_db "u1") (phase_of demo_done_db "u1") ∧
  phase_of demo_db "u1" = Some (Held "a" 1) ∧
  phase_of demo_done_db "u1" = Some (Finished (result_row (demo_result "u1" "blob:r1") "a" 30)).
Proof.
  split; [| split; vm_compute; reflexivity].
  apply (queue_refines_life_cycle 4 120); [lia | apply demo_reachable |].
  exists (CompleteUnit "a" 1 (demo_result "u1" "blob:r1") 30).
  eapply (qstep_intro _ _ _ _ _ key_row_order); [done | apply surjective_pairing].
Defined.

(** ** Submission *)

(** A new submission (no active job reused) always succeeds and registers
    every submitted unit once under the new job: a unit with a successful result
    is done at once, with that result's reference, and keeps its row; any other
    starts over as pending with no attempts spent and no stale result. *)
Theorem submit_spec max_attempts default_lease_s job units id now d :
  (1 ≤ max_attempts)%Z → reachable max_attempts default_lease_s d → jobs d !! id = None →
  ∃ d', submit_job job units false id now d = (d', inr id) ∧
    (∀ spec, spec ∈ unique_by us_work_unit_id [] units → submitted_unit d d' id now spec) ∧
    (∀ uid m, job_unit_memberships d' !! (id, uid) = Some m → ∃ spec, spec ∈ units ∧ us_work_unit_id spec = uid) ∧
    (∀ uid, (∀ spec, spec ∈ units → us_work_unit_id spec ≠ uid) →
       work_units d' !! uid = work_units d !! uid ∧ unit_results d' !! uid = unit_results d !! uid).
Proof.
  intros Hmax Hr Hid. pose proof (Inv_reachable _ _ Hmax _ Hr) as HI.
  set (us := unique_by us_work_unit_id [] units).
  assert (Hnd : NoDup (us_work_unit_id <$> us)) by apply unique_by_NoDup.
  destruct (insert_new_job_eq _ Hmax job us id now d HI Hid Hnd) as [Heq HI'].
  assert (Hframe : ∀ uid, (∀ spec, spec ∈ units → us_work_unit_id spec ≠ uid) →
    let d' := new_job_db job us id now d in
    work_units d' !! uid = work_units d !! uid ∧ unit_results d' !! uid = unit_results d !! uid ∧
    (∀ job', job_unit_memberships d' !! (job', uid) = job_unit_memberships d !! (job', uid))).
  { intros uid Hne. apply (fold_submit_frame id now _ us (on_jobs _ d)).
    intros spec [Hin _]%unique_by_subset. by apply Hne. }
  exists (recomputed id (new_job_db job us id now d)). split_and!; [exact Heq | | |].
  - intros spec Hin. pose proof (new_job_submitted job us id now d spec Hnd Hin) as Hs.
    unfold submitted_unit in *. by destruct (succeeded_ref d _).
  - intros uid m Hm. destruct (decide (uid ∈ us_work_unit_id <$> units)) as [Hin | Hnin].
    { apply list_elem_of_fmap in Hin as (spec & -> & ?). eauto. }
    destruct (Hframe uid) as (_ & _ & Hmm).
    { intros spec Hin <-. apply Hnin. by apply list_elem_of_fmap_2. }
    cbn in Hm. rewrite Hmm in Hm. apply (inv_member _ _ _ HI) in Hm. rewrite Hid in Hm. by destruct Hm.
  - intros uid Hne. destruct (Hframe uid Hne) as (? & ? & _). done.
Qed.

Lemma submit_spec_witness :
  ∃ d', submit_job (demo_submit 0) [demo_spec "u1" 7; demo_spec "u9" 8] false "j9" 80 demo_done_db
        = (d', inr "j9") ∧
    (∀ spec, spec ∈ unique_by us_work_unit_id [] [demo_spec "u1" 7; demo_spec "u9" 8] →
       submitted_unit demo_done_db d' "j9" 80 spec) ∧
    (∀ uid m, job_unit_memberships d' !! ("j9", uid) = Some m →
       ∃ spec, spec ∈ [demo_spec "u1" 7; demo_spec "u9" 8] ∧ us_work_unit_id spec = uid) ∧
    (∀ uid, (∀ spec, spec ∈ [demo_spec "u1" 7; demo_spec "u9" 8] → us_work_unit_id spec ≠ uid) →
       work_units d' !! uid = work_units demo_done_db !! uid ∧
       unit_results d' !! uid = unit_results demo_done_db !! uid).
Proof.
  apply (submit_spec 4 120); [lia | apply demo_done_reachable | vm_compute; reflexivity].
Defined.

(** ** Jobs *)

Lemma calm_rtc max_attempts default_lease_s d :
  (1 ≤ max_attempts)%Z → rtc (calm_step max_attempts default_lease_s) empty_db d →
  Inv max_attempts d ∧ job_ok d ∧ outcomes_terminal d.
Proof.
  intros Hmax. apply (rtc_ind_r (R := calm_step max_attempts default_lease_s)
    (λ d, Inv max_attempts d ∧ job_ok d ∧ outcomes_terminal d) empty_db).
  - split_and!; [apply Inv_empty | split |]; repeat intro; cbn in *;
      match goal with H : ∅ !! _ = Some _ |- _ => by rewrite lookup_empty in H end.
  - intros d1 d2 _ (c & Hcalm & Hs) (HI & Hok & Ht).
    pose proof (qstep_effect _ _ Hmax _ _ _ HI Hs) as He.
    split_and!; [by eapply Inv_step | by eapply effect_job_ok | by eapply effect_outcomes].
Qed.

(** When no submission takes an active unit away from another job (which
    [reuse_active] guarantees), a job's stored state is always the one its
    members' effective states determine, and it is [done] exactly when every one
    of its units has a recorded outcome. *)
Theorem job_state_consistent max_attempts default_lease_s d job j :
  (1 ≤ max_attempts)%Z → rtc (calm_step max_attempts default_lease_s) empty_db d →
  jobs d !! job = Some j →
  j_state j = next_job_state (COUNT_JOB_UNITS d job) ∧
  (j_state j = JOB_DONE ↔
   ∀ uid m, job_unit_memberships d !! (job, uid) = Some m → is_Some (m_terminal_state m)).
Proof.
  intros Hmax Hr Hj. destruct (calm_rtc _ _ _ Hmax Hr) as (HI & Hok & Ht).
  split; [by apply (job_fresh _ Hok) | by eapply job_done_terminal].
Qed.

(** Under the same condition the details of an existing job are always
    available: one entry per member, with its effective state and result. *)
Theorem job_details_available max_attempts default_lease_s d job j :
  (1 ≤ max_attempts)%Z → rtc (calm_step max_attempts default_lease_s) empty_db d →
  jobs d !! job = Some j →
  ∃ det, job_details job d = (d, inr (Some det)) ∧ jd_model_id det = j_model_id j ∧
    jd_params det = j_params j ∧
    (∀ uid m, job_unit_memberships d !! (job, uid) = Some m →
       ∃ o, o ∈ jd_units det ∧ o_work_unit_id o = uid ∧ Some (o_state o) = effective_state d job uid m ∧
            o_result_ref o = m_result_ref m) ∧
    (∀ o, o ∈ jd_units det → is_Some (job_unit_memberships d !! (job, o_work_unit_id o))).
Proof.
  intros Hmax Hr Hj. destruct (calm_rtc _ _ _ Hmax Hr) as (HI & Hok & Ht).
  by eapply job_details_total.
Qed.

Lemma demo_calm : rtc (calm_step 4 120) empty_db demo_db.
Proof.
  assert (Hstep : ∀ c d, fresh_id_ok d c → calm d c →
    calm_step 4 120 d (run_call 4 120 key_row_order c d).1).
  { intros c d Hf Hc. exists c. split; [done |].
    eapply (qstep_intro _ _ _ _ _ key_row_order); [done | apply surjective_pairing]. }
  replace demo_db with (fold_left (λ d c, (run_call 4 120 key_row_order c d).1) demo_calls empty_db)
    by (vm_compute; reflexivity).
  unfold demo_calls. cbn [fold_left].
  repeat (eapply rtc_r; [| apply Hstep; [try done; vm_compute; reflexivity | try done; by left]]).
  apply rtc_refl.
Qed.

Lemma job_state_consistent_witness :
  ∃ j, jobs demo_db !! "j1" = Some j ∧ j_state j = next_job_state (COUNT_JOB_UNITS demo_db "j1") ∧
    (j_state j = JOB_DONE ↔
     ∀ uid m, job_unit_memberships demo_db !! ("j1", uid) = Some m → is_Some (m_terminal_state m)).
Proof.
  eexists. split; [vm_compute; reflexivity |].
  apply (job_state_consistent 4 120); [lia | apply demo_calm | vm_compute; reflexivity].
Defined.

Lemma job_details_available_witness :
  ∃ j det, jobs demo_db !! "j1" = Some j ∧ job_details "j1" demo_db = (demo_db, inr (Some det)) ∧
    jd_model_id det = j_model_id j ∧ jd_params det = j_params j ∧
    (∀ uid m, job_unit_memberships demo_db !! ("j1", uid) = Some m →
       ∃ o, o ∈ jd_units det ∧ o_work_unit_id o = uid ∧
            Some (o_state o) = effective_state demo_db "j1" uid m ∧ o_result_ref o = m_result_ref m) ∧
    (∀ o, o ∈ jd_units det → is_Some (job_unit_memberships demo_db !! ("j1", o_work_unit_id o))).
Proof.
  edestruct (job_details_available 4 120 demo_db "j1") as (det & H);
    [lia | apply demo_calm | vm_compute; reflexivity |].
  eexists _, det. split; [vm_compute; reflexivity | exact H].
Defined.

(** A submission without [reuse_active] that takes an active unit from
    another job leaves that job broken for good: whatever happens afterwards,
    asking for its details raises [ValueError]. *)
Theorem orphan_forever max_attempts default_lease_s d d' job uid :
  (1 ≤ max_attempts)%Z → reachable max_attempts default_lease_s d → orphan d job uid →
  rtc (queue_step max_attempts default_lease_s) d d' →
  job_details job d' = (d', inl ValueError).
Proof.
  intros Hmax Hr Ho Hsteps. apply (orphan_details d' job uid).
  apply (history_ind max_attempts default_lease_s Hmax (λ d, orphan d job uid) d d');
    [by eapply Inv_reachable | done | | done].
  intros c d1 d2 HI Hd1 He. by eapply effect_orphan.
Qed.

(** [u2], still pending for [j1], resubmitted under another priority. *)
Definition stolen_db : Db := default empty_db (replay 4 120
  [SubmitJob (demo_submit 9) [demo_spec "u2" 0] false "j2" 90] demo_done_db).

Lemma stolen_steps : rtc (queue_step 4 120) demo_done_db stolen_db.
Proof.
  apply (replay_steps 4 120 [SubmitJob (demo_submit 9) [demo_spec "u2" 0] false "j2" 90]).
  vm_compute. reflexivity.
Qed.

Lemma orphan_forever_witness :
  orphan stolen_db "j1" "u2" ∧ job_details "j1" stolen_db = (stolen_db, inl ValueError).
Proof.
  assert (Ho : orphan stolen_db "j1" "u2").
  { split_and!.
    - eexists. vm_compute. reflexivity.
    - eexists. split; vm_compute; reflexivity.
    - eexists. split; [vm_compute; reflexivity |]. cbn. discriminate. }
  split; [exact Ho |].
  apply (orphan_forever 4 120 stolen_db stolen_db "j1" "u2"); [lia | | exact Ho | apply rtc_refl].
  unfold reachable. transitivity demo_done_db; [apply demo_done_reachable | apply stolen_steps].
Defined.
