(* ===== verification/Churn.v ===== *)
(** * Idle sessions, survival and reliability

    Models the estimators of the batch scheduler:
    - [iter_churn_sessions] of
      src/packages/fallow-protocol/src/fallow_protocol/churn_events.py,
    - src/packages/fallow-coordinator/src/fallow_coordinator/scheduler/churn_model.py,
    - src/packages/fallow-coordinator/src/fallow_coordinator/scheduler/reliability.py.

    An event mapping is given by what the code extracts from it: the agent and
    kind when they are strings, and the instant when the timestamp parses and
    has a zone. *)

From S2P Require Export Protocol.

(** ** Pairing events into sessions *)

Record ChurnEvent := {
  ce_agent_id : option agent_id; ce_kind : option string; ce_at : option instant
}.

Record ChurnSession := { cs_agent_id : agent_id; cs_start : instant; cs_end : instant }.

(** [(end - start).total_seconds()] *)
Definition length_s (s : ChurnSession) : Q := inject_Z (cs_end s - cs_start s) / 1000000.

Fixpoint sessions_from (open_since : gmap agent_id instant) (events : list ChurnEvent)
    : list ChurnSession :=
  match events with
  | [] => []
  | e :: events =>
      match ce_agent_id e, ce_kind e, ce_at e with
      | Some agent, Some kind, Some at_ =>
          if bool_decide (kind = EventKind_value USER_IDLE) then
            sessions_from (<[agent := at_]> open_since) events
          else if bool_decide (kind = EventKind_value USER_RETURNED) then
            let rest := sessions_from (delete agent open_since) events in
            match open_since !! agent with
            | Some start =>
                if (start <=? at_)%Z
                then {| cs_agent_id := agent; cs_start := start; cs_end := at_ |} :: rest
                else rest
            | None => rest
            end
          else sessions_from open_since events
      | _, _, _ => sessions_from open_since events
      end
  end.

Definition iter_churn_sessions (events : list ChurnEvent) : list ChurnSession :=
  sessions_from ∅ events.

(** ** Survival *)

Definition MIN_BUCKET_SAMPLES : nat := 5.
Definition DEFAULT_OPTIMISTIC_PRIOR : Q := 9 # 10.

(** [bisect.bisect_left] on a list, between [lo] and [hi]. *)
Fixpoint bisect_loop (fuel : nat) (l : list Q) (x : Q) (lo hi : nat) : nat :=
  match fuel with
  | O => lo
  | S fuel =>
      if (lo <? hi)%nat then
        let mid := ((lo + hi) / 2)%nat in
        match l !! mid with
        | Some y => if y <?q x then bisect_loop fuel l x (S mid) hi else bisect_loop fuel l x lo mid
        | None => lo
        end
      else lo
  end.

(** The interval shrinks at every round, so its length is enough fuel. *)
Definition bisect_left (l : list Q) (x : Q) : nat := bisect_loop (length l) l x 0 (length l).

Definition count_ge (sorted_samples : list Q) (threshold : Q) : nat :=
  (length sorted_samples - bisect_left sorted_samples threshold)%nat.

Record ChurnModel := {
  by_bucket : gmap (agent_id * Z) (list Q);
  by_agent : gmap agent_id (list Q);
  optimistic_prior : Q
}.

Definition samples_for (m : ChurnModel) (agent : agent_id) (hour : Z) : list Q :=
  let bucket := default [] (by_bucket m !! (agent, hour)) in
  if (MIN_BUCKET_SAMPLES <=? length bucket)%nat then bucket
  else default [] (by_agent m !! agent).

Definition survival (m : ChurnModel) (agent : agent_id) (hour : Z) (idle_age_s horizon_s : Q) : Q :=
  if horizon_s <=?q 0 then 1
  else
    match samples_for m agent hour with
    | [] => optimistic_prior m
    | samples =>
        let reached_age := count_ge samples idle_age_s in
        if (reached_age =? 0)%nat then optimistic_prior m
        else (inject_Z (Z.of_nat (count_ge samples (idle_age_s + horizon_s)))
              / inject_Z (Z.of_nat reached_age))%Q
    end.

(** [dict.setdefault(k, []).append(x)] *)
Definition push `{Countable K} {A} (k : K) (x : A) (m : gmap K (list A)) : gmap K (list A) :=
  <[k := default [] (m !! k) ++ [x]]> m.

Definition build_churn_model (events : list ChurnEvent) (hour_of : instant → Z) (prior : Q)
    : ChurnModel :=
  let tables := fold_left (λ t s,
      (push (cs_agent_id s, hour_of (cs_start s)) (length_s s) t.1,
       push (cs_agent_id s) (length_s s) t.2))
    (iter_churn_sessions events) (∅, ∅) in
  {| by_bucket := py_sorted id <$> tables.1; by_agent := py_sorted id <$> tables.2;
     optimistic_prior := prior |}.

(** ** Reliability *)

Definition DEFAULT_RELIABILITY_PRIOR : Q := 9 # 10.

(** A parsed line of units.jsonl: the agent and the state when they are strings. *)
Record UnitLine := { ul_agent_id : option agent_id; ul_state : option string }.

Inductive Outcome := Completed | Dropped.

Definition classify (state : option string) : option Outcome :=
  s ← state;
  unit_state ← WorkUnitState_of s;
  match unit_state with
  | DONE => Some Completed
  | PENDING | DEAD => Some Dropped
  | LEASED => None
  end.

Record ReliabilityModel := {
  rm_by_agent : gmap agent_id (nat * nat);
  rm_optimistic_prior : Q
}.

Definition success_rate (m : ReliabilityModel) (agent : agent_id) : Q :=
  let '(completed, dropped) := default (0, 0)%nat (rm_by_agent m !! agent) in
  let total := (completed + dropped)%nat in
  if (total =? 0)%nat then rm_optimistic_prior m
  else (inject_Z (Z.of_nat completed) / inject_Z (Z.of_nat total))%Q.

Definition bump (o : Outcome) (c : nat * nat) : nat * nat :=
  match o with Completed => (S c.1, c.2) | Dropped => (c.1, S c.2) end.

(** One line of the log: lines without an agent or without an outcome count
    for nothing. *)
Definition tally_line (t : gmap agent_id (nat * nat)) (l : UnitLine) : gmap agent_id (nat * nat) :=
  match ul_agent_id l, classify (ul_state l) with
  | Some agent, Some o =>
      if bool_decide (agent = "") then t
      else <[agent := bump o (default (0, 0)%nat (t !! agent))]> t
  | _, _ => t
  end.

Definition build_reliability_model (transitions : list UnitLine) (prior : Q) : ReliabilityModel := {|
  rm_by_agent := fold_left tally_line transitions ∅; rm_optimistic_prior := prior |}.

(** ** Binary search *)

(** Ascending samples. *)
Abbreviation ascending := (StronglySorted (key_rel (@id Q))).

Lemma ascending_lookup l i j x y :
  ascending l → (i < j)%nat → l !! i = Some x → l !! j = Some y → (x <= y)%Q.
Proof.
  intros Hl. revert i j. induction Hl as [| z l Hl IH Hz]; intros i j Hij Hx Hy; [done |].
  destruct j as [| j]; [lia |]. destruct i as [| i]; cbn in *.
  - simplify_eq. rewrite Forall_forall in Hz. apply list_elem_of_lookup_2 in Hy.
    by apply Hz, Qle_bool_true in Hy.
  - eapply (IH i j); [lia | done | done].
Qed.

(** Everything before [k] is below [x], everything from [k] on is not. *)
Definition splits_at (l : list Q) (x : Q) (k : nat) : Prop :=
  ∀ i y, l !! i = Some y → if (i <? k)%nat then (y < x)%Q else (x <= y)%Q.

Lemma bisect_loop_spec fuel l x lo hi :
  ascending l → (hi - lo ≤ fuel)%nat → (lo ≤ hi ≤ length l)%nat →
  (∀ i y, l !! i = Some y → (i < lo)%nat → (y < x)%Q) →
  (∀ i y, l !! i = Some y → (hi ≤ i)%nat → (x <= y)%Q) →
  splits_at l x (bisect_loop fuel l x lo hi) ∧ (lo ≤ bisect_loop fuel l x lo hi ≤ hi)%nat.
Proof.
  intros Hl. revert lo hi; induction fuel as [| fuel IH]; intros lo hi Hf Hb Hlo Hhi; cbn [bisect_loop].
  - split; [| lia]. intros i y Hy. destruct (Nat.ltb_spec i lo); [eauto | eapply Hhi; eauto; lia].
  - destruct (Nat.ltb_spec lo hi) as [Hlt |].
    2: { split; [| lia]. intros i y Hy. destruct (Nat.ltb_spec i lo); [eauto | eapply Hhi; eauto; lia]. }
    assert (Hmid : (lo ≤ (lo + hi) / 2 < hi)%nat).
    { split; [apply Nat.div_le_lower_bound; lia | apply Nat.div_lt_upper_bound; lia]. }
    set (mid := ((lo + hi) / 2)%nat) in *. clearbody mid.
    destruct (lookup_lt_is_Some_2 l mid) as [z Hz]; [lia |]. rewrite Hz.
    destruct (z <?q x) eqn:Hzx; reflect_bools.
    + destruct (IH (S mid) hi) as [? ?]; [lia | lia | | done | split; [done | lia]].
      intros i y Hy Hi. destruct (decide (i = mid)) as [-> |]; [congruence |].
      assert (y <= z)%Q by (eapply (ascending_lookup l i mid); eauto; lia). lra.
    + destruct (IH lo mid) as [? ?]; [lia | lia | done | | split; [done | lia]].
      intros i y Hy Hi. destruct (decide (i = mid)) as [-> |]; [congruence |].
      assert (z <= y)%Q by (eapply (ascending_lookup l mid i); eauto; lia). lra.
Qed.

Lemma bisect_left_spec l x :
  ascending l → splits_at l x (bisect_left l x) ∧ (bisect_left l x ≤ length l)%nat.
Proof.
  intros Hl. destruct (bisect_loop_spec (length l) l x 0 (length l)) as [? ?]; try done; try lia.
  - intros i y Hy ?. apply lookup_lt_Some in Hy. lia.
  - split; [done | unfold bisect_left; lia].
Qed.

(** The reference count. *)
Definition reaching (l : list Q) (x : Q) : nat := length (filter (λ y, (x <=?q y) = true) l).

Lemma count_ge_reaching l x : ascending l → count_ge l x = reaching l x.
Proof.
  intros Hl. destruct (bisect_left_spec l x Hl) as [Hs Hk]. unfold count_ge, reaching.
  set (k := bisect_left l x) in *. clearbody k. rewrite <- (take_drop k l) at 2.
  rewrite filter_app, length_app.
  assert (filter (λ y, (x <=?q y) = true) (take k l) = []) as ->.
  { apply filter_none. intros y (i & Hy & Hi)%elem_of_take.
    specialize (Hs i y Hy). destruct (Nat.ltb_spec i k); [| lia]. rewrite Qle_bool_true. lra. }
  assert (filter (λ y, (x <=?q y) = true) (drop k l) = drop k l) as ->.
  { apply filter_all. intros y [i Hy]%list_elem_of_lookup. rewrite lookup_drop in Hy.
    specialize (Hs _ y Hy). destruct (Nat.ltb_spec (k + i) k); [lia |]. by rewrite Qle_bool_true. }
  rewrite length_drop. cbn. lia.
Qed.

(** ** What a session is *)

Definition idle_at (a : agent_id) (t : instant) (e : ChurnEvent) : Prop :=
  ce_agent_id e = Some a ∧ ce_kind e = Some (EventKind_value USER_IDLE) ∧ ce_at e = Some t.

Definition returned_at (a : agent_id) (t : instant) (e : ChurnEvent) : Prop :=
  ce_agent_id e = Some a ∧ ce_kind e = Some (EventKind_value USER_RETURNED) ∧ ce_at e = Some t.

(** The event moves the agent's session state. *)
Definition touches (a : agent_id) (e : ChurnEvent) : Prop :=
  ∃ t, idle_at a t e ∨ returned_at a t e.

(** The session [s], already open, ends in [events]. *)
Definition closes (s : ChurnSession) (events : list ChurnEvent) : Prop :=
  ∃ l e l', events = l ++ e :: l' ∧ (∀ x, x ∈ l → ~ touches (cs_agent_id s) x) ∧
    returned_at (cs_agent_id s) (cs_end s) e ∧ (cs_start s ≤ cs_end s)%Z.

(** The session [s] starts and ends in [events]. *)
Definition occurs (s : ChurnSession) (events : list ChurnEvent) : Prop :=
  ∃ l e l', events = l ++ e :: l' ∧ idle_at (cs_agent_id s) (cs_start s) e ∧ closes s l'.

Lemma closes_cons s e events :
  closes s (e :: events) ↔
  (returned_at (cs_agent_id s) (cs_end s) e ∧ (cs_start s ≤ cs_end s)%Z) ∨
  (~ touches (cs_agent_id s) e ∧ closes s events).
Proof.
  split.
  - intros ([| x l] & y & l' & Heq & Hl & Hr & Hle); cbn in Heq; simplify_eq; [by left |].
    right. split; [apply Hl; set_solver |]. exists l, y, l'. split_and!; try done. set_solver.
  - intros [[Hr Hle] | [Ht (l & y & l' & -> & Hl & Hr & Hle)]].
    + exists [], e, events. split_and!; try done. set_solver.
    + exists (e :: l), y, l'. split_and!; try done. intros x [-> | ?]%elem_of_cons; auto.
Qed.

Lemma closes_nil s : ~ closes s [].
Proof. intros (l & e & l' & Heq & _). by destruct l. Qed.

Lemma occurs_cons s e events :
  occurs s (e :: events) ↔ (idle_at (cs_agent_id s) (cs_start s) e ∧ closes s events) ∨ occurs s events.
Proof.
  split.
  - intros ([| x l] & y & l' & Heq & Hi & Hc); cbn in Heq; simplify_eq; [by left |].
    right. exists l, y, l'. done.
  - intros [[Hi Hc] | (l & y & l' & -> & Hi & Hc)]; [by exists [], e, events | by exists (e :: l), y, l'].
Qed.

Lemma occurs_nil s : ~ occurs s [].
Proof. intros (l & e & l' & Heq & _). by destruct l. Qed.

(** An event that touches nobody. *)
Lemma occurs_skip s e events :
  (∀ a, ~ touches a e) → occurs s (e :: events) ↔ occurs s events.
Proof.
  intros Ht. rewrite occurs_cons. split; [intros [[Hi _] |] | by right]; [| done].
  exfalso. eapply Ht. eexists. by left.
Qed.

Lemma closes_skip s e events :
  ~ touches (cs_agent_id s) e → closes s (e :: events) ↔ closes s events.
Proof.
  intros Ht. rewrite closes_cons. split; [intros [[Hr _] | [_ ?]] | by right]; [| done].
  exfalso. apply Ht. eexists. by right.
Qed.

Lemma idle_touches_not_returned a b t t' e : idle_at a t e → ~ returned_at b t' e.
Proof. intros (_ & Hk & _) (_ & Hk' & _). rewrite Hk in Hk'. discriminate. Qed.

Lemma touches_only a b e : touches a e → touches b e → a = b.
Proof. intros (? & [(? & _) | (? & _)]) (? & [(? & _) | (? & _)]); congruence. Qed.

Lemma closes_after_idle s e t events :
  idle_at (cs_agent_id s) t e → ~ closes s (e :: events).
Proof.
  intros Hi. rewrite closes_cons. intros [[Hr _] | [Hn _]].
  - by eapply idle_touches_not_returned.
  - apply Hn. exists t. by left.
Qed.

Definition open_or_occurs (open_since : gmap agent_id instant) (events : list ChurnEvent)
    (s : ChurnSession) : Prop :=
  (open_since !! cs_agent_id s = Some (cs_start s) ∧ closes s events) ∨ occurs s events.

Lemma open_or_occurs_skip open_since e events s :
  (∀ a, ~ touches a e) →
  open_or_occurs open_since (e :: events) s ↔ open_or_occurs open_since events s.
Proof. intros Ht. unfold open_or_occurs. rewrite closes_skip, occurs_skip by auto. done. Qed.

Lemma open_or_occurs_idle open_since e a t events s :
  idle_at a t e →
  open_or_occurs open_since (e :: events) s ↔ open_or_occurs (<[a := t]> open_since) events s.
Proof.
  intros Hi. unfold open_or_occurs. rewrite occurs_cons. destruct (decide (cs_agent_id s = a)) as [<- | Hne].
  - rewrite lookup_insert_eq. pose proof (closes_after_idle s e t events Hi) as Hn. split.
    + intros [[_ ?] | [[Hi' ?] | ?]]; [done | | by right].
      left. split; [| done]. destruct Hi as (_ & _ & Ht), Hi' as (_ & _ & Ht'). congruence.
    + intros [[[= ->] ?] | ?]; auto.
  - rewrite lookup_insert_ne by done. rewrite closes_skip.
    + split; [intros [? | [[Hi' _] | ?]] | intros [? | ?]]; auto.
      exfalso. apply Hne. eapply touches_only; [by eexists; left | by eexists; left].
    + intros Ht. apply Hne. eapply touches_only; [done | by eexists; left].
Qed.

Lemma open_or_occurs_returned open_since e a t events s :
  returned_at a t e →
  open_or_occurs open_since (e :: events) s ↔
  (cs_agent_id s = a ∧ open_since !! a = Some (cs_start s) ∧ cs_end s = t ∧ (cs_start s ≤ t)%Z) ∨
  open_or_occurs (delete a open_since) events s.
Proof.
  intros Hr. unfold open_or_occurs. rewrite occurs_cons.
  assert (~ idle_at (cs_agent_id s) (cs_start s) e) as Hni by (intros Hi; by eapply idle_touches_not_returned).
  destruct (decide (cs_agent_id s = a)) as [<- | Hne].
  - rewrite lookup_delete_eq, closes_cons. split.
    + intros [[Ho [[Hr' Hle] | [Hn _]]] | [[? _] | ?]]; auto.
      * left. destruct Hr as (_ & _ & Ht), Hr' as (_ & _ & Ht'). rewrite Ht in Ht'. simplify_eq. auto.
      * exfalso. apply Hn. eexists. by right.
      * done.
    + intros [(_ & Ho & <- & Hle) | [[? _] | ?]]; [| done | auto]. left. split; [done |]. by left.
  - rewrite lookup_delete_ne by congruence.
    rewrite closes_skip by (intros Ht; apply Hne; eapply touches_only; [done | by eexists; right]).
    split; [intros [? | [[? _] | ?]] | intros [[? _] | [? | ?]]]; auto; done.
Qed.

(** The event loop yields exactly the sessions that occur. *)
Lemma sessions_from_spec open_since events s :
  s ∈ sessions_from open_since events ↔ open_or_occurs open_since events s.
Proof.
  revert open_since; induction events as [| e events IH]; intros open_since.
  { cbn. split; [set_solver |]. intros [[_ ?%closes_nil] | ?%occurs_nil]; done. }
  cbn [sessions_from].
  assert (Hskip : (∀ a, ~ touches a e) →
    s ∈ sessions_from open_since events ↔ open_or_occurs open_since (e :: events) s).
  { intros Ht. rewrite IH, open_or_occurs_skip by done. done. }
  destruct (ce_agent_id e) as [a |] eqn:Ha; [| apply Hskip; intros b (t & [(? & _) | (? & _)]); congruence].
  destruct (ce_kind e) as [k |] eqn:Hk; [| apply Hskip; intros b (t & [(_ & ? & _) | (_ & ? & _)]); congruence].
  destruct (ce_at e) as [t |] eqn:Ht; [| apply Hskip; intros b (t & [(_ & _ & ?) | (_ & _ & ?)]); congruence].
  case_bool_decide as Hki; [| case_bool_decide as Hkr].
  - rewrite IH. symmetry. apply open_or_occurs_idle. repeat split; congruence.
  - rewrite (open_or_occurs_returned _ _ a t) by (repeat split; congruence). rewrite <- IH.
    destruct (open_since !! a) as [start |]; [destruct (Z.leb_spec start t) |].
    + rewrite elem_of_cons. split; (intros [H1 | ?]; [left | by right]).
      * subst s. done.
      * destruct s; cbn in *. naive_solver.
    + split; [by right |]. intros [(_ & [= ->] & _ & ?) | ?]; [lia | done].
    + split; [by right |]. intros [(_ & ? & _) | ?]; done.
  - apply Hskip. intros b (t' & [(_ & Hk' & _) | (_ & Hk' & _)]); congruence.
Qed.

(** ** The model built from a history *)

Lemma fold_push `{Countable K} {A B} (key : B → K) (val : B → A) l (m : gmap K (list A)) k :
  default [] (fold_left (λ m b, push (key b) (val b) m) l m !! k) =
  default [] (m !! k) ++ (val <$> filter (λ b, key b = k) l).
Proof.
  revert m; induction l as [| b l IH]; intros m; cbn [fold_left]; [by rewrite app_nil_r |].
  rewrite IH. unfold push. rewrite filter_cons. destruct (decide (key b = k)) as [<- |].
  - rewrite lookup_insert_eq. cbn. by rewrite <- app_assoc.
  - by rewrite lookup_insert_ne.
Qed.

Lemma fold_pair {A B C} (f : A → C → A) (g : B → C → B) l a b :
  fold_left (λ t c, (f t.1 c, g t.2 c)) l (a, b) = (fold_left f l a, fold_left g l b).
Proof. revert a b; induction l as [| c l IH]; intros a b; [done |]. apply IH. Qed.

Section Built.
  Context (events : list ChurnEvent) (hour_of : instant → Z) (prior : Q).
Let m := build_churn_model events hour_of prior.

Lemma built_tables :
  fold_left (λ t s,
      (push (cs_agent_id s, hour_of (cs_start s)) (length_s s) t.1,
       push (cs_agent_id s) (length_s s) t.2)) (iter_churn_sessions events) (∅, ∅) =
  (fold_left (λ t s, push (cs_agent_id s, hour_of (cs_start s)) (length_s s) t)
     (iter_churn_sessions events) ∅,
   fold_left (λ t s, push (cs_agent_id s) (length_s s) t) (iter_churn_sessions events) ∅).
Proof.
  apply (fold_pair (λ t s, push (cs_agent_id s, hour_of (cs_start s)) (length_s s) t)
    (λ t s, push (cs_agent_id s) (length_s s) t)).
Qed.

Lemma built_by_agent a :
  default [] (by_agent m !! a) =
  py_sorted id (length_s <$> filter (λ s, cs_agent_id s = a) (iter_churn_sessions events)).
Proof.
  unfold m, build_churn_model. rewrite built_tables. cbn [by_agent by_bucket snd fst].
  rewrite lookup_fmap.
  pose proof (fold_push cs_agent_id length_s (iter_churn_sessions events) ∅ a) as H.
  rewrite lookup_empty in H. cbn in H. rewrite <- H.
  by destruct (fold_left _ _ ∅ !! a).
Qed.

Lemma built_by_bucket a h :
  default [] (by_bucket m !! (a, h)) =
  py_sorted id (length_s <$> filter (λ s, (cs_agent_id s, hour_of (cs_start s)) = (a, h))
                  (iter_churn_sessions events)).
Proof.
  unfold m, build_churn_model. rewrite built_tables. cbn [by_agent by_bucket snd fst].
  rewrite lookup_fmap.
  pose proof (fold_push (λ s, (cs_agent_id s, hour_of (cs_start s))) length_s
    (iter_churn_sessions events) ∅ (a, h)) as H.
  rewrite lookup_empty in H. cbn in H. rewrite <- H.
  by destruct (fold_left _ _ ∅ !! (a, h)).
Qed.

Lemma built_samples_ascending a h : ascending (samples_for m a h).
Proof.
  unfold samples_for. rewrite built_by_bucket, built_by_agent.
  destruct (_ <=? _)%nat; apply py_sorted_sorted.
Qed.
End Built.

Lemma reaching_antitone l x y : (x <= y)%Q → (reaching l y ≤ reaching l x)%nat.
Proof.
  intros Hxy. unfold reaching. induction l as [| z l IH]; [done |]. rewrite !filter_cons.
  destruct (decide ((y <=?q z) = true)), (decide ((x <=?q z) = true)) as [| Hn]; cbn; try lia.
  exfalso. apply Hn. rewrite Qle_bool_true in *. lra.
Qed.

Lemma ratio_bounds (a b : nat) :
  (a ≤ b)%nat → b ≠ 0%nat →
  (0 <= inject_Z (Z.of_nat a) / inject_Z (Z.of_nat b) <= 1)%Q.
Proof.
  intros Hab Hb. assert (0 < inject_Z (Z.of_nat b))%Q by (rewrite <- (Zlt_Qlt 0); lia). split.
  - apply Qle_shift_div_l; [done |]. rewrite Qmult_0_l, <- (Zle_Qle 0). lia.
  - apply Qle_shift_div_r; [done |]. rewrite Qmult_1_l, <- Zle_Qle. lia.
Qed.

Lemma ratio_mono (a b c : nat) :
  (a ≤ b)%nat → c ≠ 0%nat →
  (inject_Z (Z.of_nat a) / inject_Z (Z.of_nat c) <= inject_Z (Z.of_nat b) / inject_Z (Z.of_nat c))%Q.
Proof.
  intros Hab Hc. unfold Qdiv. apply Qmult_le_compat_r; [rewrite <- Zle_Qle; lia |].
  apply Qinv_le_0_compat. rewrite <- (Zle_Qle 0). lia.
Qed.

(** ** Theorems *)

(** Pairing idle and returned events yields exactly the completed idle
    sessions of the log: an idle event of the agent, later its first following
    idle-or-returned event, which is a return, not before the start.  Re-opened
    sessions, unpaired returns, negative pairs and malformed lines yield
    nothing. *)
Theorem churn_sessions_spec events s : s ∈ iter_churn_sessions events ↔ occurs s events.
Proof.
  unfold iter_churn_sessions. rewrite sessions_from_spec. unfold open_or_occurs.
  rewrite lookup_empty. split; [by intros [[? _] | ?] | by right].
Qed.

(** The fraction of the recorded sessions reaching age [u] that reached [u + t]. *)
Definition empirical_survival (lengths : list Q) (prior u t : Q) : Q :=
  if (reaching lengths u =? 0)%nat then prior
  else inject_Z (Z.of_nat (reaching lengths (u + t))) / inject_Z (Z.of_nat (reaching lengths u)).

(** C37: for a model built from a history, the survival estimate (binary searches
    over sorted samples) equals the empirical fraction over the sessions of the
    agent's hour bucket, or of all its hours when the bucket has fewer than five
    sessions, and the prior without evidence. *)
Theorem survival_is_empirical events hour_of prior a h u t :
  (0 < t)%Q →
  let sessions := iter_churn_sessions events in
  let all := length_s <$> filter (λ s, cs_agent_id s = a) sessions in
  let bucket := length_s <$> filter (λ s, (cs_agent_id s, hour_of (cs_start s)) = (a, h)) sessions in
  survival (build_churn_model events hour_of prior) a h u t =
  empirical_survival (if (5 <=? length bucket)%nat then bucket else all) prior u t.
Proof.
  intros Ht sessions all bucket. unfold survival.
  destruct (t <=?q 0) eqn:Ht0; [reflect_bools; exfalso; lra |].
  set (m := build_churn_model events hour_of prior).
  pose proof (built_samples_ascending events hour_of prior a h) as Hasc. fold m in Hasc.
  set (chosen := if (5 <=? length bucket)%nat then bucket else all).
  assert (Hs : samples_for m a h ≡ₚ chosen).
  { unfold samples_for, m, chosen. rewrite built_by_bucket, built_by_agent.
    fold sessions. fold bucket. fold all. unfold MIN_BUCKET_SAMPLES.
    rewrite (Permutation_length (py_sorted_perm id bucket)).
    destruct (5 <=? length bucket)%nat; apply py_sorted_perm. }
  assert (Hr : ∀ x, reaching (samples_for m a h) x = reaching chosen x).
  { intros x. unfold reaching. by rewrite Hs. }
  unfold empirical_survival. rewrite <- !Hr, <- !count_ge_reaching by done.
  by destruct (samples_for m a h).
Qed.

Lemma survival_is_empirical_witness :
  let ev a k t := {| ce_agent_id := Some a; ce_kind := Some (EventKind_value k); ce_at := Some t |} in
  let log := [ev "a" USER_IDLE 0%Z; ev "a" USER_RETURNED 90000000%Z;
              ev "a" USER_IDLE 100000000%Z; ev "a" USER_RETURNED 130000000%Z] in
  survival (build_churn_model log (λ _, 0%Z) (9#10)) "a" 0 10 60 = (1#2)%Q.
Proof.
  intros ev log. rewrite (survival_is_empirical log (λ _, 0%Z) (9#10) "a" 0 10 60);
    [vm_compute; reflexivity | vm_compute; reflexivity].
Defined.

(** Survival is a probability, and it does not grow with the horizon: asking
    a machine to stay idle longer never looks safer. *)
Theorem survival_bounds events hour_of prior a h u t1 t2 :
  (0 <= prior <= 1)%Q → (t1 <= t2)%Q →
  let m := build_churn_model events hour_of prior in
  (0 <= survival m a h u t1 <= 1)%Q ∧
  ((0 < t1)%Q → survival m a h u t2 <= survival m a h u t1)%Q.
Proof.
  intros Hp Ht m. pose proof (built_samples_ascending events hour_of prior a h) as Hasc. fold m in Hasc.
  assert (Hge : ∀ x y, (x <= y)%Q → (count_ge (samples_for m a h) y ≤ count_ge (samples_for m a h) x)%nat).
  { intros x y Hxy. rewrite !count_ge_reaching by done. by apply reaching_antitone. }
  assert (Hprior : optimistic_prior m = prior) by done.
  unfold survival. split.
  - destruct (t1 <=?q 0) eqn:H1; [lra |]. reflect_bools.
    destruct (samples_for m a h) as [| x l]; [by rewrite Hprior |].
    destruct (Nat.eqb_spec (count_ge (x :: l) u) 0); [by rewrite Hprior |].
    apply ratio_bounds; [| done]. apply Hge. lra.
  - intros H0. destruct (t1 <=?q 0) eqn:H1, (t2 <=?q 0) eqn:H2; reflect_bools; try (exfalso; lra).
    destruct (samples_for m a h) as [| x l]; [apply Qle_refl |].
    destruct (Nat.eqb_spec (count_ge (x :: l) u) 0); [apply Qle_refl |].
    apply ratio_mono; [| done]. apply Hge. lra.
Qed.

Lemma survival_bounds_witness :
  let m := build_churn_model [] (λ _, 0%Z) (9#10) in
  (0 <= survival m "a" 0 0 1 <= 1)%Q ∧ ((0 < 1)%Q → survival m "a" 0 0 2 <= survival m "a" 0 0 1)%Q.
Proof. apply (survival_bounds [] (λ _, 0%Z) (9#10) "a" 0 0 1 2); [split |]; vm_compute; discriminate. Defined.

#[export] Instance Outcome_eq_dec : EqDecision Outcome.
Proof. solve_decision. Defined.

(** The terminal outcomes the log charges to an agent. *)
Definition outcomes_of (a : agent_id) (lines : list UnitLine) : list Outcome :=
  omap (λ l, if bool_decide (ul_agent_id l = Some a) then classify (ul_state l) else None) lines.

Definition count_outcome (o : Outcome) (l : list Outcome) : nat := length (filter (λ x, x = o) l).

Lemma count_outcome_cons o x l :
  count_outcome o (x :: l) = ((if bool_decide (x = o) then 1 else 0) + count_outcome o l)%nat.
Proof.
  unfold count_outcome. rewrite filter_cons. case_bool_decide; [by rewrite decide_True | by rewrite decide_False].
Qed.

Lemma tally_counts a lines t :
  a ≠ "" →
  default (0, 0)%nat (fold_left tally_line lines t !! a) =
  ((default (0, 0)%nat (t !! a)).1 + count_outcome Completed (outcomes_of a lines),
   (default (0, 0)%nat (t !! a)).2 + count_outcome Dropped (outcomes_of a lines))%nat.
Proof.
  intros Ha. revert t; induction lines as [| l lines IH]; intros t.
  { cbn. rewrite !Nat.add_0_r. by destruct (default _ _). }
  cbn [fold_left]. rewrite IH. unfold outcomes_of. cbn [omap list_omap]. unfold tally_line.
  destruct (ul_agent_id l) as [b |]; [| done].
  destruct (classify (ul_state l)) as [o |] eqn:Hc.
  - destruct (decide (b = a)) as [-> | Hne].
    + rewrite bool_decide_eq_false_2 by done. rewrite bool_decide_eq_true_2 by done.
      rewrite lookup_insert_eq, !count_outcome_cons.
      destruct o; repeat case_bool_decide; try congruence; cbn; f_equal; unfold outcomes_of; lia.
    + rewrite (bool_decide_eq_false_2 (Some b = Some a)) by congruence.
      case_bool_decide; [done |]. by rewrite lookup_insert_ne.
  - by destruct (bool_decide _).
Qed.

(** An agent's success rate is the fraction of its logged terminal outcomes
    that were completions, a value in [0, 1], and the prior without any; lines
    about other agents, handouts and malformed lines do not count. *)
Theorem success_rate_spec lines prior a :
  (0 <= prior <= 1)%Q → a ≠ "" →
  let rate := success_rate (build_reliability_model lines prior) a in
  let os := outcomes_of a lines in
  (0 <= rate <= 1)%Q ∧
  rate = match os with
         | [] => prior
         | _ => (inject_Z (Z.of_nat (count_outcome Completed os)) / inject_Z (Z.of_nat (length os)))%Q
         end.
Proof.
  intros Hp Ha rate os.
  assert (Hlen : (count_outcome Completed os + count_outcome Dropped os)%nat = length os).
  { clear. induction os as [| o os IH]; [done |]. rewrite !count_outcome_cons. cbn [length].
    destruct o; repeat case_bool_decide; try congruence; lia. }
  assert (Hr : rate = if (length os =? 0)%nat then prior
                      else (inject_Z (Z.of_nat (count_outcome Completed os)) / inject_Z (Z.of_nat (length os)))%Q).
  { unfold rate, success_rate, build_reliability_model. cbn. rewrite tally_counts by done.
    rewrite lookup_empty. cbn [default fst snd Nat.add]. fold os. by rewrite Hlen. }
  rewrite Hr. split.
  - destruct (Nat.eqb_spec (length os) 0); [done |]. apply ratio_bounds; [lia | done].
  - by destruct os.
Qed.

Lemma success_rate_spec_witness :
  let line a s := {| ul_agent_id := Some a; ul_state := Some s |} in
  let log := [line "a" "leased"; line "a" "done"; line "a" "pending"; line "b" "dead"] in
  (0 <= success_rate (build_reliability_model log (9#10)) "a" <= 1)%Q ∧
  success_rate (build_reliability_model log (9#10)) "a" = (inject_Z 1 / inject_Z 2)%Q.
Proof.
  apply (success_rate_spec
    [{| ul_agent_id := Some "a"; ul_state := Some "leased" |}; {| ul_agent_id := Some "a"; ul_state := Some "done" |};
     {| ul_agent_id := Some "a"; ul_state := Some "pending" |}; {| ul_agent_id := Some "b"; ul_state := Some "dead" |}]
    (9#10) "a"); [split; vm_compute; discriminate | discriminate].
Defined.
