(* ===== verification/Scheduler.v ===== *)
(** * Placement policies

    Models src/packages/fallow-coordinator/src/fallow_coordinator/scheduler/:
    _eligibility.py, policies.py, v2.py, speculative.py, selection.py and
    poll.py.  The three experiment arms are instances of one interface,
    [SchedulerPolicy]; what the app relies on (only fit agents get work, work is
    placed whenever somebody can take it) is [SchedulerPolicyLaws]. *)

From stdpp Require Import pretty.
From S2P Require Export Churn.

(** ** Eligibility *)

Definition agent_has_gpu (a : AgentSnapshot) : bool := (0 <? length (dc_gpus (as_caps a)))%nat.

Definition agent_is_fit (a : AgentSnapshot) : bool :=
  bool_decide (as_state a = IDLE) && negb (as_suspect a) && negb (as_serving_paused a).

Definition is_eligible (a : AgentSnapshot) (needs_gpu : bool) : bool :=
  agent_is_fit a && (negb needs_gpu || agent_has_gpu a).

Definition is_warm (s : ReplicaState) : bool :=
  match s with READY | SUSPENDED => true | LOADING | STOPPED => false end.

Definition has_warm_replica (a : AgentSnapshot) (model : model_id) : bool :=
  existsb (λ r, bool_decide (rs_model_id r = model) && is_warm (rs_state r)) (as_replicas a).

Record FitReport := {
  fr_fits : bool; fr_required_vram_mb : Z; fr_required_ram_mb : Z;
  fr_available_vram_mb : Z; fr_available_ram_mb : Z
}.

(** [max(..., default=0)]: the roomiest GPU, 0 without one. *)
Definition agent_available_vram_mb (a : AgentSnapshot) : Z :=
  match gs_vram_free_mb <$> as_gpus a with
  | [] => 0
  | v :: vs => fold_left Z.max vs v
  end.

Definition model_fit (m : ModelManifest) (a : AgentSnapshot) : FitReport :=
  let available_vram_mb := agent_available_vram_mb a in
  let available_ram_mb := as_mem_available_mb a in
  {| fr_fits := (mm_min_ram_mb m <=? available_ram_mb)%Z && (mm_min_vram_mb m <=? available_vram_mb)%Z;
     fr_required_vram_mb := mm_min_vram_mb m; fr_required_ram_mb := mm_min_ram_mb m;
     fr_available_vram_mb := available_vram_mb; fr_available_ram_mb := available_ram_mb |}.

(** ** The policy interface *)

(** A policy may carry state (the round-robin cursor); a decision returns the
    state after it. *)
Class SchedulerPolicy (P : Type) := {
  select_agent : P → model_id → bool → list AgentSnapshot → P * option agent_id;
  pick_replica : P → model_id → list ReplicaEndpoint → P * option ReplicaEndpoint
}.

(** What the callers rely on. *)
Class SchedulerPolicyLaws (P : Type) `{SchedulerPolicy P} := {
  select_eligible p model gpu agents id :
    (select_agent p model gpu agents).2 = Some id →
    ∃ a, a ∈ agents ∧ as_agent_id a = id ∧ is_eligible a gpu = true;
  select_total p model gpu agents :
    (select_agent p model gpu agents).2 = None ↔ ∀ a, a ∈ agents → is_eligible a gpu = false;
  pick_serves p model replicas r :
    (pick_replica p model replicas).2 = Some r → r ∈ replicas ∧ re_model_id r = model;
  pick_total p model replicas :
    (pick_replica p model replicas).2 = None ↔ ∀ r, r ∈ replicas → re_model_id r ≠ model
}.

(** ** Shared helpers of the arms *)

(** f"{host}:{port}" *)
Definition endpoint_name (r : ReplicaEndpoint) : string := re_host r +:+ ":" +:+ pretty (re_port r).

Definition endpoint_sort_key (r : ReplicaEndpoint) : Z * string := (re_inflight r, endpoint_name r).

Definition replicas_for (model : model_id) (replicas : list ReplicaEndpoint) : list ReplicaEndpoint :=
  filter (λ r, re_model_id r = model) replicas.

Definition eligible (gpu : bool) (agents : list AgentSnapshot) : list AgentSnapshot :=
  filter (λ a, is_eligible a gpu = true) agents.

Definition least_inflight (model : model_id) (replicas : list ReplicaEndpoint)
    : option ReplicaEndpoint :=
  py_min endpoint_sort_key (replicas_for model replicas).

(** ** CapabilityScheduler: the v1 default *)

Inductive CapabilityScheduler : Set := capability_scheduler.

Definition capability_rank (model : model_id) (a : AgentSnapshot) : (bool * (bool * (Z * string))) :=
  (negb (has_warm_replica a model), (negb (agent_has_gpu a), ((- as_mem_available_mb a)%Z, as_agent_id a))).

#[export] Instance CapabilityScheduler_policy : SchedulerPolicy CapabilityScheduler := {|
  select_agent := λ p model gpu agents,
    (p, as_agent_id <$> py_min (capability_rank model) (eligible gpu agents));
  pick_replica := λ p model replicas, (p, least_inflight model replicas) |}.

(** ** RoundRobinScheduler *)

Record RoundRobinScheduler := { cursor : nat }.

Definition round_robin_start : RoundRobinScheduler := {| cursor := 0 |}.

(** [_next_index]: the slot now, the cursor advanced by one. *)
Definition next_index (p : RoundRobinScheduler) (length : nat) : RoundRobinScheduler * nat :=
  ({| cursor := S (cursor p) |}, (cursor p mod length)%nat).

Definition rotate {A} (p : RoundRobinScheduler) (l : list A) : RoundRobinScheduler * option A :=
  match l with
  | [] => (p, None)
  | _ => let '(p', i) := next_index p (length l) in (p', l !! i)
  end.

#[export] Instance RoundRobinScheduler_policy : SchedulerPolicy RoundRobinScheduler := {|
  select_agent := λ p model gpu agents,
    let '(p', a) := rotate p (py_sorted as_agent_id (eligible gpu agents)) in (p', as_agent_id <$> a);
  pick_replica := λ p model replicas,
    rotate p (py_sorted endpoint_sort_key (replicas_for model replicas)) |}.

(** ** ChurnAwareScheduler *)

Definition DEFAULT_EST_UNIT_DURATION_S : Q := 60.
Definition DEFAULT_RELIABILITY_WEIGHT : Q := 1 # 10.

Record ChurnAwareScheduler := {
  ca_model : ChurnModel; ca_est_unit_duration_s : Q; ca_hour : Z;
  ca_reliability : option ReliabilityModel; ca_reliability_weight : Q
}.

Definition reliability_of (p : ChurnAwareScheduler) (agent : agent_id) : Q :=
  match ca_reliability p with None => 0 | Some m => success_rate m agent end.

Definition stays_idle (p : ChurnAwareScheduler) (a : AgentSnapshot) : Q :=
  survival (ca_model p) (as_agent_id a) (ca_hour p) (as_user_idle_s a) (ca_est_unit_duration_s p).

Definition placement_score (p : ChurnAwareScheduler) (a : AgentSnapshot) : Q :=
  (stays_idle p a + ca_reliability_weight p * reliability_of p (as_agent_id a))%Q.

Definition churn_rank (p : ChurnAwareScheduler) (model : model_id) (a : AgentSnapshot)
    : Q * (bool * (bool * (Z * string))) :=
  ((- placement_score p a)%Q, capability_rank model a).

#[export] Instance ChurnAwareScheduler_policy : SchedulerPolicy ChurnAwareScheduler := {|
  select_agent := λ p model gpu agents,
    (p, as_agent_id <$> py_min (churn_rank p model) (eligible gpu agents));
  pick_replica := λ p model replicas, (p, least_inflight model replicas) |}.

(** ** Long-poll filter, backups and auto-assignment *)

Definition select_for_poll (a : AgentSnapshot) (model_ids : list model_id) : list model_id :=
  if agent_is_fit a then model_ids else [].

Record TailUnit := {
  tu_work_unit_id : unit_id; tu_holder_agent_id : agent_id; tu_est_duration_s : option Q
}.

Section Speculative.
  Context (holders : gmap agent_id AgentSnapshot) (churn : ChurnModel) (hour : Z)
          (survival_threshold est_unit_duration_s : Q).

(** The survival and id of a unit worth backing up. *)
Definition backup_key (unit : TailUnit) : option (Q * string) :=
  holder ← holders !! tu_holder_agent_id unit;
  let horizon := default est_unit_duration_s (tu_est_duration_s unit) in
  let s := survival churn (as_agent_id holder) hour (as_user_idle_s holder) horizon in
  if survival_threshold <=?q s then None else Some (s, tu_work_unit_id unit).

Definition better_backup (best : option (Q * string)) (unit : TailUnit) : option (Q * string) :=
  match backup_key unit, best with
  | None, _ => best
  | Some c, None => Some c
  | Some c, Some b => if key_lt c b then Some c else Some b
  end.

Definition choose_backup_unit (units : list TailUnit) : option unit_id :=
  snd <$> fold_left better_backup units None.
End Speculative.

Definition capacity_snapshot (agent : agent_id) (caps : DeviceCaps) : AgentSnapshot := {|
  as_agent_id := agent; as_host := ""; as_state := IDLE; as_suspect := false; as_caps := caps;
  as_mem_available_mb := dc_ram_mb caps;
  as_gpus := (λ g, {| gs_index := gi_index g; gs_vram_free_mb := gi_vram_mb g; gs_util_percent := 0;
                      gs_power_w := None; gs_temp_c := None |}) <$> dc_gpus caps;
  as_replicas := []; as_user_idle_s := 0; as_serving_paused := false;
  as_predicted_idle_remaining_s := None; as_predicted_idle_confidence := None |}.

Definition model_rank (prefer_gpu : bool) (m : ModelManifest) : bool * (Z * string) :=
  (negb (prefer_gpu && (0 <? mm_min_vram_mb m)%Z), ((- mm_size_bytes m)%Z, mm_model_id m)).

Definition select_model_for_agent (a : AgentSnapshot) (models : list ModelManifest)
    : option ModelManifest :=
  py_min (model_rank (agent_has_gpu a)) (filter (λ m, fr_fits (model_fit m a) = true) models).

(** ** The arms satisfy the interface *)

Lemma elem_of_eligible gpu agents a : a ∈ eligible gpu agents ↔ is_eligible a gpu = true ∧ a ∈ agents.
Proof. unfold eligible. by rewrite list_elem_of_filter. Qed.

Lemma elem_of_replicas_for model rs r : r ∈ replicas_for model rs ↔ re_model_id r = model ∧ r ∈ rs.
Proof. unfold replicas_for. by rewrite list_elem_of_filter. Qed.

Lemma eligible_nil gpu agents : eligible gpu agents = [] ↔ ∀ a, a ∈ agents → is_eligible a gpu = false.
Proof.
  split.
  - intros Hn a Ha. destruct (is_eligible a gpu) eqn:He; [| done].
    assert (a ∈ eligible gpu agents) as H by (by apply elem_of_eligible). rewrite Hn in H.
    by apply elem_of_nil in H.
  - intros H. apply filter_none. intros a Ha. by rewrite H.
Qed.

Lemma replicas_for_nil model rs : replicas_for model rs = [] ↔ ∀ r, r ∈ rs → re_model_id r ≠ model.
Proof.
  split.
  - intros Hn r Hr Hm. assert (r ∈ replicas_for model rs) as H by (by apply elem_of_replicas_for).
    rewrite Hn in H. by apply elem_of_nil in H.
  - apply filter_none.
Qed.

Section MinArm.
  Context `{KeyOrderLaws K} (k : AgentSnapshot → K).

Lemma min_select_eligible gpu agents id :
  as_agent_id <$> py_min k (eligible gpu agents) = Some id →
  ∃ a, a ∈ agents ∧ as_agent_id a = id ∧ is_eligible a gpu = true.
Proof.
  intros (a & [Hin _]%py_min_Some & ->)%fmap_Some. apply elem_of_eligible in Hin as [? ?]. eauto.
Qed.

Lemma min_select_total gpu agents :
  as_agent_id <$> py_min k (eligible gpu agents) = None ↔ ∀ a, a ∈ agents → is_eligible a gpu = false.
Proof. by rewrite fmap_None, py_min_None, eligible_nil. Qed.
End MinArm.

Lemma least_inflight_serves model rs r :
  least_inflight model rs = Some r → r ∈ rs ∧ re_model_id r = model.
Proof. intros [[? ?]%elem_of_replicas_for _]%py_min_Some. done. Qed.

Lemma least_inflight_total model rs :
  least_inflight model rs = None ↔ ∀ r, r ∈ rs → re_model_id r ≠ model.
Proof. unfold least_inflight. by rewrite py_min_None, replicas_for_nil. Qed.

Lemma rotate_Some {A} p (l : list A) x : (rotate p l).2 = Some x → x ∈ l.
Proof.
  unfold rotate. destruct l as [| y l]; [done |]. cbn [next_index snd]. apply list_elem_of_lookup_2.
Qed.

Lemma rotate_None {A} p (l : list A) : (rotate p l).2 = None ↔ l = [].
Proof.
  unfold rotate. destruct l as [| y l]; [done |]. cbn [next_index snd]. split; [| done].
  intros Hn%lookup_ge_None. pose proof (Nat.mod_upper_bound (cursor p) (length (y :: l))).
  cbn in *. lia.
Qed.

#[export] Instance CapabilityScheduler_laws : SchedulerPolicyLaws CapabilityScheduler.
Proof.
  split; intros p; cbn.
  - intros *. apply min_select_eligible.
  - intros *. apply min_select_total.
  - intros *. apply least_inflight_serves.
  - intros *. apply least_inflight_total.
Qed.

#[export] Instance ChurnAwareScheduler_laws : SchedulerPolicyLaws ChurnAwareScheduler.
Proof.
  split; intros p; cbn.
  - intros *. apply min_select_eligible.
  - intros *. apply min_select_total.
  - intros *. apply least_inflight_serves.
  - intros *. apply least_inflight_total.
Qed.

#[export] Instance RoundRobinScheduler_laws : SchedulerPolicyLaws RoundRobinScheduler.
Proof.
  split; intros p model; cbn.
  - intros gpu agents id. destruct (rotate _ _) as [p' a] eqn:Hr. cbn.
    intros (a' & -> & ->)%fmap_Some.
    assert (a' ∈ py_sorted as_agent_id (eligible gpu agents)) as Hin
      by (apply (rotate_Some p); by rewrite Hr).
    rewrite py_sorted_perm, elem_of_eligible in Hin. naive_solver.
  - intros gpu agents. destruct (rotate _ _) as [p' a] eqn:Hr. cbn.
    rewrite fmap_None, <- eligible_nil. change a with (p', a).2. rewrite <- Hr, rotate_None.
    apply py_sorted_nil.
  - intros rs r Hin%rotate_Some. rewrite py_sorted_perm in Hin. by apply elem_of_replicas_for in Hin as [? ?].
  - intros rs. rewrite rotate_None, <- replicas_for_nil. apply py_sorted_nil.
Qed.
