(* ===== verification/SchedulerSpec.v ===== *)
(** * What placement guarantees

    Theorems about the scheduler's policies, proved against the interface or
    for each arm. *)

From S2P Require Export Scheduler.

(** ** Demo fleet *)

Definition demo_caps (gpus : list GpuInfo) : DeviceCaps := {|
  dc_hostname := "h"; dc_os := LINUX; dc_os_version := ""; dc_cpu_model := ""; dc_cpu_cores := 8;
  dc_ram_mb := 16000; dc_disk_free_mb := 1000; dc_gpus := gpus; dc_agent_version := "0" |}.

Definition demo_agent (id : agent_id) (mem : Z) (reps : list ReplicaStatus) : AgentSnapshot := {|
  as_agent_id := id; as_host := "h"; as_state := IDLE; as_suspect := false; as_caps := demo_caps [];
  as_mem_available_mb := mem; as_gpus := []; as_replicas := reps; as_user_idle_s := 0;
  as_serving_paused := false; as_predicted_idle_remaining_s := None;
  as_predicted_idle_confidence := None |}.

Definition demo_fleet : list AgentSnapshot :=
  [demo_agent "b" 100 []; demo_agent "a" 200 []; demo_agent "c" 50
    [{| rs_model_id := "m"; rs_port := 1; rs_state := SUSPENDED; rs_inflight := 0; rs_gpu := false |}]].

(** ** Any arm *)

(** An agent that may be given a unit: idle, heard from, not reclaimed by its user,
    and with a GPU when the unit needs one. *)
Definition can_take (gpu : bool) (a : AgentSnapshot) : Prop :=
  as_state a = IDLE ∧ as_suspect a = false ∧ as_serving_paused a = false ∧ (gpu = true → dc_gpus (as_caps a) ≠ []).

Lemma eligible_can_take gpu a : is_eligible a gpu = true ↔ can_take gpu a.
Proof.
  unfold is_eligible, agent_is_fit, agent_has_gpu, can_take.
  destruct (bool_decide (as_state a = IDLE)) eqn:Hs, (as_suspect a), (as_serving_paused a), gpu, (dc_gpus (as_caps a));
    cbn; reflect_bools; naive_solver.
Qed.

#[export] Instance can_take_dec gpu a : Decision (can_take gpu a).
Proof. destruct (is_eligible a gpu) eqn:He; [left | right]; rewrite <- eligible_can_take; congruence. Defined.

Lemma eligible_takers gpu agents : eligible gpu agents = filter (can_take gpu) agents.
Proof. apply list_filter_iff. intros a. apply eligible_can_take. Qed.

(** An answer to a batch unit and one to an interactive request: only those who can,
    and whenever somebody can. *)
Definition placed (model : model_id) (gpu : bool) (agents : list AgentSnapshot) (replicas : list ReplicaEndpoint)
    (chosen : option agent_id) (picked : option ReplicaEndpoint) : Prop :=
  match chosen with
  | Some id => ∃ a, a ∈ agents ∧ as_agent_id a = id ∧ can_take gpu a
  | None => ∀ a, a ∈ agents → ~ can_take gpu a
  end ∧
  match picked with
  | Some r => r ∈ replicas ∧ re_model_id r = model
  | None => ∀ r, r ∈ replicas → re_model_id r ≠ model
  end.

Lemma laws_place P `{SchedulerPolicyLaws P} (p : P) model gpu agents replicas :
  placed model gpu agents replicas (select_agent p model gpu agents).2 (pick_replica p model replicas).2.
Proof.
  split.
  - destruct ((select_agent p model gpu agents).2) as [id |] eqn:Hs.
    + apply (select_eligible p) in Hs as (a & Ha & Hid & He). exists a. by rewrite <- eligible_can_take.
    + intros a Ha. rewrite <- eligible_can_take. by rewrite (proj1 (select_total p _ _ _) Hs a Ha).
  - destruct ((pick_replica p model replicas).2) as [r |] eqn:Hp; [by apply (pick_serves p) in Hp |].
    exact (proj1 (pick_total p _ _) Hp).
Qed.

(** ** Capability order *)

(** The documented preference: warm replica, then GPU, then free RAM, then id. *)
Definition preferred (model : model_id) (a b : AgentSnapshot) : Prop :=
  match has_warm_replica a model, has_warm_replica b model with
  | true, false => True
  | false, true => False
  | _, _ =>
      match agent_has_gpu a, agent_has_gpu b with
      | true, false => True
      | false, true => False
      | _, _ =>
          (as_mem_available_mb b < as_mem_available_mb a)%Z ∨
          as_mem_available_mb a = as_mem_available_mb b ∧ key_le (as_agent_id a) (as_agent_id b) = true
      end
  end.

Lemma capability_rank_preferred model a b :
  key_le (capability_rank model a) (capability_rank model b) = true ↔ preferred model a b.
Proof.
  unfold preferred, capability_rank. rewrite pair_key_le. cbn [fst snd]. rewrite pair_key_le. cbn [fst snd].
  rewrite pair_key_le. cbn [fst snd]. unfold key_le at 1 2 3 4 5 6. unfold bool_key, Z_key.
  destruct (has_warm_replica a model), (has_warm_replica b model), (agent_has_gpu a), (agent_has_gpu b);
    cbn; try done.
  all: destruct (Z.leb_spec (- as_mem_available_mb a) (- as_mem_available_mb b));
    destruct (Z.leb_spec (- as_mem_available_mb b) (- as_mem_available_mb a)); cbn;
    (split; [intros | intros [? | [? ?]]]); try done; try lia; try (left; lia); try (right; split; [lia | done]).
Qed.

Lemma capability_best (p : CapabilityScheduler) model gpu agents id :
  (select_agent p model gpu agents).2 = Some id →
  ∃ a, a ∈ agents ∧ as_agent_id a = id ∧ ∀ b, b ∈ agents → is_eligible b gpu = true → preferred model a b.
Proof.
  cbn. intros (a & [[_ Ha]%elem_of_eligible Hmin]%py_min_Some & ->)%fmap_Some. exists a. split_and!; [done | done |].
  intros b Hb He. apply capability_rank_preferred, Hmin. by apply elem_of_eligible.
Qed.

(** The default arm picks an agent that is preferred to every eligible one
    in the documented order, and its choice does not depend on the order in
    which the fleet is listed. *)
Theorem capability_choice model gpu agents agents' :
  agents ≡ₚ agents' →
  (select_agent capability_scheduler model gpu agents).2 =
  (select_agent capability_scheduler model gpu agents').2 ∧
  ∀ id, (select_agent capability_scheduler model gpu agents).2 = Some id →
    ∃ a, a ∈ agents ∧ as_agent_id a = id ∧
      ∀ b, b ∈ agents → is_eligible b gpu = true → preferred model a b.
Proof.
  intros Hperm. split; [| apply capability_best]. cbn. set (k := capability_rank model).
  assert (Hel : eligible gpu agents ≡ₚ eligible gpu agents') by (unfold eligible; by rewrite Hperm).
  destruct (py_min k (eligible gpu agents)) as [a |] eqn:Ha, (py_min k (eligible gpu agents')) as [b |] eqn:Hb; cbn.
  - f_equal. apply py_min_Some in Ha as [Hina Hmina], Hb as [Hinb Hminb].
    rewrite Hel in Hina. rewrite <- Hel in Hinb.
    specialize (Hmina _ Hinb). specialize (Hminb _ Hina).
    destruct (pair_key_equiv _ _ Hmina Hminb) as [H1 H2].
    destruct (pair_key_equiv _ _ H1 H2) as [H3 H4]. destruct (pair_key_equiv _ _ H3 H4) as [H5 H6].
    by apply string_key_antisym.
  - apply py_min_None in Hb. rewrite Hb in Hel. symmetry in Hel. apply Permutation_nil in Hel. by rewrite Hel in Ha.
  - apply py_min_None in Ha. rewrite Ha in Hel. apply Permutation_nil in Hel. by rewrite Hel in Hb.
  - done.
Qed.

Lemma capability_choice_witness :
  (select_agent capability_scheduler "m" false demo_fleet).2 =
  (select_agent capability_scheduler "m" false (reverse demo_fleet)).2 ∧
  ∀ id, (select_agent capability_scheduler "m" false demo_fleet).2 = Some id →
    ∃ a, a ∈ demo_fleet ∧ as_agent_id a = id ∧
      ∀ b, b ∈ demo_fleet → is_eligible b false = true → preferred "m" a b.
Proof. apply (capability_choice "m" false demo_fleet (reverse demo_fleet)). symmetry. apply reverse_Permutation. Defined.

(** ** Round robin *)

(** [n] consecutive batch handouts. *)
Fixpoint handouts (n : nat) (p : RoundRobinScheduler) (model : model_id) (gpu : bool)
    (agents : list AgentSnapshot) : list (option agent_id) :=
  match n with
  | O => []
  | S n => let '(p', id) := select_agent p model gpu agents in id :: handouts n p' model gpu agents
  end.

Lemma handouts_lookup n p model gpu agents i :
  eligible gpu agents ≠ [] → (i < n)%nat →
  let l := py_sorted as_agent_id (eligible gpu agents) in
  handouts n p model gpu agents !! i = Some (as_agent_id <$> l !! ((cursor p + i) mod length l)%nat).
Proof.
  intros Hne Hi l. assert (Hl : l ≠ []) by (unfold l; by rewrite py_sorted_nil).
  revert p i Hi; induction n as [| n IH]; intros p i Hi; [lia |].
  cbn [handouts select_agent RoundRobinScheduler_policy]. fold l. unfold rotate.
  destruct l as [| a l']; [done |]. cbn [next_index]. destruct i as [| i].
  - cbn [lookup list_lookup]. by rewrite Nat.add_0_r.
  - etrans; [exact (IH {| cursor := S (cursor p) |} i ltac:(lia)) |]. cbn [cursor].
    by replace (S (cursor p) + i)%nat with (cursor p + S i)%nat by lia.
Qed.

Lemma handouts_length n p model gpu agents : length (handouts n p model gpu agents) = n.
Proof.
  revert p; induction n as [| n IH]; intros p; [done |]. cbn [handouts].
  destruct (select_agent p model gpu agents). cbn. by rewrite IH.
Qed.

Lemma mod_wrap c i n : (i < n)%nat →
  ((c + i) mod n = if (c mod n + i <? n) then c mod n + i else c mod n + i - n)%nat.
Proof.
  intros Hi. pose proof (Nat.mod_upper_bound c n ltac:(lia)) as Hb.
  rewrite <- Nat.Div0.add_mod_idemp_l. destruct (Nat.ltb_spec (c mod n + i) n).
  - by apply Nat.mod_small.
  - replace (c mod n + i)%nat with ((c mod n + i - n) + 1 * n)%nat at 1 by lia.
    rewrite Nat.Div0.mod_add. apply Nat.mod_small. lia.
Qed.

(** Round robin is fair: over as many consecutive handouts as there are
    eligible agents, from any cursor, every one of them is handed exactly one
    unit. *)
Theorem round_robin_fair p model gpu agents :
  let n := length (eligible gpu agents) in
  handouts n p model gpu agents ≡ₚ Some <$> (as_agent_id <$> eligible gpu agents).
Proof.
  intros n. set (l := py_sorted as_agent_id (eligible gpu agents)).
  assert (Hp : l ≡ₚ eligible gpu agents) by apply py_sorted_perm.
  assert (Hn : n = length l) by (unfold n; by rewrite Hp).
  destruct (decide (eligible gpu agents = [])) as [He | Hne].
  { unfold n. by rewrite He. }
  set (r := (cursor p mod n)%nat).
  assert (Heq : handouts n p model gpu agents = (λ a, Some (as_agent_id a)) <$> (drop r l ++ take r l)).
  { apply list_eq_same_length with n; [rewrite length_fmap, length_app, length_drop, length_take; lia
      | apply handouts_length |].
    intros i x y Hi Hx Hy. rewrite (handouts_lookup n p model gpu agents i Hne Hi) in Hx. fold l in Hx.
    rewrite <- Hn, mod_wrap in Hx by done. fold r in Hx.
    pose proof (Nat.mod_upper_bound (cursor p) n ltac:(lia)) as Hr. fold r in Hr.
    rewrite list_lookup_fmap in Hy. destruct (Nat.ltb_spec (r + i) n).
    - rewrite lookup_app_l in Hy by (rewrite length_drop; lia). rewrite lookup_drop in Hy.
      destruct (lookup_lt_is_Some_2 l (r + i)) as [a Ha]; [lia |]. rewrite Ha in *. cbn in *. congruence.
    - rewrite lookup_app_r in Hy by (rewrite length_drop; lia). rewrite length_drop in Hy.
      rewrite lookup_take_lt in Hy by lia. replace (i - (length l - r))%nat with (r + i - n)%nat in Hy by lia.
      destruct (lookup_lt_is_Some_2 l (r + i - n)) as [a Ha]; [lia |]. rewrite Ha in *. cbn in *. congruence. }
  rewrite Heq, <- list_fmap_compose. apply fmap_Permutation.
  rewrite Permutation_app_comm, take_drop. done.
Qed.

(** ** Churn-aware placement *)

Lemma churn_select_best p model gpu agents id :
  (select_agent (p : ChurnAwareScheduler) model gpu agents).2 = Some id →
  ∃ b, b ∈ agents ∧ as_agent_id b = id ∧ is_eligible b gpu = true ∧
    ∀ a, a ∈ agents → is_eligible a gpu = true → (placement_score p a <= placement_score p b)%Q.
Proof.
  cbn. intros (b & [[He Hb]%elem_of_eligible Hmin]%py_min_Some & ->)%fmap_Some.
  exists b. split_and!; try done. intros a Ha Hea.
  specialize (Hmin a (proj2 (elem_of_eligible _ _ _) (conj Hea Ha))).
  unfold churn_rank in Hmin. rewrite pair_key_le in Hmin. cbn [fst] in Hmin. apply andb_true_iff in Hmin as [Hle _].
  apply Qle_bool_true in Hle. lra.
Qed.

Lemma churn_tie_preferred p model gpu agents id :
  (select_agent (p : ChurnAwareScheduler) model gpu agents).2 = Some id →
  ∃ b, b ∈ agents ∧ as_agent_id b = id ∧ is_eligible b gpu = true ∧
    ∀ a, a ∈ agents → is_eligible a gpu = true →
      (placement_score p a < placement_score p b)%Q ∨
      (placement_score p a == placement_score p b)%Q ∧ preferred model b a.
Proof.
  cbn. intros (b & [[He Hb]%elem_of_eligible Hmin]%py_min_Some & ->)%fmap_Some. exists b. split_and!; try done. intros a Ha Hea.
  specialize (Hmin a (proj2 (elem_of_eligible _ _ _) (conj Hea Ha))). unfold churn_rank in Hmin. rewrite pair_key_le in Hmin.
  cbn [fst snd] in Hmin. apply andb_true_iff in Hmin as [Hle Hrest]. apply Qle_bool_true in Hle.
  apply orb_true_iff in Hrest as [Hn | Hr].
  - left. apply negb_true_iff in Hn. unfold key_le, Q_key in Hn. apply Bool.not_true_iff_false in Hn.
    rewrite Qle_bool_iff in Hn. lra.
  - destruct (Qlt_le_dec (placement_score p a) (placement_score p b)); [by left | right].
    split; [lra |]. by apply capability_rank_preferred.
Qed.

Lemma least_inflight_least model replicas r r' :
  least_inflight model replicas = Some r → r' ∈ replicas → re_model_id r' = model → (re_inflight r ≤ re_inflight r')%Z.
Proof.
  intros [_ Hmin]%py_min_Some Hr' Hm. specialize (Hmin r' (proj2 (elem_of_replicas_for _ _ _) (conj Hm Hr'))).
  unfold endpoint_sort_key in Hmin. rewrite pair_key_le in Hmin. cbn [fst] in Hmin. apply andb_true_iff in Hmin as [Hle _].
  unfold key_le, Z_key in Hle. by apply Z.leb_le.
Qed.

(** C36: the three arms of the scheduler.  Each gives a batch unit only to an agent
    of the fleet that is idle, heard from, not reclaimed and has a GPU when one is
    needed, and gives it to somebody whenever there is such an agent; an interactive
    request goes only to a replica of its model, and always when there is one.  The
    capability arm takes the agent that comes first in the documented order: warm
    replica, GPU, free memory, id.  The churn-aware arm takes one of the greatest
    score, ties decided by that order.  Both pick a least loaded replica.  Round
    robin hands as many consecutive units as there are agents that can take them to
    each of them once, from any cursor. *)
Theorem arms_sound_and_complete (capability : CapabilityScheduler) (churn : ChurnAwareScheduler) (robin : RoundRobinScheduler)
    model gpu agents replicas :
  placed model gpu agents replicas (select_agent capability model gpu agents).2 (pick_replica capability model replicas).2 ∧
  placed model gpu agents replicas (select_agent churn model gpu agents).2 (pick_replica churn model replicas).2 ∧
  placed model gpu agents replicas (select_agent robin model gpu agents).2 (pick_replica robin model replicas).2 ∧
  (∀ id, (select_agent capability model gpu agents).2 = Some id → ∃ a, a ∈ agents ∧ as_agent_id a = id ∧
     ∀ b, b ∈ agents → can_take gpu b → preferred model a b) ∧
  (∀ id, (select_agent churn model gpu agents).2 = Some id → ∃ a, a ∈ agents ∧ as_agent_id a = id ∧
     ∀ b, b ∈ agents → can_take gpu b → (placement_score churn b < placement_score churn a)%Q ∨
       (placement_score churn b == placement_score churn a)%Q ∧ preferred model a b) ∧
  (∀ r r', (pick_replica capability model replicas).2 = Some r ∨ (pick_replica churn model replicas).2 = Some r →
     r' ∈ replicas → re_model_id r' = model → (re_inflight r ≤ re_inflight r')%Z) ∧
  let takers := filter (can_take gpu) agents in
  handouts (length takers) robin model gpu agents ≡ₚ Some <$> (as_agent_id <$> takers).
Proof.
  split_and!; [apply laws_place; apply _ .. | | | |].
  - intros id Hid. destruct (capability_best capability model gpu agents id Hid) as (a & Ha & Hd & Hbest). exists a. split_and!; [done | done |].
    intros b Hb Ht. apply Hbest; [done | by apply eligible_can_take].
  - intros id Hid. destruct (churn_tie_preferred churn model gpu agents id Hid) as (a & Ha & Hd & _ & Hbest). exists a.
    split_and!; [done | done |]. intros b Hb Ht. apply Hbest; [done | by apply eligible_can_take].
  - intros r r' [Hr | Hr]; by apply (least_inflight_least model replicas r r').
  - intros takers. unfold takers. rewrite <- eligible_takers. apply round_robin_fair.
Qed.

(** Reliability is only a secondary signal: with rates in [0, 1] and a
    non-negative weight, an agent whose survival trails that of another eligible
    agent by more than the weight is never chosen. *)
Theorem survival_dominates p model gpu agents a b :
  (0 <= ca_reliability_weight p)%Q →
  (∀ id, 0 <= reliability_of p id <= 1)%Q →
  a ∈ agents → is_eligible a gpu = true →
  (∀ c, c ∈ agents → as_agent_id c = as_agent_id b → c = b) →
  (stays_idle p b + ca_reliability_weight p < stays_idle p a)%Q →
  (select_agent p model gpu agents).2 ≠ Some (as_agent_id b).
Proof.
  intros Hw Hrel Ha Hea Huniq Hgap Hsel.
  destruct (churn_select_best p model gpu agents _ Hsel) as (c & Hc & Hid & _ & Hbest).
  rewrite (Huniq c Hc Hid) in Hbest. specialize (Hbest a Ha Hea). unfold placement_score in Hbest.
  pose proof (Hrel (as_agent_id a)) as [Ha0 _]. pose proof (Hrel (as_agent_id b)) as [_ Hb1].
  assert (0 <= ca_reliability_weight p * reliability_of p (as_agent_id a))%Q by (by apply Qmult_le_0_compat).
  assert (ca_reliability_weight p * reliability_of p (as_agent_id b) <= ca_reliability_weight p)%Q.
  { rewrite <- (Qmult_1_r (ca_reliability_weight p)) at 2.
    rewrite !(Qmult_comm (ca_reliability_weight p)). by apply Qmult_le_compat_r. }
  lra.
Qed.

(** Ten recorded sessions each; all of ["a"]'s and nine of ["b"]'s are long, so
    their survivals differ by exactly the default weight. *)
Definition tie_churn : ChurnModel := {|
  by_bucket := ∅;
  by_agent := {["a" := [100; 100; 100; 100; 100; 100; 100; 100; 100; 100]%Q;
                "b" := [1; 100; 100; 100; 100; 100; 100; 100; 100; 100]%Q]};
  optimistic_prior := DEFAULT_OPTIMISTIC_PRIOR |}.

Definition tie_policy (r : option ReliabilityModel) : ChurnAwareScheduler := {|
  ca_model := tie_churn; ca_est_unit_duration_s := DEFAULT_EST_UNIT_DURATION_S; ca_hour := 0;
  ca_reliability := r; ca_reliability_weight := DEFAULT_RELIABILITY_WEIGHT |}.

Definition tie_reliability : ReliabilityModel := {|
  rm_by_agent := {["a" := (0, 3); "b" := (3, 0)]}%nat; rm_optimistic_prior := DEFAULT_RELIABILITY_PRIOR |}.

Definition tie_fleet : list AgentSnapshot := [demo_agent "a" 100 []; demo_agent "b" 200 []].

(** ["a"] was idle long in the past, ["z"] never. *)
Definition gap_policy : ChurnAwareScheduler := {|
  ca_model := {| by_bucket := ∅; by_agent := {["a" := [100%Q]; "z" := [1%Q]]}; optimistic_prior := 0 |};
  ca_est_unit_duration_s := 60; ca_hour := 0; ca_reliability := None; ca_reliability_weight := 1#10 |}.

Lemma survival_dominates_witness :
  (select_agent gap_policy "m" false [demo_agent "a" 100 []; demo_agent "z" 200 []]).2
  ≠ Some (as_agent_id (demo_agent "z" 200 [])).
Proof.
  apply (survival_dominates gap_policy "m" false [demo_agent "a" 100 []; demo_agent "z" 200 []]
    (demo_agent "a" 100 []) (demo_agent "z" 200 [])).
  - vm_compute. discriminate.
  - intros id. unfold reliability_of. cbn. split; vm_compute; discriminate.
  - apply list_elem_of_here.
  - reflexivity.
  - intros c [-> | ->%list_elem_of_singleton]%elem_of_cons Hid; [discriminate | done].
  - vm_compute. reflexivity.
Defined.

(** At a gap of exactly the weight reliability does overturn survival: here
    ["a"] survives better by 0.1 and is chosen without a reliability model, but
    with one the scores tie and the capability order decides for ["b"]. *)
Theorem reliability_overturns_exact_gap :
  (stays_idle (tie_policy None) (demo_agent "a" 100 []) ==
    stays_idle (tie_policy None) (demo_agent "b" 200 []) + DEFAULT_RELIABILITY_WEIGHT)%Q ∧
  (select_agent (tie_policy None) "m" false tie_fleet).2 = Some "a" ∧
  (select_agent (tie_policy (Some tie_reliability)) "m" false tie_fleet).2 = Some "b".
Proof. split_and!; vm_compute; reflexivity. Qed.

(** ** Backups *)

Section Backup.
  Context (holders : gmap agent_id AgentSnapshot) (churn : ChurnModel) (hour : Z) (threshold est : Q).
  Notation bkey := (backup_key holders churn hour threshold est).

Definition best_backup (units : list TailUnit) (b : Q * string) : Prop :=
  (∃ u, u ∈ units ∧ bkey u = Some b) ∧
  ∀ u c, u ∈ units → bkey u = Some c → key_le b c = true.

Lemma better_backup_fold units seen acc :
  match acc with
  | None => ∀ u, u ∈ seen → bkey u = None
  | Some b => best_backup seen b
  end →
  match fold_left (better_backup holders churn hour threshold est) units acc with
  | None => ∀ u, u ∈ seen ++ units → bkey u = None
  | Some b => best_backup (seen ++ units) b
  end.
Proof.
  revert seen acc; induction units as [| u units IH]; intros seen acc Hacc; cbn [fold_left].
  { by rewrite app_nil_r. }
  replace (seen ++ u :: units) with ((seen ++ [u]) ++ units) by (by rewrite <- app_assoc).
  apply IH. unfold better_backup. destruct (bkey u) as [c |] eqn:Hc, acc as [b |].
  - destruct Hacc as [(v & Hv & Hkv) Hmin]. destruct (key_lt c b) eqn:Hlt.
    + apply key_lt_le in Hlt. split; [exists u; set_solver |].
      intros w k [Hw | ->%list_elem_of_singleton]%elem_of_app Hk.
      * eapply key_le_trans; [done |]. by eapply Hmin.
      * simplify_eq. apply key_le_refl.
    + apply negb_false_iff in Hlt. split; [exists v; set_solver |].
      intros w k [Hw | ->%list_elem_of_singleton]%elem_of_app Hk; [by eapply Hmin | by simplify_eq].
  - split; [exists u; set_solver |]. intros w k [Hw | ->%list_elem_of_singleton]%elem_of_app Hk.
    + rewrite (Hacc w Hw) in Hk. done.
    + simplify_eq. apply key_le_refl.
  - destruct Hacc as [(v & Hv & Hkv) Hmin]. split; [exists v; set_solver |].
    intros w k [Hw | ->%list_elem_of_singleton]%elem_of_app Hk; [by eapply Hmin | congruence].
  - intros w [Hw | ->%list_elem_of_singleton]%elem_of_app; [by apply Hacc | done].
Qed.
End Backup.

(** The speculative choice is the tail unit whose known holder is least
    likely to stay, strictly below the threshold, ties broken on the unit id;
    and [None] exactly when no such unit exists. *)
Theorem choose_backup_spec holders churn hour threshold est units :
  match choose_backup_unit holders churn hour threshold est units with
  | Some id => ∃ s, best_backup holders churn hour threshold est units (s, id) ∧ (s < threshold)%Q
  | None => ∀ u h, u ∈ units → holders !! tu_holder_agent_id u = Some h →
      (threshold <= survival churn (as_agent_id h) hour (as_user_idle_s h)
                     (default est (tu_est_duration_s u)))%Q
  end.
Proof.
  unfold choose_backup_unit.
  pose proof (better_backup_fold holders churn hour threshold est units [] None) as H. cbn [app] in H.
  destruct (fold_left _ units None) as [[s id] |]; cbn.
  - exists s. destruct H as [(u & Hu & Hk) Hmin]; [set_solver |]. split; [split; eauto |].
    unfold backup_key in Hk. destruct (holders !! _); cbn in Hk; [| done].
    destruct (threshold <=?q _) eqn:Hle; simplify_eq. by reflect_bools.
  - intros u h Hu Hh. specialize (H ltac:(set_solver) u Hu). unfold backup_key in H. rewrite Hh in H. cbn in H.
    destruct (threshold <=?q _) eqn:Hle; [by reflect_bools | done].
Qed.

(** ** Auto-assignment *)

Lemma available_vram_roomiest a g : g ∈ as_gpus a → (gs_vram_free_mb g ≤ agent_available_vram_mb a)%Z.
Proof.
  intros Hg. unfold agent_available_vram_mb.
  assert (Hv : gs_vram_free_mb g ∈ gs_vram_free_mb <$> as_gpus a) by (by apply list_elem_of_fmap_2).
  revert Hv. generalize (gs_vram_free_mb g) as x. destruct (gs_vram_free_mb <$> as_gpus a) as [| v vs]; [set_solver |].
  intros x [-> | Hx]%elem_of_cons.
  - clear. revert v. induction vs as [| w vs IH]; intros v; cbn; [lia |]. specialize (IH (Z.max v w)). lia.
  - revert v Hx. induction vs as [| w vs IH]; intros v Hx; [set_solver |]. cbn.
    apply elem_of_cons in Hx as [-> | Hx]; [| by apply IH].
    assert (∀ m, (m ≤ fold_left Z.max vs m)%Z) as Hm.
    { clear. induction vs as [| u vs IH]; intros m; cbn; [lia |]. specialize (IH (Z.max m u)). lia. }
    specialize (Hm (Z.max v w)). lia.
Qed.

(** The model assigned to an enrolling agent fits its declared RAM and one
    of its GPUs; a machine with a GPU gets a GPU model whenever one fits; among
    the models of that kind none that fits is larger; and an agent is left
    without a model only when none fits. *)
Theorem auto_assignment_spec agent caps models :
  let a := capacity_snapshot agent caps in
  match select_model_for_agent a models with
  | Some m =>
      m ∈ models ∧ fr_fits (model_fit m a) = true ∧
      ∀ m', m' ∈ models → fr_fits (model_fit m' a) = true →
        (dc_gpus caps ≠ [] → (0 < mm_min_vram_mb m')%Z → (0 < mm_min_vram_mb m)%Z) ∧
        ((dc_gpus caps = [] ∨ ((0 < mm_min_vram_mb m')%Z ↔ (0 < mm_min_vram_mb m)%Z)) →
         (mm_size_bytes m' ≤ mm_size_bytes m)%Z)
  | None => ∀ m, m ∈ models → fr_fits (model_fit m a) = false
  end.
Proof.
  intros a. unfold select_model_for_agent.
  destruct (py_min _ _) as [m |] eqn:Hm.
  - apply py_min_Some in Hm as [[Hfit Hin]%list_elem_of_filter Hmin]. split_and!; try done.
    intros m' Hin' Hfit'. specialize (Hmin m' (proj2 (list_elem_of_filter _ _ _) (conj Hfit' Hin'))).
    unfold model_rank in Hmin. rewrite pair_key_le in Hmin. cbn [fst snd] in Hmin. rewrite pair_key_le in Hmin.
    cbn [fst snd] in Hmin. unfold key_le at 1 2 3 4 in Hmin. unfold bool_key, Z_key in Hmin.
    assert (Hgpu : agent_has_gpu a = negb (bool_decide (dc_gpus caps = []))).
    { unfold agent_has_gpu, a. cbn. by destruct (dc_gpus caps). }
    rewrite Hgpu in Hmin. split.
    + intros Hg Hv'. rewrite bool_decide_eq_false_2 in Hmin by done. cbn in Hmin.
      destruct (Z.ltb_spec 0 (mm_min_vram_mb m')), (Z.ltb_spec 0 (mm_min_vram_mb m)); cbn in Hmin; try done; lia.
    + intros Hk. destruct (Z.leb_spec (- mm_size_bytes m) (- mm_size_bytes m')); [lia |]. exfalso.
      destruct (bool_decide (dc_gpus caps = [])) eqn:Hb; cbn in Hmin; [done |].
      apply bool_decide_eq_false in Hb. destruct Hk as [? | Hk]; [done |].
      destruct (Z.ltb_spec 0 (mm_min_vram_mb m')), (Z.ltb_spec 0 (mm_min_vram_mb m)); cbn in Hmin; try done; lia.
  - apply py_min_None in Hm. intros m Hin. destruct (fr_fits (model_fit m a)) eqn:Hfit; [| done].
    assert (m ∈ filter (λ m, fr_fits (model_fit m a) = true) models) as H by (by apply list_elem_of_filter).
    rewrite Hm in H. by apply elem_of_nil in H.
Qed.
