(* ===== verification/Supervisor.v ===== *)
(** * The agent's process supervisor

    Models src/packages/fallow-agent/src/fallow_agent/supervisor/supervisor.py
    ([ChildProcessSupervisor]) and child.py.  [Sup] holds the dictionaries the
    supervisor guards with its lock; each locked section is one function.  What
    happens outside the lock (signals, probes, waiting) is a separate step of
    [World], which adds the processes, the suspend/resume in flight on the poll
    thread and the phase of every health thread, so that locked sections of
    different threads interleave as they may in the program. *)

From S2P Require Export Protocol ODict.

(** ** State *)

(** [_Child]: [ch_id] is the identity of the object and of its process;
    [ch_tracked] is [proc is not None]. *)
Record Child := {
  ch_id : nat; ch_model : model_id; ch_port : Z; ch_tracked : bool; ch_started : Q
}.

Record Sup := {
  children : odict Child;
  threads : gmap model_id nat;
  states : odict ReplicaState;
  ports : gmap model_id Z;
  gpu : gmap model_id bool;
  inflight : gmap model_id Z;
  slot_probe_warned : gset model_id;
  pre_suspend : gmap model_id ReplicaState;
  cached : list ReplicaStatus;
  shutdown : gset nat
}.

Definition empty_sup : Sup := {|
  children := []; threads := ∅; states := []; ports := ∅; gpu := ∅; inflight := ∅;
  slot_probe_warned := ∅; pre_suspend := ∅; cached := []; shutdown := ∅ |}.

(** Assignment of one or more attributes. *)
Definition with_children f (s : Sup) : Sup := {|
  children := f (children s); threads := threads s; states := states s; ports := ports s;
  gpu := gpu s; inflight := inflight s; slot_probe_warned := slot_probe_warned s;
  pre_suspend := pre_suspend s; cached := cached s; shutdown := shutdown s |}.

Definition with_threads f (s : Sup) : Sup := {|
  children := children s; threads := f (threads s); states := states s; ports := ports s;
  gpu := gpu s; inflight := inflight s; slot_probe_warned := slot_probe_warned s;
  pre_suspend := pre_suspend s; cached := cached s; shutdown := shutdown s |}.

Definition with_states f (s : Sup) : Sup := {|
  children := children s; threads := threads s; states := f (states s); ports := ports s;
  gpu := gpu s; inflight := inflight s; slot_probe_warned := slot_probe_warned s;
  pre_suspend := pre_suspend s; cached := cached s; shutdown := shutdown s |}.

Definition with_inflight f (s : Sup) : Sup := {|
  children := children s; threads := threads s; states := states s; ports := ports s;
  gpu := gpu s; inflight := f (inflight s); slot_probe_warned := slot_probe_warned s;
  pre_suspend := pre_suspend s; cached := cached s; shutdown := shutdown s |}.

Definition with_pre_suspend f (s : Sup) : Sup := {|
  children := children s; threads := threads s; states := states s; ports := ports s;
  gpu := gpu s; inflight := inflight s; slot_probe_warned := slot_probe_warned s;
  pre_suspend := f (pre_suspend s); cached := cached s; shutdown := shutdown s |}.

Definition with_warned f (s : Sup) : Sup := {|
  children := children s; threads := threads s; states := states s; ports := ports s;
  gpu := gpu s; inflight := inflight s; slot_probe_warned := f (slot_probe_warned s);
  pre_suspend := pre_suspend s; cached := cached s; shutdown := shutdown s |}.

Definition with_shutdown f (s : Sup) : Sup := {|
  children := children s; threads := threads s; states := states s; ports := ports s;
  gpu := gpu s; inflight := inflight s; slot_probe_warned := slot_probe_warned s;
  pre_suspend := pre_suspend s; cached := cached s; shutdown := f (shutdown s) |}.

(** The tuple [_rebuild_cache_locked] computes.  Every model with a state has a
    port (part of [sup_ok]), so the lookup of the port never fails. *)
Definition status_view (s : Sup) : list ReplicaStatus :=
  (λ p : model_id * ReplicaState, {|
     rs_model_id := p.1; rs_port := default 0%Z (ports s !! p.1); rs_state := p.2;
     rs_inflight := default 0%Z (inflight s !! p.1); rs_gpu := default false (gpu s !! p.1) |})
    <$> states s.

Definition rebuild_cache (s : Sup) : Sup := {|
  children := children s; threads := threads s; states := states s; ports := ports s;
  gpu := gpu s; inflight := inflight s; slot_probe_warned := slot_probe_warned s;
  pre_suspend := pre_suspend s; cached := status_view s; shutdown := shutdown s |}.

(** ** Locked sections *)

Definition set_state (m : model_id) (st : ReplicaState) (s : Sup) : Sup :=
  if bool_decide (ports s !! m = None) && bool_decide (st = STOPPED) then s
  else
    let s := with_states (od_set m st) s in
    rebuild_cache (if bool_decide (st = STOPPED) then with_inflight <[m := 0%Z]> s else s).

Definition register_child (c : Child) (g : bool) (s : Sup) : Sup :=
  let m := ch_model c in
  set_state m LOADING {|
    children := od_set m c (children s); threads := threads s; states := states s;
    ports := <[m := ch_port c]> (ports s); gpu := <[m := g]> (gpu s);
    inflight := <[m := 0%Z]> (inflight s);
    slot_probe_warned := slot_probe_warned s ∖ {[m]};
    pre_suspend := pre_suspend s; cached := cached s; shutdown := shutdown s |}.

(** The locked part of [stop_replica], with the child it popped. *)
Definition stop_locked (m : model_id) (s : Sup) : Sup * option Child :=
  (set_state m STOPPED (with_pre_suspend (delete m) (with_threads (delete m)
     (with_children (od_pop m) s))),
   od_get m (children s)).

(** [self._children.get(child.model_id) is child and state is READY] *)
Definition is_ready (c : Child) (s : Sup) : bool :=
  bool_decide (ch_id <$> od_get (ch_model c) (children s) = Some (ch_id c)) &&
  bool_decide (od_get (ch_model c) (states s) = Some READY).

Definition mark_ready (m : model_id) (s : Sup) : Sup :=
  if bool_decide (od_get m (states s) = Some LOADING) then set_state m READY s else s.

Definition mark_crashed (c : Child) (s : Sup) : Sup :=
  let m := ch_model c in
  let s := with_pre_suspend (delete m) (with_children (od_pop m) s) in
  if bool_decide (is_Some (od_get m (states s))) then set_state m STOPPED s else s.

(** The result of a slot probe: an invalid count is only logged, once. *)
Definition poll_slots (c : Child) (count : option Z) (s : Sup) : Sup :=
  match count with
  | Some n =>
      if (n <? 0)%Z then
        if is_ready c s then with_warned (λ w, {[ch_model c]} ∪ w) s else s
      else if is_ready c s then rebuild_cache (with_inflight <[ch_model c := n]> s) else s
  | None => if is_ready c s then with_warned (λ w, {[ch_model c]} ∪ w) s else s
  end.

Definition transition_signal (suspend : bool) (m : model_id) (current : ReplicaState) (s : Sup) : Sup :=
  if suspend then
    let s := if bool_decide (current = SUSPENDED) then s else with_pre_suspend <[m := current]> s in
    with_states (od_set m SUSPENDED) s
  else
    with_pre_suspend (delete m)
      (with_states (od_set m (default current (pre_suspend s !! m))) s).

Definition prune (m : model_id) (s : Sup) : Sup :=
  let s := with_warned (λ w, w ∖ {[m]}) (with_pre_suspend (delete m) (with_threads (delete m)
             (with_children (od_pop m) s))) in
  if bool_decide (is_Some (od_get m (states s)))
  then with_inflight <[m := 0%Z]> (with_states (od_set m STOPPED) s) else s.

Definition commit_one (suspend : bool) (vanished : gset model_id) (s : Sup) (c : Child) : Sup :=
  let m := ch_model c in
  if bool_decide (m ∈ vanished) then prune m (with_shutdown (λ e, {[ch_id c]} ∪ e) s)
  else
    match od_get m (states s) with
    | Some current => transition_signal suspend m current s
    | None => s
    end.

Definition commit_signal (suspend : bool) (snapshot : list Child) (vanished : gset model_id) (s : Sup) : Sup :=
  rebuild_cache (fold_left (commit_one suspend vanished) snapshot s).

(** ** Processes and threads *)

Record Proc := { pr_alive : bool; pr_suspended : bool }.

(** A suspend or resume between its snapshot and its commit. *)
Record Signal := {
  sg_suspend : bool; sg_snapshot : list Child; sg_todo : list Child; sg_vanished : gset model_id
}.

(** Where a child's health thread stands: probing; probed healthy, about to
    call [_mark_ready]; watching; having seen the exit, about to call
    [_mark_crashed]; finished. *)
Inductive HealthPhase := Awaiting | Probed | Watching | Crashing | Finished.

#[export] Instance HealthPhase_eq_dec : EqDecision HealthPhase.
Proof. solve_decision. Defined.

Record World := {
  w_sup : Sup;
  w_procs : gmap nat Proc;
  w_signal : option Signal;
  w_health : gmap nat (Child * HealthPhase);
  w_stopping : list Child     (* popped by [stop_replica], not yet terminated *)
}.

Definition empty_world : World := {|
  w_sup := empty_sup; w_procs := ∅; w_signal := None; w_health := ∅; w_stopping := [] |}.

Definition is_alive (procs : gmap nat Proc) (i : nat) : bool :=
  match procs !! i with Some p => pr_alive p | None => false end.

(** One iteration of [_signal_processes]. *)
Definition signal_one (suspend : bool) (st : gmap nat Proc * gset model_id) (c : Child)
    : gmap nat Proc * gset model_id :=
  let '(procs, vanished) := st in
  if negb (ch_tracked c) || negb (is_alive procs (ch_id c)) then (procs, {[ch_model c]} ∪ vanished)
  else (<[ch_id c := {| pr_alive := true; pr_suspended := suspend |}]> procs, vanished).

Inductive WLabel :=
  | StartReplica (c : Child) (g : bool)
  | StopReplica (m : model_id)
  | Terminate (c : Child)
  | ProcExit (i : nat)
  | SignalStart (suspend : bool)
  | SignalNext
  | SignalCommit
  | HealthProbe (i : nat)
  | HealthReady (i : nat)
  | HealthTimeout (i : nat)
  | HealthExit (i : nat)
  | HealthCrashed (i : nat)
  | HealthStop (i : nat)
  | HealthSlots (i : nat) (count : option Z).

Definition set_sup f (w : World) : World := {|
  w_sup := f (w_sup w); w_procs := w_procs w; w_signal := w_signal w; w_health := w_health w;
  w_stopping := w_stopping w |}.

Definition set_procs f (w : World) : World := {|
  w_sup := w_sup w; w_procs := f (w_procs w); w_signal := w_signal w; w_health := w_health w;
  w_stopping := w_stopping w |}.

Definition set_signal o (w : World) : World := {|
  w_sup := w_sup w; w_procs := w_procs w; w_signal := o; w_health := w_health w;
  w_stopping := w_stopping w |}.

Definition set_phase (i : nat) (c : Child) (ph : HealthPhase) (w : World) : World := {|
  w_sup := w_sup w; w_procs := w_procs w; w_signal := w_signal w;
  w_health := <[i := (c, ph)]> (w_health w); w_stopping := w_stopping w |}.

Definition set_stopping f (w : World) : World := {|
  w_sup := w_sup w; w_procs := w_procs w; w_signal := w_signal w; w_health := w_health w;
  w_stopping := f (w_stopping w) |}.

Definition kill (i : nat) : World → World :=
  set_procs (alter (λ p, {| pr_alive := false; pr_suspended := pr_suspended p |}) i).

(** A step of some thread, if it is enabled.  The check of [start_replica] and
    the registration are one step: only the reconcile task starts replicas. *)
Definition wexec (l : WLabel) (w : World) : option World :=
  match l with
  | StartReplica c g =>
      if bool_decide (od_get (ch_model c) (children (w_sup w)) = None) &&
         bool_decide (w_procs w !! ch_id c = None) && bool_decide (w_health w !! ch_id c = None)
      then Some (set_phase (ch_id c) c Awaiting
             (set_procs <[ch_id c := {| pr_alive := true; pr_suspended := false |}]>
               (set_sup (λ s, with_threads <[ch_model c := ch_id c]> (register_child c g s)) w)))
      else None
  | StopReplica m =>
      let '(s, popped) := stop_locked m (w_sup w) in
      Some (set_stopping (λ l, l ++ option_list popped) (set_sup (λ _, s) w))
  | Terminate c =>
      if bool_decide (c.(ch_id) ∈ ch_id <$> w_stopping w)
      then Some (kill (ch_id c) (set_sup (with_shutdown (λ e, {[ch_id c]} ∪ e)) w))
      else None
  | ProcExit i => Some (kill i w)
  | SignalStart b =>
      match w_signal w with
      | None => let cs := (children (w_sup w)).*2 in
          Some (set_signal (Some {| sg_suspend := b; sg_snapshot := cs; sg_todo := cs;
                                    sg_vanished := ∅ |}) w)
      | Some _ => None
      end
  | SignalNext =>
      match w_signal w with
      | Some sg =>
          match sg_todo sg with
          | c :: todo =>
              let '(procs, vanished) := signal_one (sg_suspend sg) (w_procs w, sg_vanished sg) c in
              Some (set_signal (Some {| sg_suspend := sg_suspend sg; sg_snapshot := sg_snapshot sg;
                                        sg_todo := todo; sg_vanished := vanished |})
                     (set_procs (λ _, procs) w))
          | [] => None
          end
      | None => None
      end
  | SignalCommit =>
      match w_signal w with
      | Some sg =>
          match sg_todo sg with
          | [] => Some (set_signal None
                   (set_sup (commit_signal (sg_suspend sg) (sg_snapshot sg) (sg_vanished sg)) w))
          | _ :: _ => None
          end
      | None => None
      end
  | HealthProbe i =>
      match w_health w !! i, w_procs w !! i with
      | Some (c, Awaiting), Some p =>
          if bool_decide (i ∉ shutdown (w_sup w)) && pr_alive p && negb (pr_suspended p)
          then Some (set_phase i c Probed w) else None
      | _, _ => None
      end
  | HealthReady i =>
      match w_health w !! i with
      | Some (c, Probed) => Some (set_phase i c Watching (set_sup (mark_ready (ch_model c)) w))
      | _ => None
      end
  | HealthTimeout i =>
      match w_health w !! i with
      | Some (c, Awaiting) => Some (set_phase i c Crashing (kill i w))
      | _ => None
      end
  | HealthExit i =>
      match w_health w !! i with
      | Some (c, Awaiting) | Some (c, Watching) =>
          if is_alive (w_procs w) i then None else Some (set_phase i c Crashing w)
      | _ => None
      end
  | HealthCrashed i =>
      match w_health w !! i with
      | Some (c, Crashing) => Some (set_phase i c Finished (set_sup (mark_crashed c) w))
      | _ => None
      end
  | HealthStop i =>
      match w_health w !! i with
      | Some (c, Awaiting) | Some (c, Watching) =>
          if bool_decide (i ∈ shutdown (w_sup w)) then Some (set_phase i c Finished w) else None
      | _ => None
      end
  | HealthSlots i n =>
      match w_health w !! i with
      | Some (c, Watching) => Some (set_sup (poll_slots c n) w)
      | _ => None
      end
  end.

(** ** The undisturbed operations *)

(** [_apply_signal] with no other thread in between. *)
Definition apply_signal (suspend : bool) (w : World) : World :=
  let snapshot := (children (w_sup w)).*2 in
  let '(procs, vanished) := fold_left (signal_one suspend) snapshot (w_procs w, ∅) in
  set_sup (commit_signal suspend snapshot vanished) (set_procs (λ _, procs) w).

(** [stop_replica] with no other thread in between. *)
Definition stop_now (m : model_id) (w : World) : World :=
  let '(s, popped) := stop_locked m (w_sup w) in
  let w := set_sup (λ _, s) w in
  match popped with
  | None => w
  | Some c => kill (ch_id c) (set_sup (with_shutdown (λ e, {[ch_id c]} ∪ e)) w)
  end.

(** [start_replica]: [i] is the process id of the new child. *)
Definition start_now (manifest : ModelManifest) (port : Z) (i : nat) (now : Q) (w : World) : World :=
  default w (wexec (StartReplica {| ch_id := i; ch_model := mm_model_id manifest; ch_port := port;
                                    ch_tracked := true; ch_started := now |}
                      (0 <? mm_min_vram_mb manifest)%Z) w).

(** [stop_all] *)
Definition stop_all (w : World) : World :=
  fold_left (λ w m, stop_now m w) (od_keys (children (w_sup w))) w.

Definition wstep (w w' : World) : Prop := ∃ l, wexec l w = Some w'.

Definition wreachable : World → Prop := rtc wstep empty_world.

(** Run a schedule. *)
Fixpoint wrun (ls : list WLabel) (w : World) : option World :=
  match ls with
  | [] => Some w
  | l :: ls => w' ← wexec l w; wrun ls w'
  end.
