(* ===== verification/Preempt.v ===== *)
(** * Preemption

    Models src/packages/fallow-agent/src/fallow_agent/preempt/: controller.py
    ([PreemptController]), reclaim.py ([ReclaimController]) and poll_loop.py
    ([PollLoop._safe_poll]), and main/reconcile.py ([ReconcileLoop]).  The
    supervisor they drive is any implementation of the [ProcessSupervisor]
    interface of fallow_protocol/interfaces.py.  Side effects are recorded in
    the order the code performs them; times are exact seconds. *)

From S2P Require Export Protocol.

(** ** The supervisor interface *)

Class ProcessSupervisor (W : Type) := {
  suspend_all : W → W;
  resume_all : W → W;
  stop_replica : model_id → W → W;
  statuses : W → list ReplicaStatus
}.

(** What preemption relies on: suspending leaves no replica running, and
    stopping one does not start another. *)
Class ProcessSupervisorLaws (W : Type) `{ProcessSupervisor W} := {
  ps_inv : W → Prop;
  ps_running : W → Prop;
  suspend_inv w : ps_inv w → ps_inv (suspend_all w);
  resume_inv w : ps_inv w → ps_inv (resume_all w);
  stop_inv m w : ps_inv w → ps_inv (stop_replica m w);
  suspend_quiet w : ps_inv w → ~ ps_running (suspend_all w);
  stop_quiet m w : ps_inv w → ~ ps_running w → ~ ps_running (stop_replica m w)
}.

(** ** The controller *)

(** A call the agent makes on its environment, in order. *)
Inductive Action :=
  | SuspendAll
  | ResumeAll
  | Stop (m : model_id)
  | Emit (k : EventKind).

#[export] Instance Action_eq_dec : EqDecision Action.
Proof. solve_decision. Defined.

Definition MS_PER_S : Q := 1000.

Record Controller := {
  pc_state : AgentState;
  pc_prev_idle_s : option Q;
  pc_active_since : option Q;
  pc_escalated : bool
}.

Definition controller_start : Controller := {|
  pc_state := IDLE; pc_prev_idle_s := None; pc_active_since := None; pc_escalated := false |}.

Section Controller.
  Context `{ProcessSupervisor W} (config : AgentConfig).

Definition poll_interval_s : Q := (inject_Z (ac_poll_interval_ms config) / MS_PER_S)%Q.

(** The state threaded through a poll: controller, supervisor, calls made. *)
Definition Agent : Type := Controller * W * list Action.

Definition is_fresh_input (pc : Controller) (idle_s : Q) : bool :=
  (idle_s <?q poll_interval_s) ||
  match pc_prev_idle_s pc with Some prev => idle_s <?q prev | None => false end.

Definition enter_active (now : Q) (a : Agent) : Agent :=
  let '(pc, w, log) := a in
  let w := suspend_all w in
  ({| pc_state := ACTIVE; pc_prev_idle_s := pc_prev_idle_s pc; pc_active_since := Some now;
      pc_escalated := false |}, w, log ++ [SuspendAll; Emit USER_RETURNED]).

Definition enter_idle (a : Agent) : Agent :=
  let '(pc, w, log) := a in
  ({| pc_state := IDLE; pc_prev_idle_s := pc_prev_idle_s pc; pc_active_since := None;
      pc_escalated := false |}, resume_all w, log ++ [ResumeAll; Emit USER_IDLE]).

(** The loop over a snapshot of the statuses. *)
Definition escalate_one (a : W * list Action) (st : ReplicaStatus) : W * list Action :=
  if bool_decide (rs_state st = SUSPENDED) && rs_gpu st
  then (stop_replica (rs_model_id st) a.1, a.2 ++ [Stop (rs_model_id st)]) else a.

Definition maybe_escalate (now : Q) (a : Agent) : Agent :=
  let '(pc, w, log) := a in
  if pc_escalated pc then a
  else
    match pc_active_since pc with
    | None => a
    | Some since =>
        if (now - since)%Q <?q ac_vram_evict_after_s config then a
        else
          let '(w, log) := fold_left escalate_one (statuses w) (w, log) in
          ({| pc_state := pc_state pc; pc_prev_idle_s := pc_prev_idle_s pc;
              pc_active_since := Some since; pc_escalated := true |}, w, log)
    end.

Definition with_prev (idle_s : Q) (a : Agent) : Agent :=
  let '(pc, w, log) := a in
  ({| pc_state := pc_state pc; pc_prev_idle_s := Some idle_s;
      pc_active_since := pc_active_since pc; pc_escalated := pc_escalated pc |}, w, log).

Definition on_poll (idle_s now : Q) (a : Agent) : Agent :=
  match pc_state a.1.1 with
  | DRAINING => a
  | IDLE =>
      with_prev idle_s (if is_fresh_input a.1.1 idle_s then enter_active now a else a)
  | ACTIVE =>
      with_prev idle_s
        (if ac_idle_threshold_s config <=?q idle_s then enter_idle a else maybe_escalate now a)
  end.

Definition drain (a : Agent) : Agent :=
  let '(pc, w, log) := a in
  match pc_state pc with
  | DRAINING => a
  | _ => ({| pc_state := DRAINING; pc_prev_idle_s := pc_prev_idle_s pc;
             pc_active_since := pc_active_since pc; pc_escalated := pc_escalated pc |},
          w, log ++ [Emit AGENT_STOPPING])
  end.

(** ** Reclaim *)

(** [ReclaimController.on_poll]: the flag file is the user's wish.  The result
    says whether the machine is reclaimed; entering hands [stop_all_replicas]
    to a background thread, here the list of models it will stop. *)
Definition reclaim_on_poll (wants : bool) (reclaimed : bool) (w : W) (log : list Action)
    : bool * W * list Action * list model_id :=
  if wants && negb reclaimed then
    let w := suspend_all w in
    (true, w, log ++ [SuspendAll], rs_model_id <$> statuses w)
  else if negb wants && reclaimed then (false, w, log, [])
  else (reclaimed, w, log, []).

(** The whole agent side: controller, reclaim flag, replicas being stopped in
    the background. *)
Record AgentWorld := {
  aw_agent : Agent;
  aw_reclaimed : bool;
  aw_background : list model_id
}.

(** [PollLoop._safe_poll]: the reading of the detector is only used when the
    machine is not reclaimed; a failing detector skips the controller. *)
Definition safe_poll (wants : bool) (reading : option Q) (now : Q) (aw : AgentWorld) : AgentWorld :=
  let '(pc, w, log) := aw_agent aw in
  let '(reclaimed, w, log, stops) := reclaim_on_poll wants (aw_reclaimed aw) w log in
  let bg := aw_background aw ++ stops in
  if reclaimed then {| aw_agent := (pc, w, log); aw_reclaimed := reclaimed; aw_background := bg |}
  else
    match reading with
    | None => {| aw_agent := (pc, w, log); aw_reclaimed := reclaimed; aw_background := bg |}
    | Some idle_s =>
        {| aw_agent := on_poll idle_s now (pc, w, log); aw_reclaimed := reclaimed; aw_background := bg |}
    end.

(** One [stop_replica] of the background thread. *)
Definition background_stop (aw : AgentWorld) : AgentWorld :=
  match aw_background aw with
  | [] => aw
  | m :: rest =>
      let '(pc, w, log) := aw_agent aw in
      {| aw_agent := (pc, stop_replica m w, log ++ [Stop m]); aw_reclaimed := aw_reclaimed aw;
         aw_background := rest |}
  end.

(** ** Reconcile *)

Definition is_live (s : ReplicaState) : bool :=
  match s with LOADING | READY | SUSPENDED => true | STOPPED => false end.

(** What a pass decides before its first [await]: [None] when it defers,
    otherwise the models to start and to stop. *)
Definition reconcile_plan (desired : list model_id) (aw : AgentWorld)
    : option (list model_id * list model_id) :=
  let '(pc, w, _) := aw_agent aw in
  if aw_reclaimed aw then None
  else if bool_decide (pc_state pc = IDLE) then
    let live := rs_model_id <$> filter (λ s, is_live (rs_state s) = true) (statuses w) in
    Some (filter (λ m, m ∉ live) (remove_dups desired), filter (λ m, m ∉ desired) (remove_dups live))
  else None.
End Controller.

Arguments Agent : clear implicits.
Arguments AgentWorld : clear implicits.
