(* ===== verification/SupervisorSpec.v ===== *)
(** * What the supervisor guarantees, and where it does not

    An invariant of every interleaving; the behaviour of an undisturbed
    suspend/resume; and three schedules in which a locked section acts on a
    replica that is no longer the one it looked at. *)

From S2P Require Export Supervisor Preempt.

(** ** The invariant *)

Record dicts_ok (s : Sup) : Prop := {
  ok_states_wf : od_wf (states s);
  ok_children_wf : od_wf (children s);
  ok_children m c : od_get m (children s) = Some c → ch_model c = m ∧ m ∈ (states s).*1;
  ok_ports m : m ∈ (states s).*1 → is_Some (ports s !! m);
  ok_pre m st : pre_suspend s !! m = Some st → st ≠ SUSPENDED ∧ m ∈ (states s).*1
}.

(** The dictionaries agree and the cached tuple is the current view. *)
Definition sup_ok (s : Sup) : Prop := dicts_ok s ∧ cached s = status_view s.

Lemma rebuild_ok s : dicts_ok s → sup_ok (rebuild_cache s).
Proof. by intros [? ? ? ? ?]; split; [split |]. Qed.

Lemma elem_of_od_set {A} (m : odict A) k x k' : k' ∈ (od_set k x m).*1 ↔ k' = k ∨ k' ∈ m.*1.
Proof.
  rewrite od_set_keys. destruct (decide (k ∈ m.*1)) as [Hin | Hnin].
  - rewrite bool_decide_eq_true_2 by done. set_solver.
  - rewrite bool_decide_eq_false_2 by done. set_solver.
Qed.

(** Removing a child and its suspend memory. *)
Lemma dicts_ok_pop m s :
  dicts_ok s → dicts_ok (with_pre_suspend (delete m) (with_children (od_pop m) s)).
Proof.
  intros [H1 H2 H3 H4 H5]. split; cbn; [done | by apply od_pop_wf | | done |].
  - intros m' c. rewrite od_get_pop. destruct (bool_decide _); [done | eauto].
  - intros m' st [_ ?]%lookup_delete_Some. eauto.
Qed.

Lemma dicts_ok_same s s' :
  states s' = states s → children s' = children s → ports s' = ports s → pre_suspend s' = pre_suspend s →
  dicts_ok s → dicts_ok s'.
Proof. intros E1 E2 E3 E4 [H1 H2 H3 H4 H5]. split; rewrite ?E1, ?E2, ?E3, ?E4; auto. Qed.

(** Setting a state of a model that has a port. *)
Lemma dicts_ok_state m st s :
  is_Some (ports s !! m) → dicts_ok s → dicts_ok (with_states (od_set m st) s).
Proof.
  intros Hp [H1 H2 H3 H4 H5]. split; cbn; [by apply od_set_wf | done | | |].
  - intros m' c Hc. apply H3 in Hc as [? ?]. split; [done |]. apply elem_of_od_set. by right.
  - intros m' [-> | ?]%elem_of_od_set; auto.
  - intros m' st' Hs. apply H5 in Hs as [? ?]. split; [done |]. apply elem_of_od_set. by right.
Qed.

Lemma dicts_ok_inflight f s : dicts_ok s → dicts_ok (with_inflight f s).
Proof. by apply dicts_ok_same. Qed.

Lemma set_state_known m st s : is_Some (ports s !! m) → dicts_ok s → sup_ok (set_state m st s).
Proof.
  intros Hp Hs. unfold set_state. rewrite bool_decide_eq_false_2 by (by destruct Hp as [? ->]). cbn.
  apply rebuild_ok. assert (dicts_ok (with_states (od_set m st) s)) by (by apply dicts_ok_state).
  destruct (bool_decide (st = STOPPED)); [by apply dicts_ok_inflight | done].
Qed.

Lemma set_state_stopped m s :
  dicts_ok s → cached s = status_view s → sup_ok (set_state m STOPPED s).
Proof.
  intros Hs Hc. destruct (ports s !! m) as [p |] eqn:Hp; [apply set_state_known; [by eexists | done] |].
  unfold set_state. by rewrite !bool_decide_eq_true_2.
Qed.

Lemma register_child_ok c g s : sup_ok s → od_get (ch_model c) (children s) = None → sup_ok (register_child c g s).
Proof.
  intros [[H1 H2 H3 H4 H5] Hc] Hnone. unfold register_child, set_state. cbn.
  rewrite lookup_insert_eq. rewrite bool_decide_eq_false_2 by done. cbn.
  rewrite (bool_decide_eq_false_2 (LOADING = STOPPED)) by done. apply rebuild_ok.
  split; cbn; [by apply od_set_wf | by apply od_set_wf | | |].
  - intros m c'. rewrite od_get_set, elem_of_od_set. destruct (bool_decide (m = ch_model c)) eqn:Hm; reflect_bools.
    + intros [= <-]. auto.
    + intros [? ?]%H3. auto.
  - intros m [-> | Hin]%elem_of_od_set; [rewrite lookup_insert_eq; by eexists |].
    apply lookup_insert_is_Some'. auto.
  - intros m st [? ?]%H5. rewrite elem_of_od_set. auto.
Qed.

Lemma stop_locked_ok m s : sup_ok s → sup_ok (stop_locked m s).1.
Proof.
  intros [Hs Hc]. unfold stop_locked. cbn. apply set_state_stopped; [| done].
  apply (dicts_ok_same (with_pre_suspend (delete m) (with_children (od_pop m) s))); try done.
  by apply dicts_ok_pop.
Qed.

Lemma mark_ready_ok m s : sup_ok s → sup_ok (mark_ready m s).
Proof.
  intros [Hs Hc]. unfold mark_ready. destruct (bool_decide _) eqn:Hb; [| done]. reflect_bools.
  apply set_state_known; [| done]. apply (ok_ports _ Hs), od_get_is_Some. by rewrite Hb.
Qed.

Lemma mark_crashed_ok c s : sup_ok s → sup_ok (mark_crashed c s).
Proof.
  intros [Hs Hc]. unfold mark_crashed. apply (dicts_ok_pop (ch_model c)) in Hs.
  destruct (bool_decide _); [by apply set_state_stopped | done].
Qed.

Lemma poll_slots_ok c n s : sup_ok s → sup_ok (poll_slots c n s).
Proof.
  intros [Hs Hc]. unfold poll_slots. destruct n as [n |]; [destruct (n <? 0)%Z |]; destruct (is_ready c s); try done.
  all: first [by apply rebuild_ok, dicts_ok_inflight | split; [by apply (dicts_ok_same s) | done]].
Qed.

Lemma commit_one_ok b vanished s c : dicts_ok s → dicts_ok (commit_one b vanished s c).
Proof.
  intros Hs. unfold commit_one. destruct (bool_decide _).
  - unfold prune.
    assert (Hp : dicts_ok (with_warned (λ w, w ∖ {[ch_model c]}) (with_pre_suspend (delete (ch_model c))
      (with_threads (delete (ch_model c)) (with_children (od_pop (ch_model c))
        (with_shutdown (λ e, {[ch_id c]} ∪ e) s)))))).
    { apply (dicts_ok_same (with_pre_suspend (delete (ch_model c)) (with_children (od_pop (ch_model c)) s)));
        try done. by apply dicts_ok_pop. }
    destruct (bool_decide _) eqn:Hb; [| done]. reflect_bools. apply dicts_ok_inflight, dicts_ok_state; [| done].
    apply (ok_ports _ Hp), od_get_is_Some. done.
  - destruct (od_get (ch_model c) (states s)) as [cur |] eqn:Hcur; [| done].
    assert (Hin : ch_model c ∈ (states s).*1) by (apply od_get_is_Some; by eexists).
    pose proof (ok_ports _ Hs _ Hin) as Hp. unfold transition_signal. destruct b.
    + destruct (decide (cur = SUSPENDED)) as [-> | Hne].
      { rewrite bool_decide_eq_true_2 by done. by apply dicts_ok_state. }
      rewrite bool_decide_eq_false_2 by done. apply dicts_ok_state; [done |].
      destruct Hs as [H1 H2 H3 H4 H5]. split; cbn; try done.
      intros m st. rewrite lookup_insert_Some. intros [[<- <-] | [_ ?]]; auto.
    + apply (dicts_ok_state (ch_model c) (default cur (pre_suspend s !! ch_model c))) in Hs; [| done].
      destruct Hs as [H1 H2 H3 H4 H5]. split; cbn; try done. intros m st [_ ?]%lookup_delete_Some. auto.
Qed.

Lemma commit_signal_ok b cs vanished s : dicts_ok s → sup_ok (commit_signal b cs vanished s).
Proof.
  intros Hs. apply rebuild_ok. revert s Hs. induction cs as [| c cs IH]; intros s Hs; [done |].
  by apply IH, commit_one_ok.
Qed.

Lemma wexec_ok l w w' : sup_ok (w_sup w) → wexec l w = Some w' → sup_ok (w_sup w').
Proof.
  intros Hs. destruct l; cbn.
  - destruct (_ && _ && _) eqn:Hb; [| done]. intros [= <-]. reflect_bools. cbn.
    apply (register_child_ok c g) in Hs as [Hd Hc]; [| done].
    split; [by apply (dicts_ok_same (register_child c g (w_sup w))) | done].
  - intros [= <-]. cbn. by apply stop_locked_ok.
  - destruct (bool_decide _); [| done]. intros [= <-]. cbn. destruct Hs as [Hd Hc].
    split; [by apply (dicts_ok_same (w_sup w)) | done].
  - by intros [= <-].
  - destruct (w_signal w); [done |]. by intros [= <-].
  - destruct (w_signal w) as [sg |]; [| done]. destruct (sg_todo sg); [done |].
    destruct (negb _ || negb _); by intros [= <-].
  - destruct (w_signal w) as [sg |]; [| done]. destruct (sg_todo sg); [| done].
    intros [= <-]. cbn. by apply commit_signal_ok, Hs.
  - destruct (w_health w !! i) as [[c []] |]; try done. destruct (w_procs w !! i); [| done].
    destruct (_ && _ && _); [| done]. by intros [= <-].
  - destruct (w_health w !! i) as [[c []] |]; try done. intros [= <-]. cbn. by apply mark_ready_ok.
  - destruct (w_health w !! i) as [[c []] |]; try done. by intros [= <-].
  - destruct (w_health w !! i) as [[c []] |]; try done; destruct (is_alive (w_procs w) i); try done; by intros [= <-].
  - destruct (w_health w !! i) as [[c []] |]; try done. intros [= <-]. cbn. by apply mark_crashed_ok.
  - destruct (w_health w !! i) as [[c []] |]; try done; destruct (bool_decide _); try done; by intros [= <-].
  - destruct (w_health w !! i) as [[c []] |]; try done. intros [= <-]. cbn. by apply poll_slots_ok.
Qed.

Lemma empty_sup_ok : sup_ok empty_sup.
Proof.
  split; [split |]; cbn; try apply NoDup_nil_2; try done; intros; set_solver.
Qed.

Lemma wrun_reachable ls w : wrun ls empty_world = Some w → wreachable w.
Proof.
  enough (∀ w0, wrun ls w0 = Some w → rtc wstep w0 w) as H by apply H.
  induction ls as [| l ls IH]; intros w0; cbn; [by intros [= <-] |].
  destruct (wexec l w0) as [w1 |] eqn:Hl; [| done]. cbn. intros Hr. eapply rtc_l; [by exists l | by apply IH].
Qed.

Lemma wreachable_ok w : wreachable w → sup_ok (w_sup w).
Proof.
  intros Hr. apply (rtc_ind_r (R := wstep) (λ w, sup_ok (w_sup w)) empty_world); [apply empty_sup_ok | | done].
  intros w1 w2 _ [l Hl] Hok. by eapply wexec_ok.
Qed.

(** In every interleaving of the poll thread, the health threads, the
    reconcile task and process exits, the supervisor's dictionaries stay
    consistent (every child and every remembered suspend has a state, every
    state has a port, so rebuilding the cache never fails) and the tuple
    [statuses()] returns is the current view of them. *)
Theorem supervisor_consistent w : wreachable w → sup_ok (w_sup w).
Proof. apply wreachable_ok. Qed.

(** ** Schedules *)

Definition demo_child (i : nat) (m : model_id) : Child := {|
  ch_id := i; ch_model := m; ch_port := 8080; ch_tracked := true; ch_started := 0 |}.

Definition demo_world (ls : list WLabel) : World := default empty_world (wrun ls empty_world).

(** Start and become ready. *)
Definition boot (i : nat) (m : model_id) : list WLabel :=
  [StartReplica (demo_child i m) true; HealthProbe i; HealthReady i].

Definition full_signal (b : bool) (n : nat) : list WLabel :=
  SignalStart b :: replicate n SignalNext ++ [SignalCommit].

Lemma supervisor_consistent_witness :
  sup_ok (w_sup (demo_world (boot 0 "m" ++ full_signal true 1))) ∧
  cached (w_sup (demo_world (boot 0 "m" ++ full_signal true 1))) =
    [{| rs_model_id := "m"; rs_port := 8080; rs_state := SUSPENDED; rs_inflight := 0; rs_gpu := true |}].
Proof.
  split; [| vm_compute; reflexivity].
  apply supervisor_consistent, (wrun_reachable (boot 0 "m" ++ full_signal true 1)). vm_compute. reflexivity.
Defined.

(** ** The interface holds *)

Lemma prune_children m s : children (prune m s) = od_pop m (children s).
Proof. unfold prune. by destruct (bool_decide _). Qed.

Lemma commit_one_children b vanished s c m c' :
  od_get m (children (commit_one b vanished s c)) = Some c' →
  od_get m (children s) = Some c' ∧ (ch_model c ∈ vanished → m ≠ ch_model c).
Proof.
  unfold commit_one. destruct (decide (ch_model c ∈ vanished)) as [Hin | Hnin].
  - rewrite bool_decide_eq_true_2 by done. rewrite prune_children.
    cbn [children with_shutdown]. rewrite od_get_pop.
    destruct (bool_decide (m = ch_model c)) eqn:Hm; [done |]. by reflect_bools.
  - rewrite bool_decide_eq_false_2 by done. destruct (od_get (ch_model c) (states s)) as [cur |]; [| done].
    unfold transition_signal. destruct b; [destruct (bool_decide _) |]; done.
Qed.

Lemma commit_children b cs vanished s m c' :
  od_get m (children (commit_signal b cs vanished s)) = Some c' →
  od_get m (children s) = Some c' ∧ ∀ c, c ∈ cs → ch_model c ∈ vanished → m ≠ ch_model c.
Proof.
  unfold commit_signal. cbn. revert s; induction cs as [| c cs IH]; intros s; cbn; [set_solver |].
  intros [[H1 H2]%commit_one_children H3]%IH. split; [done |]. intros c0 [-> | ?]%elem_of_cons; auto.
Qed.

(** After the signals every child is stopped or known to have vanished. *)
Definition quieted (procs : gmap nat Proc) (vanished : gset model_id) (c : Child) : Prop :=
  ch_model c ∈ vanished ∨ ∃ p, procs !! ch_id c = Some p ∧ pr_suspended p = true.

Lemma signal_one_quieted st c c' :
  (quieted st.1 st.2 c' ∨ c' = c) → quieted (signal_one true st c).1 (signal_one true st c).2 c'.
Proof.
  destruct st as [procs v]. unfold quieted, signal_one. cbn. intros [[Hv | (p & Hp & Hs)] | ->].
  - left. destruct (_ || _); cbn; set_solver.
  - destruct (_ || _); cbn; [eauto |]. right. destruct (decide (ch_id c = ch_id c')) as [<- |].
    + rewrite lookup_insert_eq. eauto.
    + rewrite lookup_insert_ne by done. eauto.
  - destruct (_ || _); cbn; [set_solver |]. right. rewrite lookup_insert_eq. eauto.
Qed.

Lemma signal_all_quieted cs st c :
  (quieted st.1 st.2 c ∨ c ∈ cs) →
  quieted (fold_left (signal_one true) cs st).1 (fold_left (signal_one true) cs st).2 c.
Proof.
  revert st; induction cs as [| c0 cs IH]; intros st Hc; cbn [fold_left]; [by destruct Hc as [? | ?%elem_of_nil] |].
  apply IH. destruct Hc as [? | [-> | ?]%elem_of_cons]; [left | left | by right]; apply signal_one_quieted; auto.
Qed.

(** Some registered child's process is running. *)
Definition running (w : World) : Prop :=
  ∃ m c p, od_get m (children (w_sup w)) = Some c ∧ w_procs w !! ch_id c = Some p ∧
           pr_alive p = true ∧ pr_suspended p = false.

Lemma apply_signal_ok b w : sup_ok (w_sup w) → sup_ok (w_sup (apply_signal b w)).
Proof.
  intros [Hs _]. unfold apply_signal. destruct (fold_left _ _ _) as [procs v]. cbn. by apply commit_signal_ok.
Qed.

Lemma suspend_all_quiet w : sup_ok (w_sup w) → ~ running (apply_signal true w).
Proof.
  intros [Hs _] (m & c & p & Hc & Hp & Ha & Hsus). unfold apply_signal in *.
  destruct (fold_left (signal_one true) (children (w_sup w)).*2 (w_procs w, ∅)) as [procs v] eqn:Hf. cbn in *.
  apply commit_children in Hc as [Hc Hnv]. pose proof (ok_children _ Hs _ _ Hc) as [Hm _].
  assert (Hin : c ∈ (children (w_sup w)).*2).
  { apply od_get_elem in Hc. by apply (list_elem_of_fmap_2 snd) in Hc. }
  pose proof (signal_all_quieted _ (w_procs w, ∅) c (or_intror Hin)) as Hq. rewrite Hf in Hq. cbn in Hq.
  destruct Hq as [Hv | (p' & Hp' & Hsus')]; [by apply (Hnv c Hin Hv) | congruence].
Qed.

Lemma stop_now_ok m w : sup_ok (w_sup w) → sup_ok (w_sup (stop_now m w)).
Proof.
  intros Hs. pose proof (stop_locked_ok m _ Hs) as [Hd Hc]. unfold stop_now.
  destruct (stop_locked m (w_sup w)) as [s [c |]]; cbn in *; [| done].
  split; [by apply (dicts_ok_same s) | done].
Qed.

Lemma set_state_children m st s : children (set_state m st s) = children s.
Proof. unfold set_state. destruct (_ && _); [done |]. by destruct (bool_decide _). Qed.

Lemma stop_now_quiet m w : ~ running w → ~ running (stop_now m w).
Proof.
  intros Hn (m' & c' & p & Hc & Hp & Ha & Hs). apply Hn. unfold stop_now, stop_locked in *.
  assert (Hkeep : od_get m' (children (w_sup w)) = Some c').
  { assert (od_get m' (od_pop m (children (w_sup w))) = Some c') as H.
    { destruct (od_get m (children (w_sup w))); cbn [w_sup set_sup kill set_procs children with_shutdown] in Hc; by rewrite set_state_children in Hc. }
    rewrite od_get_pop in H. by destruct (bool_decide _). }
  destruct (od_get m (children (w_sup w))) as [c |]; cbn in Hp; [| by exists m', c', p].
  apply lookup_alter_Some in Hp as [(_ & p0 & _ & ->) | [_ Hp]]; [done |]. by exists m', c', p.
Qed.

(** [ChildProcessSupervisor] as the agent's supervisor. *)
#[export] Instance World_supervisor : ProcessSupervisor World := {|
  suspend_all := apply_signal true; resume_all := apply_signal false;
  Preempt.stop_replica := stop_now; Preempt.statuses := λ w, cached (w_sup w) |}.

#[export] Instance World_supervisor_laws : ProcessSupervisorLaws World := {|
  ps_inv := λ w, sup_ok (w_sup w); ps_running := running;
  suspend_inv := apply_signal_ok true; resume_inv := apply_signal_ok false; stop_inv := stop_now_ok;
  suspend_quiet := suspend_all_quiet; stop_quiet := λ m w _, stop_now_quiet m w |}.

(** ** Suspend and resume, undisturbed *)

(** Two well-formed dictionaries with the same keys and values are equal. *)
Lemma od_ext {A} (m m' : odict A) :
  m.*1 = m'.*1 → od_wf m → (∀ k, od_get k m = od_get k m') → m = m'.
Proof.
  revert m'; induction m as [| [k x] m IH]; intros [| [k' x'] m'] Hk Hwf Hget; try done.
  cbn in Hk. injection Hk as <- Hk. unfold od_wf in Hwf. cbn in Hwf. apply NoDup_cons in Hwf as [Hnin Hwf].
  pose proof (Hget k) as Hx. cbn in Hx. rewrite !bool_decide_eq_true_2 in Hx by done. injection Hx as <-.
  f_equal. apply IH; [done | done |]. intros k0. specialize (Hget k0). cbn in Hget.
  destruct (decide (k0 = k)) as [-> | Hne]; [| by rewrite !bool_decide_eq_false_2 in Hget by done].
  assert (od_get k m = None) as -> by (by apply od_get_None).
  symmetry. apply od_get_None. by rewrite <- Hk.
Qed.

Definition models (cs : list Child) : list model_id := ch_model <$> cs.

(** The commit of a signal every process received. *)
Definition commit_none (b : bool) (cs : list Child) (s : Sup) : Sup := fold_left (commit_one b ∅) cs s.

Lemma commit_one_none b s c cur :
  od_get (ch_model c) (states s) = Some cur → commit_one b ∅ s c = transition_signal b (ch_model c) cur s.
Proof. intros Hc. unfold commit_one. rewrite bool_decide_eq_false_2 by set_solver. by rewrite Hc. Qed.

Lemma transition_keys b m cur s :
  m ∈ (states s).*1 → (states (transition_signal b m cur s)).*1 = (states s).*1.
Proof.
  intros Hm. unfold transition_signal.
  destruct b; [destruct (bool_decide _) |]; cbn; rewrite od_set_keys; by rewrite bool_decide_eq_true_2.
Qed.

Lemma suspend_commit cs s :
  NoDup (models cs) → (∀ c, c ∈ cs → ∃ cur, od_get (ch_model c) (states s) = Some cur ∧ cur ≠ SUSPENDED) →
  let s' := commit_none true cs s in
  (states s').*1 = (states s).*1 ∧
  (∀ m, od_get m (states s') = if bool_decide (m ∈ models cs) then Some SUSPENDED else od_get m (states s)) ∧
  (∀ m, pre_suspend s' !! m = if bool_decide (m ∈ models cs) then od_get m (states s) else pre_suspend s !! m).
Proof.
  revert s; induction cs as [| c cs IH]; intros s Hnd Hcs; [done |].
  cbn in Hnd. apply NoDup_cons in Hnd as [Hnin Hnd]. destruct (Hcs c) as (cur & Hcur & Hne); [set_solver |].
  unfold commit_none. cbn [fold_left]. rewrite (commit_one_none _ _ _ _ Hcur).
  set (s1 := transition_signal true (ch_model c) cur s).
  assert (Hst : ∀ m, od_get m (states s1) = if bool_decide (m = ch_model c) then Some SUSPENDED else od_get m (states s)).
  { intros m. unfold s1, transition_signal. rewrite bool_decide_eq_false_2 by done. cbn. apply od_get_set. }
  assert (Hpre : ∀ m, pre_suspend s1 !! m = if bool_decide (m = ch_model c) then Some cur else pre_suspend s !! m).
  { intros m. unfold s1, transition_signal. rewrite bool_decide_eq_false_2 by done. cbn.
    destruct (bool_decide (m = ch_model c)) eqn:Hm; reflect_bools; [subst; apply lookup_insert_eq |].
    by rewrite lookup_insert_ne. }
  destruct (IH s1 Hnd) as (Hk & Hs & Hp).
  { intros c' Hc'. destruct (Hcs c') as (cur' & Hcur' & ?); [set_solver |]. exists cur'.
    rewrite Hst, bool_decide_eq_false_2; [done |]. intros Heq. apply Hnin. rewrite <- Heq.
    by apply list_elem_of_fmap_2. }
  split_and!.
  - unfold commit_none in Hk. rewrite Hk. apply transition_keys, od_get_is_Some. by eexists.
  - intros m. unfold commit_none in Hs. rewrite Hs, Hst. change (models (c :: cs)) with (ch_model c :: models cs).
    rewrite bool_decide_elem_cons. by destruct (bool_decide (m = _)), (bool_decide (m ∈ _)).
  - intros m. unfold commit_none in Hp. rewrite Hp, Hst, Hpre. change (models (c :: cs)) with (ch_model c :: models cs).
    rewrite bool_decide_elem_cons. destruct (bool_decide (m = ch_model c)) eqn:Hm, (bool_decide (m ∈ models cs)) eqn:Hmc;
      cbn; try done; reflect_bools; subst; done.
Qed.

Lemma resume_commit cs s :
  NoDup (models cs) → (∀ c, c ∈ cs → ch_model c ∈ (states s).*1) →
  let s' := commit_none false cs s in
  (states s').*1 = (states s).*1 ∧
  (∀ m, od_get m (states s') = if bool_decide (m ∈ models cs)
        then (λ cur, default cur (pre_suspend s !! m)) <$> od_get m (states s) else od_get m (states s)) ∧
  (∀ m, pre_suspend s' !! m = if bool_decide (m ∈ models cs) then None else pre_suspend s !! m).
Proof.
  revert s; induction cs as [| c cs IH]; intros s Hnd Hcs; [done |].
  cbn in Hnd. apply NoDup_cons in Hnd as [Hnin Hnd].
  assert (Hin : ch_model c ∈ (states s).*1) by (apply Hcs; set_solver).
  destruct (od_get (ch_model c) (states s)) as [cur |] eqn:Hcur; [| by apply od_get_None in Hcur].
  unfold commit_none. cbn [fold_left]. rewrite (commit_one_none _ _ _ _ Hcur).
  set (s1 := transition_signal false (ch_model c) cur s).
  assert (Hst : ∀ m, od_get m (states s1) = if bool_decide (m = ch_model c)
    then Some (default cur (pre_suspend s !! ch_model c)) else od_get m (states s)).
  { intros m. unfold s1, transition_signal. cbn. apply od_get_set. }
  assert (Hpre : ∀ m, pre_suspend s1 !! m = if bool_decide (m = ch_model c) then None else pre_suspend s !! m).
  { intros m. unfold s1, transition_signal. cbn.
    destruct (bool_decide (m = ch_model c)) eqn:Hm; reflect_bools; [subst; apply lookup_delete_eq |].
    by rewrite lookup_delete_ne. }
  assert (Hk1 : (states s1).*1 = (states s).*1) by (by apply transition_keys).
  destruct (IH s1 Hnd) as (Hk & Hs & Hp); [intros; rewrite Hk1; apply Hcs; set_solver |].
  split_and!.
  - unfold commit_none in Hk. by rewrite Hk.
  - intros m. unfold commit_none in Hs. rewrite Hs, Hst, Hpre. change (models (c :: cs)) with (ch_model c :: models cs).
    rewrite bool_decide_elem_cons. destruct (bool_decide (m = ch_model c)) eqn:Hm, (bool_decide (m ∈ models cs)) eqn:Hmc;
      cbn; try done; reflect_bools; subst; rewrite ?Hcur; done.
  - intros m. unfold commit_none in Hp. rewrite Hp, Hpre. change (models (c :: cs)) with (ch_model c :: models cs).
    rewrite bool_decide_elem_cons. by destruct (bool_decide (m = _)), (bool_decide (m ∈ _)).
Qed.

(** Every child is tracked and alive. *)
Definition all_alive (w : World) : Prop :=
  ∀ m c, od_get m (children (w_sup w)) = Some c →
    ch_tracked c = true ∧ is_alive (w_procs w) (ch_id c) = true.

Lemma signal_all_alive b cs procs :
  (∀ c, c ∈ cs → ch_tracked c = true ∧ is_alive procs (ch_id c) = true) →
  ∃ procs', fold_left (signal_one b) cs (procs, ∅) = (procs', ∅) ∧
    (∀ i, is_alive procs' i = is_alive procs i) ∧
    (∀ c, c ∈ cs → procs' !! ch_id c = Some {| pr_alive := true; pr_suspended := b |}).
Proof.
  revert procs; induction cs as [| c cs IH]; intros procs Hcs; [exists procs; split_and!; [done | done | set_solver] |].
  destruct (Hcs c) as [Ht Ha]; [set_solver |]. cbn [fold_left]. unfold signal_one at 2. rewrite Ht, Ha. cbn [negb orb].
  set (procs1 := <[ch_id c := {| pr_alive := true; pr_suspended := b |}]> procs).
  assert (Hal : ∀ i, is_alive procs1 i = is_alive procs i).
  { intros i. unfold is_alive, procs1 in *. destruct (decide (ch_id c = i)) as [<- |].
    - rewrite lookup_insert_eq. done.
    - by rewrite lookup_insert_ne. }
  destruct (IH procs1) as (procs' & Hf & Hal' & Hall).
  { intros c' Hc'. rewrite Hal. apply Hcs. set_solver. }
  exists procs'. split_and!; [done | intros i; by rewrite Hal', Hal |].
  intros c' [-> | Hc']%elem_of_cons; [| auto].
  destruct (decide (ch_id c ∈ ch_id <$> cs)) as [(c2 & Heq & Hc2)%list_elem_of_fmap | Hnin]; [rewrite Heq; auto |].
  assert (Hkeep : ∀ l st, ch_id c ∉ ch_id <$> l → (fold_left (signal_one b) l st).1 !! ch_id c = st.1 !! ch_id c).
  { clear. induction l as [| c0 l IH]; intros [pr v] Hn; [done |]. cbn [fold_left]. rewrite IH by set_solver.
    unfold signal_one. destruct (_ || _); [done |]. cbn. rewrite lookup_insert_ne; [done | set_solver]. }
  specialize (Hkeep cs (procs1, ∅) Hnin). rewrite Hf in Hkeep. cbn in Hkeep. rewrite Hkeep.
  unfold procs1. by rewrite lookup_insert_eq.
Qed.

Lemma commit_none_frame b cs s :
  (∀ c, c ∈ cs → ch_model c ∈ (states s).*1) →
  let s' := commit_none b cs s in
  children s' = children s ∧ ports s' = ports s ∧ gpu s' = gpu s ∧ inflight s' = inflight s.
Proof.
  unfold commit_none. revert s; induction cs as [| c cs IH]; intros s Hcs; [done |]. cbn [fold_left].
  assert (Hin : ch_model c ∈ (states s).*1) by (apply Hcs; set_solver).
  destruct (od_get (ch_model c) (states s)) as [cur |] eqn:Hcur; [| by apply od_get_None in Hcur].
  rewrite (commit_one_none _ _ _ _ Hcur).
  destruct (IH (transition_signal b (ch_model c) cur s)) as (H1 & H2 & H3 & H4).
  { intros c' Hc'. rewrite transition_keys by done. apply Hcs. set_solver. }
  rewrite H1, H2, H3, H4. unfold transition_signal. destruct b; [destruct (bool_decide _) |]; done.
Qed.

Lemma keys_of_values {A} (key : A → string) (m : odict A) :
  (∀ k x, (k, x) ∈ m → key x = k) → key <$> m.*2 = m.*1.
Proof.
  induction m as [| [k x] m IH]; intros Hm; [done |]. cbn. f_equal; [apply Hm; set_solver |].
  apply IH. intros k' x' Hin. apply Hm. set_solver.
Qed.

Lemma children_models s :
  dicts_ok s → models (children s).*2 = (children s).*1 ∧
  ∀ c, c ∈ (children s).*2 → od_get (ch_model c) (children s) = Some c.
Proof.
  intros Hs. assert (Hall : ∀ m c, (m, c) ∈ children s → ch_model c = m ∧ od_get m (children s) = Some c).
  { intros m c Hin. apply elem_of_od_get in Hin; [| apply Hs]. split; [by apply (ok_children _ Hs) | done]. }
  split; [apply keys_of_values; intros k x Hin; by apply Hall |].
  intros c ([m c'] & -> & Hin)%list_elem_of_fmap. cbn. by destruct (Hall _ _ Hin) as [-> ?].
Qed.

(** With every process alive, a signal reaches all of them and the commit that
    follows finds no victim. *)
Lemma apply_signal_alive b w :
  dicts_ok (w_sup w) → all_alive w →
  let cs := (children (w_sup w)).*2 in
  ∃ procs, apply_signal b w =
      set_sup (λ s, rebuild_cache (commit_none b cs s)) (set_procs (λ _, procs) w) ∧
    (∀ i, is_alive procs i = is_alive (w_procs w) i) ∧
    (∀ c, c ∈ cs → procs !! ch_id c = Some {| pr_alive := true; pr_suspended := b |}).
Proof.
  intros Hd Hal cs. destruct (signal_all_alive b cs (w_procs w)) as (procs & Hf & Ha & Hp).
  { intros c Hin. eapply Hal, (proj2 (children_models _ Hd)), Hin. }
  exists procs. split_and!; [| done | done]. unfold apply_signal. fold cs. by rewrite Hf.
Qed.

(** Committing a suspend and then a resume of the same children, none of them
    suspended before, restores the states and leaves the rest alone. *)
Lemma commit_roundtrip cs s :
  od_wf (states s) → NoDup (models cs) → pre_suspend s = ∅ →
  (∀ c, c ∈ cs → ∃ cur, od_get (ch_model c) (states s) = Some cur ∧ cur ≠ SUSPENDED) →
  let s1 := rebuild_cache (commit_none true cs s) in
  let s2 := commit_none false cs s1 in
  (∀ c, c ∈ cs → od_get (ch_model c) (states s1) = Some SUSPENDED) ∧
  (states s2 = states s ∧ children s1 = children s ∧ children s2 = children s ∧
   ports s2 = ports s ∧ gpu s2 = gpu s ∧ inflight s2 = inflight s).
Proof.
  intros Hwf Hnd Hpre Hcur s1 s2.
  assert (Hcs : ∀ c, c ∈ cs → ch_model c ∈ (states s).*1).
  { intros c (cur & Hg & _)%Hcur. apply od_get_elem in Hg. by apply (list_elem_of_fmap_2 fst) in Hg. }
  destruct (suspend_commit cs s Hnd Hcur) as (Hk1 & Hs1 & Hpr1).
  destruct (commit_none_frame true cs s Hcs) as (Hch1 & Hpo1 & Hg1 & Hi1).
  assert (Hcs1 : ∀ c, c ∈ cs → ch_model c ∈ (states s1).*1) by (intros c Hin; cbn; rewrite Hk1; auto).
  destruct (resume_commit cs s1 Hnd Hcs1) as (Hk2 & Hs2 & _).
  destruct (commit_none_frame false cs s1 Hcs1) as (Hch2 & Hpo2 & Hg2 & Hi2).
  split_and!; [| | done | etrans; [apply Hch2 | done] | etrans; [apply Hpo2 | done] |
    etrans; [apply Hg2 | done] | etrans; [apply Hi2 | done]].
  - intros c Hin. cbn. rewrite Hs1. by rewrite bool_decide_eq_true_2 by (by apply list_elem_of_fmap_2).
  - apply od_ext; [etrans; [apply Hk2 | apply Hk1] | |].
    + unfold od_wf, s2. rewrite Hk2. cbn. by rewrite Hk1.
    + intros m. etrans; [apply Hs2 |]. cbn. rewrite Hs1, Hpr1.
      destruct (bool_decide (m ∈ models cs)) eqn:Hm; [| done]. cbn.
      reflect_bools. apply list_elem_of_fmap in Hm as (c & -> & Hin). by destruct (Hcur c Hin) as (cur & -> & _).
Qed.

(** Suspend-then-resume with every process alive loses nothing: after the
    suspend every replica is reported SUSPENDED and every process is stopped;
    after the resume every replica is back in exactly the state it had (a loading
    one is loading again), the reported statuses are those from before, and
    every process runs. *)
Theorem suspend_resume_roundtrip w :
  wreachable w → all_alive w → pre_suspend (w_sup w) = ∅ →
  (∀ m c, od_get m (children (w_sup w)) = Some c → od_get m (states (w_sup w)) ≠ Some SUSPENDED) →
  let w1 := apply_signal true w in
  let w2 := apply_signal false w1 in
  (∀ m c, od_get m (children (w_sup w)) = Some c →
     od_get m (states (w_sup w1)) = Some SUSPENDED ∧
     w_procs w1 !! ch_id c = Some {| pr_alive := true; pr_suspended := true |} ∧
     w_procs w2 !! ch_id c = Some {| pr_alive := true; pr_suspended := false |}) ∧
  states (w_sup w2) = states (w_sup w) ∧ children (w_sup w2) = children (w_sup w) ∧
  statuses w2 = statuses w.
Proof.
  intros Hr Hal Hpre Hns w1 w2. destruct (wreachable_ok w Hr) as [Hd Hc].
  destruct (children_models _ Hd) as [Hmod Hch].
  destruct (apply_signal_alive true w Hd Hal) as (p1 & Hw1 & Ha1 & Hp1).
  set (cs := (children (w_sup w)).*2) in *.
  destruct (commit_roundtrip cs (w_sup w)) as (Hsus & Hst & Hch1 & Hch2 & Hpo & Hg & Hi); [apply Hd | | done | |].
  { rewrite Hmod. apply Hd. }
  { intros c Hin. pose proof (Hch c Hin) as Hget. destruct (od_get (ch_model c) (states (w_sup w))) as [cur |] eqn:Hcu.
    - exists cur. split; [done |]. intros ->. by eapply Hns.
    - apply od_get_None in Hcu. by apply (ok_children _ Hd) in Hget as []. }
  fold w1 in Hw1.
  assert (Hcs1 : children (w_sup w1) = children (w_sup w)) by (rewrite Hw1; apply Hch1).
  destruct (apply_signal_alive false w1) as (p2 & Hw2 & _ & Hp2).
  { by apply apply_signal_ok. }
  { intros m c. rewrite Hcs1, Hw1. cbn. rewrite Ha1. apply Hal. }
  fold w2 in Hw2. rewrite Hcs1 in Hw2, Hp2. fold cs in Hw2, Hp2.
  assert (Hs2 : w_sup w2 = rebuild_cache (commit_none false cs (w_sup w1))) by (by rewrite Hw2).
  assert (Hs1 : w_sup w1 = rebuild_cache (commit_none true cs (w_sup w))) by (by rewrite Hw1).
  rewrite <- Hs1 in Hsus, Hst, Hch2, Hpo, Hg, Hi. split_and!.
  - intros m c Hget. assert (Hin : c ∈ cs).
    { apply od_get_elem in Hget. by apply (list_elem_of_fmap_2 snd) in Hget. }
    destruct (ok_children _ Hd _ _ Hget) as [<- _].
    split_and!; [by apply Hsus | rewrite Hw1; by apply Hp1 | rewrite Hw2; by apply Hp2].
  - by rewrite Hs2.
  - by rewrite Hs2.
  - cbn. rewrite Hc, Hs2. cbn. unfold status_view. by rewrite Hst, Hpo, Hg, Hi.
Qed.

Lemma suspend_resume_roundtrip_witness :
  let w := demo_world (boot 0 "m") in
  let w1 := apply_signal true w in
  let w2 := apply_signal false w1 in
  (∀ m c, od_get m (children (w_sup w)) = Some c →
     od_get m (states (w_sup w1)) = Some SUSPENDED ∧
     w_procs w1 !! ch_id c = Some {| pr_alive := true; pr_suspended := true |} ∧
     w_procs w2 !! ch_id c = Some {| pr_alive := true; pr_suspended := false |}) ∧
  states (w_sup w2) = states (w_sup w) ∧ children (w_sup w2) = children (w_sup w) ∧
  statuses w2 = statuses w.
Proof.
  apply (suspend_resume_roundtrip (demo_world (boot 0 "m"))).
  - apply (wrun_reachable (boot 0 "m")). vm_compute. reflexivity.
  - intros m c. replace (children (w_sup (demo_world (boot 0 "m")))) with [("m", demo_child 0 "m")]
      by (vm_compute; reflexivity). cbn [od_get]. destruct (bool_decide (m = "m")); [| discriminate].
    intros [= <-]. split; vm_compute; reflexivity.
  - vm_compute. reflexivity.
  - intros m c. replace (states (w_sup (demo_world (boot 0 "m")))) with [("m", READY)]
      by (vm_compute; reflexivity). intros _. cbn [od_get]. destruct (bool_decide (m = "m")); discriminate.
Defined.

(** ** Schedules that go wrong *)

(** The replica is stopped between the snapshot and the commit of a suspend. *)
Definition ghost_schedule : list WLabel :=
  boot 0 "m" ++ [SignalStart true; SignalNext; StopReplica "m"; Terminate (demo_child 0 "m"); SignalCommit;
                 HealthStop 0].

(** The replica was healthy when suspended, before it was marked ready. *)
Definition stuck_schedule : list WLabel :=
  [StartReplica (demo_child 0 "m") true; HealthProbe 0] ++ full_signal true 1 ++ [HealthReady 0] ++ full_signal false 1.

(** The old health thread reports the exit of the child that was replaced. *)
Definition leak_schedule : list WLabel :=
  boot 0 "m" ++ [StopReplica "m"; Terminate (demo_child 0 "m"); HealthExit 0;
                 StartReplica (demo_child 1 "m") true; HealthProbe 1; HealthReady 1; HealthCrashed 0].

(** Three interleavings in which a locked section acts by model id on a
    replica other than the one it had looked at.  A stop during a suspend leaves
    a replica without process reported as SUSPENDED, and a later resume does not
    change it.  A suspend between a successful probe and [_mark_ready] leaves the
    replica LOADING after the resume, with its health thread past the only place
    that marks it ready.  The exit report of a replaced child unregisters its
    successor, whose process keeps running where no suspend can reach it. *)
Theorem supervisor_races :
  (∃ w, wrun ghost_schedule empty_world = Some w ∧
        cached (w_sup (apply_signal false w)) =
          [{| rs_model_id := "m"; rs_port := 8080; rs_state := SUSPENDED; rs_inflight := 0; rs_gpu := true |}] ∧
        children (w_sup w) = [] ∧ is_alive (w_procs w) 0 = false) ∧
  (∃ w, wrun stuck_schedule empty_world = Some w ∧
        od_get "m" (states (w_sup w)) = Some LOADING ∧ w_health w !! 0%nat = Some (demo_child 0 "m", Watching) ∧
        w_procs w !! 0%nat = Some {| pr_alive := true; pr_suspended := false |}) ∧
  (∃ w, wrun leak_schedule empty_world = Some w ∧
        children (w_sup w) = [] ∧ od_get "m" (states (w_sup w)) = Some STOPPED ∧
        w_procs (apply_signal true w) !! 1%nat = Some {| pr_alive := true; pr_suspended := false |}).
Proof.
  split_and!; (eexists; split; [vm_compute; reflexivity |]); split_and!; vm_compute; reflexivity.
Qed.
