(* ===== verification/PreemptSpec.v ===== *)
(** * What preemption guarantees

    Properties of every history of polls, drains, background stops and replica
    starts, proved against the supervisor interface and instantiated with
    [ChildProcessSupervisor]. *)

From S2P Require Export SupervisorSpec.

(** ** Histories of the controller *)

Inductive Tick := Poll (idle_s now : Q) | Drain.

Section Histories.
  Context `{ProcessSupervisorLaws W} (config : AgentConfig).
  Implicit Types (a : Agent W) (pc : Controller) (w : W) (log : list Action).

Definition run_tick (a : Agent W) (t : Tick) : Agent W :=
  match t with Poll idle_s now => on_poll config idle_s now a | Drain => drain a end.

Definition run_ticks (ts : list Tick) (a : Agent W) : Agent W := fold_left run_tick ts a.

Definition start_agent (w : W) : Agent W := (controller_start, w, []).

(** The suspends and resumes of a log. *)
Definition is_signal (x : Action) : bool := match x with SuspendAll | ResumeAll => true | _ => false end.

Definition signals (log : list Action) : list Action := filter (λ x, is_signal x = true) log.

#[local] Arguments signals : simpl never.

(** [n] rounds of suspend and resume. *)
Fixpoint rounds (n : nat) : list Action :=
  match n with O => [] | S n => SuspendAll :: ResumeAll :: rounds n end.

Lemma signals_app l l' : signals (l ++ l') = signals l ++ signals l'.
Proof. apply filter_app. Qed.

Lemma rounds_app n : rounds n ++ [SuspendAll; ResumeAll] = rounds (S n).
Proof. induction n as [| n IH]; [done |]. cbn in *. by rewrite IH. Qed.

(** Escalation only stops suspended GPU replicas of the snapshot. *)
Lemma escalate_fold l (a : W * list Action) :
  let a' := fold_left escalate_one l a in
  (ps_inv a.1 → ps_inv a'.1) ∧ (ps_inv a.1 → ~ ps_running a.1 → ~ ps_running a'.1) ∧
  ∃ stops, a'.2 = a.2 ++ (Stop <$> stops) ∧
    ∀ m, m ∈ stops ↔ ∃ st, st ∈ l ∧ rs_model_id st = m ∧ rs_state st = SUSPENDED ∧ rs_gpu st = true.
Proof.
  revert a; induction l as [| st l IH]; intros a; cbn [fold_left].
  { split_and!; try done. exists []. cbn. rewrite app_nil_r. split; [done |]. set_solver. }
  destruct (IH (escalate_one a st)) as (Hi & Hq & stops & Hlog & Hstops). unfold escalate_one in *.
  destruct (bool_decide (rs_state st = SUSPENDED) && rs_gpu st) eqn:Hb; cbn in *.
  - reflect_bools. split_and!.
    + intros Hinv. by apply Hi, stop_inv.
    + intros Hinv Hn. apply Hq; [by apply stop_inv | by apply stop_quiet].
    + exists (rs_model_id st :: stops). split; [rewrite Hlog; by rewrite <- app_assoc |].
      intros m. rewrite elem_of_cons, Hstops. setoid_rewrite elem_of_cons. naive_solver.
  - split_and!; try done. exists stops. split; [done |]. intros m. rewrite Hstops. setoid_rewrite elem_of_cons.
    split; [naive_solver |]. intros (st' & [-> | ?] & Hm & Hs & Hg); [| eauto].
    rewrite Hs, Hg in Hb. done.
Qed.

(** The invariant of every history: the signals alternate, starting with a
    suspend, and while the last one is a suspend nothing runs. *)
Record agent_ok (a : Agent W) : Prop := {
  ag_inv : ps_inv a.1.2;
  ag_idle : pc_state a.1.1 = IDLE → ∃ n, signals a.2 = rounds n;
  ag_active : pc_state a.1.1 = ACTIVE →
    ~ ps_running a.1.2 ∧ is_Some (pc_active_since a.1.1) ∧ ∃ n, signals a.2 = rounds n ++ [SuspendAll];
  ag_draining : pc_state a.1.1 = DRAINING → ∃ n, signals a.2 = rounds n ∨ signals a.2 = rounds n ++ [SuspendAll]
}.

Lemma start_agent_ok w : ps_inv w → agent_ok (start_agent w).
Proof. intros Hw. split; cbn; try done. intros _. by exists 0%nat. Qed.

Lemma with_prev_ok idle_s a : agent_ok a → agent_ok (with_prev idle_s a).
Proof. destruct a as [[pc w] log]. intros [H1 H2 H3 H4]. by split. Qed.

Lemma enter_active_ok now a :
  agent_ok a → pc_state a.1.1 = IDLE → agent_ok (enter_active now a).
Proof.
  destruct a as [[pc w] log]. intros [H1 H2 H3 H4] Hst. cbn in *. destruct (H2 Hst) as [n Hn]. split; cbn; try done.
  - by apply suspend_inv.
  - intros _. split_and!; [by apply suspend_quiet | by eexists |]. exists n. by rewrite signals_app, Hn.
Qed.

Lemma enter_idle_ok a : agent_ok a → pc_state a.1.1 = ACTIVE → agent_ok (enter_idle a).
Proof.
  destruct a as [[pc w] log]. intros [H1 H2 H3 H4] Hst. cbn in *. destruct (H3 Hst) as (_ & _ & n & Hn).
  split; cbn; try done.
  - by apply resume_inv.
  - intros _. exists (S n). rewrite signals_app, Hn, <- app_assoc. apply rounds_app.
Qed.

Lemma signals_stops stops : signals (Stop <$> stops) = [].
Proof. apply filter_none. intros x (m & -> & _)%list_elem_of_fmap. done. Qed.

Lemma maybe_escalate_ok now a : agent_ok a → pc_state a.1.1 = ACTIVE → agent_ok (maybe_escalate config now a).
Proof.
  destruct a as [[pc w] log]. intros Hok Hst. unfold maybe_escalate.
  destruct (pc_escalated pc); [done |]. destruct (pc_active_since pc) as [since |]; [| done].
  destruct (_ <?q _); [done |].
  destruct (escalate_fold (statuses w) (w, log)) as (Hi & Hq & stops & Hlog & _).
  destruct (fold_left escalate_one (statuses w) (w, log)) as [w' log'] eqn:Hf. cbn in *. subst log'.
  destruct Hok as [H1 H2 H3 H4]; cbn in *. destruct (H3 Hst) as (Hn & _ & n & Hsig).
  split; cbn; rewrite ?signals_app, ?signals_stops, ?app_nil_r; try congruence.
  - by apply Hi.
  - intros _. split_and!; [by apply Hq | by eexists | eauto].
Qed.

Lemma run_tick_ok a t : agent_ok a → agent_ok (run_tick a t).
Proof.
  intros Hok. destruct t as [idle_s now |]; cbn.
  - unfold on_poll. destruct (pc_state a.1.1) eqn:Hst; [| | done]; apply with_prev_ok.
    + destruct (is_fresh_input _ _ _); [by apply enter_active_ok | done].
    + destruct (_ <=?q _); [by apply enter_idle_ok | by apply maybe_escalate_ok].
  - destruct a as [[pc w] log]. unfold drain. destruct Hok as [H1 H2 H3 H4]. cbn in *.
    destruct (pc_state pc) eqn:Hst; [| | by split; cbn; rewrite ?Hst].
    + destruct (H2 eq_refl) as [n Hn]. split; cbn; try done. intros _. exists n. left. by rewrite signals_app, Hn, app_nil_r.
    + destruct (H3 eq_refl) as (_ & _ & n & Hn). split; cbn; try done. intros _. exists n. right.
      by rewrite signals_app, Hn, app_nil_r.
Qed.

Lemma run_ticks_ok ts a : agent_ok a → agent_ok (run_ticks ts a).
Proof. revert a; induction ts as [| t ts IH]; intros a Ha; [done |]. by apply IH, run_tick_ok. Qed.

(** C3: against any supervisor that keeps its contract, over every history of
    polls and drains: the agent's signals are suspend, resume, suspend, ... in
    strict alternation beginning with a suspend, and whenever the controller is
    ACTIVE the last one is a suspend and no fallow replica is running. *)
Theorem user_present_nothing_runs ts w :
  ps_inv w →
  let a := run_ticks ts (start_agent w) in
  (pc_state a.1.1 = ACTIVE → ~ ps_running a.1.2) ∧
  ∃ n, signals a.2 = rounds n ++ (if bool_decide (pc_state a.1.1 = ACTIVE) then [SuspendAll] else [])
       ∨ pc_state a.1.1 = DRAINING ∧ signals a.2 = rounds n ++ [SuspendAll].
Proof.
  intros Hw a. destruct (run_ticks_ok ts (start_agent w) (start_agent_ok w Hw)) as [H1 H2 H3 H4]. fold a in H1, H2, H3, H4.
  split; [intros Hst; by apply H3 |]. destruct (pc_state a.1.1) eqn:Hst.
  - destruct (H2 eq_refl) as [n Hn]. exists n. left. rewrite bool_decide_eq_false_2 by done. by rewrite app_nil_r.
  - destruct (H3 eq_refl) as (_ & _ & n & Hn). exists n. left. by rewrite bool_decide_eq_true_2.
  - destruct (H4 eq_refl) as [n [Hn | Hn]]; exists n; [left | by right].
    rewrite bool_decide_eq_false_2 by done. by rewrite app_nil_r.
Qed.

(** ** Detection and hysteresis *)

(** Once work has been resumed, an idle controller has only ever seen readings
    at or above the threshold. *)
Definition armed (a : Agent W) : Prop :=
  pc_state a.1.1 = IDLE → signals a.2 ≠ [] →
  ∃ prev, pc_prev_idle_s a.1.1 = Some prev ∧ (ac_idle_threshold_s config <= prev)%Q.

Lemma run_tick_armed a t : agent_ok a → armed a → armed (run_tick a t).
Proof.
  intros Hok Harm. destruct a as [[pc w] log]. destruct t as [idle_s now |]; cbn.
  - unfold on_poll. cbn. destruct (pc_state pc) eqn:Hst; [| | done].
    + destruct (is_fresh_input config pc idle_s) eqn:Hf; [done |]. intros _ Hsig. cbn in *.
      destruct (Harm Hst Hsig) as (prev & Hp & Hle). cbn in Hp. unfold is_fresh_input in Hf. rewrite Hp in Hf.
      reflect_bools. exists idle_s. split; [done | lra].
    + destruct (ac_idle_threshold_s config <=?q idle_s) eqn:Hth.
      * intros _ _. cbn. exists idle_s. split; [done |]. by reflect_bools.
      * intros Hidle. exfalso. revert Hidle. unfold maybe_escalate.
        destruct (pc_escalated pc); [cbn; congruence |]. destruct (pc_active_since pc); [| cbn; congruence].
        destruct (_ <?q _); [cbn; congruence |]. destruct (fold_left escalate_one _ _). cbn. congruence.
  - unfold drain. destruct (pc_state pc) eqn:Hst; try done.
Qed.

Lemma run_ticks_armed ts a : agent_ok a → armed a → armed (run_ticks ts a).
Proof.
  revert a; induction ts as [| t ts IH]; intros a Hok Ha; [done |].
  apply IH; [by apply run_tick_ok | by apply run_tick_armed].
Qed.

(** In every history, a poll makes an idle agent yield as soon as the
    reading drops: always below one poll interval, and, once work has been
    resumed, whenever it is below the idle threshold at all, so no return of the
    user can be missed however late the poll; and the suspend is the first thing
    that poll does.  Conversely work is resumed only by a poll that reads
    continuous idleness of at least the threshold. *)
Theorem yield_and_resume ts w idle_s now :
  ps_inv w →
  let a := run_ticks ts (start_agent w) in
  let a' := on_poll config idle_s now a in
  (pc_state a.1.1 = IDLE →
   (idle_s < poll_interval_s config)%Q ∨ (signals a.2 ≠ [] ∧ (idle_s < ac_idle_threshold_s config)%Q) →
   pc_state a'.1.1 = ACTIVE ∧ a'.2 = a.2 ++ [SuspendAll; Emit USER_RETURNED]) ∧
  (a'.2 = a.2 ++ [ResumeAll; Emit USER_IDLE] →
   pc_state a.1.1 = ACTIVE ∧ (ac_idle_threshold_s config <= idle_s)%Q ∧ pc_state a'.1.1 = IDLE).
Proof.
  intros Hw a a'. pose proof (start_agent_ok w Hw) as Hok0.
  assert (Harm : armed a). { apply run_ticks_armed; [done |]. intros _ Hs. done. }
  clearbody a. destruct a as [[pc w'] log]. subst a'. unfold on_poll. cbn. split.
  - intros Hst Hlow. rewrite Hst.
    assert (Hf : is_fresh_input config pc idle_s = true).
    { unfold is_fresh_input. apply orb_true_iff. destruct Hlow as [Hlow | [Hs Hlow]].
      - left. by apply Qlt_bool_true.
      - destruct (Harm Hst Hs) as (prev & Hp & Hle). cbn in Hp. right. rewrite Hp. apply Qlt_bool_true. lra. }
    rewrite Hf. done.
  - destruct (pc_state pc) eqn:Hst; cbn.
    + destruct (is_fresh_input config pc idle_s); cbn; intros Heq.
      * apply app_inv_head in Heq. done.
      * by apply (f_equal length) in Heq; rewrite length_app in Heq; cbn in Heq; lia.
    + destruct (ac_idle_threshold_s config <=?q idle_s) eqn:Hth; [reflect_bools; done |].
      unfold maybe_escalate. destruct (pc_escalated pc).
      { cbn. intros Heq. apply (f_equal length) in Heq. rewrite length_app in Heq. cbn in Heq. lia. }
      destruct (pc_active_since pc).
      2: { cbn. intros Heq. apply (f_equal length) in Heq. rewrite length_app in Heq. cbn in Heq. lia. }
      destruct (_ <?q _).
      { cbn. intros Heq. apply (f_equal length) in Heq. rewrite length_app in Heq. cbn in Heq. lia. }
      destruct (escalate_fold (statuses w') (w', log)) as (_ & _ & stops & Hlog & _).
      destruct (fold_left escalate_one (statuses w') (w', log)) as [w2 log2]. cbn in *. subst. intros Heq.
      apply app_inv_head in Heq. destruct stops; done.
    + intros Heq. apply (f_equal length) in Heq. rewrite length_app in Heq. cbn in Heq. lia.
Qed.

(** While the user stays, GPU memory is freed at most once: the first poll
    after the eviction delay stops exactly the GPU replicas that are suspended
    at that moment, and no later poll of the same stay does anything. *)
Theorem escalate_once (pc : Controller) w log idle_s now idle_s' now' since :
  pc_state pc = ACTIVE → pc_active_since pc = Some since → pc_escalated pc = false →
  (idle_s < ac_idle_threshold_s config)%Q → (idle_s' < ac_idle_threshold_s config)%Q →
  (ac_vram_evict_after_s config <= now - since)%Q →
  let a' := on_poll config idle_s now (pc, w, log) in
  (∃ stops, a'.2 = log ++ (Stop <$> stops) ∧
     ∀ m, m ∈ stops ↔ ∃ st, st ∈ statuses w ∧ rs_model_id st = m ∧ rs_state st = SUSPENDED ∧ rs_gpu st = true) ∧
  (on_poll config idle_s' now' a').2 = a'.2 ∧ (on_poll config idle_s' now' a').1.2 = a'.1.2.
Proof.
  intros Hst Hsince Hesc Hid Hid' Hev a'.
  assert (Ha' : ∃ stops w', a' = ({| pc_state := ACTIVE; pc_prev_idle_s := Some idle_s;
      pc_active_since := Some since; pc_escalated := true |}, w', log ++ (Stop <$> stops)) ∧
      ∀ m, m ∈ stops ↔ ∃ st, st ∈ statuses w ∧ rs_model_id st = m ∧ rs_state st = SUSPENDED ∧ rs_gpu st = true).
  { unfold a', on_poll. cbn. rewrite Hst. destruct (ac_idle_threshold_s config <=?q idle_s) eqn:H1; [reflect_bools; lra |].
    unfold maybe_escalate. rewrite Hesc, Hsince, ?Hst. destruct (_ <?q _) eqn:H2; [reflect_bools; lra |].
    destruct (escalate_fold (statuses w) (w, log)) as (_ & _ & stops & Hlog & Hstops).
    destruct (fold_left escalate_one (statuses w) (w, log)) as [w2 log2]. cbn in *. subst. exists stops, w2. done. }
  destruct Ha' as (stops & w' & -> & Hstops). split; [by exists stops |].
  unfold on_poll. cbn. destruct (ac_idle_threshold_s config <=?q idle_s') eqn:H1; [reflect_bools; lra |]. done.
Qed.
End Histories.

(** ** Instances on a concrete agent *)

Definition demo_wait : list Tick := [Poll 200 0; Poll 0 1; Poll 150 200].

Lemma user_present_nothing_runs_witness :
  let a := run_ticks default_agent_config [Poll 200 0; Poll 0 1] (start_agent (demo_world (boot 0 "m"))) in
  (pc_state a.1.1 = ACTIVE → ~ ps_running a.1.2) ∧
  ∃ n, signals a.2 = rounds n ++ (if bool_decide (pc_state a.1.1 = ACTIVE) then [SuspendAll] else [])
       ∨ pc_state a.1.1 = DRAINING ∧ signals a.2 = rounds n ++ [SuspendAll].
Proof.
  apply (user_present_nothing_runs default_agent_config [Poll 200 0; Poll 0 1] (demo_world (boot 0 "m"))).
  apply wreachable_ok, (wrun_reachable (boot 0 "m")). vm_compute. reflexivity.
Defined.

Lemma yield_and_resume_witness :
  let a := run_ticks default_agent_config demo_wait (start_agent (demo_world (boot 0 "m"))) in
  let a' := on_poll default_agent_config 100 300 a in
  (pc_state a.1.1 = IDLE →
   (100 < poll_interval_s default_agent_config)%Q ∨
   (signals a.2 ≠ [] ∧ (100 < ac_idle_threshold_s default_agent_config)%Q) →
   pc_state a'.1.1 = ACTIVE ∧ a'.2 = a.2 ++ [SuspendAll; Emit USER_RETURNED]) ∧
  (a'.2 = a.2 ++ [ResumeAll; Emit USER_IDLE] →
   pc_state a.1.1 = ACTIVE ∧ (ac_idle_threshold_s default_agent_config <= 100)%Q ∧ pc_state a'.1.1 = IDLE).
Proof.
  apply (yield_and_resume default_agent_config demo_wait (demo_world (boot 0 "m")) 100 300).
  apply wreachable_ok, (wrun_reachable (boot 0 "m")). vm_compute. reflexivity.
Defined.

Lemma escalate_once_witness :
  let pc := {| pc_state := ACTIVE; pc_prev_idle_s := Some 0%Q; pc_active_since := Some 0%Q; pc_escalated := false |} in
  let w := apply_signal true (demo_world (boot 0 "m")) in
  let a' := on_poll default_agent_config 1 60 (pc, w, []) in
  (∃ stops, a'.2 = [] ++ (Stop <$> stops) ∧
     ∀ m, m ∈ stops ↔ ∃ st, st ∈ statuses w ∧ rs_model_id st = m ∧ rs_state st = SUSPENDED ∧ rs_gpu st = true) ∧
  (on_poll default_agent_config 2 61 a').2 = a'.2 ∧ (on_poll default_agent_config 2 61 a').1.2 = a'.1.2.
Proof.
  apply (escalate_once default_agent_config {| pc_state := ACTIVE; pc_prev_idle_s := Some 0%Q;
    pc_active_since := Some 0%Q; pc_escalated := false |} (apply_signal true (demo_world (boot 0 "m"))) [] 1 60 2 61 0);
    first [reflexivity | vm_compute; reflexivity | vm_compute; discriminate].
Defined.

(** ** Reclaim and reconcile *)

(** A step of the whole agent: a poll of the poll thread, the shutdown thread, a
    background stop, or the reconcile task starting a replica. *)
Inductive AStep (W : Type) :=
  | APoll (wants : bool) (reading : option Q) (now : Q)
  | ADrain
  | ABackground
  | AStart (start : W → W).
Arguments APoll {W}.
Arguments ADrain {W}.
Arguments ABackground {W}.
Arguments AStart {W}.

Section Reclaim.
  Context `{ProcessSupervisorLaws W} (config : AgentConfig).

Definition run_astep (aw : AgentWorld W) (st : AStep W) : AgentWorld W :=
  match st with
  | APoll wants reading now => safe_poll config wants reading now aw
  | ADrain => {| aw_agent := drain (aw_agent aw); aw_reclaimed := aw_reclaimed aw;
                 aw_background := aw_background aw |}
  | ABackground => background_stop aw
  | AStart start =>
      let '(pc, w, log) := aw_agent aw in
      {| aw_agent := (pc, start w, log); aw_reclaimed := aw_reclaimed aw;
         aw_background := aw_background aw |}
  end.

(** The machine is the user's. *)
Definition users_turn (aw : AgentWorld W) : Prop :=
  pc_state (aw_agent aw).1.1 = ACTIVE ∨ aw_reclaimed aw = true.

(** A start that still satisfies the condition the reconcile pass checked. *)
Definition start_checked (aw : AgentWorld W) (st : AStep W) : Prop :=
  match st with
  | AStart start => (∀ w, ps_inv w → ps_inv (start w)) ∧ ~ users_turn aw
  | _ => True
  end.

Definition agent_quiet (aw : AgentWorld W) : Prop :=
  ps_inv (aw_agent aw).1.2 ∧ (users_turn aw → ~ ps_running (aw_agent aw).1.2).

Lemma on_poll_quiet pc w log idle_s now :
  ps_inv w → (pc_state pc = ACTIVE → ~ ps_running w) →
  let a' := on_poll config idle_s now (pc, w, log) in
  ps_inv a'.1.2 ∧ (pc_state a'.1.1 = ACTIVE → ~ ps_running a'.1.2).
Proof.
  intros Hi Hq. unfold on_poll. cbn. destruct (pc_state pc) eqn:Hst; cbn.
  - destruct (is_fresh_input config pc idle_s); cbn.
    + split; [by apply suspend_inv | intros _; by apply suspend_quiet].
    + split; [done |]. congruence.
  - destruct (_ <=?q _); cbn; [split; [by apply resume_inv | done] |].
    unfold maybe_escalate. destruct (pc_escalated pc); [by cbn; auto |].
    destruct (pc_active_since pc); [| by cbn; auto]. destruct (_ <?q _); [by cbn; auto |].
    destruct (escalate_fold (statuses w) (w, log)) as (Hi' & Hq' & _).
    destruct (fold_left escalate_one (statuses w) (w, log)) as [w2 log2]. cbn in *.
    split; [by apply Hi' | intros _; apply Hq'; auto].
  - split; [done |]. congruence.
Qed.

Lemma run_astep_quiet aw st : agent_quiet aw → start_checked aw st → agent_quiet (run_astep aw st).
Proof.
  destruct aw as [[[pc w] log] rec bg]. unfold agent_quiet, users_turn. cbn. intros [Hi Hq] Hs.
  destruct st as [wants reading now | | | start]; cbn.
  - unfold safe_poll, reclaim_on_poll. cbn. destruct wants, rec; cbn.
    + split; [done | intros _; auto].
    + split; [by apply suspend_inv | intros _; by apply suspend_quiet].
    + destruct reading as [idle_s |]; cbn; [| split; [done | intros [?|?]; [auto | done]]].
      destruct (on_poll_quiet pc w log idle_s now Hi ltac:(auto)) as [H1 H2]. split; [done | intros [? | ?]; [auto | done]].
    + destruct reading as [idle_s |]; cbn; [| split; [done | intros [?|?]; [auto | done]]].
      destruct (on_poll_quiet pc w log idle_s now Hi ltac:(auto)) as [H1 H2]. split; [done | intros [? | ?]; [auto | done]].
  - unfold drain. destruct (pc_state pc) eqn:Hst; cbn; split; try done; intros [? | ?]; auto; congruence.
  - unfold background_stop. cbn. destruct bg as [| m bg]; cbn; [auto |].
    split; [by apply stop_inv |]. intros Hu. apply stop_quiet; auto.
  - destruct Hs as [Hs Hn]. split; [auto |]. intros Hu. by destruct Hn.
Qed.

(** A history all of whose starts are checked. *)
Fixpoint checked (sts : list (AStep W)) (aw : AgentWorld W) : Prop :=
  match sts with
  | [] => True
  | st :: sts => start_checked aw st ∧ checked sts (run_astep aw st)
  end.

Definition fresh_agent (w : W) : AgentWorld W := {|
  aw_agent := start_agent w; aw_reclaimed := false; aw_background := [] |}.

(** Over every history of polls, drains, background stops and starts, if
    each start happens while the condition that reconcile checked still holds,
    then whenever the user is present or has reclaimed the machine no fallow
    replica is running; and as long as the reclaim flag stays, polls change
    nothing at all, whatever the idle detector says. *)
Theorem users_turn_quiet sts w :
  ps_inv w → checked sts (fresh_agent w) →
  let aw := fold_left run_astep sts (fresh_agent w) in
  (users_turn aw → ~ ps_running (aw_agent aw).1.2) ∧
  (aw_reclaimed aw = true → ∀ reading now,
     aw_agent (safe_poll config true reading now aw) = aw_agent aw ∧
     aw_reclaimed (safe_poll config true reading now aw) = true).
Proof.
  intros Hw Hc. assert (Hok : agent_quiet (fresh_agent w)).
  { split; [done |]. intros [? | ?]; done. }
  revert Hok Hc. generalize (fresh_agent w) as aw0. induction sts as [| st sts IH]; intros aw0 Hok Hc; cbn.
  - split; [apply Hok |]. intros Hr reading now. destruct aw0 as [[[pc w0] log] rec bg]. cbn in Hr. subst rec.
    unfold safe_poll, reclaim_on_poll. cbn. done.
  - destruct Hc as [Hs Hc]. by apply IH; [apply run_astep_quiet |].
Qed.
End Reclaim.

Definition demo_manifest : ModelManifest := {|
  mm_model_id := "m"; mm_family := "f"; mm_quant := "q"; mm_worker_kind := CHAT; mm_file_name := "m.gguf";
  mm_sha256 := ""; mm_size_bytes := 1; mm_min_ram_mb := 1; mm_min_vram_mb := 1; mm_default_args := [];
  mm_chat_template_hint := None; mm_license := None; mm_source_url := None |}.

Definition demo_start : World → World := start_now demo_manifest 8080 7 0.

Lemma start_now_ok manifest port i now w :
  sup_ok (w_sup w) → sup_ok (w_sup (start_now manifest port i now w)).
Proof.
  intros Hs. unfold start_now. destruct (wexec _ w) as [w' |] eqn:He; [| done]. by eapply wexec_ok.
Qed.

Lemma users_turn_quiet_witness :
  let aw := fold_left (run_astep default_agent_config)
    [AStart demo_start; APoll false (Some 300%Q) 0; APoll false (Some 0%Q) 1] (fresh_agent empty_world) in
  (users_turn aw → ~ ps_running (aw_agent aw).1.2) ∧
  (aw_reclaimed aw = true → ∀ reading now,
     aw_agent (safe_poll default_agent_config true reading now aw) = aw_agent aw ∧
     aw_reclaimed (safe_poll default_agent_config true reading now aw) = true).
Proof.
  apply (users_turn_quiet default_agent_config
    [AStart demo_start; APoll false (Some 300%Q) 0; APoll false (Some 0%Q) 1] empty_world).
  - apply empty_sup_ok.
  - split; [| split; [done | split; done]]. split; [exact (start_now_ok demo_manifest 8080 7 0) |].
    intros [? | ?]; discriminate.
Defined.

(** Reconcile does not repeat its check after awaiting the manifest and the
    download.  In this history it plans to start a model while the agent is
    idle, the user returns and everything is suspended, and then the planned
    start runs: the agent is ACTIVE with a replica running. *)
Theorem late_start_runs_while_active :
  let before := fresh_agent empty_world in
  reconcile_plan ["m"] before = Some (["m"], []) ∧
  let after := fold_left (run_astep default_agent_config)
    [APoll false (Some 300%Q) 0; APoll false (Some 0%Q) 1; AStart demo_start] before in
  pc_state (aw_agent after).1.1 = ACTIVE ∧ reconcile_plan ["m"] after = None ∧ running (aw_agent after).1.2.
Proof.
  split; [vm_compute; reflexivity |]. split_and!; [vm_compute; reflexivity | vm_compute; reflexivity |].
  exists "m". do 2 eexists. split_and!; vm_compute; reflexivity.
Qed.

Definition has_live_replica `{ProcessSupervisor W} (w : W) (m : model_id) : Prop :=
  ∃ st, st ∈ statuses w ∧ rs_model_id st = m ∧ is_live (rs_state st) = true.

(** A reconcile pass acts only while the agent is idle and not reclaimed; it
    then starts exactly the desired models that have no live replica and stops
    exactly the live ones that are not desired. *)
Theorem reconcile_plan_spec `{ProcessSupervisor W} desired (aw : AgentWorld W) :
  match reconcile_plan desired aw with
  | None => aw_reclaimed aw = true ∨ pc_state (aw_agent aw).1.1 ≠ IDLE
  | Some (starts, stops) =>
      aw_reclaimed aw = false ∧ pc_state (aw_agent aw).1.1 = IDLE ∧ NoDup starts ∧ NoDup stops ∧
      ∀ m, (m ∈ starts ↔ m ∈ desired ∧ ~ has_live_replica (aw_agent aw).1.2 m) ∧
           (m ∈ stops ↔ has_live_replica (aw_agent aw).1.2 m ∧ m ∉ desired)
  end.
Proof.
  destruct aw as [[[pc w] log] rec bg]. unfold reconcile_plan. cbn. destruct rec; [by left |].
  case_bool_decide as Hst; [| by right].
  do 2 (split; [done |]). do 2 (split; [apply NoDup_filter, NoDup_remove_dups |]). intros m.
  assert (Hlive : m ∈ rs_model_id <$> filter (λ s, is_live (rs_state s) = true) (statuses w) ↔ has_live_replica w m).
  { rewrite list_elem_of_fmap. setoid_rewrite list_elem_of_filter. unfold has_live_replica.
    split; intros (st & ?); exists st; intuition congruence. }
  rewrite !list_elem_of_filter, !elem_of_remove_dups, Hlive. tauto.
Qed.
