(* ===== verification/Idle.v ===== *)
(** * Idle detectors and the bench's simulated user

    Models, under src/packages/fallow-agent/src/fallow_agent, idle/windows.py, idle/darwin.py,
    idle/linux.py, idle/fake.py, idle/factory.py, bench/idle.py and bench/listener.py.  What the operating
    system answers at a moment is a record; a detector is what its constructor chose, and a reading is a
    function of both.  Seconds are exact rationals. *)

From S2P Require Export Bytes Preempt.
From S2P Require Export PreemptSpec.

(** ** The operating system *)

Record Os := {
  os_platform : string;                 (* [sys.platform] *)
  os_display : option string;           (* [DISPLAY] *)
  os_library : string → bool;           (* [find_library] and loading *)
  os_exports : string → bool;           (* a symbol of the framework *)
  os_last_input : option Z;             (* [dwTime], [None] when the call returned zero *)
  os_tick_count : Z;                    (* [GetTickCount()] *)
  os_open_display : bool;
  os_query_idle : option Z;             (* [XScreenSaverInfo.idle], [None] when the query failed *)
  os_hid_seconds : Q
}.

Inductive IdleError := OSError | NotImplementedError | ValueError.

Definition DWORD_MODULUS : Z := 2 ^ 32.
Definition MS_PER_SECOND : Q := 1000.
Definition ZERO_IDLE_S : Q := 0.

(** [sys.float_info.max] *)
Definition HEADLESS_IDLE_SECONDS : Q := inject_Z ((2 ^ 53 - 1) * 2 ^ 971).

(** ** Windows *)

Record InputTicks := { now_ms : Z; last_input_ms : Z }.

Definition elapsed_ms (ticks : InputTicks) : Z := (now_ms ticks - last_input_ms ticks) mod DWORD_MODULUS.

Definition read_input_ticks (os : Os) : IdleError + InputTicks :=
  if bool_decide (os_platform os = "win32") then
    match os_last_input os with
    | None => inl OSError
    | Some dw_time => inr {| now_ms := os_tick_count os; last_input_ms := dw_time |}
    end
  else inl NotImplementedError.

(** ** macOS *)

Definition load_seconds_since_fn (os : Os) : IdleError + unit :=
  if negb (os_library os "CoreGraphics") then inl OSError
  else if negb (os_exports os "CGEventSourceSecondsSinceLastEventType") then inl OSError
  else inr tt.

Definition read_seconds_since_input (os : Os) : IdleError + Q :=
  if bool_decide (os_platform os = "darwin") then
    match load_seconds_since_fn os with inl e => inl e | inr _ => inr (os_hid_seconds os) end
  else inl NotImplementedError.

(** ** Linux *)

(** [_XScreenSaverReader.__call__] *)
Definition screensaver_read (os : Os) : IdleError + Q :=
  match os_query_idle os with
  | None => inl OSError
  | Some idle => inr (inject_Z idle / MS_PER_SECOND)%Q
  end.

(** [_build_x11_reader] *)
Definition build_x11_reader (os : Os) : IdleError + unit :=
  if negb (os_library os "X11") then inl OSError
  else if negb (os_library os "Xss") then inl OSError
  else if negb (os_open_display os) then inl OSError
  else match screensaver_read os with inl e => inl e | inr _ => inr tt end.

Inductive Reader := AlwaysIdle | XScreenSaverReader.

(** [_resolve_reader] *)
Definition resolve_reader (os : Os) : IdleError + Reader :=
  if bool_decide (default "" (os_display os) = "") then inr AlwaysIdle
  else
    match build_x11_reader os with
    | inr _ => inr XScreenSaverReader
    | inl OSError => inr AlwaysIdle
    | inl e => inl e
    end.

(** ** The factory *)

Inductive Detector := ConstantIdleDetector | WindowsIdleDetector | DarwinIdleDetector | LinuxIdleDetector (reader : Reader).

(** [platform.startswith("linux")] *)
Definition is_linux (platform : string) : bool := String.prefix "linux" platform.

Definition create_idle_detector (os : Os) (bench_enabled force_idle : bool) : IdleError + Detector :=
  if force_idle then (if negb bench_enabled then inl ValueError else inr ConstantIdleDetector)
  else if bool_decide (os_platform os = "win32") then inr WindowsIdleDetector
  else if bool_decide (os_platform os = "darwin") then inr DarwinIdleDetector
  else if is_linux (os_platform os) then
    match resolve_reader os with inl e => inl e | inr r => inr (LinuxIdleDetector r) end
  else inl NotImplementedError.

Definition seconds_since_input (os : Os) (d : Detector) : IdleError + Q :=
  match d with
  | ConstantIdleDetector => inr HEADLESS_IDLE_SECONDS
  | WindowsIdleDetector =>
      match read_input_ticks os with inl e => inl e | inr t => inr (inject_Z (elapsed_ms t) / MS_PER_SECOND)%Q end
  | DarwinIdleDetector => read_seconds_since_input os
  | LinuxIdleDetector AlwaysIdle => inr HEADLESS_IDLE_SECONDS
  | LinuxIdleDetector XScreenSaverReader => screensaver_read os
  end.

(** [FakeIdleDetector]: its value is the state *)
Definition fake_validated (idle_s : Q) : option Q := if (idle_s <?q ZERO_IDLE_S) then None else Some idle_s.

Inductive FakeCall := SetIdle (idle_s : Q) | AdvanceBy (delta_s : Q) | FakeInput.

Definition fake_call (c : FakeCall) (idle_s : Q) : Q :=
  match c with
  | SetIdle v => default idle_s (fake_validated v)
  | AdvanceBy d => default idle_s (fake_validated (idle_s + d)%Q)
  | FakeInput => ZERO_IDLE_S
  end.

(** ** BenchIdleDetector *)

(** The section under the lock of [seconds_since_input], entered with the inner reading. *)
Definition bench_locked (inner_s now : Q) (injected_at : option Q) : option Q * Q :=
  match injected_at with
  | None => (None, inner_s)
  | Some at_ =>
      let simulated_s := py_max2 ZERO_IDLE_S (now - at_)%Q in
      if inner_s <?q simulated_s then (None, inner_s) else (Some at_, simulated_s)
  end.

(** [simulate_input] *)
Definition simulate_input (now : Q) (injected_at : option Q) : option Q := Some now.

(** The detector with the users of it.  [bw_real] is the time of the last real input and [bw_tap] that
    of the last simulated one; [bw_pending] holds, for each thread inside [seconds_since_input] that has
    read the inner detector and not yet taken the lock, when it read and what. *)
Record BenchWorld := {
  bw_now : Q; bw_real : Q; bw_tap : option Q; bw_injected : option Q; bw_pending : gmap nat (Q * Q)
}.

Inductive BLabel := RealInput (t : Q) | Tap (t : Q) | ReadInner (tid : nat) (t : Q) | TakeLock (tid : nat) (t : Q).

Definition label_time (x : BLabel) : Q :=
  match x with RealInput t => t | Tap t => t | ReadInner _ t => t | TakeLock _ t => t end.

(** What the inner detector answers at [t]: the constant of a headless bench, or the time since the
    last real input. *)
Definition inner_reading (headless : bool) (real t : Q) : Q := if headless then HEADLESS_IDLE_SECONDS else (t - real)%Q.

(** A step, with the reading it returns; [None] when it is not enabled. *)
Definition bexec (headless : bool) (x : BLabel) (w : BenchWorld) : option (BenchWorld * option Q) :=
  if label_time x <?q bw_now w then None
  else
    match x with
    | RealInput t =>
        Some ({| bw_now := t; bw_real := t; bw_tap := bw_tap w; bw_injected := bw_injected w; bw_pending := bw_pending w |}, None)
    | Tap t =>
        Some ({| bw_now := t; bw_real := bw_real w; bw_tap := Some t; bw_injected := simulate_input t (bw_injected w);
                 bw_pending := bw_pending w |}, None)
    | ReadInner tid t =>
        match bw_pending w !! tid with
        | Some _ => None
        | None =>
            Some ({| bw_now := t; bw_real := bw_real w; bw_tap := bw_tap w; bw_injected := bw_injected w;
                     bw_pending := <[tid := (t, inner_reading headless (bw_real w) t)]> (bw_pending w) |}, None)
        end
    | TakeLock tid t =>
        match bw_pending w !! tid with
        | None => None
        | Some (_, inner_s) =>
            let '(injected, r) := bench_locked inner_s t (bw_injected w) in
            Some ({| bw_now := t; bw_real := bw_real w; bw_tap := bw_tap w; bw_injected := injected;
                     bw_pending := delete tid (bw_pending w) |}, Some r)
        end
    end.

(** ** BenchListener *)

Definition MAX_HEAD_BYTES : Z := 8192.

Inductive BenchAnswer := NoContent | StateIs (state : AgentState) (idle_s : Q) | NotFound | BadRequest.

(** [readuntil(b"\r\n\r\n")]: the bytes up to and with the separator, and the rest *)
Fixpoint read_until (data : bytes) : option (bytes * bytes) :=
  match data with
  | [] => None
  | b :: rest =>
      match data with
      | x0d :: x0a :: x0d :: x0a :: body => Some ([x0d; x0a; x0d; x0a], body)
      | _ => prod_map (cons b) id <$> read_until rest
      end
  end.

(** [decode("ascii")] *)
Definition decode_ascii (data : bytes) : option string :=
  if forallb (λ b, (Byte.to_N b <? 128)%N) data then Some (String.string_of_list_byte data) else None.

(** [text.split("\r\n")] *)
Fixpoint split_crlf (l : list ascii) : list (list ascii) :=
  match l with
  | [] => [[]]
  | c :: rest =>
      match c, rest with
      | "013"%char, "010"%char :: rest' => [] :: split_crlf rest'
      | _, _ => match split_crlf rest with w :: ws => (c :: w) :: ws | [] => [] end
      end
  end.

(** [_parse_request_line] *)
Definition parse_request_line (line : string) : option (string * string) :=
  match split_on " " line with
  | [method; target; _] => Some (method, (str_partition "?" target).1)
  | _ => None
  end.

Definition has_colon (line : string) : bool := bool_decide (":"%char ∈ String.list_ascii_of_string line).

(** [_drain_body]: the declared length, of the first [Content-Length] line *)
Fixpoint declared_length (lines : list string) : option Z :=
  match lines with
  | [] => Some 0%Z
  | line :: lines =>
      if has_colon line && bool_decide (lower (strip (str_partition ":" line).1) = "content-length")
      then py_int (strip (str_partition ":" line).2)
      else declared_length lines
  end.

(** [_read_request] of all a client sends before it stops; [None] is an exception that answers 400. *)
Definition read_request (data : bytes) : option (string * string) :=
  '(head, body) ← read_until data;
  if (MAX_HEAD_BYTES <? Z.of_nat (length head))%Z then None
  else
    text ← decode_ascii head;
    match String.string_of_list_ascii <$> split_crlf (String.list_ascii_of_string text) with
    | [] => None
    | line :: header_lines =>
        r ← parse_request_line line;
        n ← declared_length header_lines;
        if (0 <? n)%Z && (Z.of_nat (length body) <? n)%Z then None else Some r
    end.

(** [_dispatch], with the state and the reading of the moment: the answer, and whether [simulate_input] was called *)
Definition dispatch (method path : string) (state : AgentState) (idle_s : Q) : BenchAnswer * bool :=
  if bool_decide (method = "POST") && bool_decide (path = "/simulate_input") then (NoContent, true)
  else if bool_decide (method = "GET") && bool_decide (path = "/state") then (StateIs state idle_s, false)
  else (NotFound, false).

(** [_handle] *)
Definition handle (data : bytes) (state : AgentState) (idle_s : Q) : BenchAnswer * bool :=
  match read_request data with
  | Some (method, path) => dispatch method path state idle_s
  | None => (BadRequest, false)
  end.

Definition status_line (a : BenchAnswer) : Z * string :=
  match a with
  | NoContent => (204%Z, "No Content")
  | StateIs _ _ => (200%Z, "OK")
  | NotFound => (404%Z, "Not Found")
  | BadRequest => (400%Z, "Bad Request")
  end.

(** * What the detectors promise

    Every platform's detector reads the true time since the last input, the Windows one across the
    wrap-around of its tick counters; so whenever the agent's replicas run after a poll, the user has been away.  The
    bench's detector, read by any number of threads, keeps a simulated input until a real one follows
    it. *)

(** ** The machine and its counters *)

(** The operating system's answers tell that the last input was [idle_ms] ago. *)
Definition truthful (os : Os) (idle_ms : Z) : Prop :=
  if bool_decide (os_platform os = "win32") then
    (0 ≤ idle_ms < DWORD_MODULUS)%Z ∧
    ∃ uptime_ms, os_tick_count os = (uptime_ms mod DWORD_MODULUS)%Z ∧
                 os_last_input os = Some ((uptime_ms - idle_ms) mod DWORD_MODULUS)%Z
  else if bool_decide (os_platform os = "darwin") then
    load_seconds_since_fn os = inr tt ∧ os_hid_seconds os = (inject_Z idle_ms / MS_PER_SECOND)%Q
  else os_query_idle os = Some idle_ms.

(** The difference of two wrapped counters is the difference of the counts. *)
Lemma elapsed_exact uptime idle :
  (0 ≤ idle < DWORD_MODULUS)%Z →
  elapsed_ms {| now_ms := uptime mod DWORD_MODULUS; last_input_ms := (uptime - idle) mod DWORD_MODULUS |} = idle.
Proof.
  intros Hi. unfold elapsed_ms. cbn [now_ms last_input_ms]. rewrite <- Zminus_mod.
  replace (uptime - (uptime - idle))%Z with idle by lia. by apply Z.mod_small.
Qed.

(** A detector that measures: not the constant one, nor the fallback of a host without a usable display. *)
Definition measures (d : Detector) : Prop := d ≠ ConstantIdleDetector ∧ d ≠ LinuxIdleDetector AlwaysIdle.

Lemma detector_exact os0 bench force d os idle :
  create_idle_detector os0 bench force = inr d → measures d → os_platform os = os_platform os0 → truthful os idle →
  seconds_since_input os d = inr (inject_Z idle / MS_PER_SECOND)%Q.
Proof.
  intros Hd [Hc Hh] Hp Ht. unfold create_idle_detector in Hd. unfold truthful in Ht. rewrite Hp in Ht.
  destruct force; [by destruct bench; [injection Hd as <- |] |]. case_bool_decide as Hwin.
  { injection Hd as <-. destruct Ht as (Hi & uptime & Htick & Hlast). cbn. unfold read_input_ticks.
    rewrite bool_decide_eq_true_2 by congruence. by rewrite Hlast, Htick, elapsed_exact. }
  case_bool_decide as Hmac.
  { injection Hd as <-. cbn. unfold read_seconds_since_input. rewrite bool_decide_eq_true_2 by congruence.
    destruct Ht as [-> ->]. done. }
  destruct (is_linux (os_platform os0)); [| done]. destruct (resolve_reader os0) as [e | r]; [done |]. injection Hd as <-.
  destruct r; [done |]. cbn. unfold screensaver_read. by rewrite Ht.
Qed.

(** ** The agent and the user *)

(** What one iteration of the poll loop meets: the operating system, how long ago the last input was, the clock. *)
Record Moment := { mo_os : Os; mo_idle_ms : Z; mo_now : Q }.

Section Away.
  Context `{ProcessSupervisorLaws W} (config : AgentConfig) (d : Detector).

(** [PollLoop._safe_poll] without a reclaim: a reading that raised skips the controller. *)
Definition poll_moment (a : Agent W) (m : Moment) : Agent W :=
  match seconds_since_input (mo_os m) d with inr r => on_poll config r (mo_now m) a | inl _ => a end.

Definition poll_moments (ms : list Moment) (a : Agent W) : Agent W := fold_left poll_moment ms a.

Definition away (m : Moment) : Q := (inject_Z (mo_idle_ms m) / MS_PER_SECOND)%Q.

(** Every moment is read truthfully. *)
Definition readable (m : Moment) : Prop := seconds_since_input (mo_os m) d = inr (away m).

Lemma escalate_keeps now (a : Agent W) :
  pc_state (maybe_escalate config now a).1.1 = pc_state a.1.1.
Proof.
  destruct a as [[pc w] log]. unfold maybe_escalate. destruct (pc_escalated pc); [done |].
  destruct (pc_active_since pc); [| done]. destruct (_ <?q _); [done |]. by destruct (fold_left _ _ _).
Qed.

#[local] Arguments maybe_escalate : simpl never.

(** One poll: an agent that is idle afterwards has read at least the threshold, or at least its previous reading. *)
Lemma poll_idle r now (a : Agent W) :
  let a' := on_poll config r now a in
  (pc_state a.1.1 ≠ DRAINING → pc_state a'.1.1 ≠ DRAINING ∧ pc_prev_idle_s a'.1.1 = Some r) ∧
  (pc_state a'.1.1 = IDLE → (ac_idle_threshold_s config <= r)%Q ∨
     pc_state a.1.1 = IDLE ∧ ∀ prev, pc_prev_idle_s a.1.1 = Some prev → (prev <= r)%Q).
Proof.
  destruct a as [[pc w] log]. unfold on_poll. cbn. destruct (pc_state pc) eqn:Hst; cbn.
  - destruct (is_fresh_input config pc r) eqn:Hf; cbn; [done |]. rewrite Hst. split; [done |]. intros _. right. split; [done |].
    intros prev Hprev. unfold is_fresh_input in Hf. rewrite Hprev in Hf. by reflect_bools.
  - destruct (ac_idle_threshold_s config <=?q r) eqn:Hth; cbn; [split; [done |]; intros _; left; by reflect_bools |].
    pose proof (escalate_keeps now (pc, w, log)) as Hk. destruct (maybe_escalate config now (pc, w, log)) as [[pc' w'] log'].
    cbn in *. rewrite Hk, Hst. done.
  - rewrite Hst. done.
Qed.

(** The readings an idle agent has made. *)
Lemma polls_away first ms (a : Agent W) :
  pc_state a.1.1 = IDLE → pc_prev_idle_s a.1.1 = None → Forall readable (first :: ms) →
  let a' := poll_moments (first :: ms) a in
  let m := List.last ms first in
  pc_state a'.1.1 ≠ DRAINING ∧ pc_prev_idle_s a'.1.1 = Some (away m) ∧
  (pc_state a'.1.1 = IDLE → (ac_idle_threshold_s config <= away m)%Q ∨ (away first <= away m)%Q).
Proof.
  intros Hst Hprev. induction ms as [| m ms IH] using rev_ind; intros Hr a' last_m; subst a' last_m.
  - rewrite Forall_singleton in Hr. cbn. unfold poll_moment. unfold readable in Hr. rewrite Hr.
    destruct (poll_idle (away first) (mo_now first) a) as [H1 H2]. split_and!; [apply H1; congruence | apply H1; congruence |].
    intros _. right. lra.
  - rewrite app_comm_cons in Hr. apply Forall_app in Hr as [Hms Hm]. rewrite Forall_singleton in Hm.
    destruct (IH Hms) as (Hd & Hp & Hi). rewrite last_last. unfold poll_moments in *. rewrite app_comm_cons, fold_left_app.
    set (b := fold_left poll_moment (first :: ms) a) in *. cbn. unfold poll_moment. unfold readable in Hm. rewrite Hm.
    destruct (poll_idle (away m) (mo_now m) b) as [H1 H2]. split_and!; [by apply H1 | by apply H1 |].
    intros Hidle. destruct (H2 Hidle) as [Hth | [Hb Hle]]; [by left |]. specialize (Hle _ Hp).
    destruct (Hi Hb); [left | right]; lra.
Qed.

Lemma polls_ok ms (a : Agent W) : agent_ok a → agent_ok (poll_moments ms a).
Proof.
  revert a; induction ms as [| m ms IH]; intros a Ha; [done |]. cbn. apply IH. unfold poll_moment.
  destruct (seconds_since_input (mo_os m) d); [done |]. by apply (run_tick_ok config a (Poll _ _)).
Qed.
End Away.


(** ** A Windows machine across the wrap-around *)

(** A Windows machine up for [uptime] milliseconds. *)
Definition windows_at (uptime idle : Z) : Os := {|
  os_platform := "win32"; os_display := None; os_library := λ _, false; os_exports := λ _, false;
  os_last_input := Some ((uptime - idle) mod DWORD_MODULUS)%Z; os_tick_count := (uptime mod DWORD_MODULUS)%Z;
  os_open_display := false; os_query_idle := None; os_hid_seconds := 0 |}.

Definition windows_moment (uptime idle : Z) : Moment := {|
  mo_os := windows_at uptime idle; mo_idle_ms := idle; mo_now := (inject_Z uptime / MS_PER_SECOND)%Q |}.

Lemma windows_moment_ok uptime idle :
  (0 ≤ idle < DWORD_MODULUS)%Z →
  let m := windows_moment uptime idle in os_platform (mo_os m) = os_platform (windows_at 0 0) ∧ truthful (mo_os m) (mo_idle_ms m).
Proof. intros Hi m. split; [done |]. split; [done |]. by exists uptime. Qed.

(** Polls before the counter wraps, just after it, and once the user has returned and left again. *)
Definition demo_moments : list Moment :=
  [windows_moment (2 ^ 32 + 5000) 205000; windows_moment (2 ^ 32 + 6000) 50; windows_moment (2 ^ 32 + 200000) 194050].

Definition demo_first_moment : Moment := windows_moment (2 ^ 32 - 1000) 199000.


(** ** The simulated user *)

Section Bench.
  Context (headless : bool) (gap : Q).

(** The lock follows the read of the inner detector by at most [gap]. *)
Definition timely (x : BLabel) (w : BenchWorld) : Prop :=
  ∀ tid t t1 inner_s, x = TakeLock tid t → bw_pending w !! tid = Some (t1, inner_s) → (t - t1 <= gap)%Q.

Inductive breach (t0 : Q) : BenchWorld → Prop :=
  | breach_start : breach t0 {| bw_now := t0; bw_real := t0; bw_tap := None; bw_injected := None; bw_pending := ∅ |}
  | breach_step x w w' r : breach t0 w → timely x w → bexec headless x w = Some (w', r) → breach t0 w'.

(** What a thread before the lock holds. *)
Definition pending_ok (w : BenchWorld) : Prop :=
  ∀ tid t1 inner_s, bw_pending w !! tid = Some (t1, inner_s) →
    (t1 <= bw_now w)%Q ∧
    (headless = true → inner_s = HEADLESS_IDLE_SECONDS) ∧
    (headless = false → (t1 - bw_real w <= inner_s)%Q ∧ ((bw_real w < t1)%Q → inner_s = (t1 - bw_real w)%Q)).

Record bench_ok (w : BenchWorld) : Prop := {
  bo_real : (bw_real w <= bw_now w)%Q;
  bo_tap : ∀ s, bw_tap w = Some s → (s <= bw_now w)%Q;
  bo_injected : ∀ s, bw_injected w = Some s → bw_tap w = Some s;
  bo_forgotten : headless = false → bw_injected w = None → ∀ s, bw_tap w = Some s → (s < bw_real w + gap)%Q;
  bo_pending : pending_ok w
}.

(** Under the lock, an injection is forgotten only for a reading below the time since it. *)
Lemma locked_spec inner_s now injected :
  let '(injected', r) := bench_locked inner_s now injected in
  match injected with
  | None => injected' = None ∧ r = inner_s
  | Some s => (injected' = None ∧ r = inner_s ∧ (inner_s < py_max2 0 (now - s))%Q) ∨
              (injected' = Some s ∧ r = py_max2 0 (now - s)%Q ∧ (py_max2 0 (now - s) <= inner_s)%Q)
  end.
Proof.
  unfold bench_locked, ZERO_IDLE_S. destruct injected as [s |]; [| done]. destruct (_ <?q _) eqn:Hlt; reflect_bools; [left | right]; done.
Qed.

Lemma since_nonneg now s : (s <= now)%Q → (py_max2 0 (now - s) == now - s)%Q.
Proof. intros Hs. unfold py_max2. destruct (_ <?q _) eqn:Hlt; reflect_bools; lra. Qed.

Lemma bench_step_ok x w w' r : bench_ok w → timely x w → bexec headless x w = Some (w', r) → bench_ok w'.
Proof.
  intros [Hreal Htap Hinj Hforg Hpend] Htimely. unfold bexec. destruct (_ <?q _) eqn:Hclock; [done |]. reflect_bools.
  destruct x as [t | t | tid t | tid t]; cbn in Hclock.
  - intros [= <- <-]. split; cbn; [lra | intros s Hs; specialize (Htap s Hs); lra | done | |].
    + intros Hh Hn s Hs. specialize (Hforg Hh Hn s Hs). lra.
    + intros tid t1 inner_s Hp. destruct (Hpend tid t1 inner_s Hp) as (H1 & H2 & H3). cbn. split_and!; [lra | done |].
      intros Hh. destruct (H3 Hh). split; [lra |]. intros ?. lra.
  - intros [= <- <-]. split; cbn; [lra | intros s [= <-]; lra | done | done |].
    intros tid t1 inner_s Hp. destruct (Hpend tid t1 inner_s Hp) as (H1 & H2 & H3). cbn. split_and!; [lra | done | done].
  - destruct (bw_pending w !! tid) eqn:Htid; [done |]. intros [= <- <-].
    split; cbn; [lra | intros s Hs; specialize (Htap s Hs); lra | done | done |].
    intros tid' t1 inner_s. cbn. rewrite lookup_insert_Some. intros [[<- [= <- <-]] | [_ Hp]].
    + split_and!; [lra | |]; intros Hh; rewrite Hh; [done |]. cbn. split; [lra | done].
    + destruct (Hpend tid' t1 inner_s Hp) as (H1 & H2 & H3). split_and!; [lra | done | done].
  - destruct (bw_pending w !! tid) as [[t1 inner_s] |] eqn:Htid; [| done].
    pose proof (locked_spec inner_s t (bw_injected w)) as Hl. destruct (bench_locked inner_s t (bw_injected w)) as [inj r'].
    intros [= <- <-]. specialize (Htimely tid t t1 inner_s eq_refl Htid). destruct (Hpend tid t1 inner_s Htid) as (Hle & Hh1 & Hh2).
    split; cbn; [lra | intros s Hs; specialize (Htap s Hs); lra | | |].
    + intros s ->. destruct (bw_injected w) as [s' |]; [| naive_solver]. destruct Hl as [(? & _) | ([= <-] & _)]; [done | by apply Hinj].
    + intros Hh -> s Hs. destruct (bw_injected w) as [s' |] eqn:Hi; [| by apply Hforg].
      destruct Hl as [(_ & _ & Hlt) | (? & _)]; [| done]. specialize (Hinj s' eq_refl). assert (s' = s) as -> by congruence.
      assert (Hsn : (py_max2 0 (t - s) == t - s)%Q) by (apply since_nonneg; specialize (Htap s Hs); lra). destruct (Hh2 Hh). lra.
    + intros tid' t1' inner' Hp. cbn in Hp. rewrite lookup_delete_Some in Hp. destruct Hp as [_ Hp].
      destruct (Hpend tid' t1' inner' Hp) as (H1 & H2 & H3). cbn. split_and!; [lra | done | done].
Qed.

Lemma breach_ok t0 w : breach t0 w → bench_ok w.
Proof.
  induction 1 as [| x w w' r _ IH Ht Hx]; [| by eapply bench_step_ok].
  split; cbn; [lra | done | done | done |]. intros tid t1 inner_s. cbn. by rewrite lookup_empty.
Qed.

End Bench.

(** However many threads read the bench's detector, and however their reads, simulated inputs and real inputs
    interleave, as long as a reader takes the lock within [gap] of reading the inner detector: a simulated input is seen by every
    reading after it, exactly as the time since it, until a real input comes that is later than [gap]
    before it (on a headless bench, whose inner reading is a constant, for as long as that constant is not
    reached); and once a real input is later than the last simulated one, a reading made after it is the time since the
    real one, so that the injection never hides a user who has come back. *)
Theorem bench_reading_exact headless gap t0 w tid t w' r t1 inner_s :
  breach headless gap t0 w → timely gap (TakeLock tid t) w → bw_pending w !! tid = Some (t1, inner_s) →
  bexec headless (TakeLock tid t) w = Some (w', Some r) →
  (∀ s, bw_tap w = Some s → headless = false → (bw_real w + gap <= s)%Q → (r == t - s)%Q) ∧
  (∀ s, bw_injected w = Some s → headless = true → (t - s <= HEADLESS_IDLE_SECONDS)%Q → (r == t - s)%Q ∧ bw_injected w' = Some s) ∧
  (headless = false → (bw_real w < t1)%Q → (∀ s, bw_tap w = Some s → (s < bw_real w)%Q) → (r == t1 - bw_real w)%Q).
Proof.
  intros Hw Htimely Hp Hx. apply breach_ok in Hw as [Hreal Htap Hinj Hforg Hpend]. specialize (Htimely tid t t1 inner_s eq_refl Hp).
  destruct (Hpend tid t1 inner_s Hp) as (Hle & Hh1 & Hh2). unfold bexec in Hx. destruct (_ <?q _) eqn:Hclock; [done |]. reflect_bools.
  cbn in Hclock. rewrite Hp in Hx. pose proof (locked_spec inner_s t (bw_injected w)) as Hl.
  destruct (bench_locked inner_s t (bw_injected w)) as [inj r']. injection Hx as <- ->. cbn [bw_injected].
  assert (Hsince : ∀ s, bw_tap w = Some s → (py_max2 0 (t - s) == t - s)%Q) by (intros s Hs; apply since_nonneg; specialize (Htap s Hs); lra).
  split_and!.
  - intros s Hs Hh Hfar. destruct (Hh2 Hh) as [Hlow _]. destruct (bw_injected w) as [s' |] eqn:Hi.
    + specialize (Hinj s' eq_refl). assert (s' = s) as -> by congruence. specialize (Hsince s Hs). destruct Hl as [(_ & -> & Hlt) | (_ & -> & _)]; lra.
    + specialize (Hforg Hh eq_refl s Hs). lra.
  - intros s Hs Hh Hmax. rewrite Hs in Hl. specialize (Hsince s (Hinj s Hs)). rewrite (Hh1 Hh) in Hl.
    destruct Hl as [(_ & _ & Hlt) | (-> & -> & _)]; [lra | done].
  - intros Hh Hlt Hall. destruct (Hh2 Hh) as [_ Heq]. rewrite (Heq Hlt) in *. destruct (bw_injected w) as [s |] eqn:Hi; [| by destruct Hl as [_ ->]].
    specialize (Hinj s eq_refl). specialize (Hsince s Hinj). specialize (Hall s Hinj).
    destruct Hl as [(_ & -> & _) | (_ & -> & Hge)]; lra.
Qed.

(** A thread that read the inner detector at 100, before a simulated input at 110, and takes the lock at 115. *)
Definition demo_bench : BenchWorld := {|
  bw_now := 110; bw_real := 0; bw_tap := Some 110%Q; bw_injected := Some 110%Q; bw_pending := {[1%nat := (100%Q, (100 - 0)%Q)]} |}.

Lemma bench_reading_exact_witness :
  ∃ w' r, bexec false (TakeLock 1 115) demo_bench = Some (w', Some r) ∧ (r == 115 - 110)%Q.
Proof.
  assert (Hw : breach false 20 0 demo_bench).
  { eapply (breach_step _ _ _ (Tap 110)); [eapply (breach_step _ _ _ (ReadInner 1 100)); [apply breach_start | done | reflexivity] | done | reflexivity]. }
  eexists _, _. split; [reflexivity |].
  refine (proj1 (bench_reading_exact false 20 0 demo_bench 1 115 _ _ 100 (100 - 0) Hw _ eq_refl eq_refl) 110%Q eq_refl eq_refl _).
  - intros tid t t1 inner_s [= <- <-]. cbn. intros [= <- <-]. vm_compute. discriminate.
  - vm_compute. discriminate.
Defined.
