(* ===== verification/Reconcile.v ===== *)
(** * Reconciliation of local replicas

    Models src/packages/fallow-agent/src/fallow_agent/main/: ports.py ([PortAllocator]),
    manifest.py ([ManifestFetcher.fetch]), shared.py ([DesiredModels]), the response handler of
    heartbeat_wiring.py and the whole of reconcile.py ([ReconcileLoop]).  The loop is a task with
    two awaits per started model, the manifest and the download; whatever happens between them
    (polls, suspensions, crashes, background stops, heartbeats) is a step of the environment.
    The supervisor is any implementation of the interface of main/protocols.py. *)

From S2P Require Export Preempt.

(** ** Ports *)

Record PortAllocator := { pa_start : Z; pa_count : Z; pa_used : gset Z }.

(** [PortAllocator.__init__]; [inl] is its [ValueError]. *)
Definition port_allocator (start count : Z) : string + PortAllocator :=
  if (start <=? 0)%Z then inl "port range start must be positive"
  else if (count <=? 0)%Z then inl "port range count must be positive"
  else inr {| pa_start := start; pa_count := count; pa_used := ∅ |}.

Definition with_used f (pa : PortAllocator) : PortAllocator := {|
  pa_start := pa_start pa; pa_count := pa_count pa; pa_used := f (pa_used pa) |}.

(** [range(self._start, self._start + self._count)] *)
Definition port_range (pa : PortAllocator) : list Z := seqZ (pa_start pa) (pa_count pa).

(** [allocate]: [None] is [PortExhaustedError]. *)
Definition allocate (pa : PortAllocator) : option (Z * PortAllocator) :=
  match list_find (λ port, port ∉ pa_used pa) (port_range pa) with
  | Some (_, port) => Some (port, with_used (λ used, {[port]} ∪ used) pa)
  | None => None
  end.

(** [release] *)
Definition release (port : Z) (pa : PortAllocator) : PortAllocator :=
  with_used (λ used, used ∖ {[port]}) pa.

(** [in_use] *)
Definition in_use (pa : PortAllocator) : gset Z := pa_used pa.

(** ** Manifests *)

(** The answer to the GET: an [httpx.HTTPError], or a status and a body. *)
Inductive GetReply := GetFailed | GetAnswer (status_code : Z) (content : string).

(** [ManifestFetcher.fetch]; [decode] is [ModelManifest.model_validate_json] and [None] is
    [ManifestFetchError]. *)
Definition fetch (decode : string → option ModelManifest) (reply : GetReply) : option ModelManifest :=
  match reply with
  | GetFailed => None
  | GetAnswer status_code content => if bool_decide (status_code = 200%Z) then decode content else None
  end.

(** ** The supervisor the loop drives *)

(** [Spawn] is what the operating system makes of a spawn.  The flag of a result
    is [false] when the call raised. *)
Class SupervisorLike (W Spawn : Type) := {
  sl_start_replica : Spawn → ModelManifest → Z → W → W * bool;
  sl_stop_replica : model_id → W → W * bool;
  sl_stop_all : W → W;
  sl_statuses : W → list ReplicaStatus
}.

(** [{s.model_id for s in statuses() if s.state in _LIVE_STATES}] *)
Definition live_models `{SupervisorLike W Spawn} (w : W) : gset model_id :=
  list_to_set (rs_model_id <$> filter (λ s, is_live (rs_state s) = true) (sl_statuses w)).

(** ** The loop *)

(** Where the task stands: not created or finished; at the test of [while]; in the await of the
    manifest of [m]; in the await of its download. *)
Inductive Task :=
  | NotRunning
  | AtLoop
  | Fetching (m : model_id) (starts stops : list model_id)
  | Ensuring (m : model_id) (manifest : ModelManifest) (starts stops : list model_id).

Record ReconcileLoop (W : Type) := {
  rl_sup : W;
  rl_ports : PortAllocator;
  rl_ports_by_model : gmap model_id Z;
  rl_desired : list model_id;           (* [DesiredModels] *)
  rl_running : bool;
  rl_task : Task
}.
Arguments rl_sup {W}.
Arguments rl_ports {W}.
Arguments rl_ports_by_model {W}.
Arguments rl_desired {W}.
Arguments rl_running {W}.
Arguments rl_task {W}.
Arguments Build_ReconcileLoop {W}.

(** [ReconcileLoop.__init__] *)
Definition reconcile_loop {W} (w : W) (ports : PortAllocator) : ReconcileLoop W := {|
  rl_sup := w; rl_ports := ports; rl_ports_by_model := ∅; rl_desired := []; rl_running := false;
  rl_task := NotRunning |}.

Section Loop.
  Context `{SupervisorLike W Spawn}.
  Local Abbreviation Loop := (ReconcileLoop W).

Definition set_rl_sup (w : W) (l : Loop) : Loop := {|
  rl_sup := w; rl_ports := rl_ports l; rl_ports_by_model := rl_ports_by_model l;
  rl_desired := rl_desired l; rl_running := rl_running l; rl_task := rl_task l |}.

Definition set_rl_ports (pa : PortAllocator) (by_model : gmap model_id Z) (l : Loop) : Loop := {|
  rl_sup := rl_sup l; rl_ports := pa; rl_ports_by_model := by_model;
  rl_desired := rl_desired l; rl_running := rl_running l; rl_task := rl_task l |}.

Definition set_rl_desired (d : list model_id) (l : Loop) : Loop := {|
  rl_sup := rl_sup l; rl_ports := rl_ports l; rl_ports_by_model := rl_ports_by_model l;
  rl_desired := d; rl_running := rl_running l; rl_task := rl_task l |}.

Definition set_rl_task (running : bool) (t : Task) (l : Loop) : Loop := {|
  rl_sup := rl_sup l; rl_ports := rl_ports l; rl_ports_by_model := rl_ports_by_model l;
  rl_desired := rl_desired l; rl_running := running; rl_task := t |}.

(** [_free_port] *)
Definition free_port (m : model_id) (l : Loop) : Loop :=
  match rl_ports_by_model l !! m with
  | Some port => set_rl_ports (release port (rl_ports l)) (delete m (rl_ports_by_model l)) l
  | None => l
  end.

(** [_reserve_port]: without a port when [allocate] raised. *)
Definition reserve_port (m : model_id) (l : Loop) : Loop * option Z :=
  let l := free_port m l in
  match allocate (rl_ports l) with
  | Some (port, pa) => (set_rl_ports pa (<[m := port]> (rl_ports_by_model l)) l, Some port)
  | None => (l, None)
  end.

(** The end of [_start_model], after its awaits; what it raises is logged. *)
Definition start_reserved (sp : Spawn) (m : model_id) (manifest : ModelManifest) (l : Loop) : Loop :=
  match reserve_port m l with
  | (l, None) => l
  | (l, Some port) => set_rl_sup (sl_start_replica sp manifest port (rl_sup l)).1 l
  end.

(** [_stop_model]: the port is freed whatever [stop_replica] raised. *)
Definition stop_model (l : Loop) (m : model_id) : Loop :=
  free_port m (set_rl_sup (sl_stop_replica m (rl_sup l)).1 l).

(** On to the next model to start, or the stops and the end of the pass. *)
Definition advance (starts stops : list model_id) (l : Loop) : Loop :=
  match starts with
  | m :: starts => set_rl_task (rl_running l) (Fetching m starts stops) l
  | [] => set_rl_task (rl_running l) AtLoop (fold_left stop_model stops l)
  end.

(** The order a Python set is walked in. *)
Definition walks (order : list model_id) (s : gset model_id) : bool :=
  bool_decide (NoDup order) && bool_decide (list_to_set order = s).

(** [reconcile_once] up to its first await.  [starts] and [stops] are the orders the two set
    differences are walked in. *)
Definition reconcile_once (reclaimed : bool) (state : AgentState) (starts stops : list model_id) (l : Loop)
    : option Loop :=
  if reclaimed then Some l
  else if negb (bool_decide (state = IDLE)) then Some l
  else
    let desired : gset model_id := list_to_set (rl_desired l) in
    let live := live_models (rl_sup l) in
    if walks starts (desired ∖ live) && walks stops (live ∖ desired) then Some (advance starts stops l) else None.

Inductive RLabel :=
  | RStart
  | RRequestStop
  | RStop
  | RTick (reclaimed : bool) (state : AgentState) (starts stops : list model_id)
  | RFetched (reply : GetReply)
  | REnsured (found : bool) (sp : Spawn)
  | RResponse (desired_models : list model_id)
  | REnv (w : W).

(** A stretch of the task between two awaits, a call of [start], [request_stop] or [stop], a
    heartbeat response, or a step of the environment, which leaves the supervisor at [w].  [None]
    when the step is not enabled. *)
Definition rexec (decode : string → option ModelManifest) (x : RLabel) (l : Loop) : option Loop :=
  match x with
  | RStart => Some (match rl_task l with NotRunning => set_rl_task true AtLoop l | _ => l end)
  | RRequestStop => Some (set_rl_task false (rl_task l) l)
  | RStop => Some (set_rl_task false NotRunning l)
  | RTick reclaimed state starts stops =>
      match rl_task l with
      | AtLoop =>
          if rl_running l then reconcile_once reclaimed state starts stops l
          else Some (set_rl_task false NotRunning l)
      | _ => None
      end
  | RFetched reply =>
      match rl_task l with
      | Fetching m starts stops =>
          Some (match fetch decode reply with
                | Some manifest => set_rl_task (rl_running l) (Ensuring m manifest starts stops) l
                | None => advance starts stops l
                end)
      | _ => None
      end
  | REnsured found sp =>
      match rl_task l with
      | Ensuring m manifest starts stops =>
          Some (advance starts stops (if found then start_reserved sp m manifest l else l))
      | _ => None
      end
  | RResponse desired_models => Some (set_rl_desired desired_models l)
  | REnv w => Some (set_rl_sup w l)
  end.

(** A schedule. *)
Fixpoint rrun (decode : string → option ModelManifest) (xs : list RLabel) (l : Loop) : option Loop :=
  match xs with
  | [] => Some l
  | x :: xs => l' ← rexec decode x l; rrun decode xs l'
  end.
End Loop.
Arguments RStart {W Spawn}.
Arguments RRequestStop {W Spawn}.
Arguments RStop {W Spawn}.
Arguments RTick {W Spawn}.
Arguments RFetched {W Spawn}.
Arguments REnsured {W Spawn}.
Arguments RResponse {W Spawn}.
Arguments REnv {W Spawn}.
Arguments RLabel : clear implicits.
