(* ===== verification/ReconcileSpec.v ===== *)
(** * What reconciliation promises

    Ports: the allocator gives the lowest free port and fails exactly when none is left; over
    every interleaving of the loop with its environment two live replicas never share a port.
    A pass whose downloads and spawns succeed leaves exactly the desired models live.  A port
    whose replica died is only returned by starting that model again. *)

From S2P Require Import SupervisorSpec.
From S2P Require Export Reconcile.

(** ** The allocator *)

Lemma elem_of_port_range pa p : p ∈ port_range pa ↔ (pa_start pa <= p < pa_start pa + pa_count pa)%Z.
Proof. unfold port_range. rewrite elem_of_seqZ. lia. Qed.

Lemma seqZ_order a n i j x y : seqZ a n !! i = Some x → seqZ a n !! j = Some y → (y < x)%Z → (j < i)%nat.
Proof. rewrite !lookup_seqZ. lia. Qed.

Lemma allocate_Some pa p pa' :
  allocate pa = Some (p, pa') →
  p ∈ port_range pa ∧ p ∉ in_use pa ∧ (∀ q, q ∈ port_range pa → (q < p)%Z → q ∈ in_use pa) ∧
  pa' = with_used (λ used, {[p]} ∪ used) pa.
Proof.
  unfold allocate, in_use. destruct (list_find _ _) as [[i q] |] eqn:Hf; [| done]. intros [= <- <-].
  apply list_find_Some in Hf as (Hi & Hfree & Hleast). split_and!; [by eapply list_elem_of_lookup_2 | done | | done].
  intros r (j & Hj)%list_elem_of_lookup Hr. eapply dec_stable, Hleast; [exact Hj |]. by eapply seqZ_order.
Qed.

Lemma allocate_None pa : allocate pa = None ↔ ∀ p, p ∈ port_range pa → p ∈ in_use pa.
Proof.
  unfold allocate, in_use. destruct (list_find _ _) as [[i q] |] eqn:Hf; split; try done.
  - apply list_find_Some in Hf as (Hi & Hfree & _). intros Hall. destruct Hfree. by eapply Hall, list_elem_of_lookup_2.
  - intros _ p Hp. apply list_find_None, Forall_forall with (x := p) in Hf; [| done]. by apply dec_stable.
Qed.

(** ** The interface *)

(** Model [m] has a live replica on port [p]. *)
Definition serves `{SupervisorLike W Spawn} (w : W) (m : model_id) (p : Z) : Prop :=
  ∃ st, st ∈ sl_statuses w ∧ rs_model_id st = m ∧ rs_port st = p ∧ is_live (rs_state st) = true.

(** What the loop relies on.  [sl_env] is what other threads do: they start no replica. *)
Class SupervisorLikeLaws (W Spawn : Type) `{SupervisorLike W Spawn} := {
  sl_inv : W → Prop;
  sl_env : W → W → Prop;
  sl_start_spec sp manifest port w :
    sl_inv w → (∀ p, ~ serves w (mm_model_id manifest) p) →
    let r := sl_start_replica sp manifest port w in
    sl_inv r.1 ∧ ∀ m p, serves r.1 m p ↔ serves w m p ∨ (r.2 = true ∧ m = mm_model_id manifest ∧ p = port);
  sl_stop_spec m w :
    sl_inv w →
    let w' := (sl_stop_replica m w).1 in sl_inv w' ∧ ∀ m' p, serves w' m' p ↔ serves w m' p ∧ m' ≠ m;
  sl_env_spec w w' : sl_inv w → sl_env w w' → sl_inv w' ∧ ∀ m p, serves w' m p → serves w m p
}.

Lemma elem_of_live_models `{SupervisorLike W Spawn} (w : W) m : m ∈ live_models w ↔ ∃ p, serves w m p.
Proof.
  unfold live_models, serves. rewrite elem_of_list_to_set, list_elem_of_fmap. setoid_rewrite list_elem_of_filter.
  split.
  - intros (st & -> & ? & ?). by exists (rs_port st), st.
  - intros (p & st & ? & <- & _ & ?). by exists st.
Qed.

(** ** Every interleaving *)

Section Safety.
  Context `{SupervisorLikeLaws W Spawn} (decode : string → option ModelManifest).
  Local Abbreviation Loop := (ReconcileLoop W).

(** The coordinator's manifest of a model names that model, and the environment is other threads. *)
Definition allowed (x : RLabel W Spawn) (l : Loop) : Prop :=
  match x with
  | REnv w => sl_env (rl_sup l) w
  | RFetched reply =>
      ∀ m starts stops manifest, rl_task l = Fetching m starts stops → fetch decode reply = Some manifest →
        mm_model_id manifest = m
  | _ => True
  end.

Definition rstep (l l' : Loop) : Prop := ∃ x, allowed x l ∧ rexec decode x l = Some l'.

(** The reservations: those of the loop are the used ports, one each, within the range. *)
Record ports_ok (pa : PortAllocator) (by_model : gmap model_id Z) : Prop := {
  po_used p : p ∈ in_use pa ↔ ∃ m, by_model !! m = Some p;
  po_inj m m' p : by_model !! m = Some p → by_model !! m' = Some p → m = m';
  po_range p : p ∈ in_use pa → p ∈ port_range pa
}.

Definition not_live (w : W) (m : model_id) : Prop := ∀ p, ~ serves w m p.

(** The models a task is still to start. *)
Definition pending (t : Task) : list model_id :=
  match t with Fetching m starts _ | Ensuring m _ starts _ => m :: starts | _ => [] end.

Definition task_names (t : Task) : Prop :=
  match t with Ensuring m manifest _ _ => mm_model_id manifest = m | _ => True end.

Record core_ok (l : Loop) : Prop := {
  lo_inv : sl_inv (rl_sup l);
  lo_ports : ports_ok (rl_ports l) (rl_ports_by_model l);
  lo_serves m p : serves (rl_sup l) m p → rl_ports_by_model l !! m = Some p
}.

Record loop_ok (l : Loop) : Prop := {
  lo_core : core_ok l;
  lo_nodup : NoDup (pending (rl_task l));
  lo_pending m : m ∈ pending (rl_task l) → not_live (rl_sup l) m;
  lo_names : task_names (rl_task l)
}.

Lemma port_release_ok pa by_model m p :
  ports_ok pa by_model → by_model !! m = Some p → ports_ok (release p pa) (delete m by_model).
Proof.
  intros [H1 H2 H3] Hm. unfold in_use in *. split; unfold in_use; cbn.
  - intros q. rewrite elem_of_difference, elem_of_singleton, H1. split.
    + intros [[m' Hm'] Hq]. exists m'. rewrite lookup_delete_Some. split; [congruence | done].
    + intros [m' [Hne Hm']%lookup_delete_Some]. split; [by exists m' |]. intros ->. by destruct Hne, (H2 m m' p).
  - intros m1 m2 q [_ ?]%lookup_delete_Some [_ ?]%lookup_delete_Some. eauto.
  - intros q [? _]%elem_of_difference. auto.
Qed.

Lemma allocate_ok pa by_model m p pa' :
  ports_ok pa by_model → by_model !! m = None → allocate pa = Some (p, pa') →
  ports_ok pa' (<[m := p]> by_model).
Proof.
  intros [H1 H2 H3] Hm (Hr & Hfree & _ & ->)%allocate_Some. unfold in_use in *.
  assert (Hnew : ∀ m', by_model !! m' ≠ Some p) by (intros m' Hm'; apply Hfree, H1; eauto).
  split; unfold in_use; cbn.
  - intros q. rewrite elem_of_union, elem_of_singleton, H1. split.
    + intros [-> | [m' Hm']]; [exists m; by rewrite lookup_insert_eq |].
      exists m'. rewrite lookup_insert_ne; [done | congruence].
    + intros [m' [[_ ->] | [_ ?]]%lookup_insert_Some]; eauto.
  - intros m1 m2 q [[E1 E2] | [? ?]]%lookup_insert_Some [[E3 E4] | [? ?]]%lookup_insert_Some; subst;
      solve [done | by destruct (Hnew m1) | by destruct (Hnew m2) | eauto].
  - intros q [->%elem_of_singleton | ?]%elem_of_union; [done | by apply H3].
Qed.

(** The frame of a port operation on [m]. *)
Lemma free_port_ok m (l : Loop) :
  ports_ok (rl_ports l) (rl_ports_by_model l) →
  let l' := free_port m l in
  ports_ok (rl_ports l') (rl_ports_by_model l') ∧ rl_sup l' = rl_sup l ∧ rl_task l' = rl_task l ∧
  rl_running l' = rl_running l ∧ rl_desired l' = rl_desired l ∧ rl_ports_by_model l' = delete m (rl_ports_by_model l) ∧
  port_range (rl_ports l') = port_range (rl_ports l).
Proof.
  intros Hp. unfold free_port. destruct (rl_ports_by_model l !! m) as [p |] eqn:Hm; cbn; split_and!; try done.
  - by eapply port_release_ok.
  - by rewrite delete_id.
Qed.

Lemma reserve_port_ok m (l : Loop) :
  ports_ok (rl_ports l) (rl_ports_by_model l) →
  match reserve_port m l with
  | (l', r) =>
      ports_ok (rl_ports l') (rl_ports_by_model l') ∧ rl_sup l' = rl_sup l ∧ rl_task l' = rl_task l ∧
      rl_running l' = rl_running l ∧ rl_desired l' = rl_desired l ∧
      port_range (rl_ports l') = port_range (rl_ports l) ∧
      rl_ports_by_model l' = match r with Some p => <[m := p]> (rl_ports_by_model l) | None => delete m (rl_ports_by_model l) end ∧
      (r = None → ∀ p, p ∈ port_range (rl_ports l) → ∃ m', m' ≠ m ∧ rl_ports_by_model l !! m' = Some p)
  end.
Proof.
  intros Hp. destruct (free_port_ok m l Hp) as (Hp' & E1 & E2 & E3 & E4 & E5 & E6). unfold reserve_port.
  destruct (allocate _) as [[p pa] |] eqn:Ha; cbn.
  - pose proof Ha as (_ & _ & _ & ->)%allocate_Some. split_and!; try done.
    + eapply allocate_ok; [exact Hp' | | exact Ha]. rewrite E5. apply lookup_delete_eq.
    + by rewrite E5, insert_delete_eq.
  - split_and!; try done. intros _ p Hr. rewrite <- E6 in Hr. rewrite allocate_None in Ha.
    apply Ha, (po_used _ _ Hp') in Hr as [m' Hm']. rewrite E5 in Hm'. apply lookup_delete_Some in Hm' as [? ?]. eauto.
Qed.

(** What an operation of the loop leaves alone. *)
Record same_control (l l' : Loop) : Prop := {
  sc_task : rl_task l' = rl_task l; sc_running : rl_running l' = rl_running l;
  sc_desired : rl_desired l' = rl_desired l; sc_range : port_range (rl_ports l') = port_range (rl_ports l)
}.

Lemma start_reserved_ok sp m manifest (l : Loop) :
  core_ok l → not_live (rl_sup l) m → mm_model_id manifest = m →
  let l' := start_reserved sp m manifest l in
  core_ok l' ∧ same_control l l' ∧ (∀ m' p, m' ≠ m → serves (rl_sup l') m' p ↔ serves (rl_sup l) m' p) ∧
  (∀ m', m' ≠ m → rl_ports_by_model l' !! m' = rl_ports_by_model l !! m').
Proof.
  intros [Hi Hp Hs] Hn <-. unfold start_reserved.
  pose proof (reserve_port_ok (mm_model_id manifest) l Hp) as Hr.
  destruct (reserve_port _ l) as [l1 [p |]]; destruct Hr as (Hp1 & E1 & E2 & E3 & E4 & E5 & E6 & _).
  - pose proof (sl_start_spec sp manifest p (rl_sup l) Hi Hn) as [Hi' Hsv].
    cbn. rewrite E1. split_and!; [split; cbn; [done | done |] | split; cbn; done | |].
    + intros m' q Hq. rewrite E6. apply Hsv in Hq as [Hq | (_ & -> & ->)]; [| apply lookup_insert_eq].
      rewrite lookup_insert_ne; [by apply Hs |]. intros <-. by apply (Hn q).
    + intros m' q Hne. rewrite Hsv. naive_solver.
    + intros m' Hne. rewrite E6. by apply lookup_insert_ne.
  - cbn. rewrite E1. split_and!; [split; [by rewrite E1 | done |] | by split | done |].
    + intros m' q Hq. rewrite E1 in Hq. rewrite E6. apply lookup_delete_Some. split; [| by apply Hs].
      intros <-. by apply (Hn q).
    + intros m' Hne. rewrite E6. by apply lookup_delete_ne.
Qed.

Lemma stop_model_ok m (l : Loop) :
  core_ok l →
  let l' := stop_model l m in
  core_ok l' ∧ same_control l l' ∧ (∀ m' p, serves (rl_sup l') m' p ↔ serves (rl_sup l) m' p ∧ m' ≠ m) ∧
  rl_ports_by_model l' = delete m (rl_ports_by_model l).
Proof.
  intros [Hi Hp Hs]. unfold stop_model. destruct (sl_stop_spec m (rl_sup l) Hi) as [Hi' Hsv].
  destruct (free_port_ok m (set_rl_sup (sl_stop_replica m (rl_sup l)).1 l) Hp) as (Hp' & E1 & E2 & E3 & E4 & E5 & E6).
  cbn in *. rewrite E1. split_and!; [split | by split | done | done].
  - by rewrite E1.
  - done.
  - intros m' p. rewrite E1, Hsv, E5. intros [? ?]. apply lookup_delete_Some. auto.
Qed.

Lemma stop_models_ok stops (l : Loop) :
  core_ok l →
  let l' := fold_left stop_model stops l in
  core_ok l' ∧ same_control l l' ∧ (∀ m p, serves (rl_sup l') m p ↔ serves (rl_sup l) m p ∧ m ∉ stops) ∧
  (∀ m, m ∉ stops → rl_ports_by_model l' !! m = rl_ports_by_model l !! m).
Proof.
  revert l. induction stops as [| m stops IH]; intros l Hl; cbn.
  { split_and!; [done | by split | set_solver | done]. }
  destruct (stop_model_ok m l Hl) as (Hl1 & [] & Hs & Hb).
  destruct (IH _ Hl1) as (Hl2 & [] & Hs2 & Hb2). split_and!; [done | split; congruence | |].
  - intros m' p. rewrite Hs2, Hs. set_solver.
  - intros m' Hm'. rewrite Hb2, Hb by set_solver. apply lookup_delete_ne. set_solver.
Qed.

Lemma core_ok_task running t (l : Loop) : core_ok l → core_ok (set_rl_task running t l).
Proof. by intros []. Qed.

Lemma advance_ok starts stops (l : Loop) :
  core_ok l → NoDup starts → (∀ m, m ∈ starts → not_live (rl_sup l) m) → loop_ok (advance starts stops l).
Proof.
  intros Hl Hnd Hn. destruct starts as [| m starts]; cbn.
  - split; cbn; [by apply core_ok_task, stop_models_ok | constructor | set_solver | done].
  - by split; cbn; [apply core_ok_task | | |].
Qed.

Lemma walks_spec order s : walks order s = true → NoDup order ∧ ∀ m, m ∈ order ↔ m ∈ s.
Proof.
  intros [Hn%bool_decide_eq_true Hs%bool_decide_eq_true]%andb_prop. split; [done |]. intros m. subst s. set_solver.
Qed.

Lemma reconcile_once_ok reclaimed state starts stops (l l' : Loop) :
  loop_ok l → reconcile_once reclaimed state starts stops l = Some l' → loop_ok l'.
Proof.
  intros Hl. unfold reconcile_once. destruct reclaimed; [by intros [= <-] |].
  destruct (negb _); [by intros [= <-] |]. destruct (walks starts _) eqn:Hw; [| done]. destruct (walks stops _); [| done].
  apply walks_spec in Hw as [Hnd Hin]. intros [= <-]. apply advance_ok; [apply Hl | done |].
  intros m [_ Hm]%Hin%elem_of_difference p Hp. apply Hm, elem_of_live_models. eauto.
Qed.

Lemma rexec_ok x (l l' : Loop) : loop_ok l → allowed x l → rexec decode x l = Some l' → loop_ok l'.
Proof.
  intros Hl Ha. pose proof Hl as [Hc Hn Hp Ht]. destruct x as [| | | r st s1 s2 | reply | found sp | d | w]; cbn.
  - intros [= <-]. destruct (rl_task l); [| done ..]. split; cbn; [by apply core_ok_task | constructor | set_solver | done].
  - intros [= <-]. by split; [apply core_ok_task | | |].
  - intros [= <-]. split; cbn; [by apply core_ok_task | constructor | set_solver | done].
  - destruct (rl_task l); try done. destruct (rl_running l); [by apply reconcile_once_ok |].
    intros [= <-]. split; cbn; [by apply core_ok_task | constructor | set_solver | done].
  - destruct (rl_task l) as [| | m starts stops |] eqn:Et; try done. intros [= <-]. cbn in Hn, Hp, Ht.
    destruct (fetch decode reply) as [manifest |] eqn:Ef.
    + split; cbn; [by apply core_ok_task | done | done | by eapply Ha].
    + apply advance_ok; [done | by apply NoDup_cons in Hn as [? ?] | intros m' ?; apply Hp; by right].
  - destruct (rl_task l) as [| | | m manifest starts stops] eqn:Et; try done. intros [= <-]. cbn in Hn, Hp, Ht.
    apply NoDup_cons in Hn as [Hm Hn]. destruct found; [| apply advance_ok; [done | done | intros m' ?; apply Hp; by right]].
    destruct (start_reserved_ok sp m manifest l Hc) as (Hc' & _ & Hs & _); [apply Hp; by left | done |].
    apply advance_ok; [done | done |]. intros m' Hm' p Hsv. apply Hs in Hsv; [| by intros ->].
    revert Hsv. apply Hp. by right.
  - by intros [= <-]; split; [destruct Hc | | |].
  - intros [= <-]. destruct (sl_env_spec (rl_sup l) w (lo_inv _ Hc) Ha) as [Hi Hs]. split; cbn; try done.
    + split; cbn; [done | apply Hc |]. intros m p ?%Hs. by apply Hc.
    + intros m Hm p Hsv%Hs. by apply (Hp m Hm p).
Qed.

Lemma rsteps_ok l l' : rtc rstep l l' → loop_ok l → loop_ok l'.
Proof. induction 1 as [| l l1 l2 (x & Ha & Hx) _ IH]; [done |]. intros Hl. by eapply IH, rexec_ok. Qed.

(** A loop that has not started, over a supervisor with no live replica. *)
Definition fresh_loop (l : Loop) (start count : Z) : Prop :=
  ∃ w pa, port_allocator start count = inr pa ∧ l = reconcile_loop w pa ∧ sl_inv w ∧ ∀ m, not_live w m.

Lemma fresh_loop_ok l start count : fresh_loop l start count → loop_ok l ∧ port_range (rl_ports l) = seqZ start count.
Proof.
  intros (w & pa & Hpa & -> & Hi & Hn). revert Hpa. unfold port_allocator.
  destruct (_ <=? _)%Z; [done |]. destruct (_ <=? _)%Z; [done |]. intros [= <-].
  split; [| done]. split; cbn; [| constructor | set_solver | done].
  split; cbn; [done | | intros m p []%Hn]. unfold in_use. split; unfold in_use; cbn; set_solver.
Qed.

Lemma advance_range starts stops (l : Loop) :
  core_ok l → port_range (rl_ports (advance starts stops l)) = port_range (rl_ports l).
Proof. intros Hl. destruct starts; [| done]. by destruct (stop_models_ok stops l Hl) as (_ & [] & _). Qed.

Lemma rexec_range x (l l' : Loop) :
  loop_ok l → rexec decode x l = Some l' → port_range (rl_ports l') = port_range (rl_ports l).
Proof.
  intros [Hc Hn Hp Ht]. destruct x as [| | | r st s1 s2 | reply | found sp | d | w]; cbn; try (by intros [= <-]).
  - intros [= <-]. by destruct (rl_task l).
  - destruct (rl_task l); try done. destruct (rl_running l); [| by intros [= <-]]. unfold reconcile_once.
    destruct r; [by intros [= <-] |]. destruct (negb _); [by intros [= <-] |].
    destruct (_ && _); [| done]. intros [= <-]. by apply advance_range.
  - destruct (rl_task l); try done. intros [= <-]. destruct (fetch decode reply); [done |]. by apply advance_range.
  - destruct (rl_task l) as [| | | m manifest starts stops] eqn:Et; try done. intros [= <-].
    destruct found; [| by apply advance_range].
    destruct (start_reserved_ok sp m manifest l Hc) as (Hc' & [] & _); [apply Hp; by left | done |].
    by rewrite advance_range.
Qed.

Lemma rsteps_range l l' : rtc rstep l l' → loop_ok l → port_range (rl_ports l') = port_range (rl_ports l).
Proof.
  induction 1 as [| l l1 l2 (x & Ha & Hx) _ IH]; [done |]. intros Hl.
  rewrite IH by (by eapply rexec_ok). by eapply rexec_range.
Qed.

Lemma loop_reached_ok l0 l start count :
  fresh_loop l0 start count → rtc rstep l0 l → loop_ok l ∧ port_range (rl_ports l) = seqZ start count.
Proof.
  intros [Hl0 Hr0]%fresh_loop_ok Hsteps. split; [by eapply rsteps_ok | by rewrite <- Hr0; apply rsteps_range].
Qed.

(** Over every interleaving of the loop with heartbeats, and with polls, crashes and stops of
    other threads that keep [sl_env_spec] (signals that do not overlap a stop of the same model;
    [supervisor_races] has one that does), whatever downloads, spawns and stops fail, every live
    replica listens on the port the loop holds for its model: within the configured range, marked
    as used, and shared with no other live replica. *)
Theorem live_ports_distinct l0 l start count :
  fresh_loop l0 start count → rtc rstep l0 l →
  (∀ m p, serves (rl_sup l) m p →
     rl_ports_by_model l !! m = Some p ∧ (start <= p < start + count)%Z ∧ p ∈ in_use (rl_ports l) ∧
     ∀ m', serves (rl_sup l) m' p → m' = m) ∧
  (∀ p, p ∈ in_use (rl_ports l) ↔ ∃ m, rl_ports_by_model l !! m = Some p).
Proof.
  intros Hf Hs. destruct (loop_reached_ok l0 l start count Hf Hs) as [[[_ [Hu Hinj Hrange] Hserves] _ _ _] Hr].
  split; [| done]. intros m p Hm%Hserves. assert (p ∈ in_use (rl_ports l)) as Hp by (apply Hu; eauto).
  pose proof (Hrange p Hp) as Hin. rewrite Hr, elem_of_seqZ in Hin. do 2 (split; [first [done | lia] |]).
  split; [done |]. intros m' Hm'%Hserves. eauto.
Qed.

(** ** A pass that succeeds *)

(** The task's labels for models whose manifest and download arrive. *)
Definition served (answers : list (GetReply * Spawn)) : list (RLabel W Spawn) :=
  answers ≫= λ a, [RFetched a.1; REnsured true a.2].

(** Each answer is the manifest of the model being started, and its spawn succeeds. *)
Fixpoint spawned (answers : list (GetReply * Spawn)) (l : Loop) : Prop :=
  match answers with
  | [] => True
  | (reply, sp) :: rest =>
      match rl_task l with
      | Fetching m _ _ =>
          ∃ manifest, fetch decode reply = Some manifest ∧ mm_model_id manifest = m ∧
            (∀ port, (sl_start_replica sp manifest port (rl_sup l)).2 = true) ∧
            ∀ l', rrun decode [RFetched reply; REnsured true sp] l = Some l' → spawned rest l'
      | _ => True
      end
  end.

(** Enough ports for the models holding one and those to be started. *)
Lemma reserve_enough m (l : Loop) (S : gset model_id) :
  ports_ok (rl_ports l) (rl_ports_by_model l) → dom (rl_ports_by_model l) ⊆ S → m ∈ S →
  (size S <= length (port_range (rl_ports l)))%nat → (reserve_port m l).2 ≠ None.
Proof.
  intros Hp Hd Hm Hsz Hnone. pose proof (reserve_port_ok m l Hp) as Hr.
  destruct (reserve_port m l) as [l1 r]. cbn in Hnone. subst r. destruct Hr as (_ & _ & _ & _ & _ & _ & _ & Hfull).
  specialize (Hfull eq_refl).
  assert (Hsub : port_range (rl_ports l) ⊆+ (map_to_list (delete m (rl_ports_by_model l))).*2).
  { apply NoDup_submseteq; [apply NoDup_seqZ |]. intros p (m' & Hne & Hm')%Hfull.
    apply list_elem_of_fmap. exists (m', p). split; [done |]. apply elem_of_map_to_list, lookup_delete_Some. auto. }
  apply submseteq_length in Hsub. rewrite length_fmap, length_map_to_list, <- size_dom in Hsub.
  assert (size (dom (delete m (rl_ports_by_model l))) <= size (S ∖ {[m]}))%nat as Hle.
  { apply subseteq_size. rewrite dom_delete_L. set_solver. }
  rewrite size_difference, size_singleton in Hle by set_solver.
  assert (size S ≠ 0)%nat; [| lia]. intros Hz%size_empty_inv. set_solver.
Qed.

Lemma start_reserved_serves sp m manifest (l : Loop) :
  core_ok l → not_live (rl_sup l) m → mm_model_id manifest = m → (reserve_port m l).2 ≠ None →
  (∀ port, (sl_start_replica sp manifest port (rl_sup l)).2 = true) →
  ∃ p, serves (rl_sup (start_reserved sp m manifest l)) m p.
Proof.
  intros [Hi Hp Hs] Hn <- Hport Hok. unfold start_reserved.
  pose proof (reserve_port_ok (mm_model_id manifest) l Hp) as Hr.
  destruct (reserve_port _ l) as [l1 [p |]]; [| done]. destruct Hr as (_ & E1 & _). cbn. rewrite E1.
  exists p. apply (sl_start_spec sp manifest p (rl_sup l) Hi Hn). auto.
Qed.

Lemma live_spec (w : W) m : m ∉ live_models w ↔ not_live w m.
Proof. rewrite elem_of_live_models. unfold not_live. naive_solver. Qed.

Lemma rrun_app xs ys (l : Loop) : rrun decode (xs ++ ys) l = rrun decode xs l ≫= rrun decode ys.
Proof. revert l. induction xs as [| x xs IH]; intros l; cbn; [done |]. by destruct (rexec decode x l); cbn. Qed.

Lemma served_pass starts answers stops (l : Loop) (S : gset model_id) :
  core_ok l → NoDup starts → (∀ m, m ∈ starts → not_live (rl_sup l) m ∧ m ∈ S) → length answers = length starts →
  dom (rl_ports_by_model l) ⊆ S → (size S <= length (port_range (rl_ports l)))%nat →
  spawned answers (advance starts stops l) →
  ∃ l', rrun decode (served answers) (advance starts stops l) = Some l' ∧ rl_task l' = AtLoop ∧
    ∀ m, m ∈ live_models (rl_sup l') ↔ (m ∈ live_models (rl_sup l) ∨ m ∈ starts) ∧ m ∉ stops.
Proof.
  revert answers l. induction starts as [| m starts IH]; intros [| [reply sp] answers] l Hc Hnd Hn Hlen Hd Hsz Hsp; try done.
  - cbn. eexists. split_and!; [done | done |]. destruct (stop_models_ok stops l Hc) as (_ & _ & Hs & _).
    intros m. cbn. rewrite !elem_of_live_models. setoid_rewrite Hs. set_solver.
  - destruct Hsp as (manifest & Ef & Em & Hok & Hrest). apply NoDup_cons in Hnd as [Hm Hnd].
    set (l0 := set_rl_task (rl_running l) (Ensuring m manifest starts stops) l).
    assert (Hc0 : core_ok l0) by (by apply core_ok_task). destruct (Hn m) as [Hnm HmS]; [by left |].
    destruct (start_reserved_ok sp m manifest l0 Hc0 Hnm Em) as (Hc1 & [_ _ _ Hr1] & Hs1 & Hb1).
    destruct (start_reserved_serves sp m manifest l0) as [p Hp]; [done | done | done | | done |].
    { by apply (reserve_enough m l0 S); [apply Hc0 | | |]. }
    set (l1 := start_reserved sp m manifest l0) in *.
    assert (Hrun : rrun decode [RFetched reply; REnsured true sp] (advance (m :: starts) stops l) = Some (advance starts stops l1)).
    { cbn. rewrite Ef. cbn. done. }
    destruct (IH answers l1) as (l' & Hl' & Ht & Hlive); try done.
    + intros m' Hm'. split; [| apply Hn; by right]. intros q Hq. apply Hs1 in Hq; [| by intros ->].
      destruct (Hn m') as [Hn' _]; [by right |]. by apply (Hn' q).
    + by injection Hlen.
    + intros m' [q Hq]%elem_of_dom. destruct (decide (m' = m)) as [-> | Hne]; [done |].
      rewrite Hb1 in Hq by done. apply Hd, elem_of_dom. eauto.
    + by rewrite Hr1.
    + by apply Hrest.
    + exists l'. split_and!; [| done |].
      * change (served ((reply, sp) :: answers)) with ([RFetched reply; REnsured true sp] ++ served answers).
        by rewrite rrun_app, Hrun.
      * intros m'. rewrite Hlive, elem_of_cons. destruct (decide (m' = m)) as [-> | Hne].
        { assert (m ∈ live_models (rl_sup l1)) by (apply elem_of_live_models; eauto). tauto. }
        rewrite !elem_of_live_models. setoid_rewrite (λ q, Hs1 m' q Hne). cbn. tauto.
Qed.

(** C25: when the user is away and the machine is not reclaimed, a pass in which every manifest is
    answered, every download and spawn succeeds and nothing else happens comes to its end with
    exactly the desired models live, provided the port range has room for the models that hold a
    port and those that are desired, whatever order the sets are walked in. *)
Theorem pass_converges l0 l start count starts stops answers :
  fresh_loop l0 start count → rtc rstep l0 l → rl_task l = AtLoop → rl_running l = true →
  walks starts (list_to_set (rl_desired l) ∖ live_models (rl_sup l)) = true →
  walks stops (live_models (rl_sup l) ∖ list_to_set (rl_desired l)) = true →
  (Z.of_nat (size (dom (rl_ports_by_model l) ∪ list_to_set (rl_desired l))) <= count)%Z →
  length answers = length starts → spawned answers (advance starts stops l) →
  ∃ l', rrun decode (RTick false IDLE starts stops :: served answers) l = Some l' ∧
    rl_task l' = AtLoop ∧ live_models (rl_sup l') = list_to_set (rl_desired l).
Proof.
  intros Hf Hs Ht Hrun Hw1 Hw2 Hsz Hlen Hsp. destruct (loop_reached_ok l0 l start count Hf Hs) as [[Hc _ _ _] Hr].
  cbn. rewrite Ht, Hrun. unfold reconcile_once. cbn. rewrite Hw1, Hw2. cbn.
  apply walks_spec in Hw1 as [Hnd1 Hin1]. apply walks_spec in Hw2 as [Hnd2 Hin2].
  destruct (served_pass starts answers stops l (dom (rl_ports_by_model l) ∪ list_to_set (rl_desired l)))
    as (l' & Hl' & Ht' & Hlive); try done.
  - intros m [? ?]%Hin1%elem_of_difference. split; [by apply live_spec | set_solver].
  - set_solver.
  - rewrite Hr, length_seqZ. lia.
  - exists l'. split_and!; [done | done |]. apply set_eq. intros m. rewrite Hlive, Hin1, Hin2, !elem_of_difference.
    destruct (decide (m ∈ live_models (rl_sup l))), (decide (m ∈@{gset _} list_to_set (rl_desired l))); tauto.
Qed.

(** ** Ports of the dead *)

Definition task_stops (t : Task) : list model_id :=
  match t with Fetching _ _ stops | Ensuring _ _ _ stops => stops | _ => [] end.

(** The loop holds [p] for [m], which is not live, not desired and not in the pass under way. *)
Record abandoned (l : Loop) (m : model_id) (p : Z) : Prop := {
  ab_port : rl_ports_by_model l !! m = Some p;
  ab_dead : not_live (rl_sup l) m;
  ab_undesired : m ∉ rl_desired l;
  ab_starts : m ∉ pending (rl_task l);
  ab_stops : m ∉ task_stops (rl_task l)
}.

(** A step that does not make a model of [S] desired. *)
Definition rstep_without (S : gset model_id) (l l' : Loop) : Prop :=
  ∃ x, allowed x l ∧ rexec decode x l = Some l' ∧
    match x with RResponse d => S ## list_to_set d | _ => True end.

Lemma advance_abandoned starts stops (l : Loop) m p :
  core_ok l → rl_ports_by_model l !! m = Some p → not_live (rl_sup l) m → m ∉ rl_desired l →
  m ∉ starts → m ∉ stops → abandoned (advance starts stops l) m p.
Proof.
  intros Hc Hp Hn Hd H1 H2. destruct starts as [| m' starts]; cbn.
  - destruct (stop_models_ok stops l Hc) as (_ & [? ? E ?] & Hs & Hb). split; cbn; [by rewrite Hb | | by rewrite E | set_solver ..].
    intros q [Hq _]%Hs. by apply (Hn q).
  - by split.
Qed.

Lemma rexec_abandoned x (l l' : Loop) m p :
  loop_ok l → allowed x l → match x with RResponse d => m ∉ d | _ => True end →
  rexec decode x l = Some l' → abandoned l m p → abandoned l' m p.
Proof.
  intros [Hc Hn Hpd Ht] Ha Hx He Hab. revert He. pose proof Hab as [Hp Hdead Hd H1 H2].
  destruct x as [| | | r st s1 s2 | reply | found sp | d | w]; cbn.
  - intros [= <-]. destruct (rl_task l); done.
  - intros [= <-]. done.
  - intros [= <-]. by split; cbn; try set_solver.
  - destruct (rl_task l) eqn:Et; try done. destruct (rl_running l); [| intros [= <-]; by split; cbn; try set_solver].
    unfold reconcile_once. destruct r; [by intros [= <-] |]. destruct (negb _); [by intros [= <-] |].
    destruct (walks s1 _) eqn:W1; [| done]. destruct (walks s2 _) eqn:W2; [| done]. cbn. intros [= <-].
    apply walks_spec in W1 as [_ W1], W2 as [_ W2]. apply advance_abandoned; try done.
    + rewrite W1. set_solver.
    + rewrite W2, elem_of_difference, elem_of_live_models. intros [[q Hq] _]. by apply (Hdead q).
  - destruct (rl_task l) as [| | m' starts stops |] eqn:Et; try done. cbn in H1, H2. intros [= <-].
    destruct (fetch decode reply); [by split |]. apply advance_abandoned; try done. set_solver.
  - destruct (rl_task l) as [| | | m' manifest starts stops] eqn:Et; try done. cbn in H1, H2, Hpd. intros [= <-].
    destruct found; [| apply advance_abandoned; try done; set_solver].
    destruct (start_reserved_ok sp m' manifest l Hc) as (Hc' & [_ _ E _] & Hs & Hb); [apply Hpd; by left | done |].
    assert (m ≠ m') by set_solver. apply advance_abandoned; [done | by rewrite Hb | | by rewrite E | set_solver | done].
    intros q Hq. apply Hs in Hq; [| done]. by apply (Hdead q).
  - intros [= <-]. by split.
  - intros [= <-]. split; cbn; try done. intros q Hq. apply (sl_env_spec (rl_sup l) w (lo_inv _ Hc) Ha) in Hq. by apply (Hdead q).
Qed.

Lemma steps_abandoned S l l' :
  rtc (rstep_without S) l l' → loop_ok l → loop_ok l' ∧ ∀ m p, m ∈ S → abandoned l m p → abandoned l' m p.
Proof.
  induction 1 as [| l l1 l2 (x & Ha & Hx & Hd) _ IH]; [done |]. intros Hl.
  destruct IH as [Hl2 Hab]; [by eapply rexec_ok |]. split; [done |]. intros m p Hm Hmp.
  apply Hab; [done |]. apply (rexec_abandoned x l l1); [done | done | | done | done].
  clear Hx Ha. destruct x; try exact I. set_solver.
Qed.

(** A replica that dies (a crash, the VRAM escalation, a background stop) keeps its port
    reserved, and the loop returns it only when it starts that model again: once every port of
    the range is held for models that are dead and no longer desired, no replica is live, and as
    long as the coordinator asks for none of those models none ever will be, whatever else it
    asks for and however long the loop runs. *)
Theorem dead_ports_starve l0 l l' start count (S : gset model_id) :
  fresh_loop l0 start count → rtc rstep l0 l →
  (∀ p, (start <= p < start + count)%Z → ∃ m, m ∈ S ∧ abandoned l m p) →
  rtc (rstep_without S) l l' →
  (∀ m, not_live (rl_sup l') m) ∧ (∀ m p, m ∈ S → abandoned l m p → rl_ports_by_model l' !! m = Some p) ∧
  allocate (rl_ports l') = None.
Proof.
  intros Hf Hs Hall Hss. destruct (loop_reached_ok l0 l start count Hf Hs) as [Hl Hr].
  destruct (steps_abandoned S l l' Hss Hl) as [[[_ [Hu Hinj Hrange] Hserves] _ _ _] Hab].
  assert (Hr' : port_range (rl_ports l') = seqZ start count).
  { rewrite <- Hr. apply rsteps_range; [| done]. eapply rtc_subrel; [| exact Hss]. intros a b (x & ? & ? & _). by exists x. }
  split_and!.
  - intros m p Hm. pose proof (Hserves _ _ Hm) as Hp. assert (p ∈ port_range (rl_ports l')) as Hin by (apply Hrange, Hu; eauto).
    rewrite Hr', elem_of_seqZ in Hin. destruct (Hall p) as (m' & Hm' & Hab'); [lia |].
    apply Hab in Hab' as [Hp' Hdead _ _ _]; [| done]. rewrite (Hinj m m' p Hp Hp') in Hm. by apply (Hdead p).
  - intros m p Hm Hmp. by destruct (Hab m p Hm Hmp).
  - apply allocate_None. intros p Hp. rewrite Hr', elem_of_seqZ in Hp. destruct (Hall p) as (m & Hm & Hmp); [lia |].
    apply Hu. exists m. by destruct (Hab m p Hm Hmp).
Qed.
End Safety.

(** ** Ports, whatever the supervisor does *)

Section Booking.
  Context `{SupervisorLike W Spawn} (decode : string → option ModelManifest).
  Local Abbreviation Loop := (ReconcileLoop W).

Definition booked (l : Loop) : Prop := ports_ok (rl_ports l) (rl_ports_by_model l).

Lemma stop_models_booked stops (l : Loop) :
  booked l → booked (fold_left stop_model stops l) ∧ port_range (rl_ports (fold_left stop_model stops l)) = port_range (rl_ports l).
Proof.
  revert l; induction stops as [| m stops IH]; intros l Hl; [done |]. cbn [fold_left].
  destruct (free_port_ok m (set_rl_sup (sl_stop_replica m (rl_sup l)).1 l) Hl) as (Hl' & _ & _ & _ & _ & _ & Hr).
  destruct (IH (stop_model l m) Hl') as [? ->]. by split.
Qed.

Lemma advance_booked starts stops (l : Loop) :
  booked l → booked (advance starts stops l) ∧ port_range (rl_ports (advance starts stops l)) = port_range (rl_ports l).
Proof. intros Hl. destruct starts; [by apply stop_models_booked | done]. Qed.

Lemma start_booked sp m manifest (l : Loop) :
  booked l → booked (start_reserved sp m manifest l) ∧
  port_range (rl_ports (start_reserved sp m manifest l)) = port_range (rl_ports l).
Proof.
  intros Hl. unfold start_reserved. pose proof (reserve_port_ok m l Hl) as Hr.
  destruct (reserve_port m l) as [l' [p |]]; destruct Hr as (Hp & _ & _ & _ & _ & E & _); done.
Qed.

Lemma rexec_booked x (l l' : Loop) :
  booked l → rexec (Spawn := Spawn) decode x l = Some l' → booked l' ∧ port_range (rl_ports l') = port_range (rl_ports l).
Proof.
  intros Hl. destruct x as [| | | r st s1 s2 | reply | found sp | d | w]; cbn; try (by intros [= <-]).
  - intros [= <-]. by destruct (rl_task l).
  - destruct (rl_task l); try done. destruct (rl_running l); [| by intros [= <-]]. unfold reconcile_once.
    destruct r; [by intros [= <-] |]. destruct (negb _); [by intros [= <-] |]. destruct (_ && _); [| done].
    intros [= <-]. by apply advance_booked.
  - destruct (rl_task l); try done. intros [= <-]. destruct (fetch decode reply); [done | by apply advance_booked].
  - destruct (rl_task l) as [| | | m manifest starts stops]; try done. intros [= <-].
    destruct found; [| by apply advance_booked]. destruct (start_booked sp m manifest l Hl) as [Hl' E].
    destruct (advance_booked starts stops _ Hl') as [? E']. by rewrite E', E.
Qed.

Lemma rrun_booked xs (l l' : Loop) :
  booked l → rrun (Spawn := Spawn) decode xs l = Some l' → booked l' ∧ port_range (rl_ports l') = port_range (rl_ports l).
Proof.
  revert l; induction xs as [| x xs IH]; intros l Hl; cbn; [by intros [= <-] |].
  destruct (rexec decode x l) as [l1 |] eqn:Hx; cbn; [| done]. intros Hr. destruct (rexec_booked x l l1 Hl Hx) as [Hl1 <-]. by apply IH.
Qed.

Lemma new_loop_booked (w : W) start count pa :
  port_allocator start count = inr pa → booked (reconcile_loop w pa) ∧ port_range pa = seqZ start count.
Proof.
  unfold port_allocator. destruct (_ <=? _)%Z; [done |]. destruct (_ <=? _)%Z; [done |]. intros [= <-].
  split; [| done]. unfold booked, in_use. split; unfold in_use; cbn; set_solver.
Qed.

(** The port a start is given, and what it leaves of the others. *)
Definition starts_on (l : Loop) (sp : Spawn) (m : model_id) (manifest : ModelManifest) (start count : Z) : Prop :=
  let l' := start_reserved sp m manifest l in
  (∀ m', m' ≠ m → rl_ports_by_model l' !! m' = rl_ports_by_model l !! m') ∧
  match rl_ports_by_model l' !! m with
  | Some p => (start <= p < start + count)%Z ∧ (∀ m', rl_ports_by_model l !! m' = Some p → m' = m) ∧
      (∀ q, (start <= q < p)%Z → ∃ m', m' ≠ m ∧ rl_ports_by_model l !! m' = Some q) ∧
      rl_sup l' = (sl_start_replica sp manifest p (rl_sup l)).1
  | None => (∀ q, (start <= q < start + count)%Z → ∃ m', m' ≠ m ∧ rl_ports_by_model l !! m' = Some q) ∧ rl_sup l' = rl_sup l
  end.

Lemma start_reserved_on (l : Loop) sp m manifest start count :
  booked l → port_range (rl_ports l) = seqZ start count → starts_on l sp m manifest start count.
Proof.
  intros Hl Hr. unfold starts_on, start_reserved, reserve_port.
  destruct (free_port_ok m l Hl) as (Hl' & E1 & _ & _ & _ & E5 & E6).
  assert (Hheld : ∀ q, q ∈ in_use (rl_ports (free_port m l)) → ∃ m', m' ≠ m ∧ rl_ports_by_model l !! m' = Some q).
  { intros q Hq. apply (po_used _ _ Hl') in Hq as [m' Hm']. rewrite E5, lookup_delete_Some in Hm'. destruct Hm'. eauto. }
  destruct (allocate (rl_ports (free_port m l))) as [[p pa] |] eqn:Ha; cbn.
  - apply allocate_Some in Ha as (Hin & Hfree & Hleast & ->). rewrite E6, Hr in *. rewrite elem_of_seqZ in Hin.
    split; [intros m' Hne; by rewrite E5, lookup_insert_ne, lookup_delete_ne |]. rewrite lookup_insert_eq, E1.
    split_and!; [lia | lia | | | done].
    + intros m' Hm'. destruct (decide (m' = m)) as [| Hne]; [done |]. destruct Hfree. apply (po_used _ _ Hl').
      exists m'. by rewrite E5, lookup_delete_ne.
    + intros q Hq. apply Hheld, Hleast; [rewrite elem_of_seqZ; lia | lia].
  - rewrite allocate_None, E6, Hr in Ha. split; [intros m' Hne; by rewrite E5, lookup_delete_ne |].
    rewrite E5, lookup_delete_eq. split; [| done]. intros q Hq. apply Hheld, Ha. rewrite elem_of_seqZ. lia.
Qed.

(** C23: the loop never books a port twice, whatever the supervisor and its threads do:
    after any schedule of the loop's own steps, heartbeat responses and arbitrary changes of the
    supervisor, whatever downloads, spawns and stops fail, the used ports are exactly those booked
    for some model, each for one model only and within the configured range; and a replica is
    started on the lowest port booked for no other model, or not at all when every port is. *)
Theorem ports_booked_once (w : W) start count pa xs (l : Loop) :
  port_allocator start count = inr pa → rrun (Spawn := Spawn) decode xs (reconcile_loop w pa) = Some l →
  (∀ p, p ∈ in_use (rl_ports l) ↔ ∃ m, rl_ports_by_model l !! m = Some p) ∧
  (∀ m m' p, rl_ports_by_model l !! m = Some p → rl_ports_by_model l !! m' = Some p → m = m') ∧
  (∀ m p, rl_ports_by_model l !! m = Some p → (start <= p < start + count)%Z) ∧
  ∀ sp m manifest, starts_on l sp m manifest start count.
Proof.
  intros Hpa Hrun. destruct (new_loop_booked w start count pa Hpa) as [H0 Hr0].
  destruct (rrun_booked xs _ l H0 Hrun) as [Hl Hr]. cbn in Hr. rewrite Hr0 in Hr. split_and!; try apply Hl.
  - intros m p Hm. assert (Hp : p ∈ in_use (rl_ports l)) by (apply (po_used _ _ Hl); eauto).
    apply (po_range _ _ Hl) in Hp. rewrite Hr, elem_of_seqZ in Hp. lia.
  - intros sp m manifest. by apply start_reserved_on.
Qed.
End Booking.
