(* ===== verification/ReconcileWorld.v ===== *)
(** * Reconciliation over the process supervisor

    [ChildProcessSupervisor] discharges the interface the reconcile loop is proved against, for
    other threads whose suspends and stops are not interrupted; and concrete runs of the loop. *)

From S2P Require Import SupervisorSpec PreemptSpec.
From S2P Require Export ReconcileSpec.

(** What the operating system makes of a spawn: an exception, or a fresh process and the time. *)
Definition WorldSpawn : Type := option (nat * Q).

(** [start_replica] *)
Definition world_start (sp : WorldSpawn) (manifest : ModelManifest) (port : Z) (w : World) : World * bool :=
  if bool_decide (is_Some (od_get (mm_model_id manifest) (children (w_sup w)))) then (w, true)
  else
    match sp with
    | None => (w, false)
    | Some (i, now) =>
        match wexec (StartReplica {| ch_id := i; ch_model := mm_model_id manifest; ch_port := port;
                                     ch_tracked := true; ch_started := now |}
                       (0 <? mm_min_vram_mb manifest)%Z) w with
        | Some w' => (w', true)
        | None => (w, false)
        end
    end.

#[export] Instance World_like : SupervisorLike World WorldSpawn := {|
  sl_start_replica := world_start; sl_stop_replica := λ m w, (stop_now m w, true);
  sl_stop_all := stop_all; sl_statuses := λ w, cached (w_sup w) |}.

(** Every child and every remembered state is live. *)
Record lively (s : Sup) : Prop := {
  lv_children m c : od_get m (children s) = Some c → ∃ st, od_get m (states s) = Some st ∧ is_live st = true;
  lv_pre m st : pre_suspend s !! m = Some st → is_live st = true
}.

Definition live_in (s : Sup) (m : model_id) : Prop := ∃ st, od_get m (states s) = Some st ∧ is_live st = true.

(** No model becomes live, and ports stay. *)
Record shrinks (s s' : Sup) : Prop := {
  sh_ports : ports s' = ports s;
  sh_live m : live_in s' m → live_in s m
}.

Lemma shrinks_refl s : shrinks s s.
Proof. done. Qed.

Lemma shrinks_trans s1 s2 s3 : shrinks s1 s2 → shrinks s2 s3 → shrinks s1 s3.
Proof. intros [E1 H1] [E2 H2]. split; [congruence | auto]. Qed.

(** ** What the cached statuses say *)

Lemma serves_world w m p :
  sup_ok (w_sup w) → serves w m p ↔ live_in (w_sup w) m ∧ ports (w_sup w) !! m = Some p.
Proof.
  intros [[Hwf _ _ Hports _] Hc]. unfold serves. cbn. rewrite Hc. unfold status_view. setoid_rewrite list_elem_of_fmap. split.
  - intros (st & ([m' x] & -> & Hin) & <- & <- & Hlive). cbn in *.
    destruct (Hports m') as [q Hq]; [apply list_elem_of_fmap; by exists (m', x) |]. rewrite Hq. cbn.
    split; [| done]. exists x. split; [by apply elem_of_od_get | done].
  - intros [(x & Hx & Hlive) Hp]. eexists. split_and!; [exists (m, x); split; [reflexivity | by apply od_get_elem] | done | | done].
    cbn. by rewrite Hp.
Qed.

Lemma shrinks_serves w w' :
  sup_ok (w_sup w) → sup_ok (w_sup w') → shrinks (w_sup w) (w_sup w') → ∀ m p, serves w' m p → serves w m p.
Proof. intros H1 H2 [Ep Hl] m p. rewrite !serves_world by done. rewrite Ep. naive_solver. Qed.

(** ** Locked sections *)

(** [set_state m STOPPED] on the states, when [m] has a port. *)
Lemma set_stopped_states m s m' :
  dicts_ok s → od_get m' (states (set_state m STOPPED s)) =
    if bool_decide (m' = m) then (if bool_decide (is_Some (ports s !! m)) then Some STOPPED else None) else od_get m' (states s).
Proof.
  intros [_ _ _ Hp _]. unfold set_state. destruct (ports s !! m) as [q |] eqn:E.
  - rewrite (bool_decide_eq_false_2 (Some q = None)) by done. cbn.
    destruct (bool_decide (STOPPED = STOPPED)); cbn; by rewrite od_get_set.
  - rewrite (bool_decide_eq_false_2 (is_Some None)) by (by intros []). cbn.
    destruct (bool_decide (m' = m)) eqn:Hm; [| done]. apply bool_decide_eq_true in Hm. subst m'.
    apply od_get_None. intros Hin%Hp. rewrite E in Hin. by destruct Hin.
Qed.

Lemma set_state_frame m st s :
  children (set_state m st s) = children s ∧ ports (set_state m st s) = ports s ∧ pre_suspend (set_state m st s) = pre_suspend s.
Proof. unfold set_state. destruct (_ && _); [done |]. by destruct (bool_decide _). Qed.

(** A model that is no child is marked stopped. *)
Lemma set_stopped_lively m s :
  dicts_ok s → lively s → od_get m (children s) = None → lively (set_state m STOPPED s) ∧
  shrinks s (set_state m STOPPED s) ∧ ~ live_in (set_state m STOPPED s) m ∧
  ∀ m', m' ≠ m → live_in (set_state m STOPPED s) m' ↔ live_in s m'.
Proof.
  intros Hd [Hc Hp] Hm. destruct (set_state_frame m STOPPED s) as (E1 & E2 & E3).
  assert (Hlive : ∀ m', live_in (set_state m STOPPED s) m' ↔ live_in s m' ∧ m' ≠ m).
  { intros m'. unfold live_in. setoid_rewrite (set_stopped_states m s m' Hd). case_bool_decide as Hm'; [subst |].
    - case_bool_decide; naive_solver.
    - naive_solver. }
  split_and!; [split | split | | ].
  - intros m' c. rewrite E1. intros Hm'. apply Hlive. split; [by eapply Hc | intros ->; congruence].
  - by rewrite E3.
  - done.
  - intros m' [? _]%Hlive. done.
  - intros [_ ?]%Hlive. done.
  - intros m' Hne. rewrite Hlive. tauto.
Qed.

Lemma pop_lively m s s' :
  children s' = od_pop m (children s) → states s' = states s → pre_suspend s' = delete m (pre_suspend s) →
  lively s → lively s' ∧ od_get m (children s') = None.
Proof.
  intros E1 E2 E3 [Hc Hp]. rewrite E1, od_get_pop, bool_decide_eq_true_2 by done. split; [| done]. split.
  - intros m' c. rewrite E1, E2, od_get_pop. case_bool_decide; [done | by apply Hc].
  - intros m' st. rewrite E3. intros [_ ?]%lookup_delete_Some. by eapply Hp.
Qed.

Lemma stop_locked_lively m s :
  sup_ok s → lively s → let s' := (stop_locked m s).1 in
  lively s' ∧ shrinks s s' ∧ ∀ m', live_in s' m' ↔ live_in s m' ∧ m' ≠ m.
Proof.
  intros [Hd _] Hl. unfold stop_locked. cbn.
  set (s0 := with_pre_suspend (delete m) (with_threads (delete m) (with_children (od_pop m) s))).
  destruct (pop_lively m s s0) as [Hl0 Hm]; [done .. |].
  assert (Hd0 : dicts_ok s0).
  { apply (dicts_ok_same (with_pre_suspend (delete m) (with_children (od_pop m) s))); try done. by apply dicts_ok_pop. }
  destruct (set_stopped_lively m s0 Hd0 Hl0 Hm) as (H1 & [E H2] & H3 & H4). split_and!; [done | by split |].
  intros m'. destruct (decide (m' = m)) as [-> | Hne]; [tauto |]. rewrite H4 by done. naive_solver.
Qed.

Lemma mark_ready_lively m s : lively s → lively (mark_ready m s) ∧ shrinks s (mark_ready m s).
Proof.
  intros [Hc Hp]. unfold mark_ready. case_bool_decide as Hm; [| done].
  assert (Hst : ∀ m', od_get m' (states (set_state m READY s)) = if bool_decide (m' = m) then Some READY else od_get m' (states s)).
  { intros m'. unfold set_state. rewrite (bool_decide_eq_false_2 (READY = STOPPED)), andb_false_r by done. cbn. by rewrite od_get_set. }
  destruct (set_state_frame m READY s) as (E1 & E2 & E3). split; split.
  - intros m' c. rewrite E1, Hst. intros Hm'%Hc. case_bool_decide; [by exists READY | done].
  - rewrite E3. done.
  - done.
  - intros m' (st & Hst' & Hlive). rewrite Hst in Hst'. case_bool_decide; [subst; by exists LOADING | by exists st].
Qed.

Lemma mark_crashed_lively c s : sup_ok s → lively s → lively (mark_crashed c s) ∧ shrinks s (mark_crashed c s).
Proof.
  intros [Hd _] Hl. unfold mark_crashed.
  set (s0 := with_pre_suspend (delete (ch_model c)) (with_children (od_pop (ch_model c)) s)).
  destruct (pop_lively (ch_model c) s s0) as [Hl0 Hm]; [done .. |].
  case_bool_decide; [| split; [done |]; split; [done |]; naive_solver].
  destruct (set_stopped_lively (ch_model c) s0 (dicts_ok_pop _ _ Hd) Hl0 Hm) as (H1 & [E H2] & _). by split.
Qed.

Lemma poll_slots_lively c n s : lively s → lively (poll_slots c n s) ∧ shrinks s (poll_slots c n s).
Proof.
  intros [Hc Hp]. unfold poll_slots. destruct n as [n |]; [destruct (n <? 0)%Z |]; by destruct (is_ready c s).
Qed.

(** [commit_one] for a model that is still a child: no other model is touched. *)
Lemma commit_one_lively b vanished s c :
  lively s → live_in s (ch_model c) →
  lively (commit_one b vanished s c) ∧ shrinks s (commit_one b vanished s c) ∧
  ∀ m, m ≠ ch_model c → (live_in (commit_one b vanished s c) m ↔ live_in s m).
Proof.
  intros [Hc Hp] (cur & Hcur & Hlive). unfold commit_one. case_bool_decide as Hv.
  - unfold prune. cbn. rewrite bool_decide_eq_true_2 by (rewrite Hcur; by eexists). split_and!; [split | split |]; cbn.
    + intros m c'. fold (od_pop (ch_model c) (children s)). rewrite od_get_pop, od_get_set. case_bool_decide; [done | by apply Hc].
    + intros m st [_ ?]%lookup_delete_Some. by eapply Hp.
    + done.
    + intros m (st & Hst & Hl). cbn in Hst. rewrite od_get_set in Hst. case_bool_decide; [by simplify_eq | by exists st].
    + intros m Hne. unfold live_in. cbn. by rewrite od_get_set, bool_decide_eq_false_2 by done.
  - rewrite Hcur. assert (Hnew : ∀ st, is_live st = true → ∀ s', states s' = od_set (ch_model c) st (states s) →
      children s' = children s → ports s' = ports s → (∀ m x, pre_suspend s' !! m = Some x → is_live x = true) →
      lively s' ∧ shrinks s s' ∧ ∀ m, m ≠ ch_model c → (live_in s' m ↔ live_in s m)).
    { intros st Hl s' Es Ec Ep Hpre. split_and!; [split; [| done] | split; [done |] |].
      - intros m c'. rewrite Ec, Es, od_get_set. intros Hm%Hc. case_bool_decide; [by exists st | done].
      - intros m (x & Hx & Hlx). rewrite Es, od_get_set in Hx. case_bool_decide; [subst; by exists cur | by exists x].
      - intros m Hne. unfold live_in. by rewrite Es, od_get_set, bool_decide_eq_false_2 by done. }
    unfold transition_signal. destruct b.
    + apply (Hnew SUSPENDED); try done; destruct (bool_decide (cur = SUSPENDED)); cbn; try done.
      intros m x [[_ <-] | [_ ?]]%lookup_insert_Some; [done | by eapply Hp].
    + apply (Hnew (default cur (pre_suspend s !! ch_model c))); try done; cbn.
      * destruct (pre_suspend s !! ch_model c) eqn:E; cbn; [by eapply Hp | done].
      * intros m x [_ ?]%lookup_delete_Some. by eapply Hp.
Qed.

Lemma commit_all_lively b vanished cs s :
  NoDup (ch_model <$> cs) → lively s → (∀ c, c ∈ cs → live_in s (ch_model c)) →
  lively (fold_left (commit_one b vanished) cs s) ∧ shrinks s (fold_left (commit_one b vanished) cs s).
Proof.
  revert s. induction cs as [| c cs IH]; intros s; cbn; [done |]. intros [Hc Hnd]%NoDup_cons Hl Hcs.
  destruct (commit_one_lively b vanished s c Hl) as (Hl1 & Hs1 & Hk); [apply Hcs; by left |].
  destruct (IH (commit_one b vanished s c) Hnd Hl1) as [Hl2 Hs2].
  - intros c' Hc'. apply Hk; [| apply Hcs; by right]. intros Heq. apply Hc, list_elem_of_fmap. by exists c'.
  - split; [done | by eapply shrinks_trans].
Qed.

(** ** Every live replica has a child *)

Definition backed (s : Sup) : Prop := ∀ m, live_in s m → is_Some (od_get m (children s)).

(** A model that lost its child is not live, the others kept theirs. *)
Lemma backed_pop m s s' :
  backed s → (∀ m', live_in s' m' → live_in s m' ∧ m' ≠ m) → children s' = od_pop m (children s) → backed s'.
Proof. intros Hb Hl Hc m' [Hlive Hne]%Hl. rewrite Hc, od_get_pop, bool_decide_eq_false_2 by done. by apply Hb. Qed.

Lemma backed_keep s s' : backed s → shrinks s s' → children s' = children s → backed s'.
Proof. intros Hb [_ Hs] Hc m Hlive%Hs. rewrite Hc. by apply Hb. Qed.

Lemma mark_crashed_backed c s : sup_ok s → lively s → backed s → backed (mark_crashed c s).
Proof.
  intros [Hd Hca] Hl Hb. unfold mark_crashed.
  set (s0 := with_pre_suspend (delete (ch_model c)) (with_children (od_pop (ch_model c)) s)).
  destruct (pop_lively (ch_model c) s s0) as [Hl0 Hm]; [done .. |].
  case_bool_decide as Hk.
  - destruct (set_stopped_lively (ch_model c) s0 (dicts_ok_pop _ _ Hd) Hl0 Hm) as (_ & [_ H2] & H3 & _).
    apply (backed_pop (ch_model c) s); [done | | by destruct (set_state_frame (ch_model c) STOPPED s0) as (-> & _)].
    intros m' Hlive. split; [by apply H2 in Hlive | intros ->; by apply H3].
  - apply (backed_pop (ch_model c) s); [done | | done]. intros m' Hlive. split; [done |]. intros ->.
    destruct Hlive as (st & Hst & _). apply Hk. by exists st.
Qed.

Lemma commit_one_backed b vanished s c :
  lively s → live_in s (ch_model c) → backed s → backed (commit_one b vanished s c).
Proof.
  intros Hl Hc Hb. destruct (commit_one_lively b vanished s c Hl Hc) as (_ & Hs & _). revert Hs. unfold commit_one.
  destruct Hc as (cur & Hcur & Hlive). case_bool_decide as Hv; intros Hs.
  - apply (backed_pop (ch_model c) s); [done | | by rewrite prune_children]. intros m' Hm'.
    split; [by apply Hs |]. intros ->. destruct Hm' as (st & Hst & Hl'). unfold prune in Hst. cbn in Hst.
    rewrite bool_decide_eq_true_2 in Hst by (rewrite Hcur; by eexists). cbn in Hst. rewrite od_get_set_eq in Hst. by simplify_eq.
  - apply (backed_keep s); [done | done |]. rewrite Hcur. unfold transition_signal.
    by destruct b; [destruct (bool_decide _) |].
Qed.

Lemma commit_all_backed b vanished cs s :
  NoDup (ch_model <$> cs) → lively s → (∀ c, c ∈ cs → live_in s (ch_model c)) → backed s →
  backed (fold_left (commit_one b vanished) cs s).
Proof.
  revert s. induction cs as [| c cs IH]; intros s; cbn; [done |]. intros [Hc Hnd]%NoDup_cons Hl Hcs Hb.
  destruct (commit_one_lively b vanished s c Hl) as (Hl1 & _ & Hk); [apply Hcs; by left |].
  apply IH; [done | done | | apply commit_one_backed; [done | apply Hcs; by left | done]].
  intros c' Hc'. apply Hk; [| apply Hcs; by right]. intros Heq. apply Hc, list_elem_of_fmap. by exists c'.
Qed.

(** ** The instance *)

(** A step of the health threads, of a process, or of a stop under way. *)
Definition is_thread (x : WLabel) : bool :=
  match x with
  | Terminate _ | ProcExit _ | HealthProbe _ | HealthReady _ | HealthTimeout _ | HealthExit _
  | HealthCrashed _ | HealthStop _ | HealthSlots _ _ => true
  | StartReplica _ _ | StopReplica _ | SignalStart _ | SignalNext | SignalCommit => false
  end.

(** What the other threads do: undisturbed signals of the poll thread, stops of the escalation and
    of the reclaim thread, and the health threads. *)
Inductive world_env (w : World) : World → Prop :=
  | EnvSignal b : world_env w (apply_signal b w)
  | EnvStop m : world_env w (stop_now m w)
  | EnvThread x w' : is_thread x = true → wexec x w = Some w' → world_env w w'.

Record world_inv (w : World) : Prop := {
  wi_sup : sup_ok (w_sup w); wi_lively : lively (w_sup w); wi_backed : backed (w_sup w)
}.

Lemma apply_signal_lively b w :
  world_inv w → lively (w_sup (apply_signal b w)) ∧ shrinks (w_sup w) (w_sup (apply_signal b w)) ∧ backed (w_sup (apply_signal b w)).
Proof.
  intros [[Hd _] Hl Hb]. unfold apply_signal. destruct (fold_left (signal_one b) _ _) as [procs vanished]. cbn.
  destruct (children_models _ Hd) as [Hm Hg]. unfold commit_signal.
  assert (Hnd : NoDup (ch_model <$> (children (w_sup w)).*2)) by (unfold models in Hm; rewrite Hm; apply Hd).
  assert (Hcs : ∀ c, c ∈ (children (w_sup w)).*2 → live_in (w_sup w) (ch_model c)).
  { intros c Hc. by eapply (lv_children _ Hl), Hg. }
  destruct (commit_all_lively b vanished _ _ Hnd Hl Hcs) as [[? ?] [? ?]].
  pose proof (commit_all_backed b vanished _ _ Hnd Hl Hcs Hb). split_and!; [by split | by split | done].
Qed.

Lemma stop_now_sup m w :
  states (w_sup (stop_now m w)) = states (stop_locked m (w_sup w)).1 ∧
  children (w_sup (stop_now m w)) = children (stop_locked m (w_sup w)).1 ∧
  ports (w_sup (stop_now m w)) = ports (stop_locked m (w_sup w)).1 ∧
  pre_suspend (w_sup (stop_now m w)) = pre_suspend (stop_locked m (w_sup w)).1.
Proof. unfold stop_now. destruct (stop_locked m (w_sup w)) as [s [c |]]; done. Qed.

Lemma stop_now_lively m w :
  world_inv w → lively (w_sup (stop_now m w)) ∧ shrinks (w_sup w) (w_sup (stop_now m w)) ∧
  backed (w_sup (stop_now m w)) ∧ ∀ m', live_in (w_sup (stop_now m w)) m' ↔ live_in (w_sup w) m' ∧ m' ≠ m.
Proof.
  intros [Hs Hl Hb]. destruct (stop_locked_lively m (w_sup w) Hs Hl) as ([Hc Hp] & [Ep Hsh] & Hlive).
  destruct (stop_now_sup m w) as (E1 & E2 & E3 & E4).
  assert (Hlive' : ∀ m', live_in (w_sup (stop_now m w)) m' ↔ live_in (w_sup w) m' ∧ m' ≠ m).
  { unfold live_in in *. by rewrite E1. }
  split_and!; [split | split | | done]; unfold live_in; rewrite ?E1, ?E2, ?E3, ?E4; try done.
  apply (backed_pop m (w_sup w)); [done | by intros m' ?%Hlive' |]. rewrite E2. unfold stop_locked. cbn.
  by rewrite set_state_children.
Qed.

Lemma thread_lively x w w' :
  world_inv w → is_thread x = true → wexec x w = Some w' →
  lively (w_sup w') ∧ shrinks (w_sup w) (w_sup w') ∧ backed (w_sup w').
Proof.
  intros [Hs Hl Hb] Hx Hw. assert (Hkeep : ∀ s', lively s' ∧ shrinks (w_sup w) s' → children s' = children (w_sup w) →
    lively s' ∧ shrinks (w_sup w) s' ∧ backed s').
  { intros s' [? ?] Hc. split_and!; [done | done | by eapply backed_keep]. }
  destruct x; try done; cbn in Hw.
  - destruct (bool_decide _); [| done]. injection Hw as <-. by destruct Hl.
  - by injection Hw as <-.
  - destruct (w_health w !! i) as [[c []] |]; try done. destruct (w_procs w !! i); [| done]. destruct (_ && _); [| done].
    by injection Hw as <-.
  - destruct (w_health w !! i) as [[c []] |]; try done. injection Hw as <-. apply Hkeep; [by apply mark_ready_lively |].
    unfold mark_ready. cbn. by destruct (bool_decide _); [apply set_state_children |].
  - destruct (w_health w !! i) as [[c []] |]; try done. by injection Hw as <-.
  - destruct (w_health w !! i) as [[c []] |]; try done; destruct (is_alive _ _); try done; by injection Hw as <-.
  - destruct (w_health w !! i) as [[c []] |]; try done. injection Hw as <-.
    destruct (mark_crashed_lively c (w_sup w) Hs Hl). split_and!; [done | done | by apply mark_crashed_backed].
  - destruct (w_health w !! i) as [[c []] |]; try done; destruct (bool_decide _); try done; by injection Hw as <-.
  - destruct (w_health w !! i) as [[c []] |]; try done. injection Hw as <-. apply Hkeep; [by apply poll_slots_lively |].
    unfold poll_slots. cbn. destruct count as [n |]; [destruct (n <? 0)%Z |]; by destruct (is_ready c _).
Qed.

Lemma world_env_spec w w' : world_inv w → world_env w w' → world_inv w' ∧ ∀ m p, serves w' m p → serves w m p.
Proof.
  intros Hw Hstep. pose proof Hw as [Hs Hl Hb].
  assert (sup_ok (w_sup w') ∧ lively (w_sup w') ∧ shrinks (w_sup w) (w_sup w') ∧ backed (w_sup w')) as (Hs' & Hl' & Hsh & Hb').
  { destruct Hstep as [b | m | x w' Hx Hwx].
    - split; [by apply apply_signal_ok | by apply apply_signal_lively].
    - split; [by apply stop_now_ok |]. by destruct (stop_now_lively m w Hw) as (? & ? & ? & _).
    - split; [by eapply wexec_ok | by eapply thread_lively]. }
  split; [by split | by apply shrinks_serves].
Qed.

Lemma world_stop_spec m w :
  world_inv w → world_inv (stop_now m w) ∧ ∀ m' p, serves (stop_now m w) m' p ↔ serves w m' p ∧ m' ≠ m.
Proof.
  intros Hw. pose proof Hw as [Hs Hl Hb]. destruct (stop_now_lively m w Hw) as (Hl' & [Ep _] & Hb' & Hlive).
  split; [split; [by apply stop_now_ok | done | done] |]. intros m' p.
  rewrite !serves_world by (done || by apply stop_now_ok). rewrite Ep, Hlive. tauto.
Qed.

(** The states after a registration. *)
Lemma register_lively c g s :
  lively s → let s' := register_child c g s in
  lively s' ∧ ports s' = <[ch_model c := ch_port c]> (ports s) ∧
  (∀ m, live_in s' m ↔ live_in s m ∨ m = ch_model c) ∧ children s' = od_set (ch_model c) c (children s).
Proof.
  intros [Hc Hp]. unfold register_child, set_state. cbn. rewrite lookup_insert_eq.
  rewrite bool_decide_eq_false_2 by done. cbn. rewrite (bool_decide_eq_false_2 (LOADING = STOPPED)) by done. cbn.
  assert (Hlive : ∀ m, (∃ st, od_get m (od_set (ch_model c) LOADING (states s)) = Some st ∧ is_live st = true) ↔
    live_in s m ∨ m = ch_model c).
  { intros m. rewrite od_get_set. case_bool_decide as Hm; [subst; split; [auto | intros _; by exists LOADING] |]. unfold live_in. naive_solver. }
  split_and!; [split; cbn | done | done | done].
  - intros m c'. rewrite od_get_set. intros Hm. apply Hlive. case_bool_decide; [auto | left; by eapply Hc].
  - intros m st ?. by eapply Hp.
Qed.

Lemma world_start_spec sp manifest port w :
  world_inv w → (∀ p, ~ serves w (mm_model_id manifest) p) →
  let r := world_start sp manifest port w in
  world_inv r.1 ∧ ∀ m p, serves r.1 m p ↔ serves w m p ∨ (r.2 = true ∧ m = mm_model_id manifest ∧ p = port).
Proof.
  intros [Hs Hl Hb] Hn. assert (Hdead : ~ live_in (w_sup w) (mm_model_id manifest)).
  { intros Hlive. pose proof Hlive as (st & Hst & _). assert (mm_model_id manifest ∈ (states (w_sup w)).*1) as Hin.
    { apply od_get_is_Some. eauto. }
    destruct Hs as [Hd Hca]. destruct (ok_ports _ Hd _ Hin) as [p Hp]. apply (Hn p), serves_world; [by split | done]. }
  unfold world_start. rewrite bool_decide_eq_false_2 by (intros [c Hc]; by eapply Hdead, (lv_children _ Hl)).
  destruct sp as [[i now] |]; [| by split; [split | cbn; naive_solver]].
  destruct (wexec _ w) as [w' |] eqn:Hw; [| by split; [split | cbn; naive_solver]]. cbn [fst snd].
  pose proof (wexec_ok _ _ _ Hs Hw) as Hs'. cbn in Hw. destruct (_ && _); [| done]. injection Hw as <-.
  match goal with |- context [register_child ?c ?g _] => destruct (register_lively c g (w_sup w) Hl) as ([Hc Hp] & Ep & Hlive & Ec) end.
  split; [split; [done | by split |] |].
  { intros m Hm. cbn. rewrite Ec, od_get_set. case_bool_decide as E; [by eexists |]. apply Hlive in Hm as [? | ?]; [by apply Hb | done]. } intros m p. rewrite !serves_world by done. cbn. rewrite Ep. cbn.
  unfold live_in in Hlive |- *. cbn in Hlive |- *. rewrite Hlive. fold (live_in (w_sup w) m). fold (live_in (w_sup w) m) in Hlive.
  destruct (decide (m = mm_model_id manifest)) as [-> | Hne].
  - rewrite lookup_insert_eq. naive_solver.
  - rewrite lookup_insert_ne by done. naive_solver.
Qed.

#[export] Instance World_like_laws : SupervisorLikeLaws World WorldSpawn := {|
  sl_inv := world_inv; sl_env := world_env; sl_start_spec := world_start_spec;
  sl_stop_spec := world_stop_spec; sl_env_spec := world_env_spec |}.

(** ** Concrete runs *)

Fixpoint allowed_run `{SupervisorLikeLaws W Spawn} decode (xs : list (RLabel W Spawn)) (l : ReconcileLoop W) : Prop :=
  match xs with
  | [] => True
  | x :: xs => allowed decode x l ∧ match rexec decode x l with Some l' => allowed_run decode xs l' | None => False end
  end.

Lemma allowed_steps `{SupervisorLikeLaws W Spawn} decode (xs : list (RLabel W Spawn)) (l : ReconcileLoop W) :
  allowed_run decode xs l → rtc (rstep decode) l (default l (rrun decode xs l)).
Proof.
  revert l. induction xs as [| x xs IH]; intros l; cbn; [by intros _ |]. intros [Ha Hr].
  destruct (rexec decode x l) as [l' |] eqn:Hx; [| done]. cbn. eapply rtc_l; [by exists x |].
  specialize (IH l' Hr). destruct (rrun decode xs l') as [l2 |] eqn:Hl2; cbn in *; [done |].
  exfalso. clear -Hr Hl2. revert l' Hr Hl2. induction xs as [| y ys IHy]; intros l' Hr Hl2; cbn in *; [done |].
  destruct Hr as [_ Hr]. destruct (rexec decode y l') as [l3 |] eqn:E; [| done]. by apply (IHy l3).
Qed.

(** A coordinator whose manifest of a model is its name. *)
Definition demo_decode (content : string) : option ModelManifest := Some {|
  mm_model_id := content; mm_family := "f"; mm_quant := "q"; mm_worker_kind := CHAT; mm_file_name := "m.gguf";
  mm_sha256 := ""; mm_size_bytes := 1; mm_min_ram_mb := 1; mm_min_vram_mb := 1; mm_default_args := [];
  mm_chat_template_hint := None; mm_license := None; mm_source_url := None |}.

Definition demo_manifest : ModelManifest := {|
  mm_model_id := "b"; mm_family := "f"; mm_quant := "q"; mm_worker_kind := CHAT; mm_file_name := "m.gguf";
  mm_sha256 := ""; mm_size_bytes := 1; mm_min_ram_mb := 1; mm_min_vram_mb := 1; mm_default_args := [];
  mm_chat_template_hint := None; mm_license := None; mm_source_url := None |}.

Definition demo_loop (count : Z) : ReconcileLoop World :=
  reconcile_loop empty_world {| pa_start := 8080; pa_count := count; pa_used := ∅ |}.

Definition demo_up (m : string) (i : nat) : list (RLabel World WorldSpawn) :=
  [RTick false IDLE [m] []; RFetched (GetAnswer 200 m); REnsured true (Some (i, 0%Q))].

Definition demo_pass : list (RLabel World WorldSpawn) := RStart :: RResponse ["a"] :: demo_up "a" 1.

(** The loop after a schedule. *)
Definition demo_after (count : Z) (xs : list (RLabel World WorldSpawn)) : ReconcileLoop World :=
  default (demo_loop count) (rrun demo_decode xs (demo_loop count)).

Lemma demo_fresh count : (0 <? count)%Z = true → fresh_loop (Spawn := WorldSpawn) (demo_loop count) 8080 count.
Proof.
  intros Hc. exists empty_world. eexists. split; [| split; [reflexivity |]].
  - unfold port_allocator. replace (8080 <=? 0)%Z with false by done. by replace (count <=? 0)%Z with false by lia.
  - split; [split; [apply empty_sup_ok | split; by intros | by intros m (st & Hst & _)] |]. intros m p (st & Hst & _). by apply elem_of_nil in Hst.
Qed.

(** Run the first step of a schedule. *)
Ltac allowed_next tac :=
  split; [tac |];
  match goal with |- match ?t with Some _ => _ | None => _ end =>
    let v := eval vm_compute in t in replace t with v by (vm_compute; reflexivity) end;
  cbv beta iota.

Ltac honest := cbn; intros ? ? ? ?; intros [=]; intros [=]; subst; reflexivity.

Lemma demo_pass_allowed1 : allowed_run demo_decode demo_pass (demo_loop 1).
Proof. do 3 allowed_next ltac:(exact I). allowed_next ltac:(honest). allowed_next ltac:(exact I). exact I. Qed.

Lemma demo_pass_allowed2 : allowed_run demo_decode (demo_pass ++ [RResponse ["b"]]) (demo_loop 2).
Proof. do 3 allowed_next ltac:(exact I). allowed_next ltac:(honest). do 2 allowed_next ltac:(exact I). exact I. Qed.

Lemma live_ports_distinct_witness :
  let l := demo_after 1 demo_pass in
  serves (rl_sup l) "a" 8080 ∧ rl_ports_by_model l !! "a" = Some 8080%Z.
Proof.
  assert (serves (rl_sup (demo_after 1 demo_pass)) "a" 8080) as Hs.
  { eexists. split; [apply list_elem_of_here | vm_compute; done]. }
  split; [exact Hs |].
  apply (live_ports_distinct demo_decode (demo_loop 1) (demo_after 1 demo_pass) 8080 1);
    [by apply demo_fresh | exact (allowed_steps demo_decode demo_pass (demo_loop 1) demo_pass_allowed1) | exact Hs].
Defined.

(** The supervisor forgets the replica that was started; its port stays booked. *)
Definition demo_forgotten : list (RLabel World WorldSpawn) := demo_pass ++ [REnv empty_world].

Lemma ports_booked_once_witness :
  match rrun demo_decode demo_forgotten (demo_loop 2) with
  | Some l => rl_ports_by_model l !! "a" = Some 8080%Z ∧
      starts_on l (Some (2%nat, 0%Q)) "b" demo_manifest 8080 2
  | None => False
  end.
Proof.
  destruct (rrun demo_decode demo_forgotten (demo_loop 2)) as [l |] eqn:Hl; [| vm_compute in Hl; discriminate Hl].
  destruct (ports_booked_once (Spawn := WorldSpawn) demo_decode empty_world 8080 2 _ demo_forgotten l eq_refl Hl) as (_ & _ & _ & Hs).
  split; [| apply Hs]. assert (Ha : (rrun demo_decode demo_forgotten (demo_loop 2) ≫= λ l, rl_ports_by_model l !! "a") = Some 8080%Z)
    by (vm_compute; reflexivity). rewrite Hl in Ha. exact Ha.
Defined.

Definition demo_swap : ReconcileLoop World := demo_after 2 (demo_pass ++ [RResponse ["b"]]).

Lemma pass_converges_witness :
  ∃ l', rrun demo_decode (RTick false IDLE ["b"] ["a"] :: served [(GetAnswer 200 "b", Some (2%nat, 0%Q))]) demo_swap = Some l' ∧
    rl_task l' = AtLoop ∧ live_models (rl_sup l') = list_to_set ["b"].
Proof.
  apply (pass_converges demo_decode (demo_loop 2) demo_swap 8080 2 ["b"] ["a"] [(GetAnswer 200 "b", Some (2%nat, 0%Q))]).
  - by apply demo_fresh.
  - exact (allowed_steps demo_decode _ (demo_loop 2) demo_pass_allowed2).
  - vm_compute. reflexivity.
  - vm_compute. reflexivity.
  - vm_compute. reflexivity.
  - vm_compute. reflexivity.
  - vm_compute. discriminate.
  - reflexivity.
  - cbn. replace (rl_task demo_swap) with AtLoop by (vm_compute; reflexivity).
    eexists. split_and!; [reflexivity | reflexivity | intros port; vm_compute; reflexivity | intros; exact I].
Defined.

(** The replica of the only port exits, and another model is desired. *)
Definition demo_env (x : WLabel) (w : World) : World := default w (wexec x w).

Definition demo_exit : World := demo_env (ProcExit 1) (rl_sup (demo_after 1 demo_pass)).

Definition demo_seen : World := demo_env (HealthExit 1) demo_exit.

Definition demo_crash : World := demo_env (HealthCrashed 1) demo_seen.

Definition demo_moved : list (RLabel World WorldSpawn) :=
  demo_pass ++ [REnv demo_exit; REnv demo_seen; REnv demo_crash; RResponse ["b"]].

Lemma demo_moved_allowed : allowed_run demo_decode demo_moved (demo_loop 1).
Proof.
  do 3 allowed_next ltac:(exact I). allowed_next ltac:(honest). allowed_next ltac:(exact I).
  allowed_next ltac:(apply (EnvThread _ (ProcExit 1)); [reflexivity | vm_compute; reflexivity]).
  allowed_next ltac:(apply (EnvThread _ (HealthExit 1)); [reflexivity | vm_compute; reflexivity]).
  allowed_next ltac:(apply (EnvThread _ (HealthCrashed 1)); [reflexivity | vm_compute; reflexivity]).
  allowed_next ltac:(exact I). exact I.
Qed.

(** A later pass asks for the other model, finds no port, and gives up. *)
Definition demo_starved : ReconcileLoop World := default (demo_loop 1) (rrun demo_decode (demo_up "b" 2) (demo_after 1 demo_moved)).

Lemma dead_ports_starve_witness :
  (∀ m, not_live (rl_sup demo_starved) m) ∧ rl_desired demo_starved = ["b"] ∧ allocate (rl_ports demo_starved) = None.
Proof.
  assert (Hab : abandoned (Spawn := WorldSpawn) (demo_after 1 demo_moved) "a" 8080).
  { split; [vm_compute; reflexivity | | vm_compute; set_solver | vm_compute; set_solver | vm_compute; set_solver].
    intros p (st & Hst & _ & _ & Hl).
    replace (sl_statuses (rl_sup (demo_after 1 demo_moved))) with
      [{| rs_model_id := "a"; rs_port := 8080; rs_state := STOPPED; rs_inflight := 0; rs_gpu := true |}] in Hst
      by (vm_compute; reflexivity).
    apply list_elem_of_singleton in Hst as ->. discriminate Hl. }
  destruct (dead_ports_starve demo_decode (demo_loop 1) (demo_after 1 demo_moved) demo_starved 8080 1 {["a"]}) as (H1 & _ & H3).
  - by apply demo_fresh.
  - exact (allowed_steps demo_decode _ (demo_loop 1) demo_moved_allowed).
  - intros p Hp. exists "a". replace p with 8080%Z by lia. split; [set_solver | exact Hab].
  - eapply rtc_l; [| eapply rtc_l; [| eapply rtc_l; [| apply rtc_refl]]].
    + exists (RTick false IDLE ["b"] []). split_and!; [exact I | vm_compute; reflexivity | exact I].
    + exists (RFetched (GetAnswer 200 "b")). split_and!; [honest | vm_compute; reflexivity | exact I].
    + exists (REnsured true (Some (2%nat, 0%Q))). split_and!; [exact I | vm_compute; reflexivity | exact I].
  - split; [exact H1 | split; [vm_compute; reflexivity | exact H3]].
Defined.
