(* ===== verification/AgentServices.v ===== *)
(** * The agent's services

    Models src/packages/fallow-agent/src/fallow_agent/main/services.py ([AgentServices]) and the
    final beat of heartbeat_wiring.py.  The services own the controller of Preempt.v and the
    reconcile loop of Reconcile.v over one supervisor; the work loop, the heartbeat, the poll
    thread, the sink and the bench listener are what start and stop make of them.  Between two calls
    of a shutdown the poll thread and the reconcile task go on. *)

From S2P Require Export ReconcileSpec.
From S2P Require Import SupervisorSpec PreemptSpec.
From S2P Require Export ReconcileWorld.

(** A call of [start] or [stop], in the source's terms. *)
Inductive Call :=
  | SinkStart | PollStart | HeartbeatStart | ReconcileStart | WorkStart | BenchStart
  | BenchStop | Drain | WorkRequestStop | ReconcileRequestStop | WorkStop | ReconcileStop | HeartbeatStop
  | FinalHeartbeat | PollStop | StopAll | SinkStop.

#[export] Instance Call_eq_dec : EqDecision Call.
Proof. solve_decision. Defined.

(** [AgentServices.start] *)
Definition services_start (bench : bool) : list Call :=
  [SinkStart; PollStart; HeartbeatStart; ReconcileStart; WorkStart] ++ (if bench then [BenchStart] else []).

(** [AgentServices.stop] *)
Definition services_stop (bench : bool) : list Call :=
  (if bench then [BenchStop] else []) ++
  [Drain; WorkRequestStop; ReconcileRequestStop; WorkStop; ReconcileStop; HeartbeatStop; FinalHeartbeat;
   PollStop; StopAll; SinkStop].

(** What the final beat reports. *)
Record FinalBeat := { fb_seq : Z; fb_state : AgentState; fb_replicas : list ReplicaStatus }.

Record Services (W : Type) := {
  sv_controller : Controller;
  sv_log : list Action;
  sv_loop : ReconcileLoop W;
  sv_work : bool;
  sv_heartbeat : bool;
  sv_poll : bool;
  sv_sink : bool;
  sv_bench : bool;
  sv_beats : list FinalBeat
}.
Arguments Build_Services {W}.
Arguments sv_controller {W}.
Arguments sv_log {W}.
Arguments sv_loop {W}.
Arguments sv_work {W}.
Arguments sv_heartbeat {W}.
Arguments sv_poll {W}.
Arguments sv_sink {W}.
Arguments sv_bench {W}.
Arguments sv_beats {W}.

Section Services.
  Context `{ProcessSupervisor W} `{SupervisorLike W Spawn}.
  Local Abbreviation Svc := (Services W).

Definition set_agent (pc : Controller) (log : list Action) (l : ReconcileLoop W) (sv : Svc) : Svc := {|
  sv_controller := pc; sv_log := log; sv_loop := l; sv_work := sv_work sv; sv_heartbeat := sv_heartbeat sv;
  sv_poll := sv_poll sv; sv_sink := sv_sink sv; sv_bench := sv_bench sv; sv_beats := sv_beats sv |}.

Definition set_loop (l : ReconcileLoop W) (sv : Svc) : Svc := set_agent (sv_controller sv) (sv_log sv) l sv.

Definition set_flags (work heartbeat poll sink bench : bool) (sv : Svc) : Svc := {|
  sv_controller := sv_controller sv; sv_log := sv_log sv; sv_loop := sv_loop sv; sv_work := work;
  sv_heartbeat := heartbeat; sv_poll := poll; sv_sink := sink; sv_bench := bench; sv_beats := sv_beats sv |}.

(** [make_final_heartbeat]: sequence number 0, the state and the statuses of the moment. *)
Definition final_beat (sv : Svc) : FinalBeat := {|
  fb_seq := 0; fb_state := pc_state (sv_controller sv); fb_replicas := sl_statuses (rl_sup (sv_loop sv)) |}.

Definition exec_call (c : Call) (sv : Svc) : Svc :=
  let '(work, heartbeat, poll, sink, bench) := (sv_work sv, sv_heartbeat sv, sv_poll sv, sv_sink sv, sv_bench sv) in
  match c with
  | SinkStart => set_flags work heartbeat poll true bench sv
  | PollStart => set_flags work heartbeat true sink bench sv
  | HeartbeatStart => set_flags work true poll sink bench sv
  | ReconcileStart =>
      match rl_task (sv_loop sv) with NotRunning => set_loop (set_rl_task true AtLoop (sv_loop sv)) sv | _ => sv end
  | WorkStart => set_flags true heartbeat poll sink bench sv
  | BenchStart => set_flags work heartbeat poll sink true sv
  | BenchStop => set_flags work heartbeat poll sink false sv
  | Drain =>
      let '(pc, w, log) := drain (sv_controller sv, rl_sup (sv_loop sv), sv_log sv) in
      set_agent pc log (set_rl_sup w (sv_loop sv)) sv
  | WorkRequestStop => sv
  | ReconcileRequestStop => set_loop (set_rl_task false (rl_task (sv_loop sv)) (sv_loop sv)) sv
  | WorkStop => set_flags false heartbeat poll sink bench sv
  | ReconcileStop => set_loop (set_rl_task false NotRunning (sv_loop sv)) sv
  | HeartbeatStop => set_flags work false poll sink bench sv
  | FinalHeartbeat => {|
      sv_controller := sv_controller sv; sv_log := sv_log sv; sv_loop := sv_loop sv; sv_work := work;
      sv_heartbeat := heartbeat; sv_poll := poll; sv_sink := sink; sv_bench := bench;
      sv_beats := sv_beats sv ++ [final_beat sv] |}
  | PollStop => set_flags work heartbeat false sink bench sv
  | StopAll => set_loop (set_rl_sup (sl_stop_all (rl_sup (sv_loop sv))) (sv_loop sv)) sv
  | SinkStop => set_flags work heartbeat poll false bench sv
  end.

(** A poll of the poll thread. *)
Definition poll_once (config : AgentConfig) (idle_s now : Q) (sv : Svc) : Svc :=
  if sv_poll sv then
    let '(pc, w, log) := on_poll config idle_s now (sv_controller sv, rl_sup (sv_loop sv), sv_log sv) in
    set_agent pc log (set_rl_sup w (sv_loop sv)) sv
  else sv.
End Services.

(** * What a shutdown promises

    Over every interleaving with the poll thread and the reconcile task, a graceful shutdown
    announces itself as draining while its replicas are still up, and ends with none of them live
    and no task left that could start one. *)

(** What the shutdown relies on: the calls of the poll thread are steps of another thread, and
    [stop_all] leaves nothing live. *)
Class ShutdownLaws (W Spawn : Type) `{ProcessSupervisor W} `{SupervisorLikeLaws W Spawn} := {
  suspend_env w : sl_inv w → sl_env w (suspend_all w);
  resume_env w : sl_inv w → sl_env w (resume_all w);
  stop_env m w : sl_inv w → sl_env w (Preempt.stop_replica m w);
  stop_all_spec w : sl_inv w → sl_inv (sl_stop_all w) ∧ ∀ m p, ~ serves (sl_stop_all w) m p
}.

Section Shutdown.
  Context `{ShutdownLaws W Spawn} (config : AgentConfig) (decode : string → option ModelManifest).
  Local Abbreviation Svc := (Services W).

(** What may happen between two calls: a poll, or a step of the reconcile task or its environment;
    nobody else calls the loop's [start]. *)
Inductive bg_step (sv : Svc) : Svc → Prop :=
  | BgPoll idle_s now : bg_step sv (poll_once config idle_s now sv)
  | BgLoop (x : RLabel W Spawn) l :
      allowed decode x (sv_loop sv) → match x with RStart => False | _ => True end →
      rexec decode x (sv_loop sv) = Some l → bg_step sv (set_loop l sv).

(** The calls of [stop], each after any number of background steps, and whether it raised.  Only a
    failing final heartbeat is swallowed; any other exception ends the shutdown.  The poll thread is
    joined for two seconds at most: one that is still in a poll then outlives the join. *)
Inductive stopping : list Call → Svc → Svc → bool → Prop :=
  | stopping_done sv : stopping [] sv sv true
  | stopping_call c cs sv sv' sv2 ok :
      rtc bg_step sv sv' → stopping cs (exec_call c sv') sv2 ok → stopping (c :: cs) sv sv2 ok
  | stopping_beat_failed cs sv sv' sv2 ok :
      rtc bg_step sv sv' → stopping cs sv' sv2 ok → stopping (FinalHeartbeat :: cs) sv sv2 ok
  | stopping_poll_outlives cs sv sv' sv2 ok :
      rtc bg_step sv sv' → stopping cs sv' sv2 ok → stopping (PollStop :: cs) sv sv2 ok
  | stopping_raised c cs sv sv' :
      c ≠ FinalHeartbeat → rtc bg_step sv sv' → stopping (c :: cs) sv sv' false.

Definition quiet_loop (sv : Svc) : Prop := rl_task (sv_loop sv) = NotRunning.

Definition nothing_live (sv : Svc) : Prop := ∀ m, not_live (rl_sup (sv_loop sv)) m.

Definition draining (sv : Svc) : Prop := pc_state (sv_controller sv) = DRAINING.

(** The supervisor's invariant and the tasks' are those of the loop. *)
Definition svc_ok (sv : Svc) : Prop := loop_ok (sv_loop sv).

(** ** Polls *)

(** The supervisor after calls of another thread. *)
Lemma escalate_env l (a : W * list Action) :
  sl_inv a.1 → rtc (λ w w', sl_inv w ∧ sl_env w w') a.1 (fold_left escalate_one l a).1.
Proof.
  revert a. induction l as [| st l IH]; intros a Hi; cbn; [apply rtc_refl |]. unfold escalate_one at 2.
  destruct (_ && _); [| by apply IH]. eapply rtc_l; [split; [done | by apply (stop_env (rs_model_id st))] |].
  apply (IH (_, _)). by apply (sl_env_spec a.1), stop_env.
Qed.

Lemma on_poll_env idle_s now pc (w : W) log :
  sl_inv w → rtc (λ w w', sl_inv w ∧ sl_env w w') w (on_poll config idle_s now (pc, w, log)).1.2.
Proof.
  intros Hi. unfold on_poll. cbn. destruct (pc_state pc); cbn; [| | apply rtc_refl].
  - destruct (is_fresh_input config pc idle_s); cbn; [| apply rtc_refl].
    apply rtc_once. split; [done | by apply suspend_env].
  - destruct (_ <=?q _); cbn; [apply rtc_once; split; [done | by apply resume_env] |].
    unfold maybe_escalate. destruct (pc_escalated pc); [apply rtc_refl |]. destruct (pc_active_since pc); [| apply rtc_refl].
    destruct (_ <?q _); [apply rtc_refl |]. pose proof (escalate_env (statuses w) (w, log) Hi) as Hesc.
    by destruct (fold_left escalate_one (statuses w) (w, log)).
Qed.

Lemma env_ok (l : ReconcileLoop W) w :
  loop_ok l → rtc (λ w w', sl_inv w ∧ sl_env w w') (rl_sup l) w →
  loop_ok (set_rl_sup w l) ∧ ∀ m p, serves w m p → serves (rl_sup l) m p.
Proof.
  intros Hl Hs. remember (rl_sup l) as w0 eqn:E. revert l Hl E. induction Hs as [w | w w1 w2 [Hi He] Hs IH]; intros l Hl ->.
  - split; [by destruct l | done].
  - destruct (IH (set_rl_sup w1 l)) as [K1 K2]; [| done |].
    + by apply (rexec_ok (Spawn := Spawn) decode (REnv w1) l).
    + split; [done |]. intros m p Hm%K2. by apply (sl_env_spec _ _ Hi He).
Qed.

Lemma poll_ok idle_s now sv :
  svc_ok sv → let sv' := poll_once config idle_s now sv in
  svc_ok sv' ∧ (draining sv → draining sv') ∧ rl_task (sv_loop sv') = rl_task (sv_loop sv) ∧
  (nothing_live sv → nothing_live sv').
Proof.
  intros Hl. unfold poll_once. destruct (sv_poll sv); [| done].
  pose proof (on_poll_env idle_s now (sv_controller sv) (rl_sup (sv_loop sv)) (sv_log sv) (lo_inv _ (lo_core _ Hl))) as He.
  assert (Hd : draining sv → on_poll config idle_s now (sv_controller sv, rl_sup (sv_loop sv), sv_log sv) =
    (sv_controller sv, rl_sup (sv_loop sv), sv_log sv)).
  { unfold draining, on_poll. cbn. by intros ->. }
  destruct (on_poll config idle_s now _) as [[pc w] log]. cbn in He. destruct (env_ok _ _ Hl He) as [K1 K2].
  split_and!; [done | | done |].
  - intros Hdr. specialize (Hd Hdr). injection Hd as -> _ _. done.
  - intros Hn m p Hm%K2. by apply (Hn m p).
Qed.

(** With no task and no live replica, no step makes one. *)
Lemma bg_ok sv sv' :
  bg_step sv sv' → svc_ok sv →
  svc_ok sv' ∧ (draining sv → draining sv') ∧ (quiet_loop sv → quiet_loop sv') ∧
  (quiet_loop sv → nothing_live sv → nothing_live sv').
Proof.
  intros [idle_s now | x l Ha Hx He] Hl.
  - destruct (poll_ok idle_s now sv Hl) as (K1 & K2 & K3 & K4). unfold quiet_loop. rewrite K3. auto.
  - split; [by eapply rexec_ok |]. split; [done |]. unfold quiet_loop, nothing_live. cbn.
    assert (Hq : rl_task (sv_loop sv) = NotRunning → rl_task l = NotRunning ∧
      ∀ m p, serves (rl_sup l) m p → serves (rl_sup (sv_loop sv)) m p).
    { intros Ht. destruct x; cbn in He, Ha; try done; rewrite ?Ht in He; simplify_eq; cbn; try done.
      split; [done |]. eapply sl_env_spec; [apply Hl | done]. }
    split; [by intros [? _]%Hq |]. intros [_ Hs]%Hq Hn m p Hm%Hs. by apply (Hn m p).
Qed.

Lemma bgs_ok sv sv' :
  rtc bg_step sv sv' → svc_ok sv →
  svc_ok sv' ∧ (draining sv → draining sv') ∧ (quiet_loop sv → quiet_loop sv') ∧
  (quiet_loop sv → nothing_live sv → nothing_live sv').
Proof.
  induction 1 as [| sv sv1 sv2 Hb _ IH]; [done |]. intros Hl. destruct (bg_ok sv sv1 Hb Hl) as (K1 & K2 & K3 & K4).
  destruct (IH K1) as (G1 & G2 & G3 & G4). auto 6.
Qed.

(** ** The calls *)

Definition is_start (c : Call) : bool :=
  match c with SinkStart | PollStart | HeartbeatStart | ReconcileStart | WorkStart | BenchStart => true | _ => false end.

(** The order a shutdown relies on: [stop_all] after the reconcile task is gone, the final beat after
    the drain, and nothing is started. *)
Fixpoint ordered (cs : list Call) : Prop :=
  match cs with
  | [] => True
  | c :: cs =>
      is_start c = false ∧ (c = ReconcileStop → StopAll ∈ cs) ∧ (c = FinalHeartbeat → Drain ∉ cs) ∧ ordered cs
  end.

(** What holds when the calls [cs] are still to be made. *)
Record progress (cs : list Call) (sv : Svc) : Prop := {
  pg_ok : svc_ok sv;
  pg_drain : Drain ∉ cs → draining sv;
  pg_reconcile : ReconcileStop ∉ cs → quiet_loop sv;
  pg_stop_all : StopAll ∉ cs → ReconcileStop ∉ cs → nothing_live sv;
  pg_work : WorkStop ∉ cs → sv_work sv = false;
  pg_heartbeat : HeartbeatStop ∉ cs → sv_heartbeat sv = false;
  pg_sink : SinkStop ∉ cs → sv_sink sv = false
}.

Lemma bg_frame sv sv' :
  bg_step sv sv' → sv_work sv' = sv_work sv ∧ sv_heartbeat sv' = sv_heartbeat sv ∧ sv_poll sv' = sv_poll sv ∧
  sv_sink sv' = sv_sink sv ∧ sv_beats sv' = sv_beats sv.
Proof.
  intros [idle_s now | x l _ _ _]; [| done]. unfold poll_once. destruct (sv_poll sv) eqn:E; [| by rewrite E].
  by destruct (on_poll _ _ _ _) as [[? ?] ?].
Qed.

Lemma bgs_progress cs sv sv' :
  rtc bg_step sv sv' → progress cs sv → progress cs sv' ∧ sv_beats sv' = sv_beats sv.
Proof.
  induction 1 as [| sv sv1 sv2 Hb _ IH]; [done |]. intros [P1 P2 P3 P4 P5 P6 P8].
  destruct (bg_ok sv sv1 Hb P1) as (G1 & G2 & G3 & G4). destruct (bg_frame sv sv1 Hb) as (E1 & E2 & E3 & E4 & E5).
  rewrite <- E5. apply IH. split; rewrite ?E1, ?E2, ?E3, ?E4; auto.
Qed.

Lemma exec_call_ok c sv : is_start c = false → svc_ok sv → svc_ok (exec_call c sv).
Proof.
  unfold svc_ok. intros Hc Hl. destruct c; try done; cbn.
  - unfold drain. destruct (pc_state (sv_controller sv)); by destruct Hl as [[? ? ?] ? ? ?].
  - by apply (rexec_ok (Spawn := Spawn) decode RRequestStop (sv_loop sv)).
  - by apply (rexec_ok (Spawn := Spawn) decode RStop (sv_loop sv)).
  - destruct Hl as [[Hi Hp Hs] Hn Hpd Ht]. destruct (stop_all_spec _ Hi) as [Hi' Hnone]. split; cbn; try done.
    + split; cbn; [done | done |]. intros m p Hm. by destruct (Hnone m p).
    + intros m _ p. apply Hnone.
Qed.

(** A call establishes its own part and keeps the others. *)
Lemma exec_call_parts c sv :
  is_start c = false → svc_ok sv → let sv' := exec_call c sv in
  (draining sv ∨ c = Drain → draining sv') ∧ (quiet_loop sv ∨ c = ReconcileStop → quiet_loop sv') ∧
  (nothing_live sv ∨ c = StopAll → nothing_live sv') ∧ (sv_work sv = false ∨ c = WorkStop → sv_work sv' = false) ∧
  (sv_heartbeat sv = false ∨ c = HeartbeatStop → sv_heartbeat sv' = false) ∧
  (sv_sink sv = false ∨ c = SinkStop → sv_sink sv' = false).
Proof.
  unfold draining, quiet_loop, nothing_live. intros Hc Hl. destruct (stop_all_spec _ (lo_inv _ (lo_core _ Hl))) as [_ Hnone].
  destruct c; try done; cbn; unfold drain;
    try destruct (pc_state (sv_controller sv)) eqn:E; cbn; split_and!; intros [? | ?]; try done; intros m; exact (Hnone m).
Qed.

Lemma not_in_or (c d : Call) cs : d ∉ cs → d ∉ c :: cs ∨ c = d.
Proof. destruct (decide (c = d)); [by right | left]. set_solver. Qed.

Lemma exec_call_progress c cs sv :
  ordered (c :: cs) → progress (c :: cs) sv → progress cs (exec_call c sv).
Proof.
  intros (Hst & Hstop & _ & _) [P1 P2 P3 P4 P5 P6 P8].
  destruct (exec_call_parts c sv Hst P1) as (Q2 & Q3 & Q4 & Q5 & Q6 & Q8).
  split; [by apply exec_call_ok | | | | | |]; intros [? | ?]%(not_in_or c); auto.
  intros [? | Hc]%(not_in_or c); [by auto |]. specialize (Hstop Hc). set_solver.
Qed.

(** A call without part of its own may fail to do anything. *)
Lemma progress_skip c cs sv : c = FinalHeartbeat ∨ c = PollStop → progress (c :: cs) sv → progress cs sv.
Proof.
  intros Hc [P1 P2 P3 P4 P5 P6 P8]. split; [done | ..]; intros;
    first [apply P2 | apply P3 | apply P4 | apply P5 | apply P6 | apply P8]; destruct Hc; set_solver.
Qed.

Lemma stopping_progress cs sv sv' ok :
  stopping cs sv sv' ok → ordered cs → progress cs sv → ok = true →
  progress [] sv' ∧ ∃ beats, sv_beats sv' = sv_beats sv ++ beats ∧ Forall (λ b, fb_seq b = 0%Z ∧ fb_state b = DRAINING) beats ∧
    (length beats <= length (filter (λ c, c = FinalHeartbeat) cs))%nat.
Proof.
  induction 1 as [sv | c cs sv sv1 sv2 ok Hb Hs IH | cs sv sv1 sv2 ok Hb Hs IH | cs sv sv1 sv2 ok Hb Hs IH | c cs sv sv1 Hc Hb]; intros Ho Hp Hok; [| | | | done].
  - split; [done |]. exists []. rewrite app_nil_r. split_and!; [done | constructor | cbn; lia].
  - destruct (bgs_progress _ _ _ Hb Hp) as [Hp1 E]. pose proof Ho as (Hst & _ & Hbeat & Ho').
    destruct IH as (Hfin & beats & E2 & HF & Hlen); [done | by apply exec_call_progress | done |]. split; [done |].
    rewrite filter_cons. destruct (decide (c = FinalHeartbeat)) as [-> | Hne].
    + exists (final_beat sv1 :: beats). rewrite E2. cbn. rewrite E, <- app_assoc. split_and!; [done | | cbn; lia].
      constructor; [| done]. split; [done |]. apply (pg_drain _ _ Hp1). specialize (Hbeat eq_refl). set_solver.
    + exists beats. rewrite E2. assert (sv_beats (exec_call c sv1) = sv_beats sv1) as ->; [| by rewrite E].
      clear -Hne Hst. destruct c; try done. cbn. unfold drain. by destruct (pc_state (sv_controller sv1)).
  - destruct (bgs_progress _ _ _ Hb Hp) as [Hp1 E]. pose proof Ho as (_ & _ & Hbeat & Ho').
    destruct IH as (Hfin & beats & E2 & HF & Hlen); [done | | done |].
    { apply (progress_skip FinalHeartbeat); auto. }
    split; [done |]. exists beats. rewrite E2, E. split_and!; [done | done |]. rewrite filter_cons_True by done. cbn. lia.
  - destruct (bgs_progress _ _ _ Hb Hp) as [Hp1 E]. pose proof Ho as (_ & _ & Hbeat & Ho').
    destruct IH as (Hfin & beats & E2 & HF & Hlen); [done | | done |].
    { apply (progress_skip PollStop); auto. }
    split; [done |]. exists beats. rewrite E2, E. split_and!; [done | done |]. rewrite filter_cons_False by done. done.
Qed.

Lemma services_stop_ordered bench : ordered (services_stop bench).
Proof. destruct bench; cbn; repeat (split; [first [done | set_solver] |]); done. Qed.

(** A graceful shutdown that does not raise, whatever the poll thread and the reconcile task do between
    its calls, as long as no signal overlaps a stop of the same model, and whether or not the final
    heartbeat gets through and the poll thread is joined in time, ends draining, with the work loop,
    the reconcile task, the heartbeat and the sink stopped and no replica live, and nothing that may
    happen afterwards brings one up; it sends at most one final beat, and that beat says DRAINING. *)
Theorem shutdown_leaves_nothing bench l0 start count (sv sv' : Svc) :
  fresh_loop l0 start count → rtc (rstep decode) l0 (sv_loop sv) →
  stopping (services_stop bench) sv sv' true →
  draining sv' ∧ quiet_loop sv' ∧ sv_work sv' = false ∧ sv_heartbeat sv' = false ∧ sv_sink sv' = false ∧
  (∀ sv2, rtc bg_step sv' sv2 → nothing_live sv2 ∧ quiet_loop sv2) ∧
  ∃ beats, sv_beats sv' = sv_beats sv ++ beats ∧ (length beats <= 1)%nat ∧ Forall (λ b, fb_state b = DRAINING) beats.
Proof.
  intros Hf Hr Hs. assert (Hl : svc_ok sv) by (by eapply loop_reached_ok).
  assert (Hp : progress (services_stop bench) sv) by (destruct bench; split; [done | set_solver ..]).
  destruct (stopping_progress _ _ _ _ Hs (services_stop_ordered bench) Hp eq_refl) as ([P1 P2 P3 P4 P5 P6 P8] & beats & E & HF & Hlen).
  split_and!; try (by first [apply P2 | apply P3 | apply P5 | apply P6 | apply P8]; set_solver).
  - intros sv2 Hb. destruct (bgs_ok _ _ Hb P1) as (_ & _ & G3 & G4). assert (quiet_loop sv') by (apply P3; set_solver).
    split; [apply G4; [done |]; apply P4; set_solver | auto].
  - exists beats. split_and!; [done | by destruct bench | by eapply Forall_impl; [exact HF | intros ? [_ ?]]].
Qed.
End Shutdown.

(** ** The process supervisor *)

Lemma stop_all_world w : world_inv w → world_inv (stop_all w) ∧ ∀ m p, ~ serves (stop_all w) m p.
Proof.
  intros Hw. unfold stop_all, od_keys.
  assert (Hgen : ∀ ms w0, world_inv w0 → let w' := fold_left (λ w m, stop_now m w) ms w0 in
    world_inv w' ∧ ∀ m p, serves w' m p → serves w0 m p ∧ m ∉ ms).
  { induction ms as [| m ms IH]; intros w0 Hw0; cbn; [set_solver |]. destruct (world_stop_spec m w0 Hw0) as [Hw1 Hs1].
    destruct (IH _ Hw1) as [Hw2 Hs2]. split; [done |]. intros m' p [Hm Hn]%Hs2. apply Hs1 in Hm. set_solver. }
  destruct (Hgen (children (w_sup w)).*1 w Hw) as [Hw' Hs]. split; [done |]. intros m p [Hm Hn]%Hs. apply Hn.
  apply serves_world in Hm as [Hlive _]; [| apply Hw]. by apply od_get_is_Some, (wi_backed _ Hw).
Qed.

#[export] Instance World_shutdown : ShutdownLaws World WorldSpawn := {|
  suspend_env := λ w _, EnvSignal w true; resume_env := λ w _, EnvSignal w false; stop_env := λ m w _, EnvStop w m;
  stop_all_spec := stop_all_world |}.

Definition demo_services : Services World := {|
  sv_controller := controller_start; sv_log := []; sv_loop := demo_after 1 demo_pass; sv_work := true;
  sv_heartbeat := true; sv_poll := true; sv_sink := true; sv_bench := false; sv_beats := [] |}.

Lemma shutdown_leaves_nothing_witness :
  let sv' := fold_left (λ sv c, exec_call c sv) (services_stop false) demo_services in
  draining sv' ∧ nothing_live sv' ∧ length (sv_beats sv') = 1%nat.
Proof.
  intros sv'. destruct (shutdown_leaves_nothing default_agent_config demo_decode false (demo_loop 1) 8080 1 demo_services sv')
    as (Hd & _ & _ & _ & _ & Hn & _).
  - by apply demo_fresh.
  - exact (allowed_steps demo_decode demo_pass (demo_loop 1) demo_pass_allowed1).
  - repeat (eapply stopping_call; [apply rtc_refl |]). exact (stopping_done default_agent_config demo_decode sv').
  - split; [exact Hd |]. split; [apply Hn, rtc_refl | reflexivity].
Defined.
