(* ===== verification/Mesh.v ===== *)
(** * Model distribution

    Models src/packages/fallow-modelmesh/src/fallow_modelmesh/: chunk.py,
    manifest.py, merkle.py, store.py, delta.py, peer.py, exchange.py,
    reconstruct.py, signing.py, safe.py, offline.py (export, and the import of a
    parsed manifest), topology.py and bandwidth.py.

    SHA-256 and HMAC-SHA256 are parameters.  The file system is a map from paths to contents; a peer is an
    availability set and a fetch function, which may raise ([PeerFailed]). *)

From stdpp Require Import pretty.
From S2P Require Export ODict Bytes.

Inductive MeshError :=
  | MeshValueError
  | MeshTypeError
  | ChunkNotFound (h : string)
  | MeshVerificationError
  | PeerFailed.

(** ** Chunking *)

(** [handle.read(n)] until it returns nothing; the length is enough fuel. *)
Fixpoint read_chunks (fuel : nat) (n : nat) (data : bytes) : list bytes :=
  match fuel, data with
  | S fuel, _ :: _ => take n data :: read_chunks fuel n (drop n data)
  | _, _ => []
  end.

Definition iter_file_chunks (data : bytes) (chunk_size : Z) : MeshError + list bytes :=
  if (chunk_size <=? 0)%Z then inl MeshValueError
  else inr (read_chunks (length data) (Z.to_nat chunk_size) data).

Definition DEFAULT_CHUNK_SIZE : Z := 4 * 1024 * 1024.

Record Manifest := {
  mf_model_id : string; mf_total_size : Z; mf_chunk_size : Z; mf_whole_file_sha256 : string;
  mf_chunks : list string; mf_merkle_root : string
}.

(** [json.dumps(payload, sort_keys=True, separators=(",", ":")).encode()] *)
Definition canonical_bytes (m : Manifest) : bytes :=
  let field k v := json_string k +:+ ":" +:+ v in
  String.list_byte_of_string ("{" +:+ join "," [
    field "chunk_size" (pretty (mf_chunk_size m));
    field "chunks" ("[" +:+ join "," (json_string <$> mf_chunks m) +:+ "]");
    field "merkle_root" (json_string (mf_merkle_root m));
    field "model_id" (json_string (mf_model_id m));
    field "total_size" (pretty (mf_total_size m));
    field "whole_file_sha256" (json_string (mf_whole_file_sha256 m))] +:+ "}").

(** The store: least recently used first. *)
Record ChunkStore := { cs_max_bytes : Z; cs_used : Z; cs_chunks : odict bytes }.

Definition size (data : bytes) : Z := Z.of_nat (length data).

Definition new_store (max_bytes : Z) : MeshError + ChunkStore :=
  if (max_bytes <=? 0)%Z then inl MeshValueError
  else inr {| cs_max_bytes := max_bytes; cs_used := 0; cs_chunks := [] |}.

Record Mesh := { store : ChunkStore; fs : gmap string bytes }.

Definition on_store f (s : Mesh) : Mesh := {| store := f (store s); fs := fs s |}.
Definition on_fs f (s : Mesh) : Mesh := {| store := store s; fs := f (fs s) |}.

Abbreviation M_eff := (Eff Mesh MeshError).

(** The loop of [_evict_until_fits]. *)
Fixpoint evict (incoming max : Z) (used : Z) (chunks : odict bytes) : Z * odict bytes :=
  match chunks with
  | (_, evicted) :: rest =>
      if (max <? used + incoming)%Z then evict incoming max (used - size evicted) rest
      else (used, chunks)
  | [] => (used, chunks)
  end.

Definition evict_until_fits (incoming : Z) (s : ChunkStore) : ChunkStore :=
  let '(used, chunks) := evict incoming (cs_max_bytes s) (cs_used s) (cs_chunks s) in
  {| cs_max_bytes := cs_max_bytes s; cs_used := used; cs_chunks := chunks |}.

Definition touch (key : string) (s : ChunkStore) : ChunkStore := {|
  cs_max_bytes := cs_max_bytes s; cs_used := cs_used s;
  cs_chunks := od_move_to_end key (cs_chunks s) |}.

Record Peer := { available : list string; fetch : string → MeshError + bytes }.

Section Mesh.
  Context (sha256 : bytes → bytes).

(** [hashlib.sha256(data).hexdigest()] *)
Definition chunk_hash (data : bytes) : string := to_hex (sha256 data).

(** ** Merkle root *)

Definition leaf (hex_hash : string) : option bytes :=
  (λ h, sha256 ("000"%byte :: h)) <$> from_hex hex_hash.

Definition node (left right : bytes) : bytes := sha256 ("001"%byte :: left ++ right).

(** One pass of the [while] loop: pair neighbours, promote an odd last one. *)
Fixpoint next_level (level : list bytes) : list bytes :=
  match level with
  | a :: b :: rest => node a b :: next_level rest
  | rest => rest
  end.

(** The loop; each pass halves the level, so its length is enough fuel. *)
Fixpoint climb (fuel : nat) (level : list bytes) : list bytes :=
  match fuel with
  | O => level
  | S fuel => if (1 <? length level)%nat then climb fuel (next_level level) else level
  end.

Definition merkle_root (chunk_hashes : list string) : MeshError + string :=
  match chunk_hashes with
  | [] => inr (to_hex (sha256 ["000"%byte]))
  | _ =>
      match mapM leaf chunk_hashes with
      | None => inl MeshValueError
      | Some level =>
          match climb (length level) level with
          | r :: _ => inr (to_hex r)
          | [] => inl MeshValueError
          end
      end
  end.

(** ** Manifests *)

Definition build_manifest (data : bytes) (model : string) (chunk_size : Z) : MeshError + Manifest :=
  match iter_file_chunks data chunk_size with
  | inl e => inl e
  | inr cs =>
      match merkle_root (chunk_hash <$> cs) with
      | inl e => inl e
      | inr root => inr {|
          mf_model_id := model;
          mf_total_size := fold_left (λ total d, (total + size d)%Z) cs 0%Z;
          mf_chunk_size := chunk_size;
          mf_whole_file_sha256 := to_hex (sha256 (concat cs));
          mf_chunks := chunk_hash <$> cs; mf_merkle_root := root |}
      end
  end.

(** ** The chunk store *)

Definition put (data : bytes) : M_eff string :=
  s ← gets store;
  if (cs_max_bytes s <? size data)%Z then raise MeshValueError
  else
    let key := chunk_hash data in
    if bool_decide (is_Some (od_get key (cs_chunks s))) then
      modify (on_store (touch key)) ;; mret key
    else
      modify (on_store (evict_until_fits (size data))) ;;
      modify (on_store (λ s, {| cs_max_bytes := cs_max_bytes s; cs_used := cs_used s + size data;
                                cs_chunks := od_set key data (cs_chunks s) |})) ;;
      mret key.

Definition get (key : string) : M_eff bytes :=
  s ← gets store;
  match od_get key (cs_chunks s) with
  | None => raise (ChunkNotFound key)
  | Some data => modify (on_store (touch key)) ;; mret data
  end.

Definition has (key : string) (s : ChunkStore) : bool := bool_decide (is_Some (od_get key (cs_chunks s))).

Definition availability (s : ChunkStore) : list string := od_keys (cs_chunks s).

Definition missing_chunks (m : Manifest) (s : ChunkStore) : list string :=
  unique_by id (availability s) (mf_chunks m).

(** ** Peers *)

Definition discover (peers : list Peer) : gmap string (list Peer) :=
  fold_left (λ idx p, fold_left (λ idx h, <[h := default [] (idx !! h) ++ [p]]> idx) (available p) idx)
    peers ∅.

Definition holders (index : gmap string (list Peer)) (h : string) : list Peer := default [] (index !! h).

Definition fetch_one (index : gmap string (list Peer)) (h : string) : M_eff unit :=
  match holders index h with
  | [] => raise (ChunkNotFound h)
  | p :: _ =>
      match fetch p h with
      | inl e => raise e
      | inr data => if bool_decide (chunk_hash data = h) then put data ;; mret tt else raise MeshVerificationError
      end
  end.

Definition fetch_delta (m : Manifest) (index : gmap string (list Peer)) : M_eff (list string) :=
  missing ← gets (λ s, missing_chunks m (store s));
  for_each (fetch_one index) missing ;;
  mret missing.

(** ** Reconstruction *)

(** The loop over the manifest's chunks: read, check, append to the file and to
    the running digest's input. *)
Fixpoint write_chunks (dest : string) (hs : list string) (whole : bytes) (written : Z)
    : M_eff (bytes * Z) :=
  match hs with
  | [] => mret (whole, written)
  | expected :: hs =>
      data ← get expected;
      if bool_decide (chunk_hash data = expected) then
        modify (on_fs (alter (λ old, old ++ data) dest)) ;;
        write_chunks dest hs (whole ++ data) (written + size data)
      else raise MeshVerificationError
  end.

Definition reconstruct (m : Manifest) (dest : string) : M_eff unit :=
  modify (on_fs <[dest := []]>) ;;
  r ← write_chunks dest (mf_chunks m) [] 0;
  let '(whole, written) := r in
  if negb (written =? mf_total_size m)%Z then raise MeshVerificationError
  else if negb (bool_decide (to_hex (sha256 whole) = mf_whole_file_sha256 m))
  then raise MeshVerificationError
  else mret tt.

Definition partial_path (dest : string) : string := dest +:+ ".partial".

Definition reconstruct_atomic (m : Manifest) (dest : string) : M_eff unit := λ s,
  let tmp := partial_path dest in
  match reconstruct m tmp s with
  | (s', inl e) => (on_fs (delete tmp) s', inl e)
  | (s', inr _) => (on_fs (λ f, <[dest := default [] (f !! tmp)]> (delete tmp f)) s', inr tt)
  end.

(** ** Signatures *)

Context (hmac_sha256 : bytes → bytes → bytes).

Definition sign_manifest (m : Manifest) (key : bytes) : string :=
  to_hex (hmac_sha256 key (canonical_bytes m)).

(** [hmac.compare_digest] of two strings, which must be ASCII. *)
Definition is_ascii (s : string) : bool :=
  forallb (λ c, (Ascii.N_of_ascii c <? 128)%N) (String.list_ascii_of_string s).

Definition verify_manifest (m : Manifest) (signature : string) (key : bytes) : MeshError + bool :=
  if is_ascii signature then inr (bool_decide (sign_manifest m key = signature))
  else inl MeshTypeError.

Definition check_signature (m : Manifest) (signature : string) (key : bytes) : M_eff unit :=
  match verify_manifest m signature key with
  | inl e => raise e
  | inr false => raise MeshVerificationError
  | inr true => mret tt
  end.

Definition verified_reconstruct (m : Manifest) (signature : string) (key : bytes) (dest : string)
    : M_eff unit :=
  check_signature m signature key ;; reconstruct_atomic m dest.

(** ** Offline bundles: a signed manifest and a file per chunk *)

Record Bundle := { bn_manifest : Manifest; bn_signature : string; bn_chunks : gmap string bytes }.

Fixpoint export_chunks (hs : list string) : M_eff (gmap string bytes) :=
  match hs with
  | [] => mret ∅
  | h :: hs => data ← get h; rest ← export_chunks hs; mret (<[h := data]> rest)
  end.

Definition export_bundle (m : Manifest) (signature : string) : M_eff Bundle :=
  chunks ← export_chunks (unique_by id [] (mf_chunks m));
  mret {| bn_manifest := m; bn_signature := signature; bn_chunks := chunks |}.

Definition import_one (b : Bundle) (h : string) : M_eff unit :=
  match bn_chunks b !! h with
  | None => raise (ChunkNotFound h)
  | Some data =>
      if bool_decide (chunk_hash data = h) then put data ;; mret tt else raise MeshVerificationError
  end.

Definition import_bundle (b : Bundle) (key : bytes) : M_eff Manifest :=
  check_signature (bn_manifest b) (strip (bn_signature b)) key ;;
  missing ← gets (λ s, missing_chunks (bn_manifest b) (store s));
  for_each (import_one b) missing ;;
  mret (bn_manifest b).
End Mesh.

(** ** Peer choice *)

Record PeerMeta := { pm_lan : bool; pm_latency_ms : Q; pm_bandwidth_bps : Q }.

Definition topology_key (m : PeerMeta) : Z * (Q * Q) :=
  (if pm_lan m then 0 else 1, (pm_latency_ms m, (- pm_bandwidth_bps m)%Q))%Z.

Definition order_peers `{KeyOrder K} {P} (hs : list P) (metadata : P → PeerMeta) (policy : PeerMeta → K)
    : list P :=
  py_sorted (λ p, policy (metadata p)) hs.

Definition select_peer `{KeyOrder K} {P} (hs : list P) (metadata : P → PeerMeta) (policy : PeerMeta → K)
    : option P :=
  head (order_peers hs metadata policy).

(** ** Pacing *)

Record BandwidthLimiter := {
  bl_active_rate : Q; bl_idle_rate : Q; bl_allowance : Q; bl_last : Q
}.

Definition new_limiter (active idle now : Q) : MeshError + BandwidthLimiter :=
  if (active <=?q 0) || (idle <=?q 0) then inl MeshValueError
  else inr {| bl_active_rate := active; bl_idle_rate := idle;
              bl_allowance := if active <=?q idle then idle else active; bl_last := now |}.

Definition rate_now (l : BandwidthLimiter) (is_active : bool) : Q :=
  if is_active then bl_active_rate l else bl_idle_rate l.

Definition qmin (a b : Q) : Q := if b <?q a then b else a.

(** [after] is the clock reading after the sleep. *)
Definition throttle (n_bytes : Z) (is_active : bool) (now after : Q) (l : BandwidthLimiter)
    : BandwidthLimiter * Q :=
  let rate := rate_now l is_active in
  let allowance := qmin rate (bl_allowance l + (now - bl_last l) * rate)%Q in
  if inject_Z n_bytes <=?q allowance then
    ({| bl_active_rate := bl_active_rate l; bl_idle_rate := bl_idle_rate l;
        bl_allowance := (allowance - inject_Z n_bytes)%Q; bl_last := now |}, 0%Q)
  else
    ({| bl_active_rate := bl_active_rate l; bl_idle_rate := bl_idle_rate l;
        bl_allowance := 0; bl_last := after |}, ((inject_Z n_bytes - allowance) / rate)%Q).
