(* ===== verification/MeshSpec.v ===== *)
(** * What model distribution guarantees

    The store's invariant, content verification at every entrance, the round
    trip from a file to a reconstructed copy, the binding of the Merkle root and
    the pacer's bound.  Nothing is assumed about SHA-256 beyond the length of
    its digests: where the code relies on collision resistance the conclusion
    exhibits the collision. *)

From S2P Require Export Mesh.

(** Two different inputs with the same digest. *)

(** ** Chunking *)

Lemma read_chunks_concat fuel n data :
  (length data ≤ fuel)%nat → (0 < n)%nat → concat (read_chunks fuel n data) = data.
Proof.
  revert data; induction fuel as [| fuel IH]; intros data Hf Hn; destruct data as [| b data]; cbn [read_chunks]; try done.
  { cbn in Hf. lia. }
  cbn [concat]. rewrite IH; [apply take_drop | | done]. rewrite length_drop. cbn in *. lia.
Qed.

Lemma read_chunks_sizes fuel n data c :
  (0 < n)%nat → c ∈ read_chunks fuel n data → c ≠ [] ∧ (length c ≤ n)%nat.
Proof.
  intros Hn. revert data; induction fuel as [| fuel IH]; intros data; destruct data as [| b data]; cbn [read_chunks];
    [set_solver | set_solver | set_solver |].
  intros [-> | Hc]%elem_of_cons; [| by eapply IH]. split; [destruct n; [lia | done] |].
  rewrite length_take. lia.
Qed.

(** ** The store *)

Fixpoint total (chunks : odict bytes) : Z :=
  match chunks with [] => 0 | (_, d) :: rest => (size d + total rest)%Z end.

Lemma total_app l l' : total (l ++ l') = (total l + total l')%Z.
Proof. induction l as [| [k d] l IH]; cbn; [done |]. rewrite IH. lia. Qed.

Lemma total_perm l l' : l ≡ₚ l' → total l = total l'.
Proof. induction 1 as [| [k d] | [k d] [k' d'] |]; cbn; lia. Qed.

Lemma total_nonneg l : (0 ≤ total l)%Z.
Proof. induction l as [| [k d] l IH]; cbn; [lia |]. unfold size. lia. Qed.

(** What an eviction removes: a prefix (the least recently used), no more than
    needed. *)
Lemma evict_spec incoming max used chunks :
  used = total chunks → (incoming ≤ max)%Z →
  ∃ gone kept, chunks = gone ++ kept ∧ evict incoming max used chunks = (total kept, kept) ∧
    (total kept + incoming ≤ max)%Z ∧
    ∀ gone' p, gone = gone' ++ [p] → (max < total (p :: kept) + incoming)%Z.
Proof.
  revert used; induction chunks as [| [k d] chunks IH]; intros used Hu Hi; cbn.
  { exists [], []. cbn in *. subst. split_and!; try done. intros gone' p Hg. by destruct gone'. }
  destruct (Z.ltb_spec max (used + incoming)) as [Hlt | Hle].
  - destruct (IH (used - size d)%Z) as (gone & kept & Hc & He & Hfit & Hmin); [cbn in Hu; lia | done |].
    exists ((k, d) :: gone), kept. subst chunks. split_and!; try done.
    intros gone' p Hg. destruct gone' as [| q gone']; cbn in Hg.
    + injection Hg as <- ->. cbn in *. lia.
    + injection Hg as <- Hg. by eapply Hmin.
  - exists [], ((k, d) :: chunks). split_and!; cbn in *; try done; [by subst | lia |].
    intros gone' p Hg. by destruct gone'.
Qed.

Section Store.
  Context (sha256 : bytes → bytes).
  Notation H := (chunk_hash sha256).

Record store_ok (s : ChunkStore) : Prop := {
  so_wf : od_wf (cs_chunks s);
  so_used : cs_used s = total (cs_chunks s);
  so_cap : (cs_used s ≤ cs_max_bytes s)%Z;
  so_named k d : (k, d) ∈ cs_chunks s → k = H d
}.

Lemma touch_ok k s : store_ok s → store_ok (touch k s).
Proof.
  intros [H1 H2 H3 H4]. pose proof (od_move_perm k (cs_chunks s) H1) as Hp. split; cbn.
  - by apply od_move_wf.
  - by rewrite (total_perm _ _ Hp).
  - done.
  - intros k' d Hin. apply H4. by rewrite <- Hp.
Qed.

(** The store after storing [data] under [key]. *)
Definition stored (data : bytes) (s s' : ChunkStore) : Prop :=
  cs_max_bytes s' = cs_max_bytes s ∧
  (is_Some (od_get (H data) (cs_chunks s)) ∧ s' = touch (H data) s ∨
   od_get (H data) (cs_chunks s) = None ∧
   ∃ gone kept, cs_chunks s = gone ++ kept ∧ cs_chunks s' = kept ++ [(H data, data)] ∧
     (∀ gone' p, gone = gone' ++ [p] → (cs_max_bytes s < total (p :: kept) + size data)%Z)).

Lemma put_wp data (m : Mesh) :
  store_ok (store m) →
  wp (put sha256 data)
     (λ key m', key = H data ∧ fs m' = fs m ∧ store_ok (store m') ∧ stored data (store m) (store m') ∧
                is_Some (od_get key (cs_chunks (store m'))))
     (λ e m', e = MeshValueError ∧ m' = m ∧ (cs_max_bytes (store m) < size data)%Z) m.
Proof.
  intros Hok. unfold wp, put, mbind, eff_bind, gets. cbv beta iota.
  destruct (Z.ltb_spec (cs_max_bytes (store m)) (size data)) as [Hlt | Hle]; [done |].
  destruct (od_get (H data) (cs_chunks (store m))) as [d |] eqn:Hg.
  - rewrite bool_decide_eq_true_2 by done. cbn. split_and!; try done.
    + by apply touch_ok.
    + split; [done |]. left. split; [by eexists | done].
    + rewrite od_get_move, Hg. by eexists.
  - rewrite bool_decide_eq_false_2 by (by intros []). cbn. unfold evict_until_fits.
    destruct (evict_spec (size data) (cs_max_bytes (store m)) (cs_used (store m)) (cs_chunks (store m)))
      as (gone & kept & Hc & He & Hfit & Hmin); [apply Hok | done |].
    rewrite He. cbn. destruct Hok as [H1 H2 H3 H4].
    assert (Hnin : H data ∉ kept.*1).
    { apply od_get_None in Hg. rewrite Hc, fmap_app in Hg. set_solver. }
    rewrite od_set_fresh by done.
    assert (Hwf : od_wf (kept ++ [(H data, data)])).
    { unfold od_wf in *. rewrite Hc, fmap_app in H1. apply NoDup_app in H1 as (_ & _ & H1).
      rewrite fmap_app. apply NoDup_app. split_and!; [done | set_solver | apply NoDup_singleton]. }
    split_and!; try done.
    + split; cbn; try done.
      * rewrite total_app. cbn. lia.
      * intros k d Hin. apply elem_of_app in Hin as [Hin | Hin%list_elem_of_singleton]; [| by simplify_eq].
        apply H4. rewrite Hc. apply elem_of_app. by right.
    + split; [done |]. right. split; [done |]. exists gone, kept. done.
    + rewrite (elem_of_od_get (H data) data); [by eexists | done |]. apply elem_of_app. right. apply list_elem_of_here.
Qed.

Lemma get_wp key (m : Mesh) :
  store_ok (store m) →
  wp (get key)
     (λ d m', H d = key ∧ od_get key (cs_chunks (store m)) = Some d ∧ m' = on_store (touch key) m ∧
              store_ok (store m'))
     (λ e m', e = ChunkNotFound key ∧ m' = m ∧ od_get key (cs_chunks (store m)) = None) m.
Proof.
  intros Hok. unfold wp, get, mbind, eff_bind, gets. cbv beta iota.
  destruct (od_get key (cs_chunks (store m))) as [d |] eqn:Hg; cbn; [| done]. split_and!; try done.
  - symmetry. apply (so_named _ Hok). by apply od_get_elem.
  - by apply touch_ok.
Qed.
End Store.

(** ** Reconstruction *)

Section Reconstruct.
  Context (sha256 : bytes → bytes) (hmac : bytes → bytes → bytes).
  Notation H := (chunk_hash sha256).
  Notation store_ok := (store_ok sha256).

Lemma H_inj a b : H a = H b → a = b ∨ collision sha256.
Proof.
  unfold chunk_hash. intros Heq%to_hex_inj. destruct (decide (a = b)); [by left | right]. by exists a, b.
Qed.

Lemma H_map_inj (ds cs : list bytes) : H <$> ds = H <$> cs → ds = cs ∨ collision sha256.
Proof.
  revert cs; induction ds as [| d ds IH]; intros [| c cs] Heq; try done; [by left |].
  cbn in Heq. injection Heq as Hd Hds. destruct (H_inj _ _ Hd) as [-> | ?]; [| by right].
  destruct (IH _ Hds) as [-> | ?]; [by left | by right].
Qed.

(** The store keeps its invariant and its contents; only the order of use may
    have changed. *)
Definition same_chunks (m m' : Mesh) : Prop :=
  store_ok (store m') ∧ (∀ k, od_get k (cs_chunks (store m')) = od_get k (cs_chunks (store m))) ∧
  cs_max_bytes (store m') = cs_max_bytes (store m).

Lemma same_chunks_trans m1 m2 m3 : same_chunks m1 m2 → same_chunks m2 m3 → same_chunks m1 m3.
Proof. intros (_ & Hg & Hm) (Hok & Hg' & Hm'). split_and!; [done | intros k; by rewrite Hg' | congruence]. Qed.

Lemma same_chunks_touch k m : store_ok (store m) → same_chunks m (on_store (touch k) m).
Proof. intros Hok. split_and!; [by apply touch_ok | intros k'; apply od_get_move | done]. Qed.

Lemma write_chunks_wp dest hs whole written (m : Mesh) :
  store_ok (store m) → is_Some (fs m !! dest) →
  wp (write_chunks sha256 dest hs whole written)
     (λ r m', ∃ ds : list bytes, H <$> ds = hs ∧ r = (whole ++ concat ds, written + size (concat ds))%Z ∧
        fs m' = alter (λ old, old ++ concat ds) dest (fs m) ∧ same_chunks m m')
     (λ e m', ∃ h, e = ChunkNotFound h ∧ h ∈ hs ∧ od_get h (cs_chunks (store m)) = None ∧
        same_chunks m m' ∧ ∀ p, p ≠ dest → fs m' !! p = fs m !! p) m.
Proof.
  revert m whole written; induction hs as [| h hs IH]; intros m whole written Hok [c Hdest]; cbn [write_chunks].
  { apply wp_ret. exists []. cbn. rewrite app_nil_r. split_and!; try done; [by rewrite Z.add_0_r |].
    apply map_eq; intros p. destruct (decide (dest = p)) as [<- |]; [| by rewrite lookup_alter_ne].
    rewrite lookup_alter_eq, Hdest. cbn. by rewrite app_nil_r. }
  apply wp_bind. eapply wp_mono; [| | apply (get_wp sha256); done]; cbn.
  - intros d m1 (Hd & Hg & -> & Hok1). rewrite bool_decide_eq_true_2 by done. apply wp_bind, wp_modify.
    assert (Ht : same_chunks m (on_fs (alter (λ old, old ++ d) dest) (on_store (touch h) m)))
      by (by apply same_chunks_touch).
    eapply wp_mono; [| | apply IH; [done | cbn; rewrite lookup_alter_eq, Hdest; by eexists]].
    + intros r m2 (ds & Hds & -> & Hf & Hsame). exists (d :: ds). cbn. rewrite Hd, Hds.
      split_and!; try done.
      * rewrite app_assoc. f_equal. unfold size. rewrite length_app. lia.
      * rewrite Hf. cbn. apply map_eq; intros p.
        destruct (decide (dest = p)) as [<- |]; [| by rewrite !lookup_alter_ne].
        rewrite !lookup_alter_eq, Hdest. cbn. by rewrite app_assoc.
      * by eapply same_chunks_trans.
    + intros e m2 (h' & -> & Hin & Hn & Hsame & Hfs). exists h'. split_and!; try done; [set_solver | | |].
      * cbn in Hn. by rewrite od_get_move in Hn.
      * by eapply same_chunks_trans.
      * intros p Hp. rewrite Hfs by done. cbn. by rewrite lookup_alter_ne.
  - intros e m1 (-> & -> & Hn). exists h. split_and!; try done. set_solver.
Qed.

Definition held (hs : list string) (m : Mesh) : Prop := ∀ h, h ∈ hs → is_Some (od_get h (cs_chunks (store m))).

(** The two ways reconstruction refuses: a chunk is absent, or the chunks do not
    make the file the manifest describes. *)
Definition refused (man : Manifest) (m : Mesh) (e : MeshError) : Prop :=
  (∃ h, e = ChunkNotFound h ∧ h ∈ mf_chunks man ∧ od_get h (cs_chunks (store m)) = None) ∨
  (e = MeshVerificationError ∧ ∃ ds : list bytes, H <$> ds = mf_chunks man ∧
     (size (concat ds) ≠ mf_total_size man ∨ to_hex (sha256 (concat ds)) ≠ mf_whole_file_sha256 man)).

Definition rebuilt (man : Manifest) (content : bytes) : Prop :=
  (∃ ds : list bytes, H <$> ds = mf_chunks man ∧ content = concat ds) ∧
  size content = mf_total_size man ∧ to_hex (sha256 content) = mf_whole_file_sha256 man.

Lemma reconstruct_wp man dest (m : Mesh) :
  store_ok (store m) →
  wp (reconstruct sha256 man dest)
     (λ _ m', same_chunks m m' ∧ ∃ content, rebuilt man content ∧ fs m' = <[dest := content]> (fs m))
     (λ e m', same_chunks m m' ∧ refused man m e ∧ ∀ p, p ≠ dest → fs m' !! p = fs m !! p) m.
Proof.
  intros Hok. unfold reconstruct. apply wp_bind, wp_modify, wp_bind.
  eapply wp_mono; [| | apply write_chunks_wp; [done | cbn; rewrite lookup_insert_eq; by eexists]]; cbn.
  - intros r m' (ds & Hds & -> & Hf & Hsame). rewrite Z.add_0_l.
    assert (Hfs : fs m' = <[dest := concat ds]> (fs m)).
    { rewrite Hf. apply map_eq; intros p. destruct (decide (dest = p)) as [<- |].
      - by rewrite lookup_alter_eq, !lookup_insert_eq.
      - by rewrite lookup_alter_ne, !lookup_insert_ne. }
    assert (Hoff : ∀ p, p ≠ dest → fs m' !! p = fs m !! p) by (intros p Hp; by rewrite Hfs, lookup_insert_ne).
    destruct (Z.eqb_spec (size (concat ds)) (mf_total_size man)) as [Hsz |]; cbn.
    2: { split_and!; try done. right. split; [done |]. exists ds. split; [done | by left]. }
    destruct (bool_decide (to_hex (sha256 (concat ds)) = mf_whole_file_sha256 man)) eqn:Hw; reflect_bools; cbn.
    + split; [done |]. exists (concat ds). split; [| done]. split_and!; try done. by exists ds.
    + split_and!; try done. right. split; [done |]. exists ds. split; [done | by right].
  - intros e m' (h & -> & Hin & Hn & Hsame & Hoff). split_and!; try done.
    + left. by exists h.
    + intros p Hp. by rewrite Hoff, lookup_insert_ne.
Qed.

Lemma atomic_wp man dest (m : Mesh) :
  store_ok (store m) →
  wp (reconstruct_atomic sha256 man dest)
     (λ _ m', same_chunks m m' ∧
        ∃ content, rebuilt man content ∧ fs m' = <[dest := content]> (delete (partial_path dest) (fs m)))
     (λ e m', same_chunks m m' ∧ refused man m e ∧ fs m' = delete (partial_path dest) (fs m)) m.
Proof.
  intros Hok. pose proof (reconstruct_wp man (partial_path dest) m Hok) as Hr.
  unfold wp in *. unfold reconstruct_atomic.
  destruct (reconstruct sha256 man (partial_path dest) m) as [m1 [e | u]]; cbn.
  - destruct Hr as (Hsame & Href & Hoff). split_and!; try done. apply map_eq; intros p.
    destruct (decide (partial_path dest = p)) as [<- |]; [by rewrite !lookup_delete_eq |].
    rewrite !lookup_delete_ne by done. by apply Hoff.
  - destruct Hr as (Hsame & content & Hre & Hf). split; [done |]. exists content. split; [done |].
    rewrite Hf, lookup_insert_eq. cbn. by rewrite delete_insert_eq.
Qed.

Lemma hex_ascii bs : is_ascii (to_hex bs) = true.
Proof.
  unfold is_ascii, to_hex. rewrite String.list_ascii_of_string_of_list_ascii.
  induction bs as [| b bs IH]; [done |]. rewrite bind_cons, forallb_app, IH. by destruct b.
Qed.

Lemma check_signature_wp man sig key (m : Mesh) :
  wp (check_signature hmac man sig key) (λ _ m', m' = m ∧ sig = sign_manifest hmac man key)
     (λ e m', m' = m ∧ (e = MeshTypeError ∧ is_ascii sig = false ∨
                        e = MeshVerificationError ∧ sig ≠ sign_manifest hmac man key)) m.
Proof.
  unfold check_signature, verify_manifest. destruct (is_ascii sig) eqn:Ha; [| by apply wp_raise; auto].
  destruct (bool_decide (sign_manifest hmac man key = sig)) eqn:Hb; reflect_bools; [done |].
  apply wp_raise. split; [done |]. right. by split.
Qed.

Lemma verified_kept man sig key dest (m : Mesh) :
  store_ok (store m) →
  wp (verified_reconstruct sha256 hmac man sig key dest) (λ _, same_chunks m) (λ _, same_chunks m) m.
Proof.
  intros Hok. unfold verified_reconstruct. apply wp_bind. eapply wp_mono; [| | apply check_signature_wp]; cbn.
  - intros _ m' [-> _]. eapply wp_mono; [| | by apply atomic_wp]; cbn; by intros ? m' [? _].
  - intros e m' [-> _]. by split_and!.
Qed.

Lemma verified_reconstruct_wp man sig key dest (m : Mesh) :
  store_ok (store m) →
  wp (verified_reconstruct sha256 hmac man sig key dest)
     (λ _ m', same_chunks m m' ∧ sig = sign_manifest hmac man key ∧
        ∃ content, rebuilt man content ∧ fs m' = <[dest := content]> (delete (partial_path dest) (fs m)))
     (λ e m', same_chunks m m' ∧
        (m' = m ∧ e = MeshTypeError ∧ is_ascii sig = false ∨
         m' = m ∧ e = MeshVerificationError ∧ sig ≠ sign_manifest hmac man key ∨
         refused man m e ∧ sig = sign_manifest hmac man key ∧ fs m' = delete (partial_path dest) (fs m))) m.
Proof.
  intros Hok. assert (same_chunks m m) by (by split_and!). unfold verified_reconstruct. apply wp_bind.
  eapply wp_mono; [| | apply check_signature_wp]; cbn.
  - intros _ m' [-> Hs]. eapply wp_mono; [| | by apply atomic_wp]; cbn.
    + by intros _ m' [? ?].
    + intros e m' (? & ? & ?). split; [done |]. by right; right.
  - intros e m' [-> [[-> ?] | [-> ?]]]; (split; [done |]); [by left | by right; left].
Qed.

(** [verified_reconstruct] is gated and atomic.  It returns only for the
    manifest's own signature, and then the destination is a file whose chunks,
    size and digest are the manifest's; when it raises, the destination and
    every other path keep their contents (a stale [.partial] file is removed
    unless the signature was refused, in which case nothing at all happens) and
    the exception says what was wrong.  The cache's contents never change. *)
Theorem verified_reconstruct_spec man sig key dest (m : Mesh) :
  store_ok (store m) →
  wp (verified_reconstruct sha256 hmac man sig key dest)
     (λ _ m', same_chunks m m' ∧ sig = sign_manifest hmac man key ∧
        ∃ content, rebuilt man content ∧ fs m' = <[dest := content]> (delete (partial_path dest) (fs m)))
     (λ e m', same_chunks m m' ∧
        (m' = m ∧ e = MeshTypeError ∧ is_ascii sig = false ∨
         m' = m ∧ e = MeshVerificationError ∧ sig ≠ sign_manifest hmac man key ∨
         refused man m e ∧ sig = sign_manifest hmac man key ∧ fs m' = delete (partial_path dest) (fs m))) m.
Proof. apply verified_reconstruct_wp. Qed.

(** With a collision at hand nothing more is promised. *)
Lemma wp_any_collision {A} (c : M_eff A) (Q : A → Mesh → Prop) (m : Mesh) :
  collision sha256 → wp c (λ a m', Q a m' ∨ collision sha256) (λ _ _, collision sha256) m.
Proof. intros Hc. unfold wp. destruct (c m) as [? [|]]; auto. Qed.

(** What [build_manifest] returns. *)
Lemma build_manifest_inv data model n man :
  build_manifest sha256 data model n = inr man →
  ∃ cs : list bytes, concat cs = data ∧ mf_chunks man = H <$> cs ∧ mf_total_size man = size data ∧
    mf_whole_file_sha256 man = to_hex (sha256 data) ∧ merkle_root sha256 (mf_chunks man) = inr (mf_merkle_root man) ∧
    ∀ c, c ∈ cs → c ≠ [] ∧ (size c ≤ n)%Z.
Proof.
  intros Hb. unfold build_manifest, iter_file_chunks in Hb. destruct (Z.leb_spec n 0) as [| Hn]; [done |].
  assert (Hcat : concat (read_chunks (length data) (Z.to_nat n) data) = data) by (apply read_chunks_concat; lia).
  assert (Htot : ∀ z (l : list bytes), fold_left (λ t d, (t + size d)%Z) l z = (z + size (concat l))%Z).
  { intros z l; revert z; induction l as [| d l IH]; intros z; cbn; [unfold size; cbn; lia |].
    rewrite IH. unfold size. rewrite length_app. lia. }
  destruct (merkle_root sha256 _) as [| root] eqn:Hm; [done |]. simplify_eq.
  eexists. split_and!; [exact Hcat | done | cbn | cbn; by rewrite Hcat | done |].
  - by rewrite Htot, Hcat.
  - intros c [? ?]%read_chunks_sizes; [| lia]. split; [done |]. unfold size. lia.
Qed.

(** A store that holds every chunk of a manifest built from [data] gives the
    file back. *)
Lemma rebuild_all_held data model n man key dest (m : Mesh) :
  build_manifest sha256 data model n = inr man → store_ok (store m) → held (mf_chunks man) m →
  wp (verified_reconstruct sha256 hmac man (sign_manifest hmac man key) key dest)
     (λ _ m', fs m' !! dest = Some data ∨ collision sha256) (λ _ _, collision sha256) m.
Proof.
  intros (cs & Hcat & Hcs & Hsz & Hsha & _)%build_manifest_inv Hok Hheld.
  assert (Hsame : ∀ ds : list bytes, H <$> ds = mf_chunks man → concat ds = data ∨ collision sha256).
  { intros ds Hds. rewrite Hcs in Hds. destruct (H_map_inj _ _ Hds) as [-> | ?]; [by left | by right]. }
  unfold verified_reconstruct. apply wp_bind. eapply wp_mono; [| | apply check_signature_wp]; cbn.
  - intros _ m' [-> _]. eapply wp_mono; [| | by apply atomic_wp]; cbn.
    + intros _ m' (_ & content & ((ds & Hds & ->) & _) & Hf). destruct (Hsame ds Hds) as [<- | ?]; [| by right].
      left. by rewrite Hf, lookup_insert_eq.
    + intros e m' (_ & [(h & _ & Hin & Hn) | (_ & ds & Hds & Hbad)] & _).
      { apply Hheld in Hin. rewrite Hn in Hin. by destruct Hin. }
      destruct (Hsame ds Hds) as [Heq | ?]; [| done]. rewrite Heq, Hsz, Hsha in Hbad. by destruct Hbad.
  - intros e m' (-> & [[_ Ha] | [_ Ha]]); [| done]. unfold sign_manifest in Ha; by rewrite hex_ascii in Ha.
Qed.
End Reconstruct.

(** ** Fetching *)

Section Fetch.
  Context (sha256 : bytes → bytes) (hmac : bytes → bytes → bytes).
  Notation H := (chunk_hash sha256).
  Notation store_ok := (store_ok sha256).

Definition keys_of (m : Mesh) : list string := od_keys (cs_chunks (store m)).

(** What one accepted chunk does: nothing but a correctly named chunk enters,
    and nothing leaves while there is room. *)
Definition accepted (h : string) (d : bytes) (m m' : Mesh) : Prop :=
  H d = h ∧ store_ok (store m') ∧ fs m' = fs m ∧ cs_max_bytes (store m') = cs_max_bytes (store m) ∧
  h ∈ keys_of m' ∧ (∀ k, k ∈ keys_of m' → k = h ∨ k ∈ keys_of m) ∧
  ((cs_used (store m) + size d ≤ cs_max_bytes (store m))%Z →
   (∀ k, k ∈ keys_of m → k ∈ keys_of m') ∧ (cs_used (store m') ≤ cs_used (store m) + size d)%Z).

Lemma stored_accepted d (m m' : Mesh) :
  store_ok (store m) → store_ok (store m') → fs m' = fs m → stored sha256 d (store m) (store m') →
  is_Some (od_get (H d) (cs_chunks (store m'))) → accepted (H d) d m m'.
Proof.
  intros Hok Hok' Hfs [Hmax Hst] Hin. apply od_get_is_Some in Hin.
  split_and!; try done; destruct Hst as [[Hpre Hs'] | (Hnew & gone & kept & Hc & Hc' & Hmin)].
  - intros k Hk. right. unfold keys_of, od_keys in *. rewrite Hs' in Hk. cbn in Hk.
    by rewrite (od_move_perm _ _ (so_wf _ _ Hok)) in Hk.
  - intros k. unfold keys_of, od_keys. rewrite Hc, Hc', !fmap_app, !elem_of_app. cbn. set_solver.
  - intros _. split.
    + intros k Hk. unfold keys_of, od_keys in *. rewrite Hs'. cbn.
      by rewrite (od_move_perm _ _ (so_wf _ _ Hok)).
    + rewrite Hs'. cbn. unfold size. lia.
  - intros Hroom. pose proof (so_used _ _ Hok) as Hu. pose proof (so_used _ _ Hok') as Hu'.
    assert (gone = []) as ->.
    { destruct gone as [| p gone' _] using rev_ind; [done |]. exfalso.
      specialize (Hmin gone' p eq_refl). rewrite Hu, Hc, !total_app in Hroom. cbn in Hmin, Hroom.
      destruct p as [k d']. cbn in *. pose proof (total_nonneg gone'). lia. }
    cbn [app] in Hc. split.
    + intros k. unfold keys_of, od_keys. rewrite Hc, Hc', fmap_app, elem_of_app. by left.
    + rewrite Hu', Hu, Hc, Hc', total_app. cbn. lia.
Qed.

(** The common tail of a peer fetch and a bundle import. *)
Lemma accept_wp h d (m : Mesh) :
  store_ok (store m) →
  wp (if bool_decide (H d = h) then put sha256 d ;; mret tt else raise MeshVerificationError)
     (λ _, accepted h d m)
     (λ e m', m' = m ∧ (e = MeshVerificationError ∧ H d ≠ h ∨
                        e = MeshValueError ∧ (cs_max_bytes (store m) < size d)%Z)) m.
Proof.
  intros Hok. destruct (bool_decide (H d = h)) eqn:Hd; reflect_bools.
  - apply wp_bind. eapply wp_mono; [| | by apply put_wp]; cbn.
    + intros key m' (-> & Hfs & Hok' & Hst & Hin). rewrite <- Hd. by apply stored_accepted.
    + intros e m' (-> & -> & ?). split; [done |]. by right.
  - apply wp_raise. split; [done |]. by left.
Qed.

(** A source of chunks: what it serves for a hash, or how it fails. *)
Definition serves (src : string → MeshError + bytes) (h : string) : M_eff unit :=
  match src h with
  | inl e => raise e
  | inr d => if bool_decide (H d = h) then put sha256 d ;; mret tt else raise MeshVerificationError
  end.

Definition peer_source (index : gmap string (list Peer)) (h : string) : MeshError + bytes :=
  match holders index h with [] => inl (ChunkNotFound h) | p :: _ => fetch p h end.

Lemma fetch_one_serves index h : fetch_one sha256 index h = serves (peer_source index) h.
Proof. unfold fetch_one, serves, peer_source. by destruct (holders index h). Qed.

Definition bundle_source (b : Bundle) (h : string) : MeshError + bytes :=
  match bn_chunks b !! h with None => inl (ChunkNotFound h) | Some d => inr d end.

Lemma import_one_serves b h : import_one sha256 b h = serves (bundle_source b) h.
Proof. unfold import_one, serves, bundle_source. by destruct (bn_chunks b !! h). Qed.

(** What filling the store from a source guarantees, whatever the source. *)
Definition filled (src : string → MeshError + bytes) (hs : list string) (m m' : Mesh) : Prop :=
  store_ok (store m') ∧ fs m' = fs m ∧ cs_max_bytes (store m') = cs_max_bytes (store m) ∧
  ∀ k, k ∈ keys_of m' → k ∈ keys_of m ∨ k ∈ hs ∧ ∃ d, src k = inr d ∧ H d = k.

Definition unserved (src : string → MeshError + bytes) (hs : list string) (m : Mesh) (e : MeshError) : Prop :=
  ∃ h, h ∈ hs ∧
    (src h = inl e ∨
     ∃ d, src h = inr d ∧ (e = MeshVerificationError ∧ H d ≠ h ∨
                            e = MeshValueError ∧ (cs_max_bytes (store m) < size d)%Z)).

Lemma filled_refl src hs m : store_ok (store m) → filled src hs m m.
Proof. intros Hok. split_and!; try done. by left. Qed.

Lemma fill_wp src hs (m : Mesh) :
  store_ok (store m) →
  wp (for_each (serves src) hs) (λ _, filled src hs m)
     (λ e m', filled src hs m m' ∧ unserved src hs m e) m.
Proof.
  intros Hok.
  eapply (wp_mono _ (λ _ m', filled src hs m m' ∧ ∀ h, h ∈ [] → h ∈ hs)); [by intros _ m' [? _] | intros e m' He; exact He |].
  apply (wp_for_each _ (λ todo m', filled src hs m m' ∧ ∀ h, h ∈ todo → h ∈ hs)).
  { split; [by apply filled_refl | done]. }
  intros h todo m1 [Hf Hsub]. pose proof Hf as (Hok1 & Hfs & Hmax & Hkeys).
  assert (Hh : h ∈ hs) by (apply Hsub; set_solver).
  unfold serves. destruct (src h) as [e | d] eqn:Hs; [apply wp_raise; split; [done |]; exists h; by auto |].
  eapply wp_mono; [| | by apply accept_wp]; cbn.
  - intros _ m2 (Hd & Hok2 & Hfs2 & Hmax2 & _ & Hk2 & _). split; [| intros h' Hh'; apply Hsub; set_solver].
    split_and!; [done | congruence | congruence |]. intros k [-> | Hk]%Hk2; [| by auto]. right. split; [done |]. by exists d.
  - intros e m2 (-> & He). split; [done |]. exists h. split; [done |]. right. exists d. split; [done |].
    rewrite Hmax in He. done.
Qed.

(** The bytes a source would serve for [hs]. *)
Fixpoint served_bytes (src : string → MeshError + bytes) (hs : list string) : Z :=
  match hs with [] => 0 | h :: hs => (size (match src h with inl _ => [] | inr d => d end) + served_bytes src hs)%Z end.

Definition honest (src : string → MeshError + bytes) (hs : list string) : Prop :=
  ∀ h, h ∈ hs → ∃ d, src h = inr d ∧ H d = h.

Lemma served_nonneg src hs : (0 ≤ served_bytes src hs)%Z.
Proof. induction hs as [| h hs IH]; cbn; [lia |]. unfold size. lia. Qed.

(** A source that serves every chunk, and room for them: everything arrives and
    nothing is evicted. *)
Lemma fill_complete src hs (m : Mesh) :
  store_ok (store m) → honest src hs →
  (cs_used (store m) + served_bytes src hs ≤ cs_max_bytes (store m))%Z →
  wp (for_each (serves src) hs)
     (λ _ m', store_ok (store m') ∧ fs m' = fs m ∧ (∀ k, k ∈ keys_of m → k ∈ keys_of m') ∧ ∀ h, h ∈ hs → h ∈ keys_of m')
     (λ _ _, False) m.
Proof.
  intros Hok. revert m Hok; induction hs as [| h hs IH]; intros m Hok Hh Hroom; cbn [for_each].
  { apply wp_ret. split_and!; try done. set_solver. }
  destruct (Hh h) as (d & Hs & Hd); [set_solver |]. cbn in Hroom. rewrite Hs in Hroom. cbn in Hroom.
  pose proof (served_nonneg src hs). pose proof (so_used _ _ Hok) as Hu. pose proof (total_nonneg (cs_chunks (store m))).
  apply wp_bind. unfold serves at 1. rewrite Hs. eapply wp_mono; [| | by apply accept_wp]; cbn.
  - intros _ m1 (_ & Hok1 & Hfs & Hmax & Hin & _ & Hkeep). destruct Hkeep as [Hkeep Hused]; [lia |].
    eapply wp_mono; [| | apply IH; [done | intros h' Hh'; apply Hh; set_solver | rewrite Hmax; lia]]; [| done].
    cbn. intros _ m2 (Hok2 & Hfs2 & Hk2 & Hall). split_and!; [done | congruence | by auto |].
    intros h' [-> | Hh']%elem_of_cons; auto.
  - intros e m1 (_ & [[_ ?] | [_ ?]]); [done | lia].
Qed.

Lemma for_each_ext {A} (f g : A → M_eff unit) l : (∀ x, f x = g x) → for_each f l = for_each g l.
Proof. intros Hfg. induction l as [| x l IH]; [done |]. cbn [for_each]. by rewrite Hfg, IH. Qed.

Lemma fetch_delta_fill man peers (m : Mesh) Q R :
  wp (for_each (serves (peer_source (discover peers))) (missing_chunks man (store m)))
     (λ _ m', Q (missing_chunks man (store m)) m') R m →
  wp (fetch_delta sha256 man (discover peers)) Q R m.
Proof.
  intros Hw. unfold fetch_delta. apply wp_bind, wp_gets, wp_bind.
  rewrite (for_each_ext _ _ _ (fetch_one_serves (discover peers))).
  eapply wp_mono; [| | exact Hw]; [| by intros e m' He; exact He]. cbn; intros u m' HQ; exact HQ.
Qed.

Lemma import_fill b key (m : Mesh) :
  store_ok (store m) →
  wp (import_bundle sha256 hmac b key)
     (λ man m', man = bn_manifest b ∧ filled (bundle_source b) (missing_chunks man (store m)) m m' ∧
                strip (bn_signature b) = sign_manifest hmac man key)
     (λ e m', filled (bundle_source b) (missing_chunks (bn_manifest b) (store m)) m m' ∧
              (strip (bn_signature b) ≠ sign_manifest hmac (bn_manifest b) key → m' = m)) m.
Proof.
  intros Hok. unfold import_bundle. apply wp_bind.
  eapply wp_mono; [| | apply check_signature_wp]; cbn.
  - intros _ m' [-> Hs]. apply wp_bind, wp_gets, wp_bind.
    rewrite (for_each_ext _ _ _ (import_one_serves b)). eapply wp_mono; [| | by apply fill_wp]; cbn.
    + intros _ m' Hf. done.
    + by intros e m' [Hf _].
  - intros e m' [-> _]. split; [by apply filled_refl | done].
Qed.

Lemma export_wp hs (m : Mesh) :
  store_ok (store m) →
  wp (export_chunks hs) (λ _, same_chunks sha256 m) (λ _, same_chunks sha256 m) m.
Proof.
  revert m; induction hs as [| h hs IH]; intros m Hok; cbn [export_chunks]; [apply wp_ret; by split_and! |].
  apply wp_bind. eapply wp_mono; [| | by apply get_wp]; cbn.
  - intros d m1 (_ & _ & -> & Hok1). pose proof (same_chunks_touch sha256 h m Hok) as Ht. apply wp_bind.
    eapply wp_mono; [| | by apply IH]; cbn.
    + intros r m2 Hs. by eapply same_chunks_trans.
    + intros e m2 Hs. by eapply same_chunks_trans.
  - intros e m1 (_ & -> & _). by split_and!.
Qed.

(** *** Any history of a store *)

Inductive MeshOp :=
  | OpPut (data : bytes)
  | OpGet (key : string)
  | OpFetch (man : Manifest) (peers : list Peer)
  | OpImport (b : Bundle) (key : bytes)
  | OpExport (man : Manifest) (signature : string)
  | OpReconstruct (man : Manifest) (signature : string) (key : bytes) (dest : string).

(** The state after an operation, whether it returned or raised. *)
Definition mesh_op (op : MeshOp) (m : Mesh) : Mesh :=
  match op with
  | OpPut data => (put sha256 data m).1
  | OpGet key => (get key m).1
  | OpFetch man peers => (fetch_delta sha256 man (discover peers) m).1
  | OpImport b key => (import_bundle sha256 hmac b key m).1
  | OpExport man sig => (export_bundle man sig m).1
  | OpReconstruct man sig key dest => (verified_reconstruct sha256 hmac man sig key dest m).1
  end.

Lemma wp_state {A} (c : M_eff A) (I : Mesh → Prop) (m : Mesh) : wp c (λ _, I) (λ _, I) m → I (c m).1.
Proof. unfold wp. by destruct (c m) as [m' [e | a]]. Qed.

(** The part of every operation's contract that the history needs. *)
Definition kept_ok (m m' : Mesh) : Prop :=
  store_ok (store m') ∧ cs_max_bytes (store m') = cs_max_bytes (store m).

Lemma mesh_op_ok op m : store_ok (store m) → kept_ok m (mesh_op op m).
Proof.
  intros Hok.
  assert (Hsame : ∀ m', same_chunks sha256 m m' → kept_ok m m') by (by intros m' (? & _ & ?)).
  assert (Hfill : ∀ src hs m', filled src hs m m' → kept_ok m m') by (by intros src hs m' (? & _ & ? & _)).
  destruct op; cbn [mesh_op]; apply (wp_state _ (kept_ok m)).
  - eapply wp_mono; [| | by apply put_wp]; cbn.
    + by intros k m' (_ & _ & ? & [? _] & _).
    + by intros e m' (_ & -> & _).
  - eapply wp_mono; [| | by apply get_wp]; cbn.
    + by intros d m' (_ & _ & -> & ?).
    + by intros e m' (_ & -> & _).
  - apply fetch_delta_fill. eapply wp_mono; [| | by apply fill_wp]; cbn; [eauto |]. intros e m' [? _]; eauto.
  - eapply wp_mono; [| | by apply import_fill]; cbn; [intros r m' (_ & ? & _); eauto | intros e m' [? _]; eauto].
  - unfold export_bundle. apply wp_bind. eapply wp_mono; [| | by apply export_wp]; cbn; eauto.
  - eapply wp_mono; [| | by apply verified_kept]; cbn; eauto.
Qed.

(** Whatever sequence of stores, reads, peer fetches (from any peers,
    honest or not), bundle imports and exports and reconstructions a cache has
    seen, whether they returned or raised: its keys are distinct, every key is
    the digest of the bytes under it, the byte count is the sum of the sizes
    held, and it never exceeds the capacity the cache was created with. *)
Theorem mesh_store_invariant cap s0 files ops :
  new_store cap = inr s0 →
  let m := fold_left (λ m op, mesh_op op m) ops {| store := s0; fs := files |} in
  store_ok (store m) ∧ cs_max_bytes (store m) = cap.
Proof.
  intros Hnew. unfold new_store in Hnew. destruct (Z.leb_spec cap 0); [done |]. simplify_eq.
  assert (Hgen : ∀ ops m, store_ok (store m) → cs_max_bytes (store m) = cap →
    let m' := fold_left (λ m op, mesh_op op m) ops m in
    store_ok (store m') ∧ cs_max_bytes (store m') = cap).
  { clear. induction ops as [| op ops IH]; intros m Hok Hcap; cbn; [done |].
    destruct (mesh_op_ok op m Hok) as [? ?]. apply IH; [done | congruence]. }
  apply Hgen; [| done]. split; cbn; [constructor | done | lia | set_solver].
Qed.

(** [put] is a bounded least-recently-used cache.  It refuses only a chunk
    larger than the capacity, and then changes nothing.  Otherwise it returns
    the content's digest; a chunk already held becomes the most recently used; a
    new one is appended after evicting the shortest prefix (the least recently
    used chunks) that makes room; and reading the key back returns the bytes
    stored, or a SHA-256 collision is exhibited. *)
Theorem put_spec data (m : Mesh) :
  store_ok (store m) →
  let chunks := cs_chunks (store m) in
  wp (put sha256 data)
     (λ key m', key = H data ∧ (size data ≤ cs_max_bytes (store m))%Z ∧
        (cs_chunks (store m') = od_move_to_end key chunks ∧ key ∈ od_keys chunks ∨
         key ∉ od_keys chunks ∧
         ∃ gone kept, chunks = gone ++ kept ∧ cs_chunks (store m') = kept ++ [(key, data)] ∧
           ∀ gone' p, gone = gone' ++ [p] → (cs_max_bytes (store m) < total (p :: kept) + size data)%Z) ∧
        wp (get key) (λ d _, d = data ∨ collision sha256) (λ _ _, False) m')
     (λ e m', e = MeshValueError ∧ m' = m ∧ (cs_max_bytes (store m) < size data)%Z) m.
Proof.
  intros Hok chunks. pose proof (put_wp sha256 data m Hok) as Hp. unfold wp in Hp |- * at 1.
  destruct (put sha256 data m) as [m' [e | key]] eqn:Hput; [done |].
  destruct Hp as (-> & Hfs & Hok' & [Hmax Hst] & Hin). split_and!; [done | | |].
  - unfold put, mbind, eff_bind, gets in Hput. cbv beta iota in Hput. by destruct (Z.ltb_spec (cs_max_bytes (store m)) (size data)).
  - destruct Hst as [[Hpre ->] | [Hnew (gone & kept & Hst)]]; [left | right].
    + split; [done |]. by apply od_get_is_Some.
    + split; [by apply od_get_None |]. by exists gone, kept.
  - eapply wp_mono; [| | by apply get_wp]; cbn.
    + intros d m2 (Hd & _). by apply H_inj.
    + intros e m2 (_ & _ & Hn). rewrite Hn in Hin. by destruct Hin.
Qed.

(** A peer fetch trusts no peer.  Whatever the peers claim and serve,
    every key [fetch_delta] adds to the cache is one the manifest was missing
    and is the digest of the bytes its first holder served; a return lists exactly
    the hashes that were missing, in manifest order; an exception is
    [ChunkNotFound] for a hash nobody announced, [VerificationError] for wrong
    bytes or [ValueError] for a chunk larger than the cache.  No file changes. *)
Theorem fetch_delta_safe man peers (m : Mesh) :
  store_ok (store m) →
  let src := peer_source (discover peers) in
  let missing := missing_chunks man (store m) in
  wp (fetch_delta sha256 man (discover peers))
     (λ fetched m', fetched = missing ∧ filled src missing m m')
     (λ e m', filled src missing m m' ∧ unserved src missing m e) m.
Proof. intros Hok src missing. apply fetch_delta_fill. eapply wp_mono; [| | by apply fill_wp]; by cbn. Qed.

(** *** From a file to its copy *)

Lemma served_unique src seen hs : (served_bytes src (unique_by id seen hs) ≤ served_bytes src hs)%Z.
Proof.
  revert seen; induction hs as [| h hs IH]; intros seen; cbn; [done |].
  destruct (bool_decide (h ∈ seen)); cbn; [pose proof (IH seen); unfold size; lia |].
  pose proof (IH (h :: seen)). unfold id in *. lia.
Qed.

Lemma served_honest src hs :
  honest src hs → ∃ ds : list bytes, H <$> ds = hs ∧ served_bytes src hs = size (concat ds).
Proof.
  induction hs as [| h hs IH]; intros Hh; [by exists [] |].
  destruct IH as (ds & Hds & Hsz); [intros h' ?; apply Hh; set_solver |].
  destruct (Hh h) as (d & Hs & Hd); [set_solver |]. exists (d :: ds). cbn. rewrite Hd, Hds. split; [done |].
  rewrite Hs, Hsz. cbn. unfold size. rewrite length_app. lia.
Qed.

Lemma missing_spec man s h : h ∈ missing_chunks man s ↔ h ∈ mf_chunks man ∧ h ∉ od_keys (cs_chunks s).
Proof.
  unfold missing_chunks, availability. split; [apply unique_by_subset |]. intros [Hin Hn].
  destruct (unique_by_complete id (od_keys (cs_chunks s)) _ h Hin Hn) as (y & Hy & Heq). unfold id in *; by subst.
Qed.

Lemma distribution_wp data model n man peers key dest (m : Mesh) :
  build_manifest sha256 data model n = inr man →
  store_ok (store m) →
  honest (peer_source (discover peers)) (mf_chunks man) →
  (cs_used (store m) + mf_total_size man ≤ cs_max_bytes (store m))%Z →
  wp (fetch_delta sha256 man (discover peers) ;;
      verified_reconstruct sha256 hmac man (sign_manifest hmac man key) key dest)
     (λ _ m', fs m' !! dest = Some data ∨ collision sha256) (λ _ _, collision sha256) m.
Proof.
  intros Hb Hok Hhon Hroom. pose proof (build_manifest_inv _ _ _ _ _ Hb) as (cs & Hcat & Hcs & Hsz & _).
  destruct (served_honest _ _ Hhon) as (ds & Hds & Hserved). rewrite Hcs in Hds.
  destruct (H_map_inj _ _ _ Hds) as [-> | Hcol]; [| by apply wp_any_collision].
  apply wp_bind, fetch_delta_fill. eapply wp_mono; [| | apply fill_complete; [done | |]]; cbn; [| done | |].
  - intros _ m1 (Hok1 & _ & Hkeep & Hall). eapply rebuild_all_held; [done | done |]. intros h Hh.
    apply od_get_is_Some. destruct (decide (h ∈ keys_of m)) as [| Hn]; [by apply Hkeep |].
    apply Hall, missing_spec. done.
  - intros h [Hh _]%missing_spec. by apply Hhon.
  - pose proof (served_unique (peer_source (discover peers)) (availability (store m)) (mf_chunks man)) as Hu.
    unfold missing_chunks. rewrite Hserved, Hcat in Hu. lia.
Qed.

(** Distribution works end to end.  A manifest is built from a file; the
    peers serve its chunks; the cache has room for the file beside what it
    already holds.  Then fetching the missing chunks and reconstructing under
    the manifest's signature both return, and the destination is the original
    file byte for byte, or the run has exhibited a SHA-256 collision. *)
Theorem distribution_roundtrip data model n man peers key dest (m : Mesh) :
  build_manifest sha256 data model n = inr man →
  store_ok (store m) →
  honest (peer_source (discover peers)) (mf_chunks man) →
  (cs_used (store m) + mf_total_size man ≤ cs_max_bytes (store m))%Z →
  wp (fetch_delta sha256 man (discover peers) ;;
      verified_reconstruct sha256 hmac man (sign_manifest hmac man key) key dest)
     (λ _ m', fs m' !! dest = Some data ∨ collision sha256) (λ _ _, collision sha256) m.
Proof. apply distribution_wp. Qed.
End Fetch.

(** ** The Merkle root *)

Section Merkle.
  Context (sha256 : bytes → bytes).
  Context (digest_len : ∀ d, length (sha256 d) = 32%nat).

(** The tree the levels build, and its digest. *)
Inductive tree := Leaf (d : bytes) | Node (l r : tree).

Fixpoint digest (t : tree) : bytes :=
  match t with
  | Leaf d => sha256 ("000"%byte :: d)
  | Node l r => node sha256 (digest l) (digest r)
  end.

Fixpoint leaves (t : tree) : list bytes :=
  match t with Leaf d => [d] | Node l r => leaves l ++ leaves r end.

Fixpoint pair_up (ts : list tree) : list tree :=
  match ts with
  | a :: b :: rest => Node a b :: pair_up rest
  | rest => rest
  end.

(** Induction two elements at a time. *)
Lemma two_step_ind {A} (P : list A → Prop) :
  P [] → (∀ x, P [x]) → (∀ x y l, P l → P (x :: y :: l)) → ∀ l, P l.
Proof.
  intros H0 H1 H2 l. enough (P l ∧ ∀ x, P (x :: l)) by tauto.
  induction l as [| x l [IH IH']]; [by auto |]. split; [by apply IH' |]. auto.
Qed.

Lemma digest_pair_up ts : next_level sha256 (digest <$> ts) = digest <$> pair_up ts.
Proof. induction ts as [| t | a b ts IH] using two_step_ind; [done | done |]. cbn in *. by rewrite IH. Qed.

Lemma leaves_pair_up ts : pair_up ts ≫= leaves = ts ≫= leaves.
Proof.
  induction ts as [| t | a b ts IH] using two_step_ind; [done | done |]. cbn in *.
  unfold mbind in *. rewrite IH. by rewrite app_assoc.
Qed.

Lemma pair_up_length ts : (length (pair_up ts) ≤ length ts)%nat ∧ ((1 < length ts)%nat → (length (pair_up ts) < length ts)%nat) ∧
  (ts ≠ [] → pair_up ts ≠ []).
Proof.
  induction ts as [| t | a b ts (IH1 & IH2 & IH3)] using two_step_ind; cbn in *; split_and!; done || lia.
Qed.

(** The climb ends at a single node, the digest of a tree over the same leaves. *)
Lemma climb_tree fuel ts :
  (length ts ≤ S fuel)%nat → ts ≠ [] →
  ∃ t, climb sha256 fuel (digest <$> ts) = [digest t] ∧ leaves t = ts ≫= leaves.
Proof.
  revert ts; induction fuel as [| fuel IH]; intros ts Hlen Hne.
  { destruct ts as [| t [| ? ?]]; [done | | cbn in Hlen; lia]. exists t. cbn. by rewrite app_nil_r. }
  cbn [climb]. rewrite length_fmap. destruct (Nat.ltb_spec 1 (length ts)).
  - destruct (pair_up_length ts) as (_ & Hlt & Hn). rewrite digest_pair_up.
    destruct (IH (pair_up ts)) as (t & Hc & Hl); [lia | by apply Hn |].
    exists t. split; [done |]. by rewrite Hl, leaves_pair_up.
  - destruct ts as [| t [| ? ?]]; [done | | cbn in *; lia]. exists t. cbn. by rewrite app_nil_r.
Qed.

Lemma mapM_leaf ds : mapM (leaf sha256) (to_hex <$> ds) = Some (digest <$> (Leaf <$> ds)).
Proof.
  induction ds as [| d ds IH]; [done |]. cbn. unfold leaf. rewrite hex_roundtrip. cbn.
  unfold leaf in IH. by rewrite IH.
Qed.

(** The root over any list of digests exists and is the digest of a tree with
    exactly those leaves (one empty leaf for the empty list). *)
Lemma merkle_root_tree ds :
  ∃ t, merkle_root sha256 (to_hex <$> ds) = inr (to_hex (digest t)) ∧
       leaves t = match ds with [] => [[]] | _ => ds end.
Proof.
  destruct ds as [| d ds]; [by exists (Leaf []) |].
  unfold merkle_root. rewrite mapM_leaf. cbn [fmap list_fmap].
  change (digest (Leaf d) :: (digest <$> (Leaf <$> ds))) with (digest <$> (Leaf <$> (d :: ds))).
  destruct (climb_tree (length (digest <$> (Leaf <$> (d :: ds)))) (Leaf <$> (d :: ds))) as (t & Hc & Hl);
    [rewrite !length_fmap; lia | done |].
  exists t. rewrite Hc. split; [done |]. rewrite Hl. clear. generalize (d :: ds). induction l as [| x l IH]; [done |].
  cbn in *. by rewrite IH.
Qed.

Lemma sha_eq a b : sha256 a = sha256 b → a = b ∨ collision sha256.
Proof. intros Heq. destruct (decide (a = b)); [by left | right]. by exists a, b. Qed.

Lemma digest_length t : length (digest t) = 32%nat.
Proof. destruct t; apply digest_len. Qed.

Lemma digest_inj t t' : digest t = digest t' → t = t' ∨ collision sha256.
Proof.
  revert t'; induction t as [d | l IHl r IHr]; intros [d' | l' r'] Heq; cbn in Heq;
    apply sha_eq in Heq as [Heq | ?]; try (by right); simplify_eq; [by left |].
  apply app_inj_1 in Heq as [Hl Hr]; [| by rewrite !digest_length].
  destruct (IHl _ Hl) as [-> | ?]; [| by right]. destruct (IHr _ Hr) as [-> | ?]; [by left | by right].
Qed.

(** The Merkle root commits to the chunk list.  The root of any list of
    digests is defined, and two lists of digests with the same root are equal,
    length and order included, or a SHA-256 collision is exhibited (the leaf
    and node prefixes keep a promoted or inner node from being read as a leaf,
    and the empty list from sharing a root with any other). *)
Theorem merkle_root_binds (ds ds' : list bytes) :
  Forall (λ d, length d = 32%nat) ds → Forall (λ d, length d = 32%nat) ds' →
  ∃ r r', merkle_root sha256 (to_hex <$> ds) = inr r ∧ merkle_root sha256 (to_hex <$> ds') = inr r' ∧
    (r = r' → ds = ds' ∨ collision sha256).
Proof.
  intros Hds Hds'. destruct (merkle_root_tree ds) as (t & Ht & Hl), (merkle_root_tree ds') as (t' & Ht' & Hl').
  exists (to_hex (digest t)), (to_hex (digest t')). split_and!; [done | done |]. intros Heq%to_hex_inj.
  apply digest_inj in Heq as [-> | ?]; [| by right]. left. rewrite Hl in Hl'. clear Ht Ht' Hl.
  destruct ds as [| d ds], ds' as [| d' ds']; [done | | | done]; inversion Hds; inversion Hds'; by simplify_eq/=.
Qed.
End Merkle.

(** ** Pacing *)

(** A transfer: its size, the clock when [throttle] is called and the clock when
    it returns from its sleep. *)
Record Transfer := { tr_bytes : Z; tr_now : Q; tr_after : Q }.

(** A run of transfers under a constant activity: the limiter and the bytes
    moved. *)
Fixpoint transfers (active : bool) (ts : list Transfer) (l : BandwidthLimiter) : BandwidthLimiter * Q :=
  match ts with
  | [] => (l, 0%Q)
  | t :: ts =>
      let l1 := (throttle (tr_bytes t) active (tr_now t) (tr_after t) l).1 in
      let '(l2, sum) := transfers active ts l1 in
      (l2, inject_Z (tr_bytes t) + sum)%Q
  end.

(** The sleep takes at least the time asked of it. *)
Fixpoint sleeps_ok (active : bool) (ts : list Transfer) (l : BandwidthLimiter) : Prop :=
  match ts with
  | [] => True
  | t :: ts =>
      let '(l1, waited) := throttle (tr_bytes t) active (tr_now t) (tr_after t) l in
      (tr_now t + waited <= tr_after t)%Q ∧ sleeps_ok active ts l1
  end.

Lemma throttle_rates n active now after l :
  let l' := (throttle n active now after l).1 in
  bl_active_rate l' = bl_active_rate l ∧ bl_idle_rate l' = bl_idle_rate l.
Proof. unfold throttle. cbv zeta. by destruct (_ <=?q _). Qed.

Lemma qmin_le a b : (qmin a b <= a)%Q ∧ (qmin a b <= b)%Q.
Proof. unfold qmin. destruct (b <?q a) eqn:Hb; reflect_bools; lra. Qed.

(** One transfer is paid for by the allowance it found and the time it took. *)
Lemma throttle_pays n active now after l :
  let r := rate_now l active in
  let '(l', waited) := throttle n active now after l in
  (0 < r)%Q → (now + waited <= after)%Q →
  (inject_Z n + bl_allowance l' <= qmin r (bl_allowance l + (now - bl_last l) * r) + (bl_last l' - now) * r)%Q ∧
  (0 <= bl_allowance l')%Q.
Proof.
  cbv zeta. unfold throttle. cbv zeta. set (r := rate_now l active). set (a := qmin _ _).
  destruct (inject_Z n <=?q a) eqn:Hn; reflect_bools; cbn; intros Hr Hw; [split; lra |]. split; [| lra].
  assert (Hq : ((inject_Z n - a) / r * r == inject_Z n - a)%Q) by (field; lra).
  assert ((inject_Z n - a) / r * r <= (after - now) * r)%Q by (apply Qmult_le_compat_r; lra).
  lra.
Qed.

Lemma transfers_pay active ts l :
  (0 < rate_now l active)%Q → sleeps_ok active ts l →
  let '(l', sum) := transfers active ts l in
  (0 <= bl_allowance l)%Q →
  (sum + bl_allowance l' <= bl_allowance l + (bl_last l' - bl_last l) * rate_now l active)%Q ∧ (0 <= bl_allowance l')%Q.
Proof.
  revert l; induction ts as [| t ts IH]; intros l Hr Hs; cbn [transfers sleeps_ok] in *; [intros; split; lra |].
  pose proof (throttle_pays (tr_bytes t) active (tr_now t) (tr_after t) l) as Hp.
  pose proof (throttle_rates (tr_bytes t) active (tr_now t) (tr_after t) l) as [Ha Hi].
  destruct (throttle _ _ _ _ l) as [l1 waited]. cbn [fst] in *. cbv zeta in Hp. destruct Hs as [Hw Hs].
  destruct (Hp Hr Hw) as [Hpay Hpos].
  assert (Hrate : rate_now l1 active = rate_now l active) by (unfold rate_now; destruct active; congruence).
  specialize (IH l1). rewrite Hrate in IH. specialize (IH Hr Hs). destruct (transfers active ts l1) as [l2 sum].
  intros _. destruct (IH Hpos) as [IH1 IH2]. split; [| done].
  pose proof (proj2 (qmin_le (rate_now l active) (bl_allowance l + (tr_now t - bl_last l) * rate_now l active))). lra.
Qed.

(** The pacer holds the rate.  Over any run of transfers made while the
    user's activity does not change, starting in any state the pacer may be in,
    the bytes moved are at most the rate in force times the time from the first
    call to the last return, plus one second's burst: an idle gap before the run
    banks nothing more. *)
Theorem pacer_rate_bound active t ts l :
  (0 < rate_now l active)%Q → sleeps_ok active (t :: ts) l →
  let '(l', sum) := transfers active (t :: ts) l in
  (sum <= rate_now l active * (1 + (bl_last l' - tr_now t)))%Q.
Proof.
  intros Hr Hs. cbn [transfers sleeps_ok] in *.
  pose proof (throttle_pays (tr_bytes t) active (tr_now t) (tr_after t) l) as Hp.
  pose proof (throttle_rates (tr_bytes t) active (tr_now t) (tr_after t) l) as [Ha Hi].
  destruct (throttle _ _ _ _ l) as [l1 waited]. cbn [fst] in *. cbv zeta in Hp. destruct Hs as [Hw Hs].
  destruct (Hp Hr Hw) as [Hpay Hpos].
  assert (Hrate : rate_now l1 active = rate_now l active) by (unfold rate_now; destruct active; congruence).
  pose proof (transfers_pay active ts l1) as Ht. rewrite Hrate in Ht. specialize (Ht Hr Hs).
  destruct (transfers active ts l1) as [l2 sum]. destruct (Ht Hpos) as [Ht1 Ht2].
  pose proof (proj1 (qmin_le (rate_now l active) (bl_allowance l + (tr_now t - bl_last l) * rate_now l active))). lra.
Qed.

(** ** The hypotheses at work *)

Section Examples.

(** An injective stand-in for the digest, and one of 32 bytes. *)
Definition toy_sha (d : bytes) : bytes := d.
Definition toy_sha32 (d : bytes) : bytes := take 32 (d ++ replicate 32 "000"%byte).
Definition toy_hmac (k d : bytes) : bytes := k ++ d.

Definition file3 : bytes := ["a"; "b"; "c"]%byte.
Definition man3 : Manifest := {|
  mf_model_id := "m"; mf_total_size := 3; mf_chunk_size := 2; mf_whole_file_sha256 := to_hex file3;
  mf_chunks := ["6162"; "63"]; mf_merkle_root := "0100616200" +:+ "63" |}.
Definition peer3 : Peer := {| available := ["63"; "6162"]; fetch := λ h, inr (default [] (from_hex h)) |}.
Definition empty_mesh (cap : Z) : Mesh := {| store := {| cs_max_bytes := cap; cs_used := 0; cs_chunks := [] |}; fs := ∅ |}.

Lemma empty_mesh_ok cap : (0 ≤ cap)%Z → store_ok toy_sha (store (empty_mesh cap)).
Proof. intros ?. split; cbn; [constructor | done | lia | set_solver]. Qed.

Lemma mesh_store_invariant_witness :
  let m := fold_left (λ m op, mesh_op toy_sha toy_hmac op m)
    [OpPut ["a"%byte]; OpFetch man3 [peer3]; OpGet "63"] {| store := {| cs_max_bytes := 3; cs_used := 0; cs_chunks := [] |}; fs := ∅ |} in
  store_ok toy_sha (store m) ∧ cs_max_bytes (store m) = 3%Z.
Proof. by apply (mesh_store_invariant toy_sha toy_hmac 3). Defined.

Lemma put_spec_witness :
  store_ok toy_sha (store (empty_mesh 3)) ∧
  wp (put toy_sha file3) (λ key m', key = to_hex file3) (λ _ _, False) (empty_mesh 3).
Proof.
  split; [by apply empty_mesh_ok |].
  eapply wp_mono; [| | apply (put_spec toy_sha file3 (empty_mesh 3)); by apply empty_mesh_ok]; cbn.
  - by intros key m' (-> & _).
  - intros e m' (_ & _ & Hbad). by vm_compute in Hbad.
Defined.

Lemma fetch_delta_safe_witness :
  wp (fetch_delta toy_sha man3 (discover [peer3])) (λ fetched m', fetched = ["6162"; "63"])
     (λ e m', filled toy_sha (peer_source (discover [peer3])) ["6162"; "63"] (empty_mesh 3) m') (empty_mesh 3).
Proof.
  eapply wp_mono; [| | apply (fetch_delta_safe toy_sha toy_hmac man3 [peer3] (empty_mesh 3)); by apply empty_mesh_ok]; cbn beta.
  - by intros fetched m' (-> & _).
  - by intros e m' (? & _).
Defined.

Lemma verified_reconstruct_spec_witness :
  wp (verified_reconstruct toy_sha toy_hmac man3 "00" [] "model.bin") (λ _ _, False)
     (λ e m', e = MeshVerificationError) (empty_mesh 3).
Proof.
  eapply wp_mono;
    [| | apply (verified_reconstruct_spec toy_sha toy_hmac man3 "00" [] "model.bin" (empty_mesh 3)); by apply empty_mesh_ok];
    cbn beta.
  - intros _ m' (_ & Hs & _). by vm_compute in Hs.
  - intros e m' (_ & [(_ & _ & Ha) | [(_ & -> & _) | (_ & Hs & _)]]); [by vm_compute in Ha | done | by vm_compute in Hs].
Defined.

Lemma distribution_roundtrip_witness :
  wp (fetch_delta toy_sha man3 (discover [peer3]) ;;
      verified_reconstruct toy_sha toy_hmac man3 (sign_manifest toy_hmac man3 []) [] "model.bin")
     (λ _ m', fs m' !! "model.bin" = Some file3 ∨ collision toy_sha) (λ _ _, collision toy_sha) (empty_mesh 3).
Proof.
  apply (distribution_roundtrip toy_sha toy_hmac file3 "m" 2 man3 [peer3] [] "model.bin" (empty_mesh 3));
    [reflexivity | by apply empty_mesh_ok | | done].
  intros h Hh. cbn in Hh. repeat (apply elem_of_cons in Hh as [-> | Hh]; [by eexists |]). by apply elem_of_nil in Hh.
Defined.

Lemma merkle_root_binds_witness :
  ∃ r r', merkle_root toy_sha32 (to_hex <$> [toy_sha32 []]) = inr r ∧ merkle_root toy_sha32 (to_hex <$> []) = inr r' ∧
    (r = r' → [toy_sha32 []] = [] ∨ collision toy_sha32).
Proof.
  apply (merkle_root_binds toy_sha32).
  - intros d. unfold toy_sha32. rewrite length_take, length_app, length_replicate. lia.
  - by repeat constructor.
  - constructor.
Defined.

Lemma pacer_rate_bound_witness :
  let l := {| bl_active_rate := 10; bl_idle_rate := 100; bl_allowance := 100; bl_last := 0 |} in
  let ts := [{| tr_bytes := 25; tr_now := 50; tr_after := 52 |}] in
  (25 + 0 <= 10 * (1 + (52 - 50)))%Q ∧ sleeps_ok true ts l.
Proof.
  cbv zeta. split; [| by vm_compute].
  apply (pacer_rate_bound true {| tr_bytes := 25; tr_now := 50; tr_after := 52 |} []
    {| bl_active_rate := 10; bl_idle_rate := 100; bl_allowance := 100; bl_last := 0 |}); by vm_compute.
Defined.

(** A cache too small for the model: the fetch reports both chunks fetched, yet
    the second evicted the first, reconstruction raises, and fetching again only
    swaps the two. *)
Lemma fetch_evicts_what_it_fetched :
  let '(m, r) := fetch_delta toy_sha man3 (discover [peer3]) (empty_mesh 2) in
  r = inr ["6162"; "63"] ∧ availability (store m) = ["63"] ∧
  (verified_reconstruct toy_sha toy_hmac man3 (sign_manifest toy_hmac man3 []) [] "model.bin" m).2 = inl (ChunkNotFound "6162") ∧
  let '(m', r') := fetch_delta toy_sha man3 (discover [peer3]) m in
  r' = inr ["6162"] ∧ availability (store m') = ["6162"].
Proof. by vm_compute. Qed.
End Examples.
