(* ===== verification/Relay.v ===== *)
(** * The site relay broker

    Models src/packages/fallow-coordinator/src/fallow_coordinator/site_relay/broker.py:
    the rendezvous between a gateway request and a long-polling agent, and the
    bounded response stream between them.

    A [_Work] object is named by its claim id and stays in [objs] after it
    leaves the registry [works], because exchanges keep referring to it.  The
    code holds the broker lock for part of each method and then awaits the
    stream; each locked section is one function, and what the method still has to
    do afterwards is returned as a list of [Task]s which a scheduler ([World])
    may run at any later time, in any order.  Time is what [time.monotonic]
    returned to that section. *)

From S2P Require Export Protocol ODict Bytes.

Definition MAX_REQUEST_BYTES : Z := 2 * 1024 * 1024.
Definition MAX_RESPONSE_CHUNK_BYTES : Z := 32 * 1024.
Definition MAX_RESPONSE_BUFFER_BYTES : Z := 256 * 1024.
Definition ALLOWED_PATHS : list string := ["/v1/chat/completions"; "/v1/embeddings"].
Definition FAIL_CODES : list string :=
  ["became_active"; "reclaimed"; "connect_failed"; "timeout"; "cancelled"; "upstream_error"].
Definition DEADLINE_EXPIRED : string := "deadline_expired".
Definition TERMINAL_HISTORY : Z := 4096.
Definition LAST_CLAIM_HISTORY : Z := 1024.

Definition nbytes (c : list byte) : Z := Z.of_nat (length c).

Inductive WorkState := Claimed | Responding | Finished | Failed | Invalid.

Inductive TerminalClass := Duplicate | Gone.

Inductive ErrorCode := EDuplicate | EGone | EUnknown | EConflict.

(** [RelayStateError(message, code=code)] and [RelayRequestTooLarge]. *)
Inductive RelayError :=
  | RelayStateError (message : string) (code : option ErrorCode)
  | RelayRequestTooLarge.

#[export] Instance WorkState_eq_dec : EqDecision WorkState.
Proof. solve_decision. Defined.

Definition is_terminal_state (s : WorkState) : bool :=
  match s with Finished | Failed | Invalid => true | _ => false end.

Record ClaimOutcome := { co_outcome : WorkState; co_code : option string }.

Record RelayRequest := {
  rq_method : string; rq_path : string; rq_content_type : string; rq_body : list byte
}.

(** ** The response stream *)

Record Stream := {
  s_max_bytes : Z; s_chunks : list (list byte); s_buffered : Z; s_terminal : option string;
  s_first_byte : bool
}.

Definition new_stream (max_bytes : Z) : Stream := {|
  s_max_bytes := Z.max max_bytes MAX_RESPONSE_CHUNK_BYTES; s_chunks := []; s_buffered := 0;
  s_terminal := None; s_first_byte := false |}.

(** The loop condition of [write]. *)
Definition must_wait (chunk : list byte) (s : Stream) : bool :=
  bool_decide (s_terminal s = None) && negb (bool_decide (s_chunks s = [])) &&
  (s_max_bytes s <? s_buffered s + nbytes chunk)%Z.

Inductive WriteResult :=
  | Blocks
  | PastDeadline
  | Terminated (terminal : string)
  | Appended.

(** One passage of [write] through the condition variable at time [now]. *)
Definition stream_write (chunk : list byte) (deadline now : Q) (s : Stream) : Stream * WriteResult :=
  if must_wait chunk s then (s, if deadline <=?q now then PastDeadline else Blocks)
  else
    match s_terminal s with
    | Some t => (s, Terminated t)
    | None =>
        if deadline <=?q now then (s, PastDeadline)
        else ({| s_max_bytes := s_max_bytes s; s_chunks := s_chunks s ++ [chunk];
                 s_buffered := s_buffered s + nbytes chunk; s_terminal := s_terminal s;
                 s_first_byte := true |}, Appended)
    end.

(** [read]: [None] is waiting; otherwise a chunk or the terminal. *)
Definition stream_read (s : Stream) : option (Stream * (list byte + string)) :=
  match s_chunks s with
  | chunk :: rest =>
      Some ({| s_max_bytes := s_max_bytes s; s_chunks := rest;
               s_buffered := s_buffered s - nbytes chunk; s_terminal := s_terminal s;
               s_first_byte := s_first_byte s |}, inl chunk)
  | [] => (λ t, (s, inr t)) <$> s_terminal s
  end.

Definition stream_close (terminal : string) (s : Stream) : Stream :=
  match s_terminal s with
  | Some _ => s
  | None => {| s_max_bytes := s_max_bytes s; s_chunks := s_chunks s; s_buffered := s_buffered s;
               s_terminal := Some terminal; s_first_byte := s_first_byte s |}
  end.

(** ** Work and the broker *)

Record Work := {
  w_agent_id : agent_id; w_replica_port : Z; w_request : RelayRequest; w_deadline : Q;
  w_generation : Z; w_state : WorkState; w_status : Z; w_content_type : string;
  w_reason : option string; w_started : bool; w_stream : Stream
}.

Inductive Future := Pending_ | Resolved (claim : string) | Cancelled_.

Definition is_done (f : Future) : bool := match f with Pending_ => false | _ => true end.

Record Broker := {
  waiters : gmap agent_id (list (nat * Z));
  works : list string;
  max_buffer : Z;
  generation : gmap agent_id Z;
  terminal_class : odict TerminalClass;
  last_claim : odict ClaimOutcome;
  objs : gmap string Work;
  futures : gmap nat Future
}.

Definition new_broker (max_response_buffer : Z) : Broker := {|
  waiters := ∅; works := []; max_buffer := max_response_buffer; generation := ∅;
  terminal_class := []; last_claim := []; objs := ∅; futures := ∅ |}.

Definition set_waiters x (b : Broker) : Broker := {|
  waiters := x; works := works b; max_buffer := max_buffer b; generation := generation b;
  terminal_class := terminal_class b; last_claim := last_claim b; objs := objs b; futures := futures b |}.
Definition set_generation x (b : Broker) : Broker := {|
  waiters := waiters b; works := works b; max_buffer := max_buffer b; generation := x;
  terminal_class := terminal_class b; last_claim := last_claim b; objs := objs b; futures := futures b |}.
Definition set_objs x (b : Broker) : Broker := {|
  waiters := waiters b; works := works b; max_buffer := max_buffer b; generation := generation b;
  terminal_class := terminal_class b; last_claim := last_claim b; objs := x; futures := futures b |}.
Definition set_futures x (b : Broker) : Broker := {|
  waiters := waiters b; works := works b; max_buffer := max_buffer b; generation := generation b;
  terminal_class := terminal_class b; last_claim := last_claim b; objs := objs b; futures := x |}.

Definition with_stream f (w : Work) : Work := {|
  w_agent_id := w_agent_id w; w_replica_port := w_replica_port w; w_request := w_request w;
  w_deadline := w_deadline w; w_generation := w_generation w; w_state := w_state w;
  w_status := w_status w; w_content_type := w_content_type w; w_reason := w_reason w;
  w_started := w_started w; w_stream := f (w_stream w) |}.

(** What a method still awaits after releasing the lock. *)
Inductive Task :=
  | TClose (claim : string) (terminal : string)
  | TWrite (claim : string) (chunk : list byte) (deadline : Q)
  | TDeadline (claim : string).

(** The new broker, the awaits that follow, and the exception the method ends
    with ([None] if it returns). *)
Definition Outcome_ : Type := Broker * list Task * option RelayError.

Definition reject (b : Broker) (e : RelayError) : Outcome_ := (b, [], Some e).

(** [while len(d) > cap: d.popitem(last=False)] *)
Fixpoint trim {A} (cap : Z) (d : odict A) : odict A :=
  match d with
  | _ :: rest => if (cap <? Z.of_nat (length d))%Z then trim cap rest else d
  | [] => []
  end.

(** [d[k] = v; d.move_to_end(k)], then the loop *)
Definition remember {A} (cap : Z) (k : string) (v : A) (d : odict A) : odict A :=
  trim cap (od_move_to_end k (od_set k v d)).

Definition class_of (state : WorkState) : TerminalClass :=
  match state with Finished => Duplicate | _ => Gone end.

Definition ended (state : WorkState) (reason : option string) (w : Work) : Work := {|
  w_agent_id := w_agent_id w; w_replica_port := w_replica_port w; w_request := w_request w;
  w_deadline := w_deadline w; w_generation := w_generation w; w_state := state;
  w_status := w_status w; w_content_type := w_content_type w; w_reason := reason;
  w_started := true; w_stream := w_stream w |}.

(** [_terminate]: [true] when it returned the stream to close. *)
Definition terminate (claim : string) (state : WorkState) (reason : option string) (b : Broker)
    : Broker * bool :=
  match objs b !! claim with
  | None => (b, false)
  | Some w =>
      if is_terminal_state (w_state w) then (b, false)
      else
        ({| waiters := waiters b; works := filter (λ c, c ≠ claim) (works b); max_buffer := max_buffer b;
            generation := generation b;
            terminal_class := remember TERMINAL_HISTORY claim (class_of state) (terminal_class b);
            last_claim := remember LAST_CLAIM_HISTORY (w_agent_id w)
              {| co_outcome := state; co_code := reason |} (last_claim b);
            objs := <[claim := ended state reason w]> (objs b); futures := futures b |}, true)
  end.

Definition close_task (closing : bool) (claim terminal : string) : list Task :=
  if closing then [TClose claim terminal] else [].

(** [slots] after the loop that drops finished futures from its head. *)
Fixpoint drop_done (futs : gmap nat Future) (slots : list (nat * Z)) : list (nat * Z) :=
  match slots with
  | (f, g) :: rest => if is_done (default Cancelled_ (futs !! f)) then drop_done futs rest else slots
  | [] => []
  end.

(** [claim_id] is the uuid drawn for the new work.  [slots] is the list object
    stored in the dictionary, so dropping from it is visible there. *)
Definition offer (agent : agent_id) (port : Z) (request : RelayRequest) (deadline : Q) (claim_id : string)
    (b : Broker) : Outcome_ :=
  if (MAX_REQUEST_BYTES <? nbytes (rq_body request))%Z then reject b RelayRequestTooLarge
  else if negb (bool_decide (rq_method request = "POST")) ||
          negb (bool_decide (rq_path request ∈ ALLOWED_PATHS)) ||
          negb (bool_decide (rq_content_type request = "application/json"))
  then reject b (RelayStateError "invalid request" None)
  else
    let b := set_waiters (alter (drop_done (futures b)) agent (waiters b)) b in
    match default [] (waiters b !! agent) with
    | [] => reject b (RelayStateError "no claimant" None)
    | (fut, gen) :: slots =>
        let b := set_waiters (<[agent := slots]> (waiters b)) b in
        if (gen <? default gen (generation b !! agent))%Z then
          reject (set_futures (<[fut := Cancelled_]> (futures b)) b) (RelayStateError "stale claimant" None)
        else
          let work := {|
            w_agent_id := agent; w_replica_port := port; w_request := request; w_deadline := deadline;
            w_generation := gen; w_state := Claimed; w_status := 200; w_content_type := "application/json";
            w_reason := None; w_started := false; w_stream := new_stream (max_buffer b) |} in
          ({| waiters := waiters b; works := works b ++ [claim_id]; max_buffer := max_buffer b;
              generation := generation b; terminal_class := terminal_class b; last_claim := last_claim b;
              objs := <[claim_id := work]> (objs b);
              futures := <[fut := Resolved claim_id]> (futures b) |}, [], None)
    end.

(** [claim] up to its [wait_for]; [fut] is the future it created. *)
Definition claim (agent : agent_id) (presence_generation : Z) (fut : nat) (b : Broker) : Outcome_ :=
  let fence := default 0%Z (generation b !! agent) in
  if (presence_generation <? fence)%Z then reject b (RelayStateError "stale generation" None)
  else
    ({| waiters := <[agent := default [] (waiters b !! agent) ++ [(fut, presence_generation)]]> (waiters b);
        works := works b; max_buffer := max_buffer b;
        generation := <[agent := Z.max fence presence_generation]> (generation b);
        terminal_class := terminal_class b; last_claim := last_claim b; objs := objs b;
        futures := <[fut := Pending_]> (futures b) |}, [], None).

(** [wait_for] gives up: it cancels a future that is still pending. *)
Definition wait_timeout (fut : nat) (b : Broker) : Broker :=
  match futures b !! fut with
  | Some Pending_ => set_futures (<[fut := Cancelled_]> (futures b)) b
  | _ => b
  end.

Definition abandon_waiter (agent : agent_id) (fut : nat) (b : Broker) : Outcome_ :=
  let b := set_waiters (<[agent := filter (λ p, p.1 ≠ fut) (default [] (waiters b !! agent))]> (waiters b)) b in
  match futures b !! fut with
  | Some (Resolved c) =>
      let '(b, closing) := terminate c Failed (Some "cancelled") b in
      (b, close_task closing c "cancelled", None)
  | Some Pending_ => (set_futures (<[fut := Cancelled_]> (futures b)) b, [], None)
  | _ => (b, [], None)
  end.

(** [_check] *)
Definition check (agent : agent_id) (claim : string) (gen : Z) (b : Broker) : RelayError + Work :=
  if bool_decide (claim ∈ works b) then
    match objs b !! claim with
    | None => inl (RelayStateError "unknown claim" (Some EUnknown))
    | Some w =>
        if negb (bool_decide (w_agent_id w = agent)) then inl (RelayStateError "wrong owner" (Some EConflict))
        else if negb (w_generation w =? gen)%Z then inl (RelayStateError "stale generation" (Some EUnknown))
        else inr w
    end
  else
    match od_get claim (terminal_class b) with
    | Some Duplicate => inl (RelayStateError "claim already completed" (Some EDuplicate))
    | Some Gone => inl (RelayStateError "claim gone" (Some EGone))
    | None => inl (RelayStateError "unknown claim" (Some EUnknown))
    end.

Definition expired_error : RelayError := RelayStateError "deadline expired" (Some EGone).

(** The shape the four upload methods share: [_check], [_expire_if_late] and, in
    time, [body].  The late path closes the stream and raises ([_expired]); it
    returns normally when the work was terminal already and there is nothing
    to close. *)
Definition upload (agent : agent_id) (claim : string) (gen : Z) (now : Q)
    (body : Work → Broker → Outcome_) (b : Broker) : Outcome_ :=
  match check agent claim gen b with
  | inl e => reject b e
  | inr w =>
      if w_deadline w <=?q now then
        match terminate claim Failed (Some DEADLINE_EXPIRED) b with
        | (b', true) => (b', [TClose claim DEADLINE_EXPIRED], Some expired_error)
        | (b', false) => body w b'
        end
      else body w b
  end.

Definition responding (status : Z) (content_type : string) (w : Work) : Work := {|
  w_agent_id := w_agent_id w; w_replica_port := w_replica_port w; w_request := w_request w;
  w_deadline := w_deadline w; w_generation := w_generation w; w_state := Responding;
  w_status := status; w_content_type := content_type; w_reason := w_reason w;
  w_started := true; w_stream := w_stream w |}.

Definition start_response (agent : agent_id) (claim : string) (gen : Z) (status : Z) (content_type : string)
    (now : Q) : Broker → Outcome_ :=
  upload agent claim gen now (λ w b,
    if negb (bool_decide (w_state w = Claimed)) then reject b (RelayStateError "response already started" None)
    else (set_objs (<[claim := responding status content_type w]> (objs b)) b, [], None)).

Definition write (agent : agent_id) (claim : string) (gen : Z) (chunk : list byte) (now : Q) (b : Broker)
    : Outcome_ :=
  if (MAX_RESPONSE_CHUNK_BYTES <? nbytes chunk)%Z then reject b (RelayStateError "chunk too large" None)
  else
    upload agent claim gen now (λ w b,
      if negb (bool_decide (w_state w = Responding)) then reject b (RelayStateError "response not started" None)
      else (b, if bool_decide (chunk = []) then [] else [TWrite claim chunk (w_deadline w)], None)) b.

Definition finish (agent : agent_id) (claim : string) (gen : Z) (now : Q) : Broker → Outcome_ :=
  upload agent claim gen now (λ w b,
    if negb (bool_decide (w_state w = Responding)) then reject b (RelayStateError "response not started" None)
    else
      let '(b, closing) := terminate claim Finished None b in
      (b, close_task closing claim "eof", None)).

Definition fail (agent : agent_id) (claim : string) (gen : Z) (code : string) (now : Q) (b : Broker) : Outcome_ :=
  if negb (bool_decide (code ∈ FAIL_CODES)) then reject b (RelayStateError "invalid failure" None)
  else
    upload agent claim gen now (λ w b,
      let '(b, closing) := terminate claim Failed (Some code) b in
      (b, close_task closing claim code, None)) b.

Definition deadline_terminate (claim : string) (b : Broker) : Broker * list Task :=
  if bool_decide (claim ∈ works b) then
    let '(b, closing) := terminate claim Failed (Some DEADLINE_EXPIRED) b in
    (b, close_task closing claim DEADLINE_EXPIRED)
  else (b, []).

Definition has_pending (agent : agent_id) (b : Broker) : bool :=
  existsb (λ c, match objs b !! c with Some w => bool_decide (w_agent_id w = agent) | None => false end) (works b) ||
  existsb (λ p, negb (is_done (default Cancelled_ (futures b !! p.1)))) (default [] (waiters b !! agent)).

Definition last_claim_of (agent : agent_id) (b : Broker) : option ClaimOutcome := od_get agent (last_claim b).

(** One iteration of the loop over the works of [invalidate_agent]. *)
Definition invalidate_one (agent : agent_id) (newer : Z) (reason : string) (st : Broker * list Task) (c : string)
    : Broker * list Task :=
  let '(b, tasks) := st in
  match objs b !! c with
  | Some w =>
      if bool_decide (w_agent_id w = agent) && (w_generation w <? newer)%Z then
        let '(b, closing) := terminate c Invalid (Some reason) b in
        (b, tasks ++ close_task closing c reason)
      else (b, tasks)
  | None => (b, tasks)
  end.

Definition cancel_stale (newer : Z) (futs : gmap nat Future) (p : nat * Z) : gmap nat Future :=
  if (p.2 <? newer)%Z && negb (is_done (default Cancelled_ (futs !! p.1))) then <[p.1 := Cancelled_]> futs else futs.

Definition invalidate_agent (agent : agent_id) (newer : Z) (reason : string) (b : Broker) : Broker * list Task :=
  let b := set_generation (<[agent := Z.max (default 0%Z (generation b !! agent)) newer]> (generation b)) b in
  let '(b, tasks) := fold_left (invalidate_one agent newer reason) (works b) (b, []) in
  let slots := default [] (waiters b !! agent) in
  let kept := filter (λ p, (newer ≤ p.2)%Z) slots in
  (set_futures (fold_left (cancel_stale newer) slots (futures b))
    (set_waiters (if bool_decide (kept = []) then delete agent (waiters b) else <[agent := kept]> (waiters b)) b),
   tasks).

Definition disconnect (claim : string) (b : Broker) : Broker * list Task :=
  let '(b, closing) := terminate claim Invalid (Some "client_disconnect") b in
  (b, close_task closing claim "client_disconnect").

(** ** The exchange, on the gateway's side *)

Inductive ResponseWait :=
  | NotStarted
  | RaisesBeforeByte (reason : string)
  | Response (status : Z) (content_type : string).

(** [wait_response] *)
Definition wait_response (w : Work) : ResponseWait :=
  if negb (w_started w) then NotStarted
  else if (bool_decide (w_state w = Failed) || bool_decide (w_state w = Invalid)) &&
          negb (s_first_byte (w_stream w))
  then RaisesBeforeByte (match w_reason w with Some r => if bool_decide (r = "") then "relay failure" else r | None => "relay failure" end)
  else Response (w_status w) (w_content_type w).

Inductive NextChunk :=
  | Chunk (data : list byte)
  | StopAsyncIteration
  | StreamFails (reason : string).

(** [__anext__]: [None] is waiting. *)
Definition next_chunk (claim : string) (b : Broker) : option (Broker * NextChunk) :=
  w ← objs b !! claim;
  '(s, r) ← stream_read (w_stream w);
  Some (set_objs (<[claim := with_stream (λ _, s) w]> (objs b)) b,
        match r with
        | inl c => Chunk c
        | inr t => if bool_decide (t = "eof") then StopAsyncIteration
                   else StreamFails (if bool_decide (t = "") then "relay failure" else t)
        end).

(** ** Interleavings *)

Record World := { w_broker : Broker; w_tasks : list Task }.

(** Running one task at time [now]: [None] while it blocks. *)
Definition run_task (t : Task) (now : Q) (b : Broker) : option (Broker * list Task) :=
  match t with
  | TClose c terminal => Some (set_objs (alter (with_stream (stream_close terminal)) c (objs b)) b, [])
  | TDeadline c => Some (deadline_terminate c b)
  | TWrite c chunk deadline =>
      w ← objs b !! c;
      let '(s, r) := stream_write chunk deadline now (w_stream w) in
      let b' := set_objs (<[c := with_stream (λ _, s) w]> (objs b)) b in
      match r with
      | Blocks => None
      | PastDeadline => Some (b', [TDeadline c])
      | Terminated _ | Appended => Some (b', [])
      end
  end.

Inductive Call :=
  | Offer (agent : agent_id) (port : Z) (request : RelayRequest) (deadline : Q) (claim_id : string)
  | ClaimCall (agent : agent_id) (gen : Z) (fut : nat)
  | GiveUp (fut : nat)
  | Abandon (agent : agent_id) (fut : nat)
  | StartResponse (agent : agent_id) (claim : string) (gen status : Z) (content_type : string)
  | Write (agent : agent_id) (claim : string) (gen : Z) (chunk : list byte)
  | Finish (agent : agent_id) (claim : string) (gen : Z)
  | Fail_ (agent : agent_id) (claim : string) (gen : Z) (code : string)
  | Invalidate (agent : agent_id) (newer : Z) (reason : string)
  | Disconnect (claim : string)
  | Next (claim : string).

Definition run_call (c : Call) (now : Q) (b : Broker) : Outcome_ :=
  match c with
  | Offer a p r d id => offer a p r d id b
  | ClaimCall a g f => claim a g f b
  | GiveUp f => (wait_timeout f b, [], None)
  | Abandon a f => abandon_waiter a f b
  | StartResponse a c g s t => start_response a c g s t now b
  | Write a c g chunk => write a c g chunk now b
  | Finish a c g => finish a c g now b
  | Fail_ a c g code => fail a c g code now b
  | Invalidate a n r => (invalidate_agent a n r b, None)
  | Disconnect c => (disconnect c b, None)
  | Next c => match next_chunk c b with Some (b', _) => (b', [], None) | None => (b, [], None) end
  end.

(** Uuids and futures are fresh. *)
Definition fresh (c : Call) (b : Broker) : Prop :=
  match c with
  | Offer _ _ _ _ id => objs b !! id = None
  | ClaimCall _ _ f => futures b !! f = None
  | _ => True
  end.

Inductive step : World → World → Prop :=
  | step_call c now w b' tasks r :
      fresh c (w_broker w) → run_call c now (w_broker w) = (b', tasks, r) →
      step w {| w_broker := b'; w_tasks := w_tasks w ++ tasks |}
  | step_task t now w before after b' tasks :
      w_tasks w = before ++ t :: after → run_task t now (w_broker w) = Some (b', tasks) →
      step w {| w_broker := b'; w_tasks := before ++ after ++ tasks |}.

Definition start (max_response_buffer : Z) : World := {| w_broker := new_broker max_response_buffer; w_tasks := [] |}.

Definition reachable (max_response_buffer : Z) : World → Prop := rtc step (start max_response_buffer).
