(* ===== verification/RelaySpec.v ===== *)
(** * What the site relay guarantees

    The broker's invariant over every interleaving of locked sections and
    pending awaits, the life of a claim, the generation fence, the authorisation
    of uploads and the integrity of the response stream. *)

From S2P Require Export Relay.

(** ** The stream *)

Fixpoint bytes_in (l : list (list byte)) : Z :=
  match l with [] => 0 | c :: l => (nbytes c + bytes_in l)%Z end.

Lemma bytes_in_app l l' : bytes_in (l ++ l') = (bytes_in l + bytes_in l')%Z.
Proof. induction l as [| c l IH]; cbn; [done |]. rewrite IH. lia. Qed.

Definition chunk_ok (c : list byte) : Prop := (0 < nbytes c ≤ MAX_RESPONSE_CHUNK_BYTES)%Z.

Record stream_ok (s : Stream) : Prop := {
  st_count : s_buffered s = bytes_in (s_chunks s);
  st_room : (MAX_RESPONSE_CHUNK_BYTES ≤ s_max_bytes s)%Z;
  st_cap : (s_buffered s ≤ s_max_bytes s)%Z;
  st_chunk c : c ∈ s_chunks s → chunk_ok c;
  st_first : s_chunks s ≠ [] → s_first_byte s = true
}.

Lemma new_stream_ok mb : stream_ok (new_stream mb).
Proof. split; cbn; [done | lia | unfold MAX_RESPONSE_CHUNK_BYTES; lia | set_solver | done]. Qed.

Lemma stream_write_ok chunk deadline now s :
  stream_ok s → chunk_ok chunk → stream_ok (stream_write chunk deadline now s).1.
Proof.
  intros [H1 H2 H3 H4 H5] Hc. unfold stream_write. destruct (must_wait chunk s) eqn:Hw; [done |].
  destruct (s_terminal s) eqn:Ht; [done |]. destruct (deadline <=?q now); [done |]. split; cbn; try done.
  - rewrite bytes_in_app. cbn. lia.
  - unfold must_wait in Hw. rewrite Ht in Hw. destruct (s_chunks s) as [| c0 l] eqn:Hl.
    + cbn in H1. destruct Hc. lia.
    + cbn in Hw. reflect_bools. lia.
  - intros c [? | ->%list_elem_of_singleton]%elem_of_app; [by apply H4 | done].
Qed.

Lemma stream_read_ok s s' r : stream_ok s → stream_read s = Some (s', r) → stream_ok s'.
Proof.
  intros Hok Hr. unfold stream_read in Hr. destruct (s_chunks s) as [| c l] eqn:Hl.
  - by destruct (s_terminal s); simplify_eq/=.
  - destruct Hok as [H1 H2 H3 H4 H5]. rewrite Hl in *. simplify_eq. cbn in H1. split; cbn; [lia | done | | | intros _; by apply H5].
    + destruct (H4 c); [set_solver |]. unfold nbytes in *. lia.
    + intros c' ?. apply H4. set_solver.
Qed.

Lemma stream_close_ok t s : stream_ok s → stream_ok (stream_close t s).
Proof. intros []. unfold stream_close. destruct (s_terminal s); split; done. Qed.

(** *** A stream's history *)

Inductive StreamOp :=
  | SWrite (chunk : list byte) (deadline now : Q)
  | SRead
  | SClose (terminal : string).

(** What the history produced: the chunks accepted, the chunks delivered and the
    terminals reported, in order. *)
Record Seen := { accepted : list (list byte); delivered : list (list byte); terminals : list string }.

Definition stream_op (st : Stream * Seen) (op : StreamOp) : Stream * Seen :=
  let '(s, seen) := st in
  match op with
  | SWrite chunk deadline now =>
      let '(s', r) := stream_write chunk deadline now s in
      (s', match r with
           | Appended => {| accepted := accepted seen ++ [chunk]; delivered := delivered seen; terminals := terminals seen |}
           | _ => seen
           end)
  | SRead =>
      match stream_read s with
      | Some (s', inl c) => (s', {| accepted := accepted seen; delivered := delivered seen ++ [c]; terminals := terminals seen |})
      | Some (s', inr t) => (s', {| accepted := accepted seen; delivered := delivered seen; terminals := terminals seen ++ [t] |})
      | None => (s, seen)
      end
  | SClose t => (stream_close t s, seen)
  end.

Definition stream_run (ops : list StreamOp) (mb : Z) : Stream * Seen :=
  fold_left stream_op ops (new_stream mb, {| accepted := []; delivered := []; terminals := [] |}).

Definition closes (ops : list StreamOp) : list string :=
  omap (λ op, match op with SClose t => Some t | _ => None end) ops.

(** Nothing is lost, repeated or reordered, and the end is reported last. *)
Record history_ok (ops : list StreamOp) (s : Stream) (seen : Seen) : Prop := {
  hi_data : accepted seen = delivered seen ++ s_chunks s;
  hi_terminal : s_terminal s = head (closes ops);
  hi_first : s_first_byte s = negb (bool_decide (accepted seen = []));
  hi_end t : t ∈ terminals seen → s_terminal s = Some t ∧ s_chunks s = []
}.

Lemma closes_snoc ops op : closes (ops ++ [op]) = closes ops ++ closes [op].
Proof. apply omap_app. Qed.

Lemma history_ok_closes ops op s seen :
  closes [op] = [] → history_ok ops s seen → history_ok (ops ++ [op]) s seen.
Proof. intros Hc [H1 H2 H3 H4]. split; try done. by rewrite closes_snoc, Hc, app_nil_r. Qed.

Lemma stream_op_ok ops op s seen :
  history_ok ops s seen → history_ok (ops ++ [op]) (stream_op (s, seen) op).1 (stream_op (s, seen) op).2.
Proof.
  intros Hok. destruct op as [chunk deadline now | | t]; cbn [stream_op].
  - unfold stream_write.
    destruct (must_wait chunk s); [destruct (deadline <=?q now); by apply history_ok_closes |].
    destruct (s_terminal s) as [t |] eqn:Ht; [by apply history_ok_closes |].
    destruct (deadline <=?q now); [by apply history_ok_closes |].
    destruct Hok as [H1 H2 H3 H4]. split; cbn; rewrite ?closes_snoc, ?app_nil_r; try done.
    + by rewrite H1, app_assoc.
    + by rewrite <- H2.
    + by destruct (accepted seen).
    + intros t Hin. destruct (H4 t Hin) as [? _]. congruence.
  - unfold stream_read. destruct (s_chunks s) as [| c l] eqn:Hl.
    + destruct (s_terminal s) as [t |] eqn:Ht; cbn; [| by apply history_ok_closes].
      destruct Hok as [H1 H2 H3 H4]. split; cbn; rewrite ?closes_snoc, ?app_nil_r; try done.
      intros t' [Hin | ->%list_elem_of_singleton]%elem_of_app; [by apply H4 | done].
    + destruct Hok as [H1 H2 H3 H4]. split; cbn; rewrite ?closes_snoc, ?app_nil_r; try done.
      * by rewrite H1, Hl, <- app_assoc.
      * intros t Hin. destruct (H4 t Hin) as [_ Hn]. congruence.
  - destruct Hok as [H1 H2 H3 H4]. unfold stream_close. destruct (s_terminal s) as [t' |] eqn:Ht.
    + split; cbn; rewrite ?closes_snoc, ?Ht; try done. by destruct (closes ops).
    + split; cbn; rewrite ?closes_snoc; try done; [by destruct (closes ops) |].
      intros t' Hin. destruct (H4 t' Hin). congruence.
Qed.

Lemma stream_run_ok ops mb : history_ok ops (stream_run ops mb).1 (stream_run ops mb).2.
Proof.
  induction ops as [| op ops IH] using rev_ind; [by split; cbn; try done; set_solver |].
  unfold stream_run in *. rewrite fold_left_app. cbn [fold_left].
  destruct (fold_left stream_op ops _) as [s seen]. by apply stream_op_ok.
Qed.

(** C35: the response stream is a contiguous prefix.  After any sequence of
    writes (whatever their deadlines), reads and closes: what the client has
    received followed by what is buffered is exactly what producers were told was
    accepted, in order; the end is reported only once everything accepted has
    been received, and it is the reason of the first close; no write is
    accepted after a close; and [first_byte] says whether anything ever was. *)
Theorem stream_contiguous ops mb :
  let s := (stream_run ops mb).1 in
  let seen := (stream_run ops mb).2 in
  accepted seen = delivered seen ++ s_chunks s ∧
  (∀ t, t ∈ terminals seen → head (closes ops) = Some t ∧ delivered seen = accepted seen) ∧
  (s_first_byte s = true ↔ accepted seen ≠ []) ∧
  (closes ops ≠ [] → ∀ chunk deadline now, (stream_write chunk deadline now s).2 ≠ Appended).
Proof.
  intros s seen. destruct (stream_run_ok ops mb) as [H1 H2 H3 H4]. fold s seen in H1, H2, H3, H4. split_and!.
  - done.
  - intros t Hin. destruct (H4 t Hin) as [Ht Hn]. split; [congruence |]. by rewrite H1, Hn, app_nil_r.
  - rewrite H3. destruct (accepted seen); cbn; split; congruence.
  - intros Hc chunk deadline now. destruct (closes ops) as [| t l]; [done |]. unfold stream_write, must_wait.
    rewrite H2. cbn. done.
Qed.

(** ** Bounded histories *)

Section Remember.
  Context {A : Type}.
  Implicit Types (d : odict A).

Lemma trim_suffix cap d : ∃ gone, d = gone ++ trim cap d.
Proof.
  induction d as [| p d [gone IH]]; [by exists [] |]. cbn [trim]. destruct (cap <? _)%Z; [| by exists []].
  exists (p :: gone). cbn. by rewrite <- IH.
Qed.

Lemma trim_length cap d : (0 ≤ cap)%Z → (Z.of_nat (length (trim cap d)) ≤ cap)%Z.
Proof. intros Hc. induction d as [| p d IH]; [done |]. cbn [trim]. destruct (Z.ltb_spec cap (Z.of_nat (length (p :: d)))); done. Qed.

(** The newest entry survives the trim. *)
Lemma trim_last cap d p : (1 ≤ cap)%Z → p ∈ trim cap (d ++ [p]).
Proof.
  intros Hc. induction d as [| q d IH]; cbn [trim app].
  - destruct (Z.ltb_spec cap (Z.of_nat (length [p]))); [cbn in *; lia | set_solver].
  - destruct (cap <? _)%Z; [done | set_solver].
Qed.

Lemma od_wf_suffix gone d : od_wf (gone ++ d) → od_wf d.
Proof. unfold od_wf. rewrite fmap_app. by intros (_ & _ & ?)%NoDup_app. Qed.

Lemma remember_wf cap k v d : od_wf d → od_wf (remember cap k v d).
Proof.
  intros Hd. unfold remember. set (d1 := od_move_to_end k (od_set k v d)).
  destruct (trim_suffix cap d1) as [gone Hg]. apply (od_wf_suffix gone). rewrite <- Hg.
  by apply od_move_wf, od_set_wf.
Qed.

Lemma remember_get cap k v d k' x :
  od_wf d → od_get k' (remember cap k v d) = Some x → k' = k ∧ x = v ∨ k' ≠ k ∧ od_get k' d = Some x.
Proof.
  intros Hd Hx. unfold remember in Hx. set (d1 := od_move_to_end k (od_set k v d)) in *.
  destruct (trim_suffix cap d1) as [gone Hg].
  assert (Hwf : od_wf d1) by (by apply od_move_wf, od_set_wf).
  apply od_get_elem in Hx. assert (Hin : (k', x) ∈ d1) by (rewrite Hg; set_solver).
  apply elem_of_od_get in Hin; [| done]. unfold d1 in Hin. rewrite od_get_move, od_get_set in Hin.
  destruct (bool_decide (k' = k)) eqn:Hk; reflect_bools; [left | right]; by simplify_eq.
Qed.

Lemma remember_new cap k v d : (1 ≤ cap)%Z → od_wf d → od_get k (remember cap k v d) = Some v.
Proof.
  intros Hc Hd. apply elem_of_od_get; [by apply remember_wf |]. unfold remember, od_move_to_end.
  rewrite od_get_set_eq. by apply trim_last.
Qed.

Lemma remember_length cap k v d : (0 ≤ cap)%Z → (Z.of_nat (length (remember cap k v d)) ≤ cap)%Z.
Proof. apply trim_length. Qed.
End Remember.

(** ** The broker's invariant *)

(** The bytes a stream of this broker may buffer. *)
Definition stream_cap (b : Broker) : Z := Z.max (max_buffer b) MAX_RESPONSE_CHUNK_BYTES.

Record work_ok (cap : Z) (w : Work) : Prop := {
  wk_stream : stream_ok (w_stream w);
  wk_cap : s_max_bytes (w_stream w) = cap;
  wk_closed : s_terminal (w_stream w) ≠ None → is_terminal_state (w_state w) = true;
  wk_started : w_started w = negb (bool_decide (w_state w = Claimed));
  wk_silent : w_state w = Claimed → s_first_byte (w_stream w) = false
}.

Record broker_ok (b : Broker) : Prop := {
  bo_works c : c ∈ works b ↔ ∃ w, objs b !! c = Some w ∧ is_terminal_state (w_state w) = false;
  bo_nodup : NoDup (works b);
  bo_objs c w : objs b !! c = Some w → work_ok (stream_cap b) w;
  bo_class_wf : od_wf (terminal_class b);
  bo_class_len : (Z.of_nat (length (terminal_class b)) ≤ TERMINAL_HISTORY)%Z;
  bo_class c k : od_get c (terminal_class b) = Some k →
    ∃ w, objs b !! c = Some w ∧ is_terminal_state (w_state w) = true ∧ k = class_of (w_state w);
  bo_last_wf : od_wf (last_claim b);
  bo_last_len : (Z.of_nat (length (last_claim b)) ≤ LAST_CLAIM_HISTORY)%Z;
  bo_last a o : od_get a (last_claim b) = Some o →
    ∃ c w, objs b !! c = Some w ∧ w_agent_id w = a ∧ is_terminal_state (w_state w) = true ∧
           o = {| co_outcome := w_state w; co_code := w_reason w |};
  bo_waiters a slots f g : waiters b !! a = Some slots → (f, g) ∈ slots →
    (∃ fence, generation b !! a = Some fence ∧ (g ≤ fence)%Z) ∧ is_Some (futures b !! f);
  bo_gen c w : objs b !! c = Some w → ∃ fence, generation b !! w_agent_id w = Some fence ∧ (w_generation w ≤ fence)%Z;
  bo_resolved f c : futures b !! f = Some (Resolved c) → is_Some (objs b !! c)
}.

Definition task_ok (b : Broker) (t : Task) : Prop :=
  match t with
  | TClose c _ => ∃ w, objs b !! c = Some w ∧ is_terminal_state (w_state w) = true
  | TWrite c chunk _ => chunk_ok chunk ∧ ∃ w, objs b !! c = Some w ∧ w_state w ≠ Claimed
  | TDeadline c => is_Some (objs b !! c)
  end.

(** ** How a work object may change *)

Definition rank (s : WorkState) : Z :=
  match s with Claimed => 0 | Responding => 1 | _ => 2 end.

Record evolves (w w' : Work) : Prop := {
  ev_agent : w_agent_id w' = w_agent_id w;
  ev_gen : w_generation w' = w_generation w;
  ev_deadline : w_deadline w' = w_deadline w;
  ev_forward : (rank (w_state w) ≤ rank (w_state w'))%Z;
  ev_final : is_terminal_state (w_state w) = true → w_state w' = w_state w ∧ w_reason w' = w_reason w
}.

#[export] Instance evolves_preorder : PreOrder evolves.
Proof.
  split; [by intros w; split | intros w1 w2 w3 [A1 A2 A3 A4 A5] [B1 B2 B3 B4 B5]].
  split; try congruence; [lia |]. intros Ht. destruct (A5 Ht) as [Hs Hr]. rewrite <- Hs in Ht.
  destruct (B5 Ht). split; congruence.
Qed.

Record bevolves (b b' : Broker) : Prop := {
  be_objs c w : objs b !! c = Some w → ∃ w', objs b' !! c = Some w' ∧ evolves w w';
  be_fence a g : generation b !! a = Some g → ∃ g', generation b' !! a = Some g' ∧ (g ≤ g')%Z;
  be_new c w' g : objs b !! c = None → objs b' !! c = Some w' →
    generation b !! w_agent_id w' = Some g → (g ≤ w_generation w')%Z;
  be_max : max_buffer b' = max_buffer b
}.

#[export] Instance bevolves_preorder : PreOrder bevolves.
Proof.
  split.
  - intros b; split; [intros c w Hw; by exists w | intros a g Hg; exists g; split; [done | lia] | congruence | done].
  - intros b1 b2 b3 [A1 A2 A3 A4] [B1 B2 B3 B4]. split; [| | | congruence].
    + intros c w Hw. destruct (A1 c w Hw) as (w2 & Hw2 & He). destruct (B1 c w2 Hw2) as (w3 & Hw3 & He').
      exists w3. split; [done |]. by etransitivity.
    + intros a g Hg. destruct (A2 a g Hg) as (g2 & Hg2 & ?). destruct (B2 a g2 Hg2) as (g3 & Hg3 & ?).
      exists g3. split; [done | lia].
    + intros c w g Hn Hw Hg. destruct (A2 _ g Hg) as (g2 & Hg2 & ?). destruct (objs b2 !! c) as [w2 |] eqn:Hw2.
      * destruct (B1 c w2 Hw2) as (w' & Hw' & E). simplify_eq. rewrite (ev_gen _ _ E).
        apply (A3 c w2); [done | done |]. by rewrite <- (ev_agent _ _ E).
      * pose proof (B3 c w g2 Hw2 Hw Hg2). lia.
Qed.

Lemma rank_terminal s : is_terminal_state s = true ↔ rank s = 2%Z.
Proof. by destruct s. Qed.

Lemma task_ok_evolves b b' t : bevolves b b' → task_ok b t → task_ok b' t.
Proof.
  intros [Hev _ _ _]. destruct t as [c tm | c chunk d | c]; cbn.
  - intros (w & Hw & Ht). destruct (Hev c w Hw) as (w' & Hw' & E). exists w'. split; [done |].
    by rewrite (proj1 (ev_final _ _ E Ht)).
  - intros (Hc & w & Hw & Hs). split; [done |]. destruct (Hev c w Hw) as (w' & Hw' & E). exists w'. split; [done |].
    pose proof (ev_forward _ _ E). intros Heq. rewrite Heq in *. by destruct (w_state w).
  - intros [w Hw]. destruct (Hev c w Hw) as (w' & ? & _). by exists w'.
Qed.

(** *** One-field updates *)

Lemma obj_update_ok b c w w' :
  broker_ok b → objs b !! c = Some w → work_ok (stream_cap b) w' → evolves w w' →
  is_terminal_state (w_state w') = is_terminal_state (w_state w) →
  broker_ok (set_objs (<[c := w']> (objs b)) b) ∧ bevolves b (set_objs (<[c := w']> (objs b)) b).
Proof.
  intros Hok Hw Hwk He Hterm.
  assert (Hget : ∀ c1 w1, objs b !! c1 = Some w1 → ∃ w2, <[c := w']> (objs b) !! c1 = Some w2 ∧ evolves w1 w2 ∧
            is_terminal_state (w_state w2) = is_terminal_state (w_state w1)).
  { intros c1 w1 Hw1. destruct (decide (c = c1)) as [<- |]; [rewrite lookup_insert_eq | rewrite lookup_insert_ne by done].
    - simplify_eq. by exists w'.
    - by exists w1. }
  assert (Hback : ∀ c1 w2, <[c := w']> (objs b) !! c1 = Some w2 → ∃ w1, objs b !! c1 = Some w1 ∧ evolves w1 w2 ∧
            is_terminal_state (w_state w2) = is_terminal_state (w_state w1) ∧
            (work_ok (stream_cap b) w1 → work_ok (stream_cap b) w2)).
  { intros c1 w2. destruct (decide (c = c1)) as [<- |]; [rewrite lookup_insert_eq | rewrite lookup_insert_ne by done].
    - intros [= <-]. by exists w.
    - intros Hw2. by exists w2. }
  destruct Hok as [B1 B2 B3 B4 B5 B6 B7 B8 B9 B10 B11 B12]. split.
  - split; cbn; try done.
    + intros c1. rewrite B1. split.
      * intros (w1 & Hw1 & Ht). destruct (Hget c1 w1 Hw1) as (w2 & ? & _ & ?). exists w2. split; congruence.
      * intros (w2 & Hw2 & Ht). destruct (Hback c1 w2 Hw2) as (w1 & ? & _ & ? & _). exists w1. split; congruence.
    + intros c1 w2 Hw2. destruct (Hback c1 w2 Hw2) as (w1 & ? & _ & _ & Hk). eauto.
    + intros c1 k Hk. destruct (B6 c1 k Hk) as (w1 & Hw1 & Ht & ->). destruct (Hget c1 w1 Hw1) as (w2 & ? & E & ?).
      exists w2. split_and!; [done | congruence | by rewrite (proj1 (ev_final _ _ E Ht))].
    + intros a o Ho. destruct (B9 a o Ho) as (c1 & w1 & Hw1 & Ha & Ht & ->). destruct (Hget c1 w1 Hw1) as (w2 & ? & E & ?).
      destruct (ev_final _ _ E Ht) as [Hs Hr].
      exists c1, w2. rewrite (ev_agent _ _ E). split_and!; [done | done | congruence | congruence].
    + intros c1 w2 Hw2. destruct (Hback c1 w2 Hw2) as (w1 & Hw1 & E & _). rewrite (ev_agent _ _ E), (ev_gen _ _ E).
      by eapply B11.
    + intros f c1 Hf. destruct (B12 f c1 Hf) as [w1 Hw1]. destruct (Hget c1 w1 Hw1) as (w2 & ? & _). by exists w2.
  - split; cbn.
    + intros c1 w1 Hw1. destruct (Hget c1 w1 Hw1) as (w2 & ? & ? & _). by exists w2.
    + intros a g Hg. exists g. split; [done | lia].
    + intros c1 w2 g Hn Hw2. destruct (Hback c1 w2 Hw2) as (w1 & ? & _). congruence.
    + done.
Qed.

Lemma waiters_ok x b :
  broker_ok b →
  (∀ a slots p, x !! a = Some slots → p ∈ slots → ∃ slots0, waiters b !! a = Some slots0 ∧ p ∈ slots0) →
  broker_ok (set_waiters x b).
Proof.
  intros [B1 B2 B3 B4 B5 B6 B7 B8 B9 B10 B11 B12] Hx. split; cbn; try done.
  intros a slots f g Ha Hin. destruct (Hx a slots (f, g) Ha Hin) as (slots0 & ? & ?). by eapply B10.
Qed.

(** Futures only ever get settled, and never by this with a result. *)
Lemma futures_ok x b :
  broker_ok b → (∀ f, is_Some (futures b !! f) → is_Some (x !! f)) →
  (∀ f c, x !! f = Some (Resolved c) → futures b !! f = Some (Resolved c)) →
  broker_ok (set_futures x b).
Proof.
  intros [B1 B2 B3 B4 B5 B6 B7 B8 B9 B10 B11 B12] Hx Hr. split; cbn; try done.
  - intros a slots f g Ha Hin. destruct (B10 a slots f g Ha Hin). by split; [| apply Hx].
  - intros f c Hf. by eapply B12, Hr.
Qed.

Lemma cancel_ok f b : broker_ok b → broker_ok (set_futures (<[f := Cancelled_]> (futures b)) b).
Proof.
  intros Hok. apply futures_ok; [done | |].
  - intros f' Hf. destruct (decide (f = f')) as [<- |]; [rewrite lookup_insert_eq; by eexists | by rewrite lookup_insert_ne].
  - intros f' c. destruct (decide (f = f')) as [<- |]; [by rewrite lookup_insert_eq | by rewrite lookup_insert_ne].
Qed.

(** *** Termination *)

Lemma ended_ok cap st reason w :
  work_ok cap w → is_terminal_state st = true → is_terminal_state (w_state w) = false →
  work_ok cap (ended st reason w) ∧ evolves w (ended st reason w).
Proof.
  intros [H1 H0 H2 H3 H4] Hst Hw. split; split; cbn; try done; try (by destruct st).
  - by destruct st, (w_state w).
  - by rewrite Hw.
Qed.

Lemma terminate_ok c st reason b :
  broker_ok b → is_terminal_state st = true →
  let '(b', closing) := terminate c st reason b in
  broker_ok b' ∧ bevolves b b' ∧ (closing = false → b' = b) ∧
  (closing = true → ∃ w, objs b !! c = Some w ∧ is_terminal_state (w_state w) = false ∧
     objs b' !! c = Some (ended st reason w)).
Proof.
  intros Hok Hst. unfold terminate. destruct (objs b !! c) as [w |] eqn:Hw; [| by split_and!].
  destruct (is_terminal_state (w_state w)) eqn:Ht; [by split_and! |].
  pose proof Hok as [B1 B2 B3 B4 B5 B6 B7 B8 B9 B10 B11 B12].
  destruct (ended_ok _ st reason w (B3 c w Hw) Hst Ht) as [Hwk He].
  assert (Hne : ∀ c1 w1, objs b !! c1 = Some w1 → is_terminal_state (w_state w1) = true → c ≠ c1)
    by (intros c1 w1 ? ? ->; congruence).
  split_and!.
  - split; cbn.
    + intros c1. rewrite list_elem_of_filter, B1. destruct (decide (c = c1)) as [<- | Hn].
      * rewrite lookup_insert_eq. split; [by intros [? _] |]. intros (w1 & [= <-] & Hf). cbn in Hf. congruence.
      * rewrite lookup_insert_ne by done. naive_solver.
    + by apply NoDup_filter.
    + intros c1 w1. destruct (decide (c = c1)) as [<- | Hn]; [rewrite lookup_insert_eq; by intros [= <-] |].
      rewrite lookup_insert_ne by done. apply B3.
    + by apply remember_wf.
    + by apply remember_length.
    + intros c1 k Hk. apply remember_get in Hk as [[-> ->] | [Hn Hk]]; [| | done].
      * rewrite lookup_insert_eq. by eexists.
      * destruct (B6 c1 k Hk) as (w1 & ? & ? & ?). rewrite lookup_insert_ne by done. by exists w1.
    + by apply remember_wf.
    + by apply remember_length.
    + intros a o Ho. apply remember_get in Ho as [[-> ->] | [Hn Ho]]; [| | done].
      * exists c, (ended st reason w). by rewrite lookup_insert_eq.
      * destruct (B9 a o Ho) as (c1 & w1 & Hw1 & ? & Hterm & ?). exists c1, w1.
        rewrite lookup_insert_ne by (by eapply Hne). done.
    + done.
    + intros c1 w1. destruct (decide (c = c1)) as [<- | Hn].
      * rewrite lookup_insert_eq. intros [= <-]. cbn. by apply (B11 c w).
      * rewrite lookup_insert_ne by done. apply B11.
    + intros f c1 Hf. destruct (decide (c = c1)) as [<- | Hn]; [rewrite lookup_insert_eq; by eexists |].
      rewrite lookup_insert_ne by done. by eapply B12.
  - split; cbn.
    + intros c1 w1 Hw1. destruct (decide (c = c1)) as [<- | Hn].
      * rewrite lookup_insert_eq. simplify_eq. by eexists.
      * rewrite lookup_insert_ne by done. by exists w1.
    + intros a g Hg. exists g. split; [done | lia].
    + intros c1 w1 g Hn Hw1. destruct (decide (c = c1)) as [<- | Hne']; [congruence |].
      rewrite lookup_insert_ne in Hw1 by done. congruence.
    + done.
  - done.
  - intros _. exists w. cbn. by rewrite lookup_insert_eq.
Qed.

(** *** Calls *)

Definition good (b b' : Broker) (tasks : list Task) : Prop :=
  broker_ok b' ∧ bevolves b b' ∧ Forall (task_ok b') tasks.

Definition good_outcome (b : Broker) (o : Outcome_) : Prop := good b o.1.1 o.1.2.

Lemma good_refl b : broker_ok b → good b b [].
Proof. intros Hok. split; [done | split; done]. Qed.

Lemma good_trans b1 b2 b3 ts : bevolves b1 b2 → good b2 b3 ts → good b1 b3 ts.
Proof. intros He (? & ? & ?). split_and!; [done | by etransitivity | done]. Qed.

(** A change of waiters or futures leaves every object and fence alone. *)
Lemma same_evolves b b' :
  objs b' = objs b → generation b' = generation b → max_buffer b' = max_buffer b → bevolves b b'.
Proof.
  intros Ho Hg Hm. split; rewrite ?Ho, ?Hg; [intros c w Hw; by exists w | | congruence | done].
  intros a g Ha. exists g. split; [done | lia].
Qed.

Lemma good_same b b' :
  broker_ok b' → objs b' = objs b → generation b' = generation b → max_buffer b' = max_buffer b → good b b' [].
Proof. intros Hok Ho Hg Hm. split_and!; [done | by apply same_evolves | done]. Qed.

Lemma terminate_good c st reason terminal b :
  broker_ok b → is_terminal_state st = true →
  let '(b', closing) := terminate c st reason b in good b b' (close_task closing c terminal).
Proof.
  intros Hok Hst. pose proof (terminate_ok c st reason b Hok Hst) as Ht. destruct (terminate c st reason b) as [b' []].
  - destruct Ht as (? & ? & _ & Ho). destruct (Ho eq_refl) as (w & _ & _ & Hw). split_and!; try done.
    constructor; [| done]. cbn. by eexists.
  - destruct Ht as (? & ? & _ & _). by split_and!.
Qed.

Lemma upload_good agent c gen now body b :
  broker_ok b → (∀ w, objs b !! c = Some w → is_terminal_state (w_state w) = false → good_outcome b (body w b)) →
  good_outcome b (upload agent c gen now body b).
Proof.
  intros Hok Hbody. unfold upload, good_outcome. destruct (check agent c gen b) as [e | w] eqn:Hc; [by apply good_refl |].
  assert (Hw : objs b !! c = Some w ∧ is_terminal_state (w_state w) = false).
  { unfold check in Hc. destruct (bool_decide (c ∈ works b)) eqn:Hin; reflect_bools.
    - apply (bo_works _ Hok) in Hin as (w1 & Hw1 & Ht). rewrite Hw1 in Hc. repeat (destruct (negb _) in Hc; [done |]). by simplify_eq.
    - by destruct (od_get c (terminal_class b)) as [[] |]. }
  destruct Hw as [Hw Ht]. destruct (w_deadline w <=?q now); [| by apply Hbody].
  pose proof (terminate_good c Failed (Some DEADLINE_EXPIRED) DEADLINE_EXPIRED b Hok eq_refl) as Hg.
  unfold terminate in *. by rewrite Hw, Ht in *.
Qed.

Lemma start_response_good agent c gen status ct now b :
  broker_ok b → good_outcome b (start_response agent c gen status ct now b).
Proof.
  intros Hok. apply upload_good; [done |]. intros w Hw Ht.
  destruct (bool_decide (w_state w = Claimed)) eqn:Hs; reflect_bools; cbn; [| by apply good_refl].
  destruct (bo_objs _ Hok c w Hw) as [K1 K0 K2 K3 K4].
  destruct (obj_update_ok b c w (responding status ct w) Hok Hw) as [? ?]; [| | | by split_and!].
  - split; cbn; try done. intros Hn. by apply K2 in Hn; rewrite Hs in Hn.
  - split; cbn; try done; rewrite Hs; cbn; [lia | done].
  - by rewrite Hs.
Qed.

Lemma write_good agent c gen chunk now b : broker_ok b → good_outcome b (write agent c gen chunk now b).
Proof.
  intros Hok. unfold write. destruct (Z.ltb_spec MAX_RESPONSE_CHUNK_BYTES (nbytes chunk)); [by apply good_refl |].
  apply upload_good; [done |]. intros w Hw Ht.
  destruct (bool_decide (w_state w = Responding)) eqn:Hs; reflect_bools; cbn; [| by apply good_refl].
  destruct chunk as [| x chunk]; cbn; [by apply good_refl |]. split_and!; cbn; [done | done |].
  constructor; [| done]. cbn. split; [split; [unfold nbytes; cbn; lia | done] |]. exists w. by rewrite Hs.
Qed.

Lemma finish_good agent c gen now b : broker_ok b → good_outcome b (finish agent c gen now b).
Proof.
  intros Hok. apply upload_good; [done |]. intros w Hw Ht.
  destruct (bool_decide (w_state w = Responding)) eqn:Hs; cbn; [| by apply good_refl].
  pose proof (terminate_good c Finished None "eof" b Hok eq_refl). by destruct (terminate c Finished None b).
Qed.

Lemma fail_good agent c gen code now b : broker_ok b → good_outcome b (fail agent c gen code now b).
Proof.
  intros Hok. unfold fail. destruct (bool_decide (code ∈ FAIL_CODES)); cbn; [| by apply good_refl].
  apply upload_good; [done |]. intros w Hw Ht.
  pose proof (terminate_good c Failed (Some code) code b Hok eq_refl). by destruct (terminate c Failed (Some code) b).
Qed.

Lemma disconnect_good c b : broker_ok b → good b (disconnect c b).1 (disconnect c b).2.
Proof.
  intros Hok. unfold disconnect. pose proof (terminate_good c Invalid (Some "client_disconnect") "client_disconnect" b Hok eq_refl).
  by destruct (terminate _ _ _ b).
Qed.

Lemma deadline_good c b : broker_ok b → good b (deadline_terminate c b).1 (deadline_terminate c b).2.
Proof.
  intros Hok. unfold deadline_terminate. destruct (bool_decide (c ∈ works b)); [| by apply good_refl].
  pose proof (terminate_good c Failed (Some DEADLINE_EXPIRED) DEADLINE_EXPIRED b Hok eq_refl). by destruct (terminate _ _ _ b).
Qed.

Lemma wait_timeout_good f b : broker_ok b → good b (wait_timeout f b) [].
Proof.
  intros Hok. unfold wait_timeout. destruct (futures b !! f) as [[] |]; try by apply good_refl.
  apply good_same; [by apply cancel_ok | done | done | done].
Qed.

Lemma abandon_good agent f b : broker_ok b → good_outcome b (abandon_waiter agent f b).
Proof.
  intros Hok. unfold abandon_waiter, good_outcome. set (b1 := set_waiters _ b).
  assert (Hok1 : broker_ok b1).
  { apply waiters_ok; [done |]. intros a slots p Ha Hp. destruct (decide (agent = a)) as [<- |].
    - rewrite lookup_insert_eq in Ha. simplify_eq. apply list_elem_of_filter in Hp as [_ Hp].
      destruct (waiters b !! agent); [by eexists | by apply elem_of_nil in Hp].
    - rewrite lookup_insert_ne in Ha by done. by eexists. }
  assert (He : bevolves b b1) by (by apply (good_same b b1)).
  change (futures b) with (futures b1). destruct (futures b1 !! f) as [[| c |] |] eqn:Hf; cbn [fst snd].
  - apply (good_trans _ b1); [done |]. apply good_same; [by apply (cancel_ok f b1) | done | done | done].
  - pose proof (terminate_good c Failed (Some "cancelled") "cancelled" b1 Hok1 eq_refl).
    destruct (terminate _ _ _ b1). by apply (good_trans _ b1).
  - apply (good_trans _ b1); [done |]. by apply good_refl.
  - apply (good_trans _ b1); [done |]. by apply good_refl.
Qed.

Lemma claim_good agent gen f b :
  broker_ok b → good_outcome b (claim agent gen f b).
Proof.
  intros Hok. unfold claim, good_outcome. destruct (Z.ltb_spec gen (default 0%Z (generation b !! agent))); [by apply good_refl |].
  set (fence := default 0%Z (generation b !! agent)) in *. cbn [fst snd].
  assert (Hgen : ∀ a g, generation b !! a = Some g →
    ∃ g', <[agent := Z.max fence gen]> (generation b) !! a = Some g' ∧ (g ≤ g')%Z).
  { intros a g Ha. destruct (decide (agent = a)) as [<- |].
    - rewrite lookup_insert_eq. eexists. split; [done |]. unfold fence. rewrite Ha. cbn. lia.
    - rewrite lookup_insert_ne by done. exists g. split; [done | lia]. }
  destruct Hok as [B1 B2 B3 B4 B5 B6 B7 B8 B9 B10 B11 B12]. split_and!; [| | done].
  - split; cbn; try done.
    + intros a slots f' g Ha Hin. split.
      * destruct (decide (agent = a)) as [<- |].
        -- rewrite lookup_insert_eq in Ha. simplify_eq. apply elem_of_app in Hin as [Hin | [= -> ->]%list_elem_of_singleton].
           ++ destruct (waiters b !! agent) as [slots |] eqn:Hs; [| by apply elem_of_nil in Hin].
              destruct (B10 agent slots f' g Hs Hin) as [(g0 & Hg0 & ?) _]. destruct (Hgen agent g0 Hg0) as (g' & ? & ?).
              exists g'. split; [done | lia].
           ++ exists (Z.max fence gen). rewrite lookup_insert_eq. split; [done | lia].
        -- rewrite lookup_insert_ne in Ha by done. destruct (B10 a slots f' g Ha Hin) as [(g0 & Hg0 & ?) _].
           destruct (Hgen a g0 Hg0) as (g' & ? & ?). exists g'. split; [done | lia].
      * destruct (decide (f = f')) as [<- |]; [rewrite lookup_insert_eq; by eexists | rewrite lookup_insert_ne by done].
        destruct (decide (agent = a)) as [<- |].
        -- rewrite lookup_insert_eq in Ha. simplify_eq. apply elem_of_app in Hin as [Hin | [= -> ->]%list_elem_of_singleton]; [| done].
           destruct (waiters b !! agent) as [slots |] eqn:Hs; [by eapply B10 | by apply elem_of_nil in Hin].
        -- rewrite lookup_insert_ne in Ha by done. by eapply B10.
    + intros c w Hw. destruct (B11 c w Hw) as (g0 & Hg0 & ?). destruct (Hgen _ g0 Hg0) as (g' & ? & ?). exists g'. split; [done | lia].
    + intros f' c. destruct (decide (f = f')) as [<- |]; [by rewrite lookup_insert_eq | rewrite lookup_insert_ne by done; apply B12].
  - split; cbn; [intros c w Hw; by exists w | done | congruence | done].
Qed.

Lemma drop_done_sub futs slots p : p ∈ drop_done futs slots → p ∈ slots.
Proof.
  induction slots as [| [f g] slots IH]; cbn; [done |]. destruct (is_done _); [| done]. intros ?%IH. set_solver.
Qed.

Lemma new_work_ok agent gen fut c w b :
  broker_ok b → objs b !! c = None → w_agent_id w = agent → w_generation w = gen → w_state w = Claimed → work_ok (stream_cap b) w →
  (∃ fence, generation b !! agent = Some fence ∧ (gen ≤ fence)%Z) →
  (∀ g, generation b !! agent = Some g → (g ≤ gen)%Z) → is_Some (futures b !! fut) →
  let b' := {| waiters := waiters b; works := works b ++ [c]; max_buffer := max_buffer b;
               generation := generation b; terminal_class := terminal_class b; last_claim := last_claim b;
               objs := <[c := w]> (objs b); futures := <[fut := Resolved c]> (futures b) |} in
  good b b' [].
Proof.
  intros [B1 B2 B3 B4 B5 B6 B7 B8 B9 B10 B11 B12] Hc Ha Hg Hs Hwk Hf Hle Hfut b'.
  assert (Hne : ∀ c1 w1, objs b !! c1 = Some w1 → <[c := w]> (objs b) !! c1 = Some w1)
    by (intros c1 w1 ?; rewrite lookup_insert_ne; [done | intros ->; congruence]).
  assert (Hnin : c ∉ works b) by (intros (w1 & ? & _)%B1; congruence).
  split_and!; [| | done].
  - split; cbn; try done.
    + intros c1. rewrite elem_of_app, list_elem_of_singleton, B1. destruct (decide (c = c1)) as [<- |].
      * rewrite lookup_insert_eq. split; [intros _; exists w; by rewrite Hs | by right].
      * rewrite lookup_insert_ne by done. split; [by intros [? | ?] | by left].
    + apply NoDup_app. split_and!; [done | set_solver | apply NoDup_singleton].
    + intros c1 w1. destruct (decide (c = c1)) as [<- |]; [rewrite lookup_insert_eq; by intros [= <-] |].
      rewrite lookup_insert_ne by done. apply B3.
    + intros c1 k Hk. destruct (B6 c1 k Hk) as (w1 & ? & ?). exists w1. split; [by apply Hne | done].
    + intros a o Ho. destruct (B9 a o Ho) as (c1 & w1 & ? & ?). exists c1, w1. split; [by apply Hne | done].
    + intros a slots f g Hsl Hin. destruct (B10 a slots f g Hsl Hin). split; [done |].
      destruct (decide (fut = f)) as [<- |]; [rewrite lookup_insert_eq; by eexists | by rewrite lookup_insert_ne].
    + intros c1 w1. destruct (decide (c = c1)) as [<- |].
      * rewrite lookup_insert_eq. intros [= <-]. by rewrite Ha, Hg.
      * rewrite lookup_insert_ne by done. apply B11.
    + intros f c1. destruct (decide (fut = f)) as [<- |].
      * rewrite lookup_insert_eq. intros [= <-]. rewrite lookup_insert_eq. by eexists.
      * rewrite lookup_insert_ne by done. intros Hf1. destruct (B12 f c1 Hf1) as [w1 ?]. exists w1. by apply Hne.
  - split; cbn; [intros c1 w1 Hw1; exists w1; split; [by apply Hne | done] | | | done].
    + intros a g Hag. exists g. split; [done | lia].
    + intros c1 w1 g Hn Hw1. destruct (decide (c = c1)) as [<- |].
      * rewrite lookup_insert_eq in Hw1. simplify_eq. apply Hle.
      * rewrite lookup_insert_ne in Hw1 by done. congruence.
Qed.

Lemma offer_good agent port request deadline c b :
  broker_ok b → objs b !! c = None → good_outcome b (offer agent port request deadline c b).
Proof.
  intros Hok Hc. unfold offer, good_outcome.
  destruct (MAX_REQUEST_BYTES <? _)%Z; [by apply good_refl |]. destruct (_ || _); [by apply good_refl |].
  set (b1 := set_waiters (alter _ agent (waiters b)) b).
  assert (Hok1 : broker_ok b1).
  { apply waiters_ok; [done |]. intros a slots p Ha Hp. destruct (decide (agent = a)) as [<- |].
    - rewrite lookup_alter_eq in Ha. destruct (waiters b !! agent) as [s0 |]; simplify_eq/=.
      exists s0. split; [done |]. by eapply drop_done_sub.
    - rewrite lookup_alter_ne in Ha by done. by eexists. }
  assert (He1 : bevolves b b1) by (by apply (good_same b b1)).
  destruct (default [] (waiters b1 !! agent)) as [| [fut gen] slots] eqn:Hs; [by apply (good_same b b1) |].
  destruct (waiters b1 !! agent) as [s1 |] eqn:Hw1; [| done]. cbn in Hs. subst s1.
  destruct (bo_waiters _ Hok1 agent _ fut gen Hw1) as [Hfence Hfut]; [set_solver |].
  set (b2 := set_waiters (<[agent := slots]> (waiters b1)) b1).
  assert (Hok2 : broker_ok b2).
  { apply waiters_ok; [done |]. intros a sl p Ha Hp. destruct (decide (agent = a)) as [<- |].
    - rewrite lookup_insert_eq in Ha. simplify_eq. eexists. split; [done |]. set_solver.
    - rewrite lookup_insert_ne in Ha by done. by eexists. }
  destruct (Z.ltb_spec gen (default gen (generation b2 !! agent))) as [| Hge].
  - apply good_same; [by apply (cancel_ok fut b2) | done | done | done].
  - eapply (good_trans _ b1); [done |]. apply (good_trans _ b2); [by apply (good_same b1 b2) |].
    apply (new_work_ok agent gen fut c _ b2); try done.
    + split; cbn; try done. apply new_stream_ok.
    + intros g Hg. rewrite Hg in Hge. done.
Qed.

Lemma raise_fence_ok agent newer b :
  broker_ok b →
  good b (set_generation (<[agent := Z.max (default 0%Z (generation b !! agent)) newer]> (generation b)) b) [].
Proof.
  intros [B1 B2 B3 B4 B5 B6 B7 B8 B9 B10 B11 B12]. set (top := Z.max _ newer).
  assert (Hgen : ∀ a g, generation b !! a = Some g →
    ∃ g', <[agent := top]> (generation b) !! a = Some g' ∧ (g ≤ g')%Z).
  { intros a g Ha. destruct (decide (agent = a)) as [<- |].
    - rewrite lookup_insert_eq. eexists. split; [done |]. unfold top. rewrite Ha. cbn. lia.
    - rewrite lookup_insert_ne by done. exists g. split; [done | lia]. }
  split_and!; [| | done].
  - split; cbn; try done.
    + intros a slots f g Ha Hin. destruct (B10 a slots f g Ha Hin) as [(g0 & Hg0 & ?) ?]. split; [| done].
      destruct (Hgen a g0 Hg0) as (g' & ? & ?). exists g'. split; [done | lia].
    + intros c w Hw. destruct (B11 c w Hw) as (g0 & Hg0 & ?). destruct (Hgen _ g0 Hg0) as (g' & ? & ?). exists g'. split; [done | lia].
  - split; cbn; [intros c w Hw; by exists w | done | congruence | done].
Qed.

Lemma invalidate_one_good agent newer reason b0 b tasks c :
  broker_ok b → bevolves b0 b → Forall (task_ok b) tasks →
  let r := invalidate_one agent newer reason (b, tasks) c in good b0 r.1 r.2 ∧ bevolves b r.1.
Proof.
  intros Hok He Ht. cbn. assert (Hsame : good b0 b tasks ∧ bevolves b b) by (by split_and!).
  destruct (objs b !! c) as [w |]; [| done]. destruct (_ && _); [| done].
  pose proof (terminate_good c Invalid (Some reason) reason b Hok eq_refl) as Hg.
  destruct (terminate c Invalid (Some reason) b) as [b' closing]. destruct Hg as (Hok' & He' & Ht'). cbn.
  split; [| done]. split_and!; [done | by etransitivity |]. apply Forall_app. split; [| done].
  eapply Forall_impl; [done |]. intros t. by apply task_ok_evolves.
Qed.

Lemma invalidate_loop_good agent newer reason b0 cs b tasks :
  good b0 b tasks →
  let r := fold_left (invalidate_one agent newer reason) cs (b, tasks) in
  good b0 r.1 r.2 ∧ bevolves b r.1 ∧ waiters r.1 = waiters b ∧ generation r.1 = generation b ∧ futures r.1 = futures b.
Proof.
  revert b tasks; induction cs as [| c cs IH]; intros b tasks (Hok & He & Ht); cbn [fold_left]; [by split_and! |].
  destruct (invalidate_one_good agent newer reason b0 b tasks c Hok He Ht) as [Hg He1].
  assert (Hsame : let r := invalidate_one agent newer reason (b, tasks) c in
    waiters r.1 = waiters b ∧ generation r.1 = generation b ∧ futures r.1 = futures b).
  { cbn. destruct (objs b !! c) as [w |]; [| done]. destruct (_ && _); [| done]. unfold terminate.
    destruct (objs b !! c) as [w' |]; [| done]. by destruct (is_terminal_state _). }
  destruct (invalidate_one agent newer reason (b, tasks) c) as [b1 t1]. cbn in Hg, He1, Hsame.
  destruct Hsame as (Hw & Hgen & Hf). destruct (IH b1 t1 Hg) as (? & ? & ? & ? & ?).
  split_and!; [done | by etransitivity | congruence | congruence | congruence].
Qed.

Lemma cancel_stale_spec newer slots futs f :
  (is_Some (futs !! f) → is_Some (fold_left (cancel_stale newer) slots futs !! f)) ∧
  (∀ c, fold_left (cancel_stale newer) slots futs !! f = Some (Resolved c) → futs !! f = Some (Resolved c)).
Proof.
  revert futs; induction slots as [| p slots IH]; intros futs; cbn; [done |].
  destruct (IH (cancel_stale newer futs p)) as [H1 H2].
  assert (Hstep : (is_Some (futs !! f) → is_Some (cancel_stale newer futs p !! f)) ∧
    ∀ c, cancel_stale newer futs p !! f = Some (Resolved c) → futs !! f = Some (Resolved c)).
  { unfold cancel_stale. destruct (_ && _); [| done]. destruct (decide (p.1 = f)) as [<- |].
    - rewrite lookup_insert_eq. split; [by eexists | done].
    - by rewrite lookup_insert_ne. }
  destruct Hstep as [H3 H4]. split; auto.
Qed.

Lemma invalidate_good agent newer reason b :
  broker_ok b → good b (invalidate_agent agent newer reason b).1 (invalidate_agent agent newer reason b).2.
Proof.
  intros Hok. unfold invalidate_agent. destruct (raise_fence_ok agent newer b Hok) as (Hok1 & He1 & _).
  set (b1 := set_generation _ b) in *.
  pose proof (invalidate_loop_good agent newer reason b1 (works b1) b1 [] (good_refl _ Hok1)) as (Hg & _ & Hw & Hgen & Hf).
  destruct (fold_left (invalidate_one agent newer reason) (works b1) (b1, [])) as [b2 tasks]. cbn in Hg, Hw, Hgen, Hf |- *.
  destruct Hg as (Hok2 & He2 & Ht2). set (b3 := set_waiters _ b2).
  assert (Hok3 : broker_ok b3).
  { apply waiters_ok; [done |]. intros a sl p. destruct (decide (agent = a)) as [<- |].
    - destruct (bool_decide _); [by rewrite lookup_delete_eq | rewrite lookup_insert_eq].
      intros [= <-] [_ Hp]%list_elem_of_filter. destruct (waiters b2 !! agent); [by eexists | by apply elem_of_nil in Hp].
    - destruct (bool_decide _); [rewrite lookup_delete_ne by done | rewrite lookup_insert_ne by done]; by eexists. }
  split_and!.
  - apply (futures_ok _ b3); [done | intros f; apply cancel_stale_spec | intros f; apply cancel_stale_spec].
  - transitivity b1; [done |]. transitivity b2; [done |]. by apply same_evolves.
  - eapply Forall_impl; [exact Ht2 |]. intros t. apply task_ok_evolves. by apply same_evolves.
Qed.

Lemma with_stream_ok cap s' w :
  work_ok cap w → stream_ok s' → s_max_bytes s' = s_max_bytes (w_stream w) →
  (s_terminal s' ≠ None → is_terminal_state (w_state w) = true) →
  (w_state w = Claimed → s_first_byte s' = false) →
  work_ok cap (with_stream (λ _, s') w) ∧ evolves w (with_stream (λ _, s') w).
Proof. intros [K1 K0 K2 K3 K4] Hs Hm Ht Hf. split; split; cbn; congruence || done. Qed.

Lemma next_good c b : broker_ok b → good_outcome b (run_call (Next c) 0 b).
Proof.
  intros Hok. cbn. unfold next_chunk. destruct (objs b !! c) as [w |] eqn:Hw; [| by apply good_refl]. cbn.
  destruct (stream_read (w_stream w)) as [[s r] |] eqn:Hr; [| by apply good_refl]. cbn.
  pose proof (bo_objs _ Hok c w Hw) as Hwk. pose proof (stream_read_ok _ _ _ (wk_stream _ _ Hwk) Hr) as Hs.
  assert (Hst : s_terminal s = s_terminal (w_stream w) ∧ s_first_byte s = s_first_byte (w_stream w) ∧
                s_max_bytes s = s_max_bytes (w_stream w)).
  { unfold stream_read in Hr. destruct (s_chunks (w_stream w)); [destruct (s_terminal (w_stream w)) eqn:Ht |]; by simplify_eq/=. }
  destruct Hst as (Ht & Hf & Hm).
  destruct (with_stream_ok _ s w Hwk Hs Hm) as [? ?]; [rewrite Ht; apply Hwk | rewrite Hf; apply Hwk |].
  destruct (obj_update_ok b c w (with_stream (λ _, s) w) Hok Hw) as [? ?]; [done | done | done |]. by split_and!.
Qed.

Lemma run_task_good t now b b' tasks :
  broker_ok b → task_ok b t → run_task t now b = Some (b', tasks) → good b b' tasks.
Proof.
  intros Hok Ht Hr. destruct t as [c tm | c chunk d | c]; cbn in Ht, Hr.
  - simplify_eq. destruct Ht as (w & Hw & Ht). pose proof (bo_objs _ Hok c w Hw) as Hwk.
    assert (Heq : alter (with_stream (stream_close tm)) c (objs b) =
                  <[c := with_stream (λ _, stream_close tm (w_stream w)) w]> (objs b)).
    { apply map_eq; intros c1. destruct (decide (c = c1)) as [<- |]; [| by rewrite lookup_alter_ne, lookup_insert_ne].
      by rewrite lookup_alter_eq, lookup_insert_eq, Hw. }
    rewrite Heq. destruct (with_stream_ok _ (stream_close tm (w_stream w)) w Hwk) as [? ?];
      [apply stream_close_ok, Hwk | unfold stream_close; by destruct (s_terminal (w_stream w)) | done | intros Hs; by rewrite Hs in Ht |].
    destruct (obj_update_ok b c w (with_stream (λ _, stream_close tm (w_stream w)) w) Hok Hw) as [? ?]; [done | done | done |].
    by split_and!.
  - destruct Ht as (Hc & w & Hw & Hs). rewrite Hw in Hr. cbn in Hr. pose proof (bo_objs _ Hok c w Hw) as Hwk.
    pose proof (stream_write_ok chunk d now (w_stream w) (wk_stream _ _ Hwk) Hc) as Hsok.
    assert (Hterm : s_terminal (stream_write chunk d now (w_stream w)).1 = s_terminal (w_stream w) ∧
                    s_max_bytes (stream_write chunk d now (w_stream w)).1 = s_max_bytes (w_stream w)).
    { unfold stream_write. destruct (must_wait _ _); [done |]. destruct (s_terminal (w_stream w)) eqn:Ht; [done |].
      by destruct (d <=?q now). }
    destruct (stream_write chunk d now (w_stream w)) as [s r]. cbn in Hsok, Hterm.
    destruct Hterm as [Hterm Hm]. destruct (with_stream_ok _ s w Hwk Hsok Hm) as [? ?]; [rewrite Hterm; apply Hwk | done |].
    destruct (obj_update_ok b c w (with_stream (λ _, s) w) Hok Hw) as [? ?]; [done | done | done |].
    destruct r; simplify_eq; split_and!; try done. constructor; [| done]. cbn. rewrite lookup_insert_eq. by eexists.
  - simplify_eq. pose proof (deadline_good c b Hok) as Hg. by rewrite Hr in Hg.
Qed.

Lemma run_call_good c now b : broker_ok b → fresh c b → good_outcome b (run_call c now b).
Proof.
  intros Hok Hf. destruct c; cbn [run_call].
  - by apply offer_good.
  - by apply claim_good.
  - by apply wait_timeout_good.
  - by apply abandon_good.
  - by apply start_response_good.
  - by apply write_good.
  - by apply finish_good.
  - by apply fail_good.
  - by apply invalidate_good.
  - by apply disconnect_good.
  - by apply (next_good claim b).
Qed.

(** ** Worlds *)

Definition world_ok (w : World) : Prop := broker_ok (w_broker w) ∧ Forall (task_ok (w_broker w)) (w_tasks w).

Lemma step_ok w w' : world_ok w → step w w' → world_ok w' ∧ bevolves (w_broker w) (w_broker w').
Proof.
  intros [Hok Ht]. destruct 1 as [c now w b' tasks r Hf Hrun | t now w before after b' tasks Hts Hrun]; cbn.
  - pose proof (run_call_good c now _ Hok Hf) as (Hok' & He & Ht'). rewrite Hrun in Hok', He, Ht'. cbn in *.
    split; [split; [done |] | done]. apply Forall_app. split; [| done].
    eapply Forall_impl; [done |]. intros t. by apply task_ok_evolves.
  - rewrite Hts in Ht. apply Forall_app in Ht as [Hb [Ht Ha]%Forall_cons].
    destruct (run_task_good t now _ _ _ Hok Ht Hrun) as (Hok' & He & Ht'). split; [split; [done |] | done].
    cbn. rewrite !Forall_app. split_and!; [| | done]; (eapply Forall_impl; [done |]; intros t'; by apply task_ok_evolves).
Qed.

Lemma start_ok mb : world_ok (start mb).
Proof.
  split; [| constructor]. split; cbn; try done; try (intros *; by rewrite lookup_empty); try constructor.
  - intros ?%elem_of_nil. done.
  - intros (w & Hw & _). by rewrite lookup_empty in Hw.
Qed.

Lemma steps_ok w w' : world_ok w → rtc step w w' → world_ok w' ∧ bevolves (w_broker w) (w_broker w').
Proof.
  intros Hok. induction 1 as [w | w1 w2 w3 Hs _ IH]; [by split |].
  destruct (step_ok _ _ Hok Hs) as [Hok2 He]. destruct (IH Hok2) as [? ?]. split; [done | by etransitivity].
Qed.

Lemma reachable_ok mb w : reachable mb w → world_ok w ∧ max_buffer (w_broker w) = mb.
Proof.
  intros Hr. destruct (steps_ok _ _ (start_ok mb) Hr) as [? E]. split; [done |]. apply (be_max _ _ E).
Qed.

(** In every interleaving of requests, claims, uploads, fences, client
    disconnects and the awaits they leave behind, the broker stays consistent
    and bounded: the registry holds exactly the claims that have not ended, each
    once; an ended claim is remembered under the class its outcome has, in a
    history of at most 4096; at most 1024 last outcomes are kept, each one a
    real outcome of that agent; no stream buffers more than its capacity, and
    none is closed while its claim lives. *)
Theorem relay_invariant mb w :
  reachable mb w →
  broker_ok (w_broker w) ∧
  ∀ c x, objs (w_broker w) !! c = Some x →
    (bytes_in (s_chunks (w_stream x)) ≤ Z.max mb MAX_RESPONSE_CHUNK_BYTES)%Z.
Proof.
  intros Hr. destruct (reachable_ok mb w Hr) as [[Hok _] <-]. split; [done |]. intros c x Hx.
  pose proof (bo_objs _ Hok c x Hx) as Hw. pose proof (st_cap _ (wk_stream _ _ Hw)).
  rewrite (wk_cap _ _ Hw), (st_count _ (wk_stream _ _ Hw)) in *. done.
Qed.

(** A claim's outcome is final.  Whatever happens later, a claim keeps its
    owner, generation and deadline, moves only forward through claimed,
    responding, ended, and once it has ended keeps the outcome and reason it
    first got and never returns to the registry. *)
Theorem claim_outcome_final mb w w' c x :
  reachable mb w → rtc step w w' → objs (w_broker w) !! c = Some x →
  ∃ x', objs (w_broker w') !! c = Some x' ∧ evolves x x' ∧
    (is_terminal_state (w_state x) = true → c ∉ works (w_broker w')).
Proof.
  intros Hr Hs Hx. destruct (reachable_ok mb w Hr) as [Hok _]. destruct (steps_ok _ _ Hok Hs) as [[Hok' _] E].
  destruct (be_objs _ _ E c x Hx) as (x' & Hx' & Ex). exists x'. split_and!; [done | done |].
  intros Ht (x'' & Hx'' & Hl)%(bo_works _ Hok'). simplify_eq. rewrite (proj1 (ev_final _ _ Ex Ht)) in Hl. congruence.
Qed.

(** Every live claim of [agent] is at generation [g] or later, and so is the
    fence. *)
Definition fenced (agent : agent_id) (g : Z) (b : Broker) : Prop :=
  (∃ f, generation b !! agent = Some f ∧ (g ≤ f)%Z) ∧
  ∀ c x, objs b !! c = Some x → w_agent_id x = agent → is_terminal_state (w_state x) = false → (g ≤ w_generation x)%Z.

Lemma fenced_evolves agent g b b' : bevolves b b' → fenced agent g b → fenced agent g b'.
Proof.
  intros E [(f & Hf & Hg) Hl]. split.
  - destruct (be_fence _ _ E agent f Hf) as (f' & ? & ?). exists f'. split; [done | lia].
  - intros c x' Hx' Ha Ht. destruct (objs b !! c) as [x |] eqn:Hx.
    + destruct (be_objs _ _ E c x Hx) as (x'' & ? & Ex). simplify_eq. rewrite (ev_gen _ _ Ex).
      apply (Hl c x Hx); [by rewrite <- (ev_agent _ _ Ex) |]. destruct (is_terminal_state (w_state x)) eqn:Hterm; [| done].
      rewrite (proj1 (ev_final _ _ Ex Hterm)) in Ht. congruence.
    + subst agent. pose proof (be_new _ _ E c x' f Hx Hx' Hf). lia.
Qed.

(** The loop over the registry ends every stale claim it visits. *)
Lemma invalidate_loop_ends agent newer reason cs b tasks :
  broker_ok b → Forall (task_ok b) tasks → (∀ c, c ∈ cs → is_Some (objs b !! c)) →
  let b' := (fold_left (invalidate_one agent newer reason) cs (b, tasks)).1 in
  ∀ c x, c ∈ cs → objs b' !! c = Some x → w_agent_id x = agent → (w_generation x < newer)%Z →
    is_terminal_state (w_state x) = true.
Proof.
  revert b tasks; induction cs as [| c0 cs IH]; intros b tasks Hok Ht Hobj b' c x Hc Hx Ha Hg; [by apply elem_of_nil in Hc |].
  unfold b' in *. cbn [fold_left] in *.
  destruct (invalidate_one_good agent newer reason b b tasks c0 Hok ltac:(done) Ht) as [(Hok1 & E1 & Ht1) _].
  destruct (invalidate_one agent newer reason (b, tasks) c0) as [b1 t1] eqn:Hone. cbn in Hok1, E1, Ht1.
  apply elem_of_cons in Hc as [<- | Hc].
  2: { apply (IH b1 t1 Hok1 Ht1) with (c := c); try done. intros c1 Hc1.
       destruct (Hobj c1) as [x0 Hx0]; [set_solver |]. destruct (be_objs _ _ E1 c1 x0 Hx0) as (x1 & ? & _). by exists x1. }
  destruct (invalidate_loop_good agent newer reason b1 cs b1 t1) as (_ & E2 & _); [by split_and! |].
  destruct (Hobj c) as [x0 Hx0]; [set_solver |].
  destruct (be_objs _ _ E1 c x0 Hx0) as (x1 & Hx1 & E0), (be_objs _ _ E2 c x1 Hx1) as (x' & Hx' & E). simplify_eq.
  enough (Hterm : is_terminal_state (w_state x1) = true) by (by rewrite (proj1 (ev_final _ _ E Hterm))).
  rewrite (ev_agent _ _ E), (ev_agent _ _ E0) in Hone. rewrite (ev_gen _ _ E), (ev_gen _ _ E0) in Hg.
  cbn in Hone. rewrite Hx0, bool_decide_eq_true_2 in Hone by done. rewrite (proj2 (Z.ltb_lt _ _) Hg) in Hone. cbn in Hone.
  unfold terminate in Hone. rewrite Hx0 in Hone. destruct (is_terminal_state (w_state x0)) eqn:Ht0; simplify_eq; [done |].
  cbn in Hx1. rewrite lookup_insert_eq in Hx1. by simplify_eq.
Qed.

Lemma invalidate_fenced agent newer reason b :
  broker_ok b → fenced agent newer (invalidate_agent agent newer reason b).1.
Proof.
  intros Hok. unfold invalidate_agent. destruct (raise_fence_ok agent newer b Hok) as (Hok1 & _ & _).
  set (b1 := set_generation _ b) in *.
  assert (Hobj : ∀ c, c ∈ works b1 → is_Some (objs b1 !! c)) by (intros c (x & ? & _)%(bo_works _ Hok1); by exists x).
  pose proof (invalidate_loop_good agent newer reason b1 (works b1) b1 [] (good_refl _ Hok1)) as (Hg & E2 & _ & Hgen & _).
  pose proof (invalidate_loop_ends agent newer reason (works b1) b1 [] Hok1 ltac:(constructor) Hobj) as Hends.
  destruct (fold_left (invalidate_one agent newer reason) (works b1) (b1, [])) as [b2 tasks]. cbn in *.
  split; cbn.
  - rewrite Hgen, lookup_insert_eq. eexists. split; [done | lia].
  - intros c x Hx Ha Ht. destruct (Z.lt_ge_cases (w_generation x) newer) as [Hlt |]; [| done]. exfalso.
    assert (Hin : c ∈ works b1); [| rewrite (Hends c x Hin Hx Ha Hlt) in Ht; done].
    apply (bo_works _ Hok1). destruct (objs b1 !! c) as [x0 |] eqn:Hx0.
    + exists x0. split; [done |]. destruct (be_objs _ _ E2 c x0 Hx0) as (x' & ? & E). simplify_eq.
      destruct (is_terminal_state (w_state x0)) eqn:Ht0; [| done]. rewrite (proj1 (ev_final _ _ E Ht0)) in Ht. congruence.
    + pose proof (be_new _ _ E2 c x (Z.max (default 0%Z (generation b !! agent)) newer) Hx0 Hx) as Hnew.
      cbn in Hnew. rewrite Ha, lookup_insert_eq in Hnew. specialize (Hnew eq_refl). lia.
Qed.

(** The generation fence holds for good.  Once [invalidate_agent] has run
    with a generation, no live claim of that agent is older, then or in any
    later state: waiters from before the fence never receive work. *)
Theorem generation_fence mb w agent newer reason w' c x :
  reachable mb w →
  rtc step {| w_broker := (invalidate_agent agent newer reason (w_broker w)).1;
              w_tasks := w_tasks w ++ (invalidate_agent agent newer reason (w_broker w)).2 |} w' →
  c ∈ works (w_broker w') → objs (w_broker w') !! c = Some x → w_agent_id x = agent →
  (newer ≤ w_generation x)%Z.
Proof.
  intros Hr Hs Hc Hx Ha. destruct (reachable_ok mb w Hr) as [Hok _].
  set (w1 := {| w_broker := _ |}) in *.
  assert (Hstep : step w w1).
  { apply (step_call (Invalidate agent newer reason) 0 w _ _ None); [done |]. cbn. by destruct (invalidate_agent _ _ _ _). }
  destruct (step_ok _ _ Hok Hstep) as [Hok1 _]. destruct (steps_ok _ _ Hok1 Hs) as [[Hok' _] E].
  pose proof (fenced_evolves agent newer _ _ E (invalidate_fenced agent newer reason _ (proj1 Hok))) as [_ Hf].
  apply (bo_works _ Hok') in Hc as (x' & ? & Ht). simplify_eq. by apply (Hf c).
Qed.

(** ** Uploads *)

Definition upload_of (c : Call) : option (agent_id * string * Z) :=
  match c with
  | StartResponse a c g _ _ | Write a c g _ | Finish a c g | Fail_ a c g _ => Some (a, c, g)
  | _ => None
  end.

(** The effect of an upload accepted in time on live work [x]. *)
Definition upload_effect (call : Call) (c : string) (x : Work) (b b' : Broker) (tasks : list Task) : Prop :=
  match call with
  | StartResponse _ _ _ status ct =>
      w_state x = Claimed ∧ b' = set_objs (<[c := responding status ct x]> (objs b)) b ∧ tasks = []
  | Write _ _ _ chunk =>
      w_state x = Responding ∧ b' = b ∧ (nbytes chunk ≤ MAX_RESPONSE_CHUNK_BYTES)%Z ∧
      tasks = if bool_decide (chunk = []) then [] else [TWrite c chunk (w_deadline x)]
  | Finish _ _ _ =>
      w_state x = Responding ∧ objs b' = <[c := ended Finished None x]> (objs b) ∧ tasks = [TClose c "eof"]
  | Fail_ _ _ _ code =>
      code ∈ FAIL_CODES ∧ objs b' = <[c := ended Failed (Some code) x]> (objs b) ∧ tasks = [TClose c code]
  | _ => False
  end.

Lemma check_spec agent c gen b x :
  broker_ok b → check agent c gen b = inr x →
  objs b !! c = Some x ∧ c ∈ works b ∧ is_terminal_state (w_state x) = false ∧ w_agent_id x = agent ∧ w_generation x = gen.
Proof.
  intros Hok Hc. unfold check in Hc. destruct (bool_decide (c ∈ works b)) eqn:Hin; reflect_bools.
  - pose proof Hin as (w & Hw & Ht)%(bo_works _ Hok). rewrite Hw in Hc.
    destruct (bool_decide (w_agent_id w = agent)) eqn:Ha; reflect_bools; [| done].
    destruct (Z.eqb_spec (w_generation w) gen); [| done]. by simplify_eq/=.
  - by destruct (od_get c (terminal_class b)) as [[] |].
Qed.

Lemma terminate_live c st reason b x :
  objs b !! c = Some x → is_terminal_state (w_state x) = false →
  ∃ b', terminate c st reason b = (b', true) ∧ objs b' = <[c := ended st reason x]> (objs b).
Proof. intros Hx Ht. unfold terminate. rewrite Hx, Ht. eexists. by split. Qed.

(** C20: uploads are authorised and atomic.  Each of the four agent calls
    (start, write, finish, fail) either is refused with an exception and changes
    nothing, or names a live claim of that very agent and generation.  Past the
    deadline it then ends the claim as expired and says so; in time it has
    exactly its own effect, and only in the state that allows it: one start,
    writes and one finish after the start, a failure with a known code at any
    time. *)
Theorem upload_authorised mb w call agent c gen now b' tasks r :
  reachable mb w → upload_of call = Some (agent, c, gen) →
  run_call call now (w_broker w) = (b', tasks, r) →
  b' = w_broker w ∧ tasks = [] ∧ r ≠ None ∨
  ∃ x, objs (w_broker w) !! c = Some x ∧ c ∈ works (w_broker w) ∧ w_agent_id x = agent ∧ w_generation x = gen ∧
    ((w_deadline x <= now)%Q ∧ r = Some expired_error ∧ tasks = [TClose c DEADLINE_EXPIRED] ∧
       objs b' = <[c := ended Failed (Some DEADLINE_EXPIRED) x]> (objs (w_broker w)) ∨
     (now < w_deadline x)%Q ∧ r = None ∧ upload_effect call c x (w_broker w) b' tasks).
Proof.
  intros Hr Hu Hrun. destruct (reachable_ok mb w Hr) as [[Hok _] _]. set (b := w_broker w) in *.
  assert (Hgen : ∀ body : Work → Broker → Outcome_,
    (∀ x, (∃ e, body x b = (b, [], Some e)) ∨
       (objs b !! c = Some x → is_terminal_state (w_state x) = false →
        (body x b).2 = None ∧ upload_effect call c x b (body x b).1.1 (body x b).1.2)) →
    upload agent c gen now body b = (b', tasks, r) →
    b' = b ∧ tasks = [] ∧ r ≠ None ∨
    ∃ x, objs b !! c = Some x ∧ c ∈ works b ∧ w_agent_id x = agent ∧ w_generation x = gen ∧
      ((w_deadline x <= now)%Q ∧ r = Some expired_error ∧ tasks = [TClose c DEADLINE_EXPIRED] ∧
         objs b' = <[c := ended Failed (Some DEADLINE_EXPIRED) x]> (objs b) ∨
       (now < w_deadline x)%Q ∧ r = None ∧ upload_effect call c x b b' tasks)).
  { intros body Hbody Hup. unfold upload in Hup. destruct (check agent c gen b) as [e | x] eqn:Hc.
    { unfold reject in Hup. left. by simplify_eq. }
    apply check_spec in Hc as (Hx & Hin & Ht & Ha & Hg); [| done].
    destruct (w_deadline x <=?q now) eqn:Hd; reflect_bools.
    - destruct (terminate_live c Failed (Some DEADLINE_EXPIRED) b x Hx Ht) as (b1 & Htm & Ho). rewrite Htm in Hup.
      simplify_eq. right. exists x. split_and!; try done. by left.
    - destruct (Hbody x) as [[e He] | Heff]; [left; rewrite He in Hup; by simplify_eq |].
      destruct (Heff Hx Ht) as [H1 H2]. rewrite Hup in H1, H2. cbn in H1, H2. subst r. right. exists x. split_and!; try done. by right. }
  clearbody b. destruct call; cbn in Hu; simplify_eq; cbn in Hrun.
  - unfold start_response in Hrun. apply (Hgen _) in Hrun; [done |]. intros x.
    destruct (bool_decide (w_state x = Claimed)) eqn:Hs; reflect_bools; cbn; [by right | left; by eexists].
  - unfold write in Hrun. destruct (Z.ltb_spec MAX_RESPONSE_CHUNK_BYTES (nbytes chunk)).
    { unfold reject in Hrun. left. by simplify_eq. }
    apply (Hgen _) in Hrun; [done |]. intros x.
    destruct (bool_decide (w_state x = Responding)) eqn:Hs; reflect_bools; cbn; [by right | left; by eexists].
  - unfold finish in Hrun. apply (Hgen _) in Hrun; [done |]. intros x.
    destruct (bool_decide (w_state x = Responding)) eqn:Hs; reflect_bools; cbn; [right | left; by eexists].
    intros Hx Ht. destruct (terminate_live c Finished None b x Hx Ht) as (b1 & Htm & Ho). by rewrite Htm.
  - unfold fail in Hrun. destruct (bool_decide (code ∈ FAIL_CODES)) eqn:Hcode; reflect_bools; cbn in Hrun.
    2: { unfold reject in Hrun. left. by simplify_eq. }
    apply (Hgen _) in Hrun; [done |]. intros x. right.
    intros Hx Ht. destruct (terminate_live c Failed (Some code) b x Hx Ht) as (b1 & Htm & Ho). by rewrite Htm.
Qed.

(** A late upload is told apart.  In every reachable state [_check] answers:
    for a live claim, the work to its owner at its generation, a conflict to any
    other agent and "unknown" to another generation; for a remembered ended
    claim, "duplicate" exactly when it finished and "gone" otherwise; for
    anything else "unknown".  Ending a claim makes it remembered at once. *)
Theorem late_upload_classified mb w agent c gen :
  reachable mb w →
  let b := w_broker w in
  match objs b !! c with
  | Some x =>
      if is_terminal_state (w_state x) then
        ∃ msg code, check agent c gen b = inl (RelayStateError msg (Some code)) ∧
          (c ∈ od_keys (terminal_class b) → code = if bool_decide (w_state x = Finished) then EDuplicate else EGone) ∧
          (c ∉ od_keys (terminal_class b) → code = EUnknown)
      else
        (check agent c gen b =
          if bool_decide (w_agent_id x = agent) then
            if (w_generation x =? gen)%Z then inr x else inl (RelayStateError "stale generation" (Some EUnknown))
          else inl (RelayStateError "wrong owner" (Some EConflict))) ∧
        ∀ st reason b', is_terminal_state st = true → terminate c st reason b = (b', true) →
          c ∈ od_keys (terminal_class b')
  | None => check agent c gen b = inl (RelayStateError "unknown claim" (Some EUnknown))
  end.
Proof.
  intros Hr b. destruct (reachable_ok mb w Hr) as [[Hok _] _]. fold b in Hok. unfold check.
  destruct (objs b !! c) as [x |] eqn:Hx.
  - destruct (is_terminal_state (w_state x)) eqn:Ht.
    + rewrite bool_decide_eq_false_2 by (intros (x' & ? & ?)%(bo_works _ Hok); congruence).
      destruct (od_get c (terminal_class b)) as [k |] eqn:Hk.
      * destruct (bo_class _ Hok c k Hk) as (x' & ? & _ & ->). simplify_eq.
        assert (c ∈ od_keys (terminal_class b)) by (apply od_get_is_Some; by eexists).
        destruct (w_state x); cbn in *; try done; do 2 eexists; by split_and!.
      * apply od_get_None in Hk. do 2 eexists. by split_and!.
    + assert (Hin : c ∈ works b) by (apply (bo_works _ Hok); by exists x).
      rewrite bool_decide_eq_true_2 by done. split.
      * destruct (bool_decide (w_agent_id x = agent)); cbn; [| done]. by destruct (w_generation x =? gen)%Z.
      * intros st reason b' Hst Htm. unfold terminate in Htm. rewrite Hx, Ht in Htm. simplify_eq. cbn.
        apply od_get_is_Some. rewrite remember_new; [by eexists | done | apply Hok].
  - rewrite bool_decide_eq_false_2 by (intros (x' & ? & ?)%(bo_works _ Hok); congruence).
    destruct (od_get c (terminal_class b)) as [k |] eqn:Hk; [| done].
    destruct (bo_class _ Hok c k Hk) as (x' & ? & _). congruence.
Qed.

(** ** A run *)

Definition freshb (c : Call) (b : Broker) : bool :=
  match c with
  | Offer _ _ _ _ id => bool_decide (objs b !! id = None)
  | ClaimCall _ _ f => bool_decide (futures b !! f = None)
  | _ => true
  end.

(** Calls at time 0, each followed by its awaits in order. *)
Fixpoint drain (fuel : nat) (w : World) : World :=
  match fuel, w_tasks w with
  | S fuel, t :: rest =>
      match run_task t 0 (w_broker w) with
      | Some (b', tasks) => drain fuel {| w_broker := b'; w_tasks := rest ++ tasks |}
      | None => w
      end
  | _, _ => w
  end.

Fixpoint calls (cs : list Call) (w : World) : option World :=
  match cs with
  | [] => Some w
  | c :: cs =>
      if freshb c (w_broker w) then
        let '(b', tasks, _) := run_call c 0 (w_broker w) in
        calls cs (drain 4 {| w_broker := b'; w_tasks := w_tasks w ++ tasks |})
      else None
  end.

Lemma drain_steps fuel w : rtc step w (drain fuel w).
Proof.
  revert w; induction fuel as [| fuel IH]; intros w; [done |]. cbn. destruct (w_tasks w) as [| t rest] eqn:Ht; [done |].
  destruct (run_task t 0 (w_broker w)) as [[b' tasks] |] eqn:Hr; [| done]. eapply rtc_l; [| apply IH].
  by apply (step_task t 0 w [] rest b' tasks).
Qed.

Lemma calls_steps cs w w' : calls cs w = Some w' → rtc step w w'.
Proof.
  revert w; induction cs as [| c cs IH]; intros w; cbn; [by intros [= <-] |].
  destruct (freshb c (w_broker w)) eqn:Hf; [| done].
  destruct (run_call c 0 (w_broker w)) as [[b' tasks] r] eqn:Hr. intros Hc. eapply rtc_l.
  - apply (step_call c 0 w b' tasks r); [| done]. destruct c; cbn in *; reflect_bools; done.
  - etransitivity; [apply (drain_steps 4) | by apply IH].
Qed.

Definition demo_request : RelayRequest := {|
  rq_method := "POST"; rq_path := "/v1/embeddings"; rq_content_type := "application/json"; rq_body := [] |}.

(** Agent [a] claims at generation 3, is offered a request, starts, sends two
    chunks and finishes; the client reads one. *)
Definition demo_live : World :=
  default (start 100) (calls [ClaimCall "a" 3 0; Offer "a" 8080 demo_request 9 "c";
    StartResponse "a" "c" 3 200 "text/event-stream"; Write "a" "c" 3 ["000"; "001"]%byte] (start 100)).
Definition demo_done : World :=
  default (start 100) (calls [Write "a" "c" 3 ["002"%byte]; Finish "a" "c" 3; Next "c"] demo_live).

Lemma demo_live_reachable : reachable 100 demo_live.
Proof. apply (calls_steps [ClaimCall "a" 3 0; Offer "a" 8080 demo_request 9 "c";
    StartResponse "a" "c" 3 200 "text/event-stream"; Write "a" "c" 3 ["000"; "001"]%byte]). vm_compute. reflexivity. Qed.

Lemma demo_done_steps : rtc step demo_live demo_done.
Proof. apply (calls_steps [Write "a" "c" 3 ["002"%byte]; Finish "a" "c" 3; Next "c"]). vm_compute. reflexivity. Qed.

(** The observations the examples need of these states. *)
Lemma demo_live_work :
  ∃ x, objs (w_broker demo_live) !! "c" = Some x ∧ w_state x = Responding ∧ w_agent_id x = "a".
Proof.
  assert (H : (λ x, (w_state x, w_agent_id x)) <$> objs (w_broker demo_live) !! "c" = Some (Responding, "a"))
    by (vm_compute; reflexivity).
  apply fmap_Some in H as (x & Hx & He). injection He as Hs Ha. exists x. exact (conj Hx (conj (eq_sym Hs) (eq_sym Ha))).
Qed.

Lemma demo_done_work : ∃ x, objs (w_broker demo_done) !! "c" = Some x ∧ w_state x = Finished.
Proof.
  assert (H : w_state <$> objs (w_broker demo_done) !! "c" = Some Finished) by (vm_compute; reflexivity).
  apply fmap_Some in H as (x & Hx & Hs). exists x. exact (conj Hx (eq_sym Hs)).
Qed.

Lemma relay_invariant_witness :
  broker_ok (w_broker demo_live) ∧ works (w_broker demo_live) = ["c"].
Proof. split; [apply (relay_invariant 100 demo_live), demo_live_reachable | vm_compute; reflexivity]. Defined.

Lemma claim_outcome_final_witness :
  ∃ x x', objs (w_broker demo_live) !! "c" = Some x ∧ objs (w_broker demo_done) !! "c" = Some x' ∧ evolves x x' ∧
    w_state x = Responding.
Proof.
  destruct demo_live_work as (x & Hx & Hs & _).
  destruct (claim_outcome_final 100 demo_live demo_done "c" x demo_live_reachable demo_done_steps Hx) as (x' & Hx' & E & _).
  exists x, x'. exact (conj Hx (conj Hx' (conj E Hs))).
Defined.

Definition demo_fenced : World := {|
  w_broker := (invalidate_agent "a" 7 "revoked" (w_broker demo_live)).1;
  w_tasks := w_tasks demo_live ++ (invalidate_agent "a" 7 "revoked" (w_broker demo_live)).2 |}.

Lemma demo_fenced_work :
  ∃ x, objs (w_broker demo_fenced) !! "c" = Some x ∧ w_agent_id x = "a" ∧ w_generation x = 3%Z.
Proof.
  assert (H : (λ x, (w_agent_id x, w_generation x)) <$> objs (w_broker demo_fenced) !! "c" = Some ("a", 3%Z))
    by (vm_compute; reflexivity).
  apply fmap_Some in H as (x & Hx & He). injection He as Ha Hg. exists x. exact (conj Hx (conj (eq_sym Ha) (eq_sym Hg))).
Qed.

(** The generation-3 claim is over: were it still live it would be at least at 7. *)
Lemma generation_fence_witness : "c" ∉ works (w_broker demo_fenced) ∧ works (w_broker demo_live) = ["c"].
Proof.
  split; [| vm_compute; reflexivity]. intros Hc. destruct demo_fenced_work as (x & Hx & Ha & Hg).
  pose proof (generation_fence 100 demo_live "a" 7 "revoked" demo_fenced "c" x demo_live_reachable (rtc_refl _ _) Hc Hx Ha).
  lia.
Defined.

Lemma upload_authorised_witness :
  let r := run_call (Finish "b" "c" 3) 0 (w_broker demo_live) in r.1.1 = w_broker demo_live ∧ r.1.2 = [] ∧ r.2 ≠ None.
Proof.
  destruct (run_call (Finish "b" "c" 3) 0 (w_broker demo_live)) as [[b' tasks] r] eqn:Hrun. cbn [fst snd].
  destruct (upload_authorised 100 demo_live (Finish "b" "c" 3) "b" "c" 3 0 b' tasks r demo_live_reachable eq_refl Hrun)
    as [? | (x & Hx & _ & Ha & _)]; [assumption |]. exfalso.
  destruct demo_live_work as (x' & Hx' & _ & Ha'). rewrite Hx in Hx'. injection Hx' as ->. congruence.
Defined.

Lemma late_upload_classified_witness :
  ∃ msg, check "a" "c" 3 (w_broker demo_done) = inl (RelayStateError msg (Some EDuplicate)).
Proof.
  assert (Hr : reachable 100 demo_done) by (unfold reachable; transitivity demo_live; [apply demo_live_reachable | apply demo_done_steps]).
  pose proof (late_upload_classified 100 demo_done "a" "c" 3 Hr) as Hc. cbv zeta in Hc.
  destruct demo_done_work as (x & Hx & Hs). rewrite Hx, Hs in Hc. cbn [is_terminal_state] in Hc.
  destruct Hc as (msg & code & Hc & Hin & _). exists msg. rewrite Hc.
  assert (Hk : bool_decide ("c" ∈ od_keys (terminal_class (w_broker demo_done))) = true) by (vm_compute; reflexivity).
  rewrite (Hin (proj1 (bool_decide_eq_true _) Hk)). by rewrite bool_decide_eq_true_2.
Defined.
