(* ===== verification/Tasks.v ===== *)
(** * Concurrent request handlers

    A coroutine is a tree of calls: it performs one call, is suspended, and
    continues with the answer when the event loop resumes it.  Many of them share
    one state and interleave between calls in any way; some may be cancelled.
    Programs are verified one at a time by rely and guarantee: between two calls of
    a program the state changes only as its rely relation allows, and before each
    call the program must establish the call's precondition. *)

From S2P Require Export Prelude.

Inductive Prog (C : Type → Type) (A : Type) : Type :=
  | Ret (a : A)
  | Do {X : Type} (c : C X) (k : X → Prog C A).
Arguments Ret {C A} a.
Arguments Do {C A X} c k.

Fixpoint prog_bind {C : Type → Type} {A B : Type} (p : Prog C A) (f : A → Prog C B) : Prog C B :=
  match p with
  | Ret a => f a
  | Do c k => Do c (λ x, prog_bind (k x) f)
  end.

(** Programs that may end early with an answer [R] (an HTTP error, a [return]
    from within a helper). *)
Definition Handler (C : Type → Type) (R A : Type) : Type := Prog C (R + A).

#[export] Instance handler_ret {C R} : MRet (Handler C R) := λ A a, Ret (inr a).
#[export] Instance handler_bind {C R} : MBind (Handler C R) := λ A B f p,
  prog_bind p (λ r, match r with inl e => Ret (inl e) | inr a => f a end).

Definition call {C : Type → Type} {R X : Type} (c : C X) : Handler C R X := Do c (λ x, Ret (inr x)).
Definition respond_with {C : Type → Type} {R A : Type} (r : R) : Handler C R A := Ret (inl r).

Definition run_handler {C : Type → Type} {R : Type} (p : Handler C R R) : Prog C R :=
  prog_bind p (λ r, match r with inl e => Ret e | inr a => Ret a end).

Section Worlds.
  Context {C : Type → Type} {S Env Req Resp : Type}.
  Context (exec : ∀ X, nat → Env → C X → S → option (S * X)).
  Context (env_ok : Env → S → Prop) (background : S → S → Prop) (cancelled : nat → S → S).
  Context (handler : Req → Prog C Resp) (arrives : Req → S → Prop).

(** The shared state and every task with the request it serves. *)
Record World := { g_state : S; g_tasks : gmap nat (Req * Prog C Resp) }.

Inductive wstep : World → World → Prop :=
  | wstep_arrive i r w :
      g_tasks w !! i = None → arrives r (g_state w) →
      wstep w {| g_state := g_state w; g_tasks := <[i := (r, handler r)]> (g_tasks w) |}
  | wstep_call i r X (c : C X) k env s' x w :
      g_tasks w !! i = Some (r, Do c k) → env_ok env (g_state w) →
      exec X i env c (g_state w) = Some (s', x) →
      wstep w {| g_state := s'; g_tasks := <[i := (r, k x)]> (g_tasks w) |}
  | wstep_cancel i r p w :
      g_tasks w !! i = Some (r, p) →
      wstep w {| g_state := cancelled i (g_state w); g_tasks := delete i (g_tasks w) |}
  | wstep_background s' w :
      background (g_state w) s' →
      wstep w {| g_state := s'; g_tasks := g_tasks w |}.

(** *** Rely and guarantee *)

Context (Inv : S → Prop) (grows : S → S → Prop) (rely : nat → S → S → Prop) `{rely_pre : !∀ i, PreOrder (rely i)}.
Context (pre : Req → nat → ∀ X, C X → S → Prop) (post : Req → Resp → S → Prop).

(** [ok r i Q p s]: started in [s], with the other tasks acting as [rely i] says,
    [p] meets the precondition of every call it makes and [Q] when it returns. *)
Fixpoint ok {A : Type} (r : Req) (i : nat) (Q : A → S → Prop) (p : Prog C A) (s : S) : Prop :=
  match p with
  | Ret a => ∀ s1, rely i s s1 → Inv s1 → Q a s1
  | Do c k => ∀ s1, rely i s s1 → Inv s1 →
      pre r i _ c s1 ∧
      ∀ env s2 x, env_ok env s1 → exec _ i env c s1 = Some (s2, x) → Inv s2 → grows s1 s2 → ok r i Q (k x) s2
  end.

(** *** Rules for programs *)

Lemma ok_rely {A} r i (Q : A → S → Prop) p s s' : ok r i Q p s → rely i s s' → ok r i Q p s'.
Proof.
  destruct p as [a | X c k]; cbn; intros Hp Hr s1 Hr1; apply Hp; by etransitivity.
Qed.

Lemma ok_ret {A} r i (Q : A → S → Prop) a s :
  (∀ s1, rely i s s1 → Inv s1 → Q a s1) → ok r i Q (Ret a) s.
Proof. done. Qed.

Lemma ok_mono {A} r i (Q Q' : A → S → Prop) p s :
  ok r i Q p s → (∀ a s, Inv s → Q a s → Q' a s) → ok r i Q' p s.
Proof.
  revert s; induction p as [a | X c k IH]; cbn; intros s Hp HQ s1 Hr HI; [by apply HQ, Hp |].
  destruct (Hp s1 Hr HI) as [Hpre Hk]. split; [done |]. intros env s2 x He Hx HI2 Hg. apply IH; [| done]. by eapply Hk.
Qed.

(** What every step keeps is still there in the end. *)
Lemma ok_frame {A} r i (Q : A → S → Prop) (K : S → Prop) p s :
  (∀ s s', rely i s s' → K s → K s') → (∀ s s', grows s s' → K s → K s') →
  ok r i Q p s → K s → ok r i (λ a s', Q a s' ∧ K s') p s.
Proof.
  intros Hr Hg. revert s; induction p as [a | X c k IH]; cbn; intros s Hp HK s1 Hs1 HI; [eauto |].
  destruct (Hp s1 Hs1 HI) as [Hpre Hk]. split; [done |]. intros env s2 x He Hx HI2 Hg2. eauto.
Qed.

Lemma ok_prog_bind {A B} r i (Q : B → S → Prop) (p : Prog C A) (f : A → Prog C B) s :
  ok r i (λ a s', ok r i Q (f a) s') p s → ok r i Q (prog_bind p f) s.
Proof.
  revert s; induction p as [a | X c k IH]; cbn; intros s Hp.
  - destruct (f a) as [b | X c k] eqn:Hf; cbn; intros s1 Hr HI; specialize (Hp s1 Hr HI); rewrite ?Hf in Hp; by apply Hp.
  - intros s1 Hr HI. destruct (Hp s1 Hr HI) as [Hpre Hk]. split; [done |].
    intros env s2 x He Hx HI2 Hg. apply IH. by eapply Hk.
Qed.

(** Handlers: an early answer must meet the request's postcondition, for good. *)
Definition answers (r : Req) (i : nat) (e : Resp) (s : S) : Prop := ∀ s1, rely i s s1 → Inv s1 → post r e s1.

Definition okh {A : Type} (r : Req) (i : nat) (Q : A → S → Prop) (p : Handler C Resp A) (s : S) : Prop :=
  ok r i (λ x s', match x with inl e => answers r i e s' | inr a => Q a s' end) p s.

Lemma ok_run_handler r i (p : Handler C Resp Resp) s :
  okh r i (answers r i) p s → ok r i (post r) (run_handler p) s.
Proof.
  intros Hp. apply ok_prog_bind. eapply ok_mono; [done |]. by intros [e | a] s' HI HQ.
Qed.

Lemma okh_mono {A} r i (Q Q' : A → S → Prop) (p : Handler C Resp A) s :
  okh r i Q p s → (∀ a s, Inv s → Q a s → Q' a s) → okh r i Q' p s.
Proof. intros Hp HQ. eapply ok_mono; [done |]. intros [e | a] s' HI; [done | by apply HQ]. Qed.

Lemma okh_rely {A} r i (Q : A → S → Prop) p s s' : okh r i Q p s → rely i s s' → okh r i Q p s'.
Proof. apply ok_rely. Qed.

Lemma okh_bind {A B} r i (Q : B → S → Prop) (p : Handler C Resp A) (f : A → Handler C Resp B) s :
  okh r i (λ a s', okh r i Q (f a) s') p s → okh r i Q (p ≫= f) s.
Proof.
  intros Hp. apply ok_prog_bind. eapply ok_mono; [done |]. intros [e | a] s' HI; [| done].
  cbn. intros HQ s1 Hr HI1 s2 Hr2. apply HQ. by etransitivity.
Qed.

Lemma okh_ret {A} r i (Q : A → S → Prop) a s : (∀ s1, rely i s s1 → Inv s1 → Q a s1) → okh r i Q (mret a) s.
Proof. done. Qed.

Lemma okh_respond {A} r i (Q : A → S → Prop) e s : answers r i e s → okh r i Q (respond_with e) s.
Proof. intros He s1 Hr HI s2 Hr2. apply He. by etransitivity. Qed.

Lemma okh_call {X} r i (Q : X → S → Prop) (c : C X) s :
  (∀ s1, rely i s s1 → Inv s1 →
     pre r i X c s1 ∧
     ∀ env s2 x, env_ok env s1 → exec X i env c s1 = Some (s2, x) → Inv s2 → grows s1 s2 →
       ∀ s3, rely i s2 s3 → Inv s3 → Q x s3) →
  okh r i Q (call c) s.
Proof. done. Qed.
(** *** Worlds *)

(** What the calls, the background and the handlers owe. *)
Record Sound : Prop := {
  so_call r i X (c : C X) env s s' x :
    Inv s → pre r i X c s → env_ok env s → exec X i env c s = Some (s', x) →
    Inv s' ∧ grows s s' ∧ ∀ j, j ≠ i → rely j s s';
  so_cancel i s : Inv s → Inv (cancelled i s) ∧ ∀ j, j ≠ i → rely j s (cancelled i s);
  so_background s s' : Inv s → background s s' → Inv s' ∧ ∀ j, rely j s s';
  so_handler r i s : Inv s → arrives r s → ok r i (post r) (handler r) s
}.

Context (sound : Sound).

Definition world_ok (w : World) : Prop :=
  Inv (g_state w) ∧ ∀ i r p, g_tasks w !! i = Some (r, p) → ok r i (post r) p (g_state w).

Lemma wstep_ok w w' : world_ok w → wstep w w' → world_ok w'.
Proof.
  intros [HI Hok]. destruct 1 as [i r w Hi Ha | i r X c k env s' x w Hi He Hx | i r p w Hi | s' w Hb]; cbn in *.
  - split; [done |]. intros j r' p'. cbn. rewrite lookup_insert_Some. intros [[<- [= <- <-]] | [_ Hj]]; [| by apply Hok].
    by apply (so_handler sound).
  - destruct (Hok i r _ Hi (g_state w)) as [Hpre Hk]; [done | done |].
    destruct (so_call sound r i X c env (g_state w) s' x) as (HI' & Hg & Hr); try done.
    split; [done |]. intros j r' p'. cbn. rewrite lookup_insert_Some. intros [[<- [= <- <-]] | [Hj Hp]].
    + by apply (Hk env s' x).
    + eapply ok_rely; [by apply Hok |]. by apply Hr.
  - destruct (so_cancel sound i _ HI) as [HI' Hr]. split; [done |]. intros j r' p'. cbn.
    rewrite lookup_delete_Some. intros [Hj Hp]. eapply ok_rely; [by apply Hok |]. by apply Hr.
  - destruct (so_background sound _ _ HI Hb) as [HI' Hr]. split; [done |]. intros j r' p' Hp. cbn in *.
    eapply ok_rely; [by apply Hok |]. apply Hr.
Qed.

(** The world before the first request. *)
Definition quiet (s : S) : World := {| g_state := s; g_tasks := ∅ |}.

Lemma reachable_world_ok s w : Inv s → rtc wstep (quiet s) w → world_ok w.
Proof.
  intros HI Hr. apply (rtc_ind_r (R := wstep) world_ok (quiet s)); [| | done].
  - split; [done |]. intros i r p. cbn. by rewrite lookup_empty.
  - intros w1 w2 _ Hs Hok. by eapply wstep_ok.
Qed.

(** Every call about to be made meets its precondition, every answer given meets
    its request's postcondition. *)
Lemma reachable_call s w i r X (c : C X) k :
  Inv s → rtc wstep (quiet s) w → g_tasks w !! i = Some (r, Do c k) → pre r i X c (g_state w).
Proof.
  intros HI Hr Hi. destruct (reachable_world_ok s w HI Hr) as [HI' Hok].
  by destruct (Hok i r _ Hi (g_state w)) as [Hpre _].
Qed.

Lemma reachable_answer s w i r a :
  Inv s → rtc wstep (quiet s) w → g_tasks w !! i = Some (r, Ret a) → post r a (g_state w).
Proof.
  intros HI Hr Hi. destruct (reachable_world_ok s w HI Hr) as [HI' Hok].
  by apply (Hok i r _ Hi (g_state w)).
Qed.

End Worlds.

Arguments World : clear implicits.
#[global] Arguments g_state {_ _ _ _}.
#[global] Arguments g_tasks {_ _ _ _}.

(** A program does not depend on what else its request carries. *)
Lemma ok_reindex {C : Type → Type} {S Env Req Req' A : Type} (exec : ∀ X, nat → Env → C X → S → option (S * X))
    env_ok (Inv : S → Prop) grows rely (pre : Req → nat → ∀ X, C X → S → Prop) (f : Req' → Req) r i
    (Q : A → S → Prop) p s :
  ok exec env_ok Inv grows rely pre (f r) i Q p s → ok exec env_ok Inv grows rely (λ r, pre (f r)) r i Q p s.
Proof.
  revert s; induction p as [a | X c k IH]; cbn; intros s Hp; [done |].
  intros s1 Hr HI. destruct (Hp s1 Hr HI) as [Hpre Hk]. split; [done |]. eauto.
Qed.
