(* ===== verification/HttpAuth.v ===== *)
(** * Bearer tokens

    Models [extract_bearer] of
    src/packages/fallow-coordinator/src/fallow_coordinator/httpauth.py, of which
    gateway/service.py and rag/query.py keep copies. *)

From S2P Require Export Bytes.

(** [authorization.partition(" ")] *)
Fixpoint partition_space (l : list ascii) : list ascii * list ascii :=
  match l with
  | [] => ([], [])
  | c :: l => if bool_decide (c = " "%char) then ([], l) else let '(a, b) := partition_space l in (c :: a, b)
  end.

Definition extract_bearer (authorization : option string) : option string :=
  match authorization with
  | None => None
  | Some a =>
      if bool_decide (a = "") then None
      else
        let '(scheme, token) := partition_space (String.list_ascii_of_string a) in
        let token := strip (String.string_of_list_ascii token) in
        if negb (bool_decide (lower (String.string_of_list_ascii scheme) = "bearer")) || bool_decide (token = "")
        then None else Some token
  end.

