(* ===== verification/Discovery.v ===== *)
(** * LAN discovery

    Models discovery/advertisement.py and discovery/mdns.py of
    src/packages/fallow-coordinator/src/fallow_coordinator: the service record a site publishes and the
    lifetime of its publication.  The resolver, the parser of addresses and the zeroconf library are arguments. *)

From S2P Require Export Bytes ODict.

(** ** The record *)

Definition SERVICE_TYPE : string := "_fallow._tcp.local.".
Definition TXT_VERSION : string := "1".
Definition MAX_LABEL_LENGTH : nat := 63.
Definition MAX_SITE_ID_BYTES : nat := 247.

Record Advertisement := { ad_site_id : string; ad_label : string; ad_addresses : list string; ad_port : Z; ad_interface : string }.

Definition instance_name (a : Advertisement) : string := ad_label a +:+ "." +:+ SERVICE_TYPE.
Definition server (a : Advertisement) : string := ad_label a +:+ ".local.".
Definition txt (a : Advertisement) : odict string := [("version", TXT_VERSION); ("site_id", ad_site_id a)].

(** Why [build_advertisement] raises; [NotAnAddress] is the [ValueError] of an address that does not parse. *)
Inductive AdvertiseError := TooLong | NoUsableCharacter | Unresolved | WildcardAddress | Ambiguous (addresses : list string) | NotAnAddress.

(** [len(site_id.encode("utf-8"))] of code points below 256 *)
Definition encoded_length (s : string) : nat :=
  sum_list ((λ c, if (Ascii.N_of_ascii c <? 128)%N then 1%nat else 2%nat) <$> String.list_ascii_of_string s).

Definition label_char (c : ascii) : bool :=
  let n := Ascii.N_of_ascii c in
  ((48 <=? n)%N && (n <=? 57)%N) || ((65 <=? n)%N && (n <=? 90)%N) || ((97 <=? n)%N && (n <=? 122)%N) || bool_decide (c = "-"%char).

Fixpoint lstrip_dash (l : list ascii) : list ascii :=
  match l with c :: rest => if bool_decide (c = "-"%char) then lstrip_dash rest else l | [] => [] end.

(** [.strip("-")] *)
Definition strip_dash (l : list ascii) : list ascii := reverse (lstrip_dash (reverse (lstrip_dash l))).

(** [_label_for] *)
Definition label_for (site_id : string) : AdvertiseError + string :=
  let folded := (λ c, if label_char c then c else "-"%char) <$> String.list_ascii_of_string site_id in
  let label := strip_dash (take MAX_LABEL_LENGTH (strip_dash folded)) in
  if bool_decide (label = []) then inl NoUsableCharacter else inr (String.string_of_list_ascii label).

(** What [ipaddress] says of an address. *)
Record Address := { addr_version : Z; addr_unspecified : bool; addr_text : string }.

(** [by_family.setdefault(version, [])], and the text appended unless it is there *)
Fixpoint add_address (version : Z) (text : string) (by_family : list (Z * list string)) : list (Z * list string) :=
  match by_family with
  | [] => [(version, [text])]
  | (v, texts) :: rest =>
      if bool_decide (v = version) then (v, if bool_decide (text ∈ texts) then texts else texts ++ [text]) :: rest
      else (v, texts) :: add_address version text rest
  end.

Section Resolve.
  Context (getaddrinfo : string → option (list string)) (ip_address : string → option Address).

(** The loop over the resolved entries *)
Fixpoint families (entries : list string) (by_family : list (Z * list string)) : AdvertiseError + list (Z * list string) :=
  match entries with
  | [] => inr by_family
  | entry :: entries =>
      match ip_address (str_partition "%" entry).1 with
      | None => inl NotAnAddress
      | Some a => if addr_unspecified a then inl WildcardAddress else families entries (add_address (addr_version a) (addr_text a) by_family)
      end
  end.

(** [_interface_addresses] *)
Definition interface_addresses (host : string) : AdvertiseError + list string :=
  match getaddrinfo host with
  | None => inl Unresolved
  | Some resolved =>
      match families resolved [] with
      | inl e => inl e
      | inr by_family =>
          if bool_decide (by_family = []) then inl Unresolved
          else
            let ambiguous := by_family ≫= λ p, if (1 <? length p.2)%nat then p.2 else [] in
            if negb (bool_decide (ambiguous = [])) then inl (Ambiguous ambiguous)
            else inr (omap (λ p, head p.2) (py_sorted fst by_family))
      end
  end.

(** [build_advertisement] *)
Definition build_advertisement (site_id host : string) (port : Z) : AdvertiseError + Advertisement :=
  if (MAX_SITE_ID_BYTES <? encoded_length site_id)%nat then inl TooLong
  else
    match label_for site_id with
    | inl e => inl e
    | inr label =>
        match interface_addresses host with
        | inl e => inl e
        | inr addresses =>
            inr {| ad_site_id := site_id; ad_label := label; ad_addresses := addresses; ad_port := port; ad_interface := host |}
        end
    end.
End Resolve.

(** ** The publication *)

(** The calls made to zeroconf. *)
Inductive Zc := ZOpen | ZRegister | ZUnregister | ZGoodbye | ZClose.

#[export] Instance Zc_eq_dec : EqDecision Zc.
Proof. solve_decision. Defined.

Record Advertiser := { av_published : option Advertisement; av_log : list Zc }.

Definition advertiser_start : Advertiser := {| av_published := None; av_log := [] |}.

(** What the calls of a registration do: the socket does not open, the registration fails as expected
    or raises something else, or all is well. *)
Inductive RegisterFate := OpenFails | RegisterRefused | RegisterBreaks | Registers.

(** [ZeroconfAdvertiser.register]; the flag says that it returned *)
Definition register (a : Advertisement) (fate : RegisterFate) (s : Advertiser) : Advertiser * bool :=
  match av_published s with
  | Some _ => (s, false)
  | None =>
      match fate with
      | OpenFails => (s, false)
      | RegisterRefused => ({| av_published := None; av_log := av_log s ++ [ZOpen; ZRegister; ZClose] |}, false)
      | RegisterBreaks => ({| av_published := None; av_log := av_log s ++ [ZOpen; ZRegister] |}, false)
      | Registers => ({| av_published := Some a; av_log := av_log s ++ [ZOpen; ZRegister] |}, true)
      end
  end.

Inductive UnregisterFate := UnregisterFails | GoodbyeFails | Unregisters.

(** [ZeroconfAdvertiser.unregister] *)
Definition unregister (fate : UnregisterFate) (s : Advertiser) : Advertiser * bool :=
  match av_published s with
  | None => (s, true)
  | Some _ =>
      ({| av_published := None;
          av_log := av_log s ++ [ZUnregister] ++ (match fate with UnregisterFails => [] | _ => [ZGoodbye] end) ++ [ZClose] |},
       match fate with Unregisters => true | _ => false end)
  end.

Inductive AdCall := CallRegister (a : Advertisement) (fate : RegisterFate) | CallUnregister (fate : UnregisterFate).

Definition ad_call (s : Advertiser) (c : AdCall) : Advertiser :=
  match c with CallRegister a fate => (register a fate s).1 | CallUnregister fate => (unregister fate s).1 end.

(** ** What is published *)

Lemma lstrip_dash_suffix l : lstrip_dash l `suffix_of` l.
Proof. induction l as [| c l IH]; [done |]. cbn. case_bool_decide; [by apply suffix_cons_r | done]. Qed.

Lemma lstrip_dash_head l : head (lstrip_dash l) ≠ Some "-"%char.
Proof. induction l as [| c l IH]; [done |]. cbn. case_bool_decide as Hc; [done |]. cbn. by intros [= ->]. Qed.

Lemma lstrip_dash_nil l : lstrip_dash l = [] ↔ Forall (λ c, c = "-"%char) l.
Proof.
  induction l as [| c l IH]; [done |]. cbn. rewrite Forall_cons. case_bool_decide as Hc; [rewrite IH; naive_solver |].
  split; [done | by intros [? _]].
Qed.

Lemma strip_dash_prefix l : strip_dash l `prefix_of` lstrip_dash l.
Proof.
  unfold strip_dash. destruct (lstrip_dash_suffix (reverse (lstrip_dash l))) as [k Hk]. exists (reverse k).
  rewrite <- reverse_app, <- Hk. by rewrite reverse_involutive.
Qed.

(** A stripped label begins and ends with no dash, and keeps only characters there were. *)
Lemma strip_dash_spec l :
  head (strip_dash l) ≠ Some "-"%char ∧ last (strip_dash l) ≠ Some "-"%char ∧ (length (strip_dash l) ≤ length l)%nat ∧
  (∀ c, c ∈ strip_dash l → c ∈ l) ∧ (strip_dash l = [] ↔ Forall (λ c, c = "-"%char) l).
Proof.
  pose proof (strip_dash_prefix l) as [k Hk]. destruct (lstrip_dash_suffix l) as [j Hj]. split_and!.
  - intros Hh. apply (lstrip_dash_head l). rewrite Hk. by destruct (strip_dash l).
  - unfold strip_dash. rewrite last_reverse. apply lstrip_dash_head.
  - apply (f_equal length) in Hj, Hk. rewrite length_app in Hj, Hk. lia.
  - intros c Hc. assert (Hin : c ∈ lstrip_dash l) by (rewrite Hk; set_solver). rewrite Hj. set_solver.
  - rewrite <- lstrip_dash_nil. split; [| intros Hn; unfold strip_dash; by rewrite Hn]. unfold strip_dash. intros Hn.
    apply (f_equal reverse) in Hn. rewrite reverse_involutive in Hn. apply lstrip_dash_nil in Hn. apply Forall_reverse in Hn. rewrite reverse_involutive in Hn.
    pose proof (lstrip_dash_head l) as Hh. destruct (lstrip_dash l) as [| c rest]; [done |]. apply Forall_cons in Hn as [-> _]. done.
Qed.

(** A DNS label. *)
Definition dns_label (l : list ascii) : Prop :=
  (1 ≤ length l ≤ 63)%nat ∧ Forall (λ c, label_char c = true) l ∧ head l ≠ Some "-"%char ∧ last l ≠ Some "-"%char.

Lemma label_for_spec site_id :
  match label_for site_id with
  | inr label => dns_label (String.list_ascii_of_string label)
  | inl _ => Forall (λ c, label_char c = true → c = "-"%char) (String.list_ascii_of_string site_id)
  end.
Proof.
  unfold label_for. set (folded := _ <$> _). destruct (strip_dash_spec folded) as (H1 & _ & _ & H4 & H5).
  destruct (strip_dash_spec (take MAX_LABEL_LENGTH (strip_dash folded))) as (T1 & T2 & T3 & T4 & T5).
  assert (Hfold : Forall (λ c, label_char c = true) folded).
  { apply Forall_forall. intros c Hc. apply list_elem_of_fmap in Hc as (d & -> & _). destruct (label_char d) eqn:Hd; done. }
  case_bool_decide as Hn.
  - apply T5 in Hn. assert (Hempty : strip_dash folded = []).
    { destruct (strip_dash folded) as [| c rest]; [done |]. cbn in Hn. apply Forall_cons in Hn as [-> _]. done. }
    apply H5 in Hempty. unfold folded in Hempty. rewrite Forall_fmap in Hempty. eapply Forall_impl; [exact Hempty |].
    intros c Hc Hl. cbn in Hc. by rewrite Hl in Hc.
  - rewrite String.list_ascii_of_string_of_list_ascii. split_and!; [| | | done | done].
    + destruct (strip_dash (take _ _)); [done | cbn; lia].
    + pose proof (firstn_le_length MAX_LABEL_LENGTH (strip_dash folded)) as Hle. rewrite T3. unfold take. exact Hle.
    + apply Forall_forall. intros c Hc. rewrite Forall_forall in Hfold. apply Hfold, H4.
      rewrite <- (take_drop MAX_LABEL_LENGTH (strip_dash folded)). apply elem_of_app. left. by apply T4.
Qed.

(** What the families hold. *)
Definition holds (bf : list (Z * list string)) (v : Z) (t : string) : Prop := ∃ ts, (v, ts) ∈ bf ∧ t ∈ ts.

Record families_ok (bf : list (Z * list string)) : Prop := {
  fo_keys : NoDup bf.*1;
  fo_texts : ∀ v ts, (v, ts) ∈ bf → ts ≠ []
}.

Lemma add_address_keys v t bf x : x ∈ (add_address v t bf).*1 ↔ x = v ∨ x ∈ bf.*1.
Proof.
  induction bf as [| [v' ts] bf IH]; cbn; [set_solver |]. case_bool_decide as Hv; cbn; [set_solver |]. rewrite !elem_of_cons, IH. naive_solver.
Qed.

Lemma add_address_ok v t bf : families_ok bf → families_ok (add_address v t bf).
Proof.
  intros [Hk Ht]. split.
  - clear Ht. induction bf as [| [v' ts] bf IH]; cbn in *; [apply NoDup_singleton |]. apply NoDup_cons in Hk as [Hn Hk].
    case_bool_decide as Hv; cbn; apply NoDup_cons; [done |]. split; [| by apply IH]. rewrite add_address_keys. naive_solver.
  - clear Hk. induction bf as [| [v' ts] bf IH]; cbn; intros w us; [intros [= -> ->]%list_elem_of_singleton; done |].
    case_bool_decide as Hv; rewrite elem_of_cons; intros [[= -> ->] | Hin].
    + case_bool_decide; [apply (Ht v' ts); left | by destruct ts].
    + apply (Ht w). by right.
    + apply (Ht v'). left.
    + apply (IH ltac:(intros; eapply Ht; by right) w us Hin).
Qed.

Lemma add_address_holds v t bf w u : NoDup bf.*1 → holds (add_address v t bf) w u ↔ (w = v ∧ u = t) ∨ holds bf w u.
Proof.
  unfold holds. induction bf as [| [v' ts] bf IH]; cbn; intros Hk.
  { split; [intros (ts & [= -> ->]%list_elem_of_singleton & ->%list_elem_of_singleton); by left |].
    intros [[-> ->] | (? & []%elem_of_nil & _)]. exists [t]. by rewrite !list_elem_of_singleton. }
  apply NoDup_cons in Hk as [Hn Hk].
  case_bool_decide as Hv; setoid_rewrite elem_of_cons; [subst v' |].
  - split.
    + intros (us & [[= -> ->] | Hin] & Hu); [| right; by eauto]. case_bool_decide; [right; by eauto |].
      apply elem_of_app in Hu as [Hu | ->%list_elem_of_singleton]; [right; by eauto | by left].
    + intros [[-> ->] | (us & [[= -> ->] | Hin] & Hu)]; [| | by eauto]; eexists; (split; [by left |]); case_bool_decide; set_solver.
  - specialize (IH Hk). split.
    + intros (us & [[= -> ->] | Hin] & Hu); [right; by eauto |]. destruct (proj1 IH) as [? | (us' & ? & ?)]; [by eauto | by left | right; by eauto].
    + intros [H | (us & [[= -> ->] | Hin] & Hu)]; [| by eauto |]; destruct (proj2 IH) as (us' & ? & ?); eauto.
Qed.

Section Published.
  Context (getaddrinfo : string → option (list string)) (ip_address : string → option Address).

(** An entry the resolver returned, as an address. *)
Definition resolves_to (entries : list string) (a : Address) : Prop := ∃ e, e ∈ entries ∧ ip_address (str_partition "%" e).1 = Some a.

Lemma families_spec entries bf bf' :
  families ip_address entries bf = inr bf' → families_ok bf →
  families_ok bf' ∧ (∀ a, resolves_to entries a → addr_unspecified a = false) ∧
  ∀ v t, holds bf' v t ↔ holds bf v t ∨ ∃ a, resolves_to entries a ∧ addr_version a = v ∧ addr_text a = t.
Proof.
  unfold resolves_to. revert bf; induction entries as [| e entries IH]; intros bf; cbn.
  { intros [= <-] Hok. split_and!; [done | intros a (e & []%elem_of_nil & _) |]. intros v t. split; [by left |].
    intros [? | (a & (e & []%elem_of_nil & _) & _)]. done. }
  destruct (ip_address _) as [a |] eqn:Ha; [| done]. destruct (addr_unspecified a) eqn:Hu; [done |]. intros Hf Hok.
  destruct (IH _ Hf (add_address_ok _ _ _ Hok)) as (Hok' & Hun & Hh). split_and!; [done | |].
  - intros b (e' & [-> | Hin]%elem_of_cons & Hb); [congruence | by apply Hun; exists e'].
  - intros v t. rewrite Hh, add_address_holds by apply Hok. setoid_rewrite elem_of_cons. split.
    + intros [[[-> ->] | ?] | (b & (e' & ? & ?) & ? & ?)]; [right; exists a; eauto 6 | by left | right; exists b; eauto 8].
    + intros [? | (b & (e' & [-> | ?] & Hb) & <- & <-)]; [by left; right | left; left; by simplify_eq | right; exists b; eauto 6].
Qed.

Lemma interface_addresses_spec host addrs :
  interface_addresses getaddrinfo ip_address host = inr addrs →
  ∃ resolved, getaddrinfo host = Some resolved ∧ addrs ≠ [] ∧ (∀ a, resolves_to resolved a → addr_unspecified a = false) ∧
    ∀ t, t ∈ addrs ↔ ∃ a, resolves_to resolved a ∧ addr_text a = t.
Proof.
  unfold interface_addresses. destruct (getaddrinfo host) as [resolved |]; [| done]. destruct (families ip_address resolved []) as [e | bf] eqn:Hf; [done |].
  destruct (families_spec resolved [] bf Hf) as ([Hk Ht] & Hun & Hh); [split; [apply NoDup_nil_2 | by intros ? ? ?%elem_of_nil] |].
  case_bool_decide as Hne; [done |]. case_bool_decide as Hamb; [| done]. intros [= <-]. exists resolved. split; [done |].
  assert (Hone : ∀ v ts, (v, ts) ∈ bf → ∃ t, ts = [t]).
  { intros v ts Hin. destruct ts as [| t [| t' ts]]; [by apply Ht in Hin | by exists t |]. exfalso.
    assert (Hbad : t ∈ bf ≫= λ p, if (1 <? length p.2)%nat then p.2 else []) by (apply list_elem_of_bind; exists (v, t :: t' :: ts); set_solver).
    rewrite Hamb in Hbad. by apply elem_of_nil in Hbad. }
  assert (Hmem : ∀ t, t ∈ omap (λ p : Z * list string, head p.2) (py_sorted fst bf) ↔ ∃ v, holds bf v t).
  { intros t. rewrite list_elem_of_omap. setoid_rewrite py_sorted_perm. unfold holds. split.
    - intros ([v ts] & Hin & Hh'). destruct (Hone v ts Hin) as [u ->]. injection Hh' as ->. exists v, [t]. set_solver.
    - intros (v & ts & Hin & Ht'). exists (v, ts). split; [done |]. destruct (Hone v ts Hin) as [u ->]. by apply list_elem_of_singleton in Ht' as ->. }
  split_and!; [| done |].
  - destruct bf as [| [v ts] bf]; [done |]. destruct (Hone v ts ltac:(left)) as [t ->]. intros Hnil.
    assert (Hin : t ∈ omap (λ p : Z * list string, head p.2) (py_sorted fst ((v, [t]) :: bf))) by (apply Hmem; exists v, [t]; set_solver).
    rewrite Hnil in Hin. by apply elem_of_nil in Hin.
  - intros t. rewrite Hmem. setoid_rewrite Hh. split.
    + intros (v & [(ts & []%elem_of_nil & _) | (a & ? & _ & ?)]). by exists a.
    + intros (a & ? & ?). exists (addr_version a). right. by exists a.
Qed.

(** What a site publishes on the LAN is a record its neighbours can use.  When the advertisement is built, its name is a DNS label of one
    to 63 letters, digits and inner dashes; its TXT entry fits in 255 bytes; the addresses are exactly those the
    configured interface resolves to, at least one and none a wildcard; and it carries nothing but the version and the site id.
    A site id is refused as unusable only when it has no letter or digit. *)
Theorem advertisement_usable site_id host port :
  match build_advertisement getaddrinfo ip_address site_id host port with
  | inr a =>
      dns_label (String.list_ascii_of_string (ad_label a)) ∧ (encoded_length site_id + 8 ≤ 255)%nat ∧
      txt a = [("version", "1"); ("site_id", site_id)] ∧ ad_port a = port ∧ ad_addresses a ≠ [] ∧
      ∃ resolved, getaddrinfo host = Some resolved ∧
        ∀ t, t ∈ ad_addresses a ↔ ∃ x, resolves_to resolved x ∧ addr_text x = t ∧ addr_unspecified x = false
  | inl NoUsableCharacter => Forall (λ c, label_char c = true → c = "-"%char) (String.list_ascii_of_string site_id)
  | inl _ => True
  end.
Proof.
  unfold build_advertisement. destruct (MAX_SITE_ID_BYTES <? _)%nat eqn:Hlen; [done |]. apply Nat.ltb_ge in Hlen.
  pose proof (label_for_spec site_id) as Hl. destruct (label_for site_id) as [e | label] eqn:Hlabel.
  { unfold label_for in Hlabel. case_bool_decide; [| done]. by injection Hlabel as <-. }
  destruct (interface_addresses _ _ host) as [e | addrs] eqn:Hi.
  { destruct e; try done. exfalso. unfold interface_addresses in Hi. destruct (getaddrinfo host) as [r |]; [| done].
    destruct (families ip_address r []) as [e | bf] eqn:Hf; [| by repeat case_bool_decide]. injection Hi as ->. clear -Hf.
    revert Hf. generalize (@nil (Z * list string)). induction r as [| x r IH]; cbn; [done |]. intros bf.
    destruct (ip_address _) as [a |]; [| done]. destruct (addr_unspecified a); [done | apply IH]. }
  destruct (interface_addresses_spec host addrs Hi) as (resolved & Hr & Hne & Hun & Hin). cbn.
  split; [exact Hl |]. split; [unfold MAX_SITE_ID_BYTES in Hlen; lia |]. split_and!; try done.
  exists resolved. split; [done |]. intros t. rewrite Hin. split; [intros (a & ? & ?) | intros (a & ? & ? & _)]; exists a; eauto.
Qed.
End Published.

(** ** The lifetime *)

(** Responders open after a log of calls. *)
Definition open_responders (log : list Zc) : Z :=
  (Z.of_nat (length (filter (λ z, z = ZOpen) log)) - Z.of_nat (length (filter (λ z, z = ZClose) log)))%Z.

Lemma open_app l l' : open_responders (l ++ l') = (open_responders l + open_responders l')%Z.
Proof. unfold open_responders. rewrite !filter_app, !length_app. lia. Qed.

Definition is_breaking (c : AdCall) : bool := match c with CallRegister _ RegisterBreaks => true | _ => false end.

Lemma ad_call_open s c :
  open_responders (av_log s) = (if av_published s then 1 else 0)%Z → is_breaking c = false →
  open_responders (av_log (ad_call s c)) = (if av_published (ad_call s c) then 1 else 0)%Z.
Proof.
  intros Hs Hc. destruct c as [a fate | fate]; cbn; [unfold register | unfold unregister]; destruct (av_published s) as [p |] eqn:Hp; cbn; rewrite ?Hp;
    try done; [destruct fate | destruct fate]; cbn; rewrite ?open_app, ?Hp; rewrite ?Hs; done.
Qed.

(** A coordinator never leaks its multicast responder.  Over every history of registrations and withdrawals, whichever of
    them fail in the ways the code expects, one responder is open while an advertisement is published and none otherwise; so a failed
    registration can be tried again, and withdrawing twice is harmless. *)
Theorem advertiser_balanced calls :
  Forall (λ c, is_breaking c = false) calls →
  let s := fold_left ad_call calls advertiser_start in
  open_responders (av_log s) = (if av_published s then 1 else 0)%Z.
Proof.
  intros Hc s. subst s. assert (Hs : open_responders (av_log advertiser_start) = (if av_published advertiser_start then 1 else 0)%Z) by done.
  revert Hs. generalize advertiser_start. induction Hc as [| c calls Hc _ IH]; intros s Hs; [done |]. cbn. apply IH. by apply ad_call_open.
Qed.

Definition demo_ad : Advertisement := {|
  ad_site_id := "lab"; ad_label := "lab"; ad_addresses := ["192.168.1.2"]; ad_port := 8330; ad_interface := "eth0" |}.

Lemma advertiser_balanced_witness :
  let calls := [CallRegister demo_ad RegisterRefused; CallRegister demo_ad Registers; CallRegister demo_ad Registers;
                CallUnregister GoodbyeFails; CallUnregister Unregisters] in
  let s := fold_left ad_call calls advertiser_start in
  open_responders (av_log s) = 0%Z ∧ av_log s = [ZOpen; ZRegister; ZClose; ZOpen; ZRegister; ZUnregister; ZGoodbye; ZClose].
Proof. intros calls s. split; [| reflexivity]. refine (advertiser_balanced calls _). repeat constructor. Defined.
