(* ===== verification/Registry.v ===== *)
(** * The agent registry

    Models src/packages/fallow-coordinator/src/fallow_coordinator/registry/:
    sqlite_registry.py ([SqliteRegistry]), mapping.py, tokens.py, tunnel_mode.py,
    records.py and config.py.  A table is its rows in insertion order, which is the
    order an unordered scan returns them in; columns that hold JSON are the values
    themselves; a timestamp column is the instant it denotes, a date column the day
    it denotes, counted from the epoch.  Each method is one
    committed step: most of them await between their statements and their COMMIT
    without a lock, on the one connection all methods share, and what another method's
    rollback or a cancellation does there is outside this model; [Conn] below takes the
    transactions apart for the methods that mint a token and refuse a registration.  SHA-256 is a parameter; random tokens and uuids are arguments. *)

From S2P Require Export Protocol ODict Bytes.

Inductive EnrollmentMode := LEGACY | SITE.
Inductive Transport := DIRECT | SITE_RELAY.

#[export] Instance EnrollmentMode_eq_dec : EqDecision EnrollmentMode.
Proof. solve_decision. Defined.
#[export] Instance Transport_eq_dec : EqDecision Transport.
Proof. solve_decision. Defined.

Definition transport_for_mode (mode : EnrollmentMode) : Transport :=
  if bool_decide (mode = SITE) then SITE_RELAY else DIRECT.

Definition mode_of (s : string) : option EnrollmentMode :=
  if bool_decide (s = "legacy") then Some LEGACY
  else if bool_decide (s = "site") then Some SITE
  else None.

Inductive RegistryError :=
  | RegValueError
  | RegIntegrityError
  | EnrollmentTokenError
  | ProtocolMismatchError (got expected : Z)
  | UnknownAgentError (agent : agent_id)
  | RevokedAgentError (agent : agent_id).

(** ** Configuration and records *)

Definition PROTOCOL_VERSION : Z := 1.
Definition TOKEN_ID_CHARS : nat := 12.
Definition DEFAULT_SUSPECT_AFTER_S : Q := 15.
Definition DEFAULT_OFFLINE_AFTER_S : Q := 45.

Record RegistryConfig := {
  rc_admin_key : string; rc_heartbeat_interval_s : Q; rc_idle_threshold_s : Q; rc_poll_interval_ms : Z;
  rc_vram_evict_after_s : Q; rc_bench_mode : bool; rc_suspect_after_s : Q; rc_offline_after_s : Q
}.

Definition default_registry_config (admin_key : string) : RegistryConfig := {|
  rc_admin_key := admin_key; rc_heartbeat_interval_s := 5; rc_idle_threshold_s := 120;
  rc_poll_interval_ms := 100; rc_vram_evict_after_s := 60; rc_bench_mode := false;
  rc_suspect_after_s := DEFAULT_SUSPECT_AFTER_S; rc_offline_after_s := DEFAULT_OFFLINE_AFTER_S |}.

Record AgentRow := {
  ar_hostname : string; ar_host : string; ar_caps : DeviceCaps; ar_device_token_hash : string;
  ar_state : AgentState; ar_last_seen : instant; ar_user_idle_s : Q; ar_mem_available_mb : Z;
  ar_gpus : list GpuStatus; ar_replicas : list ReplicaStatus; ar_serving_paused : bool;
  ar_predicted_idle_remaining_s : option Q; ar_predicted_idle_confidence : option Q;
  ar_enrollment_mode : EnrollmentMode; ar_transport : Transport; ar_presence_sequence : Z;
  ar_presence_generation : Z; ar_revoked_at : option instant; ar_registered_at : instant
}.

Record TokenRow := {
  tk_created_at : instant; tk_used_at : option instant; tk_mode : EnrollmentMode;
  tk_revoked_at : option instant
}.

Record ApiKeyRow := {
  ak_name : string; ak_model_allowlist : option (list model_id); ak_rpm_limit : option Z;
  ak_daily_limit : option Z; ak_created_at : instant; ak_revoked_at : option instant
}.

Record ModelRow := { mr_manifest : ModelManifest; mr_blob_path : string; mr_enabled : bool; mr_created_at : instant }.

Record ApiKeyInfo := {
  ki_name : string; ki_key_id : string; ki_model_allowlist : option (list model_id);
  ki_rpm_limit : option Z; ki_daily_limit : option Z; ki_is_admin : bool
}.

Record EnrollmentTokenInfo := { ti_token_id : string; ti_mode : EnrollmentMode; ti_state : string; ti_created_at : instant }.

Record RevokedAgentInfo := { ri_agent_id : agent_id; ri_hostname : string; ri_revoked_at : instant }.

Record ApiKeyQuotaSnapshot := {
  qs_key_id : string; qs_bucket_tokens : Q; qs_bucket_updated_at : instant; qs_day : Z;
  qs_daily_count : Z; qs_snapshotted_at : instant
}.

Record ModelRecord := { mo_manifest : ModelManifest; mo_blob_path : string; mo_enabled : bool }.

Record SiteFleetEntry := {
  sf_agent_id : agent_id; sf_enrollment_mode : EnrollmentMode; sf_transport : Transport;
  sf_heartbeat_age_s : Q; sf_presence_generation : Z; sf_revoked : bool
}.

Record RegisterRequest := { rr_enrollment_token : string; rr_protocol_version : Z; rr_caps : DeviceCaps }.

Record RegisterResponse := { rp_agent_id : agent_id; rp_device_token : string; rp_config : AgentConfig }.

Record RDb := {
  r_agents : odict AgentRow; r_tokens : odict TokenRow; r_api_keys : odict ApiKeyRow;
  r_quotas : odict ApiKeyQuotaSnapshot; r_models : odict ModelRow;
  r_assignments : list (model_id * agent_id)
}.

Definition empty_rdb : RDb := {|
  r_agents := []; r_tokens := []; r_api_keys := []; r_quotas := []; r_models := []; r_assignments := [] |}.

Definition on_agents f (d : RDb) : RDb := {|
  r_agents := f (r_agents d); r_tokens := r_tokens d; r_api_keys := r_api_keys d; r_quotas := r_quotas d;
  r_models := r_models d; r_assignments := r_assignments d |}.
Definition on_tokens f (d : RDb) : RDb := {|
  r_agents := r_agents d; r_tokens := f (r_tokens d); r_api_keys := r_api_keys d; r_quotas := r_quotas d;
  r_models := r_models d; r_assignments := r_assignments d |}.
Definition on_api_keys f (d : RDb) : RDb := {|
  r_agents := r_agents d; r_tokens := r_tokens d; r_api_keys := f (r_api_keys d); r_quotas := r_quotas d;
  r_models := r_models d; r_assignments := r_assignments d |}.
Definition on_quotas f (d : RDb) : RDb := {|
  r_agents := r_agents d; r_tokens := r_tokens d; r_api_keys := r_api_keys d; r_quotas := f (r_quotas d);
  r_models := r_models d; r_assignments := r_assignments d |}.
Definition on_models f (d : RDb) : RDb := {|
  r_agents := r_agents d; r_tokens := r_tokens d; r_api_keys := r_api_keys d; r_quotas := r_quotas d;
  r_models := f (r_models d); r_assignments := r_assignments d |}.
Definition on_assignments f (d : RDb) : RDb := {|
  r_agents := r_agents d; r_tokens := r_tokens d; r_api_keys := r_api_keys d; r_quotas := r_quotas d;
  r_models := r_models d; r_assignments := f (r_assignments d) |}.

Abbreviation R_eff := (Eff RDb RegistryError).

(** [UPDATE ... WHERE key = k] *)
Definition od_alter {A} (f : A → A) (k : string) (m : odict A) : odict A :=
  (λ p, if bool_decide (p.1 = k) then (p.1, f p.2) else p) <$> m.
#[global] Arguments od_alter : simpl never.

(** [rowcount != 1] after an update by primary key. *)
Definition missing {A} (k : string) (m : odict A) : bool := bool_decide (od_get k m = None).

(** ** Tokens *)

Definition is_hex (c : ascii) : bool :=
  let n := Ascii.N_of_ascii c in ((48 <=? n)%N && (n <=? 57)%N) || ((97 <=? n)%N && (n <=? 102)%N).

Definition normalize_token_id (raw : string) : RegistryError + string :=
  let candidate := lower (strip raw) in
  let cs := String.list_ascii_of_string candidate in
  if (length cs =? TOKEN_ID_CHARS)%nat && forallb is_hex cs then inr candidate else inl EnrollmentTokenError.

(** [s[:n]] and [substr(s, 1, n)] *)
Definition prefix_of (n : nat) (s : string) : string :=
  String.string_of_list_ascii (take n (String.list_ascii_of_string s)).

Definition token_state (used_at revoked_at : option instant) : string :=
  match revoked_at with
  | Some _ => "revoked"
  | None => match used_at with Some _ => "used" | None => "outstanding" end
  end.

Definition age_s (now last_seen : instant) : Q := (inject_Z (now - last_seen) / 1000000)%Q.

Section Registry.
  Context (sha256 : bytes → bytes) (config : RegistryConfig).

Definition hash_token (token : string) : string := to_hex (sha256 (String.list_byte_of_string token)).

Definition token_id (token : string) : string := prefix_of TOKEN_ID_CHARS (hash_token token).

Definition token_matches (presented stored_hash : string) : bool := bool_decide (hash_token presented = stored_hash).

(** ** Issuing and revoking *)

Definition create_enrollment_token (mode token : string) (now : instant) : R_eff string :=
  match mode_of mode with
  | None => raise RegValueError
  | Some m =>
      known ← gets (λ d, negb (missing (hash_token token) (r_tokens d)));
      if known : bool then raise RegIntegrityError
      else
        modify (on_tokens (λ t, t ++ [(hash_token token,
          {| tk_created_at := now; tk_used_at := None; tk_mode := m; tk_revoked_at := None |})])) ;;
        mret token
  end.

Definition list_enrollment_tokens (d : RDb) : list EnrollmentTokenInfo :=
  (λ p : string * TokenRow, {|
     ti_token_id := prefix_of TOKEN_ID_CHARS p.1; ti_mode := tk_mode p.2;
     ti_state := token_state (tk_used_at p.2) (tk_revoked_at p.2); ti_created_at := tk_created_at p.2 |})
  <$> py_sorted (λ p, (tk_created_at p.2, p.1)) (r_tokens d).

Definition unused (p : string * TokenRow) : bool := bool_decide (tk_used_at p.2 = None).

Definition spend (now : instant) (revoked : bool) (t : TokenRow) : TokenRow :=
  match tk_used_at t with
  | Some _ => t
  | None => {| tk_created_at := tk_created_at t; tk_used_at := Some now; tk_mode := tk_mode t;
               tk_revoked_at := if revoked then Some now else tk_revoked_at t |}
  end.

Definition token_matches_of (normalized : string) (d : RDb) : list string :=
  take 2 (fst <$> filter (λ p, prefix_of TOKEN_ID_CHARS p.1 = normalized ∧ unused p = true) (r_tokens d)).

Definition revoke_enrollment_token (id : string) (now : instant) : R_eff bool :=
  match normalize_token_id id with
  | inl e => raise e
  | inr normalized =>
      matches ← gets (token_matches_of normalized);
      match matches with
      | [] => mret false
      | [h] => modify (on_tokens (od_alter (spend now true) h)) ;; mret true
      | _ => raise EnrollmentTokenError
      end
  end.

Definition with_revoked (now : instant) (a : AgentRow) : AgentRow := {|
  ar_hostname := ar_hostname a; ar_host := ar_host a; ar_caps := ar_caps a;
  ar_device_token_hash := ar_device_token_hash a; ar_state := ar_state a; ar_last_seen := ar_last_seen a;
  ar_user_idle_s := ar_user_idle_s a; ar_mem_available_mb := ar_mem_available_mb a; ar_gpus := ar_gpus a;
  ar_replicas := ar_replicas a; ar_serving_paused := ar_serving_paused a;
  ar_predicted_idle_remaining_s := ar_predicted_idle_remaining_s a;
  ar_predicted_idle_confidence := ar_predicted_idle_confidence a;
  ar_enrollment_mode := ar_enrollment_mode a; ar_transport := ar_transport a;
  ar_presence_sequence := ar_presence_sequence a; ar_presence_generation := ar_presence_generation a;
  ar_revoked_at := Some (default now (ar_revoked_at a)); ar_registered_at := ar_registered_at a |}.

(** An update by agent id, and the exception when no row matched. *)
Definition update_agent (agent : agent_id) (f : AgentRow → AgentRow) : R_eff unit :=
  unknown ← gets (λ d, missing agent (r_agents d));
  modify (on_agents (od_alter f agent)) ;;
  if unknown : bool then raise (UnknownAgentError agent) else mret tt.

Definition revoke_agent (agent : agent_id) (now : instant) : R_eff unit := update_agent agent (with_revoked now).

Definition list_revoked_agents (d : RDb) : list RevokedAgentInfo :=
  omap (λ p : agent_id * AgentRow,
    (λ at_, {| ri_agent_id := p.1; ri_hostname := ar_hostname p.2; ri_revoked_at := at_ |}) <$> ar_revoked_at p.2)
  (py_sorted (λ p, (default 0%Z (ar_revoked_at p.2), p.1)) (r_agents d)).

Definition limit_ok (value : option Z) : bool := match value with Some v => (0 <? v)%Z | None => true end.

Definition create_api_key (name : string) (allowlist : option (list model_id)) (rpm_limit daily_limit : option Z)
    (key : string) (now : instant) : R_eff string :=
  if negb (limit_ok rpm_limit) || negb (limit_ok daily_limit) then raise RegValueError
  else
    known ← gets (λ d, negb (missing (hash_token key) (r_api_keys d)));
    if known : bool then raise RegIntegrityError
    else
      modify (on_api_keys (λ t, t ++ [(hash_token key,
        {| ak_name := name; ak_model_allowlist := allowlist; ak_rpm_limit := rpm_limit;
           ak_daily_limit := daily_limit; ak_created_at := now; ak_revoked_at := None |})])) ;;
      mret key.

(** ** Registration and heartbeats *)

Definition agent_config (assigned : list model_id) : AgentConfig := {|
  ac_heartbeat_interval_s := rc_heartbeat_interval_s config; ac_idle_threshold_s := rc_idle_threshold_s config;
  ac_poll_interval_ms := rc_poll_interval_ms config; ac_vram_evict_after_s := rc_vram_evict_after_s config;
  ac_bench_mode := rc_bench_mode config; ac_assigned_models := assigned |}.

Definition desired_models (agent : agent_id) (d : RDb) : list model_id :=
  py_sorted id (fst <$> filter (λ p, p.2 = agent) (r_assignments d)).

Definition new_agent (caps : DeviceCaps) (host device_token : string) (mode : EnrollmentMode) (now : instant)
    : AgentRow := {|
  ar_hostname := dc_hostname caps; ar_host := host; ar_caps := caps;
  ar_device_token_hash := hash_token device_token; ar_state := ACTIVE; ar_last_seen := now; ar_user_idle_s := 0;
  ar_mem_available_mb := 0; ar_gpus := []; ar_replicas := []; ar_serving_paused := false;
  ar_predicted_idle_remaining_s := None; ar_predicted_idle_confidence := None; ar_enrollment_mode := mode;
  ar_transport := transport_for_mode mode; ar_presence_sequence := -1; ar_presence_generation := 0;
  ar_revoked_at := None; ar_registered_at := now |}.

(** [rollback()]: the database as it was when the transaction began. *)
Definition rollback (d : RDb) : R_eff unit := modify (λ _, d).

(** [agent] and [device_token] are the uuid and the token drawn. *)
Definition register_agent (request : RegisterRequest) (host : string) (now : instant) (agent device_token : string)
    : R_eff RegisterResponse :=
  if negb (rr_protocol_version request =? PROTOCOL_VERSION)%Z
  then raise (ProtocolMismatchError (rr_protocol_version request) PROTOCOL_VERSION)
  else
    begin ← gets id;
    let token_hash := hash_token (rr_enrollment_token request) in
    let token_row := od_get token_hash (filter (λ p, unused p = true) (r_tokens begin)) in
    modify (on_tokens (od_alter (spend now false) token_hash)) ;;
    match token_row with
    | None => rollback begin ;; raise EnrollmentTokenError
    | Some row =>
        if negb (missing agent (r_agents begin)) then rollback begin ;; raise RegIntegrityError
        else
          modify (on_agents (λ t, t ++ [(agent, new_agent (rr_caps request) host device_token (tk_mode row) now)])) ;;
          assigned ← gets (desired_models agent);
          mret {| rp_agent_id := agent; rp_device_token := device_token; rp_config := agent_config assigned |}
    end.

(** [transport = 'direct' OR seq >= presence_sequence] *)
Definition heartbeat_current (seq : Z) (a : AgentRow) : bool :=
  bool_decide (ar_transport a = DIRECT) || (ar_presence_sequence a <=? seq)%Z.

Definition with_heartbeat (hb : Heartbeat) (now : instant) (a : AgentRow) : AgentRow := {|
  ar_hostname := ar_hostname a; ar_host := ar_host a; ar_caps := ar_caps a;
  ar_device_token_hash := ar_device_token_hash a;
  ar_state := if heartbeat_current (hb_seq hb) a then hb_state hb else ar_state a;
  ar_last_seen := now; ar_user_idle_s := hb_user_idle_s hb; ar_mem_available_mb := hb_mem_available_mb hb;
  ar_gpus := hb_gpus hb; ar_replicas := hb_replicas hb;
  ar_serving_paused := if heartbeat_current (hb_seq hb) a then hb_serving_paused hb else ar_serving_paused a;
  ar_predicted_idle_remaining_s := hb_predicted_idle_remaining_s hb;
  ar_predicted_idle_confidence := hb_predicted_idle_confidence hb;
  ar_enrollment_mode := ar_enrollment_mode a; ar_transport := ar_transport a;
  ar_presence_sequence := Z.max (ar_presence_sequence a) (hb_seq hb);
  ar_presence_generation := ar_presence_generation a; ar_revoked_at := ar_revoked_at a;
  ar_registered_at := ar_registered_at a |}.

Definition record_heartbeat (agent : agent_id) (hb : Heartbeat) (now : instant) : R_eff unit :=
  update_agent agent (with_heartbeat hb now).

Definition with_presence (st : AgentState) (paused : bool) (seq gen : Z) (now : instant) (a : AgentRow) : AgentRow := {|
  ar_hostname := ar_hostname a; ar_host := ar_host a; ar_caps := ar_caps a;
  ar_device_token_hash := ar_device_token_hash a; ar_state := st; ar_last_seen := now;
  ar_user_idle_s := ar_user_idle_s a; ar_mem_available_mb := ar_mem_available_mb a; ar_gpus := ar_gpus a;
  ar_replicas := ar_replicas a; ar_serving_paused := paused;
  ar_predicted_idle_remaining_s := ar_predicted_idle_remaining_s a;
  ar_predicted_idle_confidence := ar_predicted_idle_confidence a;
  ar_enrollment_mode := ar_enrollment_mode a; ar_transport := ar_transport a;
  ar_presence_sequence := seq; ar_presence_generation := gen; ar_revoked_at := ar_revoked_at a;
  ar_registered_at := ar_registered_at a |}.

Definition set_agent_state (agent : agent_id) (st : AgentState) (now : instant) : R_eff unit :=
  update_agent agent (λ a,
    with_presence st (ar_serving_paused a) (ar_presence_sequence a) (ar_presence_generation a) now a).

Definition presence_state (kind : string) : AgentState :=
  if bool_decide (kind ∈ ["user_returned"; "reclaim"]) then ACTIVE else IDLE.

(** The row after the guarded update of [apply_presence_event]. *)
Definition present_row (kind : string) (seq : Z) (now : instant) (a : AgentRow) : AgentRow :=
  if (ar_presence_sequence a <? seq)%Z then
    with_presence (presence_state kind) (bool_decide (kind = "reclaim")) seq (ar_presence_generation a + 1) now a
  else a.

Definition generation_of (agent : agent_id) (d : RDb) : option Z := ar_presence_generation <$> od_get agent (r_agents d).

Definition apply_presence_event (agent : agent_id) (kind : string) (seq : Z) (now : instant) : R_eff Z :=
  if negb (bool_decide (kind ∈ ["user_returned"; "user_idle"; "reclaim"])) || (seq <? 0)%Z then raise RegValueError
  else
    modify (on_agents (od_alter (present_row kind seq now) agent)) ;;
    g ← gets (generation_of agent);
    match g with
    | None => raise (UnknownAgentError agent)
    | Some g => mret g
    end.

Definition bump_presence_generation (agent : agent_id) : R_eff Z :=
  update_agent agent (λ a,
    with_presence (ar_state a) (ar_serving_paused a) (ar_presence_sequence a) (ar_presence_generation a + 1)
      (ar_last_seen a) a) ;;
  g ← gets (generation_of agent);
  mret (default 0%Z g).

(** ** Routing views *)

Definition live (p : agent_id * AgentRow) : bool := bool_decide (ar_revoked_at p.2 = None).

Definition site_route (agent : agent_id) (d : RDb) : option (Transport * Z) :=
  (λ a, (ar_transport a, ar_presence_generation a)) <$> od_get agent (filter (λ p, live p = true) (r_agents d)).

Definition agent_transport (agent : agent_id) (d : RDb) : option Transport := ar_transport <$> od_get agent (r_agents d).

Definition site_fleet (now : instant) (d : RDb) : list SiteFleetEntry :=
  (λ p : agent_id * AgentRow, {|
     sf_agent_id := p.1; sf_enrollment_mode := ar_enrollment_mode p.2; sf_transport := ar_transport p.2;
     sf_heartbeat_age_s := age_s now (ar_last_seen p.2); sf_presence_generation := ar_presence_generation p.2;
     sf_revoked := negb (live p) |})
  <$> py_sorted (λ p : agent_id * AgentRow, ar_registered_at p.2)
        (filter (λ p, ar_transport p.2 = SITE_RELAY) (r_agents d)).

Definition snapshot_from_row (p : agent_id * AgentRow) (suspect : bool) : AgentSnapshot := {|
  as_agent_id := p.1; as_host := ar_host p.2; as_state := ar_state p.2; as_suspect := suspect;
  as_caps := ar_caps p.2; as_mem_available_mb := ar_mem_available_mb p.2; as_gpus := ar_gpus p.2;
  as_replicas := ar_replicas p.2; as_user_idle_s := ar_user_idle_s p.2;
  as_serving_paused := ar_serving_paused p.2;
  as_predicted_idle_remaining_s := ar_predicted_idle_remaining_s p.2;
  as_predicted_idle_confidence := ar_predicted_idle_confidence p.2 |}.

Definition ready_endpoints_for_row (p : agent_id * AgentRow) (model : model_id) : list ReplicaEndpoint :=
  omap (λ r, if bool_decide (rs_model_id r = model) && bool_decide (rs_state r = READY)
             then Some {| re_agent_id := p.1; re_host := ar_host p.2; re_port := rs_port r;
                          re_model_id := model; re_inflight := rs_inflight r |}
             else None) (ar_replicas p.2).

Definition is_offline (now : instant) (a : AgentRow) : bool := rc_offline_after_s config <?q age_s now (ar_last_seen a).
Definition is_suspect (now : instant) (a : AgentRow) : bool := rc_suspect_after_s config <?q age_s now (ar_last_seen a).

Definition snapshots (now : instant) (d : RDb) : list AgentSnapshot :=
  (λ p, snapshot_from_row p (is_suspect now p.2)) <$>
    filter (λ p, is_offline now p.2 = false)
      (py_sorted (λ p : agent_id * AgentRow, ar_registered_at p.2) (filter (λ p, live p = true) (r_agents d))).

Definition list_offline (now : instant) (d : RDb) : list agent_id :=
  fst <$> filter (λ p, is_offline now p.2 = true) (r_agents d).

Definition routable (now : instant) (p : agent_id * AgentRow) : bool :=
  live p && negb (is_suspect now p.2) && negb (ar_serving_paused p.2) && bool_decide (ar_state p.2 = IDLE).

Definition replica_endpoints (model : model_id) (now : instant) (d : RDb) : list ReplicaEndpoint :=
  filter (λ p, routable now p = true) (r_agents d) ≫= λ p, ready_endpoints_for_row p model.

Definition site_eligible (a : AgentSnapshot) (model : model_id) (claim_waiter : bool) : bool :=
  bool_decide (as_state a = IDLE) && negb (as_suspect a) && negb (as_serving_paused a) && claim_waiter &&
  existsb (λ r, bool_decide (rs_model_id r = model) && bool_decide (rs_state r = READY)) (as_replicas a).

(** ** Authentication *)

Definition authenticate_agent (bearer : string) (d : RDb) : RegistryError + option agent_id :=
  match head (filter (λ p, ar_device_token_hash p.2 = hash_token bearer) (r_agents d)) with
  | None => inr None
  | Some p => if live p then inr (Some p.1) else inl (RevokedAgentError p.1)
  end.

Definition authenticate_api_key (bearer : string) (d : RDb) : option ApiKeyInfo :=
  if token_matches bearer (hash_token (rc_admin_key config)) then
    Some {| ki_name := "admin"; ki_key_id := hash_token (rc_admin_key config); ki_model_allowlist := None;
            ki_rpm_limit := None; ki_daily_limit := None; ki_is_admin := true |}
  else
    (λ k, {| ki_name := ak_name k; ki_key_id := hash_token bearer; ki_model_allowlist := ak_model_allowlist k;
             ki_rpm_limit := ak_rpm_limit k; ki_daily_limit := ak_daily_limit k; ki_is_admin := false |})
    <$> od_get (hash_token bearer) (filter (λ p, ak_revoked_at p.2 = None) (r_api_keys d)).

(** ** Quota snapshots *)

Definition load_quota_snapshots (d : RDb) : list ApiKeyQuotaSnapshot := snd <$> r_quotas d.

(** [executemany] of the upsert; the foreign key is checked row by row. *)
Definition save_quota_snapshots (items : list ApiKeyQuotaSnapshot) : R_eff unit :=
  for_each (λ item,
    orphan ← gets (λ d, missing (qs_key_id item) (r_api_keys d));
    if orphan : bool then raise RegIntegrityError
    else modify (on_quotas (od_set (qs_key_id item) item))) items.

(** ** Models and assignments *)

Definition put_model (manifest : ModelManifest) (blob_path : string) (enabled : bool) (now : instant) : R_eff unit :=
  modify (on_models (λ t,
    let created := match od_get (mm_model_id manifest) t with Some r => mr_created_at r | None => now end in
    od_set (mm_model_id manifest)
      {| mr_manifest := manifest; mr_blob_path := blob_path; mr_enabled := enabled; mr_created_at := created |} t)).

Definition get_model (model : model_id) (d : RDb) : option ModelRecord :=
  (λ r, {| mo_manifest := mr_manifest r; mo_blob_path := mr_blob_path r; mo_enabled := mr_enabled r |})
  <$> od_get model (r_models d).

Definition get_manifest (model : model_id) (d : RDb) : option ModelManifest := mo_manifest <$> get_model model d.

Definition list_models (d : RDb) : list ModelManifest :=
  (λ p : model_id * ModelRow, mr_manifest p.2) <$> py_sorted (λ p, (mr_created_at p.2, p.1)) (r_models d).

(** [INSERT OR IGNORE ... WHERE NOT EXISTS (revoked agent)] *)
Definition assign_one (agent : agent_id) (model : model_id) (d : RDb) : RDb :=
  let revoked := match od_get agent (r_agents d) with Some a => bool_decide (is_Some (ar_revoked_at a)) | None => false end in
  if revoked || bool_decide ((model, agent) ∈ r_assignments d) then d
  else on_assignments (λ l, l ++ [(model, agent)]) d.

Definition set_assignments (agent : agent_id) (models : list model_id) : R_eff unit :=
  modify (on_assignments (filter (λ p, p.2 ≠ agent))) ;;
  for_each (λ m, modify (assign_one agent m)) models.
End Registry.

(** ** The shared connection

    Every coroutine runs its statements on one connection, so the implicit
    transaction opened by one write spans whatever other coroutines execute
    before the next [commit()] or [rollback()]. *)

Record Conn := { committed : RDb; working : RDb }.

Inductive Stmt :=
  | Execute (f : RDb → RDb)
  | Commit
  | Rollback.

Definition run_stmt (c : Conn) (s : Stmt) : Conn :=
  match s with
  | Execute f => {| committed := committed c; working := f (working c) |}
  | Commit => {| committed := working c; working := working c |}
  | Rollback => {| committed := committed c; working := committed c |}
  end.

Definition run_stmts (ss : list Stmt) (c : Conn) : Conn := fold_left run_stmt ss c.

(** The statements of [create_enrollment_token], which takes no lock. *)
Definition create_token_stmts (h : string) (mode : EnrollmentMode) (now : instant) : list Stmt :=
  [Execute (on_tokens (λ t, t ++ [(h, {| tk_created_at := now; tk_used_at := None; tk_mode := mode; tk_revoked_at := None |})]));
   Commit].

(** The statements of [register_agent] with a token that cannot be spent. *)
Definition refused_registration_stmts (h : string) (now : instant) : list Stmt :=
  [Execute (on_tokens (od_alter (spend now false) h)); Rollback].
