(* ===== verification/RegistrySpec.v ===== *)
(** * What the registry guarantees

    Enrolment tokens are single-use, revocation is terminal, presence updates
    commute, the routing views are exact, and identities authenticate; all over
    arbitrary histories of calls.  The last section takes the transactions of the
    shared connection apart. *)

From S2P Require Export Registry.

(** ** Updates by key *)

Section Alter.
  Context {A : Type}.
  Implicit Types (m : odict A) (f : A → A).

Lemma od_alter_keys f k m : (od_alter f k m).*1 = m.*1.
Proof.
  unfold od_alter. rewrite <- list_fmap_compose. apply list_fmap_ext. intros i [k' x] _. cbn.
  by destruct (bool_decide (k' = k)).
Qed.

Lemma od_alter_wf f k m : od_wf m → od_wf (od_alter f k m).
Proof. unfold od_wf. by rewrite od_alter_keys. Qed.

Lemma od_get_alter f k m k' :
  od_get k' (od_alter f k m) = if bool_decide (k' = k) then f <$> od_get k' m else od_get k' m.
Proof.
  unfold od_alter. induction m as [| [k0 x] m IH]; [by destruct (bool_decide _) |]. cbn.
  destruct (bool_decide (k0 = k)) eqn:H1; cbn; destruct (bool_decide (k' = k0)) eqn:H2; cbn;
    destruct (bool_decide (k' = k)) eqn:H3; cbn; reflect_bools; congruence || done.
Qed.

Lemma od_get_app k m m' : od_get k (m ++ m') = match od_get k m with Some x => Some x | None => od_get k m' end.
Proof. induction m as [| [k' x] m IH]; cbn; [done |]. by destruct (bool_decide (k = k')). Qed.

Lemma od_wf_snoc k x m : od_get k m = None → od_wf m → od_wf (m ++ [(k, x)]).
Proof.
  intros Hk%od_get_None Hm. unfold od_wf. rewrite fmap_app. apply NoDup_app.
  split_and!; [done | cbn; set_solver | apply NoDup_singleton].
Qed.

Lemma od_filter_wf (P : string * A → Prop) `{!∀ p, Decision (P p)} m : od_wf m → od_wf (filter P m).
Proof.
  unfold od_wf. induction m as [| p m IH]; [done |]. rewrite fmap_cons. intros [Hn Hm]%NoDup_cons.
  rewrite filter_cons. destruct (decide (P p)); [| by apply IH]. rewrite fmap_cons. constructor; [| by apply IH].
  intros Hin. apply Hn. apply list_elem_of_fmap in Hin as (q & -> & [_ Hq]%list_elem_of_filter).
  by apply list_elem_of_fmap_2.
Qed.

Lemma od_get_filter (P : string * A → Prop) `{!∀ p, Decision (P p)} m k :
  od_wf m → od_get k (filter P m) = match od_get k m with Some x => if decide (P (k, x)) then Some x else None | None => None end.
Proof.
  intros Hm. destruct (od_get k m) as [x |] eqn:Hk.
  - destruct (decide (P (k, x))) as [Hp | Hp].
    + apply elem_of_od_get; [by apply od_filter_wf |]. apply list_elem_of_filter. split; [done |]. by apply od_get_elem.
    + apply od_get_None. intros Hin. apply list_elem_of_fmap in Hin as ([k' x'] & Heq & [Hp' Hin]%list_elem_of_filter).
      cbn in Heq. subst k'. apply elem_of_od_get in Hin; [| done]. congruence.
  - apply od_get_None. apply od_get_None in Hk. intros Hin. apply Hk.
    apply list_elem_of_fmap in Hin as (p & -> & [_ Hin]%list_elem_of_filter). by apply list_elem_of_fmap_2.
Qed.

Lemma missing_true k m : missing k m = true ↔ od_get k m = None.
Proof. apply bool_decide_eq_true. Qed.
End Alter.

(** ** Histories *)

Inductive RCall :=
  | CreateToken (mode token : string) (now : instant)
  | RevokeToken (id : string) (now : instant)
  | RevokeAgent (agent : agent_id) (now : instant)
  | CreateKey (name : string) (allowlist : option (list model_id)) (rpm daily : option Z) (key : string) (now : instant)
  | Register (request : RegisterRequest) (host : string) (now : instant) (agent device_token : string)
  | HeartbeatCall (agent : agent_id) (hb : Heartbeat) (now : instant)
  | SetState (agent : agent_id) (st : AgentState) (now : instant)
  | Presence (agent : agent_id) (kind : string) (seq : Z) (now : instant)
  | Bump (agent : agent_id)
  | SaveQuotas (items : list ApiKeyQuotaSnapshot)
  | PutModel (manifest : ModelManifest) (blob : string) (enabled : bool) (now : instant)
  | SetAssignments (agent : agent_id) (models : list model_id).

Section History.
  Context (sha256 : bytes → bytes) (config : RegistryConfig).
  Notation hash := (hash_token sha256).

(** The database after a call, whether it returned or raised. *)
Definition reg_call (c : RCall) (d : RDb) : RDb :=
  match c with
  | CreateToken mode token now => (create_enrollment_token sha256 mode token now d).1
  | RevokeToken id now => (revoke_enrollment_token id now d).1
  | RevokeAgent a now => (revoke_agent a now d).1
  | CreateKey n al rpm dl key now => (create_api_key sha256 n al rpm dl key now d).1
  | Register req host now a tok => (register_agent sha256 config req host now a tok d).1
  | HeartbeatCall a hb now => (record_heartbeat a hb now d).1
  | SetState a st now => (set_agent_state a st now d).1
  | Presence a kind seq now => (apply_presence_event a kind seq now d).1
  | Bump a => (bump_presence_generation a d).1
  | SaveQuotas items => (save_quota_snapshots items d).1
  | PutModel m blob en now => (put_model m blob en now d).1
  | SetAssignments a ms => (set_assignments a ms d).1
  end.

Definition reg_step (d d' : RDb) : Prop := ∃ c, d' = reg_call c d.

Definition reg_reachable : RDb → Prop := rtc reg_step empty_rdb.

Record agent_row_ok (a : AgentRow) : Prop := {
  ao_transport : ar_transport a = transport_for_mode (ar_enrollment_mode a);
  ao_sequence : (-1 ≤ ar_presence_sequence a)%Z;
  ao_generation : (0 ≤ ar_presence_generation a)%Z
}.

Record reg_ok (d : RDb) : Prop := {
  ro_agents : od_wf (r_agents d);
  ro_rows a row : od_get a (r_agents d) = Some row → agent_row_ok row;
  ro_tokens : od_wf (r_tokens d);
  ro_token h t : od_get h (r_tokens d) = Some t → is_Some (tk_revoked_at t) → tk_used_at t = tk_revoked_at t;
  ro_keys : od_wf (r_api_keys d);
  ro_limits h k : od_get h (r_api_keys d) = Some k → limit_ok (ak_rpm_limit k) = true ∧ limit_ok (ak_daily_limit k) = true;
  ro_quotas : od_wf (r_quotas d);
  ro_quota_key h q : od_get h (r_quotas d) = Some q → qs_key_id q = h ∧ is_Some (od_get h (r_api_keys d));
  ro_models : od_wf (r_models d);
  ro_model_key m r : od_get m (r_models d) = Some r → mm_model_id (mr_manifest r) = m;
  ro_assignments : NoDup (r_assignments d)
}.

(** How the tables may change: rows are never removed, an agent keeps its
    identity, its revocation and its place in the order of presence, and a spent
    token stays spent as it was. *)
Record row_grows (a a' : AgentRow) : Prop := {
  rg_hash : ar_device_token_hash a' = ar_device_token_hash a;
  rg_host : ar_hostname a' = ar_hostname a;
  rg_mode : ar_enrollment_mode a' = ar_enrollment_mode a;
  rg_transport : ar_transport a' = ar_transport a;
  rg_revoked at_ : ar_revoked_at a = Some at_ → ar_revoked_at a' = Some at_;
  rg_sequence : (ar_presence_sequence a ≤ ar_presence_sequence a')%Z;
  rg_generation : (ar_presence_generation a ≤ ar_presence_generation a')%Z
}.

Record reg_grows (d d' : RDb) : Prop := {
  gr_agents a row : od_get a (r_agents d) = Some row → ∃ row', od_get a (r_agents d') = Some row' ∧ row_grows row row';
  gr_tokens h t : od_get h (r_tokens d) = Some t →
    ∃ t', od_get h (r_tokens d') = Some t' ∧ tk_mode t' = tk_mode t ∧ (tk_used_at t ≠ None → t' = t);
  gr_keys h k : od_get h (r_api_keys d) = Some k → od_get h (r_api_keys d') = Some k
}.

#[export] Instance row_grows_preorder : PreOrder row_grows.
Proof.
  split; [intros a; split; try done; lia | intros a1 a2 a3 [] []; split; try congruence; eauto; lia].
Qed.

#[export] Instance reg_grows_preorder : PreOrder reg_grows.
Proof.
  split.
  - intros d. split; [intros a row Hr; by exists row | intros h t Ht; by exists t | done].
  - intros d1 d2 d3 [A1 A2 A3] [B1 B2 B3]. split; [| | by auto].
    + intros a row Hr. destruct (A1 a row Hr) as (r2 & Hr2 & E). destruct (B1 a r2 Hr2) as (r3 & Hr3 & E').
      exists r3. split; [done | by etransitivity].
    + intros h t Ht. destruct (A2 h t Ht) as (t2 & Ht2 & Hm & E). destruct (B2 h t2 Ht2) as (t3 & Ht3 & Hm' & E').
      exists t3. split_and!; [done | congruence |]. intros Hu. pose proof (E Hu) as ->. by apply E'.
Qed.

Lemma grows_frame d d' :
  r_agents d' = r_agents d → r_tokens d' = r_tokens d → r_api_keys d' = r_api_keys d → reg_grows d d'.
Proof.
  intros Ha Ht Hk. split; rewrite ?Ha, ?Ht, ?Hk; [intros a row Hr; by exists row | intros h t Hh; by exists t | done].
Qed.

(** *** Table by table *)

Lemma alter_agents_ok f k d :
  reg_ok d → (∀ row, agent_row_ok row → agent_row_ok (f row) ∧ row_grows row (f row)) →
  reg_ok (on_agents (od_alter f k) d) ∧ reg_grows d (on_agents (od_alter f k) d).
Proof.
  intros [R1 R2 R3 R4 R5 R6 R7 R8 R9 R10 R11] Hf. split.
  - split; cbn; try done; [by apply od_alter_wf |]. intros a row. rewrite od_get_alter.
    destruct (bool_decide (a = k)); [| apply R2]. intros (row0 & Hr & ->)%fmap_Some. apply Hf. by eapply R2.
  - split; cbn; [| intros h t Ht; by exists t | done]. intros a row Hr. rewrite od_get_alter.
    destruct (bool_decide (a = k)); [| by exists row]. rewrite Hr. cbn. eexists. split; [done |]. apply Hf. by eapply R2.
Qed.

Lemma update_agent_state agent f d : (update_agent agent f d).1 = on_agents (od_alter f agent) d.
Proof.
  unfold update_agent, mbind, eff_bind, gets, modify. cbv beta iota. by destruct (missing agent (r_agents d)).
Qed.

Lemma append_agent_ok a row d :
  reg_ok d → od_get a (r_agents d) = None → agent_row_ok row →
  reg_ok (on_agents (λ t, t ++ [(a, row)]) d) ∧ reg_grows d (on_agents (λ t, t ++ [(a, row)]) d).
Proof.
  intros [R1 R2 R3 R4 R5 R6 R7 R8 R9 R10 R11] Ha Hrow. split.
  - split; cbn; try done; [by apply od_wf_snoc |]. intros a' row'. rewrite od_get_app. cbn.
    destruct (od_get a' (r_agents d)) eqn:Hg; [intros [= <-]; by eapply R2 |].
    destruct (bool_decide (a' = a)); [by intros [= <-] | done].
  - split; cbn; [| intros h t Ht; by exists t | done]. intros a' row' Hr. rewrite od_get_app, Hr. by exists row'.
Qed.

Lemma spend_tokens_ok now revoked h d :
  reg_ok d →
  reg_ok (on_tokens (od_alter (spend now revoked) h) d) ∧ reg_grows d (on_tokens (od_alter (spend now revoked) h) d).
Proof.
  intros [R1 R2 R3 R4 R5 R6 R7 R8 R9 R10 R11]. split.
  - split; cbn; try done; [by apply od_alter_wf |]. intros h' t. rewrite od_get_alter.
    destruct (bool_decide (h' = h)); [| apply R4]. intros (t0 & Ht & ->)%fmap_Some. unfold spend.
    destruct (tk_used_at t0) as [u |] eqn:Hu; [by apply (R4 h' t0) |]. cbn. destruct revoked; [done |]. intros Hr.
    pose proof (R4 h' t0 Ht Hr) as He. rewrite Hu in He. rewrite <- He in Hr. by destruct Hr.
  - split; cbn; [intros a row Hr; by exists row | | done]. intros h' t Ht. rewrite od_get_alter.
    destruct (bool_decide (h' = h)); [| by exists t]. rewrite Ht. cbn. eexists. split; [done |]. unfold spend.
    by destruct (tk_used_at t).
Qed.

Lemma append_token_ok h t d :
  reg_ok d → od_get h (r_tokens d) = None → tk_revoked_at t = None →
  reg_ok (on_tokens (λ l, l ++ [(h, t)]) d) ∧ reg_grows d (on_tokens (λ l, l ++ [(h, t)]) d).
Proof.
  intros [R1 R2 R3 R4 R5 R6 R7 R8 R9 R10 R11] Hh Ht. split.
  - split; cbn; try done; [by apply od_wf_snoc |]. intros h' t'. rewrite od_get_app. cbn.
    destruct (od_get h' (r_tokens d)) eqn:Hg; [intros [= <-]; by apply (R4 h') |].
    destruct (bool_decide (h' = h)); [| done]. intros [= <-]. rewrite Ht. by intros [].
  - split; cbn; [intros a row Hr; by exists row | | done]. intros h' t' Hg. rewrite od_get_app, Hg. by exists t'.
Qed.

Lemma append_key_ok h k d :
  reg_ok d → od_get h (r_api_keys d) = None → limit_ok (ak_rpm_limit k) = true → limit_ok (ak_daily_limit k) = true →
  reg_ok (on_api_keys (λ l, l ++ [(h, k)]) d) ∧ reg_grows d (on_api_keys (λ l, l ++ [(h, k)]) d).
Proof.
  intros [R1 R2 R3 R4 R5 R6 R7 R8 R9 R10 R11] Hh H1 H2. split.
  - split; cbn; try done; [by apply od_wf_snoc | |].
    + intros h' k'. rewrite od_get_app. cbn. destruct (od_get h' (r_api_keys d)) eqn:Hg; [intros [= <-]; by eapply R6 |].
      destruct (bool_decide (h' = h)); [by intros [= <-] | done].
    + intros h' q Hq. destruct (R8 h' q Hq) as [? [k' Hk']]. split; [done |]. rewrite od_get_app, Hk'. by eexists.
  - split; cbn; [intros a row Hr; by exists row | intros h' t Ht; by exists t |].
    intros h' k' Hg. by rewrite od_get_app, Hg.
Qed.

Lemma set_quota_ok q d :
  reg_ok d → is_Some (od_get (qs_key_id q) (r_api_keys d)) → reg_ok (on_quotas (od_set (qs_key_id q) q) d).
Proof.
  intros [R1 R2 R3 R4 R5 R6 R7 R8 R9 R10 R11] Hq. split; cbn; try done; [by apply od_set_wf |].
  intros h q'. rewrite od_get_set. destruct (bool_decide (h = qs_key_id q)) eqn:Hh; reflect_bools; [| apply R8].
  intros [= <-]. by subst h.
Qed.

Lemma set_model_ok m r d :
  reg_ok d → mm_model_id (mr_manifest r) = m → reg_ok (on_models (od_set m r) d).
Proof.
  intros [R1 R2 R3 R4 R5 R6 R7 R8 R9 R10 R11] Hm. split; cbn; try done; [by apply od_set_wf |].
  intros m' r'. rewrite od_get_set. destruct (bool_decide (m' = m)) eqn:Hh; reflect_bools; [| apply R10].
  intros [= <-]. by subst.
Qed.

Lemma assignments_ok l d : reg_ok d → NoDup l → reg_ok (on_assignments (λ _, l) d).
Proof. intros [R1 R2 R3 R4 R5 R6 R7 R8 R9 R10 R11] Hl. by split. Qed.

Lemma assign_one_ok a m d : reg_ok d → reg_ok (assign_one a m d) ∧ reg_grows d (assign_one a m d).
Proof.
  intros Hok. unfold assign_one. destruct (_ || _) eqn:Hc; [done |]. apply orb_false_iff in Hc as [_ Hc]. reflect_bools.
  split; [| by apply grows_frame].
  apply (assignments_ok (r_assignments d ++ [(m, a)]) d Hok). apply NoDup_app.
  split_and!; [apply Hok | set_solver | apply NoDup_singleton].
Qed.

(** *** Row updates *)

Lemma with_presence_grows st paused seq gen now a :
  (ar_presence_sequence a ≤ seq)%Z → (ar_presence_generation a ≤ gen)%Z → agent_row_ok a →
  agent_row_ok (with_presence st paused seq gen now a) ∧ row_grows a (with_presence st paused seq gen now a).
Proof. intros ? ? []. split; split; cbn; try done; lia. Qed.

Lemma with_revoked_grows now a : agent_row_ok a → agent_row_ok (with_revoked now a) ∧ row_grows a (with_revoked now a).
Proof. intros []. split; split; cbn; try done; try lia. intros at_ ->. done. Qed.

Lemma with_heartbeat_grows hb now a :
  agent_row_ok a → agent_row_ok (with_heartbeat hb now a) ∧ row_grows a (with_heartbeat hb now a).
Proof. intros []. split; split; cbn; try done; lia. Qed.

Lemma present_row_grows kind seq now a :
  agent_row_ok a → agent_row_ok (present_row kind seq now a) ∧ row_grows a (present_row kind seq now a).
Proof.
  intros Ha. unfold present_row. destruct (Z.ltb_spec (ar_presence_sequence a) seq); [| by split].
  apply with_presence_grows; [lia | lia | done].
Qed.

(** *** Every call *)

Definition steps_well (d d' : RDb) : Prop := reg_ok d' ∧ reg_grows d d'.

Lemma steps_well_refl d : reg_ok d → steps_well d d.
Proof. by split. Qed.

Lemma steps_well_trans d1 d2 d3 : steps_well d1 d2 → (reg_ok d2 → steps_well d2 d3) → steps_well d1 d3.
Proof. intros [H1 H2] H. destruct (H H1). split; [done | by etransitivity]. Qed.

(** The four outcomes of a registration. *)
Lemma register_cases request host now agent tok d :
  reg_ok d →
  let th := hash (rr_enrollment_token request) in
  let r := register_agent sha256 config request host now agent tok d in
  (∃ e, r = (d, inl e) ∧
     (e = ProtocolMismatchError (rr_protocol_version request) PROTOCOL_VERSION ∨
      (e = EnrollmentTokenError ∧ ∀ t, od_get th (r_tokens d) = Some t → tk_used_at t ≠ None) ∨
      (e = RegIntegrityError ∧ is_Some (od_get agent (r_agents d)) ∧
       ∃ t, od_get th (r_tokens d) = Some t ∧ tk_used_at t = None))) ∨
  (∃ t resp, od_get th (r_tokens d) = Some t ∧ tk_used_at t = None ∧ od_get agent (r_agents d) = None ∧
     let d' := on_agents (λ l, l ++ [(agent, new_agent sha256 (rr_caps request) host tok (tk_mode t) now)])
                 (on_tokens (od_alter (spend now false) th) d) in
     r = (d', inr resp) ∧
     resp = {| rp_agent_id := agent; rp_device_token := tok; rp_config := agent_config config (desired_models agent d) |}).
Proof.
  intros Hok th r. unfold r, register_agent.
  destruct (negb (rr_protocol_version request =? PROTOCOL_VERSION)%Z); [left; eexists; split; [done | by left] |].
  unfold mbind, eff_bind, gets, modify, rollback. cbv beta iota zeta. fold th.
  change (id d) with d. rewrite od_get_filter by apply Hok. destruct (od_get th (r_tokens d)) as [t |] eqn:Ht.
  - unfold unused. cbn [snd]. destruct (decide _) as [Hu | Hu]; reflect_bools.
    + destruct (missing agent (r_agents d)) eqn:Hm; cbn [negb].
      * right. exists t. eexists. apply missing_true in Hm. by split_and!.
      * left. eexists. split; [done |]. right; right. split; [done |]. split; [| by exists t].
        apply bool_decide_eq_false in Hm. destruct (od_get agent (r_agents d)); [by eexists | done].
    + left. eexists. split; [done |]. right; left. split; [done |]. intros t' [= <-]. by rewrite bool_decide_eq_true in Hu.
  - left. eexists. split; [done |]. right; left. by split.
Qed.

Lemma reg_call_ok c d : reg_ok d → steps_well d (reg_call c d).
Proof.
  intros Hok. destruct c; cbn [reg_call].
  - unfold create_enrollment_token. destruct (mode_of mode); [| by apply steps_well_refl].
    unfold mbind, eff_bind, gets, modify. cbv beta iota. destruct (missing (hash token) (r_tokens d)) eqn:Hm; cbn; [| by apply steps_well_refl].
    apply append_token_ok; [done | by apply missing_true | done].
  - unfold revoke_enrollment_token. destruct (normalize_token_id id); [by apply steps_well_refl |].
    unfold mbind, eff_bind, gets, modify. cbv beta iota. destruct (token_matches_of _ d) as [| h [| ? ?]]; [by apply steps_well_refl | | by apply steps_well_refl].
    by apply spend_tokens_ok.
  - unfold revoke_agent. rewrite update_agent_state. apply alter_agents_ok; [done |]. intros row. apply with_revoked_grows.
  - unfold create_api_key. destruct (negb (limit_ok rpm) || negb (limit_ok daily)) eqn:Hl; [by apply steps_well_refl |].
    unfold mbind, eff_bind, gets, modify. cbv beta iota. destruct (missing (hash key) (r_api_keys d)) eqn:Hm; cbn; [| by apply steps_well_refl].
    reflect_bools. apply append_key_ok; [done | by apply missing_true | done | done].
  - destruct (register_cases request host now agent device_token d Hok) as [(e & -> & _) | (t & resp & _ & _ & Hn & -> & _)];
      [by apply steps_well_refl |]. cbn [fst].
    apply (steps_well_trans _ (on_tokens (od_alter (spend now false) (hash (rr_enrollment_token request))) d)); [by apply spend_tokens_ok |].
    intros Hok'. apply append_agent_ok; [done | done |]. split; cbn; done || lia.
  - unfold record_heartbeat. rewrite update_agent_state. apply alter_agents_ok; [done |]. intros row. apply with_heartbeat_grows.
  - unfold set_agent_state. rewrite update_agent_state. apply alter_agents_ok; [done |]. intros row. by apply with_presence_grows.
  - unfold apply_presence_event. destruct (_ || _); [by apply steps_well_refl |].
    unfold mbind, eff_bind, gets, modify. cbv beta iota. destruct (generation_of agent _); cbn;
      (apply alter_agents_ok; [done |]; intros row; apply present_row_grows).
  - unfold bump_presence_generation. unfold mbind at 1, eff_bind at 1.
    pose proof (update_agent_state agent (λ a, with_presence (ar_state a) (ar_serving_paused a) (ar_presence_sequence a)
      (ar_presence_generation a + 1) (ar_last_seen a) a) d) as Hs.
    destruct (update_agent _ _ d) as [d1 [e | u]]; cbn in Hs |- *; rewrite Hs;
      (apply alter_agents_ok; [done |]; intros row; apply with_presence_grows; lia).
  - unfold save_quota_snapshots. revert d Hok. induction items as [| q items IH]; intros d Hok; [by apply steps_well_refl |].
    cbn [for_each]. unfold mbind, eff_bind, gets, modify. cbv beta iota.
    destruct (missing (qs_key_id q) (r_api_keys d)) eqn:Hm; [by apply steps_well_refl |].
    apply (steps_well_trans _ (on_quotas (od_set (qs_key_id q) q) d)); [| by apply IH].
    split; [| by apply grows_frame]. apply set_quota_ok; [done |]. apply bool_decide_eq_false in Hm.
    destruct (od_get (qs_key_id q) (r_api_keys d)); [by eexists | done].
  - split; [| by apply grows_frame]. by apply (set_model_ok (mm_model_id manifest) _ d).
  - unfold set_assignments. unfold mbind at 1, eff_bind at 1, modify at 1. cbv beta iota.
    set (d1 := on_assignments _ d).
    assert (Hw : steps_well d d1).
    { split; [| by apply grows_frame]. apply (assignments_ok (filter (λ p, p.2 ≠ agent) (r_assignments d)) d Hok). apply NoDup_filter, Hok. }
    apply (steps_well_trans _ d1); [done |]. clearbody d1. clear Hw Hok d. revert d1.
    induction models as [| m models IH]; intros d Hok; [by apply steps_well_refl |].
    cbn [for_each]. unfold mbind at 1, eff_bind at 1, modify at 1. cbv beta iota.
    apply (steps_well_trans _ (assign_one agent m d)); [by apply assign_one_ok | by apply IH].
Qed.

Lemma reg_steps_ok d d' : reg_ok d → rtc reg_step d d' → steps_well d d'.
Proof.
  intros Hok. induction 1 as [d | d1 d2 d3 [c ->] _ IH]; [by apply steps_well_refl |].
  apply (steps_well_trans _ (reg_call c d1)); [by apply reg_call_ok | done].
Qed.

Lemma empty_rdb_ok : reg_ok empty_rdb.
Proof. split; cbn; try done; constructor. Qed.

Lemma reg_reachable_ok d : reg_reachable d → reg_ok d.
Proof. intros Hr. apply (reg_steps_ok _ _ empty_rdb_ok Hr). Qed.

(** ** The invariant *)

(** Every reachable registry is well-formed: no table has two rows with one
    key, an agent's transport is the one its enrolment mode calls for, presence
    counters never go below their start, a voided token is a spent one, key limits
    are positive, a quota snapshot belongs to an existing key, and no assignment
    is doubled. *)
Theorem registry_invariant d : reg_reachable d → reg_ok d.
Proof. intros Hr. apply (reg_steps_ok empty_rdb d empty_rdb_ok Hr). Qed.

(** ** Tokens *)

Definition spent (h : string) (d : RDb) : Prop := ∃ t, od_get h (r_tokens d) = Some t ∧ tk_used_at t ≠ None.

Lemma spent_grows h d d' : reg_grows d d' → spent h d → spent h d'.
Proof.
  intros E (t & Ht & Hu). destruct (gr_tokens _ _ E h t Ht) as (t' & Ht' & _ & Heq). pose proof (Heq Hu) as ->. by exists t.
Qed.

Lemma spend_spent now revoked h d :
  is_Some (od_get h (r_tokens d)) → spent h (on_tokens (od_alter (spend now revoked) h) d).
Proof.
  intros [t Ht]. exists (spend now revoked t). cbn. rewrite od_get_alter, bool_decide_eq_true_2, Ht by done.
  split; [done |]. unfold spend. by destruct (tk_used_at t) eqn:Hu; rewrite ?Hu.
Qed.

(** The two ways a token is used up: an agent enrols with it, or an operator
    voids it by its public id. *)
Definition uses_up (token : string) (d d' : RDb) : Prop :=
  (∃ request host now agent tok resp, rr_enrollment_token request = token ∧
     register_agent sha256 config request host now agent tok d = (d', inr resp)) ∨
  (∃ id now, normalize_token_id id = inr (token_id sha256 token) ∧ is_Some (od_get (hash token) (r_tokens d)) ∧
     revoke_enrollment_token id now d = (d', inr true)).

Lemma revoke_token_cases id now d d' h :
  normalize_token_id id = inr (prefix_of TOKEN_ID_CHARS h) → is_Some (od_get h (r_tokens d)) →
  revoke_enrollment_token id now d = (d', inr true) → spent h d'.
Proof.
  intros Hn [t Ht] Hr. unfold revoke_enrollment_token in Hr. rewrite Hn in Hr.
  unfold mbind, eff_bind, mret, eff_ret, gets, modify in Hr. cbv beta iota in Hr.
  destruct (tk_used_at t) as [u |] eqn:Hu.
  - assert (Hs : spent h d) by (exists t; by rewrite Hu).
    destruct (token_matches_of _ d) as [| h' [| ? ?]]; simplify_eq/=. destruct Hs as (t' & Ht' & Hu').
    unfold spent. cbn. rewrite od_get_alter, Ht'. destruct (bool_decide (h = h')); cbn; eexists; (split; [done |]); [| done].
    unfold spend. by destruct (tk_used_at t') eqn:Hu2; rewrite ?Hu2.
  - assert (Hin : h ∈ fst <$> filter (λ p, prefix_of TOKEN_ID_CHARS p.1 = prefix_of TOKEN_ID_CHARS h ∧ unused p = true) (r_tokens d)).
    { apply list_elem_of_fmap. exists (h, t). split; [done |]. apply list_elem_of_filter. split.
      - split; [done |]. unfold unused. cbn. by rewrite Hu.
      - by apply od_get_elem. }
    unfold token_matches_of in Hr. destruct (fst <$> filter _ (r_tokens d)) as [| h1 [| h2 l]]; [by apply elem_of_nil in Hin | | done].
    apply list_elem_of_singleton in Hin as <-. cbn in Hr. simplify_eq. apply spend_spent. by eexists.
Qed.

(** C19: an enrolment token works once.  After it has enrolled an agent, or an
    operator has voided it, no later registration with it succeeds, whatever
    happened in between; it is refused and changes nothing. *)
Theorem enrollment_single_use d d1 d2 token request host now agent tok :
  reg_reachable d → uses_up token d d1 → rtc reg_step d1 d2 → rr_enrollment_token request = token →
  ∃ e, register_agent sha256 config request host now agent tok d2 = (d2, inl e) ∧
    (e = EnrollmentTokenError ∨ e = ProtocolMismatchError (rr_protocol_version request) PROTOCOL_VERSION).
Proof.
  intros Hr Hup Hs Htok. pose proof (reg_reachable_ok d Hr) as Hok.
  assert (Hsp : spent (hash token) d1 ∧ reg_ok d1).
  { destruct Hup as [(rq & h & n & a & tk & resp & <- & Hreg) | (id & n & Hn & Hex & Hrev)].
    - pose proof (reg_call_ok (Register rq h n a tk) d Hok) as [Hok1 _]. cbn in Hok1. rewrite Hreg in Hok1. split; [| done].
      destruct (register_cases rq h n a tk d Hok) as [(e & He & _) | (t & rsp & Ht & _ & _ & He & _)]; rewrite Hreg in He; simplify_eq.
      destruct (spend_spent n false (hash (rr_enrollment_token rq)) d) as (t' & Ht' & Hu); [by eexists |]. by exists t'.
    - pose proof (reg_call_ok (RevokeToken id n) d Hok) as [Hok1 _]. cbn in Hok1. rewrite Hrev in Hok1. split; [| done].
      by eapply revoke_token_cases. }
  destruct Hsp as [Hsp Hok1]. destruct (reg_steps_ok d1 d2 Hok1 Hs) as [Hok2 E].
  destruct (spent_grows _ _ _ E Hsp) as (t & Ht & Hu). subst token.
  destruct (register_cases request host now agent tok d2 Hok2) as [(e & -> & Hc) | (t' & rsp & Ht' & Hu' & _)]; [| congruence].
  exists e. split; [done |]. destruct Hc as [-> | [[-> _] | (_ & _ & t' & ? & ?)]]; [by right | by left | congruence].
Qed.

(** ** Routing views *)

(** A replica that may be offered: READY, on an unrevoked, fresh, unpaused and idle agent. *)
Definition servable (model : model_id) (now : instant) (d : RDb) (e : ReplicaEndpoint) : Prop :=
  ∃ a row r, od_get a (r_agents d) = Some row ∧ ar_revoked_at row = None ∧
    (age_s now (ar_last_seen row) <= rc_suspect_after_s config)%Q ∧ ar_serving_paused row = false ∧
    ar_state row = IDLE ∧ r ∈ ar_replicas row ∧ rs_model_id r = model ∧ rs_state r = READY ∧
    e = {| re_agent_id := a; re_host := ar_host row; re_port := rs_port r; re_model_id := model; re_inflight := rs_inflight r |}.

Lemma replica_endpoints_elem d now model e :
  reg_ok d → e ∈ replica_endpoints config model now d ↔ servable model now d e.
Proof.
  intros Hok. assert (Hel : ∀ a row, (a, row) ∈ r_agents d ↔ od_get a (r_agents d) = Some row)
    by (intros a row; split; [apply elem_of_od_get, Hok | apply od_get_elem]).
  unfold replica_endpoints, servable. rewrite list_elem_of_bind. split.
  - intros ([a row] & He & [Hro Hin%Hel]%list_elem_of_filter). unfold routable, live, is_suspect in Hro. cbn in Hro. reflect_bools.
    apply list_elem_of_omap in He as (r & Hin' & Hr'). destruct (_ && _) eqn:Hc in Hr'; [| done]. reflect_bools. simplify_eq.
    exists a, row, r. by split_and!.
  - intros (a & row & r & Hrow & Hn & Hage & Hp & Hst & Hin & Hm & Hrs & ->). exists (a, row). split.
    + apply list_elem_of_omap. exists r. split; [done |]. by rewrite !bool_decide_eq_true_2.
    + apply list_elem_of_filter. split; [| by apply Hel]. unfold routable, live, is_suspect. cbn.
      rewrite Hp, (proj2 (Qlt_bool_false _ _) Hage), !bool_decide_eq_true_2 by done. done.
Qed.

(** The routing views are exact.  A snapshot is listed exactly for every
    unrevoked agent heard from within the offline limit, flagged suspect exactly
    past the suspect limit; [list_offline] is exactly the agents past the offline
    limit, revoked ones included; and an endpoint is offered exactly for a READY
    replica of the model on an agent that is unrevoked, not suspect, not paused
    and IDLE. *)
Theorem routing_views_exact d now model :
  reg_reachable d →
  (∀ s, s ∈ snapshots config now d ↔
     ∃ a row, od_get a (r_agents d) = Some row ∧ ar_revoked_at row = None ∧
       (age_s now (ar_last_seen row) <= rc_offline_after_s config)%Q ∧
       s = snapshot_from_row (a, row) (rc_suspect_after_s config <?q age_s now (ar_last_seen row))) ∧
  (∀ a, a ∈ list_offline config now d ↔
     ∃ row, od_get a (r_agents d) = Some row ∧ (rc_offline_after_s config < age_s now (ar_last_seen row))%Q) ∧
  (∀ e, e ∈ replica_endpoints config model now d ↔ servable model now d e).
Proof.
  intros Hr. pose proof (reg_reachable_ok d Hr) as Hok. pose proof (ro_agents _ Hok) as Hwf.
  assert (Hel : ∀ a row, (a, row) ∈ r_agents d ↔ od_get a (r_agents d) = Some row)
    by (intros a row; split; [by apply elem_of_od_get | apply od_get_elem]).
  split_and!.
  - intros s. unfold snapshots. rewrite list_elem_of_fmap. split.
    + intros ([a row] & -> & [Hoff Hin]%list_elem_of_filter). rewrite py_sorted_perm in Hin.
      apply list_elem_of_filter in Hin as [Hl Hin%Hel]. unfold live, is_offline in *. cbn in *. reflect_bools.
      exists a, row. by split_and!.
    + intros (a & row & Hrow & Hn & Hage & ->). exists (a, row). split; [done |]. apply list_elem_of_filter. cbn. split.
      * by apply Qlt_bool_false.
      * rewrite py_sorted_perm. apply list_elem_of_filter. split; [by apply bool_decide_eq_true_2 |]. by apply Hel.
  - intros a. unfold list_offline. rewrite list_elem_of_fmap. split.
    + intros ([a' row] & -> & [Hoff Hin%Hel]%list_elem_of_filter). exists row. split; [done |]. by apply Qlt_bool_true.
    + intros (row & Hrow%Hel & Hage). exists (a, row). split; [done |]. apply list_elem_of_filter. split; [by apply Qlt_bool_true | done].
  - intros e. by apply replica_endpoints_elem.
Qed.

(** ** Revocation *)

Lemma revoked_grows agent at_ d d' :
  reg_grows d d' → (∃ row, od_get agent (r_agents d) = Some row ∧ ar_revoked_at row = Some at_) →
  ∃ row, od_get agent (r_agents d') = Some row ∧ ar_revoked_at row = Some at_.
Proof.
  intros E (row & Hr & Ha). destruct (gr_agents _ _ E agent row Hr) as (row' & Hr' & G). exists row'. split; [done |].
  by apply (rg_revoked _ _ G).
Qed.

Lemma assign_revoked agent models d row :
  od_get agent (r_agents d) = Some row → is_Some (ar_revoked_at row) →
  (for_each (λ m, modify (assign_one agent m)) models d : RDb * (RegistryError + unit)).1 = d.
Proof.
  intros Hr [at_ Ha]. induction models as [| m models IH]; [done |]. cbn [for_each].
  unfold mbind at 1, eff_bind at 1, modify at 1. cbv beta iota.
  assert (Heq : assign_one agent m d = d) by (unfold assign_one; rewrite Hr, Ha; done). rewrite Heq. apply IH.
Qed.

Lemma agents_elem d a row : reg_ok d → (a, row) ∈ r_agents d ↔ od_get a (r_agents d) = Some row.
Proof. intros Hok. split; [apply elem_of_od_get, Hok | apply od_get_elem]. Qed.

Lemma revoke_agent_marks d d1 agent now :
  revoke_agent agent now d = (d1, inr tt) →
  ∃ at_ row, od_get agent (r_agents d1) = Some row ∧ ar_revoked_at row = Some at_.
Proof.
  intros Hrev. pose proof (update_agent_state agent (with_revoked now) d) as Hst. unfold revoke_agent in Hrev.
  rewrite Hrev in Hst. cbn in Hst. destruct (od_get agent (r_agents d)) as [row |] eqn:Hrow.
  - exists (default now (ar_revoked_at row)), (with_revoked now row). split; [| done]. rewrite Hst. cbn.
    by rewrite od_get_alter, bool_decide_eq_true_2, Hrow.
  - exfalso. unfold update_agent, mbind, eff_bind, gets, modify in Hrev. cbv beta iota in Hrev.
    rewrite (proj2 (missing_true agent (r_agents d)) Hrow) in Hrev. done.
Qed.

Lemma revoked_unauthenticated d agent row bearer :
  reg_ok d → od_get agent (r_agents d) = Some row → is_Some (ar_revoked_at row) →
  hash bearer = ar_device_token_hash row →
  (∀ a r, od_get a (r_agents d) = Some r → ar_device_token_hash r = ar_device_token_hash row → a = agent) →
  authenticate_agent sha256 bearer d = inl (RevokedAgentError agent).
Proof.
  intros Hok Hrow [at_ Ha] Hb Huniq. unfold authenticate_agent. destruct (filter _ (r_agents d)) as [| [a r] l] eqn:Hf.
  - exfalso. assert (Hin : (agent, row) ∈ filter (λ p, ar_device_token_hash p.2 = hash bearer) (r_agents d))
      by (apply list_elem_of_filter; split; [done | by apply agents_elem]).
    rewrite Hf in Hin. by apply elem_of_nil in Hin.
  - assert (Hin : (a, r) ∈ filter (λ p, ar_device_token_hash p.2 = hash bearer) (r_agents d)) by (rewrite Hf; set_solver).
    apply list_elem_of_filter in Hin as [Hh Hin]. apply agents_elem in Hin; [| done]. cbn in Hh.
    assert (a = agent) as -> by (apply (Huniq a r); [done | congruence]).
    cbn. unfold live. cbn. simplify_eq. by rewrite bool_decide_eq_false_2 by congruence.
Qed.

Lemma revoked_unrouted d agent row :
  reg_ok d → od_get agent (r_agents d) = Some row → is_Some (ar_revoked_at row) →
  (∀ t s, s ∈ snapshots config t d → as_agent_id s ≠ agent) ∧
  (∀ t m e, e ∈ replica_endpoints config m t d → re_agent_id e ≠ agent) ∧
  site_route agent d = None ∧
  (∀ models, desired_models agent (set_assignments agent models d).1 = []) ∧
  agent ∈ ri_agent_id <$> list_revoked_agents d.
Proof.
  intros Hok Hrow [at_ Ha].
  assert (Hdead : ∀ a r, (a, r) ∈ r_agents d → live (a, r) = true → a ≠ agent).
  { intros a r Hin%agents_elem Hl ->; [| done]. unfold live in Hl. cbn in Hl. reflect_bools. congruence. }
  split_and!.
  - intros t s Hin. apply list_elem_of_fmap in Hin as ([a r] & -> & [_ Hin]%list_elem_of_filter).
    rewrite py_sorted_perm in Hin. apply list_elem_of_filter in Hin as [Hl Hin]. by eapply Hdead.
  - intros t m e Hin. apply list_elem_of_bind in Hin as ([a r] & He & [Hl Hin]%list_elem_of_filter).
    apply list_elem_of_omap in He as (x & _ & Hx). destruct (_ && _) in Hx; [| done]. simplify_eq.
    unfold routable in Hl. reflect_bools. by eapply Hdead.
  - unfold site_route. rewrite od_get_filter by apply Hok. rewrite Hrow. destruct (decide _) as [Hl |]; [| done].
    exfalso. by apply (Hdead agent row); [apply agents_elem | |].
  - intros models. unfold set_assignments. unfold mbind at 1, eff_bind at 1, modify at 1. cbv beta iota.
    rewrite (assign_revoked agent models _ row); [| done | by exists at_]. unfold desired_models. cbn.
    rewrite filter_none; [done |]. intros [m a] Hin Heq. apply list_elem_of_filter in Hin as [Hn _]. by cbn in *.
  - apply list_elem_of_fmap. exists {| ri_agent_id := agent; ri_hostname := ar_hostname row; ri_revoked_at := at_ |}.
    split; [done |]. apply list_elem_of_omap. exists (agent, row). split; [| cbn; by rewrite Ha].
    rewrite py_sorted_perm. by apply agents_elem.
Qed.

(** C12: revocation is terminal.  From the revoking call on, in every later
    state, the agent's device token is rejected as revoked, no routing view
    (snapshots, endpoints, relay route) contains the agent, assigning models to
    it assigns nothing, and it stays in the operator's list of revoked agents. *)
Theorem revocation_terminal d d1 d2 agent now :
  reg_reachable d → revoke_agent agent now d = (d1, inr tt) → rtc reg_step d1 d2 →
  ∃ row, od_get agent (r_agents d2) = Some row ∧
    (∀ bearer, hash bearer = ar_device_token_hash row →
       (∀ a r, od_get a (r_agents d2) = Some r → ar_device_token_hash r = ar_device_token_hash row → a = agent) →
       authenticate_agent sha256 bearer d2 = inl (RevokedAgentError agent)) ∧
    (∀ t s, s ∈ snapshots config t d2 → as_agent_id s ≠ agent) ∧
    (∀ t m e, e ∈ replica_endpoints config m t d2 → re_agent_id e ≠ agent) ∧
    site_route agent d2 = None ∧
    (∀ models, desired_models agent (set_assignments agent models d2).1 = []) ∧
    agent ∈ ri_agent_id <$> list_revoked_agents d2.
Proof.
  intros Hr Hrev Hs. pose proof (reg_reachable_ok d Hr) as Hok.
  pose proof (reg_call_ok (RevokeAgent agent now) d Hok) as [Hok1 _]. cbn in Hok1. rewrite Hrev in Hok1. cbn in Hok1.
  destruct (revoke_agent_marks d d1 agent now Hrev) as (at_ & H1). destruct (reg_steps_ok d1 d2 Hok1 Hs) as [Hok2 E].
  destruct (revoked_grows agent at_ _ _ E H1) as (row & Hrow & Ha). exists row.
  assert (His : is_Some (ar_revoked_at row)) by (by exists at_).
  split; [done |]. split; [| by apply (revoked_unrouted d2 agent row)].
  intros bearer Hb Hu. by apply (revoked_unauthenticated d2 agent row).
Qed.

(** ** Presence *)

(** The sequence number and what it says about the user: state and pause. *)
Definition presence_update (agent : agent_id) (c : RCall) : option (Z * (AgentState * bool)) :=
  match c with
  | HeartbeatCall a hb _ =>
      if bool_decide (a = agent) then Some (hb_seq hb, (hb_state hb, hb_serving_paused hb)) else None
  | Presence a kind seq _ =>
      if bool_decide (a = agent) && bool_decide (kind ∈ ["user_returned"; "user_idle"; "reclaim"]) && (0 <=? seq)%Z
      then Some (seq, (presence_state kind, bool_decide (kind = "reclaim"))) else None
  | _ => None
  end.

Definition presence_of (row : AgentRow) : Z * (AgentState * bool) :=
  (ar_presence_sequence row, (ar_state row, ar_serving_paused row)).

(** One update with a sequence number not seen: the newer of the two wins. *)
Lemma presence_update_row agent c d row u :
  od_get agent (r_agents d) = Some row → ar_transport row = SITE_RELAY → presence_update agent c = Some u →
  u.1 ≠ ar_presence_sequence row →
  ∃ row', od_get agent (r_agents (reg_call c d)) = Some row' ∧ ar_transport row' = SITE_RELAY ∧
    presence_of row' = if (ar_presence_sequence row <? u.1)%Z then u else presence_of row.
Proof.
  intros Hrow Ht Hu Hne. destruct c; cbn in Hu; try done.
  - destruct (bool_decide (agent0 = agent)) eqn:Ha; [| done]. reflect_bools. simplify_eq. cbn in Hne.
    cbn [reg_call]. unfold record_heartbeat. rewrite update_agent_state. cbn [on_agents r_agents].
    rewrite od_get_alter, bool_decide_eq_true_2, Hrow by done. eexists. split; [done |]. split; [done |].
    unfold presence_of. cbn. unfold heartbeat_current. rewrite Ht, bool_decide_eq_false_2 by done. cbn.
    destruct (Z.ltb_spec (ar_presence_sequence row) (hb_seq hb)), (Z.leb_spec (ar_presence_sequence row) (hb_seq hb)); try lia.
    + by rewrite Z.max_r by lia.
    + by rewrite Z.max_l by lia.
  - destruct (_ && _ && _) eqn:Hc in Hu; [| done]. reflect_bools. simplify_eq. cbn in Hne |- *.
    unfold apply_presence_event. rewrite bool_decide_eq_true_2 by done. cbn [negb orb].
    destruct (Z.ltb_spec seq 0); [lia |]. unfold mbind, eff_bind, gets, modify. cbv beta iota.
    assert (Hg : od_get agent (r_agents (on_agents (od_alter (present_row kind seq now) agent) d)) = Some (present_row kind seq now row))
      by (cbn; by rewrite od_get_alter, bool_decide_eq_true_2, Hrow).
    unfold generation_of. rewrite Hg. exists (present_row kind seq now row). split; [exact Hg |]. unfold present_row.
    by destruct (ar_presence_sequence row <? seq)%Z.
Qed.

Lemma presence_updates_row agent cs us d row :
  od_get agent (r_agents d) = Some row → ar_transport row = SITE_RELAY → mapM (presence_update agent) cs = Some us →
  NoDup (ar_presence_sequence row :: us.*1) →
  ∃ row', od_get agent (r_agents (fold_left (λ d c, reg_call c d) cs d)) = Some row' ∧
    presence_of row' ∈ presence_of row :: us ∧
    ∀ q, q ∈ ar_presence_sequence row :: us.*1 → (q ≤ ar_presence_sequence row')%Z.
Proof.
  revert us d row; induction cs as [| c cs IH]; intros us d row Hrow Ht Hus Hnd.
  { injection Hus as <-. exists row. split_and!; [done | set_solver |]. intros q [-> | Hq]%elem_of_cons; [lia | by apply elem_of_nil in Hq]. }
  cbn in Hus. destruct (presence_update agent c) as [u |] eqn:Hu; [| done]. cbn in Hus.
  destruct (mapM (presence_update agent) cs) as [us' |] eqn:Hus'; [| done]. injection Hus as <-.
  rewrite fmap_cons in Hnd. apply NoDup_cons in Hnd as [Hn Hnd]. pose proof Hnd as [Hn' Hnd']%NoDup_cons.
  apply not_elem_of_cons in Hn as [Hne Hn].
  destruct (presence_update_row agent c d row u Hrow Ht Hu (not_eq_sym Hne)) as (row1 & Hrow1 & Ht1 & Hp).
  assert (Hseq : ar_presence_sequence row1 = if (ar_presence_sequence row <? u.1)%Z then u.1 else ar_presence_sequence row).
  { change (ar_presence_sequence row1) with (presence_of row1).1. rewrite Hp. by destruct (_ <? _)%Z. }
  destruct (IH us' (reg_call c d) row1 Hrow1 Ht1 eq_refl) as (row' & Hrow' & Hin & Hmax).
  { constructor; [| exact Hnd']. rewrite Hseq. by destruct (_ <? _)%Z. }
  exists row'. split_and!; [done | |].
  - rewrite Hp in Hin. apply elem_of_cons in Hin as [Hin | Hin]; [| by do 2 right].
    destruct (_ <? _)%Z; rewrite Hin; [by right; left | by left].
  - assert (Hle : (Z.max (ar_presence_sequence row) u.1 ≤ ar_presence_sequence row')%Z).
    { etransitivity; [| apply Hmax; by left]. rewrite Hseq. destruct (Z.ltb_spec (ar_presence_sequence row) u.1); lia. }
    intros q Hq. rewrite fmap_cons in Hq. apply elem_of_cons in Hq as [-> | [-> | Hq]%elem_of_cons]; [lia | lia |].
    apply Hmax. by right.
Qed.

Lemma mapM_perm {A B} (f : A → option B) l l' k :
  l ≡ₚ l' → mapM f l = Some k → ∃ k', mapM f l' = Some k' ∧ k ≡ₚ k'.
Proof.
  intros Hp Hk%mapM_Some. destruct (Permutation_Forall2 Hp Hk) as (k' & Hk' & Hf). exists k'.
  split; [by apply mapM_Some | done].
Qed.

(** A sequence number names one of the updates. *)
Lemma fst_inj_in {A B} (l : list (A * B)) p q : NoDup l.*1 → p ∈ l → q ∈ l → p.1 = q.1 → p = q.
Proof.
  induction l as [| x l IH]; [intros _ []%elem_of_nil |]. rewrite fmap_cons. intros [Hn Hnd]%NoDup_cons.
  intros [-> | Hp]%elem_of_cons [-> | Hq]%elem_of_cons Heq; [done | | | by apply IH].
  - destruct Hn. rewrite Heq. by apply list_elem_of_fmap_2.
  - destruct Hn. rewrite <- Heq. by apply list_elem_of_fmap_2.
Qed.

(** C29: the order in which a relayed agent's presence updates arrive does not
    matter.  Whatever order its heartbeats and presence events are applied in,
    the state and pause the coordinator ends up with are the same, and they are
    those of the update with the highest sequence number. *)
Theorem presence_order_irrelevant d agent row cs cs' us :
  od_get agent (r_agents d) = Some row → ar_transport row = SITE_RELAY →
  mapM (presence_update agent) cs = Some us → NoDup (ar_presence_sequence row :: us.*1) → cs ≡ₚ cs' →
  ∃ r r', od_get agent (r_agents (fold_left (λ d c, reg_call c d) cs d)) = Some r ∧
    od_get agent (r_agents (fold_left (λ d c, reg_call c d) cs' d)) = Some r' ∧
    presence_of r' = presence_of r ∧ presence_of r ∈ presence_of row :: us ∧
    ∀ u, u ∈ presence_of row :: us → (u.1 ≤ (presence_of r).1)%Z.
Proof.
  intros Hrow Ht Hus Hnd Hp. destruct (mapM_perm _ _ _ _ Hp Hus) as (us' & Hus' & Hpu).
  assert (Hp' : presence_of row :: us ≡ₚ presence_of row :: us') by by constructor.
  assert (Hnd' : NoDup (ar_presence_sequence row :: us'.*1)) by by rewrite <- Hpu.
  destruct (presence_updates_row agent cs us d row Hrow Ht Hus Hnd) as (r & Hr & Hin & Hmax).
  destruct (presence_updates_row agent cs' us' d row Hrow Ht Hus' Hnd') as (r' & Hr' & Hin' & Hmax').
  rewrite <- Hp' in Hin'.
  assert (Hle : ∀ u, u ∈ presence_of row :: us → (u.1 ≤ ar_presence_sequence r)%Z)
    by (intros u Hu; apply Hmax; by apply (list_elem_of_fmap_2 fst) in Hu).
  exists r, r'. split_and!; [done | done | | done | done].
  apply (fst_inj_in (presence_of row :: us)); [done | done | done |]. apply Z.le_antisymm; [by apply Hle |].
  apply Hmax'. rewrite Hp' in Hin. by apply (list_elem_of_fmap_2 fst) in Hin.
Qed.

(** ** Identities *)

(** What the registry issues authenticates.  A device token returned by a
    registration, when no earlier agent has the same token hash, authenticates
    the agent it was issued to; an API key that is not the administrator's
    authenticates with exactly the allowlist and limits it was created with; and
    the administrator's key has no limits.  Later calls keep the key valid. *)
Theorem identities_authenticate d d1 :
  reg_reachable d →
  (∀ request host now agent tok resp,
     register_agent sha256 config request host now agent tok d = (d1, inr resp) →
     (∀ a r, od_get a (r_agents d) = Some r → ar_device_token_hash r ≠ hash tok) →
     rp_agent_id resp = agent ∧ authenticate_agent sha256 (rp_device_token resp) d1 = inr (Some agent)) ∧
  (∀ name allow rpm daily key now out d2,
     create_api_key sha256 name allow rpm daily key now d = (d1, inr out) → rtc reg_step d1 d2 →
     hash key ≠ hash (rc_admin_key config) →
     authenticate_api_key sha256 config out d2 =
       Some {| ki_name := name; ki_key_id := hash key; ki_model_allowlist := allow; ki_rpm_limit := rpm;
               ki_daily_limit := daily; ki_is_admin := false |}) ∧
  (∀ d2, ki_is_admin <$> authenticate_api_key sha256 config (rc_admin_key config) d2 = Some true).
Proof.
  intros Hr. pose proof (reg_reachable_ok d Hr) as Hok. split_and!.
  - intros request host now agent tok resp Hreg Hfresh.
    destruct (register_cases request host now agent tok d Hok) as [(e & He & _) | (t & rsp & _ & _ & _ & He & ->)];
      rewrite Hreg in He; [done |]. injection He as -> ->. split; [done |]. unfold authenticate_agent. cbn.
    rewrite filter_app, filter_none.
    + rewrite filter_cons. cbn. by rewrite decide_True by done.
    + intros [a r] Hin Heq. apply elem_of_od_get in Hin; [| apply Hok]. by apply (Hfresh a r).
  - intros name allow rpm daily key now out d2 Hc Hs Hne.
    pose proof (reg_call_ok (CreateKey name allow rpm daily key now) d Hok) as [Hok1 _]. cbn [reg_call] in Hok1.
    rewrite Hc in Hok1. destruct (reg_steps_ok d1 d2 Hok1 Hs) as [Hok2 E].
    unfold create_api_key in Hc. destruct (_ || _); [done |].
    unfold mbind, eff_bind, mret, eff_ret, gets, modify in Hc. cbv beta iota in Hc.
    destruct (missing (hash key) (r_api_keys d)) eqn:Hm; cbn in Hc; [| done]. injection Hc as <- <-.
    apply missing_true in Hm. unfold authenticate_api_key, token_matches. rewrite bool_decide_eq_false_2 by done.
    assert (Hk : od_get (hash key) (r_api_keys d2) = Some {| ak_name := name; ak_model_allowlist := allow; ak_rpm_limit := rpm;
               ak_daily_limit := daily; ak_created_at := now; ak_revoked_at := None |}).
    { apply (gr_keys _ _ E). cbn. rewrite od_get_app, Hm. cbn. by rewrite bool_decide_eq_true_2. }
    rewrite od_get_filter, Hk by apply Hok2. by rewrite decide_True by done.
  - intros d2. unfold authenticate_api_key, token_matches. by rewrite bool_decide_eq_true_2.
Qed.
End History.

(** ** The shared connection *)

(** The statements of two coroutines, each in its own order. *)
Inductive interleaved {A} : list A → list A → list A → Prop :=
  | interleaved_nil : interleaved [] [] []
  | interleaved_left x l k m : interleaved l k m → interleaved (x :: l) k (x :: m)
  | interleaved_right x l k m : interleaved l k m → interleaved l (x :: k) (x :: m).

#[local] Hint Constructors interleaved : core.

Definition with_token (h : string) (mode : EnrollmentMode) (now : instant) : RDb → RDb :=
  on_tokens (λ t, t ++ [(h, {| tk_created_at := now; tk_used_at := None; tk_mode := mode; tk_revoked_at := None |})]).

(** A refused registration can lose another coroutine's write.  Minting a
    token takes no lock, so a registration that is refused between the INSERT and
    its COMMIT rolls the INSERT back, and the token the caller is then handed was
    never stored; run one after the other, in either order, the two leave exactly
    the minted token. *)
Theorem registration_rollback_loses_write (d : RDb) h mode now h' now' :
  let conn := {| committed := d; working := d |} in
  let mint := create_token_stmts h mode now in
  let refused := refused_registration_stmts h' now' in
  (∃ ss, interleaved mint refused ss ∧ committed (run_stmts ss conn) = d) ∧
  committed (run_stmts (mint ++ refused) conn) = with_token h mode now d ∧
  committed (run_stmts (refused ++ mint) conn) = with_token h mode now d.
Proof.
  split_and!; [| done | done].
  exists [Execute (with_token h mode now); Execute (on_tokens (od_alter (spend now' false) h')); Rollback; Commit].
  split; [unfold create_token_stmts, refused_registration_stmts; eauto 8 | done].
Qed.

(** ** A concrete registry *)

Definition plain_sha (b : bytes) : bytes := b.
Definition demo_rc : RegistryConfig := default_registry_config "admin".

Definition desk_caps : DeviceCaps := {|
  dc_hostname := "desk"; dc_os := LINUX; dc_os_version := ""; dc_cpu_model := ""; dc_cpu_cores := 8; dc_ram_mb := 16000;
  dc_disk_free_mb := 1000; dc_gpus := []; dc_agent_version := "0" |}.

Definition desk_request : RegisterRequest := {|
  rr_enrollment_token := "join-me"; rr_protocol_version := 1; rr_caps := desk_caps |}.

Definition desk_heartbeat (seq : Z) (st : AgentState) : Heartbeat := {|
  hb_agent_id := "a"; hb_seq := seq; hb_sent_at := 0; hb_protocol_version := 1; hb_state := st; hb_user_idle_s := 0;
  hb_cpu_percent := 0; hb_mem_available_mb := 0; hb_load_avg := None; hb_temp_cpu_c := None; hb_gpus := [];
  hb_replicas := []; hb_lease_ids := []; hb_serving_paused := false; hb_predicted_idle_remaining_s := None;
  hb_predicted_idle_confidence := None |}.

Definition run_calls (cs : list RCall) (d : RDb) : RDb := fold_left (λ d c, reg_call plain_sha demo_rc c d) cs d.

Lemma run_calls_steps cs d : rtc (reg_step plain_sha demo_rc) d (run_calls cs d).
Proof.
  revert d; induction cs as [| c cs IH]; intros d; [apply rtc_refl |]. eapply rtc_l; [by exists c | apply IH].
Qed.

Definition minted : RDb := run_calls [CreateToken "site" "join-me" 0] empty_rdb.
Definition enrolled : RDb := run_calls [Register desk_request "10.0.0.2" 1 "a" "device"] minted.

Lemma registry_invariant_witness : reg_ok enrolled ∧ length (r_agents enrolled) = 1%nat.
Proof.
  split; [| reflexivity]. apply (registry_invariant plain_sha demo_rc enrolled).
  exact (run_calls_steps [CreateToken "site" "join-me" 0; Register desk_request "10.0.0.2" 1 "a" "device"] empty_rdb).
Defined.

Lemma enrollment_single_use_witness :
  ∃ e, register_agent plain_sha demo_rc desk_request "10.0.0.3" 3 "b" "device2"
         (run_calls [HeartbeatCall "a" (desk_heartbeat 1 IDLE) 2] enrolled) =
       (run_calls [HeartbeatCall "a" (desk_heartbeat 1 IDLE) 2] enrolled, inl e).
Proof.
  destruct (enrollment_single_use plain_sha demo_rc minted enrolled
    (run_calls [HeartbeatCall "a" (desk_heartbeat 1 IDLE) 2] enrolled) "join-me" desk_request "10.0.0.3" 3 "b" "device2") as (e & He & _).
  - apply (run_calls_steps [CreateToken "site" "join-me" 0]).
  - left. exists desk_request, "10.0.0.2", 1%Z, "a", "device",
      {| rp_agent_id := "a"; rp_device_token := "device"; rp_config := agent_config demo_rc [] |}.
    split; vm_compute; reflexivity.
  - apply run_calls_steps.
  - reflexivity.
  - exists e. exact He.
Defined.

Definition serving_heartbeat : Heartbeat := {|
  hb_agent_id := "a"; hb_seq := 1; hb_sent_at := 0; hb_protocol_version := 1; hb_state := IDLE; hb_user_idle_s := 0;
  hb_cpu_percent := 0; hb_mem_available_mb := 0; hb_load_avg := None; hb_temp_cpu_c := None; hb_gpus := [];
  hb_replicas := [{| rs_model_id := "m"; rs_port := 8080; rs_state := READY; rs_inflight := 0; rs_gpu := false |}];
  hb_lease_ids := []; hb_serving_paused := false; hb_predicted_idle_remaining_s := None;
  hb_predicted_idle_confidence := None |}.

Definition serving : RDb := run_calls [HeartbeatCall "a" serving_heartbeat 2] enrolled.

Lemma serving_reachable : reg_reachable plain_sha demo_rc serving.
Proof.
  exact (run_calls_steps [CreateToken "site" "join-me" 0; Register desk_request "10.0.0.2" 1 "a" "device";
    HeartbeatCall "a" serving_heartbeat 2] empty_rdb).
Qed.

Lemma routing_views_exact_witness :
  ∃ e, e ∈ replica_endpoints demo_rc "m" 3 serving ∧ re_port e = 8080%Z.
Proof.
  exists {| re_agent_id := "a"; re_host := "10.0.0.2"; re_port := 8080; re_model_id := "m"; re_inflight := 0 |}.
  split; [| reflexivity].
  apply (proj2 (proj2 (routing_views_exact plain_sha demo_rc serving 3 "m" serving_reachable))).
  exists "a". eexists. exists {| rs_model_id := "m"; rs_port := 8080; rs_state := READY; rs_inflight := 0; rs_gpu := false |}.
  split; [vm_compute; reflexivity |].
  split_and!; try (vm_compute; reflexivity); [vm_compute; discriminate | apply list_elem_of_here].
Defined.

Lemma revocation_terminal_witness :
  site_route "a" (run_calls [RevokeAgent "a" 3; HeartbeatCall "a" serving_heartbeat 4] serving) = None.
Proof.
  destruct (revocation_terminal plain_sha demo_rc serving (run_calls [RevokeAgent "a" 3] serving)
    (run_calls [HeartbeatCall "a" serving_heartbeat 4] (run_calls [RevokeAgent "a" 3] serving)) "a" 3 serving_reachable)
    as (row & _ & _ & _ & _ & H & _).
  - vm_compute. reflexivity.
  - apply run_calls_steps.
  - exact H.
Defined.

Lemma presence_order_irrelevant_witness :
  let cs := [Presence "a" "user_returned" 9 3; HeartbeatCall "a" (desk_heartbeat 8 IDLE) 4] in
  ∃ r r', od_get "a" (r_agents (run_calls cs serving)) = Some r ∧
    od_get "a" (r_agents (run_calls (rev cs) serving)) = Some r' ∧ presence_of r' = presence_of r ∧ ar_state r = ACTIVE.
Proof.
  intros cs.
  destruct (presence_order_irrelevant plain_sha demo_rc serving "a"
    (with_heartbeat serving_heartbeat 2 (new_agent plain_sha desk_caps "10.0.0.2" "device" SITE 1)) cs (rev cs)
    [(9%Z, (ACTIVE, false)); (8%Z, (IDLE, false))]) as (r & r' & Hr & Hr' & He & _).
  - vm_compute. reflexivity.
  - reflexivity.
  - vm_compute. reflexivity.
  - repeat constructor; vm_compute; set_solver.
  - apply Permutation_rev.
  - exists r, r'. split; [exact Hr |]. split; [exact Hr' |]. split; [exact He |].
    clear -Hr. vm_compute in Hr. injection Hr as <-. reflexivity.
Defined.

Lemma identities_authenticate_witness :
  authenticate_agent plain_sha "device" enrolled = inr (Some "a").
Proof.
  refine (proj2 (proj1 (identities_authenticate plain_sha demo_rc minted enrolled
    (run_calls_steps [CreateToken "site" "join-me" 0] empty_rdb)) desk_request "10.0.0.2" 1%Z "a" "device"
    {| rp_agent_id := "a"; rp_device_token := "device"; rp_config := agent_config demo_rc [] |} _ _)).
  - vm_compute. reflexivity.
  - intros a r Hg. vm_compute in Hg. discriminate Hg.
Defined.
