(* ===== verification/Enroll.v ===== *)
(** * Enrolment and the persisted identity

    Models src/packages/fallow-agent/src/fallow_agent/main/identity.py ([load_identity],
    [save_identity]) and enroll.py ([resolve_identity]).  The agent's disk maps paths to contents and
    permission bits; a save lists the disks it goes through, so that a crash may leave any of them.
    The coordinator is the registry of Registry.v; the network may lose a request or a reply.
    Encoding and decoding of the identity's JSON text are parameters. *)

From S2P Require Export Registry.
From S2P Require Import RegistrySpec.

Record IdentityState := { is_agent_id : string; is_device_token : string }.

Record DFile := { df_content : string; df_mode : Z }.

Abbreviation Disk := (gmap string DFile).

Definition STATE_MODE : Z := 384.  (* 0o600 *)
Definition TMP_SUFFIX : string := ".tmp".

(** [expanded.with_name(expanded.name + _TMP_SUFFIX)] *)
Definition tmp_of (path : string) : string := path +:+ TMP_SUFFIX.

(** What the operating system makes of the calls of a save: [sf_write] is the number of
    characters written before an error. *)
Record SaveFate := {
  sf_mkdir : bool; sf_open : bool; sf_write : option nat; sf_unlink : bool; sf_replace : bool
}.

(** [os.open(path, O_WRONLY | O_CREAT | O_TRUNC, 0o600)]: the mode applies to a new file. *)
Definition open_private (path : string) (d : Disk) : Disk :=
  <[path := {| df_content := ""; df_mode := match d !! path with Some f => df_mode f | None => STATE_MODE end |}]> d.

Definition set_content (path : string) (content : string) (d : Disk) : Disk :=
  alter (λ f, {| df_content := content; df_mode := df_mode f |}) path d.

(** [os.replace(src, dst)] *)
Definition os_replace (src dst : string) (d : Disk) : Disk :=
  match d !! src with Some f => <[dst := f]> (delete src d) | None => d end.

(** The first [k] characters reached the file. *)
Definition writing (path payload : string) (d : Disk) (k : nat) : Disk :=
  set_content path (String.substring 0 k payload) d.

(** [_write_private]: the disks it goes through and whether it returned.  An error while
    writing removes the file, unless that fails too. *)
Definition write_private (fate : SaveFate) (path payload : string) (d : Disk) : list Disk * bool :=
  if negb (sf_open fate) then ([d], false)
  else
    let opened := open_private path d in
    match sf_write fate with
    | Some k =>
        let cut := writing path payload opened <$> seq 0 (S k) in
        (d :: opened :: cut ++ [if sf_unlink fate then delete path (writing path payload opened k)
                                else writing path payload opened k], false)
    | None =>
        (d :: opened :: (writing path payload opened <$> seq 0 (String.length payload)) ++
           [set_content path payload opened], true)
    end.

(** [save_identity]: [false] is [IdentityError]. *)
Definition save_identity (encode : IdentityState → string) (fate : SaveFate) (path : string) (state : IdentityState)
    (d : Disk) : list Disk * bool :=
  if negb (sf_mkdir fate) then ([d], false)
  else
    let tmp := tmp_of path in
    match write_private fate tmp (encode state) d with
    | (disks, false) => (disks, false)
    | (disks, true) =>
        if sf_replace fate then (disks ++ [os_replace tmp path (List.last disks d)], true) else (disks, false)
    end.

Inductive BootError :=
  | IdentityError                      (* unreadable, malformed or unwritable *)
  | NotEnrollable                      (* no identity and no token *)
  | RegisterRefused (e : RegistryError)
  | RegisterLost.                      (* [CoordinatorTransientError] *)

(** [load_identity] *)
Definition load_identity (decode : string → option IdentityState) (readable : bool) (path : string) (d : Disk)
    : BootError + option IdentityState :=
  match d !! path with
  | None => inr None
  | Some f =>
      if negb readable then inl IdentityError
      else match decode (df_content f) with Some st => inr (Some st) | None => inl IdentityError end
  end.

(** ** A start of the agent *)

Inductive Delivery := RequestLost | ReplyLost | Delivered.

(** What is outside the agent's control: the readability of the file, the fate of the request, what
    the coordinator draws, the fate of the save, and the disk at which the process dies. *)
Record Attempt := {
  at_readable : bool; at_delivery : Delivery; at_host : string; at_now : instant; at_agent : string;
  at_token : string; at_save : SaveFate; at_crash : option nat
}.

(** The settings a start reads. *)
Record Enrolment := { en_state_path : string; en_enrollment_token : option string; en_caps : DeviceCaps }.

Inductive BootResult :=
  | Running (identity : IdentityState) (config : option AgentConfig)   (* [None]: the default [AgentConfig()] *)
  | Failed (e : BootError)
  | Died.

Section Boot.
  Context (sha256 : bytes → bytes) (config : RegistryConfig).
  Context (encode : IdentityState → string) (decode : string → option IdentityState) (s : Enrolment).

(** [if not settings.enrollment_token] *)
Definition token_given : option string :=
  match en_enrollment_token s with Some t => if bool_decide (t = "") then None else Some t | None => None end.

(** The end of [resolve_identity], from the response on; [at_crash] picks a disk of the save. *)
Definition persist (a : Attempt) (response : RegisterResponse) (d : Disk) : Disk * BootResult :=
  let state := {| is_agent_id := rp_agent_id response; is_device_token := rp_device_token response |} in
  let '(disks, saved) := save_identity encode (at_save a) (en_state_path s) state d in
  match at_crash a with
  | Some k => match disks !! k with Some d' => (d', Died) | None => (List.last disks d, Died) end
  | None => (List.last disks d, if saved then Running state (Some (rp_config response)) else Failed IdentityError)
  end.

(** [resolve_identity] *)
Definition resolve_identity (a : Attempt) (w : RDb * Disk) : (RDb * Disk) * BootResult :=
  let '(db, d) := w in
  match load_identity decode (at_readable a) (en_state_path s) d with
  | inl e => (w, Failed e)
  | inr (Some existing) => (w, Running existing None)
  | inr None =>
      match token_given with
      | None => (w, Failed NotEnrollable)
      | Some token =>
          let request := {| rr_enrollment_token := token; rr_protocol_version := PROTOCOL_VERSION; rr_caps := en_caps s |} in
          match at_delivery a with
          | RequestLost => (w, Failed RegisterLost)
          | delivery =>
              match register_agent sha256 config request (at_host a) (at_now a) (at_agent a) (at_token a) db with
              | (db', inl e) => ((db', d), Failed (RegisterRefused e))
              | (db', inr response) =>
                  match delivery with
                  | Delivered => let '(d', r) := persist a response d in ((db', d'), r)
                  | _ => ((db', d), Failed RegisterLost)
                  end
              end
          end
      end
  end.
End Boot.

(** * What enrolment promises

    A save is atomic at every crash point and keeps the credential private; once a machine runs under
    an identity every later start runs under it without registering again; and a registration whose
    reply or save was lost leaves a machine that can never enrol with its token. *)

Section Atomic.
  Context (encode : IdentityState → string) (decode : string → option IdentityState).

Lemma tmp_of_ne path : tmp_of path ≠ path.
Proof. by apply name_suffix. Qed.

(** [d'] differs from [d] at most in the temporary file of [path], which stays private. *)
Record only_tmp (path : string) (d d' : Disk) : Prop := {
  ot_rest q : q ≠ tmp_of path → d' !! q = d !! q;
  ot_mode f : (∀ g, d !! tmp_of path = Some g → df_mode g = STATE_MODE) → d' !! tmp_of path = Some f → df_mode f = STATE_MODE
}.

Lemma only_tmp_refl path d : only_tmp path d d.
Proof. split; [done |]. intros f Hf. apply Hf. Qed.

Lemma open_only_tmp path d : only_tmp path d (open_private (tmp_of path) d).
Proof.
  unfold open_private. split.
  - intros q Hq. by rewrite lookup_insert_ne.
  - intros f Hm. rewrite lookup_insert_eq. intros [= <-]. cbn. destruct (d !! tmp_of path); [by apply Hm | done].
Qed.

Lemma set_content_only_tmp path content d d' :
  only_tmp path d d' → only_tmp path d (set_content (tmp_of path) content d').
Proof.
  intros [H1 H2]. unfold set_content. split.
  - intros q Hq. rewrite lookup_alter_ne by done. auto.
  - intros f Hm. rewrite lookup_alter_eq, fmap_Some. intros (g & Hg & ->). cbn. by apply H2.
Qed.

Lemma delete_only_tmp path d d' : only_tmp path d d' → only_tmp path d (delete (tmp_of path) d').
Proof.
  intros [H1 H2]. split.
  - intros q Hq. rewrite lookup_delete_ne by done. auto.
  - intros f _. by rewrite lookup_delete_eq.
Qed.

Lemma write_private_spec fate path payload d :
  match write_private fate (tmp_of path) payload d with
  | (disks, ok) =>
      Forall (only_tmp path d) disks ∧
      (ok = true → ∃ mode, List.last disks d !! tmp_of path = Some {| df_content := payload; df_mode := mode |})
  end.
Proof.
  unfold write_private. destruct (negb (sf_open fate)); [split; [apply Forall_singleton, only_tmp_refl | done] |].
  pose proof (open_only_tmp path d) as Ho.
  assert (Hw : ∀ l, Forall (only_tmp path d) (writing (tmp_of path) payload (open_private (tmp_of path) d) <$> l)).
  { intros l. apply Forall_fmap, Forall_forall. intros k _. by apply set_content_only_tmp. }
  destruct (sf_write fate) as [k |]; split; try done.
  - constructor; [apply only_tmp_refl |]. constructor; [done |]. apply Forall_app. split; [apply Hw |].
    apply Forall_singleton. destruct (sf_unlink fate); [apply delete_only_tmp |]; by apply set_content_only_tmp.
  - constructor; [apply only_tmp_refl |]. constructor; [done |]. apply Forall_app. split; [apply Hw |].
    apply Forall_singleton. by apply set_content_only_tmp.
  - intros _. rewrite app_comm_cons, app_comm_cons, List.last_last. unfold set_content, open_private.
    rewrite lookup_alter_eq, lookup_insert_eq. by eexists.
Qed.

(** A disk a save goes through: nothing published yet, or the whole new identity. *)
Definition published (path : string) (state : IdentityState) (d' : Disk) : Prop :=
  df_content <$> d' !! path = Some (encode state).

Lemma save_identity_spec fate path state d :
  match save_identity encode fate path state d with
  | (disks, ok) =>
      Forall (λ d', (d' !! path = d !! path ∨ published path state d') ∧
                    (∀ q, q ≠ path → q ≠ tmp_of path → d' !! q = d !! q) ∧
                    ((∀ q f, q = path ∨ q = tmp_of path → d !! q = Some f → df_mode f = STATE_MODE) →
                     ∀ q f, q = path ∨ q = tmp_of path → d' !! q = Some f → df_mode f = STATE_MODE)) disks ∧
      disks ≠ [] ∧ (if ok then published path state (List.last disks d) else List.last disks d !! path = d !! path)
  end.
Proof.
  assert (Hot : ∀ d', only_tmp path d d' →
    (d' !! path = d !! path ∨ published path state d') ∧ (∀ q, q ≠ path → q ≠ tmp_of path → d' !! q = d !! q) ∧
    ((∀ q f, q = path ∨ q = tmp_of path → d !! q = Some f → df_mode f = STATE_MODE) →
     ∀ q f, q = path ∨ q = tmp_of path → d' !! q = Some f → df_mode f = STATE_MODE)).
  { intros d' [H1 H2]. pose proof (tmp_of_ne path) as Hne. split; [left; by apply H1 |]. split; [auto |].
    intros Hm q f [-> | ->] Hf; [rewrite H1 in Hf by done; eauto | eapply H2; eauto]. }
  assert (Hlast : ∀ disks : list Disk, Forall (only_tmp path d) disks → only_tmp path d (List.last disks d)).
  { intros disks Hd. induction Hd as [| x xs Hx Hxs IH]; [apply only_tmp_refl |]. by destruct xs. }
  unfold save_identity. destruct (negb (sf_mkdir fate)).
  { split_and!; [| done | done]. constructor; [apply Hot, only_tmp_refl | done]. }
  pose proof (write_private_spec fate path (encode state) d) as Hw.
  assert (Hnil : (write_private fate (tmp_of path) (encode state) d).1 ≠ []).
  { unfold write_private. destruct (negb _); [done |]. by destruct (sf_write fate). }
  destruct (write_private _ _ _ _) as [disks ok]. destruct Hw as [Hd Hok]. specialize (Hlast disks Hd).
  assert (Hpath : List.last disks d !! path = d !! path) by (apply Hlast; by apply not_eq_sym, tmp_of_ne).
  pose proof (Forall_impl _ _ _ Hd Hot) as HF.
  destruct ok; [destruct (sf_replace fate) |]; try (by split_and!).
  destruct Hok as [mode Hmode]; [done |]. rewrite List.last_last.
  assert (Hrep : os_replace (tmp_of path) path (List.last disks d) =
    <[path := {| df_content := encode state; df_mode := mode |}]> (delete (tmp_of path) (List.last disks d))).
  { unfold os_replace. by rewrite Hmode. }
  assert (Hpub : published path state (os_replace (tmp_of path) path (List.last disks d))).
  { unfold published. rewrite Hrep, lookup_insert_eq. done. }
  split_and!; [| intros [_ ?]%app_nil; done | done]. apply Forall_app. split; [done |]. constructor; [| done].
  split_and!; [by right | |].
  - intros q Hq Hq'. rewrite Hrep, lookup_insert_ne, lookup_delete_ne by done. by apply Hlast.
  - intros Hm q f Hq. rewrite Hrep. intros [[<- <-] | [Hne Hf]]%lookup_insert_Some; cbn.
    + change mode with (df_mode {| df_content := encode state; df_mode := mode |}). eapply Hlast; [| exact Hmode]. eauto.
    + destruct Hq as [-> | ->]; [done |]. by rewrite lookup_delete_eq in Hf.
Qed.
End Atomic.

(** ** Histories of starts *)

(** A start of the agent, or a call of someone else on the registry. *)
Inductive EStep := EBoot (a : Attempt) | EOther (c : RCall).

Section Lifecycle.
  Context (sha256 : bytes → bytes) (config : RegistryConfig).
  Context (encode : IdentityState → string) (decode : string → option IdentityState) (s : Enrolment).
  Local Abbreviation boot := (resolve_identity sha256 config encode decode s).
  Local Abbreviation path := (en_state_path s).

Definition run_estep (w : RDb * Disk) (st : EStep) : RDb * Disk :=
  match st with EBoot a => (boot a w).1 | EOther c => (reg_call sha256 config c w.1, w.2) end.

(** A file is private when it has the permission bits of the state file. *)
Definition private (d : Disk) : Prop :=
  ∀ q f, q = path ∨ q = tmp_of path → d !! q = Some f → df_mode f = STATE_MODE.

Lemma persist_spec a response d :
  let state := {| is_agent_id := rp_agent_id response; is_device_token := rp_device_token response |} in
  match persist encode s a response d with
  | (d', r) =>
      (d' !! path = d !! path ∨ published encode path state d') ∧
      (∀ q, q ≠ path → q ≠ tmp_of path → d' !! q = d !! q) ∧ (private d → private d') ∧
      match r with
      | Running i c => i = state ∧ c = Some (rp_config response) ∧ published encode path state d'
      | Failed _ => d' !! path = d !! path
      | Died => True
      end
  end.
Proof.
  intros state. unfold persist. fold state. pose proof (save_identity_spec encode (at_save a) path state d) as Hs.
  destruct (save_identity _ _ _ _ _) as [disks ok]. destruct Hs as (HF & Hnil & Hlast).
  assert (Hl : List.last disks d ∈ disks).
  { destruct disks as [| x disks] using rev_ind; [done |]. rewrite List.last_last. set_solver. }
  rewrite Forall_forall in HF. destruct (at_crash a) as [k |].
  - destruct (disks !! k) as [d' |] eqn:Hk.
    + apply list_elem_of_lookup_2 in Hk. destruct (HF _ Hk) as (H1 & H2 & H3). auto.
    + destruct (HF _ Hl) as (H1 & H2 & H3). auto.
  - destruct (HF _ Hl) as (H1 & H2 & H3). split_and!; try done. by destruct ok.
Qed.

(** How a start ends: without an effect; refused by the registry; or registered. *)
Lemma boot_cases a db d :
  reg_ok db →
  (∃ i, load_identity decode (at_readable a) path d = inr (Some i) ∧ boot a (db, d) = ((db, d), Running i None)) ∨
  (∃ e, boot a (db, d) = ((db, d), Failed e)) ∨
  (∃ token db' response, d !! path = None ∧ token_given s = Some token ∧ spent (hash_token sha256 token) db' ∧
     is_Some (od_get (at_agent a) (r_agents db')) ∧ db' = reg_call sha256 config (Register {| rr_enrollment_token := token; rr_protocol_version := PROTOCOL_VERSION; rr_caps := en_caps s |}
             (at_host a) (at_now a) (at_agent a) (at_token a)) db ∧
     rp_agent_id response = at_agent a ∧ rp_device_token response = at_token a ∧
     ((at_delivery a = ReplyLost ∧ boot a (db, d) = ((db', d), Failed RegisterLost)) ∨
      (at_delivery a = Delivered ∧
       boot a (db, d) = ((db', (persist encode s a response d).1), (persist encode s a response d).2)))).
Proof.
  intros Hok. unfold resolve_identity. unfold load_identity. destruct (d !! path) as [f |] eqn:Hp.
  { destruct (negb (at_readable a)); [right; left; by eexists |].
    destruct (decode (df_content f)) as [i |]; [left; by exists i | right; left; by eexists]. }
  destruct (token_given s) as [token |] eqn:Ht; [| right; left; by eexists].
  set (request := {| rr_enrollment_token := token; rr_protocol_version := PROTOCOL_VERSION; rr_caps := en_caps s |}).
  assert (Hbody : at_delivery a ≠ RequestLost → match register_agent sha256 config request (at_host a) (at_now a) (at_agent a) (at_token a) db with
    | (db', inl e) => db' = db
    | (db', inr response) => spent (hash_token sha256 token) db' ∧ is_Some (od_get (at_agent a) (r_agents db')) ∧ rp_agent_id response = at_agent a ∧ rp_device_token response = at_token a
    end).
  { intros _. destruct (register_cases sha256 config request (at_host a) (at_now a) (at_agent a) (at_token a) db Hok)
      as [(e & -> & _) | (t & resp & Ht' & _ & Hn & -> & ->)]; [done |].
    split; [| split; [cbn; rewrite od_get_app, Hn; cbn; rewrite bool_decide_eq_true_2; by eauto | done]].
    destruct (spend_spent (at_now a) false (hash_token sha256 token) db) as (t' & Ht'' & Hu); [by eexists |]. by exists t'. }
  destruct (at_delivery a) eqn:Hd; [right; left; by eexists | |]; specialize (Hbody ltac:(done));
    destruct (register_agent _ _ _ _ _ _ _ db) as [db' [e | response]] eqn:Hr; subst;
    try (right; left; by eexists); right; right; exists token, db', response;
    (split_and!; [done | done | apply Hbody | apply Hbody | unfold reg_call; fold request; by rewrite Hr | apply Hbody | apply Hbody |]);
    [left | right]; (split; [done |]); [done |]. by destruct (persist _ _ _ _ _).
Qed.

Lemma run_estep_steps w st : reg_ok w.1 → rtc (reg_step sha256 config) w.1 (run_estep w st).1.
Proof.
  destruct w as [db d]. intros Hok. destruct st as [a | c]; unfold run_estep; cbn [fst snd] in *; [| apply rtc_once; by exists c].
  destruct (boot_cases a db d Hok) as [(i & _ & ->) | [(e & ->) | (token & db' & resp & _ & _ & _ & _ & -> & _ & _ & [[_ ->] | [_ ->]])]];
    cbn [fst snd]; try apply rtc_refl; apply rtc_once; by eexists.
Qed.

Lemma run_estep_ok w st : reg_ok w.1 → reg_ok (run_estep w st).1.
Proof. intros Hok. apply (reg_steps_ok sha256 config w.1); [done | by apply run_estep_steps]. Qed.

(** The identity on disk is [i]. *)
Definition holds_identity (d : Disk) (i : IdentityState) : Prop := ∃ f, d !! path = Some f ∧ decode (df_content f) = Some i.

Lemma run_estep_holds w st i : reg_ok w.1 → holds_identity w.2 i → holds_identity (run_estep w st).2 i.
Proof.
  destruct w as [db d]. intros Hok (f & Hf & Hi). exists f. split; [| done]. destruct st as [a | c]; unfold run_estep; cbn [fst snd] in *; [| done].
  destruct (boot_cases a db d Hok) as [(j & _ & ->) | [(e & ->) | (token & db' & resp & Hnone & _)]]; [done | done |].
  by rewrite Hf in Hnone.
Qed.

Lemma run_esteps_ok sts w : reg_ok w.1 → reg_ok (fold_left run_estep sts w).1 ∧ steps_well w.1 (fold_left run_estep sts w).1.
Proof.
  revert w. induction sts as [| st sts IH]; intros w Hok; cbn; [split; [done | by apply steps_well_refl] |].
  destruct (IH (run_estep w st)) as [H1 H2]; [by apply run_estep_ok |]. split; [done |].
  apply (steps_well_trans w.1 (run_estep w st).1); [| done]. eapply reg_steps_ok; [done | by apply run_estep_steps].
Qed.

Lemma run_esteps_holds sts w i : reg_ok w.1 → holds_identity w.2 i → holds_identity (fold_left run_estep sts w).2 i.
Proof.
  revert w. induction sts as [| st sts IH]; intros w Hok Hi; cbn; [done |].
  apply IH; [by apply run_estep_ok | by apply run_estep_holds].
Qed.

Lemma loads_boot a db d i :
  holds_identity d i → at_readable a = true → boot a (db, d) = ((db, d), Running i None).
Proof. intros (f & Hf & Hi) Hr. unfold resolve_identity, load_identity. rewrite Hf, Hr. cbn. by rewrite Hi. Qed.

(** C26: a start of the agent, whatever the network, the disk and the coordinator do and wherever
    the process dies, leaves at the state path either what was there or the complete identity
    issued by the registration it made, and touches no other file but the temporary one; a state
    file and a temporary file readable by their owner only stay so; a start that returns has its
    identity on disk, and one that fails has left the state file alone. *)
Theorem identity_atomic a db d :
  (∀ st, decode (encode st) = Some st) → reg_reachable sha256 config db →
  match boot a (db, d) with
  | ((db', d'), r) =>
      (d' !! path = d !! path ∨
       d !! path = None ∧ is_Some (od_get (at_agent a) (r_agents db')) ∧ holds_identity d' {| is_agent_id := at_agent a; is_device_token := at_token a |}) ∧
      (∀ q, q ≠ path → q ≠ tmp_of path → d' !! q = d !! q) ∧ (private d → private d') ∧
      match r with
      | Running i _ => holds_identity d' i
      | Failed _ => d' !! path = d !! path
      | Died => True
      end
  end.
Proof.
  intros Hdec Hok%reg_reachable_ok. destruct (boot_cases a db d Hok) as [(i & Hl & ->) | [(e & ->) | (token & db' & resp & Hnone & Ht & Hsp & Hrow & Hdb' & Ha & Htok & Hend)]].
  - split_and!; try done; [by left |]. unfold load_identity in Hl. destruct (d !! path) as [f |] eqn:Hf; [| done].
    destruct (negb _); [done |]. destruct (decode (df_content f)) eqn:Hd; [| done]. injection Hl as ->. by exists f.
  - split_and!; try done. by left.
  - destruct Hend as [[_ ->] | [_ ->]]; [split_and!; try done; by left |].
    pose proof (persist_spec a resp d) as Hp. destruct (persist encode s a resp d) as [d' r]. cbn [fst snd].
    rewrite Ha, Htok in Hp. destruct Hp as (Hfile & Hrest & Hpriv & Hr).
    assert (Hpub : published encode path {| is_agent_id := at_agent a; is_device_token := at_token a |} d' →
      holds_identity d' {| is_agent_id := at_agent a; is_device_token := at_token a |}).
    { unfold published. intros (f & Hf & Hc)%fmap_Some. exists f. split; [done | by rewrite <- Hc]. }
    split_and!; try done.
    + destruct Hfile as [? | ?]; [by left | right]. split_and!; auto.
    + destruct r; try done. destruct Hr as (-> & _ & ?). auto.
Qed.

Lemma running_holds a db d w1 i c :
  (∀ st, decode (encode st) = Some st) → reg_ok db → boot a (db, d) = (w1, Running i c) → reg_ok w1.1 ∧ holds_identity w1.2 i.
Proof.
  intros Hdec Hok Hb. split; [change w1 with (w1, Running i c).1; rewrite <- Hb; apply (run_estep_ok (db, d) (EBoot a)); done |].
  destruct (boot_cases a db d Hok) as [(j & Hl & He) | [(e & He) | (token & db' & resp & _ & _ & _ & _ & _ & _ & _ & [[_ He] | [_ He]])]];
    rewrite Hb in He; try done.
  - injection He as -> -> _. cbn. unfold load_identity in Hl. destruct (d !! path) as [f |] eqn:Hf; [| done].
    destruct (negb _); [done |]. destruct (decode (df_content f)) eqn:Hd; [| done]. injection Hl as ->. by exists f.
  - pose proof (persist_spec a resp d) as Hp. destruct (persist encode s a resp d) as [d' r]. cbn in He. injection He as -> <-.
    destruct Hp as (_ & _ & _ & -> & _ & (f & Hf & Hc)%fmap_Some). exists f. by rewrite <- Hc.
Qed.

(** A machine enrols once.  After a start that ran under an identity, every later start that
    can read the state file runs under the same identity and leaves registry and disk alone,
    whatever happened in between: starts that failed or died, and any calls on the registry. *)
Theorem enrols_once a b db d w1 i c sts :
  (∀ st, decode (encode st) = Some st) → reg_reachable sha256 config db →
  boot a (db, d) = (w1, Running i c) → at_readable b = true →
  let w2 := fold_left run_estep sts w1 in boot b w2 = (w2, Running i None).
Proof.
  intros Hdec Hok%reg_reachable_ok Hb Hr w2. destruct (running_holds a db d w1 i c Hdec Hok Hb) as [Hok1 Hi].
  pose proof (run_esteps_holds sts w1 i Hok1 Hi) as Hi2. fold w2 in Hi2. destruct w2 as [db2 d2]. by apply loads_boot.
Qed.

(** No identity on disk and a token that is used up. *)
Definition stranded (w : RDb * Disk) (token : string) : Prop :=
  reg_ok w.1 ∧ w.2 !! path = None ∧ spent (hash_token sha256 token) w.1.

Lemma stranded_boot a w token :
  token_given s = Some token → stranded w token → ∃ e, boot a w = (w, Failed e).
Proof.
  destruct w as [db d]. intros Ht (Hok & Hnone & (t & Htok & Hu)). cbn [fst snd] in *. unfold resolve_identity, load_identity.
  rewrite Hnone, Ht. set (request := {| rr_enrollment_token := token; rr_protocol_version := PROTOCOL_VERSION; rr_caps := en_caps s |}).
  destruct (register_cases sha256 config request (at_host a) (at_now a) (at_agent a) (at_token a) db Hok)
    as [(e & He & _) | (t' & resp & Ht' & Hu' & _)]; [| cbn in Ht'; congruence].
  cbv zeta. fold request. destruct (at_delivery a); [by eexists | |]; rewrite He; by eexists.
Qed.

Lemma stranded_step w st token : token_given s = Some token → stranded w token → stranded (run_estep w st) token.
Proof.
  intros Ht Hs. destruct st as [a | c]; unfold run_estep.
  - by destruct (stranded_boot a w token Ht Hs) as [e ->].
  - destruct Hs as (Hok & Hnone & Hsp). destruct (reg_call_ok sha256 config c w.1 Hok) as [Hok' Hg].
    split; [done |]. split; [done |]. by eapply spent_grows.
Qed.

(** An enrolment can be lost for good.  When a start has registered with the coordinator but
    its reply, its save or the process was lost before the identity reached the disk, every later
    start with the same settings fails, whatever else happens: the machine has no identity and its
    one-time token is used up. *)
Theorem lost_enrolment_strands a b db d db1 d1 r sts :
  reg_reachable sha256 config db → boot a (db, d) = ((db1, d1), r) → r_agents db1 ≠ r_agents db → d1 !! path = None →
  let w2 := fold_left run_estep sts (db1, d1) in ∃ e, boot b w2 = (w2, Failed e).
Proof.
  intros Hok%reg_reachable_ok Hb Hnew Hnone w2.
  destruct (boot_cases a db d Hok) as [(j & _ & He) | [(e & He) | (token & db' & resp & _ & Ht & Hsp & _ & Hdb' & _ & _ & Hend)]];
    [rewrite Hb in He; congruence | rewrite Hb in He; congruence |].
  assert (Hdb1 : db1 = db') by (destruct Hend as [[_ He] | [_ He]]; rewrite Hb in He; congruence).
  assert (Hs : stranded (db1, d1) token).
  { subst db1. split; [| done]. cbn. rewrite Hdb'. by apply reg_call_ok. }
  apply (stranded_boot b w2 token Ht). subst w2. revert Hs. generalize (db1, d1). clear -Ht.
  induction sts as [| st sts IH]; intros w Hs; cbn [fold_left]; [done |]. apply IH. by apply stranded_step.
Qed.
End Lifecycle.

(** ** A concrete machine *)

(** A text form of an identity: the characters of the agent id, each marked, then the token. *)
Fixpoint mark (s : string) (rest : string) : string :=
  match s with
  | EmptyString => String "." rest
  | String c s => String "x" (String c (mark s rest))
  end.

Fixpoint unmark (text : string) : option (string * string) :=
  match text with
  | String m (String c text') =>
      if bool_decide (m = "x"%char) then (λ p, (String c p.1, p.2)) <$> unmark text'
      else Some ("", String c text')
  | String _ EmptyString => Some ("", "")
  | EmptyString => None
  end.

Definition demo_encode (st : IdentityState) : string := mark (is_agent_id st) (is_device_token st).

Definition demo_decode (text : string) : option IdentityState :=
  (λ p, {| is_agent_id := p.1; is_device_token := p.2 |}) <$> unmark text.

Lemma demo_decode_encode st : demo_decode (demo_encode st) = Some st.
Proof.
  destruct st as [a t]. unfold demo_decode, demo_encode. cbn.
  assert (unmark (mark a t) = Some (a, t)) as ->; [| done].
  induction a as [| c a IH]; cbn; [by destruct t |]. by rewrite IH.
Qed.

Definition machine : Enrolment := {|
  en_state_path := "/agent/identity"; en_enrollment_token := Some "join-me"; en_caps := desk_caps |}.

Definition smooth : SaveFate := {| sf_mkdir := true; sf_open := true; sf_write := None; sf_unlink := true; sf_replace := true |}.

(** A start that may lose its reply or die at a disk of the save. *)
Definition attempt (delivery : Delivery) (agent : string) (crash : option nat) : Attempt := {|
  at_readable := true; at_delivery := delivery; at_host := "10.0.0.2"; at_now := 1; at_agent := agent;
  at_token := "device"; at_save := smooth; at_crash := crash |}.

Definition demo_boot : Attempt → RDb * Disk → (RDb * Disk) * BootResult :=
  resolve_identity plain_sha demo_rc demo_encode demo_decode machine.

Definition desk_identity : IdentityState := {| is_agent_id := "a"; is_device_token := "device" |}.

Lemma minted_reachable : reg_reachable plain_sha demo_rc minted.
Proof. exact (run_calls_steps [CreateToken "site" "join-me" 0] empty_rdb). Qed.

(** Dying at every disk of a save leaves no identity or the whole one. *)
Lemma identity_atomic_witness :
  let r := demo_boot (attempt Delivered "a" (Some 5%nat)) (minted, ∅) in
  r.2 = Died ∧ (r.1.2 !! "/agent/identity" = None ∨ is_Some (r.1.2 !! "/agent/identity")) ∧ private machine r.1.2.
Proof.
  intros r. split; [vm_compute; reflexivity |].
  pose proof (identity_atomic plain_sha demo_rc demo_encode demo_decode machine (attempt Delivered "a" (Some 5%nat)) minted ∅
    demo_decode_encode minted_reachable) as H. fold demo_boot in H. fold r in H. destruct r as [[db' d'] res].
  destruct H as (H1 & _ & H2 & _). split.
  - destruct H1 as [H1 | (_ & _ & (f & Hf & _))]; [left; exact H1 | right; exists f; exact Hf].
  - apply H2. intros q f _ Hf. discriminate (Hf : None = Some f).
Defined.

Definition enrolled_machine : RDb * Disk := (demo_boot (attempt Delivered "a" None) (minted, ∅)).1.

Lemma enrols_once_witness :
  let w2 := fold_left (run_estep plain_sha demo_rc demo_encode demo_decode machine)
              [EBoot (attempt Delivered "b" (Some 3%nat)); EOther (RevokeAgent "a" 5)] enrolled_machine in
  demo_boot (attempt Delivered "c" None) w2 = (w2, Running desk_identity None).
Proof.
  apply (enrols_once plain_sha demo_rc demo_encode demo_decode machine (attempt Delivered "a" None) (attempt Delivered "c" None)
    minted ∅ enrolled_machine desk_identity (Some (agent_config demo_rc []))).
  - exact demo_decode_encode.
  - exact minted_reachable.
  - apply injective_projections; [reflexivity | vm_compute; reflexivity].
  - reflexivity.
Defined.

(** The reply to the only registration is lost. *)
Definition lost_machine : RDb * Disk := (demo_boot (attempt ReplyLost "a" None) (minted, ∅)).1.

Lemma lost_enrolment_strands_witness :
  let w2 := fold_left (run_estep plain_sha demo_rc demo_encode demo_decode machine)
              [EBoot (attempt Delivered "b" None)] (lost_machine.1, lost_machine.2) in
  ∃ e, demo_boot (attempt Delivered "c" None) w2 = (w2, Failed e).
Proof.
  apply (lost_enrolment_strands plain_sha demo_rc demo_encode demo_decode machine (attempt ReplyLost "a" None)
    (attempt Delivered "c" None) minted ∅ lost_machine.1 lost_machine.2 (Failed RegisterLost)).
  - exact minted_reachable.
  - apply injective_projections; [reflexivity | vm_compute; reflexivity].
  - vm_compute. discriminate.
  - vm_compute. reflexivity.
Defined.
