(* ===== verification/JoinBundles.v ===== *)
(** * Writing site join files

    Models src/packages/fallow-cli/src/fallow_cli/site/join_bundles.py.  The output directory maps
    names to contents and permission bits.  Every system call may fail, and before each of them
    other processes may have created files (a name that exists is left alone); which calls fail,
    what others create, the names [mkstemp] draws and how much of a write went through before the
    rest are parameters, indexed by the number of the call.  The local lists of the functions are
    part of the state, since handlers read what the body had done by then. *)

From stdpp Require Import pretty.
From S2P Require Export Registry.

Record JFile := { jf_content : string; jf_mode : Z }.

Abbreviation Files := (gmap string JFile).

(** [SiteJoinBundle] *)
Record SiteJoinBundle := {
  jb_version : Z; jb_site_id : string; jb_coordinator_urls : list string; jb_spki_sha256 : list string;
  jb_enrollment_token : string; jb_mdns_service : option string
}.

(** Exceptions: [OSError], its subclass [FileExistsError], and [CliError] with the backups its
    message names. *)
Inductive JErr := OSErr | FileExists | CliError (message : string) (preserved : list string).

Definition is_os_error (e : JErr) : bool := match e with OSErr | FileExists => true | CliError _ _ => false end.

Record JState := {
  js_files : Files; js_calls : nat;
  js_temporary : list string; js_created : list string;
  js_backups : odict string; js_replaced : list string
}.

Abbreviation J := (Eff JState JErr).

Definition set_files (f : Files) (s : JState) : JState := {|
  js_files := f; js_calls := js_calls s; js_temporary := js_temporary s; js_created := js_created s;
  js_backups := js_backups s; js_replaced := js_replaced s |}.

Definition push_temporary (p : string) (s : JState) : JState := {|
  js_files := js_files s; js_calls := js_calls s; js_temporary := js_temporary s ++ [p]; js_created := js_created s;
  js_backups := js_backups s; js_replaced := js_replaced s |}.

Definition push_created (p : string) (s : JState) : JState := {|
  js_files := js_files s; js_calls := js_calls s; js_temporary := js_temporary s; js_created := js_created s ++ [p];
  js_backups := js_backups s; js_replaced := js_replaced s |}.

Definition set_backups (f : odict string → odict string) (s : JState) : JState := {|
  js_files := js_files s; js_calls := js_calls s; js_temporary := js_temporary s; js_created := js_created s;
  js_backups := f (js_backups s); js_replaced := js_replaced s |}.

Definition push_replaced (p : string) (s : JState) : JState := {|
  js_files := js_files s; js_calls := js_calls s; js_temporary := js_temporary s; js_created := js_created s;
  js_backups := js_backups s; js_replaced := js_replaced s ++ [p] |}.

(** [f"{i:02d}"] *)
Definition two_digits (i : nat) : string := if (i <? 10)%nat then "0" +:+ pretty i else pretty i.

(** [join_bundle_paths], as names in the output directory *)
Definition join_bundle_paths (count : nat) : list string :=
  (λ i, "desk-" +:+ two_digits i +:+ ".fallow-join") <$> seq 1 count.

(** [preflight_destinations] *)
Definition preflight_destinations (count : nat) (force : bool) (files : Files) : option JErr :=
  if force then None
  else if existsb (λ p, bool_decide (is_Some (files !! p))) (join_bundle_paths count)
  then Some (CliError "join file already exists; use --force to overwrite" []) else None.

(** [try: body except OSError as exc: handler(exc)] *)
Definition except_os {A} (body : J A) (handler : JErr → J A) : J A := λ s,
  match body s with
  | (s', inl e) => if is_os_error e then handler e s' else (s', inl e)
  | r => r
  end.

(** [try: body finally: last]: an exception of [last] replaces what [body] returned or raised. *)
Definition try_finally {A} (body : J A) (last : J unit) : J A := λ s,
  let '(s', r) := body s in
  match last s' with
  | (s2, inl e) => (s2, inl e)
  | (s2, inr _) => (s2, r)
  end.

Section Install.
  Context (faulty : nat → bool) (draw : nat → string) (chop : nat → nat) (intrude : nat → list (string * JFile)).
  Context (sha256 : bytes → bytes) (dump : SiteJoinBundle → string).

(** What other processes created before call [k]. *)
Definition others (k : nat) (files : Files) : Files :=
  fold_left (λ files p, match files !! p.1 with Some _ => files | None => <[p.1 := p.2]> files end) (intrude k) files.

(** A system call. *)
Definition sys {A} (op : nat → Files → JErr + Files * A) : J A := λ s,
  let k := js_calls s in
  let files := others k (js_files s) in
  let s' := {| js_files := files; js_calls := S k; js_temporary := js_temporary s; js_created := js_created s;
               js_backups := js_backups s; js_replaced := js_replaced s |} in
  if faulty k then (s', inl OSErr)
  else
    match op k files with
    | inl e => (s', inl e)
    | inr (files', a) => (set_files files' s', inr a)
    end.

(** [tempfile.mkstemp(prefix=..., dir=output)] *)
Definition mkstemp (prefix : string) : J string :=
  sys (λ k files, let name := prefix +:+ draw k in
    match files !! name with
    | Some _ => inl FileExists
    | None => inr (<[name := {| jf_content := ""; jf_mode := 384 |}]> files, name)
    end).

Definition with_content (name content : string) (files : Files) : Files :=
  alter (λ f, {| jf_content := content; jf_mode := jf_mode f |}) name files.

(** Writing, flushing and syncing: a prefix first, then the rest. *)
Definition write_all (name content : string) : J unit :=
  sys (λ k files, inr (with_content name (String.substring 0 (chop k) content) files, tt)) ;;
  sys (λ _ files, inr (with_content name content files, tt)).

(** [_restrict_to_owner] *)
Definition restrict_to_owner (name : string) : J unit :=
  sys (λ _ files, inr (alter (λ f, {| jf_content := jf_content f; jf_mode := 384 |}) name files, tt)).

(** [path.unlink(missing_ok=True)] *)
Definition unlink (name : string) : J unit := sys (λ _ files, inr (delete name files, tt)).

(** [os.link(src, dst)] *)
Definition link (src dst : string) : J unit :=
  sys (λ _ files,
    match files !! src, files !! dst with
    | Some f, None => inr (<[dst := f]> files, tt)
    | Some _, Some _ => inl FileExists
    | None, _ => inl OSErr
    end).

(** [os.replace(src, dst)] *)
Definition replace (src dst : string) : J unit :=
  sys (λ _ files, match files !! src with Some f => inr (<[dst := f]> (delete src files), tt) | None => inl OSErr end).

(** [_write_temporary] *)
Definition write_temporary (name : string) (bundle : SiteJoinBundle) : J string :=
  path ← mkstemp ("." +:+ name +:+ ".");
  except_os (write_all path (dump bundle) ;; restrict_to_owner path) (λ e, unlink path ;; raise e) ;;
  mret path.

(** [_copy_temporary] *)
Definition copy_temporary (name source : string) : J string :=
  path ← mkstemp ("." +:+ name +:+ ".backup.");
  except_os
    (content ← sys (λ _ files, match files !! source with Some f => inr (files, jf_content f) | None => inl OSErr end);
     write_all path content ;; restrict_to_owner path)
    (λ e, unlink path ;; raise e) ;;
  mret path.

(** The two loops' bodies that both installs share: write every bundle to a temporary file. *)
Definition write_temporaries (paths : list string) (bundles : list SiteJoinBundle) : J unit :=
  for_each (λ p : string * SiteJoinBundle, temp ← write_temporary p.1 p.2; modify (push_temporary temp)) (zip paths bundles).

(** The handler of [_install_no_clobber]. *)
Definition take_back (exc : JErr) : J unit :=
  created ← gets js_created;
  for_each unlink (reverse created) ;;
  raise (CliError (match exc with
                   | FileExists => "join file already exists; use --force to overwrite"
                   | _ => "could not write join files"
                   end) []).

(** [_install_no_clobber] *)
Definition install_no_clobber (paths : list string) (bundles : list SiteJoinBundle) : J unit :=
  try_finally
    (except_os
      (write_temporaries paths bundles ;;
       temporary ← gets js_temporary;
       for_each (λ p : string * string, link p.2 p.1 ;; modify (push_created p.1)) (zip paths temporary))
      take_back)
    (temporary ← gets js_temporary; for_each unlink temporary).

(** [_rollback]: the backups that could not be put back. *)
Fixpoint rollback_each (replaced : list string) (preserved : list string) : J (list string) :=
  match replaced with
  | [] => mret preserved
  | path :: rest =>
      backup ← gets (λ s, od_get path (js_backups s));
      modify (set_backups (od_pop path)) ;;
      match backup with
      | None => unlink path ;; rollback_each rest preserved
      | Some backup =>
          failed ← except_os (replace backup path ;; mret false) (λ _, mret true);
          rollback_each rest (if failed : bool then preserved ++ [backup] else preserved)
      end
  end.

Definition rollback : J (list string) :=
  replaced ← gets js_replaced; rollback_each (reverse replaced) [].

(** [_install_overwriting] *)
Definition install_overwriting (paths : list string) (bundles : list SiteJoinBundle) : J unit :=
  try_finally
    (except_os
      (write_temporaries paths bundles ;;
       for_each (λ path,
         there ← gets (λ s, bool_decide (is_Some (js_files s !! path)));
         if there : bool
         then backup ← copy_temporary path path; modify (set_backups (od_set path backup))
         else mret tt) paths ;;
       temporary ← gets js_temporary;
       for_each (λ p : string * string, replace p.2 p.1 ;; modify (push_replaced p.1)) (zip paths temporary))
      (λ exc, preserved ← rollback; raise (CliError "could not write join files" preserved)))
    (leftover ← gets (λ s, js_temporary s ++ (js_backups s).*2); for_each unlink leftover).

(** [token_id] *)
Definition cli_token_id (token : string) : string := prefix_of 12 (hash_token sha256 token).

(** What is printed of a written bundle. *)
Record JoinRow := {
  jr_path : string; jr_site_id : string; jr_coordinator_urls : list string; jr_pin_prefix : string; jr_token_id : string
}.

(** [write_join_bundles] *)
Definition write_join_bundles (bundles : list SiteJoinBundle) (force : bool) : J (list JoinRow) :=
  if bool_decide (bundles = []) then raise (CliError "coordinator returned no join bundles" [])
  else
    except_os (sys (λ _ files, inr (files, tt)))
      (λ _, raise (CliError "could not create join file directory" [])) ;;
    let paths := join_bundle_paths (length bundles) in
    there ← gets (λ s, existsb (λ p, bool_decide (is_Some (js_files s !! p))) paths);
    if negb force && there then raise (CliError "join file already exists; use --force to overwrite" [])
    else
      (if force then install_overwriting paths bundles else install_no_clobber paths bundles) ;;
      mret ((λ p : string * SiteJoinBundle, {|
        jr_path := p.1; jr_site_id := jb_site_id p.2; jr_coordinator_urls := jb_coordinator_urls p.2;
        jr_pin_prefix := prefix_of 16 (default "" (head (jb_spki_sha256 p.2)));
        jr_token_id := cli_token_id (jb_enrollment_token p.2) |}) <$> zip paths bundles).
End Install.
