(* ===== verification/JoinBundlesSpec.v ===== *)
(** * What writing join files promises

    Without force, whatever fails and whatever other invocations create meanwhile: no file that was
    there is touched, a returned call has written every bundle privately, and a refused one has taken
    back every join file it made.  With force: a returned call has replaced every file, a refused one
    has put every old content back or names the backup that still holds it. *)

From S2P Require Export JoinBundles.

(** ** Names *)

Definition hidden (q : string) : bool := match q with String "." _ => true | _ => false end.

Lemma join_paths_visible n p : p ∈ join_bundle_paths n → hidden p = false.
Proof. unfold join_bundle_paths. by intros (i & -> & _)%list_elem_of_fmap. Qed.

Lemma join_paths_length n : length (join_bundle_paths n) = n.
Proof. unfold join_bundle_paths. by rewrite length_fmap, length_seq. Qed.

(** ** System calls *)

Section Others.
  Context (intrude : nat → list (string * JFile)).

Local Abbreviation others := (others intrude).

Definition foreign (q : string) (f : JFile) : Prop := ∃ k, (q, f) ∈ intrude k.

Lemma others_keeps k files q f : files !! q = Some f → others k files !! q = Some f.
Proof.
  unfold JoinBundles.others. generalize (intrude k) as l. intros l. revert files. induction l as [| [a g] l IH]; intros files Hq; cbn; [done |].
  apply IH. destruct (files !! a) eqn:Ha; [done |]. rewrite lookup_insert_ne; [done | congruence].
Qed.

Lemma others_new k files q : others k files !! q = files !! q ∨ files !! q = None ∧ ∃ f, foreign q f ∧ others k files !! q = Some f.
Proof.
  unfold JoinBundles.others, foreign. assert (Hgen : ∀ l, l ⊆ intrude k → ∀ files : Files,
    fold_left (λ files p, match files !! p.1 with Some _ => files | None => <[p.1 := p.2]> files end) l files !! q = files !! q ∨
    files !! q = None ∧ ∃ f, (∃ k, (q, f) ∈ intrude k) ∧
      fold_left (λ files p, match files !! p.1 with Some _ => files | None => <[p.1 := p.2]> files end) l files !! q = Some f).
  { induction l as [| [a g] l IH]; intros Hsub fs; cbn; [by left |].
    assert (Hl : l ⊆ intrude k) by set_solver. destruct (fs !! a) eqn:Ha; [by apply IH |].
    destruct (IH Hl (<[a := g]> fs)) as [-> | (Hn & f & Hf & E)].
    - destruct (decide (q = a)) as [-> | Hne]; [| left; by rewrite lookup_insert_ne].
      right. split; [done |]. exists g. rewrite lookup_insert_eq. split; [| done]. exists k. set_solver.
    - right. rewrite lookup_insert_None in Hn. split; [apply Hn |]. eauto. }
  by apply Hgen.
Qed.

End Others.

(** The state after a call that left the files at [f]. *)
Definition called (f : Files) (s : JState) : JState := {|
  js_files := f; js_calls := S (js_calls s); js_temporary := js_temporary s; js_created := js_created s;
  js_backups := js_backups s; js_replaced := js_replaced s |}.

Lemma wp_sys faulty intrude {A} (op : nat → Files → JErr + Files * A) (Q : A → JState → Prop) (R : JErr → JState → Prop) s :
  let files := others intrude (js_calls s) (js_files s) in
  R OSErr (called files s) →
  match op (js_calls s) files with inl e => R e (called files s) | inr (f, a) => Q a (called f s) end →
  wp (sys faulty intrude op) Q R s.
Proof.
  cbv zeta. intros HR HQ. unfold wp, JoinBundles.sys. destruct (faulty (js_calls s)); [done |].
  by destruct (op _ _) as [e | [f a]].
Qed.

Lemma wp_except_os {A} (body : J A) h Q R s :
  wp body Q (λ e s', if is_os_error e then wp (h e) Q R s' else R e s') s → wp (except_os body h) Q R s.
Proof. unfold wp, except_os. destruct (body s) as [s' [e | a]]; [| done]. by destruct (is_os_error e). Qed.

(** Weakening what holds of the exception, or of the value. *)
Lemma wp_mono_r {A} (c : J A) Q (R R' : JErr → JState → Prop) s :
  (∀ e s', R e s' → R' e s') → wp c Q R s → wp c Q R' s.
Proof. by apply wp_mono. Qed.

Lemma wp_mono_l {A} (c : J A) (Q Q' : A → JState → Prop) R s :
  (∀ a s', Q a s' → Q' a s') → wp c Q R s → wp c Q' R s.
Proof. intros HQ. by apply wp_mono. Qed.

Lemma wp_try_finally {A} (body : J A) last Q R s :
  wp body (λ a s', wp last (λ _, Q a) R s') (λ e s', wp last (λ _, R e) R s') s → wp (try_finally body last) Q R s.
Proof. unfold wp, try_finally. destruct (body s) as [s' [e | a]]; destruct (last s') as [s2 [e' | u]]; done. Qed.

(** ** Without force *)

Section NoClobber.
  Context (faulty : nat → bool) (draw : nat → string) (chop : nat → nat) (intrude : nat → list (string * JFile)).
  Context (sha256 : bytes → bytes) (dump : SiteJoinBundle → string) (init : Files).

(** A name as it was, or created by others. *)
Definition settled (files : Files) (q : string) : Prop :=
  files !! q = init !! q ∨ (init !! q = None ∧ ∃ f, foreign intrude q f ∧ files !! q = Some f).

(** [own] are the files of this call. *)
Record tidy (own : list string) (s : JState) : Prop := {
  ty_rest q : q ∉ own → settled (js_files s) q;
  ty_own q : q ∈ own → init !! q = None
}.

Lemma tidy_equiv own own' s s' :
  (∀ q, q ∈ own ↔ q ∈ own') → js_files s' = js_files s → tidy own s → tidy own' s'.
Proof. intros Ho E [H1 H2]. split; intros q Hq; [rewrite E; apply H1; by rewrite Ho | apply H2; by rewrite Ho]. Qed.

Lemma settled_others k files q : settled files q → settled (others intrude k files) q.
Proof.
  intros [Hq | (Hn & f & Hf & Hq)]; [| right; split; [done |]; exists f; split; [done | by apply others_keeps]].
  destruct (others_new intrude k files q) as [E | (Hn & f & Hf & E)]; [left; congruence |].
  right. split; [congruence | eauto].
Qed.

Lemma tidy_others own s : tidy own s → tidy own (called (others intrude (js_calls s) (js_files s)) s).
Proof. intros [H1 H2]. split; cbn; [| done]. intros q Hq. by apply settled_others, H1. Qed.

(** An operation on a file of this call. *)
Lemma tidy_touch own s s' t :
  tidy own s → t ∈ own → (∀ q, q ≠ t → js_files s' !! q = js_files s !! q) → tidy own s'.
Proof.
  intros [H1 H2] Ht Hf. split; [| done]. intros q Hq. assert (q ≠ t) as Hne by (by intros ->).
  destruct (H1 q Hq) as [E | (? & g & ? & E)]; [left; by rewrite Hf | right; split; [done |]]. exists g. by rewrite Hf.
Qed.

(** A new file, and the removal of one. *)
Lemma tidy_new own s s' t :
  tidy own s → init !! t = None → (∀ q, q ≠ t → js_files s' !! q = js_files s !! q) → tidy (t :: own) s'.
Proof.
  intros [H1 H2] Ht Hf. apply (tidy_touch _ s s' t); [| by left | done].
  split; [intros q Hq; apply H1; set_solver | by intros q [-> | ?]%elem_of_cons; auto].
Qed.

Lemma tidy_gone own s s' t :
  tidy (t :: own) s → js_files s' !! t = None → (∀ q, q ≠ t → js_files s' !! q = js_files s !! q) → tidy own s'.
Proof.
  intros [H1 H2] Ht Hf. split; [| intros q Hq; apply H2; by right]. intros q Hq.
  destruct (decide (q = t)) as [-> | Hne]; [left; rewrite Ht; symmetry; apply H2; by left |].
  destruct (H1 q) as [E | (? & g & ? & E)]; [set_solver | left; by rewrite Hf | right; split; [done |]]. exists g. by rewrite Hf.
Qed.

(** Absent now means absent before, and what was there still is. *)
Lemma tidy_absent own s q : tidy own s → js_files s !! q = None → init !! q = None.
Proof.
  intros [H1 H2] Hq. destruct (decide (q ∈ own)) as [Ho | Ho]; [by apply H2 |].
  destruct (H1 q Ho) as [E | (? & _)]; [congruence | done].
Qed.

Lemma tidy_kept own s q f : tidy own s → init !! q = Some f → js_files s !! q = Some f.
Proof.
  intros [H1 H2] Hq. assert (q ∉ own) as Ho by (intros Ho%H2; congruence).
  destruct (H1 q Ho) as [E | (? & _)]; congruence.
Qed.

(** Files that a stretch of code must not lose. *)
Definition holds (facts : list (string * JFile)) (s : JState) : Prop := ∀ q f, (q, f) ∈ facts → js_files s !! q = Some f.

Lemma holds_others facts s : holds facts s → holds facts (called (others intrude (js_calls s) (js_files s)) s).
Proof. intros H q f Hq. cbn. apply others_keeps. by apply H. Qed.

(** What the code between two pushes keeps. *)
Record frame (own : list string) (facts : list (string * JFile)) (s0 s : JState) : Prop := {
  fr_tidy : tidy own s; fr_holds : holds facts s;
  fr_temporary : js_temporary s = js_temporary s0; fr_created : js_created s = js_created s0;
  fr_rest : js_backups s = js_backups s0 ∧ js_replaced s = js_replaced s0
}.

Lemma frame_refl own facts s : tidy own s → holds facts s → frame own facts s s.
Proof. by split. Qed.

Lemma frame_others own facts s0 s :
  frame own facts s0 s → frame own facts s0 (called (others intrude (js_calls s) (js_files s)) s).
Proof. intros [H1 H2 H3 H4 H5]. split; [by apply tidy_others | by apply holds_others | done | done | done]. Qed.

Lemma holds_absent facts s t : holds facts s → js_files s !! t = None → t ∉ facts.*1.
Proof. intros Hh Ht ([t' h] & E & Hin)%list_elem_of_fmap. cbn in E. subst t'. apply Hh in Hin. congruence. Qed.

Lemma holds_same facts s s' t :
  holds facts s → t ∉ facts.*1 → (∀ q, q ≠ t → js_files s' !! q = js_files s !! q) → holds facts s'.
Proof. intros Hh Ht Hf q g Hq. rewrite Hf; [by apply Hh |]. intros ->. apply Ht, list_elem_of_fmap. by exists (t, g). Qed.

(** A call that only touches the file [t] of this call. *)
Lemma wp_touch own facts s0 s t op (Q : unit → JState → Prop) :
  frame own facts s0 s → t ∈ own → t ∉ facts.*1 →
  (∀ k files, ∃ f, op k files = inr (f, tt) ∧ ∀ q, q ≠ t → f !! q = files !! q) →
  (∀ f, op (js_calls s) (others intrude (js_calls s) (js_files s)) = inr (f, tt) → frame own facts s0 (called f s) → Q tt (called f s)) →
  wp (sys faulty intrude op) Q (λ e s', e = OSErr ∧ frame own facts s0 s') s.
Proof.
  intros Hf Ht Hn Hop HQ. pose proof (frame_others _ _ _ _ Hf) as Hfo. apply wp_sys; [by split |].
  destruct (Hop (js_calls s) (others intrude (js_calls s) (js_files s))) as (f & Hfe & Hq). rewrite Hfe. apply HQ; [done |].
  destruct Hfo as [Htidy Hh E1 E2 E3]. split; [| | done | done | done].
  - by eapply tidy_touch; [exact Htidy | exact Ht | exact Hq].
  - by eapply holds_same; [exact Hh | exact Hn | exact Hq].
Qed.

Definition os_failed own facts s0 (e : JErr) (s : JState) : Prop := is_os_error e = true ∧ frame own facts s0 s.

Lemma wp_mkstemp own facts s0 s name :
  frame own facts s0 s →
  wp (mkstemp faulty draw intrude ("." +:+ name))
    (λ t s', hidden t = true ∧ t ∉ facts.*1 ∧ frame (t :: own) facts s0 s' ∧
       js_files s' !! t = Some {| jf_content := ""; jf_mode := 384 |})
    (os_failed own facts s0) s.
Proof.
  intros Hf. pose proof (frame_others _ _ _ _ Hf) as Hfo. unfold mkstemp. apply wp_sys; [by split |]. cbv zeta.
  set (t := ("." +:+ name) +:+ draw (js_calls s)). assert (Ht : hidden t = true) by done. clearbody t.
  destruct (others intrude (js_calls s) (js_files s) !! t) as [g |] eqn:Hg; [by split |].
  destruct Hfo as [Htidy Hh E1 E2 E3]. pose proof (holds_absent _ _ _ Hh Hg) as Hn.
  assert (Hsame : ∀ q, q ≠ t → js_files (called (<[t := {| jf_content := ""; jf_mode := 384 |}]> (others intrude (js_calls s) (js_files s))) s) !! q =
    js_files (called (others intrude (js_calls s) (js_files s)) s) !! q) by (intros q Hq; cbn; by rewrite lookup_insert_ne).
  split_and!; [done | done | split; [| | done | done | done] | cbn; by rewrite lookup_insert_eq].
  - eapply tidy_new; [exact Htidy | by eapply tidy_absent | exact Hsame].
  - by eapply holds_same.
Qed.

Lemma alter_others k (g : JFile → JFile) t files f :
  files !! t = Some f → alter g t (others intrude k files) !! t = Some (g f).
Proof. intros Hf. rewrite lookup_alter_eq, (others_keeps intrude k files t f) by done. done. Qed.

(** Writing to a temporary file and closing it to others. *)
Lemma wp_fill own facts s0 s t content c mode (Q : unit → JState → Prop) :
  frame own facts s0 s → t ∈ own → t ∉ facts.*1 →
  js_files s !! t = Some {| jf_content := c; jf_mode := mode |} →
  (∀ s', frame own facts s0 s' → js_files s' !! t = Some {| jf_content := content; jf_mode := 384 |} → Q tt s') →
  wp (write_all faulty chop intrude t content ;; restrict_to_owner faulty intrude t) Q (λ e s', e = OSErr ∧ frame own facts s0 s') s.
Proof.
  intros Hf Ht Hn Hc HQ. unfold write_all, restrict_to_owner.
  assert (Hal : ∀ (g : JFile → JFile) (k : nat) (files : Files), ∃ f, inr (alter g t files, ()) = (inr (f, ()) : JErr + Files * unit) ∧ ∀ q, q ≠ t → f !! q = files !! q).
  { intros g k files. eexists. split; [done |]. intros q Hq. by apply lookup_alter_ne. }
  apply wp_bind, wp_bind. eapply wp_touch; [done | done | done | intros; apply Hal; done |]. intros f [= <-] Hf1.
  eapply wp_touch; [done | done | done | intros; apply Hal; done |]. intros f [= <-] Hf2.
  eapply wp_touch; [done | done | done | intros; apply Hal; done |]. intros f [= <-] Hf3.
  apply HQ; [done |]. cbn.
  apply (alter_others _ (λ f, {| jf_content := jf_content f; jf_mode := 384 |}) _ _ {| jf_content := content; jf_mode := mode |}).
  apply (alter_others _ (λ f, {| jf_content := content; jf_mode := jf_mode f |}) _ _
    {| jf_content := String.substring 0 (chop (js_calls s)) content; jf_mode := mode |}).
  by apply (alter_others _ (λ f, {| jf_content := String.substring 0 (chop (js_calls s)) content; jf_mode := jf_mode f |}) _ _
    {| jf_content := c; jf_mode := mode |}).
Qed.

(** Removing a file of this call. *)
Lemma wp_unlink own facts s0 s t :
  frame (t :: own) facts s0 s → t ∉ facts.*1 →
  wp (unlink faulty intrude t) (λ _, frame own facts s0) (λ e s', e = OSErr ∧ frame (t :: own) facts s0 s') s.
Proof.
  intros Hf Hn. pose proof (frame_others _ _ _ _ Hf) as Hfo. unfold unlink. apply wp_sys; [by split |].
  destruct Hfo as [Htidy Hh E1 E2 E3].
  assert (Hsame : ∀ q, q ≠ t → js_files (called (delete t (others intrude (js_calls s) (js_files s))) s) !! q =
    js_files (called (others intrude (js_calls s) (js_files s)) s) !! q) by (intros q Hq; cbn; by rewrite lookup_delete_ne).
  split; [eapply tidy_gone; [exact Htidy | cbn; apply lookup_delete_eq | exact Hsame] | by eapply holds_same | done | done | done].
Qed.

(** The file [t] is a new fact of the state. *)
Lemma frame_fact own facts s0 s t f : frame own facts s0 s → js_files s !! t = Some f → frame own ((t, f) :: facts) s0 s.
Proof. intros [H1 H2 H3 H4 H5] Ht. split; try done. intros q g [[= -> ->] | Hin]%elem_of_cons; [done | by apply H2]. Qed.

(** At most one temporary file was left behind: one whose writing and removal both failed. *)
Definition at_most_one (leaked : list string) : Prop := (length leaked <= 1)%nat ∧ Forall (λ t, hidden t = true) leaked.

Lemma wp_write_temporary own facts s0 s name b :
  frame own facts s0 s →
  wp (write_temporary faulty draw chop intrude dump name b)
    (λ t s', hidden t = true ∧ t ∉ facts.*1 ∧ frame (t :: own) ((t, {| jf_content := dump b; jf_mode := 384 |}) :: facts) s0 s')
    (λ e s', ∃ leaked, at_most_one leaked ∧ os_failed (leaked ++ own) facts s0 e s') s.
Proof.
  intros Hf. unfold write_temporary. apply wp_bind.
  eapply wp_mono; [| | by apply (wp_mkstemp own facts s0)].
  2: { intros e s1 Hfail. exists []. by split; [split; [cbn; lia |] |]. }
  intros t s1 (Ht & Hn & Hf1 & Hc). cbn beta. apply wp_bind, wp_except_os.
  eapply wp_mono_r; [| eapply (wp_fill (t :: own) facts s0); [done | by left | done | exact Hc |]].
  - intros e s2 [-> Hf2]. cbn. apply wp_bind. eapply wp_mono; [| | by eapply wp_unlink; [exact Hf2 |]].
    + intros u s3 Hf3. exists []. by split; [split; [cbn; lia |] |].
    + intros e s3 [-> Hf3]. exists [t]. split; [split; [cbn; lia | by constructor] |]. by split.
  - intros s2 Hf2 Hfile. apply wp_ret. split_and!; [done | done | by apply frame_fact].
Qed.

(** The private file of a bundle. *)
Definition jfile (b : SiteJoinBundle) : JFile := {| jf_content := dump b; jf_mode := 384 |}.

Lemma zip_snoc {A B} (l : list A) (k : list B) a b :
  length l = length k → zip (l ++ [a]) (k ++ [b]) = zip l k ++ [(a, b)].
Proof. intros Hl. by rewrite zip_with_app. Qed.

Definition all_hidden (ts : list string) : Prop := Forall (λ t, hidden t = true) ts.

(** The lists the loop does not push to. *)
Definition same_lists (s s' : JState) : Prop :=
  js_created s' = js_created s ∧ js_backups s' = js_backups s ∧ js_replaced s' = js_replaced s.

Lemma wp_write_temporaries paths bundles s :
  tidy [] s → js_temporary s = [] → length paths = length bundles →
  wp (write_temporaries faulty draw chop intrude dump paths bundles)
    (λ _ s', tidy (js_temporary s') s' ∧ all_hidden (js_temporary s') ∧ NoDup (js_temporary s') ∧ same_lists s s' ∧
       length (js_temporary s') = length bundles ∧ holds (zip (js_temporary s') (jfile <$> bundles)) s')
    (λ e s', is_os_error e = true ∧ all_hidden (js_temporary s') ∧ NoDup (js_temporary s') ∧ same_lists s s' ∧
       ∃ leaked, at_most_one leaked ∧ tidy (leaked ++ js_temporary s') s') s.
Proof.
  intros Hs Ht Hlen. unfold write_temporaries.
  eapply wp_mono_l; [| apply (wp_for_each _ (λ xs s', ∃ done, zip paths bundles = done ++ xs ∧
    length (js_temporary s') = length done ∧ tidy (js_temporary s') s' ∧ all_hidden (js_temporary s') ∧
    NoDup (js_temporary s') ∧ same_lists s s' ∧ holds (zip (js_temporary s') (jfile <$> done.*2)) s'))].
  - intros u s' (done & E & Hl & Htidy & Hid & Hnd & Hc & Hh). rewrite app_nil_r in E. subst done.
    rewrite snd_zip in Hh by lia. rewrite length_zip_with in Hl. split_and!; [done | done | done | done | lia | done].
  - exists []. rewrite Ht. split_and!; try done; [by constructor | by constructor |]. intros q f Hin. by apply elem_of_nil in Hin.
  - intros [p b] xs s1 (done & E & Hl & Htidy & Hid & Hnd & Hc & Hh). apply wp_bind.
    eapply wp_mono; [| | apply (wp_write_temporary (js_temporary s1) (zip (js_temporary s1) (jfile <$> done.*2)) s1); by apply frame_refl].
    + intros t s2 (Hht & Hnt & [Htidy2 Hh2 E1 E2 E3]). apply wp_modify. exists (done ++ [(p, b)]). cbn.
      rewrite E, <- app_assoc. split_and!; [done | rewrite E1, !length_app; cbn; lia | | | | unfold same_lists in *; cbn; intuition congruence |].
      * eapply (tidy_equiv _ _ s2); [| done | exact Htidy2]. rewrite E1. set_solver.
      * rewrite E1. apply Forall_app. split; [done | by constructor].
      * rewrite E1. rewrite fst_zip in Hnt by (rewrite !length_fmap; lia). apply NoDup_app. split_and!; [done | set_solver | apply NoDup_singleton].
      * rewrite E1, fmap_app, fmap_app. cbn. rewrite zip_snoc by (rewrite !length_fmap; done).
        intros q f [Hin | Hin%list_elem_of_singleton]%elem_of_app; apply Hh2; [by right | rewrite Hin; by left].
    + intros e s2 (leaked & Hleak & He & [Htidy2 _ E1 E2 E3]). rewrite E1. split_and!; [done | done | done | unfold same_lists in *; intuition congruence | by exists leaked].
Qed.

(** [os.link] of a temporary file. *)
Lemma wp_link own facts s t p f :
  tidy own s → holds facts s → (t, f) ∈ facts →
  wp (link faulty intrude t p)
    (λ _ s', tidy (p :: own) s' ∧ holds ((p, f) :: facts) s' ∧ js_temporary s' = js_temporary s ∧ js_created s' = js_created s)
    (λ e s', is_os_error e = true ∧ tidy own s' ∧ js_temporary s' = js_temporary s ∧ js_created s' = js_created s) s.
Proof.
  intros Ht Hh Hin. pose proof (tidy_others _ _ Ht) as Hto. pose proof (holds_others _ _ Hh) as Hho. unfold link.
  apply wp_sys; [by split |]. pose proof (Hho t f Hin) as Htf. cbn in Htf. rewrite Htf.
  destruct (others intrude (js_calls s) (js_files s) !! p) as [g |] eqn:Hp; [by split |].
  assert (Hsame : ∀ q, q ≠ p → js_files (called (<[p := f]> (others intrude (js_calls s) (js_files s))) s) !! q =
    js_files (called (others intrude (js_calls s) (js_files s)) s) !! q) by (intros q Hq; cbn; by rewrite lookup_insert_ne).
  split_and!; [| | done | done].
  - eapply tidy_new; [exact Hto | by eapply tidy_absent | exact Hsame].
  - intros q h [[= -> ->] | Hq]%elem_of_cons; [cbn; by rewrite lookup_insert_eq |].
    eapply holds_same; [exact Hho | by eapply holds_absent; [exact Hho | exact Hp] | exact Hsame | done].
Qed.

Lemma wp_link_all paths ts fs s :
  tidy ts s → holds (zip ts fs) s → js_temporary s = ts → js_created s = [] → length paths = length ts → length ts = length fs →
  wp (for_each (λ p : string * string, link faulty intrude p.2 p.1 ;; modify (push_created p.1)) (zip paths ts))
    (λ _ s', tidy (js_temporary s' ++ js_created s') s' ∧ js_temporary s' = ts ∧ js_created s' = paths ∧ holds (zip paths fs) s')
    (λ e s', is_os_error e = true ∧ js_temporary s' = ts ∧ tidy (js_temporary s' ++ js_created s') s') s.
Proof.
  intros Hs Hh Ht Hc Hl1 Hl2.
  eapply wp_mono_l; [| apply (wp_for_each _ (λ xs s', ∃ k, xs = zip (drop k paths) (drop k ts) ∧ (k <= length ts)%nat ∧
    tidy (js_temporary s' ++ js_created s') s' ∧ js_temporary s' = ts ∧ js_created s' = take k paths ∧
    holds (zip ts fs ++ zip (take k paths) (take k fs)) s'))].
  - intros u s' (k & E & Hk & Htidy & Ht' & Hc' & Hh').
    assert (k = length ts) as ->. { apply (f_equal length) in E. rewrite length_zip_with, !length_drop in E. cbn in E. lia. }
    rewrite <- Hl1, take_ge in Hh', Hc' by lia. rewrite take_ge in Hh' by lia. split_and!; [done | done | done |].
    intros q f Hq. apply Hh'. set_solver.
  - exists 0%nat. rewrite !drop_0, !take_0, app_nil_r. split_and!; [done | lia | by rewrite Hc, app_nil_r, Ht | done | done | done].
  - intros [p t] xs s1 (k & E & Hk & Htidy & Ht1 & Hc1 & Hh1).
    destruct (decide (k < length ts)%nat) as [Hlt |]; [| rewrite (drop_ge ts) in E by lia; by destruct (drop k paths)].
    destruct (lookup_lt_is_Some_2 paths k ltac:(lia)) as [p' Hp]. destruct (lookup_lt_is_Some_2 ts k Hlt) as [t' Htk].
    destruct (lookup_lt_is_Some_2 fs k ltac:(lia)) as [f Hf].
    rewrite (drop_S _ _ _ Hp), (drop_S _ _ _ Htk) in E. cbn in E. injection E as -> -> ->.
    assert (Hin : (t', f) ∈ zip ts fs) by (apply list_elem_of_lookup; exists k; by rewrite lookup_zip_with, Htk, Hf).
    apply wp_bind. eapply wp_mono; [| | apply (wp_link (js_temporary s1 ++ js_created s1) (zip ts fs ++ zip (take k paths) (take k fs)) s1 t' p' f); [done | done | set_solver]].
    + intros u s2 (Htidy2 & Hh2 & E1 & E2). apply wp_modify. exists (S k).
      split_and!; [done | lia | | by rewrite <- Ht1 | cbn; by rewrite E2, Hc1, (take_S_r _ _ _ Hp) |].
      * eapply (tidy_equiv _ _ s2); [| done | exact Htidy2]. cbn. rewrite E1, E2. set_solver.
      * rewrite (take_S_r _ _ _ Hp), (take_S_r _ _ _ Hf), zip_snoc by (rewrite !length_take; lia).
        intros q g Hq. apply Hh2. set_solver.
    + intros e s2 (He & Htidy2 & E1 & E2). rewrite E1, E2. done.
Qed.

Lemma tidy_more own own' s : (∀ q, q ∈ own → q ∈ own') → (∀ q, q ∈ own' → init !! q = None) → tidy own s → tidy own' s.
Proof. intros Hsub Hn [H1 _]. split; [| done]. intros q Hq. apply H1. intros ?%Hsub. done. Qed.

Lemma wp_unlink_all xs own facts s :
  tidy (xs ++ own) s → holds facts s → (∀ t, t ∈ xs → t ∉ facts.*1) →
  wp (for_each (unlink faulty intrude) xs)
    (λ _ s', frame own facts s s') (λ e s', e = OSErr ∧ frame (xs ++ own) facts s s') s.
Proof.
  intros Hs Hh Hn. eapply wp_mono_l; [| apply (wp_for_each _ (λ ys s', (∀ t, t ∈ ys → t ∈ xs) ∧ frame (ys ++ own) facts s s'))].
  - by intros u s' (_ & ?).
  - split; [done | by apply frame_refl].
  - intros t ys s1 (Hsub & Hf1). eapply wp_mono; [| | apply (wp_unlink (ys ++ own) facts s); [exact Hf1 | apply Hn, Hsub; by left]].
    + intros u s2 Hf2. split; [| done]. intros t' Ht'. apply Hsub. by right.
    + intros e s2 [-> [Ht2 Hh2 E1 E2 E3]]. split; [done |]. split; [| done | done | done | done].
      eapply tidy_more; [| apply Hs | exact Ht2]. set_solver.
Qed.

(** The [finally]. *)
Lemma wp_cleanup own facts s :
  tidy (js_temporary s ++ own) s → holds facts s → (∀ t, t ∈ js_temporary s → t ∉ facts.*1) →
  wp (temporary ← gets js_temporary; for_each (unlink faulty intrude) temporary)
    (λ _ s', tidy own s' ∧ holds facts s') (λ e s', e = OSErr ∧ ∃ own', tidy own' s') s.
Proof.
  intros Hs Hh Hn. apply wp_bind, wp_gets. eapply wp_mono; [| | by apply (wp_unlink_all _ own facts)].
  - by intros u s' [? ? ? ? ?].
  - intros e s' [-> [? ? ? ? ?]]. split; [done | by eexists].
Qed.

(** How [_install_no_clobber] ends when it does not return. *)
Definition refused (e : JErr) (s : JState) : Prop :=
  match e with
  | CliError _ preserved => preserved = [] ∧ ∃ leaked, at_most_one leaked ∧ tidy leaked s
  | _ => ∃ own, tidy own s
  end.

(** The handler takes back the join files made so far, and the [finally] removes the temporary ones. *)
Lemma wp_take_back e s leaked (Q : unit → JState → Prop) :
  at_most_one leaked → tidy (leaked ++ js_temporary s ++ js_created s) s →
  wp (take_back faulty intrude e) Q
    (λ e2 s2, wp (temporary ← gets js_temporary; for_each (unlink faulty intrude) temporary) (λ _, refused e2) refused s2) s.
Proof.
  intros Hleak Hs. unfold take_back. apply wp_bind, wp_gets, wp_bind.
  assert (Hs' : tidy (reverse (js_created s) ++ js_temporary s ++ leaked) s).
  { eapply (tidy_equiv _ _ s); [| done | exact Hs]. intros q. rewrite !elem_of_app, elem_of_reverse. tauto. }
  eapply wp_mono; [| | apply (wp_unlink_all _ _ [] s Hs'); [by intros q f ?%elem_of_nil | intros t _; apply not_elem_of_nil]].
  - intros u s1 [Ht1 _ E1 _ _]. apply wp_raise. rewrite <- E1 in Ht1.
    eapply wp_mono; [| | apply (wp_cleanup leaked [] s1 Ht1); [by intros q f ?%elem_of_nil | intros t _; apply not_elem_of_nil]].
    + intros u2 s2 [Ht2 _]. split; [done | by exists leaked].
    + by intros e2 s2 [-> ?].
  - intros e1 s1 [-> [Ht1 _ E1 _ _]].
    assert (Ht1' : tidy (js_temporary s1 ++ reverse (js_created s) ++ leaked) s1).
    { eapply (tidy_equiv _ _ s1); [| done | exact Ht1]. rewrite E1. set_solver. }
    eapply wp_mono; [| | apply (wp_cleanup _ [] s1 Ht1'); [by intros q f ?%elem_of_nil | intros t _; apply not_elem_of_nil]].
    + intros u2 s2 [Ht2 _]. by eexists.
    + by intros e2 s2 [-> ?].
Qed.

Lemma wp_install_no_clobber bundles s :
  let paths := join_bundle_paths (length bundles) in
  tidy [] s → js_temporary s = [] → js_created s = [] →
  wp (install_no_clobber faulty draw chop intrude dump paths bundles)
    (λ _ s', tidy paths s' ∧ holds (zip paths (jfile <$> bundles)) s') refused s.
Proof.
  intros paths Hs Ht Hc. assert (Hlen : length paths = length bundles) by apply join_paths_length.
  unfold install_no_clobber. apply wp_try_finally, wp_except_os.
  apply wp_bind. eapply wp_mono; [| | by apply wp_write_temporaries].
  - intros u s1 (Ht1 & Hid & _ & (Hc1 & _) & Hl1 & Hh1). apply wp_bind, wp_gets.
    eapply wp_mono; [| | apply (wp_link_all paths (js_temporary s1) (jfile <$> bundles)); [done | done | done | congruence | lia | by rewrite length_fmap]].
    + intros u2 s2 (Ht2 & E2 & Ec2 & Hh2). rewrite Ec2 in Ht2. eapply wp_mono_r; [| apply (wp_cleanup paths); [done | done |]].
      * by intros e s3 [-> ?].
      * intros t Hin Hp. rewrite fst_zip in Hp by (rewrite length_fmap; lia). apply join_paths_visible in Hp.
        rewrite E2 in Hin. eapply Forall_forall in Hid; [| exact Hin]. congruence.
    + intros e s2 (He & E2 & Ht2). rewrite He. by apply (wp_take_back e s2 []); [split; [cbn; lia |] |].
  - intros e s1 (He & Hid & _ & (Hc1 & _) & leaked & Hleak & Ht1). rewrite He. apply (wp_take_back e s1 leaked); [done |].
    by rewrite Hc1, Hc, app_nil_r.
Qed.

(** Writing join files without force, whatever system calls fail and whatever other invocations
    create meanwhile.  No file that was there is changed or removed.  A call that returns has written
    every bundle, whole and readable by its owner only, under its own name, and nothing else; a
    call refused with a message has taken back every join file it made, leaving at most one hidden
    temporary file, whose writing and removal both failed. *)
Theorem join_files_no_clobber bundles calls :
  let s := {| js_files := init; js_calls := calls; js_temporary := []; js_created := []; js_backups := []; js_replaced := [] |} in
  let paths := join_bundle_paths (length bundles) in
  match write_join_bundles faulty draw chop intrude sha256 dump bundles false s with
  | (s', r) =>
      (∀ q f, init !! q = Some f → js_files s' !! q = Some f) ∧
      match r with
      | inr rows =>
          jr_path <$> rows = paths ∧
          (∀ i p b, paths !! i = Some p → bundles !! i = Some b → js_files s' !! p = Some (jfile b)) ∧
          ∀ q, q ∉ paths → settled (js_files s') q
      | inl (CliError _ preserved) =>
          preserved = [] ∧ ∃ leaked, at_most_one leaked ∧ ∀ q, q ∉ leaked → settled (js_files s') q
      | inl _ => True
      end
  end.
Proof.
  intros s paths. assert (Hs : tidy [] s) by (split; [by left | by intros q ?%elem_of_nil]).
  assert (Href : ∀ e s', refused e s' → (∀ q f, init !! q = Some f → js_files s' !! q = Some f) ∧
    match e with
    | CliError _ preserved => preserved = [] ∧ ∃ leaked, at_most_one leaked ∧ ∀ q, q ∉ leaked → settled (js_files s') q
    | _ => True
    end).
  { intros e s' Hr. destruct e; cbn in Hr; [destruct Hr as [own Ho] .. | destruct Hr as (? & leaked & ? & Ho)];
      (split; [intros q f; by eapply tidy_kept |]); [done | done |]. split; [done |]. exists leaked. split; [done | apply Ho]. }
  assert (Hwp : wp (write_join_bundles faulty draw chop intrude sha256 dump bundles false)
    (λ rows s', jr_path <$> rows = paths ∧ tidy paths s' ∧ holds (zip paths (jfile <$> bundles)) s') refused s).
  { unfold write_join_bundles. assert (Hempty : at_most_one []) by (split; [cbn; lia | done]).
    case_bool_decide; [apply wp_raise; split; [done | by exists []] |].
    apply wp_bind, wp_except_os, wp_sys; [cbn [is_os_error]; apply wp_raise; split; [done |]; exists []; split; [done | by apply tidy_others] |].
    cbn [negb andb]. pose proof (tidy_others _ _ Hs) as Hs1. set (s1 := called _ s) in *. apply wp_bind, wp_gets.
    destruct (existsb _ _); [apply wp_raise; split; [done |]; by exists [] |].
    apply wp_bind. eapply wp_mono_l; [| by apply wp_install_no_clobber].
    intros u s2 [H1 H2]. apply wp_ret. split; [| done]. rewrite <- list_fmap_compose. unfold compose. cbn.
    change (λ x : string * SiteJoinBundle, x.1) with (@fst string SiteJoinBundle). apply fst_zip. subst paths. rewrite join_paths_length. lia. }
  destruct (write_join_bundles _ _ _ _ _ _ _ _ _) as [s' r] eqn:E. pose proof (wp_elim _ _ _ _ _ _ Hwp E) as H.
  destruct r as [e | rows]; [by destruct (Href e s' H) as [? ?]; destruct e |].
  destruct H as (Hrows & Htidy & Hh). split; [intros q f; by eapply tidy_kept |]. split_and!; [done | | apply Htidy].
  intros i p b Hp Hb. apply Hh, list_elem_of_lookup. exists i. by rewrite lookup_zip_with, Hp, list_lookup_fmap, Hb.
Qed.
End NoClobber.
