(* ===== verification/JoinForceSpec.v ===== *)
(** * Overwriting join files

    What [--force] promises when nobody else writes to the directory: a returned call has replaced
    every file; a refused one has put every old content back, or names the backup that holds it.  When
    the rollback itself cannot remove a file, the backups it had not come to are deleted. *)

From stdpp Require Import pretty.
From S2P Require Import RegistrySpec.
From S2P Require Export JoinBundlesSpec.

(** ** The names are distinct *)

(** The number a string of digits denotes. *)
Fixpoint digits_value (acc : N) (s : string) : N :=
  match s with
  | EmptyString => acc
  | String c s => digits_value (acc * 10 + (Ascii.N_of_ascii c - 48))%N s
  end.

Lemma digit_char (x : N) : (x < 10)%N → (Ascii.N_of_ascii (pretty_N_char x) - 48 = x)%N.
Proof.
  intros Hx. assert (x ∈ [0; 1; 2; 3; 4; 5; 6; 7; 8; 9]%N) as Hin.
  { rewrite !elem_of_cons. lia. }
  repeat (apply elem_of_cons in Hin as [-> | Hin]; [reflexivity |]). by apply elem_of_nil in Hin.
Qed.

Lemma digits_value_go (x : N) (s : string) : digits_value 0 (pretty_N_go x s) = digits_value x s.
Proof.
  revert s. induction (N.lt_wf_0 x) as [x _ IH]. intros s. destruct (decide (x = 0%N)) as [-> | Hx].
  - by rewrite pretty_N_go_0.
  - rewrite pretty_N_go_step by lia. rewrite IH by (apply N.div_lt; lia). cbn.
    rewrite digit_char by (apply N.mod_lt; lia). f_equal. pose proof (N.div_mod x 10). lia.
Qed.

Lemma digits_value_pretty (n : nat) : digits_value 0 (pretty n) = N.of_nat n.
Proof.
  unfold pretty, pretty_nat, pretty, pretty_N. case_decide as Hn; [by rewrite Hn |]. by rewrite digits_value_go.
Qed.

Lemma digits_value_two (i : nat) : digits_value 0 (two_digits i) = N.of_nat i.
Proof. unfold two_digits. destruct (i <? 10)%nat; [| apply digits_value_pretty]. cbn. apply digits_value_pretty. Qed.

Lemma ascii_append (a b : string) :
  String.list_ascii_of_string (a +:+ b) = String.list_ascii_of_string a ++ String.list_ascii_of_string b.
Proof. induction a as [| c a IH]; [done |]. change (String c a +:+ b) with (String c (a +:+ b)). cbn [String.list_ascii_of_string]. by rewrite IH. Qed.

Lemma suffix_same (a b s : string) : a +:+ s = b +:+ s → a = b.
Proof.
  intros H. apply (f_equal String.list_ascii_of_string) in H. rewrite !ascii_append in H. apply app_inv_tail in H.
  rewrite <- (String.string_of_list_ascii_of_string a), <- (String.string_of_list_ascii_of_string b). by f_equal.
Qed.

Lemma join_paths_nodup n : NoDup (join_bundle_paths n).
Proof.
  unfold join_bundle_paths. apply (NoDup_fmap_2_strong _), NoDup_seq. intros i j _ _ Heq.
  apply suffix_inj, suffix_same in Heq. apply (f_equal (digits_value 0)) in Heq. rewrite !digits_value_two in Heq. lia.
Qed.

(** ** Backups *)

Lemma od_set_new {A} k (x : A) m : k ∉ m.*1 → od_set k x m = m ++ [(k, x)].
Proof.
  induction m as [| [k' y] m IH]; cbn; [done |]. intros Hk. rewrite bool_decide_eq_false_2 by set_solver. by rewrite IH by set_solver.
Qed.

(** What remains after a backup is taken out. *)
Lemma od_pop_values {A} `{EqDecision A} k (x : A) (m : odict A) :
  NoDup m.*2 → od_get k m = Some x → x ∉ (od_pop k m).*2 ∧ (∀ y, y ∈ (od_pop k m).*2 → y ∈ m.*2) ∧ NoDup (od_pop k m).*2.
Proof.
  intros Hnd Hk. assert (Hsub : ∀ y, y ∈ (od_pop k m).*2 → ∃ k', (k', y) ∈ m ∧ k' ≠ k).
  { intros y ([k' y'] & -> & [Hin ?]%elem_of_od_pop)%list_elem_of_fmap. by exists k'. }
  apply od_get_elem in Hk. split_and!.
  - intros (k' & Hin & Hne)%Hsub. apply list_elem_of_lookup in Hk as [i Hi], Hin as [j Hj].
    assert (i = j) as ->; [| congruence]. eapply NoDup_lookup; [exact Hnd | |]; rewrite list_lookup_fmap; [by rewrite Hi | by rewrite Hj].
  - intros y (k' & Hin & _)%Hsub. apply list_elem_of_fmap. by exists (k', y).
  - unfold od_pop. clear -Hnd. induction m as [| [k' y] m IH]; [constructor |]. rewrite fmap_cons in Hnd. apply NoDup_cons in Hnd as [Hy Hnd].
    rewrite filter_cons. case_decide; [| by apply IH]. rewrite fmap_cons. apply NoDup_cons. split; [| by apply IH].
    intros ([k2 y2] & Heq & Hin%list_elem_of_filter)%list_elem_of_fmap. cbn in Heq. subst y2. apply Hy, list_elem_of_fmap. exists (k2, y). naive_solver.
Qed.

Section Force.
  Context (faulty : nat → bool) (draw : nat → string) (chop : nat → nat) (sha256 : bytes → bytes).
  Context (dump : SiteJoinBundle → string) (init : Files).

(** Nobody else writes to the directory. *)
Definition quiet (_ : nat) : list (string * JFile) := [].

Local Abbreviation tidy := (tidy quiet init).
Local Abbreviation frame := (frame quiet init).
Local Abbreviation jfile := (jfile dump).

Lemma tidy_quiet own s q : tidy own s → q ∉ own → js_files s !! q = init !! q.
Proof. intros [H _] Hq. destruct (H q Hq) as [? | (_ & f & (k & Hk) & _)]; [done | by apply elem_of_nil in Hk]. Qed.

Lemma wp_copy_temporary own facts s0 s name source f :
  frame own facts s0 s → (source, f) ∈ facts →
  wp (copy_temporary faulty draw chop quiet name source)
    (λ t s', hidden t = true ∧ t ∉ facts.*1 ∧ frame (t :: own) ((t, {| jf_content := jf_content f; jf_mode := 384 |}) :: facts) s0 s')
    (λ e s', ∃ leaked, at_most_one leaked ∧ os_failed quiet init (leaked ++ own) facts s0 e s') s.
Proof.
  intros Hf Hsrc. unfold copy_temporary. apply wp_bind.
  eapply wp_mono; [| | by apply (wp_mkstemp faulty draw quiet init own facts s0)].
  2: { intros e s1 Hfail. exists []. by split; [split; [cbn; lia |] |]. }
  intros t s1 (Ht & Hn & Hf1 & Hc). cbn beta. apply wp_bind, wp_except_os.
  assert (Hundo : ∀ e s2, is_os_error e = true → frame (t :: own) facts s0 s2 →
    wp (unlink faulty quiet t ;; raise e : J unit)
      (λ _ s3, wp (mret t) (λ t s', hidden t = true ∧ t ∉ facts.*1 ∧ frame (t :: own) ((t, {| jf_content := jf_content f; jf_mode := 384 |}) :: facts) s0 s')
         (λ e s', ∃ leaked, at_most_one leaked ∧ os_failed quiet init (leaked ++ own) facts s0 e s') s3)
      (λ e s', ∃ leaked, at_most_one leaked ∧ os_failed quiet init (leaked ++ own) facts s0 e s') s2).
  { intros e s2 He Hf2. apply wp_bind. eapply wp_mono; [| | by eapply wp_unlink; [exact Hf2 |]].
    - intros u s3 Hf3. exists []. by split; [split; [cbn; lia |] |].
    - intros e3 s3 [-> Hf3]. exists [t]. split; [split; [cbn; lia | by constructor] |]. by split. }
  pose proof (frame_others _ _ _ _ _ _ Hf1) as Hf1'.
  apply wp_bind, wp_sys; [by apply Hundo |].
  pose proof (fr_holds _ _ _ _ _ _ Hf1 _ _ Hsrc) as Hsf. change (others quiet (js_calls s1) (js_files s1)) with (js_files s1). rewrite Hsf.
  eapply wp_mono_r; [| eapply (wp_fill faulty chop quiet init (t :: own) facts s0); [exact Hf1' | by left | done | exact Hc |]].
  - intros e s2 [-> Hf2]. by apply Hundo.
  - intros s2 Hf2 Hfile. apply wp_ret. split_and!; [done | done | by apply frame_fact].
Qed.

(** A name that is not one of this call's temporary files. *)
Definition public (q : string) : Prop := ~ (hidden q = true ∧ init !! q = None).

(** The old content of [p], if any, has a backup. *)
Definition backed_up (backups : odict string) (files : Files) (p : string) : Prop :=
  match init !! p with
  | Some f => ∃ bk, od_get p backups = Some bk ∧ jf_content <$> files !! bk = Some (jf_content f)
  | None => od_get p backups = None
  end.

(** The hidden files of this call: all distinct, and none was there before. *)
Record hidden_names (names : list string) : Prop := {
  hn_nodup : NoDup names; hn_hidden t : t ∈ names → hidden t = true ∧ init !! t = None
}.

(** Before anything is replaced. *)
Definition untouched (s : JState) : Prop :=
  js_replaced s = [] ∧ (∀ q, public q → js_files s !! q = init !! q) ∧ hidden_names (js_temporary s ++ (js_backups s).*2).

Definition backup_step (path : string) : J unit :=
  there ← gets (λ s, bool_decide (is_Some (js_files s !! path)));
  if there : bool
  then backup ← copy_temporary faulty draw chop quiet path path; modify (set_backups (od_set path backup))
  else mret tt.

(** The state of the loop that makes the backups, the paths [done] behind it. *)
Record backing (ts : list string) (fs : list JFile) (done : list string) (s : JState) : Prop := {
  bg_temporary : js_temporary s = ts;
  bg_replaced : js_replaced s = [];
  bg_tidy : tidy (ts ++ (js_backups s).*2) s;
  bg_names : hidden_names (ts ++ (js_backups s).*2);
  bg_files : ∃ bf, bf.*1 = (js_backups s).*2 ∧ holds (zip ts fs ++ bf) s;
  bg_backed p : p ∈ done → backed_up (js_backups s) (js_files s) p;
  bg_keys p : p ∈ (js_backups s).*1 → p ∈ done
}.

Lemma backing_untouched ts fs done s : backing ts fs done s → untouched s.
Proof.
  intros [H1 H2 H3 H4 H5 H6 H7]. split_and!; [done | | by rewrite H1]. intros q Hq. apply (tidy_quiet (ts ++ (js_backups s).*2)); [done |].
  intros Hin%H4. by apply Hq.
Qed.

Lemma backed_frame backups files files' p :
  (∀ bk, od_get p backups = Some bk → files' !! bk = files !! bk) → backed_up backups files p → backed_up backups files' p.
Proof. unfold backed_up. destruct (init !! p); [| done]. intros Hf (bk & Hbk & Hc). exists bk. split; [done |]. by rewrite Hf. Qed.

(** A further backup: the earlier ones stand, and the new one is of its path. *)
Lemma backed_up_more backups files files' p t p' :
  (∀ bk, bk ∈ backups.*2 → files' !! bk = files !! bk) → p' ≠ p → backed_up backups files p' →
  backed_up (backups ++ [(p, t)]) files' p'.
Proof.
  intros Hf Hne. unfold backed_up. destruct (init !! p') as [g |].
  - intros (bk & Hbk & Hc). exists bk. rewrite od_get_app, Hbk. split; [done |]. rewrite Hf; [done |].
    apply list_elem_of_fmap. exists (p', bk). split; [done | by apply od_get_elem].
  - intros Hn. rewrite od_get_app, Hn. cbn. by rewrite bool_decide_eq_false_2.
Qed.

Lemma backed_up_here backups files p t f :
  p ∉ backups.*1 → init !! p = Some f → files !! t = Some {| jf_content := jf_content f; jf_mode := 384 |} →
  backed_up (backups ++ [(p, t)]) files p.
Proof.
  intros Hn Hf Ht. unfold backed_up. rewrite Hf. exists t. rewrite od_get_app, (proj2 (od_get_None p backups)) by done. cbn.
  rewrite bool_decide_eq_true_2 by done. by rewrite Ht.
Qed.

Lemma wp_backup_step ts fs done p s :
  backing ts fs done s → hidden p = false → p ∉ done → length ts = length fs →
  wp (backup_step p) (λ _, backing ts fs (done ++ [p])) (λ e s', is_os_error e = true ∧ untouched s') s.
Proof.
  intros Hb Hp Hdone Hlen. pose proof Hb as [Ht Hr Htidy Hnames (bf & Ebf & Hh) Hback Hkeys]. unfold backup_step. apply wp_bind, wp_gets.
  assert (Hfile : js_files s !! p = init !! p).
  { apply (tidy_quiet _ _ _ Htidy). intros [? _]%Hnames. congruence. }
  assert (Hnk : p ∉ (js_backups s).*1) by (by intros ?%Hkeys). rewrite Hfile. case_bool_decide as Hsome.
  - destruct Hsome as [f Hf]. apply wp_bind.
    eapply wp_mono; [| | apply (wp_copy_temporary (ts ++ (js_backups s).*2) ((p, f) :: zip ts fs ++ bf) s s p p f); [apply frame_refl; [done |] | by left]].
    3: { intros q g [[= -> ->] | Hq]%elem_of_cons; [congruence | by apply Hh]. }
    + intros t s2 (Hht & Hnt & [Htidy2 Hh2 E1 _ [E3 E4]]). apply wp_modify.
      assert (Htn : t ∉ ts ++ (js_backups s).*2).
      { rewrite fmap_cons, fmap_app, fst_zip, Ebf in Hnt by lia. set_solver. }
      split; cbn; rewrite ?E3, ?od_set_new by done; rewrite ?fmap_app; cbn.
      * congruence.
      * congruence.
      * eapply (tidy_equiv _ _ _ _ s2); [| done | exact Htidy2]. set_solver.
      * rewrite app_assoc. split; [apply NoDup_app; split_and!; [apply Hnames | set_solver | apply NoDup_singleton] |].
        intros q [Hq | ->%list_elem_of_singleton]%elem_of_app; [by apply Hnames | split; [done |]]. apply Htidy2. by left.
      * exists (bf ++ [(t, {| jf_content := jf_content f; jf_mode := 384 |})]). rewrite fmap_app, Ebf. split; [done |].
        intros q g Hq. apply Hh2. set_solver.
      * intros p' [Hp' | ->%list_elem_of_singleton]%elem_of_app; [| by eapply backed_up_here, (Hh2 t); [.. | by left]].
        apply (backed_up_more _ (js_files s)); [| by intros -> | by apply Hback]. intros bk Hbk. rewrite <- Ebf in Hbk.
        apply list_elem_of_fmap in Hbk as ([bk' g] & Ebk & Hin). cbn in Ebk. subst bk'.
        by rewrite (Hh bk g), (Hh2 bk g) by set_solver.
      * intros p' [Hp' | ->%list_elem_of_singleton]%elem_of_app; [apply elem_of_app; left; by apply Hkeys | set_solver].
    + intros e s2 (leaked & [Hl1 Hl2] & He & [Htidy2 _ E1 _ [E3 E4]]). split; [done |]. split_and!; [congruence | | by rewrite E1, E3, Ht].
      intros q Hq. apply (tidy_quiet _ _ _ Htidy2). intros [Hin | Hin]%elem_of_app; [| by apply Hnames in Hin].
      apply Hq. split; [by eapply Forall_forall in Hl2 | by apply Htidy2; set_solver].
  - apply wp_ret. split; try done; [by exists bf | | intros p' Hp'; apply elem_of_app; left; by apply Hkeys].
    intros p' [Hp' | ->%list_elem_of_singleton]%elem_of_app; [by apply Hback |]. unfold backed_up.
    destruct (init !! p) eqn:E; [exfalso; apply Hsome; by eexists |]. by apply od_get_None.
Qed.

Lemma wp_backups ts fs paths s :
  backing ts fs [] s → NoDup paths → (∀ p, p ∈ paths → hidden p = false) → length ts = length fs →
  wp (for_each backup_step paths) (λ _, backing ts fs paths) (λ e s', is_os_error e = true ∧ untouched s') s.
Proof.
  intros Hs Hnd Hv Hlen.
  eapply wp_mono_l; [| apply (wp_for_each _ (λ xs s', ∃ done, paths = done ++ xs ∧ backing ts fs done s'))].
  - intros u s' (done & -> & Hb). by rewrite app_nil_r.
  - by exists [].
  - intros p xs s1 (done & E & Hb).
    eapply wp_mono_l; [| apply (wp_backup_step ts fs done p s1); [done | apply Hv; set_solver | | done]].
    + intros u s2 Hb2. exists (done ++ [p]). rewrite <- app_assoc. done.
    + rewrite E in Hnd. apply NoDup_app in Hnd as (_ & Hdis & _). intros Hin%Hdis. set_solver.
Qed.

(** ** Replacing and rolling back *)

(** The old content of [q] is in place, or in a backup of [preserved]. *)
Definition safe (preserved : list string) (files : Files) (q : string) : Prop :=
  jf_content <$> files !! q = jf_content <$> init !! q ∨
  (is_Some (init !! q) ∧ ∃ bk, bk ∈ preserved ∧ jf_content <$> files !! bk = jf_content <$> init !! q).

(** [todo] are the replaced files, whose old contents the backups hold. *)
Record undoable (todo preserved : list string) (s : JState) : Prop := {
  un_safe q : public q → q ∉ todo → safe preserved (js_files s) q;
  un_backed p : p ∈ todo → hidden p = false ∧ backed_up (js_backups s) (js_files s) p;
  un_nodup : NoDup todo;
  un_names : hidden_names (js_temporary s ++ (js_backups s).*2 ++ preserved)
}.

Lemma visible_public q : hidden q = false → public q.
Proof. intros Hq [? _]. congruence. Qed.

(** A step that leaves [p] with its old content, and touches nothing else but the file [bk] that is in nobody's way. *)
Lemma undo_one p todo preserved preserved' s s' :
  undoable (p :: todo) preserved s →
  safe preserved' (js_files s') p →
  js_temporary s' = js_temporary s → js_backups s' = od_pop p (js_backups s) →
  (∀ q, q ≠ p → od_get p (js_backups s) ≠ Some q → js_files s' !! q = js_files s !! q) →
  (∀ q, q ∈ preserved → q ∈ preserved') →
  hidden_names (js_temporary s ++ (od_pop p (js_backups s)).*2 ++ preserved') →
  undoable todo preserved' s'.
Proof.
  intros [U1 U2 U3 U4] Hp Et Eb Hf Hsub Hn. apply NoDup_cons in U3 as [Hpt Hnd].
  assert (Hbk : ∀ bk, od_get p (js_backups s) = Some bk → bk ∈ (js_backups s).*2).
  { intros bk H%od_get_elem. apply list_elem_of_fmap. by exists (p, bk). }
  assert (Hother : ∀ q, public q → q ≠ p → js_files s' !! q = js_files s !! q).
  { intros q Hq Hne. apply Hf; [done |]. intros ?%Hbk. apply Hq, U4. set_solver. }
  split; [| | done | by rewrite Et, Eb].
  - intros q Hq Hnt. destruct (decide (q = p)) as [-> | Hne]; [done |]. unfold safe. rewrite (Hother q Hq Hne).
    destruct (U1 q Hq) as [? | (? & bk & Hin & E)]; [set_solver | by left |]. right. split; [done |]. exists bk. split; [auto |].
    rewrite Hf; [done | |].
    + intros ->. destruct (U2 p) as [Hv _]; [by left |]. destruct (hn_hidden _ U4 p) as [? _]; [set_solver | congruence].
    + intros Hin2%Hbk. pose proof (hn_nodup _ U4) as Hd. apply NoDup_app in Hd as (_ & _ & Hd). apply NoDup_app in Hd as (_ & Hd & _).
      by apply (Hd bk).
  - intros q Hq. destruct (U2 q) as [Hv Hb]; [by right |]. split; [done |]. assert (q ≠ p) as Hne by (by intros ->).
    unfold backed_up in *. rewrite Eb, od_get_pop, bool_decide_eq_false_2 by done. destruct (init !! q) as [f |]; [| done].
    destruct Hb as (bk & Hg & E). exists bk. split; [done |]. rewrite Hf; [done | |].
    + intros ->. destruct (U2 p) as [Hvp _]; [by left |]. destruct (hn_hidden _ U4 p) as [? _]; [| congruence].
      apply od_get_elem in Hg. rewrite !elem_of_app. right; left. apply list_elem_of_fmap. by exists (q, p).
    + intros Hp2. pose proof (hn_nodup _ U4) as Hd. apply NoDup_app in Hd as (_ & _ & Hd). apply NoDup_app in Hd as (Hd & _ & _).
      destruct (od_pop_values p bk (js_backups s) Hd Hp2) as [Hnin _]. apply Hnin, list_elem_of_fmap. exists (q, bk). split; [done |].
      apply elem_of_od_pop. split; [by apply od_get_elem | done].
Qed.

Lemma hidden_names_sub names names' :
  hidden_names names → NoDup names' → (∀ q, q ∈ names' → q ∈ names) → hidden_names names'.
Proof. intros [H1 H2] Hnd Hsub. split; [done | auto]. Qed.

(** Taking a backup out, and keeping it aside. *)
Lemma hidden_names_pop a (m : odict string) c p :
  hidden_names (a ++ m.*2 ++ c) → hidden_names (a ++ (od_pop p m).*2 ++ c) ∧
  ∀ bk, od_get p m = Some bk → hidden_names (a ++ (od_pop p m).*2 ++ c ++ [bk]).
Proof.
  intros Hn. pose proof (hn_nodup _ Hn) as Hd. apply NoDup_app in Hd as (Ha & Hac & Hd). apply NoDup_app in Hd as (Hm & Hmc & Hc).
  destruct (od_get p m) as [bk |] eqn:Hg.
  - destruct (od_pop_values p bk m Hm Hg) as (Hbk & Hsub & Hnd). apply od_get_elem in Hg.
    assert (Hin : bk ∈ m.*2) by (apply list_elem_of_fmap; by exists (p, bk)). split.
    + apply (hidden_names_sub _ _ Hn); [| set_solver]. apply NoDup_app. split_and!; [done | set_solver |].
      apply NoDup_app. split_and!; [done | set_solver | done].
    + intros bk' [= <-]. apply (hidden_names_sub _ _ Hn); [| set_solver]. apply NoDup_app. split_and!; [done | set_solver |].
      apply NoDup_app. split_and!; [done | set_solver |]. apply NoDup_app. split_and!; [done | set_solver | apply NoDup_singleton].
  - apply od_get_None in Hg. rewrite od_pop_absent by done. by split.
Qed.

Lemma wp_rollback todo preserved s :
  undoable todo preserved s →
  wp (rollback_each faulty quiet todo preserved) (λ P s', undoable [] P s') (λ e s', e = OSErr) s.
Proof.
  revert preserved s. induction todo as [| p todo IH]; intros preserved s Hu; [done |]. cbn [rollback_each].
  apply wp_bind, wp_gets, wp_bind, wp_modify. pose proof (un_backed _ _ _ Hu p ltac:(by left)) as [Hv Hb].
  destruct (hidden_names_pop _ _ _ p (un_names _ _ _ Hu)) as [Hn1 Hn2].
  unfold backed_up in Hb. destruct (init !! p) as [f |] eqn:Hf.
  - destruct Hb as (bk & Hg & Hc). rewrite Hg. apply wp_bind, wp_except_os, wp_bind, wp_sys; cbn.
    + apply IH. eapply (undo_one p todo preserved _ s); try done; cbn; [| set_solver | by apply Hn2].
      right. rewrite Hf. split; [by eexists |]. exists bk. split; [set_solver | done].
    + change (others quiet (js_calls s) (js_files s)) with (js_files s).
      destruct (js_files s !! bk) as [g |] eqn:Hbk; [| done]. cbn in Hc. apply IH.
      eapply (undo_one p todo preserved _ s); try done; cbn.
      * left. cbn. by rewrite lookup_insert_eq, Hf.
      * intros q Hq Hne. rewrite lookup_insert_ne by done. apply lookup_delete_ne. congruence.
  - rewrite Hb. apply wp_bind, wp_sys; [done |]. apply IH.
    eapply (undo_one p todo preserved _ s); try done; cbn.
    + left. cbn. by rewrite lookup_delete_eq, Hf.
    + intros q Hq _. by apply lookup_delete_ne.
Qed.

(** The [finally] after a rollback. *)
Lemma wp_leftover preserved s :
  undoable [] preserved s →
  wp (leftover ← gets (λ s, js_temporary s ++ (js_backups s).*2); for_each (unlink faulty quiet) leftover)
    (λ _ s', ∀ q, public q → safe preserved (js_files s') q) (λ e _, e = OSErr) s.
Proof.
  intros [U1 _ _ U4]. apply wp_bind, wp_gets. set (leftover := js_temporary s ++ (js_backups s).*2).
  eapply wp_mono_l; [| apply (wp_for_each _ (λ ys s', (∀ t, t ∈ ys → t ∈ leftover) ∧ ∀ q, public q → safe preserved (js_files s') q))].
  - by intros u s' [_ ?].
  - split; [done |]. intros q Hq. apply U1; [done | apply not_elem_of_nil].
  - intros t ys s1 [Hsub Hs1]. apply wp_sys; [done |]. split; [intros t' ?; apply Hsub; by right |].
    assert (Ht : t ∈ leftover) by (apply Hsub; by left). rewrite app_assoc in U4. fold leftover in U4.
    assert (Hpub : ∀ q, public q → q ≠ t). { intros q Hq ->. apply Hq, U4. set_solver. }
    assert (Hpre : ∀ bk, bk ∈ preserved → bk ≠ t).
    { intros bk Hbk ->. pose proof (hn_nodup _ U4) as Hd. apply NoDup_app in Hd as (_ & Hd & _). by apply (Hd t). }
    intros q Hq. change (others quiet (js_calls s1) (js_files s1)) with (js_files s1). cbn.
    destruct (Hs1 q Hq) as [E | (Hi & bk & Hbk & E)]; [left; by rewrite lookup_delete_ne by (apply not_eq_sym, Hpub, Hq) |].
    right. split; [done |]. exists bk. split; [done |]. by rewrite lookup_delete_ne by (apply not_eq_sym, Hpre, Hbk).
Qed.

(** The state of the loop that replaces, [k] files behind it. *)
Record replacing (ts : list string) (fs : list JFile) (backups : odict string) (paths : list string) (k : nat) (s : JState) : Prop := {
  rp_temporary : js_temporary s = ts;
  rp_backups : js_backups s = backups;
  rp_replaced : js_replaced s = take k paths;
  rp_rest q : q ∉ ts ++ backups.*2 → q ∉ take k paths → js_files s !! q = init !! q;
  rp_new i p f : (i < k)%nat → paths !! i = Some p → fs !! i = Some f → js_files s !! p = Some f;
  rp_left i t f : (k <= i)%nat → ts !! i = Some t → fs !! i = Some f → js_files s !! t = Some f;
  rp_backed p : p ∈ paths → backed_up backups (js_files s) p
}.

Lemma replacing_undoable ts fs backups paths k s :
  replacing ts fs backups paths k s → hidden_names (ts ++ backups.*2) → NoDup paths → (∀ p, p ∈ paths → hidden p = false) →
  undoable (reverse (js_replaced s)) [] s.
Proof.
  intros [R1 R2 R3 R4 R5 R6 R7] Hn Hnd Hv. split.
  - intros q Hq Hr. left. rewrite R4; [done | intros ?%Hn; by apply Hq |]. rewrite <- R3. by rewrite elem_of_reverse in Hr.
  - intros p Hp. rewrite elem_of_reverse, R3 in Hp.
    assert (p ∈ paths) by (rewrite <- (take_drop k paths); set_solver). rewrite R2. auto.
  - rewrite R3, reverse_Permutation. rewrite <- (take_drop k paths) in Hnd. by apply NoDup_app in Hnd as [? _].
  - by rewrite R1, R2, app_nil_r.
Qed.

(** One [os.replace] of the loop. *)
Lemma replace_next ts fs backups paths k s p t f :
  replacing ts fs backups paths k s → hidden_names (ts ++ backups.*2) → NoDup paths → (∀ p, p ∈ paths → hidden p = false) →
  paths !! k = Some p → ts !! k = Some t → fs !! k = Some f →
  replacing ts fs backups paths (S k) (push_replaced p (called (<[p := f]> (delete t (js_files s))) s)).
Proof.
  intros [R1 R2 R3 R4 R5 R6 R7] Hn Hnd Hv Hp Ht Hf.
  assert (Hpin : p ∈ paths) by (by eapply list_elem_of_lookup_2). assert (Htin : t ∈ ts) by (by eapply list_elem_of_lookup_2).
  assert (Hvis : ∀ q, q ∈ ts ++ backups.*2 → q ≠ p) by (intros q [Hq _]%Hn ->; rewrite (Hv p Hpin) in Hq; done).
  pose proof (hn_nodup _ Hn) as Hd. apply NoDup_app in Hd as (Hts & Hdis & _).
  split; cbn; [done | done | by rewrite R3, (take_S_r _ _ _ Hp) | | | |].
  - intros q Hq Hk. rewrite (take_S_r _ _ _ Hp) in Hk. rewrite lookup_insert_ne, lookup_delete_ne by set_solver. apply R4; set_solver.
  - intros i q g Hi Hq Hg. destruct (decide (i = k)) as [-> | Hik]; [simplify_eq; by rewrite lookup_insert_eq |].
    assert (q ≠ p) by (intros ->; by apply Hik, (NoDup_lookup paths i k p)).
    assert (q ≠ t).
    { intros ->. specialize (Hv t (list_elem_of_lookup_2 _ _ _ Hq)). destruct (hn_hidden _ Hn t); [set_solver | congruence]. }
    rewrite lookup_insert_ne, lookup_delete_ne by done. apply (R5 i); [lia | done | done].
  - intros i q g Hi Hq Hg. assert (q ≠ t) by (intros ->; assert (i = k) by (by apply (NoDup_lookup ts i k t)); lia).
    assert (q ≠ p) by (apply Hvis, elem_of_app; left; by eapply list_elem_of_lookup_2).
    rewrite lookup_insert_ne, lookup_delete_ne by done. apply (R6 i); [lia | done | done].
  - intros q Hq. eapply backed_frame; [| by apply R7]. intros bk Hbk%od_get_elem.
    assert (bk ∈ backups.*2) by (apply list_elem_of_fmap; by exists (q, bk)).
    assert (bk ≠ p) by (apply Hvis; set_solver). assert (bk ≠ t) by (intros ->; by apply (Hdis t)).
    by rewrite lookup_insert_ne, lookup_delete_ne by done.
Qed.

Lemma wp_replace_all ts fs backups paths s :
  replacing ts fs backups paths 0 s → hidden_names (ts ++ backups.*2) → NoDup paths → (∀ p, p ∈ paths → hidden p = false) →
  length paths = length ts → length ts = length fs →
  wp (for_each (λ p : string * string, replace faulty quiet p.2 p.1 ;; modify (push_replaced p.1)) (zip paths ts))
    (λ _ s', replacing ts fs backups paths (length paths) s')
    (λ e s', is_os_error e = true ∧ undoable (reverse (js_replaced s')) [] s') s.
Proof.
  intros Hs Hn Hnd Hv Hl1 Hl2.
  eapply wp_mono_l; [| apply (wp_for_each _ (λ xs s', ∃ k, xs = zip (drop k paths) (drop k ts) ∧ (k <= length ts)%nat ∧ replacing ts fs backups paths k s'))].
  - intros u s' (k & E & Hk & Hr). assert (k = length paths) as ->; [| done].
    apply (f_equal length) in E. rewrite length_zip_with, !length_drop in E. cbn in E. lia.
  - exists 0%nat. rewrite !drop_0. split_and!; [done | lia | done].
  - intros [p0 t0] xs s1 (k & E & Hk & Hr).
    destruct (decide (k < length ts)%nat) as [Hlt |]; [| rewrite (drop_ge ts) in E by lia; by destruct (drop k paths)].
    destruct (lookup_lt_is_Some_2 paths k ltac:(lia)) as [p Hp]. destruct (lookup_lt_is_Some_2 ts k Hlt) as [t Ht].
    destruct (lookup_lt_is_Some_2 fs k ltac:(lia)) as [f Hf].
    rewrite (drop_S _ _ _ Hp), (drop_S _ _ _ Ht) in E. cbn in E. injection E as -> -> ->. cbn [fst snd].
    assert (Hu : undoable (reverse (js_replaced s1)) [] s1) by (by eapply replacing_undoable).
    apply wp_bind, wp_sys.
    + split; [done |]. by destruct Hu.
    + change (others quiet (js_calls s1) (js_files s1)) with (js_files s1). rewrite (rp_left _ _ _ _ _ _ Hr k t f) by done.
      apply wp_modify. exists (S k). split_and!; [done | lia | by apply (replace_next ts fs backups paths k s1 p t f)].
Qed.

(** The handler and the [finally] of [_install_overwriting]. *)
Definition put_back (e : JErr) (s : JState) : Prop :=
  match e with CliError _ preserved => ∀ q, public q → safe preserved (js_files s) q | _ => True end.

Local Abbreviation leftovers := (leftover ← gets (λ s, js_temporary s ++ (js_backups s).*2); for_each (unlink faulty quiet) leftover).

Lemma wp_leftovers_os s : wp leftovers (λ _ _, True) (λ e _, e = OSErr) s.
Proof.
  apply wp_bind, wp_gets. eapply wp_mono_l; [| apply (wp_for_each _ (λ _ _, True))]; [done | done |].
  intros t ys s1 _. by apply wp_sys.
Qed.

Lemma wp_handler s (Q : unit → JState → Prop) :
  undoable (reverse (js_replaced s)) [] s →
  wp (preserved ← rollback faulty quiet; raise (CliError "could not write join files" preserved) : J unit) Q
    (λ e2 s2, wp leftovers (λ _, put_back e2) put_back s2) s.
Proof.
  intros Hu. apply wp_bind. unfold rollback. apply wp_bind, wp_gets. eapply wp_mono; [| | by apply wp_rollback].
  - intros P s1 Hu1. apply wp_raise. eapply wp_mono; [| | by apply wp_leftover]; [done | by intros e2 s2 ->].
  - intros e1 s1 ->. eapply wp_mono; [| | apply wp_leftovers_os]; [done | by intros e2 s2 ->].
Qed.

Lemma untouched_undoable s : untouched s → undoable (reverse (js_replaced s)) [] s.
Proof.
  intros (Hr & Hq & Hn). rewrite Hr. split; [| by intros p ?%elem_of_nil | constructor | by rewrite app_nil_r].
  intros q Hpub _. left. by rewrite Hq.
Qed.

(** The [finally] of a call that returned. *)
Lemma wp_leftover_done ts fs backups paths s :
  replacing ts fs backups paths (length paths) s → hidden_names (ts ++ backups.*2) → (∀ p, p ∈ paths → hidden p = false) →
  wp leftovers
    (λ _ s', (∀ i p f, paths !! i = Some p → fs !! i = Some f → js_files s' !! p = Some f) ∧
             ∀ q, q ∉ paths → js_files s' !! q = init !! q) put_back s.
Proof.
  intros [R1 R2 R3 R4 R5 R6 R7] Hn Hv. apply wp_bind, wp_gets. rewrite R1, R2. rewrite take_ge in R4 by done.
  eapply wp_mono; [| | apply (wp_for_each _ (λ ys s', (∀ t, t ∈ ys → t ∈ ts ++ backups.*2) ∧
    (∀ i p f, paths !! i = Some p → fs !! i = Some f → js_files s' !! p = Some f) ∧
    ∀ q, q ∉ paths → q ∉ ys → js_files s' !! q = init !! q) (λ e _, e = OSErr))].
  - intros u s' (_ & H1 & H2). split; [done |]. intros q Hq. apply H2; [done | apply not_elem_of_nil].
  - by intros e s' ->.
  - split; [done |]. split; [| by intros; apply R4]. intros i p f Hp Hf. apply (R5 i); [by eapply lookup_lt_Some | done | done].
  - intros t ys s1 (Hsub & H1 & H2). apply wp_sys; [done |]. destruct (hn_hidden _ Hn t) as [Ht Hi]; [apply Hsub; by left |].
    change (others quiet (js_calls s1) (js_files s1)) with (js_files s1).
    split; [intros t' ?; apply Hsub; by right |]. split; cbn.
    + intros i p f Hp Hf. rewrite lookup_delete_ne; [by apply (H1 i) |]. intros ->. specialize (Hv p (list_elem_of_lookup_2 _ _ _ Hp)). congruence.
    + intros q Hq Hy. destruct (decide (q = t)) as [-> | Hne]; [by rewrite lookup_delete_eq |].
      rewrite lookup_delete_ne by done. apply H2; set_solver.
Qed.

Lemma wp_install_overwriting bundles s :
  let paths := join_bundle_paths (length bundles) in
  tidy [] s → js_temporary s = [] → js_backups s = [] → js_replaced s = [] →
  wp (install_overwriting faulty draw chop quiet dump paths bundles)
    (λ _ s', (∀ i p f, paths !! i = Some p → (jfile <$> bundles) !! i = Some f → js_files s' !! p = Some f) ∧
             ∀ q, q ∉ paths → js_files s' !! q = init !! q) put_back s.
Proof.
  intros paths Hs Ht Hb Hr. assert (Hlen : length paths = length bundles) by apply join_paths_length.
  assert (Hnd : NoDup paths) by apply join_paths_nodup. assert (Hv : ∀ p, p ∈ paths → hidden p = false) by apply join_paths_visible.
  unfold install_overwriting. apply wp_try_finally, wp_except_os, wp_bind.
  eapply wp_mono; [| | by apply (wp_write_temporaries faulty draw chop quiet dump init)].
  - intros u s1 (Ht1 & Hid & Hndt & (_ & Eb & Er) & Hl1 & Hh1). apply wp_bind.
    assert (Hbacking : backing (js_temporary s1) (jfile <$> bundles) [] s1).
    { rewrite Hb in Eb. split; rewrite ?Eb; cbn; rewrite ?app_nil_r; try done; [congruence | | exists []; by rewrite app_nil_r | by intros p ?%elem_of_nil].
      split; [done |]. intros t Hin. split; [by eapply Forall_forall in Hid | by apply Ht1]. }
    eapply wp_mono; [| | apply (wp_backups _ _ paths s1 Hbacking Hnd Hv); by rewrite length_fmap].
    + intros u2 s2 [B1 B2 B3 B4 (bf & Ebf & B5) B6 B7]. apply wp_bind, wp_gets. rewrite B1.
      eapply wp_mono; [| | apply (wp_replace_all _ (jfile <$> bundles) (js_backups s2) paths s2); [| done | done | done | lia | by rewrite length_fmap]].
      * intros u3 s3 Hrep. eapply wp_leftover_done; [exact Hrep | exact B4 | exact Hv].
      * intros e s3 [He Hu]. rewrite He. by apply wp_handler.
      * split; [done | done | by rewrite take_0 | | by intros; lia | | done].
        -- intros q Hq _. by apply (tidy_quiet _ _ _ B3).
        -- intros i t f _ Hti Hfi. apply B5, elem_of_app. left. apply list_elem_of_lookup. exists i. by rewrite lookup_zip_with, Hti, Hfi.
    + intros e s2 [He Hun]. rewrite He. by apply wp_handler, untouched_undoable.
  - intros e s1 (He & Hid & Hndt & (_ & Eb & Er) & leaked & [_ Hl2] & Ht1). rewrite He. apply wp_handler, untouched_undoable.
    rewrite Hb in Eb. split_and!; [congruence | |].
    + intros q Hq. apply (tidy_quiet _ _ _ Ht1). intros Hin. apply Hq. split; [| by apply Ht1].
      apply elem_of_app in Hin as [Hin | Hin]; [by eapply Forall_forall in Hl2 | by eapply Forall_forall in Hid].
    + rewrite Eb. cbn. rewrite app_nil_r. split; [done |]. intros t Hin. split; [by eapply Forall_forall in Hid |].
      apply Ht1, elem_of_app. by right.
Qed.

(** Overwriting join files when nobody else writes to the directory, whatever system calls fail.  A call
    that returns has put every bundle, whole and readable by its owner only, under its own name and left every
    other file as it was.  A call refused with a message has left every file that is not one of its own
    temporary ones with its old content, or its message names a backup that has that content. *)
Theorem join_files_force bundles calls :
  let s := {| js_files := init; js_calls := calls; js_temporary := []; js_created := []; js_backups := []; js_replaced := [] |} in
  let paths := join_bundle_paths (length bundles) in
  match write_join_bundles faulty draw chop quiet sha256 dump bundles true s with
  | (s', inr rows) =>
      (∀ i p b, paths !! i = Some p → bundles !! i = Some b → js_files s' !! p = Some (jfile b)) ∧
      ∀ q, q ∉ paths → js_files s' !! q = init !! q
  | (s', inl (CliError _ preserved)) => ∀ q, public q → safe preserved (js_files s') q
  | (s', inl _) => True
  end.
Proof.
  intros s paths. assert (Hs : tidy [] s) by (split; [by left | by intros q ?%elem_of_nil]).
  assert (Hsafe : ∀ q, safe [] (js_files s) q) by (by left).
  assert (Hwp : wp (write_join_bundles faulty draw chop quiet sha256 dump bundles true)
    (λ _ s', (∀ i p f, paths !! i = Some p → (jfile <$> bundles) !! i = Some f → js_files s' !! p = Some f) ∧
             ∀ q, q ∉ paths → js_files s' !! q = init !! q) put_back s).
  { unfold write_join_bundles. case_bool_decide; [apply wp_raise; intros q _; apply Hsafe |].
    apply wp_bind, wp_except_os, wp_sys; [cbn [is_os_error]; apply wp_raise; intros q _; apply Hsafe |].
    cbn [negb andb]. change (others quiet (js_calls s) (js_files s)) with (js_files s). apply wp_bind, wp_gets, wp_bind.
    eapply wp_mono_l; [| apply wp_install_overwriting; try done; by apply (tidy_others quiet init [] s)]. intros u s2 H2. by apply wp_ret. }
  destruct (write_join_bundles _ _ _ _ _ _ _ _ _) as [s' r] eqn:E. pose proof (wp_elim _ _ _ _ _ _ Hwp E) as H.
  destruct r as [e | rows]; [by destruct e |]. destruct H as [H1 H2]. split; [| done].
  intros i p b Hp Hb. apply (H1 i); [done |]. by rewrite list_lookup_fmap, Hb.
Qed.
End Force.

(** ** A rollback that fails *)

Definition demo_bundle : SiteJoinBundle := {|
  jb_version := 1; jb_site_id := "site"; jb_coordinator_urls := ["https://hub"]; jb_spki_sha256 := ["00"];
  jb_enrollment_token := "t"; jb_mdns_service := None |}.

Definition demo_old : Files := {[ "desk-01.fallow-join" := {| jf_content := "old"; jf_mode := 384 |} ]}.

Definition demo_start : JState := {|
  js_files := demo_old; js_calls := 0; js_temporary := []; js_created := []; js_backups := []; js_replaced := [] |}.

(** A rollback that cannot remove a file loses another one.  Three bundles are written over one existing
    file; the third replacement fails, and the removal of the second file, which was new, fails as well.  That
    exception leaves the rollback before the first file is restored, and the cleanup then deletes its backup:
    the old content is in no file any more. *)
Theorem failed_rollback_loses_file :
  let faulty := λ k, bool_decide (k ∈ [20; 21]%nat) in
  let r := write_join_bundles faulty pretty (λ _, 0%nat) quiet (λ b, b) (λ _, "new") [demo_bundle; demo_bundle; demo_bundle] true demo_start in
  r.2 = inl OSErr ∧
  jf_content <$> js_files r.1 !! "desk-01.fallow-join" = Some "new" ∧
  Forall (λ p : string * JFile, jf_content p.2 ≠ "old") (map_to_list (js_files r.1)).
Proof. vm_compute. split_and!; [reflexivity | reflexivity |]. repeat constructor; discriminate. Qed.
