(* ===== verification/Gateway.v ===== *)
(** * The gateway's bookkeeping

    Models src/packages/fallow-coordinator/src/fallow_coordinator/gateway/:
    quota.py ([QuotaManager]), affinity.py ([AffinityMap]), inflight.py
    ([InflightTracker], [InflightHold]) and proxy.py (the retry loop and the direct
    and relayed attempts).  Instants are whole microseconds since the epoch, floats
    exact rationals, and what the network did is an argument of the attempt. *)

From stdpp Require Import pretty.
From S2P Require Export Registry.
From S2P Require Import QueueDb.

(** ** Quotas *)

Record KeyState := { ks_bucket_tokens : Q; ks_bucket_updated_at : instant; ks_day : Z; ks_daily_count : Z }.

Definition DAY_US : Z := 86400000000.

(** [now.date()] of a UTC instant *)
Definition date_of (now : instant) : Z := (now / DAY_US)%Z.

(** [key.key_id or key.name] *)
Definition quota_id (key : ApiKeyInfo) : string :=
  if bool_decide (ki_key_id key = "") then ki_name key else ki_key_id key.

Definition fresh_state (key : ApiKeyInfo) (now : instant) : KeyState := {|
  ks_bucket_tokens := inject_Z (default 0%Z (ki_rpm_limit key)); ks_bucket_updated_at := now;
  ks_day := date_of now; ks_daily_count := 0 |}.

Definition seconds (us : Z) : Q := (inject_Z us / 1000000)%Q.

Definition refill (rpm : Z) (now : instant) (s : KeyState) : Q :=
  let elapsed_s := py_max2 0 (seconds (now - ks_bucket_updated_at s)) in
  py_min2 (inject_Z rpm) (ks_bucket_tokens s + elapsed_s * inject_Z rpm / 60).

Definition refresh (key : ApiKeyInfo) (now : instant) (s : KeyState) : KeyState :=
  let tokens := match ki_rpm_limit key with Some rpm => refill rpm now s | None => ks_bucket_tokens s end in
  let new_day := (ks_day s <? date_of now)%Z in
  {| ks_bucket_tokens := tokens; ks_bucket_updated_at := Z.max (ks_bucket_updated_at s) now;
     ks_day := if new_day then date_of now else ks_day s;
     ks_daily_count := if new_day then 0%Z else ks_daily_count s |}.

(** The delays collected in [retry_delays]. *)
Definition rpm_delay (key : ApiKeyInfo) (s : KeyState) : option Z :=
  match ki_rpm_limit key with
  | Some rpm =>
      if ks_bucket_tokens s <?q 1
      then Some (Z.max 1 (Qceiling ((1 - ks_bucket_tokens s) / (inject_Z rpm / 60)))) else None
  | None => None
  end.

Definition daily_delay (key : ApiKeyInfo) (now : instant) (s : KeyState) : option Z :=
  match ki_daily_limit key with
  | Some limit =>
      if (limit <=? ks_daily_count s)%Z
      then Some (Z.max 1 (Qceiling (seconds ((date_of now + 1) * DAY_US - now)))) else None
  | None => None
  end.

Definition max_delay (a b : option Z) : option Z :=
  match a, b with
  | Some x, Some y => Some (Z.max x y)
  | Some x, None | None, Some x => Some x
  | None, None => None
  end.

Definition spend_request (key : ApiKeyInfo) (s : KeyState) : KeyState := {|
  ks_bucket_tokens := match ki_rpm_limit key with Some _ => (ks_bucket_tokens s - 1)%Q | None => ks_bucket_tokens s end;
  ks_bucket_updated_at := ks_bucket_updated_at s; ks_day := ks_day s;
  ks_daily_count := match ki_daily_limit key with Some _ => (ks_daily_count s + 1)%Z | None => ks_daily_count s end |}.

Definition unlimited (key : ApiKeyInfo) : bool :=
  ki_is_admin key || (bool_decide (ki_rpm_limit key = None) && bool_decide (ki_daily_limit key = None)).

(** [None] lets the request through; [Some n] is [QuotaExceeded(retry_after_s=n)]. *)
Definition consume (key : ApiKeyInfo) (now : instant) (states : odict KeyState) : odict KeyState * option Z :=
  if unlimited key then (states, None)
  else
    let s := refresh key now (default (fresh_state key now) (od_get (quota_id key) states)) in
    match max_delay (rpm_delay key s) (daily_delay key now s) with
    | Some n => (od_set (quota_id key) s states, Some n)
    | None => (od_set (quota_id key) (spend_request key s) states, None)
    end.

(** [snapshot()]: the rows handed to the registry. *)
Definition quota_snapshot (now : instant) (states : odict KeyState) : list ApiKeyQuotaSnapshot :=
  (λ p : string * KeyState, {|
     qs_key_id := p.1; qs_bucket_tokens := ks_bucket_tokens p.2; qs_bucket_updated_at := ks_bucket_updated_at p.2;
     qs_day := ks_day p.2; qs_daily_count := ks_daily_count p.2; qs_snapshotted_at := now |})
  <$> py_sorted fst states.

Definition restore (rows : list ApiKeyQuotaSnapshot) : odict KeyState :=
  fold_left (λ m r, od_set (qs_key_id r) {|
    ks_bucket_tokens := qs_bucket_tokens r; ks_bucket_updated_at := qs_bucket_updated_at r;
    ks_day := qs_day r; ks_daily_count := qs_daily_count r |} m) rows [].

(** ** Session affinity *)

Inductive AffinityState := HIT | MISS | NONE.

Abbreviation EndpointKey := (string * string * Z * string)%type.

Definition endpoint_key (e : ReplicaEndpoint) : EndpointKey := (re_agent_id e, re_host e, re_port e, re_model_id e).

Record Entry := { en_endpoint : EndpointKey; en_touched_at : instant }.

(** The limits of an [AffinityMap]; the time to live in microseconds. *)
Record AffinityConfig := { af_ttl : Z; af_max : nat }.

Definition affinity_config (ttl_s : Q) (max_entries : Z) : option AffinityConfig :=
  if (ttl_s <=?q 0) || (max_entries <=? 0)%Z then None
  else Some {| af_ttl := timedelta_us ttl_s; af_max := Z.to_nat max_entries |}.

Section Affinity.
  Context (cfg : AffinityConfig).

Definition still_fresh (now : instant) (e : Entry) : bool := (now - en_touched_at e <? af_ttl cfg)%Z.

(** [_expire]: from the oldest entry on, until one is fresh *)
Fixpoint expire (now : instant) (m : odict Entry) : odict Entry :=
  match m with
  | [] => []
  | (k, e) :: rest => if still_fresh now e then m else expire now rest
  end.

(** [while len(entries) > max: popitem(last=False)] *)
Definition trim_oldest (m : odict Entry) : odict Entry := drop (length m - af_max cfg) m.

Definition put_last (s : string) (e : Entry) (m : odict Entry) : odict Entry := od_move_to_end s (od_set s e m).

Definition remember (s : string) (endpoint : ReplicaEndpoint) (now : instant) (m : odict Entry) : odict Entry :=
  trim_oldest (put_last s {| en_endpoint := endpoint_key endpoint; en_touched_at := now |} (expire now m)).

Definition forget (s : string) (m : odict Entry) : odict Entry := od_pop s m.

Definition candidate_for (candidates : list ReplicaEndpoint) (k : EndpointKey) : option ReplicaEndpoint :=
  head (filter (λ c, endpoint_key c = k) candidates).

Definition resolve (session : option string) (candidates : list ReplicaEndpoint)
    (pick : list ReplicaEndpoint → option ReplicaEndpoint) (preserve_missing : bool) (now : instant) (m : odict Entry)
    : odict Entry * (option ReplicaEndpoint * AffinityState) :=
  match session with
  | None => (m, (pick candidates, NONE))
  | Some s =>
      let m := expire now m in
      let choose m :=
        match pick candidates with
        | Some e => (remember s e now m, (Some e, MISS))
        | None => (m, (None, MISS))
        end in
      match od_get s m with
      | None => choose m
      | Some entry =>
          match candidate_for candidates (en_endpoint entry) with
          | Some e => (put_last s {| en_endpoint := en_endpoint entry; en_touched_at := now |} m, (Some e, HIT))
          | None =>
              if preserve_missing && bool_decide (candidates = []) then (m, (None, MISS))
              else choose (od_pop s m)
          end
      end
  end.
End Affinity.

(** ** Inflight counts *)

Abbreviation hostport := (string * Z)%type.

(** The counter and the holds ever handed out, by identity. *)
Record Tracker := { t_counts : gmap hostport Z; t_holds : list (hostport * bool) }.

Definition new_tracker : Tracker := {| t_counts := ∅; t_holds := [] |}.

Definition count_of (k : hostport) (t : Tracker) : Z := default 0%Z (t_counts t !! k).

Definition hold (k : hostport) (t : Tracker) : nat * Tracker :=
  (length (t_holds t),
   {| t_counts := <[k := (count_of k t + 1)%Z]> (t_counts t); t_holds := t_holds t ++ [(k, false)] |}).

Definition decrement (k : hostport) (counts : gmap hostport Z) : gmap hostport Z :=
  let remaining := (default 0%Z (counts !! k) - 1)%Z in
  if (remaining <=? 0)%Z then delete k counts else <[k := remaining]> counts.

Definition release (h : nat) (t : Tracker) : Tracker :=
  match t_holds t !! h with
  | Some (k, false) => {| t_counts := decrement k (t_counts t); t_holds := <[h := (k, true)]> (t_holds t) |}
  | _ => t
  end.

(** ** Upstream attempts *)

Definition MAX_ATTEMPTS : nat := 2.
Definition SERVER_ERROR : Z := 500.
Definition DEFAULT_MEDIA : string := "application/json".
Definition STREAM_MEDIA : string := "text/event-stream".

Record ProxyRequest := { pr_method : string; pr_path : string; pr_body : bytes; pr_content_type : string }.

Record PassThrough := { pt_status_code : Z; pt_body : bytes; pt_media_type : string }.

(** A stream opened directly or through the relay, its first chunk read. *)
Record StreamHandle := { sh_status_code : Z; sh_first : option bytes; sh_media_type : string }.

Inductive Outcome :=
  | Passed (p : PassThrough)
  | Streaming (h : StreamHandle)
  | RelayStreaming (h : StreamHandle)
  | Retry (passthrough : option PassThrough).

Record Acquired := {
  aq_endpoint : ReplicaEndpoint; aq_retried : bool; aq_hold : option nat; aq_stream : option StreamHandle;
  aq_buffered : option PassThrough; aq_relay_stream : option StreamHandle
}.

Inductive AcquireResult :=
  | Acq (a : Acquired)
  | NoUpstream (retried : bool).

Definition host_port (e : ReplicaEndpoint) : hostport := (re_host e, re_port e).

(** What one request of the gateway can see: the shared tracker, and the
    upstream calls it has made. *)
Inductive Dial :=
  | Dialled (url : string)
  | Offered (agent : agent_id) (port : Z).

Record Net := { n_tracker : Tracker; n_dials : list Dial }.

Abbreviation N_eff := (Eff Net string).

Definition hold_slot (k : hostport) : N_eff nat := λ n,
  let '(h, t) := hold k (n_tracker n) in ({| n_tracker := t; n_dials := n_dials n |}, inr h).

Definition release_slot (h : nat) : N_eff unit :=
  modify (λ n, {| n_tracker := release h (n_tracker n); n_dials := n_dials n |}).

Definition as_success (outcome : Outcome) (h : nat) (e : ReplicaEndpoint) (retried : bool) : N_eff AcquireResult :=
  match outcome with
  | Streaming s => mret (Acq {| aq_endpoint := e; aq_retried := retried; aq_hold := Some h; aq_stream := Some s;
                                aq_buffered := None; aq_relay_stream := None |})
  | RelayStreaming s => mret (Acq {| aq_endpoint := e; aq_retried := retried; aq_hold := Some h; aq_stream := None;
                                     aq_buffered := None; aq_relay_stream := Some s |})
  | Passed p => release_slot h ;;
                mret (Acq {| aq_endpoint := e; aq_retried := retried; aq_hold := None; aq_stream := None;
                             aq_buffered := Some p; aq_relay_stream := None |})
  | Retry _ => raise "unreachable"
  end.

Section Attempts.
  Context (repick : list hostport → option ReplicaEndpoint) (try_once : ReplicaEndpoint → N_eff Outcome).

(** After the loop: a 5xx already read is forwarded, anything else is no upstream. *)
Definition exhausted (last_5xx : option (ReplicaEndpoint * PassThrough)) (retried : bool) : AcquireResult :=
  match last_5xx with
  | Some (e, p) => Acq {| aq_endpoint := e; aq_retried := retried; aq_hold := None; aq_stream := None;
                          aq_buffered := Some p; aq_relay_stream := None |}
  | None => NoUpstream retried
  end.

(** The [while] loop; [budget] is [_MAX_ATTEMPTS - attempts]. *)
Fixpoint attempt_loop (budget attempts : nat) (tried : list hostport) (endpoint : option ReplicaEndpoint)
    (last_5xx : option (ReplicaEndpoint * PassThrough)) : N_eff AcquireResult :=
  match budget, endpoint with
  | S budget, Some e =>
      let attempts := S attempts in
      h ← hold_slot (host_port e);
      outcome ← try_once e;
      match outcome with
      | Retry passthrough =>
          release_slot h ;;
          let last_5xx := match passthrough with Some p => Some (e, p) | None => last_5xx end in
          let tried := host_port e :: tried in
          attempt_loop budget attempts tried
            (if (attempts <? MAX_ATTEMPTS)%nat then repick tried else None) last_5xx
      | _ => as_success outcome h e (1 <? attempts)%nat
      end
  | _, _ => mret (exhausted last_5xx (1 <? attempts)%nat)
  end.

Definition run_attempts (first : ReplicaEndpoint) : N_eff AcquireResult :=
  attempt_loop MAX_ATTEMPTS 0 [] (Some first) None.
End Attempts.

(** [_make_repick] of service.py *)
Definition make_repick (pick : list ReplicaEndpoint → option ReplicaEndpoint) (enriched : list ReplicaEndpoint)
    (tried : list hostport) : option ReplicaEndpoint :=
  pick (filter (λ e, host_port e ∉ tried) enriched).

(** *** One attempt

    [HttpRaises] is an exception outside [_RETRYABLE_ERRORS] (a broken
    connection, a protocol error) or the cancellation of the request. *)

Inductive HttpReply :=
  | HttpRetryable
  | HttpRaises (exn : string)
  | HttpResponse (status : Z) (body : bytes) (content_type : option string).

Definition media (content_type : option string) : string := default DEFAULT_MEDIA content_type.

Definition try_buffered (reply : HttpReply) : string + Outcome :=
  match reply with
  | HttpRetryable => inr (Retry None)
  | HttpRaises exn => inl exn
  | HttpResponse status body ct =>
      let passthrough := {| pt_status_code := status; pt_body := body; pt_media_type := media ct |} in
      if (SERVER_ERROR <=? status)%Z then inr (Retry (Some passthrough)) else inr (Passed passthrough)
  end.

Inductive FirstChunk :=
  | FirstBytes (b : bytes)
  | FirstStop
  | FirstFails
  | FirstRaises (exn : string).

Inductive StreamReply :=
  | SendRetryable
  | SendRaises (exn : string)
  | SendResponse (status : Z) (content_type : option string) (whole_body : string + bytes) (first : FirstChunk).

Definition first_chunk (status : Z) (content_type : option string) (first : FirstChunk) : string + Outcome :=
  let handle f := inr (Streaming {| sh_status_code := status; sh_first := f;
                                    sh_media_type := default STREAM_MEDIA content_type |}) in
  match first with
  | FirstBytes b => handle (Some b)
  | FirstStop => handle None
  | FirstFails => inr (Retry None)
  | FirstRaises exn => inl exn
  end.

Definition try_stream (reply : StreamReply) : string + Outcome :=
  match reply with
  | SendRetryable => inr (Retry None)
  | SendRaises exn => inl exn
  | SendResponse status ct whole first =>
      if (SERVER_ERROR <=? status)%Z then
        match whole with
        | inl exn => inl exn
        | inr body => inr (Retry (Some {| pt_status_code := status; pt_body := body; pt_media_type := media ct |}))
        end
      else first_chunk status ct first
  end.

(** What became of an offer to the relay broker. *)
Inductive RelayReply :=
  | NotOffered
  | RelayFailed (nonretryable : bool)
  | RelayRaises (exn : string)
  | RelayResponse (status : Z) (content_type : string) (first : option bytes) (rest : bytes).

Definition on_failure (nonretryable : bool) : Outcome :=
  if nonretryable then Passed {| pt_status_code := SERVER_ERROR; pt_body := []; pt_media_type := DEFAULT_MEDIA |}
  else Retry None.

Definition relay_try_buffered (reply : RelayReply) : string + Outcome :=
  match reply with
  | NotOffered => inr (Retry None)
  | RelayFailed flag => inr (on_failure flag)
  | RelayRaises exn => inl exn
  | RelayResponse status ct first rest =>
      let p := {| pt_status_code := status; pt_body := default [] first ++ rest; pt_media_type := ct |} in
      if (SERVER_ERROR <=? status)%Z then inr (Retry (Some p)) else inr (Passed p)
  end.

Definition relay_try_stream (reply : RelayReply) : string + Outcome :=
  match reply with
  | NotOffered => inr (Retry None)
  | RelayFailed flag => inr (on_failure flag)
  | RelayRaises exn => inl exn
  | RelayResponse status ct first rest =>
      if (SERVER_ERROR <=? status)%Z
      then inr (Retry (Some {| pt_status_code := status; pt_body := default [] first ++ rest; pt_media_type := ct |}))
      else inr (RelayStreaming {| sh_status_code := status; sh_first := first; sh_media_type := ct |})
  end.

(** [_url] *)
Definition url (e : ReplicaEndpoint) (path : string) : string :=
  "http://" +:+ re_host e +:+ ":" +:+ pretty (re_port e) +:+ path.

(** [_normalize_json_media] *)
Definition before_semicolon (s : string) : string :=
  String.string_of_list_ascii
    ((fix go (l : list ascii) : list ascii :=
        match l with
        | [] => []
        | c :: l => if bool_decide (c = ";"%char) then [] else c :: go l
        end) (String.list_ascii_of_string s)).

Definition normalize_json_media (content_type : string) : string :=
  if bool_decide (lower (strip (before_semicolon content_type)) = DEFAULT_MEDIA) then DEFAULT_MEDIA else content_type.

(** *** The site-aware transport

    What the network answers, whether the agent has a site route, and what other
    requests do to the tracker meanwhile, at the n-th upstream call. *)

Record Answers := {
  an_http : nat → HttpReply; an_stream : nat → StreamReply; an_relay : nat → RelayReply;
  an_route : nat → agent_id → option Z; an_meanwhile : nat → Tracker → Tracker
}.

Section SiteAware.
  Context (answers : Answers) (request : ProxyRequest).

Definition call_upstream (d : Dial) (answer : nat → string + Outcome) : N_eff Outcome := λ n,
  let i := length (n_dials n) in
  ({| n_tracker := an_meanwhile answers i (n_tracker n); n_dials := n_dials n ++ [d] |}, answer i).

Definition direct_call (streaming : bool) (e : ReplicaEndpoint) : N_eff Outcome :=
  call_upstream (Dialled (url e (pr_path request)))
    (λ i, if streaming then try_stream (an_stream answers i) else try_buffered (an_http answers i)).

Definition relay_call (streaming : bool) (e : ReplicaEndpoint) : N_eff Outcome :=
  call_upstream (Offered (re_agent_id e) (re_port e))
    (λ i, if streaming then relay_try_stream (an_relay answers i) else relay_try_buffered (an_relay answers i)).

(** [SiteAwareTransport._buffered] and [._stream] *)
Definition site_aware_call (streaming : bool) (e : ReplicaEndpoint) : N_eff Outcome :=
  i ← gets (λ n, length (n_dials n));
  match an_route answers i (re_agent_id e) with
  | Some _ => relay_call streaming e
  | None => direct_call streaming e
  end.

Definition acquire (streaming : bool) (first : ReplicaEndpoint) (repick : list hostport → option ReplicaEndpoint)
    : N_eff AcquireResult :=
  run_attempts repick (site_aware_call streaming) first.
End SiteAware.
