(* ===== verification/QuotaSpec.v ===== *)
(** * What the quotas guarantee

    The limits of a key are enforced over any history, the delay in a refusal is
    exact, and the counters survive a restart through the registry. *)

From S2P Require Export Gateway RegistrySpec.
From S2P Require Import QueueDb.

(** ** Rationals *)

Lemma Qceiling_le_iff x k : (Qceiling x ≤ k)%Z ↔ (x <= inject_Z k)%Q.
Proof.
  split; intros H.
  - eapply Qle_trans; [apply Qle_ceiling |]. by rewrite <- Zle_Qle.
  - rewrite <- (Qceiling_Z k). by apply Qceiling_resp_le.
Qed.

Lemma py_min2_spec a b x : (x <= py_min2 a b)%Q ↔ (x <= a)%Q ∧ (x <= b)%Q.
Proof. unfold py_min2. destruct (b <?q a) eqn:H; reflect_bools; split; intros; lra. Qed.

Lemma py_min2_le a b : (py_min2 a b <= a)%Q ∧ (py_min2 a b <= b)%Q.
Proof. unfold py_min2. destruct (b <?q a) eqn:H; reflect_bools; split; lra. Qed.

Lemma seconds_plus a b : (seconds (a + b) == seconds a + seconds b)%Q.
Proof. unfold seconds. rewrite inject_Z_plus. field. Qed.

Lemma seconds_le a b : (a ≤ b)%Z → (seconds a <= seconds b)%Q.
Proof. unfold seconds. rewrite Zle_Qle. intros H. by apply Qmult_le_compat_r. Qed.

Lemma seconds_nonneg a : (0 ≤ a)%Z → (0 <= seconds a)%Q.
Proof. intros H. eapply Qle_trans; [| by apply seconds_le]. done. Qed.

Lemma seconds_whole k : (seconds (k * 1000000) == inject_Z k)%Q.
Proof. unfold seconds. rewrite inject_Z_mult. field. Qed.

(** The time credited to a bucket is the time its clock moved. *)
Lemma elapsed_credit now upd : (py_max2 0 (seconds (now - upd)) == seconds (Z.max upd now - upd))%Q.
Proof.
  unfold py_max2. assert (H0 : (seconds 0 == 0)%Q) by reflexivity.
  destruct (0 <?q seconds (now - upd)) eqn:H; reflect_bools.
  - rewrite Z.max_r; [reflexivity |]. destruct (Z.le_gt_cases upd now) as [| Hlt]; [done |].
    pose proof (seconds_le (now - upd) 0 ltac:(lia)). lra.
  - destruct (Z.le_gt_cases now upd) as [Hle | Hlt]; [rewrite Z.max_l by lia; by replace (upd - upd)%Z with 0%Z by lia |].
    rewrite Z.max_r by lia. pose proof (seconds_le 0 (now - upd) ltac:(lia)). lra.
Qed.

Lemma and_iff_compat (P P' Q Q' : Prop) : (P ↔ P') → (Q ↔ Q') → (P ∧ Q) ↔ (P' ∧ Q').
Proof. tauto. Qed.

Lemma od_set_set {A} k (x y : A) m : od_set k x (od_set k y m) = od_set k x m.
Proof.
  induction m as [| [k' z] m IH]; cbn; [by rewrite bool_decide_eq_true_2 |].
  destruct (bool_decide (k = k')) eqn:H; cbn; [by rewrite bool_decide_eq_true_2 |]. rewrite H. by rewrite IH.
Qed.

(** ** The token bucket *)

Section Quota.
  Context (key : ApiKeyInfo) (Hlim : unlimited key = false)
    (Hrpm : limit_ok (ki_rpm_limit key) = true) (Hdaily : limit_ok (ki_daily_limit key) = true).

Definition quota_refuses (now : instant) (s : KeyState) : option Z := max_delay (rpm_delay key s) (daily_delay key now s).

Lemma consume_cases now states :
  let s := refresh key now (default (fresh_state key now) (od_get (quota_id key) states)) in
  consume key now states =
    (od_set (quota_id key) (match quota_refuses now s with Some _ => s | None => spend_request key s end) states,
     quota_refuses now s).
Proof. intros s. unfold consume. rewrite Hlim. fold s. unfold quota_refuses. by destruct (max_delay _ _). Qed.

Lemma refuses_None now s :
  quota_refuses now s = None ↔
  (∀ rpm, ki_rpm_limit key = Some rpm → (1 <= ks_bucket_tokens s)%Q) ∧
  (∀ limit, ki_daily_limit key = Some limit → (ks_daily_count s < limit)%Z).
Proof.
  unfold quota_refuses, rpm_delay, daily_delay. destruct (ki_rpm_limit key) as [rpm |], (ki_daily_limit key) as [limit |];
    try destruct (ks_bucket_tokens s <?q 1) eqn:Ht; try destruct (limit <=? ks_daily_count s)%Z eqn:Hd; reflect_bools;
    (split; [intros Heq; try discriminate; split; intros ? [= <-]; done
            | intros [H1 H2]; try done; exfalso;
              try (specialize (H1 _ eq_refl); lra); specialize (H2 _ eq_refl); lia]).
Qed.

Section Rate.
  Context (rpm : Z) (Hr : ki_rpm_limit key = Some rpm).

Lemma rpm_pos : (0 < inject_Z rpm)%Q.
Proof. rewrite Hr in Hrpm. cbn in Hrpm. reflect_bools. change 0%Q with (inject_Z 0). by rewrite <- Zlt_Qlt. Qed.

(** What a bucket can still pay for until [t1]. *)
Definition credit (t1 : instant) (s : KeyState) : Q :=
  (ks_bucket_tokens s + seconds (t1 - ks_bucket_updated_at s) * inject_Z rpm / 60)%Q.

Lemma refresh_credit now t1 s :
  (0 <= ks_bucket_tokens s)%Q → (ks_bucket_updated_at s ≤ t1)%Z → (now ≤ t1)%Z →
  (0 <= ks_bucket_tokens (refresh key now s))%Q ∧ (ks_bucket_updated_at (refresh key now s) ≤ t1)%Z ∧
  (credit t1 (refresh key now s) <= credit t1 s)%Q.
Proof.
  intros Ht Hu Hn. pose proof rpm_pos as Hp. unfold refresh, credit, refill, Qdiv. change (/ 60)%Q with (1 # 60)%Q.
  rewrite Hr. cbn [ks_bucket_tokens ks_bucket_updated_at].
  pose proof (elapsed_credit now (ks_bucket_updated_at s)) as He.
  set (e := py_max2 0 (seconds (now - ks_bucket_updated_at s))) in *. set (u := ks_bucket_updated_at s) in *.
  assert (He0 : (0 <= e)%Q) by (rewrite He; apply seconds_nonneg; lia).
  pose proof (py_min2_le (inject_Z rpm) (ks_bucket_tokens s + e * inject_Z rpm * (1 # 60))) as [_ Hle].
  assert (Hsplit : (seconds (t1 - u) == e + seconds (t1 - Z.max u now))%Q).
  { rewrite He, <- seconds_plus. by replace (Z.max u now - u + (t1 - Z.max u now))%Z with (t1 - u)%Z by lia. }
  split_and!; [| lia |].
  - apply py_min2_spec. split; [lra |]. assert (0 <= e * inject_Z rpm)%Q by nra. lra.
  - rewrite Hsplit. lra.
Qed.

Lemma spend_credit t1 s : (credit t1 (spend_request key s) == credit t1 s - 1)%Q.
Proof. unfold credit, spend_request. rewrite Hr. cbn. ring. Qed.
End Rate.

(** How many of the key's calls were let through at an instant satisfying [P]. *)
Fixpoint accepted (P : instant → bool) (calls : list (ApiKeyInfo * instant)) (states : odict KeyState) : Z :=
  match calls with
  | [] => 0
  | (k, now) :: rest =>
      let '(states', r) := consume k now states in
      (if bool_decide (quota_id k = quota_id key) && bool_decide (r = None) && P now then 1 else 0) + accepted P rest states'
  end.

(** Calls that name the same quota carry the same key. *)
Definition one_identity (calls : list (ApiKeyInfo * instant)) : Prop :=
  ∀ c, c ∈ calls → quota_id c.1 = quota_id key → c.1 = key.

Lemma consume_other k now states :
  quota_id k ≠ quota_id key → od_get (quota_id key) (consume k now states).1 = od_get (quota_id key) states.
Proof.
  intros Hne. unfold consume. destruct (unlimited k); [done |].
  destruct (max_delay _ _); cbn; by rewrite od_get_set_ne by congruence.
Qed.

Lemma accepted_cons_other P k now rest states :
  quota_id k ≠ quota_id key → accepted P ((k, now) :: rest) states = accepted P rest (consume k now states).1.
Proof. intros Hne. cbn. destruct (consume k now states). by rewrite bool_decide_eq_false_2. Qed.

Lemma accepted_cons_same P now rest states :
  let s := refresh key now (default (fresh_state key now) (od_get (quota_id key) states)) in
  accepted P ((key, now) :: rest) states =
    match quota_refuses now s with
    | Some _ => accepted P rest (od_set (quota_id key) s states)
    | None => ((if P now then 1 else 0) + accepted P rest (od_set (quota_id key) (spend_request key s) states))%Z
    end.
Proof.
  intros s. cbn [accepted]. rewrite consume_cases. fold s. cbv beta iota.
  rewrite (bool_decide_eq_true_2 (quota_id key = quota_id key)) by done.
  destruct (quota_refuses now s); cbn; [| by destruct (P now)]. lia.
Qed.

Lemma accepted_rate rpm t1 calls states s :
  ki_rpm_limit key = Some rpm → one_identity calls →
  (∀ c, c ∈ calls → quota_id c.1 = quota_id key → (c.2 ≤ t1)%Z) →
  od_get (quota_id key) states = Some s → (0 <= ks_bucket_tokens s)%Q → (ks_bucket_updated_at s ≤ t1)%Z →
  (inject_Z (accepted (λ _, true) calls states) <= credit rpm t1 s)%Q.
Proof.
  intros Hr. revert states s; induction calls as [| [k now] rest IH]; intros states s Hid Ht Hs H0 Hu.
  { cbn. unfold credit, Qdiv. change (/ 60)%Q with (1 # 60)%Q. pose proof (rpm_pos rpm Hr).
    pose proof (seconds_nonneg (t1 - ks_bucket_updated_at s) ltac:(lia)).
    assert (0 <= seconds (t1 - ks_bucket_updated_at s) * inject_Z rpm)%Q by nra. change (inject_Z 0) with 0%Q. lra. }
  assert (Hid' : one_identity rest) by (intros c Hc; apply Hid; by right).
  assert (Ht' : ∀ c, c ∈ rest → quota_id c.1 = quota_id key → (c.2 ≤ t1)%Z) by (intros c Hc; apply Ht; by right).
  destruct (decide (quota_id k = quota_id key)) as [Hk | Hk].
  - pose proof (Ht _ (list_elem_of_here _ _) Hk) as Hnow. cbn in Hnow.
    pose proof (Hid _ (list_elem_of_here _ _) Hk) as Hkey. cbn in Hkey. subst k.
    rewrite accepted_cons_same, Hs. change (default (fresh_state key now) (Some s)) with s.
    destruct (refresh_credit rpm Hr now t1 s H0 Hu Hnow) as (H0' & Hu' & Hc).
    destruct (quota_refuses now (refresh key now s)) eqn:Hq.
    + eapply Qle_trans; [| exact Hc]. apply IH; try done. apply od_get_set_eq.
    + apply refuses_None in Hq as [Hq _]. specialize (Hq rpm Hr).
      rewrite inject_Z_plus. pose proof (spend_credit rpm Hr t1 (refresh key now s)) as Hsp.
      assert (inject_Z (accepted (λ _, true) rest (od_set (quota_id key) (spend_request key (refresh key now s)) states))
              <= credit rpm t1 (spend_request key (refresh key now s)))%Q as Hrest;
        [| cbv beta iota; change (inject_Z 1) with 1%Q; clear -Hrest Hc Hsp; lra].
      apply IH; [done | done | apply od_get_set_eq | | done]. unfold spend_request. rewrite Hr. cbn [ks_bucket_tokens]. lra.
  - rewrite accepted_cons_other by done. apply IH; try done. by rewrite consume_other.
Qed.

(** What a day's allowance still has, given the state of the counter. *)
Definition allowance (limit day : Z) (s : KeyState) : Z :=
  if (ks_day s <? day)%Z then limit else if (ks_day s =? day)%Z then limit - ks_daily_count s else 0.

Lemma refresh_allowance now limit day s :
  (0 < limit)%Z → (ks_daily_count s ≤ limit)%Z → (0 ≤ ks_daily_count s)%Z → (ks_day s ≤ date_of now)%Z →
  let s' := refresh key now s in
  ks_day s' = date_of now ∧ (0 ≤ ks_daily_count s' ≤ limit)%Z ∧ (allowance limit day s' ≤ allowance limit day s)%Z.
Proof.
  intros Hl Hc H0 Hd. unfold refresh, allowance. cbn.
  destruct (ks_day s <? date_of now)%Z eqn:Hn; reflect_bools; split_and!; try lia; try done;
    repeat match goal with |- context [(?a <? ?b)%Z] => destruct (Z.ltb_spec a b)
                         | |- context [(?a =? ?b)%Z] => destruct (Z.eqb_spec a b) end; try lia.
Qed.

Lemma accepted_daily limit day calls states s last :
  ki_daily_limit key = Some limit → one_identity calls → StronglySorted Z.le (last :: calls.*2) →
  od_get (quota_id key) states = Some s → (0 ≤ ks_daily_count s ≤ limit)%Z → (ks_day s ≤ date_of last)%Z →
  (accepted (λ t, (date_of t =? day)%Z) calls states ≤ allowance limit day s)%Z.
Proof.
  intros Hl. assert (Hlp : (0 < limit)%Z) by (rewrite Hl in Hdaily; cbn in Hdaily; by reflect_bools).
  revert states s last; induction calls as [| [k now] rest IH]; intros states s last Hid Hs Hg Hc Hd.
  { cbn. unfold allowance. destruct (Z.ltb_spec (ks_day s) day), (Z.eqb_spec (ks_day s) day); lia. }
  assert (Hid' : one_identity rest) by (intros c Hin; apply Hid; by right).
  apply StronglySorted_inv in Hs as [Hs Hlast]. cbn in Hs, Hlast. apply Forall_cons in Hlast as [Hln _].
  assert (Hd' : (ks_day s ≤ date_of now)%Z) by (etransitivity; [exact Hd |]; apply Z.div_le_mono; [done | lia]).
  destruct (decide (quota_id k = quota_id key)) as [Hk | Hk].
  - pose proof (Hid _ (list_elem_of_here _ _) Hk) as Hkey. cbn in Hkey. subst k.
    rewrite accepted_cons_same, Hg. change (default (fresh_state key now) (Some s)) with s.
    destruct (refresh_allowance now limit day s Hlp ltac:(lia) ltac:(lia) Hd') as (Hday & Hc' & Hle).
    destruct (quota_refuses now (refresh key now s)) eqn:Hq.
    + etransitivity; [| exact Hle]. apply (IH _ _ now); try done; [apply od_get_set_eq |]. rewrite Hday. lia.
    + apply refuses_None in Hq as [_ Hq]. specialize (Hq limit Hl). etransitivity; [| exact Hle].
      assert (Hrest : (accepted (λ t, (date_of t =? day)%Z) rest
                        (od_set (quota_id key) (spend_request key (refresh key now s)) states)
                       ≤ allowance limit day (spend_request key (refresh key now s)))%Z).
      { apply (IH _ _ now); try done; [apply od_get_set_eq | |]; unfold spend_request; cbn [ks_daily_count ks_day]; rewrite ?Hl, ?Hday; lia. }
      etransitivity; [apply Z.add_le_mono_l, Hrest |]. unfold allowance, spend_request. cbn [ks_daily_count ks_day]. rewrite Hl, Hday.
      destruct (Z.ltb_spec (date_of now) day), (Z.eqb_spec (date_of now) day); lia.
  - rewrite accepted_cons_other by done. apply (IH _ s now); try done. by rewrite consume_other.
Qed.

(** The first call of the key starts from a full bucket. *)
Lemma accepted_start P now rest states :
  od_get (quota_id key) states = None →
  accepted P ((key, now) :: rest) states = accepted P ((key, now) :: rest) (od_set (quota_id key) (fresh_state key now) states).
Proof.
  intros Hg. rewrite !accepted_cons_same, Hg, od_get_set_eq.
  change (default (fresh_state key now) (Some (fresh_state key now))) with (fresh_state key now).
  change (default (fresh_state key now) None) with (fresh_state key now). by rewrite !od_set_set.
Qed.

Lemma accepted_rate_start rpm t0 t1 calls states :
  ki_rpm_limit key = Some rpm → one_identity calls →
  (∀ c, c ∈ calls → quota_id c.1 = quota_id key → (t0 ≤ c.2 ≤ t1)%Z) → (t0 ≤ t1)%Z →
  od_get (quota_id key) states = None →
  (inject_Z (accepted (λ _, true) calls states) <= inject_Z rpm * (1 + seconds (t1 - t0) / 60))%Q.
Proof.
  intros Hr. pose proof (rpm_pos rpm Hr) as Hp. revert states; induction calls as [| [k now] rest IH]; intros states Hid Ht H01 Hg.
  { cbn. unfold Qdiv. change (/ 60)%Q with (1 # 60)%Q. pose proof (seconds_nonneg (t1 - t0) ltac:(lia)).
    assert (0 <= inject_Z rpm * seconds (t1 - t0))%Q by nra. change (inject_Z 0) with 0%Q. nra. }
  assert (Hid' : one_identity rest) by (intros c Hc; apply Hid; by right).
  assert (Ht' : ∀ c, c ∈ rest → quota_id c.1 = quota_id key → (t0 ≤ c.2 ≤ t1)%Z) by (intros c Hc; apply Ht; by right).
  destruct (decide (quota_id k = quota_id key)) as [Hk | Hk].
  - pose proof (Ht _ (list_elem_of_here _ _) Hk) as Hnow. cbn in Hnow.
    pose proof (Hid _ (list_elem_of_here _ _) Hk) as Hkey. cbn in Hkey. subst k.
    assert (Hcr : (credit rpm t1 (fresh_state key now) <= inject_Z rpm * (1 + seconds (t1 - t0) / 60))%Q).
    { unfold credit, fresh_state, Qdiv. change (/ 60)%Q with (1 # 60)%Q. cbn [ks_bucket_tokens ks_bucket_updated_at].
      rewrite Hr. cbn [default from_option id]. pose proof (seconds_le (t1 - now) (t1 - t0) ltac:(lia)).
      assert (seconds (t1 - now) * inject_Z rpm <= seconds (t1 - t0) * inject_Z rpm)%Q by (apply Qmult_le_compat_r; lra). nra. }
    eapply Qle_trans; [| exact Hcr].
    rewrite accepted_start by done. apply (accepted_rate rpm t1); [done | done | | apply od_get_set_eq | | cbn; lia].
    + intros c Hc Hck. by apply Ht.
    + unfold fresh_state. cbn [ks_bucket_tokens]. rewrite Hr. cbn [default from_option id]. lra.
  - rewrite accepted_cons_other by done. apply IH; try done. by rewrite consume_other.
Qed.

Lemma accepted_daily_start limit day calls states :
  ki_daily_limit key = Some limit → one_identity calls → StronglySorted Z.le calls.*2 →
  od_get (quota_id key) states = None →
  (accepted (λ t, (date_of t =? day)%Z) calls states ≤ limit)%Z.
Proof.
  intros Hl. assert (Hlp : (0 < limit)%Z) by (rewrite Hl in Hdaily; cbn in Hdaily; by reflect_bools).
  revert states; induction calls as [| [k now] rest IH]; intros states Hid Hs Hg; [cbn; lia |].
  assert (Hid' : one_identity rest) by (intros c Hin; apply Hid; by right).
  pose proof Hs as [Hs' _]%StronglySorted_inv. cbn in Hs'.
  destruct (decide (quota_id k = quota_id key)) as [Hk | Hk].
  - pose proof (Hid _ (list_elem_of_here _ _) Hk) as Hkey. cbn in Hkey. subst k.
    rewrite accepted_start by done. etransitivity; [apply (accepted_daily limit day _ _ (fresh_state key now) now)|]; try done.
    + cbn in Hs |- *. constructor; [done |]. constructor; [lia |]. by apply StronglySorted_inv in Hs as [_ ?].
    + apply od_get_set_eq.
    + cbn. lia.
    + unfold allowance. cbn. destruct (Z.ltb_spec (date_of now) day), (Z.eqb_spec (date_of now) day); lia.
  - rewrite accepted_cons_other by done. apply IH; try done. by rewrite consume_other.
Qed.

(** C31: the limits of a key are enforced over any history of requests of all
    keys, in any order of the clock for the rate: between two instants, at most
    the requests-per-minute limit times one plus the minutes between them are let
    through, and on one day, under a clock that does not go back, at most the
    daily limit. *)
Theorem quota_enforced calls t0 t1 :
  one_identity calls → (t0 ≤ t1)%Z →
  (∀ c, c ∈ calls → quota_id c.1 = quota_id key → (t0 ≤ c.2 ≤ t1)%Z) →
  (∀ rpm, ki_rpm_limit key = Some rpm →
     (inject_Z (accepted (λ _, true) calls []) <= inject_Z rpm * (1 + seconds (t1 - t0) / 60))%Q) ∧
  (∀ limit day, ki_daily_limit key = Some limit → StronglySorted Z.le calls.*2 →
     (accepted (λ t, (date_of t =? day)%Z) calls [] ≤ limit)%Z).
Proof.
  intros Hid H01 Ht. split.
  - intros rpm Hr. by apply accepted_rate_start.
  - intros limit day Hl Hs. by apply accepted_daily_start.
Qed.

(** *** The retry delay *)

(** Waiting [k] seconds lifts the rate limit exactly from the delay named on. *)
Lemma rpm_delay_exact rpm now k s :
  ki_rpm_limit key = Some rpm → ks_bucket_updated_at s = now → (0 ≤ k)%Z →
  (1 <= ks_bucket_tokens (refresh key (now + k * 1000000) s))%Q ↔ (default 0%Z (rpm_delay key s) ≤ k)%Z.
Proof.
  intros Hr Hu Hk. pose proof (rpm_pos rpm Hr) as Hp. assert (H1 : (1 <= inject_Z rpm)%Q).
  { rewrite Hr in Hrpm. cbn in Hrpm. reflect_bools. change 1%Q with (inject_Z 1). rewrite <- Zle_Qle. lia. }
  assert (Hk0 : (0 <= inject_Z k)%Q) by (change 0%Q with (inject_Z 0); by rewrite <- Zle_Qle).
  unfold refresh, refill, rpm_delay. rewrite Hr, Hu. cbn [ks_bucket_tokens].
  assert (He : (py_max2 0 (seconds (now + k * 1000000 - now)) == inject_Z k)%Q).
  { replace (now + k * 1000000 - now)%Z with (k * 1000000)%Z by lia. unfold py_max2. pose proof (seconds_whole k).
    destruct (0 <?q _) eqn:H0; reflect_bools; lra. }
  set (e := py_max2 0 _) in *. set (tok := ks_bucket_tokens s). rewrite py_min2_spec.
  assert (Hpos : (0 < inject_Z rpm / 60)%Q) by (unfold Qdiv; change (/ 60)%Q with (1 # 60)%Q; lra).
  assert (Hrate : (e * inject_Z rpm / 60 == inject_Z k * (inject_Z rpm / 60))%Q) by (rewrite He; field).
  rewrite Hrate. set (r := (inject_Z rpm / 60)%Q) in *. destruct (tok <?q 1) eqn:Ht; reflect_bools; cbn [default from_option id].
  - assert (Hceil : (Qceiling ((1 - tok) / r) ≤ k)%Z ↔ (1 <= tok + inject_Z k * r)%Q).
    { rewrite Qceiling_le_iff. split; intros H.
      - apply (Qmult_le_compat_r _ _ r) in H; [| lra]. rewrite Qmult_comm, Qmult_div_r in H by lra. lra.
      - apply Qle_shift_div_r; [done |]. lra. }
    split; [intros [_ H] | intros H; split; [done |]; apply Hceil; lia].
    apply Hceil in H. assert (k ≠ 0)%Z; [| lia]. intros ->. apply Hceil in H. change (inject_Z 0) with 0%Q in H. lra.
  - split; [intros _; lia |]. intros _. split; [done |]. assert (0 <= inject_Z k * r)%Q by nra. lra.
Qed.

Lemma daily_delay_exact limit now k s :
  ki_daily_limit key = Some limit → ks_day s = date_of now → (0 ≤ k)%Z →
  (ks_daily_count (refresh key (now + k * 1000000) s) < limit)%Z ↔ (default 0%Z (daily_delay key now s) ≤ k)%Z.
Proof.
  intros Hl Hday Hk. assert (Hlp : (0 < limit)%Z) by (rewrite Hl in Hdaily; cbn in Hdaily; by reflect_bools).
  unfold refresh, daily_delay. rewrite Hl, Hday. cbn [ks_daily_count].
  assert (Hnext : (date_of now < date_of (now + k * 1000000))%Z ↔ ((date_of now + 1) * DAY_US ≤ now + k * 1000000)%Z).
  { unfold date_of, DAY_US. split; intros H.
    - pose proof (Z.mul_div_le (now + k * 1000000) 86400000000 ltac:(lia)). nia.
    - apply Z.lt_le_trans with (now / 86400000000 + 1)%Z; [lia |]. apply Z.div_le_lower_bound; lia. }
  assert (Hceil : (Qceiling (seconds ((date_of now + 1) * DAY_US - now)) ≤ k)%Z ↔ (date_of now < date_of (now + k * 1000000))%Z).
  { rewrite Hnext, Qceiling_le_iff, <- seconds_whole. split; intros H.
    - destruct (Z.le_gt_cases ((date_of now + 1) * DAY_US) (now + k * 1000000)) as [| Hgt]; [done |]. exfalso.
      revert H. apply Qlt_not_le. unfold seconds, Qdiv. apply Qmult_lt_compat_r; [done |]. rewrite <- Zlt_Qlt. lia.
    - apply seconds_le. lia. }
  destruct (Z.leb_spec limit (ks_daily_count s)) as [Hfull | Hroom]; cbn [default from_option id].
  - assert (Hk1 : (Qceiling (seconds ((date_of now + 1) * DAY_US - now)) ≤ k)%Z → (1 ≤ k)%Z).
    { intros H%Hceil. destruct (decide (k = 0%Z)) as [-> |]; [| lia]. rewrite Z.mul_0_l, Z.add_0_r in H. lia. }
    destruct (Z.ltb_spec (date_of now) (date_of (now + k * 1000000))) as [Hn | Hn]; split; intros H; lia.
  - destruct (_ <? _)%Z; lia.
Qed.

Lemma max_delay_le a b k :
  (0 ≤ k)%Z → (default 0 (max_delay a b) ≤ k)%Z ↔ (default 0 a ≤ k)%Z ∧ (default 0 b ≤ k)%Z.
Proof. destruct a, b; cbn; lia. Qed.

Lemma refuses_exact now k s :
  ks_bucket_updated_at s = now → ks_day s = date_of now → (0 ≤ k)%Z →
  quota_refuses (now + k * 1000000) (refresh key (now + k * 1000000) s) = None ↔ (default 0%Z (quota_refuses now s) ≤ k)%Z.
Proof.
  intros Hu Hd Hk. rewrite refuses_None. unfold quota_refuses. rewrite max_delay_le by done.
  pose proof (λ rpm Hr, rpm_delay_exact rpm now k s Hr Hu Hk) as Hrate.
  pose proof (λ limit Hl, daily_delay_exact limit now k s Hl Hd Hk) as Hday.
  apply and_iff_compat.
  - destruct (ki_rpm_limit key) as [rpm |] eqn:Hr.
    + rewrite <- (Hrate rpm eq_refl). split; [intros H; by apply (H rpm) | done].
    + unfold rpm_delay. rewrite Hr. by split.
  - destruct (ki_daily_limit key) as [limit |] eqn:Hl.
    + rewrite <- (Hday limit eq_refl). split; [intros H; by apply (H limit) | intros H ? [= <-]; done].
    + unfold daily_delay. rewrite Hl. by split.
Qed.

(** The delay in a refusal is exact.  Under a clock that has not gone back, a
    request refused with [retry_after_s = n] is let through after waiting a whole
    number of seconds (with nothing else sent) if and only if that number is at
    least [n], and [n] is at least one second. *)
Theorem retry_after_exact now states states' n :
  (∀ s, od_get (quota_id key) states = Some s → (ks_bucket_updated_at s ≤ now)%Z ∧ (ks_day s ≤ date_of now)%Z) →
  consume key now states = (states', Some n) →
  (1 ≤ n)%Z ∧ ∀ k, (0 ≤ k)%Z → (consume key (now + k * 1000000) states').2 = None ↔ (n ≤ k)%Z.
Proof.
  intros Hs Hc. rewrite consume_cases in Hc. set (s := refresh key now _) in Hc.
  assert (Hsu : ks_bucket_updated_at s = now ∧ ks_day s = date_of now).
  { unfold s, refresh. cbn. destruct (od_get (quota_id key) states) as [s0 |]; cbn.
    - destruct (Hs s0 eq_refl). split; [lia |]. destruct (Z.ltb_spec (ks_day s0) (date_of now)); lia.
    - split; [lia |]. by destruct (date_of now <? date_of now)%Z. }
  destruct Hsu as [Hu Hd]. destruct (quota_refuses now s) as [n' |] eqn:Hq; [| done]. injection Hc as <- ->.
  assert (Hk : ∀ k, (0 ≤ k)%Z → (consume key (now + k * 1000000) (od_set (quota_id key) s states)).2 = None ↔ (n ≤ k)%Z).
  { intros k Hk. rewrite consume_cases, od_get_set_eq. cbn [snd].
    change (default (fresh_state key (now + k * 1000000)) (Some s)) with s. rewrite refuses_exact by done. by rewrite Hq. }
  split; [| done]. unfold quota_refuses, rpm_delay, daily_delay in Hq.
  destruct (ki_rpm_limit key), (ki_daily_limit key); repeat (case_match; try done); cbn in Hq; simplify_eq; lia.
Qed.
End Quota.

(** ** Quotas across a restart *)

Lemma od_get_fold_set {A B} (f : A → string) (g : A → B) l m x :
  NoDup (f <$> l) → x ∈ l → od_get (f x) (fold_left (λ m r, od_set (f r) (g r) m) l m) = Some (g x).
Proof.
  revert m; induction l as [| y l IH]; intros m; [intros _ []%elem_of_nil |]. rewrite fmap_cons. cbn [fold_left].
  intros [Hn Hnd]%NoDup_cons [-> | Hx]%elem_of_cons; [| by apply IH].
  assert (Hkeep : ∀ l' m', f y ∉ f <$> l' → od_get (f y) (fold_left (λ m r, od_set (f r) (g r) m) l' m') = od_get (f y) m').
  { induction l' as [| z l' IH']; intros m' Hz; [done |]. rewrite fmap_cons in Hz. apply not_elem_of_cons in Hz as [Hz Hz'].
    cbn. rewrite IH' by done. by apply od_get_set_ne. }
  rewrite Hkeep by done. apply od_get_set_eq.
Qed.

(** Rows whose keys exist are all upserted. *)
Lemma save_quotas_ok items d :
  (∀ i, i ∈ items → is_Some (od_get (qs_key_id i) (r_api_keys d))) →
  save_quota_snapshots items d =
    (on_quotas (fold_left (λ m i, od_set (qs_key_id i) i m) items) d, inr tt).
Proof.
  revert d; induction items as [| i items IH]; intros d Hk; [by destruct d |].
  unfold save_quota_snapshots. cbn [for_each]. unfold mbind, eff_bind, gets, modify. cbv beta iota.
  destruct (missing (qs_key_id i) (r_api_keys d)) eqn:Hm.
  { apply missing_true in Hm. destruct (Hk i (list_elem_of_here _ _)). congruence. }
  rewrite IH; [done |]. intros j Hj. cbn. apply Hk. by right.
Qed.

Section Restart.
  Context (sha256 : bytes → bytes) (config : RegistryConfig).

(** Counters survive a restart.  When every key that has counters exists in
    the registry, saving them never fails, and restoring from the registry gives
    every key exactly the bucket, the day and the count it had. *)
Theorem quota_survives_restart d states now :
  reg_reachable sha256 config d → od_wf states →
  (∀ k, k ∈ states.*1 → is_Some (od_get k (r_api_keys d))) →
  ∃ d', save_quota_snapshots (quota_snapshot now states) d = (d', inr tt) ∧
    ∀ k s, od_get k states = Some s → od_get k (restore (load_quota_snapshots d')) = Some s.
Proof.
  intros Hr Hwf Hk. pose proof (reg_reachable_ok sha256 config d Hr) as Hok.
  assert (Hkeys : qs_key_id <$> quota_snapshot now states ≡ₚ states.*1).
  { unfold quota_snapshot. rewrite <- list_fmap_compose. apply (fmap_Permutation fst), py_sorted_perm. }
  assert (Hsave := save_quotas_ok (quota_snapshot now states) d).
  destruct (reg_call_ok sha256 config (SaveQuotas (quota_snapshot now states)) d Hok) as [Hok' _]. cbn [reg_call] in Hok'.
  rewrite Hsave in Hok' |- *; [| intros i Hi; apply Hk; rewrite <- Hkeys; by apply list_elem_of_fmap_2 ..].
  eexists. split; [done |]. cbn [fst] in Hok'. set (d' := on_quotas _ d) in *. intros k s Hs.
  set (row := {| qs_key_id := k; qs_bucket_tokens := ks_bucket_tokens s; qs_bucket_updated_at := ks_bucket_updated_at s;
                 qs_day := ks_day s; qs_daily_count := ks_daily_count s; qs_snapshotted_at := now |}).
  assert (Hrow : od_get k (r_quotas d') = Some row).
  { apply (od_get_fold_set qs_key_id id (quota_snapshot now states) (r_quotas d) row); [by rewrite Hkeys |].
    apply list_elem_of_fmap. exists (k, s). split; [done |]. rewrite py_sorted_perm. by apply od_get_elem. }
  assert (Hids : qs_key_id <$> load_quota_snapshots d' = (r_quotas d').*1).
  { unfold load_quota_snapshots. rewrite <- list_fmap_compose. apply list_fmap_ext. intros i [h q] Hi. cbn.
    apply list_elem_of_lookup_2, elem_of_od_get in Hi; [| apply Hok']. by apply (ro_quota_key _ Hok' h q). }
  pose proof (od_get_fold_set qs_key_id (λ r, {| ks_bucket_tokens := qs_bucket_tokens r;
    ks_bucket_updated_at := qs_bucket_updated_at r; ks_day := qs_day r; ks_daily_count := qs_daily_count r |})
    (load_quota_snapshots d') [] row) as Hget.
  etransitivity; [apply Hget; [rewrite Hids; apply Hok' |] | by destruct s].
  exact (list_elem_of_fmap_2 snd _ _ (od_get_elem _ _ _ Hrow)).
Qed.
End Restart.

(** ** Concrete inputs *)

Definition tight_key : ApiKeyInfo := {|
  ki_name := "k"; ki_key_id := "id"; ki_model_allowlist := None; ki_rpm_limit := Some 1%Z; ki_daily_limit := Some 2%Z;
  ki_is_admin := false |}.

(** Three requests, at 0 s, 30 s and 60 s: the second is refused. *)
Definition tight_calls : list (ApiKeyInfo * instant) :=
  [(tight_key, 0%Z); (tight_key, 30000000%Z); (tight_key, 60000000%Z)].

Lemma quota_enforced_witness :
  accepted tight_key (λ _, true) tight_calls [] = 2%Z ∧
  (accepted tight_key (λ t, (date_of t =? 0)%Z) tight_calls [] ≤ 2)%Z.
Proof.
  split; [vm_compute; reflexivity |].
  refine (proj2 (quota_enforced tight_key _ _ _ tight_calls 0 60000000 _ _ _) 2%Z 0%Z _ _); try reflexivity.
  - intros c Hc _. unfold tight_calls in Hc. repeat (apply elem_of_cons in Hc as [-> | Hc]; [reflexivity |]). by apply elem_of_nil in Hc.
  - lia.
  - intros c Hc _. unfold tight_calls in Hc. repeat (apply elem_of_cons in Hc as [-> | Hc]; [cbn; lia |]). by apply elem_of_nil in Hc.
  - repeat constructor; cbn; lia.
Defined.

Lemma retry_after_exact_witness :
  (consume tight_key 30000000 (consume tight_key 0 []).1).2 = Some 30%Z ∧
  (consume tight_key (30000000 + 30 * 1000000) (consume tight_key 30000000 (consume tight_key 0 []).1).1).2 = None.
Proof.
  split; [vm_compute; reflexivity |].
  refine (proj2 (proj2 (retry_after_exact tight_key _ _ _ 30000000 (consume tight_key 0 []).1
    (consume tight_key 30000000 (consume tight_key 0 []).1).1 30 _ _) 30%Z _) _); try reflexivity; try lia.
  intros s Hs. vm_compute in Hs. injection Hs as <-. vm_compute. split; discriminate.
Defined.

Definition one_key : RDb := run_calls [CreateKey "k" None (Some 1%Z) None "secret" 0] empty_rdb.

Lemma quota_survives_restart_witness :
  ∃ d', save_quota_snapshots (quota_snapshot 9 (consume
           {| ki_name := "k"; ki_key_id := hash_token plain_sha "secret"; ki_model_allowlist := None; ki_rpm_limit := Some 1%Z;
              ki_daily_limit := None; ki_is_admin := false |} 5 []).1) one_key = (d', inr tt) ∧
    (λ s, Qeq_bool (ks_bucket_tokens s) 0) <$> od_get (hash_token plain_sha "secret") (restore (load_quota_snapshots d')) = Some true.
Proof.
  set (key := {| ki_name := "k"; ki_key_id := hash_token plain_sha "secret"; ki_model_allowlist := None; ki_rpm_limit := Some 1%Z;
              ki_daily_limit := None; ki_is_admin := false |}).
  destruct (quota_survives_restart plain_sha demo_rc one_key (consume key 5 []).1 9) as (d' & Hd' & Hall).
  - apply (run_calls_steps [CreateKey "k" None (Some 1%Z) None "secret" 0] empty_rdb).
  - vm_compute. constructor; [apply not_elem_of_nil | constructor].
  - intros k Hk. change (consume key 5 []).1.*1 with [hash_token plain_sha "secret"] in Hk.
    apply list_elem_of_singleton in Hk as ->. vm_compute. eexists. reflexivity.
  - exists d'. split; [exact Hd' |]. rewrite (Hall (hash_token plain_sha "secret") (spend_request key (refresh key 5 (fresh_state key 5))))
      by (vm_compute; reflexivity).
    vm_compute. reflexivity.
Defined.
