(* ===== verification/GatewaySpec.v ===== *)
(** * What the gateway's bookkeeping guarantees

    Sessions stick to their replica; inflight counts are the holds outstanding; an
    upstream failure is retried once, elsewhere; and a slot is lost when an
    upstream call raises. *)

From S2P Require Export Gateway QuotaSpec.

(** ** Session affinity *)

Inductive AffOp :=
  | OpResolve (session : option string) (candidates : list ReplicaEndpoint)
      (pick : list ReplicaEndpoint → option ReplicaEndpoint) (preserve_missing : bool)
  | OpRemember (session : string) (endpoint : ReplicaEndpoint)
  | OpForget (session : string).

Definition op_session (op : AffOp) : option string :=
  match op with OpResolve s _ _ _ => s | OpRemember s _ | OpForget s => Some s end.

Section AffinitySpec.
  Context (cfg : AffinityConfig).
  Implicit Types (m : odict Entry).

Definition aff_run (op : AffOp) (now : instant) (m : odict Entry) : odict Entry :=
  match op with
  | OpResolve s cs pick pm => (resolve cfg s cs pick pm now m).1
  | OpRemember s e => remember cfg s e now m
  | OpForget s => forget s m
  end.

Definition aff_history (ops : list (AffOp * instant)) (m : odict Entry) : odict Entry :=
  fold_left (λ m p, aff_run p.1 p.2 m) ops m.

Definition touched_le : relation (string * Entry) := λ p q, (en_touched_at p.2 ≤ en_touched_at q.2)%Z.

Record aff_ok (now : instant) m : Prop := {
  fo_wf : od_wf m;
  fo_max : (length m ≤ af_max cfg)%nat;
  fo_sorted : StronglySorted touched_le m;
  fo_past : Forall (λ p, en_touched_at p.2 ≤ now)%Z m
}.

Lemma put_last_eq s e m : put_last s e m = od_pop s m ++ [(s, e)].
Proof.
  unfold put_last, od_move_to_end. rewrite od_get_set_eq. f_equal. unfold od_pop.
  induction m as [| [k x] m IH]; cbn [od_set].
  - by rewrite filter_cons_False by (cbn; tauto).
  - destruct (bool_decide (s = k)) eqn:Hk; reflect_bools; rewrite !filter_cons; cbn [fst].
    + subst k. by rewrite !decide_False by tauto.
    + rewrite !decide_True by congruence. by rewrite IH.
Qed.

Lemma StronglySorted_filter' {A} (R : relation A) (P : A → Prop) `{!∀ x, Decision (P x)} l :
  StronglySorted R l → StronglySorted R (filter P l).
Proof.
  induction 1 as [| x l Hl IH Hx]; [constructor |]. rewrite filter_cons. destruct (decide (P x)); [| done].
  constructor; [done |]. rewrite Forall_forall in Hx |- *. intros y [_ Hy]%list_elem_of_filter. by apply Hx.
Qed.

Lemma StronglySorted_drop {A} (R : relation A) n l : StronglySorted R l → StronglySorted R (drop n l).
Proof.
  revert l; induction n as [| n IH]; intros l Hl; [by rewrite drop_0 |]. destruct l as [| x l]; [done |].
  apply IH. by apply StronglySorted_inv in Hl as [].
Qed.

Lemma StronglySorted_snoc' {A} (R : relation A) l x :
  StronglySorted R l → Forall (λ y, R y x) l → StronglySorted R (l ++ [x]).
Proof.
  induction 1 as [| y l Hl IH Hy]; cbn; [by repeat constructor |]. intros [Hx Hf]%Forall_cons.
  constructor; [by apply IH |]. apply Forall_app. by repeat constructor.
Qed.

(** The expiry loop, which stops at the first fresh entry, removes exactly the
    stale ones. *)
Lemma expire_filter now m : StronglySorted touched_le m → expire cfg now m = filter (λ p, still_fresh cfg now p.2 = true) m.
Proof.
  induction 1 as [| [k e] m Hm IH Hk]; [done |]. cbn [expire]. destruct (still_fresh cfg now e) eqn:He.
  - symmetry. apply filter_all. intros [k' e'] [[= -> ->] | Hin]%elem_of_cons; [done |].
    rewrite Forall_forall in Hk. specialize (Hk _ Hin). unfold touched_le, still_fresh in *. cbn in *. reflect_bools.
    apply Z.ltb_lt. lia.
  - rewrite filter_cons_False; [done |]. cbn. by rewrite He.
Qed.

Lemma filter_ok now (P : string * Entry → Prop) `{!∀ p, Decision (P p)} m : aff_ok now m → aff_ok now (filter P m).
Proof.
  intros [H1 H2 H3 H4]. split; [by apply od_filter_wf | | by apply StronglySorted_filter' |].
  - etransitivity; [apply length_filter | done].
  - rewrite Forall_forall in H4 |- *. intros p [_ Hp]%list_elem_of_filter. by apply H4.
Qed.

Lemma aff_ok_later now now' m : (now ≤ now')%Z → aff_ok now m → aff_ok now' m.
Proof. intros Hle [H1 H2 H3 H4]. split; try done. eapply Forall_impl; [exact H4 |]. cbn. lia. Qed.

Lemma expire_ok now m : aff_ok now m → aff_ok now (expire cfg now m).
Proof. intros H. rewrite expire_filter by apply H. by apply filter_ok. Qed.

(** Appending the touched session, before and after trimming. *)
Lemma append_sorted now s e m :
  aff_ok now m → od_get s m = None → en_touched_at e = now →
  od_wf (m ++ [(s, e)]) ∧ StronglySorted touched_le (m ++ [(s, e)]) ∧ Forall (λ p, en_touched_at p.2 ≤ now)%Z (m ++ [(s, e)]).
Proof.
  intros [H1 H2 H3 H4] Hs He. split_and!; [by apply od_wf_snoc | |].
  - apply StronglySorted_snoc'; [done |]. eapply Forall_impl; [exact H4 |]. unfold touched_le. cbn. lia.
  - apply Forall_app. split; [done |]. repeat constructor. cbn. lia.
Qed.

Lemma pop_absent s m : od_get s (od_pop s m) = None.
Proof. rewrite od_get_pop. by rewrite bool_decide_eq_true_2. Qed.

Lemma remember_ok now s e m : aff_ok now m → aff_ok now (remember cfg s e now m).
Proof.
  intros H%expire_ok. unfold remember. rewrite put_last_eq.
  destruct (append_sorted now s {| en_endpoint := endpoint_key e; en_touched_at := now |} (od_pop s (expire cfg now m)))
    as (H1 & H2 & H3); [by apply filter_ok | apply pop_absent | done |].
  unfold trim_oldest. set (l := _ ++ _) in *. split.
  - unfold od_wf in *. rewrite fmap_drop. eapply sublist_NoDup; [exact H1 |]. apply sublist_drop.
  - rewrite length_drop. lia.
  - by apply StronglySorted_drop.
  - by apply Forall_drop.
Qed.

Lemma touch_aff_ok now s x m :
  aff_ok now m → is_Some (od_get s m) → en_touched_at x = now → aff_ok now (put_last s x m).
Proof.
  intros H Hs Hx. rewrite put_last_eq.
  destruct (append_sorted now s x (od_pop s m)) as (H1 & H2 & H3); [by apply filter_ok | apply pop_absent | done |].
  split; try done. rewrite length_app. cbn.
  assert (Hp : m ≡ₚ od_move_to_end s m) by (symmetry; apply od_move_perm, H). destruct Hs as [x0 Hs].
  unfold od_move_to_end in Hp. rewrite Hs in Hp. apply Permutation_length in Hp. rewrite length_app in Hp. cbn in Hp.
  rewrite <- Hp. apply H.
Qed.

Lemma aff_run_ok op now now0 m : (now0 ≤ now)%Z → aff_ok now0 m → aff_ok now (aff_run op now m).
Proof.
  intros Hle H%(aff_ok_later now0 now _ Hle). destruct op as [[s |] cs pick pm | s e | s]; cbn; [| done | by apply remember_ok | by apply filter_ok].
  pose proof (expire_ok now m H) as He.
  assert (Hch : ∀ m', aff_ok now m' → aff_ok now (match pick cs with Some e => (remember cfg s e now m', (Some e, MISS))
    | None => (m', (None, MISS)) end).1) by (intros m' Hm'; destruct (pick cs); cbn; [by apply remember_ok | done]).
  destruct (od_get s (expire cfg now m)) as [entry |] eqn:Hs; [| by apply Hch].
  destruct (candidate_for cs (en_endpoint entry)); [cbn; by apply touch_aff_ok |].
  destruct (pm && _); [done |]. apply Hch. by apply filter_ok.
Qed.

(** The instant of the last operation. *)
Definition end_time (now0 : instant) (ops : list (AffOp * instant)) : instant := fold_left (λ _ p, p.2) ops now0.

Lemma aff_history_ok ops now0 m :
  aff_ok now0 m → StronglySorted Z.le (now0 :: ops.*2) →
  aff_ok (end_time now0 ops) (aff_history ops m).
Proof.
  revert now0 m; induction ops as [| [op now] ops IH]; intros now0 m Hm Hs; [done |].
  apply StronglySorted_inv in Hs as [Hs Hle]. rewrite fmap_cons in Hle. apply Forall_cons in Hle as [Hle _].
  exact (IH now (aff_run op now m) (aff_run_ok op now now0 m Hle Hm) Hs).
Qed.

Lemma aff_ok_empty now : aff_ok now [].
Proof. split; [constructor | cbn; lia | constructor | constructor]. Qed.

(** *** A session keeps its place *)

(** The session's entry is there, and every entry after it belongs to one of the
    sessions [T]. *)
Definition kept (s : string) (e : Entry) (T : list string) (m : odict Entry) : Prop :=
  od_wf m ∧ ∃ l1 l2, m = l1 ++ (s, e) :: l2 ∧ l2.*1 ⊆ T.

Lemma kept_get s e T m : kept s e T m → od_get s m = Some e.
Proof. intros (Hwf & l1 & l2 & -> & _). apply elem_of_od_get; [done |]. set_solver. Qed.

Lemma kept_expire s e T now m : still_fresh cfg now e = true → kept s e T m → kept s e T (expire cfg now m).
Proof.
  intros Hf (Hwf & l1 & l2 & -> & Hl2). revert Hwf; induction l1 as [| [k x] l1 IH]; intros Hwf; cbn.
  - rewrite Hf. split; [done |]. by exists [], l2.
  - destruct (still_fresh cfg now x).
    + split; [done |]. by exists ((k, x) :: l1), l2.
    + apply IH. by apply NoDup_cons in Hwf as [_ ?].
Qed.

Lemma kept_pop s e T s' m : s' ≠ s → kept s e T m → kept s e T (od_pop s' m).
Proof.
  intros Hne (Hwf & l1 & l2 & -> & Hl2). split; [by apply od_pop_wf |]. exists (od_pop s' l1), (od_pop s' l2).
  unfold od_pop. rewrite filter_app, filter_cons_True by (cbn; congruence). split; [done |].
  intros k Hk. apply Hl2. apply list_elem_of_fmap in Hk as (p & -> & [_ Hp]%list_elem_of_filter).
  by apply list_elem_of_fmap_2.
Qed.

Lemma kept_put s e T s' x m : s' ≠ s → s' ∈ T → kept s e T m → kept s e T (put_last s' x m).
Proof.
  intros Hne HT Hk. rewrite put_last_eq. pose proof (kept_pop s e T s' m Hne Hk) as (Hwf & l1 & l2 & Heq & Hl2). split.
  - apply od_wf_snoc; [apply pop_absent | done].
  - rewrite Heq. exists l1, (l2 ++ [(s', x)]). split; [by rewrite <- app_assoc |]. rewrite fmap_app. cbn. set_solver.
Qed.

Lemma kept_trim s e T m : s ∉ T → (length T < af_max cfg)%nat → kept s e T m → kept s e T (trim_oldest cfg m).
Proof.
  intros Hs HT (Hwf & l1 & l2 & -> & Hl2).
  assert (Hlen : (length l2 ≤ length T)%nat).
  { rewrite <- (length_fmap fst). apply submseteq_length, NoDup_submseteq; [| done]. unfold od_wf in Hwf. rewrite fmap_app in Hwf.
    apply NoDup_app in Hwf as (_ & _ & Hwf). by apply NoDup_cons in Hwf as [_ ?]. }
  unfold trim_oldest. set (n := (length _ - _)%nat).
  assert (Hn : (n ≤ length l1)%nat) by (unfold n; rewrite length_app; cbn; lia). split.
  - unfold od_wf in *. rewrite fmap_drop. eapply sublist_NoDup; [exact Hwf |]. apply sublist_drop.
  - exists (drop n l1), l2. split; [| done]. rewrite drop_app. replace (n - length l1)%nat with 0%nat by lia. done.
Qed.

Lemma kept_remember s e T s' ep now m :
  s' ≠ s → s' ∈ T → s ∉ T → (length T < af_max cfg)%nat → still_fresh cfg now e = true → kept s e T m →
  kept s e T (remember cfg s' ep now m).
Proof. intros. apply kept_trim; [done | done |]. apply kept_put; [done | done |]. by apply kept_expire. Qed.

Lemma kept_run s e T op now m :
  (∀ s', op_session op = Some s' → s' ∈ T) → s ∉ T → (length T < af_max cfg)%nat → still_fresh cfg now e = true →
  kept s e T m → kept s e T (aff_run op now m).
Proof.
  intros Hop Hs HT Hf Hk. assert (Hne : ∀ s', s' ∈ T → s' ≠ s) by (intros s' H ->; done).
  destruct op as [[s' |] cs pick pm | s' ep | s']; cbn.
  - specialize (Hop s' eq_refl). pose proof (kept_expire s e T now m Hf Hk) as Hx.
    assert (Hch : ∀ m', kept s e T m' → kept s e T (match pick cs with Some ep => (remember cfg s' ep now m', (Some ep, MISS))
      | None => (m', (None, MISS)) end).1) by (intros m' Hm'; destruct (pick cs); cbn; [by apply kept_remember; auto | done]).
    destruct (od_get s' (expire cfg now m)) as [entry |]; [| by apply Hch].
    destruct (candidate_for cs (en_endpoint entry)); [cbn; apply kept_put; auto |].
    destruct (pm && _); [done |]. apply Hch. apply kept_pop; auto.
  - done.
  - apply kept_remember; auto.
  - apply kept_pop; auto.
Qed.

(** The maps that arise under a clock that does not go back. *)
Definition aff_reachable (now : instant) (m : odict Entry) : Prop :=
  ∃ t0 ops, StronglySorted Z.le (t0 :: ops.*2) ∧ end_time t0 ops = now ∧ m = aff_history ops [].

Lemma aff_reachable_ok now m : aff_reachable now m → aff_ok now m.
Proof. intros (t0 & ops & Hs & <- & ->). apply aff_history_ok; [apply aff_ok_empty | done]. Qed.

Lemma remember_kept s e now m :
  aff_ok now m → (0 < af_max cfg)%nat →
  kept s {| en_endpoint := endpoint_key e; en_touched_at := now |} [] (remember cfg s e now m).
Proof.
  intros H Hmax. apply kept_trim; [set_solver | done |]. rewrite put_last_eq. split.
  - apply od_wf_snoc; [apply pop_absent |]. apply od_pop_wf. apply (expire_ok now m H).
  - exists (od_pop s (expire cfg now m)), []. split; [done | set_solver].
Qed.

Lemma kept_weaken s e T T' m : T ⊆ T' → kept s e T m → kept s e T' m.
Proof. intros HT (H & l1 & l2 & Heq & Hl). split; [done |]. exists l1, l2. split; [done |]. by etransitivity. Qed.

(** A session sticks to its replica.  After the session was bound to an
    endpoint, as long as less than the time to live has passed, fewer other
    sessions than the map has room for have been seen, and the endpoint is still
    offered, the session is sent to that endpoint again. *)
Theorem session_sticks m now0 s e T ops now cs c pick pm :
  aff_reachable now0 m → s ∉ T → (length T < af_max cfg)%nat →
  (∀ p, p ∈ ops → (p.2 ≤ now)%Z ∧ ∀ s', op_session p.1 = Some s' → s' ∈ T) → (now - now0 < af_ttl cfg)%Z →
  candidate_for cs (endpoint_key e) = Some c →
  ∃ m', resolve cfg (Some s) cs pick pm now (aff_history ops (remember cfg s e now0 m)) = (m', (Some c, HIT)).
Proof.
  intros Hm Hs HT Hops Hnow Hc. set (x := {| en_endpoint := endpoint_key e; en_touched_at := now0 |}).
  assert (Hk : kept s x T (remember cfg s e now0 m)).
  { apply (kept_weaken s x []); [set_solver |]. apply remember_kept; [by apply aff_reachable_ok | lia]. }
  revert Hk. generalize (remember cfg s e now0 m). induction ops as [| [op t] ops IH]; intros m1 Hk; cbn.
  - assert (Hf : still_fresh cfg now x = true) by (apply Z.ltb_lt; cbn; lia).
    rewrite (kept_get s x T) by (by apply kept_expire). cbn [en_endpoint x]. rewrite Hc. by eexists.
  - apply IH; [intros p Hp; apply Hops; by right |].
    destruct (Hops (op, t) (list_elem_of_here _ _)) as [Ht Hse]. cbn in Ht, Hse.
    apply kept_run; try done. apply Z.ltb_lt. cbn. lia.
Qed.

Lemma candidate_for_Some cs k c : candidate_for cs k = Some c → c ∈ cs ∧ endpoint_key c = k.
Proof. unfold candidate_for. intros Hc%head_Some_elem_of. by apply list_elem_of_filter in Hc as [? ?]. Qed.

(** What choosing a replacement binds. *)
Lemma remember_binds s e now m :
  aff_ok now m → (0 < af_max cfg)%nat →
  od_get s (remember cfg s e now m) = Some {| en_endpoint := endpoint_key e; en_touched_at := now |}.
Proof. intros H Hmax. eapply kept_get. by apply remember_kept. Qed.

(** Resolving a session is exact.  It is a hit precisely when the session has
    an entry younger than the time to live whose endpoint is among the
    candidates; otherwise the choice is the policy's, except that an empty
    candidate list keeps a live entry when asked to; whatever endpoint is returned
    is one of the candidates or the policy's choice, and is what the session is
    bound to, as of now; and the map never exceeds its limit. *)
Theorem affinity_spec m now0 now s cs pick pm m' endpoint st :
  aff_reachable now0 m → (now0 ≤ now)%Z → (0 < af_max cfg)%nat →
  resolve cfg (Some s) cs pick pm now m = (m', (endpoint, st)) →
  (length m' ≤ af_max cfg)%nat ∧ st ≠ NONE ∧
  (∀ c, st = HIT ∧ endpoint = Some c ↔
     ∃ x, od_get s m = Some x ∧ (now - en_touched_at x < af_ttl cfg)%Z ∧ candidate_for cs (en_endpoint x) = Some c) ∧
  (st = MISS → endpoint = pick cs ∨ (pm = true ∧ cs = [] ∧ endpoint = None)) ∧
  (∀ c, endpoint = Some c → od_get s m' = Some {| en_endpoint := endpoint_key c; en_touched_at := now |}).
Proof.
  intros Hm Hle Hmax Hres. pose proof (aff_ok_later _ _ _ Hle (aff_reachable_ok _ _ Hm)) as Hok.
  assert (Hok' : aff_ok now m') by (pose proof (aff_run_ok (OpResolve (Some s) cs pick pm) now now m ltac:(lia) Hok) as H; cbn [aff_run] in H; by rewrite Hres in H).
  split; [apply Hok' |]. cbn [resolve] in Hres.
  assert (Hget : ∀ x, od_get s (expire cfg now m) = Some x ↔ od_get s m = Some x ∧ (now - en_touched_at x < af_ttl cfg)%Z).
  { intros x. rewrite expire_filter, od_get_filter by apply Hok. unfold still_fresh. cbn.
    destruct (od_get s m) as [y |]; [| naive_solver]. destruct (decide _) as [Hf | Hf]; rewrite Z.ltb_lt in Hf; naive_solver. }
  pose proof (expire_ok now m Hok) as Hex.
  assert (Hbind : ∀ m1 e, aff_ok now m1 → od_get s (remember cfg s e now m1) = Some {| en_endpoint := endpoint_key e; en_touched_at := now |})
    by (intros; by apply remember_binds).
  destruct (od_get s (expire cfg now m)) as [x |] eqn:Hx.
  - destruct (proj1 (Hget x) eq_refl) as [Hx0 Hage]. destruct (candidate_for cs (en_endpoint x)) as [c |] eqn:Hc.
    + injection Hres as <- <- <-. split; [done |]. split_and!; [| done |].
      * intros c'. split; [intros [_ [= <-]]; by exists x | intros (x' & Hx' & _ & Hc'); split; [done | congruence]].
      * intros c' [= <-]. rewrite (proj2 (candidate_for_Some _ _ _ Hc)). unfold put_last. by rewrite od_get_move, od_get_set_eq.
    + assert (Hno : ∀ c, ¬ ∃ x', od_get s m = Some x' ∧ (now - en_touched_at x' < af_ttl cfg)%Z ∧ candidate_for cs (en_endpoint x') = Some c)
        by (intros c (x' & Hx' & _ & Hc'); congruence).
      destruct (pm && _) eqn:Hpm; [| destruct (pick cs) as [e |] eqn:Hp]; injection Hres as <- <- <-; reflect_bools;
        (split; [done |]); (split_and!; [intros c'; split; [by intros [] | by intros []%Hno] | intros _ |]).
      * by right.
      * intros c' [=].
      * by left.
      * intros c' [= <-]. apply Hbind. by apply filter_ok.
      * by left.
      * intros c' [=].
  - assert (Hno : ∀ c, ¬ ∃ x', od_get s m = Some x' ∧ (now - en_touched_at x' < af_ttl cfg)%Z ∧ candidate_for cs (en_endpoint x') = Some c)
      by (intros c (x' & Hx' & Ha' & _); discriminate (proj2 (Hget x') (conj Hx' Ha'))).
    destruct (pick cs) as [e |] eqn:Hp; injection Hres as <- <- <-; (split; [done |]);
      (split_and!; [intros c'; split; [by intros [] | by intros []%Hno] | by left |]).
    * intros c' [= <-]. by apply Hbind.
    * intros c' [=].
Qed.
End AffinitySpec.

(** ** Inflight counts *)

(** Holds of a replica not yet released. *)
Definition held (k : hostport) (t : Tracker) : nat := length (filter (λ p, p = (k, false)) (t_holds t)).

Definition tracker_ok (t : Tracker) : Prop :=
  ∀ k, t_counts t !! k = if bool_decide (held k t = 0%nat) then None else Some (Z.of_nat (held k t)).

Inductive TOp :=
  | THold (k : hostport)
  | TRelease (h : nat).

Definition tracker_op (t : Tracker) (op : TOp) : Tracker :=
  match op with THold k => (hold k t).2 | TRelease h => release h t end.

Definition tracker_run (ops : list TOp) (t : Tracker) : Tracker := fold_left tracker_op ops t.

Lemma tracker_count k t : tracker_ok t → count_of k t = Z.of_nat (held k t).
Proof. intros Ht. unfold count_of. rewrite Ht. case_bool_decide as H; cbn; lia. Qed.

Lemma held_hold k k' t : held k' (hold k t).2 = (held k' t + if bool_decide (k' = k) then 1 else 0)%nat.
Proof.
  unfold held, hold. cbn. rewrite filter_app, length_app. f_equal. rewrite filter_cons.
  case_bool_decide as H; [subst; by rewrite decide_True | by rewrite decide_False by congruence].
Qed.

Lemma hold_ok k t : tracker_ok t → tracker_ok (hold k t).2.
Proof.
  intros Ht k'. rewrite held_hold. cbn. rewrite tracker_count by done. destruct (decide (k' = k)) as [-> | Hne].
  - rewrite lookup_insert_eq, (bool_decide_eq_true_2 (k = k)) by done. rewrite bool_decide_eq_false_2 by lia. f_equal. lia.
  - rewrite lookup_insert_ne, (bool_decide_eq_false_2 (k' = k)) by done. rewrite Nat.add_0_r. apply Ht.
Qed.

(** Marking one outstanding hold released takes one from its replica. *)
Lemma held_mark h k l k' :
  l !! h = Some (k, false) →
  (length (filter (λ p : hostport * bool, p = (k', false)) (<[h := (k, true)]> l)) +
   if bool_decide (k' = k) then 1 else 0)%nat = length (filter (λ p, p = (k', false)) l).
Proof.
  revert h; induction l as [| p l IH]; intros [| h] Hl; cbn in Hl; try done.
  - injection Hl as ->. change (<[0%nat := (k, true)]> ((k, false) :: l)) with ((k, true) :: l). rewrite !filter_cons. rewrite (decide_False (P := (k, true) = _)) by congruence.
    case_bool_decide as H; [subst; rewrite decide_True by done; cbn; lia | by rewrite decide_False by congruence].
  - change (<[S h := (k, true)]> (p :: l)) with (p :: <[h := (k, true)]> l). rewrite !filter_cons. specialize (IH h Hl). destruct (decide _); cbn; lia.
Qed.

Lemma release_ok h t : tracker_ok t → tracker_ok (release h t).
Proof.
  intros Ht. unfold release. destruct (t_holds t !! h) as [[k []] |] eqn:Hh; try done. intros k'.
  pose proof (held_mark h k (t_holds t) k' Hh) as Hm. pose proof (tracker_count k t Ht) as Hc. unfold count_of in Hc.
  unfold held in *. cbn [t_counts t_holds]. unfold decrement. rewrite Hc. destruct (decide (k' = k)) as [-> | Hne].
  - rewrite (bool_decide_eq_true_2 (k = k)) in Hm by done.
    destruct (Z.leb_spec (Z.of_nat (length (filter (λ p, p = (k, false)) (t_holds t))) - 1) 0).
    + rewrite lookup_delete_eq. by rewrite bool_decide_eq_true_2 by lia.
    + rewrite lookup_insert_eq. rewrite bool_decide_eq_false_2 by lia. f_equal. lia.
  - rewrite (bool_decide_eq_false_2 (k' = k)), Nat.add_0_r in Hm by done. rewrite Hm.
    destruct (_ <=? 0)%Z; [rewrite lookup_delete_ne by done | rewrite lookup_insert_ne by done]; apply Ht.
Qed.

Lemma tracker_run_ok ops t : tracker_ok t → tracker_ok (tracker_run ops t).
Proof.
  revert t; induction ops as [| op ops IH]; intros t Ht; [done |]. apply IH. destruct op; [by apply hold_ok | by apply release_ok].
Qed.

Lemma release_twice h t : release h (release h t) = release h t.
Proof.
  unfold release at 2 3. destruct (t_holds t !! h) as [[k []] |] eqn:Hh; try by (unfold release; rewrite Hh).
  unfold release. cbn. rewrite list_lookup_insert_eq by (by apply lookup_lt_is_Some; eexists). done.
Qed.

Lemma new_tracker_ok : tracker_ok new_tracker.
Proof. intros k. done. Qed.

(** The inflight count of a replica is exactly the number of holds on it not
    yet released, after any history of holds and releases in any order, releases
    repeated at will included; a replica without outstanding hold has no entry,
    and a second release changes nothing. *)
Theorem inflight_exact ops k h :
  let t := tracker_run ops new_tracker in
  count_of k t = Z.of_nat (held k t) ∧ (is_Some (t_counts t !! k) ↔ (0 < held k t)%nat) ∧
  release h (release h t) = release h t.
Proof.
  intros t. pose proof (tracker_run_ok ops _ new_tracker_ok : tracker_ok t) as Ht.
  split; [by apply tracker_count |]. split; [| apply release_twice]. rewrite Ht. case_bool_decide as H.
  - split; [by intros [] | lia].
  - split; [lia | by eexists].
Qed.

(** ** The retry loop *)

(** What other requests may do to the tracker while this one waits: any history
    that neither breaks the counts, nor revives a released hold, nor releases the
    hold this request took last. *)
Record rely (f : Tracker → Tracker) : Prop := {
  ry_ok t : tracker_ok t → tracker_ok (f t);
  ry_grow t : (length (t_holds t) ≤ length (t_holds (f t)))%nat;
  ry_newest t h k : t_holds t !! h = Some (k, false) → S h = length (t_holds t) → t_holds (f t) !! h = Some (k, false);
  ry_released t h k : t_holds t !! h = Some (k, true) → t_holds (f t) !! h = Some (k, true)
}.

(** Whether a hold this request took has been released when it is over. *)
Definition settled (r : string + AcquireResult) (own : list (nat * hostport)) (h : nat) : bool :=
  match r with
  | inl _ => negb (bool_decide (last own.*1 = Some h))
  | inr (Acq a) => negb (bool_decide (aq_hold a = Some h))
  | inr (NoUpstream _) => true
  end.

Definition result_retried (r : AcquireResult) : bool :=
  match r with Acq a => aq_retried a | NoUpstream b => b end.

Record attempt_facts (budget attempts : nat) (tried : list hostport) (n n' : Net) (r : string + AcquireResult)
    (own : list (nat * hostport)) : Prop := {
  at_dials : ∃ ds, n_dials n' = n_dials n ++ ds ∧ length ds = length own;
  at_budget : (length own ≤ budget)%nat;
  at_distinct : NoDup own.*2;
  at_untried k : k ∈ own.*2 → k ∉ tried;
  at_ok : tracker_ok (n_tracker n');
  at_new h : h ∈ own.*1 → (length (t_holds (n_tracker n)) ≤ h)%nat;
  at_released h k : t_holds (n_tracker n) !! h = Some (k, true) → t_holds (n_tracker n') !! h = Some (k, true);
  at_settled p : p ∈ own → t_holds (n_tracker n') !! p.1 = Some (p.2, settled r own p.1);
  at_hold a h : r = inr (Acq a) → aq_hold a = Some h → h ∈ own.*1;
  at_raise e : r = inl e → own ≠ [];
  at_retried x : r = inr x → result_retried x = (1 <? attempts + length own)%nat
}.

Section AttemptSpec.
  Context (repick : list hostport → option ReplicaEndpoint) (try_once : ReplicaEndpoint → N_eff Outcome)
    (Hrepick : ∀ tried e, repick tried = Some e → host_port e ∉ tried)
    (Htry : ∀ e n, ∃ f d r, rely f ∧
       try_once e n = ({| n_tracker := f (n_tracker n); n_dials := n_dials n ++ [d] |}, r)).

Lemma release_keeps h h' k t : t_holds t !! h = Some (k, true) → t_holds (release h' t) !! h = Some (k, true).
Proof.
  intros Hh. unfold release. destruct (t_holds t !! h') as [[k' []] |] eqn:Hh'; try done. cbn.
  destruct (decide (h = h')) as [-> | Hne]; [congruence | by rewrite list_lookup_insert_ne].
Qed.

Lemma release_marks h k t : t_holds t !! h = Some (k, false) → t_holds (release h t) !! h = Some (k, true).
Proof.
  intros Hh. unfold release. rewrite Hh. cbn. apply list_lookup_insert_eq. by apply lookup_lt_is_Some; eexists.
Qed.

Lemma release_length h t : length (t_holds (release h t)) = length (t_holds t).
Proof. unfold release. destruct (t_holds t !! h) as [[k []] |]; try done. cbn. apply length_insert. Qed.

(** One attempt whose hold is the last this request takes. *)
Lemma last_attempt budget attempts tried (n n1 : Net) f d r k (b : bool) t' :
  rely f → tracker_ok (n_tracker n) → k ∉ tried →
  let h := length (t_holds (n_tracker n)) in
  t' = (if b then release h (f (hold k (n_tracker n)).2) else f (hold k (n_tracker n)).2) →
  n1 = {| n_tracker := t'; n_dials := n_dials n ++ [d] |} →
  settled r [(h, k)] h = b → (∀ a h', r = inr (Acq a) → aq_hold a = Some h' → h' = h) →
  (∀ x, r = inr x → result_retried x = (1 <? S attempts)%nat) →
  attempt_facts (S budget) attempts tried n n1 r [(h, k)].
Proof.
  intros Hf Hok Hk h -> -> Hs Ha Hret.
  assert (Hnew : t_holds (f (hold k (n_tracker n)).2) !! h = Some (k, false)).
  { apply (ry_newest _ Hf); [| cbn; rewrite length_app; cbn; unfold h; lia]. cbn. by rewrite list_lookup_middle. }
  split; cbn [n_tracker n_dials].
  - by exists [d].
  - cbn. lia.
  - apply NoDup_singleton.
  - cbn. intros k' ->%list_elem_of_singleton. done.
  - pose proof (ry_ok _ Hf _ (hold_ok k _ Hok)) as H. destruct b; [by apply release_ok | done].
  - cbn. intros h' ->%list_elem_of_singleton. done.
  - intros h' k' Hh'. assert (H : t_holds (f (hold k (n_tracker n)).2) !! h' = Some (k', true)).
    { apply (ry_released _ Hf). cbn. by apply lookup_app_l_Some. }
    destruct b; [by apply release_keeps | done].
  - intros p ->%list_elem_of_singleton. cbn. rewrite Hs. destruct b; [by apply release_marks | done].
  - intros a h' Hr Hh'. cbn. rewrite (Ha a h' Hr Hh'). apply list_elem_of_here.
  - done.
  - intros x Hx. rewrite (Hret x Hx). cbn [length]. by replace (attempts + 1)%nat with (S attempts) by lia.
Qed.

(** A failed attempt, released, followed by the rest of the loop. *)
Lemma more_attempts budget attempts tried (n n1 n' : Net) f d r k own :
  rely f → tracker_ok (n_tracker n) → k ∉ tried →
  let h := length (t_holds (n_tracker n)) in
  n1 = {| n_tracker := release h (f (hold k (n_tracker n)).2); n_dials := n_dials n ++ [d] |} →
  attempt_facts budget (S attempts) (k :: tried) n1 n' r own →
  attempt_facts (S budget) attempts tried n n' r ((h, k) :: own).
Proof.
  intros Hf Hok Hk h Hn1 [A1 A2 A3 A4 A5 A6 A7 A8 A9 A10 A11]. subst n1. cbn [n_tracker n_dials] in *.
  assert (Hnew : t_holds (f (hold k (n_tracker n)).2) !! h = Some (k, false)).
  { apply (ry_newest _ Hf); [| cbn; rewrite length_app; cbn; unfold h; lia]. cbn. by rewrite list_lookup_middle. }
  assert (Hlen : (h < length (t_holds (release h (f (hold k (n_tracker n)).2))))%nat)
    by (rewrite release_length; by apply lookup_lt_is_Some; eexists).
  assert (Hh : h ∉ own.*1) by (intros Hin; apply A6 in Hin; lia).
  split.
  - destruct A1 as (ds & -> & Hds). exists (d :: ds). split; [by rewrite <- app_assoc | cbn; lia].
  - cbn. lia.
  - rewrite fmap_cons. constructor; [| done]. intros Hin. apply A4 in Hin. set_solver.
  - rewrite fmap_cons. intros k' [-> | Hin]%elem_of_cons; [done |]. apply A4 in Hin. set_solver.
  - done.
  - rewrite fmap_cons. intros h' [-> | Hin]%elem_of_cons; [done |]. apply A6 in Hin. fold h. lia.
  - intros h' k' Hh'. apply A7, release_keeps, (ry_released _ Hf). cbn. by apply lookup_app_l_Some.
  - intros p [-> | Hin]%elem_of_cons; cbn [fst snd].
    + rewrite (A7 h k) by (by apply release_marks). f_equal. f_equal. symmetry. destruct r as [e | [a | ]]; cbn; [| | done].
      * specialize (A10 e eq_refl). destruct own as [| p own]; [done |]. apply negb_true_iff, bool_decide_eq_false.
        rewrite fmap_cons in Hh |- *. cbn. intros Hl. apply Hh. by apply last_Some_elem_of.
      * apply negb_true_iff, bool_decide_eq_false. intros Ha. by apply Hh, (A9 a).
    + rewrite (A8 p Hin). f_equal. f_equal. destruct r as [e | [a | ]]; cbn; [| done | done]. f_equal.
      specialize (A10 e eq_refl). by destruct own.
  - intros a h' Hr Ha. rewrite fmap_cons. right. by apply (A9 a).
  - done.
  - intros x Hx. rewrite (A11 x Hx). cbn [length]. by replace (attempts + S (length own))%nat with (S attempts + length own)%nat by lia.
Qed.

(** The loop is over before another attempt. *)
Lemma no_attempt budget attempts tried n last_5xx :
  tracker_ok (n_tracker n) →
  attempt_facts budget attempts tried n n (inr (exhausted last_5xx (1 <? attempts)%nat)) [].
Proof.
  intros Hok. split; try done.
  - exists []. split; [by rewrite app_nil_r | done].
  - cbn. lia.
  - constructor.
  - by intros k ?%elem_of_nil.
  - by intros h ?%elem_of_nil.
  - by intros p ?%elem_of_nil.
  - intros a h [= Ha]. unfold exhausted in Ha. destruct last_5xx as [[] |]; [| done]. by injection Ha as <-.
  - intros x [= <-]. rewrite Nat.add_0_r. unfold exhausted. by destruct last_5xx as [[] |].
Qed.

(** One turn of the loop. *)
Lemma attempt_loop_turn budget attempts tried e last_5xx n :
  let h := length (t_holds (n_tracker n)) in
  attempt_loop repick try_once (S budget) attempts tried (Some e) last_5xx n =
  match try_once e {| n_tracker := (hold (host_port e) (n_tracker n)).2; n_dials := n_dials n |} with
  | (n1, inl exn) => (n1, inl exn)
  | (n1, inr (Retry passthrough)) =>
      attempt_loop repick try_once budget (S attempts) (host_port e :: tried)
        (if (S attempts <? MAX_ATTEMPTS)%nat then repick (host_port e :: tried) else None)
        (match passthrough with Some p => Some (e, p) | None => last_5xx end)
        {| n_tracker := release h (n_tracker n1); n_dials := n_dials n1 |}
  | (n1, inr outcome) => as_success outcome h e (1 <? S attempts)%nat n1
  end.
Proof.
  cbn [attempt_loop]. unfold mbind, eff_bind, hold_slot. cbn [hold snd].
  by destruct (try_once _ _) as [n1 [exn | [p | s | s | p]]].
Qed.

Lemma attempt_loop_facts budget attempts tried endpoint last_5xx n n' r :
  tracker_ok (n_tracker n) → (∀ e, endpoint = Some e → host_port e ∉ tried) →
  attempt_loop repick try_once budget attempts tried endpoint last_5xx n = (n', r) →
  ∃ own, attempt_facts budget attempts tried n n' r own ∧
    (∀ e, endpoint = Some e → budget ≠ 0%nat → head own.*2 = Some (host_port e)).
Proof.
  revert attempts tried endpoint last_5xx n; induction budget as [| budget IH];
    intros attempts tried endpoint last_5xx n Hok He Hrun.
  { injection Hrun as <- <-. exists []. split; [by apply no_attempt | done]. }
  destruct endpoint as [e |].
  2: { injection Hrun as <- <-. exists []. split; [by apply no_attempt | done]. }
  specialize (He e eq_refl). rewrite attempt_loop_turn in Hrun. cbv zeta in Hrun.
  destruct (Htry e {| n_tracker := (hold (host_port e) (n_tracker n)).2; n_dials := n_dials n |}) as (f & d & r0 & Hf & Hcall).
  rewrite Hcall in Hrun. cbn [n_tracker n_dials] in Hrun. set (h := length (t_holds (n_tracker n))) in *.
  assert (Hend : ∀ r b, settled r [(h, host_port e)] h = b → (∀ a h', r = inr (Acq a) → aq_hold a = Some h' → h' = h) →
    (∀ x, r = inr x → result_retried x = (1 <? S attempts)%nat) →
    (n', r) = ({| n_tracker := if b : bool then release h (f (hold (host_port e) (n_tracker n)).2) else f (hold (host_port e) (n_tracker n)).2;
                 n_dials := n_dials n ++ [d] |}, r) →
    ∃ own, attempt_facts (S budget) attempts tried n n' r own ∧
      (∀ e0, Some e = Some e0 → S budget ≠ 0%nat → head own.*2 = Some (host_port e0))).
  { intros r1 b H1 H2 H3 [= ->]. exists [(h, host_port e)]. split; [| by intros ? [= <-]].
    by eapply (last_attempt budget attempts tried n _ f d r1 (host_port e) b). }
  destruct r0 as [exn | [p | s | s | p]].
  - injection Hrun as Hn Hr. subst r. apply (Hend _ false); [cbn; by rewrite bool_decide_eq_true_2 | done | done | by rewrite <- Hn].
  - injection Hrun as Hn Hr. subst r. apply (Hend _ true); [done | by intros ? ? [= <-] | by intros ? [= <-] | by rewrite <- Hn].
  - injection Hrun as Hn Hr. subst r. apply (Hend _ false); [cbn; by rewrite bool_decide_eq_true_2 | by intros ? ? [= <-] [= <-] | by intros ? [= <-] | by rewrite <- Hn].
  - injection Hrun as Hn Hr. subst r. apply (Hend _ false); [cbn; by rewrite bool_decide_eq_true_2 | by intros ? ? [= <-] [= <-] | by intros ? [= <-] | by rewrite <- Hn].
  - apply IH in Hrun as (own & Hown & _).
    + exists ((h, host_port e) :: own). split; [| by intros ? [= <-]]. by eapply more_attempts.
    + cbn. by apply release_ok, (ry_ok _ Hf), hold_ok.
    + intros e'. destruct (_ <? _)%nat; [apply Hrepick | done].
Qed.
End AttemptSpec.

(** A predicate on the upstream calls that every attempt preserves. *)
Lemma attempt_loop_dials repick try_once (I : list Dial → Prop) budget attempts tried endpoint last_5xx n :
  (∀ e n, I (n_dials n) → I (n_dials (try_once e n).1)) → I (n_dials n) →
  I (n_dials (attempt_loop repick try_once budget attempts tried endpoint last_5xx n).1).
Proof.
  intros Htry. revert attempts tried endpoint last_5xx n; induction budget as [| budget IH];
    intros attempts tried endpoint last_5xx n Hn; [done |]. destruct endpoint as [e |]; [| done].
  rewrite attempt_loop_turn. pose proof (Htry e {| n_tracker := (hold (host_port e) (n_tracker n)).2; n_dials := n_dials n |} Hn) as H.
  destruct (try_once _ _) as [n1 [exn | [p | s | s | p]]]; cbn in H |- *; try done. by apply IH.
Qed.

Section Transport.
  Context (answers : Answers) (request : ProxyRequest) (Hrely : ∀ i, rely (an_meanwhile answers i)).

Lemma site_aware_effect streaming e n :
  ∃ f d r, rely f ∧ site_aware_call answers request streaming e n =
    ({| n_tracker := f (n_tracker n); n_dials := n_dials n ++ [d] |}, r).
Proof.
  exists (an_meanwhile answers (length (n_dials n))). unfold site_aware_call, mbind, eff_bind, gets. cbv beta iota.
  destruct (an_route answers _ _); unfold relay_call, direct_call, call_upstream; eexists _, _; by split.
Qed.

(** How a call was made fits the agent's route at that moment. *)
Definition dial_fits (i : nat) (d : Dial) : Prop :=
  match d with
  | Dialled u => ∃ e, u = url e (pr_path request) ∧ an_route answers i (re_agent_id e) = None
  | Offered a _ => is_Some (an_route answers i a)
  end.

Lemma site_aware_fits start streaming e n :
  (∀ i d, (start ≤ i)%nat → n_dials n !! i = Some d → dial_fits i d) →
  ∀ i d, (start ≤ i)%nat → n_dials (site_aware_call answers request streaming e n).1 !! i = Some d → dial_fits i d.
Proof.
  intros Hn i d Hi. unfold site_aware_call, mbind, eff_bind, gets. cbv beta iota.
  destruct (an_route answers (length (n_dials n)) (re_agent_id e)) as [g |] eqn:Hr; cbn;
    (intros [Hd | [Hle Hd]]%lookup_app_Some; [by apply (Hn i d Hi) |];
     apply list_lookup_singleton_Some in Hd as [Hd <-]; replace i with (length (n_dials n)) by lia).
  - by exists g.
  - by exists e.
Qed.

End Transport.

(** A slot is lost when the upstream call raises.  An attempt that ends in an
    exception the loop does not retry (a broken connection, a protocol error, a
    cancelled request) leaves its slot held although nothing refers to it any
    more: whatever the other requests do, the replica's inflight count never
    returns below one. *)
Theorem raised_attempt_leaks answers request pick enriched first exn later :
  an_route answers 0 (re_agent_id first) = None → an_http answers 0 = HttpRaises exn →
  an_meanwhile answers 0 = id → TRelease 0 ∉ later →
  let start := {| n_tracker := new_tracker; n_dials := [] |} in
  let '(n, r) := acquire answers request false first (make_repick pick enriched) start in
  r = inl exn ∧ (1 ≤ count_of (host_port first) (tracker_run later (n_tracker n)))%Z.
Proof.
  intros Hr Hh Hm Hl start.
  assert (Hrun : acquire answers request false first (make_repick pick enriched) start =
    ({| n_tracker := (hold (host_port first) new_tracker).2; n_dials := [Dialled (url first (pr_path request))] |}, inl exn)).
  { unfold acquire, run_attempts. unfold MAX_ATTEMPTS at 1. rewrite attempt_loop_turn. unfold site_aware_call, mbind, eff_bind, gets. cbn [n_dials start length].
    rewrite Hr. unfold direct_call, call_upstream. cbn [n_dials start length n_tracker]. rewrite Hh, Hm. done. }
  rewrite Hrun. split; [done |]. cbn [n_tracker].
  assert (Hk : ∀ t, t_holds t !! 0%nat = Some (host_port first, false) →
    t_holds (tracker_run later t) !! 0%nat = Some (host_port first, false)).
  { clear Hrun. induction later as [| op later IH]; intros t Ht; [done |]. apply IH; [set_solver |].
    destruct op as [k | h]; cbn; [by apply lookup_app_l_Some |]. unfold release. destruct (t_holds t !! h) as [[k []] |]; try done.
    cbn. destruct h; [set_solver |]. by rewrite list_lookup_insert_ne. }
  specialize (Hk (hold (host_port first) new_tracker).2 eq_refl).
  rewrite tracker_count by (apply tracker_run_ok, hold_ok, new_tracker_ok).
  assert (held (host_port first) (tracker_run later (hold (host_port first) new_tracker).2) ≠ 0%nat); [| lia].
  unfold held. intros H0%nil_length_inv. apply list_elem_of_lookup_2 in Hk.
  assert (Hin : (host_port first, false) ∈ filter (λ p, p = (host_port first, false)) (t_holds (tracker_run later (hold (host_port first) new_tracker).2)))
    by (by apply list_elem_of_filter). rewrite H0 in Hin. by apply elem_of_nil in Hin.
Qed.

(** ** Concrete inputs *)

Definition replica (agent : string) (port : Z) : ReplicaEndpoint := {|
  re_agent_id := agent; re_host := "10.0.0.2"; re_port := port; re_model_id := "m"; re_inflight := 0 |}.

Definition small_map : AffinityConfig := {| af_ttl := 100; af_max := 2 |}.

Lemma session_sticks_witness :
  ∃ m', resolve small_map (Some "s") [replica "a" 1; replica "b" 2] head false 50
    (aff_history small_map [(OpRemember "other" (replica "a" 1), 20%Z)] (remember small_map "s" (replica "b" 2) 10 [])) =
    (m', (Some (replica "b" 2), HIT)).
Proof.
  apply (session_sticks small_map [] 10 "s" (replica "b" 2) ["other"]).
  - exists 10%Z, []. split; [repeat constructor | by split].
  - set_solver.
  - cbn. lia.
  - intros p ->%list_elem_of_singleton. split; [cbn; lia |]. intros s' [= <-]. apply list_elem_of_here.
  - cbn. lia.
  - reflexivity.
Defined.

Lemma affinity_spec_witness :
  od_get "s" (resolve small_map (Some "s") [replica "a" 1] head false 50 []).1 =
    Some {| en_endpoint := endpoint_key (replica "a" 1); en_touched_at := 50 |}.
Proof.
  destruct (affinity_spec small_map [] 10 50 "s" [replica "a" 1] head false
    (resolve small_map (Some "s") [replica "a" 1] head false 50 []).1 (Some (replica "a" 1)) MISS) as (_ & _ & _ & _ & H).
  - exists 10%Z, []. split; [repeat constructor | by split].
  - lia.
  - cbn. lia.
  - reflexivity.
  - apply H. reflexivity.
Defined.

(** A network in which the first replica is unreachable and the second answers. *)
Definition flaky : Answers := {|
  an_http := λ i, if (i =? 0)%nat then HttpRetryable else HttpResponse 200 [] None; an_stream := λ _, SendRetryable;
  an_relay := λ _, NotOffered; an_route := λ _ _, None; an_meanwhile := λ _, id |}.

Definition chat : ProxyRequest := {| pr_method := "POST"; pr_path := "/v1/chat/completions"; pr_body := []; pr_content_type := DEFAULT_MEDIA |}.


Definition broken : Answers := {|
  an_http := λ _, HttpRaises "ReadError"; an_stream := λ _, SendRetryable; an_relay := λ _, NotOffered;
  an_route := λ _ _, None; an_meanwhile := λ _, id |}.

Lemma raised_attempt_leaks_witness :
  let '(n, r) := acquire broken chat false (replica "a" 1) (make_repick head []) {| n_tracker := new_tracker; n_dials := [] |} in
  r = inl "ReadError" ∧ (1 ≤ count_of ("10.0.0.2", 1) (tracker_run [THold ("10.0.0.2", 1); TRelease 1] (n_tracker n)))%Z.
Proof.
  apply (raised_attempt_leaks broken chat head [] (replica "a" 1) "ReadError" [THold ("10.0.0.2", 1%Z); TRelease 1]).
  - reflexivity.
  - reflexivity.
  - reflexivity.
  - set_solver.
Defined.
