(* ===== verification/GatewayBodySpec.v ===== *)
(** * What reading a request body guarantees

    The two measures of prompt size agree, retrieved text cannot leave its fence,
    retrieval keeps the client's request, validation accepts exactly the
    well-formed chats, and session keys do not cross clients. *)

From stdpp Require Import pretty.
From S2P Require Export GatewayBody.
From S2P Require Import RegistrySpec.

(** ** Prompt size *)

Definition total_len (l : list string) : Z := fold_left Z.add (len <$> l) 0%Z.

Lemma fold_add_acc l a : fold_left Z.add l a = (a + fold_left Z.add l 0)%Z.
Proof.
  revert a; induction l as [| x l IH]; intros a; cbn [fold_left]; [lia |]. rewrite (IH (a + x)%Z), (IH (0 + x)%Z). lia.
Qed.

Lemma total_len_app l l' : total_len (l ++ l') = (total_len l + total_len l')%Z.
Proof. unfold total_len. by rewrite fmap_app, fold_left_app, fold_add_acc. Qed.

(** Counting a list of texts adds their lengths and remembers having seen one. *)
Definition counted (acc : Z * bool) (l : list string) : Z * bool :=
  (acc.1 + total_len l, acc.2 || negb (bool_decide (l = [])))%Z.

Lemma counted_nil acc : counted acc [] = acc.
Proof. destruct acc. unfold counted. cbn. by rewrite Z.add_0_r, orb_false_r. Qed.

Lemma counted_app acc l l' : counted acc (l ++ l') = counted (counted acc l) l'.
Proof.
  unfold counted. cbn. rewrite total_len_app, Z.add_assoc. f_equal. rewrite <- orb_assoc. f_equal.
  destruct l, l'; cbn; by rewrite ?orb_true_r.
Qed.

Lemma counted_one acc s : counted acc [s] = count_text acc s.
Proof. unfold counted, count_text. cbn. by rewrite orb_true_r. Qed.

(** A loop that counts at most one text per item counts the texts found. *)
Lemma fold_counts {A} (text : A → option string) l acc :
  fold_left (λ acc x, match text x with Some s => count_text acc s | None => acc end) l acc = counted acc (omap text l).
Proof.
  revert acc; induction l as [| x l IH]; intros acc; [by rewrite counted_nil |]. cbn. rewrite IH.
  destruct (text x) as [s |]; [| done]. by rewrite <- counted_one, <- counted_app.
Qed.

Lemma count_key_counts data acc key : count_key data acc key = counted acc (key_contents data key).
Proof.
  unfold count_key, key_contents. destruct (od_get key data) as [[| | | | s | l |] |]; rewrite ?counted_nil, ?counted_one; try done.
  apply fold_counts.
Qed.

(** The size logged for a request and the size its eligibility verdict is
    based on agree: [prompt_chars] is the total length of exactly the texts
    [iter_contents] lists, and absent exactly when there are none. *)
Theorem prompt_size_agrees data :
  prompt_chars data = if bool_decide (iter_contents data = []) then None else Some (total_len (iter_contents data)).
Proof.
  unfold prompt_chars, iter_contents.
  assert (Hm : (match messages_of data with Some l => fold_left count_message l (0%Z, false) | None => (0%Z, false) end) =
               counted (0%Z, false) (match messages_of data with Some l => omap content_of l | None => [] end)).
  { destruct (messages_of data); [apply fold_counts | done]. }
  rewrite Hm. cbn [PROMPT_KEYS fold_left]. rewrite !count_key_counts, <- !counted_app.
  change (PROMPT_KEYS ≫= key_contents data) with (key_contents data "input" ++ key_contents data "prompt" ++ []).
  rewrite app_nil_r. unfold counted. cbn [fst snd orb]. rewrite Z.add_0_l.
  by destruct (bool_decide _).
Qed.

(** ** The fence around retrieved text *)

Lemma remove_all_length m skip l : (length (remove_all m skip l) ≤ length l)%nat.
Proof.
  revert skip; induction l as [| c l IH]; intros skip; [done |]. cbn [remove_all]. destruct skip as [| k].
  - destruct (starts_with m (c :: l)); cbn [length]; [specialize (IH (length m - 1)%nat) | specialize (IH 0%nat)]; lia.
  - specialize (IH k). cbn. lia.
Qed.

Lemma remove_all_shorter m l : contains m l = true → l ≠ [] → (length (remove_all m 0 l) < length l)%nat.
Proof.
  induction l as [| c l IH]; [done |]. intros Hc _. cbn [contains] in Hc. cbn [remove_all].
  destruct (starts_with m (c :: l)) eqn:Hs; cbn [length]; [pose proof (remove_all_length m (length m - 1) l); lia |].
  cbn in Hc. destruct l as [| d l].
  - destruct m; cbn in *; congruence.
  - specialize (IH Hc ltac:(done)). cbn [length] in *. lia.
Qed.

Lemma remove_all_absent m l : contains m l = false → remove_all m 0 l = l.
Proof.
  induction l as [| c l IH]; [done |]. cbn [contains remove_all]. intros [-> H]%orb_false_iff. by rewrite IH.
Qed.

Lemma remove_all_sublist m skip l : remove_all m skip l `sublist_of` l.
Proof.
  revert skip; induction l as [| c l IH]; intros skip; [done |]. cbn [remove_all]. destruct skip as [| k].
  - destruct (starts_with m (c :: l)); by constructor.
  - by constructor.
Qed.

Definition strip_pass (l : list ascii) : list ascii := remove_all (chars CONTEXT_END) 0 (remove_all (chars CONTEXT_BEGIN) 0 l).

Lemma strip_pass_shorter l : has_marker l = true → (length (strip_pass l) < length l)%nat.
Proof.
  intros Hm. assert (Hne : l ≠ []) by (by intros ->). unfold strip_pass, has_marker in *.
  destruct (contains (chars CONTEXT_BEGIN) l) eqn:Hb.
  - eapply Nat.le_lt_trans; [apply remove_all_length | by apply remove_all_shorter].
  - rewrite (remove_all_absent _ _ Hb). by apply remove_all_shorter.
Qed.

(** Fuel for every character is enough, and what is left has no marker. *)
Lemma strip_loop_ends fuel l :
  (length l ≤ fuel)%nat → ∃ l', strip_loop fuel l = Some l' ∧ has_marker l' = false ∧ l' `sublist_of` l.
Proof.
  revert l; induction fuel as [| fuel IH]; intros l Hl; cbn [strip_loop]; destruct (has_marker l) eqn:Hm; try by exists l.
  - destruct l; [done | cbn in Hl; lia].
  - pose proof (strip_pass_shorter l Hm) as Hs. destruct (IH (strip_pass l)) as (l' & Hl' & Hno & Hsub); [lia |].
    exists l'. split_and!; [done | done |]. etransitivity; [exact Hsub |]. unfold strip_pass.
    etransitivity; apply remove_all_sublist.
Qed.

Lemma chars_of l : chars (String.string_of_list_ascii l) = l.
Proof. apply String.list_ascii_of_string_of_list_ascii. Qed.

Lemma length_chars s : length (chars s) = String.length s.
Proof. unfold chars. induction s as [| c s IH]; cbn; [done | by rewrite IH]. Qed.

Lemma strip_markers_clean text :
  has_marker (chars (strip_markers text)) = false ∧ chars (strip_markers text) `sublist_of` chars text.
Proof.
  unfold strip_markers. destruct (strip_loop_ends (String.length text) (chars text)) as (l' & -> & Hno & Hsub); [by rewrite length_chars |].
  cbn. by rewrite chars_of.
Qed.

(** A marker cannot reach across a character it does not contain. *)
Lemma starts_with_sep m a b c : c ∉ m → starts_with m (a ++ c :: b) = starts_with m a.
Proof.
  revert a; induction m as [| d m IH]; intros a Hc; [by destruct a |]. apply not_elem_of_cons in Hc as [Hd Hc].
  destruct a as [| x a]; cbn; [by rewrite bool_decide_eq_false_2 by congruence |]. by rewrite IH.
Qed.

Lemma contains_sep m a b c : c ∉ m → m ≠ [] → contains m (a ++ c :: b) = contains m a || contains m b.
Proof.
  intros Hc Hm. induction a as [| x a IH]; cbn [app contains].
  - pose proof (starts_with_sep m [] b c Hc) as H. cbn in H. rewrite H. by destruct m.
  - change (x :: a ++ c :: b) with ((x :: a) ++ c :: b). rewrite starts_with_sep, IH by done. apply orb_assoc.
Qed.

Lemma starts_with_first m l c m' : m = c :: m' → starts_with m l = true → c ∈ l.
Proof. intros -> H. destruct l as [| d l]; [done |]. cbn in H. reflect_bools. subst. apply list_elem_of_here. Qed.

Lemma contains_first m l c m' : m = c :: m' → c ∉ l → contains m l = false.
Proof.
  intros Hm. induction l as [| x l IH]; intros Hc; cbn [contains].
  - subst m. done.
  - apply not_elem_of_cons in Hc as [Hx Hc]. rewrite IH by done. rewrite orb_false_r.
    destruct (starts_with m (x :: l)) eqn:Hs; [| done]. subst m. cbn in Hs. reflect_bools. congruence.
Qed.

Lemma chars_app a b : chars (a +:+ b) = chars a ++ chars b.
Proof. induction a as [| c a IH]; [done |]. exact (f_equal (cons c) IH). Qed.

Definition LESS : ascii := "<"%char.

Lemma pretty_no_marker (n : N) : LESS ∉ chars (pretty n).
Proof.
  assert (Hgo : ∀ x s, LESS ∉ chars s → LESS ∉ chars (pretty_N_go x s)).
  { intros x. induction (N.lt_wf_0 x) as [x _ IH]. intros s Hs.
    destruct (decide (0 < x)%N) as [Hx | Hx].
    - rewrite pretty_N_go_step by done. apply IH; [apply N.div_lt; lia |].
      change (chars (String.String (pretty_N_char (x `mod` 10)) s)) with (pretty_N_char (x `mod` 10) :: chars s).
      apply not_elem_of_cons. split; [| done]. unfold pretty_N_char. by repeat case_match.
    - replace x with 0%N by lia. by rewrite pretty_N_go_0. }
  unfold pretty, pretty_N. destruct (decide (n = 0%N)); [| apply Hgo; apply not_elem_of_nil].
  cbn. set_solver.
Qed.

(** What the two fence markers have in common. *)
Definition fence (m : list ascii) : Prop := (∃ m', m = LESS :: m') ∧ "]"%char ∉ m ∧ Ascii.ascii_of_nat 10 ∉ m.

Lemma fences : fence (chars CONTEXT_BEGIN) ∧ fence (chars CONTEXT_END).
Proof.
  split; (split; [by eexists | split; intros Hin; vm_compute in Hin; set_unfold in Hin; naive_solver]).
Qed.

Lemma chunk_clean m (index : N) text :
  fence m → contains m (chars text) = false → contains m (chars ("[" +:+ pretty index +:+ "] " +:+ text)) = false.
Proof.
  intros ((m' & Hm) & Hb & _) Ht. rewrite !chars_app. change (chars "[") with ["["%char].
  change (chars "] ") with ["]"%char; " "%char]. rewrite app_assoc. cbn [app].
  change ("["%char :: chars (pretty index) ++ "]"%char :: " "%char :: chars text)
    with (("["%char :: chars (pretty index)) ++ "]"%char :: " "%char :: chars text).
  rewrite contains_sep; [| done | by subst m]. apply orb_false_iff. split.
  - apply (contains_first m _ LESS m' Hm). apply not_elem_of_cons. split; [done | apply pretty_no_marker].
  - cbn [contains]. rewrite Ht, orb_false_r. subst m. done.
Qed.

Lemma join_clean m l :
  fence m → (∀ x, x ∈ l → contains m (chars x) = false) → contains m (chars (join (NL +:+ NL) l)) = false.
Proof.
  intros ((m' & Hm) & _ & Hnl) Hl. assert (Hne : m ≠ []) by (by subst m). induction l as [| x l IH]; [by subst m |].
  destruct l as [| y l]; [apply Hl; apply list_elem_of_here |].
  change (join (NL +:+ NL) (x :: y :: l)) with (x +:+ (NL +:+ NL) +:+ join (NL +:+ NL) (y :: l)).
  rewrite !chars_app. change (chars NL) with [Ascii.ascii_of_nat 10]. cbn [app].
  rewrite contains_sep, (Hl x) by (done || apply list_elem_of_here). cbn [orb].
  change (Ascii.ascii_of_nat 10 :: chars (join (NL +:+ NL) (y :: l))) with ([] ++ Ascii.ascii_of_nat 10 :: chars (join (NL +:+ NL) (y :: l))).
  rewrite contains_sep by done. rewrite IH by (intros z Hz; apply Hl; by right). by subst m.
Qed.

Lemma number_chunks_clean m chunks index x :
  fence m → (∀ text, contains m (chars (strip_markers text)) = false) → x ∈ number_chunks index chunks →
  contains m (chars x) = false.
Proof.
  intros Hf Hs. revert index; induction chunks as [| text chunks IH]; intros index; [by intros ?%elem_of_nil |].
  cbn [number_chunks]. intros [-> | Hin]%elem_of_cons; [by apply chunk_clean | by eapply IH].
Qed.

(** Retrieved text cannot leave its fence.  Stripping the markers of a chunk
    always ends, with a subsequence of the chunk in which neither marker occurs,
    however they were nested; and the whole numbered context between the two
    fences, with its joints, contains neither marker. *)
Theorem context_fenced chunks :
  (∀ text, ∃ l, strip_loop (String.length text) (chars text) = Some l ∧ chars (strip_markers text) = l ∧
     has_marker l = false ∧ l `sublist_of` chars text) ∧
  has_marker (chars (numbered chunks)) = false.
Proof.
  split.
  - intros text. destruct (strip_loop_ends (String.length text) (chars text)) as (l & Hl & Hno & Hsub); [by rewrite length_chars |].
    exists l. split_and!; [done | | done | done]. unfold strip_markers. rewrite Hl. apply chars_of.
  - destruct fences as [Hb He]. assert (Hs : ∀ text, contains (chars CONTEXT_BEGIN) (chars (strip_markers text)) = false ∧
      contains (chars CONTEXT_END) (chars (strip_markers text)) = false)
      by (intros text; by apply orb_false_iff, strip_markers_clean).
    apply orb_false_iff. split; apply join_clean; try done; intros x Hx; eapply number_chunks_clean; try done; intros text; apply Hs.
Qed.

(** Retrieval keeps the client's request.  A body that asked for retrieval is
    rewritten only when it is enabled, the request for it is well-formed (a
    non-empty collection and 1 to 64 chunks) and there is a user message; the new
    body asks for no retrieval, has every other field of the client's unchanged,
    and its messages are the client's, in order, after at most one system message
    with the retrieved context. *)
Theorem rag_keeps_request data retriever result :
  apply_rag data retriever = inr (Some result) →
  (∃ retrieve collection k query chunks, retriever = Some retrieve ∧ last_user_message data = Some query ∧
     collection ≠ "" ∧ (1 ≤ k ≤ 64)%Z ∧ retrieve collection query k = inr chunks ∧ rg_k result = Z.of_nat (length chunks) ∧
     messages_of (rg_body result) = ((if bool_decide (chunks = []) then [] else [context_message chunks]) ++.) <$> messages_of data) ∧
  od_get "rag" (rg_body result) = None ∧
  ∀ key, key ≠ "rag" → key ≠ "messages" → od_get key (rg_body result) = od_get key data.
Proof.
  intros Hrag. unfold apply_rag in Hrag. destruct (od_get "rag" data) as [spec |]; [| done].
  destruct retriever as [retrieve |]; [| done]. destruct (parse_spec spec) as [e | [collection k]] eqn:Hspec; [done |].
  destruct (last_user_message data) as [query |] eqn:Hq; [| done].
  destruct (retrieve collection query k) as [e | chunks] eqn:Hret; [done |]. injection Hrag as <-. cbn [rg_body rg_k].
  assert (Hck : collection ≠ "" ∧ (1 ≤ k ≤ 64)%Z).
  { unfold parse_spec in Hspec. repeat (case_match; try done). simplify_eq. reflect_bools. unfold MAX_K in *. split; [done | lia]. }
  assert (Hmsg : messages_of (od_pop "rag" data) = messages_of data) by (unfold messages_of; by rewrite od_get_pop).
  assert (Hlist : ∃ l, messages_of data = Some l) by (unfold last_user_message in Hq; destruct (messages_of data); [by eexists | done]).
  destruct Hlist as [l Hl]. split_and!.
  - exists retrieve, collection, k, query, chunks. split_and!; try done; [apply Hck | lia | lia |].
    destruct chunks as [| c chunks]; cbn [bool_decide]; rewrite ?Hmsg, ?Hl; [done |].
    unfold messages_of at 1. rewrite od_get_set_eq. done.
  - destruct chunks; rewrite ?od_get_set_ne by done; by rewrite od_get_pop.
  - intros key H1 H2. destruct chunks; rewrite ?od_get_set_ne by done; rewrite od_get_pop; by rewrite bool_decide_eq_false_2.
Qed.

(** ** Validation *)

Definition is_message (m : Json) : Prop := ∃ f, m = JObj f ∧ is_Some (od_get "role" f) ∧ is_Some (od_get "content" f).

Definition in_range (v : option Json) (low high : Q) : Prop :=
  v = None ∨ v = Some JNull ∨ (∃ z, v = Some (JInt z) ∧ (low <= inject_Z z <= high)%Q) ∨
  (∃ q, v = Some (JFloat (Some q)) ∧ (low <= q <= high)%Q).

(** A chat the gateway forwards. *)
Record well_formed_chat (data : JBody) : Prop := {
  wc_messages : ∃ l, od_get "messages" data = Some (JArr l) ∧ l ≠ [] ∧ Forall is_message l;
  wc_n v : od_get "n" data = Some v → v = JNull ∨ v = JInt 1;
  wc_max_tokens v : od_get "max_tokens" data = Some v → v = JNull ∨ ∃ z, v = JInt z ∧ (1 ≤ z)%Z;
  wc_temperature : in_range (od_get "temperature" data) 0 2;
  wc_top_p : in_range (od_get "top_p" data) 0 1
}.

Lemma or_else_None a b : or_else a b = None ↔ a = None ∧ b = None.
Proof. destruct a; naive_solver. Qed.

Lemma message_ok_spec m : message_ok m = true ↔ is_message m.
Proof.
  unfold is_message. destruct m; cbn; try (split; [done | by intros (? & [=] & _)]).
  unfold has_key. rewrite andb_true_iff, !bool_decide_eq_true. split; [intros []; by eexists | by intros (? & [= <-] & ?)].
Qed.

Lemma check_range_spec field v low high : check_range field v low high = None ↔ in_range v low high.
Proof.
  unfold check_range, in_range. destruct v as [[| b | z | [q |] | s | l | f] |]; try (split; [done | naive_solver]); try naive_solver.
  - destruct (_ && _) eqn:H; reflect_bools; split; try done; [intros _; right; right; left; by eexists |].
    apply andb_false_iff in H as [H | H]; reflect_bools; intros [[=] | [[=] | [(z' & [= <-] & ? & ?) | (q & [=] & _)]]]; lra.
  - destruct (_ && _) eqn:H; reflect_bools; split; try done; [intros _; right; right; right; by eexists |].
    apply andb_false_iff in H as [H | H]; reflect_bools; intros [[=] | [[=] | [(z' & [=] & _) | (q' & [= <-] & ? & ?)]]]; lra.
Qed.

(** The boundary check accepts exactly the well-formed chats: a non-empty
    list of messages with a role and a content each, and every optional parameter
    absent, null or a number of the right kind in its range. *)
Lemma validate_chat_exact data :
  validate_chat_body CHAT_COMPLETIONS_PATH data = None ↔ well_formed_chat data.
Proof.
  unfold validate_chat_body. rewrite bool_decide_eq_true_2 by done. cbn [negb]. rewrite !or_else_None, !check_range_spec.
  assert (Hm : check_messages (od_get "messages" data) = None ↔ ∃ l, od_get "messages" data = Some (JArr l) ∧ l ≠ [] ∧ Forall is_message l).
  { unfold check_messages. destruct (od_get "messages" data) as [[| | | | | [| m l] |] |]; try (split; [done | by intros (? & [=] & _)]).
    - split; [done |]. by intros (l & [= <-] & ? & _).
    - destruct (forallb message_ok (m :: l)) eqn:Hf; split; try done.
      + intros _. exists (m :: l). split_and!; [done | done |]. apply Forall_forall. intros x Hx. apply message_ok_spec.
        rewrite forallb_forall in Hf. apply Hf. by apply list_elem_of_In.
      + intros (l' & [= <-] & _ & Hall). exfalso. revert Hf. apply not_false_iff_true, forallb_forall. intros x Hx.
        apply message_ok_spec. rewrite Forall_forall in Hall. apply Hall. by apply list_elem_of_In. }
  assert (Hn : check_n (od_get "n" data) = None ↔ ∀ v, od_get "n" data = Some v → v = JNull ∨ v = JInt 1).
  { unfold check_n. destruct (od_get "n" data) as [[| | z | | | |] |]; try (split; [naive_solver | intros H; specialize (H _ eq_refl); naive_solver]); [| naive_solver].
    destruct (z =? 1)%Z eqn:Hz; reflect_bools; [naive_solver |]. split; [done |]. intros H. specialize (H _ eq_refl). naive_solver. }
  assert (Ht : check_min_int "max_tokens" (od_get "max_tokens" data) 1 = None ↔
    ∀ v, od_get "max_tokens" data = Some v → v = JNull ∨ ∃ z, v = JInt z ∧ (1 ≤ z)%Z).
  { unfold check_min_int. destruct (od_get "max_tokens" data) as [[| | z | | | |] |];
      try (split; [done | intros H; by destruct (H _ eq_refl) as [[=] | (? & [=] & _)]]).
    - split; [intros _ v [= <-]; by left | done].
    - destruct (Z.ltb_spec z 1) as [Hz | Hz]; [split; [done |] | split; [intros _ v [= <-]; right; by exists z | done]].
      intros H. destruct (H _ eq_refl) as [[=] | (? & [= <-] & ?)]. lia.
    - by split. }
  rewrite Hm, Hn, Ht. split; [intros (? & ? & ? & ? & ?); by split | intros []; by split_and!].
Qed.

(** ** Session keys *)

Definition no_nul (s : string) : Prop := Ascii.ascii_of_nat 0 ∉ chars s.

#[local] Instance no_nul_dec s : Decision (no_nul s).
Proof. unfold no_nul. apply _. Defined.

Lemma split_at_nul (a b a' b' : list ascii) :
  Ascii.ascii_of_nat 0 ∉ a → Ascii.ascii_of_nat 0 ∉ a' → a ++ Ascii.ascii_of_nat 0 :: b = a' ++ Ascii.ascii_of_nat 0 :: b' → a = a' ∧ b = b'.
Proof.
  revert a'; induction a as [| x a IH]; intros [| y a'] Ha Ha' Heq; cbn [app] in Heq.
  - by injection Heq.
  - injection Heq as <- _. by apply not_elem_of_cons in Ha' as [? _].
  - injection Heq as -> _. by apply not_elem_of_cons in Ha as [? _].
  - injection Heq as <- Heq. apply not_elem_of_cons in Ha as [_ Ha]. apply not_elem_of_cons in Ha' as [_ Ha'].
    by destruct (IH a' Ha Ha' Heq) as [-> ->].
Qed.

Lemma chars_inj s s' : chars s = chars s' → s = s'.
Proof.
  unfold chars. intros H. rewrite <- (String.string_of_list_ascii_of_string s), <- (String.string_of_list_ascii_of_string s').
  by rewrite H.
Qed.

Lemma to_hex_length bs : length (chars (to_hex bs)) = (2 * length bs)%nat.
Proof.
  unfold to_hex. rewrite chars_of. induction bs as [| b bs IH]; [done |]. rewrite bind_cons, length_app, IH.
  assert (length (hex_byte b) = 2%nat) by (by destruct b). cbn [length]. lia.
Qed.

(** Two sources that are equal name the same client. *)
Lemma session_source_bearer es b p es' b' p' s :
  no_nul b → no_nul b' → session_source es b p = Some s → session_source es' b' p' = Some s → b = b'.
Proof.
  intros Hb Hb' H1 H2.
  assert (Hshape : ∀ es b p, session_source es b p = Some s → ∃ tag rest, s = tag +:+ NUL +:+ b +:+ NUL +:+ rest ∧ no_nul tag).
  { clear. assert (Ht : no_nul "header" ∧ no_nul "fallback") 
      by (split; apply (bool_decide_unpack _); vm_compute; exact I).
    intros es b p H. unfold session_source in H.
    assert (Hfb : ∀ o, (match pb_first_user_message p with Some m => Some ("fallback" +:+ NUL +:+ b +:+ NUL +:+ prefix_of MESSAGE_PREFIX_CHARS m)
      | None => None end) = Some o → ∃ tag rest, o = tag +:+ NUL +:+ b +:+ NUL +:+ rest ∧ no_nul tag).
    { intros o Ho. destruct (pb_first_user_message p) as [m |]; [| done]. injection Ho as <-. eexists "fallback", _. split; [done | apply Ht]. }
    destruct es as [e |]; [| by apply Hfb]. destruct (bool_decide (strip e = "")); [by apply Hfb |]. injection H as <-.
    eexists "header", _. split; [done | apply Ht]. }
  destruct (Hshape _ _ _ H1) as (t & r & Heq & Ht). destruct (Hshape _ _ _ H2) as (t' & r' & Heq' & Ht').
  rewrite Heq in Heq'. apply (f_equal chars) in Heq'. rewrite !chars_app in Heq'. change (chars NUL) with [Ascii.ascii_of_nat 0] in Heq'.
  cbn [app] in Heq'. apply split_at_nul in Heq' as [_ Heq']; [| done | done].
  apply split_at_nul in Heq' as [Hbb _]; [| done | done]. by apply chars_inj.
Qed.

(** A session belongs to one client and one model.  Two requests that get the
    same session key name the same model and carry the same bearer token, or the
    two exhibit a SHA-256 collision; so no client can steer, or learn about,
    another client's session. *)
Theorem session_key_isolated sha256 model es bearer parsed model' es' bearer' parsed' key :
  (∀ b, length (sha256 b) = 32%nat) → no_nul bearer → no_nul bearer' →
  derive_session_key sha256 model es bearer parsed = Some key →
  derive_session_key sha256 model' es' bearer' parsed' = Some key →
  model = model' ∧ (bearer = bearer' ∨ ∃ x y, x ≠ y ∧ sha256 x = sha256 y).
Proof.
  intros Hlen Hb Hb' (s & Hs & Hk)%fmap_Some (s' & Hs' & Hk')%fmap_Some. rewrite Hk in Hk'. clear Hk.
  apply (f_equal chars) in Hk'. rewrite !chars_app in Hk'. apply app_inj_2 in Hk' as [Hm Hh]; [| by rewrite !length_app, !to_hex_length, !Hlen].
  split; [by apply chars_inj |]. apply app_inj_2 in Hh as [_ Hh]; [| by rewrite !to_hex_length, !Hlen].
  apply chars_inj, to_hex_inj in Hh. destruct (decide (s = s')) as [-> | Hne].
  - left. by eapply session_source_bearer.
  - right. exists (String.list_byte_of_string s), (String.list_byte_of_string s'). split; [| done]. intros Heq. apply Hne.
    rewrite <- (String.string_of_list_byte_of_string s), <- (String.string_of_list_byte_of_string s'). by rewrite Heq.
Qed.

(** ** Concrete inputs *)

Definition chat_body : JBody :=
  [("model", JStr "m"); ("messages", JArr [JObj [("role", JStr "user"); ("content", JStr "hello")]]);
   ("rag", JObj [("collection", JStr "docs"); ("k", JInt 2)])].

Lemma rag_keeps_request_witness :
  ∃ r, apply_rag chat_body (Some (λ _ _ _, inr ["a chunk"])) = inr (Some r) ∧ od_get "rag" (rg_body r) = None ∧
    od_get "model" (rg_body r) = Some (JStr "m").
Proof.
  destruct (apply_rag chat_body (Some (λ _ _ _, inr ["a chunk"]))) as [e | [r |]] eqn:Hr; [discriminate | | discriminate].
  destruct (rag_keeps_request chat_body (Some (λ _ _ _, inr ["a chunk"])) r Hr) as (_ & H1 & H2).
  exists r. split; [reflexivity |]. split; [exact H1 | rewrite H2; [reflexivity | discriminate | discriminate]].
Defined.

Definition pad_sha (b : bytes) : bytes := take 32 (b ++ replicate 32 "000"%byte).

Lemma pad_sha_length b : length (pad_sha b) = 32%nat.
Proof. unfold pad_sha. rewrite length_take, length_app, length_replicate. lia. Qed.

Lemma session_key_isolated_witness :
  is_Some (derive_session_key pad_sha "m" (Some " s ") "k1" (parsed_body chat_body)) ∧ ("m" = "m" ∧
  ("k1" = "k1" ∨ ∃ x y, x ≠ y ∧ pad_sha x = pad_sha y)).
Proof.
  split; [by eexists |].
  refine (session_key_isolated pad_sha "m" (Some " s ") "k1" (parsed_body chat_body) "m" (Some "s") "k1" (parsed_body [])
    _ pad_sha_length _ _ eq_refl eq_refl); apply (bool_decide_unpack _); vm_compute; exact I.
Defined.
