(* ===== verification/Admission.v ===== *)
(** * The gateway's waiting room

    Models src/packages/fallow-coordinator/src/fallow_coordinator/gateway/
    admission.py ([AdmissionQueue]).  Every call of [wait] is a task; a task runs
    without interruption between two awaits that suspend it, which are the probe
    and the sleep: the lock is only ever held without suspending, so taking it
    never waits.  Such an uninterrupted stretch reads the clock once.  Tickets are numbered in the order of arrival. *)

From S2P Require Export Prelude.
From S2P Require Import QueueDb.

Inductive AdmissionStatus := ADMITTED | OVERFLOW | TIMEOUT.

Record AdmissionConfig := { ac_capacity : Z; ac_timeout_s : Q; ac_poll_s : Q }.

(** The constructor's checks. *)
Definition admission_config (capacity : Z) (timeout_s poll_interval_s : Q) : option AdmissionConfig :=
  if (capacity <=? 0)%Z || (timeout_s <?q 0) || (poll_interval_s <=?q 0) then None
  else Some {| ac_capacity := capacity; ac_timeout_s := timeout_s; ac_poll_s := poll_interval_s |}.

(** [_elapsed_ms] *)
Definition elapsed_ms (s : Q) : Z := round_half_even (s * 1000).

Section Admission.
  Context {V : Type} (cfg : AdmissionConfig).

(** Where a task is: in a probe (with or without a ticket), asleep until an
    instant, or over, with a result or by an exception. *)
Inductive Phase :=
  | Immediate
  | Probing
  | Sleeping (until : Q)
  | Result (status : AdmissionStatus) (value : option V) (waited_ms : Z)
  | Raised (waited_ms : option Z).

Record Waiter := {
  w_lane : string; w_started : Q; w_over_capacity : bool; w_first_probe : bool; w_phase : Phase
}.

Record Room := { r_lanes : gmap string (list nat); r_waiting : Z; r_tasks : list Waiter }.

Definition empty_room : Room := {| r_lanes := ∅; r_waiting := 0; r_tasks := [] |}.

Definition in_phase (p : Phase) (w : Waiter) : Waiter := {|
  w_lane := w_lane w; w_started := w_started w; w_over_capacity := w_over_capacity w;
  w_first_probe := w_first_probe w; w_phase := p |}.

Definition set_phase (t : nat) (p : Phase) (s : Room) : Room := {|
  r_lanes := r_lanes s; r_waiting := r_waiting s; r_tasks := alter (in_phase p) t (r_tasks s) |}.

Definition clear_first (t : nat) (s : Room) : Room := {|
  r_lanes := r_lanes s; r_waiting := r_waiting s;
  r_tasks := alter (λ w, {| w_lane := w_lane w; w_started := w_started w; w_over_capacity := w_over_capacity w;
                            w_first_probe := false; w_phase := w_phase w |}) t (r_tasks s) |}.

(** [_is_head] *)
Definition is_head (lane : string) (t : nat) (s : Room) : bool :=
  match r_lanes s !! lane with Some (h :: _) => (h =? t)%nat | _ => false end.

(** [deque.remove]; [None] is its [ValueError]. *)
Fixpoint deque_remove (t : nat) (q : list nat) : option (list nat) :=
  match q with
  | [] => None
  | h :: q => if (h =? t)%nat then Some q else cons h <$> deque_remove t q
  end.

(** [_remove] *)
Definition remove (lane : string) (t : nat) (s : Room) : Room :=
  match r_lanes s !! lane with
  | None => s
  | Some q =>
      match deque_remove t q with
      | None => s
      | Some q' => {| r_lanes := match q' with [] => delete lane (r_lanes s) | _ => <[lane := q']> (r_lanes s) end;
                      r_waiting := r_waiting s - 1; r_tasks := r_tasks s |}
      end
  end.

Definition finish (lane : string) (t : nat) (p : Phase) (s : Room) : Room := set_phase t p (remove lane t s).

(** From after the probe to the end of the loop body. *)
Definition loop_tail (t : nat) (w : Waiter) (now elapsed remaining : Q) (s : Room) : Room :=
  if w_first_probe w && w_over_capacity w then finish (w_lane w) t (Result OVERFLOW None 0) s
  else
    let s := clear_first t s in
    if remaining <=?q 0 then finish (w_lane w) t (Result TIMEOUT None (elapsed_ms (py_max2 elapsed 0))) s
    else set_phase t (Sleeping (now + py_min2 (ac_poll_s cfg) remaining)) s.

(** The top of the loop, up to the probe or the sleep. *)
Definition loop_top (t : nat) (w : Waiter) (now : Q) (s : Room) : Room :=
  let elapsed := (now - w_started w)%Q in
  let remaining := (ac_timeout_s cfg - elapsed)%Q in
  if (w_first_probe w || (0 <?q remaining)) && is_head (w_lane w) t s then set_phase t Probing s
  else loop_tail t w now elapsed remaining s.

(** [wait], up to its first suspension. *)
Definition enter (lane : string) (now : Q) (s : Room) : Room :=
  let t := length (r_tasks s) in
  let task over first p := {| w_lane := lane; w_started := now; w_over_capacity := over; w_first_probe := first; w_phase := p |} in
  let add w s := {| r_lanes := r_lanes s; r_waiting := r_waiting s; r_tasks := r_tasks s ++ [w] |} in
  if Qeq_bool (ac_timeout_s cfg) 0 then add (task false true Immediate) s
  else
    let queue := default [] (r_lanes s !! lane) in
    let over := (ac_capacity cfg <=? r_waiting s)%Z in
    if negb (bool_decide (queue = [])) && over then add (task over true (Result OVERFLOW None 0)) s
    else
      let w := task over true Probing in
      loop_top t w now
        (add w {| r_lanes := <[lane := queue ++ [t]]> (r_lanes s); r_waiting := r_waiting s + 1; r_tasks := r_tasks s |}).

(** The probe returned. *)
Definition probe_done (t : nat) (value : option V) (now : Q) (s : Room) : Room :=
  match r_tasks s !! t with
  | Some w =>
      let elapsed := (now - w_started w)%Q in
      let remaining := (ac_timeout_s cfg - elapsed)%Q in
      match w_phase w with
      | Immediate =>
          set_phase t (Result (match value with Some _ => ADMITTED | None => TIMEOUT end) value (elapsed_ms elapsed)) s
      | Probing =>
          if remaining <=?q 0 then finish (w_lane w) t (Result TIMEOUT None (elapsed_ms (py_max2 elapsed 0))) s
          else
            match value with
            | Some v => finish (w_lane w) t (Result ADMITTED (Some v) (elapsed_ms elapsed)) s
            | None => loop_tail t w now elapsed remaining s
            end
      | _ => s
      end
  | None => s
  end.

(** The sleep is over. *)
Definition wake (t : nat) (now : Q) (s : Room) : Room :=
  match r_tasks s !! t with
  | Some w => match w_phase w with Sleeping _ => loop_top t w now s | _ => s end
  | None => s
  end.

(** Cancellation, or an exception of the probe, while the task is suspended. *)
Definition interrupt (t : nat) (cancelled : bool) (now : Q) (s : Room) : Room :=
  match r_tasks s !! t with
  | Some w =>
      let waited := if cancelled then Some (elapsed_ms (py_max2 (now - w_started w) 0)) else None in
      match w_phase w with
      | Immediate => set_phase t (Raised None) s
      | Probing => finish (w_lane w) t (Raised waited) s
      | Sleeping _ => if cancelled then finish (w_lane w) t (Raised waited) s else s
      | _ => s
      end
  | None => s
  end.

(** ** Interleavings *)

Inductive Event :=
  | Enter (lane : string) (now : Q)
  | ProbeDone (t : nat) (value : option V) (now : Q)
  | Wake (t : nat) (now : Q)
  | Interrupt (t : nat) (cancelled : bool) (now : Q).

Definition room_step (s : Room) (e : Event) : Room :=
  match e with
  | Enter lane now => enter lane now s
  | ProbeDone t v now => probe_done t v now s
  | Wake t now => wake t now s
  | Interrupt t c now => interrupt t c now s
  end.

Definition room_run (es : list Event) : Room := fold_left room_step es empty_room.
End Admission.

(** * What the waiting room guarantees

    Over every interleaving of arrivals, probes, sleeps and cancellations: the
    lanes are exactly the waiting tickets in the order of arrival, the bound on
    the room holds, only the oldest ticket of a lane probes, and nobody sleeps
    past the timeout. *)

Lemma filter_ext_in {A} (P Q : A → Prop) `{!∀ x, Decision (P x)} `{!∀ x, Decision (Q x)} (l : list A) :
  (∀ x, x ∈ l → P x ↔ Q x) → filter P l = filter Q l.
Proof.
  induction l as [| x l IH]; intros Hl; [done |]. rewrite !filter_cons. pose proof (Hl x (list_elem_of_here _ _)) as Hx.
  rewrite IH by (intros y Hy; apply Hl; by right). destruct (decide (P x)), (decide (Q x)); tauto.
Qed.

Lemma head_filter_keep {A} (P : A → Prop) `{!∀ x, Decision (P x)} (l : list A) x :
  head l = Some x → P x → head (filter P l) = Some x.
Proof. destruct l as [| y l]; [done |]. intros [= ->] Hx. by rewrite filter_cons_True. Qed.

Section AdmissionSpec.
  Context {V : Type} (cfg : AdmissionConfig).
  Notation Room := (@Room V). Notation Waiter := (@Waiter V). Notation Event := (@Event V).
  Implicit Types (s : Room) (w : Waiter) (ts : list Waiter).

(** A task that has a ticket in a lane. *)
Definition queued w : bool := match w_phase w with Probing | Sleeping _ => true | _ => false end.

Definition in_lane (l : string) ts (i : nat) : bool :=
  match ts !! i with Some w => queued w && bool_decide (w_lane w = l) | None => false end.

(** The waiting tickets of a lane, oldest first. *)
Definition lane_view (l : string) ts : list nat := filter (λ i, in_lane l ts i = true) (seq 0 (length ts)).

Definition count_tasks (P : Waiter → bool) ts : nat := length (filter (λ w, P w = true) ts).

(** What holds of every single task. *)
Record task_ok ts (t : nat) w : Prop := {
  tk_probing : w_phase w = Probing → head (lane_view (w_lane w) ts) = Some t;
  tk_over : queued w = true → w_over_capacity w = true → w_phase w = Probing ∧ w_first_probe w = true;
  tk_sleep until : w_phase w = Sleeping until → (until <= w_started w + ac_timeout_s cfg)%Q ∧ w_first_probe w = false
}.

Record room_ok s : Prop := {
  rm_lanes l : r_lanes s !! l = if bool_decide (lane_view l (r_tasks s) = []) then None else Some (lane_view l (r_tasks s));
  rm_waiting : r_waiting s = Z.of_nat (count_tasks queued (r_tasks s));
  rm_capacity : (Z.of_nat (count_tasks (λ w, queued w && negb (w_over_capacity w)) (r_tasks s)) ≤ ac_capacity cfg)%Z;
  rm_tasks t w : r_tasks s !! t = Some w → task_ok (r_tasks s) t w
}.

(** ** Lists of tasks *)

Lemma elem_of_view l ts i : i ∈ lane_view l ts ↔ ∃ w, ts !! i = Some w ∧ queued w = true ∧ w_lane w = l.
Proof.
  unfold lane_view, in_lane. rewrite list_elem_of_filter, elem_of_seq. split.
  - intros [H _]. destruct (ts !! i) as [w |]; [| done]. reflect_bools. by exists w.
  - intros (w & Hw & Hq & Hl). rewrite Hw, Hq, bool_decide_eq_true_2 by done. split; [done |].
    apply lookup_lt_Some in Hw. lia.
Qed.

Lemma NoDup_view l ts : NoDup (lane_view l ts).
Proof. apply NoDup_filter, NoDup_seq. Qed.

Lemma view_snoc l ts w :
  lane_view l (ts ++ [w]) = lane_view l ts ++ if queued w && bool_decide (w_lane w = l) then [length ts] else [].
Proof.
  unfold lane_view. rewrite length_app, seq_app, filter_app. cbn [length Nat.add seq]. f_equal.
  - apply filter_ext_in. intros i [_ Hi]%elem_of_seq. unfold in_lane. by rewrite lookup_app_l by lia.
  - rewrite filter_cons, filter_nil. unfold in_lane. rewrite list_lookup_middle by done.
    destruct (queued w && _); [by rewrite decide_True | by rewrite decide_False].
Qed.

Lemma view_alter_same l ts t f w :
  ts !! t = Some w → queued (f w) = queued w → w_lane (f w) = w_lane w → lane_view l (alter f t ts) = lane_view l ts.
Proof.
  intros Ht Hq Hl. unfold lane_view. rewrite length_alter. apply filter_ext_in. intros i _. unfold in_lane.
  destruct (decide (i = t)) as [-> | Hne]; [| by rewrite list_lookup_alter_ne].
  rewrite list_lookup_alter_eq, Ht. cbn. by rewrite Hq, Hl.
Qed.

Lemma view_alter_out l ts t f w :
  ts !! t = Some w → queued (f w) = false → lane_view l (alter f t ts) = filter (λ i, i ≠ t) (lane_view l ts).
Proof.
  intros Ht Hq. unfold lane_view. rewrite length_alter, list_filter_filter. apply filter_ext_in. intros i _. unfold in_lane.
  destruct (decide (i = t)) as [-> | Hne]; [| rewrite list_lookup_alter_ne by done; tauto].
  rewrite list_lookup_alter_eq, Ht. cbn. rewrite Hq. naive_solver.
Qed.

Lemma count_snoc P ts w : count_tasks P (ts ++ [w]) = (count_tasks P ts + if P w then 1 else 0)%nat.
Proof.
  unfold count_tasks. rewrite filter_app, length_app. f_equal. rewrite filter_cons, filter_nil.
  destruct (P w); [by rewrite decide_True | by rewrite decide_False].
Qed.

Lemma count_alter P ts t f w :
  ts !! t = Some w → (count_tasks P (alter f t ts) + (if P w then 1 else 0) = count_tasks P ts + if P (f w) then 1 else 0)%nat.
Proof.
  unfold count_tasks. revert t; induction ts as [| x ts IH]; intros [| t] Ht; cbn in Ht; try done.
  - injection Ht as ->. change (alter f 0%nat (w :: ts)) with (f w :: ts). rewrite !filter_cons.
    destruct (P w) eqn:H1, (P (f w)) eqn:H2; repeat case_decide; try done; cbn [length]; lia.
  - change (alter f (S t) (x :: ts)) with (x :: alter f t ts). rewrite !filter_cons. specialize (IH t Ht).
    destruct (P x); repeat case_decide; try done; cbn [length]; lia.
Qed.

(** ** The invariant, with one task in motion *)

Record room_but (t : nat) s : Prop := {
  rb_lanes l : r_lanes s !! l = if bool_decide (lane_view l (r_tasks s) = []) then None else Some (lane_view l (r_tasks s));
  rb_waiting : r_waiting s = Z.of_nat (count_tasks queued (r_tasks s));
  rb_capacity : (Z.of_nat (count_tasks (λ w, queued w && negb (w_over_capacity w)) (r_tasks s)) ≤ ac_capacity cfg)%Z;
  rb_tasks t' w : t' ≠ t → r_tasks s !! t' = Some w → task_ok (r_tasks s) t' w
}.

Definition with_tasks ts s : Room := {| r_lanes := r_lanes s; r_waiting := r_waiting s; r_tasks := ts |}.

Lemma ok_but t s : room_ok s → room_but t s.
Proof. intros [H1 H2 H3 H4]. split; try done. intros t' w _. apply H4. Qed.

Lemma task_ok_view ts ts' t w :
  lane_view (w_lane w) ts' = lane_view (w_lane w) ts → task_ok ts t w → task_ok ts' t w.
Proof. intros Hv [H1 H2 H3]. split; try done. by rewrite Hv. Qed.

(** Changing a task in place, lane, ticket and allowance kept. *)
Lemma alter_but t f w s :
  room_but t s → r_tasks s !! t = Some w → queued (f w) = queued w → w_lane (f w) = w_lane w →
  w_over_capacity (f w) = w_over_capacity w → room_but t (with_tasks (alter f t (r_tasks s)) s).
Proof.
  intros [H1 H2 H3 H4] Ht Hq Hl Ho. split; cbn [with_tasks r_lanes r_waiting r_tasks].
  - intros l. by rewrite (view_alter_same l _ t f w).
  - rewrite H2. pose proof (count_alter queued _ t f w Ht) as Hc. rewrite Hq in Hc. lia.
  - pose proof (count_alter (λ w, queued w && negb (w_over_capacity w)) _ t f w Ht) as Hc. cbn in Hc. rewrite Hq, Ho in Hc. lia.
  - intros t' w' Hne Hw'. rewrite list_lookup_alter_ne in Hw' by done.
    apply (task_ok_view (r_tasks s)); [by apply (view_alter_same _ _ t f w) | by apply H4].
Qed.

(** The task comes to rest in a queued phase. *)
Lemma settle t f w s :
  room_but t s → r_tasks s !! t = Some w → queued (f w) = queued w → w_lane (f w) = w_lane w →
  w_over_capacity (f w) = w_over_capacity w → task_ok (r_tasks s) t (f w) →
  room_ok (with_tasks (alter f t (r_tasks s)) s).
Proof.
  intros Hb Ht Hq Hl Ho Hok. destruct (alter_but t f w s Hb Ht Hq Hl Ho) as [H1 H2 H3 H4]. split; try done.
  intros t' w' Hw'. destruct (decide (t' = t)) as [-> | Hne]; [| by apply H4]. cbn [with_tasks r_tasks] in Hw' |- *.
  rewrite list_lookup_alter_eq, Ht in Hw'. injection Hw' as <-.
  apply (task_ok_view (r_tasks s)); [by apply (view_alter_same _ _ t f w) | done].
Qed.

Lemma deque_remove_filter t q : NoDup q → t ∈ q → deque_remove t q = Some (filter (λ i, i ≠ t) q).
Proof.
  induction q as [| h q IH]; [by intros _ ?%elem_of_nil |]. intros [Hn Hq]%NoDup_cons Hin. cbn [deque_remove]. rewrite filter_cons.
  destruct (Nat.eqb_spec h t) as [-> | Hne].
  - rewrite decide_False by tauto. f_equal. symmetry. apply filter_all. intros i Hi ->. done.
  - rewrite decide_True by done. apply elem_of_cons in Hin as [-> | Hin]; [done |]. by rewrite IH.
Qed.

(** The task leaves its lane. *)
Lemma finish_ok t p w s :
  room_but t s → r_tasks s !! t = Some w → queued w = true → queued (in_phase p w) = false →
  room_ok (finish (w_lane w) t p s).
Proof.
  intros [H1 H2 H3 H4] Ht Hq Hp. assert (Hin : t ∈ lane_view (w_lane w) (r_tasks s)) by (apply elem_of_view; by exists w).
  unfold finish, remove. rewrite H1.
  rewrite bool_decide_eq_false_2 by (intros Hn; rewrite Hn in Hin; by apply elem_of_nil in Hin).
  rewrite deque_remove_filter by (done || apply NoDup_view). unfold set_phase. cbn [r_lanes r_waiting r_tasks].
  set (ts' := alter (in_phase p) t (r_tasks s)).
  assert (Hv : ∀ l, lane_view l ts' = filter (λ i, i ≠ t) (lane_view l (r_tasks s))) by (intros l; by apply (view_alter_out l _ t _ w)).
  assert (Hother : ∀ l, l ≠ w_lane w → filter (λ i, i ≠ t) (lane_view l (r_tasks s)) = lane_view l (r_tasks s)).
  { intros l Hl. apply filter_all. intros i Hi ->. apply elem_of_view in Hi as (w' & Hw' & _ & Hl'). congruence. }
  split; cbn [r_lanes r_waiting r_tasks].
  - intros l. rewrite Hv. destruct (decide (l = w_lane w)) as [-> | Hl].
    + destruct (filter _ (lane_view (w_lane w) (r_tasks s))) eqn:Hf.
      * by rewrite lookup_delete_eq, bool_decide_eq_true_2.
      * by rewrite lookup_insert_eq, bool_decide_eq_false_2.
    + rewrite (Hother l Hl). destruct (filter _ (lane_view (w_lane w) (r_tasks s))).
      * rewrite lookup_delete_ne by done. apply H1.
      * rewrite lookup_insert_ne by done. apply H1.
  - pose proof (count_alter queued _ t (in_phase p) w Ht) as Hc. rewrite Hq, Hp in Hc. unfold ts'. lia.
  - pose proof (count_alter (λ w, queued w && negb (w_over_capacity w)) _ t (in_phase p) w Ht) as Hc. cbn in Hc.
    rewrite Hp in Hc. unfold ts'. cbn in Hc. lia.
  - intros t' w' Hw'. unfold ts' in Hw'. destruct (decide (t' = t)) as [-> | Hne].
    + rewrite list_lookup_alter_eq, Ht in Hw'. injection Hw' as <-. unfold queued in Hp. split; cbn in *.
      * by intros ->.
      * unfold queued. cbn. congruence.
      * by intros u ->.
    + rewrite list_lookup_alter_ne in Hw' by done. destruct (H4 t' w' Hne Hw') as [A1 A2 A3]. split; try done.
      intros Hph. rewrite Hv. apply head_filter_keep; [by apply A1 | done].
Qed.

(** ** The loop *)

Lemma loop_tail_ok t w now s :
  room_but t s → r_tasks s !! t = Some w → queued w = true → (w_over_capacity w = true → w_first_probe w = true) →
  room_ok (loop_tail cfg t w now (now - w_started w) (ac_timeout_s cfg - (now - w_started w)) s).
Proof.
  intros Hb Ht Hq Ho. unfold loop_tail. destruct (w_first_probe w && w_over_capacity w) eqn:Hf; [by apply finish_ok |].
  assert (Hover : w_over_capacity w = false).
  { destruct (w_over_capacity w); [| done]. rewrite Ho in Hf by done. done. }
  set (f := λ w : Waiter, {| w_lane := w_lane w; w_started := w_started w; w_over_capacity := w_over_capacity w;
                             w_first_probe := false; w_phase := w_phase w |}).
  change (clear_first t s) with (with_tasks (alter f t (r_tasks s)) s).
  pose proof (alter_but t f w s Hb Ht eq_refl eq_refl eq_refl) as Hb'.
  assert (Ht' : r_tasks (with_tasks (alter f t (r_tasks s)) s) !! t = Some (f w)) by (cbn; by rewrite list_lookup_alter_eq, Ht).
  destruct (_ <=?q 0) eqn:Hr; [by apply (finish_ok t _ (f w)) |].
  unfold set_phase. eapply (settle t _ (f w)); try done. split; cbn.
  - done.
  - by rewrite Hover.
  - intros u [= <-]. split; [| done]. apply Qle_bool_false in Hr. unfold py_min2. destruct (_ <?q _) eqn:Hm; reflect_bools; lra.
Qed.

Lemma loop_top_ok t w now s :
  room_but t s → r_tasks s !! t = Some w → queued w = true →
  (w_over_capacity w = true → w_first_probe w = true ∧ head (lane_view (w_lane w) (r_tasks s)) = Some t) →
  room_ok (loop_top cfg t w now s).
Proof.
  intros Hb Ht Hq Ho. unfold loop_top.
  assert (Hhead : is_head (w_lane w) t s = true ↔ head (lane_view (w_lane w) (r_tasks s)) = Some t).
  { unfold is_head. rewrite (rb_lanes _ _ Hb). destruct (lane_view (w_lane w) (r_tasks s)) as [| h q]; cbn; [by split |].
    rewrite Nat.eqb_eq. split; congruence. }
  destruct ((_ || _) && _) eqn:Hc.
  - apply andb_true_iff in Hc as [_ Hc]. apply Hhead in Hc. eapply (settle t _ w); try done. split; cbn.
    + by intros _.
    + intros _ H. split; [done | by apply Ho].
    + done.
  - apply loop_tail_ok; try done. intros H. by apply Ho.
Qed.

Lemma count_le (P Q : Waiter → bool) ts : (∀ w, P w = true → Q w = true) → (count_tasks P ts ≤ count_tasks Q ts)%nat.
Proof.
  intros HPQ. unfold count_tasks. induction ts as [| w ts IH]; [done |]. rewrite !filter_cons. specialize (HPQ w).
  destruct (P w), (Q w); repeat case_decide; try done; cbn [length]; try lia.
Qed.

(** A task that never had a ticket, or lost it, at the end of the list. *)
Lemma snoc_ok w s : room_ok s → queued w = false → room_ok (with_tasks (r_tasks s ++ [w]) s).
Proof.
  intros [H1 H2 H3 H4] Hq. assert (Hv : ∀ l, lane_view l (r_tasks s ++ [w]) = lane_view l (r_tasks s))
    by (intros l; by rewrite view_snoc, Hq, app_nil_r).
  split; cbn [with_tasks r_lanes r_waiting r_tasks].
  - intros l. by rewrite Hv.
  - rewrite count_snoc, Hq. lia.
  - rewrite count_snoc, Hq. cbn. lia.
  - intros t w' [Hw' | [Hle Hw']]%lookup_app_Some.
    + apply (task_ok_view (r_tasks s)); [apply Hv | by apply H4].
    + apply list_lookup_singleton_Some in Hw' as [_ <-]. unfold queued in Hq. split.
      * intros Hp. by rewrite Hp in Hq.
      * unfold queued. congruence.
      * intros u Hp. by rewrite Hp in Hq.
Qed.

Lemma enter_ok lane now s : room_ok s → (0 < ac_capacity cfg)%Z → room_ok (enter cfg lane now s).
Proof.
  intros Hok Hcap. unfold enter. destruct (Qeq_bool _ 0); [by apply snoc_ok |].
  destruct (negb _ && _) eqn:Hover; [by apply snoc_ok |].
  set (w := {| w_lane := lane; w_started := now; w_over_capacity := (ac_capacity cfg <=? r_waiting s)%Z;
               w_first_probe := true; w_phase := Probing |}).
  pose proof Hok as [H1 H2 H3 H4]. set (t := length (r_tasks s)).
  assert (Hq : default [] (r_lanes s !! lane) = lane_view lane (r_tasks s)).
  { clear Hover. rewrite H1. case_bool_decide as Hn; cbn; [by rewrite Hn | done]. }
  assert (Hv : ∀ l, lane_view l (r_tasks s ++ [w]) = lane_view l (r_tasks s) ++ if bool_decide (lane = l) then [t] else [])
    by (intros l; apply view_snoc).
  assert (Hw : (r_tasks s ++ [w]) !! t = Some w) by (by apply list_lookup_middle).
  rewrite Hq in Hover |- *. apply loop_top_ok; [| exact Hw | done |].
  - split; cbn [r_lanes r_waiting r_tasks].
    + intros l. rewrite Hv. destruct (decide (l = lane)) as [-> | Hne].
      * rewrite lookup_insert_eq, (bool_decide_eq_true_2 (lane = lane)) by done.
        rewrite bool_decide_eq_false_2; [done |]. intros Hn%app_eq_nil. by destruct Hn.
      * rewrite lookup_insert_ne by done. rewrite (bool_decide_eq_false_2 (lane = l)) by congruence. rewrite app_nil_r. apply H1.
    + rewrite count_snoc. cbn [queued w_phase w]. lia.
    + rewrite count_snoc. cbn. destruct (Z.leb_spec (ac_capacity cfg) (r_waiting s)) as [Hle | Hlt]; cbn; [lia |].
      pose proof (count_le (λ w, queued w && negb (w_over_capacity w)) queued (r_tasks s)) as Hc.
      specialize (Hc ltac:(intros x Hx; by apply andb_true_iff in Hx as [? _])). lia.
    + intros t' w' Hne [Hw' | [Hle Hw']]%lookup_app_Some.
      * destruct (H4 t' w' Hw') as [A1 A2 A3]. split; try done. intros Hp. rewrite Hv.
        specialize (A1 Hp). by destruct (lane_view (w_lane w') (r_tasks s)).
      * apply list_lookup_singleton_Some in Hw' as [Hw' _]. unfold t in Hne. lia.
  - intros Hfull. change ((ac_capacity cfg <=? r_waiting s)%Z = true) in Hfull. split; [done |].
    change (head (lane_view lane (r_tasks s ++ [w])) = Some t). rewrite Hv, (bool_decide_eq_true_2 (lane = lane)) by done.
    apply andb_false_iff in Hover as [Hn | Hn]; [| congruence]. apply negb_false_iff, bool_decide_eq_true in Hn. by rewrite Hn.
Qed.

(** A task without a ticket may change as it likes. *)
Lemma unqueued_ok t p w s :
  room_ok s → r_tasks s !! t = Some w → queued w = false → queued (in_phase p w) = false → room_ok (set_phase t p s).
Proof.
  intros Hok Ht Hq Hp. apply (settle t (in_phase p) w); [by apply ok_but | done | congruence | done | done |].
  unfold queued in Hp. split; cbn in *.
  - by intros ->.
  - unfold queued. cbn. congruence.
  - by intros u ->.
Qed.

Lemma room_step_ok e s : (0 < ac_capacity cfg)%Z → room_ok s → room_ok (room_step cfg s e).
Proof.
  intros Hcap Hok. destruct e as [lane now | t v now | t now | t c now]; cbn [room_step]; [by apply enter_ok | | |].
  - unfold probe_done. destruct (r_tasks s !! t) as [w |] eqn:Ht; [| done]. pose proof (rm_tasks _ Hok t w Ht) as [A1 A2 A3].
    destruct (w_phase w) eqn:Hp; try done; [apply (unqueued_ok t _ w); [done | done | unfold queued; by rewrite Hp | done] |].
    assert (Hq : queued w = true) by (unfold queued; by rewrite Hp). pose proof (ok_but t s Hok) as Hb.
    destruct (_ <=?q 0); [by apply finish_ok |]. destruct v as [v |]; [by apply finish_ok |].
    apply loop_tail_ok; try done. intros Ho. by apply A2.
  - unfold wake. destruct (r_tasks s !! t) as [w |] eqn:Ht; [| done]. pose proof (rm_tasks _ Hok t w Ht) as [A1 A2 A3].
    destruct (w_phase w) eqn:Hp; try done. assert (Hq : queued w = true) by (unfold queued; by rewrite Hp).
    apply loop_top_ok; [by apply ok_but | done | done |]. intros Ho. by destruct (A2 Hq Ho) as [[=] _].
  - unfold interrupt. destruct (r_tasks s !! t) as [w |] eqn:Ht; [| done].
    destruct (w_phase w) eqn:Hp; try done.
    + apply (unqueued_ok t _ w); [done | done | unfold queued; by rewrite Hp | done].
    + apply finish_ok; [by apply ok_but | done | unfold queued; by rewrite Hp | done].
    + destruct c; [| done]. apply finish_ok; [by apply ok_but | done | unfold queued; by rewrite Hp | done].
Qed.

Lemma room_run_ok es : (0 < ac_capacity cfg)%Z → room_ok (room_run cfg es).
Proof.
  intros Hcap. unfold room_run. assert (Hstart : room_ok (@empty_room V)).
  { split; cbn; try done; lia. }
  revert Hstart. generalize (@empty_room V). induction es as [| e es IH]; intros s Hs; [done |].
  cbn. by apply IH, room_step_ok.
Qed.

(** In every interleaving the lanes are exactly the waiting tickets in the
    order of arrival and the counter is their number; beyond the capacity there
    is at most one newcomer per lane, which is probing and never sleeps, so no
    more tasks than the capacity ever sleep. *)
Theorem admission_invariant es :
  (0 < ac_capacity cfg)%Z →
  let s := room_run cfg es in
  (∀ l, default [] (r_lanes s !! l) = lane_view l (r_tasks s)) ∧
  r_waiting s = Z.of_nat (count_tasks queued (r_tasks s)) ∧
  (Z.of_nat (count_tasks (λ w, queued w && negb (w_over_capacity w)) (r_tasks s)) ≤ ac_capacity cfg)%Z ∧
  (∀ t w, r_tasks s !! t = Some w → queued w = true → w_over_capacity w = true →
     w_phase w = Probing ∧ head (lane_view (w_lane w) (r_tasks s)) = Some t).
Proof.
  intros Hcap s. destruct (room_run_ok es Hcap) as [H1 H2 H3 H4]. fold s in H1, H2, H3, H4. split_and!; try done.
  - intros l. rewrite H1. case_bool_decide as Hn; cbn; [by rewrite Hn | done].
  - intros t w Ht Hq Ho. destruct (H4 t w Ht) as [A1 A2 _]. destruct (A2 Hq Ho) as [Hp _]. split; [done | by apply A1].
Qed.

Lemma head_filter_seq (P : nat → Prop) `{!∀ i, Decision (P i)} a n t i :
  head (filter P (seq a n)) = Some t → (a ≤ i < t)%nat → ¬ P i.
Proof.
  revert a; induction n as [| n IH]; intros a Hh Hi; [done |]. cbn [seq] in Hh. rewrite filter_cons in Hh.
  destruct (decide (P a)) as [Ha | Ha].
  - injection Hh as ->. lia.
  - destruct (decide (i = a)) as [-> | Hne]; [done |]. apply (IH (S a) Hh). lia.
Qed.

(** Nothing but the end of a probe admits a task. *)
Definition admits_nobody s s' : Prop :=
  ∀ t w' v ms, r_tasks s' !! t = Some w' → w_phase w' = Result ADMITTED v ms →
    ∃ w, r_tasks s !! t = Some w ∧ w_phase w = Result ADMITTED v ms ∧ w_lane w = w_lane w'.

Lemma admits_nobody_refl s s' : r_tasks s' = r_tasks s → admits_nobody s s'.
Proof. intros Heq t w' v ms Ht Hp. rewrite Heq in Ht. by exists w'. Qed.

Lemma admits_nobody_trans s1 s2 s3 : admits_nobody s1 s2 → admits_nobody s2 s3 → admits_nobody s1 s3.
Proof.
  intros H1 H2 t w' v ms Ht Hp. destruct (H2 t w' v ms Ht Hp) as (w2 & Ht2 & Hp2 & Hl2).
  destruct (H1 t w2 v ms Ht2 Hp2) as (w1 & ? & ? & ?). exists w1. split_and!; [done | done | congruence].
Qed.

Lemma alter_admits_nobody t f s s' :
  r_tasks s' = alter f t (r_tasks s) →
  (∀ w v ms, w_phase (f w) = Result ADMITTED v ms → w_phase w = Result ADMITTED v ms ∧ w_lane w = w_lane (f w)) →
  admits_nobody s s'.
Proof.
  intros Heq Hf t' w' v ms Ht Hp. rewrite Heq in Ht. destruct (decide (t' = t)) as [-> | Hne].
  - rewrite list_lookup_alter_eq in Ht. apply fmap_Some in Ht as (w & Hw & ->). exists w. split; [done | by apply Hf].
  - rewrite list_lookup_alter_ne in Ht by done. by exists w'.
Qed.

Lemma set_phase_admits_nobody t p s : (∀ v ms, p ≠ Result ADMITTED v ms) → admits_nobody s (set_phase t p s).
Proof. intros Hp. apply (alter_admits_nobody t (in_phase p)); [done |]. intros w v ms H. by destruct (Hp v ms). Qed.

Lemma remove_tasks lane t s : r_tasks (remove lane t s) = r_tasks s.
Proof. unfold remove. by repeat case_match. Qed.

Lemma finish_admits_nobody lane t p s : (∀ v ms, p ≠ Result ADMITTED v ms) → admits_nobody s (finish lane t p s).
Proof.
  intros Hp. eapply admits_nobody_trans; [apply admits_nobody_refl, (remove_tasks lane t) | by apply set_phase_admits_nobody].
Qed.

Lemma loop_tail_admits_nobody t w now el rem s : admits_nobody s (loop_tail cfg t w now el rem s).
Proof.
  unfold loop_tail. destruct (_ && _); [by apply finish_admits_nobody |].
  eapply (admits_nobody_trans _ (clear_first t s)); [by eapply alter_admits_nobody |].
  destruct (_ <=?q _); [by apply finish_admits_nobody | by apply set_phase_admits_nobody].
Qed.

Lemma loop_top_admits_nobody t w now s : admits_nobody s (loop_top cfg t w now s).
Proof. unfold loop_top. destruct (_ && _); [by apply set_phase_admits_nobody | apply loop_tail_admits_nobody]. Qed.

Lemma snoc_admits_nobody s s' w :
  r_tasks s' = r_tasks s ++ [w] → (∀ v ms, w_phase w ≠ Result ADMITTED v ms) → admits_nobody s s'.
Proof.
  intros Heq Hw t w' v ms Ht Hp. rewrite Heq in Ht. apply lookup_app_Some in Ht as [Ht | [_ Ht]]; [by exists w' |].
  apply list_lookup_singleton_Some in Ht as [_ <-]. by destruct (Hw v ms).
Qed.

Lemma enter_admits_nobody lane now s : admits_nobody s (enter cfg lane now s).
Proof.
  unfold enter. destruct (Qeq_bool _ _); [by eapply snoc_admits_nobody |]. destruct (_ && _); [by eapply snoc_admits_nobody |].
  eapply admits_nobody_trans; [| apply loop_top_admits_nobody]. by eapply snoc_admits_nobody.
Qed.

(** C32: newer requests never overtake older ones.  Whenever a task is admitted,
    by whatever happens next in whatever interleaving, it was probing, and no
    task that joined its lane before it is still waiting there; without a timeout
    there are no lanes, and the task was in its only probe. *)
Theorem admission_fifo es e t v ms w' :
  (0 < ac_capacity cfg)%Z →
  let s := room_run cfg es in
  r_tasks (room_step cfg s e) !! t = Some w' → w_phase w' = Result ADMITTED v ms →
  ∃ w, r_tasks s !! t = Some w ∧
    (w_phase w = Result ADMITTED v ms ∨ w_phase w = Immediate ∨
     (w_phase w = Probing ∧
      ∀ t' x, (t' < t)%nat → r_tasks s !! t' = Some x → w_lane x = w_lane w → queued x = false)).
Proof.
  intros Hcap s Ht Hp. pose proof (room_run_ok es Hcap) as Hok. fold s in Hok.
  assert (Hkeep : admits_nobody s (room_step cfg s e) → ∃ w, r_tasks s !! t = Some w ∧ w_phase w = Result ADMITTED v ms)
    by (intros Hn; destruct (Hn t w' v ms Ht Hp) as (w & ? & ? & _); by exists w).
  assert (Hdone : admits_nobody s (room_step cfg s e) → ∃ w, r_tasks s !! t = Some w ∧
    (w_phase w = Result ADMITTED v ms ∨ w_phase w = Immediate ∨ (w_phase w = Probing ∧
      ∀ t' x, (t' < t)%nat → r_tasks s !! t' = Some x → w_lane x = w_lane w → queued x = false)))
    by (intros (w & ? & ?)%Hkeep; exists w; split; [done | by left]).
  destruct e as [lane now | t0 value now | t0 now | t0 c now]; cbn [room_step] in *.
  - apply Hdone, enter_admits_nobody.
  - destruct (decide (t = t0)) as [-> | Hne].
    + destruct (r_tasks s !! t0) as [w |] eqn:Hw; [| unfold probe_done in Ht; rewrite Hw in Ht; congruence].
      exists w. split; [done |]. pose proof (rm_tasks _ Hok t0 w Hw) as [A1 _ _].
      destruct (w_phase w) as [| | u | st x y | o] eqn:Hph; [by right; left | right; right; split; [done |] | | |];
        [| unfold probe_done in Ht; rewrite Hw, Hph in Ht; rewrite Hw in Ht; left; congruence ..].
      intros t' x Hlt Hx Hl. specialize (A1 eq_refl). unfold lane_view in A1.
      pose proof (head_filter_seq _ _ _ _ t' A1 ltac:(lia)) as Hno. cbv beta in Hno. unfold in_lane in Hno. rewrite Hx, Hl, bool_decide_eq_true_2, andb_true_r in Hno by done. by destruct (queued x).
    + assert (Hsame : r_tasks (probe_done cfg t0 value now s) !! t = r_tasks s !! t).
      { unfold probe_done. destruct (r_tasks s !! t0) as [w |]; [| done]. unfold finish, loop_tail, finish, set_phase, clear_first.
        repeat (case_match; cbn [r_tasks]; rewrite ?remove_tasks); cbn [r_tasks];
          by rewrite ?list_lookup_alter_ne by done. }
      rewrite Hsame in Ht. exists w'. split; [done | by left].
  - apply Hdone. unfold wake. repeat case_match; try by apply admits_nobody_refl. apply loop_top_admits_nobody.
  - apply Hdone. unfold interrupt. repeat case_match; try (by apply admits_nobody_refl); try (by apply finish_admits_nobody).
    by apply set_phase_admits_nobody.
Qed.

(** Nobody waits past the timeout.  A sleeping task is due to wake by its
    deadline, and waking at or after the deadline, or returning from a probe
    then, ends its wait. *)
Theorem admission_wait_bounded es t w now :
  (0 < ac_capacity cfg)%Z →
  let s := room_run cfg es in
  r_tasks s !! t = Some w → (w_started w + ac_timeout_s cfg <= now)%Q →
  (∀ u, w_phase w = Sleeping u →
     (u <= w_started w + ac_timeout_s cfg)%Q ∧
     ∃ ms, w_phase <$> r_tasks (wake cfg t now s) !! t = Some (Result TIMEOUT None ms)) ∧
  (∀ value, w_phase w = Probing →
     ∃ ms, w_phase <$> r_tasks (probe_done cfg t value now s) !! t = Some (Result TIMEOUT None ms)).
Proof.
  intros Hcap s Ht Hdl. pose proof (rm_tasks _ (room_run_ok es Hcap) t w Ht) as [A1 A2 A3].
  assert (Hrem : (ac_timeout_s cfg - (now - w_started w) <=?q 0) = true) by (apply Qle_bool_true; lra).
  assert (Hfin : ∀ s' p, r_tasks s' !! t ≠ None → w_phase <$> r_tasks (finish (w_lane w) t p s') !! t = Some p).
  { intros s' p Hs'. unfold finish, set_phase. cbn. rewrite remove_tasks, list_lookup_alter_eq. by destruct (r_tasks s' !! t). }
  split.
  - intros u Hu. destruct (A3 u Hu) as [Hle Hfirst]. split; [done |]. unfold wake. rewrite Ht, Hu. unfold loop_top. rewrite Hfirst.
    assert (Hlt : (0 <?q ac_timeout_s cfg - (now - w_started w)) = false) by (apply Qlt_bool_false; apply Qle_bool_true in Hrem; exact Hrem).
    rewrite Hlt. cbn [orb andb]. unfold loop_tail. rewrite Hfirst, Hrem. cbn [andb]. eexists. apply Hfin.
    cbn. rewrite list_lookup_alter_eq, Ht. done.
  - intros value Hp. unfold probe_done. rewrite Ht, Hp, Hrem. eexists. apply Hfin. by rewrite Ht.
Qed.
End AdmissionSpec.

(** ** A concrete room *)

Definition small_room : AdmissionConfig := {| ac_capacity := 2; ac_timeout_s := 10; ac_poll_s := 1 |}.

(** Two requests for one model wait; a third finds the room full. *)
Definition two_waiting : list (@Event nat) :=
  [Enter "m" 0; ProbeDone 0 None 0; Enter "m" 1; Enter "m" 2].

Lemma admission_invariant_witness :
  default [] (r_lanes (room_run small_room two_waiting) !! "m") = [0%nat; 1%nat] ∧
  r_waiting (room_run small_room two_waiting) = 2%Z.
Proof.
  destruct (admission_invariant small_room two_waiting) as (H1 & H2 & _); [reflexivity |].
  split; [rewrite H1; vm_compute; reflexivity | rewrite H2; vm_compute; reflexivity].
Defined.

Lemma admission_fifo_witness :
  let s := room_run small_room (two_waiting ++ [Wake 0 3]) in
  ∃ w, r_tasks s !! 0%nat = Some w ∧ w_phase w = Probing.
Proof.
  intros s.
  destruct (admission_fifo small_room (two_waiting ++ [Wake 0 3]) (ProbeDone 0 (Some 7%nat) 3) 0 (Some 7%nat) 3000
    {| w_lane := "m"; w_started := 0; w_over_capacity := false; w_first_probe := false;
       w_phase := Result ADMITTED (Some 7%nat) 3000 |}) as (w & Hw & Hor).
  - reflexivity.
  - vm_compute. reflexivity.
  - reflexivity.
  - exists w. split; [exact Hw |]. clear Hor. vm_compute in Hw. injection Hw as <-. reflexivity.
Defined.

Lemma admission_wait_bounded_witness :
  ∃ ms, w_phase <$> r_tasks (wake small_room 1 11 (room_run small_room two_waiting)) !! 1%nat = Some (Result TIMEOUT None ms).
Proof.
  refine (proj2 (proj1 (admission_wait_bounded small_room two_waiting 1
    {| w_lane := "m"; w_started := 1; w_over_capacity := false; w_first_probe := false; w_phase := Sleeping (1 + 1) |} 11 _ _ _) (1 + 1)%Q _)).
  - reflexivity.
  - vm_compute. reflexivity.
  - vm_compute. discriminate.
  - reflexivity.
Defined.
