(* ===== verification/GatewayService.v ===== *)
(** * The gateway service

    Models src/packages/fallow-coordinator/src/fallow_coordinator/gateway/
    service.py ([GatewayService]), router.py ([_proxy] and the handlers),
    streaming.py, logentry.py and errors.py.  A request runs in stretches between
    awaits: [begin_request] up to the waiting room, [resolve_route] for a probe,
    [after_admission] with what the waiting room answered, [after_acquire] with
    what the transport answered, [stream_body] for a streamed answer.  The body
    that is forwarded is the client's bytes, or the JSON text of the rewritten
    body.  Other tasks may change the registry between the stretches, and between the
    two reads of [begin_request]. *)

From stdpp Require Import pretty.
From S2P Require Export HttpAuth Gateway GatewayBody Admission.
From S2P Require Export GatewayBodySpec.
From S2P Require Import RegistrySpec GatewaySpec.

Definition TYPE_INVALID_REQUEST : string := "invalid_request_error".
Definition TYPE_MODEL_NOT_FOUND : string := "model_not_found".
Definition TYPE_NO_REPLICA : string := "no_replica_available".
Definition TYPE_RATE_LIMIT : string := "rate_limit_error".
Definition TYPE_UPSTREAM : string := "upstream_error".
Definition UPSTREAM_MESSAGE : string := "the upstream model server failed to serve the request".

Inductive LogStatus := SERVED | SHED | ERROR | CANCELLED.

Record GatewayLogEntry := {
  gl_client_key_name : string; gl_model_id : model_id; gl_agent_id : option agent_id; gl_t_submit : instant;
  gl_t_first_byte : option instant; gl_t_done : instant; gl_status : LogStatus; gl_retried : bool;
  gl_prompt_chars : option Z; gl_waited_ms : Z; gl_affinity : AffinityState; gl_rag_k : option Z;
  gl_eligibility : option Eligibility
}.

(** What the client is sent.  A stream carries the slot it holds and the log
    entry it writes when it is over. *)
Inductive Reply :=
  | ErrorReply (status : Z) (error_type message : string) (retry_after : option Z)
  | ModelsReply (ids : list model_id)
  | BufferedReply (p : PassThrough)
  | StreamingReply (h : StreamHandle) (relayed : bool) (slot : nat) (finalize : instant → GatewayLogEntry).

Definition openai_error (status : Z) (error_type message : string) : Reply := ErrorReply status error_type message None.

Definition sanitized_upstream_error : Reply := openai_error 502 TYPE_UPSTREAM UPSTREAM_MESSAGE.

Definition allows (key : ApiKeyInfo) (model : model_id) : bool :=
  match ki_model_allowlist key with None => true | Some l => bool_decide (model ∈ l) end.

(** ** Up to the waiting room *)

Record Inbound := {
  in_authorization : option string; in_method : string; in_path : string; in_body : bytes; in_json : option Json;
  in_session : option string; in_content_type : option string
}.

Inductive ForwardBody :=
  | Verbatim (b : bytes)
  | Rewritten (data : JBody).

Record RouteRequest := {
  rq_key : ApiKeyInfo; rq_model : model_id; rq_parsed : ParsedBody; rq_submitted : instant;
  rq_session_key : option string; rq_body : ForwardBody; rq_eligibility : option Eligibility
}.

Section Service.
  Context (sha256 : bytes → bytes) (config : RegistryConfig)
    (retriever : option (ApiKeyInfo → string → string → Z → RagError + list string)) (telemetry : bool).

Definition authenticate (authorization : option string) (d : RDb) : option ApiKeyInfo :=
  token ← extract_bearer authorization; authenticate_api_key sha256 config token d.

Definition consume_quota (key : ApiKeyInfo) (now : instant) (quotas : option (odict KeyState))
    : option (odict KeyState) * option Z :=
  match quotas with
  | None => (None, None)
  | Some states => let '(states', r) := consume key now states in (Some states', r)
  end.

Definition unauthorized : Reply := openai_error 401 TYPE_INVALID_REQUEST "missing or invalid api key".

Definition rate_limited (retry_after_s : Z) : Reply :=
  ErrorReply 429 TYPE_RATE_LIMIT "api key request quota exceeded" (Some retry_after_s).

Definition rag_error (e : RagError) : Reply :=
  match e with
  | RagInvalid status message => openai_error status TYPE_INVALID_REQUEST message
  | RagUpstream status error_type message => openai_error status error_type message
  end.

(** The two ranges checked, as they are printed. *)
Definition range_text (field : string) : string :=
  if bool_decide (field = "temperature") then "[0.0, 2.0]" else "[0.0, 1.0]".

Definition body_error (e : BodyError) : Reply :=
  openai_error 400 TYPE_INVALID_REQUEST
    match e with
    | MessagesNotList => "'messages' must be a non-empty list"
    | MessageShape => "each item in 'messages' must have 'role' and 'content'"
    | NotOne => "'n' must be 1 — only one completion choice is supported"
    | NotMinInt field minimum => "'" +:+ field +:+ "' must be an integer >= " +:+ pretty minimum
    | NotNumber field => "'" +:+ field +:+ "' must be a number in " +:+ range_text field
    | OutOfRange field => "'" +:+ field +:+ "' must be in " +:+ range_text field
    end.

(** [GatewayService.proxy] up to [_route] *)
Definition service_proxy (r : Inbound) (key : ApiKeyInfo) (bearer : string) (now : instant) (d : RDb) : Reply + RouteRequest :=
  match json_object (in_json r) with
  | None => inl (openai_error 400 TYPE_INVALID_REQUEST "request body must be JSON with a 'model' field")
  | Some data =>
      match od_get "model" data with
      | Some (JStr model) =>
          let parsed := parsed_body data in
          if negb (allows key model)
          then inl (openai_error 403 TYPE_INVALID_REQUEST ("api key not permitted to use model '" +:+ model +:+ "'"))
          else if negb (bool_decide (model ∈ mm_model_id <$> list_models d))
          then inl (openai_error 404 TYPE_MODEL_NOT_FOUND ("model '" +:+ model +:+ "' does not exist"))
          else
            match validate_chat_body (in_path r) data with
            | Some e => inl (body_error e)
            | None =>
                let route body classified rag_k :=
                  let parsed := {| pb_model := pb_model parsed; pb_stream := pb_stream parsed;
                                   pb_prompt_chars := pb_prompt_chars parsed;
                                   pb_first_user_message := pb_first_user_message parsed; pb_rag_k := rag_k |} in
                  {| rq_key := key; rq_model := model; rq_parsed := parsed; rq_submitted := now;
                     rq_session_key := derive_session_key sha256 model (in_session r) bearer parsed; rq_body := body;
                     rq_eligibility := if telemetry then Some (classify_eligibility classified) else None |} in
                if bool_decide (in_path r = CHAT_COMPLETIONS_PATH) then
                  match apply_rag data ((λ f, f key) <$> retriever) with
                  | inl e => inl (rag_error e)
                  | inr None => inr (route (Verbatim (in_body r)) data None)
                  | inr (Some res) => inr (route (Rewritten (rg_body res)) (rg_body res) (Some (rg_k res)))
                  end
                else inr (route (Verbatim (in_body r)) data None)
            end
      | _ => inl (openai_error 400 TYPE_INVALID_REQUEST "request body must be JSON with a 'model' field")
      end
  end.

(** [_proxy] of router.py: the key is looked up in [d] and charged at [now]; the
    models are read from [d'] at [now'], after the body has arrived. *)
Definition begin_request (r : Inbound) (now now' : instant) (d d' : RDb) (quotas : option (odict KeyState))
    : option (odict KeyState) * (Reply + RouteRequest) :=
  match authenticate (in_authorization r) d with
  | None => (quotas, inl unauthorized)
  | Some key =>
      match consume_quota key now quotas with
      | (quotas', Some n) => (quotas', inl (rate_limited n))
      | (quotas', None) => (quotas', service_proxy r key (default "" (extract_bearer (in_authorization r))) now' d')
      end
  end.

(** [GET /v1/models] *)
Definition models_request (authorization : option string) (now : instant) (d : RDb) (quotas : option (odict KeyState))
    : option (odict KeyState) * Reply :=
  match authenticate authorization d with
  | None => (quotas, unauthorized)
  | Some key =>
      match consume_quota key now quotas with
      | (quotas', Some n) => (quotas', rate_limited n)
      | (quotas', None) => (quotas', ModelsReply (filter (λ m, allows key m = true) (mm_model_id <$> list_models d)))
      end
  end.
End Service.

(** ** Routing *)

Record RouteChoice := { rc_endpoint : ReplicaEndpoint; rc_candidates : list ReplicaEndpoint; rc_affinity : AffinityState }.

Definition enrich (t : Tracker) (endpoints : list ReplicaEndpoint) : list ReplicaEndpoint :=
  (λ e, {| re_agent_id := re_agent_id e; re_host := re_host e; re_port := re_port e; re_model_id := re_model_id e;
           re_inflight := Z.max (re_inflight e) (count_of (re_host e, re_port e) t) |}) <$> endpoints.

(** [_resolve], which is the probe of the waiting room *)
Definition resolve_route (config : RegistryConfig) (cfg : AffinityConfig) (pick : list ReplicaEndpoint → option ReplicaEndpoint)
    (model : model_id) (session : option string) (now : instant) (d : RDb) (t : Tracker) (m : odict Entry)
    : odict Entry * (option RouteChoice * AffinityState) :=
  let enriched := enrich t (replica_endpoints config model now d) in
  let '(m', (endpoint, st)) := resolve cfg session enriched pick true now m in
  (m', (match endpoint with
        | None => None
        | Some e => Some {| rc_endpoint := e; rc_candidates := enriched; rc_affinity := st |}
        end, st)).

(** [_record] *)
Definition log_entry (q : RouteRequest) (agent : option agent_id) (status : LogStatus) (t_first : option instant)
    (retried : bool) (waited_ms : Z) (affinity : AffinityState) (now : instant) : GatewayLogEntry := {|
  gl_client_key_name := ki_name (rq_key q); gl_model_id := rq_model q; gl_agent_id := agent;
  gl_t_submit := rq_submitted q; gl_t_first_byte := t_first; gl_t_done := now; gl_status := status;
  gl_retried := retried; gl_prompt_chars := pb_prompt_chars (rq_parsed q); gl_waited_ms := waited_ms;
  gl_affinity := affinity; gl_rag_k := pb_rag_k (rq_parsed q); gl_eligibility := rq_eligibility q |}.

Inductive Admission_outcome :=
  | AdmissionCancelled (waited_ms : Z)
  | AdmissionResult (status : AdmissionStatus) (value : option RouteChoice) (waited_ms : Z).

(** What a stretch leaves behind: the affinity map, the log entries written, and
    either the end of the request ([None] when it raised) or how it goes on. *)
Record Stretch (A : Type) := { st_affinity : odict Entry; st_logged : list GatewayLogEntry; st_next : option (Reply + A) }.
Arguments st_affinity {A}. Arguments st_logged {A}. Arguments st_next {A}.

(** [_route] from the answer of the waiting room to the transport *)
Definition after_admission (q : RouteRequest) (o : Admission_outcome) (affinity : AffinityState) (now : instant)
    (m : odict Entry) : Stretch (RouteChoice * Z) :=
  match o with
  | AdmissionCancelled waited =>
      {| st_affinity := m; st_logged := [log_entry q None CANCELLED None false waited affinity now]; st_next := None |}
  | AdmissionResult status (Some choice) waited =>
      {| st_affinity := m; st_logged := []; st_next := Some (inr (choice, waited)) |}
  | AdmissionResult status None waited =>
      {| st_affinity := match rq_session_key q, status with Some s, TIMEOUT => forget s m | _, _ => m end;
         st_logged := [log_entry q None SHED None false waited affinity now];
         st_next := Some (inl (openai_error 503 TYPE_NO_REPLICA ("no replica available for model '" +:+ rq_model q +:+ "'"))) |}
  end.

(** [_respond], [_buffered] and [_stream] *)
Definition respond (q : RouteRequest) (result : AcquireResult) (waited_ms : Z) (affinity : AffinityState) (now : instant)
    : option (list GatewayLogEntry * Reply) :=
  match result with
  | NoUpstream retried =>
      Some ([log_entry q None ERROR None retried waited_ms affinity now],
            openai_error 502 TYPE_UPSTREAM "no replica could serve the request")
  | Acq a =>
      let agent := Some (re_agent_id (aq_endpoint a)) in
      let finalize := log_entry q agent SERVED (Some now) (aq_retried a) waited_ms affinity in
      let buffered :=
        match aq_buffered a with
        | None => None
        | Some served =>
            if (SERVER_ERROR <=? pt_status_code served)%Z
            then Some ([log_entry q agent ERROR None (aq_retried a) waited_ms affinity now], sanitized_upstream_error)
            else Some ([log_entry q agent SERVED (Some now) (aq_retried a) waited_ms affinity now], BufferedReply served)
        end in
      match aq_hold a, aq_relay_stream a, aq_stream a with
      | Some h, Some relay, _ => Some ([], StreamingReply relay true h finalize)
      | Some h, None, Some handle => Some ([], StreamingReply handle false h finalize)
      | _, _, _ => buffered
      end
  end.

(** [_route] from the answer of the transport on; an exception of the transport
    leaves the request without an answer and without a log entry. *)
Definition after_acquire (cfg : AffinityConfig) (q : RouteRequest) (result : string + AcquireResult) (waited_ms : Z)
    (affinity : AffinityState) (now : instant) (m : odict Entry) : Stretch Empty_set :=
  match result with
  | inl _ => {| st_affinity := m; st_logged := []; st_next := None |}
  | inr res =>
      let m' :=
        match rq_session_key q with
        | None => m
        | Some s => match res with Acq a => remember cfg s (aq_endpoint a) now m | NoUpstream _ => forget s m end
        end in
      match respond q res waited_ms affinity now with
      | None => {| st_affinity := m'; st_logged := []; st_next := None |}
      | Some (entries, reply) => {| st_affinity := m'; st_logged := entries; st_next := Some (inl reply) |}
      end
  end.

(** ** Streaming

    [stream_body] and [relay_stream_body] are asynchronous generators: nothing of
    their body runs before the first chunk is asked for, a generator that is closed
    before that never enters its [try], and the [finally] block releases the slot
    and writes the entry only after [aclose()] of the upstream has returned. *)

(** What a read of the upstream brings: a chunk, its end, one of the errors that
    end the stream quietly, or another exception, the cancellation of the task
    included. *)
Inductive ChunkRead :=
  | NextChunk (b : bytes)
  | EndOfStream
  | StreamBroken
  | ReadRaised.

(** What the server does to the generator: it asks for the next chunk, with what a
    read would bring, or it throws into it or closes it. *)
Inductive GenOp :=
  | Pull (r : ChunkRead)
  | Throw.

(** One operation, whether [aclose()] of the upstream returns if it is reached, and
    the clock. *)
Record GenStep := { gs_op : GenOp; gs_closes : bool; gs_now : instant }.

Inductive GenState := GenCreated | GenSuspended | GenClosed.

Record Gen := { g_state : GenState; g_sent : list bytes; g_tracker : Tracker; g_logged : list GatewayLogEntry }.

Section Generator.
  Context (h : StreamHandle) (slot : nat) (finalize : instant → GatewayLogEntry).

Definition gen_yield (b : bytes) (g : Gen) : Gen :=
  {| g_state := GenSuspended; g_sent := g_sent g ++ [b]; g_tracker := g_tracker g; g_logged := g_logged g |}.

(** The [finally] block. *)
Definition gen_finally (s : GenStep) (g : Gen) : Gen :=
  if gs_closes s
  then {| g_state := GenClosed; g_sent := g_sent g; g_tracker := release slot (g_tracker g);
          g_logged := g_logged g ++ [finalize (gs_now s)] |}
  else {| g_state := GenClosed; g_sent := g_sent g; g_tracker := g_tracker g; g_logged := g_logged g |}.

(** The loop, from one [yield] to the next. *)
Definition gen_loop (s : GenStep) (r : ChunkRead) (g : Gen) : Gen :=
  match r with
  | NextChunk b => gen_yield b g
  | EndOfStream | StreamBroken | ReadRaised => gen_finally s g
  end.

Definition gen_step (g : Gen) (s : GenStep) : Gen :=
  match g_state g, gs_op s with
  | GenCreated, Pull r => match sh_first h with Some b => gen_yield b g | None => gen_loop s r g end
  | GenCreated, Throw =>
      {| g_state := GenClosed; g_sent := g_sent g; g_tracker := g_tracker g; g_logged := g_logged g |}
  | GenSuspended, Pull r => gen_loop s r g
  | GenSuspended, Throw => gen_finally s g
  | GenClosed, _ => g
  end.

(** [stream_body] and [relay_stream_body], driven by the server. *)
Definition stream_body (t : Tracker) (steps : list GenStep) : Gen :=
  fold_left gen_step steps {| g_state := GenCreated; g_sent := []; g_tracker := t; g_logged := [] |}.
End Generator.

(** * What the gateway service guarantees

    Only authenticated, authorised, well-formed requests within their quota are
    routed; every request is answered with the status its log entry says, unless the
    transport raises; a stream that was started and could be closed frees its slot
    and is logged once; backend failures never reach the client; and a probe offers
    only replicas that may serve. *)

(** ** Admission to routing *)

Lemma known_model d model : reg_ok d → model ∈ mm_model_id <$> list_models d → is_Some (get_model model d).
Proof.
  intros Hok Hin. unfold list_models in Hin. rewrite <- list_fmap_compose, py_sorted_perm in Hin.
  apply list_elem_of_fmap in Hin as ([k row] & -> & Hin). apply elem_of_od_get in Hin; [| apply Hok]. cbn.
  rewrite (ro_model_key _ Hok k row Hin). unfold get_model. rewrite Hin. by eexists.
Qed.

Lemma service_proxy_cases sha256 retriever telemetry r key bearer now d q :
  reg_ok d → service_proxy sha256 retriever telemetry r key bearer now d = inr q →
  ∃ data, in_json r = Some (JObj data) ∧ rq_key q = key ∧ od_get "model" data = Some (JStr (rq_model q)) ∧
    (∀ l, ki_model_allowlist key = Some l → rq_model q ∈ l) ∧ is_Some (get_model (rq_model q) d) ∧
    (in_path r = CHAT_COMPLETIONS_PATH → well_formed_chat data) ∧
    (rq_body q = Verbatim (in_body r) ∨
     (in_path r = CHAT_COMPLETIONS_PATH ∧ is_Some (od_get "rag" data) ∧ is_Some retriever)).
Proof.
  intros Hok Hp. unfold service_proxy in Hp. destruct (in_json r) as [[| | | | | | data] |]; cbn [json_object] in Hp; try done.
  exists data. destruct (od_get "model" data) as [[| | | | model | |] |]; try done.
  destruct (allows key model) eqn:Ha; cbn [negb] in Hp; [| done].
  destruct (bool_decide (model ∈ mm_model_id <$> list_models d)) eqn:Hk; cbn [negb] in Hp; [| done]. reflect_bools.
  destruct (validate_chat_body (in_path r) data) eqn:Hv; [done |].
  assert (Hcommon : (∀ l, ki_model_allowlist key = Some l → model ∈ l) ∧ is_Some (get_model model d) ∧
    (in_path r = CHAT_COMPLETIONS_PATH → well_formed_chat data)).
  { split_and!; [intros l Hl; unfold allows in Ha; rewrite Hl in Ha; by reflect_bools | by apply known_model |].
    intros Hpath. rewrite Hpath in Hv. by apply validate_chat_exact. }
  destruct Hcommon as (H1 & H2 & H3). destruct (bool_decide (in_path r = CHAT_COMPLETIONS_PATH)) eqn:Hpath; reflect_bools.
  - destruct (apply_rag data ((λ f, f key) <$> retriever)) as [e | [res |]] eqn:Hrag; [done | |]; injection Hp as <-; split_and!; try done.
    + right. split; [done |]. unfold apply_rag in Hrag. destruct (od_get "rag" data); [| done]. split; [by eexists |].
      destruct retriever; [by eexists | done].
    + by left.
  - injection Hp as <-. split_and!; try done. by left.
Qed.

(** C9: a request is routed only if it carries a bearer token that authenticates,
    its quota lets it through, its body is a JSON object that names a model the key
    may use and that exists when the models are read, whatever changed since the key
    was, and, for a chat, the body is well-formed; what is
    forwarded is the client's bytes verbatim unless retrieval rewrote a chat. *)
Theorem gateway_guarded sha256 config retriever telemetry r now now' d d' quotas quotas' q :
  reg_reachable sha256 config d' →
  begin_request sha256 config retriever telemetry r now now' d d' quotas = (quotas', inr q) →
  ∃ bearer data, extract_bearer (in_authorization r) = Some bearer ∧
    authenticate_api_key sha256 config bearer d = Some (rq_key q) ∧
    consume_quota (rq_key q) now quotas = (quotas', None) ∧
    in_json r = Some (JObj data) ∧ od_get "model" data = Some (JStr (rq_model q)) ∧
    (∀ l, ki_model_allowlist (rq_key q) = Some l → rq_model q ∈ l) ∧ is_Some (get_model (rq_model q) d') ∧
    (in_path r = CHAT_COMPLETIONS_PATH → well_formed_chat data) ∧
    (rq_body q = Verbatim (in_body r) ∨
     (in_path r = CHAT_COMPLETIONS_PATH ∧ is_Some (od_get "rag" data) ∧ is_Some retriever)).
Proof.
  intros Hreach Hb. pose proof (reg_reachable_ok sha256 config d' Hreach) as Hok. unfold begin_request, authenticate in Hb.
  destruct (extract_bearer (in_authorization r)) as [bearer |] eqn:Hbearer; [| done]. cbn [mbind option_bind] in Hb.
  destruct (authenticate_api_key sha256 config bearer d) as [key |] eqn:Hkey; [| done].
  destruct (consume_quota key now quotas) as [quotas1 [n |]] eqn:Hquota; [done |]. injection Hb as -> Hp.
  destruct (service_proxy_cases _ _ _ _ _ _ _ _ _ Hok Hp) as (data & Hjson & Hk & Hmodel & Hallow & Hknown & Hvalid & Hbody).
  exists bearer, data. subst key. by split_and!.
Qed.

(** ** What the transport returns *)

(** A stream that was opened has a status below 500; without a slot there is a
    whole body. *)
Definition acquired_ok (a : Acquired) : Prop :=
  match aq_hold a with
  | None => is_Some (aq_buffered a)
  | Some _ => ∃ h, (sh_status_code h < SERVER_ERROR)%Z ∧
      ((aq_relay_stream a = None ∧ aq_stream a = Some h) ∨ aq_relay_stream a = Some h)
  end.

Definition result_ok (r : string + AcquireResult) : Prop :=
  match r with inr (Acq a) => acquired_ok a | _ => True end.

Definition outcome_ok (r : string + Outcome) : Prop :=
  match r with inr (Streaming h) | inr (RelayStreaming h) => (sh_status_code h < SERVER_ERROR)%Z | _ => True end.

Lemma attempt_loop_result repick try_once budget attempts tried endpoint last_5xx n :
  (∀ e n, outcome_ok (try_once e n).2) →
  result_ok (attempt_loop repick try_once budget attempts tried endpoint last_5xx n).2.
Proof.
  intros Htry. assert (Hex : ∀ last b, result_ok (inr (exhausted last b))) by (intros [[e p] |] b; cbn; [by eexists | done]).
  revert attempts tried endpoint last_5xx n; induction budget as [| budget IH]; intros attempts tried endpoint last_5xx n;
    [apply Hex |]. destruct endpoint as [e |]; [| apply Hex]. rewrite attempt_loop_turn.
  specialize (Htry e {| n_tracker := (hold (host_port e) (n_tracker n)).2; n_dials := n_dials n |}).
  destruct (try_once _ _) as [n1 [exn | [p | s | s | p]]]; cbn in Htry |- *; [done | by eexists | | | apply IH].
  - exists s. split; [done | by left].
  - exists s. split; [done | by right].
Qed.

Lemma site_aware_outcome answers request streaming e n : outcome_ok (site_aware_call answers request streaming e n).2.
Proof.
  unfold site_aware_call, mbind, eff_bind, gets. cbv beta iota.
  destruct (an_route answers _ _); unfold relay_call, direct_call, call_upstream; cbn [snd]; destruct streaming;
    [unfold relay_try_stream | unfold relay_try_buffered | unfold try_stream, first_chunk | unfold try_buffered];
    repeat (case_match; try done); cbn; unfold SERVER_ERROR in *; reflect_bools; try lia; unfold on_failure in *; simplify_eq;
    repeat case_match; simplify_eq; done.
Qed.

(** ** One answer, one log entry *)

(** The status the client sees. *)
Definition reply_status (r : Reply) : Z :=
  match r with
  | ErrorReply status _ _ _ => status
  | ModelsReply _ => 200
  | BufferedReply p => pt_status_code p
  | StreamingReply h _ _ _ => sh_status_code h
  end.

(** The chunks of a sequence of reads, up to the first that brings none. *)
Fixpoint chunks_read (rs : list ChunkRead) : list bytes :=
  match rs with
  | NextChunk b :: rs => b :: chunks_read rs
  | _ => []
  end.

(** A stream's bytes, slot and entry: the client is sent the chunk read when the
    stream was opened, then the replica's chunks in order up to the first read that
    brings none; the entry is written with the release of the slot,
    at most once and only at the end; the end writes it when a chunk had been asked
    for and the upstream closes without an exception; a stream closed before the
    first chunk is asked for, or whose upstream never closes, writes none and keeps
    its slot. *)
Definition stream_accounted (h : StreamHandle) (slot : nat) (finalize : instant → GatewayLogEntry) : Prop :=
  ∀ t steps, let g := stream_body h slot finalize t steps in
    ((g_logged g = [] ∧ g_tracker g = t) ∨
     (∃ now, g_logged g = [finalize now] ∧ g_tracker g = release slot t ∧ g_state g = GenClosed)) ∧
    (∀ s rest r, steps = s :: rest → gs_op s = Pull r → Forall (λ s, gs_closes s = true) steps →
       g_state g = GenClosed → ∃ now, g_logged g = [finalize now]) ∧
    (∀ s rest, steps = s :: rest → gs_op s = Throw → g_logged g = []) ∧
    (Forall (λ s, gs_closes s = false) steps → g_logged g = []) ∧
    (∀ rs, gs_op <$> steps = Pull <$> rs →
       g_sent g = match sh_first h, rs with
                  | Some b, _ :: rs => b :: chunks_read rs
                  | _, rs => chunks_read rs
                  end).

(** An answer and the entries written with it, or by the stream when it ends. *)
Definition answered (status : LogStatus) (logged : list GatewayLogEntry) (reply : Reply) : Prop :=
  match reply with
  | StreamingReply h _ slot finalize =>
      logged = [] ∧ (∀ now, gl_status (finalize now) = status) ∧ stream_accounted h slot finalize
  | _ => ∃ e, logged = [e] ∧ gl_status e = status
  end.

Section Generator_facts.
  Context (h : StreamHandle) (slot : nat) (finalize : instant → GatewayLogEntry) (t : Tracker).
  Notation run := (fold_left (gen_step h slot finalize)).

(** Open, nothing is written; closed, nothing or one entry with the release. *)
Definition gen_inv (g : Gen) : Prop :=
  (g_logged g = [] ∧ g_tracker g = t) ∨
  (∃ now, g_logged g = [finalize now] ∧ g_tracker g = release slot t ∧ g_state g = GenClosed).

Lemma gen_step_inv g s : gen_inv g → gen_inv (gen_step h slot finalize g s).
Proof.
  intros [[Hl Ht] | (now & Hl & Ht & Hs)]; [| unfold gen_step; rewrite Hs; right; by exists now].
  unfold gen_step, gen_loop, gen_finally, gen_yield.
  repeat case_match; try (by left); right; exists (gs_now s); cbn; by rewrite Hl, Ht.
Qed.

Lemma run_inv steps g : gen_inv g → gen_inv (run steps g).
Proof. revert g; induction steps as [| s steps IH]; intros g Hg; [done |]. by apply IH, gen_step_inv. Qed.

Lemma run_closed steps g : g_state g = GenClosed → run steps g = g.
Proof.
  intros Hg. induction steps as [| s steps IH]; [done |]. cbn. unfold gen_step at 2. by rewrite Hg.
Qed.

(** Once started, a generator whose upstream closes ends with its entry. *)
Lemma run_closing steps g :
  g_state g = GenSuspended ∨ g_logged g ≠ [] → Forall (λ s, gs_closes s = true) steps →
  g_state (run steps g) = GenClosed → g_logged (run steps g) ≠ [].
Proof.
  revert g; induction steps as [| s steps IH]; intros g Hg Hc Hend; cbn in *; [destruct Hg; congruence |].
  inversion_clear Hc as [| ? ? Hs Hc']. apply IH; [| done | done]. clear Hend IH.
  unfold gen_step, gen_loop, gen_finally, gen_yield. rewrite Hs. destruct Hg as [-> | Hl].
  - repeat case_match; try (by left); right; cbn; intros []%app_nil; done.
  - repeat case_match; right; cbn; try done; intros []%app_nil; done.
Qed.

Lemma run_stuck steps g :
  g_logged g = [] → Forall (λ s, gs_closes s = false) steps → g_logged (run steps g) = [].
Proof.
  revert g; induction steps as [| s steps IH]; intros g Hg Hc; [done |]. inversion_clear Hc as [| ? ? Hs Hc'].
  apply IH; [| done]. unfold gen_step, gen_loop, gen_finally, gen_yield. rewrite Hs. by repeat case_match.
Qed.

Lemma first_pull g s r :
  g_state g = GenCreated → gs_op s = Pull r → gs_closes s = true →
  g_state (gen_step h slot finalize g s) = GenSuspended ∨ g_logged (gen_step h slot finalize g s) ≠ [].
Proof.
  intros Hg Hop Hc. unfold gen_step, gen_loop, gen_finally, gen_yield. rewrite Hg, Hop, Hc.
  repeat case_match; try (by left); right; cbn; intros []%app_nil; done.
Qed.

Lemma run_sent steps rs g :
  g_state g = GenSuspended → gs_op <$> steps = Pull <$> rs → g_sent (run steps g) = g_sent g ++ chunks_read rs.
Proof.
  revert rs g; induction steps as [| s steps IH]; intros [| r rs] g Hg Hops; try done; [by rewrite app_nil_r |].
  injection Hops as Hop Hops. cbn [fold_left]. unfold gen_step at 2. rewrite Hg, Hop.
  destruct r; cbn [gen_loop chunks_read]; [rewrite (IH rs) by done; cbn; by rewrite <- app_assoc | ..];
    rewrite run_closed, app_nil_r by (unfold gen_finally; by destruct (gs_closes s));
    unfold gen_finally; by destruct (gs_closes s).
Qed.

Lemma run_sent_first steps rs g :
  g_state g = GenCreated → g_sent g = [] → gs_op <$> steps = Pull <$> rs →
  g_sent (run steps g) = match sh_first h, rs with Some b, _ :: rs => b :: chunks_read rs | _, rs => chunks_read rs end.
Proof.
  intros Hg Hn Hops. destruct steps as [| s steps], rs as [| r rs]; try done; [by destruct (sh_first h) |].
  injection Hops as Hop Hops. cbn [fold_left]. unfold gen_step at 2. rewrite Hg, Hop.
  destruct (sh_first h) as [b |]; [rewrite (run_sent _ rs) by done; cbn; by rewrite Hn |].
  destruct r; cbn [gen_loop chunks_read]; [rewrite (run_sent _ rs) by done; cbn; by rewrite Hn | ..];
    rewrite run_closed by (unfold gen_finally; by destruct (gs_closes s));
    unfold gen_finally; destruct (gs_closes s); exact Hn.
Qed.
End Generator_facts.

Lemma stream_body_accounted h slot finalize : stream_accounted h slot finalize.
Proof.
  intros t steps g. set (g0 := {| g_state := GenCreated; g_sent := []; g_tracker := t; g_logged := [] |}).
  assert (Hinv : gen_inv slot finalize t g) by (by apply run_inv; left). split_and!; [exact Hinv | | | |].
  - intros s rest r Hsteps Hop Hc Hend. subst steps. assert (Hl : g_logged g ≠ []).
    { apply (run_closing h slot finalize rest (gen_step h slot finalize g0 s)); [| by inversion Hc | done].
      apply (first_pull h slot finalize g0 s r); [done | done | by inversion Hc]. }
    destruct Hinv as [[? _] | (now & ? & _)]; [done | by exists now].
  - intros s rest Hsteps Hop. subst steps. unfold g, stream_body. cbn [fold_left]. unfold gen_step at 2. cbn [g_state].
    rewrite Hop, run_closed; done.
  - by apply run_stuck.
  - intros rs Hops. by apply run_sent_first.
Qed.

Lemma respond_cases q res waited aff now :
  result_ok (inr res) →
  ∃ entries reply status, respond q res waited aff now = Some (entries, reply) ∧ answered status entries reply ∧
    ((status = SERVED ∧ (reply_status reply < SERVER_ERROR)%Z) ∨ (status = ERROR ∧ reply_status reply = 502%Z)).
Proof.
  intros Hok. destruct res as [a | retried]; cbn in Hok |- *.
  2: { eexists _, _, ERROR. split; [done |]. split; [by eexists | by right]. }
  unfold acquired_ok in Hok. destruct (aq_hold a) as [h |].
  - destruct Hok as (s & Hs & [[-> ->] | ->]); eexists _, _, SERVED; (split; [done |]);
      (split; [split_and!; [done | done | apply stream_body_accounted] | by left]).
  - destruct Hok as [p ->]. destruct (Z.leb_spec SERVER_ERROR (pt_status_code p)).
    + eexists _, _, ERROR. split; [done |]. split; [by eexists | by right].
    + eexists _, _, SERVED. split; [done |]. split; [by eexists | by left].
Qed.

(** C10: every routed request is answered at most once, and what is logged of it
    says how.  Cancelled in the waiting room it logs CANCELLED; without a replica it
    is answered 503 and logs SHED; otherwise it is answered by the transport's
    result with SERVED and a status below 500, or with ERROR and a gateway 502: no
    5xx of a backend is passed on.  A whole answer writes its one entry with it.  A
    stream sends the replica's chunks verbatim and in order; it frees its slot and
    writes its one entry together, when it ends after the server had asked for a
    chunk and closing the upstream returned; closed before the first chunk is asked
    for, or with an upstream that does not close, it does neither.  Only an
    exception of the transport leaves a request without answer and without
    entry. *)
Theorem answered_once cfg q o aff now m answers request streaming first repick net now2 m2 :
  let s := after_admission q o aff now m in
  match st_next s with
  | None => ∃ e, st_logged s = [e] ∧ gl_status e = CANCELLED
  | Some (inl reply) => answered SHED (st_logged s) reply ∧ reply_status reply = 503%Z
  | Some (inr (choice, waited)) =>
      st_logged s = [] ∧
      let '(net', result) := acquire answers request streaming first repick net in
      let s' := after_acquire cfg q result waited (rc_affinity choice) now2 m2 in
      match st_next s' with
      | None => (∃ exn, result = inl exn) ∧ st_logged s' = []
      | Some (inr impossible) => False
      | Some (inl reply) => ∃ status, answered status (st_logged s') reply ∧
          ((status = SERVED ∧ (reply_status reply < SERVER_ERROR)%Z) ∨ (status = ERROR ∧ reply_status reply = 502%Z))
      end
  end.
Proof.
  intros s. unfold s. destruct o as [waited | status [choice |] waited]; cbn [after_admission st_next st_logged];
    [by eexists | | split; [by eexists | done]].
  split; [done |].
  assert (Hok : result_ok (acquire answers request streaming first repick net).2)
    by apply attempt_loop_result, site_aware_outcome.
  destruct (acquire answers request streaming first repick net) as [net' [exn | res]]; cbn [snd] in Hok; cbn.
  - split; [by eexists | done].
  - destruct (respond_cases q res waited (rc_affinity choice) now2 Hok) as (entries & reply & status' & -> & Ha & Hs). by exists status'.
Qed.

(** ** What a probe offers *)

Lemma enrich_elem t l e :
  e ∈ enrich t l → ∃ e0, e0 ∈ l ∧ host_port e = host_port e0 ∧ re_agent_id e = re_agent_id e0 ∧ re_model_id e = re_model_id e0 ∧
    re_inflight e = Z.max (re_inflight e0) (count_of (host_port e0) t).
Proof. intros (e0 & -> & Hin)%list_elem_of_fmap. by exists e0. Qed.

(** A request is only sent to a replica that may serve it now.  Whatever the
    session's history, the endpoint a probe chooses is one of the candidates it
    read, a READY replica of the requested model on an agent that is unrevoked,
    heard from recently, idle and not reclaimed by its user, carrying at least
    the live inflight count; and every later repick is one too. *)
Theorem probe_servable sha256 config cfg pick model session now d t m m' choice st :
  reg_reachable sha256 config d → (∀ l e, pick l = Some e → e ∈ l) →
  resolve_route config cfg pick model session now d t m = (m', (Some choice, st)) →
  rc_endpoint choice ∈ rc_candidates choice ∧ rc_affinity choice = st ∧
  (∀ tried e, make_repick pick (rc_candidates choice) tried = Some e → e ∈ rc_candidates choice) ∧
  ∀ e, e ∈ rc_candidates choice → ∃ e0, servable config model now d e0 ∧
    host_port e = host_port e0 ∧ re_agent_id e = re_agent_id e0 ∧ re_model_id e = model ∧ (count_of (host_port e) t ≤ re_inflight e)%Z.
Proof.
  intros Hreach Hpick Hres. pose proof (reg_reachable_ok sha256 config d Hreach) as Hok. unfold resolve_route in Hres.
  set (cs := enrich t (replica_endpoints config model now d)) in *.
  destruct (resolve cfg session cs pick true now m) as [m1 [[e |] st1]] eqn:Hr; [| done]. injection Hres as <- <- <-. cbn [rc_endpoint rc_candidates rc_affinity].
  assert (He : e ∈ cs).
  { unfold resolve in Hr. destruct session as [s |]; [| injection Hr as _ Hp _; by apply Hpick].
    destruct (od_get s (expire cfg now m)) as [x |].
    - destruct (candidate_for cs (en_endpoint x)) as [c |] eqn:Hc; [injection Hr as _ <- _; by apply candidate_for_Some in Hc as [? _] |].
      destruct (_ && _); [done |]. destruct (pick cs) as [e' |] eqn:Hp; [| done]. injection Hr as _ <- _. by apply Hpick.
    - destruct (pick cs) as [e' |] eqn:Hp; [| done]. injection Hr as _ <- _. by apply Hpick. }
  split_and!; [done | done | |].
  - intros tried e' H%Hpick. by apply list_elem_of_filter in H as [_ ?].
  - intros e' (e0 & H0 & Hhp & Ha & Hm & Hi)%enrich_elem. apply replica_endpoints_elem in H0 as Hs; [| done].
    exists e0. split_and!; [done | done | done | | rewrite Hi, Hhp; lia]. destruct Hs as (? & ? & ? & _ & _ & _ & _ & _ & _ & _ & _ & ->). by rewrite Hm.
Qed.

(** ** Concrete inputs *)

Definition good_request : Inbound := {|
  in_authorization := Some "Bearer secret"; in_method := "POST"; in_path := "/v1/embeddings"; in_body := [];
  in_json := Some (JObj [("model", JStr "m")]); in_session := None; in_content_type := None |}.

Definition tiny_manifest : ModelManifest := {|
  mm_model_id := "m"; mm_family := ""; mm_quant := ""; mm_worker_kind := CHAT; mm_file_name := ""; mm_sha256 := "";
  mm_size_bytes := 1; mm_min_ram_mb := 0; mm_min_vram_mb := 0; mm_default_args := []; mm_chat_template_hint := None;
  mm_license := None; mm_source_url := None |}.

Definition gateway_calls : list RCall :=
  [CreateKey "k" (Some ["m"]) None None "secret" 0; PutModel tiny_manifest "/blobs/m" true 0].

Definition gateway_db : RDb := run_calls gateway_calls empty_rdb.

Lemma gateway_guarded_witness :
  match (begin_request plain_sha demo_rc None false good_request 5 5 gateway_db gateway_db None).2 with
  | inr q => is_Some (get_model (rq_model q) gateway_db) ∧ rq_body q = Verbatim []
  | inl _ => False
  end.
Proof.
  destruct (begin_request plain_sha demo_rc None false good_request 5 5 gateway_db gateway_db None) as [quotas [reply | q]] eqn:Hq;
    [vm_compute in Hq; discriminate |].
  destruct (gateway_guarded plain_sha demo_rc None false good_request 5 5 gateway_db gateway_db None quotas q
    (run_calls_steps gateway_calls empty_rdb) Hq) as (bearer & data & _ & _ & _ & _ & _ & _ & Hm & _ & Hb).
  cbn [snd]. split; [exact Hm |]. destruct Hb as [Hb | (Hp & _)]; [exact Hb | discriminate].
Defined.

Lemma probe_servable_witness :
  ∃ choice, (resolve_route demo_rc small_map head "m" None 3 serving new_tracker []).2 = (Some choice, NONE) ∧
    rc_endpoint choice ∈ rc_candidates choice ∧ re_port (rc_endpoint choice) = 8080%Z.
Proof.
  set (e := {| re_agent_id := "a"; re_host := "10.0.0.2"; re_port := 8080; re_model_id := "m"; re_inflight := 0 |}).
  exists {| rc_endpoint := e; rc_candidates := [e]; rc_affinity := NONE |}. split; [vm_compute; reflexivity |]. split; [| reflexivity].
  refine (proj1 (probe_servable plain_sha demo_rc small_map head "m" None 3 serving new_tracker []
    [] {| rc_endpoint := e; rc_candidates := [e]; rc_affinity := NONE |} NONE serving_reachable _ _)).
  - intros l x. apply head_Some_elem_of.
  - vm_compute. reflexivity.
Defined.
