(* ===== verification/Metrics.v ===== *)
(** * The coordinator's metrics

    Models app/metrics.py of src/packages/fallow-coordinator/src/fallow_coordinator and the metrics route
    of app/admin_routes.py: the counters read back from the gateway's log and the Prometheus text.  A line of the log is the
    value [json.loads] makes of it. *)

From stdpp Require Import pretty.
From S2P Require Export GatewayService.

(** ** Counters *)

Record GatewayCounters := { gc_served : Z; gc_shed : Z; gc_error : Z; gc_retried : Z }.

Definition no_counters : GatewayCounters := {| gc_served := 0; gc_shed := 0; gc_error := 0; gc_retried := 0 |}.

Definition log_value (s : LogStatus) : string :=
  match s with SERVED => "served" | SHED => "shed" | ERROR => "error" | CANCELLED => "cancelled" end.

(** [_decode_entry]: [None] when the line is not JSON or not an object *)
Definition decode_entry (line : option Json) : option JBody :=
  match line with Some (JObj fields) => Some fields | _ => None end.

(** The body of the loop of [read_gateway_counters]; [None] is the [TypeError] of a status that cannot be hashed *)
Definition count_line (c : GatewayCounters) (line : option Json) : option GatewayCounters :=
  match decode_entry line with
  | None => Some c
  | Some entry =>
      match od_get "status" entry with
      | Some (JStr status) =>
          if negb (bool_decide (status ∈ ["served"; "shed"; "error"; "cancelled"])) then Some c
          else
            let bump s := if bool_decide (status = s) then 1%Z else 0%Z in
            let retried := match od_get "retried" entry with Some (JBool true) => 1%Z | _ => 0%Z end in
            Some {| gc_served := gc_served c + bump "served"; gc_shed := gc_shed c + bump "shed"; gc_error := gc_error c + bump "error";
                    gc_retried := gc_retried c + retried |}
      | Some (JArr _) | Some (JObj _) => None
      | _ => Some c
      end
  end.

Fixpoint count_lines (c : GatewayCounters) (lines : list (option Json)) : option GatewayCounters :=
  match lines with [] => Some c | line :: lines => c ← count_line c line; count_lines c lines end.

(** [read_gateway_counters] of the log's lines; a missing log has none *)
Definition read_gateway_counters (log : option (list (option Json))) : option GatewayCounters :=
  match log with None => Some no_counters | Some lines => count_lines no_counters lines end.

(** ** Text *)

(** [value.replace(c, s)] *)
Definition py_replace (c : ascii) (s : list ascii) (l : list ascii) : list ascii :=
  l ≫= λ d, if bool_decide (d = c) then s else [d].

(** [_escape_label] *)
Definition escape_label (value : string) : string :=
  String.string_of_list_ascii
    (py_replace "034" ["\"; "034"]%char (py_replace "010" ["\"; "n"]%char (py_replace "\" ["\"; "\"]%char (String.list_ascii_of_string value)))).

(** A label's value in quotes *)
Definition quoted (v : string) : string := String "034" (v +:+ String "034" "").

Definition agent_state_value (s : AgentState) : string := match s with IDLE => "idle" | ACTIVE => "active" | DRAINING => "draining" end.
Definition replica_state_value (s : ReplicaState) : string :=
  match s with LOADING => "loading" | READY => "ready" | SUSPENDED => "suspended" | STOPPED => "stopped" end.

Definition AGENT_STATES : list AgentState := [IDLE; ACTIVE; DRAINING].
Definition REPLICA_STATES : list ReplicaState := [READY; STOPPED].

Definition count {A} (p : A → bool) (l : list A) : Z := Z.of_nat (length (filter (λ x, p x = true) l)).

(** [_agent_counts] *)
Definition agents_in (agents : list AgentSnapshot) (s : AgentState) : Z := count (λ a, bool_decide (as_state a = s)) agents.
Definition agents_suspect (agents : list AgentSnapshot) : Z := count as_suspect agents.

Definition all_replicas (agents : list AgentSnapshot) : list ReplicaStatus := agents ≫= as_replicas.

(** [_replica_counts]: the count of a model's replicas in a state, and the models *)
Definition replicas_in (agents : list AgentSnapshot) (m : model_id) (s : ReplicaState) : Z :=
  count (λ r, bool_decide (rs_model_id r = m) && bool_decide (rs_state r = s)) (all_replicas agents).

Definition model_ids (agents : list AgentSnapshot) : list model_id :=
  py_sorted (λ m, m) (remove_dups (rs_model_id <$> all_replicas agents)).

(** [_inflight_total] *)
Definition inflight_total (agents : list AgentSnapshot) (local_inflight : gmap (string * Z) Z) : Z :=
  fold_left Z.add (agents ≫= λ a, (λ r, Z.max (rs_inflight r) (default 0%Z (local_inflight !! (as_host a, rs_port r)))) <$> as_replicas a) 0%Z.

(** The lines of one model *)
Definition replica_series (m : model_id) (s : ReplicaState) : string :=
  "fallow_replicas_total{model_id=" +:+ quoted (escape_label m) +:+ ",state=" +:+ quoted (replica_state_value s) +:+ "}".

Definition replica_lines (agents : list AgentSnapshot) : list string :=
  model_ids agents ≫= λ m, (λ s, replica_series m s +:+ " " +:+ pretty (replicas_in agents m s)) <$> REPLICA_STATES.

(** [_gateway_lines] *)
Definition gateway_lines (g : GatewayCounters) : list string :=
  let line s n := "fallow_gateway_requests_total{status=" +:+ quoted s +:+ "} " +:+ pretty n in
  ["# HELP fallow_gateway_requests_total Gateway requests by terminal status."; "# TYPE fallow_gateway_requests_total counter";
   line "served" (gc_served g); line "shed" (gc_shed g); line "error" (gc_error g);
   "# HELP fallow_gateway_retried_total Gateway requests retried before completion."; "# TYPE fallow_gateway_retried_total counter";
   "fallow_gateway_retried_total " +:+ pretty (gc_retried g)].

Definition metrics_lines (agents : list AgentSnapshot) (g : GatewayCounters) (local_inflight : gmap (string * Z) Z) : list string :=
  ["# HELP fallow_agents_total Number of online agents by state."; "# TYPE fallow_agents_total gauge";
   "fallow_agents_total " +:+ pretty (Z.of_nat (length agents))] ++
  ((λ s, "fallow_agents_total{state=" +:+ quoted (agent_state_value s) +:+ "} " +:+ pretty (agents_in agents s)) <$> AGENT_STATES) ++
  ["# HELP fallow_agents_suspect_total Number of online agents with stale heartbeats."; "# TYPE fallow_agents_suspect_total gauge";
   "fallow_agents_suspect_total " +:+ pretty (agents_suspect agents);
   "# HELP fallow_replicas_total Number of model replicas by state."; "# TYPE fallow_replicas_total gauge"] ++
  replica_lines agents ++ gateway_lines g ++
  ["# HELP fallow_inflight_total Requests currently in flight across replicas."; "# TYPE fallow_inflight_total gauge";
   "fallow_inflight_total " +:+ pretty (inflight_total agents local_inflight)].

Definition newline : string := String "010" "".

(** [format_metrics] *)
Definition format_metrics (agents : list AgentSnapshot) (g : GatewayCounters) (local_inflight : gmap (string * Z) Z) : string :=
  Bytes.join newline (metrics_lines agents g local_inflight) +:+ newline.

(** The metrics route, after authentication: the counters and the text; [None] answers 500 *)
Definition metrics_route (agents : list AgentSnapshot) (log : option (list (option Json))) (local_inflight : gmap (string * Z) Z) : option string :=
  g ← read_gateway_counters log; Some (format_metrics agents g local_inflight).

(** ** The counters are those of the log *)

(** A line the gateway wrote for an entry, whatever its other fields; or a line that is no JSON object, as a torn write leaves. *)
Inductive written : option GatewayLogEntry → option Json → Prop :=
  | written_entry e fields :
      od_get "status" fields = Some (JStr (log_value (gl_status e))) → od_get "retried" fields = Some (JBool (gl_retried e)) →
      written (Some e) (Some (JObj fields))
  | written_torn line : decode_entry line = None → written None line.

Definition has_status (s : LogStatus) (e : GatewayLogEntry) : bool := bool_decide (log_value (gl_status e) = log_value s).

Lemma count_cons {A} (p : A → bool) x l : count p (x :: l) = ((if p x then 1 else 0) + count p l)%Z.
Proof. unfold count. rewrite filter_cons. destruct (decide (p x = true)) as [-> | ->%not_true_is_false]; cbn [length]; lia. Qed.

Lemma count_lines_written entries lines c :
  Forall2 written entries lines →
  let log := omap id entries in
  count_lines c lines = Some {|
    gc_served := gc_served c + count (has_status SERVED) log; gc_shed := gc_shed c + count (has_status SHED) log;
    gc_error := gc_error c + count (has_status ERROR) log; gc_retried := gc_retried c + count gl_retried log |}.
Proof.
  intros H. revert c; induction H as [| o line entries lines Hw _ IH]; intros c log; subst log; cbn [count_lines].
  { destruct c. cbn. by rewrite !Z.add_0_r. }
  destruct Hw as [e fields Hs Hr | line Hd].
  - unfold count_line. cbn [decode_entry]. rewrite Hs, Hr. rewrite bool_decide_eq_true_2 by (destruct (gl_status e); set_solver). cbn [negb mbind option_bind].
    rewrite IH. cbn [omap list_omap id]. rewrite !count_cons. f_equal. f_equal; cbn; unfold has_status.
    all: first [destruct (gl_status e); cbn; lia | destruct (gl_retried e); lia].
  - unfold count_line. rewrite Hd. cbn [mbind option_bind]. rewrite IH. done.
Qed.

(** The gateway counters of a scrape are the counts of the log.  However the lines of the log lie between lines that are no JSON
    objects, reading it back counts exactly the entries the gateway ended as served, shed and error, and
    those it retried; cancelled requests are in no status counter, though their retries count. *)
Theorem metrics_count_log entries lines :
  Forall2 written entries lines →
  let log := omap id entries in
  read_gateway_counters (Some lines) = Some {|
    gc_served := count (has_status SERVED) log; gc_shed := count (has_status SHED) log; gc_error := count (has_status ERROR) log;
    gc_retried := count gl_retried log |}.
Proof. intros H. cbn. by rewrite (count_lines_written entries lines no_counters H). Qed.

(** ** A parser reads every label back *)

Definition esc (c : ascii) : list ascii :=
  if bool_decide (c = "\"%char) then ["\"; "\"]%char
  else if bool_decide (c = "010"%char) then ["\"; "n"]%char
  else if bool_decide (c = "034"%char) then ["\"; "034"]%char
  else [c].

Lemma escape_chars l :
  py_replace "034" ["\"; "034"]%char (py_replace "010" ["\"; "n"]%char (py_replace "\" ["\"; "\"]%char l)) = l ≫= esc.
Proof.
  induction l as [| c l IH]; [done |]. unfold py_replace in *. rewrite !bind_cons, !bind_app, IH. f_equal.
  destruct c as [[] [] [] [] [] [] [] []]; reflexivity.
Qed.

(** The label value of the exposition format: up to the first quote that is not escaped. *)
Fixpoint read_label (l : list ascii) : option (list ascii * list ascii) :=
  match l with
  | [] => None
  | c :: l =>
      if bool_decide (c = "034"%char) then Some ([], l)
      else if bool_decide (c = "\"%char) then
        match l with
        | [] => None
        | d :: l => prod_map (cons (if bool_decide (d = "n"%char) then "010"%char else d)) id <$> read_label l
        end
      else prod_map (cons c) id <$> read_label l
  end.

Lemma read_label_esc c l : read_label (esc c ++ l) = prod_map (cons c) id <$> read_label l.
Proof. destruct c as [[] [] [] [] [] [] [] []]; reflexivity. Qed.

Lemma read_label_escaped l rest : read_label ((l ≫= esc) ++ "034"%char :: rest) = Some (l, rest).
Proof. induction l as [| c l IH]; [done |]. rewrite bind_cons, <- app_assoc, read_label_esc, IH. done. Qed.

Lemma esc_no_newline c : "010"%char ∉ esc c.
Proof. destruct c as [[] [] [] [] [] [] [] []]; by apply (bool_decide_unpack _). Qed.

Lemma list_of_app a b : String.list_ascii_of_string (a +:+ b) = String.list_ascii_of_string a ++ String.list_ascii_of_string b.
Proof.
  induction a as [| c a IH]; [done |]. change (String c a +:+ b) with (String c (a +:+ b)). cbn [String.list_ascii_of_string app]. by rewrite IH.
Qed.

(** The model and the rest of a series, as a parser of the exposition format reads it. *)
Definition read_series (line : string) : option (string * list ascii) :=
  prod_map String.string_of_list_ascii id <$> read_label (drop 32 (String.list_ascii_of_string line)).

Definition series_chars (m : model_id) (s : ReplicaState) : list ascii :=
  String.list_ascii_of_string "fallow_replicas_total{model_id=" ++ ["034"]%char ++ (String.list_ascii_of_string m ≫= esc) ++
  "034"%char :: String.list_ascii_of_string (",state=" +:+ quoted (replica_state_value s) +:+ "}").

Lemma series_spelled m s : String.list_ascii_of_string (replica_series m s) = series_chars m s.
Proof.
  unfold replica_series, series_chars, quoted, escape_label. rewrite escape_chars, list_of_app. f_equal.
  change (String "034" (String.string_of_list_ascii (String.list_ascii_of_string m ≫= esc) +:+ String "034" "") +:+ ?x)
    with (String "034" ((String.string_of_list_ascii (String.list_ascii_of_string m ≫= esc) +:+ String "034" "") +:+ x)).
  cbn [String.list_ascii_of_string app]. f_equal. rewrite !list_of_app, String.list_ascii_of_string_of_list_ascii, <- app_assoc. done.
Qed.

Lemma series_read m s : read_series (replica_series m s) = Some (m, String.list_ascii_of_string (",state=" +:+ quoted (replica_state_value s) +:+ "}")).
Proof.
  unfold read_series. rewrite series_spelled. unfold series_chars.
  set (rest := (_ ≫= esc) ++ _).
  change (drop 32 (String.list_ascii_of_string "fallow_replicas_total{model_id=" ++ ["034"]%char ++ rest)) with rest.
  unfold rest. rewrite read_label_escaped. cbn [fmap option_fmap option_map prod_map fst snd id]. by rewrite String.string_of_list_ascii_of_string.
Qed.

Lemma series_one_line m s : "010"%char ∉ String.list_ascii_of_string (replica_series m s).
Proof.
  rewrite series_spelled. unfold series_chars. rewrite !not_elem_of_app, not_elem_of_cons.
  split; [by apply (bool_decide_unpack _) |]. split; [by apply (bool_decide_unpack _) |]. split.
  - intros Hin. apply list_elem_of_bind in Hin as (c & Hc & _). by apply (esc_no_newline c).
  - destruct s; by apply (bool_decide_unpack _).
Qed.

(** The series of a scrape. *)
Definition scrape_series (agents : list AgentSnapshot) : list string := model_ids agents ≫= λ m, replica_series m <$> REPLICA_STATES.

Lemma model_ids_nodup agents : NoDup (model_ids agents).
Proof. unfold model_ids. rewrite py_sorted_perm. apply NoDup_remove_dups. Qed.

Lemma series_inj m m' s s' : replica_series m s = replica_series m' s' → m = m' ∧ s = s'.
Proof.
  intros H. pose proof (series_read m s) as H1. rewrite H, series_read in H1. injection H1 as -> Hs. split; [done |].
  destruct s, s'; try done; vm_compute in Hs; discriminate.
Qed.

(** Every model appears in the metrics under its own label.  A reader of the exposition format gets back, from each series of the
    replicas, exactly the model id it was made from, whatever backslashes, quotes or line breaks that has; the series of a
    scrape are pairwise distinct, each on one line, and there are two for every model that has a replica and none for another. *)
Theorem metrics_series_faithful agents :
  NoDup (scrape_series agents) ∧ Forall (λ line, "010"%char ∉ String.list_ascii_of_string line) (scrape_series agents) ∧
  (∀ m s, s ∈ REPLICA_STATES → replica_series m s ∈ scrape_series agents ↔ ∃ a r, a ∈ agents ∧ r ∈ as_replicas a ∧ rs_model_id r = m) ∧
  (∀ m s, fst <$> read_series (replica_series m s) = Some m).
Proof.
  split_and!.
  - unfold scrape_series. generalize (model_ids_nodup agents). induction (model_ids agents) as [| m l IH]; [intros _; apply NoDup_nil_2 |].
    intros [Hm Hl]%NoDup_cons. rewrite bind_cons. apply NoDup_app. split_and!; [| | by apply IH].
    + cbn. apply NoDup_cons. split; [| apply NoDup_singleton]. intros Hin%list_elem_of_singleton. by apply series_inj in Hin as [_ ?].
    + intros x Hx Hin. apply list_elem_of_bind in Hin as (m' & Hx' & Hm'). apply list_elem_of_fmap in Hx as (s & -> & _).
      apply list_elem_of_fmap in Hx' as (s' & Heq & _). by apply series_inj in Heq as [-> _].
  - apply Forall_forall. intros x Hx. apply list_elem_of_bind in Hx as (m & Hx & _). apply list_elem_of_fmap in Hx as (s & -> & _). apply series_one_line.
  - intros m s Hs. unfold scrape_series. rewrite list_elem_of_bind. transitivity (m ∈ model_ids agents).
    + split; [intros (m' & Hin & Hm'); apply list_elem_of_fmap in Hin as (s' & Heq & _); by apply series_inj in Heq as [-> _] |].
      intros Hm. exists m. split; [| done]. by apply list_elem_of_fmap_2.
    + unfold model_ids. rewrite py_sorted_perm, elem_of_remove_dups, list_elem_of_fmap. unfold all_replicas. split.
      * intros (r & -> & Hr). apply list_elem_of_bind in Hr as (a & Hr & Ha). by exists a, r.
      * intros (a & r & Ha & Hr & <-). exists r. split; [done |]. apply list_elem_of_bind. by exists a.
  - intros m s. by rewrite series_read.
Qed.

Definition demo_entry (s : LogStatus) (retried : bool) : GatewayLogEntry := {|
  gl_client_key_name := "k"; gl_model_id := "m"; gl_agent_id := None; gl_t_submit := 0; gl_t_first_byte := None; gl_t_done := 1;
  gl_status := s; gl_retried := retried; gl_prompt_chars := None; gl_waited_ms := 0; gl_affinity := NONE; gl_rag_k := None;
  gl_eligibility := None |}.

Definition demo_line (e : GatewayLogEntry) : option Json :=
  Some (JObj [("model_id", JStr "m"); ("status", JStr (log_value (gl_status e))); ("retried", JBool (gl_retried e))]).

Lemma metrics_count_log_witness :
  read_gateway_counters (Some [demo_line (demo_entry SERVED true); None; demo_line (demo_entry CANCELLED true); demo_line (demo_entry SHED false)]) =
  Some {| gc_served := 1; gc_shed := 1; gc_error := 0; gc_retried := 2 |}.
Proof.
  refine (metrics_count_log [Some (demo_entry SERVED true); None; Some (demo_entry CANCELLED true); Some (demo_entry SHED false)] _ _).
  repeat constructor.
Defined.
