(* ===== verification/RagStore.v ===== *)
(** * The vector store

    Models src/packages/fallow-coordinator/src/fallow_coordinator/rag/store.py and
    models.py: named collections of text chunks with embeddings, in SQLite with the
    sqlite-vec extension.  Every method runs under the store's lock and in one
    transaction, so it is one step; an error of the disk is not modelled.
    [serialize_float32], the dimensions a vec0 table may have and its nearest-neighbour
    search belong to sqlite-vec and are parameters.  Stored metadata
    is the JSON value with its keys sorted, its text form is not modelled; opening the
    file is in StoreSchema.v. *)

From S2P Require Export GatewayBody.

Record Collection := { co_id : Z; co_name : string; co_model_id : model_id; co_dims : Z }.

(** A component of an embedding is a float; [None] is infinite or not a number. *)
Record Chunk := { ck_id : string; ck_text : string; ck_metadata : JBody; ck_embedding : list (option Q) }.

Record SearchResult := { sr_id : string; sr_text : string; sr_metadata : JBody; sr_distance : Q }.

Inductive RagStoreError :=
  | CollectionConflictError (existing : Collection)
  | CollectionNotFoundError (name : string)
  | DimensionMismatchError (expected received : Z)
  | VectorTableError                   (* sqlite3.OperationalError of CREATE VIRTUAL TABLE *)
  | RagValueError (message : string).

Record CollectionRow := { cl_name : string; cl_model_id : model_id; cl_dims : Z }.
Record ChunkRow := { cr_collection : Z; cr_chunk_id : string; cr_text : string; cr_metadata : JBody }.

(** ** JSON values [json.dumps(..., allow_nan=False)] accepts *)

Fixpoint sorted_json (v : Json) : option Json :=
  match v with
  | JNull | JBool _ | JInt _ | JStr _ => Some v
  | JFloat q => JFloat ∘ Some <$> q
  | JArr l => JArr <$> (fix go l := match l with
                                    | [] => Some []
                                    | x :: l => x' ← sorted_json x; l' ← go l; Some (x' :: l')
                                    end) l
  | JObj fields =>
      JObj ∘ py_sorted fst <$> (fix go l := match l with
                                            | [] => Some []
                                            | (k, x) :: l => x' ← sorted_json x; l' ← go l; Some ((k, x') :: l')
                                            end) fields
  end.

Definition sorted_object (fields : JBody) : option JBody :=
  match sorted_json (JObj fields) with Some (JObj f) => Some f | _ => None end.

(** [_require_text] *)
Definition require_text {S} (label value : string) : Eff S RagStoreError unit :=
  if bool_decide (strip value = "") then raise (RagValueError (label +:+ " must not be empty")) else mret tt.

Section Store.
  Context {V : Type} (serialize_float32 : list Q → V) (vec0_accepts : Z → bool).

Record RagDb := {
  rg_collections : gmap Z CollectionRow; rg_chunks : gmap Z ChunkRow;
  rg_vectors : gmap Z (gmap Z V)       (* the rag_vec_<id> tables *)
}.

Abbreviation R_eff := (Eff RagDb RagStoreError).

Definition empty_rag : RagDb := {| rg_collections := ∅; rg_chunks := ∅; rg_vectors := ∅ |}.

(** The next rowid of an [INTEGER PRIMARY KEY]: one more than the largest. *)
Definition next_rowid {A} (m : gmap Z A) : Z := (1 + map_fold (λ k _ acc, Z.max k acc) 0 m)%Z.

(** [_collection_by_name] *)
Definition collection_by_name (name : string) (d : RagDb) : option Collection :=
  p ← head (filter (λ p : Z * CollectionRow, cl_name p.2 = name) (map_to_list (rg_collections d)));
  Some {| co_id := p.1; co_name := cl_name p.2; co_model_id := cl_model_id p.2; co_dims := cl_dims p.2 |}.

(** [_require_collection] *)
Definition require_collection (name : string) : R_eff Collection :=
  c ← gets (collection_by_name name);
  match c with
  | None => raise (CollectionNotFoundError name)
  | Some c => mret c
  end.

Definition insert_collection (row : CollectionRow) (d : RagDb) : RagDb :=
  let id := next_rowid (rg_collections d) in
  {| rg_collections := <[id := row]> (rg_collections d); rg_chunks := rg_chunks d;
     rg_vectors := <[id := ∅]> (rg_vectors d) |}.

Definition create_collection (name : string) (model : model_id) (dims : Z) : R_eff Collection :=
  require_text "collection name" name ;;
  require_text "model id" model ;;
  if (dims <=? 0)%Z then raise (RagValueError "collection dimensions must be positive")
  else
    existing ← gets (collection_by_name name);
    match existing with
    | Some c =>
        if negb (bool_decide (co_model_id c = model)) || negb (co_dims c =? dims)%Z
        then raise (CollectionConflictError c) else mret c
    | None =>
        if negb (vec0_accepts dims) then raise VectorTableError   (* the INSERT is rolled back *)
        else
        id ← gets (λ d : RagDb, next_rowid (rg_collections d));
        modify (insert_collection {| cl_name := name; cl_model_id := model; cl_dims := dims |}) ;;
        mret {| co_id := id; co_name := name; co_model_id := model; co_dims := dims |}
    end.

Definition list_collections (d : RagDb) : list Collection :=
  py_sorted co_name
    ((λ p : Z * CollectionRow, {| co_id := p.1; co_name := cl_name p.2; co_model_id := cl_model_id p.2; co_dims := cl_dims p.2 |})
     <$> map_to_list (rg_collections d)).

(** [_serialize_embedding] *)
Definition serialize_embedding (embedding : list (option Q)) (dims : Z) : R_eff V :=
  if negb (Z.of_nat (length embedding) =? dims)%Z
  then raise (DimensionMismatchError dims (Z.of_nat (length embedding)))
  else
    match mapM id embedding with
    | None => raise (RagValueError "embedding values must be finite")
    | Some values => mret (serialize_float32 values)
    end.

(** A chunk with its metadata and vector as they are stored. *)
Record Prepared := { pr_id : string; pr_text : string; pr_metadata : JBody; pr_vector : V }.

(** [_prepare_chunk] *)
Definition prepare_chunk (dims : Z) (c : Chunk) : R_eff Prepared :=
  require_text "chunk id" (ck_id c) ;;
  match sorted_object (ck_metadata c) with
  | None => raise (RagValueError "chunk metadata is not JSON serializable")
  | Some metadata =>
      v ← serialize_embedding (ck_embedding c) dims;
      mret {| pr_id := ck_id c; pr_text := ck_text c; pr_metadata := metadata; pr_vector := v |}
  end.

Fixpoint prepare_chunks (dims : Z) (chunks : list Chunk) : R_eff (list Prepared) :=
  match chunks with
  | [] => mret []
  | c :: rest => p ← prepare_chunk dims c; ps ← prepare_chunks dims rest; mret (p :: ps)
  end.

(** The [SELECT row_id] of [_upsert_chunk_row]. *)
Definition chunk_row (cid : Z) (chunk_id : string) (d : RagDb) : option Z :=
  fst <$> head (filter (λ p : Z * ChunkRow, cr_collection p.2 = cid ∧ cr_chunk_id p.2 = chunk_id)
                  (map_to_list (rg_chunks d))).

(** [_upsert_chunk_row], and the two statements on the vector table. *)
Definition put_chunk (cid : Z) (p : Prepared) (d : RagDb) : RagDb :=
  let row_id := default (next_rowid (rg_chunks d)) (chunk_row cid (pr_id p) d) in
  {| rg_collections := rg_collections d;
     rg_chunks := <[row_id := {| cr_collection := cid; cr_chunk_id := pr_id p; cr_text := pr_text p;
                                 cr_metadata := pr_metadata p |}]> (rg_chunks d);
     rg_vectors := alter (λ t, <[row_id := pr_vector p]> (delete row_id t)) cid (rg_vectors d) |}.

Definition upsert (name : string) (chunks : list Chunk) : R_eff unit :=
  require_text "collection name" name ;;
  if bool_decide (length chunks = 0%nat) then mret tt
  else
    collection ← require_collection name;
    prepared ← prepare_chunks (co_dims collection) chunks;
    if bool_decide (NoDup (pr_id <$> prepared))
    then modify (λ d, fold_left (λ d p, put_chunk (co_id collection) p d) prepared d)
    else raise (RagValueError "one upsert batch cannot contain duplicate chunk ids").

(** ** Search *)

Section Query.
  Context (vec_match : gmap Z V → V → Z → list (Z * Q)).

(** The rows of [... JOIN rag_chunks ... ORDER BY v.distance, c.chunk_id]. *)
Definition joined_rows (cid : Z) (v : V) (k : Z) (d : RagDb) : list SearchResult :=
  py_sorted (λ r, (sr_distance r, sr_id r))
    (omap (λ p : Z * Q,
       row ← rg_chunks d !! p.1;
       Some {| sr_id := cr_chunk_id row; sr_text := cr_text row; sr_metadata := cr_metadata row; sr_distance := p.2 |})
     (vec_match (default ∅ (rg_vectors d !! cid)) v k)).

Definition query (name : string) (embedding : list (option Q)) (k : Z) : R_eff (list SearchResult) :=
  require_text "collection name" name ;;
  if (k <=? 0)%Z then raise (RagValueError "query result count must be positive")
  else
    collection ← require_collection name;
    v ← serialize_embedding embedding (co_dims collection);
    gets (joined_rows (co_id collection) v k).
End Query.
End Store.
Arguments RagDb : clear implicits.
Arguments Prepared : clear implicits.
