(* ===== verification/RagStoreSpec.v ===== *)
(** * What the vector store promises

    The tables implement a map from collection names to their model, dimensions and
    chunks by id; a search returns exactly the nearest chunks of its collection, in
    order. *)

From S2P Require Export RagStore.

Section Spec.
  Context {V : Type} (serialize_float32 : list Q → V).
  Notation DB := (RagDb V).
  Notation upsert := (upsert serialize_float32).
  Implicit Types d : DB.

Lemma next_rowid_fresh {A} (m : gmap Z A) : m !! next_rowid m = None.
Proof.
  assert (Hle : ∀ k x, m !! k = Some x → (k ≤ map_fold (λ k _ acc, Z.max k acc) 0 m)%Z).
  { apply (map_fold_weak_ind (λ b m, ∀ k x, m !! k = Some x → (k ≤ b)%Z)); [done |].
    intros i x m' b Hi IH k y. rewrite lookup_insert_Some. intros [[<- _] | [_ Hk]]; [lia |]. pose proof (IH k y Hk). lia. }
  destruct (m !! next_rowid m) as [x |] eqn:Hm; [| done]. apply Hle in Hm. unfold next_rowid in Hm. lia.
Qed.

(** ** The tables *)

Record rag_ok (d : DB) : Prop := {
  ro_names i j c c' : rg_collections d !! i = Some c → rg_collections d !! j = Some c' → cl_name c = cl_name c' → i = j;
  ro_ids i j r r' : rg_chunks d !! i = Some r → rg_chunks d !! j = Some r' →
    cr_collection r = cr_collection r' → cr_chunk_id r = cr_chunk_id r' → i = j;
  ro_owner i r : rg_chunks d !! i = Some r → is_Some (rg_collections d !! cr_collection r);
  ro_table cid c : rg_collections d !! cid = Some c →
    (0 < cl_dims c)%Z ∧ ∃ t, rg_vectors d !! cid = Some t ∧
      (∀ i, is_Some (t !! i) ↔ ∃ r, rg_chunks d !! i = Some r ∧ cr_collection r = cid) ∧
      (∀ i v, t !! i = Some v → ∃ l, v = serialize_float32 l ∧ Z.of_nat (length l) = cl_dims c)
}.

Lemma empty_rag_ok : rag_ok empty_rag.
Proof. by split. Qed.

Lemma head_filter_unique {A} (P : Z * A → Prop) `{∀ p, Decision (P p)} (m : gmap Z A) i x :
  m !! i = Some x → P (i, x) → (∀ j y, m !! j = Some y → P (j, y) → j = i) →
  head (filter P (map_to_list m)) = Some (i, x).
Proof.
  intros Hi HP Hu. destruct (head (filter P (map_to_list m))) as [[j y] |] eqn:Hh.
  - apply head_Some_elem_of, list_elem_of_filter in Hh as [Hj Hin]. apply elem_of_map_to_list in Hin.
    pose proof (Hu j y Hin Hj). by simplify_eq.
  - apply head_None in Hh. assert ((i, x) ∈ filter P (map_to_list m)) as Hin; [| by rewrite Hh in Hin; apply elem_of_nil in Hin].
    apply list_elem_of_filter. split; [done |]. by apply elem_of_map_to_list.
Qed.

Lemma head_filter_some {A} (P : Z * A → Prop) `{∀ p, Decision (P p)} (m : gmap Z A) p :
  head (filter P (map_to_list m)) = Some p → m !! p.1 = Some p.2 ∧ P p.
Proof.
  intros Hh. apply head_Some_elem_of, list_elem_of_filter in Hh as [HP Hin]. destruct p. split; [| done].
  by apply elem_of_map_to_list in Hin.
Qed.

Lemma head_filter_none {A} (P : Z * A → Prop) `{∀ p, Decision (P p)} (m : gmap Z A) i x :
  head (filter P (map_to_list m)) = None → m !! i = Some x → ~ P (i, x).
Proof.
  intros Hh Hi HP. apply head_None in Hh. assert ((i, x) ∈ filter P (map_to_list m)) as Hin.
  { apply list_elem_of_filter. split; [done |]. by apply elem_of_map_to_list. }
  rewrite Hh in Hin. by apply elem_of_nil in Hin.
Qed.

Definition collection_at (d : DB) (c : Collection) : Prop :=
  rg_collections d !! co_id c = Some {| cl_name := co_name c; cl_model_id := co_model_id c; cl_dims := co_dims c |}.

Lemma by_name_some d name c :
  rag_ok d → collection_by_name name d = Some c ↔ collection_at d c ∧ co_name c = name.
Proof.
  intros Hok. unfold collection_by_name, collection_at. split.
  - destruct (head _) as [[i r] |] eqn:Hh; [| done]. cbn. intros [= <-]. apply head_filter_some in Hh as [Hi Hn].
    cbn in *. split; [by destruct r | done].
  - intros [Hc <-]. rewrite (head_filter_unique _ _ _ _ Hc); cbn; [by destruct c | done |].
    intros j y Hj Hn. by eapply (ro_names _ Hok).
Qed.

Lemma by_name_none d name :
  collection_by_name name d = None → ∀ i c, rg_collections d !! i = Some c → cl_name c ≠ name.
Proof.
  unfold collection_by_name. destruct (head _) eqn:Hh; [done |]. intros _ i c Hi. by apply (head_filter_none _ _ i c Hh) in Hi.
Qed.

Lemma list_collections_elem d c : c ∈ list_collections d ↔ collection_at d c.
Proof.
  unfold list_collections, collection_at. rewrite (py_sorted_perm co_name), list_elem_of_fmap. split.
  - intros ([i row] & -> & Hin). apply elem_of_map_to_list in Hin. cbn. by destruct row.
  - intros Hc. eexists (co_id c, _). split; [| by apply elem_of_map_to_list]. by destruct c.
Qed.

Lemma chunk_row_some d cid id i :
  rag_ok d → chunk_row cid id d = Some i ↔
  ∃ r, rg_chunks d !! i = Some r ∧ cr_collection r = cid ∧ cr_chunk_id r = id.
Proof.
  intros Hok. unfold chunk_row. split.
  - intros (p & Hh & ->)%fmap_Some. apply head_filter_some in Hh as [Hi [Hc Hn]]. eauto.
  - intros (r & Hi & <- & <-). rewrite (head_filter_unique _ _ _ _ Hi); [done | done |].
    intros j y Hj [Hc Hn]. by eapply (ro_ids _ Hok).
Qed.

Lemma chunk_row_none d cid id i r :
  chunk_row cid id d = None → rg_chunks d !! i = Some r → cr_collection r = cid → cr_chunk_id r ≠ id.
Proof.
  unfold chunk_row. intros Hn%fmap_None Hi Hc Hid. by apply (head_filter_none _ _ i r Hn Hi).
Qed.

(** ** What a collection holds *)

Definition Entry : Type := string * JBody * V.

Definition stored (d : DB) (cid : Z) (id : string) (e : Entry) : Prop :=
  ∃ i r t v, rg_chunks d !! i = Some r ∧ cr_collection r = cid ∧ cr_chunk_id r = id ∧
    rg_vectors d !! cid = Some t ∧ t !! i = Some v ∧ e = (cr_text r, cr_metadata r, v).

Lemma stored_functional d cid id e e' : rag_ok d → stored d cid id e → stored d cid id e' → e = e'.
Proof.
  intros Hok (i & r & t & v & Hi & Hc & Hid & Ht & Hv & ->) (j & r' & t' & v' & Hj & Hc' & Hid' & Ht' & Hv' & ->).
  assert (i = j) as <- by (eapply (ro_ids _ Hok); eauto; congruence). by simplify_eq.
Qed.

Definition entry_of (p : Prepared V) : Entry := (pr_text p, pr_metadata p, pr_vector p).

(** ** One chunk *)

Definition sized (dims : Z) (p : Prepared V) : Prop :=
  ∃ l, pr_vector p = serialize_float32 l ∧ Z.of_nat (length l) = dims.

Section Put.
  Context (d : DB) (cid : Z) (c : CollectionRow) (p : Prepared V).
  Context (Hok : rag_ok d) (Hc : rg_collections d !! cid = Some c) (Hp : sized (cl_dims c) p).
Let i : Z := default (next_rowid (rg_chunks d)) (chunk_row cid (pr_id p) d).
Let row : ChunkRow :=
    {| cr_collection := cid; cr_chunk_id := pr_id p; cr_text := pr_text p; cr_metadata := pr_metadata p |}.

(** The row written is the chunk's own, or new. *)
Lemma put_row :
  (∃ r, rg_chunks d !! i = Some r ∧ cr_collection r = cid ∧ cr_chunk_id r = pr_id p) ∨
  (rg_chunks d !! i = None ∧
   ∀ j r, rg_chunks d !! j = Some r → cr_collection r = cid → cr_chunk_id r ≠ pr_id p).
Proof using Hok.
  subst i. destruct (chunk_row cid (pr_id p) d) as [i |] eqn:Hr; cbn.
  - left. by apply chunk_row_some in Hr.
  - right. split; [apply next_rowid_fresh |]. intros j r. by apply chunk_row_none.
Qed.

Lemma put_chunk_ok : rag_ok (put_chunk cid p d).
Proof using Hok Hc Hp.
  destruct (ro_table _ Hok cid c Hc) as (Hd & t & Ht & Hrows & Hvec). pose proof put_row as Hrow.
  unfold put_chunk. fold i row. split; cbn.
  - apply Hok.
  - intros j k r r'. rewrite !lookup_insert_Some. intros [[<- <-] | [Hj Hr]] [[<- <-] | [Hk Hr']]; cbn; intros Hcc Hid; [done | | |].
    + destruct Hrow as [(r0 & Hi & ? & ?) | [_ Hno]]; [eapply (ro_ids _ Hok); eauto; congruence |].
      by destruct (Hno k r' Hr' (eq_sym Hcc)).
    + destruct Hrow as [(r0 & Hi & ? & ?) | [_ Hno]]; [eapply (ro_ids _ Hok); eauto; congruence |]. by destruct (Hno j r Hr Hcc).
    + by eapply (ro_ids _ Hok).
  - intros j r. rewrite lookup_insert_Some. intros [[<- <-] | [_ Hr]]; cbn; [by eexists | by eapply (ro_owner _ Hok)].
  - intros cid' c' Hc'. destruct (ro_table _ Hok cid' c' Hc') as (Hd' & t' & Ht' & Hrows' & Hvec'). split; [done |].
    destruct (decide (cid' = cid)) as [-> | Hne].
    + rewrite Hc in Hc'. injection Hc' as <-.
      exists (<[i := pr_vector p]> (delete i t)). rewrite lookup_alter_eq, Ht. split_and!; [done | |].
      * intros j. destruct (decide (j = i)) as [-> | Hj].
        { rewrite !lookup_insert_eq. split; [intros _; by exists row | by eexists]. }
        rewrite !lookup_insert_ne, lookup_delete_ne by done. apply Hrows.
      * intros j v. rewrite lookup_insert_Some. intros [[<- <-] | [Hj Hv]]; [done |].
        rewrite lookup_delete_ne in Hv by done. by apply (Hvec j).
    + exists t'. rewrite lookup_alter_ne by done. split_and!; [done | | done].
      intros j. rewrite Hrows'. destruct (decide (j = i)) as [-> | Hj]; [| by rewrite lookup_insert_ne].
      rewrite lookup_insert_eq. split; intros (r & Hr & Hcr); [| simplify_eq; by destruct Hne].
      destruct Hrow as [(r0 & Hi & ? & ?) | [Hno _]]; congruence.
Qed.

Lemma put_chunk_stored cid' id e :
  stored (put_chunk cid p d) cid' id e ↔
  (cid' = cid ∧ id = pr_id p ∧ e = entry_of p) ∨ (~ (cid' = cid ∧ id = pr_id p) ∧ stored d cid' id e).
Proof using Hok Hc Hp.
  destruct (ro_table _ Hok cid c Hc) as (Hd & t & Ht & Hrows & Hvec). pose proof put_row as Hrow.
  unfold put_chunk. fold i row. unfold stored at 1. cbn. split.
  - intros (j & r & t' & v & Hr & <- & <- & Ht' & Hv & ->). rewrite lookup_insert_Some in Hr. destruct Hr as [[<- <-] | [Hj Hr]]; cbn in *.
    + left. rewrite lookup_alter_eq, Ht in Ht'. injection Ht' as <-. rewrite lookup_insert_eq in Hv. by simplify_eq.
    + right. split.
      { intros [Hcr Hid]. destruct Hrow as [(r0 & Hi & ? & ?) | [_ Hno]]; [| by apply (Hno j r)].
        apply Hj. symmetry. eapply (ro_ids _ Hok); eauto; congruence. }
      destruct (decide (cr_collection r = cid)) as [He | Hne].
      * rewrite He in Ht'. rewrite lookup_alter_eq, Ht in Ht'. injection Ht' as <-. rewrite lookup_insert_ne, lookup_delete_ne in Hv by done.
        exists j, r, t, v. rewrite He. by split_and!.
      * rewrite lookup_alter_ne in Ht' by done. by exists j, r, t', v.
  - intros [(-> & -> & ->) | (Hne & j & r & t' & v & Hr & <- & <- & Ht' & Hv & ->)].
    + exists i, row, (<[i := pr_vector p]> (delete i t)), (pr_vector p). rewrite !lookup_insert_eq, lookup_alter_eq, Ht. by split_and!.
    + assert (Hj : j ≠ i).
      { intros ->. destruct Hrow as [(r0 & Hi & ? & ?) | [Hno _]]; [| congruence]. simplify_eq. by apply Hne. }
      destruct (decide (cr_collection r = cid)) as [He | Hcid].
      * exists j, r, (<[i := pr_vector p]> (delete i t)), v. rewrite He in Ht'. rewrite He, lookup_insert_ne, lookup_alter_eq, Ht by done.
        simplify_eq. rewrite lookup_insert_ne, lookup_delete_ne by done. by split_and!.
      * exists j, r, t', v. rewrite lookup_insert_ne, lookup_alter_ne by done. by split_and!.
Qed.
End Put.

(** ** A batch *)

Lemma put_all_ok d cid c ps :
  rag_ok d → rg_collections d !! cid = Some c → Forall (sized (cl_dims c)) ps → NoDup (pr_id <$> ps) →
  let d' := fold_left (λ d p, put_chunk cid p d) ps d in
  rag_ok d' ∧ rg_collections d' = rg_collections d ∧
  ∀ cid' id e, stored d' cid' id e ↔
    (cid' = cid ∧ ∃ p, p ∈ ps ∧ id = pr_id p ∧ e = entry_of p) ∨
    (~ (cid' = cid ∧ id ∈ pr_id <$> ps) ∧ stored d cid' id e).
Proof.
  intros Hok Hc Hps. revert d Hok Hc; induction Hps as [| p ps Hp Hps IH]; intros d Hok Hc Hnd; cbn.
  - split_and!; [done | done |]. intros cid' id e. split; [intros Hs; right; split; [by intros [_ ?%elem_of_nil] | done] |].
    intros [(_ & p & ?%elem_of_nil & _) | [_ ?]]; done.
  - apply NoDup_cons in Hnd as [Hnin Hnd].
    destruct (IH (put_chunk cid p d) (put_chunk_ok d cid c p Hok Hc Hp) Hc Hnd) as (Hok' & Hcoll & Hst).
    split_and!; [done | by rewrite Hcoll |]. intros cid' id e. rewrite Hst, (put_chunk_stored d cid c p Hok Hc Hp).
    split.
    + intros [(-> & q & Hq & -> & ->) | (Hne & [(-> & -> & ->) | (Hne' & Hs)])].
      * left. split; [done |]. exists q. split_and!; [by right | done | done].
      * left. split; [done |]. exists p. split_and!; [by left | done | done].
      * right. split; [| done]. intros (-> & Hin). apply elem_of_cons in Hin as [-> | Hin]; [by apply Hne' | by apply Hne].
    + intros [(-> & q & Hq & -> & ->) | (Hne & Hs)].
      * apply elem_of_cons in Hq as [-> | Hq]; [right | left; eauto 8]. split; [by intros [_ ?] | by left].
      * right. split; [intros (-> & Hin); apply Hne; split; [done | by right] |]. right. split; [| done].
        intros (-> & ->). apply Hne. split; [done | by left].
Qed.

(** ** The abstract store *)

Record AColl := { ac_model : model_id; ac_dims : Z; ac_entries : gmap string Entry }.
Abbreviation AStore := (gmap string AColl).

(** [d] implements [a]. *)
Definition implements (d : DB) (a : AStore) : Prop :=
  ∀ name, match a !! name with
          | None => collection_by_name name d = None
          | Some ac => ∃ c, collection_by_name name d = Some c ∧ co_model_id c = ac_model ac ∧ co_dims c = ac_dims ac ∧
                         ∀ id e, ac_entries ac !! id = Some e ↔ stored d (co_id c) id e
          end.

Definition blank (s : string) : bool := bool_decide (strip s = "").

(** [None]: refused. *)
Definition a_create (vec0_accepts : Z → bool) (name : string) (model : model_id) (dims : Z) (a : AStore) : option AStore :=
  if blank name || blank model || (dims <=? 0)%Z then None
  else
    match a !! name with
    | Some ac => if bool_decide (ac_model ac = model) && (ac_dims ac =? dims)%Z then Some a else None
    | None => if negb (vec0_accepts dims) then None else Some (<[name := {| ac_model := model; ac_dims := dims; ac_entries := ∅ |}]> a)
    end.

(** A chunk a collection of [dims] dimensions takes, and what it then holds of it. *)
Definition chunk_valid (dims : Z) (c : Chunk) : Prop :=
  strip (ck_id c) ≠ "" ∧ is_Some (sorted_object (ck_metadata c)) ∧
  Z.of_nat (length (ck_embedding c)) = dims ∧ Forall is_Some (ck_embedding c).

#[global] Instance chunk_valid_dec dims c : Decision (chunk_valid dims c).
Proof. apply _. Defined.

Definition chunk_entry (c : Chunk) : Entry :=
  (ck_text c, default [] (sorted_object (ck_metadata c)), serialize_float32 (omap id (ck_embedding c))).

Definition a_put (chunks : list Chunk) (ac : AColl) : AColl := {|
  ac_model := ac_model ac; ac_dims := ac_dims ac;
  ac_entries := list_to_map ((λ c, (ck_id c, chunk_entry c)) <$> chunks) ∪ ac_entries ac |}.

Definition a_upsert (name : string) (chunks : list Chunk) (a : AStore) : option AStore :=
  if blank name then None
  else if bool_decide (length chunks = 0%nat) then Some a
  else
    ac ← a !! name;
    if bool_decide (Forall (chunk_valid (ac_dims ac)) chunks ∧ NoDup (ck_id <$> chunks))
    then Some (<[name := a_put chunks ac]> a) else None.

(** [c] run on [d] does what the abstract step does on [a]. *)
Definition refines {A} (c : Eff DB RagStoreError A) (step : AStore → option AStore) (d : DB) (a : AStore) : Prop :=
  match c d, step a with
  | (d', inr _), Some a' => rag_ok d' ∧ implements d' a'
  | (d', inl _), None => d' = d
  | _, _ => False
  end.

Lemma require_text_eq {A} label value (k : unit → Eff DB RagStoreError A) d :
  (require_text label value ≫= k) d =
  if blank value then (d, inl (RagValueError (label +:+ " must not be empty"))) else k tt d.
Proof. unfold require_text, blank, mbind, eff_bind, raise, mret, eff_ret. by destruct (bool_decide _). Qed.

Lemma require_collection_eq {A} name (k : Collection → Eff DB RagStoreError A) d :
  (require_collection name ≫= k) d =
  match collection_by_name name d with Some c => k c d | None => (d, inl (CollectionNotFoundError name)) end.
Proof. unfold require_collection, mbind, eff_bind, gets, raise, mret, eff_ret. by destruct (collection_by_name name d). Qed.

(** A batch is prepared when every chunk is valid, chunk by chunk. *)
Definition prepared (c : Chunk) : Prepared V := {|
  pr_id := ck_id c; pr_text := ck_text c; pr_metadata := default [] (sorted_object (ck_metadata c));
  pr_vector := serialize_float32 (omap id (ck_embedding c)) |}.

Lemma mapM_id_omap (l : list (option Q)) : mapM id l = if bool_decide (Forall is_Some l) then Some (omap id l) else None.
Proof.
  induction l as [| [q |] l IH]; [done | |].
  - cbn [mapM id mbind option_bind]. rewrite IH, (bool_decide_ext (Forall is_Some (Some q :: l)) (Forall is_Some l)); [by destruct (bool_decide _) |].
    rewrite Forall_cons. naive_solver.
  - rewrite bool_decide_eq_false_2; [done |]. intros [[? ?] _]%Forall_cons. done.
Qed.

Lemma prepare_chunk_cases dims c (d : DB) :
  (chunk_valid dims c ∧ prepare_chunk serialize_float32 dims c d = (d, inr (prepared c))) ∨
  (~ chunk_valid dims c ∧ ∃ e, prepare_chunk serialize_float32 dims c d = (d, inl e)).
Proof.
  unfold prepare_chunk, serialize_embedding, require_text, mbind, eff_bind, raise, mret, eff_ret, chunk_valid, prepared.
  destruct (bool_decide (strip _ = "")) eqn:Hb; reflect_bools; [right; split; [by intros [? _] | eauto] |].
  destruct (sorted_object _) as [m |]; [| right; split; [intros (_ & [? ?] & _); done | eauto]].
  destruct (_ =? _)%Z eqn:Hl; reflect_bools; cbn [negb]; [| right; split; [by intros (_ & _ & ? & _) | eauto]].
  rewrite mapM_id_omap. destruct (bool_decide (Forall _ _)) eqn:Hf; reflect_bools; [left | right; split; [by intros (_ & _ & _ & ?) | eauto]].
  by split; [split_and!; eauto |].
Qed.

Lemma prepare_chunks_cases dims chunks (d : DB) :
  (Forall (chunk_valid dims) chunks ∧ prepare_chunks serialize_float32 dims chunks d = (d, inr (prepared <$> chunks))) ∨
  (~ Forall (chunk_valid dims) chunks ∧ ∃ e, prepare_chunks serialize_float32 dims chunks d = (d, inl e)).
Proof.
  induction chunks as [| c chunks IH]; [by left |]. cbn [prepare_chunks]. rewrite Forall_cons. unfold mbind, eff_bind.
  destruct (prepare_chunk_cases dims c d) as [[Hc ->] | [Hc [e ->]]]; [| right; split; [by intros [? _] | by eexists]].
  destruct IH as [[Hcs ->] | [Hcs [e ->]]]; [by left | right; split; [by intros [_ ?] | by eexists]].
Qed.

Lemma prepared_sized dims chunks :
  Forall (chunk_valid dims) chunks → Forall (sized dims) (prepared <$> chunks).
Proof.
  intros Hv. apply Forall_fmap. eapply Forall_impl; [exact Hv |]. intros c (_ & _ & Hl & Hf). eexists. split; [done |].
  pose proof (mapM_id_omap (ck_embedding c)) as Hm. rewrite bool_decide_eq_true_2 in Hm by done.
  apply mapM_Some, Forall2_length in Hm. lia.
Qed.

Lemma insert_collection_ok d row :
  rag_ok d → (0 < cl_dims row)%Z → (∀ i c, rg_collections d !! i = Some c → cl_name c ≠ cl_name row) →
  rag_ok (insert_collection row d) ∧
  ∀ cid id e, stored (insert_collection row d) cid id e ↔ stored d cid id e.
Proof.
  intros Hok Hdims Hnew. pose proof (next_rowid_fresh (rg_collections d)) as Hfresh. set (n := next_rowid _) in *.
  assert (Hno : ∀ i r, rg_chunks d !! i = Some r → cr_collection r ≠ n).
  { intros i r Hr He. destruct (ro_owner _ Hok i r Hr) as [c Hc]. congruence. }
  unfold insert_collection. fold n. split; [split; cbn |].
  - intros i j c c'. rewrite !lookup_insert_Some. intros [[<- <-] | [_ Hi]] [[<- <-] | [_ Hj]] Hn; [done | | |].
    + by destruct (Hnew j c' Hj).
    + by destruct (Hnew i c Hi).
    + by eapply (ro_names _ Hok).
  - apply Hok.
  - intros i r Hr. rewrite lookup_insert_ne by (intros He; eapply Hno; [done | congruence]). by eapply (ro_owner _ Hok).
  - intros cid c. rewrite lookup_insert_Some. intros [[<- <-] | [Hne Hc]].
    + split; [done |]. exists ∅. rewrite lookup_insert_eq. split_and!; [done | | done].
      intros i. rewrite lookup_empty. split; [by intros [? ?] |]. intros (r & Hr & He). by destruct (Hno i r Hr).
    + destruct (ro_table _ Hok cid c Hc) as (Hd & t & Ht & Hrest). split; [done |]. exists t. by rewrite lookup_insert_ne.
  - intros cid id e. unfold stored. cbn. split; intros (i & r & t & v & Hr & Hcr & Hid & Ht & Hv & ->); exists i, r, t, v.
    + rewrite lookup_insert_ne in Ht by (intros He; eapply Hno; [done | congruence]). done.
    + rewrite lookup_insert_ne by (intros He; eapply Hno; [done | congruence]). done.
Qed.

Lemma create_refines vec0_accepts name model dims d a :
  rag_ok d → implements d a → refines (create_collection vec0_accepts name model dims) (a_create vec0_accepts name model dims) d a.
Proof.
  intros Hok Himp. unfold refines, create_collection, a_create. rewrite !require_text_eq.
  destruct (blank name); [done |]. destruct (blank model); [done |]. cbn [orb]. destruct (dims <=? 0)%Z eqn:Hd; [done |]. reflect_bools.
  unfold mbind, eff_bind, gets, modify, raise, mret, eff_ret. cbv beta iota. pose proof (Himp name) as Hn.
  destruct (a !! name) as [ac |] eqn:Ha.
  - destruct Hn as (c & Hc & Hm & Hdim & _). rewrite Hc, Hm, Hdim. by destruct (bool_decide _), (_ =? _)%Z.
  - rewrite Hn. destruct (vec0_accepts dims); cbn [negb]; [| done]. set (row := {| cl_name := name; cl_model_id := model; cl_dims := dims |}).
    destruct (insert_collection_ok d row Hok Hd (by_name_none d name Hn)) as [Hok' Hst]. split; [done |].
    assert (Hback : ∀ c, collection_at (insert_collection row d) c ↔
      (c = {| co_id := next_rowid (rg_collections d); co_name := name; co_model_id := model; co_dims := dims |} ∨ collection_at d c)).
    { intros c. unfold collection_at, insert_collection. cbn. rewrite lookup_insert_Some. pose proof (next_rowid_fresh (rg_collections d)) as Hf.
      destruct c as [i n m k]. cbn. split.
      - intros [[<- [= -> -> ->]] | [_ ?]]; auto.
      - intros [[= -> -> -> ->] | Hi]; [by left | right]. split; [congruence | done]. }
    intros n. destruct (decide (n = name)) as [-> | Hne].
    + rewrite lookup_insert_eq. eexists. split; [apply by_name_some; [done |]; split; [apply Hback; by left | done] |].
      cbn. split_and!; [done | done |]. intros id e. rewrite lookup_empty. split; [done |]. intros (i & r & t & v & Hr & Hcr & _)%Hst.
      destruct (ro_owner _ Hok i r Hr) as [c Hc]. rewrite Hcr, next_rowid_fresh in Hc. done.
    + rewrite lookup_insert_ne by done. specialize (Himp n). destruct (a !! n) as [ac |].
      * destruct Himp as (c & Hc & Hm & Hdim & Hent). exists c. apply by_name_some in Hc as [Hc <-]; [| done].
        split; [apply by_name_some; [done |]; split; [apply Hback; by right | done] |].
        split_and!; [done | done |]. intros id e. by rewrite Hst.
      * destruct (collection_by_name n (insert_collection row d)) as [c |] eqn:Hc; [| done].
        apply by_name_some in Hc as [Hc <-]; [| done]. apply Hback in Hc as [-> | Hc]; [done |].
        assert (collection_by_name (co_name c) d = Some c) by (by apply by_name_some). congruence.
Qed.

Lemma a_put_entries chunks ac id e :
  NoDup (ck_id <$> chunks) →
  ac_entries (a_put chunks ac) !! id = Some e ↔
  (∃ c, c ∈ chunks ∧ id = ck_id c ∧ e = chunk_entry c) ∨ (id ∉ ck_id <$> chunks ∧ ac_entries ac !! id = Some e).
Proof.
  intros Hnd. cbn. assert (Hk : ((λ c, (ck_id c, chunk_entry c)) <$> chunks).*1 = ck_id <$> chunks) by (by rewrite <- list_fmap_compose).
  rewrite lookup_union_Some_raw. rewrite <- elem_of_list_to_map by (by rewrite Hk). rewrite <- not_elem_of_list_to_map, Hk, list_elem_of_fmap.
  split.
  - intros [(c & [= -> ->] & Hc) | ?]; [left; eauto | by right].
  - intros [(c & Hc & -> & ->) | ?]; [left; eauto | by right].
Qed.

Lemma upsert_refines name chunks d a :
  rag_ok d → implements d a → refines (upsert name chunks) (a_upsert name chunks) d a.
Proof.
  intros Hok Himp. unfold refines, RagStore.upsert, a_upsert. rewrite require_text_eq.
  destruct (blank name); [done |]. destruct (bool_decide (length chunks = 0%nat)); [done |].
  rewrite require_collection_eq. pose proof (Himp name) as Hn.
  destruct (a !! name) as [ac |] eqn:Ha; [| by rewrite Hn]. destruct Hn as (c & Hc & Hm & Hdim & Hent). rewrite Hc.
  cbn [mbind option_bind]. rewrite Hdim. unfold mbind at 1, eff_bind at 1.
  destruct (prepare_chunks_cases (ac_dims ac) chunks d) as [[Hv ->] | [Hv [e ->]]]; [| by rewrite bool_decide_eq_false_2 by (by intros [? _])].
  assert (Hid : pr_id <$> (prepared <$> chunks) = ck_id <$> chunks) by (by rewrite <- list_fmap_compose).
  rewrite Hid. destruct (bool_decide (NoDup _)) eqn:Hnd; reflect_bools; [| by rewrite bool_decide_eq_false_2 by (by intros [_ ?])].
  rewrite bool_decide_eq_true_2 by done. pose proof (prepared_sized _ _ Hv) as Hsz. set (ps := prepared <$> chunks) in *.
  assert (Hps : ∀ id e, (∃ p, p ∈ ps ∧ id = pr_id p ∧ e = entry_of p) ↔ ∃ c, c ∈ chunks ∧ id = ck_id c ∧ e = chunk_entry c).
  { intros id e. unfold ps. setoid_rewrite list_elem_of_fmap. naive_solver. }
  apply by_name_some in Hc as Hat; [| done]. destruct Hat as [Hat Hname].
  destruct (put_all_ok d (co_id c) _ ps Hok Hat ltac:(cbn; by rewrite Hdim) ltac:(by rewrite Hid)) as (Hok' & Hcoll & Hst).
  unfold modify. split; [done |]. set (d' := fold_left _ ps d) in *.
  assert (Hby : ∀ n, collection_by_name n d' = collection_by_name n d).
  { intros n. unfold collection_by_name. by rewrite Hcoll. }
  intros n. rewrite Hby. destruct (decide (n = name)) as [-> | Hne].
  - rewrite lookup_insert_eq. exists c. split_and!; [done | done | done |]. intros id e. rewrite a_put_entries, Hst, Hent, Hps, Hid by done.
    split; [intros [? | [? ?]]; [by left | right] | intros [[_ ?] | [Hno ?]]; [by left | right]]; (split; [| done]).
    + by intros [_ ?].
    + intros ?. by apply Hno.
  - rewrite lookup_insert_ne by done. specialize (Himp n). destruct (a !! n) as [ac' |]; [| done].
    destruct Himp as (c' & Hc' & Hm' & Hd' & Hent'). exists c'. split_and!; [done | done | done |]. intros id e. rewrite Hst, Hent'.
    assert (Hcid : co_id c' ≠ co_id c).
    { intros He. apply by_name_some in Hc' as [Hat' <-]; [| done]. apply Hne. rewrite <- Hname. unfold collection_at in *.
      rewrite He, Hat in Hat'. by simplify_eq. }
    split; [intros ?; right; split; [by intros [? _] | done] | by intros [[? _] | [_ ?]]].
Qed.

(** C16: The store's tables implement a map from collection names to their model,
    dimensions and chunks by id: creating a collection and upserting a batch succeed
    exactly when the map's operations do, lead to tables that implement the new map,
    and a refused call leaves the tables alone.  The map takes a batch when every chunk
    has an id, metadata JSON can express and as many components as the collection has
    dimensions, all finite, and no id comes twice; whichever dimensions sqlite-vec takes
    for a vector table. *)
Theorem rag_store_refines vec0_accepts d a :
  rag_ok d → implements d a →
  (∀ name model dims, refines (create_collection vec0_accepts name model dims) (a_create vec0_accepts name model dims) d a) ∧
  (∀ name chunks, refines (upsert name chunks) (a_upsert name chunks) d a).
Proof. intros Hok Himp. split; intros; [by apply create_refines | by apply upsert_refines]. Qed.

(** ** Search *)

Section Search.
  Context (vec_match : gmap Z V → V → Z → list (Z * Q)) (dist : V → V → Q).

(** What sqlite-vec documents of [embedding MATCH v AND k = n]: the [k] nearest rows,
    each once, with their distances. *)
Definition nearest_rows (t : gmap Z V) (v : V) (k : Z) (l : list (Z * Q)) : Prop :=
  NoDup l.*1 ∧ (∀ i q, (i, q) ∈ l → ∃ w, t !! i = Some w ∧ q = dist v w) ∧
  length l = Nat.min (Z.to_nat k) (size t) ∧
  ∀ i w j q, t !! i = Some w → i ∉ l.*1 → (j, q) ∈ l → (q <= dist v w)%Q.

Context (vec_match_nearest : ∀ t v k, (0 < k)%Z → nearest_rows t v k (vec_match t v k)).

Definition result_of (d : DB) (p : Z * Q) : option SearchResult :=
  row ← rg_chunks d !! p.1;
  Some {| sr_id := cr_chunk_id row; sr_text := cr_text row; sr_metadata := cr_metadata row; sr_distance := p.2 |}.

Lemma omap_total {A B} (f : A → option B) (l : list A) : (∀ x, x ∈ l → is_Some (f x)) → length (omap f l) = length l.
Proof.
  induction l as [| x l IH]; intros Hf; [done |]. cbn. destruct (Hf x) as [y ->]; [by left |]. cbn. rewrite IH; [done |].
  intros z Hz. apply Hf. by right.
Qed.

Lemma results_distinct d (m : list (Z * Q)) cid :
  rag_ok d → NoDup m.*1 → (∀ p, p ∈ m → ∃ row, rg_chunks d !! p.1 = Some row ∧ cr_collection row = cid) →
  NoDup (sr_id <$> omap (result_of d) m).
Proof.
  intros Hok. induction m as [| [i q] m IH]; intros Hnd Hrow; [constructor |]. apply NoDup_cons in Hnd as [Hni Hnd].
  destruct (Hrow (i, q)) as (row & Hr & Hc); [by left |]. unfold result_of at 1. cbn in Hr |- *. rewrite Hr. cbn.
  apply NoDup_cons. split; [| apply IH; [done |]; intros p Hp; apply Hrow; by right].
  intros Hin. apply list_elem_of_fmap in Hin as (r & Hid & Hin). apply list_elem_of_omap in Hin as ([j q'] & Hj & Hrj).
  destruct (Hrow (j, q')) as (row' & Hr' & Hc'); [by right |]. unfold result_of in Hrj. cbn in *. rewrite Hr' in Hrj. injection Hrj as <-.
  cbn in Hid. assert (i = j) as -> by (eapply (ro_ids _ Hok); eauto; congruence).
  apply Hni, list_elem_of_fmap. by exists (j, q').
Qed.

Lemma query_spec d name embedding k d' rs :
  rag_ok d → RagStore.query serialize_float32 vec_match name embedding k d = (d', inr rs) →
  d' = d ∧ ∃ c v t, collection_by_name name d = Some c ∧ rg_vectors d !! co_id c = Some t ∧
    length rs = Nat.min (Z.to_nat k) (size t) ∧ NoDup (sr_id <$> rs) ∧
    StronglySorted (key_rel (λ r, (sr_distance r, sr_id r))) rs ∧
    (∀ r, r ∈ rs → ∃ w, stored d (co_id c) (sr_id r) (sr_text r, sr_metadata r, w) ∧ sr_distance r = dist v w) ∧
    (∀ id e r, stored d (co_id c) id e → (∀ r', r' ∈ rs → sr_id r' ≠ id) → r ∈ rs → (sr_distance r <= dist v e.2)%Q).
Proof.
  intros Hok. unfold RagStore.query. rewrite require_text_eq. destruct (blank name); [done |]. destruct (k <=? 0)%Z eqn:Hk; [done |]. reflect_bools.
  rewrite require_collection_eq. destruct (collection_by_name name d) as [c |] eqn:Hc; [| done].
  unfold serialize_embedding, mbind, eff_bind, gets, raise, mret, eff_ret. destruct (negb _); [done |].
  destruct (mapM _ _) as [l |]; [| done]. intros [= <- <-]. split; [done |].
  apply by_name_some in Hc as Hat; [| done]. destruct (ro_table _ Hok _ _ (proj1 Hat)) as (_ & t & Ht & Hrows & _).
  exists c, (serialize_float32 l), t. unfold joined_rows. rewrite Ht. cbn [default].
  destruct (vec_match_nearest t (serialize_float32 l) k Hk) as (Hnd & Hin & Hlen & Hfar). set (m := vec_match t _ k) in *.
  change (omap _ m) with (omap (result_of d) m). set (f := λ r, (sr_distance r, sr_id r)).
  assert (Hmem : ∀ r, r ∈ py_sorted f (omap (result_of d) m) ↔ ∃ p, p ∈ m ∧ result_of d p = Some r).
  { intros r. rewrite (py_sorted_perm f). apply list_elem_of_omap. }
  assert (Hrow : ∀ i q, (i, q) ∈ m → ∃ w row, t !! i = Some w ∧ q = dist (serialize_float32 l) w ∧
    rg_chunks d !! i = Some row ∧ cr_collection row = co_id c).
  { intros i q Hi. destruct (Hin i q Hi) as (w & Hw & ->). destruct (proj1 (Hrows i) (ex_intro _ w Hw)) as (row & ? & ?). eauto 8. }
  split_and!; [done | done | | | apply py_sorted_sorted | |].
  - rewrite (py_sorted_perm f), omap_total; [done |]. intros [i q] Hi. destruct (Hrow i q Hi) as (w & row & _ & _ & Hr & _).
    unfold result_of. cbn. rewrite Hr. by eexists.
  - rewrite (py_sorted_perm f). apply (results_distinct d m (co_id c)); [done | done |]. intros [i q] Hi.
    destruct (Hrow i q Hi) as (w & row & _ & _ & ? & ?). by exists row.
  - intros r ([i q] & Hi & Hr)%Hmem. destruct (Hrow i q Hi) as (w & row & Hw & -> & Hrw & Hcr).
    unfold result_of in Hr. cbn in Hr. rewrite Hrw in Hr. injection Hr as <-. exists w. split; [| done]. by exists i, row, t, w.
  - intros id e r (i & row & t' & w & Hr & Hcr & Hid & Ht' & Hw & ->) Hno ([j q] & Hj & Hrj)%Hmem. simplify_eq. cbn.
    destruct (Hrow j q Hj) as (w' & row' & _ & _ & Hr' & _). unfold result_of in Hrj. cbn in Hrj. rewrite Hr' in Hrj. injection Hrj as <-. cbn.
    apply (Hfar i w j q Hw); [| done]. intros Hm. apply list_elem_of_fmap in Hm as ([i' q'] & -> & Hm).
    apply (Hno {| sr_id := cr_chunk_id row; sr_text := cr_text row; sr_metadata := cr_metadata row; sr_distance := q' |}); [| done].
    apply Hmem. exists (i', q'). split; [done |]. unfold result_of. cbn in *. by rewrite Hr.
Qed.

(** A search returns chunks of its own collection only, as many as asked for
    or all there are, each with its distance from the query, nearest first and ties
    by chunk id, and no chunk left out is nearer than one returned. *)
Theorem query_nearest d name embedding k d' rs :
  rag_ok d → RagStore.query serialize_float32 vec_match name embedding k d = (d', inr rs) →
  d' = d ∧ ∃ c v t, collection_by_name name d = Some c ∧ rg_vectors d !! co_id c = Some t ∧
    length rs = Nat.min (Z.to_nat k) (size t) ∧ NoDup (sr_id <$> rs) ∧
    StronglySorted (key_rel (λ r, (sr_distance r, sr_id r))) rs ∧
    (∀ r, r ∈ rs → ∃ w, stored d (co_id c) (sr_id r) (sr_text r, sr_metadata r, w) ∧ sr_distance r = dist v w) ∧
    (∀ id e r, stored d (co_id c) id e → (∀ r', r' ∈ rs → sr_id r' ≠ id) → r ∈ rs → (sr_distance r <= dist v e.2)%Q).
Proof. apply query_spec. Qed.
End Search.
End Spec.

(** ** A concrete store *)

(** Exhaustive search. *)
Definition brute_force {V} (dist : V → V → Q) (t : gmap Z V) (v : V) (k : Z) : list (Z * Q) :=
  take (Z.to_nat k) (py_sorted snd ((λ p : Z * V, (p.1, dist v p.2)) <$> map_to_list t)).

Lemma sorted_take_drop {A} (R : relation A) n l x y :
  StronglySorted R l → x ∈ take n l → y ∈ drop n l → R x y.
Proof.
  revert l; induction n as [| n IH]; intros l Hs Hx Hy; [by apply elem_of_nil in Hx |].
  destruct Hs as [| z l Hs Hz]; [by apply elem_of_nil in Hx |]. cbn in Hx, Hy. apply elem_of_cons in Hx as [-> | Hx]; [| by apply (IH l)].
  rewrite Forall_forall in Hz. apply Hz. rewrite <- (take_drop n l). apply elem_of_app. by right.
Qed.

Lemma brute_force_nearest {V} (dist : V → V → Q) t v k : nearest_rows dist t v k (brute_force dist t v k).
Proof.
  unfold nearest_rows, brute_force. set (l := (λ p : Z * V, (p.1, dist v p.2)) <$> map_to_list t).
  pose proof (py_sorted_perm snd l) as Hp. pose proof (py_sorted_sorted snd l) as Hs. set (sl := py_sorted snd l) in *. set (n := Z.to_nat k).
  assert (Hkeys : sl.*1 ≡ₚ (map_to_list t).*1).
  { rewrite Hp. unfold l. rewrite <- list_fmap_compose. by apply reflexive_eq, list_fmap_ext. }
  assert (Hmem : ∀ i q, (i, q) ∈ sl → ∃ w, t !! i = Some w ∧ q = dist v w).
  { intros i q. rewrite Hp. intros ([j w] & [= -> ->] & Hj)%list_elem_of_fmap. exists w. by apply elem_of_map_to_list in Hj. }
  assert (Hall : ∀ i w, t !! i = Some w → (i, dist v w) ∈ sl).
  { intros i w Hi. rewrite Hp. apply list_elem_of_fmap. exists (i, w). split; [done | by apply elem_of_map_to_list]. }
  split_and!.
  - rewrite fmap_take. eapply sublist_NoDup; [| apply sublist_take]. rewrite Hkeys. apply NoDup_fst_map_to_list.
  - intros i q Hi. apply Hmem. eapply elem_of_sublist; [exact Hi | apply sublist_take].
  - rewrite length_take. f_equal. rewrite (Permutation_length Hp). unfold l. by rewrite length_fmap, length_map_to_list.
  - intros i w j q Hi Hni Hj. pose proof (Hall i w Hi) as Hin. rewrite <- (take_drop n sl) in Hin.
    apply elem_of_app in Hin as [Hin | Hin]; [by destruct Hni; apply list_elem_of_fmap; exists (i, dist v w) |].
    pose proof (sorted_take_drop _ n sl (j, q) (i, dist v w) Hs Hj Hin) as Hr. by apply Qle_bool_iff in Hr.
Qed.

Definition taxicab (v w : list Q) : Q := foldr Qplus 0%Q (zip_with (λ a b, if a <?q b then (b - a)%Q else (a - b)%Q) v w).

Definition docs : RagDb (list Q) := (create_collection (λ _, true) "docs" "e" 2 empty_rag).1.
Definition docs_chunks : list Chunk := [
  {| ck_id := "x"; ck_text := "near"; ck_metadata := []; ck_embedding := [Some 1%Q; Some 0%Q] |};
  {| ck_id := "y"; ck_text := "far"; ck_metadata := []; ck_embedding := [Some 5%Q; Some 5%Q] |} ].
Definition docs_filled : RagDb (list Q) := (upsert id "docs" docs_chunks docs).1.
Definition docs_abstract : gmap string (AColl (V := list Q)) := default ∅ (a_create (λ _, true) "docs" "e" 2 ∅).

Lemma docs_implements : rag_ok id docs ∧ implements docs docs_abstract.
Proof.
  assert (Hempty : implements (V := list Q) empty_rag ∅) by done.
  exact (create_refines id (λ _, true) "docs" "e" 2 empty_rag ∅ (empty_rag_ok id) Hempty).
Qed.

Lemma rag_store_refines_witness : rag_ok id docs_filled.
Proof.
  destruct docs_implements as [Hok Himp].
  exact (proj1 (proj2 (rag_store_refines id (λ _, true) docs docs_abstract Hok Himp) "docs" docs_chunks)).
Defined.

Lemma query_nearest_witness :
  ∃ r, (query id (brute_force taxicab) "docs" [Some 0%Q; Some 0%Q] 1 docs_filled).2 = inr [r] ∧ sr_text r = "near".
Proof.
  destruct (query id (brute_force taxicab) "docs" [Some 0%Q; Some 0%Q] 1 docs_filled) as [d' [e | rs]] eqn:Hq; [vm_compute in Hq; congruence |].
  assert (Hok : rag_ok id docs_filled).
  { destruct docs_implements as [Hok Himp]. exact (proj1 (upsert_refines id "docs" docs_chunks docs docs_abstract Hok Himp)). }
  destruct (query_nearest id (brute_force taxicab) taxicab (λ t v k _, brute_force_nearest taxicab t v k)
    docs_filled "docs" [Some 0%Q; Some 0%Q] 1 d' rs Hok Hq) as (-> & c & v & t & _ & _ & Hlen & _).
  exists {| sr_id := "x"; sr_text := "near"; sr_metadata := []; sr_distance := 1 |}.
  vm_compute in Hq. injection Hq as <-. split; reflexivity.
Defined.
