(* ===== verification/Chunker.v ===== *)
(** * Splitting a job into work units

    Models src/packages/fallow-coordinator/src/fallow_coordinator/app/chunker.py.
    What the file system holds at the payload path is an argument, a line of a
    .jsonl file by what [json.loads] made of it; text is ASCII.  The units' inputs
    are the files to write, named by their digest. *)

From S2P Require Export Protocol Bytes.

Definition CHUNKER_VERSION : string := "1".

Inductive ChunkError :=
  | UnsupportedKind | NotADirectory | EmptyDirectory | EmptyCorpus | NotJsonl | NoSuchPath
  | MalformedLine (lineno : nat).

(** A line after [strip]: nothing, [str(obj["text"])], or an exception. *)
Inductive JsonLine := BlankLine | TextLine (text : string) | BadLine.

Inductive Payload :=
  | JsonlFile (lines : list JsonLine)
  | OtherFile
  | Directory (files : list (string * bytes))
  | Missing.

(** [_read_jsonl_texts] *)
Fixpoint read_jsonl_texts (lineno : nat) (lines : list JsonLine) : ChunkError + list string :=
  match lines with
  | [] => inr []
  | BlankLine :: rest => read_jsonl_texts (S lineno) rest
  | BadLine :: _ => inl (MalformedLine lineno)
  | TextLine text :: rest =>
      match read_jsonl_texts (S lineno) rest with
      | inl e => inl e
      | inr texts => inr (text :: texts)
      end
  end.

Definition sorted_files (files : list (string * bytes)) : list (string * bytes) := py_sorted fst files.

(** [_load_embed_texts] *)
Definition load_embed_texts (p : Payload) : ChunkError + list string :=
  match p with
  | JsonlFile lines => read_jsonl_texts 1 lines
  | OtherFile => inl NotJsonl
  | Directory files => inr ((λ f, String.string_of_list_byte f.2) <$> sorted_files files)
  | Missing => inl NoSuchPath
  end.

(** [itertools.batched] *)
Fixpoint batched {A} (fuel n : nat) (l : list A) : list (list A) :=
  match fuel, l with
  | S fuel, _ :: _ => take n l :: batched fuel n (drop n l)
  | _, _ => []
  end.

(** [json.dumps(list(group))] *)
Definition dump_strings (group : list string) : string := "[" +:+ join ", " (json_string <$> group) +:+ "]".

Section Chunker.
  Context (sha256 : bytes → bytes).

Definition hexdigest (b : bytes) : string := to_hex (sha256 b).

Definition unit_id_of (model : model_id) (input_hash : string) : unit_id :=
  hexdigest (String.list_byte_of_string (model +:+ CHUNKER_VERSION +:+ input_hash)).

(** [_store_unit]: the spec, and the file to write unless it exists. *)
Definition store_unit (model : model_id) (blob : bytes) (idx : Z) : WorkUnitSpec * (string * bytes) :=
  let input_hash := hexdigest blob in
  ({| us_work_unit_id := unit_id_of model input_hash; us_idx := idx; us_input_ref := input_hash;
      us_est_duration_s := None |}, (input_hash, blob)).

(** [enumerate] *)
Definition store_units (model : model_id) (blobs : list bytes) : list (WorkUnitSpec * (string * bytes)) :=
  imap (λ i blob, store_unit model blob (Z.of_nat i)) blobs.

Definition embed_blobs (chunks_per_unit : nat) (texts : list string) : list bytes :=
  (λ g, String.list_byte_of_string (dump_strings g)) <$> batched (length texts) chunks_per_unit texts.

Definition chunk_embed (model : model_id) (p : Payload) (chunks_per_unit : nat)
    : ChunkError + list (WorkUnitSpec * (string * bytes)) :=
  match load_embed_texts p with
  | inl e => inl e
  | inr [] => inl EmptyCorpus
  | inr texts => inr (store_units model (embed_blobs chunks_per_unit texts))
  end.

Definition chunk_transcribe (model : model_id) (p : Payload) : ChunkError + list (WorkUnitSpec * (string * bytes)) :=
  match p with
  | Directory [] => inl EmptyDirectory
  | Directory files => inr (store_units model (snd <$> sorted_files files))
  | _ => inl NotADirectory
  end.

Definition chunk_job (job : JobSubmit) (p : Payload) (chunks_per_unit : nat)
    : ChunkError + list (WorkUnitSpec * (string * bytes)) :=
  match js_kind job with
  | EMBED => chunk_embed (js_model_id job) p chunks_per_unit
  | TRANSCRIBE => chunk_transcribe (js_model_id job) p
  | CHAT => inl UnsupportedKind
  end.

(** ** What the units are *)

Lemma batched_spec {A} n fuel (l : list A) :
  (0 < n)%nat → (length l ≤ fuel)%nat →
  concat (batched fuel n l) = l ∧ Forall (λ g, 0 < length g ≤ n)%nat (batched fuel n l).
Proof.
  intros Hn. revert l; induction fuel as [| fuel IH]; intros l Hf; cbn [batched].
  { destruct l; [by split | cbn in Hf; lia]. }
  destruct l as [| x l]; [by split |]. destruct (IH (drop n (x :: l))) as [Hc Hg].
  { rewrite length_drop. cbn in *. lia. }
  cbn [concat]. rewrite Hc, take_drop. split; [done |]. constructor; [| done]. rewrite length_take. cbn. lia.
Qed.

Lemma hexdigest_inj a b : hexdigest a = hexdigest b → a = b ∨ collision sha256.
Proof. unfold hexdigest. intros Heq%to_hex_inj. destruct (decide (a = b)); [by left | right]. by exists a, b. Qed.

Lemma bytes_of_string_inj s t : String.list_byte_of_string s = String.list_byte_of_string t → s = t.
Proof. intros He. rewrite <- (String.string_of_list_byte_of_string s), He. apply String.string_of_list_byte_of_string. Qed.

Lemma string_app_length (s t : string) : String.length (s +:+ t) = (String.length s + String.length t)%nat.
Proof. induction s as [| c s IH]; [done |]. change (S (String.length (s +:+ t)) = S (String.length s + String.length t)%nat). by rewrite IH. Qed.

Lemma string_app_inj (s s' t t' : string) :
  String.length t = String.length t' → s +:+ t = s' +:+ t' → s = s' ∧ t = t'.
Proof.
  intros Ht He. assert (Hs : String.length s = String.length s').
  { apply (f_equal String.length) in He. rewrite !string_app_length in He. lia. }
  clear Ht. revert s' Hs He; induction s as [| c s IH]; intros [| c' s'] Hs He; cbn in *; [done | done | done |].
  injection He as <- He. injection Hs as Hs. destruct (IH s' Hs He) as [-> ->]. done.
Qed.

Section Ids.
  Context (digest_size : ∀ b, length (sha256 b) = 32%nat).

Lemma hexdigest_length b : String.length (hexdigest b) = 64%nat.
Proof using digest_size.
  assert (Hl : ∀ l : list ascii, String.length (String.string_of_list_ascii l) = length l).
  { intros l. induction l as [| c l IH]; cbn; [done | by rewrite IH]. }
  unfold hexdigest, to_hex. rewrite Hl. specialize (digest_size b). revert digest_size.
  assert (Hb : ∀ bs : bytes, length (bs ≫= hex_byte) = (2 * length bs)%nat).
  { intros bs. induction bs as [| x bs IH]; [done |]. cbn [mbind list_bind]. rewrite length_app. cbn in IH. rewrite IH. cbn. lia. }
  rewrite Hb. lia.
Qed.

Lemma unit_id_inj m m' b b' :
  unit_id_of m (hexdigest b) = unit_id_of m' (hexdigest b') → (m = m' ∧ b = b') ∨ collision sha256.
Proof using digest_size.
  unfold unit_id_of. intros [He | ?]%hexdigest_inj; [| by right]. apply bytes_of_string_inj in He.
  apply string_app_inj in He as [-> He]; [| rewrite !string_app_length, !hexdigest_length; done].
  apply string_app_inj in He as [_ He]; [| by rewrite !hexdigest_length].
  apply hexdigest_inj in He as [-> | ?]; [by left | by right].
Qed.
End Ids.

(** The units of an embed job: consecutive groups of the corpus. *)
Lemma chunk_embed_groups model p n units :
  (0 < n)%nat → chunk_embed model p n = inr units →
  ∃ groups, load_embed_texts p = inr (concat groups) ∧ Forall (λ g, 0 < length g ≤ n)%nat groups ∧
    units = imap (λ i g, store_unit model (String.list_byte_of_string (dump_strings g)) (Z.of_nat i)) groups.
Proof.
  intros Hn. unfold chunk_embed. destruct (load_embed_texts p) as [e | [| t texts]] eqn:Hl; [done | done |].
  intros [= <-]. destruct (batched_spec n (length (t :: texts)) (t :: texts) Hn ltac:(lia)) as [Hc Hg].
  exists (batched (length (t :: texts)) n (t :: texts)). split_and!; [by rewrite Hc | done |].
  unfold store_units, embed_blobs. by rewrite imap_fmap.
Qed.

(** An embed job is split into consecutive groups of at most [chunks_per_unit]
    texts that together are exactly the corpus, numbered in order, each input named
    by its digest; and units are content-addressed: for digests of 32 bytes two units
    have the same id exactly when they have the same model and input, unless SHA-256
    collides. *)
Theorem embed_units_exact model p n units :
  (0 < n)%nat → (∀ b, length (sha256 b) = 32%nat) → chunk_embed model p n = inr units →
  (∃ groups, load_embed_texts p = inr (concat groups) ∧ Forall (λ g, 0 < length g ≤ n)%nat groups ∧
     units = imap (λ i g, store_unit model (String.list_byte_of_string (dump_strings g)) (Z.of_nat i)) groups) ∧
  ∀ u model' b i, u ∈ units →
    (model' = model → b = u.2.2 → us_work_unit_id (store_unit model' b i).1 = us_work_unit_id u.1) ∧
    (us_work_unit_id (store_unit model' b i).1 = us_work_unit_id u.1 → (model' = model ∧ b = u.2.2) ∨ collision sha256).
Proof.
  intros Hn Hsz Hu. destruct (chunk_embed_groups _ _ _ _ Hn Hu) as (groups & Hg). split; [eauto |].
  destruct Hg as (_ & _ & ->). intros u model' b i [k Hk]%list_elem_of_lookup. rewrite list_lookup_imap in Hk.
  apply fmap_Some in Hk as (g & _ & ->). cbn. split; [by intros -> -> | by apply unit_id_inj].
Qed.
End Chunker.

(** ** A concrete job *)

Definition pad32 (b : bytes) : bytes := take 32 (b ++ replicate 32 Byte.x00).

Lemma pad32_size b : length (pad32 b) = 32%nat.
Proof. unfold pad32. rewrite length_take, length_app, length_replicate. lia. Qed.

Lemma embed_units_exact_witness :
  ∃ groups, load_embed_texts (JsonlFile [TextLine "a"; BlankLine; TextLine "b"; TextLine "c"]) = inr (concat groups) ∧
    length groups = 2%nat.
Proof.
  destruct (chunk_embed pad32 "m" (JsonlFile [TextLine "a"; BlankLine; TextLine "b"; TextLine "c"]) 2) as [e | units] eqn:Hu;
    [vm_compute in Hu; congruence |].
  destruct (embed_units_exact pad32 "m" _ 2 units ltac:(lia) pad32_size Hu) as [(groups & Hl & _ & He) _].
  exists groups. split; [exact Hl |]. apply (f_equal length) in He. rewrite length_imap in He. rewrite <- He.
  vm_compute in Hu. injection Hu as <-. reflexivity.
Defined.
