(* ===== verification/RagIngest.v ===== *)
(** * Document ingestion

    Models src/packages/fallow-coordinator/src/fallow_coordinator/app/rag_ingestion.py
    and the ingestion routes of app/admin_routes.py: a document upload becomes an
    embed job; when the job is done, its results are checked and written to the
    vector store.  What [json.loads] makes of a stored file is an argument.  A float
    is an exact rational; the conversion of an integer to one overflows where
    Python's does. *)

From S2P Require Import QueueStore.
From S2P Require Export RagStore Chunker.

Definition COLLECTION_PARAM : string := "rag_collection".

Inductive IngestionState := RUNNING_ | READY_ | PARTIAL.

Record IngestionStatus := {
  is_ingestion_id : job_id; is_state : IngestionState; is_total_units : nat; is_done_units : nat; is_dead_units : nat;
  is_indexed_chunks : Z
}.

Inductive IngestionError :=
  | IngestionNotFoundError
  | IngestionPayloadError (message : string)
  | IngestValueError (message : string)
  | IngestChunkError (e : ChunkError)
  | IngestQueueError (e : QueueError)
  | IngestSinkError (e : RagStoreError)
  | IngestOverflowError.               (* int too large to convert to float *)

(** ** The sink *)

(** [VectorSink] of rag/protocols.py. *)
Class VectorSink (W : Type) := {
  sink_create : string → model_id → Z → Eff W RagStoreError Collection;
  sink_upsert : string → list Chunk → Eff W RagStoreError unit
}.

#[export] Instance rag_vector_store {V} (serialize_float32 : list Q → V) (vec0_accepts : Z → bool) : VectorSink (RagDb V) := {|
  sink_create := create_collection vec0_accepts; sink_upsert := upsert serialize_float32 |}.

(** ** Checking payloads *)

Definition OVERFLOW : Z := (2 ^ 1024 - 2 ^ 970)%Z.

(** [float(item)] of a JSON number, [math.isfinite] of it: [inl tt] raises. *)
Definition float_item (v : Json) : unit + option Q :=
  match v with
  | JInt z => if (OVERFLOW <=? Z.abs z)%Z then inl tt else inr (Some (inject_Z z))
  | JFloat (Some q) => inr (Some q)
  | _ => inr None                      (* no number, or not finite *)
  end.

(** [all(... for item in raw)], and the row it checks. *)
Fixpoint float_row (raw : list Json) : unit + option (list Q) :=
  match raw with
  | [] => inr (Some [])
  | v :: rest =>
      match float_item v with
      | inl e => inl e
      | inr None => inr None
      | inr (Some q) =>
          match float_row rest with
          | inl e => inl e
          | inr None => inr None
          | inr (Some qs) => inr (Some (q :: qs))
          end
      end
  end.

Fixpoint float_rows (dims : Z) (rows : list Json) : IngestionError + list (list Q) :=
  match rows with
  | [] => inr []
  | JArr raw :: rest =>
      if negb (Z.of_nat (length raw) =? dims)%Z then inl (IngestionPayloadError "invalid embedding")
      else
        match float_row raw with
        | inl _ => inl IngestOverflowError
        | inr None => inl (IngestionPayloadError "invalid embedding")
        | inr (Some qs) =>
            match float_rows dims rest with
            | inl e => inl e
            | inr rows => inr (qs :: rows)
            end
        end
  | _ :: _ => inl (IngestionPayloadError "invalid embedding")
  end.

(** [_parse_texts]: [None] is a file that cannot be read or parsed. *)
Definition parse_texts (file : option Json) : IngestionError + list string :=
  match file with
  | None => inl (IngestionPayloadError "could not read unit input")
  | Some (JArr l) =>
      match mapM item_text l with
      | Some texts => inr texts
      | None => inl (IngestionPayloadError "unit input is not a string array")
      end
  | Some _ => inl (IngestionPayloadError "unit input is not a string array")
  end.

(** [_parse_payload] *)
Definition parse_payload (file : option Json) (expected : nat) : IngestionError + (model_id * Z * list (list Q)) :=
  match file with
  | Some (JObj f) =>
      match od_get "model_id" f, od_get "dims" f, od_get "embeddings" f with
      | Some model, Some dims, Some raw =>
          match model, dims with
          | JStr model, JInt dims =>
              if (dims <=? 0)%Z then inl (IngestionPayloadError "invalid model metadata")
              else
                match raw with
                | JArr rows =>
                    if negb (length rows =? expected)%nat then inl (IngestionPayloadError "wrong number of rows")
                    else
                      match float_rows dims rows with
                      | inl e => inl e
                      | inr embeddings => inr (model, dims, embeddings)
                      end
                | _ => inl (IngestionPayloadError "wrong number of rows")
                end
          | _, _ => inl (IngestionPayloadError "invalid model metadata")
          end
      | _, _, _ => inl (IngestionPayloadError "could not parse result payload")
      end
  | _ => inl (IngestionPayloadError "could not parse result payload")
  end.

(** [_result_path] *)
Definition result_ref_ok (ref : string) : bool :=
  let cs := String.list_ascii_of_string ref in (length cs =? 64)%nat && forallb is_hex cs.

Section Ingestion.
  Context (sha256 : bytes → bytes) {W : Type} `{!VectorSink W} (chunks_per_unit : nat)
          (load_input load_result : string → option Json).

(** [_chunk_id] *)
Definition chunk_id (text : string) : string := hexdigest sha256 (String.list_byte_of_string text).

Definition ingest_chunk (text : string) (embedding : list Q) : Chunk := {|
  ck_id := chunk_id text; ck_text := text; ck_metadata := []; ck_embedding := Some <$> embedding |}.

(** ** Finalizing *)

(** What the loop of [_finalize] has gathered. *)
Record Gathered := { ga_chunks : odict Chunk; ga_dims : option Z }.

Definition add_chunk (g : odict Chunk) (c : Chunk) : odict Chunk := od_set (ck_id c) c g.

(** One unit of the loop. *)
Definition gather_unit (model : model_id) (g : Gathered) (u : JobUnitOutcome) : IngestionError + Gathered :=
  if bool_decide (o_state u = DEAD) then inr g
  else if bool_decide (o_result_status u = Some FAILED) then inr g
  else
    match o_state u, o_result_ref u with
    | DONE, Some ref =>
        match parse_texts (load_input (o_input_ref u)) with
        | inl e => inl e
        | inr texts =>
            if negb (result_ref_ok ref) then inl (IngestionPayloadError "invalid payload reference")
            else
              match parse_payload (load_result ref) (length texts) with
              | inl e => inl e
              | inr (m, dims, embeddings) =>
                  if negb (bool_decide (m = model)) then inl (IngestionPayloadError "unit returned another model")
                  else
                    match ga_dims g with
                    | Some k => if negb (k =? dims)%Z then inl (IngestionPayloadError "inconsistent dimensions")
                                else inr {| ga_chunks := fold_left add_chunk (zip_with ingest_chunk texts embeddings) (ga_chunks g);
                                            ga_dims := Some dims |}
                    | None => inr {| ga_chunks := fold_left add_chunk (zip_with ingest_chunk texts embeddings) (ga_chunks g);
                                     ga_dims := Some dims |}
                    end
              end
        end
    | _, _ => inl (IngestionPayloadError "completed ingestion unit has no payload")
    end.

Fixpoint gather (model : model_id) (g : Gathered) (units : list JobUnitOutcome) : IngestionError + Gathered :=
  match units with
  | [] => inr g
  | u :: rest =>
      match gather_unit model g u with
      | inl e => inl e
      | inr g => gather model g rest
      end
  end.

Definition lift_sink {A} (c : Eff W RagStoreError A) : Eff W IngestionError A := λ w,
  match c w with
  | (w', inl e) => (w', inl (IngestSinkError e))
  | (w', inr a) => (w', inr a)
  end.

(** [_finalize] *)
Definition finalize (collection : string) (details : JobDetails) : Eff W IngestionError Z :=
  match gather (jd_model_id details) {| ga_chunks := []; ga_dims := None |} (jd_units details) with
  | inl e => raise e
  | inr g =>
      let chunks := snd <$> ga_chunks g in
      match chunks, ga_dims g with
      | [], _ => mret 0%Z
      | _ :: _, Some dims =>
          lift_sink (sink_create collection (jd_model_id details) dims) ;;
          lift_sink (sink_upsert collection chunks) ;;
          mret (Z.of_nat (length chunks))
      | _ :: _, None => mret 0%Z       (* the assertion; see [gather_dims] *)
      end
  end.

(** ** The service *)

Record Ingestion := { in_queue : Db; in_sink : W; in_inputs : gmap string bytes }.

Abbreviation I_eff := (Eff Ingestion IngestionError).

Definition on_queue {A} (c : Eff Db QueueError A) : I_eff A := λ s,
  match c (in_queue s) with
  | (q, inl e) => ({| in_queue := q; in_sink := in_sink s; in_inputs := in_inputs s |}, inl (IngestQueueError e))
  | (q, inr a) => ({| in_queue := q; in_sink := in_sink s; in_inputs := in_inputs s |}, inr a)
  end.

Definition on_sink {A} (c : Eff W IngestionError A) : I_eff A := λ s,
  match c (in_sink s) with
  | (w, r) => ({| in_queue := in_queue s; in_sink := w; in_inputs := in_inputs s |}, r)
  end.

Definition require_ingest_text (label value : string) : I_eff unit :=
  if bool_decide (strip value = "") then raise (IngestValueError (label +:+ " must not be empty")) else mret tt.

Definition store_input (f : string * bytes) : I_eff unit :=
  modify (λ s, {| in_queue := in_queue s; in_sink := in_sink s;
                  in_inputs := match in_inputs s !! f.1 with
                               | Some _ => in_inputs s
                               | None => <[f.1 := f.2]> (in_inputs s)
                               end |}).

(** The corpus file [_store_corpus] writes, as [chunk_job] reads it back: one line
    per text, every line break inside a text escaped by [json.dumps]. *)
Definition corpus_lines (texts : list string) : Payload := JsonlFile (TextLine <$> texts).

Definition ingest_job (collection : string) (model : model_id) (corpus : string) : JobSubmit := {|
  js_kind := EMBED; js_model_id := model; js_payload_ref := corpus; js_params := {[COLLECTION_PARAM := collection]};
  js_priority := 0 |}.

(** [submit]; [corpus] is the path of the corpus file. *)
Definition submit (collection : string) (model : model_id) (texts : list string) (corpus : string) (fresh_id : job_id)
    (now : instant) : I_eff JobStatus :=
  require_ingest_text "collection" collection ;;
  require_ingest_text "model id" model ;;
  if bool_decide (texts = []) then raise (IngestValueError "document upload must contain at least one chunk")
  else
    for_each (require_ingest_text "chunk text") texts ;;
    let job := ingest_job collection model corpus in
    match chunk_job sha256 job (corpus_lines texts) chunks_per_unit with
    | inl e => raise (IngestChunkError e)
    | inr units =>
        for_each store_input (snd <$> units) ;;
        id ← on_queue (submit_job job (fst <$> units) true fresh_id now);
        status ← on_queue (job_status id);
        match status with
        | None => raise (IngestValueError "ingestion job vanished after submission")
        | Some st => mret st
        end
    end.

(** [_status] *)
Definition status_of (st : JobStatus) (state : IngestionState) (indexed : Z) : IngestionStatus := {|
  is_ingestion_id := st_job_id st; is_state := state; is_total_units := st_total_units st;
  is_done_units := st_done_units st; is_dead_units := st_dead_units st; is_indexed_chunks := indexed |}.

Definition any_failed (details : JobDetails) : bool :=
  existsb (λ u, bool_decide (o_result_status u = Some FAILED)) (jd_units details).

Definition status (collection : string) (id : job_id) : I_eff IngestionStatus :=
  st ← on_queue (job_status id);
  details ← on_queue (job_details id);
  match st, details with
  | Some st, Some details =>
      if negb (bool_decide (jd_params details !! COLLECTION_PARAM = Some collection)) then raise IngestionNotFoundError
      else if negb (bool_decide (st_state st = JOB_DONE)) then mret (status_of st RUNNING_ 0)
      else
        indexed ← on_queue (job_finalization id);
        indexed ← match indexed with
                  | Some n => mret n
                  | None =>
                      n ← on_sink (finalize collection details);
                      on_queue (mark_job_finalized id n)
                  end;
        mret (status_of st (if negb (st_dead_units st =? 0)%nat || any_failed details then PARTIAL else READY_) indexed)
  | _, _ => raise IngestionNotFoundError
  end.
End Ingestion.
