(* ===== verification/RagIngestSpec.v ===== *)
(** * What ingestion promises

    Proved against the interface of the sink: finalizing a job writes all of its
    texts under their digests or nothing at all, a finished ingestion is finalized
    once, and the vector store is such a sink. *)

From S2P Require Import QueueSpec.
From S2P Require Export RagStoreSpec RagIngest.

(** What ingestion relies on. *)
Class VectorSinkLaws (W : Type) `{!VectorSink W} := {
  sink_inv : W → Prop;
  sink_has : W → string → model_id → Z → Prop;        (* a collection, its model and dimensions *)
  sink_holds : W → string → string → string → Prop;   (* a chunk of it: id and text *)
  create_effect w name model dims w' r :
    sink_inv w → sink_create name model dims w = (w', r) →
    match r with
    | inr _ => sink_inv w' ∧ strip name ≠ "" ∧ sink_has w' name model dims ∧ ∀ n id t, sink_holds w' n id t ↔ sink_holds w n id t
    | inl _ => w' = w
    end;
  create_refused w name model dims m k :
    sink_inv w → sink_has w name m k → m ≠ model ∨ k ≠ dims → ∃ e, sink_create name model dims w = (w, inl e);
  upsert_total w name model dims chunks :
    sink_inv w → strip name ≠ "" → sink_has w name model dims → chunks ≠ [] → Forall (chunk_valid dims) chunks → NoDup (ck_id <$> chunks) →
    ∃ w', sink_upsert name chunks w = (w', inr tt) ∧ sink_inv w' ∧
      ∀ n id t, sink_holds w' n id t ↔
        (n = name ∧ ∃ c, c ∈ chunks ∧ ck_id c = id ∧ ck_text c = t) ∨
        (~ (n = name ∧ id ∈ ck_id <$> chunks) ∧ sink_holds w n id t)
}.

(** ** The vector store is a sink *)

Section StoreSink.
  Context {V : Type} (serialize_float32 : list Q → V) (vec0_accepts : Z → bool).
  Notation DB := (RagDb V).
#[local] Instance the_sink : VectorSink DB := rag_vector_store serialize_float32 vec0_accepts.

Definition store_has (d : DB) (name : string) (model : model_id) (dims : Z) : Prop :=
  ∃ c, collection_by_name name d = Some c ∧ co_model_id c = model ∧ co_dims c = dims.

Definition store_holds (d : DB) (name id text : string) : Prop :=
  ∃ c e, collection_by_name name d = Some c ∧ stored d (co_id c) id e ∧ e.1.1 = text.

Definition store_inv (d : DB) : Prop := rag_ok serialize_float32 d ∧ ∃ a, implements d a.

(** Through the abstract map. *)
Lemma store_has_abstract d a name model dims :
  implements d a → store_has d name model dims ↔ ∃ ac, a !! name = Some ac ∧ ac_model ac = model ∧ ac_dims ac = dims.
Proof.
  intros Himp. specialize (Himp name). unfold store_has. destruct (a !! name) as [ac |].
  - destruct Himp as (c & Hc & Hm & Hd & _). rewrite Hc. split; [intros (? & [= <-] & ? & ?); exists ac | intros (? & [= <-] & ? & ?); exists c];
      split_and!; congruence.
  - rewrite Himp. split; [by intros (? & ? & _) | by intros (? & ? & _)].
Qed.

Lemma store_holds_abstract d a name id t :
  implements d a → store_holds d name id t ↔ ∃ ac e, a !! name = Some ac ∧ ac_entries ac !! id = Some e ∧ e.1.1 = t.
Proof.
  intros Himp. specialize (Himp name). unfold store_holds. destruct (a !! name) as [ac |].
  - destruct Himp as (c & Hc & _ & _ & Hent). rewrite Hc. split.
    + intros (? & e & [= <-] & Hs & ?). exists ac, e. split_and!; [done | by apply Hent | done].
    + intros (? & e & [= <-] & He & ?). exists c, e. split_and!; [done | by apply Hent | done].
  - rewrite Himp. split; [by intros (? & ? & ? & _) | by intros (? & ? & ? & _)].
Qed.

Lemma blank_false s : strip s ≠ "" → blank s = false.
Proof. intros Hs. unfold blank. by rewrite bool_decide_eq_false_2. Qed.

Lemma store_create_effect d name model dims d' r :
  store_inv d → create_collection vec0_accepts name model dims d = (d', r) →
  match r with
  | inr _ => store_inv d' ∧ strip name ≠ "" ∧ store_has d' name model dims ∧ ∀ n id t, store_holds d' n id t ↔ store_holds d n id t
  | inl _ => d' = d
  end.
Proof.
  intros [Hok [a Himp]] Hc. pose proof (create_refines serialize_float32 vec0_accepts name model dims d a Hok Himp) as Hr.
  unfold refines, a_create in Hr. rewrite Hc in Hr. destruct r as [e | c].
  { destruct (_ || _ || _); [done |]. destruct (a !! name); [by destruct (_ && _) | by destruct (negb _)]. }
  destruct (blank name) eqn:Hb; [done |]. unfold blank in Hb. reflect_bools. destruct (_ || _ || _); [done |]. destruct (a !! name) as [ac |] eqn:Hac.
  - destruct (bool_decide _) eqn:Hm; [| done]. destruct (_ =? _)%Z eqn:Hd; [| done]. cbn [andb] in Hr. reflect_bools. destruct Hr as [Hok' Himp'].
    split_and!; [by split; [| exists a] | done | rewrite store_has_abstract by done; eauto |].
    intros n id t. by rewrite !(store_holds_abstract _ a).
  - destruct (negb _); [done |]. destruct Hr as [Hok' Himp']. split_and!; [split; eauto | done | rewrite store_has_abstract by done; rewrite lookup_insert_eq; eauto |].
    intros n id t. rewrite (store_holds_abstract _ _ _ _ _ Himp), (store_holds_abstract _ _ _ _ _ Himp').
    destruct (decide (n = name)) as [-> | Hne]; [| by rewrite lookup_insert_ne].
    rewrite lookup_insert_eq, Hac. split; [intros (ac & e & [= <-] & He & _); cbn in He; by rewrite lookup_empty in He | by intros (? & ? & ? & _)].
Qed.

Lemma store_create_refused d name model dims m k :
  store_inv d → store_has d name m k → m ≠ model ∨ k ≠ dims → ∃ e, create_collection vec0_accepts name model dims d = (d, inl e).
Proof.
  intros [Hok [a Himp]] Hhas Hne. pose proof (create_refines serialize_float32 vec0_accepts name model dims d a Hok Himp) as Hr.
  rewrite store_has_abstract in Hhas by done. destruct Hhas as (ac & Hac & <- & <-). unfold refines, a_create in Hr. rewrite Hac in Hr.
  assert (Hno : bool_decide (ac_model ac = model) && (ac_dims ac =? dims)%Z = false).
  { destruct Hne as [Hm | Hd]; [by rewrite bool_decide_eq_false_2 | rewrite andb_false_iff, Z.eqb_neq; by right]. }
  rewrite Hno in Hr. destruct (create_collection vec0_accepts name model dims d) as [d' [e | c]]; destruct (_ || _); try done; subst d'; by exists e.
Qed.

Lemma store_upsert_total d name model dims chunks :
  store_inv d → strip name ≠ "" → store_has d name model dims → chunks ≠ [] → Forall (chunk_valid dims) chunks →
  NoDup (ck_id <$> chunks) →
  ∃ d', upsert serialize_float32 name chunks d = (d', inr tt) ∧ store_inv d' ∧
    ∀ n id t, store_holds d' n id t ↔
      (n = name ∧ ∃ c, c ∈ chunks ∧ ck_id c = id ∧ ck_text c = t) ∨
      (~ (n = name ∧ id ∈ ck_id <$> chunks) ∧ store_holds d n id t).
Proof.
  intros [Hok [a Himp]] Hname Hhas Hne Hv Hnd. pose proof (upsert_refines serialize_float32 name chunks d a Hok Himp) as Hr.
  rewrite store_has_abstract in Hhas by done. destruct Hhas as (ac & Hac & _ & <-).
  unfold refines, a_upsert in Hr. rewrite (blank_false name Hname), Hac in Hr. rewrite bool_decide_eq_false_2 in Hr by (by destruct chunks).
  cbn [mbind option_bind] in Hr. rewrite bool_decide_eq_true_2 in Hr by done.
  destruct (upsert serialize_float32 name chunks d) as [d' [e | []]]; [done |]. destruct Hr as [Hok' Himp'].
  exists d'. split_and!; [done | by split; [| eexists] |]. intros n id t.
  rewrite (store_holds_abstract _ _ _ _ _ Himp), (store_holds_abstract _ _ _ _ _ Himp').
  destruct (decide (n = name)) as [-> | Hn].
  2: { rewrite lookup_insert_ne by done. split; [intros Hs; right; split; [by intros [? _] | done] | by intros [[? _] | [_ ?]]]. }
  rewrite lookup_insert_eq, Hac. split.
  - intros (ac' & e & [= <-] & He & Ht). apply a_put_entries in He; [| done].
    destruct He as [(c & Hc & -> & ->) | [Hnin He]]; [left; eauto | right]. split; [by intros [_ ?] |]. by exists ac, e.
  - intros [(_ & c & Hc & <- & <-) | (Hnin & ac' & e & [= <-] & He & Ht)].
    + exists (a_put serialize_float32 chunks ac), (chunk_entry serialize_float32 c). split_and!; [done | | done]. apply a_put_entries; eauto.
    + exists (a_put serialize_float32 chunks ac), e. split_and!; [done | | done]. apply a_put_entries; [done |]. right. split; [| done].
      intros ?. by apply Hnin.
Qed.

#[export] Instance rag_vector_store_laws : VectorSinkLaws DB := {|
  sink_inv := store_inv; sink_has := store_has; sink_holds := store_holds;
  create_effect := store_create_effect; create_refused := store_create_refused; upsert_total := store_upsert_total |}.
End StoreSink.

(** ** Gathering *)

Section Gather.
  Context (sha256 : bytes → bytes) (load_input load_result : string → option Json).
  Notation chunk_id := (chunk_id sha256).
  Notation gather := (gather sha256 load_input load_result).
  Notation gather_unit := (gather_unit sha256 load_input load_result).

Definition texts_of (u : JobUnitOutcome) : list string :=
  match parse_texts (load_input (o_input_ref u)) with inr texts => texts | inl _ => [] end.

(** A unit whose result is indexed. *)
Definition counted (u : JobUnitOutcome) : Prop := o_state u ≠ DEAD ∧ o_result_status u ≠ Some FAILED.

#[export] Instance counted_dec u : Decision (counted u).
Proof. apply _. Defined.

Definition all_texts (units : list JobUnitOutcome) : list string := filter counted units ≫= texts_of.

(** What has been gathered can be written. *)
Record gathered_ok (g : Gathered) : Prop := {
  go_wf : od_wf (ga_chunks g);
  go_chunk id c : od_get id (ga_chunks g) = Some c →
    ck_id c = id ∧ ∃ text emb dims, c = ingest_chunk sha256 text emb ∧ ga_dims g = Some dims ∧ Z.of_nat (length emb) = dims;
  go_dims dims : ga_dims g = Some dims → (0 < dims)%Z
}.

Lemma float_rows_length dims rows out :
  float_rows dims rows = inr out → length out = length rows ∧ Forall (λ r, Z.of_nat (length r) = dims) out.
Proof.
  assert (Hrow : ∀ raw qs, float_row raw = inr (Some qs) → length qs = length raw).
  { induction raw as [| v raw IH]; intros qs; cbn; [by intros [= <-] |]. destruct (float_item v) as [e | [q |]]; [done | | done].
    destruct (float_row raw) as [e | [qs' |]]; [done | | done]. intros [= <-]. cbn. by rewrite (IH qs'). }
  revert out; induction rows as [| v rows IH]; intros out; cbn; [by intros [= <-] |].
  destruct v; try done. destruct (negb _) eqn:Hl; [done |]. destruct (float_row l) as [e | [qs |]] eqn:Hr; [done | | done].
  destruct (float_rows dims rows) as [e | out']; [done |]. intros [= <-]. destruct (IH out' eq_refl) as [Hlen HF]. reflect_bools.
  split; [cbn; by rewrite Hlen |]. constructor; [| done]. rewrite (Hrow l qs Hr). lia.
Qed.

Lemma parse_payload_spec file n m dims rows :
  parse_payload file n = inr (m, dims, rows) →
  (0 < dims)%Z ∧ length rows = n ∧ Forall (λ r, Z.of_nat (length r) = dims) rows.
Proof.
  unfold parse_payload. destruct file as [[| | | | | | f] |]; try done.
  destruct (od_get "model_id" f) as [[| | | | model | |] |], (od_get "dims" f) as [[| | k | | | |] |], (od_get "embeddings" f) as [raw |]; try done.
  destruct (k <=? 0)%Z eqn:Hk; [done |]. destruct raw; try done. destruct (negb _) eqn:Hl; [done |].
  destruct (float_rows k l) as [e | out] eqn:Hf; [done |]. intros [= <- <- <-]. destruct (float_rows_length _ _ _ Hf) as [-> HF]. reflect_bools.
  split_and!; [lia | by apply Nat.eqb_eq | done].
Qed.

(** Adding the chunks of a unit. *)
Lemma add_chunks_get cs g id c :
  od_get id (fold_left add_chunk cs g) = Some c →
  od_get id g = Some c ∨ (c ∈ cs ∧ ck_id c = id).
Proof.
  revert g; induction cs as [| x cs IH]; intros g; cbn; [by left |]. intros [Hg | [Hin Hid]]%IH; [| right; split; [by right | done]].
  unfold add_chunk in Hg. rewrite od_get_set in Hg. destruct (bool_decide (id = ck_id x)) eqn:He; [| by left].
  reflect_bools. injection Hg as <-. right. split; [by left | done].
Qed.

Lemma add_chunks_keys cs g id :
  is_Some (od_get id (fold_left add_chunk cs g)) ↔ is_Some (od_get id g) ∨ id ∈ ck_id <$> cs.
Proof.
  revert g; induction cs as [| x cs IH]; intros g; cbn; [split; [by left | by intros [? | ?%elem_of_nil]] |].
  rewrite IH. unfold add_chunk. rewrite od_get_set, elem_of_cons. destruct (bool_decide (id = ck_id x)) eqn:He; reflect_bools.
  - split; [by auto | intros _; left; by eexists].
  - split; intros [?|?]; auto. destruct H; auto. done.
Qed.

Lemma add_chunks_wf cs g : od_wf g → od_wf (fold_left add_chunk cs g).
Proof. revert g; induction cs as [| x cs IH]; intros g Hg; cbn; [done |]. apply IH. by apply od_set_wf. Qed.
(** A unit's texts, added. *)
Lemma gathered_add g dims texts embs :
  gathered_ok g → ga_dims g = None ∨ ga_dims g = Some dims → (0 < dims)%Z → length embs = length texts →
  Forall (λ r, Z.of_nat (length r) = dims) embs →
  gathered_ok {| ga_chunks := fold_left add_chunk (zip_with (ingest_chunk sha256) texts embs) (ga_chunks g);
                 ga_dims := Some dims |}.
Proof.
  intros [Hwf Hck Hdm] Hg Hpos Hlen HF. constructor; cbn; [by apply add_chunks_wf | | by intros ? [= <-]].
  intros id c [Hold | [Hin Hid]]%add_chunks_get.
  - destruct (Hck id c Hold) as (Hi & text & emb & k & -> & Hk & Hl). split; [done |]. exists text, emb, dims.
    destruct Hg as [Hg | Hg]; rewrite Hg in Hk; [done | injection Hk as <-; done].
  - split; [done |]. apply list_elem_of_lookup in Hin as [i Hi]. apply lookup_zip_with_Some in Hi as (text & emb & -> & _ & Hemb).
    exists text, emb, dims. split_and!; [done | done |]. by apply (Forall_lookup_1 _ _ _ _ HF Hemb).
Qed.

(** What [gather] says about the chunks: exactly the texts of the units that count. *)
Definition gather_extends (g g' : Gathered) (texts : list string) : Prop :=
  (∀ id, is_Some (od_get id (ga_chunks g')) ↔ is_Some (od_get id (ga_chunks g)) ∨ id ∈ chunk_id <$> texts) ∧
  (∀ id c, od_get id (ga_chunks g') = Some c → od_get id (ga_chunks g) = Some c ∨ ck_text c ∈ texts).

Lemma gather_extends_nil g : gather_extends g g [].
Proof. split; [| by left]. intros id. split; [by left | by intros [? | ?%elem_of_nil]]. Qed.

Lemma gather_extends_app g1 g2 g3 l1 l2 :
  gather_extends g1 g2 l1 → gather_extends g2 g3 l2 → gather_extends g1 g3 (l1 ++ l2).
Proof.
  intros [Hk1 Ht1] [Hk2 Ht2]. split.
  - intros id. rewrite Hk2, Hk1, fmap_app, elem_of_app. tauto.
  - intros id c [Hc | Hc]%Ht2; rewrite elem_of_app; [| tauto]. destruct (Ht1 id c Hc); tauto.
Qed.

Lemma gather_extends_add g dims texts embs :
  length embs = length texts →
  gather_extends g {| ga_chunks := fold_left add_chunk (zip_with (ingest_chunk sha256) texts embs) (ga_chunks g);
                      ga_dims := Some dims |} texts.
Proof.
  intros Hlen. assert (Hids : ck_id <$> zip_with (ingest_chunk sha256) texts embs = chunk_id <$> texts).
  { revert embs Hlen; induction texts as [| t texts IH]; intros [| e embs] Hlen; cbn in *; try done. by rewrite IH by lia. }
  split; cbn.
  - intros id. by rewrite add_chunks_keys, Hids.
  - intros id c [? | [Hin _]]%add_chunks_get; [by left | right]. apply list_elem_of_lookup in Hin as [i Hi].
    apply lookup_zip_with_Some in Hi as (text & emb & -> & Ht & _). by eapply list_elem_of_lookup_2.
Qed.

Lemma gather_unit_spec model g u g' :
  gathered_ok g → gather_unit model g u = inr g' →
  gathered_ok g' ∧ gather_extends g g' (all_texts [u]).
Proof.
  intros Hg. unfold RagIngest.gather_unit, all_texts, filter, list_filter, counted.
  destruct (bool_decide (o_state u = DEAD)) eqn:Hd; [| destruct (bool_decide (o_result_status u = Some FAILED)) eqn:Hf]; reflect_bools.
  1, 2: intros [= <-]; rewrite decide_False by tauto; split; [done | apply gather_extends_nil].
  rewrite decide_True by done. cbn. rewrite app_nil_r. unfold texts_of. destruct (o_state u); try done. destruct (o_result_ref u) as [ref |]; [| done].
  destruct (parse_texts _) as [e | texts]; [done |]. destruct (negb _); [done |].
  destruct (parse_payload _ _) as [e | [[m dims] embs]] eqn:Hp; [done |]. apply parse_payload_spec in Hp as (Hpos & Hlen & HF).
  destruct (negb _); [done |]. destruct (ga_dims g) as [k |] eqn:Hk; [destruct (k =? dims)%Z eqn:Hkd; cbn; [| done] |];
    intros [= <-]; reflect_bools; (split; [apply gathered_add | apply gather_extends_add]; auto).
  right. by rewrite Hk, Hkd.
Qed.

Lemma gather_spec model units g g' :
  gathered_ok g → gather model g units = inr g' → gathered_ok g' ∧ gather_extends g g' (all_texts units).
Proof.
  revert g; induction units as [| u units IH]; intros g Hg; cbn [RagIngest.gather]; [intros [= <-]; split; [done | apply gather_extends_nil] |].
  destruct (gather_unit model g u) as [e | g1] eqn:Hu; [done |]. intros Hrest.
  destruct (gather_unit_spec _ _ _ _ Hg Hu) as [Hg1 He1]. destruct (IH g1 Hg1 Hrest) as [Hg' He']. split; [done |].
  assert (Hsplit : all_texts (u :: units) = all_texts [u] ++ all_texts units).
  { unfold all_texts. rewrite <- bind_app. f_equal. apply (filter_app _ [u] units). }
  rewrite Hsplit. by eapply gather_extends_app.
Qed.

(** The assertion of [_finalize]. *)
Lemma gather_dims g : gathered_ok g → ga_chunks g ≠ [] → is_Some (ga_dims g).
Proof.
  intros [_ Hck _] Hne. destruct (ga_chunks g) as [| [id c] rest]; [done |].
  destruct (Hck id c) as (_ & _ & _ & k & _ & Hk & _); [cbn; by rewrite bool_decide_eq_true_2 | by rewrite Hk].
Qed.
End Gather.

(** ** Finalizing *)

Lemma lstrip_keeps l c : c ∈ l → is_py_space c = false → c ∈ lstrip l.
Proof.
  induction l as [| x l IH]; intros Hin Hc; [done |]. cbn. destruct (is_py_space x) eqn:Hx; [| done].
  apply elem_of_cons in Hin as [-> | Hin]; [congruence | by apply IH].
Qed.

Lemma strip_nonblank s c : c ∈ String.list_ascii_of_string s → is_py_space c = false → strip s ≠ "".
Proof.
  intros Hin Hc Hs. unfold strip in Hs. apply (f_equal String.list_ascii_of_string) in Hs.
  rewrite String.list_ascii_of_string_of_list_ascii in Hs.
  assert (Hno : c ∈ reverse (lstrip (reverse (lstrip (String.list_ascii_of_string s))))).
  { apply elem_of_reverse, lstrip_keeps; [| done]. by apply elem_of_reverse, lstrip_keeps. }
  rewrite Hs in Hno. by apply elem_of_nil in Hno.
Qed.

(** A digest in hexadecimal is not blank. *)
Lemma to_hex_nonblank bs : bs ≠ [] → strip (to_hex bs) ≠ "".
Proof.
  destruct bs as [| b bs]; [done |]. intros _. unfold to_hex.
  assert (Hb : ∃ c l, hex_byte b = c :: l ∧ is_py_space c = false) by (destruct b; by eexists _, _).
  destruct Hb as (c & l & Hb & Hc). apply (strip_nonblank _ c); [| done].
  rewrite String.list_ascii_of_string_of_list_ascii.
  change ((b :: bs) ≫= hex_byte) with (hex_byte b ++ (bs ≫= hex_byte)). rewrite Hb. by left.
Qed.

Lemma forall_or_const {A} (P : A → Prop) (C : Prop) (l : list A) : (∀ x, x ∈ l → P x ∨ C) → (∀ x, x ∈ l → P x) ∨ C.
Proof.
  induction l as [| x l IH]; intros H; [left; intros x Hx; by apply elem_of_nil in Hx |].
  destruct (H x) as [Hx | ?]; [by left | | by right]. destruct IH as [IH | ?]; [intros y Hy; apply H; by right | | by right].
  left. intros y [-> | Hy]%elem_of_cons; [done | by apply IH].
Qed.

Section Finalize.
  Context (sha256 : bytes → bytes) (digest_size : ∀ b, length (sha256 b) = 32%nat).
  Context {W : Type} `{!VectorSink W, !VectorSinkLaws W} (load_input load_result : string → option Json).
  Notation chunk_id := (chunk_id sha256).
  Notation finalize := (finalize sha256 load_input load_result).
  Notation all_texts := (all_texts load_input).

Lemma empty_gathered : gathered_ok sha256 {| ga_chunks := []; ga_dims := None |}.
Proof. constructor; cbn; [constructor | done | done]. Qed.

(** The chunks that are written. *)
Lemma gathered_chunks g dims :
  gathered_ok sha256 g → ga_dims g = Some dims →
  ck_id <$> (snd <$> ga_chunks g) = (ga_chunks g).*1 ∧ Forall (chunk_valid dims) (snd <$> ga_chunks g).
Proof using digest_size.
  intros [Hwf Hck _] Hd. assert (Hall : ∀ p, p ∈ ga_chunks g → ck_id p.2 = p.1 ∧ chunk_valid dims p.2).
  { intros [id c] Hin. destruct (Hck id c) as (Hi & text & emb & k & -> & Hk & Hl); [by apply elem_of_od_get |]. split; [done |].
    rewrite Hd in Hk. injection Hk as <-. cbn. split_and!; cbn; [| by eexists | by rewrite length_fmap |].
    - apply to_hex_nonblank. intros He. specialize (digest_size (String.list_byte_of_string text)). by rewrite He in digest_size.
    - apply Forall_fmap, Forall_true. intros q. by eexists. }
  split.
  - rewrite <- list_fmap_compose. apply list_fmap_ext. intros i p Hp. apply Hall. by eapply list_elem_of_lookup_2.
  - apply Forall_fmap, Forall_forall. intros p Hp. by apply Hall.
Qed.
(** What a finalized job has written. *)
Record indexed (collection : string) (texts : list string) (w w' : W) (n : Z) : Prop := {
  ix_inv : sink_inv w';
  ix_count : n = Z.of_nat (size (list_to_set (chunk_id <$> texts) : gset string));
  ix_present : (∀ t, t ∈ texts → sink_holds w' collection (chunk_id t) t) ∨ collision sha256;
  ix_others name id t : ~ (name = collection ∧ id ∈ chunk_id <$> texts) → sink_holds w' name id t ↔ sink_holds w name id t;
  ix_texts id t : id ∈ chunk_id <$> texts → sink_holds w' collection id t → t ∈ texts ∧ id = chunk_id t
}.

Lemma finalize_written collection model dims texts g w :
  sink_inv w → gathered_ok sha256 g → gather_extends sha256 {| ga_chunks := []; ga_dims := None |} g texts →
  ga_dims g = Some dims → ga_chunks g ≠ [] → strip collection ≠ "" → sink_has w collection model dims →
  ∃ w', sink_upsert collection (snd <$> ga_chunks g) w = (w', inr tt) ∧
    indexed collection texts w w' (Z.of_nat (length (snd <$> ga_chunks g))).
Proof using digest_size.
  intros Hinv Hg [Hkeys Htexts] Hd Hne Hname Hhas. destruct (gathered_chunks g dims Hg Hd) as [Hids Hvalid].
  destruct (upsert_total w collection model dims (snd <$> ga_chunks g)) as (w1 & Hup & Hinv1 & Hholds); try done.
  { by destruct (ga_chunks g). }
  { rewrite Hids. apply (go_wf _ _ Hg). }
  exists w1. split; [done |]. rewrite Hids in Hholds.
  assert (Hmem : ∀ id, id ∈ (ga_chunks g).*1 ↔ id ∈ chunk_id <$> texts).
  { intros id. rewrite <- od_get_is_Some, Hkeys. cbn. split; [intros [[? ?] | ?]; done | by right]. }
  assert (Hmine : ∀ id t, (∃ c, c ∈ snd <$> ga_chunks g ∧ ck_id c = id ∧ ck_text c = t) → t ∈ texts ∧ id = chunk_id t).
  { intros id t (c & Hc & <- & <-). apply list_elem_of_fmap in Hc as ([i x] & -> & Hin). cbn.
    apply elem_of_od_get in Hin; [| apply (go_wf _ _ Hg)]. destruct (go_chunk _ _ Hg i x Hin) as (_ & text & emb & k & -> & _).
    split; [| done]. by destruct (Htexts i _ Hin) as [? | ?]. }
  constructor.
  - done.
  - rewrite length_fmap, <- (length_fmap fst). f_equal. rewrite <- (size_list_to_set (C := gset string) _ (go_wf _ _ Hg)).
    f_equal. apply set_eq. intros id. rewrite !elem_of_list_to_set. apply Hmem.
  - apply forall_or_const. intros t Ht. assert (Hk : chunk_id t ∈ chunk_id <$> texts) by (by apply list_elem_of_fmap_2).
    pose proof Hk as Hk'. apply Hmem, od_get_is_Some in Hk' as [c Hc]. destruct (go_chunk _ _ Hg _ _ Hc) as (Hi & _).
    apply od_get_elem in Hc. destruct (Hmine (chunk_id t) (ck_text c)) as [_ He].
    { exists c. split_and!; [| done | done]. apply list_elem_of_fmap. by exists (chunk_id t, c). }
    apply hexdigest_inj in He as [He | ?]; [left | by right]. apply bytes_of_string_inj in He.
    apply Hholds. left. split; [done |]. exists c. split_and!; [| done | done]. apply list_elem_of_fmap. by exists (chunk_id t, c).
  - intros name id t Hno. rewrite Hholds, Hmem. split; [intros [[-> (c & Hc & <- & <-)] | [_ ?]] | by right].
    + destruct Hno. split; [done |]. destruct (Hmine _ _ (ex_intro _ c (conj Hc (conj eq_refl eq_refl)))) as [Ht ->]. by apply list_elem_of_fmap_2.
    + done.
  - intros id t Hid [[_ Hc] | [Hno _]]%Hholds; [by apply Hmine |]. destruct Hno. by rewrite Hmem.
Qed.
Lemma indexed_nothing collection texts g w :
  sink_inv w → gather_extends sha256 {| ga_chunks := []; ga_dims := None |} g texts → ga_chunks g = [] →
  indexed collection texts w w 0.
Proof.
  intros Hinv [Hkeys _] Hnil. destruct texts as [| t texts].
  { constructor; cbn; try done; [left; intros t Ht; by apply elem_of_nil in Ht | intros id t Hid; by apply elem_of_nil in Hid]. }
  specialize (Hkeys (chunk_id t)). rewrite Hnil in Hkeys. destruct Hkeys as [_ [? ?]]; [right; by left | done].
Qed.

Lemma finalize_effect collection details w w' r :
  sink_inv w → finalize collection details w = (w', r) →
  match r with
  | inl _ => w' = w
  | inr n => indexed collection (all_texts (jd_units details)) w w' n
  end.
Proof using digest_size.
  intros Hinv. unfold finalize. destruct (gather _ _ _ _ _ _) as [e | g] eqn:Hgather; [by intros [= <- <-] |].
  apply gather_spec in Hgather as [Hg Hext]; [| apply empty_gathered].
  destruct (snd <$> ga_chunks g) as [| c cs] eqn:Hcs.
  { intros [= <- <-]. apply fmap_nil_inv in Hcs. by apply (indexed_nothing _ _ g). }
  assert (Hne : ga_chunks g ≠ []) by (by intros He; rewrite He in Hcs). destruct (gather_dims _ _ Hg Hne) as [dims Hd]. rewrite Hd.
  unfold mbind, eff_bind, lift_sink, mret, eff_ret. destruct (sink_create _ _ dims w) as [w1 rc] eqn:Hc.
  pose proof (create_effect _ _ _ _ _ _ Hinv Hc) as Hce. destruct rc as [e | col]; [by intros [= <- <-] |].
  destruct Hce as (Hinv1 & Hname & Hhas & Hsame).
  destruct (finalize_written collection (jd_model_id details) dims (all_texts (jd_units details)) g w1) as (w2 & Hup & Hix); try done.
  rewrite Hcs in Hup, Hix. rewrite Hup. intros [= <- <-]. destruct Hix as [? ? ? Ho ?]. constructor; try done.
  intros name id t Hno. by rewrite Ho, Hsame.
Qed.

(** C13: finalizing an ingestion either fails and leaves the store as it was, or writes
    every text of every unit that counts (neither dead nor failed) under its digest,
    reports the number of distinct texts, and changes nothing else.  A text can be missing
    only where two texts have the same SHA-256 digest.  The collection is created before
    the texts are written; a disk that fails in between is not modelled. *)
Theorem finalize_all_or_nothing collection details w w' r :
  sink_inv w → finalize collection details w = (w', r) →
  match r with
  | inl _ => w' = w
  | inr n => indexed collection (all_texts (jd_units details)) w w' n
  end.
Proof using digest_size. apply finalize_effect. Qed.
(** ** Asking for the status *)

Notation status := (status sha256 load_input load_result).
Notation I := (Ingestion (W := W)).

Lemma details_finalizations f id d :
  job_details id (on_finalizations f d) = (on_finalizations f d, (job_details id d).2).
Proof.
  assert (Ho : ∀ l, unit_outcomes (on_finalizations f d) id l = unit_outcomes d id l).
  { induction l as [| p l IH]; cbn; [done | by rewrite IH]. }
  unfold job_details, gets, mbind, eff_bind. cbn. destruct (jobs d !! id); [| done].
  change (ordered_members (on_finalizations f d) id) with (ordered_members d id). rewrite Ho. by destruct (unit_outcomes _ _ _).
Qed.

Lemma details_pure id d : (job_details id d).1 = d.
Proof. unfold job_details, gets, mbind, eff_bind. destruct (jobs d !! id); [| done]. by destruct (unit_outcomes _ _ _). Qed.

Lemma finalize_count collection details w w' n : finalize collection details w = (w', inr n) → (0 ≤ n)%Z.
Proof.
  unfold finalize. destruct (gather _ _ _ _ _ _) as [e | g]; [done |]. destruct (snd <$> ga_chunks g) as [| c cs]; [by intros [= _ <-] |].
  destruct (ga_dims g); [| by intros [= _ <-]]. unfold mbind, eff_bind, lift_sink, mret, eff_ret.
  destruct (sink_create _ _ _ w) as [w1 [e | col]]; [done |]. destruct (sink_upsert _ _ w1) as [w2 [e | []]]; [done |]. intros [= _ <-]. lia.
Qed.

(** [status] on a finished job of this collection. *)
Definition finish (collection : string) (id : job_id) (st : JobStatus) (details : JobDetails) (s : I) : I * (IngestionError + IngestionStatus) :=
  let answer n := status_of st (if negb (st_dead_units st =? 0)%nat || any_failed details then PARTIAL else READY_) n in
  match job_finalizations (in_queue s) !! id with
  | Some n => (s, inr (answer n))
  | None =>
      match finalize collection details (in_sink s) with
      | (w, inl e) => ({| in_queue := in_queue s; in_sink := w; in_inputs := in_inputs s |}, inl e)
      | (w, inr n) =>
          ({| in_queue := on_finalizations <[id := n]> (in_queue s); in_sink := w; in_inputs := in_inputs s |}, inr (answer n))
      end
  end.

Lemma status_cases collection id (s : I) :
  status collection id s =
    match (job_details id (in_queue s)).2 with
    | inl e => (s, inl (IngestQueueError e))
    | inr None => (s, inl IngestionNotFoundError)
    | inr (Some details) =>
        match (job_status id (in_queue s)).2 with
        | inr (Some st) =>
            if negb (bool_decide (jd_params details !! COLLECTION_PARAM = Some collection)) then (s, inl IngestionNotFoundError)
            else if negb (bool_decide (st_state st = JOB_DONE)) then (s, inr (status_of st RUNNING_ 0))
            else finish collection id st details s
        | _ => (s, inl IngestionNotFoundError)
        end
    end.
Proof.
  destruct s as [q w inp]. unfold status, on_queue, mbind, eff_bind. cbn [in_queue in_sink in_inputs].
  pose proof (details_pure id q) as Hp. unfold job_status, gets. cbn [in_queue in_sink in_inputs fst snd].
  destruct (job_details id q) as [q1 [e | [details |]]] eqn:Hd; cbn [fst snd] in *; subst q1; try done;
    [| by destruct (jobs q !! id)].
  assert (Hj : ∃ j, jobs q !! id = Some j).
  { unfold job_details, gets, mbind, eff_bind in Hd. destruct (jobs q !! id) as [j |]; [by exists j | done]. }
  destruct Hj as [j Hj]. rewrite Hj. cbn [mbind option_bind]. destruct (negb _); [done |]. destruct (negb _); [done |].
  unfold finish, job_finalization, on_sink, gets. cbn [in_queue in_sink in_inputs].
  destruct (job_finalizations q !! id) as [n |] eqn:Hfin; [done |].
  cbn beta iota delta [in_queue in_sink in_inputs]. destruct (finalize collection details w) as [w1 [e | n]] eqn:Hf; [done |]. apply finalize_count in Hf.
  unfold mark_job_finalized, gets, modify, mbind, eff_bind. cbn [in_queue in_sink in_inputs].
  assert (Hn : (n <? 0)%Z = false) by lia. rewrite Hn, Hfin, Hj. by rewrite bool_decide_eq_true_2.
Qed.

(** Asking for the status of an ingestion finalizes it at most once: a failing call
    changes nothing, a call that finds it running changes nothing, and after a call that
    reports it finished every further call reports the same and changes nothing. *)
Theorem ingestion_finalized_once collection id (s s' : I) r :
  sink_inv (in_sink s) → status collection id s = (s', r) →
  match r with
  | inl _ => s' = s
  | inr st => (is_state st = RUNNING_ ∧ s' = s) ∨ (is_state st ≠ RUNNING_ ∧ status collection id s' = (s', inr st))
  end.
Proof using digest_size.
  intros Hinv. rewrite status_cases. destruct (job_details id (in_queue s)).2 as [e | [details |]] eqn:Hd; try by intros [= <- <-].
  destruct (job_status id (in_queue s)).2 as [e | [st |]] eqn:Hs; try by intros [= <- <-].
  destruct (negb (bool_decide (_ = Some _))) eqn:Hc; [by intros [= <- <-] |].
  destruct (negb (bool_decide (_ = JOB_DONE))) eqn:Hj; [intros [= <- <-]; by left |].
  unfold finish. destruct (job_finalizations _ !! id) as [n |] eqn:Hfin.
  { intros [= <- <-]. right. split; [cbn; by destruct (_ || _) |]. rewrite status_cases, Hd, Hs, Hc, Hj. unfold finish. by rewrite Hfin. }
  destruct (finalize collection details (in_sink s)) as [w [e | n]] eqn:Hf.
  { intros [= <- <-]. pose proof (finalize_effect _ _ _ _ _ Hinv Hf) as Hw. cbn in Hw. subst w. by destruct s. }
  intros [= <- <-]. right. split; [cbn; by destruct (_ || _) |]. rewrite status_cases. cbn [in_queue]. rewrite details_finalizations. cbn [snd].
  change (job_status id (on_finalizations <[id := n]> (in_queue s))).2 with (job_status id (in_queue s)).2.
  rewrite Hd, Hs, Hc, Hj. unfold finish. cbn. by rewrite lookup_insert_eq.
Qed.
End Finalize.

(** ** A concrete ingestion *)

Definition demo_ref : string := String.string_of_list_ascii (replicate 64 "a"%char).

Definition demo_input (ref : string) : option Json :=
  if bool_decide (ref = "in") then Some (JArr [JStr "one"; JStr "two"; JStr "one"]) else None.

Definition demo_payload (ref : string) : option Json :=
  if bool_decide (ref = demo_ref) then
    Some (JObj [("model_id", JStr "m1"); ("dims", JInt 2);
                ("embeddings", JArr [JArr [JInt 1; JInt 0]; JArr [JInt 0; JFloat (Some (1 # 2)%Q)]; JArr [JInt 1; JInt 0]])])
  else None.

(** One unit of three texts, leased, uploaded and completed. *)
Definition ingested_calls : list qcall := [
  SubmitJob (ingest_job "docs" "m1" "corpus") [demo_spec "u1" 0] true "j1" 0;
  LeaseNext "a" ["m1"] 10;
  BindResultPayload "a" "u1" 1 "digest" demo_ref 20;
  CompleteUnit "a" 1 (demo_result "u1" demo_ref) 30 ].

Definition ingested_db : Db := default empty_db (replay 4 120 ingested_calls empty_db).
Definition ingested_details : JobDetails :=
  match (job_details "j1" ingested_db).2 with
  | inr (Some d) => d
  | _ => {| jd_model_id := ""; jd_params := ∅; jd_units := [] |}
  end.

#[local] Instance demo_sink : VectorSink (RagDb (list Q)) := rag_vector_store id (λ _, true).
#[local] Instance demo_sink_laws : VectorSinkLaws (RagDb (list Q)) := rag_vector_store_laws id (λ _, true).

Definition ingested : Ingestion (W := RagDb (list Q)) := {| in_queue := ingested_db; in_sink := empty_rag; in_inputs := ∅ |}.

Lemma empty_sink_inv : sink_inv (empty_rag (V := list Q)).
Proof. split; [apply empty_rag_ok | exists ∅; done]. Qed.

Lemma finalize_all_or_nothing_witness :
  ∃ w, finalize pad32 demo_input demo_payload "docs" ingested_details empty_rag = (w, inr 2%Z) ∧
    indexed pad32 "docs" ["one"; "two"; "one"] empty_rag w 2.
Proof.
  destruct (finalize pad32 demo_input demo_payload "docs" ingested_details empty_rag) as [w r] eqn:Hf.
  assert (Hr : r = inr 2%Z) by (apply (f_equal snd) in Hf; cbn [snd] in Hf; rewrite <- Hf; vm_compute; reflexivity). subst r.
  exists w. split; [reflexivity |].
  exact (finalize_all_or_nothing pad32 pad32_size demo_input demo_payload "docs" ingested_details empty_rag w _ empty_sink_inv Hf).
Defined.

Lemma ingestion_finalized_once_witness :
  ∃ s st, status pad32 demo_input demo_payload "docs" "j1" ingested = (s, inr st) ∧
    is_indexed_chunks st = 2%Z ∧ status pad32 demo_input demo_payload "docs" "j1" s = (s, inr st).
Proof.
  destruct (status pad32 demo_input demo_payload "docs" "j1" ingested) as [s r] eqn:Hs.
  pose proof (ingestion_finalized_once pad32 pad32_size demo_input demo_payload "docs" "j1" ingested s r empty_sink_inv Hs) as H.
  apply (f_equal snd) in Hs. vm_compute in Hs. cbn in Hs. subst r. destruct H as [[H _] | [_ H]]; [discriminate H |].
  eexists s, _. split; [reflexivity |]. split; [reflexivity | exact H].
Defined.
