(* ===== verification/RagQuery.v ===== *)
(** * Retrieval: embed a query, search a collection

    Models rag/retrieval.py, rag/query.py and, of app/factory.py, the shared picker
    [_build_enriched_pick] and the gateway's retriever [_build_retriever] under
    src/packages/fallow-coordinator/src/fallow_coordinator.  The scheduler's arm is
    any [SchedulerPolicy]; what a replica answers ([None] is a failed request), which
    may depend on what was dialled before, and what [json.loads] makes of it are
    arguments.  The endpoints dialled are kept as a trace. *)

From stdpp Require Import pretty.
From S2P Require Import RegistrySpec SchedulerSpec GatewayService.
From S2P Require Export Scheduler RagStore RagStoreSpec RagIngest.

Definition MAX_EMBED_ATTEMPTS : nat := 2.
Definition MAX_QUERY_RESULTS : Z := 20.

Record EmbedReply := { er_status_code : Z; er_body : bytes }.

(** [RetrievalError], and a store's exception that no route catches. *)
Inductive RetrievalFailure :=
  | RetrievalError (status_code : Z) (detail : string)
  | Uncaught (e : RagStoreError).

(** ** The reply of an embedding replica *)

Definition is_number (v : Json) : bool :=
  match v with JInt _ | JFloat _ => true | _ => false end.

Definition overflows (v : Json) : bool :=
  match v with JInt z => (OVERFLOW <=? Z.abs z)%Z | _ => false end.

(** [float(value)] of a number that does not overflow, [None] unless finite. *)
Definition number_value (v : Json) : option Q :=
  match v with JInt z => Some (inject_Z z) | JFloat q => q | _ => None end.

(** [_embedding_from_bytes], of what [json.loads] returned *)
Definition embedding_from_json (payload : option Json) (model : model_id) : RetrievalFailure + list Q :=
  let fail detail := inl (RetrievalError 502 detail) in
  match payload with
  | None => fail "embedding replica returned invalid JSON"
  | Some (JObj f) =>
      if negb (match od_get "model" f with Some (JStr m) => bool_decide (m = model) | _ => false end)
      then fail ("embedding replica did not return model '" +:+ model +:+ "'")
      else
        match od_get "data" f with
        | Some (JArr [JObj item]) =>
            match od_get "embedding" item with
            | Some (JArr (v :: raw)) =>
                if negb (forallb is_number (v :: raw)) then fail "embedding replica returned a nonnumeric vector"
                else if existsb overflows (v :: raw) then fail "embedding replica returned an out-of-range vector"
                else
                  match mapM number_value (v :: raw) with
                  | None => fail "embedding replica returned a nonfinite vector"
                  | Some embedding => inr embedding
                  end
            | _ => fail "embedding replica returned no query vector"
            end
        | _ => fail "embedding replica returned an invalid data array"
        end
  | Some _ => fail ("embedding replica did not return model '" +:+ model +:+ "'")
  end.

(** ** Picking and dialling *)

Definition endpoint_address (e : ReplicaEndpoint) : string * Z := (re_host e, re_port e).

Definition enrich (counts : gmap (string * Z) Z) (r : ReplicaEndpoint) : ReplicaEndpoint := {|
  re_agent_id := re_agent_id r; re_host := re_host r; re_port := re_port r; re_model_id := re_model_id r;
  re_inflight := Z.max (re_inflight r) (default 0%Z (counts !! endpoint_address r)) |}.

(** A request's body, [{"model": model_id, "input": [query]}]. *)
Definition embed_body (model : model_id) (query : string) : JBody :=
  [("model", JStr model); ("input", JArr [JStr query])].

Section Retrieval.
  Context {P : Type} `{!SchedulerPolicy P} (counts : gmap (string * Z) Z).
  Context (loads : bytes → option Json)
          (reach : list ReplicaEndpoint → ReplicaEndpoint → JBody → option EmbedReply).

(** The scheduler's state and the endpoints dialled, in order. *)
Record Retrieving := { rt_policy : P; rt_dialled : list ReplicaEndpoint }.

Abbreviation T_eff := (Eff Retrieving RetrievalFailure).

(** [enriched_pick] *)
Definition enriched_pick (model : model_id) (replicas : list ReplicaEndpoint) : T_eff (option ReplicaEndpoint) := λ s,
  let '(p, r) := pick_replica (rt_policy s) model (enrich counts <$> replicas) in
  ({| rt_policy := p; rt_dialled := rt_dialled s |}, inr r).

Definition dial (e : ReplicaEndpoint) (body : JBody) : T_eff (option EmbedReply) := λ s,
  ({| rt_policy := rt_policy s; rt_dialled := rt_dialled s ++ [e] |}, inr (reach (rt_dialled s) e body)).

(** The loop of [embed_query]. *)
Fixpoint embed_attempts (n : nat) (model : model_id) (query : string) (endpoints : list ReplicaEndpoint)
    (tried : list (string * Z)) (last_error : RetrievalFailure) : T_eff (list Q) :=
  match n with
  | O => raise last_error
  | S n =>
      let remaining := filter (λ e, endpoint_address e ∉ tried) endpoints in
      picked ← enriched_pick model remaining;
      match picked with
      | None => raise last_error
      | Some endpoint =>
          let tried := endpoint_address endpoint :: tried in
          reply ← dial endpoint (embed_body model query);
          match reply with
          | None => embed_attempts n model query endpoints tried (RetrievalError 502 "embedding replica request failed")
          | Some reply =>
              if negb (er_status_code reply =? 200)%Z then
                embed_attempts n model query endpoints tried
                  (RetrievalError 502 ("embedding replica returned HTTP " +:+ pretty (er_status_code reply)))
              else
                match embedding_from_json (loads (er_body reply)) model with
                | inl e => raise e
                | inr embedding => mret embedding
                end
          end
      end
  end.

Definition no_embedding_replica (model : model_id) : RetrievalFailure :=
  RetrievalError 503 ("no healthy embedding replica available for model '" +:+ model +:+ "'").

(** [embed_query]; [endpoints] is what [registry.replica_endpoints] returned. *)
Definition embed_query (endpoints : list ReplicaEndpoint) (model : model_id) (query : string) : T_eff (list Q) :=
  match endpoints with
  | [] => raise (no_embedding_replica model)
  | _ => embed_attempts MAX_EMBED_ATTEMPTS model query endpoints [] (no_embedding_replica model)
  end.

(** ** Searching *)

Context {V : Type} (serialize_float32 : list Q → V) (vec_match : gmap Z V → V → Z → list (Z * Q)).

(** [find_collection] *)
Definition find_collection (name : string) (d : RagDb V) : RetrievalFailure + Collection :=
  match head (filter (λ c, co_name c = name) (list_collections d)) with
  | Some c => inr c
  | None => inl (RetrievalError 404 ("collection '" +:+ name +:+ "' does not exist"))
  end.

(** [except (DimensionMismatchError, ValueError)] *)
Definition store_failure (e : RagStoreError) : RetrievalFailure :=
  match e with
  | DimensionMismatchError _ _ => RetrievalError 502 "query embedding is invalid"
  | RagValueError _ => RetrievalError 502 "query embedding is invalid"
  | _ => Uncaught e
  end.

(** [search_collection]; [endpoints] are the replicas of a model. *)
Definition search_collection (endpoints : model_id → list ReplicaEndpoint) (collection : Collection) (q : string) (k : Z)
    (d : RagDb V) : T_eff (list SearchResult) :=
  embedding ← embed_query (endpoints (co_model_id collection)) (co_model_id collection) q;
  match (query serialize_float32 vec_match (co_name collection) (Some <$> embedding) k d).2 with
  | inl e => raise (store_failure e)
  | inr matches => mret matches
  end.

(** ** The query route *)

Record QueryRequest := { qr_q : string; qr_k : Z }.

(** The body's validators; [None] is refused with 422. *)
Definition query_request (q : string) (k : Z) : option QueryRequest :=
  if (0 <? k)%Z && (k <=? MAX_QUERY_RESULTS)%Z && negb (bool_decide (strip q = ""))
  then Some {| qr_q := strip q; qr_k := k |} else None.

Record QueryChunk := { qc_chunk_id : string; qc_text : string; qc_score : Q; qc_metadata : JBody }.

Record QueryResponse := { qp_collection : string; qp_model_id : model_id; qp_chunks : list QueryChunk }.

Inductive QueryReply :=
  | QueryOk (r : QueryResponse)
  | QueryHttp (status_code : Z) (detail : string)
  | QueryCrash (e : RagStoreError).

Definition query_chunk (r : SearchResult) : QueryChunk := {|
  qc_chunk_id := sr_id r; qc_text := sr_text r; qc_score := sr_distance r; qc_metadata := sr_metadata r |}.

Definition http_of (f : RetrievalFailure) : QueryReply :=
  match f with
  | RetrievalError status detail => QueryHttp status detail
  | Uncaught e => QueryCrash e
  end.

Definition not_permitted (model : model_id) : string := "api key not permitted to use model '" +:+ model +:+ "'".

(** [query_collection]; [auth] is [registry.authenticate_api_key]. *)
Definition query_collection (auth : string → option ApiKeyInfo) (endpoints : model_id → list ReplicaEndpoint)
    (collection_name : string) (body : QueryRequest) (authorization : option string) (d : RagDb V) (s : Retrieving)
    : Retrieving * QueryReply :=
  match (token ← extract_bearer authorization; auth token) with
  | None => (s, QueryHttp 401 "missing or invalid api key")
  | Some key =>
      match find_collection collection_name d with
      | inl f => (s, http_of f)
      | inr collection =>
          if negb (allows key (co_model_id collection)) then (s, QueryHttp 403 (not_permitted (co_model_id collection)))
          else
            match search_collection endpoints collection (qr_q body) (qr_k body) d s with
            | (s', inl f) => (s', http_of f)
            | (s', inr matches) =>
                (s', QueryOk {| qp_collection := co_name collection; qp_model_id := co_model_id collection;
                                qp_chunks := query_chunk <$> matches |})
            end
      end
  end.

(** ** The gateway's retriever *)

Definition retrieval_error_type (status : Z) : string :=
  if (status =? 404)%Z then TYPE_INVALID_REQUEST
  else if (status =? 502)%Z then TYPE_UPSTREAM
  else if (status =? 503)%Z then TYPE_NO_REPLICA
  else TYPE_INVALID_REQUEST.

Definition rag_failure (f : RetrievalFailure) : RagStoreError + RagError :=
  match f with
  | RetrievalError status detail => inr (RagUpstream status (retrieval_error_type status) detail)
  | Uncaught e => inl e
  end.

(** [_retrieve]: an uncaught exception, a [RagRetrievalError], or the texts. *)
Definition retrieve (endpoints : model_id → list ReplicaEndpoint) (key : ApiKeyInfo) (collection q : string) (k : Z)
    (d : RagDb V) (s : Retrieving) : Retrieving * (RagStoreError + RagError + list string) :=
  match find_collection collection d with
  | inl f => (s, inl (rag_failure f))
  | inr found =>
      if negb (allows key (co_model_id found))
      then (s, inl (inr (RagUpstream 403 TYPE_INVALID_REQUEST (not_permitted (co_model_id found)))))
      else
        match search_collection endpoints found q k d s with
        | (s', inl f) => (s', inl (rag_failure f))
        | (s', inr matches) => (s', inr (sr_text <$> matches))
        end
  end.
End Retrieval.
Arguments Retrieving : clear implicits.

(** * What retrieval promises

    Proved for every scheduler that keeps the laws of [SchedulerPolicy]: embedding a
    query dials at most two replicas, never the same address twice, and stops only
    when it has an answer or nothing else to try; a caller reads a collection only
    with a key that may use its model. *)

Section Retrieval.
  Context {P : Type} `{!SchedulerPolicy P, !SchedulerPolicyLaws P} (counts : gmap (string * Z) Z).
  Context (loads : bytes → option Json) (reach : list ReplicaEndpoint → ReplicaEndpoint → JBody → option EmbedReply).
  Notation embed_attempts := (embed_attempts counts loads reach).
  Notation embed_query := (embed_query counts loads reach).

Section Embed.
  Context (model : model_id) (query : string) (endpoints : list ReplicaEndpoint).

(** The answer of a replica dialled after [hist]. *)
Definition answer (hist : list ReplicaEndpoint) (e : ReplicaEndpoint) : option EmbedReply :=
  reach hist e (embed_body model query).

(** It may be tried again elsewhere. *)
Definition failed (hist : list ReplicaEndpoint) (e : ReplicaEndpoint) : Prop :=
  ∀ reply, answer hist e = Some reply → er_status_code reply ≠ 200%Z.

Fixpoint all_failed (hist new : list ReplicaEndpoint) : Prop :=
  match new with
  | [] => True
  | e :: new => failed hist e ∧ all_failed (hist ++ [e]) new
  end.

(** The last replica dialled answered 200. *)
Definition answered (hist new : list ReplicaEndpoint) (r : RetrievalFailure + list Q) : Prop :=
  ∃ before e reply, new = before ++ [e] ∧ all_failed hist before ∧ answer (hist ++ before) e = Some reply ∧
    er_status_code reply = 200%Z ∧ embedding_from_json (loads (er_body reply)) model = r.

Definition candidate (e : ReplicaEndpoint) : Prop :=
  ∃ e0, e0 ∈ endpoints ∧ re_model_id e0 = model ∧ e = enrich counts e0.

(** The dialling of at most [n] replicas, none of them at an address of [tried]. *)
Record dialling (n : nat) (tried : list (string * Z)) (hist new : list ReplicaEndpoint) (r : RetrievalFailure + list Q) : Prop := {
  dl_bound : (length new ≤ n)%nat;
  dl_distinct : NoDup (endpoint_address <$> new);
  dl_fresh e : e ∈ new → endpoint_address e ∉ tried;
  dl_candidate e : e ∈ new → candidate e;
  dl_result : answered hist new r ∨
    (all_failed hist new ∧ (∃ f, r = inl f) ∧
     (length new = n ∨ ∀ e, e ∈ endpoints → re_model_id e = model → endpoint_address e ∈ tried ++ (endpoint_address <$> new)))
}.

Lemma answered_cons hist e new r : failed hist e → answered (hist ++ [e]) new r → answered hist (e :: new) r.
Proof.
  intros Hf (before & x & reply & -> & Hall & Ha & Hs & Hr). exists (e :: before), x, reply.
  split_and!; [done | done | by rewrite <- app_assoc in Ha | done | done].
Qed.

Lemma dialling_cons n tried hist e new r :
  candidate e → endpoint_address e ∉ tried → failed hist e →
  dialling n (endpoint_address e :: tried) (hist ++ [e]) new r → dialling (S n) tried hist (e :: new) r.
Proof.
  intros Hc Hn Hf [Hb Hd Hfr Hca Hr]. constructor.
  - cbn. lia.
  - cbn. constructor; [| done]. intros (x & Heq & Hx)%list_elem_of_fmap. apply (Hfr x Hx). rewrite Heq. by left.
  - intros x [-> | Hx]%elem_of_cons; [done |]. intros Hin. apply (Hfr x Hx). by right.
  - intros x [-> | Hx]%elem_of_cons; [done | by apply Hca].
  - destruct Hr as [Ha | (Hall & Hf' & Hend)]; [left; by apply answered_cons | right]. split_and!; [done | done |].
    destruct Hend as [Hl | Hend]; [left; cbn; lia | right]. intros x Hx Hm. specialize (Hend x Hx Hm). cbn in *.
    rewrite ?elem_of_cons, ?elem_of_app, ?elem_of_cons in *. tauto.
Qed.

Lemma pick_candidate (tried : list (string * Z)) (s s' : Retrieving P) e :
  enriched_pick counts model (filter (λ x, endpoint_address x ∉ tried) endpoints) s = (s', inr (Some e)) →
  candidate e ∧ endpoint_address e ∉ tried ∧ rt_dialled s' = rt_dialled s.
Proof using All.
  unfold enriched_pick. destruct (pick_replica _ _ _) as [p o] eqn:Hp. intros [= <- ->].
  assert (Hs : (pick_replica (rt_policy s) model (enrich counts <$> filter (λ x, endpoint_address x ∉ tried) endpoints)).2 = Some e)
    by (by rewrite Hp).
  apply pick_serves in Hs as [Hin Hm]. apply list_elem_of_fmap in Hin as (e0 & -> & [Ht Hin]%list_elem_of_filter).
  split_and!; [by exists e0 | done | done].
Qed.

Lemma pick_exhausted (tried : list (string * Z)) (s s' : Retrieving P) :
  enriched_pick counts model (filter (λ x, endpoint_address x ∉ tried) endpoints) s = (s', inr None) →
  rt_dialled s' = rt_dialled s ∧ ∀ e, e ∈ endpoints → re_model_id e = model → endpoint_address e ∈ tried.
Proof using All.
  unfold enriched_pick. destruct (pick_replica _ _ _) as [p o] eqn:Hp. intros [= <- ->]. split; [done |]. intros e He Hm.
  destruct (decide (endpoint_address e ∈ tried)) as [? | Hn]; [done |].
  assert (Hno : (pick_replica (rt_policy s) model (enrich counts <$> filter (λ x, endpoint_address x ∉ tried) endpoints)).2 = None)
    by (by rewrite Hp).
  rewrite pick_total in Hno. destruct (Hno (enrich counts e)); [| done].
  apply list_elem_of_fmap_2, list_elem_of_filter. done.
Qed.

Lemma embed_attempts_dialling n tried last (s s' : Retrieving P) r :
  embed_attempts n model query endpoints tried last s = (s', r) →
  ∃ new, rt_dialled s' = rt_dialled s ++ new ∧ dialling n tried (rt_dialled s) new r.
Proof using All.
  revert tried last s; induction n as [| n IH]; intros tried last s; cbn [RagQuery.embed_attempts].
  { intros [= <- <-]. exists []. rewrite app_nil_r. split; [done |]. constructor; cbn; [done | apply NoDup_nil_2 | by intros e ?%elem_of_nil | by intros e ?%elem_of_nil | right; eauto]. }
  unfold mbind, eff_bind. destruct (enriched_pick _ _ _ s) as [s1 [f | [e |]]] eqn:Hp;
    [unfold enriched_pick in Hp; by destruct (pick_replica _ _ _) | |].
  2: { apply pick_exhausted in Hp as [Hd Hend]. intros [= <- <-]. exists []. rewrite Hd, app_nil_r. split; [done |].
       constructor; cbn; [lia | apply NoDup_nil_2 | by intros e ?%elem_of_nil | by intros e ?%elem_of_nil |]. right. split_and!; [done | eauto | right]. rewrite app_nil_r. exact Hend. }
  apply pick_candidate in Hp as (Hc & Hn & Hd). unfold dial. rewrite Hd. fold (answer (rt_dialled s) e).
  destruct (answer (rt_dialled s) e) as [reply |] eqn:Ha.
  2: { intros Hrec. apply IH in Hrec as (new & Hs' & Hdl). cbn in Hs', Hdl. exists (e :: new). rewrite Hs', <- app_assoc. split; [done |].
       apply dialling_cons; try done. intros reply. by rewrite Ha. }
  destruct (er_status_code reply =? 200)%Z eqn:Hst; cbn [negb].
  2: { intros Hrec. apply IH in Hrec as (new & Hs' & Hdl). cbn in Hs', Hdl. exists (e :: new). rewrite Hs', <- app_assoc. split; [done |].
       apply dialling_cons; try done. intros reply'. rewrite Ha. intros [= <-]. lia. }
  intros Hr. exists [e]. assert (Hs' : rt_dialled s' = rt_dialled s ++ [e] ∧ embedding_from_json (loads (er_body reply)) model = r).
  { destruct (embedding_from_json _ _) as [f | emb]; injection Hr as <- <-; by split. }
  destruct Hs' as [-> Hr']. split; [done |]. constructor; cbn; [lia | apply NoDup_singleton | by intros x ->%list_elem_of_singleton | by intros x ->%list_elem_of_singleton |].
  left. exists [], e, reply. rewrite app_nil_r. split_and!; [done | done | done | lia | done].
Qed.
End Embed.

(** Embedding a query dials at most two replicas, each of them one the registry
    listed for the model and no two at the same address; it succeeds only with the
    vector of a 200 answer to its last request, every earlier one having failed, and it
    fails only after a malformed 200, after two failures, or when every replica of the
    model has failed.  A 200 that is malformed is never retried. *)
Theorem embed_query_retries model query endpoints (s s' : Retrieving P) r :
  embed_query endpoints model query s = (s', r) →
  ∃ new, rt_dialled s' = rt_dialled s ++ new ∧
    dialling model query endpoints MAX_EMBED_ATTEMPTS [] (rt_dialled s) new r.
Proof using All.
  unfold embed_query. destruct endpoints as [| e0 rest] eqn:He; [| apply embed_attempts_dialling].
  intros [= <- <-]. exists []. rewrite app_nil_r. split; [done |]. constructor; cbn; [lia | apply NoDup_nil_2 | by intros e ?%elem_of_nil | by intros e ?%elem_of_nil |].
  right. split_and!; [done | eauto |]. right. intros e Hin. by apply elem_of_nil in Hin.
Qed.

(** ** Who may read a collection *)

Context {V : Type} (serialize_float32 : list Q → V) (vec_match : gmap Z V → V → Z → list (Z * Q)) (dist : V → V → Q).
Context (vec_nearest : ∀ t v k, (0 < k)%Z → nearest_rows dist t v k (vec_match t v k)).
Notation search_collection := (search_collection counts loads reach serialize_float32 vec_match).
Notation query_collection := (query_collection counts loads reach serialize_float32 vec_match).
Notation retrieve := (retrieve counts loads reach serialize_float32 vec_match).

Lemma find_collection_by_name name d :
  rag_ok serialize_float32 d →
  match find_collection name d with
  | inr c => collection_by_name name d = Some c
  | inl f => collection_by_name name d = None ∧ ∃ detail, f = RetrievalError 404 detail
  end.
Proof.
  intros Hok. unfold find_collection. destruct (head _) as [c |] eqn:Hh.
  - apply head_Some_elem_of, list_elem_of_filter in Hh as [Hn Hin]. apply (by_name_some serialize_float32); [done |].
    split; [by apply list_collections_elem | done].
  - split; [| by eexists]. destruct (collection_by_name name d) as [c |] eqn:Hc; [exfalso | done].
    apply (by_name_some serialize_float32) in Hc as [Hat Hn]; [| done]. apply head_None in Hh.
    assert (Hin : c ∈ filter (λ c, co_name c = name) (list_collections d)).
    { apply list_elem_of_filter. split; [done | by apply list_collections_elem]. }
    rewrite Hh in Hin. by apply elem_of_nil in Hin.
Qed.

(** What a search hands out is in the collection. *)
Lemma search_stored endpoints c q k d (s s' : Retrieving P) matches :
  rag_ok serialize_float32 d → collection_by_name (co_name c) d = Some c →
  search_collection endpoints c q k d s = (s', inr matches) →
  (length matches ≤ Z.to_nat k)%nat ∧
  ∀ m, m ∈ matches → ∃ e, stored d (co_id c) (sr_id m) e ∧ e.1.1 = sr_text m.
Proof using vec_nearest.
  intros Hok Hc. unfold RagQuery.search_collection, mbind, eff_bind. destruct (embed_query _ _ _ s) as [s1 [f | emb]]; [done |].
  destruct (RagStore.query _ _ _ _ _ d) as [d' [e | ms]] eqn:Hq; [done |]. cbn. intros [= _ <-].
  destruct (query_spec serialize_float32 vec_match dist vec_nearest d _ _ _ _ _ Hok Hq) as (_ & c' & v & t & Hc' & _ & Hl & _ & _ & Hrows & _).
  rewrite Hc in Hc'. injection Hc' as <-. split; [lia |]. intros m Hm. destruct (Hrows m Hm) as (w & Hst & _). by eexists.
Qed.

(** Only a caller whose API key may use a collection's embedding model reads from
    it: any other request is answered 401, 403 or 404 without a replica being dialled,
    and the chunks of an answer are chunks of the collection named, at most as many as
    were asked for. *)
Theorem query_collection_authorised auth endpoints name body authorization d (s s' : Retrieving P) reply :
  rag_ok serialize_float32 d →
  query_collection auth endpoints name body authorization d s = (s', reply) →
  (s' = s ∧ ∃ code detail, reply = QueryHttp code detail ∧ code ∈ [401; 403; 404]%Z) ∨
  ∃ token key c, extract_bearer authorization = Some token ∧ auth token = Some key ∧
    collection_by_name name d = Some c ∧ allows key (co_model_id c) = true ∧
    ∀ r, reply = QueryOk r →
      qp_collection r = name ∧ qp_model_id r = co_model_id c ∧ (length (qp_chunks r) ≤ Z.to_nat (qr_k body))%nat ∧
      ∀ ch, ch ∈ qp_chunks r → ∃ e, stored d (co_id c) (qc_chunk_id ch) e ∧ e.1.1 = qc_text ch.
Proof using vec_nearest.
  intros Hok. unfold RagQuery.query_collection. destruct (extract_bearer authorization) as [token |] eqn:Hb; cbn [mbind option_bind];
    [destruct (auth token) as [key |] eqn:Ha |]; try (intros [= <- <-]; left; split; [done |]; eexists _, _; split; [done | by left]).
  pose proof (find_collection_by_name name d Hok) as Hf. destruct (find_collection name d) as [f | c].
  { destruct Hf as [_ [detail ->]]. intros [= <- <-]. left. split; [done |]. eexists _, _. split; [done |]. by right; right; left. }
  destruct (allows key (co_model_id c)) eqn:Hal; cbn [negb].
  2: { intros [= <- <-]. left. split; [done |]. eexists _, _. split; [done |]. by right; left. }
  pose proof Hf as Hn. apply (by_name_some serialize_float32) in Hn as [_ Hn]; [| done].
  destruct (search_collection _ _ _ _ _ s) as [s1 [f | ms]] eqn:Hs; intros [= <- <-]; right; exists token, key, c; split_and!; try done;
    intros r Hr; [by destruct f |]. injection Hr as <-.
  rewrite <- Hn in Hf. destruct (search_stored _ _ _ _ _ _ _ _ Hok Hf Hs) as [Hl Hrows]. cbn. rewrite length_fmap. split_and!; try done.
  intros ch (m & -> & Hm)%list_elem_of_fmap. by apply Hrows.
Qed.

(** The same check guards retrieval into a chat. *)
Lemma retrieve_authorised endpoints key name q k d (s s' : Retrieving P) r :
  rag_ok serialize_float32 d →
  retrieve endpoints key name q k d s = (s', r) →
  (s' = s ∧ ∃ code type detail, r = inl (inr (RagUpstream code type detail)) ∧ code ∈ [403; 404]%Z) ∨
  ∃ c, collection_by_name name d = Some c ∧ allows key (co_model_id c) = true ∧
    ∀ texts, r = inr texts →
      (length texts ≤ Z.to_nat k)%nat ∧ ∀ t, t ∈ texts → ∃ id e, stored d (co_id c) id e ∧ e.1.1 = t.
Proof using vec_nearest.
  intros Hok. unfold RagQuery.retrieve. pose proof (find_collection_by_name name d Hok) as Hf. destruct (find_collection name d) as [f | c].
  { destruct Hf as [_ [detail ->]]. intros [= <- <-]. left. split; [done |]. eexists _, _, _. split; [done |]. by right; left. }
  destruct (allows key (co_model_id c)) eqn:Hal; cbn [negb].
  2: { intros [= <- <-]. left. split; [done |]. eexists _, _, _. split; [done |]. by left. }
  pose proof Hf as Hn. apply (by_name_some serialize_float32) in Hn as [_ Hn]; [| done].
  destruct (search_collection _ _ _ _ _ s) as [s1 [f | ms]] eqn:Hs; intros [= <- <-]; right; exists c; split_and!; try done;
    intros texts Hr; injection Hr as <-.
  rewrite <- Hn in Hf. destruct (search_stored _ _ _ _ _ _ _ _ Hok Hf Hs) as [Hl Hrows]. rewrite length_fmap. split; [done |].
  intros t (m & -> & Hm)%list_elem_of_fmap. destruct (Hrows m Hm) as (e & ? & ?). by exists (sr_id m), e.
Qed.
End Retrieval.

(** ** A concrete query *)

Definition replica_at (host : string) : ReplicaEndpoint := {|
  re_agent_id := host; re_host := host; re_port := 80; re_model_id := "e"; re_inflight := 0 |}.

(** Replica [a] refuses the connection; the others answer. *)
Definition demo_reach (hist : list ReplicaEndpoint) (e : ReplicaEndpoint) (body : JBody) : option EmbedReply :=
  if bool_decide (re_host e = "a") then None else Some {| er_status_code := 200; er_body := [] |}.

Definition demo_loads (b : bytes) : option Json :=
  Some (JObj [("model", JStr "e"); ("data", JArr [JObj [("embedding", JArr [JInt 0; JInt 0])]])]).

Definition demo_endpoints (m : model_id) : list ReplicaEndpoint := [replica_at "a"; replica_at "b"; replica_at "c"].

Definition demo_key : ApiKeyInfo := {|
  ki_name := "k"; ki_key_id := "k"; ki_model_allowlist := Some ["e"]; ki_rpm_limit := None; ki_daily_limit := None; ki_is_admin := false |}.

Definition idle_retrieval : Retrieving CapabilityScheduler := {| rt_policy := capability_scheduler; rt_dialled := [] |}.

Lemma embed_query_retries_witness :
  ∃ s, embed_query ∅ demo_loads demo_reach (demo_endpoints "e") "e" "q" idle_retrieval = (s, inr [0; 0]%Q) ∧
    dialling ∅ demo_loads demo_reach "e" "q" (demo_endpoints "e") 2 [] [] [replica_at "a"; replica_at "b"] (inr [0; 0]%Q).
Proof.
  destruct (embed_query ∅ demo_loads demo_reach (demo_endpoints "e") "e" "q" idle_retrieval) as [s r] eqn:He.
  destruct (embed_query_retries ∅ demo_loads demo_reach "e" "q" (demo_endpoints "e") idle_retrieval s r He) as (new & Hd & Hdl).
  vm_compute in He. injection He as <- <-. exists {| rt_policy := capability_scheduler; rt_dialled := [replica_at "a"; replica_at "b"] |}.
  split; [reflexivity |]. cbn in Hd. subst new. exact Hdl.
Defined.

Lemma docs_filled_ok : rag_ok id docs_filled.
Proof. destruct docs_implements as [Hok Himp]. exact (proj1 (upsert_refines id "docs" docs_chunks docs docs_abstract Hok Himp)). Qed.

Definition demo_auth (t : string) : option ApiKeyInfo := if bool_decide (t = "t") then Some demo_key else None.

Lemma query_collection_authorised_witness :
  ∃ s r, query_collection ∅ demo_loads demo_reach id (brute_force taxicab) demo_auth demo_endpoints "docs"
      {| qr_q := "q"; qr_k := 1 |} (Some "Bearer t") docs_filled idle_retrieval = (s, QueryOk r) ∧
    (length (qp_chunks r) ≤ 1)%nat ∧ qc_text <$> qp_chunks r = ["near"].
Proof.
  destruct (query_collection ∅ demo_loads demo_reach id (brute_force taxicab) demo_auth demo_endpoints "docs"
    {| qr_q := "q"; qr_k := 1 |} (Some "Bearer t") docs_filled idle_retrieval) as [s reply] eqn:Hq.
  destruct (query_collection_authorised ∅ demo_loads demo_reach id (brute_force taxicab) taxicab
    (λ t v k _, brute_force_nearest taxicab t v k) demo_auth demo_endpoints "docs" {| qr_q := "q"; qr_k := 1 |}
    (Some "Bearer t") docs_filled idle_retrieval s reply docs_filled_ok Hq)
    as [(_ & code & detail & -> & _) | (token & key & c & _ & _ & _ & _ & Hr)]; vm_compute in Hq; [discriminate Hq |].
  injection Hq as <- <-. eexists _, _. split; [reflexivity |]. split; [exact (proj1 (proj2 (proj2 (Hr _ eq_refl)))) | reflexivity].
Defined.
