(* ===== verification/AgentClient.v ===== *)
(** * The agent's network client

    Models, under src/packages/fallow-agent/src/fallow_agent, heartbeat/client.py,
    heartbeat/constants.py, heartbeat/config.py, heartbeat/errors.py, main/shared.py
    and main/result_upload.py.  A program runs over the history of what the process
    did: the requests it sent, the sleeps, and the work that blocks the event loop.
    How an await ends, and the clock, are functions of that history: a request is
    answered, fails in transport, fails in another way httpx reports (a body that
    cannot be decoded), or its task is cancelled; what pydantic makes of a body is an
    argument.  [asyncio.timeout] is a deadline: an
    await that ends past it ends in [Timeout], which no [except Exception] catches. *)

From S2P Require Import QueueDb.
From S2P Require Export Protocol Registry Bytes GatewayBody Chunker.

(** ** What the process awaits *)

Inductive Request :=
  | ReqRegister (r : RegisterRequest)
  | ReqHeartbeat (token : string) (h : Heartbeat)
  | ReqPollWork (token : string) (agent : agent_id) (timeout : Q)
  | ReqPushEvent (token : string) (e : AgentEvent)
  | ReqComplete (token : string) (agent : agent_id) (attempt : Z) (r : WorkResult)
  | ReqFetchInput (token : string) (url : string)
  | ReqUpload (token : string) (agent : agent_id) (uid : unit_id) (attempt : Z) (payload : bytes)
  | ReqEmbed (host : string) (port : Z) (model : model_id) (chunks : list string).

Inductive Await :=
  | Send (r : Request)
  | Sleep (seconds : Q)
  | Busy (what : string).                    (* synchronous work: no timer fires, no cancellation *)

(** A response, an [httpx.TransportError], another [httpx.HTTPError], or the task
    being cancelled. *)
Inductive Outcome :=
  | Answered (status : Z) (content : bytes)
  | TransportFailed
  | Undecodable
  | Interrupted.

Abbreviation history := (list Await).

(** ** Exceptions *)

Inductive Exc :=
  | Cancelled                                (* the task was cancelled *)
  | Timeout                                  (* an enclosing asyncio.timeout *)
  | CoordinatorAuthError (code : Z)
  | CoordinatorTransientError
  | CoordinatorProtocolError
  | ResultUploadTransientError
  | ResultUploadDigestMismatch (expected got : string)
  | ResultUploadError
  | DeferredUploadError (payload_path : string)
  | WorkerNotRegisteredError (kind : WorkerKind)
  | WorkerUnavailableError
  | WorkerInputError
  | WorkerBackendError
  | OtherError (name : string).              (* an exception of a library *)

(** [httpx.DecodingError]: an [HTTPError] that is no [TransportError]. *)
Definition undecodable : Exc := OtherError "DecodingError".

Definition is_httpx_error (e : Exc) : bool :=
  match e with OtherError name => bool_decide (name = "DecodingError") | _ => false end.

(** Not an [Exception]. *)
Definition is_base_exception (e : Exc) : bool :=
  match e with Cancelled | Timeout => true | _ => false end.

Definition is_coordinator_error (e : Exc) : bool :=
  match e with CoordinatorAuthError _ | CoordinatorTransientError | CoordinatorProtocolError => true | _ => false end.

(** [ResultUploadTransientError] and its subclass. *)
Definition is_upload_transient (e : Exc) : bool :=
  match e with ResultUploadTransientError | ResultUploadDigestMismatch _ _ => true | _ => false end.

Definition is_upload_error (e : Exc) : bool :=
  match e with ResultUploadError => true | _ => is_upload_transient e end.

(** ** The process *)

Record World := {
  w_history : history;
  w_agent_id : option agent_id; w_device_token : option string;   (* CoordinatorClient *)
  w_deadline : option instant;                                    (* asyncio.timeout *)
  w_lease_ids : list unit_id;                                     (* LeaseRegistry *)
  w_results : gmap string bytes                                   (* results_dir *)
}.

Abbreviation A_eff := (Eff World Exc).

Definition set_history h (w : World) : World := {|
  w_history := h; w_agent_id := w_agent_id w; w_device_token := w_device_token w; w_deadline := w_deadline w;
  w_lease_ids := w_lease_ids w; w_results := w_results w |}.
Definition set_identity a t (w : World) : World := {|
  w_history := w_history w; w_agent_id := Some a; w_device_token := Some t; w_deadline := w_deadline w;
  w_lease_ids := w_lease_ids w; w_results := w_results w |}.
Definition set_deadline d (w : World) : World := {|
  w_history := w_history w; w_agent_id := w_agent_id w; w_device_token := w_device_token w; w_deadline := d;
  w_lease_ids := w_lease_ids w; w_results := w_results w |}.
Definition set_lease_ids l (w : World) : World := {|
  w_history := w_history w; w_agent_id := w_agent_id w; w_device_token := w_device_token w; w_deadline := w_deadline w;
  w_lease_ids := l; w_results := w_results w |}.
Definition set_results f (w : World) : World := {|
  w_history := w_history w; w_agent_id := w_agent_id w; w_device_token := w_device_token w; w_deadline := w_deadline w;
  w_lease_ids := w_lease_ids w; w_results := f (w_results w) |}.

(** [try: body except ...: handler], the handler choosing what it catches. *)
Definition catch {A} (body : A_eff A) (handler : Exc → option (A_eff A)) : A_eff A := λ w,
  match body w with
  | (w', inl e) => match handler e with Some h => h w' | None => (w', inl e) end
  | r => r
  end.

(** [try: body finally: last] *)
Definition finally {A} (body : A_eff A) (last : World → World) : A_eff A := λ w,
  let '(w', r) := body w in (last w', r).

(** ** LeaseRegistry *)

Definition leases_set (id : unit_id) : A_eff unit := modify (set_lease_ids [id]).
Definition leases_clear (w : World) : World := set_lease_ids [] w.

(** ** Constants and settings *)

Definition OK_CODES : list Z := [200; 201]%Z.
Definition ACCEPT_CODES : list Z := [200; 201; 202; 204]%Z.
Definition AUTH_CODES : list Z := [401; 403]%Z.
Definition SERVER_ERROR_MIN : Z := 500.

Record ClientRetryConfig := { cr_max_retries : nat; cr_backoff_base_s : Q }.
Record ResultUploadRetryConfig := { ur_max_retries : nat; ur_backoff_base_s : Q }.
Record EventSinkConfig := { es_max_push_attempts : nat; es_backoff_base_s : Q }.

Definition backoff (base : Q) (n : nat) : Q := (base * inject_Z (2 ^ Z.of_nat n))%Q.

Section Client.
  Context (env : history → Await → Outcome) (clock : history → instant).

Definition now : A_eff instant := gets (λ w, clock (w_history w)).

(** Awaiting. *)
Definition await (a : Await) : A_eff Outcome := λ w,
  let w' := set_history (w_history w ++ [a]) w in
  match env (w_history w) a with
  | Interrupted => (w', inl Cancelled)
  | o =>
      match w_deadline w with
      | Some d => if (d <=? clock (w_history w'))%Z then (w', inl Timeout) else (w', inr o)
      | None => (w', inr o)
      end
  end.

Definition sleep (seconds : Q) : A_eff unit := await (Sleep seconds) ;; mret tt.

(** Blocking the event loop. *)
Definition busy (what : string) : A_eff unit := modify (λ w, set_history (w_history w ++ [Busy what]) w).

(** A request: [None] is an [httpx.TransportError], which every caller handles. *)
Definition send (r : Request) : A_eff (option (Z * bytes)) :=
  o ← await (Send r);
  match o with
  | Answered status content => mret (Some (status, content))
  | Undecodable => raise undecodable
  | _ => mret None
  end.

(** ** CoordinatorClient *)

Context (retry : ClientRetryConfig).

(** [_classify_failure] *)
Definition classify_failure (code : Z) : Exc :=
  if bool_decide (code ∈ AUTH_CODES) then CoordinatorAuthError code
  else if (SERVER_ERROR_MIN <=? code)%Z then CoordinatorTransientError
  else CoordinatorProtocolError.

(** [_parse_ok] *)
Definition parse_ok {A} (parse : bytes → option A) (status : Z) (content : bytes) : A_eff A :=
  if bool_decide (status ∈ OK_CODES) then
    match parse content with Some a => mret a | None => raise CoordinatorProtocolError end
  else raise (classify_failure status).

(** [_require_agent_id], [_auth_headers] *)
Definition require_agent_id : A_eff agent_id :=
  a ← gets w_agent_id; match a with Some a => mret a | None => raise CoordinatorProtocolError end.

Definition auth_headers : A_eff string :=
  t ← gets w_device_token; match t with Some t => mret t | None => raise CoordinatorProtocolError end.

(** [_send_idempotent], with [attempt] transport failures behind it; [more] counts
    the retries it still has, [max_retries - attempt]. *)
Fixpoint send_retrying (more attempt : nat) (request : string → Request) : A_eff (Z * bytes) :=
  headers ← auth_headers;
  r ← send (request headers);
  match r with
  | Some answer => mret answer
  | None =>
      match more with
      | O => raise CoordinatorTransientError
      | S more => sleep (backoff (cr_backoff_base_s retry) attempt) ;; send_retrying more (S attempt) request
      end
  end.

Definition send_idempotent (request : string → Request) : A_eff (Z * bytes) :=
  send_retrying (cr_max_retries retry) 0 request.

(** [_post_expect_accept] *)
Definition post_expect_accept (request : string → Request) : A_eff unit :=
  headers ← auth_headers;
  r ← send (request headers);
  match r with
  | None => raise CoordinatorTransientError
  | Some (status, _) => if bool_decide (status ∈ ACCEPT_CODES) then mret tt else raise (classify_failure status)
  end.

Context (parse_register : bytes → option RegisterResponse) (parse_response : bytes → option HeartbeatResponse)
        (parse_lease : bytes → option WorkUnitLease).

Definition register (r : RegisterRequest) : A_eff RegisterResponse :=
  answer ← send (ReqRegister r);
  match answer with
  | None => raise CoordinatorTransientError
  | Some (status, content) =>
      response ← parse_ok parse_register status content;
      modify (set_identity (rp_agent_id response) (rp_device_token response)) ;; mret response
  end.

Definition heartbeat (h : Heartbeat) : A_eff HeartbeatResponse :=
  answer ← send_idempotent (λ token, ReqHeartbeat token h);
  parse_ok parse_response answer.1 answer.2.

Definition poll_work (timeout : Q) : A_eff (option WorkUnitLease) :=
  agent ← require_agent_id;
  answer ← send_idempotent (λ token, ReqPollWork token agent timeout);
  if (answer.1 =? 204)%Z then mret None
  else lease ← parse_ok parse_lease answer.1 answer.2; mret (Some lease).

Definition push_event (e : AgentEvent) : A_eff unit := post_expect_accept (λ token, ReqPushEvent token e).

Definition complete_unit (r : WorkResult) (lease_attempt : Z) : A_eff unit :=
  agent ← require_agent_id;
  post_expect_accept (λ token, ReqComplete token agent lease_attempt r).

(** ** ResultUploader *)

Context (sha256 : bytes → bytes) (up_agent_id : agent_id) (up_token : string) (parse_upload : bytes → option string).

Definition upload (lease : WorkUnitLease) (payload : bytes) : A_eff string :=
  let expected := hexdigest sha256 payload in
  answer ← send (ReqUpload up_token up_agent_id (wl_work_unit_id lease) (wl_attempt lease) payload);
  match answer with
  | None => raise ResultUploadTransientError
  | Some (status, content) =>
      if negb (status =? 200)%Z then
        raise (if (500 <=? status)%Z then ResultUploadTransientError else ResultUploadError)
      else
        match parse_upload content with
        | None => raise ResultUploadError
        | Some result_ref =>
            if negb (bool_decide (result_ref = expected)) then raise (ResultUploadDigestMismatch expected result_ref)
            else mret result_ref
        end
  end.
End Client.
