(* ===== verification/AgentWork.v ===== *)
(** * The agent's batch work

    Models, under src/packages/fallow-agent/src/fallow_agent, workers/runner.py,
    workers/embed.py, workers/types.py, workers/registry.py, main/runner_wiring.py and
    main/work.py: polling for a lease while the machine is idle, running it within
    its slack, uploading the payload with a local copy kept until it is accepted,
    and reporting the result. *)

From stdpp Require Import pretty.
From S2P Require Import QueueDb RagIngest.
From S2P Require Export AgentClient.

Record WorkOutput := { wo_payload : bytes; wo_metrics : WorkMetrics }.

Record LocalEndpoint := { le_host : string; le_port : Z }.

(** [Worker.run] *)
Abbreviation Worker := (WorkUnitLease → bytes → A_eff WorkOutput).

(** A result, or a payload that waits for a later attempt. *)
Inductive RunResult :=
  | Finished (r : WorkResult)
  | DeferredWorkResult (uid : unit_id) (payload_path : string).

(** ** The embed worker *)

(** [_parse_chunks], of what [json.loads] returned *)
Definition parse_chunks (parsed : option Json) : Exc + list string :=
  match parsed with
  | Some (JArr l) =>
      match mapM item_text l with
      | Some [] => inl WorkerInputError
      | Some chunks => inr chunks
      | None => inl WorkerInputError
      end
  | _ => inl WorkerInputError
  end.

(** [_embedding_index]: a bool is an [int]. *)
Definition embedding_index (item : Json) : Z :=
  match item with
  | JObj f =>
      match od_get "index" f with
      | None => 0
      | Some (JInt z) => z
      | Some (JBool b) => if b then 1 else 0
      | Some _ => 0
      end
  | _ => 0
  end.

(** [float(x)]: [inl] raises [OverflowError], [inr None] is not a number, and
    [inr (Some None)] is not finite. *)
Definition to_float (v : Json) : unit + option (option Q) :=
  match v with
  | JInt z => if (OVERFLOW <=? Z.abs z)%Z then inl tt else inr (Some (Some (inject_Z z)))
  | JBool b => inr (Some (Some (if b then 1 else 0)%Q))
  | JFloat q => inr (Some q)
  | _ => inr None
  end.

Definition is_numeric (v : Json) : bool :=
  match v with JInt _ | JBool _ | JFloat _ => true | _ => false end.

(** [[float(x) for x in vector]] of a numeric vector *)
Fixpoint floats (vector : list Json) : option (list (option Q)) :=
  match vector with
  | [] => Some []
  | v :: rest =>
      match to_float v with
      | inr (Some q) => (λ qs, q :: qs) <$> floats rest
      | _ => None
      end
  end.

(** [_embedding_vector] *)
Definition embedding_vector (item : Json) : Exc + list (option Q) :=
  match item with
  | JObj f =>
      match od_get "embedding" f with
      | Some (JArr vector) =>
          if forallb is_numeric vector
          then match floats vector with Some qs => inr qs | None => inl (OtherError "OverflowError") end
          else inl WorkerBackendError
      | _ => inl WorkerBackendError
      end
  | _ => inl WorkerBackendError
  end.

Fixpoint embedding_vectors (items : list Json) : Exc + list (list (option Q)) :=
  match items with
  | [] => inr []
  | item :: rest =>
      match embedding_vector item with
      | inl e => inl e
      | inr v => match embedding_vectors rest with inl e => inl e | inr vs => inr (v :: vs) end
      end
  end.

(** [_usage_tokens] *)
Definition usage_tokens (data : JBody) : option Z :=
  match od_get "usage" data with
  | Some (JObj u) =>
      match od_get "total_tokens" u with
      | Some (JInt z) => Some z
      | Some (JBool b) => Some (if b then 1 else 0)%Z
      | _ => None
      end
  | _ => None
  end.

(** [_parse_embeddings] *)
Definition parse_embeddings (data : JBody) (expected : nat) : Exc + (list (list (option Q)) * option Z) :=
  match od_get "data" data with
  | Some (JArr raw) =>
      if negb (length raw =? expected)%nat then inl WorkerBackendError
      else
        match embedding_vectors (py_sorted embedding_index raw) with
        | inl e => inl e
        | inr embeddings => inr (embeddings, usage_tokens data)
        end
  | _ => inl WorkerBackendError
  end.

(** The document of [_encode_payload]. *)
Definition payload_document (embeddings : list (list (option Q))) (model : model_id) (dims : Z) : Json :=
  JObj [("embeddings", JArr ((λ v, JArr (JFloat <$> v)) <$> embeddings)); ("model_id", JStr model); ("dims", JInt dims)].

(** [endpoint_resolver] *)
Definition resolve_endpoint (statuses : list ReplicaStatus) (bind_host : string) (model : model_id) : option LocalEndpoint :=
  (λ r, {| le_host := bind_host; le_port := rs_port r |})
    <$> head (filter (λ r, rs_model_id r = model ∧ rs_state r = READY) statuses).

(** One recognised segment: start, end, text. *)
Abbreviation TranscriptSegment := (Q * Q * string)%type.

(** The document of [_encode_transcript]. *)
Definition transcript_document (segments : list TranscriptSegment) : Json :=
  JObj [("text", JStr (strip (join " " ((λ s : TranscriptSegment, strip s.2) <$> segments))));
        ("segments", JArr ((λ s : TranscriptSegment,
           JObj [("start", JFloat (Some s.1.1)); ("end", JFloat (Some s.1.2)); ("text", JStr s.2)]) <$> segments))].

Section Work.
  Context (env : history → Await → Outcome) (clock : history → instant) (monotonic : history → Q).
  Context (loads : bytes → option Json) (dumps : Json → bytes).
  Context (statuses : history → list ReplicaStatus) (bind_host : string).
  Notation send := (send env clock).

(** [EmbedWorker.run] *)
Definition embed_run : Worker := λ lease input_bytes,
  match parse_chunks (loads input_bytes) with
  | inl e => raise e
  | inr chunks =>
      h ← gets w_history;
      match resolve_endpoint (statuses h) bind_host (wl_model_id lease) with
      | None => raise WorkerUnavailableError
      | Some e =>
          answer ← catch (send (ReqEmbed (le_host e) (le_port e) (wl_model_id lease) chunks))
                     (λ e, if is_httpx_error e then Some (mret None) else None);
          match answer with
          | None => raise WorkerBackendError
          | Some (status, content) =>
              if negb (status =? 200)%Z then raise WorkerBackendError
              else
                match loads content with
                | Some (JObj data) =>
                    match parse_embeddings data (length chunks) with
                    | inl e => raise e
                    | inr (embeddings, tokens) =>
                        let dims := match embeddings with v :: _ => Z.of_nat (length v) | [] => 0%Z end in
                        mret {| wo_payload := dumps (payload_document embeddings (wl_model_id lease) dims);
                                wo_metrics := {| wm_duration_s := 0; wm_items := Some (Z.of_nat (length chunks));
                                                 wm_tokens := tokens |} |}
                    end
                | _ => raise WorkerBackendError
                end
          end
      end
  end.

(** ** The transcribe worker *)

(** [TranscribeWorker.run]; [transcribe] is the loaded whisper model, [None] where it
    raises.  It runs on the event loop, which it blocks; the audio file is removed
    whatever happens. *)
Definition transcribe_run (transcribe : bytes → option (list TranscriptSegment)) : Worker := λ lease input_bytes,
  let audio_path := "audio/" +:+ wl_work_unit_id lease +:+ ".wav" in
  modify (set_results <[audio_path := input_bytes]>) ;;
  busy "transcribe" ;;
  modify (set_results (delete audio_path)) ;;
  match transcribe input_bytes with
  | None => raise (OtherError "RuntimeError")
  | Some segments =>
      mret {| wo_payload := dumps (transcript_document segments);
              wo_metrics := {| wm_duration_s := 0; wm_items := Some (Z.of_nat (length segments)); wm_tokens := None |} |}
  end.

(** [build_workers]: [whisper] is the model where it is configured and loads. *)
Definition build_workers (whisper : option (bytes → option (list TranscriptSegment))) (kind : WorkerKind) : option Worker :=
  match kind with
  | EMBED => Some embed_run
  | TRANSCRIBE => transcribe_run <$> whisper
  | CHAT => None
  end.

(** [make_fetch_input] *)
Definition fetch_input (token : string) (lease : WorkUnitLease) : A_eff bytes :=
  answer ← send (ReqFetchInput token (wl_input_url lease));
  match answer with
  | None => raise (OtherError "TransportError")
  | Some (status, content) =>
      if (200 <=? status)%Z && (status <? 300)%Z then mret content else raise (OtherError "HTTPStatusError")
  end.

(** ** Uploading, with a copy kept *)

Section Upload.
  Context (policy : ResultUploadRetryConfig) (disk_ok : history → bool) (unlink_ok : history → bool).
  Context (uploader : WorkUnitLease → bytes → A_eff string).

Definition destination (lease : WorkUnitLease) : string :=
  wl_work_unit_id lease +:+ "." +:+ pretty (wl_attempt lease) +:+ ".bin".

(** The loop of [make_coordinator_upload], [attempt] retries behind it and [more] ahead. *)
Fixpoint upload_retrying (more attempt : nat) (lease : WorkUnitLease) (payload : bytes) : A_eff string := λ w,
  match uploader lease payload w with
  | (w', inr ref) => (w', inr ref)
  | (w', inl e) =>
      if is_upload_transient e then
        match more with
        | O => (w', inl (DeferredUploadError (destination lease)))
        | S more =>
            let delay := backoff (ur_backoff_base_s policy) attempt in
            if (wl_lease_expires lease <=? clock (w_history w') + timedelta_us delay)%Z
            then (w', inl (DeferredUploadError (destination lease)))
            else (sleep env clock delay ;; upload_retrying more (S attempt) lease payload) w'
        end
      else if is_upload_error e then (w', inl (DeferredUploadError (destination lease)))
      else (w', inl e)
  end.

(** [make_coordinator_upload]'s [_upload] *)
Definition coordinator_upload (lease : WorkUnitLease) (payload : bytes) : A_eff string :=
  h ← gets w_history;
  if negb (disk_ok h) then raise (DeferredUploadError (destination lease))
  else
    modify (set_results <[destination lease := payload]>) ;;
    result_ref ← upload_retrying (ur_max_retries policy) 0 lease payload;
    h ← gets w_history;
    (if unlink_ok h then modify (set_results (delete (destination lease))) else mret tt) ;;
    mret result_ref.
End Upload.

(** ** WorkUnitRunner *)

Section Runner.
  Context (exc_str : Exc → string) (workers : WorkerKind → option Worker).
  Context (fetch : WorkUnitLease → A_eff bytes) (upload : WorkUnitLease → bytes → A_eff string).

Definition exc_name (e : Exc) : string :=
  match e with
  | Cancelled => "CancelledError" | Timeout => "CancelledError"
  | CoordinatorAuthError _ => "CoordinatorAuthError" | CoordinatorTransientError => "CoordinatorTransientError"
  | CoordinatorProtocolError => "CoordinatorProtocolError"
  | ResultUploadTransientError => "ResultUploadTransientError" | ResultUploadDigestMismatch _ _ => "ResultUploadDigestMismatch"
  | ResultUploadError => "ResultUploadError" | DeferredUploadError _ => "DeferredUploadError"
  | WorkerNotRegisteredError _ => "WorkerNotRegisteredError" | WorkerUnavailableError => "WorkerUnavailableError"
  | WorkerInputError => "WorkerInputError" | WorkerBackendError => "WorkerBackendError" | OtherError name => name
  end.

(** [_describe] *)
Definition describe (e : Exc) : string :=
  let message := strip (exc_str e) in
  if bool_decide (message = "") then exc_name e else exc_name e +:+ ": " +:+ message.

(** [_execute] *)
Definition execute (lease : WorkUnitLease) : A_eff WorkOutput :=
  match workers (wl_kind lease) with
  | None => raise (WorkerNotRegisteredError (wl_kind lease))
  | Some run => input_bytes ← fetch lease; run lease input_bytes
  end.

Definition elapsed (started : Q) : A_eff Q :=
  gets (λ w, let d := (monotonic (w_history w) - started)%Q in if (0 <?q d)%Q then d else 0%Q).

(** [_failed] *)
Definition failed_result (lease : WorkUnitLease) (e : Exc) (started : Q) : A_eff RunResult :=
  duration ← elapsed started;
  mret (Finished {| wr_work_unit_id := wl_work_unit_id lease; wr_status := FAILED; wr_result_ref := None;
                    wr_error := Some (describe e);
                    wr_metrics := Some {| wm_duration_s := duration; wm_items := None; wm_tokens := None |} |}).

Definition run_lease (lease : WorkUnitLease) : A_eff RunResult :=
  started ← gets (λ w, monotonic (w_history w));
  catch
    (output ← execute lease;
     result_ref ← upload lease (wo_payload output);
     duration ← elapsed started;
     mret (Finished {| wr_work_unit_id := wl_work_unit_id lease; wr_status := SUCCEEDED; wr_result_ref := Some result_ref;
                       wr_error := None;
                       wr_metrics := Some {| wm_duration_s := duration; wm_items := wm_items (wo_metrics output);
                                             wm_tokens := wm_tokens (wo_metrics output) |} |}))
    (λ e,
       match e with
       | DeferredUploadError path => Some (mret (DeferredWorkResult (wl_work_unit_id lease) path))
       | _ => if is_base_exception e then None else Some (failed_result lease e started)
       end).

(** ** WorkLoop *)

Context (retry : ClientRetryConfig) (parse_lease : bytes → option WorkUnitLease) (preemptor : history → AgentState).
Context (poll_timeout_s active_sleep_s : Q).

(** [asyncio.timeout(slack)] around a body: its own cancellation becomes [TimeoutError]. *)
Definition within (deadline : instant) {A} (body : A_eff A) : A_eff A := λ w,
  let '(w', r) := body (set_deadline (Some deadline) w) in (set_deadline (w_deadline w) w', r).

(** [_run_within_slack] *)
Definition run_within_slack (lease : WorkUnitLease) : A_eff unit :=
  t ← now clock;
  within (Z.max t (wl_lease_expires lease))
    (result ← run_lease lease;
     match result with
     | DeferredWorkResult _ _ => mret tt
     | Finished r => complete_unit env clock r (wl_attempt lease)
     end).

(** [_process] *)
Definition process (lease : WorkUnitLease) : A_eff unit :=
  leases_set (wl_work_unit_id lease) ;;
  finally
    (catch (run_within_slack lease)
       (λ e, match e with
             | Timeout => Some (mret tt)
             | _ => if is_coordinator_error e then Some (mret tt) else None
             end))
    leases_clear.

(** [_poll] *)
Definition poll : A_eff (option WorkUnitLease) :=
  catch (poll_work env clock retry parse_lease poll_timeout_s)
    (λ e, if is_coordinator_error e then Some (sleep env clock active_sleep_s ;; mret None) else None).

Definition tick : A_eff unit :=
  h ← gets w_history;
  if negb (bool_decide (preemptor h = IDLE)) then sleep env clock active_sleep_s
  else
    lease ← poll;
    match lease with
    | None => mret tt
    | Some lease => process lease
    end.
End Runner.
End Work.
