(* ===== verification/AgentWorkSpec.v ===== *)
(** * What the agent's work loop promises

    Proved for every answer, transport failure, undecodable body and cancellation, and
    for every clock and disk: retries are bounded and identical, a payload is accepted
    under its own digest or kept, a unit is reported at most once, under its own lease
    and before it expires unless a transcription blocked the loop past it, and never
    polled for while the machine is in use; and the coordinator takes an embed
    worker's payload exactly when its vectors are finite and of one length. *)

From S2P Require Import QueueDb RagIngest.
From S2P Require Export AgentWork.

Section Discipline.
  Context (env : history → Await → Outcome) (clock : history → instant).

(** What no part of the loop touches. *)
Record kept (w w' : World) : Prop := {
  kp_agent : w_agent_id w' = w_agent_id w; kp_token : w_device_token w' = w_device_token w;
  kp_deadline : w_deadline w' = w_deadline w; kp_leases : w_lease_ids w' = w_lease_ids w
}.

Lemma kept_refl w : kept w w.
Proof. done. Qed.

Lemma kept_trans w1 w2 w3 : kept w1 w2 → kept w2 w3 → kept w1 w3.
Proof. intros [] []. constructor; congruence. Qed.

Definition aborted {A} (r : Exc + A) : Prop := ∃ e, r = inl e ∧ is_base_exception e = true.

(** The last thing done was to block the event loop. *)
Definition ended_busy (new : history) : Prop := ∃ pre what, new = pre ++ [Busy what].

(** What every part does: append awaits of a kind [K] to the history, and, under a
    deadline, end other than by a cancellation only before it, or just after blocking
    the event loop past it. *)
Record disciplined (K : Await → Prop) {A} (w w' : World) (r : Exc + A) (new : history) : Prop := {
  di_history : w_history w' = w_history w ++ new;
  di_kind : Forall K new;
  di_kept : kept w w';
  di_timely d : w_deadline w = Some d → aborted r ∨ new = [] ∨ ended_busy new ∨ (clock (w_history w') < d)%Z;
  di_timeout : r = inl Timeout → w_deadline w ≠ None
}.

Definition follows (K : Await → Prop) {A} (c : A_eff A) : Prop :=
  ∀ w w' r, c w = (w', r) → ∃ new, disciplined K w w' r new.

Lemma follows_mono (K K' : Await → Prop) {A} (c : A_eff A) : (∀ a, K a → K' a) → follows K c → follows K' c.
Proof.
  intros HK Hc w w' r Hr. destruct (Hc w w' r Hr) as [new [? HF ? ? ?]]. exists new. constructor; try done.
  by eapply Forall_impl.
Qed.

Lemma follows_pure K {A} (c : A_eff A) (r0 : World → Exc + A) :
  (∀ w, c w = (w, r0 w)) → (∀ w, r0 w ≠ inl Timeout) → follows K c.
Proof.
  intros Hc Ht w w' r. rewrite Hc. intros [= <- <-]. exists []. constructor; [by rewrite app_nil_r | by constructor | done | by right; left |].
  intros Hr. by destruct (Ht w).
Qed.

Lemma follows_ret K {A} (a : A) : follows K (mret a).
Proof. by apply (follows_pure K _ (λ _, inr a)). Qed.

Lemma follows_gets K {A} (f : World → A) : follows K (gets f).
Proof. by apply (follows_pure K _ (λ w, inr (f w))). Qed.

Lemma follows_raise K {A} e : e ≠ Timeout → follows (A := A) K (raise e).
Proof. intros He. apply (follows_pure K _ (λ _, inl e)); [done | intros w Hr; congruence]. Qed.

Lemma follows_results K f : follows K (modify (set_results f)).
Proof. intros w w' r [= <- <-]. exists []. constructor; [by rewrite app_nil_r | by constructor | done | by right; left | done]. Qed.

(** Two stretches, one after the other. *)
Lemma disciplined_app K {A B} w1 w2 w3 (r1 : Exc + A) (r2 : Exc + B) n1 n2 :
  ~ aborted r1 → disciplined K w1 w2 r1 n1 → disciplined K w2 w3 r2 n2 → disciplined K w1 w3 r2 (n1 ++ n2).
Proof.
  intros Hna [H1 K1 P1 D1 T1] [H2 K2 P2 D2 T2]. constructor.
  - by rewrite H2, H1, app_assoc.
  - by apply Forall_app.
  - by eapply kept_trans.
  - intros d Hd. assert (Hd' : w_deadline w2 = Some d) by (by rewrite (kp_deadline _ _ P1)).
    destruct (D2 d Hd') as [? | [-> | [(pre & what & ->) | ?]]]; [by left | | | by do 3 right].
    + rewrite app_nil_r in *. destruct (D1 d Hd) as [? | [-> | [? | Hlt]]]; [done | by right; left | by do 2 right; left |].
      do 3 right. by rewrite H2.
    + do 2 right. left. exists (n1 ++ pre), what. by rewrite app_assoc.
  - intros Hr. rewrite <- (kp_deadline _ _ P1). by apply T2.
Qed.

Lemma disciplined_result K {A B} w w' (r : Exc + A) (r' : Exc + B) new :
  (aborted r → aborted r') → (r' = inl Timeout → r = inl Timeout) → disciplined K w w' r new → disciplined K w w' r' new.
Proof.
  intros Ha Ht [H1 K1 P1 D1 T1]. constructor; try done; [| by intros ?%Ht%T1].
  intros d Hd. destruct (D1 d Hd) as [?%Ha | ?]; [by left | by right].
Qed.

Lemma disciplined_raised K {A B} w w' e new :
  disciplined K w w' (inl e : Exc + A) new → disciplined K w w' (inl e : Exc + B) new.
Proof. apply disciplined_result; [intros (? & [= <-] & ?); by exists e | congruence]. Qed.

Lemma follows_bind K {A B} (c : A_eff A) (f : A → A_eff B) :
  follows K c → (∀ a, follows K (f a)) → follows K (c ≫= f).
Proof.
  intros Hc Hf w w' r Hr. unfold mbind, eff_bind in Hr. destruct (c w) as [w1 [e | a]] eqn:Hcw; destruct (Hc _ _ _ Hcw) as [n1 Hd1].
  - injection Hr as <- <-. exists n1. by eapply disciplined_raised.
  - destruct (Hf a _ _ _ Hr) as [n2 Hd2]. exists (n1 ++ n2). eapply disciplined_app; [| exact Hd1 | exact Hd2]. by intros (? & ? & _).
Qed.

Lemma follows_catch K {A} (c : A_eff A) (h : Exc → option (A_eff A)) :
  follows K c → (∀ e k, h e = Some k → is_base_exception e = false ∧ follows K k) → follows K (catch c h).
Proof.
  intros Hc Hh w w' r Hr. unfold catch in Hr. destruct (c w) as [w1 [e | a]] eqn:Hcw; destruct (Hc _ _ _ Hcw) as [n1 Hd1];
    [| injection Hr as <- <-; by exists n1].
  destruct (h e) as [k |] eqn:Hk; [| injection Hr as <- <-; by exists n1].
  destruct (Hh e k Hk) as [Hb Hf]. destruct (Hf _ _ _ Hr) as [n2 Hd2]. exists (n1 ++ n2).
  eapply disciplined_app; [| exact Hd1 | exact Hd2]. intros (? & [= <-] & ?). congruence.
Qed.

Lemma follows_await K a : K a → follows K (await env clock a).
Proof.
  intros HK w w' r Hr. exists [a]. unfold await in Hr. destruct (env (w_history w) a) eqn:He.
  4: { injection Hr as <- <-. constructor; [done | by constructor | done | intros d _; left; by exists Cancelled | done]. }
  all: destruct (w_deadline w) as [d |] eqn:Hd; [destruct (d <=? _)%Z eqn:Ht |]; injection Hr as <- <-;
    (constructor; [done | by constructor | done | | cbn; congruence]); cbn; intros d' Hd'; rewrite Hd in Hd'; try done; injection Hd' as <-;
    first [left; by exists Timeout | do 3 right; cbn in *; lia].
Qed.

Lemma follows_sleep K s : K (Sleep s) → follows K (sleep env clock s).
Proof. intros HK. apply follows_bind; [by apply follows_await | intros ?; apply follows_ret]. Qed.

Lemma follows_send K r : K (Send r) → follows K (send env clock r).
Proof.
  intros HK. apply follows_bind; [by apply follows_await |]. intros [status content | | |]; first [apply follows_ret | by apply follows_raise].
Qed.

Lemma follows_busy K what : K (Busy what) → follows K (busy what).
Proof.
  intros HK w w' r [= <- <-]. exists [Busy what]. constructor; [done | by constructor | done | | done].
  intros d _. do 2 right. left. by exists [], what.
Qed.
End Discipline.

Create HintDb follows.
#[export] Hint Resolve follows_ret follows_gets follows_results follows_sleep follows_send : follows.
#[export] Hint Extern 2 (follows _ _ (raise _)) => (apply follows_raise; discriminate) : follows.
#[export] Hint Extern 3 (follows _ _ (_ ≫= _)) => (apply follows_bind; [| intro]) : follows.

(** ** Bounded retries *)

Section Retries.
  Context (env : history → Await → Outcome) (clock : history → instant) (retry : ClientRetryConfig).
  Notation await := (await env clock).
  Notation send_retrying := (send_retrying env clock retry).

(** Every await of a call that never gets an answer. *)
Fixpoint schedule (more attempt : nat) (r : Request) : history :=
  Send r ::
  match more with
  | O => []
  | S more => Sleep (backoff (cr_backoff_base_s retry) attempt) :: schedule more (S attempt) r
  end.

(** How a call to the coordinator can go. *)
Inductive retried (r : Request) : nat → nat → history → history → Exc + (Z * bytes) → Prop :=
  | retried_answer more attempt h status content :
      env h (Send r) = Answered status content → retried r more attempt h [Send r] (inr (status, content))
  | retried_aborted more attempt h e : is_base_exception e = true → retried r more attempt h [Send r] (inl e)
  | retried_undecodable more attempt h :
      env h (Send r) = Undecodable → retried r more attempt h [Send r] (inl undecodable)
  | retried_exhausted attempt h : env h (Send r) = TransportFailed → retried r 0 attempt h [Send r] (inl CoordinatorTransientError)
  | retried_asleep more attempt h e :
      env h (Send r) = TransportFailed → is_base_exception e = true →
      retried r (S more) attempt h [Send r; Sleep (backoff (cr_backoff_base_s retry) attempt)] (inl e)
  | retried_again more attempt h new res :
      env h (Send r) = TransportFailed →
      retried r more (S attempt) (h ++ [Send r; Sleep (backoff (cr_backoff_base_s retry) attempt)]) new res →
      retried r (S more) attempt h (Send r :: Sleep (backoff (cr_backoff_base_s retry) attempt) :: new) res.

Lemma await_cases a w w' r :
  await a w = (w', r) →
  w_history w' = w_history w ++ [a] ∧
  match r with
  | inr o => env (w_history w) a = o ∧ o ≠ Interrupted
  | inl e => is_base_exception e = true
  end.
Proof.
  unfold AgentClient.await. destruct (env (w_history w) a) eqn:He; [| | | by intros [= <- <-]];
    (destruct (w_deadline w) as [d |]; [destruct (_ <=? _)%Z |]); by intros [= <- <-].
Qed.

Lemma send_cases q w w' r :
  send env clock q w = (w', r) →
  w_history w' = w_history w ++ [Send q] ∧
  match r with
  | inr (Some (status, content)) => env (w_history w) (Send q) = Answered status content
  | inr None => env (w_history w) (Send q) = TransportFailed
  | inl e => is_base_exception e = true ∨ e = undecodable ∧ env (w_history w) (Send q) = Undecodable
  end.
Proof.
  unfold send, mbind, eff_bind. destruct (await _ w) as [w1 [e | o]] eqn:Ha; apply await_cases in Ha as [Hh Ha].
  { intros [= <- <-]. split; [done | by left]. }
  destruct Ha as [Ha Hn]. destruct o; intros [= <- <-]; (split; [done |]); try done. by right.
Qed.

Lemma await_results a w w' r : await a w = (w', r) → w_results w' = w_results w.
Proof.
  unfold AgentClient.await. destruct (env (w_history w) a); [| | | by intros [= <- <-]];
    (destruct (w_deadline w) as [d |]; [destruct (_ <=? _)%Z |]); by intros [= <- <-].
Qed.

Lemma send_results q w w' r : send env clock q w = (w', r) → w_results w' = w_results w.
Proof.
  unfold send, mbind, eff_bind. destruct (await _ w) as [w1 [e | o]] eqn:Ha; apply await_results in Ha; [by intros [= <- <-] |].
  destruct o; by intros [= <- <-].
Qed.

Lemma send_retrying_cases more attempt request t w w' r :
  w_device_token w = Some t → send_retrying more attempt request w = (w', r) →
  ∃ new, w_history w' = w_history w ++ new ∧ retried (request t) more attempt (w_history w) new r.
Proof.
  revert attempt w; induction more as [| more IH]; intros attempt w Ht; cbn [AgentClient.send_retrying];
    unfold auth_headers, mbind, eff_bind, gets; rewrite Ht; cbn [mret eff_ret];
    (destruct (send _ _ _ w) as [w1 [e | [[status content] |]]] eqn:Hs;
     pose proof (follows_send env clock (λ _, True) _ I _ _ _ Hs) as [n1 [_ _ Hk _ _]]; apply send_cases in Hs as [Hh Hs]).
  1, 4: intros [= <- <-]; exists [Send (request t)]; split; [done | destruct Hs as [Hs | [-> Hs]]; by constructor].
  1, 3: intros [= <- <-]; exists [Send (request t)]; split; [done | by constructor].
  - intros [= <- <-]. exists [Send (request t)]. split; [done | by constructor].
  - unfold sleep at 1, mbind, eff_bind. destruct (await _ w1) as [w2 [e | o]] eqn:Ha;
      pose proof (follows_await env clock (λ _, True) _ I _ _ _ Ha) as [n2 [_ _ Hk2 _ _]]; apply await_cases in Ha as [Hh2 Ha].
    + intros [= <- <-]. eexists. rewrite Hh2, Hh, <- app_assoc. split; [done | by constructor].
    + intros Hr. apply IH in Hr as (new & Hw' & Hnew); [| by rewrite (kp_token _ _ Hk2), (kp_token _ _ Hk)].
      eexists. rewrite Hw', Hh2, Hh, <- !app_assoc. split; [done |]. apply retried_again; [done |].
      by rewrite Hh2, Hh, <- app_assoc in Hnew.
Qed.

Lemma send_retrying_follows (K : Await → Prop) more attempt request :
  (∀ t, K (Send (request t))) → (∀ d, K (Sleep d)) → follows clock K (send_retrying more attempt request).
Proof.
  intros Hs Hd. revert attempt; induction more as [| more IH]; intros attempt; cbn [AgentClient.send_retrying].
  all: apply follows_bind; [apply follows_bind; [apply follows_gets | intros [t |]; [apply follows_ret | by apply follows_raise]] |]; intros t.
  all: (apply follows_bind; [by apply follows_send |]); intros [answer |]; [apply follows_ret |].
  - by apply follows_raise.
  - apply follows_bind; [by apply follows_sleep | intros _; apply IH].
Qed.

(** The answer ends the exchange. *)
Lemma retried_last r more attempt h new status content :
  retried r more attempt h new (inr (status, content)) →
  ∃ pre, new = pre ++ [Send r] ∧ env (h ++ pre) (Send r) = Answered status content.
Proof.
  intros Hr. remember (inr (status, content)) as res eqn:Hres. induction Hr as [more attempt h st c He | | | | | more attempt h new res He Hr IH]; try done.
  - injection Hres as -> ->. exists []. by rewrite app_nil_r.
  - destruct (IH Hres) as (pre & -> & Ha). eexists (Send r :: Sleep _ :: pre). split; [done |]. by rewrite <- app_assoc in Ha.
Qed.

(** A call that ends in a decoding error ends there. *)
Lemma retried_undecoded r more attempt h new :
  retried r more attempt h new (inl undecodable) →
  ∃ pre, new = pre ++ [Send r] ∧ env (h ++ pre) (Send r) = Undecodable.
Proof.
  intros Hr. remember (inl undecodable) as res eqn:Hres.
  induction Hr as [| more attempt h e He | more attempt h He | | more attempt h e He Hb | more attempt h new res He Hr IH]; try done.
  - by injection Hres as ->.
  - exists []. by rewrite app_nil_r.
  - by injection Hres as ->.
  - destruct (IH Hres) as (pre & -> & Ha). eexists (Send r :: Sleep _ :: pre). split; [done |]. by rewrite <- app_assoc in Ha.
Qed.

Lemma retried_schedule r more attempt h new res :
  retried r more attempt h new res →
  ∃ rest, schedule more attempt r = new ++ rest ∧ (res = inl CoordinatorTransientError → rest = []) ∧
    match res with
    | inl e => e = CoordinatorTransientError ∨ is_base_exception e = true ∨ e = undecodable
    | inr _ => True
    end.
Proof.
  induction 1 as [more attempt h status content He | more attempt h e He | more attempt h He | attempt h He | more attempt h e He Hb | more attempt h new res He Hr IH].
  - destruct more; eexists; cbn; split_and!; [done | done | done | done | done | done].
  - destruct more; eexists; cbn; split_and!; try done; try (intros [= ->]; done); by right; left.
  - destruct more; eexists; cbn; split_and!; try done; by right; right.
  - exists []. cbn. split_and!; [done | done | by left].
  - eexists. cbn. split_and!; [done | by intros [= ->] | by right; left].
  - destruct IH as (rest & Hs & Hres & Hx). exists rest. cbn. rewrite Hs. by split_and!.
Qed.
End Retries.

(** An idempotent call to the coordinator sends one and the same request at most
    [max_retries + 1] times: again only after a transport failure and an exponentially
    longer sleep, never after an answer; it gives up only when every attempt failed. *)
Theorem idempotent_retries env clock retry request t w w' r :
  w_device_token w = Some t → send_idempotent env clock retry request w = (w', r) →
  ∃ new rest, w_history w' = w_history w ++ new ∧
    retried env retry (request t) (cr_max_retries retry) 0 (w_history w) new r ∧
    schedule retry (cr_max_retries retry) 0 (request t) = new ++ rest ∧
    (∀ e, r = inl e → (e = CoordinatorTransientError ∧ rest = []) ∨ is_base_exception e = true ∨ e = undecodable).
Proof.
  intros Ht Hr. destruct (send_retrying_cases _ _ _ _ _ _ _ _ _ _ Ht Hr) as (new & Hh & Hn).
  destruct (retried_schedule _ _ _ _ _ _ _ _ Hn) as (rest & Hs & Hrest & Hx). exists new, rest. split_and!; try done.
  intros e ->. destruct Hx as [-> | ?]; [left; split; [done | by apply Hrest] | by right].
Qed.

(** ** Uploads *)

Section Uploads.
  Context (env : history → Await → Outcome) (clock : history → instant) (policy : ResultUploadRetryConfig).
  Context (disk_ok unlink_ok : history → bool).
  Context (sha256 : bytes → bytes) (up_agent_id : agent_id) (up_token : string) (parse_upload : bytes → option string).
  Notation upload := (upload env clock sha256 up_agent_id up_token parse_upload).
  Notation upload_retrying := (upload_retrying env clock policy upload).
  Notation coordinator_upload := (coordinator_upload env clock policy disk_ok unlink_ok upload).

Section Lease.
  Context (lease : WorkUnitLease) (payload : bytes).

Definition the_upload : Await :=
  Send (ReqUpload up_token up_agent_id (wl_work_unit_id lease) (wl_attempt lease) payload).

Definition is_upload (a : Await) : bool := match a with Send (ReqUpload _ _ _ _ _) => true | _ => false end.

(** The coordinator answered an upload with the digest of what was sent. *)
Definition accepted (h : history) (ref : string) : Prop :=
  ref = hexdigest sha256 payload ∧ ∃ content, env h the_upload = Answered 200 content ∧ parse_upload content = Some ref.

Lemma upload_cases w w' r :
  upload lease payload w = (w', r) →
  w_history w' = w_history w ++ [the_upload] ∧ w_results w' = w_results w ∧
  match r with
  | inr ref => accepted (w_history w) ref
  | inl e => is_upload_error e = true ∨ is_base_exception e = true ∨ e = undecodable
  end.
Proof.
  unfold AgentClient.upload, mbind, eff_bind. destruct (send _ _ _ w) as [w1 [e | o]] eqn:Hs; pose proof (send_results _ _ _ _ _ _ Hs) as Hf.
  { apply send_cases in Hs as [Hh Hb]. intros [= <- <-]. split_and!; [done | done |]. right. by destruct Hb as [? | [? _]]; auto. }
  apply send_cases in Hs as [Hh Ho]. destruct o as [[status content] |]; [| intros [= <- <-]; split_and!; [done | done | by left]].
  destruct (status =? 200)%Z eqn:Hst; cbn [negb].
  2: { intros [= <- <-]. split_and!; [done | done |]. left. by destruct (_ <=? _)%Z. }
  destruct (parse_upload content) as [ref |] eqn:Hp; [| intros [= <- <-]; split_and!; [done | done | by left]].
  destruct (bool_decide (ref = _)) eqn:Hd; cbn [negb]; intros [= <- <-]; (split_and!; [done | done |]); [| by left].
  reflect_bools. assert (status = 200%Z) as -> by lia. split; [done |]. by exists content.
Qed.

(** An upload and its retries: no sleep ends past the lease. *)
Record uploading (more : nat) (h new : history) (r : Exc + string) : Prop := {
  ul_kind : Forall (λ a, a = the_upload ∨ ∃ d, a = Sleep d) new;
  ul_sends : (length (List.filter is_upload new) ≤ S more)%nat;
  ul_sleeps pre d post : new = pre ++ Sleep d :: post → (clock (h ++ pre) + timedelta_us d < wl_lease_expires lease)%Z;
  ul_result : match r with
              | inr ref => ∃ pre, new = pre ++ [the_upload] ∧ accepted (h ++ pre) ref
              | inl e => e = DeferredUploadError (destination lease) ∨ is_base_exception e = true ∨ e = undecodable
              end
}.

Lemma uploading_once more h r :
  match r with
  | inr ref => accepted h ref
  | inl e => e = DeferredUploadError (destination lease) ∨ is_base_exception e = true ∨ e = undecodable
  end → uploading more h [the_upload] r.
Proof.
  intros Hr. constructor; [constructor; [by left | done] | unfold the_upload; cbn; lia | |].
  - intros pre d post He. destruct pre as [| a [| ? ?]]; cbn in He; by injection He.
  - destruct r as [e | ref]; [done |]. exists []. by rewrite app_nil_r.
Qed.

Lemma uploading_again more h d new r :
  (clock (h ++ [the_upload]) + timedelta_us d < wl_lease_expires lease)%Z →
  (new = [] ∧ (∃ e, r = inl e ∧ is_base_exception e = true)) ∨ uploading more (h ++ [the_upload; Sleep d]) new r →
  uploading (S more) h (the_upload :: Sleep d :: new) r.
Proof.
  intros Hd Hn. assert (Hsl : ∀ pre x post, the_upload :: Sleep d :: new = pre ++ Sleep x :: post →
    pre = [the_upload] ∧ x = d ∨ ∃ pre', pre = the_upload :: Sleep d :: pre' ∧ new = pre' ++ Sleep x :: post).
  { intros pre x post He. destruct pre as [| a [| b pre]]; cbn in He; [by injection He | |]; injection He as <- <-; [by left | right].
    subst new. by exists pre. }
  destruct Hn as [[-> (e & -> & Hb)] | [HK HS HT HR]].
  - constructor; [apply Forall_cons; split; [by left |]; apply Forall_cons; split; [right; by exists d | by apply Forall_nil] | cbn; lia | | by right; left].
    intros pre x post He. destruct (Hsl _ _ _ He) as [[-> ->] | (pre' & -> & Hc)]; [done | by destruct pre'].
  - constructor.
    + constructor; [by left |]. constructor; [right; by exists d | done].
    + cbn. lia.
    + intros pre x post He. destruct (Hsl _ _ _ He) as [[-> ->] | (pre' & -> & Hc)]; [done |].
      specialize (HT pre' x post Hc). by rewrite <- app_assoc in HT.
    + destruct r as [e | ref]; [done |]. destruct HR as (pre & -> & Ha). exists (the_upload :: Sleep d :: pre). split; [done |].
      by rewrite <- app_assoc in Ha.
Qed.

Lemma stop_deferred more w w1 :
  w_history w1 = w_history w ++ [the_upload] → w_results w1 = w_results w →
  ∃ new, w_history w1 = w_history w ++ new ∧ w_results w1 = w_results w ∧
    uploading more (w_history w) new (inl (DeferredUploadError (destination lease))).
Proof. intros Hh Hf. exists [the_upload]. split_and!; [done | done |]. apply uploading_once. by left. Qed.

Lemma stop_otherwise more e w w1 w' r :
  w_history w1 = w_history w ++ [the_upload] → w_results w1 = w_results w →
  is_upload_error e = true ∨ is_base_exception e = true ∨ e = undecodable →
  (if is_upload_error e then (w1, inl (DeferredUploadError (destination lease))) else (w1, inl e)) = (w', r) →
  ∃ new, w_history w' = w_history w ++ new ∧ w_results w' = w_results w ∧ uploading more (w_history w) new r.
Proof.
  intros Hh Hf He. destruct (is_upload_error e) eqn:Hue; intros [= <- <-]; [by apply stop_deferred |]. exists [the_upload].
  split_and!; [done | done |]. apply uploading_once. destruct He as [? | ?]; [congruence | by right].
Qed.

Lemma upload_retrying_cases more attempt w w' r :
  upload_retrying more attempt lease payload w = (w', r) →
  ∃ new, w_history w' = w_history w ++ new ∧ w_results w' = w_results w ∧ uploading more (w_history w) new r.
Proof.
  revert attempt w; induction more as [| more IH]; intros attempt w; cbn [AgentWork.upload_retrying];
    (destruct (upload lease payload w) as [w1 [e | ref]] eqn:Hu; apply upload_cases in Hu as (Hh & Hf & Hu);
     [| intros [= <- <-]; exists [the_upload]; split_and!; [done | done | by apply uploading_once]]).
  1: assert (Hend : is_upload_transient e = true ∨ is_upload_transient e = false) by (destruct (is_upload_transient e); auto).
  1: destruct Hend as [Ht | Ht]; rewrite Ht; [intros [= <- <-]; by apply stop_deferred | by apply stop_otherwise].
  destruct (is_upload_transient e) eqn:Ht; [| by apply stop_otherwise].
  destruct (_ <=? _)%Z eqn:Hexp; [intros [= <- <-]; by apply stop_deferred |]. reflect_bools.
  unfold sleep, mbind, eff_bind. destruct (await _ _ _ w1) as [w2 [e' | o]] eqn:Ha; pose proof (await_results _ _ _ _ _ _ Ha) as Hf2;
    apply await_cases in Ha as [Hh2 Ha].
  - intros [= <- <-]. eexists. rewrite Hh2, Hh, Hf2, <- app_assoc. split_and!; [done | done |].
    apply uploading_again; [by rewrite <- Hh | left; split; [done | by exists e']].
  - intros Hr. apply IH in Hr as (new & Hw' & Hf' & Hn). eexists. rewrite Hw', Hh2, Hh, Hf', Hf2, <- !app_assoc. split_and!; [done | done |].
    apply uploading_again; [by rewrite <- Hh | right]. by rewrite Hh2, Hh, <- app_assoc in Hn.
Qed.

Lemma coordinator_upload_cases w w' r :
  coordinator_upload lease payload w = (w', r) →
  ∃ new, w_history w' = w_history w ++ new ∧
    (new = [] ∨ uploading (ur_max_retries policy) (w_history w) new r) ∧
    match r with
    | inr ref => (∃ pre, new = pre ++ [the_upload] ∧ accepted (w_history w ++ pre) ref) ∧
        (unlink_ok (w_history w') = true → w_results w' = delete (destination lease) (w_results w))
    | inl e => (e = DeferredUploadError (destination lease) ∨ is_base_exception e = true ∨ e = undecodable) ∧
        (disk_ok (w_history w) = true → w_results w' = <[destination lease := payload]> (w_results w))
    end.
Proof.
  unfold AgentWork.coordinator_upload, gets, modify, raise, mbind, eff_bind. destruct (disk_ok (w_history w)) eqn:Hd; cbn [negb].
  2: { intros [= <- <-]. exists []. rewrite app_nil_r. split_and!; [done | by left | by left | done]. }
  destruct (upload_retrying _ _ _ _ _) as [w2 [e | ref]] eqn:Hu; apply upload_retrying_cases in Hu as (new & Hh & Hf & Hn); cbn in Hh, Hf, Hn.
  { intros [= <- <-]. exists new. split_and!; [done | by right | by apply (ul_result _ _ _ _ Hn) | done]. }
  destruct (ul_result _ _ _ _ Hn) as (pre & Hpre & Hacc).
  destruct (unlink_ok (w_history w2)) eqn:Hul; intros [= <- <-]; exists new; (split_and!; [done | by right | by exists pre |]); [| cbn; congruence].
  intros _. cbn. rewrite Hf. cbn. by rewrite delete_insert_eq.
Qed.
End Lease.

(** A payload is either accepted by the coordinator under the SHA-256 digest of
    the very bytes sent, and its local copy removed, or the local copy stays for a later
    attempt.  It is sent at most [max_retries + 1] times, and no sleep between two
    attempts ends after the lease. *)
Theorem upload_accepted_or_kept lease payload w w' r :
  coordinator_upload lease payload w = (w', r) →
  ∃ new, w_history w' = w_history w ++ new ∧
    (new = [] ∨ uploading lease payload (ur_max_retries policy) (w_history w) new r) ∧
    match r with
    | inr ref => (∃ pre, new = pre ++ [the_upload lease payload] ∧ accepted lease payload (w_history w ++ pre) ref) ∧
        (unlink_ok (w_history w') = true → w_results w' = delete (destination lease) (w_results w))
    | inl e => (e = DeferredUploadError (destination lease) ∨ is_base_exception e = true ∨ e = undecodable) ∧
        (disk_ok (w_history w) = true → w_results w' = <[destination lease := payload]> (w_results w))
    end.
Proof. apply coordinator_upload_cases. Qed.

(** Uploading keeps the discipline. *)
Lemma coordinator_upload_follows (K : Await → Prop) lease payload :
  (∀ d, K (Sleep d)) → K (the_upload lease payload) → follows clock K (coordinator_upload lease payload).
Proof.
  intros HS HU. assert (Hup : follows clock K (upload lease payload)).
  { unfold AgentClient.upload. apply follows_bind; [by apply follows_send |]. intros [[status content] |]; [| by apply follows_raise].
    destruct (negb _); [apply follows_raise; by destruct (_ <=? _)%Z |]. destruct (parse_upload content); [| by apply follows_raise].
    destruct (negb _); [by apply follows_raise | apply follows_ret]. }
  assert (Hre : ∀ more attempt, follows clock K (upload_retrying more attempt lease payload)).
  { induction more as [| more IH]; intros attempt w w' r; cbn [AgentWork.upload_retrying];
      (destruct (upload lease payload w) as [w1 [e | ref]] eqn:Hu; destruct (Hup _ _ _ Hu) as [n1 Hd1];
       [| intros [= <- <-]; by exists n1]).
    all: destruct (is_upload_transient e) eqn:Ht; [| destruct (is_upload_error e) eqn:He].
    all: try (intros [= <- <-]; exists n1; eapply disciplined_result; [| | exact Hd1]; [intros (? & [= <-] & Hb); by destruct e | done]).
    1, 3: intros [= <- <-]; by exists n1.
    destruct (_ <=? _)%Z.
    { intros [= <- <-]. exists n1. eapply disciplined_result; [| | exact Hd1]; [intros (? & [= <-] & Hb); by destruct e | done]. }
    intros Hr. destruct (follows_bind clock K _ _ (follows_sleep env clock K _ (HS _)) (λ _, IH _) _ _ _ Hr) as [n2 Hd2].
    exists (n1 ++ n2). eapply disciplined_app; [| exact Hd1 | exact Hd2]. intros (? & [= <-] & Hb). by destruct e. }
  unfold AgentWork.coordinator_upload. apply follows_bind; [apply follows_gets |]. intros h. destruct (negb _); [by apply follows_raise |].
  apply follows_bind; [apply follows_results |]. intros _. apply follows_bind; [apply Hre |]. intros ref.
  apply follows_bind; [apply follows_gets |]. intros h'. apply follows_bind; [| intros _; apply follows_ret].
  destruct (unlink_ok h'); [apply follows_results | apply follows_ret].
Qed.
End Uploads.

(** ** Running a lease *)

Lemma embedding_vectors_error items e : embedding_vectors items = inl e → e = WorkerBackendError ∨ e = OtherError "OverflowError".
Proof.
  induction items as [| item items IH]; cbn; [done |]. destruct (embedding_vector item) as [e' | v] eqn:Hv.
  - intros [= <-]. unfold embedding_vector in Hv. destruct item; try (injection Hv as <-; by left).
    destruct (od_get _ _) as [[] |]; try (injection Hv as <-; by left). destruct (forallb _ _); [| injection Hv as <-; by left].
    destruct (floats _); [done |]. injection Hv as <-. by right.
  - destruct (embedding_vectors items); [| done]. intros [= <-]. by apply IH.
Qed.

Section Running.
  Context (env : history → Await → Outcome) (clock : history → instant) (monotonic : history → Q).
  Context (clock_forward : ∀ h h', (clock h ≤ clock (h ++ h'))%Z).
  Context (loads : bytes → option Json) (dumps : Json → bytes) (statuses : history → list ReplicaStatus) (bind_host : string).
  Context (whisper : option (bytes → option (list TranscriptSegment))) (exc_str : Exc → string).
  Context (policy : ResultUploadRetryConfig) (disk_ok unlink_ok : history → bool).
  Context (sha256 : bytes → bytes) (agent : agent_id) (token : string) (parse_upload : bytes → option string).
  Context (retry : ClientRetryConfig) (parse_lease : bytes → option WorkUnitLease) (preemptor : history → AgentState).
  Context (poll_timeout_s active_sleep_s : Q).
  Notation workers := (build_workers env clock loads dumps statuses bind_host whisper).
  Notation fetch := (fetch_input env clock token).
  Notation upload := (coordinator_upload env clock policy disk_ok unlink_ok (AgentClient.upload env clock sha256 agent token parse_upload)).
  Notation run_lease := (run_lease monotonic exc_str workers fetch upload).
  Notation run_within_slack := (run_within_slack env clock monotonic exc_str workers fetch upload).
  Notation process := (process env clock monotonic exc_str workers fetch upload).
  Notation poll := (poll env clock retry parse_lease poll_timeout_s active_sleep_s).
  Notation tick := (tick env clock monotonic exc_str workers fetch upload retry parse_lease preemptor poll_timeout_s active_sleep_s).
  Notation the_upload := (the_upload agent token).
  Notation accepted := (accepted env sha256 agent token parse_upload).

(** Everything but reporting a result. *)
Definition no_report (a : Await) : Prop := match a with Send (ReqComplete _ _ _ _) => False | _ => True end.

Lemma execute_follows lease : follows clock no_report (execute workers fetch lease).
Proof.
  unfold execute. destruct (workers (wl_kind lease)) as [run |] eqn:Hw; [| by apply follows_raise].
  apply follows_bind.
  { unfold fetch_input. apply follows_bind; [by apply follows_send |]. intros [[status content] |]; [| by apply follows_raise].
    destruct (_ && _); [apply follows_ret | by apply follows_raise]. }
  intros input. unfold build_workers in Hw. destruct (wl_kind lease); [done | |].
  - injection Hw as <-. unfold embed_run. destruct (parse_chunks _) as [e | chunks] eqn:Hp.
    { apply follows_raise. unfold parse_chunks in Hp. destruct (loads input) as [[] |]; try congruence. destruct (mapM _ _) as [[|]|]; congruence. }
    apply follows_bind; [apply follows_gets |]. intros h. destruct (resolve_endpoint _ _ _) as [e |]; [| by apply follows_raise].
    apply follows_bind; [apply follows_catch; [by apply follows_send | intros e' k; destruct e'; cbn; try done;
      destruct (bool_decide _); [intros [= <-]; split; [done | apply follows_ret] | done]] |]. intros [[status content] |]; [| by apply follows_raise].
    destruct (negb _); [by apply follows_raise |]. destruct (loads content) as [[] |]; try by apply follows_raise.
    destruct (parse_embeddings _ _) as [e' | [embs tokens]] eqn:Hpe; [| apply follows_ret].
    apply follows_raise. intros ->. unfold parse_embeddings in Hpe. destruct (od_get _ _) as [[] |]; try congruence.
    destruct (negb _); [congruence |]. destruct (embedding_vectors _) as [e' |] eqn:Hv; [| congruence]. injection Hpe as ->.
    by apply embedding_vectors_error in Hv as [? | ?].
  - destruct whisper as [tr |]; [| done]. injection Hw as <-. unfold transcribe_run.
    apply follows_bind; [apply follows_results |]. intros _. apply follows_bind; [by apply follows_busy |]. intros _.
    apply follows_bind; [apply follows_results |]. intros _. destruct (tr input); [apply follows_ret | by apply follows_raise].
Qed.

(** A successful result names an upload the coordinator accepted. *)
Definition uploaded (lease : WorkUnitLease) (h new : history) (res : WorkResult) : Prop :=
  ∃ payload pre post ref, new = pre ++ the_upload lease payload :: post ∧ accepted lease payload (h ++ pre) ref ∧
    wr_result_ref res = Some ref.

Lemma run_lease_cases lease w w' r :
  run_lease lease w = (w', r) →
  ∃ new, disciplined clock no_report w w' r new ∧
    match r with
    | inr (Finished res) => wr_work_unit_id res = wl_work_unit_id lease ∧
        (wr_status res = SUCCEEDED → uploaded lease (w_history w) new res) ∧ (ended_busy new → wr_status res = FAILED)
    | inr (DeferredWorkResult _ _) => True
    | inl e => is_base_exception e = true
    end.
Proof.
  unfold AgentWork.run_lease, gets, catch, mbind, eff_bind. destruct (execute _ _ lease w) as [w1 [e | output]] eqn:He;
    destruct (execute_follows lease _ _ _ He) as [n1 Hd1].
  { destruct (is_base_exception e) eqn:Hb; [destruct e; try done; intros [= <- <-]; exists n1; (split; [by eapply disciplined_raised | done]) |].
    assert (Hna : ~ aborted (inl (B := WorkOutput) e)) by (intros (? & [= <-] & ?); congruence).
    destruct e; try done; intros [= <- <-]; exists n1; (split; [eapply disciplined_result; [intros Ha; by destruct Hna | | exact Hd1]; done | done]). }
  destruct (upload lease (wo_payload output) w1) as [w2 [e | ref]] eqn:Hu;
    destruct (coordinator_upload_follows _ _ _ _ _ _ _ _ _ no_report _ _ (λ _, I) I _ _ _ Hu) as [n2 Hd2];
    apply coordinator_upload_cases in Hu as (n2' & Hh2 & _ & Hu);
    (assert (n2' = n2) as -> by (rewrite (di_history _ _ _ _ _ _ Hd2) in Hh2; by simplify_list_eq));
    pose proof (disciplined_app clock no_report _ _ _ (inr output) _ _ _ ltac:(by intros (? & ? & _)) Hd1 Hd2) as Hd.
  - destruct Hu as [[-> | [Hb | ->]] _].
    + intros [= <- <-]. exists (n1 ++ n2). split; [| done]. eapply disciplined_result; [| | exact Hd]; [by intros (x & [= <-] & Hb) | done].
    + destruct e; try done; intros [= <- <-]; exists (n1 ++ n2); (split; [by eapply disciplined_raised | done]).
    + intros [= <- <-]. exists (n1 ++ n2). split; [eapply disciplined_result; [| | exact Hd]; [by intros (x & [= <-] & Hb) | done] | done].
  - destruct Hu as [(pre & -> & Hacc) _]. intros [= <- <-]. exists (n1 ++ pre ++ [the_upload lease (wo_payload output)]). split.
    { eapply disciplined_result; [| | exact Hd]; [by intros (? & ? & _) | done]. }
    split_and!; [done | |].
    + intros _. exists (wo_payload output), (n1 ++ pre), [], ref. split_and!; [by rewrite <- app_assoc | | done].
      by rewrite (di_history _ _ _ _ _ _ Hd1), <- app_assoc in Hacc.
    + intros (p & what & Hp). rewrite app_assoc in Hp. by apply app_inj_tail in Hp as [_ ?].
Qed.

(** ** One iteration of the loop *)

(** A report with a given status. *)
Definition reported (status : WorkResultStatus) (a : Await) : Prop :=
  ∃ t me n res, a = Send (ReqComplete t me n res) ∧ wr_status res = status.

(** A report of a lease that processing started on at [h], after [pre]. *)
Record report_ok (lease : WorkUnitLease) (h pre : history) (a : Await) : Prop := {
  rp_report : ∃ t me res, a = Send (ReqComplete t me (wl_attempt lease) res) ∧ wr_work_unit_id res = wl_work_unit_id lease ∧
    (wr_status res = SUCCEEDED → uploaded lease h pre res);
  rp_in_time : pre = [] ∨ ended_busy pre ∧ reported FAILED a ∨ (clock (h ++ pre) < wl_lease_expires lease)%Z
}.

Lemma complete_cases res att w w' r :
  complete_unit env clock res att w = (w', r) →
  kept w w' ∧
  (∀ e, r = inl e → is_coordinator_error e = true ∨ is_base_exception e = true ∨ e = undecodable ∧
     ∃ q, w_history w' = w_history w ++ [Send q] ∧ env (w_history w) (Send q) = Undecodable) ∧
  (w_history w' = w_history w ∨ ∃ t me, w_history w' = w_history w ++ [Send (ReqComplete t me att res)]).
Proof.
  unfold complete_unit, require_agent_id, post_expect_accept, auth_headers, gets, mbind, eff_bind.
  destruct (w_agent_id w) as [me |]; [| intros [= <- <-]; split_and!; [done | intros e [= <-]; by left | by left]]. cbn [mret eff_ret].
  destruct (w_device_token w) as [t |]; [| intros [= <- <-]; split_and!; [done | intros e [= <-]; by left | by left]]. cbn [mret eff_ret].
  destruct (send _ _ _ w) as [w1 [e | [[status content] |]]] eqn:Hs;
    pose proof (follows_send env clock (λ _, True) _ I _ _ _ Hs) as [n1 [_ _ Hk _ _]]; apply send_cases in Hs as [Hh Hs].
  - intros [= <- <-]. split_and!; [done | | right; eauto]. intros e' [= <-]. destruct Hs as [? | [-> Hs]]; [by right; left | right; right; eauto].
  - assert (Hc : is_coordinator_error (classify_failure status) = true) by (unfold classify_failure; case_bool_decide; [done |]; by destruct (_ <=? _)%Z).
    destruct (bool_decide _); intros [= <- <-]; (split_and!; [done | | right; eauto]); [done | intros e' [= <-]; by left].
  - intros [= <- <-]. split_and!; [done | intros e' [= <-]; by left | right; eauto].
Qed.

(** The last request was answered with a body that cannot be decoded. *)
Definition undecoded (h new : history) : Prop :=
  ∃ pre q, new = pre ++ [Send q] ∧ env (h ++ pre) (Send q) = Undecodable.

Definition reports (lease : WorkUnitLease) (h new : history) : Prop :=
  Forall no_report new ∨ ∃ pre a, new = pre ++ [a] ∧ Forall no_report pre ∧ report_ok lease h pre a.

Lemma run_within_slack_cases lease w w' r :
  w_deadline w = None → run_within_slack lease w = (w', r) →
  ∃ new, w_history w' = w_history w ++ new ∧ kept w w' ∧ reports lease (w_history w) new ∧
    ∀ e, r = inl e → is_coordinator_error e = true ∨ is_base_exception e = true ∨ e = undecodable ∧ undecoded (w_history w) new.
Proof using clock_forward.
  intros Hdl. unfold AgentWork.run_within_slack, now, gets, within, mbind, eff_bind. set (d := Z.max _ _).
  destruct (run_lease lease (set_deadline (Some d) w)) as [w1 [e | res]] eqn:Hr; apply run_lease_cases in Hr as (n1 & Hd1 & Hr);
    pose proof (di_history _ _ _ _ _ _ Hd1) as Hh1; pose proof (di_kept _ _ _ _ _ _ Hd1) as [Ka Kt Kd Kl]; cbn in Hh1, Ka, Kt, Kd, Kl.
  { intros [= <- <-]. exists n1. split_and!; [done | by constructor | left; apply (di_kind _ _ _ _ _ _ Hd1) | intros e' [= <-]; by right; left]. }
  destruct res as [res | uid path].
  2: { intros [= <- <-]. exists n1. split_and!; [done | by constructor | left; apply (di_kind _ _ _ _ _ _ Hd1) | done]. }
  destruct (complete_unit env clock res _ w1) as [w2 rc] eqn:Hc; apply complete_cases in Hc as ([Ka2 Kt2 Kd2 Kl2] & He & Hh2).
  destruct Hr as (Hid & Hup & Hbusy). intros [= <- <-]. destruct Hh2 as [Hh2 | (t & me & Hh2)]; cbn; rewrite Hh2, Hh1.
  { exists n1. split_and!; [done | constructor; cbn; congruence | left; apply (di_kind _ _ _ _ _ _ Hd1) |].
    intros e Hre. destruct (He e Hre) as [? | [? | (_ & q & Hq & _)]]; [by left | by right; left |].
    rewrite Hh2 in Hq. apply (f_equal length) in Hq. rewrite length_app in Hq. cbn in Hq. lia. }
  exists (n1 ++ [Send (ReqComplete t me (wl_attempt lease) res)]). rewrite <- app_assoc. split_and!; [done | constructor; cbn; congruence | |].
  - right. eexists n1, _. split_and!; [done | apply (di_kind _ _ _ _ _ _ Hd1) |]. constructor; [by exists t, me, res |].
    destruct (di_timely _ _ _ _ _ _ Hd1 d eq_refl) as [(? & ? & _) | [? | [Hb | Hlt]]]; [done | by left | right; left | do 2 right].
    + split; [done |]. exists t, me, (wl_attempt lease), res. split; [done | by apply Hbusy].
    + rewrite Hh1 in Hlt. specialize (clock_forward (w_history w) n1). unfold d in Hlt. lia.
  - intros e Hre. destruct (He e Hre) as [? | [? | (-> & q & Hq & Henv)]]; [by left | by right; left | do 2 right]. split; [done |].
    rewrite Hh2 in Hq. apply app_inv_head in Hq. exists n1, q. rewrite <- Hh1. split; [by rewrite Hq | done].
Qed.

Lemma process_cases lease w w' r :
  w_deadline w = None → process lease w = (w', r) →
  (r = inr tt ∨ r = inl Cancelled ∨ r = inl undecodable) ∧ w_deadline w' = None ∧ w_lease_ids w' = [] ∧
  ∃ new, w_history w' = w_history w ++ new ∧ reports lease (w_history w) new ∧ (r = inl undecodable → undecoded (w_history w) new).
Proof using clock_forward.
  intros Hdl. unfold AgentWork.process, leases_set, modify, finally, catch, mbind, eff_bind.
  destruct (run_within_slack lease (set_lease_ids _ w)) as [w1 r1] eqn:Hr.
  apply run_within_slack_cases in Hr as (new & Hh & [_ _ Kd _] & Hrep & He); [| done]. cbn in Hh, Kd, Hrep.
  intros Hw. assert (Hfin : (r = inr tt ∨ r = inl Cancelled ∨ r = inl undecodable ∧ undecoded (w_history w) new) ∧ w' = set_lease_ids [] w1).
  { destruct r1 as [e | []]; [| injection Hw as <- <-; split; [by left | done]]. specialize (He e eq_refl).
    destruct He as [Hc | [Hb | [-> Hu]]]; [| | injection Hw as <- <-; split; [by do 2 right | done]];
      destruct e; try done; injection Hw as <- <-; (split; [| done]); first [by left | by right; left]. }
  destruct Hfin as [Hfin ->]. split_and!; [destruct Hfin as [? | [? | [? _]]]; auto | cbn; congruence | done |]. exists new. split_and!; [done | done |].
  intros ->. by destruct Hfin as [? | [? | [_ ?]]].
Qed.

(** The lease came in the answer to the last poll. *)
Definition polled (h new : history) (lease : WorkUnitLease) : Prop :=
  ∃ pre t me status content, new = pre ++ [Send (ReqPollWork t me poll_timeout_s)] ∧
    env (h ++ pre) (Send (ReqPollWork t me poll_timeout_s)) = Answered status content ∧ parse_lease content = Some lease.

Lemma poll_work_cases w w' r :
  poll_work env clock retry parse_lease poll_timeout_s w = (w', r) →
  ∃ new, disciplined clock no_report w w' r new ∧
    match r with
    | inr (Some lease) => polled (w_history w) new lease
    | inr None => True
    | inl e => is_coordinator_error e = true ∨ is_base_exception e = true ∨ e = undecodable ∧ undecoded (w_history w) new
    end.
Proof.
  assert (Hno : ∀ (e : Exc), e = CoordinatorProtocolError → disciplined (A := option WorkUnitLease) clock no_report w w (inl e) []).
  { intros e ->. constructor; [by rewrite app_nil_r | by apply Forall_nil | done | by right; left | done]. }
  unfold poll_work, require_agent_id, gets, mbind, eff_bind. destruct (w_agent_id w) as [me |].
  2: { intros [= <- <-]. exists []. split; [by apply Hno | by left]. }
  cbn [mret eff_ret]. destruct (w_device_token w) as [t |] eqn:Ht.
  2: { unfold send_idempotent. destruct (cr_max_retries retry); cbn [send_retrying]; unfold auth_headers, mbind, eff_bind, gets; rewrite Ht;
         intros [= <- <-]; exists []; (split; [by apply Hno | by left]). }
  destruct (send_idempotent _ _ _ _ w) as [w1 r1] eqn:Hs.
  destruct (send_retrying_follows env clock retry no_report _ _ (λ tk, ReqPollWork tk me poll_timeout_s) (λ _, I) (λ _, I) _ _ _ Hs)
    as [n1 Hd1].
  apply (send_retrying_cases _ _ _ _ _ _ t) in Hs as (n1' & Hh & Hret); [| done].
  assert (n1' = n1) as -> by (rewrite (di_history _ _ _ _ _ _ Hd1) in Hh; by simplify_list_eq).
  destruct r1 as [e | [status content]].
  { intros [= <- <-]. exists n1. split; [by eapply disciplined_raised |]. destruct (retried_schedule _ _ _ _ _ _ _ _ Hret) as (_ & _ & _ & [-> | [? | ->]]); [auto | auto |].
    do 2 right. split; [done |]. destruct (retried_undecoded _ _ _ _ _ _ _ Hret) as (pre & ? & ?). by exists pre, (ReqPollWork t me poll_timeout_s). }
  apply retried_last in Hret as (pre & Hpre & Ha). cbn [fst snd]. destruct (status =? 204)%Z.
  { intros [= <- <-]. exists n1. split; [| done]. eapply disciplined_result; [| | exact Hd1]; [by intros (? & ? & _) | done]. }
  unfold parse_ok. destruct (bool_decide _); [destruct (parse_lease content) as [lease |] eqn:Hp |]; intros [= <- <-]; exists n1;
    (split; [eapply disciplined_result; [| | exact Hd1]; [by intros (? & ? & _) |] |]); try done.
  - by exists pre, t, me, status, content.
  - by left.
  - unfold classify_failure. case_bool_decide; [done |]. by destruct (_ <=? _)%Z.
  - left. unfold classify_failure. case_bool_decide; [done |]. by destruct (_ <=? _)%Z.
Qed.

Lemma poll_cases w w' r :
  w_deadline w = None → poll w = (w', r) →
  ∃ new, w_history w' = w_history w ++ new ∧ kept w w' ∧ Forall no_report new ∧
    match r with
    | inr (Some lease) => polled (w_history w) new lease
    | inr None => True
    | inl e => e = Cancelled ∨ e = undecodable ∧ undecoded (w_history w) new
    end.
Proof.
  intros Hdl. unfold AgentWork.poll, catch. destruct (poll_work _ _ _ _ _ w) as [w1 [e | o]] eqn:Hp; apply poll_work_cases in Hp as (n1 & Hd1 & Hp).
  2: { intros [= <- <-]. exists n1. split_and!; [apply Hd1 | apply Hd1 | apply Hd1 | done]. }
  destruct (is_coordinator_error e) eqn:He.
  - unfold mbind, eff_bind at 1. destruct (sleep _ _ _ w1) as [w2 [e2 | []]] eqn:Hs;
      destruct (follows_sleep env clock no_report active_sleep_s I _ _ _ Hs) as [n2 Hd2];
      intros [= <- <-]; exists (n1 ++ n2); (rewrite (di_history _ _ _ _ _ _ Hd2), (di_history _ _ _ _ _ _ Hd1), app_assoc;
      split_and!; [done | eapply kept_trans; [apply Hd1 | apply Hd2] | apply Forall_app; split; [apply Hd1 | apply Hd2] |]); [| done].
    unfold sleep, mbind, eff_bind in Hs. destruct (await _ _ _ w1) as [w3 [e3 | o3]] eqn:Ha; [| done]. injection Hs as <- <-.
    apply await_cases in Ha as [_ Hb]. left. destruct e3; try done. destruct (di_timeout _ _ _ _ _ _ Hd2 eq_refl).
    by rewrite (kp_deadline _ _ (di_kept _ _ _ _ _ _ Hd1)).
  - intros [= <- <-]. exists n1. split_and!; [apply Hd1 | apply Hd1 | apply Hd1 |]. destruct Hp as [Hp | [Hp | Hp]]; [congruence | left | by right].
    destruct e; try done. by destruct (di_timeout _ _ _ _ _ _ Hd1 eq_refl).
Qed.

(** C17: an iteration of the work loop ends with no lease held, and normally; it
    raises only when its task is cancelled, or when the last answer of the coordinator,
    to the poll or to the report, has a body httpx cannot decode.  While the machine is
    not idle it only sleeps.  Otherwise it polls and reports at most one result: for the
    unit and attempt of the lease the coordinator just granted, as succeeded only with
    the digest of a payload the coordinator accepted before, and before the lease
    expires; only a report made at once, having awaited nothing, or the failure of a
    transcription that blocked the event loop, may come later. *)
Theorem work_tick_disciplined w w' r :
  w_deadline w = None → w_lease_ids w = [] → tick w = (w', r) →
  (r = inr tt ∨ r = inl Cancelled ∨ r = inl undecodable) ∧ w_deadline w' = None ∧ w_lease_ids w' = [] ∧
  ∃ new, w_history w' = w_history w ++ new ∧ (r = inl undecodable → undecoded (w_history w) new) ∧
    (preemptor (w_history w) ≠ IDLE → new = [Sleep active_sleep_s]) ∧
    (Forall no_report new ∨
     ∃ asked pre a lease, new = asked ++ pre ++ [a] ∧ Forall no_report (asked ++ pre) ∧
       polled (w_history w) asked lease ∧ report_ok lease (w_history w ++ asked) pre a).
Proof using clock_forward.
  intros Hdl Hl. unfold AgentWork.tick, gets, mbind at 1, eff_bind at 1. destruct (bool_decide (_ = IDLE)) eqn:Hi; cbn [negb]; reflect_bools.
  2: { intros Hs. destruct (follows_sleep env clock no_report _ I _ _ _ Hs) as [new [Hh HF [_ _ Kd Kl] _ Ht]].
       unfold sleep, mbind, eff_bind in Hs. destruct (await _ _ _ w) as [w1 [e | o]] eqn:Ha; apply await_cases in Ha as [Hh1 Ha]; injection Hs as <- <-;
         (assert (new = [Sleep active_sleep_s]) as -> by (rewrite Hh1 in Hh; by simplify_list_eq));
         (split_and!; [| congruence | congruence | eexists; split_and!; [done | | done | by left]]); [| | by left | done].
       - right; left. destruct e; try done. by destruct (Ht eq_refl).
       - intros [= ->]. done. }
  unfold mbind, eff_bind. destruct (poll w) as [w1 [e | o]] eqn:Hp; apply poll_cases in Hp as (n1 & Hh1 & [_ _ Kd Kl] & HF & Hp); try done.
  { intros [= <- <-]. split_and!; [destruct Hp as [-> | [-> _]]; auto | congruence | congruence |]. exists n1. split_and!; [done | | done | by left].
    intros [= ->]. by destruct Hp as [? | [_ ?]]. }
  destruct o as [lease |].
  2: { intros [= <- <-]. split_and!; [by left | congruence | congruence |]. exists n1. split_and!; [done | done | done | by left]. }
  intros Hpr. apply process_cases in Hpr as (Hr & Hd' & Hl' & n2 & Hh2 & Hrep & Hun); [| congruence]. split_and!; try done.
  exists (n1 ++ n2). rewrite Hh2, Hh1, app_assoc. split_and!; [done | | done |].
  { intros Hx. destruct (Hun Hx) as (pre & q & -> & Hq). exists (n1 ++ pre), q. rewrite Hh1 in Hq. by rewrite !app_assoc in *. } destruct Hrep as [HF2 | (pre & a & -> & HF2 & Hrep)].
  - left. by apply Forall_app.
  - right. exists n1, pre, a, lease. rewrite <- Hh1. split_and!; [by rewrite app_assoc | by apply Forall_app | done | done].
Qed.
End Running.

(** ** From the worker to the coordinator *)

Section Payload.
  Context (embeddings : list (list (option Q))) (model : model_id).

Definition finite_rows (rows : list (list Q)) : list (list (option Q)) := (λ r : list Q, Some <$> r) <$> rows.

Definition first_dims : Z := match embeddings with v :: _ => Z.of_nat (length v) | [] => 0%Z end.

Lemma float_row_of v :
  float_row (JFloat <$> v) = match mapM id v with Some qs => inr (Some qs) | None => inr None end.
Proof.
  induction v as [| [q |] v IH]; cbn; [done | | done]. rewrite IH. by destruct (mapM id v).
Qed.

Lemma mapM_id_some (v : list (option Q)) qs : mapM id v = Some qs ↔ Some <$> qs = v.
Proof.
  rewrite mapM_Some. split.
  - induction 1 as [| x q v' qs' Hx _ IH]; [done |]. cbn in Hx. subst x. cbn. by rewrite IH.
  - intros <-. induction qs; constructor; auto.
Qed.

(** The rows the coordinator reads back from a worker's document. *)
Lemma float_rows_of dims (es : list (list (option Q))) :
  match float_rows dims ((λ v : list (option Q), JArr (JFloat <$> v)) <$> es) with
  | inr rows => finite_rows rows = es ∧ Forall (λ v, Z.of_nat (length v) = dims) es
  | inl e => e = IngestionPayloadError "invalid embedding" ∧ ∃ v, v ∈ es ∧ (Z.of_nat (length v) ≠ dims ∨ None ∈ v)
  end.
Proof.
  induction es as [| v es IH]; cbn; [split; [done | by apply Forall_nil] |]. rewrite length_fmap.
  destruct (Z.of_nat (length v) =? dims)%Z eqn:Hl; cbn [negb].
  2: { split; [done |]. exists v. split; [by left | left; lia]. }
  rewrite float_row_of. destruct (mapM id v) as [qs |] eqn:Hv.
  2: { split; [done |]. exists v. split; [by left |]. right. apply mapM_None, Exists_exists in Hv as (x & Hx & He). by cbn in He; subst x. }
  apply mapM_id_some in Hv. destruct (float_rows _ _) as [e | rows].
  - destruct IH as [-> (x & Hx & Hd)]. split; [done |]. exists x. split; [by right | done].
  - destruct IH as [<- HF]. cbn. rewrite Hv. split; [done |]. apply Forall_cons. split; [lia | done].
Qed.

Lemma payload_read_back :
  match parse_payload (Some (payload_document embeddings model first_dims)) (length embeddings) with
  | inr (m, dims, rows) => m = model ∧ dims = first_dims ∧ (0 < dims)%Z ∧ finite_rows rows = embeddings ∧
      Forall (λ v, Z.of_nat (length v) = dims) embeddings
  | inl _ => first_dims = 0%Z ∨ ∃ v, v ∈ embeddings ∧ (Z.of_nat (length v) ≠ first_dims ∨ None ∈ v)
  end.
Proof.
  unfold parse_payload, payload_document. set (f := [_; _; _]).
  assert (Hf : od_get "model_id" f = Some (JStr model) ∧ od_get "dims" f = Some (JInt first_dims) ∧
    od_get "embeddings" f = Some (JArr ((λ v : list (option Q), JArr (JFloat <$> v)) <$> embeddings))) by done.
  destruct Hf as (-> & -> & ->). destruct (first_dims <=? 0)%Z eqn:Hd.
  { left. unfold first_dims in *. destruct embeddings; [done | lia]. }
  rewrite length_fmap, Nat.eqb_refl. cbn [negb]. pose proof (float_rows_of first_dims embeddings) as Hr.
  destruct (float_rows _ _) as [e | rows]; [right; by destruct Hr as [_ ?] |]. destruct Hr as [He HF]. split_and!; try done. lia.
Qed.
End Payload.

Lemma embedding_vectors_length items vs : embedding_vectors items = inr vs → length vs = length items.
Proof.
  revert vs; induction items as [| item items IH]; intros vs; cbn; [by intros [= <-] |]. destruct (embedding_vector item); [done |].
  destruct (embedding_vectors items); [done |]. intros [= <-]. cbn. by rewrite (IH _ eq_refl).
Qed.

(** What an embed worker uploads is a document with one vector per text of its input,
    in the order of the replica's indices; read back, the coordinator takes exactly those
    vectors under the lease's model, and refuses the document only if a vector is
    empty, not finite, or of another length than the first. *)
Theorem embed_payload_roundtrip env clock loads dumps statuses bind_host lease input w w' out chunks :
  parse_chunks (loads input) = inr chunks →
  embed_run env clock loads dumps statuses bind_host lease input w = (w', inr out) →
  ∃ raw embeddings, length embeddings = length chunks ∧ embedding_vectors (py_sorted embedding_index raw) = inr embeddings ∧
    let doc := payload_document embeddings (wl_model_id lease) (first_dims embeddings) in
    wo_payload out = dumps doc ∧
    (loads (wo_payload out) = Some doc →
     match parse_payload (loads (wo_payload out)) (length chunks) with
     | inr (m, dims, rows) => m = wl_model_id lease ∧ dims = first_dims embeddings ∧ (0 < dims)%Z ∧ finite_rows rows = embeddings ∧
         Forall (λ v, Z.of_nat (length v) = dims) embeddings
     | inl _ => first_dims embeddings = 0%Z ∨ ∃ v, v ∈ embeddings ∧ (Z.of_nat (length v) ≠ first_dims embeddings ∨ None ∈ v)
     end).
Proof.
  intros Hc. unfold embed_run. rewrite Hc. unfold gets, mbind, eff_bind. destruct (resolve_endpoint _ _ _) as [e |]; [| done].
  destruct (catch _ _ w) as [w1 [ex | [[status content] |]]]; [done | | done]. destruct (negb _); [done |].
  destruct (loads content) as [[| | | | | | data] |]; try done. unfold parse_embeddings. destruct (od_get "data" data) as [[| | | | | raw |] |]; try done.
  destruct (negb (length raw =? length chunks)%nat) eqn:Hl; [done |].
  destruct (embedding_vectors _) as [ex | embeddings] eqn:Hv; [done |]. intros [= _ <-]. exists raw, embeddings.
  assert (Hlen : length embeddings = length chunks).
  { apply embedding_vectors_length in Hv. rewrite Hv, (Permutation_length (py_sorted_perm embedding_index raw)). reflect_bools. by apply Nat.eqb_eq in Hl. }
  split_and!; [done | done | done |]. intros Hdoc. rewrite Hdoc, <- Hlen. apply payload_read_back.
Qed.

(** ** A concrete machine *)

Definition demo_lease : WorkUnitLease := {|
  wl_work_unit_id := "u1"; wl_job_id := "j1"; wl_kind := EMBED; wl_model_id := "m1"; wl_input_url := "/in";
  wl_lease_expires := 100000000; wl_attempt := 1; wl_est_duration_s := None |}.

Definition one_text : Json := JArr [JStr "one"].
Definition one_vector : Json := JObj [("data", JArr [JObj [("embedding", JArr [JInt 1; JInt 0])]])].
Definition one_document : Json := payload_document [[Some 1%Q; Some 0%Q]] "m1" 2.

Definition demo_loads (b : bytes) : option Json :=
  match b with
  | [Byte.x01] => Some one_text
  | [Byte.x02] => Some one_vector
  | [Byte.x03] => Some one_document
  | _ => None
  end.

Definition demo_dumps (j : Json) : bytes := [Byte.x03].
Definition demo_digest : string := hexdigest pad32 [Byte.x03].

(** The first upload breaks; everything else is answered. *)
Definition demo_env (h : history) (a : Await) : Outcome :=
  match a with
  | Sleep _ | Busy _ => TransportFailed
  | Send (ReqPollWork _ _ _) => Answered 200 []
  | Send (ReqFetchInput _ _) => Answered 200 [Byte.x01]
  | Send (ReqEmbed _ _ _ _) => Answered 200 [Byte.x02]
  | Send (ReqUpload _ _ _ _ _) => if existsb (λ a, match a with Send (ReqUpload _ _ _ _ _) => true | _ => false end) h then Answered 200 [] else TransportFailed
  | Send _ => Answered 204 []
  end.

Definition demo_clock (h : history) : instant := Z.of_nat (length h).
Definition demo_statuses (h : history) : list ReplicaStatus :=
  [{| rs_model_id := "m1"; rs_port := 9000; rs_state := READY; rs_inflight := 0; rs_gpu := false |}].
Definition demo_retry : ClientRetryConfig := {| cr_max_retries := 3; cr_backoff_base_s := 1 # 2 |}.
Definition demo_policy : ResultUploadRetryConfig := {| ur_max_retries := 2; ur_backoff_base_s := 1 # 2 |}.

Definition demo_world : World := {|
  w_history := []; w_agent_id := Some "a"; w_device_token := Some "t"; w_deadline := None; w_lease_ids := []; w_results := ∅ |}.

Lemma demo_forward h h' : (demo_clock h ≤ demo_clock (h ++ h'))%Z.
Proof. unfold demo_clock. rewrite length_app. lia. Qed.

Lemma idempotent_retries_witness :
  ∃ w, send_idempotent demo_env demo_clock demo_retry (λ t, ReqPollWork t "a" 30) demo_world = (w, inr (200%Z, [])) ∧
    w_history w = [Send (ReqPollWork "t" "a" 30)].
Proof.
  destruct (send_idempotent demo_env demo_clock demo_retry (λ t, ReqPollWork t "a" 30) demo_world) as [w r] eqn:Hs.
  destruct (idempotent_retries demo_env demo_clock demo_retry (λ t, ReqPollWork t "a" 30) "t" demo_world w r eq_refl Hs) as (new & rest & Hh & _).
  vm_compute in Hs. injection Hs as <- <-. eexists. split; reflexivity.
Defined.

Lemma upload_accepted_or_kept_witness :
  ∃ w, coordinator_upload demo_env demo_clock demo_policy (λ _, true) (λ _, true)
      (AgentClient.upload demo_env demo_clock pad32 "a" "t" (λ _, Some demo_digest)) demo_lease [Byte.x03] demo_world = (w, inr demo_digest) ∧
    w_results w = delete (destination demo_lease) ∅.
Proof.
  destruct (coordinator_upload demo_env demo_clock demo_policy (λ _, true) (λ _, true)
    (AgentClient.upload demo_env demo_clock pad32 "a" "t" (λ _, Some demo_digest)) demo_lease [Byte.x03] demo_world) as [w r] eqn:Hu.
  destruct (upload_accepted_or_kept demo_env demo_clock demo_policy (λ _, true) (λ _, true) pad32 "a" "t" (λ _, Some demo_digest)
    demo_lease [Byte.x03] demo_world w r Hu) as (new & _ & _ & Hr).
  assert (Hok : r = inr demo_digest) by (apply (f_equal snd) in Hu; cbn [snd] in Hu; rewrite <- Hu; vm_compute; reflexivity).
  subst r. exists w. split; [reflexivity |]. exact (proj2 Hr eq_refl).
Defined.

Lemma work_tick_disciplined_witness :
  ∃ w, tick demo_env demo_clock (λ _, 0%Q) (λ _, "") (build_workers demo_env demo_clock demo_loads demo_dumps demo_statuses "localhost" None)
      (fetch_input demo_env demo_clock "t")
      (coordinator_upload demo_env demo_clock demo_policy (λ _, true) (λ _, true)
         (AgentClient.upload demo_env demo_clock pad32 "a" "t" (λ _, Some demo_digest)))
      demo_retry (λ _, Some demo_lease) (λ _, IDLE) 30 5 demo_world = (w, inr tt) ∧
    w_lease_ids w = [] ∧ length (w_history w) = 7%nat.
Proof.
  destruct (tick demo_env demo_clock (λ _, 0%Q) (λ _, "") (build_workers demo_env demo_clock demo_loads demo_dumps demo_statuses "localhost" None)
    (fetch_input demo_env demo_clock "t")
    (coordinator_upload demo_env demo_clock demo_policy (λ _, true) (λ _, true)
       (AgentClient.upload demo_env demo_clock pad32 "a" "t" (λ _, Some demo_digest)))
    demo_retry (λ _, Some demo_lease) (λ _, IDLE) 30 5 demo_world) as [w r] eqn:Ht.
  destruct (work_tick_disciplined demo_env demo_clock (λ _, 0%Q) demo_forward demo_loads demo_dumps demo_statuses "localhost" None (λ _, "")
    demo_policy (λ _, true) (λ _, true) pad32 "a" "t" (λ _, Some demo_digest) demo_retry (λ _, Some demo_lease) (λ _, IDLE) 30 5
    demo_world w r eq_refl eq_refl Ht) as (_ & _ & Hl & _).
  assert (Hok : r = inr tt ∧ length (w_history w) = 7%nat).
  { pose proof (f_equal snd Ht) as H1. pose proof (f_equal (λ p, length (w_history p.1)) Ht) as H2. cbn [fst snd] in H1, H2.
    rewrite <- H1, <- H2. split; vm_compute; reflexivity. }
  destruct Hok as [-> Hlen]. exists w. split; [reflexivity |]. split; [exact Hl | exact Hlen].
Defined.

Lemma embed_payload_roundtrip_witness :
  ∃ w out, embed_run demo_env demo_clock demo_loads demo_dumps demo_statuses "localhost" demo_lease [Byte.x01] demo_world = (w, inr out) ∧
    ∃ raw embeddings, length embeddings = 1%nat ∧ embedding_vectors (py_sorted embedding_index raw) = inr embeddings.
Proof.
  destruct (embed_run demo_env demo_clock demo_loads demo_dumps demo_statuses "localhost" demo_lease [Byte.x01] demo_world) as [w [e | out]] eqn:He;
    [vm_compute in He; discriminate He |].
  destruct (embed_payload_roundtrip demo_env demo_clock demo_loads demo_dumps demo_statuses "localhost" demo_lease [Byte.x01] demo_world w out
    ["one"] eq_refl He) as (raw & embeddings & Hl & Hv & _).
  exists w, out. split; [reflexivity |]. exists raw, embeddings. split; [exact Hl | exact Hv].
Defined.
