(* ===== verification/AgentBeat.v ===== *)
(** * The agent's heartbeat, idle prediction and event sink

    Models, under src/packages/fallow-agent/src/fallow_agent, idle/predictor.py,
    heartbeat/loop.py, main/heartbeat_wiring.py and heartbeat/event_sink.py.  The
    loop's sources (metrics, supervisor, detector) are a reading per history,
    [None] where one of them raises.  The event sink, whose [emit] runs in another
    thread than its sender, is a step function on interleaved labels. *)

From S2P Require Export AgentClient.
From S2P Require Import QuotaSpec AgentWorkSpec.

(** ** IdlePredictor *)

Record PredictorConfig := { pc_history : Z; pc_smoothing : Q; pc_min_windows : Z; pc_reset_epsilon_s : Q }.

Definition default_predictor : PredictorConfig := {|
  pc_history := 32; pc_smoothing := 3 # 10; pc_min_windows := 4; pc_reset_epsilon_s := 1 |}.

Record IdlePrediction := { ip_remaining_s : Q; ip_confidence : Q }.

Record Predictor := { pr_window_count : Z; pr_mean : option Q; pr_prev_idle : option Q }.

Definition new_predictor : Predictor := {| pr_window_count := 0; pr_mean := None; pr_prev_idle := None |}.

Definition clamp_unit (v : Q) : Q := py_max2 0 (py_min2 1 v).

Section Predictor.
  Context (cfg : PredictorConfig).

(** [_record_window] *)
Definition record_window (length : Q) (p : Predictor) : Predictor := {|
  pr_window_count := Z.min (pr_window_count p + 1) (pc_history cfg);
  pr_mean := Some match pr_mean p with
                  | None => length
                  | Some mean => (pc_smoothing cfg * length + (1 - pc_smoothing cfg) * mean)%Q
                  end;
  pr_prev_idle := pr_prev_idle p |}.

(** [_observe] of a detector reading *)
Definition observe (reading : Q) (p : Predictor) : Predictor * Q :=
  let elapsed := py_max2 0 reading in
  let p := match pr_prev_idle p with
           | Some prev => if (elapsed <?q prev - pc_reset_epsilon_s cfg)%Q then record_window prev p else p
           | None => p
           end in
  ({| pr_window_count := pr_window_count p; pr_mean := pr_mean p; pr_prev_idle := Some elapsed |}, elapsed).

(** [_confidence] *)
Definition confidence (count : Z) (elapsed mean : Q) : Q :=
  let sample_conf := py_min2 1 (inject_Z count / inject_Z (pc_min_windows cfg)) in
  let denom := py_max2 mean elapsed in
  let fit := if (0 <?q denom)%Q then (mean / denom)%Q else 1%Q in
  clamp_unit (sample_conf * fit).

(** [_predict] *)
Definition predict (p : Predictor) (elapsed : Q) : IdlePrediction :=
  match pr_mean p with
  | None => {| ip_remaining_s := 0; ip_confidence := 0 |}
  | Some mean => {| ip_remaining_s := py_min2 elapsed mean; ip_confidence := confidence (pr_window_count p) elapsed mean |}
  end.

Definition sample (reading : Q) (p : Predictor) : Predictor * IdlePrediction :=
  let '(p', elapsed) := observe reading p in (p', predict p' elapsed).
End Predictor.

(** ** HeartbeatLoop *)

(** What a beat is assembled from. *)
Record Sources := {
  so_sent_at : instant; so_state : AgentState; so_seconds_since_input : Q; so_cpu_percent : Q; so_mem_available_mb : Z;
  so_load_avg : option Q; so_temp_cpu_c : option Q; so_gpus : list GpuStatus; so_replicas : list ReplicaStatus;
  so_serving_paused : bool; so_prediction : option IdlePrediction
}.

Record Beating := {
  bt_world : World; bt_seq : Z; bt_running : bool; bt_desired : list model_id;
  bt_auth_errors : list Exc                                (* calls of on_auth_error *)
}.

Section Heartbeat.
  Context (env : history → Await → Outcome) (clock : history → instant) (retry : ClientRetryConfig)
          (parse_response : bytes → option HeartbeatResponse).
  Context (agent : agent_id) (protocol_version : Z) (interval_s : Q) (sources : history → option Sources).

(** [_build_heartbeat] *)
Definition build_heartbeat (b : Beating) (s : Sources) : Heartbeat := {|
  hb_agent_id := agent; hb_seq := bt_seq b; hb_sent_at := so_sent_at s; hb_protocol_version := protocol_version;
  hb_state := so_state s; hb_user_idle_s := py_max2 0 (so_seconds_since_input s); hb_cpu_percent := so_cpu_percent s;
  hb_mem_available_mb := so_mem_available_mb s; hb_load_avg := so_load_avg s; hb_temp_cpu_c := so_temp_cpu_c s;
  hb_gpus := so_gpus s; hb_replicas := so_replicas s; hb_lease_ids := w_lease_ids (bt_world b);
  hb_serving_paused := so_serving_paused s;
  hb_predicted_idle_remaining_s := ip_remaining_s <$> so_prediction s;
  hb_predicted_idle_confidence := ip_confidence <$> so_prediction s |}.

(** [self._seq += 1], in the [finally]. *)
Definition advance (w : World) (desired : list model_id) (auth : list Exc) (b : Beating) : Beating := {|
  bt_world := w; bt_seq := bt_seq b + 1; bt_running := bt_running b; bt_desired := desired;
  bt_auth_errors := bt_auth_errors b ++ auth |}.

(** [_tick], with [on_response] of main/heartbeat_wiring.py: the new state and
    whether to keep going, or the cancellation that ends the task. *)
Definition beat (b : Beating) : Beating * (Exc + bool) :=
  match sources (w_history (bt_world b)) with
  | None => (advance (bt_world b) (bt_desired b) [] b, inr true)
  | Some s =>
      match heartbeat env clock retry parse_response (build_heartbeat b s) (bt_world b) with
      | (w, inr response) => (advance w (hr_desired_models response) [] b, inr true)
      | (w, inl (CoordinatorAuthError code)) =>
          (advance w (bt_desired b) [CoordinatorAuthError code] b, inr false)
      | (w, inl e) =>
          (advance w (bt_desired b) [] b, if is_base_exception e then inl e else inr true)
      end
  end.

Definition stop_beating (b : Beating) : Beating := {|
  bt_world := bt_world b; bt_seq := bt_seq b; bt_running := false; bt_desired := bt_desired b;
  bt_auth_errors := bt_auth_errors b |}.

Definition with_world (w : World) (b : Beating) : Beating := {|
  bt_world := w; bt_seq := bt_seq b; bt_running := bt_running b; bt_desired := bt_desired b;
  bt_auth_errors := bt_auth_errors b |}.

(** [n] iterations of [run]'s loop, from [while self._running]; [inr true] is still
    looping. *)
Fixpoint beats (n : nat) (b : Beating) : Beating * (Exc + bool) :=
  match n with
  | O => (b, inr true)
  | S n =>
      if negb (bt_running b) then (b, inr false)
      else
        match beat b with
        | (b, inl e) => (b, inl e)
        | (b, inr false) => (stop_beating b, inr false)
        | (b, inr true) =>
            match sleep env clock interval_s (bt_world b) with
            | (w, inl e) => (with_world w b, inl e)
            | (w, inr _) => beats n (with_world w b)
            end
        end
  end.
End Heartbeat.

(** ** HttpEventSink *)

(** Which drain the sender is in: the loop's, the one after the loop, [stop]'s own. *)
Inductive Stage := InLoop | AfterLoop | InStop.

Inductive SinkPhase :=
  | NotStarted
  | Waiting                                               (* wake.wait() *)
  | Draining (st : Stage)
  | Pushing (st : Stage) (e : AgentEvent) (attempt : nat)
  | SinkDead                                              (* an exception ended the sender's task *)
  | SinkStopped.

Record Sink := {
  sk_queue : list AgentEvent; sk_wake : bool;
  sk_unsignalled : nat;                                   (* emits between put and call_soon_threadsafe *)
  sk_callbacks : nat;                                     (* wake.set callbacks scheduled *)
  sk_running : bool; sk_phase : SinkPhase;
  sk_jsonl : list AgentEvent;
  sk_emitted : list AgentEvent; sk_taken : list AgentEvent;   (* every event put, every event taken *)
  sk_pushes : list (nat * nat)                            (* push_event calls: which taken event, which attempt *)
}.

Definition new_sink : Sink := {|
  sk_queue := []; sk_wake := false; sk_unsignalled := 0; sk_callbacks := 0; sk_running := false; sk_phase := NotStarted;
  sk_jsonl := []; sk_emitted := []; sk_taken := []; sk_pushes := [] |}.

Inductive SinkLabel :=
  | EmitPut (e : AgentEvent)                              (* ingress.put *)
  | EmitSignal                                            (* call_soon_threadsafe, or nothing before start *)
  | RunCallback                                           (* the loop runs wake.set *)
  | Start
  | Stop                                                  (* running = False; wake.set() *)
  | Woken                                                 (* wake.wait() returns; wake.clear() *)
  | Take (disk : bool)                                    (* get_nowait and _append_jsonl *)
  | Empty                                                 (* get_nowait raises queue.Empty *)
  | PushOk                                                (* accepted, or refused for good *)
  | PushFailed                                            (* a CoordinatorError *)
  | PushRaised.                                           (* another exception of the client *)

Definition set_phase (p : SinkPhase) (s : Sink) : Sink := {|
  sk_queue := sk_queue s; sk_wake := sk_wake s; sk_unsignalled := sk_unsignalled s; sk_callbacks := sk_callbacks s;
  sk_running := sk_running s; sk_phase := p; sk_jsonl := sk_jsonl s; sk_emitted := sk_emitted s; sk_taken := sk_taken s;
  sk_pushes := sk_pushes s |}.

Definition set_wake (wake : bool) (s : Sink) : Sink := {|
  sk_queue := sk_queue s; sk_wake := wake; sk_unsignalled := sk_unsignalled s; sk_callbacks := sk_callbacks s;
  sk_running := sk_running s; sk_phase := sk_phase s; sk_jsonl := sk_jsonl s; sk_emitted := sk_emitted s; sk_taken := sk_taken s;
  sk_pushes := sk_pushes s |}.

Definition set_running (running : bool) (s : Sink) : Sink := {|
  sk_queue := sk_queue s; sk_wake := sk_wake s; sk_unsignalled := sk_unsignalled s; sk_callbacks := sk_callbacks s;
  sk_running := running; sk_phase := sk_phase s; sk_jsonl := sk_jsonl s; sk_emitted := sk_emitted s; sk_taken := sk_taken s;
  sk_pushes := sk_pushes s |}.

Definition set_signals (unsignalled callbacks : nat) (s : Sink) : Sink := {|
  sk_queue := sk_queue s; sk_wake := sk_wake s; sk_unsignalled := unsignalled; sk_callbacks := callbacks;
  sk_running := sk_running s; sk_phase := sk_phase s; sk_jsonl := sk_jsonl s; sk_emitted := sk_emitted s; sk_taken := sk_taken s;
  sk_pushes := sk_pushes s |}.

Definition push (i attempt : nat) (s : Sink) : Sink := {|
  sk_queue := sk_queue s; sk_wake := sk_wake s; sk_unsignalled := sk_unsignalled s; sk_callbacks := sk_callbacks s;
  sk_running := sk_running s; sk_phase := sk_phase s; sk_jsonl := sk_jsonl s; sk_emitted := sk_emitted s; sk_taken := sk_taken s;
  sk_pushes := sk_pushes s ++ [(i, attempt)] |}.

Section Sink.
  Context (cfg : EventSinkConfig).

(** [emit], up to the put. *)
Definition emit_put (e : AgentEvent) (s : Sink) : Sink := {|
  sk_queue := sk_queue s ++ [e]; sk_wake := sk_wake s; sk_unsignalled := S (sk_unsignalled s); sk_callbacks := sk_callbacks s;
  sk_running := sk_running s; sk_phase := sk_phase s; sk_jsonl := sk_jsonl s; sk_emitted := sk_emitted s ++ [e];
  sk_taken := sk_taken s; sk_pushes := sk_pushes s |}.

(** The rest of [emit]: [self._loop] is set by the first [start]. *)
Definition emit_signal (s : Sink) : option Sink :=
  match sk_unsignalled s with
  | O => None
  | S n => Some (set_signals n (match sk_phase s with NotStarted => sk_callbacks s | _ => S (sk_callbacks s) end) s)
  end.

Definition start_sink (s : Sink) : Sink :=
  match sk_phase s with
  | NotStarted | SinkDead | SinkStopped => set_phase Waiting (set_wake true (set_running true s))
  | _ => s
  end.

(** [get_nowait], [_append_jsonl], and the first [push_event]. *)
Definition take_event (disk : bool) (st : Stage) (e : AgentEvent) (rest : list AgentEvent) (s : Sink) : Sink :=
  push (length (sk_taken s)) 1
    {| sk_queue := rest; sk_wake := sk_wake s; sk_unsignalled := sk_unsignalled s; sk_callbacks := sk_callbacks s;
       sk_running := sk_running s; sk_phase := Pushing st e 1; sk_jsonl := if disk then sk_jsonl s ++ [e] else sk_jsonl s;
       sk_emitted := sk_emitted s; sk_taken := sk_taken s ++ [e]; sk_pushes := sk_pushes s |}.

(** A drain found the queue empty: the loop waits again or, no longer running,
    drains once more; then [stop] does. *)
Definition drained (st : Stage) (s : Sink) : Sink :=
  match st with
  | InLoop => if sk_running s then set_phase Waiting s else set_phase (Draining AfterLoop) s
  | AfterLoop => set_phase (Draining InStop) s
  | InStop => set_phase SinkStopped s
  end.

(** [_push_best_effort] after a failed attempt: again, or drop. *)
Definition push_failed (st : Stage) (e : AgentEvent) (attempt : nat) (s : Sink) : Sink :=
  if (attempt <? es_max_push_attempts cfg)%nat
  then set_phase (Pushing st e (S attempt)) (push (length (sk_taken s) - 1) (S attempt) s)
  else set_phase (Draining st) s.

(** An exception [_push_best_effort] does not catch: it ends the sender's task, or
    comes out of [stop]. *)
Definition push_raised (st : Stage) (s : Sink) : Sink :=
  set_phase (match st with InStop => SinkStopped | _ => SinkDead end) s.

Definition sink_step (l : SinkLabel) (s : Sink) : option Sink :=
  match l, sk_phase s with
  | EmitPut e, _ => Some (emit_put e s)
  | EmitSignal, _ => emit_signal s
  | RunCallback, _ => match sk_callbacks s with O => None | S n => Some (set_wake true (set_signals (sk_unsignalled s) n s)) end
  | Start, _ => Some (start_sink s)
  | Stop, NotStarted => Some (set_phase (Draining InStop) (set_wake true s))
  | Stop, SinkStopped => Some (set_phase (Draining InStop) (set_wake true s))
  | Stop, _ => Some (set_wake true (set_running false s))
  | Woken, Waiting => if sk_wake s then Some (set_phase (Draining InLoop) (set_wake false s)) else None
  | Take disk, Draining st =>
      match sk_queue s with e :: rest => Some (take_event disk st e rest s) | [] => None end
  | Empty, Draining st => match sk_queue s with [] => Some (drained st s) | _ => None end
  | PushOk, Pushing st e _ => Some (set_phase (Draining st) s)
  | PushFailed, Pushing st e attempt => Some (push_failed st e attempt s)
  | PushRaised, Pushing st e _ => Some (push_raised st s)
  | _, _ => None
  end.

Definition sink_steps (s s' : Sink) : Prop := ∃ l, sink_step l s = Some s'.
End Sink.

(** * What the agent's beacon promises

    Predictions stay within what was seen; the heartbeat survives every failure but a
    rejected token and numbers its beats in order; the event sink loses no event and
    no wake-up, whatever the interleaving of its threads. *)

(** ** Predictions *)

Lemma py_max2_ge a b : (a <= py_max2 a b)%Q ∧ (b <= py_max2 a b)%Q.
Proof. unfold py_max2. destruct (a <?q b) eqn:H; reflect_bools; split; lra. Qed.

Lemma clamp_unit_bounds v : (0 <= clamp_unit v)%Q ∧ (clamp_unit v <= 1)%Q.
Proof.
  unfold clamp_unit, py_max2, py_min2. destruct (v <?q 1) eqn:H1; [destruct (0 <?q v) eqn:H2 | destruct (0 <?q 1) eqn:H2]; reflect_bools; split; lra.
Qed.

Section Predict.
  Context (cfg : PredictorConfig).
  Context (smoothing_ok : (0 <= pc_smoothing cfg)%Q ∧ (pc_smoothing cfg <= 1)%Q) (epsilon_ok : (0 <= pc_reset_epsilon_s cfg)%Q).

(** Every completed window seen so far lies between the reset threshold and [b]. *)
Record predictor_ok (b : Q) (p : Predictor) : Prop := {
  po_mean m : pr_mean p = Some m → (pc_reset_epsilon_s cfg <= m)%Q ∧ (m <= b)%Q;
  po_prev x : pr_prev_idle p = Some x → (0 <= x)%Q ∧ (x <= b)%Q
}.

Lemma record_window_ok b len p :
  predictor_ok b p → (pc_reset_epsilon_s cfg <= len)%Q → (len <= b)%Q → predictor_ok b (record_window cfg len p).
Proof using smoothing_ok.
  intros [Hm Hp] Hlo Hhi. destruct smoothing_ok as [H0 H1]. constructor; [| done]. cbn. intros m [= <-]. destruct (pr_mean p) as [m |]; [| done].
  destruct (Hm m eq_refl) as [Hml Hmh]. set (a := pc_smoothing cfg) in *. split; nra.
Qed.

Lemma observe_ok b reading p p' elapsed :
  predictor_ok b p → (0 <= b)%Q → (reading <= b)%Q → observe cfg reading p = (p', elapsed) →
  predictor_ok b p' ∧ (0 <= elapsed)%Q ∧ (elapsed <= b)%Q ∧ (reading <= elapsed)%Q.
Proof using smoothing_ok.
  intros Hok Hb Hr [= <- <-]. assert (He : (0 <= py_max2 0 reading)%Q ∧ (py_max2 0 reading <= b)%Q).
  { unfold py_max2. destruct (0 <?q reading) eqn:H; reflect_bools; split; lra. }
  split_and!; try apply He; [| apply py_max2_ge]. set (q := match pr_prev_idle p with Some _ => _ | None => _ end).
  assert (Hq : predictor_ok b q).
  { subst q. destruct (pr_prev_idle p) as [prev |] eqn:Hp; [| done]. destruct (_ <?q _) eqn:Hlt; [| done]. reflect_bools.
    destruct (po_prev _ _ Hok prev Hp) as [_ Hph]. apply record_window_ok; [done | | done]. destruct He. lra. }
  constructor; cbn; [apply (po_mean _ _ Hq) |]. intros x [= <-]. apply He.
Qed.

(** Feeding readings, one per heartbeat. *)
Definition feed (readings : list Q) (p : Predictor) : Predictor := fold_left (λ p r, (sample cfg r p).1) readings p.

Lemma feed_ok b readings p :
  (0 <= b)%Q → (∀ r, r ∈ readings → (r <= b)%Q) → predictor_ok b p → predictor_ok b (feed readings p).
Proof using smoothing_ok.
  intros Hb. revert p; induction readings as [| r readings IH]; intros p Hall Hok; [done |].
  change (predictor_ok b (feed readings (sample cfg r p).1)). apply IH; [intros x Hx; apply Hall; by right |]. unfold sample. destruct (observe cfg r p) as [p' e] eqn:Ho. cbn [fst].
  apply (observe_ok b) in Ho as [? _]; [done | done | done |]. apply Hall. by left.
Qed.

(** A prediction of remaining idle time is never negative, never longer than the
    machine has been idle already, and never longer than the longest idle time seen; the
    confidence is between 0 and 1, and both are 0 until a window has ended. *)
Theorem prediction_bounded b readings reading p pred :
  (0 <= b)%Q → (∀ r, r ∈ readings → (r <= b)%Q) → (reading <= b)%Q →
  sample cfg reading (feed readings new_predictor) = (p, pred) →
  (0 <= ip_remaining_s pred)%Q ∧ (ip_remaining_s pred <= py_max2 0 reading)%Q ∧ (ip_remaining_s pred <= b)%Q ∧
  (0 <= ip_confidence pred)%Q ∧ (ip_confidence pred <= 1)%Q ∧
  (pr_mean p = None → ip_remaining_s pred = 0%Q ∧ ip_confidence pred = 0%Q).
Proof using smoothing_ok epsilon_ok.
  intros Hb Hall Hr. assert (Hok : predictor_ok b (feed readings new_predictor)) by (apply feed_ok; [done | done | by constructor]).
  unfold sample. destruct (observe cfg reading _) as [p' elapsed] eqn:Ho. intros [= <- <-].
  assert (elapsed = py_max2 0 reading) as -> by (unfold observe in Ho; by injection Ho). pose proof Ho as Hob.
  apply (observe_ok b) in Hob as (Hok' & H0 & Hle & _); [| done | done | done]. unfold predict. destruct (pr_mean p') as [m |] eqn:Hm; cbn.
  - destruct (po_mean _ _ Hok' m Hm) as [Hlo Hhi]. pose proof (clamp_unit_bounds (py_min2 1 (inject_Z (pr_window_count p') / inject_Z (pc_min_windows cfg)) *
      (if (0 <?q py_max2 m (py_max2 0 reading)) then m / py_max2 m (py_max2 0 reading) else 1))) as [Hc0 Hc1].
    pose proof (py_min2_le (py_max2 0 reading) m) as [Hle1 Hle2]. split_and!; try done; [| lra].
    apply py_min2_spec. split; lra.
  - split_and!; try done; lra.
Qed.
End Predict.

(** ** The heartbeat *)

Section Beat.
  Context (env : history → Await → Outcome) (clock : history → instant) (retry : ClientRetryConfig)
          (parse_response : bytes → option HeartbeatResponse).
  Context (agent : agent_id) (protocol_version : Z) (interval_s : Q) (sources : history → option Sources).
  Notation beat := (beat env clock retry parse_response agent protocol_version sources).
  Notation beats := (beats env clock retry parse_response agent protocol_version interval_s sources).

(** The sequence numbers sent, in order. *)
Definition seqs (h : history) : list Z :=
  omap (λ a, match a with Send (ReqHeartbeat _ hb) => Some (hb_seq hb) | _ => None end) h.

(** Awaits of the beat numbered [n]: the beat itself, and sleeps. *)
Definition of_beat (n : Z) (a : Await) : Prop :=
  match a with Send (ReqHeartbeat _ hb) => hb_seq hb = n | Send _ | Busy _ => False | Sleep _ => True end.

Lemma of_beat_seqs n new : Forall (of_beat n) new → Forall (λ s, s = n) (seqs new).
Proof.
  induction 1 as [| a new Ha HF IH]; [by apply Forall_nil |]. destruct a as [[| ? hb | | | | | |] | s | what]; cbn in *; try done.
  apply Forall_cons. by split.
Qed.

Lemma heartbeat_follows hb : follows clock (of_beat (hb_seq hb)) (heartbeat env clock retry parse_response hb).
Proof.
  unfold heartbeat. apply follows_bind; [by apply send_retrying_follows |]. intros [status content]. cbn. unfold parse_ok.
  destruct (bool_decide _); [destruct (parse_response _); [apply follows_ret | by apply follows_raise] |]. apply follows_raise.
  unfold classify_failure. case_bool_decide; [done |]. by destruct (_ <=? _)%Z.
Qed.

Lemma beat_cases b b' r :
  w_deadline (bt_world b) = None → beat b = (b', r) →
  bt_seq b' = (bt_seq b + 1)%Z ∧ bt_running b' = bt_running b ∧ w_deadline (bt_world b') = None ∧
  (∃ new, w_history (bt_world b') = w_history (bt_world b) ++ new ∧ Forall (of_beat (bt_seq b)) new) ∧
  match r with
  | inr true => bt_auth_errors b' = bt_auth_errors b
  | inr false => ∃ code, bt_auth_errors b' = bt_auth_errors b ++ [CoordinatorAuthError code]
  | inl e => e = Cancelled ∧ bt_auth_errors b' = bt_auth_errors b
  end.
Proof.
  intros Hdl. unfold AgentBeat.beat. destruct (sources _) as [s |].
  2: { intros [= <- <-]. cbn. rewrite app_nil_r. split_and!; try done. exists []. rewrite app_nil_r. split; [done | by apply Forall_nil]. }
  destruct (heartbeat _ _ _ _ _ _) as [w res] eqn:Hh. destruct (heartbeat_follows _ _ _ _ Hh) as [new Hd]. cbn in Hd.
  pose proof (kp_deadline _ _ (di_kept _ _ _ _ _ _ Hd)) as Hkd.
  assert (Hnew : ∃ new, w_history w = w_history (bt_world b) ++ new ∧ Forall (of_beat (bt_seq b)) new)
    by (exists new; split; apply Hd). clear Hh.
  destruct res as [e | response]; [| intros [= <- <-]; cbn; rewrite app_nil_r; split_and!; congruence || done].
  destruct e; intros [= <- <-]; cbn; rewrite ?app_nil_r; (split_and!; try done; try congruence); try by eexists.
  by destruct (di_timeout _ _ _ _ _ _ Hd eq_refl).
Qed.

Lemma constant_sorted n (l : list Z) : Forall (λ s, s = n) l → StronglySorted Z.le l.
Proof.
  induction 1 as [| s l Hs HF IH]; constructor; [done |]. eapply Forall_impl; [exact HF |]. intros x Hx. cbn in *. lia.
Qed.

(** Appending later beats. *)
Lemma sorted_app_bound (l1 l2 : list Z) lo mid hi :
  StronglySorted Z.le l1 → StronglySorted Z.le l2 →
  Forall (λ s, (lo ≤ s < mid)%Z) l1 → Forall (λ s, (mid ≤ s < hi)%Z) l2 → (lo ≤ mid ≤ hi)%Z →
  StronglySorted Z.le (l1 ++ l2) ∧ Forall (λ s, (lo ≤ s < hi)%Z) (l1 ++ l2).
Proof.
  intros S1 S2 F1 F2 Hle. split.
  - induction S1 as [| x l1 S1 IH Hx]; [done |]. apply Forall_cons in F1 as [Hb F1]. cbn. constructor; [by apply IH |].
    apply Forall_app. split; [done |]. eapply Forall_impl; [exact F2 |]. intros y Hy. cbn in *. lia.
  - apply Forall_app. split; (eapply Forall_impl; [eassumption |]); intros y Hy; cbn in *; lia.
Qed.

Lemma beat_seqs n m new : Forall (of_beat n) new → m = (n + 1)%Z →
  StronglySorted Z.le (seqs new) ∧ Forall (λ s, (n ≤ s < m)%Z) (seqs new).
Proof.
  intros HS%of_beat_seqs ->. split; [by apply (constant_sorted n) |]. eapply Forall_impl; [exact HS |]. intros s Hs. cbn in *. lia.
Qed.

Lemma sleep_seqs s w w' r :
  sleep env clock s w = (w', r) → w_deadline w = None →
  ∃ new, w_history w' = w_history w ++ new ∧ seqs new = [] ∧ w_deadline w' = None ∧ ∀ e, r = inl e → e = Cancelled.
Proof.
  intros Hs Hdl. destruct (follows_sleep env clock (λ a, a = Sleep s) s eq_refl _ _ _ Hs) as [new [Hh HF Hk _ Ht]]. exists new.
  unfold sleep, mbind, eff_bind in Hs. destruct (await _ _ _ w) as [w1 [e | o]] eqn:Ha; apply await_cases in Ha as [Hh1 Ha]; injection Hs as <- <-;
    (assert (new = [Sleep s]) as -> by (rewrite Hh1 in Hh; by simplify_list_eq));
    (split_and!; [done | done | by rewrite (kp_deadline _ _ Hk) |]); [| done].
  intros e' [= <-]. destruct e; try done. by destruct (Ht eq_refl).
Qed.

(** The heartbeat outlives every failure but one: after [n] iterations it is still
    beating, unless the coordinator rejected its token (and the rejection was
    surfaced exactly once) or the task was cancelled; every iteration, failed or not,
    takes the next sequence number, so the beats go out in order, a retry under the
    number of the beat it repeats. *)
Theorem heartbeat_persists n b b' r :
  w_deadline (bt_world b) = None → bt_running b = true → beats n b = (b', r) →
  ∃ k new, (k ≤ n)%nat ∧ bt_seq b' = (bt_seq b + Z.of_nat k)%Z ∧
    w_history (bt_world b') = w_history (bt_world b) ++ new ∧
    StronglySorted Z.le (seqs new) ∧ Forall (λ s, (bt_seq b ≤ s < bt_seq b')%Z) (seqs new) ∧
    match r with
    | inr true => k = n ∧ bt_running b' = true ∧ bt_auth_errors b' = bt_auth_errors b
    | inr false => bt_running b' = false ∧ ∃ code, bt_auth_errors b' = bt_auth_errors b ++ [CoordinatorAuthError code]
    | inl e => e = Cancelled ∧ bt_auth_errors b' = bt_auth_errors b
    end.
Proof.
  revert b; induction n as [| n IH]; intros b Hdl Hrun; cbn [AgentBeat.beats].
  { intros [= <- <-]. exists 0%nat, []. rewrite app_nil_r. cbn. split_and!; auto using SSorted_nil, List.Forall_nil; lia. }
  rewrite Hrun. cbn [negb]. destruct (beat b) as [b1 [e | go]] eqn:Hb; apply beat_cases in Hb as (Hs & Hr1 & Hd1 & (new & Hh & HF) & Hres); try done;
    pose proof (beat_seqs _ _ _ HF Hs) as [Hsorted Hin].
  { intros [= <- <-]. exists 1%nat, new. destruct Hres. split_and!; auto; lia. }
  destruct go; [| intros [= <- <-]; exists 1%nat, new; cbn; split_and!; auto; lia].
  destruct (sleep _ _ _ _) as [w2 [e | []]] eqn:Hsl; apply sleep_seqs in Hsl as (n2 & Hh2 & Hs2 & Hd2 & He); try done.
  - intros [= <- <-]. exists 1%nat, (new ++ n2). cbn. rewrite Hh2, Hh, <- app_assoc. unfold seqs in *. rewrite omap_app, Hs2, app_nil_r.
    split_and!; auto; lia.
  - intros Hrec. apply IH in Hrec as (k & n3 & Hk & Hsk & Hh3 & Hs3 & Hin3 & Hr); cbn in *; [| congruence | congruence].
    exists (S k), (new ++ n2 ++ n3). rewrite Hh3, Hh2, Hh, <- !app_assoc.
    assert (Hq : seqs (new ++ n2 ++ n3) = seqs new ++ seqs n3) by (unfold seqs in *; by rewrite !omap_app, Hs2).
    rewrite Hq. destruct (sorted_app_bound (seqs new) (seqs n3) (bt_seq b) (bt_seq b1) (bt_seq b')) as [HSS HFF]; auto; [lia |].
    rewrite Hres in Hr. split_and!; auto; try lia. destruct r as [e | []]; [done | | done]. destruct Hr as [-> Hr]. by split.
Qed.
End Beat.

(** ** The event sink *)

Section SinkSpec.
  Context (cfg : EventSinkConfig) (attempts_ok : (1 ≤ es_max_push_attempts cfg)%nat).
  Notation sink_step := (sink_step cfg).
  Notation sink_steps := (sink_steps cfg).

Record sink_ok (s : Sink) : Prop := {
  so_fifo : sk_taken s ++ sk_queue s = sk_emitted s;
  so_jsonl : sk_jsonl s `sublist_of` sk_taken s;
  so_wakes : sk_phase s = Waiting → sk_queue s ≠ [] → sk_wake s = true ∨ (0 < sk_callbacks s)%nat ∨ (0 < sk_unsignalled s)%nat;
  so_stops : sk_phase s = Waiting → sk_running s = false → sk_wake s = true;
  so_distinct : NoDup (sk_pushes s);
  so_bound i k : (i, k) ∈ sk_pushes s → (i < length (sk_taken s))%nat ∧ (1 ≤ k ≤ es_max_push_attempts cfg)%nat;
  so_current st e n : sk_phase s = Pushing st e n →
    (∃ before, sk_taken s = before ++ [e]) ∧ (1 ≤ n ≤ es_max_push_attempts cfg)%nat ∧
    ∀ k, ((length (sk_taken s) - 1)%nat, k) ∈ sk_pushes s → (k ≤ n)%nat
}.

Lemma new_sink_ok : sink_ok new_sink.
Proof. constructor; cbn; try done; [apply NoDup_nil_2 | by intros i k ?%elem_of_nil]. Qed.

(** A change that leaves the events alone. *)
Lemma sink_ok_phase s s' :
  sink_ok s → sk_queue s' = sk_queue s → sk_jsonl s' = sk_jsonl s → sk_emitted s' = sk_emitted s → sk_taken s' = sk_taken s →
  sk_pushes s' = sk_pushes s →
  (sk_phase s' = Waiting → sk_queue s ≠ [] → sk_wake s' = true ∨ (0 < sk_callbacks s')%nat ∨ (0 < sk_unsignalled s')%nat) →
  (sk_phase s' = Waiting → sk_running s' = false → sk_wake s' = true) →
  (∀ st e n, sk_phase s' = Pushing st e n → sk_phase s = Pushing st e n) → sink_ok s'.
Proof.
  intros [Hf Hj Hw Hs Hd Hb Hc] Hq Hl He Ht Hp Hw' Hs' Hph. constructor; rewrite ?Hq, ?Hl, ?He, ?Ht, ?Hp; try done.
  intros st e n Hx. by apply Hph, Hc in Hx.
Qed.

Lemma emit_put_ok e s : sink_ok s → sink_ok (emit_put e s).
Proof.
  intros [Hf Hj Hw Hs Hd Hb Hc]. constructor; cbn; try done; [by rewrite app_assoc, Hf |]. intros Hp _. right; right; lia.
Qed.

Lemma take_event_ok disk st e rest s :
  sink_ok s → sk_queue s = e :: rest → sk_phase s = Draining st → sink_ok (take_event disk st e rest s).
Proof using attempts_ok.
  intros [Hf Hj Hw Hs Hd Hb Hc] Hq Hp. constructor; cbn; try done.
  - by rewrite <- Hf, Hq, <- app_assoc.
  - destruct disk; [by apply sublist_app | by apply sublist_inserts_r].
  - apply NoDup_app. split_and!; [done | | apply NoDup_singleton]. intros [i k] Hin Hx%list_elem_of_singleton. injection Hx as -> ->.
    apply Hb in Hin as [Hlt _]. lia.
  - intros i k [Hin | Hin]%elem_of_app; rewrite length_app; cbn; [apply Hb in Hin as [??]; lia |].
    apply list_elem_of_singleton in Hin. injection Hin as -> ->. lia.
  - intros st' e' n [= <- <- <-]. split_and!; [by eexists | lia | lia |]. rewrite length_app. cbn. intros k [Hin | Hin]%elem_of_app.
    + apply Hb in Hin as [Hlt _]. lia.
    + apply list_elem_of_singleton in Hin. injection Hin as Hi Hk'. lia.
Qed.

Lemma push_failed_ok st e n s : sink_ok s → sk_phase s = Pushing st e n → sink_ok (push_failed cfg st e n s).
Proof.
  intros Hok Hp. unfold push_failed. destruct (Nat.ltb_spec n (es_max_push_attempts cfg)) as [Hlt | _].
  2: { by apply (sink_ok_phase s). }
  destruct Hok as [Hf Hj Hw Hs Hd Hb Hc]. destruct (Hc _ _ _ Hp) as ([before Ht] & Hn & Hk). constructor; cbn; try done.
  - apply NoDup_app. split_and!; [done | | apply NoDup_singleton]. intros [i k] Hin Hx%list_elem_of_singleton. injection Hx as -> ->. apply Hk in Hin. lia.
  - intros i k [Hin | Hin]%elem_of_app; [by apply Hb |]. apply list_elem_of_singleton in Hin. injection Hin as -> ->.
    rewrite Ht, length_app. cbn. lia.
  - intros st' e' m [= <- <- <-]. split_and!; [by exists before | lia | lia |]. intros k [Hin | Hin]%elem_of_app; [apply Hk in Hin; lia |].
    apply list_elem_of_singleton in Hin. injection Hin as ->. lia.
Qed.

Lemma sink_step_ok l s s' : sink_ok s → sink_step l s = Some s' → sink_ok s'.
Proof using attempts_ok.
  intros Hok. destruct l; cbn.
  - intros [= <-]. by apply emit_put_ok.
  - unfold emit_signal. destruct (sk_unsignalled s) as [| n] eqn:Hu; [done |]. intros [= <-].
    apply (sink_ok_phase s); try done; cbn; [| apply (so_stops _ Hok)]. intros Hp Hq. rewrite Hp. right; left; lia.
  - destruct (sk_callbacks s) as [| n] eqn:Hu; [done |]. intros [= <-]. apply (sink_ok_phase s); try done; cbn; by left.
  - intros [= <-]. unfold start_sink. destruct (sk_phase s) eqn:Hp; try done; (apply (sink_ok_phase s); try done; cbn; by left).
  - destruct (sk_phase s) eqn:Hp; intros [= <-]; (apply (sink_ok_phase s); try done; cbn; try done; by left).
  - destruct (sk_phase s) eqn:Hp; try done. destruct (sk_wake s); [| done]. intros [= <-]. by apply (sink_ok_phase s).
  - destruct (sk_phase s) eqn:Hp; try done. destruct (sk_queue s) eqn:Hq; [done |]. intros [= <-]. by apply take_event_ok.
  - destruct (sk_phase s) eqn:Hp; try done. destruct (sk_queue s) eqn:Hq; [| done]. intros [= <-]. unfold drained.
    destruct st; [destruct (sk_running s) eqn:Hr | |]; (apply (sink_ok_phase s); try done; cbn; congruence).
  - destruct (sk_phase s) eqn:Hp; try done. intros [= <-]. by apply (sink_ok_phase s).
  - destruct (sk_phase s) eqn:Hp; try done. intros [= <-]. by apply push_failed_ok.
  - destruct (sk_phase s) eqn:Hp; try done. intros [= <-]. apply (sink_ok_phase s); try done; by destruct st.
Qed.

Lemma reached_sink_ok s : rtc sink_steps new_sink s → sink_ok s.
Proof using attempts_ok.
  intros Hr. pose proof new_sink_ok as H0. induction Hr as [| s s1 s2 [l Hl] _ IH]; [done |]. apply IH. by eapply sink_step_ok.
Qed.

(** C34: in every interleaving of emitting threads with the sender, events are taken in
    the order they were emitted and none is lost; each is in the local log (if the disk
    took it) before it is pushed, and pushed at most [max_push_attempts] times; and a
    sender that waits while an event is queued always has a wake-up on its way.  An
    exception of the client that is no [CoordinatorError] may end the sender's task; the
    events it leaves stay queued. *)
Theorem event_sink_loses_nothing s :
  rtc sink_steps new_sink s →
  sk_taken s ++ sk_queue s = sk_emitted s ∧ sk_jsonl s `sublist_of` sk_taken s ∧
  NoDup (sk_pushes s) ∧
  (∀ i k, (i, k) ∈ sk_pushes s → (i < length (sk_taken s))%nat ∧ (1 ≤ k ≤ es_max_push_attempts cfg)%nat) ∧
  (sk_phase s = Waiting → sk_queue s ≠ [] ∨ sk_running s = false →
   ∃ l s', l ∈ [EmitSignal; RunCallback; Woken] ∧ sink_step l s = Some s').
Proof using attempts_ok.
  intros Hok%reached_sink_ok. split_and!; [apply Hok | apply Hok | apply Hok | apply Hok |]. intros Hp Hq.
  assert (Hw : sk_wake s = true ∨ (0 < sk_callbacks s)%nat ∨ (0 < sk_unsignalled s)%nat)
    by (destruct Hq as [Hq | Hr]; [by apply (so_wakes _ Hok) | left; by apply (so_stops _ Hok)]).
  destruct Hw as [Hw | [Hw | Hw]].
  - eexists Woken, _. split; [by right; right; left |]. cbn. by rewrite Hp, Hw.
  - destruct (sk_callbacks s) as [| n] eqn:Hn; [lia |]. eexists RunCallback, _. split; [by right; left |]. cbn. by rewrite Hn.
  - destruct (sk_unsignalled s) as [| n] eqn:Hn; [lia |]. eexists EmitSignal, _. split; [by left |]. cbn. unfold emit_signal. by rewrite Hn.
Qed.

(** When [stop] returns, everything emitted has been taken, and written where the disk allowed. *)
Lemma stop_flushes s s' :
  rtc sink_steps new_sink s → sink_step Empty s = Some s' → sk_phase s' = SinkStopped → sk_taken s' = sk_emitted s'.
Proof using attempts_ok.
  intros Hok%reached_sink_ok. cbn. destruct (sk_phase s) eqn:Hp; try done. destruct (sk_queue s) eqn:Hq; [| done]. intros [= <-] _.
  pose proof (so_fifo _ Hok) as Hf. rewrite Hq, app_nil_r in Hf. by destruct st; cbn; [destruct (sk_running s) | |].
Qed.
End SinkSpec.

(** ** Concrete runs *)

Lemma prediction_bounded_witness :
  ∃ p pred, sample default_predictor 20 (feed default_predictor [10; 60; 0]%Q new_predictor) = (p, pred) ∧
    (0 <= ip_remaining_s pred)%Q ∧ (ip_remaining_s pred == 20)%Q.
Proof.
  destruct (sample default_predictor 20 (feed default_predictor [10; 60; 0]%Q new_predictor)) as [p pred] eqn:Hs.
  assert (Hall : ∀ r, r ∈ [10; 60; 0]%Q → (r <= 60)%Q) by (apply Forall_forall; repeat constructor; discriminate).
  assert (Hsm : (0 <= pc_smoothing default_predictor)%Q ∧ (pc_smoothing default_predictor <= 1)%Q) by (split; discriminate).
  assert (Hep : (0 <= pc_reset_epsilon_s default_predictor)%Q) by discriminate.
  destruct (prediction_bounded default_predictor Hsm Hep 60 [10; 60; 0]%Q 20 p pred ltac:(discriminate) Hall ltac:(discriminate) Hs) as (H0 & _).
  exists p, pred. split; [reflexivity |]. split; [exact H0 |]. apply (f_equal snd) in Hs. cbn [snd] in Hs. rewrite <- Hs. vm_compute. reflexivity.
Defined.

(** The coordinator is down for the first beat, then rejects the token. *)
Definition rejecting_env (h : history) (a : Await) : Outcome :=
  match a with
  | Send _ => if (length h <? 2)%nat then Answered 503 [] else Answered 401 []
  | Sleep _ | Busy _ => TransportFailed
  end.

Definition quiet_sources (h : history) : option Sources := Some {|
  so_sent_at := 0; so_state := IDLE; so_seconds_since_input := 0; so_cpu_percent := 0; so_mem_available_mb := 0; so_load_avg := None;
  so_temp_cpu_c := None; so_gpus := []; so_replicas := []; so_serving_paused := false; so_prediction := None |}.

Definition beating : Beating := {|
  bt_world := demo_world; bt_seq := 0; bt_running := true; bt_desired := []; bt_auth_errors := [] |}.

Lemma heartbeat_persists_witness :
  ∃ b, beats rejecting_env demo_clock demo_retry (λ _, None) "a" 1 5 quiet_sources 9 beating = (b, inr false) ∧
    bt_running b = false ∧ bt_auth_errors b = [CoordinatorAuthError 401].
Proof.
  destruct (beats rejecting_env demo_clock demo_retry (λ _, None) "a" 1 5 quiet_sources 9 beating) as [b r] eqn:Hb.
  destruct (heartbeat_persists rejecting_env demo_clock demo_retry (λ _, None) "a" 1 5 quiet_sources 9 beating b r eq_refl eq_refl Hb)
    as (k & new & _ & _ & _ & _ & _ & Hr).
  pose proof (f_equal (λ p, (p.2, bt_auth_errors p.1)) Hb) as Hx. cbn [fst snd] in Hx. vm_compute in Hx. injection Hx as Hr2 Ha.
  rewrite <- Hr2 in Hr |- *. exists b. split; [reflexivity |]. split; [exact (proj1 Hr) | exact (eq_sym Ha)].
Defined.

Definition returned : AgentEvent := {| ev_agent_id := "a"; ev_kind := USER_RETURNED; ev_at := 0; ev_detail := ∅ |}.

(** An event emitted while the sender waits, before its signal. *)
Definition sink_labels : list SinkLabel :=
  [EmitPut returned; EmitSignal; Start; Woken; Take true; PushFailed; PushOk; Empty; EmitPut returned].

Fixpoint sink_run (cfg : EventSinkConfig) (ls : list SinkLabel) (s : Sink) : option Sink :=
  match ls with
  | [] => Some s
  | l :: ls => s ← sink_step cfg l s; sink_run cfg ls s
  end.

Lemma sink_run_reached cfg ls s s' : sink_run cfg ls s = Some s' → rtc (sink_steps cfg) s s'.
Proof.
  revert s; induction ls as [| l ls IH]; intros s; cbn; [by intros [= <-] |]. destruct (sink_step cfg l s) as [s1 |] eqn:Hl; [| done].
  intros Hr. eapply rtc_l; [by exists l | by apply IH].
Qed.

Definition demo_sink_config : EventSinkConfig := {| es_max_push_attempts := 3; es_backoff_base_s := 1 # 2 |}.
Definition demo_sunk : Sink := default new_sink (sink_run demo_sink_config sink_labels new_sink).

Lemma demo_sunk_reached : rtc (sink_steps demo_sink_config) new_sink demo_sunk.
Proof. apply (sink_run_reached _ sink_labels). vm_compute. reflexivity. Qed.

Lemma event_sink_loses_nothing_witness :
  sk_jsonl demo_sunk = [returned] ∧ sk_pushes demo_sunk = [(0, 1); (0, 2)]%nat ∧
  ∃ l s', l ∈ [EmitSignal; RunCallback; Woken] ∧ sink_step demo_sink_config l demo_sunk = Some s'.
Proof.
  destruct (event_sink_loses_nothing demo_sink_config ltac:(cbn; lia) demo_sunk demo_sunk_reached) as (_ & _ & _ & _ & Hw).
  split; [vm_compute; reflexivity |]. split; [vm_compute; reflexivity |].
  apply Hw; [vm_compute; reflexivity | left; vm_compute; discriminate].
Defined.
