(* ===== verification/ModelFetch.v ===== *)
(** * Serving and fetching model files

    Models modelserve/blob.py and modelserve/router.py of the coordinator
    (src/packages/fallow-coordinator/src/fallow_coordinator) and modelcache/store.py,
    download.py and paths.py of the agent (src/packages/fallow-agent/src/fallow_agent):
    range requests over a stored file, and the agent's cache that resumes, verifies
    and publishes a download.  What the network does to an attempt is an argument. *)

From stdpp Require Import pretty.
From S2P Require Export Protocol Bytes Chunker.
From S2P Require Import RagIngestSpec.

(** ** The coordinator: parse_range and stream_file *)

Definition RANGE_PREFIX : string := "bytes=".
Definition BLOB_CHUNK : nat := N.to_nat 1048576.

Record ByteRange := { br_start : Z; br_end : Z }.

Definition br_length (r : ByteRange) : Z := (br_end r - br_start r + 1)%Z.

(** [s.partition(c)] of a text that has [c] *)
Fixpoint partition_at (c : ascii) (l : list ascii) : list ascii * list ascii :=
  match l with
  | [] => ([], [])
  | x :: l => if bool_decide (x = c) then ([], l) else let '(a, b) := partition_at c l in (x :: a, b)
  end.

Definition has_char (c : ascii) (l : list ascii) : bool := existsb (λ x, bool_decide (x = c)) l.

(** [_resolve_bounds]; [None] is its [ValueError]. *)
Definition resolve_bounds (start_text end_text : string) (size : Z) : option (Z * Z) :=
  if bool_decide (start_text = "") then
    suffix ← py_int end_text;
    if (suffix <=? 0)%Z then None else Some (Z.max 0 (size - suffix), size - 1)%Z
  else
    start ← py_int start_text;
    if bool_decide (end_text = "") then Some (start, size - 1)%Z
    else e ← py_int end_text; Some (start, e).

(** [parse_range]: [inl] is [RangeNotSatisfiable]. *)
Definition parse_range (header : option string) (size : Z) : unit + option ByteRange :=
  match header with
  | None => inr None
  | Some h =>
      if negb (String.prefix RANGE_PREFIX h) then inl tt
      else
        let spec := String.list_ascii_of_string (strip (String.substring 6 (String.length h - 6) h)) in
        if has_char ","%char spec || negb (has_char "-"%char spec) then inl tt
        else
          let '(s, e) := partition_at "-"%char spec in
          match resolve_bounds (strip (String.string_of_list_ascii s)) (strip (String.string_of_list_ascii e)) size with
          | None => inl tt
          | Some (start, e) =>
              if (start <? 0)%Z || (size <=? start)%Z || (e <? start)%Z then inl tt
              else inr (Some {| br_start := start; br_end := Z.min e (size - 1) |})
          end
  end.

(** [stream_file], the pieces it yields; [fuel] is at least their number. *)
Fixpoint stream_loop (fuel : nat) (chunk_size : nat) (rest : bytes) (remaining : nat) : list bytes :=
  match fuel with
  | O => []
  | S fuel =>
      if (remaining =? 0)%nat then []
      else
        let chunk := take (Nat.min chunk_size remaining) rest in
        match chunk with
        | [] => []
        | _ => chunk :: stream_loop fuel chunk_size (drop (length chunk) rest) (remaining - length chunk)
        end
  end.

Definition stream_file (file : bytes) (start length : Z) (chunk_size : nat) : list bytes :=
  stream_loop (Z.to_nat length) chunk_size (drop (Z.to_nat start) file) (Z.to_nat length).

(** [get_blob], for an authenticated agent: status and body; [file] is what the blob
    path holds. *)
Definition get_blob (record : option (bool * option bytes)) (range : option string) : Z * list bytes :=
  match record with
  | Some (true, Some file) =>
      let size := Z.of_nat (length file) in
      match parse_range range size with
      | inl _ => (416%Z, [])
      | inr None => (200%Z, stream_file file 0 size BLOB_CHUNK)
      | inr (Some r) => (206%Z, stream_file file (br_start r) (br_length r) BLOB_CHUNK)
      end
  | _ => (404%Z, [])
  end.

(** ** The agent: one attempt *)

(** The three files of a model: blob, partial download, verification marker. *)
Record Cache := { mc_blob : option bytes; mc_part : option bytes; mc_marker : option string }.

Definition empty_cache : Cache := {| mc_blob := None; mc_part := None; mc_marker := None |}.

Definition set_part (p : option bytes) (c : Cache) : Cache :=
  {| mc_blob := mc_blob c; mc_part := p; mc_marker := mc_marker c |}.

(** What becomes of a request: no response, or a response whose body ends after
    some chunks, completely or not. *)
Inductive Attempt :=
  | NoResponse
  | Response (status : Z) (chunks : list bytes) (complete : bool).

Record DownloadResult := { dr_sha256 : string; dr_size : Z }.

Inductive FetchError :=
  | TransportError
  | RetryableStatusError (status : Z)
  | ModelFetchError
  | ModelVerificationError.

(** The [Range] header of a resumed attempt. *)
Definition range_header (existing : Z) : option string :=
  if (existing =? 0)%Z then None else Some (RANGE_PREFIX +:+ pretty existing +:+ "-").

(** [_resolve_disposition]: append? *)
Definition resolve_disposition (status existing : Z) : option (bool * Z) :=
  if (status =? 206)%Z then Some (true, existing)
  else if (status =? 200)%Z then Some (false, 0%Z)
  else None.

Section Store.
  Context (sha256 : bytes → bytes).

(** [stream_to_part]: the digest of what the file now holds is taken as it is written. *)
Definition stream_to_part (respond : option string → Attempt) (c : Cache) : Cache * (FetchError + DownloadResult) :=
  let prefix := default [] (mc_part c) in
  let existing := Z.of_nat (length prefix) in
  match respond (range_header existing) with
  | NoResponse => (c, inl TransportError)
  | Response status chunks complete =>
      match resolve_disposition status existing with
      | None => (c, inl (RetryableStatusError status))
      | Some (append, total) =>
          let body := concat chunks in
          let hashed := (if append then prefix else []) ++ body in
          let c' := set_part (Some hashed) c in
          if complete then (c', inr {| dr_sha256 := hexdigest sha256 hashed; dr_size := total + Z.of_nat (length body) |})
          else (c', inl TransportError)
      end
  end.

(** [_fetch_with_retries], with [attempt] failures behind it and [more] retries ahead;
    the network's answer may differ at every attempt. *)
Fixpoint fetch_with_retries (more attempt : nat) (respond : nat → option string → Attempt) (c : Cache)
    : Cache * (FetchError + DownloadResult) :=
  match stream_to_part (respond attempt) c with
  | (c', inr result) => (c', inr result)
  | (c', inl _) =>
      match more with
      | O => (c', inl ModelFetchError)
      | S more => fetch_with_retries more (S attempt) respond c'
      end
  end.

(** [path_if_present]: the file a caller gets. *)
Definition path_if_present (m : ModelManifest) (c : Cache) : option bytes :=
  match mc_blob c with
  | None => None
  | Some b => if bool_decide (strip <$> mc_marker c = Some (mm_sha256 m)) then Some b else None
  end.

(** The two effects of publishing, in order. *)
Definition write_marker (m : ModelManifest) (c : Cache) : Cache :=
  {| mc_blob := mc_blob c; mc_part := mc_part c; mc_marker := Some (mm_sha256 m) |}.

Definition replace_blob (c : Cache) : Cache :=
  {| mc_blob := mc_part c; mc_part := None; mc_marker := mc_marker c |}.

(** [_verify_or_raise] *)
Definition verified (m : ModelManifest) (r : DownloadResult) : bool :=
  bool_decide (dr_sha256 r = mm_sha256 m) && (dr_size r =? mm_size_bytes m)%Z.

(** [_download_and_verify] *)
Definition download_and_verify (max_retries : nat) (m : ModelManifest) (respond : nat → option string → Attempt) (c : Cache)
    : Cache * (FetchError + bytes) :=
  match fetch_with_retries max_retries 0 respond c with
  | (c', inl e) => (c', inl e)
  | (c', inr result) =>
      if verified m result then
        let c'' := replace_blob (write_marker m c') in (c'', inr (default [] (mc_blob c'')))
      else (set_part None c', inl ModelVerificationError)
  end.

(** [ensure], under the model's lock *)
Definition ensure (max_retries : nat) (m : ModelManifest) (respond : nat → option string → Attempt) (c : Cache)
    : Cache * (FetchError + bytes) :=
  match path_if_present m c with
  | Some b => (c, inr b)
  | None => download_and_verify max_retries m respond c
  end.
End Store.

(** * What fetching a model promises

    The coordinator's range replies and the agent's resumed downloads fit together; a
    file the cache hands out has the digest of its manifest whatever the network does;
    and two states the code can be left in by a crash: a marker that vouches for an
    older file, and a complete partial download that is never accepted. *)

Notation chars := String.list_ascii_of_string.

(** ** Decimal numbers *)

Definition is_digit (c : ascii) : Prop := ∃ d, digit_value c = Some d.

Lemma pretty_char_digit (x : N) : (x < 10)%N → digit_value (pretty_N_char x) = Some (Z.of_N x).
Proof.
  intros Hx. assert (Hc : (x = 0 ∨ x = 1 ∨ x = 2 ∨ x = 3 ∨ x = 4 ∨ x = 5 ∨ x = 6 ∨ x = 7 ∨ x = 8 ∨ x = 9)%N) by lia.
  destruct_or! Hc; subst x; reflexivity.
Qed.

Lemma pretty_go_digits (x : N) (s : string) :
  ∃ ds, chars (pretty_N_go x s) = ds ++ chars s ∧ Forall is_digit ds ∧ ((0 < x)%N → ds ≠ []) ∧
    ∀ t acc, py_digits (ds ++ t) acc = py_digits t (acc * 10 ^ Z.of_nat (length ds) + Z.of_N x)%Z.
Proof.
  revert s; induction (N.lt_wf_0 x) as [x _ IH]; intros s. destruct (decide (x = 0%N)) as [-> | Hx].
  { exists []. rewrite pretty_N_go_0. split_and!; [done | by apply Forall_nil | lia |]. intros t acc. cbn. f_equal. lia. }
  rewrite pretty_N_go_step by lia. destruct (IH (x `div` 10)%N ltac:(apply N.div_lt; lia) (String (pretty_N_char (x `mod` 10)) s)) as (ds & Hds & HF & _ & Hv).
  pose proof (N.mod_lt x 10 ltac:(lia)) as Hm. pose proof (pretty_char_digit _ Hm) as Hd.
  exists (ds ++ [pretty_N_char (x `mod` 10)]). split_and!.
  - rewrite Hds, <- app_assoc. done.
  - apply Forall_app. split; [done |]. apply Forall_cons. split; [by eexists | by apply Forall_nil].
  - intros _. by destruct ds.
  - intros t acc. rewrite <- app_assoc, Hv. cbn [app py_digits]. rewrite Hd. f_equal. rewrite length_app. cbn [length].
    rewrite Nat2Z.inj_add, Z.pow_add_r by lia. change (10 ^ Z.of_nat 1)%Z with 10%Z. rewrite (N.div_mod x 10) at 3 by lia. lia.
Qed.

Lemma pretty_digits (n : Z) :
  (0 ≤ n)%Z → ∃ d ds, chars (pretty n) = d :: ds ∧ Forall is_digit (d :: ds) ∧ py_digits (d :: ds) 0 = Some n.
Proof.
  intros Hn. destruct n as [| p | p]; [| | lia].
  - exists "0"%char, []. split_and!; [done | | done]. apply Forall_cons. split; [by exists 0%Z | by apply Forall_nil].
  - assert (Hp : pretty (Z.pos p) = pretty_N_go (N.pos p) "") by done. rewrite Hp.
    destruct (pretty_go_digits (N.pos p) "") as (ds & Hds & HF & Hne & Hv). rewrite app_nil_r in Hds.
    destruct ds as [| d ds]; [by destruct Hne |]. exists d, ds. split_and!; [done | done |].
    specialize (Hv [] 0%Z). rewrite app_nil_r in Hv. by rewrite Hv.
Qed.

(** ** Whitespace *)

Lemma lstrip_id l : Forall (λ c, is_py_space c = false) l → lstrip l = l.
Proof. intros HF. destruct l as [| c l]; [done |]. apply Forall_cons in HF as [Hc _]. cbn. by rewrite Hc. Qed.

Lemma strip_id l : Forall (λ c, is_py_space c = false) l → strip (String.string_of_list_ascii l) = String.string_of_list_ascii l.
Proof.
  intros HF. unfold strip. rewrite String.list_ascii_of_string_of_list_ascii, (lstrip_id l HF), lstrip_id by (by apply Forall_reverse).
  by rewrite reverse_involutive.
Qed.

Lemma digit_not_space c : is_digit c → is_py_space c = false.
Proof.
  intros [d Hd]. unfold digit_value in Hd. unfold is_py_space. destruct (_ && _) eqn:H; [| done]. clear Hd.
  apply not_true_is_false. rewrite !orb_true_iff, !andb_true_iff, !N.leb_le, !N.eqb_eq. apply andb_true_iff in H as [H1 H2].
  apply Z.leb_le in H1, H2. lia.
Qed.

Lemma hexdigest_unspaced sha256 b : strip (hexdigest sha256 b) = hexdigest sha256 b.
Proof.
  unfold hexdigest, to_hex. apply strip_id. generalize (sha256 b). intros bs. induction bs as [| x bs IH]; [by apply Forall_nil |].
  change ((x :: bs) ≫= hex_byte) with (hex_byte x ++ (bs ≫= hex_byte)). apply Forall_app. split; [| done].
  destruct x; repeat (apply Forall_cons; split; [reflexivity |]); by apply Forall_nil.
Qed.

(** ** The range an agent asks for *)

Lemma partition_at_app c (a b : list ascii) : c ∉ a → partition_at c (a ++ c :: b) = (a, b).
Proof.
  induction a as [| x a IH]; intros Hc; cbn; [by rewrite bool_decide_eq_true_2 |]. rewrite bool_decide_eq_false_2 by (intros ->; apply Hc; by left).
  rewrite IH; [done |]. intros Hin. apply Hc. by right.
Qed.

Lemma has_char_elem c l : has_char c l = true ↔ c ∈ l.
Proof.
  unfold has_char. rewrite existsb_exists. setoid_rewrite bool_decide_eq_true. split.
  - intros (x & Hx & ->). by apply list_elem_of_In.
  - intros Hx. exists c. split; [by apply list_elem_of_In | done].
Qed.

Lemma digits_without c ds : ~ is_digit c → Forall is_digit ds → c ∉ ds.
Proof. intros Hc HF Hin. rewrite Forall_forall in HF. by apply Hc, HF. Qed.

Lemma not_digit c : digit_value c = None → ~ is_digit c.
Proof. by intros H [d Hd]; congruence. Qed.

Lemma list_ascii_app s t : chars (s +:+ t) = chars s ++ chars t.
Proof.
  induction s as [| c s IH]; [done |]. change (String c s +:+ t) with (String c (s +:+ t)). cbn [String.list_ascii_of_string]. by rewrite IH.
Qed.

Lemma prefix_app s t : String.prefix s (s +:+ t) = true.
Proof.
  induction s as [| c s IH]; [by destruct t |]. change (String c s +:+ t) with (String c (s +:+ t)). cbn [String.prefix].
  by destruct (Ascii.ascii_dec c c).
Qed.

Lemma substring_app t : String.substring 6 (String.length (RANGE_PREFIX +:+ t) - 6) (RANGE_PREFIX +:+ t) = t.
Proof.
  assert (Hs : ∀ t, String.substring 0 (String.length t) t = t) by (intros u; induction u as [| c u IH]; cbn; [done | by rewrite IH]).
  change (String.substring 0 (String.length t - 0) t = t). by rewrite Nat.sub_0_r.
Qed.

(** [f"bytes={n}-"], read by the coordinator. *)
Lemma parse_range_resume n size :
  (0 ≤ n)%Z →
  parse_range (Some (RANGE_PREFIX +:+ pretty n +:+ "-")) size =
    if (size <=? n)%Z then inl tt else inr (Some {| br_start := n; br_end := size - 1 |}).
Proof.
  intros Hn. destruct (pretty_digits n Hn) as (d & ds & Hp & HF & Hv).
  assert (Hs : chars (strip (pretty n +:+ "-")) = (d :: ds) ++ ["-"%char]).
  { rewrite <- (String.string_of_list_ascii_of_string (pretty n +:+ "-")), list_ascii_app, Hp, strip_id; [by rewrite String.list_ascii_of_string_of_list_ascii |].
    apply Forall_app. split; [eapply Forall_impl; [exact HF | apply digit_not_space] |]. apply Forall_cons. split; [done | by apply Forall_nil]. }
  assert (Hd : ∀ c, digit_value c = None → c ∉ d :: ds) by (intros c Hc; apply digits_without; [by apply not_digit | done]).
  unfold parse_range. rewrite prefix_app, substring_app. cbn [negb]. rewrite Hs.
  assert (has_char ","%char ((d :: ds) ++ ["-"%char]) = false) as ->.
  { apply not_true_is_false. rewrite has_char_elem, elem_of_app, list_elem_of_singleton. intros [Hc | Hc]; [by apply Hd in Hc | done]. }
  assert (has_char "-"%char ((d :: ds) ++ ["-"%char]) = true) as -> by (apply has_char_elem, elem_of_app; right; by left).
  cbn [orb negb]. rewrite (partition_at_app "-"%char (d :: ds) []) by (by apply Hd).
  assert (Hst : Forall (λ c, is_py_space c = false) (d :: ds)) by (eapply Forall_impl; [exact HF | apply digit_not_space]).
  rewrite strip_id by done. unfold resolve_bounds. rewrite bool_decide_eq_false_2 by done.
  assert (Hint : py_int (String.string_of_list_ascii (d :: ds)) = Some n).
  { unfold py_int. rewrite strip_id, String.list_ascii_of_string_of_list_ascii by done.
    rewrite !bool_decide_eq_false_2 by (intros He; apply (Hd d); [by rewrite He | by left]).
    unfold py_unsigned. apply Forall_cons in HF as [[v Hdv] _]. cbn in Hv. rewrite Hdv in *. cbn. by rewrite <- Hv. }
  rewrite Hint. cbn -[Z.leb Z.ltb]. rewrite bool_decide_eq_true_2 by done. assert ((n <? 0)%Z = false) as -> by lia. cbn [orb].
  destruct (size <=? n)%Z eqn:Hsz; [done |]. cbn [orb]. assert ((size - 1 <? n)%Z = false) as -> by lia. by rewrite Z.min_id.
Qed.

(** ** What the coordinator sends *)

Lemma stream_loop_concat fuel n rest remaining :
  (0 < n)%nat → (remaining ≤ fuel)%nat → concat (stream_loop fuel n rest remaining) = take remaining rest.
Proof.
  intros Hn. revert rest remaining; induction fuel as [| fuel IH]; intros rest remaining Hf; cbn; [by replace remaining with 0%nat by lia |].
  destruct (Nat.eqb_spec remaining 0) as [-> | Hr]; [done |]. destruct (take (Nat.min n remaining) rest) as [| x chunk] eqn:Ht.
  - destruct rest as [| y rest]; [by rewrite take_nil |]. destruct (Nat.min n remaining) eqn:Hm; [lia | done].
  - assert (Hl : length (x :: chunk) = Nat.min (Nat.min n remaining) (length rest)) by (by rewrite <- Ht, length_take).
    assert (Hpos : (0 < length (x :: chunk))%nat) by (cbn; lia). cbn [concat]. rewrite IH by lia. rewrite <- Ht at 1.
    rewrite Hl, <- (firstn_skipn (Nat.min (Nat.min n remaining) (length rest)) (take remaining rest)).
    rewrite skipn_firstn_comm, take_take. f_equal. destruct (decide (length rest ≤ Nat.min n remaining)%nat) as [Hle | Hgt].
    + rewrite !take_ge by lia. done.
    + by replace (Nat.min (Nat.min (Nat.min n remaining) (length rest)) remaining) with (Nat.min n remaining) by lia.
Qed.

Lemma stream_file_concat file start len :
  (0 ≤ len)%Z → concat (stream_file file start len BLOB_CHUNK) = take (Z.to_nat len) (drop (Z.to_nat start) file).
Proof. intros Hl. unfold stream_file. apply stream_loop_concat; [| done]. unfold BLOB_CHUNK. lia. Qed.

(** What an agent that holds the first [k] bytes is sent. *)
Lemma get_blob_resume file k :
  (k < length file)%nat →
  ∃ chunks, get_blob (Some (true, Some file)) (range_header (Z.of_nat k)) = (if (k =? 0)%nat then 200%Z else 206%Z, chunks) ∧
    concat chunks = drop k file.
Proof.
  intros Hk. unfold get_blob, range_header. destruct k as [| k].
  - cbn [Z.of_nat Z.eqb parse_range Nat.eqb]. eexists. split; [done |]. rewrite stream_file_concat by lia. cbn [Z.to_nat]. rewrite drop_0, take_ge; [done | lia].
  - assert ((Z.of_nat (S k) =? 0)%Z = false) as -> by done. rewrite parse_range_resume by lia.
    assert ((Z.of_nat (length file) <=? Z.of_nat (S k))%Z = false) as -> by (apply Z.leb_gt; lia). eexists. split; [done |].
    unfold br_length. cbn [br_start br_end]. rewrite stream_file_concat by lia. rewrite Nat2Z.id, take_ge; [done |]. rewrite length_drop. lia.
Qed.

(** An agent that already holds the whole file, or more, is refused. *)
Lemma get_blob_full file k :
  (0 < k)%nat → (length file ≤ k)%nat → get_blob (Some (true, Some file)) (range_header (Z.of_nat k)) = (416%Z, []).
Proof.
  intros H0 Hk. unfold get_blob, range_header. assert ((Z.of_nat k =? 0)%Z = false) as -> by (apply Z.eqb_neq; lia). rewrite parse_range_resume by lia.
  by assert ((Z.of_nat (length file) <=? Z.of_nat k)%Z = true) as -> by (apply Z.leb_le; lia).
Qed.

(** ** The agent's cache *)

Section Cache.
  Context (sha256 : bytes → bytes).
  Notation hexdigest := (hexdigest sha256).
  Notation stream_to_part := (stream_to_part sha256).
  Notation fetch_with_retries := (fetch_with_retries sha256).
  Notation ensure := (ensure sha256).

(** A marker names the digest of its blob. *)
Definition cache_sound (c : Cache) : Prop :=
  ∀ t b, mc_marker c = Some t → mc_blob c = Some b → t = hexdigest b.

(** Only the partial file changes until a download is verified. *)
Lemma stream_to_part_cases respond c c' r :
  stream_to_part respond c = (c', r) →
  mc_blob c' = mc_blob c ∧ mc_marker c' = mc_marker c ∧
  ∀ res, r = inr res → ∃ body, mc_part c' = Some body ∧ dr_sha256 res = hexdigest body ∧ dr_size res = Z.of_nat (length body).
Proof.
  unfold ModelFetch.stream_to_part. destruct (respond _) as [| status chunks complete]; [by intros [= <- <-] |].
  unfold resolve_disposition. destruct (status =? 206)%Z; [| destruct (status =? 200)%Z; [| by intros [= <- <-]]];
    (destruct complete; intros [= <- <-]; split_and!; try done; intros res [= <-]; eexists; split_and!; [done | done |]);
    cbn; rewrite ?length_app; cbn; lia.
Qed.

Lemma fetch_with_retries_cases more attempt respond c c' r :
  fetch_with_retries more attempt respond c = (c', r) →
  mc_blob c' = mc_blob c ∧ mc_marker c' = mc_marker c ∧
  ∀ res, r = inr res → ∃ body, mc_part c' = Some body ∧ dr_sha256 res = hexdigest body ∧ dr_size res = Z.of_nat (length body).
Proof.
  revert attempt c; induction more as [| more IH]; intros attempt c; cbn [ModelFetch.fetch_with_retries];
    (destruct (stream_to_part (respond attempt) c) as [c1 [e | res]] eqn:Hs; apply stream_to_part_cases in Hs as (Hb & Hm & Hr);
     [| intros [= <- <-]; split_and!; [done | done | intros ? [= <-]; by apply Hr]]).
  - intros [= <- <-]. by split_and!.
  - intros Hf. apply IH in Hf as (Hb' & Hm' & Hr'). split_and!; [congruence | congruence | done].
Qed.

Lemma ensure_sound max_retries m respond c c' r :
  cache_sound c → ensure max_retries m respond c = (c', r) →
  cache_sound c' ∧
  match r with
  | inr b => hexdigest b = mm_sha256 m ∧ path_if_present m c' = Some b
  | inl _ => mc_blob c' = mc_blob c ∧ mc_marker c' = mc_marker c
  end.
Proof.
  intros Hok. unfold ModelFetch.ensure. destruct (path_if_present m c) as [b |] eqn:Hp.
  { intros [= <- <-]. split_and!; [done | | done]. unfold path_if_present in Hp. destruct (mc_blob c) as [b' |] eqn:Hb; [| done].
    case_bool_decide as Ht; [| done]. injection Hp as <-. destruct (mc_marker c) as [t |] eqn:Hmk; [| done]. cbn in Ht. injection Ht as <-.
    rewrite (Hok t b' Hmk Hb). by rewrite hexdigest_unspaced. }
  unfold download_and_verify. destruct (fetch_with_retries max_retries 0 respond c) as [c1 [e | res]] eqn:Hf;
    apply fetch_with_retries_cases in Hf as (Hb & Hm & Hr).
  { intros [= <- <-]. split; [| done]. intros t b Ht Hbb. apply Hok; congruence. }
  destruct (verified m res) eqn:Hv.
  2: { intros [= <- <-]. cbn. split; [| done]. intros t b Ht Hbb. cbn in *. apply Hok; congruence. }
  destruct (Hr res eq_refl) as (body & Hbody & Hsha & Hsize). intros [= <- <-]. unfold verified in Hv. apply andb_true_iff in Hv as [Hv _].
  apply bool_decide_eq_true in Hv. cbn. rewrite Hbody. cbn. split_and!; [| congruence |].
  - intros t b Ht Hbb. cbn in *. congruence.
  - unfold path_if_present. cbn. rewrite Hbody, bool_decide_eq_true_2; [done |]. f_equal. rewrite <- Hv, Hsha. apply hexdigest_unspaced.
Qed.

(** Whatever the network does (fail, lie about ranges, break off, send other bytes),
    and whatever partial download is found, a model file the cache hands out has the SHA-256
    digest its manifest names, is found again without a download, and a failed fetch
    leaves the published file and its marker as they were. *)
Theorem model_cache_verified max_retries m respond c c' r :
  cache_sound c → ensure max_retries m respond c = (c', r) →
  cache_sound c' ∧
  match r with
  | inr b => hexdigest b = mm_sha256 m ∧ path_if_present m c' = Some b
  | inl _ => mc_blob c' = mc_blob c ∧ mc_marker c' = mc_marker c
  end.
Proof. apply ensure_sound. Qed.

(** The order in which a download is published has a window: once the new marker
    is written and before the file is replaced, an older published file passes for the new
    model.  A crash there leaves the cache in that state, and the file is handed out
    although its digest is not the manifest's. *)
Theorem crash_exposes_stale_blob m c old new :
  cache_sound c → mc_blob c = Some old → mm_sha256 m = hexdigest new → hexdigest old ≠ hexdigest new →
  path_if_present m (write_marker m c) = Some old ∧ hexdigest old ≠ mm_sha256 m ∧
  ∀ max_retries respond, ensure max_retries m respond (write_marker m c) = (write_marker m c, inr old).
Proof.
  intros Hok Hb Hm Hne. assert (Hp : path_if_present m (write_marker m c) = Some old).
  { unfold path_if_present. cbn. rewrite Hb, bool_decide_eq_true_2; [done |]. rewrite Hm. f_equal. apply hexdigest_unspaced. }
  split_and!; [done | congruence |]. intros max_retries respond. unfold ModelFetch.ensure. by rewrite Hp.
Qed.

(** ** Against the coordinator *)

(** A network that delivers a prefix of what the coordinator sends. *)
Definition honest (file : bytes) (header : option string) (a : Attempt) : Prop :=
  match a with
  | NoResponse => True
  | Response status chunks complete =>
      ∃ sent, get_blob (Some (true, Some file)) header = (status, sent) ∧ concat chunks `prefix_of` concat sent ∧
        (complete = true → concat chunks = concat sent)
  end.

(** A broken attempt that lost at least a byte. *)
Definition lost (file : bytes) (header : option string) (a : Attempt) : Prop :=
  match a with
  | Response _ chunks false => ∀ status sent, get_blob (Some (true, Some file)) header = (status, sent) → concat chunks ≠ concat sent
  | _ => True
  end.

Definition completes (a : Attempt) : Prop := match a with Response _ _ complete => complete = true | NoResponse => False end.

Lemma attempt_progress file respond c k c' r :
  default [] (mc_part c) = take k file → (k < length file)%nat →
  (∀ h, honest file h (respond h) ∧ lost file h (respond h)) → stream_to_part respond c = (c', r) →
  (r = inr {| dr_sha256 := hexdigest file; dr_size := Z.of_nat (length file) |} ∧ mc_part c' = Some file) ∨
  ((∃ h, ~ completes (respond h)) ∧ (∃ e, r = inl e) ∧ ∃ k', default [] (mc_part c') = take k' file ∧ (k' < length file)%nat).
Proof.
  intros Hp Hk Hnet. unfold ModelFetch.stream_to_part. rewrite Hp, length_take, Nat.min_l by lia.
  destruct (get_blob_resume file k Hk) as (sent & Hget & Hcat).
  destruct (Hnet (range_header (Z.of_nat k))) as [Hh Hl]. destruct (respond (range_header (Z.of_nat k))) as [| status chunks complete] eqn:Hr.
  { intros [= <- <-]. right. split_and!; [exists (range_header (Z.of_nat k)); by rewrite Hr; intros Hc | eauto |]. by exists k. }
  destruct Hh as (sent' & Hget' & Hpre & Hfull). rewrite Hget in Hget'. injection Hget' as <- <-.
  assert (Hdisp : resolve_disposition (if (k =? 0)%nat then 200%Z else 206%Z) (Z.of_nat k) = Some (negb (k =? 0)%nat, Z.of_nat k))
    by (by destruct k). rewrite Hdisp.
  assert (Hbody : (if negb (k =? 0)%nat then take k file else []) ++ concat chunks = take k file ++ concat chunks) by (by destruct k).
  rewrite Hbody. destruct complete; intros [= <- <-].
  - left. rewrite Hfull, Hcat, take_drop by done. split; [| done]. do 2 f_equal. rewrite length_drop. lia.
  - right. split_and!; [exists (range_header (Z.of_nat k)); by rewrite Hr | eauto |]. specialize (Hl _ _ Hget). rewrite Hcat in Hpre, Hl.
    destruct Hpre as [rest Hrest]. exists (k + length (concat chunks))%nat. cbn. split.
    + rewrite <- (take_drop k file) at 2. rewrite Hrest, take_app_ge by (rewrite length_take; lia).
      rewrite length_take, Nat.min_l, Nat.add_comm, Nat.add_sub by lia. by rewrite take_app_length.
    + apply (f_equal length) in Hrest as Hlen. rewrite length_drop, length_app in Hlen. destruct rest as [| x rest]; [| cbn in Hlen; lia].
      rewrite app_nil_r in Hrest. congruence.
Qed.

Lemma fetch_completes file respond more attempt c k j :
  default [] (mc_part c) = take k file → (k < length file)%nat →
  (∀ i h, honest file h (respond i h) ∧ lost file h (respond i h)) →
  (attempt ≤ j ≤ attempt + more)%nat → (∀ h, completes (respond j h)) →
  ∃ c', fetch_with_retries more attempt respond c = (c', inr {| dr_sha256 := hexdigest file; dr_size := Z.of_nat (length file) |}) ∧
    mc_part c' = Some file ∧ mc_blob c' = mc_blob c ∧ mc_marker c' = mc_marker c.
Proof.
  intros Hp Hk Hnet Hj Hc. revert attempt c k Hp Hk Hj; induction more as [| more IH]; intros attempt c k Hp Hk Hj; cbn [ModelFetch.fetch_with_retries];
    (destruct (stream_to_part (respond attempt) c) as [c1 r] eqn:Hs; pose proof (stream_to_part_cases _ _ _ _ Hs) as (Hb & Hm & _);
     apply (attempt_progress file _ _ k) in Hs as [[-> Hfile] | ([h Hno] & [e ->] & k' & Hp' & Hk')]; [by exists c1 | | done | done | by apply Hnet]).
  - assert (attempt = j) as -> by lia. by destruct (Hno (Hc h)).
  - destruct (decide (attempt = j)) as [-> | Hne]; [by destruct (Hno (Hc h)) |].
    destruct (IH (S attempt) c1 k' Hp' Hk' ltac:(lia)) as (c' & Hf & Hfile & Hb' & Hm'). exists c'. split_and!; congruence.
Qed.

(** C15: An interrupted download makes progress against the coordinator's range replies:
    from any strict prefix of the file, through attempts that break off or get no
    response, one attempt within the retry budget that runs to its end publishes the
    file, whole and verified. *)
Theorem resume_completes max_retries m file respond c k j :
  default [] (mc_part c) = take k file → (k < length file)%nat → path_if_present m c = None →
  mm_sha256 m = hexdigest file → mm_size_bytes m = Z.of_nat (length file) →
  (∀ i h, honest file h (respond i h) ∧ lost file h (respond i h)) → (j ≤ max_retries)%nat → (∀ h, completes (respond j h)) →
  ∃ c', ensure max_retries m respond c = (c', inr file) ∧ mc_blob c' = Some file ∧ mc_marker c' = Some (mm_sha256 m) ∧ mc_part c' = None.
Proof.
  intros Hp Hk Hnone Hsha Hsize Hnet Hj Hc. unfold ModelFetch.ensure. rewrite Hnone. unfold download_and_verify.
  destruct (fetch_completes file respond max_retries 0 c k j Hp Hk Hnet ltac:(lia) Hc) as (c' & -> & Hfile & _ & _).
  unfold verified. cbn [dr_sha256 dr_size]. rewrite Hsha, Hsize, Z.eqb_refl, bool_decide_eq_true_2 by done. cbn [andb].
  eexists. cbn. rewrite Hfile. split; [reflexivity |]. cbn. rewrite Hfile, Hsha. done.
Qed.

(** A partial download that is complete but unpublished (the process died between
    the last byte and the rename, or the rename failed) is never accepted: every
    resumed request asks for the range after its last byte, the coordinator answers 416,
    and the fetch fails with the cache unchanged, now and every time it is tried again. *)
Theorem full_part_wedges max_retries m file respond c :
  mc_part c = Some file → file ≠ [] → path_if_present m c = None → (∀ i h, honest file h (respond i h)) →
  ensure max_retries m respond c = (c, inl ModelFetchError).
Proof.
  intros Hp Hne Hnone Hnet. assert (Hst : ∀ i, ∃ e, stream_to_part (respond i) c = (c, inl e)).
  { intros i. unfold ModelFetch.stream_to_part. rewrite Hp. cbn [default]. specialize (Hnet i (range_header (Z.of_nat (length file)))).
    destruct (respond i _) as [| status chunks complete]; [by eexists |]. destruct Hnet as (sent & Hget & _).
    rewrite get_blob_full in Hget by (destruct file; [done | cbn; lia]). injection Hget as <- _. by eexists. }
  unfold ModelFetch.ensure. rewrite Hnone. unfold download_and_verify.
  assert (Hf : ∀ more i, fetch_with_retries more i respond c = (c, inl ModelFetchError)).
  { induction more as [| more IH]; intros i; cbn [ModelFetch.fetch_with_retries]; destruct (Hst i) as [e ->]; [done | apply IH]. }
  by rewrite Hf.
Qed.
End Cache.

(** ** A concrete model *)

Definition tiny_file : bytes := [Byte.x01; Byte.x02; Byte.x03].
Definition tiny_manifest : ModelManifest := {|
  mm_model_id := "m"; mm_family := "f"; mm_quant := "q"; mm_worker_kind := CHAT; mm_file_name := "m.gguf";
  mm_sha256 := hexdigest pad32 tiny_file; mm_size_bytes := 3; mm_min_ram_mb := 0; mm_min_vram_mb := 0; mm_default_args := [];
  mm_chat_template_hint := None; mm_license := None; mm_source_url := None |}.

(** The coordinator, over a network that never breaks. *)
Definition direct (file : bytes) (i : nat) (header : option string) : Attempt :=
  let '(status, chunks) := get_blob (Some (true, Some file)) header in Response status chunks true.

Lemma direct_honest file i h : honest file h (direct file i h) ∧ lost file h (direct file i h).
Proof.
  unfold direct. destruct (get_blob _ h) as [status sent] eqn:Hg. split; [| done]. by exists sent.
Qed.

Definition begun : Cache := {| mc_blob := None; mc_part := Some [Byte.x01]; mc_marker := None |}.

Lemma direct_completes file i h : completes (direct file i h).
Proof. unfold direct. by destruct (get_blob _ h). Qed.

Lemma resume_completes_witness :
  ∃ c', ensure pad32 0 tiny_manifest (direct tiny_file) begun = (c', inr tiny_file) ∧ mc_blob c' = Some tiny_file.
Proof.
  destruct (resume_completes pad32 0 tiny_manifest tiny_file (direct tiny_file) begun 1 0 eq_refl ltac:(cbn; lia) eq_refl eq_refl eq_refl
    (λ i h, direct_honest tiny_file i h) ltac:(lia) (λ h, direct_completes tiny_file 0 h)) as (c' & He & Hb & _).
  exists c'. split; [exact He | exact Hb].
Defined.

Definition unpublished : Cache := {| mc_blob := None; mc_part := Some tiny_file; mc_marker := None |}.

Lemma full_part_wedges_witness : ensure pad32 3 tiny_manifest (direct tiny_file) unpublished = (unpublished, inl ModelFetchError).
Proof.
  exact (full_part_wedges pad32 3 tiny_manifest tiny_file (direct tiny_file) unpublished eq_refl ltac:(discriminate) eq_refl
    (λ i h, proj1 (direct_honest tiny_file i h))).
Defined.

Lemma model_cache_verified_witness :
  ∃ c', ensure pad32 0 tiny_manifest (direct tiny_file) empty_cache = (c', inr tiny_file) ∧ path_if_present tiny_manifest c' = Some tiny_file.
Proof.
  destruct (ensure pad32 0 tiny_manifest (direct tiny_file) empty_cache) as [c' r] eqn:He.
  assert (Hok : cache_sound pad32 empty_cache) by (intros t b Ht Hb; discriminate).
  pose proof (model_cache_verified pad32 0 tiny_manifest (direct tiny_file) empty_cache c' r Hok He) as [_ Hr].
  assert (Hx : r = inr tiny_file) by (apply (f_equal snd) in He; cbn [snd] in He; rewrite <- He; vm_compute; reflexivity).
  subst r. exists c'. split; [reflexivity | exact (proj2 Hr)].
Defined.

Lemma crash_exposes_stale_blob_witness :
  path_if_present tiny_manifest (write_marker tiny_manifest {| mc_blob := Some [Byte.x09]; mc_part := Some tiny_file; mc_marker := None |})
    = Some [Byte.x09].
Proof.
  refine (proj1 (crash_exposes_stale_blob pad32 tiny_manifest {| mc_blob := Some [Byte.x09]; mc_part := Some tiny_file; mc_marker := None |}
    [Byte.x09] tiny_file _ eq_refl eq_refl _)); [intros t b Ht; discriminate Ht | vm_compute; discriminate].
Defined.
