(* ===== verification/JsonText.v ===== *)
(** * JSON text

    [json.loads] and the compact [json.dumps] of Python's standard library, on text whose code points are below
    256, and the round trip: what [dumps] writes of a value without floats, [loads] reads back. *)

From stdpp Require Import pretty.
From S2P Require Export GatewayBody.
From S2P Require Export ModelFetch.

(** ** Writing *)

Section Dumps.

(** [sep.join] on characters *)
Fixpoint join_chars (sep : list ascii) (l : list (list ascii)) : list ascii :=
  match l with [] => [] | [x] => x | x :: l => x ++ sep ++ join_chars sep l end.

Definition dump_string (s : string) : list ascii :=
  "034"%char :: (String.list_ascii_of_string s ≫= json_char) ++ ["034"%char].

(** [json.dumps(v, separators=(",", ":"))] of a value without floats *)
Fixpoint dumps (v : Json) : list ascii :=
  match v with
  | JNull => String.list_ascii_of_string "null"
  | JBool true => String.list_ascii_of_string "true"
  | JBool false => String.list_ascii_of_string "false"
  | JInt z => String.list_ascii_of_string (pretty z)
  | JFloat _ => []
  | JStr s => dump_string s
  | JArr l => "["%char :: join_chars [","%char] (dumps <$> l) ++ ["]"%char]
  | JObj fields => "{"%char :: join_chars [","%char] ((λ p : string * Json, dump_string p.1 ++ ":"%char :: dumps p.2) <$> fields) ++ ["}"%char]
  end.
End Dumps.

(** ** Reading *)

Definition is_ws (c : ascii) : bool := bool_decide (c ∈ [" "; "009"; "010"; "013"]%char).

Fixpoint skip_ws (l : list ascii) : list ascii :=
  match l with c :: rest => if is_ws c then skip_ws rest else l | [] => [] end.

(** The code point of four hexadecimal digits *)
Definition hex4 (a b c d : ascii) : option N :=
  x ← hex_value a; y ← hex_value b; z ← hex_value c; w ← hex_value d; Some (((x * 16 + y) * 16 + z) * 16 + w)%N.

(** [scanstring], after the opening quote; control characters are refused *)
Fixpoint scan_string (fuel : nat) (l : list ascii) : option (list ascii * list ascii) :=
  match fuel with
  | O => None
  | S fuel =>
      match l with
      | [] => None
      | c :: l =>
          if bool_decide (c = "034"%char) then Some ([], l)
          else if (Ascii.N_of_ascii c <? 32)%N then None
          else if negb (bool_decide (c = "\"%char)) then prod_map (cons c) id <$> scan_string fuel l
          else
            match l with
            | "u"%char :: h1 :: h2 :: h3 :: h4 :: l =>
                n ← hex4 h1 h2 h3 h4;
                if (n <? 256)%N then prod_map (cons (Ascii.ascii_of_N n)) id <$> scan_string fuel l else None
            | e :: l =>
                x ← (if bool_decide (e ∈ ["034"; "\"; "/"]%char) then Some e
                     else if bool_decide (e = "b"%char) then Some "008"%char
                     else if bool_decide (e = "f"%char) then Some "012"%char
                     else if bool_decide (e = "n"%char) then Some "010"%char
                     else if bool_decide (e = "r"%char) then Some "013"%char
                     else if bool_decide (e = "t"%char) then Some "009"%char
                     else None);
                prod_map (cons x) id <$> scan_string fuel l
            | [] => None
            end
      end
  end.

(** The digits at the head of a text, with their value after [acc] *)
Fixpoint take_digits (l : list ascii) (acc : Z) : Z * nat * list ascii :=
  match l with
  | c :: rest =>
      match digit_value c with
      | Some d => let '(z, n, rest) := take_digits rest (acc * 10 + d) in (z, S n, rest)
      | None => (acc, 0%nat, l)
      end
  | [] => (acc, 0%nat, [])
  end.

(** Zero, or digits that do not begin with it *)
Definition scan_int (l : list ascii) : option (Z * list ascii) :=
  match l with
  | "0"%char :: rest => Some (0%Z, rest)
  | c :: rest => d ← digit_value c; let '(z, _, rest) := take_digits rest d in Some (z, rest)
  | [] => None
  end.

(** An optional fraction: the digits after the point, as a number, and their count *)
Definition scan_frac (l : list ascii) : option (Z * nat) * list ascii :=
  match l with
  | "."%char :: rest => match take_digits rest 0 with (_, O, _) => (None, l) | (z, n, rest) => (Some (z, n), rest) end
  | _ => (None, l)
  end.

(** An optional exponent *)
Definition scan_exp (l : list ascii) : option Z * list ascii :=
  match l with
  | c :: rest =>
      if bool_decide (c ∈ ["e"; "E"]%char) then
        let '(neg, digits) := match rest with "-"%char :: r => (true, r) | "+"%char :: r => (false, r) | _ => (false, rest) end in
        match take_digits digits 0 with
        | (_, O, _) => (None, l)
        | (z, _, rest) => (Some (if neg : bool then - z else z)%Z, rest)
        end
      else (None, l)
  | [] => (None, l)
  end.

(** [_match_number], with the sign read: an integer unless there is a fraction or an exponent *)
Definition scan_number (negative : bool) (l : list ascii) : option (Json * list ascii) :=
  '(z, l) ← scan_int l;
  let sign (q : Q) : Q := if negative then (- q)%Q else q in
  let '(frac, l) := scan_frac l in
  let '(exp, l) := scan_exp l in
  match frac, exp with
  | None, None => Some (JInt (if negative then - z else z)%Z, l)
  | _, _ =>
      let m := match frac with Some (f, n) => (inject_Z z + inject_Z f / inject_Z (10 ^ Z.of_nat n))%Q | None => inject_Z z end in
      Some (JFloat (Some (sign (m * Qpower 10 (default 0%Z exp)))%Q), l)
  end.

(** A keyword at the head of a text *)
Fixpoint keyword (k l : list ascii) : option (list ascii) :=
  match k, l with
  | [], _ => Some l
  | a :: k, b :: l => if bool_decide (a = b) then keyword k l else None
  | _, [] => None
  end.

(** The literals *)
Definition scan_literal (l : list ascii) : option (Json * list ascii) :=
  let try_ w v (other : option (Json * list ascii)) :=
    match keyword (String.list_ascii_of_string w) l with Some rest => Some (v, rest) | None => other end in
  try_ "null" JNull (try_ "true" (JBool true) (try_ "false" (JBool false)
    (try_ "NaN" (JFloat None) (try_ "Infinity" (JFloat None) (try_ "-Infinity" (JFloat None) None))))).

(** [scan_once], the loops of [JSONArray] and [JSONObject] *)
Fixpoint scan_once (fuel : nat) (l : list ascii) : option (Json * list ascii) :=
  match fuel with
  | O => None
  | S fuel =>
      match l with
      | [] => None
      | c :: rest =>
          if bool_decide (c = "034"%char) then '(s, rest) ← scan_string (S (length rest)) rest; Some (JStr (String.string_of_list_ascii s), rest)
          else if bool_decide (c = "["%char) then
            let rest := skip_ws rest in
            if bool_decide (head rest = Some "]"%char) then Some (JArr [], tail rest)
            else '(vs, rest) ← scan_items fuel rest; Some (JArr vs, rest)
          else if bool_decide (c = "{"%char) then
            let rest := skip_ws rest in
            if bool_decide (head rest = Some "}"%char) then Some (JObj [], tail rest)
            else '(ps, rest) ← scan_pairs fuel rest; Some (JObj (fold_left (λ m p, od_set p.1 p.2 m) ps []), rest)
          else
            match scan_literal l with
            | Some r => Some r
            | None =>
                if bool_decide (c = "-"%char) then scan_number true rest else scan_number false l
            end
      end
  end
with scan_items (fuel : nat) (l : list ascii) : option (list Json * list ascii) :=
  match fuel with
  | O => None
  | S fuel =>
      '(v, l) ← scan_once fuel l;
      match skip_ws l with
      | "]"%char :: rest => Some ([v], rest)
      | ","%char :: rest => '(vs, rest) ← scan_items fuel (skip_ws rest); Some (v :: vs, rest)
      | _ => None
      end
  end
with scan_pairs (fuel : nat) (l : list ascii) : option (list (string * Json) * list ascii) :=
  match fuel with
  | O => None
  | S fuel =>
      match l with
      | "034"%char :: l =>
          '(k, l) ← scan_string (S (length l)) l;
          match skip_ws l with
          | ":"%char :: l =>
              '(v, l) ← scan_once fuel (skip_ws l);
              match skip_ws l with
              | "}"%char :: rest => Some ([(String.string_of_list_ascii k, v)], rest)
              | ","%char :: rest => '(ps, rest) ← scan_pairs fuel (skip_ws rest); Some ((String.string_of_list_ascii k, v) :: ps, rest)
              | _ => None
              end
          | _ => None
          end
      | _ => None
      end
  end.

(** [json.loads] of a text; [None] is its [JSONDecodeError] *)
Definition loads (text : list ascii) : option Json :=
  '(v, rest) ← scan_once (S (length text)) (skip_ws text);
  match skip_ws rest with [] => Some v | _ => None end.

(** * [loads] inverts [dumps] *)

#[local] Set Warnings "-register-all".

(** Values [dumps] writes out: no floats, and objects without repeated keys. *)
Inductive printable : Json → Prop :=
  | pr_null : printable JNull
  | pr_bool b : printable (JBool b)
  | pr_int z : printable (JInt z)
  | pr_str s : printable (JStr s)
  | pr_arr l : Forall printable l → printable (JArr l)
  | pr_obj fields : NoDup fields.*1 → Forall (λ p, printable p.2) fields → printable (JObj fields).

(** What may follow a value: the end, or a character that does not go on a number. *)
Definition stops (rest : list ascii) : Prop :=
  match rest with [] => True | c :: _ => c ∈ [","; "]"; "}"]%char end.

(** Turns [scan_once] needs. *)
Fixpoint jsize (v : Json) : nat :=
  match v with
  | JArr l => S (foldr (λ v n, S (jsize v + n)) 0%nat l)
  | JObj fields => S (foldr (λ p n, S (jsize p.2 + n)) 0%nat fields)
  | _ => 1%nat
  end.

(** ** Strings *)

Lemma scan_char c l fuel : scan_string (S fuel) (json_char c ++ l) = prod_map (cons c) id <$> scan_string fuel l.
Proof. destruct c as [[] [] [] [] [] [] [] []]; reflexivity. Qed.

Lemma json_char_long c : (1 ≤ length (json_char c))%nat.
Proof. apply Nat.leb_le. destruct c as [[] [] [] [] [] [] [] []]; reflexivity. Qed.

Lemma scan_string_dump l rest fuel :
  (length (l ≫= json_char) < fuel)%nat → scan_string fuel ((l ≫= json_char) ++ "034"%char :: rest) = Some (l, rest).
Proof.
  revert fuel; induction l as [| c l IH]; intros fuel Hf; (destruct fuel as [| fuel]; [lia |]); [done |].
  rewrite bind_cons in *. rewrite length_app in Hf. pose proof (json_char_long c). rewrite <- app_assoc, scan_char, IH by lia. done.
Qed.

Lemma scan_string_quoted s rest :
  let l := (String.list_ascii_of_string s ≫= json_char) ++ "034"%char :: rest in
  scan_string (S (length l)) l = Some (String.list_ascii_of_string s, rest).
Proof. intros l. apply scan_string_dump. unfold l. rewrite length_app. cbn [length]. lia. Qed.

(** ** Integers *)

Lemma take_digits_all ds rest acc v :
  Forall is_digit ds → py_digits ds acc = Some v → stops rest → take_digits (ds ++ rest) acc = (v, length ds, rest).
Proof.
  intros HF. revert acc; induction HF as [| c ds [d Hd] _ IH]; intros acc; cbn.
  - intros [= <-] Hs. destruct rest as [| c rest]; [done |]. cbn in *. cbn. assert (digit_value c = None) as ->; [| done].
    rewrite !elem_of_cons in Hs. destruct Hs as [-> | [-> | [-> | []%elem_of_nil]]]; done.
  - rewrite Hd. intros Hv Hs. by rewrite (IH _ Hv Hs).
Qed.

Lemma leading_digit x s : (0 < x)%N → ∃ c r, chars (pretty_N_go x s) = c :: r ∧ c ≠ "0"%char.
Proof.
  revert s. induction (N.lt_wf_0 x) as [x _ IH]; intros s Hx. rewrite pretty_N_go_step by done.
  destruct (decide (x < 10)%N) as [Hlt | Hge].
  - rewrite N.div_small, N.mod_small, pretty_N_go_0 by done. cbn. eexists _, _. split; [done |].
    assert (x = 1 ∨ x = 2 ∨ x = 3 ∨ x = 4 ∨ x = 5 ∨ x = 6 ∨ x = 7 ∨ x = 8 ∨ x = 9)%N as Hc by lia.
    by destruct Hc as [-> | [-> | [-> | [-> | [-> | [-> | [-> | [-> | ->]]]]]]]].
  - apply IH; [apply N.div_lt; lia |]. apply N.div_str_pos. lia.
Qed.

Lemma scan_frac_stops rest : stops rest → scan_frac rest = (None, rest) ∧ scan_exp rest = (None, rest).
Proof.
  destruct rest as [| c rest]; [done |]. cbn [stops]. rewrite !elem_of_cons. by intros [-> | [-> | [-> | []%elem_of_nil]]].
Qed.

Lemma scan_int_pretty n rest : (0 ≤ n)%Z → stops rest → scan_int (chars (pretty n) ++ rest) = Some (n, rest).
Proof.
  intros Hn Hs. destruct (pretty_digits n Hn) as (d & ds & Hp & HF & Hv).
  apply Forall_cons in HF as [[v Hd] HF]. cbn in Hv. rewrite Hd in Hv. cbn in Hv.
  destruct (decide (n = 0%Z)) as [-> | Hne]; [done |].
  assert (Hlead : d ≠ "0"%char).
  { destruct n as [| p | p]; [done | | lia]. destruct (leading_digit (N.pos p) "") as (c & r & Hc & Hnz); [lia |].
    change (pretty (Z.pos p)) with (pretty_N_go (N.pos p) "") in Hp. rewrite Hp in Hc. by injection Hc as -> _. }
  rewrite Hp. cbn [app scan_int]. rewrite Hd. cbn [mbind option_bind]. rewrite (take_digits_all ds rest v n HF Hv Hs).
  destruct d as [[] [] [] [] [] [] [] []]; try done.
Qed.

Lemma scan_number_pretty negative n rest :
  (0 ≤ n)%Z → stops rest → scan_number negative (chars (pretty n) ++ rest) = Some (JInt (if negative : bool then - n else n)%Z, rest).
Proof.
  intros Hn Hs. unfold scan_number. rewrite scan_int_pretty by done. cbn [mbind option_bind].
  destruct (scan_frac_stops rest Hs) as [-> ->]. done.
Qed.

(** A digit begins no literal, string, array or object. *)
Lemma digit_first d l : is_digit d →
  scan_literal (d :: l) = None ∧ scan_literal ("-"%char :: d :: l) = None ∧ d ∉ ["034"; "["; "{"; "-"]%char.
Proof. intros [v Hd]. destruct d as [[] [] [] [] [] [] [] []]; try done; split_and!; try done; by apply (bool_decide_unpack _). Qed.

Lemma scan_int_value z rest fuel : stops rest → scan_once (S fuel) (chars (pretty z) ++ rest) = Some (JInt z, rest).
Proof.
  intros Hs. destruct (decide (0 ≤ z)%Z) as [Hz | Hz].
  - destruct (pretty_digits z Hz) as (d & ds & Hp & HF & _). pose proof (scan_number_pretty false z rest Hz Hs) as Hn. rewrite Hp in *.
    apply Forall_cons in HF as [Hd _]. destruct (digit_first d (ds ++ rest) Hd) as (Hl & _ & Hne). rewrite !not_elem_of_cons in Hne.
    cbn [app scan_once]. rewrite !bool_decide_eq_false_2 by naive_solver. cbn [app] in Hl, Hn. rewrite Hl. exact Hn.
  - destruct z as [| p | p]; [lia | lia |]. pose proof (scan_number_pretty true (Z.pos p) rest ltac:(lia) Hs) as Hn.
    destruct (pretty_digits (Z.pos p) ltac:(lia)) as (d & ds & Hp & HF & _). apply Forall_cons in HF as [Hd _].
    change (chars (pretty (Z.neg p))) with ("-"%char :: chars (pretty (Z.pos p))). rewrite Hp in *.
    destruct (digit_first d (ds ++ rest) Hd) as (_ & Hl & _). cbn [app scan_once] in *. rewrite Hl. cbn. exact Hn.
Qed.

(** ** Values *)

(** A value's text begins with no whitespace and with no closing bracket. *)
Definition opens (l : list ascii) : Prop := ∃ c rest, l = c :: rest ∧ is_ws c = false ∧ c ≠ "]"%char ∧ c ≠ "}"%char.

Lemma dumps_opens v : printable v → opens (dumps v).
Proof.
  destruct 1 as [| [] | z | s | l _ | fields _ _]; try (by eexists _, _; split_and!).
  cbn [dumps]. destruct (decide (0 ≤ z)%Z) as [Hz | Hz].
  - destruct (pretty_digits z Hz) as (d & ds & -> & HF & _). apply Forall_cons in HF as [[v Hd] _]. eexists _, _. split; [done |].
    destruct d as [[] [] [] [] [] [] [] []]; done.
  - destruct z as [| p | p]; [lia | lia |]. by eexists _, _.
Qed.

Lemma skip_ws_opens l rest : opens l → skip_ws (l ++ rest) = l ++ rest.
Proof. intros (c & r & -> & Hc & _). cbn. by rewrite Hc. Qed.

Lemma skip_ws_stops rest : stops rest → skip_ws rest = rest.
Proof. destruct rest as [| c rest]; [done |]. cbn [stops]. rewrite !elem_of_cons. by intros [-> | [-> | [-> | []%elem_of_nil]]]. Qed.

(** Reading back a value, for the induction. *)
Definition reads (v : Json) : Prop := ∀ fuel rest, (jsize v ≤ fuel)%nat → stops rest → scan_once fuel (dumps v ++ rest) = Some (v, rest).

Lemma join_two {A} (f : A → list ascii) sep x y l : join_chars sep (f <$> x :: y :: l) = f x ++ sep ++ join_chars sep (f <$> y :: l).
Proof. done. Qed.

Lemma join_opens {A} (f : A → list ascii) sep x l : opens (f x) → opens (join_chars sep (f <$> x :: l)).
Proof. intros (c & r & Hd & Hc). destruct l as [| y l]; [by eexists _, _ |]. rewrite join_two, Hd. by eexists _, _. Qed.

Lemma scan_items_dump v vs rest fuel :
  Forall (λ v, printable v ∧ reads v) (v :: vs) → (foldr (λ v n, S (jsize v + n)) 0 (v :: vs) ≤ fuel)%nat →
  scan_items fuel (join_chars [","%char] (dumps <$> v :: vs) ++ "]"%char :: rest) = Some (v :: vs, rest).
Proof.
  intros HF. revert fuel; induction vs as [| w vs IH] in v, HF |- *; intros fuel Hf; apply Forall_cons in HF as [[Hp Hr] HF];
    (destruct fuel as [| fuel]; [cbn in Hf; lia |]); cbn [foldr] in Hf; cbn [scan_items].
  - change (join_chars [","%char] (dumps <$> [v])) with (dumps v).
    rewrite (Hr fuel ("]"%char :: rest)); [done | lia | cbn; set_solver].
  - rewrite join_two, <- !app_assoc. rewrite (Hr fuel); [| lia | cbn; set_solver]. cbn [mbind option_bind app skip_ws].
    change (is_ws ","%char) with false. cbv iota. apply Forall_cons in HF as HF'. destruct HF' as [[Hw _] _].
    rewrite (skip_ws_opens _ _ (join_opens dumps _ w vs (dumps_opens w Hw))), (IH w HF fuel); [done | cbn [foldr]; lia].
Qed.

(** A member of an object. *)
Definition dump_pair (p : string * Json) : list ascii := dump_string p.1 ++ ":"%char :: dumps p.2.

Lemma scan_pair p rest fuel :
  printable p.2 ∧ reads p.2 → (jsize p.2 ≤ fuel)%nat → stops rest →
  scan_pairs (S fuel) (dump_pair p ++ rest) =
    match rest with
    | "}"%char :: rest => Some ([p], rest)
    | ","%char :: rest => '(ps, rest) ← scan_pairs fuel (skip_ws rest); Some (p :: ps, rest)
    | _ => None
    end.
Proof.
  intros [Hp Hr] Hf Hs. destruct p as [k v]. unfold dump_pair, dump_string. cbn [fst snd app] in *. rewrite <- !app_assoc. cbn [app scan_pairs].
  rewrite scan_string_quoted. cbn [mbind option_bind skip_ws]. change (is_ws ":"%char) with false. cbv iota.
  rewrite (skip_ws_opens _ _ (dumps_opens v Hp)), (Hr fuel rest Hf Hs). cbn [mbind option_bind]. rewrite (skip_ws_stops rest Hs).
  by rewrite String.string_of_list_ascii_of_string.
Qed.

Lemma scan_pairs_dump p ps rest fuel :
  Forall (λ p, printable p.2 ∧ reads p.2) (p :: ps) → (foldr (λ p n, S (jsize p.2 + n)) 0 (p :: ps) ≤ fuel)%nat →
  scan_pairs fuel (join_chars [","%char] (dump_pair <$> p :: ps) ++ "}"%char :: rest) = Some (p :: ps, rest).
Proof.
  intros HF. revert fuel; induction ps as [| q ps IH] in p, HF |- *; intros fuel Hf; apply Forall_cons in HF as [Hp HF];
    (destruct fuel as [| fuel]; [cbn in Hf; lia |]); cbn [foldr] in Hf.
  - change (join_chars [","%char] (dump_pair <$> [p])) with (dump_pair p). rewrite scan_pair; [done | done | lia | cbn; set_solver].
  - rewrite join_two, <- !app_assoc. rewrite scan_pair; [| done | lia | cbn; set_solver]. cbn [app].
    assert (Hopen : opens (dump_pair q)) by (by eexists _, _).
    rewrite (skip_ws_opens _ _ (join_opens dump_pair _ q ps Hopen)), (IH q HF fuel); [done | cbn [foldr]; lia].
Qed.

Lemma od_build_id (fields : odict Json) acc :
  NoDup (acc ++ fields).*1 → fold_left (λ m p, od_set p.1 p.2 m) fields acc = acc ++ fields.
Proof.
  revert acc; induction fields as [| [k v] fields IH]; intros acc Hnd; [by rewrite app_nil_r |]. cbn [fold_left fst snd].
  assert (Hk : k ∉ acc.*1).
  { rewrite fmap_app in Hnd. apply NoDup_app in Hnd as (_ & Hd & _). intros Hin. by apply (Hd k Hin); left. }
  rewrite od_set_fresh by done. rewrite IH; rewrite <- app_assoc; done.
Qed.

Lemma Json_nested_ind (P : Json → Prop) :
  P JNull → (∀ b, P (JBool b)) → (∀ z, P (JInt z)) → (∀ q, P (JFloat q)) → (∀ s, P (JStr s)) →
  (∀ l, Forall P l → P (JArr l)) → (∀ fields, Forall (λ p, P p.2) fields → P (JObj fields)) → ∀ v, P v.
Proof.
  intros H1 H2 H3 H4 H5 H6 H7. fix IH 1. intros [| | | | | l | fields]; [done | done | done | done | done | apply H6 | apply H7].
  - induction l as [| v l IHl]; [by apply Forall_nil |]. apply Forall_cons. split; [apply IH | exact IHl].
  - induction fields as [| [k v] fields IHl]; [by apply Forall_nil |]. apply Forall_cons. split; [apply IH | exact IHl].
Qed.

Lemma dumps_arr l : dumps (JArr l) = "["%char :: join_chars [","%char] (dumps <$> l) ++ ["]"%char].
Proof. done. Qed.

Lemma dumps_obj fields : dumps (JObj fields) = "{"%char :: join_chars [","%char] (dump_pair <$> fields) ++ ["}"%char].
Proof. done. Qed.

(** The first character after an opening bracket, when it does not close it. *)
Lemma not_closed l : opens l → head l ≠ Some "]"%char ∧ head l ≠ Some "}"%char.
Proof. intros (c & r & -> & _ & H1 & H2). split; intros [= ->]; set_solver. Qed.

Lemma opens_app l l' : opens l → opens (l ++ l').
Proof. intros (c & r & -> & Hc). by eexists _, _. Qed.

Lemma dumps_reads v : printable v → reads v.
Proof.
  induction v as [| b | z | q | s | l IH | fields IH] using Json_nested_ind; intros Hp fuel rest Hf Hs; inversion Hp; subst;
    (destruct fuel as [| fuel]; [cbn in Hf; lia |]).
  - done.
  - by destruct b.
  - by apply scan_int_value.
  - cbn [dumps]. unfold dump_string. cbn [app]. rewrite <- app_assoc. cbn [app scan_once]. rewrite bool_decide_eq_true_2 by done.
    rewrite scan_string_quoted. cbn [mbind option_bind]. by rewrite String.string_of_list_ascii_of_string.
  - rewrite dumps_arr. destruct l as [| v l]; [done |]. cbn [app]. rewrite <- app_assoc. cbn [app scan_once].
    rewrite bool_decide_eq_false_2, bool_decide_eq_true_2 by done.
    assert (HF : Forall (λ v, printable v ∧ reads v) (v :: l)).
    { rewrite Forall_forall in *. intros x Hx. split; [by auto | by apply IH; auto]. }
    apply Forall_cons in HF as HF'. destruct HF' as [[Hv _] _]. pose proof (join_opens dumps [","%char] v l (dumps_opens v Hv)) as Ho.
    rewrite (skip_ws_opens _ _ Ho), bool_decide_eq_false_2 by apply (not_closed _ (opens_app _ _ Ho)).
    rewrite (scan_items_dump v l rest fuel HF) by (cbn [jsize] in Hf; lia). done.
  - rewrite dumps_obj. destruct fields as [| p fields]; [done |]. cbn [app]. rewrite <- app_assoc. cbn [app scan_once].
    rewrite !bool_decide_eq_false_2, bool_decide_eq_true_2 by done.
    assert (HF : Forall (λ p, printable p.2 ∧ reads p.2) (p :: fields)).
    { rewrite Forall_forall in *. intros x Hx. split; [by auto | by apply IH; auto]. }
    assert (Ho : opens (join_chars [","%char] (dump_pair <$> p :: fields))) by (apply join_opens; by eexists _, _).
    rewrite (skip_ws_opens _ _ Ho), bool_decide_eq_false_2 by apply (not_closed _ (opens_app _ _ Ho)).
    rewrite (scan_pairs_dump p fields rest fuel HF) by (cbn [jsize] in Hf; lia). cbn [mbind option_bind].
    by rewrite (od_build_id (p :: fields) []) by done.
Qed.

(** ** The whole text *)

Lemma join_length {A} (f : A → list ascii) sep x l :
  (foldr (λ x n, length (f x) + n) 0 (x :: l) ≤ length (join_chars sep (f <$> x :: l)))%nat ∧
  (length sep = 1%nat → foldr (λ x n, S (length (f x) + n)) 0 (x :: l) ≤ S (length (join_chars sep (f <$> x :: l))))%nat.
Proof.
  induction l as [| y l IH] in x |- *; [cbn; lia |]. destruct (IH y) as [I1 I2]. rewrite join_two, !length_app. cbn [foldr] in *.
  split; [lia |]. intros Hs. specialize (I2 Hs). lia.
Qed.

Lemma foldr_mono {A} (f g : A → nat) l :
  Forall (λ x, f x ≤ g x)%nat l → (foldr (λ x n, S (f x + n)) 0 l ≤ foldr (λ x n, S (g x + n)) 0 l)%nat.
Proof. induction 1 as [| x l Hx _ IH]; cbn; lia. Qed.

Lemma jsize_length v : printable v → (jsize v ≤ length (dumps v))%nat.
Proof.
  induction v as [| b | z | q | s | l IH | fields IH] using Json_nested_ind; intros Hp; inversion Hp; subst.
  - cbn. lia.
  - destruct b; cbn; lia.
  - destruct (dumps_opens (JInt z) Hp) as (c & r & -> & _). cbn. lia.
  - cbn [dumps jsize]. unfold dump_string. cbn [length]. lia.
  - rewrite dumps_arr. cbn [jsize length]. rewrite length_app. cbn [length]. destruct l as [| v l]; [cbn; lia |].
    pose proof (proj2 (join_length dumps [","%char] v l) eq_refl) as Hj.
    assert (Hm : Forall (λ v, jsize v ≤ length (dumps v))%nat (v :: l)) by (rewrite Forall_forall in *; auto). apply foldr_mono in Hm. lia.
  - rewrite dumps_obj. cbn [jsize length]. rewrite length_app. cbn [length]. destruct fields as [| p fields]; [cbn; lia |].
    pose proof (proj2 (join_length dump_pair [","%char] p fields) eq_refl) as Hj.
    assert (Hm : Forall (λ p, jsize p.2 ≤ length (dump_pair p))%nat (p :: fields)).
    { rewrite Forall_forall in *. intros x Hx. unfold dump_pair. rewrite length_app. cbn [length]. specialize (IH x Hx). specialize (IH ltac:(auto)). lia. }
    apply (foldr_mono (λ p, jsize p.2)) in Hm. lia.
Qed.

(** What [dumps] writes of a value without floats and without repeated keys, [loads] reads back as that value. *)
Theorem json_roundtrip v : printable v → loads (dumps v) = Some v.
Proof.
  intros Hp. unfold loads. pose proof (skip_ws_opens _ [] (dumps_opens v Hp)) as Hw. rewrite app_nil_r in Hw. rewrite Hw.
  pose proof (dumps_reads v Hp (S (length (dumps v))) []) as Hr. rewrite app_nil_r in Hr. rewrite Hr; [done | | done].
  pose proof (jsize_length v Hp). lia.
Qed.
