(* ===== verification/Offline.v ===== *)
(** * Offline bundles on disk

    Models src/packages/fallow-modelmesh/src/fallow_modelmesh/bundle.py and the file handling of offline.py: the
    manifest as JSON text, its parse, and a bundle directory with its manifest, its signature and a file per chunk.

    Text is Latin-1: a JSON escape above [\u00ff] is outside the model. *)

From stdpp Require Import pretty.
From S2P Require Export Mesh JsonText.
From S2P Require Export JsonText MeshSpec.

(** What a manifest is written as: the payload of [canonical_bytes], with its keys sorted *)
Definition manifest_payload (m : Manifest) : Json := JObj [
  ("chunk_size", JInt (mf_chunk_size m));
  ("chunks", JArr (JStr <$> mf_chunks m));
  ("merkle_root", JStr (mf_merkle_root m));
  ("model_id", JStr (mf_model_id m));
  ("total_size", JInt (mf_total_size m));
  ("whole_file_sha256", JStr (mf_whole_file_sha256 m))].

Definition text_bytes (l : list ascii) : bytes := Ascii.byte_of_ascii <$> l.

(** The exceptions of an import or export *)
Inductive OfflineExc :=
  | MissingFile
  | BadEncoding
  | ModelmeshExc (e : MeshError).

Definition verification_error : OfflineExc := ModelmeshExc MeshVerificationError.

Section Parse.
  (** Decoding of bytes that are not plain ASCII: [None] is a [UnicodeDecodeError] *)
  Context (decode_other : bytes → option (list ascii)).

(** The text [json.loads] reads: a NUL byte would select UTF-16 or UTF-32 *)
Definition json_text (data : bytes) : option (list ascii) :=
  if forallb (λ b, (0 <? Byte.to_N b)%N && (Byte.to_N b <? 128)%N) data then Some (Ascii.ascii_of_byte <$> data)
  else decode_other data.

Definition STR_FIELDS : list string := ["model_id"; "whole_file_sha256"; "merkle_root"].
Definition INT_FIELDS : list string := ["total_size"; "chunk_size"].

Definition is_str (v : option Json) : bool := match v with Some (JStr _) => true | _ => false end.
Definition is_int (v : option Json) : bool := match v with Some (JInt _) => true | _ => false end.

(** [payload[k]] of a field already checked *)
Definition str_at (k : string) (payload : odict Json) : string :=
  match od_get k payload with Some (JStr s) => s | _ => "" end.
Definition int_at (k : string) (payload : odict Json) : Z :=
  match od_get k payload with Some (JInt z) => z | _ => 0 end.

Definition parse_payload (v : Json) : OfflineExc + Manifest :=
  match v with
  | JObj payload =>
      if negb (forallb (λ field, is_str (od_get field payload)) STR_FIELDS) then inl verification_error
      else if negb (forallb (λ field, is_int (od_get field payload)) INT_FIELDS) then inl verification_error
      else
        match od_get "chunks" payload with
        | Some (JArr chunks) =>
            if forallb (λ h, is_str (Some h)) chunks then
              inr {| mf_model_id := str_at "model_id" payload;
                     mf_total_size := int_at "total_size" payload;
                     mf_chunk_size := int_at "chunk_size" payload;
                     mf_whole_file_sha256 := str_at "whole_file_sha256" payload;
                     mf_chunks := omap (λ h, match h with JStr s => Some s | _ => None end) chunks;
                     mf_merkle_root := str_at "merkle_root" payload |}
            else inl verification_error
        | _ => inl verification_error
        end
  | _ => inl verification_error
  end.

(** [parse_manifest] *)
Definition parse_manifest (data : bytes) : OfflineExc + Manifest :=
  match json_text data with
  | None => inl BadEncoding
  | Some text => match loads text with Some payload => parse_payload payload | None => inl verification_error end
  end.
End Parse.

(** ** The directory *)

(** The outcome of reading a text file *)
Inductive TextFile := NoFile | NotUtf8 | Text (s : string).

(** A bundle directory; a chunk is the file [chunk_path] names *)
Record BundleDir := { bd_manifest : option bytes; bd_signature : TextFile; bd_chunks : gmap string bytes }.

Definition set_bd_manifest (data : bytes) (d : BundleDir) : BundleDir :=
  {| bd_manifest := Some data; bd_signature := bd_signature d; bd_chunks := bd_chunks d |}.
Definition set_bd_signature (s : string) (d : BundleDir) : BundleDir :=
  {| bd_manifest := bd_manifest d; bd_signature := Text s; bd_chunks := bd_chunks d |}.
Definition write_chunk (h : string) (data : bytes) (d : BundleDir) : BundleDir :=
  {| bd_manifest := bd_manifest d; bd_signature := bd_signature d; bd_chunks := <[h := data]> (bd_chunks d) |}.

Section Offline.
  Context (sha256 : bytes → bytes) (hmac_sha256 : bytes → bytes → bytes) (decode_other : bytes → option (list ascii)).

(** The loop of [export_bundle]: what was written stays when a chunk is missing *)
Fixpoint write_chunks_to (hs : list string) (d : BundleDir) (s : Mesh) : Mesh * BundleDir * option OfflineExc :=
  match hs with
  | [] => (s, d, None)
  | h :: hs =>
      match get h s with
      | (s, inl e) => (s, d, Some (ModelmeshExc e))
      | (s, inr data) => write_chunks_to hs (write_chunk h data d) s
      end
  end.

(** [export_bundle] onto a directory that may already hold a bundle *)
Definition export_dir (m : Manifest) (signature : string) (d : BundleDir) (s : Mesh) : Mesh * BundleDir * option OfflineExc :=
  write_chunks_to (unique_by id [] (mf_chunks m)) (set_bd_signature signature (set_bd_manifest (canonical_bytes m) d)) s.

(** [import_bundle] *)
Definition import_dir (d : BundleDir) (key : bytes) (s : Mesh) : Mesh * (OfflineExc + Manifest) :=
  match bd_manifest d with
  | None => (s, inl MissingFile)
  | Some data =>
      match parse_manifest decode_other data with
      | inl e => (s, inl e)
      | inr manifest =>
          match bd_signature d with
          | NoFile => (s, inl MissingFile)
          | NotUtf8 => (s, inl BadEncoding)
          | Text signature =>
              let b := {| bn_manifest := manifest; bn_signature := signature; bn_chunks := bd_chunks d |} in
              match import_bundle sha256 hmac_sha256 b key s with
              | (s, inl e) => (s, inl (ModelmeshExc e))
              | (s, inr manifest) => (s, inr manifest)
              end
          end
      end
  end.
End Offline.

(** * Correctness of offline bundles *)

(** ** The manifest as text *)

Lemma chars_join sep (l : list string) : chars (join sep l) = join_chars (chars sep) (chars <$> l).
Proof.
  induction l as [| x [| y l] IH]; [done | done |].
  change (chars (x +:+ sep +:+ join sep (y :: l)) = chars x ++ chars sep ++ join_chars (chars sep) (chars <$> y :: l)).
  by rewrite !list_ascii_app, IH.
Qed.

Lemma chars_json_string s : chars (json_string s) = dump_string s.
Proof. unfold json_string. by rewrite !list_ascii_app, !String.list_ascii_of_string_of_list_ascii. Qed.

(** [canonical_bytes] is the compact dump of the payload. *)
Lemma canonical_dumps m : canonical_bytes m = text_bytes (dumps (manifest_payload m)).
Proof.
  unfold canonical_bytes, String.list_byte_of_string, text_bytes. change (@List.map) with (λ A B, @fmap list list_fmap A B). cbv beta. f_equal.
  unfold manifest_payload. rewrite dumps_obj. rewrite !list_ascii_app, chars_join. cbn [fmap list_fmap].
  rewrite !list_ascii_app, !chars_json_string, chars_join. unfold dump_pair. cbn [fst snd]. rewrite dumps_arr.
  rewrite <- !list_fmap_compose. do 3 f_equal.
  assert (Hd : ∀ l, (chars ∘ json_string) <$> l = (dumps ∘ JStr) <$> l) by (intros l; apply list_fmap_ext; intros; apply chars_json_string).
  by rewrite Hd.
Qed.

Definition plain (c : ascii) : bool := let n := Ascii.N_of_ascii c in (0 <? n)%N && (n <? 128)%N.

Lemma plain_json_char c : Forall plain (json_char c).
Proof. apply forallb_True. destruct c as [[] [] [] [] [] [] [] []]; exact I. Qed.

Lemma plain_string s : Forall plain (dump_string s).
Proof.
  unfold dump_string. apply Forall_cons. split; [exact I |]. apply Forall_app. split; [| by repeat constructor].
  induction (chars s) as [| c l IH]; [by apply Forall_nil |]. rewrite bind_cons. apply Forall_app. split; [apply plain_json_char | done].
Qed.

Lemma plain_digit c : is_digit c → plain c.
Proof. intros [d Hd]. destruct c as [[] [] [] [] [] [] [] []]; first [exact I | done]. Qed.

Lemma plain_int (z : Z) : Forall plain (chars (pretty z)).
Proof.
  assert (Hn : ∀ n : Z, (0 ≤ n)%Z → Forall plain (chars (pretty n))).
  { intros n (d & ds & -> & HF & _)%pretty_digits. eapply Forall_impl; [exact HF | apply plain_digit]. }
  destruct z as [| p | p]; [by apply Hn | by apply Hn |].
  change (chars (pretty (Z.neg p))) with ("-"%char :: chars (pretty (Z.pos p))). apply Forall_cons. split; [exact I | by apply Hn].
Qed.

Lemma plain_join {A} (f : A → list ascii) l : Forall (λ x, Forall plain (f x)) l → Forall plain (join_chars [","%char] (f <$> l)).
Proof.
  induction 1 as [| x l Hx _ IH]; [by apply Forall_nil |]. destruct l as [| y l]; [done |]. rewrite join_two.
  apply Forall_app. split; [done |]. by apply Forall_cons.
Qed.

(** A dump is ASCII text without NUL. *)
Lemma plain_dumps v : Forall plain (dumps v).
Proof.
  induction v as [| [] | z | q | s | l IH | fields IH] using Json_nested_ind; try (by repeat constructor).
  - apply plain_int.
  - apply plain_string.
  - rewrite dumps_arr. apply Forall_cons. split; [exact I |]. apply Forall_app. split; [by apply plain_join | by repeat constructor].
  - rewrite dumps_obj. apply Forall_cons. split; [exact I |]. apply Forall_app. split; [apply plain_join | by repeat constructor].
    eapply Forall_impl; [exact IH |]. intros p Hp. unfold dump_pair. apply Forall_app. split; [apply plain_string | by apply Forall_cons].
Qed.

Lemma json_text_dumps decode_other v : json_text decode_other (text_bytes (dumps v)) = Some (dumps v).
Proof.
  unfold json_text, text_bytes. pose proof (plain_dumps v) as HF. rewrite <- list_fmap_compose.
  rewrite (list_fmap_ext (Ascii.ascii_of_byte ∘ Ascii.byte_of_ascii) id) by (intros; apply Ascii.ascii_of_byte_of_ascii). rewrite list_fmap_id.
  assert (forallb (λ b, (0 <? Byte.to_N b)%N && (Byte.to_N b <? 128)%N) (Ascii.byte_of_ascii <$> dumps v) = true) as ->; [| done].
  induction HF as [| c l Hc _ IH]; [done |]. cbn. rewrite IH, andb_true_r. unfold plain in Hc.
  destruct c as [[] [] [] [] [] [] [] []]; first [reflexivity | done].
Qed.

Lemma payload_printable m : printable (manifest_payload m).
Proof.
  constructor; [cbn; by apply (bool_decide_unpack _); vm_compute |]. repeat apply Forall_cons_2; try apply Forall_nil; cbn; try constructor.
  apply Forall_fmap, Forall_true. intros h. constructor.
Qed.

Lemma parse_own_payload m : parse_payload (manifest_payload m) = inr m.
Proof.
  destruct m as [model total chunk whole hs root]. transitivity
    (if forallb (λ h, is_str (Some h)) (JStr <$> hs) then
       inr {| mf_model_id := model; mf_total_size := total; mf_chunk_size := chunk; mf_whole_file_sha256 := whole;
              mf_chunks := omap (λ h, match h with JStr s => Some s | _ => None end) (JStr <$> hs); mf_merkle_root := root |}
     else inl verification_error); [reflexivity |].
  assert (forallb (λ h, is_str (Some h)) (JStr <$> hs) = true) as -> by (by induction hs). do 2 f_equal.
  induction hs as [| h hs IH]; [done | cbn; by rewrite IH].
Qed.

Lemma parse_canonical decode_other m : parse_manifest decode_other (canonical_bytes m) = inr m.
Proof.
  unfold parse_manifest. rewrite canonical_dumps, json_text_dumps, json_roundtrip by apply payload_printable. apply parse_own_payload.
Qed.

(** A manifest survives its own text.  Whatever the manifest holds (any model name, any sizes, any hashes), the
    bytes [canonical_bytes] writes and signs are plain ASCII JSON, and [parse_manifest] of them is that manifest. *)
Theorem manifest_text_roundtrip decode_other m : parse_manifest decode_other (canonical_bytes m) = inr m.
Proof. apply parse_canonical. Qed.

(** ** Directories *)

Section Directory.
  Context (sha256 : bytes → bytes) (hmac : bytes → bytes → bytes) (decode_other : bytes → option (list ascii)).
  Notation H := (chunk_hash sha256).
  Notation store_ok := (store_ok sha256).

(** What the loop of an export leaves: the earlier files, and a chunk file named by the hash of its content for
    every hash written. *)
Definition chunks_written (hs : list string) (d d' : BundleDir) : Prop :=
  bd_manifest d' = bd_manifest d ∧ bd_signature d' = bd_signature d ∧
  (∀ h, h ∈ hs → ∃ data, bd_chunks d' !! h = Some data ∧ H data = h) ∧
  (∀ h, h ∉ hs → bd_chunks d' !! h = bd_chunks d !! h).

Lemma get_held h (m : Mesh) :
  store_ok (store m) → held [h] m → ∃ data, get h m = (on_store (touch h) m, inr data) ∧ H data = h.
Proof.
  intros Hok Hh. pose proof (get_wp sha256 h m Hok) as Hw. unfold wp in Hw. destruct (Hh h) as [x Hx]; [set_solver |].
  destruct (get h m) as [m' [e | data]]; [destruct Hw as (_ & _ & Hn); congruence |]. destruct Hw as (Hd & _ & -> & _). by exists data.
Qed.

Lemma chunks_written_cons h hs data d d' :
  H data = h → h ∉ hs → chunks_written hs (write_chunk h data d) d' → chunks_written (h :: hs) d d'.
Proof.
  intros Hd Hn (H1 & H2 & H3 & H4). split_and!; [done | done | |].
  - intros h' [-> | Hh]%elem_of_cons; [| by apply H3]. exists data. split; [| done]. rewrite (H4 h Hn). cbn. by rewrite lookup_insert_eq.
  - intros h' [Hne Hn']%not_elem_of_cons. rewrite (H4 h' Hn'). cbn. by rewrite lookup_insert_ne.
Qed.

Lemma write_chunks_held hs d (m : Mesh) :
  NoDup hs → store_ok (store m) → held hs m →
  ∃ m' d', write_chunks_to hs d m = (m', d', None) ∧ same_chunks sha256 m m' ∧ chunks_written hs d d'.
Proof.
  intros Hnd. revert d m; induction Hnd as [| h hs Hn _ IH]; intros d m Hok Hheld; cbn [write_chunks_to].
  { exists m, d. unfold same_chunks, chunks_written. split_and!; try done. intros h Hh. by apply elem_of_nil in Hh. }
  destruct (get_held h m Hok) as (data & Hg & Hd); [intros h' Hh'; apply Hheld; set_solver |]. rewrite Hg.
  pose proof (same_chunks_touch sha256 h m Hok) as Ht. pose proof Ht as (Hok' & Hget & _).
  destruct (IH (write_chunk h data d) (on_store (touch h) m) Hok') as (m' & d' & Hw & Hs & Hc).
  { intros h' Hh'. rewrite Hget. apply Hheld. set_solver. }
  exists m', d'. split_and!; [done | by eapply same_chunks_trans | by eapply chunks_written_cons].
Qed.
Lemma strip_hex bs : strip (to_hex bs) = to_hex bs.
Proof.
  apply strip_id. induction bs as [| b bs IH]; [by apply Forall_nil |]. rewrite bind_cons. apply Forall_app. split; [| done].
  destruct b; by repeat constructor.
Qed.

(** A bundle as [import_dir] reads it. *)
Definition dir_bundle (d : BundleDir) (man : Manifest) (sig : string) : Bundle :=
  {| bn_manifest := man; bn_signature := sig; bn_chunks := bd_chunks d |}.

(** The import of a readable bundle. *)
Lemma import_dir_readable d data man sig key (m : Mesh) :
  bd_manifest d = Some data → parse_manifest decode_other data = inr man → bd_signature d = Text sig →
  import_dir sha256 hmac decode_other d key m =
    match import_bundle sha256 hmac (dir_bundle d man sig) key m with
    | (m', inl e) => (m', inl (ModelmeshExc e))
    | (m', inr man) => (m', inr man)
    end.
Proof. intros H1 H2 H3. unfold import_dir. by rewrite H1, H2, H3. Qed.

Definition bundle_ok (b : Bundle) (man : Manifest) : Prop :=
  bn_manifest b = man ∧ honest sha256 (bundle_source b) (mf_chunks man).

(** A complete signed bundle is taken in whole. *)
Lemma import_complete b man key (m : Mesh) :
  bundle_ok b man → strip (bn_signature b) = sign_manifest hmac man key → store_ok (store m) →
  (cs_used (store m) + served_bytes (bundle_source b) (mf_chunks man) ≤ cs_max_bytes (store m))%Z →
  wp (import_bundle sha256 hmac b key) (λ r m', r = man ∧ store_ok (store m') ∧ fs m' = fs m ∧ held (mf_chunks man) m') (λ _ _, False) m.
Proof.
  intros [<- Hhon] Hsig Hok Hroom. unfold import_bundle. apply wp_bind. eapply wp_mono; [| | apply check_signature_wp]; cbn.
  - intros _ m' [-> _]. apply wp_bind, wp_gets, wp_bind. rewrite (for_each_ext _ _ _ (import_one_serves sha256 b)).
    eapply wp_mono; [| | apply (fill_complete sha256 hmac); [done | |]]; cbn; [| done | |].
    + intros _ m1 (Hok1 & Hfs & Hkeep & Hall). split_and!; [done | done | done |]. intros h Hh. apply od_get_is_Some.
      destruct (decide (h ∈ keys_of m)) as [| Hn]; [by apply Hkeep |]. by apply Hall, missing_spec.
    + intros h [Hh _]%missing_spec. by apply Hhon.
    + pose proof (served_unique (bundle_source b) (availability (store m)) (mf_chunks (bn_manifest b))). unfold missing_chunks. lia.
  - intros e m' (_ & [[_ Ha] | [_ Ha]]); [| done]. rewrite Hsig in Ha. unfold sign_manifest in Ha. by rewrite hex_ascii in Ha.
Qed.
(** An export from a store that holds the chunks. *)
Lemma export_held man sig d0 (m : Mesh) :
  store_ok (store m) → held (mf_chunks man) m →
  ∃ m' d, export_dir man sig d0 m = (m', d, None) ∧ same_chunks sha256 m m' ∧
    bd_manifest d = Some (canonical_bytes man) ∧ bd_signature d = Text sig ∧
    honest sha256 (bundle_source (dir_bundle d man sig)) (mf_chunks man).
Proof.
  intros Hok Hheld. unfold export_dir.
  edestruct (write_chunks_held (unique_by id [] (mf_chunks man))) as (m' & d & Hw & Hs & H1 & H2 & H3 & _).
  - rewrite <- (list_fmap_id (unique_by id [] (mf_chunks man))). apply unique_by_NoDup.
  - exact Hok.
  - intros h [Hh _]%unique_by_subset. by apply Hheld.
  - exists m', d. split_and!; [exact Hw | done | by rewrite H1 | by rewrite H2 |]. intros h Hh.
    destruct (unique_by_complete id [] _ h Hh) as (h' & Hin & Heq); [set_solver |]. unfold id in Heq. subst h'.
    destruct (H3 h Hin) as (data & Hd & Hn). exists data. unfold bundle_source, dir_bundle. cbn. by rewrite Hd.
Qed.

(** C21: The air-gapped path works end to end.  A manifest is built from a file, and a machine whose chunk store holds
    its chunks exports them, signed, onto a directory that may already hold anything.  The export succeeds and
    leaves that store's content alone.  On a machine whose store has room for the file, the import of that directory
    under the same key returns the same manifest, and the verified reconstruction that follows writes the original
    file byte for byte; or the run has exhibited a SHA-256 collision. *)
Theorem airgap_roundtrip data model n man key d0 dest (m1 m2 : Mesh) :
  build_manifest sha256 data model n = inr man →
  store_ok (store m1) → held (mf_chunks man) m1 →
  store_ok (store m2) → (cs_used (store m2) + mf_total_size man ≤ cs_max_bytes (store m2))%Z →
  let sig := sign_manifest hmac man key in
  ∃ m1' d, export_dir man sig d0 m1 = (m1', d, None) ∧ same_chunks sha256 m1 m1' ∧
    (collision sha256 ∨
     ∃ m2' m3, import_dir sha256 hmac decode_other d key m2 = (m2', inr man) ∧
       verified_reconstruct sha256 hmac man sig key dest m2' = (m3, inr tt) ∧ fs m3 !! dest = Some data).
Proof.
  intros Hb Hok1 Hheld Hok2 Hroom sig. destruct (export_held man sig d0 m1 Hok1 Hheld) as (m1' & d & He & Hs & Hm & Hsig & Hhon).
  exists m1', d. split_and!; [done | done |]. pose proof (build_manifest_inv _ _ _ _ _ Hb) as (cs & Hcat & Hcs & Hsz & _).
  destruct (served_honest _ _ _ Hhon) as (ds & Hds & Hserved). rewrite Hcs in Hds.
  destruct (H_map_inj _ _ _ Hds) as [-> | Hcol]; [| by left].
  pose proof (import_complete (dir_bundle d man sig) man key m2) as Hi. unfold wp in Hi.
  rewrite (import_dir_readable d _ man sig key m2 Hm (parse_canonical _ _) Hsig).
  destruct (import_bundle sha256 hmac (dir_bundle d man sig) key m2) as [m2' [e | r]].
  { exfalso. apply Hi; [done | apply strip_hex | done |]. rewrite Hserved, Hcat. lia. }
  destruct Hi as (-> & Hok2' & _ & Hheld2); [done | apply strip_hex | done | rewrite Hserved, Hcat; lia |].
  pose proof (rebuild_all_held sha256 hmac data model n man key dest m2' Hb Hok2' Hheld2) as Hr. unfold wp in Hr.
  destruct (verified_reconstruct sha256 hmac man _ key dest m2') as [m3 [e | []]] eqn:Hv; [by left |].
  destruct Hr as [Hf | ?]; [| by left]. right. exists m2', m3. done.
Qed.

(** What a directory must hold for a chunk to enter the store. *)
Definition admitted_by (d : BundleDir) (key : bytes) (man : Manifest) (m m' : Mesh) : Prop :=
  ∃ data sig, bd_manifest d = Some data ∧ parse_manifest decode_other data = inr man ∧ bd_signature d = Text sig ∧
    strip sig = sign_manifest hmac man key ∧
    ∀ k, k ∈ keys_of m' → k ∈ keys_of m ∨ k ∈ mf_chunks man ∧ ∃ chunk, bd_chunks d !! k = Some chunk ∧ H chunk = k.

(** C22: An import trusts the medium for nothing.  Whatever the directory holds (missing or undecodable files, text
    that is not JSON, fields of the wrong type, a foreign signature, altered or missing chunks), the store keeps its
    invariant and its capacity and no file is written.  The store changes only if the parsed manifest's canonical
    bytes carry the directory's signature under the key; then every key it gained is a hash of that manifest, with
    a chunk file whose bytes have that hash.  A manifest is returned only under the same condition. *)
Theorem import_dir_safe d key (m : Mesh) :
  store_ok (store m) →
  let '(m', r) := import_dir sha256 hmac decode_other d key m in
  store_ok (store m') ∧ fs m' = fs m ∧ cs_max_bytes (store m') = cs_max_bytes (store m) ∧
  (m' = m ∨ ∃ man, admitted_by d key man m m') ∧
  (∀ man, r = inr man → admitted_by d key man m m').
Proof.
  intros Hok. unfold import_dir.
  destruct (bd_manifest d) as [data |] eqn:Hd; [| by split_and!; auto].
  destruct (parse_manifest decode_other data) as [e | man] eqn:Hp; [by split_and!; auto |].
  destruct (bd_signature d) as [| | sig] eqn:Hs; [by split_and!; auto | by split_and!; auto |].
  fold (dir_bundle d man sig). pose proof (import_fill sha256 hmac (dir_bundle d man sig) key m Hok) as Hw. unfold wp in Hw.
  assert (Hadm : ∀ m', strip sig = sign_manifest hmac man key →
    filled sha256 (bundle_source (dir_bundle d man sig)) (missing_chunks man (store m)) m m' → admitted_by d key man m m').
  { intros m' Hsig (_ & _ & _ & Hk). exists data, sig. split_and!; try done. intros k [? | (Hin & x & Hx & Hh)]%Hk; [by left | right].
    split; [by apply missing_spec in Hin as [? _] |]. exists x. unfold bundle_source, dir_bundle in Hx. cbn in Hx.
    destruct (bd_chunks d !! k); by simplify_eq. }
  destruct (import_bundle sha256 hmac (dir_bundle d man sig) key m) as [m' [e | r]].
  - destruct Hw as [Hf Hsame]. pose proof Hf as (? & ? & ? & _). split_and!; [done | done | done | | done].
    destruct (decide (strip sig = sign_manifest hmac man key)) as [Hsig | Hn]; [right; exists man; by apply Hadm | left; by apply Hsame].
  - destruct Hw as (-> & Hf & Hsig). pose proof Hf as (? & ? & ? & _). pose proof (Hadm m' Hsig Hf).
    split_and!; [done | done | done | right; by exists man | by intros ? [= <-]].
Qed.
End Directory.

(** ** Examples *)

Definition no_decode (data : bytes) : option (list ascii) := None.
Definition empty_dir : BundleDir := {| bd_manifest := None; bd_signature := NoFile; bd_chunks := ∅ |}.
Definition seeded : Mesh := {|
  store := {| cs_max_bytes := 8; cs_used := 3; cs_chunks := [("6162", ["a"; "b"]%byte); ("63", ["c"%byte])] |}; fs := ∅ |}.

Lemma seeded_ok : store_ok toy_sha (store seeded).
Proof.
  split; cbn; [| done | lia |].
  - unfold od_wf. cbn. by apply (bool_decide_unpack _); vm_compute.
  - intros k d Hin. repeat (apply elem_of_cons in Hin as [[= -> ->] | Hin]; [reflexivity |]). by apply elem_of_nil in Hin.
Qed.

Lemma airgap_roundtrip_witness :
  ∃ m1' d, export_dir man3 (sign_manifest toy_hmac man3 ["k"%byte]) empty_dir seeded = (m1', d, None) ∧ same_chunks toy_sha seeded m1' ∧
    (collision toy_sha ∨
     ∃ m2' m3, import_dir toy_sha toy_hmac no_decode d ["k"%byte] (empty_mesh 3) = (m2', inr man3) ∧
       verified_reconstruct toy_sha toy_hmac man3 (sign_manifest toy_hmac man3 ["k"%byte]) ["k"%byte] "out" m2' = (m3, inr tt) ∧
       fs m3 !! "out" = Some file3).
Proof.
  apply (airgap_roundtrip toy_sha toy_hmac no_decode file3 "m" 2 man3 ["k"%byte] empty_dir "out" seeded (empty_mesh 3));
    [reflexivity | apply seeded_ok | | by apply empty_mesh_ok | done].
  intros h Hh. cbn in Hh. repeat (apply elem_of_cons in Hh as [-> | Hh]; [by eexists |]). by apply elem_of_nil in Hh.
Defined.

Definition forged_dir : BundleDir := {|
  bd_manifest := Some (canonical_bytes man3); bd_signature := Text "00"; bd_chunks := {[ "63" := ["c"%byte] ]} |}.

Lemma import_dir_safe_witness :
  (import_dir toy_sha toy_hmac no_decode forged_dir ["k"%byte] (empty_mesh 3)).2 = inl verification_error ∧
  fs (import_dir toy_sha toy_hmac no_decode forged_dir ["k"%byte] (empty_mesh 3)).1 = ∅.
Proof.
  split; [by vm_compute |]. pose proof (import_dir_safe toy_sha toy_hmac no_decode forged_dir ["k"%byte] (empty_mesh 3)) as Hs.
  destruct (import_dir toy_sha toy_hmac no_decode forged_dir ["k"%byte] (empty_mesh 3)) as [m' r].
  destruct Hs as (_ & Hfs & _); [by apply empty_mesh_ok | exact Hfs].
Defined.

(** Two ways the bundle reader departs from its comments.  A manifest.json whose bytes were altered without
    changing the values (here: a blank in front) still passes the signature check, since the check is made on the
    re-serialised value and not on the file; and a manifest.json that is not UTF-8 ends the import with a decoding
    error that is not a [VerificationError]. *)
Theorem bundle_reader_gaps :
  (∃ data sig, data ≠ canonical_bytes man3 ∧
     (import_dir toy_sha toy_hmac no_decode
        {| bd_manifest := Some data; bd_signature := Text sig; bd_chunks := {[ "6162" := ["a"; "b"]%byte; "63" := ["c"%byte] ]} |}
        ["k"%byte] (empty_mesh 3)).2 = inr man3) ∧
  import_dir toy_sha toy_hmac no_decode
    {| bd_manifest := Some ["255"%byte]; bd_signature := Text ""; bd_chunks := ∅ |} ["k"%byte] (empty_mesh 3) = (empty_mesh 3, inl BadEncoding).
Proof.
  split; [| by vm_compute]. exists (" "%byte :: canonical_bytes man3), (sign_manifest toy_hmac man3 ["k"%byte]).
  split; [by intros ?%(f_equal length) | by vm_compute].
Qed.
