(* ===== verification/StoreSchema.v ===== *)
(** * Opening the stores

    Models [SqliteRegistry.open] with its migrations (src/packages/fallow-coordinator/src/fallow_coordinator/
    registry/sqlite_registry.py and schema.sql) and the version check of the vector store (rag/store.py,
    [_migrate], [_validate_schema]): what opening does to the tables of a database file written by an earlier version,
    or left by an opening that was cut off.

    Cells hold the text of an SQL literal, [None] is NULL.  A schema statement outside a transaction commits by
    itself, so an opening can be cut off after any statement. *)

From stdpp Require Import pretty.
From S2P Require Export ModelFetch.

(** ** Tables *)

Record Column := { co_column : string; co_not_null : bool; co_default : option string }.

#[export] Instance Column_eq_dec : EqDecision Column.
Proof. solve_decision. Defined.

Abbreviation Row := (gmap string (option string)).

Record Table := { tb_columns : list Column; tb_rows : list Row }.

(** The tables of the file; the queue's lie beside the registry's *)
Abbreviation Schema := (gmap string Table).

Definition column_names (t : Table) : list string := co_column <$> tb_columns t.

(** [PRAGMA table_info], the names *)
Definition table_info (t : string) (db : Schema) : list string := default [] (column_names <$> db !! t).

(** [CREATE TABLE IF NOT EXISTS] *)
Definition create_table (t : string) (columns : list Column) (db : Schema) : Schema :=
  match db !! t with Some _ => db | None => <[t := {| tb_columns := columns; tb_rows := [] |}]> db end.

(** [ALTER TABLE t ADD COLUMN c]: SQLite refuses an unknown table, a duplicate name, and NOT NULL without a default *)
Definition add_column (t : string) (c : Column) (db : Schema) : option Schema :=
  tb ← db !! t;
  if bool_decide (co_column c ∈ column_names tb) || (co_not_null c && bool_decide (co_default c = None)) then None
  else Some (<[t := {| tb_columns := tb_columns tb ++ [c]; tb_rows := insert (co_column c) (co_default c) <$> tb_rows tb |}]> db).

(** [CREATE INDEX IF NOT EXISTS] needs its table and its column; an index is not part of the model *)
Definition create_index (t column : string) (db : Schema) : option Schema :=
  if bool_decide (column ∈ table_info t db) then Some db else None.

(** ** The registry's schema *)

Definition required (name : string) : Column := {| co_column := name; co_not_null := true; co_default := None |}.
Definition nullable (name : string) : Column := {| co_column := name; co_not_null := false; co_default := None |}.
Definition defaulted (name value : string) : Column := {| co_column := name; co_not_null := true; co_default := Some value |}.

Definition AGENT_COLUMNS : list Column := [
  nullable "agent_id"; required "hostname"; required "host"; required "caps_json"; required "device_token_hash";
  required "state"; required "last_seen"; defaulted "user_idle_s" "0"; defaulted "mem_available_mb" "0";
  defaulted "gpus_json" "'[]'"; defaulted "replicas_json" "'[]'"; defaulted "serving_paused" "0";
  nullable "predicted_idle_remaining_s"; nullable "predicted_idle_confidence"; defaulted "enrollment_mode" "'legacy'";
  defaulted "transport" "'direct'"; defaulted "presence_sequence" "-1"; defaulted "presence_generation" "0";
  nullable "revoked_at"; required "registered_at"].

Definition REGISTRY_SCHEMA : list (string * list Column) := [
  ("registry_agents", AGENT_COLUMNS);
  ("registry_enrollment_tokens",
    [nullable "token_hash"; required "created_at"; nullable "used_at"; defaulted "mode" "'legacy'"; nullable "revoked_at"]);
  ("registry_api_keys",
    [nullable "key_hash"; required "name"; nullable "model_allowlist_json"; nullable "rpm_limit"; nullable "daily_limit";
     required "created_at"; nullable "revoked_at"]);
  ("registry_api_key_quota_snapshots",
    [nullable "key_hash"; required "bucket_tokens"; required "bucket_updated_at"; required "day"; required "daily_count";
     required "snapshotted_at"]);
  ("registry_models",
    [nullable "model_id"; required "manifest_json"; required "blob_path"; defaulted "enabled" "1"; required "created_at"]);
  ("registry_assignments", [required "model_id"; required "agent_id"])].

(** The six migrations in the order of [open]: a table and the columns each adds *)
Definition MIGRATIONS : list (string * list Column) := [
  ("registry_api_keys", [nullable "rpm_limit"; nullable "daily_limit"]);
  ("registry_agents", [defaulted "serving_paused" "0"]);
  ("registry_agents", [nullable "predicted_idle_remaining_s"; nullable "predicted_idle_confidence"]);
  ("registry_agents", [defaulted "enrollment_mode" "'legacy'"; defaulted "transport" "'direct'";
                       defaulted "presence_sequence" "-1"; defaulted "presence_generation" "0"]);
  ("registry_enrollment_tokens", [defaulted "mode" "'legacy'"]);
  ("registry_agents", [nullable "revoked_at"]);
  ("registry_enrollment_tokens", [nullable "revoked_at"])].

(** ** Opening *)

(** A run commits state after state; [None] at the end is an error of SQLite *)
Record Opening := { op_states : list Schema; op_result : option Schema }.

Definition step_then (r : option Schema) (k : Schema → Opening) : Opening :=
  match r with
  | None => {| op_states := []; op_result := None |}
  | Some db => let o := k db in {| op_states := db :: op_states o; op_result := op_result o |}
  end.

Definition opened (db : Schema) : Opening := {| op_states := []; op_result := Some db |}.

(** [executescript(_SCHEMA)]: the index follows the agents' table *)
Fixpoint run_script (tables : list (string * list Column)) (db : Schema) (k : Schema → Opening) : Opening :=
  match tables with
  | [] => k db
  | (t, columns) :: tables =>
      step_then (Some (create_table t columns db)) (λ db,
        if bool_decide (t = "registry_agents") then
          step_then (create_index t "device_token_hash" db) (λ db, run_script tables db k)
        else run_script tables db k)
  end.

(** The body of a migration: add the columns that [table_info] did not show *)
Fixpoint add_missing (t : string) (present : list string) (columns : list Column) (db : Schema) (k : Schema → Opening) : Opening :=
  match columns with
  | [] => k db
  | c :: columns =>
      if bool_decide (co_column c ∈ present) then add_missing t present columns db k
      else step_then (add_column t c db) (λ db, add_missing t present columns db k)
  end.

Fixpoint run_migrations (ms : list (string * list Column)) (db : Schema) (k : Schema → Opening) : Opening :=
  match ms with
  | [] => k db
  | (t, columns) :: ms => add_missing t (table_info t db) columns db (λ db, run_migrations ms db k)
  end.

(** [SqliteRegistry.open] *)
Definition registry_open (db : Schema) : Opening :=
  run_script REGISTRY_SCHEMA db (λ db, run_migrations MIGRATIONS db opened).

(** * Openings upgrade any earlier schema *)

(** ** An opening as a plan of conditions to establish *)

Inductive Ensure :=
  | ETable (t : string) (columns : list Column)
  | EIndex (t column : string)
  | EColumn (t : string) (c : Column).

Definition ensure (e : Ensure) (db : Schema) : option Schema :=
  match e with
  | ETable t columns => Some (create_table t columns db)
  | EIndex t column => create_index t column db
  | EColumn t c => if bool_decide (co_column c ∈ table_info t db) then Some db else add_column t c db
  end.

Fixpoint ensures (plan : list Ensure) (db : Schema) : option Schema :=
  match plan with [] => Some db | e :: plan => db ← ensure e db; ensures plan db end.

Definition script_plan (tables : list (string * list Column)) : list Ensure :=
  tables ≫= λ p, ETable p.1 p.2 :: if bool_decide (p.1 = "registry_agents") then [EIndex p.1 "device_token_hash"] else [].

Definition migration_plan (ms : list (string * list Column)) : list Ensure := ms ≫= λ p, EColumn p.1 <$> p.2.

Definition PLAN : list Ensure := script_plan REGISTRY_SCHEMA ++ migration_plan MIGRATIONS.

Lemma ensures_app p q db : ensures (p ++ q) db = db' ← ensures p db; ensures q db'.
Proof. revert db; induction p as [| e p IH]; intros db; [done |]. cbn. destruct (ensure e db); [apply IH | done]. Qed.

(** An opening goes through a plan: it ends as the plan does, and each committed state is that of a prefix. *)
Definition follows (o : Opening) (plan : list Ensure) (db : Schema) : Prop :=
  op_result o = ensures plan db ∧ ∀ s, s ∈ op_states o → ∃ done todo, plan = done ++ todo ∧ ensures done db = Some s.

Lemma follows_step e k plan db :
  (∀ db', ensure e db = Some db' → follows (k db') plan db') → follows (step_then (ensure e db) k) (e :: plan) db.
Proof.
  intros Hk. unfold follows. cbn [ensures]. destruct (ensure e db) as [db' |] eqn:He; cbn; [| split; [done | by intros s ?%elem_of_nil]].
  destruct (Hk db' eq_refl) as [Hr Hs]. split; [done |]. intros s [-> | (did & todo & -> & Hd)%Hs]%elem_of_cons.
  - exists [e], plan. split; [done |]. cbn. by rewrite He.
  - exists (e :: did), todo. split; [done |]. cbn. by rewrite He.
Qed.

Lemma follows_skip e o plan db : ensure e db = Some db → follows o plan db → follows o (e :: plan) db.
Proof.
  intros He [Hr Hs]. split; [cbn; by rewrite He |]. intros s (did & todo & -> & Hd)%Hs.
  exists (e :: did), todo. split; [done |]. cbn. by rewrite He.
Qed.

Lemma run_script_follows tables db k plan :
  (∀ db', follows (k db') plan db') → follows (run_script tables db k) (script_plan tables ++ plan) db.
Proof.
  intros Hk. revert db; induction tables as [| [t columns] tables IH]; intros db; [apply Hk |].
  unfold script_plan. rewrite bind_cons. cbn [run_script fst snd app]. apply (follows_step (ETable t columns)). intros db1 _.
  destruct (bool_decide (t = "registry_agents")); cbn [app]; [| apply IH]. apply (follows_step (EIndex t "device_token_hash")). intros db2 _. apply IH.
Qed.

Lemma add_column_info t c db db' :
  add_column t c db = Some db' → table_info t db' = table_info t db ++ [co_column c].
Proof.
  unfold add_column, table_info. destruct (db !! t) as [tb |]; [| done]. cbn. destruct (_ || _); [done |]. intros [= <-].
  rewrite lookup_insert_eq. cbn. unfold column_names. cbn. by rewrite fmap_app.
Qed.

Lemma add_missing_follows t present columns db k plan :
  NoDup (co_column <$> columns) → (∀ c, c ∈ columns → co_column c ∈ present ↔ co_column c ∈ table_info t db) →
  (∀ db', follows (k db') plan db') → follows (add_missing t present columns db k) ((EColumn t <$> columns) ++ plan) db.
Proof.
  intros Hnd Hp Hk. revert db Hp; induction columns as [| c columns IH]; intros db Hp; [apply Hk |].
  apply NoDup_cons in Hnd as [Hc Hnd]. cbn [add_missing fmap list_fmap app]. case_bool_decide as Hin.
  - apply follows_skip; [cbn; rewrite bool_decide_eq_true_2; [done |]; apply Hp; [by left | done] |].
    apply IH; [done |]. intros c' Hc'. apply Hp. by right.
  - assert (Hadd : ensure (EColumn t c) db = add_column t c db).
    { cbn. rewrite bool_decide_eq_false_2; [done |]. rewrite <- Hp; [done | by left]. }
    rewrite <- Hadd. apply follows_step. rewrite Hadd. intros db' Hdb'. apply IH; [done |]. intros c' Hc'.
    rewrite (add_column_info _ _ _ _ Hdb'), elem_of_app, list_elem_of_singleton, (Hp c') by (by right). split; [by left |]. intros [? | Heq]; [done |].
    exfalso. apply Hc. rewrite <- Heq. by apply list_elem_of_fmap_2.
Qed.

Lemma run_migrations_follows ms db k plan :
  Forall (λ p, NoDup (co_column <$> p.2)) ms → (∀ db', follows (k db') plan db') →
  follows (run_migrations ms db k) (migration_plan ms ++ plan) db.
Proof.
  intros HF Hk. revert db; induction HF as [| [t columns] ms Hnd _ IH]; intros db; [apply Hk |].
  unfold migration_plan. rewrite bind_cons, <- app_assoc. cbn [run_migrations fst snd]. by apply add_missing_follows; [done | done |].
Qed.

Lemma registry_open_follows db : follows (registry_open db) PLAN db.
Proof.
  apply run_script_follows. intros db1. rewrite <- (app_nil_r (migration_plan MIGRATIONS)). apply run_migrations_follows.
  - repeat apply Forall_cons_2; try apply Forall_nil; cbn; by apply (bool_decide_unpack _); vm_compute.
  - intros db2. split; [done | by intros s ?%elem_of_nil].
Qed.

(** ** What an opening keeps and adds *)

(** A table that only gained columns: the old cells stay, the new ones hold their defaults. *)
Definition grown (tb tb' : Table) : Prop :=
  tb_columns tb `prefix_of` tb_columns tb' ∧
  Forall2 (λ r r', (∀ k, k ∈ column_names tb → r' !! k = r !! k) ∧
                   ∀ c, c ∈ tb_columns tb' → c ∉ tb_columns tb → r' !! co_column c = Some (co_default c))
    (tb_rows tb) (tb_rows tb').

Definition grown_db (db db' : Schema) : Prop := ∀ t tb, db !! t = Some tb → ∃ tb', db' !! t = Some tb' ∧ grown tb tb'.

Lemma grown_names tb tb' k : grown tb tb' → k ∈ column_names tb → k ∈ column_names tb'.
Proof. intros [[more Hp] _]. unfold column_names. rewrite Hp, fmap_app, elem_of_app. by left. Qed.

Lemma grown_refl tb : grown tb tb.
Proof. split; [done |]. apply Forall_Forall2_diag, Forall_true. intros r. by split. Qed.

Lemma grown_trans tb1 tb2 tb3 : grown tb1 tb2 → grown tb2 tb3 → grown tb1 tb3.
Proof.
  intros H12 H23. pose proof H12 as [P12 F12]. pose proof H23 as [P23 F23]. split; [by etrans |].
  eapply Forall2_trans; [| exact F12 | exact F23]. cbn. intros r1 r2 r3 [A1 B1] [A2 B2]. split.
  - intros k Hk. rewrite A2, A1; [done | done | by eapply grown_names].
  - intros c Hc Hn. destruct (decide (c ∈ tb_columns tb2)) as [Hc2 | Hc2]; [| by apply B2].
    rewrite A2; [by apply B1 | by apply list_elem_of_fmap_2].
Qed.

Lemma grown_db_refl db : grown_db db db.
Proof. intros t tb Ht. exists tb. split; [done | apply grown_refl]. Qed.

Lemma grown_db_trans db1 db2 db3 : grown_db db1 db2 → grown_db db2 db3 → grown_db db1 db3.
Proof. intros H1 H2 t tb (tb2 & (tb3 & H3 & G3)%H2 & G2)%H1. exists tb3. split; [done | by eapply grown_trans]. Qed.

Lemma add_column_grown t c db db' : add_column t c db = Some db' → grown_db db db' ∧ ∀ t', t' ≠ t → db' !! t' = db !! t'.
Proof.
  unfold add_column. destruct (db !! t) as [tb |] eqn:Ht; [| done]. cbn. destruct (_ || _) eqn:Hb; [done |]. intros [= <-].
  apply orb_false_iff in Hb as [Hn%bool_decide_eq_false _].
  split; [| intros t' Ht'; by rewrite lookup_insert_ne]. intros t' tb' Ht'. destruct (decide (t' = t)) as [-> |].
  2: { exists tb'. rewrite lookup_insert_ne by done. split; [done | apply grown_refl]. }
  simplify_eq. eexists. rewrite lookup_insert_eq. split; [done |]. split; [by eexists |]. cbn.
  apply Forall2_fmap_r, Forall_Forall2_diag, Forall_true. intros r. split.
  - intros k Hk. rewrite lookup_insert_ne; [done |]. intros Heq. by subst k.
  - intros c' [? | ->%list_elem_of_singleton]%elem_of_app ?; [done |]. by rewrite lookup_insert_eq.
Qed.

Lemma ensure_grown e db db' : ensure e db = Some db' → grown_db db db'.
Proof.
  destruct e as [t columns | t column | t c]; cbn.
  - intros [= <-]. unfold create_table. destruct (db !! t) as [tb |] eqn:Ht; [apply grown_db_refl |].
    intros t' tb' Ht'. exists tb'. rewrite lookup_insert_ne by congruence. split; [done | apply grown_refl].
  - unfold create_index. case_bool_decide; [| done]. intros [= <-]. apply grown_db_refl.
  - case_bool_decide; [intros [= <-]; apply grown_db_refl | by intros [? _]%add_column_grown].
Qed.

(** ** Earlier schemas *)

Definition migrated (t column : string) : bool :=
  existsb (λ p, bool_decide (p.1 = t) && bool_decide (column ∈ co_column <$> p.2)) MIGRATIONS.

(** A table has at least the columns no migration adds. *)
Definition table_ok (t : string) (columns : list Column) (tb : Table) : Prop :=
  ∀ c, c ∈ columns → co_column c ∈ column_names tb ∨ migrated t (co_column c) = true.

(** What the plan needs of a file: each registry table is absent or lacks only columns a migration adds. *)
Definition upgradable (db : Schema) : Prop :=
  ∀ t columns tb, (t, columns) ∈ REGISTRY_SCHEMA → db !! t = Some tb → table_ok t columns tb.

(** The columns each table was first created with. *)
Definition ORIGINAL_COLUMNS : list (string * list string) := [
  ("registry_agents",
    ["agent_id"; "hostname"; "host"; "caps_json"; "device_token_hash"; "state"; "last_seen"; "user_idle_s"; "mem_available_mb";
     "gpus_json"; "replicas_json"; "registered_at"]);
  ("registry_enrollment_tokens", ["token_hash"; "created_at"; "used_at"]);
  ("registry_api_keys", ["key_hash"; "name"; "model_allowlist_json"; "created_at"; "revoked_at"]);
  ("registry_api_key_quota_snapshots",
    ["key_hash"; "bucket_tokens"; "bucket_updated_at"; "day"; "daily_count"; "snapshotted_at"]);
  ("registry_models", ["model_id"; "manifest_json"; "blob_path"; "enabled"; "created_at"]);
  ("registry_assignments", ["model_id"; "agent_id"])].

(** A file an earlier version may have written, or an opening cut off: each registry table is absent or has its
    original columns, with any of the later ones. *)
Definition historic (db : Schema) : Prop :=
  ∀ t columns tb, (t, columns) ∈ ORIGINAL_COLUMNS → db !! t = Some tb → ∀ c, c ∈ columns → c ∈ column_names tb.

(** Every column of the present schema is an original one or added by a migration. *)
Lemma schema_reached :
  Forall (λ p, Exists (λ q, q.1 = p.1 ∧
    Forall (λ c, co_column c ∈ q.2 ∨ migrated p.1 (co_column c) = true) p.2) ORIGINAL_COLUMNS) REGISTRY_SCHEMA.
Proof. apply (bool_decide_unpack _). by vm_compute. Qed.

Lemma historic_upgradable db : historic db → upgradable db.
Proof.
  intros Hh t columns tb Hin Ht c Hc. pose proof (proj1 (Forall_forall _ _) schema_reached _ Hin) as He. cbn in He.
  apply Exists_exists in He as ([t' orig] & Ho & <- & Hcs). rewrite Forall_forall in Hcs. cbn in *.
  destruct (Hcs c Hc) as [Hc' | ?]; [left | by right]. by apply (Hh t' orig tb).
Qed.

(** A file with every column of the present schema. *)
Definition current (db : Schema) : Prop :=
  ∀ t columns, (t, columns) ∈ REGISTRY_SCHEMA → ∃ tb, db !! t = Some tb ∧ ∀ c, c ∈ columns → co_column c ∈ column_names tb.

Definition satisfied (e : Ensure) (db : Schema) : Prop :=
  match e with
  | ETable t columns => ∃ tb, db !! t = Some tb ∧ table_ok t columns tb
  | EIndex t column => column ∈ table_info t db
  | EColumn t c => co_column c ∈ table_info t db
  end.

Lemma table_info_grown t db db' k : grown_db db db' → k ∈ table_info t db → k ∈ table_info t db'.
Proof.
  unfold table_info. intros Hg. destruct (db !! t) as [tb |] eqn:Ht; cbn; [| by intros ?%elem_of_nil].
  destruct (Hg t tb Ht) as (tb' & -> & G). cbn. by apply grown_names.
Qed.

Lemma satisfied_mono e db db' : grown_db db db' → satisfied e db → satisfied e db'.
Proof.
  intros Hg. destruct e as [t columns | t column | t c]; cbn; [| by apply table_info_grown ..].
  intros (tb & Ht & Hok). destruct (Hg t tb Ht) as (tb' & Ht' & G). exists tb'. split; [done |].
  intros c [Hc | Hc]%Hok; [left; by eapply grown_names | by right].
Qed.

Lemma ensure_satisfied e db : satisfied e db → ensure e db = Some db.
Proof.
  destruct e as [t columns | t column | t c]; cbn.
  - intros (tb & Ht & _). unfold create_table. by rewrite Ht.
  - intros Hin. unfold create_index. by rewrite bool_decide_eq_true_2.
  - intros Hin. by rewrite bool_decide_eq_true_2.
Qed.

Lemma ensures_satisfied plan db : Forall (λ e, satisfied e db) plan → ensures plan db = Some db.
Proof. induction 1 as [| e plan He _ IH]; [done |]. cbn. by rewrite (ensure_satisfied e db He). Qed.

(** A condition of the plan, once ensured, holds; the file stays upgradable and other tables are left alone. *)
Definition well_planned (e : Ensure) : Prop :=
  match e with
  | ETable t columns => (t, columns) ∈ REGISTRY_SCHEMA
  | EIndex t _ => True
  | EColumn t c => t ∈ REGISTRY_SCHEMA.*1
  end.

Lemma upgradable_grown db db' :
  upgradable db → grown_db db db' → (∀ t columns tb, (t, columns) ∈ REGISTRY_SCHEMA → db !! t = None → db' !! t = Some tb → table_ok t columns tb) →
  upgradable db'.
Proof.
  intros Hh Hg Hnew t columns tb Hin Ht. destruct (db !! t) as [tb0 |] eqn:H0; [| by eapply Hnew].
  destruct (Hg t tb0 H0) as (tb1 & H1 & G). simplify_eq. intros c Hc. destruct (Hh t columns tb0 Hin H0 c Hc) as [? | ?]; [left | by right].
  by eapply grown_names.
Qed.

Lemma same_columns t columns columns' : (t, columns) ∈ REGISTRY_SCHEMA → (t, columns') ∈ REGISTRY_SCHEMA → columns = columns'.
Proof.
  intros H1 H2. assert (Hnd : NoDup REGISTRY_SCHEMA.*1) by (by apply (bool_decide_unpack _); vm_compute).
  apply list_elem_of_lookup in H1 as [i H1], H2 as [j H2].
  assert (i = j) as ->; [| by simplify_eq]. apply (NoDup_lookup REGISTRY_SCHEMA.*1 i j t Hnd); rewrite list_lookup_fmap; by rewrite ?H1, ?H2.
Qed.

Lemma ensure_keeps e db db' :
  upgradable db → well_planned e → ensure e db = Some db' →
  upgradable db' ∧ satisfied e db' ∧ ∀ t, t ∉ REGISTRY_SCHEMA.*1 → db' !! t = db !! t.
Proof.
  intros Hh Hw He. pose proof (ensure_grown e db db' He) as Hg. destruct e as [t columns | t column | t c]; cbn in He, Hw.
  - injection He as He. subst db'. revert Hg. unfold create_table. destruct (db !! t) as [tb |] eqn:Ht; intros Hg.
    { split_and!; [done | | done]. exists tb. split; [done | by eapply Hh]. }
    assert (Hok : table_ok t columns {| tb_columns := columns; tb_rows := [] |}) by (intros c Hc; left; by apply list_elem_of_fmap_2).
    split_and!.
    + eapply upgradable_grown; [done | done |]. intros t' columns' tb' Hin Hn Htb. destruct (decide (t' = t)) as [-> | Hne].
      * rewrite lookup_insert_eq in Htb. simplify_eq. by rewrite (same_columns t columns' columns Hin Hw).
      * rewrite lookup_insert_ne in Htb by done. congruence.
    + eexists. by rewrite lookup_insert_eq.
    + intros t' Ht'. rewrite lookup_insert_ne; [done |]. intros ->. apply Ht'. by apply (list_elem_of_fmap_2 fst _ (t', columns)).
  - unfold create_index in He. case_bool_decide; [| done]. by simplify_eq.
  - case_bool_decide as Hin; [by simplify_eq |]. pose proof (add_column_info _ _ _ _ He) as Hi. destruct (add_column_grown _ _ _ _ He) as [_ Ho].
    split_and!; [| cbn; rewrite Hi; apply elem_of_app; right; by left | intros t' Ht'; apply Ho; by intros ->].
    eapply upgradable_grown; [done | done |]. intros t' columns tb _ Hn Htb. destruct (decide (t' = t)) as [-> | Hne].
    + unfold add_column in He. by rewrite Hn in He.
    + rewrite Ho in Htb by done. congruence.
Qed.

Lemma ensures_keep plan db db' :
  upgradable db → Forall well_planned plan → ensures plan db = Some db' →
  upgradable db' ∧ grown_db db db' ∧ Forall (λ e, satisfied e db') plan ∧ ∀ t, t ∉ REGISTRY_SCHEMA.*1 → db' !! t = db !! t.
Proof.
  intros Hh HF. revert db Hh; induction HF as [| e plan He _ IH]; intros db Hh; cbn.
  { intros [= <-]. split_and!; [done | apply grown_db_refl | by apply Forall_nil | done]. }
  destruct (ensure e db) as [db1 |] eqn:E; [| done]. cbn. intros Hr. destruct (ensure_keeps e db db1 Hh He E) as (Hh1 & Hs1 & Ho1).
  destruct (IH db1 Hh1 Hr) as (Hh' & Hg' & Hs' & Ho'). split_and!; [done | | | intros t Ht; by rewrite Ho', Ho1].
  - eapply grown_db_trans; [by eapply ensure_grown | done].
  - apply Forall_cons. split; [by eapply satisfied_mono | done].
Qed.

(** A plan in which every statement finds the table it needs never fails. *)
Definition supported (tables : list string) (e : Ensure) : bool :=
  match e with
  | ETable t columns => true
  | EIndex t column =>
      bool_decide (t ∈ tables) && negb (migrated t column) &&
      existsb (λ p, bool_decide (p.1 = t) && existsb (λ c, bool_decide (co_column c = column)) p.2) REGISTRY_SCHEMA
  | EColumn t c => bool_decide (t ∈ tables) && (negb (co_not_null c) || negb (bool_decide (co_default c = None)))
  end.

Fixpoint all_supported (tables : list string) (plan : list Ensure) : bool :=
  match plan with
  | [] => true
  | e :: plan => supported tables e && all_supported (match e with ETable t _ => t :: tables | _ => tables end) plan
  end.

Lemma ensure_total tables e db :
  upgradable db → (∀ t, t ∈ tables → is_Some (db !! t)) → supported tables e = true → is_Some (ensure e db).
Proof.
  intros Hh Ht. destruct e as [t columns | t column | t c]; cbn [ensure supported]; [by eexists | |].
  - intros [[Hin%bool_decide_eq_true Hm%negb_true_iff]%andb_prop ([t' columns] & Hs%list_elem_of_In & Hc)%existsb_exists]%andb_prop.
    cbn [fst snd] in Hc. apply andb_prop in Hc as [->%bool_decide_eq_true (c & Hc%list_elem_of_In & Hn%bool_decide_eq_true)%existsb_exists].
    destruct (Ht t Hin) as [tb Htb]. unfold create_index, table_info. rewrite Htb. cbn [fmap option_fmap option_map default].
    destruct (Hh t columns tb Hs Htb c Hc) as [Hi | ?]; [| congruence]. rewrite bool_decide_eq_true_2 by (by rewrite <- Hn). by eexists.
  - intros [[tb Htb]%bool_decide_eq_true%Ht Hd]%andb_prop. unfold add_column, table_info. rewrite Htb. cbn.
    destruct (bool_decide (co_column c ∈ column_names tb)); [by eexists |]. cbn. destruct (co_not_null c); cbn in *; [| by eexists].
    apply negb_true_iff in Hd. rewrite Hd. by eexists.
Qed.

Lemma ensures_total tables plan db :
  upgradable db → Forall well_planned plan → (∀ t, t ∈ tables → is_Some (db !! t)) → all_supported tables plan = true → is_Some (ensures plan db).
Proof.
  intros Hh HF. revert tables db Hh; induction HF as [| e plan He _ IH]; intros tables db Hh Ht; cbn [ensures all_supported]; [by eexists |]. intros [Hs Hall]%andb_prop.
  destruct (ensure_total tables e db Hh Ht Hs) as [db1 E]. rewrite E. cbn. destruct (ensure_keeps e db db1 Hh He E) as (Hh1 & Hs1 & _).
  eapply IH; [done | | exact Hall]. pose proof (ensure_grown e db db1 E) as Hg.
  assert (Hold : ∀ t, t ∈ tables → is_Some (db1 !! t)) by (intros t [tb Htb]%Ht; destruct (Hg t tb Htb) as (tb' & -> & _); by eexists).
  destruct e as [t columns | |]; try done. intros t' [-> | Hin]%elem_of_cons; [| by apply Hold]. destruct Hs1 as (tb & -> & _). by eexists.
Qed.

Lemma plan_planned : Forall well_planned PLAN.
Proof.
  unfold PLAN. cbv [script_plan migration_plan MIGRATIONS REGISTRY_SCHEMA mbind list_bind fmap list_fmap fst snd app].
  repeat apply Forall_cons_2; try apply Forall_nil; cbn [well_planned]; try exact I; cbn; set_solver.
Qed.

Lemma plan_supported : all_supported [] PLAN = true.
Proof. by vm_compute. Qed.

(** The plan runs, keeps, and ends in the present schema. *)
Lemma plan_runs db :
  upgradable db →
  ∃ db', ensures PLAN db = Some db' ∧ upgradable db' ∧ grown_db db db' ∧ Forall (λ e, satisfied e db') PLAN ∧
    ∀ t, t ∉ REGISTRY_SCHEMA.*1 → db' !! t = db !! t.
Proof.
  intros Hh. destruct (ensures_total [] PLAN db Hh plan_planned) as [db' Hr]; [by intros t ?%elem_of_nil | apply plan_supported |].
  exists db'. split; [done |]. apply ensures_keep; [done | apply plan_planned | done].
Qed.

Lemma plan_table t columns : (t, columns) ∈ REGISTRY_SCHEMA → ETable t columns ∈ PLAN.
Proof.
  intros Hin. unfold PLAN. apply elem_of_app. left. unfold script_plan. apply list_elem_of_bind. exists (t, columns). split; [by left | done].
Qed.

Lemma plan_column t column : migrated t column = true → ∃ c, co_column c = column ∧ EColumn t c ∈ PLAN.
Proof.
  unfold migrated. intros ([t' cs] & Hin & Hb)%existsb_exists. cbn in Hb. apply andb_prop in Hb as [->%bool_decide_eq_true Hc%bool_decide_eq_true].
  apply list_elem_of_fmap in Hc as (c & -> & Hc). exists c. split; [done |]. unfold PLAN. apply elem_of_app. right.
  unfold migration_plan. apply list_elem_of_bind. exists (t, cs). split; [by apply list_elem_of_fmap_2 | by apply list_elem_of_In].
Qed.

Lemma satisfied_current db : Forall (λ e, satisfied e db) PLAN → current db.
Proof.
  rewrite Forall_forall. intros Hs t columns Hin. destruct (Hs _ (plan_table t columns Hin)) as (tb & Ht & Hok).
  exists tb. split; [done |]. intros c [? | (c' & Hc' & Hin')%plan_column]%Hok; [done |].
  specialize (Hs _ Hin'). cbn in Hs. unfold table_info in Hs. rewrite Ht, Hc' in Hs. exact Hs.
Qed.

(** C39: Opening the registry upgrades any earlier database in place and can be cut off anywhere.  On a file in which
    each registry table is absent or has at least its original columns, the opening succeeds; afterwards every table
    has every column of the present schema, every row is still there with its old cells and the columns' defaults in
    the new ones, and tables of others are untouched.  From whatever statement after which an opening was cut off,
    the next opening ends in that same database, and opening that database changes nothing. *)
Theorem registry_open_upgrades db :
  historic db →
  ∃ db', op_result (registry_open db) = Some db' ∧ current db' ∧ grown_db db db' ∧
    (∀ t, t ∉ REGISTRY_SCHEMA.*1 → db' !! t = db !! t) ∧
    op_result (registry_open db') = Some db' ∧
    ∀ s, s ∈ op_states (registry_open db) → op_result (registry_open s) = Some db'.
Proof.
  intros Hh%historic_upgradable. destruct (plan_runs db Hh) as (db' & Hr & _ & Hg & Hs & Ho). destruct (registry_open_follows db) as [Hres Hst].
  exists db'. split_and!; [by rewrite Hres | by apply satisfied_current | done | done | |].
  - destruct (registry_open_follows db') as [-> _]. by apply ensures_satisfied.
  - intros s (did & todo & Hp & Hd)%Hst. destruct (registry_open_follows s) as [-> _]. rewrite Hp in Hr |- *. rewrite ensures_app, Hd in Hr.
    rewrite ensures_app, ensures_satisfied; [done |]. eapply ensures_keep; [exact Hh | | exact Hd].
    pose proof plan_planned as HF. rewrite Hp in HF. by apply Forall_app in HF as [? _].
Qed.

(** * The vector store's version *)

Definition SCHEMA_VERSION : Z := 1.

(** A vector store's file: [PRAGMA user_version], the text of every object of sqlite_master, and the identifiers and
    dimensions of the collections *)
Record RagFile := { rf_version : Z; rf_objects : gmap string string; rf_collections : gmap Z Z }.

Inductive SchemaVersionError :=
  | NewerSchema (version : Z)
  | UnversionedTables
  | IncompleteSchema
  | MissingVectorTable (table : string)
  | WrongVectorTable (table : string).

Definition vector_table_name (collection_id : Z) : string := "rag_vec_" +:+ pretty collection_id.

Definition vector_table_sql (collection_id dims : Z) : string :=
  "CREATE VIRTUAL TABLE " +:+ vector_table_name collection_id +:+ " USING vec0(embedding float[" +:+ pretty dims +:+ "])".

(** The tables and the index of [_SCHEMA]; nothing looks at their texts *)
Definition RAG_OBJECTS : list (string * string) := [
  ("rag_collections", "CREATE TABLE rag_collections"); ("rag_chunks", "CREATE TABLE rag_chunks");
  ("rag_chunks_collection_idx", "CREATE INDEX rag_chunks_collection_idx")].

Definition set_objects (version : Z) (objects : gmap string string) (f : RagFile) : RagFile :=
  {| rf_version := version; rf_objects := objects; rf_collections := rf_collections f |}.

(** [_SCHEMA] and the version, in one transaction *)
Definition create_rag_schema (f : RagFile) : RagFile :=
  set_objects SCHEMA_VERSION (foldr (λ p, insert p.1 p.2) (rf_objects f) RAG_OBJECTS) f.

(** [needle in text] *)
Fixpoint contains (needle text : list ascii) : bool :=
  bool_decide (needle `prefix_of` text) || match text with [] => false | _ :: text => contains needle text end.

(** ["".join(sql.lower().split())] *)
Definition compact_sql (sql : string) : list ascii :=
  filter (λ c, is_py_space c = false) (String.list_ascii_of_string (lower sql)).

Definition expected_text (dims : Z) : list ascii :=
  String.list_ascii_of_string ("usingvec0(embeddingfloat[" +:+ pretty dims +:+ "])").

(** One collection's turn in the loop of [_validate_schema] *)
Definition validate_collection (f : RagFile) (id dims : Z) : option SchemaVersionError :=
  let table := vector_table_name id in
  match rf_objects f !! table with
  | None => Some (MissingVectorTable table)
  | Some sql => if contains (expected_text dims) (compact_sql sql) then None else Some (WrongVectorTable table)
  end.

Fixpoint first_error (f : RagFile) (rows : list (Z * Z)) : option SchemaVersionError :=
  match rows with
  | [] => None
  | (id, dims) :: rows => match validate_collection f id dims with Some e => Some e | None => first_error f rows end
  end.

Definition validate_schema (f : RagFile) : option SchemaVersionError :=
  match rf_objects f !! "rag_collections" with
  | None => Some IncompleteSchema
  | Some _ => first_error f (map_to_list (rf_collections f))
  end.

(** [RagVectorStore._migrate] *)
Definition rag_migrate (f : RagFile) : SchemaVersionError + RagFile :=
  if (SCHEMA_VERSION <? rf_version f)%Z then inl (NewerSchema (rf_version f))
  else if (rf_version f =? SCHEMA_VERSION)%Z then match validate_schema f with Some e => inl e | None => inr f end
  else if existsb (λ p, String.prefix "rag_" p.1) (map_to_list (rf_objects f)) then inl UnversionedTables
  else inr (create_rag_schema f).

(** The schema part of [create_collection]: a row, and its vector table *)
Definition add_collection (id dims : Z) (f : RagFile) : RagFile :=
  {| rf_version := rf_version f; rf_objects := <[vector_table_name id := vector_table_sql id dims]> (rf_objects f);
     rf_collections := <[id := dims]> (rf_collections f) |}.

(** ** A file this version wrote opens *)

Lemma contains_middle needle a b : contains needle (a ++ needle ++ b) = true.
Proof.
  induction a as [| c a IH]; cbn [app].
  - destruct (needle ++ b) as [| c l] eqn:E; cbn; rewrite bool_decide_eq_true_2; try done; rewrite <- E; by eexists.
  - cbn. rewrite IH. apply orb_true_r.
Qed.

Definition lower_char (c : ascii) : ascii :=
  let n := Ascii.N_of_ascii c in if (65 <=? n)%N && (n <=? 90)%N then Ascii.ascii_of_N (n + 32) else c.

Lemma compact_chars s : compact_sql s = filter (λ c, is_py_space c = false) (lower_char <$> chars s).
Proof. unfold compact_sql, lower. by rewrite String.list_ascii_of_string_of_list_ascii. Qed.

Lemma compact_app a b : compact_sql (a +:+ b) = compact_sql a ++ compact_sql b.
Proof. by rewrite !compact_chars, list_ascii_app, fmap_app, filter_app. Qed.

Lemma compact_plain s : Forall (λ c, lower_char c = c ∧ is_py_space c = false) (chars s) → compact_sql s = chars s.
Proof.
  rewrite compact_chars. induction 1 as [| c l [Hc Hs] _ IH]; [done |]. cbn [fmap list_fmap]. rewrite Hc, filter_cons_True by done. by f_equal.
Qed.

Lemma compact_pretty (z : Z) : compact_sql (pretty z) = chars (pretty z).
Proof.
  assert (Hdig : ∀ n : Z, (0 ≤ n)%Z → Forall (λ c, lower_char c = c ∧ is_py_space c = false) (chars (pretty n))).
  { intros n (d & ds & -> & HF & _)%pretty_digits. eapply Forall_impl; [exact HF |]. intros c [v Hv].
    destruct c as [[] [] [] [] [] [] [] []]; first [done | by split]. }
  apply compact_plain. destruct z as [| p | p]; [by apply Hdig | by apply Hdig |].
  change (chars (pretty (Z.neg p))) with ("-"%char :: chars (pretty (Z.pos p))). apply Forall_cons. split; [done | by apply Hdig].
Qed.

Lemma own_table_valid id dims : contains (expected_text dims) (compact_sql (vector_table_sql id dims)) = true.
Proof.
  unfold vector_table_sql, vector_table_name, expected_text. rewrite !compact_app, !compact_pretty, !list_ascii_app.
  change (compact_sql " USING vec0(embedding float[") with (chars "usingvec0(embeddingfloat["). change (compact_sql "])") with (chars "])").
  rewrite <- (app_nil_r (chars "])")) at 2. rewrite !app_assoc. rewrite <- (app_assoc _ (chars "])")).
  pose proof (contains_middle ((chars "usingvec0(embeddingfloat[" ++ chars (pretty dims)) ++ chars "])")
    (compact_sql "CREATE VIRTUAL TABLE " ++ compact_sql "rag_vec_" ++ chars (pretty id)) []) as Hc.
  rewrite !app_assoc in Hc. rewrite !app_assoc. exact Hc.
Qed.

(** Files this version writes: a file without a schema is given one, and collections are added under new identifiers. *)
Inductive rag_written : RagFile → Prop :=
  | written_fresh f f' : rf_version f = 0%Z → rf_collections f = ∅ → rag_migrate f = inr f' → rag_written f'
  | written_collection f id dims : rag_written f → rf_collections f !! id = None → rag_written (add_collection id dims f).

Definition rag_file_ok (f : RagFile) : Prop :=
  rf_version f = SCHEMA_VERSION ∧ is_Some (rf_objects f !! "rag_collections") ∧
  ∀ id dims, rf_collections f !! id = Some dims → rf_objects f !! vector_table_name id = Some (vector_table_sql id dims).

Lemma vector_name_inj id id' : vector_table_name id = vector_table_name id' → id = id'.
Proof. unfold vector_table_name. intros H%suffix_inj. by apply (inj pretty) in H. Qed.

Lemma vector_name_other id : vector_table_name id ≠ "rag_collections".
Proof. unfold vector_table_name. by intros ?. Qed.

Lemma rag_written_ok f : rag_written f → rag_file_ok f.
Proof.
  induction 1 as [f f' Hv Hc Hm | f id dims _ (H1 & H2 & H3) Hn].
  - unfold rag_migrate in Hm. rewrite Hv in Hm. cbn in Hm. destruct (existsb _ _); [done |]. injection Hm as <-.
    split_and!; [done | |].
    + cbn. rewrite lookup_insert_eq. by eexists.
    + cbn. rewrite Hc. by intros id dims ?%lookup_empty_Some.
  - split_and!; [done | |]; cbn.
    + rewrite lookup_insert_ne by apply vector_name_other. done.
    + intros id' dims' [[<- <-] | [Hne Hl]]%lookup_insert_Some; [by rewrite lookup_insert_eq |].
      rewrite lookup_insert_ne; [by apply H3 |]. by intros ?%vector_name_inj.
Qed.

Lemma ok_no_error f rows : rag_file_ok f → (∀ id dims, (id, dims) ∈ rows → rf_collections f !! id = Some dims) → first_error f rows = None.
Proof.
  intros (_ & _ & H3). induction rows as [| [id dims] rows IH]; intros Hr; [done |]. cbn [first_error]. unfold validate_collection.
  rewrite (H3 id dims) by (apply Hr; by left). rewrite own_table_valid. apply IH. intros id' dims' Hin. apply Hr. by right.
Qed.

(** The vector store opens what it wrote and refuses what it does not know.  Whatever collections were created
    in a file, opening it again validates every vector table and leaves the file as it is; a file of a newer
    version, and one with tables of the store but no version, are refused. *)
Theorem rag_reopens f :
  (rag_written f → rag_migrate f = inr f) ∧
  ((SCHEMA_VERSION < rf_version f)%Z → rag_migrate f = inl (NewerSchema (rf_version f))) ∧
  ((rf_version f < SCHEMA_VERSION)%Z → (∃ name text, rf_objects f !! name = Some text ∧ String.prefix "rag_" name = true) →
   rag_migrate f = inl UnversionedTables).
Proof.
  unfold rag_migrate. split_and!.
  - intros Hw%rag_written_ok. pose proof Hw as (-> & [text Ht] & _). cbn. unfold validate_schema. rewrite Ht.
    rewrite ok_no_error; [done | done |]. by intros id dims ?%elem_of_map_to_list.
  - intros Hv. by rewrite (proj2 (Z.ltb_lt _ _) Hv).
  - intros Hv (name & text & Ho & Hp). rewrite (proj2 (Z.ltb_ge _ _)) by lia. rewrite (proj2 (Z.eqb_neq _ _)) by lia.
    assert (existsb (λ p, String.prefix "rag_" p.1) (map_to_list (rf_objects f)) = true) as ->; [| done].
    apply existsb_exists. exists (name, text). split; [by apply list_elem_of_In, elem_of_map_to_list | done].
Qed.

(** ** Examples *)

Definition FIRST_AGENT_COLUMNS : list Column := filter (λ c, migrated "registry_agents" (co_column c) = false) AGENT_COLUMNS.

Definition first_row : Row := list_to_map ((λ c, (co_column c, Some "x")) <$> FIRST_AGENT_COLUMNS).

(** A file of the first version, with an agent and a table of the queue. *)
Definition first_db : Schema := {[
  "registry_agents" := {| tb_columns := FIRST_AGENT_COLUMNS; tb_rows := [first_row] |};
  "work_units" := {| tb_columns := [required "unit_id"]; tb_rows := [] |} ]}.

Lemma first_db_historic : historic first_db.
Proof.
  intros t columns tb Hin Ht. unfold first_db in Ht. apply lookup_insert_Some in Ht as [[<- <-] | [_ [<- <-]%lookup_singleton_Some]].
  - revert columns Hin. assert (Hall : Forall (λ p, p.1 = "registry_agents" → Forall (λ c, c ∈ co_column <$> FIRST_AGENT_COLUMNS) p.2) ORIGINAL_COLUMNS)
      by (apply (bool_decide_unpack _); by vm_compute).
    intros columns Hin. by apply Forall_forall, (proj1 (Forall_forall _ _) Hall ("registry_agents", columns) Hin).
  - exfalso. apply (list_elem_of_fmap_2 fst) in Hin. revert Hin. apply (bool_decide_unpack _). by vm_compute.
Qed.

Lemma registry_open_upgrades_witness :
  ∃ db', op_result (registry_open first_db) = Some db' ∧ current db' ∧ db' !! "work_units" = first_db !! "work_units" ∧
    (λ tb, (λ r : Row, (r !! "host", r !! "transport", r !! "revoked_at")) <$> tb_rows tb) <$> db' !! "registry_agents" =
      Some [(Some (Some "x"), Some (Some "'direct'"), Some None)].
Proof.
  destruct (registry_open_upgrades first_db first_db_historic) as (db' & Hr & Hc & _ & Ho & _). exists db'. split; [exact Hr |]. split; [exact Hc |].
  split; [apply Ho, (bool_decide_unpack _); by vm_compute |]. clear Hc Ho.
  assert (E : (λ tb, (λ r : Row, (r !! "host", r !! "transport", r !! "revoked_at")) <$> tb_rows tb) <$>
    (op_result (registry_open first_db) ≫= lookup "registry_agents") = Some [(Some (Some "x"), Some (Some "'direct'"), Some None)]) by (by vm_compute).
  by rewrite Hr in E.
Defined.

Definition fresh_rag : RagFile := {| rf_version := 0; rf_objects := {[ "other" := "CREATE TABLE other" ]}; rf_collections := ∅ |}.

Example rag_file_reopens :
  ∃ f, rag_migrate fresh_rag = inr f ∧ rag_migrate (add_collection 7 384 f) = inr (add_collection 7 384 f) ∧
    rag_migrate (add_collection 7 384 (set_objects 2 (rf_objects f) f)) = inl (NewerSchema 2).
Proof. eexists. split; [by vm_compute |]. by split; vm_compute. Qed.
