(* ===== verification/MeshFetch.v ===== *)
(** * Models over the mesh

    Models modelserve/mesh.py and the routes of modelserve/router.py of the coordinator
    (src/packages/fallow-coordinator/src/fallow_coordinator), which serve a model's signed
    manifest, its chunks and its whole file to enrolled agents, and mesh/wire.py, fetch.py,
    store.py and transport.py of the agent (src/packages/fallow-agent/src/fallow_agent),
    which fetch a model chunk by chunk and fall back to the whole file.

    The value [json.loads] makes of a response is an argument; so is what [str] makes of a
    JSON value that is not a string or an integer, and whether a float without a value is an
    infinity.  The agent's disk is the directory of the model, a map from file names to
    contents; its operations do not fail. *)

From stdpp Require Import pretty.
From S2P Require Export ModelFetch GatewayBody HttpAuth Mesh.

(** ** The coordinator *)

(** What the blob path holds, with its time of modification. *)
Record BlobFile := { bf_content : bytes; bf_mtime_ns : Z }.

Definition fingerprint (f : BlobFile) : Z * Z := (size (bf_content f), bf_mtime_ns f).

(** [MeshManifestBuilder] *)
Record Builder := { mb_key : bytes; mb_chunk_size : Z; mb_cache : gmap string ((Z * Z) * (Manifest * string)) }.

(** [encode_signed_manifest] *)
Definition encode_signed_manifest (m : Manifest) (signature : string) : Json :=
  JObj [("manifest", JObj [
           ("model_id", JStr (mf_model_id m)); ("total_size", JInt (mf_total_size m)); ("chunk_size", JInt (mf_chunk_size m));
           ("whole_file_sha256", JStr (mf_whole_file_sha256 m)); ("chunks", JArr (JStr <$> mf_chunks m));
           ("merkle_root", JStr (mf_merkle_root m))]);
        ("signature", JStr signature)].

(** [l.index(x)] *)
Fixpoint index_of (x : string) (l : list string) : option nat :=
  match l with
  | [] => None
  | y :: l => if bool_decide (y = x) then Some 0%nat else S <$> index_of x l
  end.

(** Answers of the serving routes. *)
Inductive ServeReply :=
  | ServeError (status : Z)
  | ServeJson (body : Json)
  | ServeManifest (m : ModelManifest)
  | ServeBytes (status : Z) (chunks : list bytes).

Section Serving.
  Context (sha256 : bytes → bytes) (hmac_sha256 : bytes → bytes → bytes).

(** [MeshManifestBuilder.signed] *)
Definition signed (model : string) (file : BlobFile) (b : Builder) : Builder * (MeshError + Manifest * string) :=
  let rebuild :=
    match build_manifest sha256 (bf_content file) model (mb_chunk_size b) with
    | inl e => (b, inl e)
    | inr m =>
        let signature := sign_manifest hmac_sha256 m (mb_key b) in
        ({| mb_key := mb_key b; mb_chunk_size := mb_chunk_size b;
            mb_cache := <[model := (fingerprint file, (m, signature))]> (mb_cache b) |}, inr (m, signature))
    end in
  match mb_cache b !! model with
  | Some (fp, ms) => if bool_decide (fp = fingerprint file) then (b, inr ms) else rebuild
  | None => rebuild
  end.

(** [MeshManifestBuilder.chunk_bytes] *)
Definition chunk_bytes (model : string) (file : BlobFile) (h : string) (b : Builder) : Builder * (MeshError + option bytes) :=
  match signed model file b with
  | (b', inl e) => (b', inl e)
  | (b', inr (m, _)) =>
      match index_of h (mf_chunks m) with
      | None => (b', inr None)
      | Some index =>
          let offset := (Z.of_nat index * mf_chunk_size m)%Z in
          (b', inr (Some (take (Z.to_nat (mf_chunk_size m)) (drop (Z.to_nat offset) (bf_content file)))))
      end
  end.

(** [authenticate_agent] of httpauth.py: the status it is refused with, or the agent *)
Definition require_agent (d : RDb) (authorization : option string) : Z + agent_id :=
  match extract_bearer authorization with
  | None => inl 401%Z
  | Some token =>
      match Registry.authenticate_agent sha256 token d with
      | inl _ | inr None => inl 401%Z
      | inr (Some agent) => inr agent
      end
  end.

(** [_enabled_blob_path], and the same check in [get_blob] *)
Definition enabled_blob_path (d : RDb) (model : string) : option string :=
  match get_model model d with
  | Some record => if mo_enabled record then Some (mo_blob_path record) else None
  | None => None
  end.

(** The disk the blobs are on. *)
Abbreviation Disk := (gmap string BlobFile).

(** [get_mesh_manifest]; a missing file is an unhandled [FileNotFoundError]. *)
Definition get_mesh_manifest (d : RDb) (disk : Disk) (authorization : option string) (model : string) (b : Builder) : Builder * ServeReply :=
  match require_agent d authorization with
  | inl status => (b, ServeError status)
  | inr _ =>
      match enabled_blob_path d model with
      | None => (b, ServeError 404)
      | Some path =>
          match disk !! path with
          | None => (b, ServeError 500)
          | Some file =>
              match signed model file b with
              | (b', inl _) => (b', ServeError 500)
              | (b', inr (m, signature)) => (b', ServeJson (encode_signed_manifest m signature))
              end
          end
      end
  end.

(** [get_mesh_chunk] *)
Definition get_mesh_chunk (d : RDb) (disk : Disk) (authorization : option string) (model h : string) (b : Builder) : Builder * ServeReply :=
  match require_agent d authorization with
  | inl status => (b, ServeError status)
  | inr _ =>
      match enabled_blob_path d model with
      | None => (b, ServeError 404)
      | Some path =>
          match disk !! path with
          | None => (b, ServeError 500)
          | Some file =>
              match chunk_bytes model file h b with
              | (b', inl _) => (b', ServeError 500)
              | (b', inr None) => (b', ServeError 404)
              | (b', inr (Some data)) => (b', ServeBytes 200 [data])
              end
          end
      end
  end.

(** [get_manifest] and [get_blob] of modelserve/router.py *)
Definition get_manifest_route (d : RDb) (authorization : option string) (model : string) : ServeReply :=
  match require_agent d authorization with
  | inl status => ServeError status
  | inr _ => match Registry.get_manifest model d with None => ServeError 404 | Some m => ServeManifest m end
  end.

Definition get_blob_route (d : RDb) (disk : Disk) (authorization : option string) (model : string) (range : option string) : ServeReply :=
  match require_agent d authorization with
  | inl status => ServeError status
  | inr _ =>
      let file := path ← enabled_blob_path d model; bf_content <$> disk !! path in
      let '(status, chunks) := get_blob (match file with Some f => Some (true, Some f) | None => None end) range in
      if (400 <=? status)%Z then ServeError status else ServeBytes status chunks
  end.
End Serving.

(** ** The agent: the signed manifest *)

(** The exceptions of one fetch: [MeshError] of the agent, what the modelmesh library and
    its peers raise, [httpx.HTTPError] of the manifest request, and [OverflowError]. *)
Inductive FetchExc :=
  | AgentMeshError
  | LibraryError (e : MeshError)
  | ManifestHttpError
  | OverflowError.

(** Membership in [_FALLBACK_ERRORS]: a [ValueError] or [TypeError] of the library is not
    a [ModelmeshError]. *)
Definition falls_back (e : FetchExc) : bool :=
  match e with
  | AgentMeshError | ManifestHttpError => true
  | LibraryError (ChunkNotFound _) | LibraryError MeshVerificationError | LibraryError PeerFailed => true
  | LibraryError MeshValueError | LibraryError MeshTypeError => false
  | OverflowError => false
  end.

Section Wire.
  Context (other_str : Json → string) (is_infinity : bool).

(** [str(v)] *)
Definition py_str (v : Json) : string :=
  match v with
  | JStr s => s
  | JInt z => pretty z
  | v => other_str v
  end.

(** [int(v)]; [KeyError], [TypeError] and [ValueError] become [MeshError]. *)
Definition json_int (v : Json) : FetchExc + Z :=
  match v with
  | JInt z => inr z
  | JBool b => inr (if b then 1 else 0)%Z
  | JFloat (Some q) => inr (if Qle_bool 0 q then Qfloor q else Qceiling q)
  | JFloat None => inl (if is_infinity then OverflowError else AgentMeshError)
  | JStr s => match py_int s with Some z => inr z | None => inl AgentMeshError end
  | JNull | JArr _ | JObj _ => inl AgentMeshError
  end.

(** [raw[k]] *)
Definition json_field (k : string) (raw : list (string * Json)) : FetchExc + Json :=
  match od_get k raw with Some v => inr v | None => inl AgentMeshError end.

(** [tuple(str(chunk) for chunk in v)]: an array, the characters of a string, the keys of
    an object. *)
Definition json_strings (v : Json) : FetchExc + list string :=
  match v with
  | JArr l => inr (py_str <$> l)
  | JStr s => inr ((λ c, String c "") <$> String.list_ascii_of_string s)
  | JObj f => inr f.*1
  | _ => inl AgentMeshError
  end.

Definition parse_fields (raw : list (string * Json)) : FetchExc + Manifest :=
  let ebind {A B} (r : FetchExc + A) (k : A → FetchExc + B) := match r with inl e => inl e | inr a => k a end in
  ebind (json_field "model_id" raw) (λ model_id,
  ebind (json_field "total_size" raw) (λ v, ebind (json_int v) (λ total_size,
  ebind (json_field "chunk_size" raw) (λ v, ebind (json_int v) (λ chunk_size,
  ebind (json_field "whole_file_sha256" raw) (λ whole,
  ebind (json_field "chunks" raw) (λ v, ebind (json_strings v) (λ chunks,
  ebind (json_field "merkle_root" raw) (λ root,
  inr {| mf_model_id := py_str model_id; mf_total_size := total_size; mf_chunk_size := chunk_size;
         mf_whole_file_sha256 := py_str whole; mf_chunks := chunks; mf_merkle_root := py_str root |}))))))))).

(** [parse_signed_manifest] *)
Definition parse_signed_manifest (payload : Json) : FetchExc + Manifest * string :=
  match payload with
  | JObj fields =>
      match od_get "manifest" fields, od_get "signature" fields with
      | Some (JObj raw), Some (JStr signature) =>
          match parse_fields raw with
          | inl e => inl e
          | inr m => inr (m, signature)
          end
      | _, _ => inl AgentMeshError
      end
  | _ => inl AgentMeshError
  end.

(** ** The agent: one fetch *)

Context (sha256 : bytes → bytes) (hmac_sha256 : bytes → bytes → bytes).

(** [verified_mesh_manifest] *)
Definition verified_mesh_manifest (payload : Json) (key : bytes) (expected_sha256 : string) : FetchExc + Manifest * string :=
  match parse_signed_manifest payload with
  | inl e => inl e
  | inr (m, signature) =>
      match verify_manifest hmac_sha256 m signature key with
      | inl e => inl (LibraryError e)
      | inr false => inl AgentMeshError
      | inr true => if bool_decide (mf_whole_file_sha256 m = expected_sha256) then inr (m, signature) else inl AgentMeshError
      end
  end.

(** [path.suffix] of a file name *)
Definition path_suffix (name : string) : string :=
  let l := reverse (String.list_ascii_of_string name) in
  let '(tail, stem) := partition_at "."%char l in
  if bool_decide (tail = []) || bool_decide (stem = []) || negb (has_char "."%char l) then ""
  else "." +:+ String.string_of_list_ascii (reverse tail).

Definition SEED_SKIP_SUFFIXES : list string := [".part"; ".partial"; ".sha256"; ".tmp"].

(** The body of the loop over the directory: the chunks of one file, until one is
    refused. *)
Definition seed_file (chunk_size : Z) (file : string * bytes) (m : Mesh) : Mesh :=
  if bool_decide (path_suffix file.1 ∈ SEED_SKIP_SUFFIXES) then m
  else
    match iter_file_chunks file.2 chunk_size with
    | inl _ => m
    | inr chunks => (for_each (λ data, put sha256 data ;; mret tt) chunks m).1
    end.

(** [seed_store_from_dir] *)
Definition seed_store_from_dir (chunk_size : Z) (m : Mesh) : Mesh :=
  fold_left (λ m file, seed_file chunk_size file m) (py_sorted fst (map_to_list (fs m))) m.

(** [fetch_and_reconstruct] *)
Definition fetch_and_reconstruct (man : Manifest) (signature : string) (key : bytes) (peers : list Peer) (dest : string) : M_eff unit :=
  fetch_delta sha256 man (discover peers) ;; verified_reconstruct sha256 hmac_sha256 man signature key dest.

(** A session: what the manifest request brings and the peers for a manifest. *)
Record Session := { ms_signed_manifest : string → FetchExc + Json; ms_peers : string → Manifest → list Peer }.

(** A model's directory. *)
Abbreviation Dir := (gmap string bytes).

Definition marker_name (name : string) : string := name +:+ ".sha256".
Definition part_name (name : string) : string := name +:+ ".part".

(** [_fetch_over_mesh]: the directory and the exception, if any. *)
Definition fetch_over_mesh (session : Session) (key : bytes) (capacity : Z) (m : ModelManifest) (dir : Dir) : Dir * option FetchExc :=
  match ms_signed_manifest session (mm_model_id m) with
  | inl e => (dir, Some e)
  | inr payload =>
      match verified_mesh_manifest payload key (mm_sha256 m) with
      | inl e => (dir, Some e)
      | inr (man, signature) =>
          match new_store capacity with
          | inl e => (dir, Some (LibraryError e))
          | inr st =>
              let seeded := seed_store_from_dir (mf_chunk_size man) {| store := st; fs := dir |} in
              match fetch_and_reconstruct man signature key (ms_peers session (mm_model_id m) man) (mm_file_name m) seeded with
              | (s, inl e) => (fs s, Some (LibraryError e))
              | (s, inr _) => (<[marker_name (mm_file_name m) := String.list_byte_of_string (mm_sha256 m)]> (fs s), None)
              end
          end
      end
  end.

(** The three files the blob cache knows, in the directory. *)
Definition cache_view (name : string) (dir : Dir) : Cache := {|
  mc_blob := dir !! name; mc_part := dir !! part_name name;
  mc_marker := String.string_of_list_byte <$> dir !! marker_name name |}.

Definition set_cache (name : string) (c : Cache) (dir : Dir) : Dir :=
  partial_alter (λ _, mc_blob c) name (partial_alter (λ _, mc_part c) (part_name name)
    (partial_alter (λ _, String.list_byte_of_string <$> mc_marker c) (marker_name name) dir)).

(** [MeshModelStore.ensure]: [respond] is the blob download's network. *)
Definition mesh_ensure (session : Session) (key : bytes) (capacity : Z) (max_retries : nat) (m : ModelManifest)
    (respond : nat → option string → Attempt) (dir : Dir) : Dir * ((FetchExc + FetchError) + bytes) :=
  let name := mm_file_name m in
  match path_if_present m (cache_view name dir) with
  | Some b => (dir, inr b)
  | None =>
      match fetch_over_mesh session key capacity m dir with
      | (dir', None) => (dir', inr (default [] (dir' !! name)))
      | (dir', Some e) =>
          if falls_back e then
            let '(c, r) := ensure sha256 max_retries m respond (cache_view name dir') in
            (set_cache name c dir', match r with inl e => inl (inr e) | inr b => inr b end)
          else (dir', inl (inl e))
      end
  end.
End Wire.

(** ** The HTTP session *)

(** [raise_for_status] lets only 2xx through. *)
Definition is_success (status : Z) : bool := (200 <=? status)%Z && (status <=? 299)%Z.

(** [HttpMeshSession.signed_manifest]: no response, an error status, a body that is not
    JSON. *)
Definition http_signed_manifest (reply : option (Z * option Json)) : FetchExc + Json :=
  match reply with
  | None => inl ManifestHttpError
  | Some (status, body) =>
      if is_success status then match body with Some j => inr j | None => inl AgentMeshError end
      else inl ManifestHttpError
  end.

(** [CoordinatorPeer] *)
Definition coordinator_peer (request : string → option (Z * bytes)) (chunks : list string) : Peer := {|
  available := unique_by id [] chunks;
  fetch := λ h, match request h with
                | Some (status, body) => if is_success status then inr body else inl PeerFailed
                | None => inl PeerFailed
                end |}.

(** [HttpMeshSession] *)
Definition http_session (manifest : string → option (Z * option Json)) (chunk : string → string → option (Z * bytes)) : Session := {|
  ms_signed_manifest := λ model, http_signed_manifest (manifest model);
  ms_peers := λ model m, [coordinator_peer (chunk model) (mf_chunks m)] |}.
