(* ===== verification/MeshFetchSpec.v ===== *)
(** * What fetching over the mesh promises

    The coordinator's manifest survives its JSON envelope; against the coordinator's own
    routes a fetch reproduces the blob; whatever the coordinator or its peers send, a file
    handed out has the digest of its manifest; a failed mesh fetch leaves the blob download
    exactly where it was, unless the cache is smaller than a chunk, when the download is
    never tried. *)

From stdpp Require Import pretty.
From S2P Require Import ModelFetch RegistrySpec.
From S2P Require Export MeshFetch MeshSpec.

(** ** The envelope *)

Lemma strings_of_strs other (l : list string) : py_str other <$> (JStr <$> l) = l.
Proof. induction l as [| s l IH]; [done |]. cbn in *. by rewrite IH. Qed.

Lemma envelope_roundtrip other inf m signature :
  parse_signed_manifest other inf (encode_signed_manifest m signature) = inr (m, signature).
Proof.
  transitivity (inr (A := FetchExc) ({| mf_model_id := mf_model_id m; mf_total_size := mf_total_size m; mf_chunk_size := mf_chunk_size m;
    mf_whole_file_sha256 := mf_whole_file_sha256 m; mf_chunks := py_str other <$> (JStr <$> mf_chunks m);
    mf_merkle_root := mf_merkle_root m |}, signature)); [reflexivity |]. rewrite strings_of_strs. by destruct m.
Qed.

(** ** The coordinator's chunks *)

Lemma index_of_lookup x l i : index_of x l = Some i → l !! i = Some x.
Proof.
  revert i; induction l as [| y l IH]; intros i; cbn; [done |]. case_bool_decide as He; [intros [= <-]; by subst |].
  destruct (index_of x l) as [j |]; [| done]. intros [= <-]. by apply IH.
Qed.

Lemma index_of_Some x l : x ∈ l → ∃ i, index_of x l = Some i.
Proof.
  induction l as [| y l IH]; [by intros ?%elem_of_nil |]. intros Hx. cbn. case_bool_decide as He; [by eexists |].
  apply elem_of_cons in Hx as [-> | Hx]; [done |]. destruct (IH Hx) as [i ->]. by eexists.
Qed.

Lemma read_chunks_lookup fuel n data i c :
  read_chunks fuel n data !! i = Some c → c = take n (drop (i * n) data).
Proof.
  revert data i; induction fuel as [| fuel IH]; intros data i; destruct data as [| x data]; cbn [read_chunks]; [by destruct i .. |].
  destruct i as [| i]; cbn [lookup list_lookup]; [by intros [= <-] |]. intros H. apply IH in H as ->.
  by rewrite drop_drop.
Qed.

Section Serve.
  Context (sha256 : bytes → bytes) (hmac : bytes → bytes → bytes).
  Notation H := (chunk_hash sha256).

Lemma build_manifest_chunks data model n man :
  build_manifest sha256 data model n = inr man →
  (0 < n)%Z ∧ mf_chunk_size man = n ∧ mf_chunks man = H <$> read_chunks (length data) (Z.to_nat n) data.
Proof.
  unfold build_manifest, iter_file_chunks. destruct (Z.leb_spec n 0) as [? | Hn]; [done |].
  destruct (merkle_root _ _) as [e | root]; [done |]. by intros [= <-].
Qed.

Lemma build_manifest_total data model n :
  (0 < n)%Z → ∃ man, build_manifest sha256 data model n = inr man.
Proof.
  intros Hn. unfold build_manifest, iter_file_chunks. destruct (Z.leb_spec n 0) as [? | _]; [lia |].
  destruct (merkle_root_tree sha256 (sha256 <$> read_chunks (length data) (Z.to_nat n) data)) as (t & Ht & _).
  assert (He : to_hex <$> (sha256 <$> read_chunks (length data) (Z.to_nat n) data) = H <$> read_chunks (length data) (Z.to_nat n) data)
    by (rewrite <- list_fmap_compose; done).
  rewrite He in Ht. rewrite Ht. by eexists.
Qed.

(** What the builder remembers of a file with this fingerprint is of this file. *)
Definition coherent (model : string) (file : BlobFile) (b : Builder) : Prop :=
  ∀ ms, mb_cache b !! model = Some (fingerprint file, ms) →
    build_manifest sha256 (bf_content file) model (mb_chunk_size b) = inr ms.1 ∧ ms.2 = sign_manifest hmac ms.1 (mb_key b).

Lemma signed_spec model file b man :
  coherent model file b → build_manifest sha256 (bf_content file) model (mb_chunk_size b) = inr man →
  ∃ b', signed sha256 hmac model file b = (b', inr (man, sign_manifest hmac man (mb_key b))) ∧
    coherent model file b' ∧ mb_key b' = mb_key b ∧ mb_chunk_size b' = mb_chunk_size b.
Proof.
  intros Hc Hb. unfold signed. rewrite Hb.
  set (b1 := {| mb_key := mb_key b; mb_chunk_size := mb_chunk_size b; mb_cache := _ |}).
  assert (Hc1 : coherent model file b1) by (intros ms; cbn; rewrite lookup_insert_eq; intros [= <-]; done).
  destruct (mb_cache b !! model) as [[fp [m s]] |] eqn:Hm; [| by exists b1].
  case_bool_decide as Hf; [| by exists b1]. subst fp. destruct (Hc _ Hm) as [Hb' Hs]. cbn in *.
  rewrite Hb in Hb'. injection Hb' as <-. rewrite Hs. by exists b.
Qed.

(** A chunk of the manifest is served, and is the chunk. *)
Lemma chunk_bytes_honest model file b man h :
  coherent model file b → build_manifest sha256 (bf_content file) model (mb_chunk_size b) = inr man → h ∈ mf_chunks man →
  ∃ b' data, chunk_bytes sha256 hmac model file h b = (b', inr (Some data)) ∧ H data = h.
Proof.
  intros Hc Hb Hh. destruct (signed_spec _ _ _ _ Hc Hb) as (b' & Hs & _). unfold chunk_bytes. rewrite Hs.
  destruct (index_of_Some _ _ Hh) as [i Hi]. rewrite Hi. do 2 eexists. split; [done |].
  apply index_of_lookup in Hi. destruct (build_manifest_chunks _ _ _ _ Hb) as (Hn & Hcs & Hch). rewrite Hcs, Hch in *.
  rewrite list_lookup_fmap in Hi. destruct (read_chunks _ _ _ !! i) as [c |] eqn:Hl; [| done]. injection Hi as <-.
  apply read_chunks_lookup in Hl as ->. do 2 f_equal. f_equal. lia.
Qed.
End Serve.

(** ** Seeding *)

Section Agent.
  Context (other_str : Json → string) (is_infinity : bool) (sha256 : bytes → bytes) (hmac : bytes → bytes → bytes).
  Notation H := (chunk_hash sha256).
  Notation store_ok := (store_ok sha256).
  Notation seed_file := (seed_file sha256).
  Notation seed_store_from_dir := (seed_store_from_dir sha256).
  Notation fetch_over_mesh := (fetch_over_mesh other_str is_infinity sha256 hmac).
  Notation mesh_ensure := (mesh_ensure other_str is_infinity sha256 hmac).

(** Seeding keeps the store well-formed and adds at most [k] bytes. *)
Definition seeded (k : Z) (m m' : Mesh) : Prop :=
  store_ok (store m') ∧ fs m' = fs m ∧ cs_max_bytes (store m') = cs_max_bytes (store m) ∧
  (cs_used (store m') ≤ cs_used (store m) + k)%Z.

Lemma seeded_refl k m : store_ok (store m) → (0 ≤ k)%Z → seeded k m m.
Proof. intros Hok Hk. split_and!; [done | done | done | lia]. Qed.

Lemma seeded_trans k k' m1 m2 m3 : seeded k m1 m2 → seeded k' m2 m3 → seeded (k + k') m1 m3.
Proof. intros (_ & Hf & Hm & Hu) (Hok & Hf' & Hm' & Hu'). split_and!; [done | congruence | congruence | lia]. Qed.

Lemma seeded_weaken k k' m m' : seeded k m m' → (k ≤ k')%Z → seeded k' m m'.
Proof. intros (? & ? & ? & ?) Hk. split_and!; [done | done | done | lia]. Qed.

Lemma stored_used data s s' : store_ok s → store_ok s' → stored sha256 data s s' → (cs_used s' ≤ cs_used s + size data)%Z.
Proof.
  intros Hok Hok' (_ & [[_ ->] | (_ & gone & kept & Hc & Hc' & _)]); [cbn; unfold size; lia |].
  rewrite (so_used _ _ Hok), (so_used _ _ Hok'), Hc, Hc', !total_app. cbn. pose proof (total_nonneg gone). lia.
Qed.

Lemma seed_chunks chunks m :
  store_ok (store m) → seeded (size (concat chunks)) m (for_each (λ data, put sha256 data ;; mret tt) chunks m).1.
Proof.
  revert m; induction chunks as [| c chunks IH]; intros m Hok; [by apply seeded_refl |].
  cbn [for_each]. unfold mbind at 1, eff_bind. cbn [concat].
  assert (Hs : size (c ++ concat chunks) = (size c + size (concat chunks))%Z) by (unfold size; rewrite length_app; lia). rewrite Hs.
  assert (H0 : ∀ d, (0 ≤ size d)%Z) by (intros d; unfold size; lia).
  pose proof (put_wp sha256 c m Hok) as Hp. unfold wp in Hp. unfold mbind, eff_bind. destruct (put sha256 c m) as [m1 [e | k]].
  - destruct Hp as (_ & -> & _). apply seeded_refl; [done |]. pose proof (H0 c). pose proof (H0 (concat chunks)). lia.
  - destruct Hp as (_ & Hf & Hok1 & Hst & _). cbn. eapply seeded_trans; [| by apply IH].
    split_and!; [done | done | by destruct Hst | by apply stored_used].
Qed.

Lemma seed_file_ok n file m : store_ok (store m) → seeded (size file.2) m (seed_file n file m).
Proof.
  intros Hok. unfold MeshFetch.seed_file. assert (0 ≤ size file.2)%Z by (unfold size; lia).
  destruct (bool_decide _); [by apply seeded_refl |]. unfold iter_file_chunks. destruct (Z.leb_spec n 0) as [_ | Hn]; [by apply seeded_refl |].
  rewrite <- (read_chunks_concat (length file.2) (Z.to_nat n) file.2) at 1 by lia. by apply seed_chunks.
Qed.

Lemma seed_files_ok n files m :
  store_ok (store m) → seeded (total files) m (fold_left (λ m file, seed_file n file m) files m).
Proof.
  revert m; induction files as [| [name data] files IH]; intros m Hok; [by apply seeded_refl |].
  pose proof (seed_file_ok n (name, data) m Hok) as Hs. cbn [fold_left total]. eapply seeded_trans; [exact Hs | apply IH; by destruct Hs].
Qed.

Lemma seed_dir_ok n m : store_ok (store m) → seeded (total (map_to_list (fs m))) m (seed_store_from_dir n m).
Proof.
  intros Hok. unfold MeshFetch.seed_store_from_dir. rewrite <- (total_perm _ _ (py_sorted_perm fst (map_to_list (fs m)))). by apply seed_files_ok.
Qed.

Lemma new_store_ok cap st : new_store cap = inr st → store_ok st ∧ cs_used st = 0%Z ∧ cs_max_bytes st = cap.
Proof.
  unfold new_store. destruct (Z.leb_spec cap 0) as [? | ?]; [done |]. intros [= <-]. split_and!; [| done | done].
  split; cbn; [apply NoDup_nil_2 | done | lia | by intros k d ?%elem_of_nil].
Qed.
(** ** One fetch *)

(** The directory a successful fetch leaves. *)
Definition published (m : ModelManifest) (content : bytes) (dir : gmap string bytes) : gmap string bytes :=
  <[marker_name (mm_file_name m) := String.list_byte_of_string (mm_sha256 m)]>
    (<[mm_file_name m := content]> (delete (partial_path (mm_file_name m)) dir)).

Lemma fetch_and_reconstruct_wp man sig key peers dest (s : Mesh) :
  store_ok (store s) →
  wp (fetch_and_reconstruct sha256 hmac man sig key peers dest)
     (λ _ s', ∃ content, rebuilt sha256 man content ∧ fs s' = <[dest := content]> (delete (partial_path dest) (fs s)))
     (λ _ s', fs s' = fs s ∨ fs s' = delete (partial_path dest) (fs s)) s.
Proof.
  intros Hok. unfold fetch_and_reconstruct. apply wp_bind, fetch_delta_fill. eapply wp_mono; [| | by apply fill_wp]; cbn.
  - intros _ s1 (Hok1 & Hf & _). eapply wp_mono; [| | by apply verified_reconstruct_wp]; cbn; rewrite Hf.
    + by intros _ s2 (_ & _ & ?).
    + intros e s2 (_ & [(-> & _) | [(-> & _) | (_ & _ & ->)]]); auto.
  - intros e s1 ((_ & Hf & _) & _). by left.
Qed.

Lemma verified_manifest_sha payload key expected man sig :
  verified_mesh_manifest other_str is_infinity hmac payload key expected = inr (man, sig) → mf_whole_file_sha256 man = expected.
Proof.
  unfold verified_mesh_manifest. destruct (parse_signed_manifest _ _ _) as [e | [m s]]; [done |].
  destruct (verify_manifest _ _ _ _) as [e | []]; [done | | done]. case_bool_decide; [| done]. by intros [= <- <-].
Qed.

Lemma fetch_over_mesh_cases session key cap m dir dir' r :
  fetch_over_mesh session key cap m dir = (dir', r) →
  match r with
  | None => ∃ content, hexdigest sha256 content = mm_sha256 m ∧ dir' = published m content dir
  | Some _ => dir' = dir ∨ dir' = delete (partial_path (mm_file_name m)) dir
  end.
Proof.
  unfold MeshFetch.fetch_over_mesh. destruct (ms_signed_manifest _ _) as [e | payload]; [intros [= <- <-]; by left |].
  destruct (verified_mesh_manifest _ _ _ _ _ _) as [e | [man sig]] eqn:Hv; [intros [= <- <-]; by left |]. apply verified_manifest_sha in Hv.
  destruct (new_store cap) as [e | st] eqn:Hn; [intros [= <- <-]; by left |]. apply new_store_ok in Hn as (Hst & _).
  pose proof (seed_dir_ok (mf_chunk_size man) {| store := st; fs := dir |} Hst) as (Hok & Hf & _). cbn in Hf.
  pose proof (fetch_and_reconstruct_wp man sig key (ms_peers session (mm_model_id m) man) (mm_file_name m) _ Hok) as Hw.
  unfold wp in Hw. destruct (fetch_and_reconstruct _ _ _ _ _ _ _ _) as [s [e | u]]; intros [= <- <-]; rewrite Hf in Hw; [done |].
  destruct Hw as (content & (_ & _ & Hsha) & ->). exists content. split; [| done]. by rewrite <- Hv, <- Hsha.
Qed.

(** ** The directory's names *)

Lemma names_distinct name :
  part_name name ≠ name ∧ marker_name name ≠ name ∧ partial_path name ≠ name ∧ part_name name ≠ marker_name name ∧
  partial_path name ≠ part_name name ∧ partial_path name ≠ marker_name name.
Proof.
  unfold part_name, marker_name, partial_path. split_and!; [by apply name_suffix .. | | |]; intros Heq; by apply suffix_inj in Heq.
Qed.

(** The cache does not see the partial reconstruction. *)
Lemma cache_view_partial name dir : cache_view name (delete (partial_path name) dir) = cache_view name dir.
Proof.
  destruct (names_distinct name) as (_ & _ & ? & _ & ? & ?). unfold cache_view. by rewrite !lookup_delete_ne by done.
Qed.

Lemma cache_view_set name c dir : cache_view name (set_cache name c dir) = c.
Proof.
  destruct (names_distinct name) as (? & ? & _ & ? & _). destruct c as [b p k]. unfold cache_view, set_cache. cbn.
  rewrite lookup_partial_alter_eq, lookup_partial_alter_ne, lookup_partial_alter_eq by done.
  rewrite !lookup_partial_alter_ne, lookup_partial_alter_eq by done. f_equal. destruct k as [k |]; [| done]. cbn.
  by rewrite String.string_of_list_byte_of_string.
Qed.

Lemma cache_view_published m content dir :
  mc_blob (cache_view (mm_file_name m) (published m content dir)) = Some content ∧
  mc_marker (cache_view (mm_file_name m) (published m content dir)) = Some (mm_sha256 m).
Proof.
  destruct (names_distinct (mm_file_name m)) as (_ & ? & _). unfold published, cache_view. cbn.
  rewrite lookup_insert_ne, lookup_insert_eq, lookup_insert_eq by done. split; [done |]. cbn. by rewrite String.string_of_list_byte_of_string.
Qed.

(** ** Whatever is sent *)

Lemma mesh_ensure_cases session key cap max_retries m respond dir dir' r :
  mesh_ensure session key cap max_retries m respond dir = (dir', r) →
  let name := mm_file_name m in
  (dir' = dir ∧ ∃ b, r = inr b ∧ path_if_present m (cache_view name dir) = Some b) ∨
  (path_if_present m (cache_view name dir) = None ∧
   ((∃ content, r = inr content ∧ hexdigest sha256 content = mm_sha256 m ∧ dir' = published m content dir) ∨
    (∃ r', ensure sha256 max_retries m respond (cache_view name dir) = (cache_view name dir', r') ∧
       r = match r' with inl e => inl (inr e) | inr b => inr b end) ∨
    (∃ e, r = inl (inl e) ∧ falls_back e = false ∧ cache_view name dir' = cache_view name dir))).
Proof.
  unfold MeshFetch.mesh_ensure. cbv zeta. destruct (path_if_present m _) as [b |] eqn:Hp; [intros [= <- <-]; left; split; [done | by exists b] |].
  destruct (fetch_over_mesh session key cap m dir) as [d1 [e |]] eqn:Hf; apply fetch_over_mesh_cases in Hf; intros Hr; right; (split; [done |]).
  - assert (Hv : cache_view (mm_file_name m) d1 = cache_view (mm_file_name m) dir) by (destruct Hf as [-> | ->]; [done | apply cache_view_partial]).
    right. destruct (falls_back e) eqn:Hfb; [left | right].
    + rewrite Hv in Hr. destruct (ensure _ _ _ _ _) as [c r']. injection Hr as <- <-. exists r'. split; [| done].
      by rewrite cache_view_set.
    + injection Hr as <- <-. exists e. done.
  - left. destruct Hf as (content & Hsha & ->). injection Hr as <- <-. exists content. split_and!; [| done | done].
    pose proof (cache_view_published m content dir) as [Hb _]. cbn in Hb. by rewrite Hb.
Qed.

(** C14: whatever manifest and chunks the coordinator and its peers send and whatever the
    blob download meets, on a disk whose markers vouch for their files: a file the mesh
    store hands out has the SHA-256 digest the model's manifest names and is found again
    without a fetch; a failure leaves the published file and its marker as they were; and
    markers still vouch for their files. *)
Theorem mesh_store_verified session key cap max_retries m respond dir dir' r :
  let view := cache_view (mm_file_name m) in
  cache_sound sha256 (view dir) → mesh_ensure session key cap max_retries m respond dir = (dir', r) →
  cache_sound sha256 (view dir') ∧
  match r with
  | inr b => hexdigest sha256 b = mm_sha256 m ∧ path_if_present m (view dir') = Some b
  | inl _ => mc_blob (view dir') = mc_blob (view dir) ∧ mc_marker (view dir') = mc_marker (view dir)
  end.
Proof.
  intros view Hok Hr. destruct (mesh_ensure_cases _ _ _ _ _ _ _ _ _ Hr) as [[-> (b & -> & Hp)] | (_ & [(b & -> & Hsha & ->) | [(r' & He & ->) | (e & -> & _ & Hv)]])].
  - split; [done |]. destruct (ensure_sound sha256 max_retries m respond (view dir) (view dir) (inr b) Hok) as [_ ?]; [| done].
    unfold ensure, view. by rewrite Hp.
  - destruct (cache_view_published m b dir) as [Hb Hm]. split_and!; [| done |].
    + intros t b' Ht Hb'. unfold view in *. congruence.
    + unfold path_if_present, view. rewrite Hb, Hm, bool_decide_eq_true_2; [done |]. cbn. rewrite <- Hsha. f_equal. apply hexdigest_unspaced.
  - destruct (ensure_sound _ _ _ _ _ _ _ Hok He) as [? ?]. split; [done |]. by destruct r'.
  - unfold view. rewrite Hv. done.
Qed.

(** The mesh only adds a way to get a model.  A file comes from the cache,
    or is published by the mesh; otherwise the outcome and the cache are exactly those of the blob download
    alone, except for the exceptions that are not fallen back from: a [ValueError]
    or [TypeError] of the library and an [OverflowError]. *)
Theorem mesh_falls_back session key cap max_retries m respond dir dir' r :
  mesh_ensure session key cap max_retries m respond dir = (dir', r) →
  let view := cache_view (mm_file_name m) in
  (∃ b, r = inr b ∧ (path_if_present m (view dir) = Some b ∧ dir' = dir ∨ dir' = published m b dir)) ∨
  (∃ r', ensure sha256 max_retries m respond (view dir) = (view dir', r') ∧
     r = match r' with inl e => inl (inr e) | inr b => inr b end) ∨
  (∃ e, r = inl (inl e) ∧ e ∈ [LibraryError MeshValueError; LibraryError MeshTypeError; OverflowError] ∧ view dir' = view dir).
Proof.
  intros Hr view. destruct (mesh_ensure_cases _ _ _ _ _ _ _ _ _ Hr) as [[-> (b & -> & Hp)] | (_ & [(b & -> & _ & ->) | [(r' & He & ->) | (e & -> & Hf & Hv)]])].
  - left. exists b. by auto.
  - left. exists b. by auto.
  - right; left. by exists r'.
  - right; right. exists e. split_and!; [done | | done]. destruct e as [| [] | |]; try done; set_solver.
Qed.
End Agent.

(** ** Against the coordinator *)

(** One peer that lists a chunk is asked for it. *)
Lemma index_one (p : Peer) (hs : list string) (idx : gmap string (list Peer)) :
  (∀ h, Forall (λ q, q = p) (default [] (idx !! h))) →
  let idx' := fold_left (λ idx h, <[h := default [] (idx !! h) ++ [p]]> idx) hs idx in
  (∀ h, Forall (λ q, q = p) (default [] (idx' !! h))) ∧
  ∀ h, h ∈ hs ∨ default [] (idx !! h) ≠ [] → default [] (idx' !! h) ≠ [].
Proof.
  revert idx; induction hs as [| x hs IH]; intros idx Hall; cbn [fold_left]; [split; [done |]; by intros h [?%elem_of_nil |] |].
  destruct (IH (<[x := default [] (idx !! x) ++ [p]]> idx)) as [IH1 IH2].
  { intros h. destruct (decide (h = x)) as [-> | Hne]; [| rewrite lookup_insert_ne by done; apply Hall]. rewrite lookup_insert_eq. cbn.
    apply Forall_app. split; [apply Hall |]. apply Forall_cons. split; [done | by apply Forall_nil]. }
  split; [exact IH1 |]. intros h Hh. apply IH2. destruct (decide (h = x)) as [-> | Hne].
  - right. rewrite lookup_insert_eq. cbn. by destruct (default [] (idx !! x)).
  - rewrite lookup_insert_ne by done. destruct Hh as [Hh | Hh]; [| by right]. apply elem_of_cons in Hh as [-> | Hh]; [done | by left].
Qed.

Lemma single_peer_source p h : h ∈ available p → peer_source (discover [p]) h = fetch p h.
Proof.
  intros Hh. unfold peer_source, holders, discover. cbn [fold_left].
  destruct (index_one p (available p) ∅) as [Hall Hne]; [intros k; rewrite lookup_empty; by apply Forall_nil |].
  specialize (Hall h). specialize (Hne h (or_introl Hh)). destruct (default [] _) as [| q l]; [done |].
  by apply Forall_cons in Hall as [-> _].
Qed.

Section Deliver.
  Context (other_str : Json → string) (is_infinity : bool) (sha256 : bytes → bytes) (hmac : bytes → bytes → bytes).
  Context (d : RDb) (disk : gmap string BlobFile) (authorization : option string).
  Notation H := (chunk_hash sha256).

(** The coordinator's replies, as the agent's client sees them; [b h] is the builder when
    chunk [h] is asked for. *)
Definition manifest_reply (b : Builder) (model : string) : option (Z * option Json) :=
  match (get_mesh_manifest sha256 hmac d disk authorization model b).2 with
  | ServeJson j => Some (200%Z, Some j)
  | ServeError status => Some (status, None)
  | _ => None
  end.

Definition chunk_reply (b : string → Builder) (model h : string) : option (Z * bytes) :=
  match (get_mesh_chunk sha256 hmac d disk authorization model h (b h)).2 with
  | ServeBytes status chunks => Some (status, concat chunks)
  | ServeError status => Some (status, [])
  | _ => None
  end.

Definition coordinator_session (b : Builder) (bc : string → Builder) : Session :=
  http_session (manifest_reply b) (chunk_reply bc).

(** A builder with this key and chunk size whose memory of the file is right. *)
Definition builder_of (key : bytes) (n : Z) (model : string) (file : BlobFile) (b : Builder) : Prop :=
  coherent sha256 hmac model file b ∧ mb_key b = key ∧ mb_chunk_size b = n.

Context (model path : string) (file : BlobFile) (agent : agent_id) (key : bytes) (n : Z).
Context (Hagent : require_agent sha256 d authorization = inr agent) (Hpath : enabled_blob_path d model = Some path)
  (Hdisk : disk !! path = Some file).

Lemma manifest_served b man :
  builder_of key n model file b → build_manifest sha256 (bf_content file) model n = inr man →
  ms_signed_manifest (http_session (manifest_reply b) (λ _ _, None)) model = inr (encode_signed_manifest man (sign_manifest hmac man key)).
Proof.
  intros (Hc & <- & <-) Hb. cbn. unfold manifest_reply, get_mesh_manifest. rewrite Hagent, Hpath, Hdisk.
  destruct (signed_spec _ _ _ _ _ _ Hc Hb) as (b' & -> & _). done.
Qed.

Lemma chunks_served bc man :
  (∀ h, builder_of key n model file (bc h)) → build_manifest sha256 (bf_content file) model n = inr man →
  MeshSpec.honest sha256 (peer_source (discover [coordinator_peer (chunk_reply bc model) (mf_chunks man)])) (mf_chunks man).
Proof.
  intros Hbc Hb h Hh. rewrite single_peer_source.
  2: { cbn. destruct (unique_by_complete id [] (mf_chunks man) h Hh ltac:(set_solver)) as (y & Hy & Heq). unfold id in Heq. by subst y. }
  destruct (Hbc h) as (Hc & <- & <-). destruct (chunk_bytes_honest _ _ _ _ _ _ _ Hc Hb Hh) as (b' & data & Hd & HH).
  exists data. split; [| done]. cbn. unfold chunk_reply, get_mesh_chunk. rewrite Hagent, Hpath, Hdisk, Hd. cbn. by rewrite app_nil_r.
Qed.

(** The agent's side of the exchange, up to the fetch itself. *)
Lemma session_opens b bc man cap m dir st :
  builder_of key n model file b → build_manifest sha256 (bf_content file) model n = inr man →
  mm_model_id m = model → mm_sha256 m = hexdigest sha256 (bf_content file) → new_store cap = inr st →
  fetch_over_mesh other_str is_infinity sha256 hmac (coordinator_session b bc) key cap m dir =
    match fetch_and_reconstruct sha256 hmac man (sign_manifest hmac man key) key [coordinator_peer (chunk_reply bc model) (mf_chunks man)]
            (mm_file_name m) (seed_store_from_dir sha256 n {| store := st; fs := dir |}) with
    | (s, inl e) => (fs s, Some (LibraryError e))
    | (s, inr _) => (<[marker_name (mm_file_name m) := String.list_byte_of_string (mm_sha256 m)]> (fs s), None)
    end.
Proof.
  intros Hb Hman Hmodel Hsha Hst. unfold fetch_over_mesh. rewrite Hmodel.
  pose proof (manifest_served b man Hb Hman) as Hs. cbn in Hs |- *. rewrite Hs. unfold verified_mesh_manifest. rewrite envelope_roundtrip.
  unfold verify_manifest. unfold sign_manifest at 1. rewrite hex_ascii, bool_decide_eq_true_2 by done.
  destruct (build_manifest_inv _ _ _ _ _ Hman) as (_ & _ & _ & _ & Hw & _). rewrite Hsha, bool_decide_eq_true_2 by done.
  rewrite Hst. destruct (build_manifest_chunks _ _ _ _ _ Hman) as (_ & -> & _). done.
Qed.

(** C5: distribution works end to end.  The coordinator has the model enabled and its
    blob on disk, the agent's token authenticates and both share the key; the cache has
    room for the file beside what seeds it.  Then the mesh store returns the blob byte for
    byte from the coordinator's own routes, publishes it with its marker and never uses the
    blob download, or a SHA-256 collision is exhibited. *)
Theorem mesh_delivers b bc cap max_retries m respond dir :
  builder_of key n model file b → (∀ h, builder_of key n model file (bc h)) → (0 < n)%Z → (0 < cap)%Z →
  mm_model_id m = model → mm_sha256 m = hexdigest sha256 (bf_content file) →
  (total (map_to_list dir) + size (bf_content file) ≤ cap)%Z →
  path_if_present m (cache_view (mm_file_name m) dir) = None →
  mesh_ensure other_str is_infinity sha256 hmac (coordinator_session b bc) key cap max_retries m respond dir =
    (published m (bf_content file) dir, inr (bf_content file)) ∨ collision sha256.
Proof.
  intros Hb Hbc Hn Hcap Hmodel Hsha Hroom Hp. destruct (build_manifest_total sha256 (bf_content file) model n Hn) as [man Hman].
  destruct (build_manifest_inv _ _ _ _ _ Hman) as (_ & _ & _ & Hsz & _).
  destruct (new_store cap) as [e | st] eqn:Hst; [unfold new_store in Hst; destruct (Z.leb_spec cap 0); [lia | done] |].
  destruct (new_store_ok sha256 _ _ Hst) as (Hsok & Hu & Hmax).
  destruct (seed_dir_ok sha256 n {| store := st; fs := dir |} Hsok) as (Hok & Hf & Hm & Hused). cbn [store fs] in *.
  set (s0 := seed_store_from_dir sha256 n {| store := st; fs := dir |}) in *.
  pose proof (distribution_wp sha256 hmac (bf_content file) model n man _ key (mm_file_name m) s0 Hman Hok (chunks_served bc man Hbc Hman) ltac:(lia)) as Hw.
  pose proof (fetch_and_reconstruct_wp sha256 hmac man (sign_manifest hmac man key) key [coordinator_peer (chunk_reply bc model) (mf_chunks man)]
    (mm_file_name m) s0 Hok) as Hw'.
  unfold mesh_ensure. rewrite Hp, (session_opens b bc man cap m dir st) by done. fold s0. unfold fetch_and_reconstruct in *. unfold wp in Hw, Hw'.
  destruct ((fetch_delta _ _ _ ;; _) s0) as [s [e | u]]; [by right |]. destruct Hw as [Hw | ?]; [| by right]. left.
  destruct Hw' as (content & _ & Hfs). rewrite Hfs, lookup_insert_eq in Hw. injection Hw as ->. rewrite Hfs, Hf. fold (published m (bf_content file) dir).
  f_equal. f_equal. pose proof (cache_view_published m (bf_content file) dir) as [Hc _]. cbn in Hc. by rewrite Hc.
Qed.

(** A store never holds a chunk larger than itself. *)
Lemma chunk_fits s k c : store_ok sha256 s → od_get k (cs_chunks s) = Some c → (size c ≤ cs_max_bytes s)%Z.
Proof.
  intros Hok Hg. apply od_get_elem in Hg. pose proof (so_cap _ _ Hok). rewrite (so_used _ _ Hok) in *.
  enough (size c ≤ total (cs_chunks s))%Z by lia. clear -Hg. induction (cs_chunks s) as [| [k' c'] l IH]; [by apply elem_of_nil in Hg |]. cbn.
  pose proof (total_nonneg l). apply elem_of_cons in Hg as [[= -> ->] | Hg]; [lia |]. specialize (IH Hg). unfold size in *. lia.
Qed.

(** The first chunk of a file is larger than the store: fetching it raises [ValueError]. *)
Lemma first_chunk_refused man bc (s : Mesh) :
  store_ok sha256 (store s) → build_manifest sha256 (bf_content file) model n = inr man → (∀ h, builder_of key n model file (bc h)) →
  (cs_max_bytes (store s) < n)%Z → (cs_max_bytes (store s) < size (bf_content file))%Z → (0 ≤ cs_max_bytes (store s))%Z →
  fetch_delta sha256 man (discover [coordinator_peer (chunk_reply bc model) (mf_chunks man)]) s = (s, inl MeshValueError) ∨ collision sha256.
Proof.
  intros Hok Hman Hbc Hn Hsize H0. pose proof (chunks_served bc man Hbc Hman) as Hhon.
  destruct (build_manifest_chunks _ _ _ _ _ Hman) as (Hpos & _ & Hch). destruct (bf_content file) as [| x data] eqn:Hdata; [unfold size in Hsize; cbn in Hsize; lia |].
  cbn [length read_chunks] in Hch. set (c0 := take (Z.to_nat n) (x :: data)) in *. rewrite fmap_cons in Hch.
  assert (Hbig : (cs_max_bytes (store s) < size c0)%Z) by (unfold size, c0 in *; rewrite length_take; lia).
  destruct (decide (H c0 ∈ od_keys (cs_chunks (store s)))) as [Hin | Hout].
  { right. apply od_get_is_Some in Hin as [c Hc]. pose proof (chunk_fits _ _ _ Hok Hc). apply od_get_elem, (so_named _ _ Hok) in Hc.
    destruct (H_inj _ _ _ Hc) as [<- | ?]; [lia | done]. }
  destruct (Hhon (H c0)) as (c & Hsrc & HH); [rewrite Hch; by left |]. destruct (H_inj _ _ _ HH) as [-> | ?]; [left | by right].
  clear Hhon. revert Hsrc. generalize (discover [coordinator_peer (chunk_reply bc model) (mf_chunks man)]). intros index Hsrc.
  unfold fetch_delta, mbind, eff_bind, gets. cbv beta iota. unfold missing_chunks, availability. rewrite Hch. cbn [unique_by].
  change (id (H c0)) with (H c0). rewrite bool_decide_eq_false_2 by done. cbn [for_each]. unfold mbind, eff_bind. rewrite fetch_one_serves.
  unfold serves. rewrite Hsrc, bool_decide_eq_true_2 by done. unfold mbind, eff_bind, put, mbind, eff_bind, gets. cbv beta iota.
  by assert ((cs_max_bytes (store s) <? size c0)%Z = true) as -> by (apply Z.ltb_lt; lia).
Qed.

(** A cache smaller than one chunk turns the mesh into a way to fail.  With the
    model served correctly, every call raises the store's [ValueError], which is not
    fallen back from: whatever the blob download would have done, it is not tried, and the
    disk is unchanged, so the next call fails the same way. *)
Theorem small_cache_never_falls_back b bc cap max_retries m respond dir :
  builder_of key n model file b → (∀ h, builder_of key n model file (bc h)) → (0 < cap < n)%Z → (cap < size (bf_content file))%Z →
  mm_model_id m = model → mm_sha256 m = hexdigest sha256 (bf_content file) →
  path_if_present m (cache_view (mm_file_name m) dir) = None →
  mesh_ensure other_str is_infinity sha256 hmac (coordinator_session b bc) key cap max_retries m respond dir =
    (dir, inl (inl (LibraryError MeshValueError))) ∨ collision sha256.
Proof.
  intros Hb Hbc Hcap Hsize Hmodel Hsha Hp. destruct (build_manifest_total sha256 (bf_content file) model n ltac:(lia)) as [man Hman].
  destruct (new_store cap) as [e | st] eqn:Hst; [unfold new_store in Hst; destruct (Z.leb_spec cap 0); [lia | done] |].
  destruct (new_store_ok sha256 _ _ Hst) as (Hsok & _ & Hmax).
  destruct (seed_dir_ok sha256 n {| store := st; fs := dir |} Hsok) as (Hok & Hf & Hm & _). cbn [store fs] in *.
  destruct (first_chunk_refused man bc _ Hok Hman Hbc ltac:(lia) ltac:(lia) ltac:(lia)) as [Hd | ?]; [left | by right].
  unfold mesh_ensure. rewrite Hp, (session_opens b bc man cap m dir st) by done. unfold fetch_and_reconstruct, mbind, eff_bind. rewrite Hd. cbn. by rewrite Hf.
Qed.
End Deliver.

(** ** Who is served *)

Section Guards.
  Context (sha256 : bytes → bytes) (hmac : bytes → bytes → bytes).

(** The token authenticates a registered agent that is not revoked. *)
Definition device_token_ok (d : RDb) (authorization : option string) : Prop :=
  ∃ token agent, extract_bearer authorization = Some token ∧ Registry.authenticate_agent sha256 token d = inr (Some agent).

Lemma require_agent_ok d authorization agent : require_agent sha256 d authorization = inr agent → device_token_ok d authorization.
Proof.
  unfold require_agent. destruct (extract_bearer authorization) as [token |] eqn:He; [| done].
  destruct (Registry.authenticate_agent sha256 token d) as [e | [a |]] eqn:Ha; [done | | done]. intros _. by exists token, a.
Qed.

Lemma enabled_record d model path :
  enabled_blob_path d model = Some path → ∃ r, get_model model d = Some r ∧ mo_enabled r = true ∧ mo_blob_path r = path.
Proof. unfold enabled_blob_path. destruct (get_model model d) as [r |]; [| done]. destruct (mo_enabled r) eqn:He; [| done]. intros [= <-]. by exists r. Qed.

(** What leaves the coordinator, and of which model. *)
Definition guarded (d : RDb) (disk : gmap string BlobFile) (authorization : option string) (model : string) (reply : ServeReply) : Prop :=
  match reply with
  | ServeError status => status ∈ [401; 404; 416; 500]%Z
  | ServeJson _ | ServeBytes _ _ =>
      device_token_ok d authorization ∧
      ∃ r f, get_model model d = Some r ∧ mo_enabled r = true ∧ disk !! mo_blob_path r = Some f
  | ServeManifest m => device_token_ok d authorization ∧ ∃ r, get_model model d = Some r ∧ mo_manifest r = m
  end.

(** The serving routes give a model's bytes, chunks and signed manifest only to an
    agent whose device token authenticates, and only of an enabled model whose file is
    present; every other answer is 401, 404, 416 or 500.  The plain manifest is served of
    a disabled model too. *)
Theorem model_routes_guarded d disk authorization model range h b :
  guarded d disk authorization model (get_mesh_manifest sha256 hmac d disk authorization model b).2 ∧
  guarded d disk authorization model (get_mesh_chunk sha256 hmac d disk authorization model h b).2 ∧
  guarded d disk authorization model (get_blob_route sha256 d disk authorization model range) ∧
  guarded d disk authorization model (get_manifest_route sha256 d authorization model).
Proof.
  assert (H401 : ∀ e, require_agent sha256 d authorization = inl e → e = 401%Z).
  { intros e. unfold require_agent. destruct (extract_bearer _); [| congruence]. destruct (Registry.authenticate_agent _ _ _) as [? | []]; congruence. }
  assert (Hin : ∀ z : Z, z = 401%Z ∨ z = 404%Z ∨ z = 416%Z ∨ z = 500%Z → z ∈ [401; 404; 416; 500]%Z) by (intros z ?; destruct_or!; subst; set_solver).
  unfold get_mesh_manifest, get_mesh_chunk, get_blob_route, get_manifest_route.
  destruct (require_agent sha256 d authorization) as [e | agent] eqn:Hr.
  { rewrite (H401 e eq_refl). split_and!; apply Hin; by left. }
  apply require_agent_ok in Hr. split_and!.
  - destruct (enabled_blob_path d model) as [path |] eqn:Hp; [| apply Hin; auto]. destruct (disk !! path) as [f |] eqn:Hf; [| apply Hin; auto].
    destruct (signed _ _ _ _ _) as [b' [e | [man sig]]]; [apply Hin; auto |]. cbn. split; [done |].
    apply enabled_record in Hp as (r & Hg & He & <-). by exists r, f.
  - destruct (enabled_blob_path d model) as [path |] eqn:Hp; [| apply Hin; auto]. destruct (disk !! path) as [f |] eqn:Hf; [| apply Hin; auto].
    destruct (chunk_bytes _ _ _ _ _ _) as [b' [e | [data |]]]; [apply Hin; auto | | apply Hin; auto]. cbn. split; [done |].
    apply enabled_record in Hp as (r & Hg & He & <-). by exists r, f.
  - destruct (enabled_blob_path d model) as [path |] eqn:Hp; cbn; [| apply Hin; auto]. destruct (disk !! path) as [f |] eqn:Hf; cbn; [| apply Hin; auto].
    destruct (parse_range range _) as [e | [rg |]]; [apply Hin; auto | |];
      (cbn; split; [done |]; apply enabled_record in Hp as (r & Hg & He & <-); by exists r, f).
  - unfold Registry.get_manifest. destruct (get_model model d) as [r |] eqn:Hg; cbn; [split; [done |]; by exists r | apply Hin; auto].
Qed.
End Guards.

(** ** A concrete exchange *)

Definition blob3 : BlobFile := {| bf_content := file3; bf_mtime_ns := 7 |}.
Definition disk3 : gmap string BlobFile := {[ "/blobs/m" := blob3 ]}.
Definition manifest3 : ModelManifest := {|
  mm_model_id := "m"; mm_family := "f"; mm_quant := "q"; mm_worker_kind := CHAT; mm_file_name := "m.gguf";
  mm_sha256 := hexdigest plain_sha file3; mm_size_bytes := 3; mm_min_ram_mb := 0; mm_min_vram_mb := 0; mm_default_args := [];
  mm_chat_template_hint := None; mm_license := None; mm_source_url := None |}.
Definition registry3 : RDb := run_calls [PutModel manifest3 "/blobs/m" true 2] enrolled.
Definition builder3 : Builder := {| mb_key := []; mb_chunk_size := 2; mb_cache := ∅ |}.

Lemma builder3_ok : builder_of plain_sha toy_hmac [] 2 "m" blob3 builder3.
Proof. split_and!; [| done | done]. intros ms. cbn. rewrite lookup_empty. done. Qed.

Definition session3 : Session :=
  coordinator_session plain_sha toy_hmac registry3 disk3 (Some "Bearer device") builder3 (λ _, builder3).
Definition ensure3 (cap : Z) := mesh_ensure (λ _, "") false plain_sha toy_hmac session3 [] cap 0 manifest3 (λ _ _, NoResponse) ∅.

Lemma mesh_delivers_witness : ensure3 3 = (published manifest3 file3 ∅, inr file3) ∨ collision plain_sha.
Proof.
  apply (mesh_delivers (λ _, "") false plain_sha toy_hmac registry3 disk3 (Some "Bearer device") "m" "/blobs/m" blob3 "a" [] 2);
    [vm_compute; reflexivity | vm_compute; reflexivity | reflexivity | exact builder3_ok | intros _; exact builder3_ok | lia | lia | done | done | by vm_compute | done].
Defined.

Lemma small_cache_never_falls_back_witness : ensure3 1 = (∅, inl (inl (LibraryError MeshValueError))) ∨ collision plain_sha.
Proof.
  apply (small_cache_never_falls_back (λ _, "") false plain_sha toy_hmac registry3 disk3 (Some "Bearer device") "m" "/blobs/m" blob3 "a" [] 2);
    [vm_compute; reflexivity | vm_compute; reflexivity | reflexivity | exact builder3_ok | intros _; exact builder3_ok | lia | by vm_compute | done | done | done].
Defined.

Lemma mesh_store_verified_witness :
  cache_sound plain_sha (cache_view "m.gguf" ∅) ∧ match (ensure3 3).2 with inr b => hexdigest plain_sha b = mm_sha256 manifest3 | inl _ => True end.
Proof.
  assert (Hs : cache_sound plain_sha (cache_view (mm_file_name manifest3) ∅)) by (intros t b Ht Hb; cbn in Hb; discriminate Hb).
  split; [exact Hs |]. destruct (ensure3 3) as [dir' r] eqn:He.
  destruct (mesh_store_verified (λ _, "") false plain_sha toy_hmac session3 [] 3 0 manifest3 (λ _ _, NoResponse) ∅ dir' r Hs He) as [_ Hr].
  destruct r as [e | b]; [exact I | exact (proj1 Hr)].
Defined.

Lemma mesh_falls_back_witness : ∃ dir' r, ensure3 1 = (dir', r) ∧ (∃ e, r = inl (inl e)) ∧ cache_view "m.gguf" dir' = cache_view "m.gguf" ∅.
Proof.
  destruct (ensure3 1) as [dir' r] eqn:He. exists dir', r. split; [reflexivity |].
  destruct (mesh_falls_back (λ _, "") false plain_sha toy_hmac session3 [] 1 0 manifest3 (λ _ _, NoResponse) ∅ dir' r He)
    as [(b & -> & _) | [(r' & Hr & ->) | (e & -> & _ & Hv)]]; [vm_compute in He; discriminate He | | split; [by exists e | exact Hv]].
  vm_compute in He. injection He as _ He. destruct r'; discriminate He.
Defined.
