(* ===== verification/Standby.v ===== *)
(** * The warm standby

    Models app/standby.py (the periodic export of the state database), app/promote.py (the
    manual installation of an exported snapshot) and [_promote] of __main__.py, all of
    src/packages/fallow-coordinator/src/fallow_coordinator.

    A path is its directory and its name; the file system maps paths to contents and times
    of modification.  SQLite is an interface: what a connection reads from a database file
    and the write-ahead log beside it, what its integrity check answers, which tables a
    state has, and what the backup writes.  Operations that other processes may see between
    are lists of steps, so that a crash is a prefix. *)

From S2P Require Export Bytes.
From S2P Require Import ModelFetch.

Abbreviation Path := (string * string).

Definition with_name (p : Path) (name : string) : Path := (p.1, name).
Definition wal_of (p : Path) : Path := with_name p (p.2 +:+ "-wal").
Definition shm_of (p : Path) : Path := with_name p (p.2 +:+ "-shm").

Record Entry := { f_data : bytes; f_mtime : Q }.

Abbreviation FS := (gmap Path Entry).

(** ** SQLite *)

Class Sqlite (S : Type) := {
  sq_read : option bytes → bytes → option S;
  sq_integrity : option bytes → bytes → option (option string);
  sq_tables : S → list string;
  sq_dump : S → bytes
}.

(** What is relied on: the backup of a state is a whole database on its own that passes
    the integrity check and reads as that state. *)
Class SqliteLaws (S : Type) `{Sqlite S} := {
  dump_reads s : sq_read None (sq_dump s) = Some s;
  dump_nonempty s : sq_dump s ≠ [];
  dump_integral s : sq_integrity None (sq_dump s) = Some (Some "ok")
}.

Section Standby.
  Context {S : Type} `{Sqlite S}.

(** What a connection to [p] reads. *)
Definition db_view (fs : FS) (p : Path) : option S :=
  e ← fs !! p; sq_read (f_data <$> fs !! wal_of p) (f_data e).

(** [os.replace(a, b)] *)
Definition replace (a b : Path) (fs : FS) : FS :=
  match fs !! a with Some e => <[b := e]> (delete a fs) | None => fs end.

(** Steps one after the other. *)
Definition run_steps (steps : list (FS → FS)) (fs : FS) : FS := fold_left (λ fs step, step fs) steps fs.

(** ** Exporting *)

Definition partial_of (dest : Path) : Path := with_name dest (dest.2 +:+ ".partial").

(** [_backup_and_replace]: the temporary file is removed, created, filled ([written] is
    what it holds on the way) and renamed; [now] is the clock. *)
Definition backup_steps (dest : Path) (state : S) (written : list bytes) (now : Q) : list (FS → FS) :=
  let tmp := partial_of dest in
  [delete tmp] ++ ((λ data, <[tmp := {| f_data := data; f_mtime := now |}]>) <$> written) ++
  [<[tmp := {| f_data := sq_dump state; f_mtime := now |}]>; replace tmp dest].

(** [export_snapshot]: [None] when the source cannot be read, after the temporary file
    was removed; [stop] is where an exception or a crash ends it. *)
Definition export_snapshot (source dest : Path) (written : list bytes) (now : Q) (stop : option nat) (fs : FS) : FS * bool :=
  match db_view fs source with
  | None => (match stop with Some O => fs | _ => delete (partial_of dest) fs end, false)
  | Some state =>
      let steps := backup_steps dest state written now in
      match stop with
      | Some k => (run_steps (take k steps) fs, (length steps <=? k)%nat)
      | None => (run_steps steps fs, true)
      end
  end.

(** One turn of [run_export_loop]: whether it was stopped before or during the sleep, what
    the live coordinator did to the file system meanwhile, and how the export goes. *)
Record Turn := {
  tn_stop_before : bool; tn_live : FS → FS; tn_stop_after : bool; tn_written : list bytes; tn_now : Q; tn_fails : option nat
}.

Fixpoint run_export_loop (source dest : Path) (turns : list Turn) (fs : FS) : FS :=
  match turns with
  | [] => fs
  | t :: turns =>
      if tn_stop_before t then fs
      else
        let fs1 := tn_live t fs in
        if tn_stop_after t then fs1
        else run_export_loop source dest turns (export_snapshot source dest (tn_written t) (tn_now t) (tn_fails t) fs1).1
  end.

(** ** Promoting *)

Definition REQUIRED_TABLES : list string := ["registry_agents"; "registry_models"; "jobs"; "work_units"].

Inductive PromoteError :=
  | SnapshotNotFound | SnapshotEmpty | FailedIntegrity (detail : string) | NotADatabase | MissingTables (names : list string) | WouldClobberNewer
  | CopyFailed.

(** [_check_integrity]; a [DatabaseError] is [NotADatabase]. *)
Definition check_integrity (wal : option bytes) (main : bytes) : option PromoteError :=
  match sq_integrity wal main with
  | None => Some NotADatabase
  | Some None => Some (FailedIntegrity "no result")
  | Some (Some row) => if bool_decide (row = "ok") then None else Some (FailedIntegrity row)
  end.

Definition validate_snapshot (snapshot : Path) (fs : FS) : option PromoteError :=
  match fs !! snapshot with
  | None => Some SnapshotNotFound
  | Some e =>
      if bool_decide (f_data e = []) then Some SnapshotEmpty
      else
        match check_integrity (f_data <$> fs !! wal_of snapshot) (f_data e) with
        | Some err => Some err
        | None =>
            match db_view fs snapshot with
            | None => Some NotADatabase
            | Some state =>
                match filter (λ name, name ∉ sq_tables state) REQUIRED_TABLES with
                | [] => None
                | missing => Some (MissingTables missing)
                end
            end
        end
  end.

(** [_would_clobber_newer] *)
Definition would_clobber_newer (snapshot db_path : Path) (fs : FS) : bool :=
  match fs !! db_path, fs !! snapshot with
  | Some db, Some snap => f_mtime snap <=?q f_mtime db
  | _, _ => false
  end.

Definition promote_tmp (db_path : Path) : Path := with_name db_path (db_path.2 +:+ ".promote").

(** The steps that install [data]. *)
Definition install_steps (db_path : Path) (data : bytes) (now : Q) : list (FS → FS) :=
  let tmp := promote_tmp db_path in
  [delete tmp; <[tmp := {| f_data := data; f_mtime := now |}]>; replace tmp db_path; delete (wal_of db_path); delete (shm_of db_path)].

(** [promote]; [CopyFailed] is the [FileNotFoundError] when the snapshot is itself the
    temporary file that was just removed. *)
Definition promote (snapshot db_path : Path) (force : bool) (now : Q) (fs : FS) : FS * option PromoteError :=
  match validate_snapshot snapshot fs with
  | Some e => (fs, Some e)
  | None =>
      if negb force && would_clobber_newer snapshot db_path fs then (fs, Some WouldClobberNewer)
      else
        match delete (promote_tmp db_path) fs !! snapshot with
        | None => (delete (promote_tmp db_path) fs, Some CopyFailed)
        | Some e => (run_steps (install_steps db_path (f_data e) now) fs, None)
        end
  end.

(** [_promote]: the snapshot is the one named, or the configured standby. *)
Definition promote_command (standby_path : option Path) (db_path : Path) (snapshot : option Path) (force : bool) (now : Q) (fs : FS)
    : FS * (unit + option PromoteError) :=
  match (match snapshot with Some p => Some p | None => standby_path end) with
  | None => (fs, inl tt)
  | Some source => let '(fs', r) := promote source db_path force now fs in (fs', inr r)
  end.

(** ** Configuration: [_standby_path_is_distinct] *)
Definition standby_path_is_distinct (standby_path : option Path) (db_path : Path) : bool :=
  match standby_path with
  | None => true
  | Some p => negb (bool_decide (p = db_path)) && negb (bool_decide (partial_of p = db_path))
  end.
End Standby.

(** * What the warm standby promises

    An export replaces the snapshot whole or not at all, wherever it stops, and touches
    nothing else; a failed promotion changes nothing; a state that was exported is the
    state a promoted coordinator reads; and the check that guards a more recent primary
    looks at the wrong clock. *)

Lemma with_suffix_ne (p : Path) s : s ≠ "" → with_name p (p.2 +:+ s) ≠ p.
Proof. intros Hs Heq. apply (f_equal snd) in Heq. cbn in Heq. by apply name_suffix in Heq. Qed.

Lemma with_suffixes_ne (p : Path) s s' : s ≠ s' → with_name p (p.2 +:+ s) ≠ with_name p (p.2 +:+ s').
Proof. intros Hs [= Heq]. by apply suffix_inj in Heq. Qed.

Lemma partial_ne p : partial_of p ≠ p.
Proof. by apply with_suffix_ne. Qed.

Section Spec.
  Context {S : Type} `{SqliteLaws S}.

(** ** Exporting *)

Lemma run_steps_app (steps steps' : list (FS → FS)) (fs : FS) : run_steps (steps ++ steps') fs = run_steps steps' (run_steps steps fs).
Proof. apply fold_left_app. Qed.

(** Steps that write one file. *)
Definition only (p : Path) (step : FS → FS) : Prop := ∀ fs q, q ≠ p → step fs !! q = fs !! q.

Lemma only_run (p : Path) (steps : list (FS → FS)) (fs : FS) (q : Path) : Forall (only p) steps → q ≠ p → run_steps steps fs !! q = fs !! q.
Proof.
  intros HF Hq. revert fs; induction HF as [| step steps Hs _ IH]; intros fs; [done |]. cbn. unfold run_steps in IH. by rewrite IH, Hs.
Qed.

(** The export up to the renaming. *)
Definition fill_steps (dest : Path) (state : S) (written : list bytes) (now : Q) : list (FS → FS) :=
  [delete (partial_of dest)] ++ ((λ data, <[partial_of dest := {| f_data := data; f_mtime := now |}]>) <$> written) ++
  [<[partial_of dest := {| f_data := sq_dump state; f_mtime := now |}]>].

Lemma fill_only (dest : Path) (state : S) (written : list bytes) (now : Q) : Forall (only (partial_of dest)) (fill_steps dest state written now).
Proof.
  unfold fill_steps. rewrite !Forall_app. split_and!.
  - apply Forall_cons. split; [| by apply Forall_nil]. intros fs q Hq. by rewrite lookup_delete_ne.
  - apply Forall_fmap, Forall_forall. intros data _ fs q Hq. cbn. by rewrite lookup_insert_ne.
  - apply Forall_cons. split; [| by apply Forall_nil]. intros fs q Hq. by rewrite lookup_insert_ne.
Qed.

Lemma backup_fill (dest : Path) (state : S) (written : list bytes) (now : Q) :
  backup_steps dest state written now = fill_steps dest state written now ++ [replace (partial_of dest) dest].
Proof. unfold backup_steps, fill_steps. by rewrite <- !app_assoc. Qed.

Lemma fill_tmp (dest : Path) (state : S) (written : list bytes) (now : Q) (fs : FS) :
  run_steps (fill_steps dest state written now) fs !! partial_of dest = Some {| f_data := sq_dump state; f_mtime := now |}.
Proof. unfold fill_steps. rewrite !run_steps_app. cbn. by rewrite lookup_insert_eq. Qed.

(** The destination after a whole export. *)
Lemma backup_done (dest : Path) (state : S) (written : list bytes) (now : Q) (fs : FS) (p : Path) :
  run_steps (backup_steps dest state written now) fs !! p =
    if bool_decide (p = dest) then Some {| f_data := sq_dump state; f_mtime := now |}
    else if bool_decide (p = partial_of dest) then None else fs !! p.
Proof.
  rewrite backup_fill, run_steps_app. cbn [run_steps fold_left]. unfold run_steps at 1. cbn [fold_left]. unfold replace. rewrite fill_tmp. pose proof (partial_ne dest).
  case_bool_decide as Hp; [subst; by rewrite lookup_insert_eq |]. rewrite lookup_insert_ne by done.
  case_bool_decide as Hp'; [subst; by rewrite lookup_delete_eq |]. rewrite lookup_delete_ne by done.
  by apply (only_run (partial_of dest)); [apply fill_only |].
Qed.

(** Wherever an export stops: only its two files are touched, and the destination is as it
    was or the whole snapshot. *)
Lemma export_cases (source dest : Path) (written : list bytes) (now : Q) (stop : option nat) (fs fs' : FS) (r : bool) :
  export_snapshot source dest written now stop fs = (fs', r) →
  (∀ p, p ≠ dest → p ≠ partial_of dest → fs' !! p = fs !! p) ∧
  (fs' !! dest = fs !! dest ∨
   ∃ state, db_view fs source = Some state ∧ fs' !! dest = Some {| f_data := sq_dump state; f_mtime := now |}) ∧
  (r = true → ∃ state, db_view fs source = Some state ∧ fs' !! dest = Some {| f_data := sq_dump state; f_mtime := now |}).
Proof.
  pose proof (partial_ne dest) as Hne. unfold export_snapshot. destruct (db_view fs source) as [state |] eqn:Hv.
  2: { intros [= <- <-]. assert (Hd : ∀ p, p ≠ partial_of dest → delete (partial_of dest) fs !! p = fs !! p) by (intros; by rewrite lookup_delete_ne).
       destruct stop as [[|] |]; split_and!; try done; try (by intros; apply Hd); by left; try apply Hd. }
  assert (Hfull : ∀ p, p ≠ dest → p ≠ partial_of dest → run_steps (backup_steps dest state written now) fs !! p = fs !! p)
    by (intros p H1 H2; by rewrite backup_done, !bool_decide_eq_false_2).
  assert (Hdest : run_steps (backup_steps dest state written now) fs !! dest = Some {| f_data := sq_dump state; f_mtime := now |})
    by (by rewrite backup_done, bool_decide_eq_true_2).
  destruct stop as [k |]; [| intros [= <- <-]; split_and!; [done | by eauto | by eauto]].
  destruct (Nat.leb_spec (length (backup_steps dest state written now)) k) as [Hk | Hk].
  { rewrite take_ge by done. intros [= <- <-]. split_and!; [done | by eauto | by eauto]. }
  intros [= <- <-]. rewrite backup_fill in *. rewrite length_app in Hk. cbn [length] in Hk. rewrite take_app_le by lia.
  assert (HF : Forall (only (partial_of dest)) (take k (fill_steps dest state written now))) by (apply Forall_take, fill_only).
  split_and!; [| left | done]; intros; by apply (only_run (partial_of dest)).
Qed.

(** The standby is never torn.  Through any history of exports, whatever the live
    coordinator does meanwhile, wherever an export fails or crashes and whenever the loop
    stops, the snapshot is as it was at first or the complete database of a state the live
    database had when some turn exported it. *)
Theorem standby_always_whole (source dest : Path) (turns : list Turn) (fs : FS) :
  Forall (λ t, ∀ fs, tn_live t fs !! dest = fs !! dest) turns →
  let fs' := run_export_loop source dest turns fs in
  fs' !! dest = fs !! dest ∨
  ∃ t fs1 state, t ∈ turns ∧ db_view fs1 source = Some state ∧
    fs' !! dest = Some {| f_data := sq_dump state; f_mtime := tn_now t |} ∧ sq_read None (sq_dump state) = Some state.
Proof.
  intros HF. revert fs; induction HF as [| t turns Ht _ IH]; intros fs; [by left |]. cbn.
  destruct (tn_stop_before t); [by left |]. destruct (tn_stop_after t); [left; by apply Ht |].
  destruct (export_snapshot source dest _ _ _ _) as [fs2 r] eqn:He. apply export_cases in He as (_ & He & _). cbn [fst].
  destruct (IH fs2) as [Hi | (t' & fs1 & state & Hin & Hv & Hd & Hr)].
  - rewrite Hi. destruct He as [-> | (state & Hv & ->)]; [left; by apply Ht | right].
    exists t, (tn_live t fs), state. split_and!; [by left | done | done | apply dump_reads].
  - right. exists t', fs1, state. split_and!; [by right | done | done | done].
Qed.

(** A configuration that was accepted, and whose standby is not a sidecar of the live
    database, keeps exports away from it. *)
Lemma partial_not_sidecar (p q : Path) : partial_of p ≠ wal_of q.
Proof.
  intros [= _ Heq]. apply (f_equal (λ s, take 3 (reverse (chars s)))) in Heq. by rewrite !list_ascii_app, !reverse_app in Heq.
Qed.

Lemma export_spares_live (source dest : Path) (written : list bytes) (now : Q) (stop : option nat) (fs fs' : FS) (r : bool) :
  standby_path_is_distinct (Some dest) source = true → dest ≠ wal_of source →
  export_snapshot source dest written now stop fs = (fs', r) → db_view fs' source = db_view fs source.
Proof.
  unfold standby_path_is_distinct. rewrite andb_true_iff, !negb_true_iff, !bool_decide_eq_false. intros [H1 H2] Hw He.
  apply export_cases in He as (Hother & _). unfold db_view. rewrite !Hother; try done; by intros Heq; apply (partial_not_sidecar dest source).
Qed.

(** ** Promoting *)

Lemma install_done (db : Path) (data : bytes) (now : Q) (fs : FS) (p : Path) :
  run_steps (install_steps db data now) fs !! p =
    if bool_decide (p = db) then Some {| f_data := data; f_mtime := now |}
    else if bool_decide (p ∈ [promote_tmp db; wal_of db; shm_of db]) then None else fs !! p.
Proof.
  assert (H1 : wal_of db ≠ db) by (by apply with_suffix_ne). assert (H2 : shm_of db ≠ db) by (by apply with_suffix_ne).
  assert (H3 : promote_tmp db ≠ db) by (by apply with_suffix_ne).
  unfold install_steps, run_steps. cbn [fold_left]. unfold replace. rewrite lookup_insert_eq.
  case_bool_decide as Hp; [subst p; by rewrite !lookup_delete_ne, lookup_insert_eq by done |].
  case_bool_decide as Hi.
  - destruct (decide (p = shm_of db)) as [-> | ?]; [by rewrite lookup_delete_eq |]. rewrite lookup_delete_ne by done.
    destruct (decide (p = wal_of db)) as [-> | ?]; [by rewrite lookup_delete_eq |]. rewrite lookup_delete_ne, lookup_insert_ne by done.
    assert (p = promote_tmp db) as -> by set_solver. by rewrite lookup_delete_eq.
  - rewrite !lookup_delete_ne, lookup_insert_ne, lookup_delete_ne, lookup_insert_ne, lookup_delete_ne by set_solver. done.
Qed.

Lemma promote_cases (snapshot db : Path) (force : bool) (now : Q) (fs fs' : FS) (r : option PromoteError) :
  promote snapshot db force now fs = (fs', r) →
  match r with
  | None => ∃ e, fs !! snapshot = Some e ∧ fs' !! db = Some {| f_data := f_data e; f_mtime := now |} ∧
      db_view fs' db = sq_read None (f_data e) ∧ validate_snapshot snapshot fs = None ∧
      (force = true ∨ would_clobber_newer snapshot db fs = false) ∧
      ∀ p, p ∉ [db; promote_tmp db; wal_of db; shm_of db] → fs' !! p = fs !! p
  | Some _ => ∀ p, p ≠ promote_tmp db → fs' !! p = fs !! p
  end.
Proof.
  unfold promote. destruct (validate_snapshot snapshot fs) eqn:Hv; [by intros [= <- <-] |].
  destruct (negb force && _) eqn:Hc; [by intros [= <- <-] |]. destruct (delete _ fs !! snapshot) as [e |] eqn:He; intros Heq;
    pose proof (f_equal fst Heq) as Hf; pose proof (f_equal snd Heq) as Hr; cbn [fst snd] in Hf, Hr; subst fs' r; clear Heq.
  2: { intros p Hp. by rewrite lookup_delete_ne. }
  apply lookup_delete_Some in He as [_ He]. exists e. split_and!; [done | | | done | |].
  - by rewrite install_done, bool_decide_eq_true_2.
  - unfold db_view. assert (wal_of db ≠ db) by (by apply with_suffix_ne).
    assert (Hin : wal_of db ∈ [promote_tmp db; wal_of db; shm_of db]) by (right; left).
    by rewrite !install_done, (bool_decide_eq_true_2 (db = db)), (bool_decide_eq_false_2 (wal_of db = db)), (bool_decide_eq_true_2 _ Hin) by done.
  - destruct force; [by left |]. by right.
  - intros p Hp. rewrite install_done, !bool_decide_eq_false_2 by set_solver. done.
Qed.

(** A promotion is all or nothing.  When it returns, the live database is the
    snapshot's file with no log beside it, and nothing but it, its sidecars and the
    temporary file changed; when it raises, nothing changed (the temporary file apart). *)
Theorem promote_all_or_nothing (snapshot db : Path) (force : bool) (now : Q) (fs fs' : FS) (r : option PromoteError) :
  promote snapshot db force now fs = (fs', r) →
  match r with
  | None => ∃ e, fs !! snapshot = Some e ∧ fs' !! db = Some {| f_data := f_data e; f_mtime := now |} ∧
      db_view fs' db = sq_read None (f_data e) ∧ validate_snapshot snapshot fs = None ∧
      (force = true ∨ would_clobber_newer snapshot db fs = false) ∧
      ∀ p, p ∉ [db; promote_tmp db; wal_of db; shm_of db] → fs' !! p = fs !! p
  | Some _ => ∀ p, p ≠ promote_tmp db → fs' !! p = fs !! p
  end.
Proof. apply promote_cases. Qed.

(** A valid snapshot that may replace the live database is installed. *)
Lemma promote_goes (snapshot db : Path) (force : bool) (now : Q) (fs : FS) :
  validate_snapshot snapshot fs = None → negb force && would_clobber_newer snapshot db fs = false → snapshot ≠ promote_tmp db →
  ∃ fs', promote snapshot db force now fs = (fs', None).
Proof.
  intros Hv Hc Hne. unfold promote. rewrite Hv, Hc, lookup_delete_ne by done. unfold validate_snapshot in Hv.
  destruct (fs !! snapshot) as [e |]; [by eexists | done].
Qed.

Lemma exported_valid (dest : Path) (fs : FS) (state : S) (now : Q) :
  fs !! dest = Some {| f_data := sq_dump state; f_mtime := now |} → fs !! wal_of dest = None →
  (∀ name, name ∈ REQUIRED_TABLES → name ∈ sq_tables state) → validate_snapshot dest fs = None.
Proof.
  intros Hd Hw Ht. unfold validate_snapshot, check_integrity, db_view. rewrite Hd, Hw. cbn [f_data mbind option_bind fmap option_fmap option_map].
  rewrite bool_decide_eq_false_2, dump_integral, bool_decide_eq_true_2, dump_reads by (done || apply dump_nonempty).
  rewrite filter_none; [done |]. intros name Hn Hno. by apply Hno, Ht.
Qed.

(** C18: a failover resumes where the export left off.  A snapshot that was exported from
    a live coordinator database is accepted by promotion, forced or where the database it
    replaces does not look newer, if no log of an earlier database lay beside the snapshot
    file when it was exported; and a coordinator that opens the promoted file reads
    exactly the state that was exported. *)
Theorem failover_resumes (source dest db : Path) (written : list bytes) (now now' : Q) (fs fs1 : FS) (state : S) (force : bool) :
  db_view fs source = Some state → export_snapshot source dest written now None fs = (fs1, true) →
  (∀ name, name ∈ REQUIRED_TABLES → name ∈ sq_tables state) → fs !! wal_of dest = None →
  negb force && would_clobber_newer dest db fs1 = false → dest ≠ promote_tmp db →
  ∃ fs2, promote dest db force now' fs1 = (fs2, None) ∧ db_view fs2 db = Some state.
Proof.
  intros Hv He Ht Hw Hc Hne. apply export_cases in He as (Hother & _ & Hd). destruct (Hd eq_refl) as (state' & Hv' & Hdest).
  rewrite Hv in Hv'. injection Hv' as <-.
  assert (Hw1 : fs1 !! wal_of dest = None).
  { rewrite Hother; [done | by apply with_suffix_ne |]. intros Heq. by apply (partial_not_sidecar dest dest). }
  pose proof (exported_valid _ _ _ _ Hdest Hw1 Ht) as Hvalid. destruct (promote_goes dest db force now' fs1 Hvalid Hc Hne) as [fs2 Hp].
  exists fs2. split; [done |]. apply promote_cases in Hp as (e & He & _ & Hview & _). rewrite Hdest in He. injection He as <-.
  rewrite Hview. apply dump_reads.
Qed.

(** The guard of a more recent primary can miss it.  The database is in WAL mode, so
    its commits go to the log and the main file keeps the time of its last checkpoint: when
    that is older than the snapshot, a promotion without force goes ahead whatever the log
    holds and however recent it is, deletes the log, and the newer state is gone. *)
Theorem promote_discards_newer (snapshot db : Path) (now : Q) (fs : FS) (snap main log : Entry) (newer old : S) :
  validate_snapshot snapshot fs = None → snapshot ≠ promote_tmp db →
  fs !! snapshot = Some snap → fs !! db = Some main → fs !! wal_of db = Some log →
  (f_mtime main < f_mtime snap)%Q → (f_mtime snap < f_mtime log)%Q →
  db_view fs db = Some newer → sq_read None (f_data snap) = Some old → old ≠ newer →
  ∃ fs', promote snapshot db false now fs = (fs', None) ∧ db_view fs' db = Some old ∧ fs' !! wal_of db = None.
Proof.
  intros Hv Hne Hs Hm Hl Hlt _ _ Hold _.
  assert (Hc : negb false && would_clobber_newer snapshot db fs = false).
  { cbn. unfold would_clobber_newer. rewrite Hm, Hs. by apply Qle_bool_false. }
  destruct (promote_goes snapshot db false now fs Hv Hc Hne) as [fs' Hp]. exists fs'. split; [done |].
  pose proof (promote_cases _ _ _ _ _ _ _ Hp) as (e & He & _ & Hview & _). rewrite Hs in He. injection He as <-. rewrite Hview. split; [done |].
  unfold promote in Hp. rewrite Hv, Hc, lookup_delete_ne, Hs in Hp by done. pose proof (f_equal fst Hp) as Hf. cbn [fst] in Hf. subst fs'.
  assert (Hin : wal_of db ∈ [promote_tmp db; wal_of db; shm_of db]) by (right; left).
  by rewrite install_done, (bool_decide_eq_false_2 (wal_of db = db)), (bool_decide_eq_true_2 _ Hin) by (by apply with_suffix_ne).
Qed.
End Spec.

(** ** A toy database: a state is its bytes, the log extends them *)

#[local] Instance toy_sqlite : Sqlite bytes := {|
  sq_read wal main := match main with Byte.x01 :: s => Some (s ++ default [] wal) | _ => None end;
  sq_integrity _ _ := Some (Some "ok"); sq_tables _ := REQUIRED_TABLES; sq_dump s := Byte.x01 :: s |}.

#[local] Instance toy_sqlite_laws : SqliteLaws bytes.
Proof. split; [| done | done]. intros s. cbn. by rewrite app_nil_r. Qed.

Definition live_path : Path := ("/srv", "coordinator.db").
Definition standby_at : Path := ("/mnt", "standby.db").

(** A live database with a commit in its log. *)
Definition live_fs : FS :=
  {[ live_path := {| f_data := [Byte.x01; Byte.x41]; f_mtime := 10 |}; wal_of live_path := {| f_data := [Byte.x42]; f_mtime := 90 |} ]}.

Definition exported_fs : FS := (export_snapshot live_path standby_at [[]] 60 None live_fs).1.

Lemma failover_resumes_witness :
  ∃ fs2, promote standby_at ("/srv2", "coordinator.db") false 100 exported_fs = (fs2, None) ∧
    db_view fs2 ("/srv2", "coordinator.db") = Some [Byte.x41; Byte.x42].
Proof.
  apply (failover_resumes live_path standby_at ("/srv2", "coordinator.db") [[]] 60 100 live_fs exported_fs [Byte.x41; Byte.x42] false);
    [vm_compute; reflexivity | apply injective_projections; [reflexivity | vm_compute; reflexivity] | intros name Hn; exact Hn | vm_compute; reflexivity | vm_compute; reflexivity | discriminate].
Defined.

Lemma standby_always_whole_witness :
  let turn := {| tn_stop_before := false; tn_live := λ fs, fs; tn_stop_after := false; tn_written := [[]]; tn_now := 60; tn_fails := Some 2%nat |} in
  run_export_loop live_path standby_at [turn] live_fs !! standby_at = None ∨
  ∃ t fs1 (state : bytes), t ∈ [turn] ∧ db_view fs1 live_path = Some state.
Proof.
  intros turn. destruct (standby_always_whole live_path standby_at [turn] live_fs) as [Hn | (t & fs1 & state & Hin & Hv & _)].
  - apply Forall_cons. split; [intros fs; reflexivity | apply Forall_nil; exact I].
  - left. rewrite Hn. vm_compute. reflexivity.
  - right. exists t, fs1, state. split; [exact Hin | exact Hv].
Defined.

Lemma promote_all_or_nothing_witness :
  ∃ fs' r, promote standby_at live_path false 100 live_fs = (fs', Some r) ∧ fs' !! live_path = live_fs !! live_path.
Proof.
  assert (Hr : (promote standby_at live_path false 100 live_fs).2 = Some SnapshotNotFound) by (vm_compute; reflexivity).
  destruct (promote standby_at live_path false 100 live_fs) as [fs' r] eqn:Hp. cbn [snd] in Hr. subst r.
  exists fs', SnapshotNotFound. split; [reflexivity |]. apply (promote_all_or_nothing _ _ _ _ _ _ _ Hp). discriminate.
Defined.

(** The log gained a commit after the export. *)
Definition later_fs : FS := <[wal_of live_path := {| f_data := [Byte.x42; Byte.x43]; f_mtime := 95 |}]> exported_fs.

Lemma promote_discards_newer_witness :
  db_view later_fs live_path = Some [Byte.x41; Byte.x42; Byte.x43] ∧
  ∃ fs', promote standby_at live_path false 100 later_fs = (fs', None) ∧ db_view fs' live_path = Some [Byte.x41; Byte.x42].
Proof.
  split; [vm_compute; reflexivity |].
  destruct (promote_discards_newer standby_at live_path 100 later_fs {| f_data := [Byte.x01; Byte.x41; Byte.x42]; f_mtime := 60 |}
    {| f_data := [Byte.x01; Byte.x41]; f_mtime := 10 |} {| f_data := [Byte.x42; Byte.x43]; f_mtime := 95 |}
    [Byte.x41; Byte.x42; Byte.x43] [Byte.x41; Byte.x42]) as (fs' & Hp & Hv & _);
    [vm_compute; reflexivity | discriminate | vm_compute; reflexivity .. | discriminate |]. exists fs'. split; [exact Hp | exact Hv].
Defined.
