(* ===== verification/Config.v ===== *)
(** * The coordinator's configuration

    Models app/config.py of src/packages/fallow-coordinator/src/fallow_coordinator: the
    fields of [CoordinatorConfig] with their types, bounds and defaults, the environment
    overlay, and the two validators.

    A configuration is the dictionary of its fields in their order.  What pydantic makes of
    a raw value for a type, and what the platform knows of addresses, URLs, files and
    certificates, are arguments; bounds are checked here. *)

From S2P Require Export ODict Standby.

#[local] Set Warnings "-register-all".

(** A value of the TOML file, or an environment string. *)
Inductive Raw := RStr (s : string) | RInt (z : Z) | RFloat (q : Q) | RBool (b : bool) | RArray (l : list Raw) | RTable (t : list (string * Raw)).

Record SiteConfig := {
  sc_enabled : bool; sc_site_id : option string; sc_public_urls : list string; sc_tls_certfile : option Path;
  sc_tls_keyfile : option Path; sc_mdns_service : option string
}.

Definition default_site : SiteConfig := {|
  sc_enabled := false; sc_site_id := None; sc_public_urls := []; sc_tls_certfile := None; sc_tls_keyfile := None; sc_mdns_service := None |}.

Inductive Value := VPath (p : Path) | VStr (s : string) | VInt (z : Z) | VFloat (q : Q) | VBool (b : bool) | VSite (s : SiteConfig) | VNone.

(** The annotated types with their constraints. *)
Inductive Kind :=
  | KPath | KText (min_length : nat) | KInt (gt : Z) (le : option Z) | KFloatGt0 | KFloatGe0 (le : option Q) | KBool | KScheduler | KSite
  | KOptional (k : Kind).

Definition site_fields_ok (s : SiteConfig) : bool :=
  match sc_site_id s with Some i => (1 <=? String.length i)%nat && (String.length i <=? 128)%nat | None => true end &&
  match sc_mdns_service s with Some m => bool_decide (m = "_fallow._tcp.local.") | None => true end.

Fixpoint has_kind (k : Kind) (v : Value) : bool :=
  match k, v with
  | KPath, VPath _ | KBool, VBool _ => true
  | KText n, VStr s => (n <=? String.length s)%nat
  | KInt gt le, VInt z => (gt <? z)%Z && match le with Some b => (z <=? b)%Z | None => true end
  | KFloatGt0, VFloat q => 0 <?q q
  | KFloatGe0 le, VFloat q => (0 <=?q q) && match le with Some b => q <=?q b | None => true end
  | KScheduler, VStr s => bool_decide (s ∈ ["capability"; "roundrobin"; "churn_v2"])
  | KSite, VSite s => site_fields_ok s
  | KOptional k, VNone => true
  | KOptional k, v => has_kind k v
  | _, _ => false
  end.

Abbreviation Config := (odict Value).

(** How an absent field is filled. *)
Inductive Default := Required | Const (v : Value) | From (f : Config → option Value).

(** [_default_result_dir] and [_default_churn_history_path] *)
Definition default_result_dir (validated : Config) : option Value :=
  match od_get "db_path" validated with Some (VPath p) => Some (VPath (with_name p "results")) | _ => None end.

Definition default_churn_history_path (validated : Config) : option Value :=
  match od_get "events_jsonl_path" validated with Some (VPath p) => Some (VPath p) | _ => None end.

Definition FIELDS : list (string * (Kind * Default)) := [
  ("db_path", (KPath, Required)); ("blob_dir", (KPath, Required)); ("unit_input_dir", (KPath, Required));
  ("result_dir", (KPath, From default_result_dir)); ("events_jsonl_path", (KPath, Required));
  ("churn_history_jsonl_path", (KPath, From default_churn_history_path)); ("gateway_log_path", (KPath, Required));
  ("admin_key", (KText 1, Required)); ("host", (KText 0, Const (VStr "127.0.0.1"))); ("port", (KInt 0 (Some 65535%Z), Const (VInt 8330)));
  ("site", (KSite, Const (VSite default_site)));
  ("suspect_after_s", (KFloatGt0, Const (VFloat 15))); ("offline_after_s", (KFloatGt0, Const (VFloat 45)));
  ("requeue_interval_s", (KFloatGt0, Const (VFloat 10))); ("quota_snapshot_interval_s", (KFloatGt0, Const (VFloat 30)));
  ("long_poll_max_s", (KFloatGt0, Const (VFloat 25))); ("poll_sleep_s", (KFloatGt0, Const (VFloat (1 # 2))));
  ("admission_timeout_s", (KFloatGe0 None, Const (VFloat 10))); ("admission_capacity", (KInt 0 None, Const (VInt 64)));
  ("chunks_per_unit", (KInt 0 None, Const (VInt 32))); ("max_result_payload_bytes", (KInt 0 None, Const (VInt 67108864)));
  ("affinity_ttl_s", (KFloatGt0, Const (VFloat 1800))); ("affinity_max", (KInt 0 None, Const (VInt 10000)));
  ("scheduler", (KScheduler, Const (VStr "capability"))); ("churn_est_unit_duration_s", (KFloatGt0, Const (VFloat 60)));
  ("auto_assign_on_enroll", (KBool, Const (VBool false))); ("modelmesh_signing_key", (KOptional (KText 1), Const VNone));
  ("standby_path", (KOptional KPath, Const VNone)); ("standby_export_interval_s", (KFloatGt0, Const (VFloat 60)));
  ("speculative_backup_enabled", (KBool, Const (VBool false))); ("speculative_tail_max_units", (KInt 0 None, Const (VInt 2)));
  ("speculative_survival_threshold", (KFloatGe0 (Some 1%Q), Const (VFloat (1 # 2)))) ].

(** ** Addresses and origins *)

(** What [ipaddress] knows of a literal; [ip_mapped] describes the mapped IPv4 address. *)
Record IpFacts := { ip_unspecified : bool; ip_loopback : bool; ip_multicast : bool; ip_link_local : bool; ip_v6 : bool }.
Record Ip := { ip_facts : IpFacts; ip_mapped : option IpFacts }.

Record Url := {
  u_scheme : string; u_netloc : string; u_hostname : option string; u_port : unit + option Z; u_username : option string;
  u_password : option string; u_query : string; u_fragment : string; u_path : string
}.

(** Truth of an optional string. *)
Definition given (s : option string) : bool := match s with Some t => negb (bool_decide (t = "")) | None => false end.

Definition char_code (c : ascii) : N := Ascii.N_of_ascii c.
Definition is_control (c : ascii) : bool := (char_code c <? 32)%N || (char_code c =? 127)%N.
Definition ascii_digit (c : ascii) : bool := (48 <=? char_code c)%N && (char_code c <=? 57)%N.

(** [_SITE_URL_AUTHORITY_RE] matches the whole text *)
Definition authority_char (c : ascii) : bool :=
  let n := char_code c in
  ascii_digit c || ((65 <=? n)%N && (n <=? 90)%N) || ((97 <=? n)%N && (n <=? 122)%N) || bool_decide (c ∈ ["."; ":"; "["; "]"; "-"]%char).
Definition authority_ok (s : string) : bool := negb (bool_decide (s = "")) && forallb authority_char (String.list_ascii_of_string s).

(** [re.fullmatch(r"(?:0x[0-9a-f]+|[0-9.]+)", host)] *)
Definition numeric_host (host : string) : bool :=
  match String.list_ascii_of_string host with
  | "0"%char :: "x"%char :: (_ :: _) as l => forallb (λ c, ascii_digit c || ((97 <=? char_code c)%N && (char_code c <=? 102)%N)) (drop 2 l)
  | [] => false
  | l => forallb (λ c, ascii_digit c || bool_decide (c = "."%char)) l
  end.

Section Validate.
  Context (coerce : Kind → Raw → option Value) (ip_address : string → option Ip) (getaddrinfo : string → option (list string))
    (urlparse : string → Url) (is_file : Path → bool) (chain_loads : Path → Path → bool) (cert_current : Path → bool).

Definition binds_wildcard (addr : string) : bool :=
  match ip_address addr with
  | None => false
  | Some ip => ip_unspecified (ip_facts ip) || match ip_mapped ip with Some m => ip_unspecified m | None => false end
  end.

Definition undialable_ip_host (host : string) : bool :=
  match ip_address host with
  | None => false
  | Some ip =>
      let native_ipv6 := match ip_mapped ip with None => ip_v6 (ip_facts ip) | Some _ => false end in
      let f := default (ip_facts ip) (ip_mapped ip) in
      ip_unspecified f || ip_loopback f || ip_multicast f || (native_ipv6 && ip_link_local f)
  end.

(** One public URL *)
Definition origin_ok (raw : string) : bool :=
  negb (existsb is_control (String.list_ascii_of_string raw)) &&
  let u := urlparse raw in
  match u_port u with
  | inl _ => false
  | inr port =>
      String.prefix "https://" raw && bool_decide (u_scheme u = "https") && given (u_hostname u) && authority_ok (u_netloc u) &&
      negb (undialable_ip_host (default "" (u_hostname u))) && negb (given (u_username u)) && negb (given (u_password u)) &&
      bool_decide (u_query u = "") && bool_decide (u_fragment u = "") && bool_decide (u_path u ∈ [""; "/"]) &&
      match port with Some p => (1 <=? p)%Z && (p <=? 65535)%Z | None => true end
  end.

(** [all(ip_address(a).is_unspecified for a in resolved)]; [None] is its [ValueError]. *)
Fixpoint all_unspecified (resolved : list string) : option bool :=
  match resolved with
  | [] => Some true
  | a :: rest => ip ← ip_address a; if ip_unspecified (ip_facts ip) then all_unspecified rest else Some false
  end.

Definition digits_only (s : string) : bool :=
  let l := String.list_ascii_of_string s in negb (bool_decide (l = [])) && forallb ascii_digit l.

(** The bind address of a site *)
Definition bind_ok (host : string) : bool :=
  let h := lower host in
  if bool_decide (h ∈ [""; "*"]) || String.prefix "*" host then false
  else
    let resolved := default [] (getaddrinfo host) in
    let unresolved := bool_decide (resolved = []) in
    let numeric_wildcard :=
      if bool_decide (h ∈ ["0"; "0x0"; "0.0.0.00"]) then true
      else if numeric_host h then if unresolved then true else default true (all_unspecified resolved) else false in
    if numeric_wildcard then false
    else
      let dotless := String.string_of_list_ascii (filter (λ c, c ≠ "."%char) (String.list_ascii_of_string (strip host))) in
      if unresolved && digits_only dotless then false
      else negb (binds_wildcard host || existsb binds_wildcard resolved).

(** [_site_security] *)
Definition site_security (host : string) (site : SiteConfig) : bool :=
  if negb (sc_enabled site) then true
  else
    match sc_site_id site, sc_public_urls site, sc_tls_certfile site, sc_tls_keyfile site with
    | Some _, _ :: _, Some cert, Some key =>
        bind_ok host && bool_decide (NoDup (sc_public_urls site)) && forallb origin_ok (sc_public_urls site) &&
        is_file cert && is_file key && chain_loads cert key && cert_current cert
    | _, _, _, _ => false
    end.

(** ** Loading *)

Definition ENV_PREFIX : string := "FALLOW_COORD_".

Definition upper (s : string) : string :=
  String.string_of_list_ascii ((λ c, let n := char_code c in if (97 <=? n)%N && (n <=? 122)%N then Ascii.ascii_of_N (n - 32) else c)
    <$> String.list_ascii_of_string s).

(** [_env_overrides] *)
Definition env_overrides (environ : gmap string string) : odict Raw :=
  omap (λ f, match environ !! (ENV_PREFIX +:+ upper f.1) with Some v => Some (f.1, RStr v) | None => None end) FIELDS.

(** [{**raw, **env}] *)
Definition merged (raw env : odict Raw) : odict Raw := fold_left (λ m p, od_set p.1 p.2 m) env raw.

(** The value of one field, given the fields before it. *)
Definition field_value (data : odict Raw) (validated : Config) (f : string * (Kind * Default)) : option Value :=
  let '(name, (kind, dflt)) := f in
  match od_get name data with
  | Some r => v ← coerce kind r; if has_kind kind v then Some v else None
  | None => match dflt with Required => None | Const v => Some v | From g => g validated end
  end.

Fixpoint validate_fields (data : odict Raw) (fields : list (string * (Kind * Default))) (validated : Config) : option Config :=
  match fields with
  | [] => Some validated
  | f :: fields => v ← field_value data validated f; validate_fields data fields (validated ++ [(f.1, v)])
  end.

Definition path_of (v : option Value) : option Path := match v with Some (VPath p) => Some p | _ => None end.

(** The two [model_validator]s *)
Definition validators (c : Config) : bool :=
  match od_get "host" c, od_get "site" c, od_get "db_path" c with
  | Some (VStr host), Some (VSite site), Some (VPath db) =>
      site_security host site && standby_path_is_distinct (path_of (od_get "standby_path" c)) db
  | _, _, _ => false
  end.

(** [CoordinatorConfig.model_validate]: no unknown key, every field, the validators *)
Definition model_validate (data : odict Raw) : option Config :=
  if forallb (λ p, bool_decide (p.1 ∈ FIELDS.*1)) data then
    c ← validate_fields data FIELDS []; if validators c then Some c else None
  else None.

(** [load_config] of a parsed file *)
Definition load_config (raw : odict Raw) (environ : gmap string string) : option Config :=
  model_validate (merged raw (env_overrides environ)).
End Validate.

(** * What a loaded configuration is

    A configuration that loads has exactly the declared fields, each of its type and within
    its bounds; the environment overrides the file and the file the defaults; and the two
    validators hold of it. *)

(** A default has the type of its field. *)
Definition default_ok (f : string * (Kind * Default)) : Prop :=
  match f.2.2 with
  | Required => True
  | Const v => has_kind f.2.1 v = true
  | From g => ∀ c v, g c = Some v → has_kind f.2.1 v = true
  end.

Lemma fields_default_ok : Forall default_ok FIELDS.
Proof.
  repeat (apply List.Forall_cons; [first [exact I | reflexivity | intros c v; cbn; unfold default_result_dir, default_churn_history_path;
    destruct (od_get _ c) as [[] |]; intros [= <-]; reflexivity] |]). apply List.Forall_nil.
Qed.

Lemma fields_nodup : NoDup FIELDS.*1.
Proof. apply (bool_decide_unpack _). vm_compute. exact I. Qed.

(** ** The overlay *)

Lemma merged_get (raw env : odict Raw) k :
  NoDup env.*1 → od_get k (merged raw env) = match od_get k env with Some v => Some v | None => od_get k raw end.
Proof.
  revert raw; induction env as [| [k' v] env IH]; intros raw Hnd; [done |]. cbn [merged fold_left od_get fst snd fmap list_fmap] in *.
  apply NoDup_cons in Hnd as [Hk Hnd]. unfold merged in IH. rewrite IH, od_get_set by done.
  case_bool_decide as He; [| done]. subst k'. by rewrite (proj2 (od_get_None k env) Hk).
Qed.

Lemma merged_keys (raw env : odict Raw) k : k ∈ raw.*1 → k ∈ (merged raw env).*1.
Proof.
  unfold merged. revert raw; induction env as [| [k' v] env IH]; intros raw Hk; [done |]. cbn. apply IH. rewrite od_set_keys.
  case_bool_decide; [done | set_solver].
Qed.

Lemma overrides_get fields (environ : gmap string string) k :
  let g := λ f : string * (Kind * Default), match environ !! (ENV_PREFIX +:+ upper f.1) with Some v => Some (f.1, RStr v) | None => None end in
  NoDup fields.*1 →
  NoDup (omap g fields).*1 ∧ (∀ x, x ∈ (omap g fields).*1 → x ∈ fields.*1) ∧
  (k ∈ fields.*1 → od_get k (omap g fields) = RStr <$> environ !! (ENV_PREFIX +:+ upper k)).
Proof.
  intros g. induction fields as [| [name [kind d]] fields IH]; intros Hnd; [split_and!; [apply NoDup_nil_2 | done | by intros ?%elem_of_nil] |].
  apply NoDup_cons in Hnd as [Hn Hnd]. destruct (IH Hnd) as (I1 & I2 & I3).
  assert (Hg : g (name, (kind, d)) = (λ v, (name, RStr v)) <$> environ !! (ENV_PREFIX +:+ upper name)) by (unfold g; cbn [fst]; by destruct (_ !! _)).
  cbn [omap list_omap]. rewrite Hg. destruct (environ !! (ENV_PREFIX +:+ upper name)) as [v |] eqn:He; cbn [fmap option_fmap option_map].
  - cbn [fmap list_fmap fst od_get]. split_and!.
    + apply NoDup_cons. split; [| done]. intros ?. by apply Hn, I2.
    + intros x [-> | Hx]%elem_of_cons; [by left | right; by apply I2].
    + intros [-> | Hk]%elem_of_cons; [cbn [fst]; rewrite bool_decide_eq_true_2 by done; by rewrite He |].
      case_bool_decide as Hkn; [by subst |]. by apply I3.
  - split_and!; [done | intros x Hx; right; by apply I2 |]. intros [-> | Hk]%elem_of_cons; [| by apply I3].
    cbn [fst]. rewrite He. apply od_get_None. intros Hin. by apply Hn, I2.
Qed.

(** ** The declared fields

    The documented types, ranges and defaults, written out apart from [FIELDS]. *)

Definition PATHS : list string :=
  ["db_path"; "blob_dir"; "unit_input_dir"; "result_dir"; "events_jsonl_path"; "churn_history_jsonl_path"; "gateway_log_path"].

Definition POSITIVE_SECONDS : list string :=
  ["suspect_after_s"; "offline_after_s"; "requeue_interval_s"; "quota_snapshot_interval_s"; "long_poll_max_s"; "poll_sleep_s";
   "affinity_ttl_s"; "churn_est_unit_duration_s"; "standby_export_interval_s"].

Definition POSITIVE_COUNTS : list string :=
  ["admission_capacity"; "chunks_per_unit"; "max_result_payload_bytes"; "affinity_max"; "speculative_tail_max_units"].

Definition FLAGS : list string := ["auto_assign_on_enroll"; "speculative_backup_enabled"].

Definition NAMES : list string :=
  PATHS ++ POSITIVE_SECONDS ++ POSITIVE_COUNTS ++ FLAGS ++
  ["admin_key"; "host"; "port"; "site"; "admission_timeout_s"; "scheduler"; "modelmesh_signing_key"; "standby_path";
   "speculative_survival_threshold"].

Definition REQUIRED_FIELDS : list string :=
  ["db_path"; "blob_dir"; "unit_input_dir"; "events_jsonl_path"; "gateway_log_path"; "admin_key"].

(** The fields with a fixed default. *)
Definition DEFAULTS : list (string * Value) := [
  ("host", VStr "127.0.0.1"); ("port", VInt 8330); ("site", VSite default_site); ("suspect_after_s", VFloat 15);
  ("offline_after_s", VFloat 45); ("requeue_interval_s", VFloat 10); ("quota_snapshot_interval_s", VFloat 30);
  ("long_poll_max_s", VFloat 25); ("poll_sleep_s", VFloat (1 # 2)); ("admission_timeout_s", VFloat 10);
  ("admission_capacity", VInt 64); ("chunks_per_unit", VInt 32); ("max_result_payload_bytes", VInt (64 * 1024 * 1024));
  ("affinity_ttl_s", VFloat 1800); ("affinity_max", VInt 10000); ("scheduler", VStr "capability");
  ("churn_est_unit_duration_s", VFloat 60); ("auto_assign_on_enroll", VBool false); ("modelmesh_signing_key", VNone);
  ("standby_path", VNone); ("standby_export_interval_s", VFloat 60); ("speculative_backup_enabled", VBool false);
  ("speculative_tail_max_units", VInt 2); ("speculative_survival_threshold", VFloat (1 # 2)) ].

(** Types and ranges. *)
Definition in_range (c : Config) : Prop :=
  (∀ n, n ∈ PATHS → ∃ p, od_get n c = Some (VPath p)) ∧
  (∀ n, n ∈ POSITIVE_SECONDS → ∃ q, od_get n c = Some (VFloat q) ∧ (0 < q)%Q) ∧
  (∀ n, n ∈ POSITIVE_COUNTS → ∃ z, od_get n c = Some (VInt z) ∧ (0 < z)%Z) ∧
  (∀ n, n ∈ FLAGS → ∃ b, od_get n c = Some (VBool b)) ∧
  (∃ q, od_get "admission_timeout_s" c = Some (VFloat q) ∧ (0 <= q)%Q) ∧
  (∃ q, od_get "speculative_survival_threshold" c = Some (VFloat q) ∧ (0 <= q)%Q ∧ (q <= 1)%Q) ∧
  (∃ z, od_get "port" c = Some (VInt z) ∧ (1 ≤ z ≤ 65535)%Z) ∧
  (∃ key, od_get "admin_key" c = Some (VStr key) ∧ key ≠ "") ∧
  (∃ host, od_get "host" c = Some (VStr host)) ∧
  (∃ s, od_get "site" c = Some (VSite s) ∧ (∀ i, sc_site_id s = Some i → (1 ≤ String.length i ≤ 128)%nat) ∧
     ∀ m, sc_mdns_service s = Some m → m = "_fallow._tcp.local.") ∧
  (od_get "scheduler" c = Some (VStr "capability") ∨ od_get "scheduler" c = Some (VStr "roundrobin") ∨
   od_get "scheduler" c = Some (VStr "churn_v2")) ∧
  (od_get "modelmesh_signing_key" c = Some VNone ∨ ∃ key, od_get "modelmesh_signing_key" c = Some (VStr key) ∧ key ≠ "") ∧
  (od_get "standby_path" c = Some VNone ∨ ∃ p, od_get "standby_path" c = Some (VPath p)).

(** The kinds the loader checks are these. *)
Definition kind_at (n : string) : option Kind := fst <$> od_get n FIELDS.

Definition kinds_agree : Prop :=
  Forall (λ n, kind_at n = Some KPath) PATHS ∧ Forall (λ n, kind_at n = Some KFloatGt0) POSITIVE_SECONDS ∧
  Forall (λ n, kind_at n = Some (KInt 0 None)) POSITIVE_COUNTS ∧ Forall (λ n, kind_at n = Some KBool) FLAGS ∧
  kind_at "admission_timeout_s" = Some (KFloatGe0 None) ∧ kind_at "speculative_survival_threshold" = Some (KFloatGe0 (Some 1%Q)) ∧
  kind_at "port" = Some (KInt 0 (Some 65535%Z)) ∧ kind_at "admin_key" = Some (KText 1) ∧ kind_at "host" = Some (KText 0) ∧
  kind_at "site" = Some KSite ∧ kind_at "scheduler" = Some KScheduler ∧
  kind_at "modelmesh_signing_key" = Some (KOptional (KText 1)) ∧ kind_at "standby_path" = Some (KOptional KPath).

Lemma kinds_agree_ok : kinds_agree.
Proof.
  unfold kinds_agree, PATHS, POSITIVE_SECONDS, POSITIVE_COUNTS, FLAGS.
  split_and!; repeat (apply List.Forall_cons; [vm_compute; reflexivity |]); first [apply List.Forall_nil | vm_compute; reflexivity].
Qed.

Lemma defaults_agree : Forall (λ p, snd <$> od_get p.1 FIELDS = Some (Const p.2)) DEFAULTS.
Proof. repeat (apply List.Forall_cons; [vm_compute; reflexivity |]). apply List.Forall_nil. Qed.

Lemma required_agree : Forall (λ n, snd <$> od_get n FIELDS = Some Required) REQUIRED_FIELDS.
Proof. repeat (apply List.Forall_cons; [vm_compute; reflexivity |]). apply List.Forall_nil. Qed.

Lemma computed_agree :
  snd <$> od_get "result_dir" FIELDS = Some (From default_result_dir) ∧
  snd <$> od_get "churn_history_jsonl_path" FIELDS = Some (From default_churn_history_path).
Proof. split; vm_compute; reflexivity. Qed.

Lemma names_agree : FIELDS.*1 ≡ₚ NAMES.
Proof.
  apply NoDup_Permutation; [apply fields_nodup | apply (bool_decide_unpack _); by vm_compute |]. intros x. split.
  - revert x. apply Forall_forall, (bool_decide_unpack _). by vm_compute.
  - revert x. apply Forall_forall, (bool_decide_unpack _). by vm_compute.
Qed.

#[local] Opaque FIELDS.

(** ** The fields *)

Section Spec.
  Context (coerce : Kind → Raw → option Value) (ip_address : string → option Ip) (getaddrinfo : string → option (list string))
    (urlparse : string → Url) (is_file : Path → bool) (chain_loads : Path → Path → bool) (cert_current : Path → bool).

(** The fields are taken in order; each from the data, or from its default given
    the fields before it. *)
Lemma validate_fields_split data fields acc c :
  validate_fields coerce data fields acc = Some c →
  c.*1 = acc.*1 ++ fields.*1 ∧ (∃ rest, c = acc ++ rest) ∧
  ∀ f, f ∈ fields → ∃ before v after, c = before ++ (f.1, v) :: after ∧ field_value coerce data before f = Some v.
Proof.
  revert acc; induction fields as [| f fields IH]; intros acc; cbn.
  { intros [= <-]. rewrite app_nil_r. split_and!; [done | exists []; by rewrite app_nil_r | by intros f ?%elem_of_nil]. }
  destruct (field_value coerce data acc f) as [v |] eqn:Hv; cbn; [| done]. intros (Hn & [rest Hc] & Hf)%IH.
  rewrite fmap_app, <- app_assoc in Hn. rewrite <- app_assoc in Hc. split_and!; [done | by exists ((f.1, v) :: rest) |].
  intros g [-> | Hg]%elem_of_cons; [| by apply Hf]. by exists acc, v, rest.
Qed.

Lemma od_get_app_l {A} k (x : A) (m m' : odict A) : od_get k m = Some x → od_get k (m ++ m') = Some x.
Proof. induction m as [| [k' y] m IH]; [done |]. cbn. destruct (bool_decide _); [done | apply IH]. Qed.

(** What is known of a field of a loaded configuration. *)
Definition field_known (data : odict Raw) (c : Config) (n : string) (kind : Kind) (d : Default) : Prop :=
  ∃ v, od_get n c = Some v ∧ has_kind kind v = true ∧
    match od_get n data with
    | Some r => coerce kind r = Some v
    | None => match d with
              | Required => False
              | Const w => v = w
              | From g => ∃ before after, c = before ++ after ∧ g before = Some v
              end
    end.

Lemma validated_field data c n kind d :
  validate_fields coerce data FIELDS [] = Some c → od_get n FIELDS = Some (kind, d) → field_known data c n kind d.
Proof.
  intros Hc Hn. destruct (validate_fields_split _ _ _ _ Hc) as (Hnames & _ & Hf). cbn in Hnames.
  assert (Hin := od_get_elem _ _ _ Hn). destruct (Hf _ Hin) as (before & v & after & Hsplit & Hv). cbn [fst] in *.
  pose proof (proj1 (Forall_forall _ _) fields_default_ok _ Hin) as Hd. unfold default_ok in Hd. cbn in Hd.
  exists v. assert (Hget : od_get n c = Some v).
  { apply elem_of_od_get; [unfold od_wf; rewrite Hnames; apply fields_nodup |]. rewrite Hsplit. apply elem_of_app. right. by left. }
  split; [done |]. unfold field_value in Hv. destruct (od_get n data) as [r |].
  - destruct (coerce kind r) as [w |]; cbn in Hv; [| done]. destruct (has_kind kind w) eqn:Hk; [| done]. by simplify_eq.
  - destruct d as [| w | g]; [done | by simplify_eq |]. split; [by apply (Hd before) |]. by exists before, ((n, v) :: after).
Qed.

Lemma kind_known data c n kind :
  validate_fields coerce data FIELDS [] = Some c → kind_at n = Some kind → ∃ v, od_get n c = Some v ∧ has_kind kind v = true.
Proof.
  intros Hc (p & Hp & ->)%fmap_Some. destruct p as [k d]. destruct (validated_field data c n k d Hc Hp) as (v & ? & ? & _). by exists v.
Qed.

Ltac known Hc H := destruct (kind_known _ _ _ _ Hc H) as ([] & ? & ?); try discriminate; cbn in *; reflect_bools.

Lemma validated_in_range data c : validate_fields coerce data FIELDS [] = Some c → in_range c.
Proof.
  intros Hc. destruct kinds_agree_ok as (K1 & K2 & K3 & K4 & K5 & K6 & K7 & K8 & K9 & K10 & K11 & K12 & K13).
  rewrite Forall_forall in K1, K2, K3, K4. split_and!.
  - intros n Hn. apply K1 in Hn. known Hc Hn. eauto.
  - intros n Hn. apply K2 in Hn. known Hc Hn. eauto.
  - intros n Hn. apply K3 in Hn. known Hc Hn. eexists. split; [done | lia].
  - intros n Hn. apply K4 in Hn. known Hc Hn. eauto.
  - known Hc K5. eauto.
  - known Hc K6. eauto.
  - known Hc K7. eexists. split; [done | lia].
  - known Hc K8. eexists. split; [done |]. by intros ->.
  - known Hc K9. eauto.
  - known Hc K10. unfold site_fields_ok in *. eexists. split_and!; [done | |].
    + intros i Hi. rewrite Hi in *. reflect_bools. rewrite !Nat.leb_le in *. lia.
    + intros m Hm. rewrite Hm in *. by reflect_bools.
  - known Hc K11. match goal with H : _ ∈ _ |- _ => apply elem_of_cons in H as [-> | [-> | ->%list_elem_of_singleton]%elem_of_cons] end; auto.
  - known Hc K12; [right | by left]. eexists. split; [done |]. by intros ->.
  - known Hc K13; [right; eauto | by left].
Qed.

(** ** Secure sites, spelled out *)

(** An address no listener shares with every interface. *)
Definition specific (addr : string) : Prop :=
  ∀ ip, ip_address addr = Some ip → ip_unspecified (ip_facts ip) = false ∧ ∀ m, ip_mapped ip = Some m → ip_unspecified m = false.

(** A host name, or an address another machine can dial; an IPv4 address spelled as
    IPv6 counts as that IPv4 address. *)
Definition dialable (host : string) : Prop :=
  ∀ ip, ip_address host = Some ip → let f := default (ip_facts ip) (ip_mapped ip) in
    ip_unspecified f = false ∧ ip_loopback f = false ∧ ip_multicast f = false ∧
    (ip_mapped ip = None → ip_v6 (ip_facts ip) = true → ip_link_local (ip_facts ip) = false).

Definition https_root (raw : string) : Prop :=
  let u := urlparse raw in
  String.substring 0 8 raw = "https://" ∧ u_scheme u = "https" ∧
  (∃ h, u_hostname u = Some h ∧ h ≠ "" ∧ dialable h) ∧
  default "" (u_username u) = "" ∧ default "" (u_password u) = "" ∧ u_query u = "" ∧ u_fragment u = "" ∧
  (u_path u = "" ∨ u_path u = "/") ∧
  (∃ port, u_port u = inr port ∧ ∀ p, port = Some p → (1 ≤ p ≤ 65535)%Z) ∧
  (∀ ch, ch ∈ String.list_ascii_of_string raw → (32 ≤ char_code ch)%N ∧ char_code ch ≠ 127%N) ∧
  u_netloc u ≠ "" ∧ ∀ ch, ch ∈ String.list_ascii_of_string (u_netloc u) →
    (48 ≤ char_code ch ≤ 57)%N ∨ (65 ≤ char_code ch ≤ 90)%N ∨ (97 ≤ char_code ch ≤ 122)%N ∨ ch ∈ ["."; ":"; "["; "]"; "-"]%char.

(** The site binds one address: not a wildcard in any spelling, itself or after
    resolution, and not a number that resolves to nothing. *)
Definition exact_bind (host : string) : Prop :=
  host ≠ "" ∧ (∀ rest, host ≠ "*" +:+ rest) ∧ specific host ∧
  (∀ l a, getaddrinfo host = Some l → a ∈ l → specific a) ∧
  ((∀ ch, ch ∈ String.list_ascii_of_string (lower host) → (48 ≤ char_code ch ≤ 57)%N ∨ ch = "."%char) →
   ∃ a l, getaddrinfo host = Some (a :: l)).

(** A secure site, as far as the configuration can tell. *)
Definition site_secure (host : string) (s : SiteConfig) : Prop :=
  exact_bind host ∧ sc_public_urls s ≠ [] ∧ NoDup (sc_public_urls s) ∧ Forall https_root (sc_public_urls s) ∧
  ∃ id cert key, sc_site_id s = Some id ∧ sc_tls_certfile s = Some cert ∧ sc_tls_keyfile s = Some key ∧
    is_file cert = true ∧ is_file key = true ∧ chain_loads cert key = true ∧ cert_current cert = true.

Lemma not_wildcard_specific a : binds_wildcard ip_address a = false → specific a.
Proof.
  unfold binds_wildcard. intros H ip Hip. rewrite Hip in H. apply orb_false_iff in H as [H1 H2]. split; [done |].
  intros m Hm. by rewrite Hm in H2.
Qed.

Lemma not_undialable h : undialable_ip_host ip_address h = false → dialable h.
Proof.
  unfold undialable_ip_host. intros H ip Hip f. rewrite Hip in H. fold f in H. cbv zeta in H.
  rewrite !orb_false_iff in H. destruct H as [[[H1 H2] H3] H4]. split_and!; [done | done | done |].
  intros Hm Hv. unfold f in H4. rewrite Hm, Hv in H4. done.
Qed.

Lemma not_given s : given s = false → default "" s = "".
Proof. destruct s as [t |]; [| done]. unfold given. intros H. by reflect_bools. Qed.

Lemma origin_https raw : origin_ok ip_address urlparse raw = true → https_root raw.
Proof.
  unfold origin_ok, https_root. destruct (u_port (urlparse raw)) as [| port]; [by rewrite andb_false_r |].
  rewrite !andb_true_iff, !negb_true_iff, !bool_decide_eq_true.
  intros (Hctl & ((((((((((H1 & H2) & H3) & H4) & H5) & H6) & H7) & H8) & H9) & H10) & H11)). split_and!; try done.
  - exact (proj1 (String.prefix_correct "https://" raw) H1).
  - unfold given in H3. destruct (u_hostname (urlparse raw)) as [h |]; [| done]. exists h.
    split_and!; [done | intros ->; done | by apply not_undialable].
  - by apply not_given.
  - by apply not_given.
  - by apply elem_of_cons in H10 as [? | ?%list_elem_of_singleton]; auto.
  - exists port. split; [done |]. intros p ->. reflect_bools. lia.
  - intros ch Hch. apply Bool.not_true_iff_false in Hctl. rewrite existsb_exists in Hctl.
    destruct (is_control ch) eqn:Hc; [destruct Hctl; exists ch; by rewrite <- list_elem_of_In |].
    unfold is_control in Hc. apply orb_false_iff in Hc as [Hlt Heq]. apply N.ltb_ge in Hlt. by apply N.eqb_neq in Heq.
  - unfold authority_ok in H4. intros Hn. by rewrite Hn in H4.
  - unfold authority_ok in H4. apply andb_true_iff in H4 as [_ H4]. rewrite forallb_forall in H4.
    intros ch Hch%list_elem_of_In%H4. unfold authority_char, ascii_digit in Hch.
    rewrite !orb_true_iff, !andb_true_iff, !N.leb_le, bool_decide_eq_true in Hch. naive_solver.
Qed.

(** A host of digits and dots is numeric. *)
Lemma digits_numeric h :
  h ≠ "" → (∀ ch, ch ∈ String.list_ascii_of_string h → (48 ≤ char_code ch ≤ 57)%N ∨ ch = "."%char) → numeric_host h = true.
Proof.
  intros Hne Hall'. assert (Hall : ∀ ch, ch ∈ String.list_ascii_of_string h → ascii_digit ch = true ∨ ch = "."%char).
  { intros ch Hch. unfold ascii_digit. rewrite andb_true_iff, !N.leb_le. by apply Hall'. }
  unfold numeric_host.
  assert (Hf : forallb (λ c, ascii_digit c || bool_decide (c = "."%char)) (String.list_ascii_of_string h) = true).
  { apply forallb_forall. intros c Hc%list_elem_of_In. destruct (Hall c Hc) as [-> | ->]; [done | apply orb_true_r]. }
  assert (Hx : "x"%char ∉ String.list_ascii_of_string h) by (intros Hx; destruct (Hall _ Hx) as [? | ?]; done).
  destruct (String.list_ascii_of_string h) as [| c l] eqn:Hl; [destruct h; done |].
  repeat case_match; simplify_eq; try done; exfalso; apply Hx; right; by left.
Qed.

Lemma bind_exact host : bind_ok ip_address getaddrinfo host = true → exact_bind host.
Proof.
  unfold bind_ok. destruct (bool_decide (lower host ∈ _) || _) eqn:H0; [done |]. apply orb_false_iff in H0 as [He Hs].
  reflect_bools. set (resolved := default [] (getaddrinfo host)). set (nw := if bool_decide _ then true else _).
  destruct nw eqn:Hnw; [done |]. destruct (bool_decide (resolved = []) && _) eqn:Hd; [done |].
  rewrite negb_true_iff, orb_false_iff. intros [Hw Hr].
  assert (Hne : host ≠ "") by (intros ->; apply He; by left). split_and!.
  - done.
  - intros rest ->. cbn in Hs. by destruct rest.
  - by apply not_wildcard_specific.
  - intros l a Hl Ha. apply not_wildcard_specific. unfold resolved in Hr. rewrite Hl in Hr. cbn in Hr.
    apply Bool.not_true_iff_false in Hr. rewrite existsb_exists in Hr. destruct (binds_wildcard ip_address a) eqn:Hb; [| done].
    destruct Hr. exists a. by rewrite <- list_elem_of_In.
  - intros Hall. unfold nw in Hnw. destruct (bool_decide (lower host ∈ _)); [done |].
    rewrite digits_numeric in Hnw; [| intros Hl; apply He; rewrite Hl; by left | done].
    destruct (bool_decide (resolved = [])) eqn:Hres; [done |]. reflect_bools. unfold resolved in Hres.
    destruct (getaddrinfo host) as [[| a l] |]; cbn in Hres; try done. by exists a, l.
Qed.

Lemma site_security_ok host s :
  site_security ip_address getaddrinfo urlparse is_file chain_loads cert_current host s = true → sc_enabled s = true → site_secure host s.
Proof.
  intros Hs He. unfold site_security in Hs. rewrite He in Hs. cbn [negb] in Hs.
  destruct (sc_site_id s) as [id |] eqn:H1; [| done]. destruct (sc_public_urls s) as [| u us] eqn:H2; [done |].
  destruct (sc_tls_certfile s) as [cert |] eqn:H3; [| done]. destruct (sc_tls_keyfile s) as [key |] eqn:H4; [| done].
  rewrite !andb_true_iff, bool_decide_eq_true, forallb_forall in Hs. destruct Hs as ((((((Hb & Hn) & Ho) & Hc) & Hk) & Hl) & Hv).
  unfold site_secure. rewrite H2. split_and!; try done; [by apply bind_exact | | by exists id, cert, key].
  apply Forall_forall. intros x Hx. by apply origin_https, Ho, list_elem_of_In.
Qed.

(** ** Where a value comes from *)

Definition env_of (n : string) (environ : gmap string string) : option string := environ !! ("FALLOW_COORD_" +:+ upper n).

Definition unset (n : string) (raw : odict Raw) (environ : gmap string string) : Prop :=
  env_of n environ = None ∧ od_get n raw = None.

Lemma overlay_get raw environ n :
  n ∈ FIELDS.*1 →
  od_get n (merged raw (env_overrides environ)) = match env_of n environ with Some s => Some (RStr s) | None => od_get n raw end.
Proof.
  intros Hn. destruct (overrides_get FIELDS environ n fields_nodup) as (Hnd & _ & Hget). unfold env_overrides.
  rewrite merged_get, Hget by done. unfold env_of, ENV_PREFIX. by destruct (environ !! _).
Qed.

Lemma known_name {A} n (x : A) (f : Kind * Default → A) : f <$> od_get n FIELDS = Some x → n ∈ FIELDS.*1.
Proof. intros (p & Hp & _)%fmap_Some. apply od_get_is_Some. by exists p. Qed.

Section Loaded.
  Context (raw : odict Raw) (environ : gmap string string) (c : Config)
    (Hc : validate_fields coerce (merged raw (env_overrides environ)) FIELDS [] = Some c).

Lemma loaded_default n v : (n, v) ∈ DEFAULTS → unset n raw environ → od_get n c = Some v.
Proof.
  intros Hin [He Hr]. pose proof (proj1 (Forall_forall _ _) defaults_agree _ Hin) as Hd. cbn in Hd.
  pose proof (known_name _ _ _ Hd) as Hn. apply fmap_Some in Hd as ([k d] & Hf & Hd). cbn in Hd. subst d.
  destruct (validated_field _ _ _ _ _ Hc Hf) as (w & Hg & _ & Hw). rewrite overlay_get, He, Hr in Hw by done. congruence.
Qed.

Lemma loaded_required n : n ∈ REQUIRED_FIELDS → ~ unset n raw environ.
Proof.
  intros Hin [He Hr]. pose proof (proj1 (Forall_forall _ _) required_agree _ Hin) as Hd. cbn in Hd.
  pose proof (known_name _ _ _ Hd) as Hn. apply fmap_Some in Hd as ([k d] & Hf & Hd). cbn in Hd. subst d.
  destruct (validated_field _ _ _ _ _ Hc Hf) as (w & _ & _ & Hw). by rewrite overlay_get, He, Hr in Hw.
Qed.

Lemma loaded_source n kind r :
  kind_at n = Some kind → match env_of n environ with Some s => Some (RStr s) | None => od_get n raw end = Some r →
  ∃ v, od_get n c = Some v ∧ coerce kind r = Some v.
Proof.
  intros Hk Hr. pose proof (known_name _ _ _ Hk) as Hn. apply fmap_Some in Hk as ([k d] & Hf & ->).
  destruct (validated_field _ _ _ _ _ Hc Hf) as (w & Hg & _ & Hw). exists w. split; [done |].
  rewrite overlay_get in Hw by done. by rewrite Hr in Hw.
Qed.

Lemma loaded_computed n g :
  snd <$> od_get n FIELDS = Some (From g) → unset n raw environ →
  ∃ before after v, c = before ++ after ∧ g before = Some v ∧ od_get n c = Some v.
Proof.
  intros Hd [He Hr]. pose proof (known_name _ _ _ Hd) as Hn. apply fmap_Some in Hd as ([k d] & Hf & Hd). cbn in Hd. subst d.
  destruct (validated_field _ _ _ _ _ Hc Hf) as (w & Hg & _ & Hw). rewrite overlay_get, He, Hr in Hw by done.
  destruct Hw as (before & after & Hsp & Hgw). by exists before, after, w.
Qed.

Lemma loaded_result_dir db :
  unset "result_dir" raw environ → od_get "db_path" c = Some (VPath db) →
  od_get "result_dir" c = Some (VPath (with_name db "results")).
Proof.
  intros Hu Hdb. destruct (loaded_computed _ _ (proj1 computed_agree) Hu) as (before & after & v & Hsp & Hg & ->).
  unfold default_result_dir in Hg. destruct (od_get "db_path" before) as [[p | | | | | |] |] eqn:Hb; try done.
  apply (od_get_app_l _ _ _ after) in Hb. rewrite <- Hsp in Hb. congruence.
Qed.

Lemma loaded_history : unset "churn_history_jsonl_path" raw environ →
  od_get "churn_history_jsonl_path" c = od_get "events_jsonl_path" c.
Proof.
  intros Hu. destruct (loaded_computed _ _ (proj2 computed_agree) Hu) as (before & after & v & Hsp & Hg & ->).
  unfold default_churn_history_path in Hg. destruct (od_get "events_jsonl_path" before) as [[p | | | | | |] |] eqn:Hb; try done.
  apply (od_get_app_l _ _ _ after) in Hb. rewrite <- Hsp in Hb. congruence.
Qed.
End Loaded.

End Spec.

(** ** A minimal file, with the port overridden *)

Definition plain_coerce (k : Kind) (r : Raw) : option Value :=
  match k, r with
  | KPath, RStr s | KOptional KPath, RStr s => Some (VPath ("/srv", s))
  | KText _, RStr s => Some (VStr s)
  | KInt _ _, RStr s => VInt <$> py_int s
  | KInt _ _, RInt z => Some (VInt z)
  | _, _ => None
  end.

Definition no_url (s : string) : Url := {|
  u_scheme := ""; u_netloc := ""; u_hostname := None; u_port := inr None; u_username := None; u_password := None; u_query := "";
  u_fragment := ""; u_path := "" |}.

Definition minimal_file : odict Raw :=
  (λ k, (k, RStr k)) <$> ["db_path"; "blob_dir"; "unit_input_dir"; "events_jsonl_path"; "gateway_log_path"; "admin_key"; "standby_path"].

Definition minimal_config : option Config :=
  load_config plain_coerce (λ _, None) (λ _, None) no_url (λ _, false) (λ _ _, false) (λ _, false) minimal_file {[ "FALLOW_COORD_PORT" := "9000" ]}.

Definition port_of (c : option Config) : option Value := c ≫= od_get "port".

