(* ===== verification/AgentSettings.v ===== *)
(** * The agent's settings and what is built from them

    Models, under src/packages/fallow-agent/src/fallow_agent, main/settings.py, mesh/config.py,
    supervisor/config.py, supervisor/commands.py, the probes of supervisor/health.py and the component
    builders of main/assembly.py.  What pydantic makes of a raw value for a type and what [ipaddress]
    knows of a literal are arguments; bounds, defaults, overrides and validators are here. *)

From stdpp Require Import pretty.
From S2P Require Export Idle Reconcile GatewayBody Config.

(** ** Binding *)

Definition WILDCARD_HOSTS : list string := ["*"; "0"; "0.0"; "0.0.0"].

(** [host[1:-1]] when the host is in brackets *)
Definition unbracket (host : string) : string :=
  let l := String.list_ascii_of_string host in
  match l, last l with
  | "["%char :: rest, Some "]"%char => String.string_of_list_ascii (take (length rest - 1) rest)
  | _, _ => host
  end.

Fixpoint drop_slashes (l : list ascii) : list ascii :=
  match l with c :: rest => if bool_decide (c = "/"%char) then drop_slashes rest else l | [] => [] end.

Section Settings.
  Context (ip_address : string → option Ip).
  Context (to_str to_path : Raw → option string) (to_int : Raw → option Z) (to_float : Raw → option Q) (to_bool : Raw → option bool).

(** [address.is_unspecified], of the address or of the IPv4 address it maps *)
Definition unspecified (ip : Ip) : bool :=
  ip_unspecified (ip_facts ip) || match ip_mapped ip with Some m => ip_unspecified m | None => false end.

(** [validate_bind_host]; [None] is its [ValueError] *)
Definition validate_bind_host (value : string) : option string :=
  let host := strip value in
  if bool_decide (host = "") || bool_decide (host ∈ WILDCARD_HOSTS) then None
  else
    match ip_address (unbracket host) with
    | None => Some host
    | Some ip => if unspecified ip then None else Some host
    end.

(** ** Settings *)

Record PortRange := { pr_start : Z; pr_count : Z }.
Record WhisperSettings := { wh_model_size_or_path : option string; wh_device : string; wh_compute_type : string; wh_beam_size : Z }.
Record BenchSettings := { be_enabled : bool; be_force_idle : bool; be_port : Z }.
Record MeshSettings := { me_enabled : bool; me_signing_key : option string; me_store_capacity_bytes : Z }.

Record AgentSettings := {
  as_coordinator_url : string; as_bind_host : string; as_llama_server_binary : string; as_enrollment_token : option string;
  as_state_path : string; as_cache_dir : string; as_events_jsonl_path : string; as_results_dir : string;
  as_reconcile_interval_s : Q; as_work_poll_timeout_s : Q; as_active_sleep_s : Q; as_agent_version : string;
  as_port_range : PortRange; as_whisper : WhisperSettings; as_bench : BenchSettings; as_mesh : MeshSettings;
  as_idle_prediction_enabled : bool
}.

Definition KNOWN_KEYS : list string := [
  "coordinator_url"; "enrollment_token"; "bind_host"; "llama_server_binary"; "state_path"; "cache_dir"; "events_jsonl_path";
  "results_dir"; "reconcile_interval_s"; "work_poll_timeout_s"; "active_sleep_s"; "agent_version"; "port_range"; "whisper";
  "bench"; "mesh"; "idle_prediction_enabled"].

(** [SettingsError], or an exception that is not one *)
Inductive LoadError := SettingsError (what : string) | Uncaught.

(** A field: its raw value converted and checked, or its default; [None] is a validation error. *)
Definition field {A} (conv : Raw → option A) (ok : A → bool) (dflt : option A) (name : string) (data : odict Raw) : option A :=
  match od_get name data with
  | Some r => a ← conv r; if ok a then Some a else None
  | None => dflt
  end.

Definition any {A} (_ : A) : bool := true.
Definition gt0 (z : Z) : bool := (0 <? z)%Z.
Definition gt0_s (q : Q) : bool := 0 <?q q.

(** The table of a nested model; unknown keys are ignored. *)
Definition table (r : Raw) : option (odict Raw) := match r with RTable t => Some t | _ => None end.

Definition port_range_of (r : Raw) : option PortRange :=
  t ← table r;
  start ← field to_int gt0 (Some 8100%Z) "start" t;
  count ← field to_int gt0 (Some 16%Z) "count" t;
  Some {| pr_start := start; pr_count := count |}.

Definition whisper_of (r : Raw) : option WhisperSettings :=
  t ← table r;
  model ← field (λ r, Some <$> to_str r) any (Some None) "model_size_or_path" t;
  device ← field to_str any (Some "cpu") "device" t;
  compute ← field to_str any (Some "int8") "compute_type" t;
  beam ← field to_int (λ z, (1 <=? z)%Z) (Some 5%Z) "beam_size" t;
  Some {| wh_model_size_or_path := model; wh_device := device; wh_compute_type := compute; wh_beam_size := beam |}.

(** [BenchSettings], with [_force_idle_requires_bench] *)
Definition bench_of (r : Raw) : option BenchSettings :=
  t ← table r;
  enabled ← field to_bool any (Some false) "enabled" t;
  force_idle ← field to_bool any (Some false) "force_idle" t;
  port ← field to_int gt0 (Some 9411%Z) "port" t;
  if force_idle && negb enabled then None else Some {| be_enabled := enabled; be_force_idle := force_idle; be_port := port |}.

(** [MeshSettings], with [_key_required_when_enabled] *)
Definition mesh_of (r : Raw) : option MeshSettings :=
  t ← table r;
  enabled ← field to_bool any (Some false) "enabled" t;
  key ← field (λ r, Some <$> to_str r) any (Some None) "signing_key" t;
  cap ← field to_int gt0 (Some 2147483648%Z) "store_capacity_bytes" t;
  if enabled && negb (given key) then None
  else Some {| me_enabled := enabled; me_signing_key := key; me_store_capacity_bytes := cap |}.

(** [value.rstrip("/")] *)
Definition rstrip_slash (s : string) : string :=
  String.string_of_list_ascii (reverse (drop_slashes (reverse (String.list_ascii_of_string s)))).

(** [_check_url] *)
Definition check_url (value : string) : option string :=
  if String.prefix "http://" value || String.prefix "https://" value then Some (rstrip_slash value) else None.

(** [AgentSettings.model_validate] *)
Definition settings_validate (data : odict Raw) : option AgentSettings :=
  url ← field (λ r, to_str r ≫= check_url) any None "coordinator_url" data;
  host ← field (λ r, to_str r ≫= validate_bind_host) any None "bind_host" data;
  binary ← field to_path any None "llama_server_binary" data;
  token ← field (λ r, Some <$> to_str r) any (Some None) "enrollment_token" data;
  state ← field to_path any (Some "~/.fallow/agent-state.json") "state_path" data;
  cache ← field to_path any (Some "~/.fallow/models") "cache_dir" data;
  events ← field to_path any (Some "~/.fallow/events.jsonl") "events_jsonl_path" data;
  results ← field to_path any (Some "~/.fallow/results") "results_dir" data;
  reconcile ← field to_float gt0_s (Some 5%Q) "reconcile_interval_s" data;
  work ← field to_float gt0_s (Some 20%Q) "work_poll_timeout_s" data;
  active ← field to_float gt0_s (Some 1%Q) "active_sleep_s" data;
  version ← field to_str any (Some "0.3.0") "agent_version" data;
  ports ← field port_range_of any (port_range_of (RTable [])) "port_range" data;
  whisper ← field whisper_of any (whisper_of (RTable [])) "whisper" data;
  bench ← field bench_of any (bench_of (RTable [])) "bench" data;
  mesh ← field mesh_of any (mesh_of (RTable [])) "mesh" data;
  prediction ← field to_bool any (Some false) "idle_prediction_enabled" data;
  Some {| as_coordinator_url := url; as_bind_host := host; as_llama_server_binary := binary; as_enrollment_token := token;
          as_state_path := state; as_cache_dir := cache; as_events_jsonl_path := events; as_results_dir := results;
          as_reconcile_interval_s := reconcile; as_work_poll_timeout_s := work; as_active_sleep_s := active;
          as_agent_version := version; as_port_range := ports; as_whisper := whisper; as_bench := bench; as_mesh := mesh;
          as_idle_prediction_enabled := prediction |}.

(** ** Loading *)

(** [_read_toml]: the file as it was parsed, [None] when it is missing or does not parse *)
Definition read_toml (file : option (odict Raw)) : LoadError + odict Raw :=
  match file with
  | None => inl (SettingsError "could not read config file")
  | Some data =>
      if forallb (λ p, bool_decide (p.1 ∈ KNOWN_KEYS)) data then inr data else inl (SettingsError "unknown key(s)")
  end.

(** The pairs of [_apply_env_overrides], in its order *)
Definition ENV_SCALARS : list (string * string) := [
  ("FALLOW_COORDINATOR_URL", "coordinator_url"); ("FALLOW_ENROLLMENT_TOKEN", "enrollment_token"); ("FALLOW_BIND_HOST", "bind_host");
  ("FALLOW_STATE_PATH", "state_path"); ("FALLOW_CACHE_DIR", "cache_dir"); ("FALLOW_EVENTS_JSONL_PATH", "events_jsonl_path");
  ("FALLOW_RESULTS_DIR", "results_dir"); ("FALLOW_LLAMA_SERVER_BINARY", "llama_server_binary")].

(** [_override_scalar] *)
Definition override_scalar (env : gmap string string) (data : odict Raw) (p : string * string) : odict Raw :=
  match env !! p.1 with Some value => od_set p.2 (RStr value) data | None => data end.

(** [dict(data.get("port_range") or {})]; [None] when [dict] raises *)
Definition current_range (data : odict Raw) : option (odict Raw) :=
  match od_get "port_range" data with
  | None => Some []
  | Some (RTable t) => Some t
  | Some (RStr s) => if bool_decide (s = "") then Some [] else None
  | Some (RInt z) => if bool_decide (z = 0%Z) then Some [] else None
  | Some (RFloat q) => if Qeq_bool q 0 then Some [] else None
  | Some (RBool b) => if b then None else Some []
  | Some (RArray l) => if bool_decide (length l = 0%nat) then Some [] else None
  end.

(** One of the two: [_parse_int] of the variable over the field *)
Definition override_port (env : gmap string string) (env_key name : string) (current : odict Raw) : LoadError + odict Raw :=
  match env !! env_key with
  | None => inr current
  | Some text => match py_int text with Some z => inr (od_set name (RInt z) current) | None => inl (SettingsError env_key) end
  end.

(** [_override_port_range] *)
Definition override_port_range (env : gmap string string) (data : odict Raw) : LoadError + odict Raw :=
  match env !! "FALLOW_PORT_START", env !! "FALLOW_PORT_COUNT" with
  | None, None => inr data
  | _, _ =>
      match current_range data with
      | None => inl Uncaught
      | Some current =>
          match override_port env "FALLOW_PORT_START" "start" current with
          | inl e => inl e
          | inr current =>
              match override_port env "FALLOW_PORT_COUNT" "count" current with
              | inl e => inl e
              | inr current => inr (od_set "port_range" (RTable current) data)
              end
          end
      end
  end.

(** [_apply_env_overrides] *)
Definition apply_env_overrides (data : odict Raw) (env : gmap string string) : LoadError + odict Raw :=
  override_port_range env (fold_left (override_scalar env) ENV_SCALARS data).

(** [load_settings] *)
Definition load_settings (file : option (odict Raw)) (env : gmap string string) : LoadError + AgentSettings :=
  match read_toml file with
  | inl e => inl e
  | inr data =>
      match apply_env_overrides data env with
      | inl e => inl e
      | inr merged => match settings_validate merged with Some s => inr s | None => inl (SettingsError "invalid agent settings") end
      end
  end.

(** ** Launching replicas *)

Record SupervisorConfig := {
  su_llama_binary : string; su_bind_host : string; su_startup_timeout_s : Q; su_health_poll_interval_s : Q; su_health_timeout_s : Q;
  su_health_path : string; su_stop_grace_s : Q; su_parallel : Z; su_context_size : Z; su_gpu_layers : Z
}.

(** The constructor with its defaults and [__post_init__] *)
Definition supervisor_config (binary bind_host : string) : option SupervisorConfig :=
  host ← validate_bind_host bind_host;
  Some {| su_llama_binary := binary; su_bind_host := host; su_startup_timeout_s := 180; su_health_poll_interval_s := 1 # 2;
          su_health_timeout_s := 1; su_health_path := "/health"; su_stop_grace_s := 5; su_parallel := 2; su_context_size := 8192;
          su_gpu_layers := 999 |}.

(** [LlamaServerCommandFactory.__call__] *)
Definition llama_server_command (c : SupervisorConfig) (manifest : ModelManifest) (model_path : string) (port : Z) : list string :=
  [su_llama_binary c; "-m"; model_path; "--port"; pretty port; "--host"; su_bind_host c; "--parallel"; pretty (su_parallel c);
   "-c"; pretty (su_context_size c)] ++ mm_default_args manifest ++ ["--slots"] ++
  (if (0 <? mm_min_vram_mb manifest)%Z then ["-ngl"; pretty (su_gpu_layers c); "--flash-attn"] else []).

(** ** Probes *)

(** What a GET of a replica gives: nothing, or a status and the decoded body ([None] when it is not JSON). *)
Inductive ProbeReply := NoReply | Reply (status : Z) (body : option Json).

(** [http_health_check] *)
Definition http_health_check (r : ProbeReply) : bool := match r with Reply status _ => (status =? 200)%Z | NoReply => false end.

(** The loop of [parse_busy_slots] *)
Fixpoint busy_of (slots : list Json) (busy : Z) : option Z :=
  match slots with
  | [] => Some busy
  | slot :: slots =>
      match slot with
      | JObj fields =>
          match od_get "is_processing" fields with
          | Some (JBool b) => busy_of slots (busy + (if b then 1 else 0))
          | _ => None
          end
      | _ => None
      end
  end.

Definition parse_busy_slots (payload : option Json) : option Z :=
  match payload with Some (JArr slots) => busy_of slots 0 | _ => None end.

(** [http_busy_slot_count] *)
Definition http_busy_slot_count (r : ProbeReply) : option Z :=
  match r with
  | NoReply => None
  | Reply status body => if negb (status =? 200)%Z then None else parse_busy_slots body
  end.

(** ** Assembly *)

Inductive ModelStoreKind := HttpModelStore | MeshModelStore (signing_key : string) (store_capacity_bytes : Z).

(** What [build] makes of the settings once the identity is resolved. *)
Record Assembled := {
  ab_supervisor : SupervisorConfig;
  ab_idle : Detector;
  ab_bench_listener : option (string * Z);      (* where the listener binds; the idle detector is then wrapped *)
  ab_predictor : bool;
  ab_modelstore : ModelStoreKind;
  ab_ports : PortAllocator;
  ab_reconcile_interval_s : Q
}.

(** [_resolve_idle], with the factory of the seams *)
Definition resolve_idle (os : Os) (s : AgentSettings) : IdleError + Detector * bool :=
  let raw := if be_force_idle (as_bench s) then create_idle_detector os (be_enabled (as_bench s)) (be_force_idle (as_bench s))
             else create_idle_detector os false false in
  match raw with inl e => inl e | inr d => inr (d, be_enabled (as_bench s)) end.

(** [_make_bench_listener] *)
Definition make_bench_listener (s : AgentSettings) (bench : bool) : option (string * Z) :=
  if bench then Some (as_bind_host s, be_port (as_bench s)) else None.

(** [_build_modelstore] *)
Definition build_modelstore (s : AgentSettings) : ModelStoreKind :=
  let mesh := as_mesh s in
  if negb (me_enabled mesh) then HttpModelStore
  else
    match me_signing_key mesh with
    | None => HttpModelStore
    | Some key => MeshModelStore key (me_store_capacity_bytes mesh)
    end.

Inductive BuildError := BadBindHost | BadPorts (message : string) | BadIdle (e : IdleError).

(** [AgentAssembly.build], after [resolve_identity] *)
Definition build (os : Os) (s : AgentSettings) : BuildError + Assembled :=
  match supervisor_config (as_llama_server_binary s) (as_bind_host s) with
  | None => inl BadBindHost
  | Some supervisor =>
      match resolve_idle os s with
      | inl e => inl (BadIdle e)
      | inr (idle, bench) =>
          match port_allocator (pr_start (as_port_range s)) (pr_count (as_port_range s)) with
          | inl message => inl (BadPorts message)
          | inr ports =>
              inr {| ab_supervisor := supervisor; ab_idle := idle; ab_bench_listener := make_bench_listener s bench;
                     ab_predictor := as_idle_prediction_enabled s; ab_modelstore := build_modelstore s; ab_ports := ports;
                     ab_reconcile_interval_s := as_reconcile_interval_s s |}
          end
      end
  end.
End Settings.

(** * What the settings guarantee of the agent built from them

    Settings that load never make the agent listen on all interfaces, and always build; the
    host of a replica's command line is the validated one unless the model's own arguments set another. *)

(** ** Stripping twice *)

Lemma lstrip_suffix l : lstrip l `suffix_of` l.
Proof.
  induction l as [| c l IH]; [done |]. cbn. destruct (is_py_space c); [| done]. by apply suffix_cons_r.
Qed.

Lemma lstrip_head l c rest : lstrip l = c :: rest → is_py_space c = false.
Proof.
  induction l as [| d l IH]; [done |]. cbn. destruct (is_py_space d) eqn:Hd; [done |]. by intros [= <- _].
Qed.

Lemma lstrip_fixed l : (∀ c rest, l = c :: rest → is_py_space c = false) → lstrip l = l.
Proof. destruct l as [| c rest]; [done |]. intros H. cbn. by rewrite (H c rest eq_refl). Qed.

Lemma strip_strip s : strip (strip s) = strip s.
Proof.
  unfold strip. rewrite String.list_ascii_of_string_of_list_ascii. set (m := lstrip (String.list_ascii_of_string s)).
  set (r := lstrip (reverse m)). assert (Hr : lstrip r = r) by (apply lstrip_fixed; intros c rest; apply lstrip_head).
  assert (Hfix : lstrip (reverse r) = reverse r).
  { apply lstrip_fixed. intros c rest Heq. assert (Hpre : reverse r `prefix_of` m).
    { destruct (lstrip_suffix (reverse m)) as [k Hk]. exists (reverse k). fold r in Hk.
      rewrite <- reverse_app, <- Hk. by rewrite reverse_involutive. }
    destruct Hpre as [k Hk]. rewrite Heq in Hk. by apply (lstrip_head (String.list_ascii_of_string s) c (rest ++ k)). }
  rewrite Hfix, reverse_involutive, Hr. done.
Qed.

Section Spec.
  Context (ip_address : string → option Ip).
  Context (to_str to_path : Raw → option string) (to_int : Raw → option Z) (to_float : Raw → option Q) (to_bool : Raw → option bool).

Local Abbreviation load := (load_settings ip_address to_str to_path to_int to_float to_bool).

(** A host no listener of which is bound to all interfaces, as far as [ipaddress] knows. *)
Definition safe_host (host : string) : Prop :=
  host = strip host ∧ host ≠ "" ∧ host ∉ WILDCARD_HOSTS ∧ ∀ ip, ip_address (unbracket host) = Some ip → unspecified ip = false.

Lemma validate_safe value host : validate_bind_host ip_address value = Some host → safe_host host.
Proof.
  unfold validate_bind_host. destruct (_ || _) eqn:Hw; [done |]. apply orb_false_iff in Hw as [Hne%bool_decide_eq_false Hwild%bool_decide_eq_false].
  intros Hhost. assert (host = strip value ∧ ∀ ip, ip_address (unbracket (strip value)) = Some ip → unspecified ip = false) as [-> Hip].
  { destruct (ip_address _) as [ip |]; [| by injection Hhost as <-]. destruct (unspecified ip) eqn:Hu; [done |].
    injection Hhost as <-. split; [done |]. by intros ip' [= <-]. }
  split_and!; [by rewrite strip_strip | done | done | done].
Qed.

Lemma safe_validates host : safe_host host → validate_bind_host ip_address host = Some host.
Proof.
  intros (Hs & Hne & Hw & Hip). unfold validate_bind_host. rewrite <- Hs, !bool_decide_eq_false_2 by done. cbn.
  destruct (ip_address _) as [ip |]; [| done]. by rewrite (Hip ip eq_refl).
Qed.

(** A checked field has passed its check or has its default. *)
Lemma field_spec {A} (conv : Raw → option A) ok dflt name data a :
  field conv ok dflt name data = Some a → (∃ r, conv r = Some a ∧ ok a = true) ∨ dflt = Some a.
Proof.
  unfold field. destruct (od_get name data) as [r |]; [| by right]. destruct (conv r) as [b |] eqn:Hb; cbn; [| done].
  destruct (ok b) eqn:Ho; [| done]. intros [= <-]. left. by exists r.
Qed.

Record settings_ok (s : AgentSettings) : Prop := {
  so_host : safe_host (as_bind_host s);
  so_ports : (0 < pr_start (as_port_range s))%Z ∧ (0 < pr_count (as_port_range s))%Z;
  so_bench : (be_force_idle (as_bench s) = true → be_enabled (as_bench s) = true) ∧ (0 < be_port (as_bench s))%Z;
  so_mesh : (me_enabled (as_mesh s) = true → given (me_signing_key (as_mesh s)) = true) ∧ (0 < me_store_capacity_bytes (as_mesh s))%Z
}.

Ltac unfold_binds H := repeat (let v := fresh "v" in let E := fresh "E" in apply bind_Some in H as (v & E & H)).

Lemma port_range_positive r p : port_range_of to_int r = Some p → (0 < pr_start p)%Z ∧ (0 < pr_count p)%Z.
Proof.
  intros H. unfold_binds H. injection H as <-. cbn.
  split; [destruct (field_spec _ _ _ _ _ _ E0) as [(? & _ & ?%Z.ltb_lt) | [= <-]] | destruct (field_spec _ _ _ _ _ _ E1) as [(? & _ & ?%Z.ltb_lt) | [= <-]]]; lia.
Qed.

Lemma bench_consistent r b :
  bench_of to_int to_bool r = Some b → (be_force_idle b = true → be_enabled b = true) ∧ (0 < be_port b)%Z.
Proof.
  intros H. unfold_binds H. destruct (_ && _) eqn:Hf; [done |]. injection H as <-. cbn. split.
  - intros ->. by destruct v0.
  - destruct (field_spec _ _ _ _ _ _ E2) as [(? & _ & ?%Z.ltb_lt) | [= <-]]; lia.
Qed.

Lemma mesh_consistent r m :
  mesh_of to_str to_int to_bool r = Some m → (me_enabled m = true → given (me_signing_key m) = true) ∧ (0 < me_store_capacity_bytes m)%Z.
Proof.
  intros H. unfold_binds H. destruct (_ && _) eqn:Hf; [done |]. injection H as <-. cbn. split.
  - intros ->. by apply negb_false_iff.
  - destruct (field_spec _ _ _ _ _ _ E2) as [(? & _ & ?%Z.ltb_lt) | [= <-]]; lia.
Qed.

Lemma validated_ok data s : settings_validate ip_address to_str to_path to_int to_float to_bool data = Some s → settings_ok s.
Proof.
  intros H. unfold_binds H. injection H as <-. split; cbn.
  - destruct (field_spec _ _ _ _ _ _ E0) as [(r & Hr & _) | [=]]. apply bind_Some in Hr as (t & _ & Ht). by eapply validate_safe.
  - destruct (field_spec _ _ _ _ _ _ E11) as [(r & Hr & _) | Hr]; by eapply port_range_positive.
  - destruct (field_spec _ _ _ _ _ _ E13) as [(r & Hr & _) | Hr]; by eapply bench_consistent.
  - destruct (field_spec _ _ _ _ _ _ E14) as [(r & Hr & _) | Hr]; by eapply mesh_consistent.
Qed.

Lemma loaded_ok file env s : load file env = inr s → settings_ok s.
Proof.
  unfold load_settings. destruct (read_toml file); [done |]. destruct (apply_env_overrides _ env); [done |].
  destruct (settings_validate _ _ _ _ _ _ _) as [s' |] eqn:Hs; [| done]. intros [= <-]. by eapply validated_ok.
Qed.

(** The host of the last [--host] of a replica's command line. *)
Lemma command_host binary host c manifest path port :
  supervisor_config ip_address binary host = Some c → "--host" ∉ mm_default_args manifest →
  ∃ pre post, llama_server_command c manifest path port = pre ++ ["--host"; su_bind_host c] ++ post ∧ "--host" ∉ post.
Proof.
  intros Hc Hargs. apply bind_Some in Hc as (h & _ & [= <-]).
  exists [binary; "-m"; path; "--port"; pretty port], (["--parallel"; "2"; "-c"; "8192"] ++ mm_default_args manifest ++ ["--slots"] ++
    (if (0 <? mm_min_vram_mb manifest)%Z then ["-ngl"; "999"; "--flash-attn"] else [])).
  split; [reflexivity |]. rewrite !not_elem_of_app. split_and!; [by apply (bool_decide_unpack _) | done | by apply (bool_decide_unpack _) |].
  destruct (0 <? _)%Z; by apply (bool_decide_unpack _).
Qed.

(** Whatever the configuration file and the environment say, settings that load describe an agent that builds and that
    listens on no wildcard address.  The bind host is trimmed, not empty, none of the wildcard spellings and no unspecified address; only an idle
    detector the platform lacks can fail the build; the bench's listener, if there is one, and every replica
    whose model brings no [--host] of its own bind to that host; the detector that ignores the user is only
    chosen in bench mode; models come over the mesh only with a key to verify them; and the port range is not empty. *)
Theorem settings_build_safely file env s os :
  load file env = inr s →
  safe_host (as_bind_host s) ∧
  match build ip_address os s with
  | inl e => ∃ ie, e = BadIdle ie
  | inr ab =>
      (∀ at_, ab_bench_listener ab = Some at_ → at_ = (as_bind_host s, be_port (as_bench s)) ∧ be_enabled (as_bench s) = true) ∧
      (ab_idle ab = ConstantIdleDetector → be_enabled (as_bench s) = true) ∧
      (∀ key cap, ab_modelstore ab = MeshModelStore key cap → key ≠ "" ∧ (0 < cap)%Z) ∧
      port_range (ab_ports ab) ≠ [] ∧
      ∀ manifest path port, "--host" ∉ mm_default_args manifest →
        ∃ pre post, llama_server_command (ab_supervisor ab) manifest path port = pre ++ ["--host"; as_bind_host s] ++ post ∧ "--host" ∉ post
  end.
Proof.
  intros Hload. destruct (loaded_ok file env s Hload) as [Hhost [Hstart Hcount] [Hforce Hbport] [Hmesh Hcap]]. split; [done |].
  unfold build. destruct (supervisor_config _ _ _) as [c |] eqn:Hc.
  2: { unfold supervisor_config in Hc. by rewrite (safe_validates _ Hhost) in Hc. }
  assert (Hh : su_bind_host c = as_bind_host s).
  { unfold supervisor_config in Hc. rewrite (safe_validates _ Hhost) in Hc. by injection Hc as <-. }
  destruct (resolve_idle os s) as [e | [d bench]] eqn:Hidle; [by eexists |]. unfold port_allocator.
  rewrite !(proj2 (Z.leb_gt _ _)) by done. unfold resolve_idle in Hidle.
  assert (bench = be_enabled (as_bench s)) as -> by (destruct (if be_force_idle _ then _ else _); [done | by injection Hidle]).
  cbn [ab_bench_listener ab_idle ab_modelstore ab_ports ab_supervisor]. split_and!.
  - intros at_. unfold make_bench_listener. destruct (be_enabled _); [by intros [= <-] | done].
  - intros ->. destruct (be_force_idle (as_bench s)) eqn:Hf; [by apply Hforce |]. unfold create_idle_detector in Hidle.
    by repeat case_bool_decide; try done; destruct (is_linux _), (resolve_reader os).
  - intros key cap. unfold build_modelstore. destruct (me_enabled _); [| done]. destruct (me_signing_key _) as [k |] eqn:Hk; [| done].
    intros [= <- <-]. split; [| done]. specialize (Hmesh eq_refl). cbn in Hmesh. by apply negb_true_iff, bool_decide_eq_false in Hmesh.
  - unfold port_range. cbn. rewrite seqZ_cons by lia. done.
  - intros manifest path port Hargs. rewrite <- Hh. by eapply command_host.
Qed.
End Spec.

(** ** A configuration *)

Definition plain_str (r : Raw) : option string := match r with RStr s => Some s | _ => None end.
Definition plain_int (r : Raw) : option Z := match r with RInt z => Some z | _ => None end.
Definition plain_float (r : Raw) : option Q := match r with RFloat q => Some q | RInt z => Some (inject_Z z) | _ => None end.
Definition plain_bool (r : Raw) : option bool := match r with RBool b => Some b | _ => None end.

(** [ipaddress] on the unspecified IPv4 address and the loopback one. *)
Definition plain_ip (text : string) : option Ip :=
  let facts u l := {| ip_unspecified := u; ip_loopback := l; ip_multicast := false; ip_link_local := false; ip_v6 := false |} in
  if bool_decide (text = "0.0.0.0") then Some {| ip_facts := facts true false; ip_mapped := None |}
  else if bool_decide (text = "127.0.0.1") then Some {| ip_facts := facts false true; ip_mapped := None |}
  else None.

Definition demo_load := load_settings plain_ip plain_str plain_str plain_int plain_float plain_bool.

Definition demo_file : odict Raw := [
  ("coordinator_url", RStr "https://hub//"); ("bind_host", RStr " 127.0.0.1 "); ("llama_server_binary", RStr "/opt/llama-server");
  ("mesh", RTable [("enabled", RBool true); ("signing_key", RStr "k")])].

Definition demo_linux : Os := {|
  os_platform := "linux"; os_display := None; os_library := λ _, false; os_exports := λ _, false; os_last_input := None;
  os_tick_count := 0; os_open_display := false; os_query_idle := None; os_hid_seconds := 0 |}.

Lemma settings_build_safely_witness :
  ∃ s, demo_load (Some demo_file) {[ "FALLOW_PORT_START" := "9000" ]} = inr s ∧ as_coordinator_url s = "https://hub" ∧
    pr_start (as_port_range s) = 9000%Z ∧ safe_host plain_ip (as_bind_host s) ∧
    demo_load (Some demo_file) {[ "FALLOW_BIND_HOST" := "0.0.0.0" ]} = inl (SettingsError "invalid agent settings").
Proof.
  eexists. split; [vm_compute; reflexivity |]. split; [reflexivity |]. split; [reflexivity |]. split; [| vm_compute; reflexivity].
  apply (settings_build_safely plain_ip plain_str plain_str plain_int plain_float plain_bool (Some demo_file)
    {[ "FALLOW_PORT_START" := "9000" ]} _ demo_linux). vm_compute. reflexivity.
Defined.

(** ** What the guard lets through *)

Definition demo_args (args : list string) : ModelManifest := {|
  mm_model_id := "m"; mm_family := "f"; mm_quant := "q"; mm_worker_kind := CHAT; mm_file_name := "m.gguf"; mm_sha256 := ""; mm_size_bytes := 1;
  mm_min_ram_mb := 0; mm_min_vram_mb := 0; mm_default_args := args; mm_chat_template_hint := None; mm_license := None; mm_source_url := None |}.

(** The agent's guard against wildcard addresses has two gaps.  Where [ipaddress] does not parse [0x0], which the C resolver reads as
    0.0.0.0, the agent accepts it as a bind host, while the coordinator refuses it for itself whatever it resolves
    to.  And a manifest's default arguments come after the validated host on a replica's command line, so
    they can set the host again, to any address. *)
Theorem wildcard_guard_gaps ip_address getaddrinfo :
  ip_address "0x0" = None →
  validate_bind_host ip_address "0x0" = Some "0x0" ∧ bind_ok ip_address getaddrinfo "0x0" = false ∧
  ∀ binary host c path port, supervisor_config ip_address binary host = Some c →
    ∃ pre post, llama_server_command c (demo_args ["--host"; "0.0.0.0"]) path port =
      pre ++ ["--host"; su_bind_host c] ++ post ++ ["--host"; "0.0.0.0"; "--slots"].
Proof.
  intros Hip. split; [| split; [reflexivity |]].
  - unfold validate_bind_host. change (strip "0x0") with "0x0". change (unbracket "0x0") with "0x0". by rewrite Hip.
  - intros binary host c path port Hc. apply bind_Some in Hc as (h & _ & [= <-]).
    exists [binary; "-m"; path; "--port"; pretty port], ["--parallel"; "2"; "-c"; "8192"]. reflexivity.
Qed.

Lemma wildcard_guard_gaps_witness : validate_bind_host plain_ip "0x0" = Some "0x0" ∧ validate_bind_host plain_ip "0.0.0.0" = None.
Proof. split; [apply (wildcard_guard_gaps plain_ip (λ _, None)); reflexivity | vm_compute; reflexivity]. Defined.
