(* ===== verification/Gguf.v ===== *)
(** * The GGUF header reader

    Models src/packages/fallow-cli/src/fallow_cli/gguf.py: the facts the command line
    derives from the head of a model file.  The reader's state is what the file holds
    after its position; UTF-8 decoding with replacement is an argument. *)

From S2P Require Export Bytes ODict.

Definition MAGIC : bytes := String.list_byte_of_string "GGUF".
Definition MAX_KV : Z := 4096.
Definition MAX_STRING : Z := 2 ^ 20.
Definition MAX_ARRAY : Z := 2 ^ 24.
Definition TYPE_STRING : Z := 8.
Definition TYPE_ARRAY : Z := 9.

(** value type -> (byte width, signed) *)
Definition INT_TYPES (t : Z) : option (nat * bool) :=
  match t with
  | 0 => Some (1%nat, false) | 1 => Some (1%nat, true) | 2 => Some (2%nat, false) | 3 => Some (2%nat, true)
  | 4 => Some (4%nat, false) | 5 => Some (4%nat, true) | 7 => Some (1%nat, false) | 10 => Some (8%nat, false)
  | 11 => Some (8%nat, true) | _ => None
  end%Z.

Definition FLOAT_TYPES (t : Z) : option nat :=
  match t with 6 => Some 4%nat | 12 => Some 8%nat | _ => None end%Z.

Definition FILE_TYPES : list (Z * string) := [
  (0, "F32"); (1, "F16"); (2, "Q4_0"); (3, "Q4_1"); (7, "Q8_0"); (8, "Q5_0"); (9, "Q5_1"); (10, "Q2_K"); (11, "Q3_K_S");
  (12, "Q3_K_M"); (13, "Q3_K_L"); (14, "Q4_K_S"); (15, "Q4_K_M"); (16, "Q5_K_S"); (17, "Q5_K_M"); (18, "Q6_K");
  (19, "IQ2_XXS"); (20, "IQ2_XS"); (21, "Q2_K_S"); (22, "IQ3_XS"); (23, "IQ3_XXS"); (24, "IQ1_S"); (25, "IQ4_NL");
  (26, "IQ3_S"); (27, "IQ3_M"); (28, "IQ2_S"); (29, "IQ2_M"); (30, "IQ4_XS"); (31, "IQ1_M"); (32, "BF16"); (36, "TQ1_0");
  (37, "TQ2_0"); (38, "MXFP4_MOE"); (39, "NVFP4"); (40, "Q1_0"); (41, "Q2_0") ]%Z.

Inductive GgufError :=
  | Truncated | NotGguf | UnsupportedVersion (v : Z) | ImplausibleCount (n : Z) | ImplausibleString (n : Z)
  | ImplausibleArray (n : Z) | UnknownType (t : Z).

Record GgufHeader := {
  gh_version : Z; gh_tensor_count : Z; gh_architecture : option string; gh_name : option string; gh_file_type : option Z
}.

Definition quant (h : GgufHeader) : option string :=
  t ← gh_file_type h; snd <$> head (filter (λ p : Z * string, p.1 = t) FILE_TYPES).

Definition MIB : Q := 1048576.

Definition derive_min_ram_mb (size_bytes : Z) : Z :=
  (Qceiling (inject_Z size_bytes / MIB * (115 # 100)) + 512)%Z.

(** ** _Reader *)

Abbreviation G_eff := (Eff bytes GgufError).

(** [read] *)
Definition greads (count : Z) : G_eff bytes := λ rest,
  if (Z.of_nat (length rest) <? count)%Z then ([], inl Truncated)
  else (drop (Z.to_nat count) rest, inr (take (Z.to_nat count) rest)).

(** [int.from_bytes(raw, "little", signed=signed)] *)
Fixpoint le_uint (raw : bytes) : Z :=
  match raw with
  | [] => 0
  | b :: raw => Z.of_N (Byte.to_N b) + 256 * le_uint raw
  end.

Definition from_bytes (raw : bytes) (signed : bool) : Z :=
  let n := le_uint raw in
  if signed && (2 ^ (8 * Z.of_nat (length raw) - 1) <=? n)%Z then (n - 2 ^ (8 * Z.of_nat (length raw)))%Z else n.

Definition uint (width : nat) (signed : bool) : G_eff Z :=
  raw ← greads (Z.of_nat width); mret (from_bytes raw signed).

Definition skip (count : Z) : G_eff unit := λ rest,
  if (count <? 0)%Z || (Z.of_nat (length rest) <? count)%Z then (rest, inl Truncated)
  else (drop (Z.to_nat count) rest, inr tt).

Inductive GgufValue := GStr (s : string) | GInt (n : Z).

Section Reader.
  Context (decode : bytes → string).

(** [_read_string] *)
Definition read_string : G_eff string :=
  length ← uint 8 false;
  if (MAX_STRING <? length)%Z then raise (ImplausibleString length)
  else raw ← greads length; mret (decode raw).

Fixpoint skip_strings (n : nat) : G_eff unit :=
  match n with
  | O => mret tt
  | S n => len ← uint 8 false; skip len ;; skip_strings n
  end.

(** [_skip_array] *)
Definition skip_array : G_eff unit :=
  element_type ← uint 4 false;
  count ← uint 8 false;
  if (MAX_ARRAY <? count)%Z then raise (ImplausibleArray count)
  else if (element_type =? TYPE_STRING)%Z then skip_strings (Z.to_nat count)
  else
    match INT_TYPES element_type with
    | Some (width, _) => skip (Z.of_nat width * count)
    | None =>
        match FLOAT_TYPES element_type with
        | Some width => skip (Z.of_nat width * count)
        | None => raise (UnknownType element_type)
        end
    end.

(** [_read_value] *)
Definition read_value (value_type : Z) : G_eff (option GgufValue) :=
  if (value_type =? TYPE_STRING)%Z then s ← read_string; mret (Some (GStr s))
  else if (value_type =? TYPE_ARRAY)%Z then skip_array ;; mret None
  else
    match INT_TYPES value_type with
    | Some (width, signed) => n ← uint width signed; mret (Some (GInt n))
    | None =>
        match FLOAT_TYPES value_type with
        | Some width => skip (Z.of_nat width) ;; mret None
        | None => raise (UnknownType value_type)
        end
    end.

Definition WANTED : list string := ["general.architecture"; "general.name"; "general.file_type"].

Definition remember_kv (key : string) (value : option GgufValue) (found : odict GgufValue) : odict GgufValue :=
  match value with
  | Some v => if bool_decide (key ∈ WANTED) then od_set key v found else found
  | None => found
  end.

(** The loop over the metadata. *)
Fixpoint read_kvs (n : nat) (found : odict GgufValue) : G_eff (odict GgufValue) :=
  match n with
  | O => mret found
  | S n =>
      key ← read_string;
      value_type ← uint 4 false;
      value ← read_value value_type;
      read_kvs n (remember_kv key value found)
  end.

Definition as_string (v : option GgufValue) : option string := match v with Some (GStr s) => Some s | _ => None end.
Definition as_int (v : option GgufValue) : option Z := match v with Some (GInt n) => Some n | _ => None end.

Definition header_of (version tensor_count : Z) (found : odict GgufValue) : GgufHeader := {|
  gh_version := version; gh_tensor_count := tensor_count;
  gh_architecture := as_string (od_get "general.architecture" found); gh_name := as_string (od_get "general.name" found);
  gh_file_type := as_int (od_get "general.file_type" found) |}.

(** [_read] *)
Definition read_header : G_eff GgufHeader :=
  magic ← greads 4;
  if negb (bool_decide (magic = MAGIC)) then raise NotGguf
  else
    version ← uint 4 false;
    if negb ((version =? 2)%Z || (version =? 3)%Z) then raise (UnsupportedVersion version)
    else
      tensor_count ← uint 8 false;
      kv_count ← uint 8 false;
      if (MAX_KV <? kv_count)%Z then raise (ImplausibleCount kv_count)
      else
        found ← read_kvs (Z.to_nat kv_count) [];
        mret (header_of version tensor_count found).
End Reader.

(** * What the GGUF reader promises

    Against a writer of the format: reading a well-formed header gives back what was
    written, and no reader's answer depends on a byte after the header. *)

(** A comparison of integers decided by [lia]. *)
Ltac solve_zbool :=
  match goal with
  | |- (_ <? _)%Z = false => apply Z.ltb_ge; lia
  | |- (_ <=? _)%Z = false => apply Z.leb_gt; lia
  | |- (_ <=? _)%Z = true => apply Z.leb_le; lia
  | |- (_ || _) = false => apply orb_false_iff; split; apply Z.ltb_ge; lia
  end.

(** ** The format *)

Definition le_byte (n : Z) : Byte.byte := default Byte.x00 (Byte.of_N (Z.to_N (n mod 256))).

Fixpoint to_le (width : nat) (n : Z) : bytes :=
  match width with
  | O => []
  | S width => le_byte n :: to_le width (n / 256)
  end.

Inductive Meta :=
  | MString (raw : bytes)
  | MInt (t n : Z)
  | MFloat (t : Z) (raw : bytes)
  | MStrings (items : list bytes)
  | MScalars (t : Z) (count : nat) (raw : bytes).

Definition encode_string (s : bytes) : bytes := to_le 8 (Z.of_nat (length s)) ++ s.

Definition scalar_width (t : Z) : option nat :=
  match INT_TYPES t with Some (w, _) => Some w | None => FLOAT_TYPES t end.

Definition encode_meta (m : Meta) : Z * bytes :=
  match m with
  | MString raw => (TYPE_STRING, encode_string raw)
  | MInt t n => (t, match INT_TYPES t with Some (w, _) => to_le w n | None => [] end)
  | MFloat t raw => (t, raw)
  | MStrings items => (TYPE_ARRAY, to_le 4 TYPE_STRING ++ to_le 8 (Z.of_nat (length items)) ++ concat (encode_string <$> items))
  | MScalars t count raw => (TYPE_ARRAY, to_le 4 t ++ to_le 8 (Z.of_nat count) ++ raw)
  end.

Definition encode_kv (kv : bytes * Meta) : bytes :=
  let '(t, b) := encode_meta kv.2 in encode_string kv.1 ++ to_le 4 t ++ b.

Definition encode_header (version tensor_count : Z) (kvs : list (bytes * Meta)) : bytes :=
  MAGIC ++ to_le 4 version ++ to_le 8 tensor_count ++ to_le 8 (Z.of_nat (length kvs)) ++ concat (encode_kv <$> kvs).

Definition in_range (w : nat) (signed : bool) (n : Z) : Prop :=
  if signed then (- 2 ^ (8 * Z.of_nat w - 1) ≤ n < 2 ^ (8 * Z.of_nat w - 1))%Z else (0 ≤ n < 2 ^ (8 * Z.of_nat w))%Z.

Definition string_ok (s : bytes) : Prop := (Z.of_nat (length s) ≤ MAX_STRING)%Z.

Definition meta_ok (m : Meta) : Prop :=
  match m with
  | MString raw => string_ok raw
  | MInt t n => ∃ w signed, INT_TYPES t = Some (w, signed) ∧ in_range w signed n
  | MFloat t raw => FLOAT_TYPES t = Some (length raw)
  | MStrings items => (Z.of_nat (length items) ≤ MAX_ARRAY)%Z ∧ Forall (λ s, (Z.of_nat (length s) < 2 ^ 64)%Z) items
  | MScalars t count raw => (Z.of_nat count ≤ MAX_ARRAY)%Z ∧ ∃ w, scalar_width t = Some w ∧ length raw = (w * count)%nat
  end.

(** ** Little-endian integers *)

Lemma le_byte_value n : Z.of_N (Byte.to_N (le_byte n)) = (n mod 256)%Z.
Proof.
  unfold le_byte. pose proof (Z.mod_pos_bound n 256 ltac:(lia)) as Hb. destruct (Byte.of_N (Z.to_N (n mod 256))) as [b |] eqn:He; cbn.
  - apply Byte.to_of_N in He. rewrite He. lia.
  - apply Byte.of_N_None_iff in He. lia.
Qed.

Lemma length_to_le w n : length (to_le w n) = w.
Proof. revert n; induction w as [| w IH]; intros n; cbn; [done | by rewrite IH]. Qed.

Lemma le_uint_to_le w n : le_uint (to_le w n) = (n mod 2 ^ (8 * Z.of_nat w))%Z.
Proof.
  revert n; induction w as [| w IH]; intros n; cbn [to_le le_uint]; [by rewrite Z.mod_1_r |]. rewrite le_byte_value, IH.
  replace (8 * Z.of_nat (S w))%Z with (8 + 8 * Z.of_nat w)%Z by lia. rewrite Z.pow_add_r by lia. change (2 ^ 8)%Z with 256%Z.
  rewrite Z.rem_mul_r; lia.
Qed.

Lemma from_to_le w signed n : (0 < w)%nat → in_range w signed n → from_bytes (to_le w n) signed = n.
Proof.
  intros Hw Hr. unfold from_bytes. rewrite le_uint_to_le, length_to_le. remember (8 * Z.of_nat w - 1)%Z as k eqn:Ek.
  assert (Hk : (2 ^ (8 * Z.of_nat w) = 2 * 2 ^ k)%Z) by (rewrite <- Z.pow_succ_r by lia; f_equal; lia).
  pose proof (Z.pow_pos_nonneg 2 k ltac:(lia) ltac:(lia)) as Hpos. unfold in_range in Hr. rewrite <- Ek, Hk in Hr. rewrite Hk. destruct signed; cbn [andb].
  - destruct (decide (0 ≤ n)%Z) as [H0 | H0].
    + rewrite Z.mod_small by lia. by assert ((2 ^ k <=? n)%Z = false) as -> by solve_zbool.
    + rewrite <- (Z.mod_unique n (2 * 2 ^ k) (-1) (n + 2 * 2 ^ k)) by lia. assert ((2 ^ k <=? n + 2 * 2 ^ k)%Z = true) as -> by solve_zbool. lia.
  - by rewrite Z.mod_small.
Qed.

(** ** Reading back *)

Lemma greads_app a rest n : n = Z.of_nat (length a) → greads n (a ++ rest) = (rest, inr a).
Proof.
  intros ->. unfold greads. rewrite length_app. assert ((Z.of_nat (length a + length rest) <? Z.of_nat (length a))%Z = false) as -> by solve_zbool.
  by rewrite Nat2Z.id, drop_app_length, take_app_length.
Qed.

Lemma skip_app a rest n : n = Z.of_nat (length a) → skip n (a ++ rest) = (rest, inr tt).
Proof.
  intros ->. unfold skip. rewrite length_app.
  assert (((Z.of_nat (length a) <? 0) || (Z.of_nat (length a + length rest) <? Z.of_nat (length a)))%Z = false) as -> by solve_zbool.
  by rewrite Nat2Z.id, drop_app_length.
Qed.

Lemma uint_app w signed n rest {A} (k : Z → G_eff A) :
  (0 < w)%nat → in_range w signed n → (uint w signed ≫= k) (to_le w n ++ rest) = k n rest.
Proof.
  intros Hw Hr. unfold uint, mbind, eff_bind. rewrite greads_app by (by rewrite length_to_le). cbn. by rewrite from_to_le.
Qed.

Section Roundtrip.
  Context (decode : bytes → string).
  Notation read_string := (read_string decode).
  Notation read_value := (read_value decode).
  Notation read_kvs := (read_kvs decode).

(** What the reader keeps of a value. *)
Definition kept_value (m : Meta) : option GgufValue :=
  match m with MString raw => Some (GStr (decode raw)) | MInt _ n => Some (GInt n) | _ => None end.

Lemma read_string_app s rest {A} (k : string → G_eff A) :
  string_ok s → (read_string ≫= k) (encode_string s ++ rest) = k (decode s) rest.
Proof.
  unfold string_ok. intros Hs. unfold Gguf.read_string, encode_string, mbind at 1, eff_bind at 1. rewrite <- app_assoc.
  rewrite (uint_app 8 false (Z.of_nat (length s))); [| lia | unfold in_range, MAX_STRING in *; lia].
  assert ((MAX_STRING <? Z.of_nat (length s))%Z = false) as -> by solve_zbool. unfold mbind, eff_bind. by rewrite greads_app.
Qed.

Lemma skip_strings_app items rest :
  Forall (λ s, (Z.of_nat (length s) < 2 ^ 64)%Z) items →
  skip_strings (length items) (concat (encode_string <$> items) ++ rest) = (rest, inr tt).
Proof.
  induction 1 as [| s items Hs HF IH]; [done |]. cbn [length skip_strings fmap list_fmap concat]. unfold encode_string at 1. rewrite <- !app_assoc.
  rewrite (uint_app 8 false (Z.of_nat (length s))); [| lia | unfold in_range; lia]. unfold mbind, eff_bind. by rewrite skip_app.
Qed.

Lemma int_type_range t w s : INT_TYPES t = Some (w, s) → (0 ≤ t < 256)%Z ∧ (0 < w)%nat ∧ t ≠ TYPE_STRING ∧ t ≠ TYPE_ARRAY.
Proof.
  unfold INT_TYPES, TYPE_STRING, TYPE_ARRAY. intros Ht. destruct t as [| p | p]; [injection Ht as <- <-; lia | | done].
  do 4 (destruct p as [p | p |]; try done; try (injection Ht as <- <-; lia)).
Qed.

Lemma float_type_range t w : FLOAT_TYPES t = Some w → (0 ≤ t < 256)%Z ∧ t ≠ TYPE_STRING ∧ t ≠ TYPE_ARRAY ∧ INT_TYPES t = None.
Proof.
  unfold FLOAT_TYPES, TYPE_STRING, TYPE_ARRAY. intros Ht. destruct t as [| p | p]; [done | | done].
  do 4 (destruct p as [p | p |]; try done; try (injection Ht as <-; split_and!; (lia || done))).
Qed.

Lemma read_value_app m rest :
  meta_ok m → read_value (encode_meta m).1 ((encode_meta m).2 ++ rest) = (rest, inr (kept_value m)).
Proof.
  destruct m as [raw | t n | t raw | items | t count raw]; cbn [encode_meta fst snd kept_value meta_ok]; unfold Gguf.read_value.
  - intros Hs. cbn [TYPE_STRING Z.eqb Pos.eqb]. by rewrite read_string_app.
  - intros (w & signed & Ht & Hr). destruct (int_type_range t w signed Ht) as (_ & Hw & Hs & Ha). rewrite Ht.
    rewrite (proj2 (Z.eqb_neq _ _) Hs), (proj2 (Z.eqb_neq _ _) Ha). by rewrite uint_app.
  - intros Ht. destruct (float_type_range _ _ Ht) as (_ & Hs & Ha & Hi). rewrite Hi, Ht, (proj2 (Z.eqb_neq _ _) Hs), (proj2 (Z.eqb_neq _ _) Ha).
    unfold mbind, eff_bind. by rewrite skip_app.
  - intros [Hc HF]. cbn [TYPE_ARRAY TYPE_STRING Z.eqb Pos.eqb]. unfold skip_array, mbind at 1, eff_bind at 1. rewrite <- !app_assoc.
    rewrite (uint_app 4 false TYPE_STRING); [| lia | unfold in_range; by cbn].
    rewrite (uint_app 8 false (Z.of_nat (length items))); [| lia | unfold in_range, MAX_ARRAY in *; lia].
    assert ((MAX_ARRAY <? Z.of_nat (length items))%Z = false) as -> by solve_zbool. cbn [TYPE_STRING Z.eqb Pos.eqb].
    by rewrite Nat2Z.id, skip_strings_app.
  - intros (Hc & w & Hw & Hl). cbn [TYPE_ARRAY TYPE_STRING Z.eqb Pos.eqb]. unfold skip_array, mbind at 1, eff_bind at 1. rewrite <- !app_assoc.
    assert (Ht : (0 ≤ t < 256)%Z ∧ t ≠ TYPE_STRING).
    { unfold scalar_width in Hw. destruct (INT_TYPES t) as [[w' s] |] eqn:Hi; [apply int_type_range in Hi | apply float_type_range in Hw]; tauto. }
    rewrite (uint_app 4 false t); [| lia | unfold in_range; cbn; lia].
    rewrite (uint_app 8 false (Z.of_nat count)); [| lia | unfold in_range, MAX_ARRAY in *; lia].
    assert ((MAX_ARRAY <? Z.of_nat count)%Z = false) as -> by solve_zbool. rewrite (proj2 (Z.eqb_neq _ _) (proj2 Ht)).
    unfold scalar_width in Hw. destruct (INT_TYPES t) as [[w' s] |]; [injection Hw as -> | rewrite Hw]; by rewrite skip_app by (rewrite Hl; lia).
Qed.

Lemma encode_meta_type m : meta_ok m → (0 ≤ (encode_meta m).1 < 256)%Z.
Proof.
  destruct m as [| t n | t raw | |]; cbn; try done.
  - by intros (w & s & Ht & _); apply int_type_range in Ht as [? _].
  - by intros Ht; apply float_type_range in Ht as [? _].
Qed.

Definition note_kv (found : odict GgufValue) (kv : bytes * Meta) : odict GgufValue :=
  remember_kv (decode kv.1) (kept_value kv.2) found.

Lemma read_kvs_app kvs found rest :
  Forall (λ kv, string_ok kv.1 ∧ meta_ok kv.2) kvs →
  read_kvs (length kvs) found (concat (encode_kv <$> kvs) ++ rest) = (rest, inr (fold_left note_kv kvs found)).
Proof.
  intros HF. revert found; induction HF as [| [key m] kvs [Hk Hm] HF IH]; intros found; [done |].
  cbn [length Gguf.read_kvs fmap list_fmap concat fold_left]. cbn [fst snd] in Hk, Hm. unfold encode_kv at 1. cbn [fst snd].
  destruct (encode_meta m) as [t b] eqn:He. rewrite <- !app_assoc, read_string_app by done.
  rewrite (uint_app 4 false t); [| lia |].
  2: { pose proof (encode_meta_type m Hm) as Ht. rewrite He in Ht. unfold in_range. cbn in *. lia. }
  pose proof (read_value_app m (concat (encode_kv <$> kvs) ++ rest) Hm) as Hv. rewrite He in Hv. cbn [fst snd] in Hv.
  unfold mbind, eff_bind. rewrite Hv. apply IH.
Qed.

(** The value last written under [key], of those that are strings or integers. *)
Definition last_value (key : string) (kvs : list (bytes * Meta)) : option GgufValue :=
  last (omap (λ kv : bytes * Meta, if bool_decide (decode kv.1 = key) then kept_value kv.2 else None) kvs).

Lemma noted_value key kvs found :
  key ∈ WANTED → od_get key (fold_left note_kv kvs found) =
    match last_value key kvs with Some v => Some v | None => od_get key found end.
Proof.
  intros Hk. unfold last_value. induction kvs as [| kv kvs IH] using rev_ind; [done |].
  rewrite fold_left_app, omap_app. cbn [fold_left omap list_omap]. unfold note_kv at 1, remember_kv.
  destruct (bool_decide (decode kv.1 = key)) eqn:Hd; reflect_bools.
  - destruct (kept_value kv.2) as [v |]; [| by rewrite app_nil_r]. rewrite last_snoc, bool_decide_eq_true_2 by (by rewrite Hd).
    by rewrite Hd, od_get_set_eq.
  - rewrite app_nil_r, <- IH. destruct (kept_value kv.2) as [v |]; [| done]. destruct (bool_decide _); [| done].
    by rewrite od_get_set_ne by done.
Qed.

End Roundtrip.

(** ** Nothing past the header *)

(** A successful run has used a prefix, and would have done the same before any other
    continuation. *)
Definition local {A} (c : G_eff A) : Prop :=
  ∀ b rest a, c b = (rest, inr a) → ∃ used, b = used ++ rest ∧ ∀ rest', c (used ++ rest') = (rest', inr a).

Lemma local_ret {A} (a : A) : local (mret a).
Proof. intros b rest x [= <- <-]. by exists []. Qed.

Lemma local_raise {A} e : local (A := A) (raise e).
Proof. by intros b rest x. Qed.

Lemma local_bind {A B} (c : G_eff A) (k : A → G_eff B) : local c → (∀ a, local (k a)) → local (c ≫= k).
Proof.
  intros Hc Hk b rest x. unfold mbind, eff_bind. destruct (c b) as [b1 [e | a]] eqn:Hcb; [done |]. intros Hr.
  destruct (Hc _ _ _ Hcb) as (u1 & -> & H1). destruct (Hk a _ _ _ Hr) as (u2 & -> & H2).
  exists (u1 ++ u2). split; [by rewrite app_assoc |]. intros rest'. by rewrite <- app_assoc, H1, H2.
Qed.

Lemma local_greads n : local (greads n).
Proof.
  intros b rest x. unfold greads. destruct (Z.ltb_spec (Z.of_nat (length b)) n) as [? | Hle]; [done |]. intros [= <- <-].
  exists (take (Z.to_nat n) b). split; [by rewrite take_drop |]. intros rest'.
  assert (Hl : length (take (Z.to_nat n) b) = Z.to_nat n) by (rewrite length_take; lia).
  assert ((Z.of_nat (length (take (Z.to_nat n) b ++ rest')) <? n)%Z = false) as -> by (apply Z.ltb_ge; rewrite length_app, Hl; lia).
  by rewrite drop_app_le, take_app_le, take_take, Nat.min_id, drop_ge by lia.
Qed.

Lemma local_skip n : local (skip n).
Proof.
  intros b rest x. unfold skip. destruct (Z.ltb_spec n 0) as [? | H0]; [done |].
  destruct (Z.ltb_spec (Z.of_nat (length b)) n) as [? | Hle]; [done |]. cbn [orb]. intros [= <- <-].
  exists (take (Z.to_nat n) b). split; [by rewrite take_drop |]. intros rest'.
  assert (Hl : length (take (Z.to_nat n) b) = Z.to_nat n) by (rewrite length_take; lia).
  assert ((Z.of_nat (length (take (Z.to_nat n) b ++ rest')) <? n)%Z = false) as -> by (apply Z.ltb_ge; rewrite length_app, Hl; lia).
  cbn [orb]. by rewrite drop_app_le, drop_ge by lia.
Qed.

Lemma local_uint w s : local (uint w s).
Proof. apply local_bind; [apply local_greads | intros ?; apply local_ret]. Qed.

Create HintDb local.
#[local] Hint Resolve local_ret local_raise local_greads local_skip local_uint : local.
#[local] Hint Extern 2 (local (_ ≫= _)) => (apply local_bind; [| intro]) : local.

Lemma local_skip_strings n : local (skip_strings n).
Proof. induction n as [| n IH]; cbn; auto 8 with local. Qed.
#[local] Hint Resolve local_skip_strings : local.

Lemma local_skip_array : local skip_array.
Proof.
  unfold skip_array. do 2 (apply local_bind; [auto with local | intros ?]). destruct (_ <? _)%Z; [auto with local |].
  destruct (_ =? _)%Z; [auto with local |]. destruct (INT_TYPES _) as [[? ?] |]; [auto with local |]. destruct (FLOAT_TYPES _); auto with local.
Qed.
#[local] Hint Resolve local_skip_array : local.

Lemma local_read_string decode : local (read_string decode).
Proof. unfold read_string. apply local_bind; [auto with local | intros n]. destruct (_ <? _)%Z; auto with local. Qed.
#[local] Hint Resolve local_read_string : local.

Lemma local_read_value decode t : local (read_value decode t).
Proof.
  unfold read_value. destruct (_ =? _)%Z; [auto with local |]. destruct (_ =? _)%Z; [auto with local |].
  destruct (INT_TYPES _) as [[? ?] |]; [auto with local |]. destruct (FLOAT_TYPES _); auto with local.
Qed.
#[local] Hint Resolve local_read_value : local.

Lemma local_read_kvs decode n found : local (read_kvs decode n found).
Proof. revert found; induction n as [| n IH]; intros found; cbn; auto 10 with local. Qed.

(** A header that is read is read from its own bytes only: the file begins with them,
    and any other continuation, however corrupt, gives the same answer at the same
    place. *)
Theorem gguf_reads_only_header decode file rest h :
  read_header decode file = (rest, inr h) →
  ∃ used, file = used ++ rest ∧ ∀ rest', read_header decode (used ++ rest') = (rest', inr h).
Proof.
  revert file rest h. change (local (read_header decode)). unfold read_header. apply local_bind; [apply local_greads | intros magic].
  destruct (negb _); [apply local_raise |]. apply local_bind; [apply local_uint | intros version].
  destruct (negb _); [apply local_raise |]. do 2 (apply local_bind; [apply local_uint | intros ?]). destruct (_ <? _)%Z; [apply local_raise |].
  apply local_bind; [apply local_read_kvs | intros found; apply local_ret].
Qed.

(** The RAM floor is never below the file itself plus the runtime's share, and grows with
    the file. *)
Lemma min_ram_covers size size' :
  (0 ≤ size ≤ size')%Z →
  (inject_Z size / MIB + 512 <= inject_Z (derive_min_ram_mb size))%Q ∧ (derive_min_ram_mb size ≤ derive_min_ram_mb size')%Z.
Proof.
  intros [H0 Hle]. unfold derive_min_ram_mb, MIB. assert (Hq : (0 <= inject_Z size)%Q) by (change 0%Q with (inject_Z 0); by rewrite <- Zle_Qle).
  rewrite Zle_Qle in Hle. split.
  - rewrite inject_Z_plus. pose proof (Qle_ceiling (inject_Z size / 1048576 * (115 # 100))) as Hc. unfold Qdiv in *. change (/ 1048576)%Q with (1 # 1048576)%Q in *.
    change (inject_Z 512) with 512%Q. lra.
  - apply Z.add_le_mono_r, Qceiling_resp_le. unfold Qdiv. change (/ 1048576)%Q with (1 # 1048576)%Q. lra.
Qed.

(** ** A concrete header *)

Definition demo_kvs : list (bytes * Meta) := [
  (String.list_byte_of_string "general.architecture", MString (String.list_byte_of_string "qwen2"));
  (String.list_byte_of_string "tokenizer.tokens", MStrings [String.list_byte_of_string "a"; []]);
  (String.list_byte_of_string "general.file_type", MInt 5 15) ].

Lemma demo_kvs_ok : Forall (λ kv, string_ok kv.1 ∧ meta_ok kv.2) demo_kvs.
Proof.
  repeat apply List.Forall_cons; [| | | by apply List.Forall_nil]; split; try done.
  - split; [done |]. repeat apply List.Forall_cons; [done | done | by apply List.Forall_nil].
  - exists 4%nat, true. done.
Qed.


Lemma gguf_reads_only_header_witness :
  ∃ used, encode_header 3 7 demo_kvs = used ++ [].
Proof.
  destruct (read_header String.string_of_list_byte (encode_header 3 7 demo_kvs)) as [rest [e | h]] eqn:Hr; [vm_compute in Hr; discriminate Hr |].
  destruct (gguf_reads_only_header _ _ _ _ Hr) as (used & He & _). vm_compute in Hr. injection Hr as <- _. exists used. exact He.
Defined.
