(* ===== verification/Pull.v ===== *)
(** * Pulling a model

    Models src/packages/fallow-cli/src/fallow_cli/hf.py (the [hf:] specs), the lookup of catalog.py,
    pull.py (plan, preflight, resolution, verification), blobs.py (download, hashing, manifest) and
    the command [models_pull] of main.py, which swaps the new blob in and registers it with the
    registry of Registry.v.  The blob directory maps names to contents.  What the network answers, what
    each rename does and whether the registration's reply arrives are arguments; URL parsing is a
    parameter. *)

From S2P Require Export Registry Gguf.

(** ** [hf:] specs *)

Definition HF_PREFIX : string := "hf:".
Definition HF_HOST : string := "https://huggingface.co".
Definition DEFAULT_REVISION : string := "main".

Record HfSource := { hf_owner : string; hf_repo : string; hf_file_path : string; hf_revision : string }.

Definition hf_url (h : HfSource) : string :=
  HF_HOST +:+ "/" +:+ hf_owner h +:+ "/" +:+ hf_repo h +:+ "/resolve/" +:+ hf_revision h +:+ "/" +:+ hf_file_path h.

(** [__str__] *)
Definition hf_str (h : HfSource) : string :=
  HF_PREFIX +:+ hf_owner h +:+ "/" +:+ hf_repo h +:+ "/" +:+ hf_file_path h +:+ "@" +:+ hf_revision h.

(** [source.startswith(PREFIX)] and [removeprefix] *)
Definition strip_hf (source : string) : option string :=
  match source with String "h" (String "f" (String ":" rest)) => Some rest | _ => None end.

Definition is_hf_spec (source : string) : bool := bool_decide (is_Some (strip_hf source)).

Definition in_range (lo hi : N) (c : ascii) : bool := (lo <=? Ascii.N_of_ascii c)%N && (Ascii.N_of_ascii c <=? hi)%N.

(** [A-Za-z0-9] and [A-Za-z0-9._-] *)
Definition is_alnum (c : ascii) : bool := in_range 48 57 c || in_range 65 90 c || in_range 97 122 c.
Definition is_segment_char (c : ascii) : bool := is_alnum c || bool_decide (c ∈ ["."; "_"; "-"]%char).

(** [_SEGMENT.fullmatch(segment)] *)
Definition segment_ok (s : string) : bool :=
  match String.list_ascii_of_string s with c :: cs => is_alnum c && forallb is_segment_char cs | [] => false end.

(** [s.endswith(".gguf")] *)
Definition ends_gguf (s : string) : bool :=
  bool_decide (take 5 (reverse (String.list_ascii_of_string s)) = reverse (String.list_ascii_of_string ".gguf")).

(** [parse]; [None] is its [ValueError] *)
Definition hf_parse (source : string) : option HfSource :=
  match strip_hf source with
  | None => None
  | Some spec =>
      let '(body, rev) := str_partition "@" spec in
      let revision := if bool_decide (rev = "") then DEFAULT_REVISION else rev in
      let segments := split_on "/" body in
      if (length segments <? 3)%nat then None
      else if negb (forallb segment_ok (segments ++ [revision])) then None
      else
        match segments, last segments with
        | owner :: repo :: files, Some name =>
            if ends_gguf name
            then Some {| hf_owner := owner; hf_repo := repo; hf_file_path := Bytes.join "/" files; hf_revision := revision |}
            else None
        | _, _ => None
        end
  end.

(** ** Plans *)

Record CatalogEntry := {
  ce_id : string; ce_source : string; ce_family : string; ce_quant : string; ce_worker_kind : WorkerKind;
  ce_sha256 : string; ce_size_bytes : Z; ce_min_ram_mb : Z; ce_min_vram_mb : Z; ce_license : string; ce_note : string
}.

Record Overrides := {
  ov_model_id : option string; ov_family : option string; ov_quant : option string;
  ov_worker_kind : option WorkerKind; ov_min_ram_mb : option Z; ov_min_vram_mb : option Z
}.

Record PullPlan := { pp_url : string; pp_origin : string; pp_entry : option CatalogEntry }.

(** The [CliError]s, by what they say. *)
Inductive PullError :=
  | BothSources | NoSource | BadSpec | BadCatalog (id : string) | UnknownCatalogId | NeedsModelId | NeedsFamily | NeedsQuant
  | DownloadFailed | FileEmpty | ShaMismatch (expected got : string) | OsFailed | RegisterFailed.

(** [load_catalog], from the entries that were decoded: the first one whose source does not parse is reported. *)
Definition load_catalog (entries : list CatalogEntry) : PullError + list CatalogEntry :=
  match head (filter (λ e, hf_parse (ce_source e) = None) entries) with
  | Some e => inl (BadCatalog (ce_id e))
  | None => inr entries
  end.

(** [find] *)
Definition find_entry (entries : list CatalogEntry) (id : string) : PullError + CatalogEntry :=
  match load_catalog entries with
  | inl e => inl e
  | inr entries =>
      match head (filter (λ e, ce_id e = id) entries) with
      | Some e => inr e
      | None => inl UnknownCatalogId
      end
  end.

(** [CatalogEntry.url] *)
Definition entry_url (e : CatalogEntry) : option string := hf_url <$> hf_parse (ce_source e).

(** [PullPlan.expected_sha256] *)
Definition expected_sha256 (plan : PullPlan) : option string :=
  match pp_entry plan with
  | Some e => if bool_decide (ce_sha256 e = "") then None else Some (ce_sha256 e)
  | None => None
  end.

(** [plan_source] *)
Definition plan_source (entries : list CatalogEntry) (source catalog_id : option string) : PullError + PullPlan :=
  match source, catalog_id with
  | Some _, Some _ => inl BothSources
  | Some source, None =>
      if negb (is_hf_spec source) then inr {| pp_url := source; pp_origin := source; pp_entry := None |}
      else
        match hf_parse source with
        | Some h => inr {| pp_url := hf_url h; pp_origin := hf_str h; pp_entry := None |}
        | None => inl BadSpec
        end
  | None, None => inl NoSource
  | None, Some id =>
      match find_entry entries id with
      | inl err => inl err
      | inr e =>
          match entry_url e with
          | Some url => inr {| pp_url := url; pp_origin := ce_source e; pp_entry := Some e |}
          | None => inl BadSpec
          end
      end
  end.

(** [preflight] *)
Definition preflight (plan : PullPlan) (ov : Overrides) : option PullError :=
  match pp_entry plan with
  | Some _ => None
  | None =>
      match ov_model_id ov, ov_family ov with
      | None, _ => Some NeedsModelId
      | _, None => Some NeedsFamily
      | _, _ => None
      end
  end.

(** Python's [a or b] on optional strings: the empty string is false. *)
Definition or_str (a b : option string) : option string :=
  match a with Some s => if bool_decide (s = "") then b else a | None => b end.

(** [_pick_int] *)
Definition pick_int (override from_catalog : option Z) (derived : Z) : Z :=
  match override, from_catalog with Some v, _ => v | None, Some v => v | None, None => derived end.

Record Fields := {
  fl_model_id : string; fl_family : string; fl_quant : string; fl_worker_kind : WorkerKind;
  fl_min_ram_mb : Z; fl_min_vram_mb : Z; fl_license : option string
}.

Abbreviation Blobs := (gmap string bytes).

Section Pull.
  Context (sha256 : bytes → bytes) (utf8 : bytes → string) (url_name : string → string) (entries : list CatalogEntry).

(** [resolve_fields]; the conditions in the order of the source *)
Definition resolve_fields (plan : PullPlan) (content : bytes) (ov : Overrides) : PullError + Fields :=
  let entry := pp_entry plan in
  let header := match (read_header utf8 content).2 with inr h => Some h | inl _ => None end in
  match or_str (ov_model_id ov) (ce_id <$> entry) with
  | None => inl NeedsModelId
  | Some model_id =>
      match or_str (ov_family ov) (ce_family <$> entry) with
      | None => inl NeedsFamily
      | Some family =>
          match or_str (or_str (ov_quant ov) (ce_quant <$> entry)) (header ≫= quant) with
          | None => inl NeedsQuant
          | Some q =>
              inr {| fl_model_id := model_id; fl_family := family; fl_quant := q;
                     fl_worker_kind := default (default CHAT (ce_worker_kind <$> entry)) (ov_worker_kind ov);
                     fl_min_ram_mb := pick_int (ov_min_ram_mb ov) (ce_min_ram_mb <$> entry)
                                        (derive_min_ram_mb (Z.of_nat (length content)));
                     fl_min_vram_mb := pick_int (ov_min_vram_mb ov) (ce_min_vram_mb <$> entry) 0;
                     fl_license := ce_license <$> entry |}
          end
      end
  end.

Definition sha_hex (content : bytes) : string := to_hex (sha256 content).

(** [build_manifest] and [hash_file]; [None] when the file is empty *)
Definition build_manifest (content : bytes) (file_name source_url : string) (f : Fields) : option ModelManifest :=
  if bool_decide (content = []) then None
  else Some {|
    mm_model_id := fl_model_id f; mm_family := fl_family f; mm_quant := fl_quant f; mm_worker_kind := fl_worker_kind f;
    mm_file_name := file_name; mm_sha256 := sha_hex content; mm_size_bytes := Z.of_nat (length content);
    mm_min_ram_mb := fl_min_ram_mb f; mm_min_vram_mb := fl_min_vram_mb f; mm_default_args := [];
    mm_chat_template_hint := None; mm_license := fl_license f; mm_source_url := Some source_url |}.

(** ** The command *)

Record Host := { ho_blobs : Blobs; ho_registry : RDb }.

Definition set_blobs (b : Blobs) (h : Host) : Host := {| ho_blobs := b; ho_registry := ho_registry h |}.

(** What the download does: an exception before its end, or a status with the whole content. *)
Inductive Download := Broken | Answered (status : Z) (content : bytes).

(** What becomes of the registration: never applied, applied with its reply lost, applied and answered. *)
Inductive Registration := NotApplied | AppliedUnanswered | Applied.

Record PullFate := {
  pf_download : Download; pf_set_aside : bool; pf_promote : bool; pf_registration : Registration; pf_now : instant
}.

Definition PART_SUFFIX : string := ".part".
Definition PREV_SUFFIX : string := ".prev".

(** [dest_for], as a name in the blob directory *)
Definition dest_for (url model_id : string) : string := if bool_decide (url_name url = "") then model_id else url_name url.

(** [download_to]: the part is created by the first byte and removed again unless it landed. *)
Definition download_to (d : Download) (part : string) (b : Blobs) : Blobs * option bytes :=
  match d with
  | Broken => (delete part b, None)
  | Answered status content =>
      if (status =? 200)%Z then (<[part := content]> b, Some content) else (delete part b, None)
  end.

(** [a.replace(b)] *)
Definition rename (a b : string) (blobs : Blobs) : Blobs :=
  match blobs !! a with Some c => <[b := c]> (delete a blobs) | None => blobs end.

(** From the verified part on: the old blob is set aside, the new one promoted, the manifest
    registered; a registration that raised puts the old one back. *)
Definition promote (fate : PullFate) (m : ModelManifest) (dest : string) (h : Host) : Host * (PullError + ModelManifest) :=
  let part := dest +:+ PART_SUFFIX in
  let prev := dest +:+ PREV_SUFFIX in
  let replacing := bool_decide (is_Some (ho_blobs h !! dest)) in
  if replacing && negb (pf_set_aside fate) then (h, inl OsFailed)
  else
    let aside := if replacing then rename dest prev (ho_blobs h) else ho_blobs h in
    if negb (pf_promote fate) then (set_blobs aside h, inl OsFailed)
    else
      let swapped := rename part dest aside in
      let registered := (put_model m dest true (pf_now fate) (ho_registry h)).1 in
      let restored := if replacing then rename prev dest swapped else swapped in
      match pf_registration fate with
      | NotApplied => (set_blobs restored h, inl RegisterFailed)
      | AppliedUnanswered => ({| ho_blobs := restored; ho_registry := registered |}, inl RegisterFailed)
      | Applied => ({| ho_blobs := if replacing then delete prev swapped else swapped; ho_registry := registered |}, inr m)
      end.

(** [dest_for(plan.url, model_id or catalog or "model.gguf")] *)
Definition pull_dest (plan : PullPlan) (ov : Overrides) (catalog : option string) : string :=
  dest_for (pp_url plan) (default "model.gguf" (or_str (or_str (ov_model_id ov) catalog) None)).

(** [models_pull] *)
Definition models_pull (source catalog : option string) (ov : Overrides) (fate : PullFate) (h : Host)
    : Host * (PullError + ModelManifest) :=
  match plan_source entries source catalog with
  | inl e => (h, inl e)
  | inr plan =>
      match preflight plan ov with
      | Some e => (h, inl e)
      | None =>
          let dest := pull_dest plan ov catalog in
          let part := dest +:+ PART_SUFFIX in
          match download_to (pf_download fate) part (ho_blobs h) with
          | (b, None) => (set_blobs b h, inl DownloadFailed)
          | (b, Some content) =>
              match resolve_fields plan content ov with
              | inl e => (set_blobs (delete part b) h, inl e)
              | inr fields =>
                  match build_manifest content dest (pp_url plan) fields with
                  | None => (set_blobs b h, inl FileEmpty)
                  | Some m =>
                      match expected_sha256 plan with
                      | Some expected =>
                          if bool_decide (mm_sha256 m = expected) then promote fate m dest (set_blobs b h)
                          else (set_blobs (delete part b) h, inl (ShaMismatch expected (mm_sha256 m)))
                      | None => promote fate m dest (set_blobs b h)
                      end
                  end
              end
          end
      end
  end.
End Pull.
