(* ===== verification/PullSpec.v ===== *)
(** * What a pull promises

    A Hugging Face spec names exactly the URL it says; and a pull, wherever it fails, leaves every
    registered model with the bytes its manifest promises, as long as the destination is no other
    model's, the renames succeed and the registration's outcome is known.  When one of these does not hold, a
    registered model can be left without its bytes. *)

From S2P Require Export Pull.

(** ** Splitting and joining *)

Definition free_of (c : ascii) (s : string) : Prop := c ∉ String.list_ascii_of_string s.

Lemma free_of_cons c d s : free_of c (String d s) ↔ d ≠ c ∧ free_of c s.
Proof. unfold free_of. cbn. rewrite not_elem_of_cons. naive_solver. Qed.

Lemma split_nonempty c s : split_on c s ≠ [].
Proof. induction s as [| d s IH]; cbn; [done |]. destruct (split_on c s); [done |]. by destruct (bool_decide _). Qed.

Lemma split_free c s : Forall (free_of c) (split_on c s).
Proof.
  induction s as [| d s IH]; cbn; [repeat constructor; by apply not_elem_of_nil |].
  destruct (split_on c s) as [| w ws]; [constructor |]. case_bool_decide as Hd.
  - constructor; [by apply not_elem_of_nil | done].
  - apply Forall_cons in IH as [Hw Hws]. constructor; [by apply free_of_cons | done].
Qed.

Lemma split_one c s : free_of c s → split_on c s = [s].
Proof.
  induction s as [| d s IH]; intros Hf; cbn; [done |]. apply free_of_cons in Hf as [Hd Hs]. rewrite (IH Hs).
  by rewrite bool_decide_eq_false_2.
Qed.

Lemma split_app c a b : free_of c a → split_on c (a +:+ String c b) = a :: split_on c b.
Proof.
  induction a as [| d a IH]; intros Hf.
  - change ("" +:+ String c b) with (String c b). cbn. pose proof (split_nonempty c b). destruct (split_on c b); [done |].
    by rewrite bool_decide_eq_true_2.
  - apply free_of_cons in Hf as [Hd Ha]. change (String d a +:+ String c b) with (String d (a +:+ String c b)). cbn.
    rewrite (IH Ha). by rewrite bool_decide_eq_false_2.
Qed.

Lemma split_join ws : ws ≠ [] → Forall (free_of "/") ws → split_on "/" (Bytes.join "/" ws) = ws.
Proof.
  induction ws as [| w ws IH]; [done |]. intros _ [Hw Hws]%Forall_cons. destruct ws as [| w' ws]; [by apply split_one |].
  change (Bytes.join "/" (w :: w' :: ws)) with (w +:+ String "/" (Bytes.join "/" (w' :: ws))). by rewrite split_app, IH.
Qed.

Lemma str_partition_app c a b : free_of c a → str_partition c (a +:+ String c b) = (a, b).
Proof.
  induction a as [| d a IH]; intros Hf.
  - change ("" +:+ String c b) with (String c b). cbn. by rewrite bool_decide_eq_true_2.
  - apply free_of_cons in Hf as [Hd Ha]. change (String d a +:+ String c b) with (String d (a +:+ String c b)). cbn.
    by rewrite bool_decide_eq_false_2, (IH Ha).
Qed.

Lemma segment_free c s : segment_ok s = true → is_segment_char c = false → free_of c s.
Proof.
  unfold segment_ok, free_of. destruct (String.list_ascii_of_string s) as [| d cs]; [done |].
  intros [Hd Hcs]%andb_prop Hc. rewrite forallb_forall in Hcs. intros [-> | Hin]%elem_of_cons.
  - unfold is_segment_char in Hc. by rewrite Hd in Hc.
  - apply list_elem_of_In, Hcs in Hin. congruence.
Qed.

Lemma append_assoc (a b c : string) : (a +:+ b) +:+ c = a +:+ (b +:+ c).
Proof. induction a as [| d a IH]; [done |]. change (String d ((a +:+ b) +:+ c) = String d (a +:+ (b +:+ c))). by rewrite IH. Qed.

Lemma append_cons (c : ascii) (a b : string) : String c a +:+ b = String c (a +:+ b).
Proof. done. Qed.

Lemma free_of_append c a b : free_of c (a +:+ b) ↔ free_of c a ∧ free_of c b.
Proof.
  induction a as [| d a IH]; [unfold free_of; cbn; rewrite elem_of_nil; tauto |].
  change (String d a +:+ b) with (String d (a +:+ b)). rewrite !free_of_cons, IH. tauto.
Qed.

Lemma free_of_join c ws : c ≠ "/"%char → Forall (free_of c) ws → free_of c (Bytes.join "/" ws).
Proof.
  intros Hc. induction ws as [| w ws IH]; [intros _; apply not_elem_of_nil |]. intros [Hw Hws]%Forall_cons.
  destruct ws as [| w' ws]; [done |]. change (Bytes.join "/" (w :: w' :: ws)) with (w +:+ String "/" (Bytes.join "/" (w' :: ws))).
  apply free_of_append. split; [done |]. apply free_of_cons. split; [done | by apply IH].
Qed.

(** The pieces of a parsed spec. *)
Lemma hf_parse_inv source h :
  hf_parse source = Some h →
  ∃ files name, files ≠ [] ∧ last (hf_owner h :: hf_repo h :: files) = Some name ∧ ends_gguf name = true ∧ hf_file_path h = Bytes.join "/" files ∧
    Forall (λ w, segment_ok w = true) (hf_owner h :: hf_repo h :: hf_revision h :: files).
Proof.
  unfold hf_parse. destruct (strip_hf source) as [spec |]; [| done]. destruct (str_partition "@" spec) as [body rev].
  destruct (split_on "/" body) as [| owner [| repo files]] eqn:Hs; [by destruct (_ <? _)%nat; [| destruct (negb _)] .. |].
  destruct (Nat.ltb_spec (length (owner :: repo :: files)) 3) as [| Hlen]; [done |].
  destruct (forallb _ _) eqn:Hok; cbn [negb]; [| done]. destruct (last (owner :: repo :: files)) as [name |] eqn:Hl; [| done].
  destruct (ends_gguf name) eqn:Hg; [| done]. intros [= <-]. exists files, name. cbn.
  split_and!; [intros ->; cbn in Hlen; lia | done | done | done |]. rewrite forallb_forall in Hok. apply Forall_forall. intros w Hw.
  apply Hok, list_elem_of_In. cbn. set_solver.
Qed.

(** A Hugging Face spec that is accepted names one file under one repository and nothing else: written out
    again it parses to the same source, and its URL is the host followed by exactly the owner, the repository,
    [resolve], the revision and the segments of the file path, each of them free of slashes and none of them
    empty, [.] or [..]. *)
Theorem hf_spec_safe source h :
  hf_parse source = Some h →
  hf_parse (hf_str h) = Some h ∧
  ∃ files, hf_url h = HF_HOST +:+ "/" +:+ Bytes.join "/" (hf_owner h :: hf_repo h :: "resolve" :: hf_revision h :: files) ∧
    hf_file_path h = Bytes.join "/" files ∧
    Forall (λ w, free_of "/" w ∧ w ∉ [""; "."; ".."]) (hf_owner h :: hf_repo h :: "resolve" :: hf_revision h :: files).
Proof.
  intros Hp. destruct (hf_parse_inv source h Hp) as (files & name & Hne & Hl & Hg & Hf & Hok). destruct h as [owner repo path revision].
  cbn in *. subst path. pose proof Hok as [Ho [Hr [Hv Hfs]%Forall_cons]%Forall_cons]%Forall_cons.
  assert (Hfree : ∀ c w, is_segment_char c = false → segment_ok w = true → free_of c w) by (intros; by apply segment_free).
  set (body := owner +:+ String "/" (repo +:+ String "/" (Bytes.join "/" files))).
  assert (Hbody : free_of "@" body).
  { unfold body. rewrite !free_of_append, !free_of_cons, !free_of_append, !free_of_cons. split_and!; try done; try (by apply Hfree).
    apply free_of_join; [done |]. eapply Forall_impl; [exact Hfs |]. intros w Hw. by apply Hfree. }
  assert (Hsplit : split_on "/" body = owner :: repo :: files).
  { unfold body. rewrite !split_app, split_join; try done; try (by apply Hfree). eapply Forall_impl; [exact Hfs |]. intros w Hw. by apply Hfree. }
  split; [| exists files; split_and!].
  - unfold hf_parse, hf_str. cbn [hf_owner hf_repo hf_file_path hf_revision].
    replace (HF_PREFIX +:+ owner +:+ "/" +:+ repo +:+ "/" +:+ Bytes.join "/" files +:+ "@" +:+ revision) with (HF_PREFIX +:+ (body +:+ String "@" revision)).
    2: { unfold body. by repeat rewrite ?append_assoc, ?append_cons. }
    cbn [strip_hf HF_PREFIX]. change (strip_hf (HF_PREFIX +:+ body +:+ String "@" revision)) with (Some (body +:+ String "@" revision)). cbv iota.
    rewrite str_partition_app, Hsplit by done. rewrite (bool_decide_eq_false_2 (revision = "")) by (by intros ->).
    destruct (Nat.ltb_spec (length (owner :: repo :: files)) 3) as [Hlt |]; [destruct files; cbn in Hlt; [done | lia] |].
    assert (forallb segment_ok ((owner :: repo :: files) ++ [revision]) = true) as ->.
    { apply forallb_forall. intros w Hw%list_elem_of_In. apply elem_of_app in Hw. rewrite Forall_forall in Hok. apply Hok. set_solver. }
    cbn [negb]. change (last (owner :: repo :: files)) with (last (repo :: files)). by rewrite Hl, Hg.
  - unfold hf_url. cbn. destruct files; done.
  - done.
  - assert (Hseg : ∀ w, segment_ok w = true → free_of "/" w ∧ w ∉ [""; "."; ".."]).
    { intros w Hw. split; [by apply Hfree |]. rewrite !not_elem_of_cons. split_and!; try (by intros ->). apply not_elem_of_nil. }
    repeat (constructor; [by apply Hseg |]). eapply Forall_impl; [exact Hfs | apply Hseg].
Qed.

Definition demo_spec : string := "hf:owner/repo/sub/model.Q4_K_M.gguf".

Lemma hf_spec_safe_witness :
  ∃ h, hf_parse demo_spec = Some h ∧ hf_parse (hf_str h) = Some h ∧
    hf_url h = "https://huggingface.co/owner/repo/resolve/main/sub/model.Q4_K_M.gguf".
Proof.
  eexists. split; [vm_compute; reflexivity |]. split; [| vm_compute; reflexivity].
  apply (hf_spec_safe demo_spec). vm_compute. reflexivity.
Defined.

(** ** Registered models and their bytes *)

Section Pulling.
  Context (sha256 : bytes → bytes) (utf8 : bytes → string) (url_name : string → string) (entries : list CatalogEntry).

(** Every registered model's blob has the digest its manifest promises. *)
Definition consistent (h : Host) : Prop :=
  ∀ m row, od_get m (r_models (ho_registry h)) = Some row →
    ∃ c, ho_blobs h !! mr_blob_path row = Some c ∧ sha_hex sha256 c = mm_sha256 (mr_manifest row).

(** The destination is nobody's but the model's own, and its part and backup names are nobody's. *)
Definition dest_ours (dest model : string) (h : Host) : Prop :=
  ∀ m row, od_get m (r_models (ho_registry h)) = Some row →
    (mr_blob_path row = dest → m = model) ∧ mr_blob_path row ≠ dest +:+ PART_SUFFIX ∧ mr_blob_path row ≠ dest +:+ PREV_SUFFIX.

Lemma part_ne dest : dest +:+ PART_SUFFIX ≠ dest.
Proof. by apply name_suffix. Qed.

Lemma prev_ne dest : dest +:+ PREV_SUFFIX ≠ dest.
Proof. by apply name_suffix. Qed.

Lemma part_prev dest : dest +:+ PART_SUFFIX ≠ dest +:+ PREV_SUFFIX.
Proof. by intros ?%suffix_inj. Qed.

(** Blobs that differ only where no row points stay consistent. *)
Lemma consistent_blobs h b :
  consistent h → (∀ m row, od_get m (r_models (ho_registry h)) = Some row → b !! mr_blob_path row = ho_blobs h !! mr_blob_path row) →
  consistent (set_blobs b h).
Proof. intros Hc Hb m row Hrow. cbn in *. rewrite (Hb m row Hrow). by eapply Hc. Qed.

Lemma rename_lookup a b blobs c q :
  blobs !! a = Some c → rename a b blobs !! q = if decide (q = b) then Some c else if decide (q = a) then None else blobs !! q.
Proof.
  intros Ha. unfold rename. rewrite Ha. destruct (decide (q = b)) as [-> | Hb]; [by rewrite lookup_insert_eq |].
  rewrite lookup_insert_ne by done. destruct (decide (q = a)) as [-> | ?]; [apply lookup_delete_eq | by apply lookup_delete_ne].
Qed.

(** The blobs after the swap, and after putting the old one back. *)
Lemma swapped_lookup dest content (b : Blobs) q :
  b !! (dest +:+ PART_SUFFIX) = Some content →
  let replacing := bool_decide (is_Some (b !! dest)) in
  let aside := if replacing then rename dest (dest +:+ PREV_SUFFIX) b else b in
  let swapped := rename (dest +:+ PART_SUFFIX) dest aside in
  (swapped !! dest = Some content) ∧
  (q ≠ dest → q ≠ dest +:+ PART_SUFFIX → q ≠ dest +:+ PREV_SUFFIX → swapped !! q = b !! q) ∧
  (∀ old, b !! dest = Some old → rename (dest +:+ PREV_SUFFIX) dest swapped !! dest = Some old) ∧
  (q ≠ dest → q ≠ dest +:+ PART_SUFFIX → q ≠ dest +:+ PREV_SUFFIX → rename (dest +:+ PREV_SUFFIX) dest swapped !! q = b !! q).
Proof.
  intros Hpart replacing aside swapped. pose proof (part_ne dest). pose proof (prev_ne dest). pose proof (part_prev dest).
  assert (Haside : aside !! (dest +:+ PART_SUFFIX) = Some content ∧ (∀ q, q ≠ dest → q ≠ dest +:+ PREV_SUFFIX → aside !! q = b !! q) ∧
    (∀ old, b !! dest = Some old → aside !! (dest +:+ PREV_SUFFIX) = Some old)).
  { unfold aside, replacing. destruct (b !! dest) as [old |] eqn:Hd; cbn; [| naive_solver].
    split_and!; [| intros p ? ? | intros old' [= <-]]; rewrite (rename_lookup _ _ _ old) by done; repeat (case_decide; try done). }
  destruct Haside as (Ha1 & Ha2 & Ha3).
  assert (Hsw : ∀ p, swapped !! p = if decide (p = dest) then Some content else if decide (p = dest +:+ PART_SUFFIX) then None else aside !! p).
  { intros p. by apply rename_lookup. }
  split_and!.
  - rewrite Hsw. by case_decide.
  - intros ? ? ?. rewrite Hsw. repeat (case_decide; try done). by apply Ha2.
  - intros old Hold. rewrite (rename_lookup _ _ _ old); [by case_decide |]. rewrite Hsw. repeat (case_decide; try done). by apply Ha3.
  - intros ? ? ?. unfold rename. destruct (swapped !! (dest +:+ PREV_SUFFIX)) as [c |].
    + rewrite lookup_insert_ne, lookup_delete_ne by done. rewrite Hsw. repeat (case_decide; try done). by apply Ha2.
    + rewrite Hsw. repeat (case_decide; try done). by apply Ha2.
Qed.

(** A fate whose renames succeed and whose registration's outcome is known. *)
Definition clean (fate : PullFate) : Prop := pf_promote fate = true ∧ pf_registration fate ≠ AppliedUnanswered.

Lemma promote_keeps fate m dest content h :
  consistent h → dest_ours dest (mm_model_id m) h → ho_blobs h !! (dest +:+ PART_SUFFIX) = Some content →
  sha_hex sha256 content = mm_sha256 m → clean fate →
  match promote fate m dest h with
  | (h', r) => consistent h' ∧ match r with
      | inr m' => m' = m ∧ (∃ row, od_get (mm_model_id m) (r_models (ho_registry h')) = Some row ∧ mr_manifest row = m ∧ mr_blob_path row = dest) ∧
                  ho_blobs h' !! dest = Some content
      | inl _ => ho_registry h' = ho_registry h
      end
  end.
Proof.
  intros Hc Hd Hpart Hsha [Hpro Hreg]. unfold promote. rewrite Hpro. cbn [negb].
  destruct (swapped_lookup dest content (ho_blobs h) dest Hpart) as (S1 & _ & S3 & _).
  pose proof (λ q, swapped_lookup dest content (ho_blobs h) q Hpart) as S.
  cbn zeta in S1, S3, S. set (replacing := bool_decide (is_Some (ho_blobs h !! dest))) in *.
  destruct (replacing && negb (pf_set_aside fate)); [done |].
  set (swapped := rename (dest +:+ PART_SUFFIX) dest (if replacing then rename dest (dest +:+ PREV_SUFFIX) (ho_blobs h) else ho_blobs h)) in *.
  destruct (pf_registration fate); [| done |].
  - split; [| done]. apply consistent_blobs; [done |]. intros m' row Hrow. destruct (Hd m' row Hrow) as (Hown & Hp & Hv).
    destruct (decide (mr_blob_path row = dest)) as [Heq | Hne].
    + rewrite Heq. destruct (Hc m' row Hrow) as (old & Hold & _). rewrite Heq in Hold.
      unfold replacing. rewrite Hold, bool_decide_eq_true_2 by (by eexists). by apply S3.
    + destruct (S (mr_blob_path row)) as (_ & E2 & _ & E4). destruct replacing; [by apply E4 | by apply E2].
  - split; [| split_and!; [done | | cbn; destruct replacing; [rewrite lookup_delete_ne by apply prev_ne |]; done]].
    + intros m' row. cbn. rewrite od_get_set. case_bool_decide as Hm.
      * intros [= <-]. cbn. exists content. split; [| done]. destruct replacing; [rewrite lookup_delete_ne by apply prev_ne |]; done.
      * intros Hrow. destruct (Hd m' row Hrow) as (Hown & Hp & Hv). destruct (S (mr_blob_path row)) as (_ & E2 & _).
        destruct (Hc m' row Hrow) as (c & Hblob & Hdig). exists c. split; [| done].
        assert (mr_blob_path row ≠ dest) by naive_solver.
        destruct replacing; [rewrite lookup_delete_ne by done |]; by rewrite E2.
    + cbn. rewrite od_get_set_eq. by eexists.
Qed.

(** The model a pull registers. *)
Definition pull_model (plan : PullPlan) (ov : Overrides) : string :=
  default "" (or_str (ov_model_id ov) (ce_id <$> pp_entry plan)).

Lemma resolve_model plan content ov fields :
  resolve_fields utf8 plan content ov = inr fields → fl_model_id fields = pull_model plan ov.
Proof.
  unfold resolve_fields, pull_model. destruct (or_str (ov_model_id ov) _); [| done]. destruct (or_str (ov_family ov) _); [| done].
  destruct (or_str _ _); [| done]. by intros [= <-].
Qed.

(** What a pull may leave behind. *)
Definition pull_outcome (plan : PullPlan) (fate : PullFate) (h : Host) (out : Host * (PullError + ModelManifest)) : Prop :=
  match out with
  | (h', inl _) => consistent h' ∧ ho_registry h' = ho_registry h
  | (h', inr m) => consistent h' ∧ ∃ content row, pf_download fate = Answered 200 content ∧ mm_sha256 m = sha_hex sha256 content ∧
      (∀ expected, expected_sha256 plan = Some expected → mm_sha256 m = expected) ∧
      od_get (mm_model_id m) (r_models (ho_registry h')) = Some row ∧ mr_manifest row = m ∧
      ho_blobs h' !! mr_blob_path row = Some content
  end.

Lemma promote_outcome plan fate m dest content h :
  consistent h → clean fate → dest_ours dest (mm_model_id m) h → pf_download fate = Answered 200 content →
  sha_hex sha256 content = mm_sha256 m → (∀ expected, expected_sha256 plan = Some expected → mm_sha256 m = expected) →
  pull_outcome plan fate h (promote fate m dest (set_blobs (<[dest +:+ PART_SUFFIX := content]> (ho_blobs h)) h)).
Proof.
  intros Hc Hclean Hours Hdl Hsha Hexp. set (h1 := set_blobs _ h).
  assert (Hc1 : consistent h1).
  { apply consistent_blobs; [done |]. intros m' row Hrow. destruct (Hours m' row Hrow) as (_ & Hp & _). by rewrite lookup_insert_ne. }
  pose proof (promote_keeps fate m dest content h1 Hc1 Hours (lookup_insert_eq _ _ _) Hsha Hclean) as Hpro.
  destruct (promote fate m dest h1) as [h' [e | m']]; destruct Hpro as [Hc' Hr]; [by split |]. split; [done |].
  destruct Hr as (-> & (row & H1 & H2 & H3) & H4). exists content, row. split_and!; try done. by rewrite H3.
Qed.

(** C27: a pull keeps every registered model whole.  When every registered model's blob has the digest of its
    manifest, the destination is the blob of no other model, the rename into place succeeds and the registration is
    either answered or was not applied, then the pull, whether it succeeds or fails at whatever point, leaves
    every registered model's blob with the digest of its manifest; a failed pull leaves the registry as it was,
    and a successful one has registered the downloaded bytes, which have the catalog's digest if it gives one. *)
Theorem pull_keeps_models source catalog ov fate h plan :
  consistent h → clean fate → plan_source entries source catalog = inr plan →
  dest_ours (pull_dest url_name plan ov catalog) (pull_model plan ov) h →
  pull_outcome plan fate h (models_pull sha256 utf8 url_name entries source catalog ov fate h).
Proof.
  intros Hc Hclean Hplan Hours. unfold models_pull. rewrite Hplan. destruct (preflight plan ov); [done |].
  set (dest := pull_dest url_name plan ov catalog) in *.
  assert (Hpart : ∀ b, (∀ q, q ≠ dest +:+ PART_SUFFIX → b !! q = ho_blobs h !! q) → consistent (set_blobs b h)).
  { intros b Hb. apply consistent_blobs; [done |]. intros m row Hrow. apply Hb. by apply (Hours m row). }
  unfold download_to. destruct (pf_download fate) as [| status content] eqn:Hdl; cbn -[pull_outcome].
  { split; [apply Hpart; intros q Hq; by apply lookup_delete_ne | done]. }
  destruct (Z.eqb_spec status 200) as [-> | _]; cbn -[pull_outcome];
    [| split; [apply Hpart; intros q Hq; by apply lookup_delete_ne | done]].
  assert (Hdrop : ∀ q, q ≠ dest +:+ PART_SUFFIX → delete (dest +:+ PART_SUFFIX) (<[dest +:+ PART_SUFFIX := content]> (ho_blobs h)) !! q = ho_blobs h !! q).
  { intros q Hq. by rewrite lookup_delete_ne, lookup_insert_ne. }
  destruct (resolve_fields utf8 plan content ov) as [e | fields] eqn:Hf; [split; [by apply Hpart | done] |].
  destruct (build_manifest sha256 content dest (pp_url plan) fields) as [m |] eqn:Hm;
    [| split; [apply Hpart; intros q Hq; by apply lookup_insert_ne | done]].
  assert (Hman : sha_hex sha256 content = mm_sha256 m ∧ mm_model_id m = pull_model plan ov).
  { unfold build_manifest in Hm. case_bool_decide; [done |]. injection Hm as <-. split; [done |]. by eapply resolve_model. }
  destruct Hman as [Hsha Hid]. rewrite <- Hid in Hours.
  destruct (expected_sha256 plan) as [expected |] eqn:Hexp.
  - case_bool_decide as Heq; [| split; [by apply Hpart | done]].
    apply promote_outcome; try done. intros x Hx. congruence.
  - apply promote_outcome; try done. intros x Hx. congruence.
Qed.
End Pulling.

(** ** A first pull, a second one, and what can go wrong *)

Definition demo_sha (b : bytes) : bytes := b.
Definition demo_utf8 : bytes → string := String.string_of_list_byte.
Definition demo_name (url : string) : string := default "" (last (split_on "/" url)).

Definition demo_ov (model : string) : Overrides := {|
  ov_model_id := Some model; ov_family := Some "f"; ov_quant := Some "Q4_0"; ov_worker_kind := None; ov_min_ram_mb := None; ov_min_vram_mb := None |}.

Definition demo_fate (content : bytes) (promoted : bool) (r : Registration) : PullFate := {|
  pf_download := Answered 200 content; pf_set_aside := true; pf_promote := promoted; pf_registration := r; pf_now := 0 |}.

Definition demo_pull (url model : string) (fate : PullFate) (h : Host) : Host * (PullError + ModelManifest) :=
  models_pull demo_sha demo_utf8 demo_name [] (Some url) None (demo_ov model) fate h.

Definition demo_empty : Host := {| ho_blobs := ∅; ho_registry := empty_rdb |}.

(** One model pulled. *)
Definition demo_first : Host := (demo_pull "https://a/w.gguf" "one" (demo_fate [x01] true Applied) demo_empty).1.

(** What holds of every row holds of every registered model. *)
Lemma rows_forall (P : string → ModelRow → bool) (rows : odict ModelRow) m row :
  forallb (λ '(k, r), P k r) rows = true → od_get m rows = Some row → P m row = true.
Proof.
  induction rows as [| [k r] rows IH]; cbn; [done |]. rewrite andb_true_iff. intros [Hk Hrest].
  case_bool_decide as Heq; [| by apply IH]. intros [= <-]. by subst k.
Qed.

Definition whole (h : Host) (row : ModelRow) : bool :=
  bool_decide (sha_hex demo_sha <$> ho_blobs h !! mr_blob_path row = Some (mm_sha256 (mr_manifest row))).

Lemma consistent_check h : forallb (λ '(_, r), whole h r) (r_models (ho_registry h)) = true → consistent demo_sha h.
Proof.
  intros Hall m row Hrow. pose proof (rows_forall (λ _, whole h) _ m row Hall Hrow) as Hw.
  apply bool_decide_eq_true in Hw. apply fmap_Some in Hw as (c & Hc & Hs). by exists c.
Qed.

Definition demo_plan : PullPlan := {| pp_url := "https://a/w.gguf"; pp_origin := "https://a/w.gguf"; pp_entry := None |}.

(** Pulling the same model again with new bytes: the new ones are registered; with a registration that was refused,
    the old ones are back. *)
Lemma pull_keeps_models_witness :
  pull_outcome demo_sha demo_plan (demo_fate [x02] true Applied) demo_first (demo_pull "https://a/w.gguf" "one" (demo_fate [x02] true Applied) demo_first) ∧
  pull_outcome demo_sha demo_plan (demo_fate [x02] true NotApplied) demo_first (demo_pull "https://a/w.gguf" "one" (demo_fate [x02] true NotApplied) demo_first) ∧
  ho_blobs (demo_pull "https://a/w.gguf" "one" (demo_fate [x02] true Applied) demo_first).1 !! "w.gguf" = Some [x02] ∧
  ho_blobs (demo_pull "https://a/w.gguf" "one" (demo_fate [x02] true NotApplied) demo_first).1 !! "w.gguf" = Some [x01].
Proof.
  assert (Hc : consistent demo_sha demo_first) by (apply consistent_check; vm_compute; reflexivity).
  assert (Hd : dest_ours (pull_dest demo_name demo_plan (demo_ov "one") None) (pull_model demo_plan (demo_ov "one")) demo_first).
  { intros m row Hrow. pose proof (rows_forall (λ k r, bool_decide (k = "one" ∧ mr_blob_path r = "w.gguf")) (r_models (ho_registry demo_first)) m row) as Hk.
    specialize (Hk ltac:(vm_compute; reflexivity) Hrow). apply bool_decide_eq_true in Hk as [-> ->]. split; [done |]. by split; vm_compute. }
  split; [| split; [| split; vm_compute; reflexivity]];
    apply (pull_keeps_models demo_sha demo_utf8 demo_name []); first [exact Hc | exact Hd | reflexivity | by split].
Defined.

(** The bytes at a registered model's path, by their digest, against the one of its manifest. *)
Definition served (model : string) (h : Host) : option (option string * string) :=
  row ← od_get model (r_models (ho_registry h)); Some (sha_hex demo_sha <$> ho_blobs h !! mr_blob_path row, mm_sha256 (mr_manifest row)).

(** Each of the three conditions under which a pull keeps the registered models whole is needed.  A model is
    pulled and served: its bytes have the digest of its manifest.  If it is pulled again and the coordinator registers the new manifest but the
    reply is lost, the command puts the old bytes back, which the new manifest does not describe.  If
    another model is pulled from a URL with the same last component, its bytes replace those of the first.  And if the
    old blob was set aside and the rename of the new one fails, the model has no bytes at all, because the old
    ones are put back only when the registration raises. *)
Theorem pull_can_break_models :
  served "one" demo_first = Some (Some "01", "01") ∧
  served "one" (demo_pull "https://a/w.gguf" "one" (demo_fate [x02] true AppliedUnanswered) demo_first).1 = Some (Some "01", "02") ∧
  served "one" (demo_pull "https://b/w.gguf" "two" (demo_fate [x02] true Applied) demo_first).1 = Some (Some "02", "01") ∧
  served "one" (demo_pull "https://a/w.gguf" "one" (demo_fate [x02] false Applied) demo_first).1 = Some (None, "01").
Proof. split_and!; vm_compute; reflexivity. Qed.
