(* ===== verification/BenchChurn.v ===== *)
(** * The benchmark's churn

    Models, under src/packages/fallow-bench/src/fallow_bench, churn/models.py, churn/schedule.py,
    churn/verify.py, churn/injector.py and workload/schedule.py.  The random generator is a function of
    the number of draws made so far, the network and the command runner answer the [k]-th call, and time is exact.
    A loop whose end depends on the draws runs on fuel, and returns nothing when it runs out of it. *)

From stdpp Require Import pretty.
From S2P Require Export QueueDb GatewayBody.

(** ** Data *)

Inductive ChurnKind := USER_RETURN | AGENT_KILL | NET_DROP.

#[export] Instance ChurnKind_eq_dec : EqDecision ChurnKind.
Proof. solve_decision. Defined.

Definition churn_value (k : ChurnKind) : string :=
  match k with USER_RETURN => "user_return" | AGENT_KILL => "agent_kill" | NET_DROP => "net_drop" end.

Record AgentTarget := { at_name : string; at_host : string; at_bench_port : Z }.

Record ChurnModel := {
  cm_idle_mu : Q; cm_idle_sigma : Q; cm_active_mu : Q; cm_active_sigma : Q; cm_tap_interval_s : Q; cm_kill_rate_per_s : Q;
  cm_net_drop_rate_per_s : Q
}.

Record VerifyConfig := { vc_enabled : bool; vc_max_wait_s : Q; vc_poll_interval_s : Q }.

Record ChurnEvent := { ce_t_offset_s : Q; ce_agent_name : string; ce_kind : ChurnKind; ce_params : odict Q }.

Record ChurnSection := {
  cs_agents : list AgentTarget; cs_duration_s : Q; cs_seed : Z; cs_model : ChurnModel; cs_commands : list (ChurnKind * string);
  cs_verify : VerifyConfig; cs_scripted : option (list ChurnEvent)
}.

Record ChurnRecord := {
  cr_t_epoch : option Q; cr_t_scheduled : Q; cr_t_executed : Q; cr_agent : string; cr_kind : ChurnKind; cr_ok : bool; cr_detail : string;
  cr_flip_ms : option Q
}.

(** The constraints of the fields. *)
Definition section_valid (s : ChurnSection) : bool :=
  (0 <?q cs_duration_s s) && (0 <=?q cm_idle_sigma (cs_model s)) && (0 <=?q cm_active_sigma (cs_model s)) &&
  (0 <?q cm_tap_interval_s (cs_model s)) && (0 <=?q cm_kill_rate_per_s (cs_model s)) && (0 <=?q cm_net_drop_rate_per_s (cs_model s)) &&
  (0 <?q vc_max_wait_s (cs_verify s)) && (0 <?q vc_poll_interval_s (cs_verify s)).

(** ** The schedule *)

(** [round(t, SCHEDULE_TIME_DP)] *)
Definition round_dp (t : Q) : Q := (inject_Z (round_half_even (t * 1000000)) / 1000000)%Q.

(** [_sort_key] *)
Definition sort_key (e : ChurnEvent) : Q * (string * string) := (ce_t_offset_s e, (ce_agent_name e, churn_value (ce_kind e))).

(** [_session_taps] *)
Fixpoint session_taps (fuel : nat) (name : string) (tap end_ interval_s : Q) (session : nat) : option (list ChurnEvent) :=
  match fuel with
  | O => None
  | S fuel =>
      if tap <?q end_ then
        rest ← session_taps fuel name (tap + interval_s)%Q end_ interval_s session;
        Some ({| ce_t_offset_s := round_dp tap; ce_agent_name := name; ce_kind := USER_RETURN;
                 ce_params := [("session", inject_Z (Z.of_nat session))] |} :: rest)
      else Some []
  end.

Section Schedule.
  Context (lognormal : nat → Q → Q → Q) (exponential : nat → Q → Q) (integers : nat → nat → nat).

(** [_agent_returns], from a clock, a session number and the draws made *)
Fixpoint agent_returns (fuel : nat) (name : string) (duration_s : Q) (model : ChurnModel) (clock : Q) (session k : nat)
    : option (nat * list ChurnEvent) :=
  match fuel with
  | O => None
  | S fuel' =>
      if clock <?q duration_s then
        let clock := (clock + lognormal k (cm_idle_mu model) (cm_idle_sigma model))%Q in
        if duration_s <=?q clock then Some (S k, [])
        else
          let end_ := py_min2 (clock + lognormal (S k) (cm_active_mu model) (cm_active_sigma model))%Q duration_s in
          taps ← session_taps fuel name clock end_ (cm_tap_interval_s model) session;
          '(k', rest) ← agent_returns fuel' name duration_s model end_ (S session) (S (S k));
          Some (k', taps ++ rest)
      else Some (k, [])
  end.

(** The [while] of [_rare_events], for one kind *)
Fixpoint rare_loop (fuel : nat) (names : list string) (duration_s : Q) (kind : ChurnKind) (rate clock : Q) (k : nat)
    : option (nat * list ChurnEvent) :=
  match fuel with
  | O => None
  | S fuel =>
      if clock <?q duration_s then
        let name := default "" (names !! integers k (length names)) in
        let clock' := (clock + exponential (S k) (1 / rate))%Q in
        '(k', rest) ← rare_loop fuel names duration_s kind rate clock' (S (S k));
        Some (k', {| ce_t_offset_s := round_dp clock; ce_agent_name := name; ce_kind := kind; ce_params := [] |} :: rest)
      else Some (k, [])
  end.

(** One kind: skipped unless its rate is positive *)
Definition rare_kind (fuel : nat) (names : list string) (duration_s : Q) (kind : ChurnKind) (rate : Q) (k : nat)
    : option (nat * list ChurnEvent) :=
  if rate <=?q 0 then Some (k, [])
  else rare_loop fuel names duration_s kind rate (exponential k (1 / rate)) (S k).

(** [_rare_events] *)
Definition rare_events (fuel : nat) (s : ChurnSection) (k : nat) : option (nat * list ChurnEvent) :=
  let names := at_name <$> cs_agents s in
  if bool_decide (names = []) then Some (k, [])
  else
    '(k, kills) ← rare_kind fuel names (cs_duration_s s) AGENT_KILL (cm_kill_rate_per_s (cs_model s)) k;
    '(k, drops) ← rare_kind fuel names (cs_duration_s s) NET_DROP (cm_net_drop_rate_per_s (cs_model s)) k;
    Some (k, kills ++ drops).

(** The loop of [build_schedule] over the agents *)
Fixpoint all_returns (fuel : nat) (agents : list AgentTarget) (s : ChurnSection) (k : nat) : option (nat * list ChurnEvent) :=
  match agents with
  | [] => Some (k, [])
  | a :: agents =>
      '(k, events) ← agent_returns fuel (at_name a) (cs_duration_s s) (cs_model s) 0 0 k;
      '(k, rest) ← all_returns fuel agents s k;
      Some (k, events ++ rest)
  end.

(** [build_schedule] *)
Definition build_schedule (fuel : nat) (s : ChurnSection) : option (list ChurnEvent) :=
  '(k, returns) ← all_returns fuel (cs_agents s) s 0;
  '(_, rare) ← rare_events fuel s k;
  Some (py_sorted sort_key (returns ++ rare)).

(** [resolve_schedule] *)
Definition resolve_schedule (fuel : nat) (s : ChurnSection) : option (list ChurnEvent) :=
  match cs_scripted s with
  | Some scripted => Some (py_sorted sort_key scripted)
  | None => build_schedule fuel s
  end.
End Schedule.

(** ** The interactive load *)

Record Arrival := { ar_idx : nat; ar_t_offset_s : Q; ar_prompt_idx : nat; ar_max_tokens : Z }.

Section Arrivals.
  Context (expovariate : nat → Q → Q) (randrange : nat → nat → nat).

(** The [while] of [build_schedule], with the arrivals made so far counted in [idx] *)
Fixpoint arrivals_loop (fuel : nat) (rate_per_s duration_s : Q) (n_prompts : nat) (max_tokens : Z) (offset : Q) (idx k : nat)
    : option (list Arrival) :=
  match fuel with
  | O => None
  | S fuel =>
      let offset := (offset + expovariate k rate_per_s)%Q in
      if duration_s <=?q offset then Some []
      else
        rest ← arrivals_loop fuel rate_per_s duration_s n_prompts max_tokens offset (S idx) (S (S k));
        Some ({| ar_idx := idx; ar_t_offset_s := offset; ar_prompt_idx := randrange (S k) n_prompts; ar_max_tokens := max_tokens |} :: rest)
  end.

(** [build_schedule] of the workload: [inl] is its [ValueError] *)
Definition build_arrivals (fuel : nat) (rate_per_min duration_s : Q) (n_prompts : nat) (max_tokens : Z) : unit + option (list Arrival) :=
  if rate_per_min <=?q 0 then inl tt
  else if (n_prompts <=? 0)%nat then inl tt
  else inr (arrivals_loop fuel (rate_per_min / 60)%Q duration_s n_prompts max_tokens 0 0 0).
End Arrivals.

(** ** The injector *)

(** The monotonic clock, and how many awaits have been made. *)
Record Clock := { ck_now : Q; ck_awaits : nat }.

Inductive PostReply := PostError (text : string) | PostStatus (status_code : Z).

(** A [GET /state]: an error, a bad status or no JSON; or the decoded body. *)
Inductive StateReply := StateFailed | StateBody (payload : Json).

Record RunResult := { rr_ok : bool; rr_detail : string }.

Definition NO_COMMAND_MSG : string := "no command template configured for kind".

Section Injector.
  Context (lasts : nat → Q) (post : nat → PostReply) (get_state : nat → StateReply) (runner : nat → string → string + RunResult)
    (wall_clock : Q → Q) (format : string → AgentTarget → option string).
  Context (agents : gmap string AgentTarget) (commands : ChurnKind → option string) (verify : VerifyConfig).

(** An await of at least [t] seconds. *)
Definition await (t : Q) (c : Clock) : Clock := {| ck_now := (ck_now c + t + lasts (ck_awaits c))%Q; ck_awaits := S (ck_awaits c) |}.

(** [_wait_until] *)
Definition wait_until (target : Q) (c : Clock) : Clock :=
  let delay := (target - ck_now c)%Q in if 0 <?q delay then await delay c else c.

(** [_is_active]; [None] when the body has no [get] *)
Definition is_active (r : StateReply) : option bool :=
  match r with
  | StateFailed => Some false
  | StateBody (JObj fields) => Some match od_get "state" fields with Some (JStr s) => bool_decide (s = "active") | _ => false end
  | StateBody _ => None
  end.

(** The loop of [measure_flip]: [None] without fuel, [inl] an exception *)
Fixpoint flip_loop (fuel : nat) (since deadline : Q) (c : Clock) : option (Clock * (unit + option Q)) :=
  match fuel with
  | O => None
  | S fuel =>
      if ck_now c <?q deadline then
        let c1 := await 0 c in
        match is_active (get_state (ck_awaits c)) with
        | None => Some (c1, inl tt)
        | Some true => Some (c1, inr (Some ((ck_now c1 - since) * 1000)%Q))
        | Some false => flip_loop fuel since deadline (await (vc_poll_interval_s verify) c1)
        end
      else Some (c, inr None)
  end.

(** As many turns as polls fit before the deadline, and the last test. *)
Definition flip_fuel : nat := S (Z.to_nat (Qceiling (vc_max_wait_s verify / vc_poll_interval_s verify))).

Definition measure_flip (since : Q) (c : Clock) : option (Clock * (unit + option Q)) :=
  flip_loop flip_fuel since (since + vc_max_wait_s verify)%Q c.

(** [_record] *)
Definition record (event : ChurnEvent) (executed executed_at : Q) (ok : bool) (detail : string) (flip_ms : option Q) : ChurnRecord := {|
  cr_t_epoch := Some executed_at; cr_t_scheduled := ce_t_offset_s event; cr_t_executed := executed; cr_agent := ce_agent_name event;
  cr_kind := ce_kind event; cr_ok := ok; cr_detail := detail; cr_flip_ms := flip_ms |}.

(** [_post_input] *)
Definition post_input (r : PostReply) : bool * string :=
  match r with
  | PostError text => (false, text)
  | PostStatus code => if (code =? 204)%Z then (true, "") else (false, "status " +:+ pretty code)
  end.

(** [_inject_input] *)
Definition inject_input (event : ChurnEvent) (executed executed_at : Q) (c : Clock) : option (Clock * (unit + ChurnRecord)) :=
  let since := ck_now c in
  let '(ok, detail) := post_input (post (ck_awaits c)) in
  let c := await 0 c in
  if ok && vc_enabled verify then
    '(c, flip) ← measure_flip since c;
    Some (c, match flip with inl _ => inl tt | inr f => inr (record event executed executed_at ok detail f) end)
  else Some (c, inr (record event executed executed_at ok detail None)).

(** [_safe_run] *)
Definition safe_run (r : string + RunResult) : RunResult :=
  match r with inr r => r | inl text => {| rr_ok := false; rr_detail := text |} end.

(** [_run_command] *)
Definition run_command (event : ChurnEvent) (agent : AgentTarget) (executed executed_at : Q) (c : Clock) : Clock * (unit + ChurnRecord) :=
  match commands (ce_kind event) with
  | None => (c, inr (record event executed executed_at false NO_COMMAND_MSG None))
  | Some template =>
      match format template agent with
      | None => (c, inl tt)
      | Some command =>
          let r := safe_run (runner (ck_awaits c) command) in
          (await 0 c, inr (record event executed executed_at (rr_ok r) (rr_detail r) None))
      end
  end.

(** [_execute] *)
Definition execute (event : ChurnEvent) (start : Q) (c : Clock) : option (Clock * (unit + ChurnRecord)) :=
  let executed := (ck_now c - start)%Q in
  let executed_at := wall_clock (ck_now c) in
  match agents !! ce_agent_name event with
  | None => Some (c, inr (record event executed executed_at false "unknown agent" None))
  | Some agent =>
      match ce_kind event with
      | USER_RETURN => inject_input event executed executed_at c
      | _ => Some (run_command event agent executed executed_at c)
      end
  end.

(** The loop of [run]: the records written, and whether an exception ended it early *)
Fixpoint run_events (events : list ChurnEvent) (start : Q) (c : Clock) : option (list ChurnRecord * bool) :=
  match events with
  | [] => Some ([], false)
  | event :: events =>
      '(c, r) ← execute event start (wait_until (start + ce_t_offset_s event)%Q c);
      match r with
      | inl _ => Some ([], true)
      | inr rec => '(recs, aborted) ← run_events events start (await 0 c); Some (rec :: recs, aborted)
      end
  end.

(** [run] *)
Definition run (schedule : list ChurnEvent) (c : Clock) : option (list ChurnRecord * bool) :=
  run_events (py_sorted ce_t_offset_s schedule) (ck_now c) c.
End Injector.

(** * What the churn benchmark promises

    A seeded schedule comes out of a finite number of draws, sorted and within the run; the injector
    records every event of it exactly once, never early, whatever the agents answer. *)

(** ** Rounding *)

Lemma round_half_even_near q : (q - (1 # 2) <= inject_Z (round_half_even q) <= q + (1 # 2))%Q.
Proof.
  unfold round_half_even. pose proof (Qfloor_le q). pose proof (Qlt_floor q) as Hf. rewrite inject_Z_plus in Hf.
  change (inject_Z 1) with 1%Q in Hf.
  assert (Hs : (inject_Z (Qfloor q + 1) == inject_Z (Qfloor q) + 1)%Q) by (rewrite inject_Z_plus; reflexivity).
  cbv zeta. destruct (q - inject_Z (Qfloor q) <?q (1 # 2))%Q eqn:E1; reflect_bools; [split; lra |].
  destruct ((1 # 2) <?q q - inject_Z (Qfloor q))%Q eqn:E2; reflect_bools; [split; lra |]. destruct (Z.even _); split; lra.
Qed.

Lemma round_dp_near t : (t - (1 # 2000000) <= round_dp t <= t + (1 # 2000000))%Q.
Proof.
  unfold round_dp. pose proof (round_half_even_near (t * 1000000)) as [H1 H2]. set (z := inject_Z _) in *.
  assert (Hz : (z / 1000000 == z * (1 # 1000000))%Q) by reflexivity. rewrite Hz. split; lra.
Qed.

Lemma round_dp_nonneg t : (0 <= t)%Q → (0 <= round_dp t)%Q.
Proof.
  intros Ht. unfold round_dp. pose proof (round_half_even_near (t * 1000000)) as [H1 _].
  assert (Hz : (0 <= round_half_even (t * 1000000))%Z).
  { assert (Hlt : (inject_Z (-1) < inject_Z (round_half_even (t * 1000000)))%Q) by (change (inject_Z (-1)) with (-1)%Q; lra).
    rewrite <- Zlt_Qlt in Hlt. lia. }
  apply Qle_shift_div_l; [lra |]. rewrite Qmult_0_l. rewrite Zle_Qle in Hz. exact Hz.
Qed.

(** ** The schedule *)

Section Schedule.
  Context (lognormal : nat → Q → Q → Q) (exponential : nat → Q → Q) (integers : nat → nat → nat).
  Context (eps : Q) (Heps : (0 < eps)%Q).

(** [n] gaps. *)
Definition span (n : nat) : Q := (inject_Z (Z.of_nat n) * eps)%Q.

Lemma span_S n : (span (S n) == span n + eps)%Q.
Proof. unfold span. rewrite Nat2Z.inj_succ, <- Z.add_1_r, inject_Z_plus. ring. Qed.

Lemma span_0 : (span 0 == 0)%Q.
Proof. unfold span. ring. Qed.

(** An event of a run of [duration_s] seconds of the agents [names]. *)
Definition event_ok (names : list string) (duration_s : Q) (kinds : ChurnKind → Prop) (e : ChurnEvent) : Prop :=
  (0 <= ce_t_offset_s e <= duration_s + (1 # 2000000))%Q ∧ ce_agent_name e ∈ names ∧ kinds (ce_kind e).

Lemma session_taps_total names duration_s name n tap end_ interval session :
  name ∈ names → (0 <= tap)%Q → (end_ <= duration_s)%Q → (eps <= interval)%Q → (end_ - tap <= span n)%Q →
  ∃ taps, session_taps (S n) name tap end_ interval session = Some taps ∧ Forall (event_ok names duration_s (eq USER_RETURN)) taps.
Proof.
  intros Hname Htap Hend Hint. revert tap Htap; induction n as [| n IH]; intros tap Htap Hspan; cbn [session_taps].
  - rewrite span_0 in Hspan. destruct (tap <?q end_) eqn:Hlt; reflect_bools; [lra |]. by exists [].
  - destruct (tap <?q end_) eqn:Hlt; [| by exists []]. reflect_bools. rewrite span_S in Hspan.
    destruct (IH (tap + interval)%Q) as (taps & Heq & Hok); [lra | lra |]. cbn [session_taps] in Heq. rewrite Heq. cbn. eexists. split; [done |].
    constructor; [| done]. split_and!; cbn; [by apply round_dp_nonneg | | done | done]. pose proof (round_dp_near tap). lra.
Qed.

Lemma event_ok_mono names duration_s (P P' : ChurnKind → Prop) es :
  (∀ k, P k → P' k) → Forall (event_ok names duration_s P) es → Forall (event_ok names duration_s P') es.
Proof. intros HP H. eapply Forall_impl; [exact H |]. intros e (H1 & H2 & H3). split_and!; [apply H1 | apply H1 | done | by apply HP]. Qed.

(** The draws leave a gap, and pick an agent. *)
Hypothesis lognormal_gap : ∀ k mu sigma, (eps <= lognormal k mu sigma)%Q.
Hypothesis exponential_gap : ∀ k scale, (eps <= exponential k scale)%Q.
Hypothesis integers_below : ∀ k n, (0 < n)%nat → (integers k n < n)%nat.

Lemma agent_returns_total names duration_s name model n clock session k :
  name ∈ names → (0 <= clock)%Q → (eps <= cm_tap_interval_s model)%Q → (duration_s - clock <= span n)%Q →
  ∃ k' es, agent_returns lognormal (S n) name duration_s model clock session k = Some (k', es) ∧
           Forall (event_ok names duration_s (eq USER_RETURN)) es.
Proof.
  intros Hname Hclock Htap. revert clock Hclock session k; induction n as [| n IH]; intros clock Hclock session k Hspan.
  - rewrite span_0 in Hspan. cbn. destruct (clock <?q duration_s) eqn:Hlt; reflect_bools; [lra |]. by eexists _, [].
  - remember (S n) as f eqn:Hf. cbn [agent_returns]. destruct (clock <?q duration_s) eqn:Hlt; [| by eexists _, []]. reflect_bools. rewrite Hf, span_S in Hspan.
    pose proof (lognormal_gap k (cm_idle_mu model) (cm_idle_sigma model)) as Hgap.
    set (c := (clock + lognormal k (cm_idle_mu model) (cm_idle_sigma model))%Q) in *.
    destruct (duration_s <=?q c) eqn:Hge; [by eexists _, [] |]. reflect_bools.
    pose proof (lognormal_gap (S k) (cm_active_mu model) (cm_active_sigma model)) as Hact.
    set (e := py_min2 _ duration_s) in *.
    assert (He : (c <= e <= duration_s)%Q) by (unfold e, py_min2; destruct (_ <?q _) eqn:Hm; reflect_bools; split; lra).
    destruct (session_taps_total names duration_s name f c e (cm_tap_interval_s model) session) as (taps & -> & Htaps);
      [done | unfold c; lra | lra | done | rewrite Hf, span_S; unfold c in *; lra |].
    destruct (IH e ltac:(unfold c in *; lra) (S session) (S (S k))) as (k' & es & Heq & Hes); [unfold c in *; lra |].
    cbn [mbind option_bind]. rewrite Heq. cbn. eexists _, _. split; [done |]. by apply Forall_app.
Qed.

Lemma rare_loop_total names duration_s kind rate n clock k :
  names ≠ [] → (0 <= clock)%Q → (duration_s - clock <= span n)%Q →
  ∃ k' es, rare_loop exponential integers (S n) names duration_s kind rate clock k = Some (k', es) ∧
           Forall (event_ok names duration_s (eq kind)) es.
Proof.
  intros Hnames Hclock. revert clock Hclock k; induction n as [| n IH]; intros clock Hclock k Hspan; cbn [rare_loop].
  - rewrite span_0 in Hspan. destruct (clock <?q duration_s) eqn:Hlt; reflect_bools; [lra |]. by eexists _, [].
  - destruct (clock <?q duration_s) eqn:Hlt; [| by eexists _, []]. reflect_bools. rewrite span_S in Hspan.
    pose proof (exponential_gap (S k) (1 / rate)) as Hgap.
    destruct (IH (clock + exponential (S k) (1 / rate))%Q ltac:(lra) (S (S k)) ltac:(lra)) as (k' & es & Heq & Hes).
    cbn [rare_loop] in Heq. rewrite Heq. cbn. eexists _, _. split; [done |]. constructor; [| done].
    destruct (lookup_lt_is_Some_2 names (integers k (length names))) as [name Hn]; [apply integers_below; destruct names; [done | cbn; lia] |].
    rewrite Hn. pose proof (round_dp_near clock). split_and!; cbn; [by apply round_dp_nonneg | lra | by eapply list_elem_of_lookup_2 | done].
Qed.

Lemma rare_kind_total names duration_s kind rate n k :
  names ≠ [] → (duration_s <= span n)%Q →
  ∃ k' es, rare_kind exponential integers (S n) names duration_s kind rate k = Some (k', es) ∧
           Forall (event_ok names duration_s (λ x, x = kind ∧ (0 < rate)%Q)) es.
Proof.
  intros Hnames Hspan. unfold rare_kind. destruct (rate <=?q 0) eqn:Hr; [by eexists _, [] |]. reflect_bools.
  pose proof (exponential_gap k (1 / rate)).
  destruct (rare_loop_total names duration_s kind rate n (exponential k (1 / rate)) (S k)) as (k' & es & -> & Hes); [done | lra | lra |].
  eexists _, _. split; [done |]. eapply event_ok_mono; [| exact Hes]. by intros ? <-.
Qed.

(** What the kinds of a schedule may be. *)
Definition kind_allowed (s : ChurnSection) (k : ChurnKind) : Prop :=
  match k with
  | USER_RETURN => True
  | AGENT_KILL => (0 < cm_kill_rate_per_s (cs_model s))%Q
  | NET_DROP => (0 < cm_net_drop_rate_per_s (cs_model s))%Q
  end.

Lemma all_returns_total s agents n k :
  at_name <$> agents ⊆ at_name <$> cs_agents s → (eps <= cm_tap_interval_s (cs_model s))%Q → (cs_duration_s s <= span n)%Q →
  ∃ k' es, all_returns lognormal (S n) agents s k = Some (k', es) ∧
           Forall (event_ok (at_name <$> cs_agents s) (cs_duration_s s) (kind_allowed s)) es.
Proof.
  intros Hsub Htap Hspan. revert k; induction agents as [| a agents IH]; intros k; cbn [all_returns]; [by eexists _, [] |].
  destruct (agent_returns_total (at_name <$> cs_agents s) (cs_duration_s s) (at_name a) (cs_model s) n 0 0 k) as (k1 & es1 & -> & H1);
    [apply Hsub; left | lra | done | lra |].
  destruct (IH ltac:(intros x Hx; apply Hsub; by right) k1) as (k2 & es2 & Heq & H2). cbn [mbind option_bind]. rewrite Heq. cbn.
  eexists _, _. split; [done |]. apply Forall_app. split; [| done]. eapply event_ok_mono; [| exact H1]. by intros ? <-.
Qed.

Lemma rare_events_total s n k :
  (cs_duration_s s <= span n)%Q →
  ∃ k' es, rare_events exponential integers (S n) s k = Some (k', es) ∧
           Forall (event_ok (at_name <$> cs_agents s) (cs_duration_s s) (kind_allowed s)) es.
Proof.
  intros Hspan. unfold rare_events. case_bool_decide as Hn; [by eexists _, [] |].
  destruct (rare_kind_total (at_name <$> cs_agents s) (cs_duration_s s) AGENT_KILL (cm_kill_rate_per_s (cs_model s)) n k Hn Hspan)
    as (k1 & es1 & -> & H1). cbn [mbind option_bind].
  destruct (rare_kind_total (at_name <$> cs_agents s) (cs_duration_s s) NET_DROP (cm_net_drop_rate_per_s (cs_model s)) n k1 Hn Hspan)
    as (k2 & es2 & -> & H2). cbn. eexists _, _. split; [done |].
  apply Forall_app. split; [eapply event_ok_mono; [| exact H1] | eapply event_ok_mono; [| exact H2]]; by intros ? [-> ?].
Qed.
End Schedule.

(** A seeded churn schedule is always produced, and is one.  When every draw of an idle time, a session or a gap is at least
    [eps], and so is the interval between taps, [n] + 1 turns of each loop suffice for a run of [n * eps] seconds: the
    generator returns, its events are sorted by time, agent and kind, every one lies within the run up to
    the rounding to microseconds, belongs to an agent of the section, and kills and network drops
    appear only when their rate is positive. *)
Theorem churn_schedule_total lognormal exponential integers eps n s :
  (0 < eps)%Q → (∀ k mu sigma, (eps <= lognormal k mu sigma)%Q) → (∀ k scale, (eps <= exponential k scale)%Q) →
  (∀ k n, (0 < n)%nat → (integers k n < n)%nat) →
  (eps <= cm_tap_interval_s (cs_model s))%Q → (cs_duration_s s <= inject_Z (Z.of_nat n) * eps)%Q →
  ∃ events, build_schedule lognormal exponential integers (S n) s = Some events ∧
    StronglySorted (key_rel sort_key) events ∧
    Forall (event_ok (at_name <$> cs_agents s) (cs_duration_s s) (kind_allowed s)) events.
Proof.
  intros Heps Hl He Hi Htap Hspan. unfold build_schedule.
  destruct (all_returns_total lognormal eps Heps Hl s (cs_agents s) n 0) as (k1 & es1 & -> & H1); [done | done | done |]. cbn [mbind option_bind].
  destruct (rare_events_total exponential integers eps Heps He Hi s n k1 Hspan) as (k2 & es2 & -> & H2). cbn.
  eexists. split; [done |]. split; [apply py_sorted_sorted |]. rewrite py_sorted_perm. by apply Forall_app.
Qed.

Definition churn_demo_model : ChurnModel := {|
  cm_idle_mu := 3; cm_idle_sigma := 1; cm_active_mu := 2; cm_active_sigma := 1; cm_tap_interval_s := 5; cm_kill_rate_per_s := 1 # 20;
  cm_net_drop_rate_per_s := 0 |}.

Definition demo_verify : VerifyConfig := {| vc_enabled := true; vc_max_wait_s := 2; vc_poll_interval_s := 1 # 2 |}.

Definition churn_demo_section : ChurnSection := {|
  cs_agents := [{| at_name := "a"; at_host := "h"; at_bench_port := 9411 |}]; cs_duration_s := 40; cs_seed := 1; cs_model := churn_demo_model;
  cs_commands := []; cs_verify := demo_verify; cs_scripted := None |}.

Lemma churn_schedule_total_witness :
  ∃ events, build_schedule (λ k _ _, inject_Z (5 + Z.of_nat k)) (λ _ _, 20%Q) (λ _ _, 0%nat) 11 churn_demo_section = Some events ∧
    StronglySorted (key_rel sort_key) events ∧
    (λ e, (ce_kind e, Qfloor (ce_t_offset_s e))) <$> events =
      [(USER_RETURN, 5%Z); (USER_RETURN, 10%Z); (USER_RETURN, 18%Z); (AGENT_KILL, 20%Z); (USER_RETURN, 23%Z); (USER_RETURN, 35%Z)].
Proof.
  assert (H : build_schedule (λ k _ _, inject_Z (5 + Z.of_nat k)) (λ _ _, 20%Q) (λ _ _, 0%nat) 11 churn_demo_section ≠ None) by (vm_compute; done).
  destruct (churn_schedule_total (λ k _ _, inject_Z (5 + Z.of_nat k)) (λ _ _, 20%Q) (λ _ _, 0%nat) 4 10 churn_demo_section) as (es & Hes & Hs & _).
  - lra.
  - intros k _ _. change 4%Q with (inject_Z 4). rewrite <- Zle_Qle. lia.
  - intros k _. lra.
  - intros k n Hn. done.
  - vm_compute. discriminate.
  - vm_compute. discriminate.
  - exists es. split; [exact Hes |]. split; [exact Hs |]. revert Hes. vm_compute. by intros [= <-].
Defined.

(** ** The interactive load *)

Section Arrivals.
  Context (expovariate : nat → Q → Q) (randrange : nat → nat → nat) (eps : Q).
  Hypothesis gap_positive : (0 < eps)%Q.
  Hypothesis expovariate_gap : ∀ k rate, (eps <= expovariate k rate)%Q.
  Hypothesis randrange_below : ∀ k n, (0 < n)%nat → (randrange k n < n)%nat.

(** Arrivals are numbered from [idx] on, in strictly increasing order of time after [t], and ask for a prompt there is. *)
Fixpoint arrivals_ok (n_prompts : nat) (duration_s t : Q) (idx : nat) (l : list Arrival) : Prop :=
  match l with
  | [] => True
  | a :: l => ar_idx a = idx ∧ (t < ar_t_offset_s a < duration_s)%Q ∧ (ar_prompt_idx a < n_prompts)%nat ∧
              arrivals_ok n_prompts duration_s (ar_t_offset_s a) (S idx) l
  end.

Lemma arrivals_loop_total n rate duration_s n_prompts max_tokens offset idx k :
  (0 < n_prompts)%nat → (duration_s - offset <= span eps n)%Q →
  ∃ l, arrivals_loop expovariate randrange (S n) rate duration_s n_prompts max_tokens offset idx k = Some l ∧
       arrivals_ok n_prompts duration_s offset idx l.
Proof.
  intros Hp. revert offset idx k; induction n as [| n IH]; intros offset idx k Hspan; pose proof (expovariate_gap k rate) as Hgap.
  - rewrite span_0 in Hspan. cbn. destruct (duration_s <=?q _) eqn:Hge; reflect_bools; [by exists [] | lra].
  - remember (S n) as m eqn:Hm. cbn [arrivals_loop]. destruct (duration_s <=?q _) eqn:Hge; [by exists [] |]. reflect_bools. subst m.
    rewrite span_S in Hspan. destruct (IH (offset + expovariate k rate)%Q (S idx) (S (S k)) ltac:(lra)) as (l & -> & Hl).
    cbn [mbind option_bind]. eexists. split; [done |]. split_and!; cbn; [done | lra | lra | by apply randrange_below | done].
Qed.

(** The fixed schedule of interactive requests: for positive rates and a prompt to ask, it is produced
    and numbers its requests in order of time. *)
Theorem arrivals_total n rate_per_min duration_s n_prompts max_tokens :
  (0 < rate_per_min)%Q → (0 < n_prompts)%nat → (duration_s <= span eps n)%Q →
  ∃ l, build_arrivals expovariate randrange (S n) rate_per_min duration_s n_prompts max_tokens = inr (Some l) ∧
       arrivals_ok n_prompts duration_s 0 0 l.
Proof.
  intros Hr Hp Hspan. unfold build_arrivals. destruct (rate_per_min <=?q 0) eqn:H1; reflect_bools; [lra |].
  destruct (n_prompts <=? 0)%nat eqn:H2; [apply Nat.leb_le in H2; lia |].
  destruct (arrivals_loop_total n (rate_per_min / 60) duration_s n_prompts max_tokens 0 0 0) as (l & -> & Hl); [done | lra |]. by exists l.
Qed.
End Arrivals.

(** ** The injector *)

Section Injector.
  Context (lasts : nat → Q) (post : nat → PostReply) (get_state : nat → StateReply) (runner : nat → string → string + RunResult)
    (wall_clock : Q → Q) (format : string → AgentTarget → option string).
  Context (agents : gmap string AgentTarget) (commands : ChurnKind → option string) (verify : VerifyConfig).
  Hypothesis lasts_nonneg : ∀ k, (0 <= lasts k)%Q.
  Hypothesis poll_positive : (0 < vc_poll_interval_s verify)%Q.
  Hypothesis state_objects : ∀ k v, get_state k = StateBody v → ∃ fields, v = JObj fields.
  Hypothesis templates_render : ∀ kind template agent, commands kind = Some template → is_Some (format template agent).

Local Abbreviation later c c' := (ck_now c <= ck_now c')%Q.

Lemma await_later t c : (0 <= t)%Q → (ck_now c + t <= ck_now (await lasts t c))%Q.
Proof. intros Ht. cbn. specialize (lasts_nonneg (ck_awaits c)). lra. Qed.

Lemma flip_loop_total n since deadline c :
  (since <= ck_now c)%Q → (deadline - ck_now c <= span (vc_poll_interval_s verify) n)%Q →
  ∃ c' f, flip_loop lasts get_state verify (S n) since deadline c = Some (c', inr f) ∧ (ck_now c <= ck_now c')%Q ∧
    ∀ ms, f = Some ms → (0 <= ms)%Q.
Proof.
  revert c; induction n as [| n IH]; intros c Hsince Hspan.
  - rewrite span_0 in Hspan. cbn. destruct (_ <?q deadline) eqn:Hlt; reflect_bools; [lra |]. eexists _, None. split_and!; [done | lra | done].
  - remember (S n) as m eqn:Hm. cbn [flip_loop]. destruct (_ <?q deadline) eqn:Hlt; reflect_bools; [| eexists _, None; split_and!; [done | lra | done]].
    pose proof (await_later 0 c ltac:(lra)) as Ha. unfold is_active.
    destruct (get_state (ck_awaits c)) as [| v] eqn:Hg; [| destruct (state_objects _ v Hg) as [fs ->]].
    2: destruct (match od_get "state" fs with Some (JStr s) => bool_decide (s = "active") | _ => false end).
    2: { eexists _, (Some _). split_and!; [done | lra |]. intros ms [= <-]. apply Qmult_le_0_compat; [cbn in *; lra | lra]. }
    all: pose proof (await_later (vc_poll_interval_s verify) (await lasts 0 c) ltac:(lra)) as Hb; subst m; rewrite span_S in Hspan.
    all: destruct (IH (await lasts (vc_poll_interval_s verify) (await lasts 0 c))) as (c' & f & -> & Hl & Hf); [lra | lra |].
    all: eexists _, _; split_and!; [done | lra | done].
Qed.

Lemma fuel_enough since c : (since <= ck_now c)%Q →
  (since + vc_max_wait_s verify - ck_now c <= span (vc_poll_interval_s verify) (pred (flip_fuel verify)))%Q.
Proof.
  intros Hc. cbn. unfold span. set (p := vc_poll_interval_s verify) in *. set (w := vc_max_wait_s verify) in *.
  pose proof (Qle_ceiling (w / p)) as Hceil.
  assert (Hz : (inject_Z (Qceiling (w / p)) <= inject_Z (Z.of_nat (Z.to_nat (Qceiling (w / p)))))%Q) by (rewrite <- Zle_Qle; lia).
  assert (Hw : (w <= inject_Z (Z.of_nat (Z.to_nat (Qceiling (w / p)))) * p)%Q).
  { apply (Qle_trans _ ((w / p) * p)); [unfold Qdiv; rewrite <- Qmult_assoc, (Qmult_comm (/ p)), Qmult_inv_r by lra; lra |].
    apply Qmult_le_compat_r; lra. }
  lra.
Qed.

(** What the record of an event says. *)
Definition records (e : ChurnEvent) (r : ChurnRecord) : Prop :=
  cr_t_scheduled r = ce_t_offset_s e ∧ cr_agent r = ce_agent_name e ∧ cr_kind r = ce_kind e ∧ (ce_t_offset_s e <= cr_t_executed r)%Q ∧
  (agents !! ce_agent_name e = None → cr_ok r = false) ∧
  (∀ ms, cr_flip_ms r = Some ms → ce_kind e = USER_RETURN ∧ cr_ok r = true ∧ (0 <= ms)%Q).

Lemma execute_records e start c :
  (start + ce_t_offset_s e <= ck_now c)%Q →
  ∃ c' r, execute lasts post get_state runner wall_clock format agents commands verify e start c = Some (c', inr r) ∧
    records e r ∧ (ck_now c <= ck_now c')%Q.
Proof.
  intros Hdue. pose proof (await_later 0 c ltac:(lra)) as Ha. unfold execute. destruct (agents !! _) as [agent |] eqn:Hagent.
  2: { eexists _, _. split; [done |]. split; [| lra]. split_and!; try done. cbn. lra. }
  assert (Hrun : ∀ kind, ce_kind e = kind → kind ≠ USER_RETURN →
    ∃ c' r, Some (run_command lasts runner format commands e agent (ck_now c - start) (wall_clock (ck_now c)) c) = Some (c', inr r) ∧
      records e r ∧ (ck_now c <= ck_now c')%Q).
  { intros kind Hk Hne. unfold run_command. destruct (commands (ce_kind e)) as [template |] eqn:Hc.
    - destruct (templates_render _ _ agent Hc) as [command ->]. eexists _, _. split; [done |]. split; [| lra].
      split_and!; try done; cbn; [lra | congruence].
    - eexists _, _. split; [done |]. split; [| lra]. split_and!; try done. cbn. lra. }
  destruct (ce_kind e) eqn:Hk; [| by apply (Hrun AGENT_KILL) | by apply (Hrun NET_DROP)]. clear Hrun.
  unfold inject_input. destruct (post_input _) as [ok detail]. destruct (ok && vc_enabled verify) eqn:Hv.
  - apply andb_true_iff in Hv as [-> _].
    destruct (flip_loop_total (pred (flip_fuel verify)) (ck_now c) (ck_now c + vc_max_wait_s verify) (await lasts 0 c)) as (c' & f & Hf & Hl & Hms);
      [lra | apply fuel_enough; lra |]. unfold measure_flip. cbn [mbind option_bind] in *.
    change (flip_fuel verify) with (S (pred (flip_fuel verify))). rewrite Hf. cbn. eexists _, _. split; [done |]. split; [| lra].
    split_and!; try done; cbn; [lra | congruence | naive_solver].
  - eexists _, _. split; [done |]. split; [| lra]. split_and!; try done; cbn; [lra | congruence].
Qed.

Lemma run_records es start c :
  ∃ recs, run_events lasts post get_state runner wall_clock format agents commands verify es start c = Some (recs, false) ∧ Forall2 records es recs.
Proof.
  revert c; induction es as [| e es IH]; intros c; [by eexists [] |]. cbn [run_events].
  set (c1 := wait_until lasts (start + ce_t_offset_s e) c).
  assert (Hdue : (start + ce_t_offset_s e <= ck_now c1)%Q).
  { unfold c1, wait_until. destruct (0 <?q _) eqn:Hlt; reflect_bools; [| lra].
    pose proof (await_later (start + ce_t_offset_s e - ck_now c) c ltac:(lra)). lra. }
  destruct (execute_records e start c1 Hdue) as (c' & r & -> & Hr & _). cbn [mbind option_bind].
  destruct (IH (await lasts 0 c')) as (recs & -> & Hrecs). cbn. eexists. split; [done |]. by constructor.
Qed.
End Injector.

(** The churn injector replays its whole schedule.  Whatever the agents' endpoints and the command runner answer, or fail to, as long as
    [GET /state] answers objects and the command templates render, the run ends without an exception, and writes exactly one record per event, in the order
    of their times, none before its time; an event of an unknown agent is recorded as failed, and a flip latency only
    for an input that was accepted, never negative.  The bounded poll for the flip always ends within the turns its
    configuration allows. *)
Theorem churn_injector_complete lasts post get_state runner wall_clock format agents commands verify schedule c :
  (∀ k, (0 <= lasts k)%Q) → (0 < vc_poll_interval_s verify)%Q →
  (∀ k v, get_state k = StateBody v → ∃ fields, v = JObj fields) →
  (∀ kind template agent, commands kind = Some template → is_Some (format template agent)) →
  ∃ recs, run lasts post get_state runner wall_clock format agents commands verify schedule c = Some (recs, false) ∧
    Forall2 (records agents) (py_sorted ce_t_offset_s schedule) recs.
Proof. intros H1 H2 H3 H4. by apply run_records. Qed.

(** ** A run *)

Definition demo_agents : gmap string AgentTarget := {[ "a" := {| at_name := "a"; at_host := "h"; at_bench_port := 9411 |} ]}.

Definition demo_event (t : Q) (name : string) (kind : ChurnKind) : ChurnEvent := {|
  ce_t_offset_s := t; ce_agent_name := name; ce_kind := kind; ce_params := [] |}.

Definition demo_schedule : list ChurnEvent := [demo_event 2 "a" AGENT_KILL; demo_event 1 "a" USER_RETURN; demo_event 3 "b" USER_RETURN].

Definition active_body : StateReply := StateBody (JObj [("state", JStr "active")]).

(** A replica that flips at the second poll, after a transport error; a runner that raises. *)
Definition demo_run (render : string → AgentTarget → option string) : option (list ChurnRecord * bool) :=
  run (λ _, 0%Q) (λ _, PostStatus 204) (λ k, if (k <=? 2)%nat then StateFailed else active_body) (λ _ _, inl "boom") (λ t, t) render
    demo_agents (λ kind, if decide (kind = AGENT_KILL) then Some "kill {name}" else None) demo_verify demo_schedule {| ck_now := 0; ck_awaits := 0 |}.

Lemma churn_injector_complete_witness :
  ∃ recs, demo_run (λ t _, Some t) = Some (recs, false) ∧ Forall2 (records demo_agents) (py_sorted ce_t_offset_s demo_schedule) recs ∧
    cr_ok <$> recs = [true; false; false].
Proof.
  destruct (churn_injector_complete (λ _, 0%Q) (λ _, PostStatus 204) (λ k, if (k <=? 2)%nat then StateFailed else active_body)
    (λ _ _, inl "boom") (λ t, t) (λ t _, Some t) demo_agents (λ kind, if decide (kind = AGENT_KILL) then Some "kill {name}" else None)
    demo_verify demo_schedule {| ck_now := 0; ck_awaits := 0 |}) as (recs & Hrun & Hrecs).
  - intros _. lra.
  - vm_compute. reflexivity.
  - intros k v. destruct (k <=? 2)%nat; [done |]. intros [= <-]. by eexists.
  - intros kind template agent _. by eexists.
  - exists recs. split; [exact Hrun |]. split; [exact Hrecs |]. revert Hrun. vm_compute. by intros [= <-].
Defined.

(** Where the injector departs from its documentation.  A template the formatter cannot render raises out of
    the run, so the events after it are neither executed nor recorded, though failures of an event are said to be logged and
    never to abort.  And a transport error of the flip's poll, said to end it without a
    measurement, is only taken as not active yet: the poll goes on and reports a latency. *)
Theorem churn_injector_departs :
  (∃ r, demo_run (λ _ _, None) = Some ([r], true) ∧ cr_kind r = USER_RETURN) ∧
  (∃ recs, demo_run (λ t _, Some t) = Some (recs, false) ∧ (Qred <$> (recs !! 0%nat ≫= cr_flip_ms)) = Some 500%Q).
Proof. split; eexists; split; vm_compute; reflexivity. Qed.
