(* ===== verification/CoordinatorLife.v ===== *)
(** * The coordinator's life

    Models the start-up decisions and the lifespan of src/packages/fallow-coordinator/src/fallow_coordinator/app/factory.py
    ([build_app], [_build_policy], [_load_events], [_make_lifespan], [_shutdown]) over the stores' [open] and [close]:
    what is opened, started, published and saved, in which order, when any of the calls fails, and what of the quotas
    survives a restart. *)

From S2P Require Export Discovery QuotaSpec SchedulerSpec JsonText.
From S2P Require Import Offline.

(** ** Start-up decisions *)

(** [build_app]: the factory path cannot serve Site Mode *)
Definition build_app {A} (site_enabled : bool) (create_app : A) : string + A :=
  if site_enabled then inl "RuntimeError" else inr create_app.

(** [str.splitlines] on text below code point 256; a carriage return takes a following newline along *)
Definition is_break (c : ascii) : bool :=
  bool_decide (c ∈ ["010"; "013"; "011"; "012"; "028"; "029"; "030"; "133"]%char).

Fixpoint splitlines_from (line text : list ascii) : list (list ascii) :=
  match text with
  | [] => if bool_decide (line = []) then [] else [reverse line]
  | c :: rest =>
      if is_break c then
        reverse line ::
        match rest with
        | d :: rest' => if bool_decide (c = "013"%char) && bool_decide (d = "010"%char) then splitlines_from [] rest' else splitlines_from [] rest
        | [] => []
        end
      else splitlines_from (c :: line) rest
  end.

Definition splitlines (text : list ascii) : list (list ascii) := splitlines_from [] text.

(** [str.strip] on characters *)
Definition strip_chars (l : list ascii) : list ascii := reverse (lstrip (reverse (lstrip l))).

(** A line of a history: blank lines, malformed lines and values that are not objects are skipped *)
Definition load_line (line : list ascii) : option (odict Json) :=
  let stripped := strip_chars line in
  if bool_decide (stripped = []) then None
  else match loads stripped with Some (JObj fields) => Some fields | _ => None end.

(** [_load_events] of a file that may not exist *)
Definition load_events (file : option (list ascii)) : list (odict Json) :=
  match file with None => [] | Some text => omap load_line (splitlines text) end.

(** The scheduler a configuration names *)
Inductive Policy :=
  | PRoundRobin (p : RoundRobinScheduler)
  | PChurnAware (p : ChurnAwareScheduler)
  | PCapability (p : CapabilityScheduler).

#[export] Instance Policy_policy : SchedulerPolicy Policy := {|
  select_agent := λ p model gpu agents,
    match p with
    | PRoundRobin p => let '(p, r) := select_agent p model gpu agents in (PRoundRobin p, r)
    | PChurnAware p => let '(p, r) := select_agent p model gpu agents in (PChurnAware p, r)
    | PCapability p => let '(p, r) := select_agent p model gpu agents in (PCapability p, r)
    end;
  pick_replica := λ p model replicas,
    match p with
    | PRoundRobin p => let '(p, r) := pick_replica p model replicas in (PRoundRobin p, r)
    | PChurnAware p => let '(p, r) := pick_replica p model replicas in (PChurnAware p, r)
    | PCapability p => let '(p, r) := pick_replica p model replicas in (PCapability p, r)
    end |}.

Section Policy.
  (** Reading the fields of an event or of a transition line; the hour of an instant *)
  Context (event_of : odict Json → ChurnEvent) (line_of : odict Json → UnitLine) (hour_of : instant → Z).

(** [_build_policy]: the histories are those of an earlier run *)
Definition build_policy (scheduler : string) (est_unit_duration_s : Q) (churn units : option (list ascii)) (hour : Z) : Policy :=
  if bool_decide (scheduler = "roundrobin") then PRoundRobin round_robin_start
  else if bool_decide (scheduler = "churn_v2") then
    PChurnAware {|
      ca_model := build_churn_model (event_of <$> load_events churn) hour_of DEFAULT_OPTIMISTIC_PRIOR;
      ca_est_unit_duration_s := est_unit_duration_s; ca_hour := hour;
      ca_reliability := Some (build_reliability_model (line_of <$> load_events units) DEFAULT_RELIABILITY_PRIOR);
      ca_reliability_weight := DEFAULT_RELIABILITY_WEIGHT |}
  else PCapability capability_scheduler.

(** [_build_backup_churn] *)
Definition build_backup_churn (enabled : bool) (churn : option (list ascii)) : option ChurnModel :=
  if enabled then Some (build_churn_model (event_of <$> load_events churn) hour_of DEFAULT_OPTIMISTIC_PRIOR) else None.
End Policy.

(** ** The lifespan *)

(** A store's connection; a leaked one was opened but is held by nobody *)
Inductive Conn := DbClosed | DbOpen | DbLeaked.

Inductive Loop := Dispatch | OfflineEviction | QuotaSnapshots | StandbyExport.

#[export] Instance Conn_eq_dec : EqDecision Conn.
Proof. solve_decision. Defined.

Record Life := {
  lf_registry : Conn; lf_queue : Conn; lf_rag : Conn;
  lf_client : bool;                    (* the HTTP client is open *)
  lf_loops : list (Loop * bool);       (* [state.tasks], and whether each still runs *)
  lf_stop : bool;                      (* [state.stop_event] *)
  lf_restored : bool;                  (* [quotas.restore] has returned *)
  lf_adv : Advertiser;
  lf_db : RDb;                         (* the registry's tables *)
  lf_quotas : odict KeyState           (* the counters in memory *)
}.

(** A state before the lifespan is entered *)
Definition fresh_life (db : RDb) : Life := {|
  lf_registry := DbClosed; lf_queue := DbClosed; lf_rag := DbClosed; lf_client := true; lf_loops := []; lf_stop := false;
  lf_restored := false; lf_adv := advertiser_start; lf_db := db; lf_quotas := [] |}.

Definition set_conns (r q g : Conn) (l : Life) : Life := {|
  lf_registry := r; lf_queue := q; lf_rag := g; lf_client := lf_client l; lf_loops := lf_loops l; lf_stop := lf_stop l;
  lf_restored := lf_restored l; lf_adv := lf_adv l; lf_db := lf_db l; lf_quotas := lf_quotas l |}.

Definition set_loops (loops : list (Loop * bool)) (stop : bool) (l : Life) : Life := {|
  lf_registry := lf_registry l; lf_queue := lf_queue l; lf_rag := lf_rag l; lf_client := lf_client l; lf_loops := loops; lf_stop := stop;
  lf_restored := lf_restored l; lf_adv := lf_adv l; lf_db := lf_db l; lf_quotas := lf_quotas l |}.

Definition set_adv (a : Advertiser) (l : Life) : Life := {|
  lf_registry := lf_registry l; lf_queue := lf_queue l; lf_rag := lf_rag l; lf_client := lf_client l; lf_loops := lf_loops l; lf_stop := lf_stop l;
  lf_restored := lf_restored l; lf_adv := a; lf_db := lf_db l; lf_quotas := lf_quotas l |}.

Definition set_data (restored : bool) (db : RDb) (quotas : odict KeyState) (l : Life) : Life := {|
  lf_registry := lf_registry l; lf_queue := lf_queue l; lf_rag := lf_rag l; lf_client := lf_client l; lf_loops := lf_loops l; lf_stop := lf_stop l;
  lf_restored := restored; lf_adv := lf_adv l; lf_db := db; lf_quotas := quotas |}.

Definition set_client (open : bool) (l : Life) : Life := {|
  lf_registry := lf_registry l; lf_queue := lf_queue l; lf_rag := lf_rag l; lf_client := open; lf_loops := lf_loops l; lf_stop := lf_stop l;
  lf_restored := lf_restored l; lf_adv := lf_adv l; lf_db := lf_db l; lf_quotas := lf_quotas l |}.

(** What becomes of opening a store: the connection fails, the set-up after it does, or neither *)
Inductive OpenFate := ConnectFails | SetupFails | Opens.

(** What the awaited calls of a life do; a flag says that the call returns *)
Record Fates := {
  fa_registry : OpenFate; fa_queue : OpenFate; fa_rag : OpenFate; fa_restore : bool; fa_register : RegisterFate;
  fa_unregister : UnregisterFate; fa_snapshot : bool; fa_close_client : bool; fa_close_rag : bool; fa_close_queue : bool;
  fa_close_registry : bool; fa_now : instant
}.

Inductive Act :=
  | OpenRegistry | InitQueue | OpenRag | RestoreQuotas | StartLoops | Advertise
  | Withdraw | StopLoops | SnapshotQuotas | CloseClient | CloseRag | CloseQueue | CloseRegistry.

(** [open] of the registry and [init] of the queue keep the connection only when the set-up has succeeded, and do
    not close it otherwise; the vector store's [open] closes it *)
Definition opened_conn (closes_on_failure : bool) (fate : OpenFate) : Conn :=
  match fate with
  | ConnectFails => DbClosed
  | SetupFails => if closes_on_failure then DbClosed else DbLeaked
  | Opens => DbOpen
  end.

Definition opens (fate : OpenFate) : bool := match fate with Opens => true | _ => false end.

Definition closed_conn (c : Conn) (returns : bool) : Conn * bool :=
  match c with DbOpen => if returns then (DbClosed, true) else (DbOpen, false) | c => (c, true) end.

Section Lifespan.
  Context (sha256 : bytes → bytes) (config : RegistryConfig) (standby : bool) (mdns : option Advertisement).

(** One awaited call; the flag says that it returned *)
Definition act (a : Act) (f : Fates) (l : Life) : Life * bool :=
  match a with
  | OpenRegistry => (set_conns (opened_conn false (fa_registry f)) (lf_queue l) (lf_rag l) l, opens (fa_registry f))
  | InitQueue => (set_conns (lf_registry l) (opened_conn false (fa_queue f)) (lf_rag l) l, opens (fa_queue f))
  | OpenRag => (set_conns (lf_registry l) (lf_queue l) (opened_conn true (fa_rag f)) l, opens (fa_rag f))
  | RestoreQuotas =>
      if fa_restore f then (set_data true (lf_db l) (restore (load_quota_snapshots (lf_db l))) l, true) else (l, false)
  | StartLoops =>
      (set_loops ((λ x, (x, true)) <$> [Dispatch; OfflineEviction; QuotaSnapshots] ++ (if standby then [StandbyExport] else [])) (lf_stop l) l, true)
  | Advertise =>
      match mdns with
      | None => (l, true)
      | Some record => let '(a, ok) := register record (fa_register f) (lf_adv l) in (set_adv a l, ok)
      end
  | Withdraw =>
      match mdns with
      | None => (l, true)
      | Some _ => let '(a, ok) := unregister (fa_unregister f) (lf_adv l) in (set_adv a l, ok)
      end
  | StopLoops => (set_loops ((λ x, (x.1, false)) <$> lf_loops l) true l, true)
  | SnapshotQuotas =>
      (if bool_decide (lf_registry l = DbOpen) && fa_snapshot f
       then set_data (lf_restored l) (save_quota_snapshots (quota_snapshot (fa_now f) (lf_quotas l)) (lf_db l)).1 (lf_quotas l) l else l, true)
  | CloseClient => if fa_close_client f then (set_client false l, true) else (l, false)
  | CloseRag => let '(c, ok) := closed_conn (lf_rag l) (fa_close_rag f) in (set_conns (lf_registry l) (lf_queue l) c l, ok)
  | CloseQueue => let '(c, ok) := closed_conn (lf_queue l) (fa_close_queue f) in (set_conns (lf_registry l) c (lf_rag l) l, ok)
  | CloseRegistry => let '(c, ok) := closed_conn (lf_registry l) (fa_close_registry f) in (set_conns c (lf_queue l) (lf_rag l) l, ok)
  end.

(** Acts until one raises: the states gone through, the last of them, and whether all returned *)
Fixpoint acts (todo : list Act) (f : Fates) (l : Life) : list Life * Life * bool :=
  match todo with
  | [] => ([], l, true)
  | a :: todo =>
      let '(l, ok) := act a f l in
      if ok then let '(states, last, all) := acts todo f l in (l :: states, last, all) else ([l], l, false)
  end.

(** The body of [lifespan] before its [yield] *)
Definition startup : list Act := [OpenRegistry; InitQueue; OpenRag; RestoreQuotas; StartLoops; Advertise].

(** [_shutdown] *)
Definition shutdown : list Act := [StopLoops; SnapshotQuotas; CloseClient; CloseRag; CloseQueue; CloseRegistry].

(** Its [finally] *)
Definition finally : list Act := Withdraw :: shutdown.

(** What happens while the coordinator serves, as far as the quotas are concerned: a gateway request with a bearer
    token, any call of the registry, a turn of the quota loop *)
Inductive ServeOp := Request (bearer : string) (now : instant) | RegistryOp (c : RCall) | QuotaTick (now : instant).

Definition serve_op (l : Life) (op : ServeOp) : Life :=
  match op with
  | Request bearer now =>
      match authenticate_api_key sha256 config bearer (lf_db l) with
      | Some key => set_data (lf_restored l) (lf_db l) (consume key now (lf_quotas l)).1 l
      | None => l
      end
  | RegistryOp c => set_data (lf_restored l) (reg_call sha256 config c (lf_db l)) (lf_quotas l) l
  | QuotaTick now => set_data (lf_restored l) (save_quota_snapshots (quota_snapshot now (lf_quotas l)) (lf_db l)).1 (lf_quotas l) l
  end.

Fixpoint serving (ops : list ServeOp) (l : Life) : list Life * Life :=
  match ops with [] => ([], l) | op :: ops => let '(states, last) := serving ops (serve_op l op) in (serve_op l op :: states, last) end.

(** [lifespan]: the states gone through and the last one *)
Definition lifespan (f : Fates) (ops : list ServeOp) (l : Life) : list Life * Life :=
  let '(up, l, started) := acts startup f l in
  let '(served, l) := if started then serving ops l else ([], l) in
  let '(down, l, _) := acts finally f l in
  (up ++ served ++ down, l).
End Lifespan.

(** * Correctness of a coordinator's life *)

(** ** Histories *)

Lemma policy_select p model gpu agents :
  (select_agent p model gpu agents).2 =
    match p with
    | PRoundRobin p => (select_agent p model gpu agents).2
    | PChurnAware p => (select_agent p model gpu agents).2
    | PCapability p => (select_agent p model gpu agents).2
    end.
Proof. destruct p as [p | p | p]; unfold select_agent at 1; cbn [Policy_policy]; by destruct (select_agent p model gpu agents). Qed.

Lemma policy_pick p model replicas :
  (pick_replica p model replicas).2 =
    match p with
    | PRoundRobin p => (pick_replica p model replicas).2
    | PChurnAware p => (pick_replica p model replicas).2
    | PCapability p => (pick_replica p model replicas).2
    end.
Proof. destruct p as [p | p | p]; unfold pick_replica at 1; cbn [Policy_policy]; by destruct (pick_replica p model replicas). Qed.

(** Whatever scheduler is configured keeps the promises of a policy. *)
#[export] Instance Policy_laws : SchedulerPolicyLaws Policy.
Proof.
  split; intros p *; rewrite ?policy_select, ?policy_pick; destruct p as [p | p | p].
  1-3: apply (select_eligible p).
  1-3: apply (select_total p).
  1-3: apply (pick_serves p).
  all: apply (pick_total p).
Qed.

(** A line the writers append has no line break, and a history is such lines. *)
Definition unbroken (line : list ascii) : Prop := Forall (λ c, is_break c = false) line.

Lemma splitlines_line line acc rest :
  unbroken line → splitlines_from acc (line ++ "010"%char :: rest) = reverse (reverse line ++ acc) :: splitlines rest.
Proof.
  intros HF. revert acc; induction HF as [| c line Hc _ IH]; intros acc; cbn [app splitlines_from].
  - change (is_break "010"%char) with true. cbv iota. f_equal. by destruct rest.
  - rewrite Hc, IH, reverse_cons, <- app_assoc. done.
Qed.

Lemma splitlines_tail line acc : unbroken line → splitlines_from acc line = if bool_decide (reverse line ++ acc = []) then [] else [reverse (reverse line ++ acc)].
Proof.
  intros HF. revert acc; induction HF as [| c line Hc _ IH]; intros acc; cbn [splitlines_from]; [done |].
  rewrite Hc, IH, reverse_cons, <- app_assoc. done.
Qed.

(** A history is read line by line: what each whole line holds comes out in order, and of a last line that was cut
    off in the middle at most itself is lost. *)
Theorem load_events_reads lines torn :
  Forall unbroken lines → unbroken torn →
  load_events (Some ((lines ≫= λ l, l ++ ["010"%char]) ++ torn)) = omap load_line lines ++ omap load_line [torn].
Proof.
  intros HF Ht. unfold load_events. induction HF as [| line lines Hl _ IH].
  - cbn [mbind list_bind app]. unfold splitlines. rewrite splitlines_tail by done. rewrite app_nil_r. case_bool_decide as Hn; [| by rewrite reverse_involutive].
    apply (f_equal reverse) in Hn. rewrite reverse_involutive in Hn. by subst torn.
  - rewrite bind_cons, <- !app_assoc. cbn [app]. unfold splitlines. rewrite splitlines_line, app_nil_r, reverse_involutive by done.
    cbn [omap list_omap]. destruct (load_line line); cbn; by rewrite IH.
Qed.

(** ** Order *)

Section Life.
  Context (sha256 : bytes → bytes) (config : RegistryConfig) (standby : bool) (mdns : option Advertisement).
  Notation act := (act standby mdns).
  Notation acts := (acts standby mdns).
  Notation lifespan := (lifespan sha256 config standby mdns).

(** Everything the record points at is there: the stores, the client, the counters and the loops. *)
Record ready (l : Life) : Prop := {
  re_registry : lf_registry l = DbOpen; re_queue : lf_queue l = DbOpen; re_rag : lf_rag l = DbOpen; re_client : lf_client l = true;
  re_restored : lf_restored l = true; re_stop : lf_stop l = false;
  re_loops : lf_loops l = (λ x, (x, true)) <$> [Dispatch; OfflineEviction; QuotaSnapshots] ++ (if standby then [StandbyExport] else [])
}.

Definition announced (l : Life) : Prop := av_published (lf_adv l) ≠ None → ready l.

(** The outcome of a start-up: every state gone through is announced, and all returned only if ready. *)
Lemma startup_spec f db :
  let '(states, l, started) := acts startup f (fresh_life db) in
  Forall announced states ∧ (started = true → ready l ∧ lf_db l = db ∧ lf_quotas l = restore (load_quota_snapshots db)) ∧
  (started = false → av_published (lf_adv l) = None ∧ lf_db l = db ∧ (lf_quotas l = [] ∨ lf_quotas l = restore (load_quota_snapshots db))) ∧
  lf_client l = true ∧ (lf_registry l = DbLeaked → fa_registry f = SetupFails) ∧ (lf_queue l = DbLeaked → fa_queue f = SetupFails) ∧
  lf_rag l ≠ DbLeaked.
Proof.
  unfold startup. cbn -[register load_quota_snapshots restore].
  destruct (fa_registry f) eqn:F1; cbn -[register load_quota_snapshots restore]; [by split_and!; auto; repeat constructor.. |].
  destruct (fa_queue f) eqn:F2; cbn -[register load_quota_snapshots restore]; [by split_and!; auto; repeat constructor.. |].
  destruct (fa_rag f) eqn:F3; cbn -[register load_quota_snapshots restore]; [by split_and!; auto; repeat constructor.. |].
  destruct (fa_restore f) eqn:F4; cbn -[register load_quota_snapshots restore]; [| by split_and!; auto; repeat constructor].
  destruct mdns as [record |]; cbn -[load_quota_snapshots restore].
  - destruct (fa_register f) eqn:F5; cbn -[load_quota_snapshots restore]; split_and!; auto; repeat constructor; done.
  - split_and!; auto; repeat constructor; done.
Qed.
(** Serving changes the data only. *)
Definition same_frame (l l' : Life) : Prop :=
  lf_registry l' = lf_registry l ∧ lf_queue l' = lf_queue l ∧ lf_rag l' = lf_rag l ∧ lf_client l' = lf_client l ∧
  lf_loops l' = lf_loops l ∧ lf_stop l' = lf_stop l ∧ lf_restored l' = lf_restored l ∧ lf_adv l' = lf_adv l.

Lemma serve_op_frame op l : same_frame l (serve_op sha256 config l op).
Proof. destruct op as [bearer now | c | now]; cbn; [destruct (authenticate_api_key sha256 config bearer (lf_db l)) | ..]; by split_and!. Qed.

Lemma same_frame_ready l l' : same_frame l l' → ready l → ready l'.
Proof. intros (H1 & H2 & H3 & H4 & H5 & H6 & H7 & _) []. by split; congruence. Qed.

Lemma same_frame_trans l1 l2 l3 : same_frame l1 l2 → same_frame l2 l3 → same_frame l1 l3.
Proof. intros (?&?&?&?&?&?&?&?) (?&?&?&?&?&?&?&?). by split_and!; etransitivity. Qed.

Lemma serving_frame ops l : let '(states, l') := serving sha256 config ops l in same_frame l l' ∧ Forall (same_frame l) states.
Proof.
  revert l; induction ops as [| op ops IH]; intros l; cbn [serving]; [split; [by split_and! | by apply Forall_nil] |].
  specialize (IH (serve_op sha256 config l op)). destruct (serving sha256 config ops (serve_op sha256 config l op)) as [states l'].
  pose proof (serve_op_frame op l) as Ho. destruct IH as [Hl HF]. split; [by eapply same_frame_trans |]. apply Forall_cons. split; [done |].
  eapply Forall_impl; [exact HF |]. intros x. by apply same_frame_trans.
Qed.

(** After the first act of [finally] nothing is published any more. *)
Lemma shutdown_unpublished f l : av_published (lf_adv l) = None → Forall (λ s, av_published (lf_adv s) = None) (acts shutdown f l).1.1.
Proof.
  intros Ha. assert (Hall : ∀ todo l, Forall (λ a, a ∈ shutdown) todo → av_published (lf_adv l) = None →
    Forall (λ s, av_published (lf_adv s) = None) (acts todo f l).1.1); [| apply Hall; [by repeat (constructor; [set_solver |]); constructor | done]].
  clear l Ha. intros todo. induction todo as [| a todo IH]; intros l Hin Ha; cbn [CoordinatorLife.acts]; [by apply Forall_nil |].
  apply Forall_cons in Hin as [Hin Hrest].
  assert (Hact : av_published (lf_adv (act a f l).1) = None).
  { unfold shutdown in Hin. repeat (apply elem_of_cons in Hin as [-> | Hin]; cbn; [repeat case_match; simplify_eq; done |]). by apply elem_of_nil in Hin. }
  destruct (act a f l) as [l1 ok]. cbn [fst] in Hact. destruct ok; [| cbn; by repeat constructor].
  specialize (IH l1 Hrest Hact). destruct (acts todo f l1) as [[states last] all]. cbn in *. by apply Forall_cons.
Qed.

Lemma withdraw_unpublished f l :
  (mdns = None → av_published (lf_adv l) = None) → av_published (lf_adv (act Withdraw f l).1) = None.
Proof.
  intros Hm. cbn. destruct mdns as [record |]; [| by apply Hm]. unfold unregister.
  destruct (av_published (lf_adv l)) eqn:Hp; cbn; [by destruct (fa_unregister f) | done].
Qed.

Lemma finally_unpublished f l :
  (mdns = None → av_published (lf_adv l) = None) → Forall (λ s, av_published (lf_adv s) = None) (acts finally f l).1.1.
Proof.
  intros Hm. pose proof (withdraw_unpublished f l Hm) as Hw. unfold finally. cbn [CoordinatorLife.acts].
  destruct (act Withdraw f l) as [l1 ok]. cbn [fst] in Hw. destruct ok; [| cbn; by repeat constructor].
  pose proof (shutdown_unpublished f l1 Hw) as Hs. destruct (acts shutdown f l1) as [[states last] all]. cbn in *. by apply Forall_cons.
Qed.

Lemma startup_unadvertised f db : mdns = None → av_published (lf_adv (acts startup f (fresh_life db)).1.2) = None.
Proof.
  intros ->. unfold startup. cbn -[load_quota_snapshots restore]. destruct (fa_registry f), (fa_queue f), (fa_rag f), (fa_restore f); done.
Qed.

(** The coordinator is on the network only while it can answer.  In every state of every life, whatever calls of
    the start-up or the shutdown fail, an advertisement is published only while the registry, the queue, the vector
    store and the HTTP client are open, the quotas have been restored and every background loop is running and has
    not been told to stop. *)
Theorem advertised_only_ready f ops db : Forall announced (lifespan f ops (fresh_life db)).1.
Proof.
  unfold CoordinatorLife.lifespan. pose proof (startup_spec f db) as Hs. pose proof (startup_unadvertised f db) as Hnone.
  destruct (acts startup f (fresh_life db)) as [[up l] started] eqn:Hup. destruct Hs as (Hup' & Hready & _ & _). cbn in Hnone.
  assert (Hserve : ∃ served l1, (if started then serving sha256 config ops l else ([], l)) = (served, l1) ∧ Forall announced served ∧ lf_adv l1 = lf_adv l).
  { destruct started; [| by exists [], l; split_and!; [done | apply Forall_nil | done]]. pose proof (serving_frame ops l) as Hf.
    destruct (serving sha256 config ops l) as [served l1]. exists served, l1. destruct Hf as [Hl HF]. split_and!; [done | | apply Hl].
    eapply Forall_impl; [exact HF |]. intros x Hx _. eapply same_frame_ready; [exact Hx | by apply Hready]. }
  destruct Hserve as (served & l1 & -> & Hserved & Hadv). pose proof (finally_unpublished f l1) as Hfin. rewrite Hadv in Hfin. specialize (Hfin Hnone).
  destruct (acts finally f l1) as [[down l2] ok]. cbn [fst] in *. apply Forall_app. split; [done |]. apply Forall_app. split; [done |].
  eapply Forall_impl; [exact Hfin |]. intros x Hx Hp. by rewrite Hx in Hp.
Qed.
(** ** Release *)

(** The goodbye and the closing calls return. *)
Definition clean_exit (f : Fates) : Prop :=
  fa_unregister f = Unregisters ∧ fa_close_client f = true ∧ fa_close_rag f = true ∧ fa_close_queue f = true ∧ fa_close_registry f = true.

Definition released (c : Conn) : Conn := match c with DbOpen => DbClosed | c => c end.

(** The counters a shutdown saves. *)
Definition saved_db (f : Fates) (l : Life) : RDb :=
  if bool_decide (lf_registry l = DbOpen) && fa_snapshot f
  then (save_quota_snapshots (quota_snapshot (fa_now f) (lf_quotas l)) (lf_db l)).1 else lf_db l.

Lemma finally_clean f l :
  clean_exit f → (mdns = None → av_published (lf_adv l) = None) →
  ∃ states l', acts finally f l = (states, l', true) ∧ av_published (lf_adv l') = None ∧ lf_stop l' = true ∧ Forall (λ x, x.2 = false) (lf_loops l') ∧
    lf_client l' = false ∧ lf_registry l' = released (lf_registry l) ∧ lf_queue l' = released (lf_queue l) ∧ lf_rag l' = released (lf_rag l) ∧
    lf_db l' = saved_db f l.
Proof.
  intros (H1 & H2 & H3 & H4 & H5) Hm. assert (Hw : ∃ a, act Withdraw f l = (set_adv a l, true) ∧ av_published a = None).
  { cbn. destruct mdns as [record |].
    - unfold unregister. rewrite H1. destruct (av_published (lf_adv l)) eqn:Hp; [by eexists | by exists (lf_adv l)].
    - exists (lf_adv l). split; [by destruct l | by apply Hm]. }
  destruct Hw as (a & Hw & Ha). unfold finally. cbn [CoordinatorLife.acts]. rewrite Hw. unfold shutdown, saved_db.
  cbn -[save_quota_snapshots quota_snapshot]. rewrite H2, H3, H4, H5.
  destruct (bool_decide (lf_registry l = DbOpen) && fa_snapshot f); cbn -[save_quota_snapshots quota_snapshot];
    destruct (lf_rag l), (lf_queue l), (lf_registry l); cbn -[save_quota_snapshots quota_snapshot];
    (eexists _, _; split; [reflexivity |]; cbn -[save_quota_snapshots quota_snapshot]; split_and!; try done; by apply Forall_fmap, Forall_true).
Qed.

(** C28: A coordinator that stops leaves nothing behind.  From whatever point of the start-up a life fails, and after
    serving whatever it was asked, when the goodbye and the closing calls return then at its end nothing is
    published, every background loop has been told to stop and has ended, the HTTP client is closed and no store is
    open; a connection nobody holds remains only of a registry or a queue whose set-up failed after it connected. *)
Theorem lifespan_releases f ops db :
  clean_exit f →
  let l := (lifespan f ops (fresh_life db)).2 in
  av_published (lf_adv l) = None ∧ lf_stop l = true ∧ Forall (λ x, x.2 = false) (lf_loops l) ∧ lf_client l = false ∧
  lf_rag l = DbClosed ∧ (lf_registry l = DbClosed ∨ lf_registry l = DbLeaked ∧ fa_registry f = SetupFails) ∧
  (lf_queue l = DbClosed ∨ lf_queue l = DbLeaked ∧ fa_queue f = SetupFails).
Proof.
  intros Hc. unfold CoordinatorLife.lifespan. pose proof (startup_spec f db) as Hs. pose proof (startup_unadvertised f db) as Hnone.
  destruct (acts startup f (fresh_life db)) as [[up l] started]. destruct Hs as (_ & _ & _ & _ & Hr & Hq & Hg). cbn in Hnone.
  assert (Hserve : ∃ served l1, (if started then serving sha256 config ops l else ([], l)) = (served, l1) ∧ same_frame l l1).
  { destruct started; [| by exists [], l; split_and!]. pose proof (serving_frame ops l) as Hf.
    destruct (serving sha256 config ops l) as [served l1]. exists served, l1. by split; [| apply Hf]. }
  destruct Hserve as (served & l1 & -> & E1 & E2 & E3 & _ & _ & _ & _ & E4). rewrite <- E4 in Hnone.
  destruct (finally_clean f l1 Hc Hnone) as (states & l' & -> & P1 & P2 & P3 & P4 & P5 & P6 & P7 & _). cbn [snd].
  rewrite E1 in P5. rewrite E2 in P6. rewrite E3 in P7. split_and!; [done | done | done | done | | |].
  - rewrite P7. by destruct (lf_rag l).
  - rewrite P5. destruct (lf_registry l); cbn; auto.
  - rewrite P6. destruct (lf_queue l); cbn; auto.
Qed.
End Life.

(** ** Quotas across restarts *)

Section Restarts.
  Context (sha256 : bytes → bytes) (config : RegistryConfig) (standby : bool) (mdns : option Advertisement).
  Context (digest_len : ∀ d, length (sha256 d) = 32%nat).
  Notation lifespan := (lifespan sha256 config standby mdns).

(** Counters belong to keys of the registry. *)
Definition counted (l : Life) : Prop :=
  reg_reachable sha256 config (lf_db l) ∧ od_wf (lf_quotas l) ∧ ∀ k, k ∈ (lf_quotas l).*1 → is_Some (od_get k (r_api_keys (lf_db l))).

Lemma restore_from rows acc :
  od_wf acc → let m := fold_left (λ m r, od_set (qs_key_id r) {| ks_bucket_tokens := qs_bucket_tokens r; ks_bucket_updated_at := qs_bucket_updated_at r;
    ks_day := qs_day r; ks_daily_count := qs_daily_count r |} m) rows acc in
  od_wf m ∧ ∀ k, k ∈ m.*1 → k ∈ acc.*1 ∨ k ∈ qs_key_id <$> rows.
Proof.
  revert acc; induction rows as [| r rows IH]; intros acc Hwf; cbn; [split; [done | by left] |].
  destruct (IH (od_set (qs_key_id r) {| ks_bucket_tokens := qs_bucket_tokens r; ks_bucket_updated_at := qs_bucket_updated_at r;
    ks_day := qs_day r; ks_daily_count := qs_daily_count r |} acc)) as [H1 H2]; [by apply od_set_wf |].
  split; [done |]. intros k [Hk | Hk]%H2; [| right; by right]. rewrite od_set_keys in Hk. case_bool_decide; [by left |].
  apply elem_of_app in Hk as [? | ->%list_elem_of_singleton]; [by left | right; by left].
Qed.

Lemma restored_counted db : reg_reachable sha256 config db →
  od_wf (restore (load_quota_snapshots db)) ∧ ∀ k, k ∈ (restore (load_quota_snapshots db)).*1 → is_Some (od_get k (r_api_keys db)).
Proof.
  intros Hr. pose proof (reg_reachable_ok sha256 config db Hr) as Hok. destruct (restore_from (load_quota_snapshots db) []) as [H1 H2]; [constructor |].
  split; [exact H1 |]. intros k [?%elem_of_nil | Hk]%H2; [done |]. unfold load_quota_snapshots in Hk.
  apply list_elem_of_fmap in Hk as (q & -> & ([h q'] & -> & Hq)%list_elem_of_fmap). cbn.
  apply elem_of_od_get in Hq; [| apply Hok]. destruct (ro_quota_key _ Hok h q' Hq) as [-> ?]. done.
Qed.

Lemma reg_call_keeps_keys c db k :
  reg_reachable sha256 config db → is_Some (od_get k (r_api_keys db)) → is_Some (od_get k (r_api_keys (reg_call sha256 config c db))).
Proof.
  intros Hr%reg_reachable_ok [x Hx]. destruct (reg_call_ok sha256 config c db Hr) as [_ Hg]. exists x. by apply (gr_keys _ _ Hg).
Qed.

Lemma reg_call_reachable c db : reg_reachable sha256 config db → reg_reachable sha256 config (reg_call sha256 config c db).
Proof. intros Hr. eapply rtc_r; [exact Hr | by exists c]. Qed.

Lemma consume_counted key now l :
  counted l → (unlimited key = false → is_Some (od_get (quota_id key) (r_api_keys (lf_db l)))) →
  counted (set_data (lf_restored l) (lf_db l) (consume key now (lf_quotas l)).1 l).
Proof.
  intros (Hr & Hwf & Hk) Hkey. unfold consume. destruct (unlimited key) eqn:Hu; [done |]. specialize (Hkey eq_refl).
  assert (Hset : ∀ s, od_wf (od_set (quota_id key) s (lf_quotas l)) ∧
    ∀ k, k ∈ (od_set (quota_id key) s (lf_quotas l)).*1 → is_Some (od_get k (r_api_keys (lf_db l)))).
  { intros s. split; [by apply od_set_wf |]. intros k. rewrite od_set_keys. case_bool_decide; [apply Hk |].
    by intros [? | ->%list_elem_of_singleton]%elem_of_app; [apply Hk |]. }
  destruct (max_delay _ _); split_and!; cbn; try done; apply Hset.
Qed.

Lemma hash_not_empty token : hash_token sha256 token ≠ "".
Proof.
  unfold hash_token. intros He. change "" with (to_hex []) in He. apply to_hex_inj, (f_equal length) in He. rewrite digest_len in He. done.
Qed.

Lemma authenticated_counted bearer db key :
  authenticate_api_key sha256 config bearer db = Some key → unlimited key = false → is_Some (od_get (quota_id key) (r_api_keys db)).
Proof.
  unfold authenticate_api_key. destruct (token_matches _ _ _); [intros [= <-]; done |]. intros (k & Hk & ->)%fmap_Some _.
  unfold quota_id. cbn. rewrite bool_decide_eq_false_2 by apply hash_not_empty. apply od_get_is_Some.
  apply od_get_elem, list_elem_of_filter in Hk as [_ Hk]. by apply (list_elem_of_fmap_2 fst) in Hk.
Qed.

Lemma serve_op_counted l op : counted l → counted (serve_op sha256 config l op).
Proof.
  intros Hc. destruct op as [bearer now | c | now]; cbn [serve_op].
  - destruct (authenticate_api_key sha256 config bearer (lf_db l)) as [key |] eqn:Ha; [| done].
    apply consume_counted; [done |]. by eapply authenticated_counted.
  - destruct Hc as (Hr & Hwf & Hk). split_and!; cbn; [by apply reg_call_reachable | done |]. intros k ?%Hk. by apply reg_call_keeps_keys.
  - destruct Hc as (Hr & Hwf & Hk). split_and!; cbn; [by apply (reg_call_reachable (SaveQuotas _)) | done |].
    intros k ?%Hk. by apply (reg_call_keeps_keys (SaveQuotas _)).
Qed.

Lemma serving_counted ops l : counted l → counted (serving sha256 config ops l).2.
Proof.
  revert l; induction ops as [| op ops IH]; intros l Hc; [done |]. cbn. specialize (IH _ (serve_op_counted l op Hc)).
  by destruct (serving sha256 config ops (serve_op sha256 config l op)).
Qed.
(** The counters in force when a life ends: those in memory if it came to serve, the stored ones otherwise. *)
Definition counters (f : Fates) (ops : list ServeOp) (db : RDb) : odict KeyState :=
  let '(_, l, started) := acts standby mdns startup f (fresh_life db) in
  if started then lf_quotas (serving sha256 config ops l).2 else restore (load_quota_snapshots db).

Lemma save_keeps_counters f l db k s :
  counted l → lf_db l = db → lf_quotas l = [] ∨ lf_quotas l = restore (load_quota_snapshots db) →
  od_get k (restore (load_quota_snapshots db)) = Some s → od_get k (restore (load_quota_snapshots (saved_db f l))) = Some s.
Proof.
  intros (Hr & Hwf & Hk) Hdb Hq Hs. unfold saved_db. destruct (_ && _); [| by rewrite Hdb]. destruct Hq as [Hq | Hq].
  - rewrite Hq, Hdb. exact Hs.
  - destruct (quota_survives_restart sha256 config (lf_db l) (lf_quotas l) (fa_now f) Hr Hwf Hk) as (d' & Hd' & Hget). rewrite Hd'. cbn.
    apply Hget. by rewrite Hq.
Qed.

Lemma fresh_counted db : reg_reachable sha256 config db → ∀ l, lf_db l = db → lf_quotas l = [] ∨ lf_quotas l = restore (load_quota_snapshots db) → counted l.
Proof.
  intros Hr l Hdb [Hq | Hq]; split_and!; rewrite ?Hdb, ?Hq; try done; [constructor | by intros k ?%elem_of_nil | by apply restored_counted ..].
Qed.

(** C38: A restart neither gives a key fresh quota nor takes any away.  Whatever a life did, from a start-up that failed
    somewhere to one that served any sequence of requests and registry calls, when it ends cleanly and its last
    saving of the counters succeeds, the next life that comes up starts with every key's bucket, day and count as
    the previous one left them; a start-up that failed has lost none of the stored counters. *)
Theorem restart_keeps_quotas f ops db f2 k s :
  reg_reachable sha256 config db → clean_exit f → fa_snapshot f = true →
  od_get k (counters f ops db) = Some s →
  let db' := lf_db (lifespan f ops (fresh_life db)).2 in
  let '(_, l2, started) := acts standby mdns startup f2 (fresh_life db') in
  started = true → od_get k (lf_quotas l2) = Some s.
Proof.
  intros Hr Hc Hsave Hs db'. assert (Hdb : od_get k (restore (load_quota_snapshots db')) = Some s).
  { subst db'. revert Hs. unfold counters, CoordinatorLife.lifespan. pose proof (startup_spec standby mdns f db) as Hu.
    pose proof (startup_unadvertised standby mdns f db) as Hnone. destruct (acts standby mdns startup f (fresh_life db)) as [[up l] started].
    destruct Hu as (_ & Hup & Hdown & _). cbn in Hnone. destruct started; cbn iota.
    - destruct (Hup eq_refl) as (Hready & Edb & Eq). pose proof (fresh_counted db Hr l Edb (or_intror Eq)) as Hcount.
      pose proof (serving_counted ops l Hcount) as (Hr1 & Hwf1 & Hk1). pose proof (serving_frame sha256 config ops l) as Hf.
      destruct (serving sha256 config ops l) as [served l1]. cbn [snd] in *. intros Hs. destruct Hf as [(E1 & _ & _ & _ & _ & _ & _ & E4) _].
      rewrite <- E4 in Hnone. destruct (finally_clean standby mdns f l1 Hc Hnone) as (states & l' & -> & _ & _ & _ & _ & _ & _ & _ & Hd). cbn [snd].
      rewrite Hd. unfold saved_db. rewrite E1, (re_registry _ _ Hready), Hsave. cbn [andb]. rewrite bool_decide_eq_true_2 by done.
      destruct (quota_survives_restart sha256 config (lf_db l1) (lf_quotas l1) (fa_now f) Hr1 Hwf1 Hk1) as (d' & -> & Hget). by apply Hget.
    - destruct (Hdown eq_refl) as (_ & Edb & Eq). intros Hs.
      destruct (finally_clean standby mdns f l Hc Hnone) as (states & l' & -> & _ & _ & _ & _ & _ & _ & _ & Hd). cbn [snd]. rewrite Hd.
      eapply save_keeps_counters; [by eapply fresh_counted | done | done | done]. }
  pose proof (startup_spec standby mdns f2 db') as Hu. destruct (acts standby mdns startup f2 (fresh_life db')) as [[up l2] started].
  destruct Hu as (_ & Hup & _). intros Hst. destruct (Hup Hst) as (_ & _ & ->). exact Hdb.
Qed.
End Restarts.

(** ** Examples *)

Definition good_fates : Fates := {|
  fa_registry := Opens; fa_queue := Opens; fa_rag := Opens; fa_restore := true; fa_register := Registers; fa_unregister := Unregisters;
  fa_snapshot := true; fa_close_client := true; fa_close_rag := true; fa_close_queue := true; fa_close_registry := true; fa_now := 9 |}.

(** A vector extension that cannot be loaded. *)
Definition no_rag : Fates := {|
  fa_registry := Opens; fa_queue := Opens; fa_rag := SetupFails; fa_restore := true; fa_register := Registers; fa_unregister := Unregisters;
  fa_snapshot := true; fa_close_client := true; fa_close_rag := true; fa_close_queue := true; fa_close_registry := true; fa_now := 9 |}.

(** A network that is gone when the record is withdrawn. *)
Definition no_goodbye : Fates := {|
  fa_registry := Opens; fa_queue := Opens; fa_rag := Opens; fa_restore := true; fa_register := Registers; fa_unregister := GoodbyeFails;
  fa_snapshot := true; fa_close_client := true; fa_close_rag := true; fa_close_queue := true; fa_close_registry := true; fa_now := 9 |}.

Lemma lifespan_releases_witness :
  let l := (lifespan toy_sha32 demo_rc true (Some demo_ad) no_rag [] (fresh_life empty_rdb)).2 in
  lf_registry l = DbClosed ∧ lf_queue l = DbClosed ∧ lf_client l = false ∧ lf_stop l = true.
Proof.
  destruct (lifespan_releases toy_sha32 demo_rc true (Some demo_ad) no_rag [] empty_rdb) as (_ & Hs & _ & Hc & _ & [Hr | [_ Hr]] & [Hq | [_ Hq]]);
    [by split_and! | | done | done | done].
  by split_and!.
Defined.

Definition keyed_db : RDb := reg_call toy_sha32 demo_rc (CreateKey "k" None (Some 5%Z) None "secret" 0) empty_rdb.

Lemma restart_keeps_quotas_witness :
  let db' := lf_db (lifespan toy_sha32 demo_rc false None good_fates [Request "secret" 1; Request "secret" 2] (fresh_life keyed_db)).2 in
  let '(_, l2, started) := acts false None startup good_fates (fresh_life db') in
  started = true → (ks_daily_count <$> od_get (hash_token toy_sha32 "secret") (lf_quotas l2)) = Some 0%Z.
Proof.
  set (k := hash_token toy_sha32 "secret"). set (ops := [Request "secret" 1; Request "secret" 2]).
  destruct (od_get k (counters toy_sha32 demo_rc false None good_fates ops keyed_db)) as [s |] eqn:Hs; [| by vm_compute in Hs].
  assert (Hd : ks_daily_count s = 0%Z) by (by vm_compute in Hs; injection Hs as <-).
  pose proof (restart_keeps_quotas toy_sha32 demo_rc false None) as Hk.
  specialize (Hk ltac:(intros d; unfold toy_sha32; rewrite length_take, length_app, length_replicate; lia) good_fates ops keyed_db good_fates k s).
  specialize (Hk ltac:(apply rtc_once; by eexists) ltac:(by split_and!) eq_refl Hs). intros db'. fold db' in Hk. cbv zeta in Hk. revert Hk.
  destruct (acts false None startup good_fates (fresh_life db')) as [[up l2] started]. intros Hk Hst. rewrite (Hk Hst). cbn. by rewrite Hd.
Defined.

(** A goodbye that fails keeps the coordinator from shutting down.  When the withdrawal of the advertisement
    raises, the rest of the shutdown is skipped: every store and the client stay open, the loops run on and the
    counters of the last requests are not saved. *)
Theorem failed_goodbye_skips_shutdown :
  let life := lifespan toy_sha32 demo_rc false (Some demo_ad) no_goodbye [Request "secret" 1] (fresh_life keyed_db) in
  lf_registry life.2 = DbOpen ∧ lf_queue life.2 = DbOpen ∧ lf_rag life.2 = DbOpen ∧ lf_client life.2 = true ∧ lf_stop life.2 = false ∧
  Forall (λ x, x.2 = true) (lf_loops life.2) ∧ load_quota_snapshots (lf_db life.2) = [] ∧ lf_quotas life.2 ≠ [].
Proof. vm_compute. split_and!; try done. repeat constructor. Qed.
