(* ===== verification/CoordinatorState.v ===== *)
(** * The coordinator's shared state

    Models src/packages/fallow-coordinator/src/fallow_coordinator/app/:
    state.py ([CoordinatorState], [RelayFailureFlags]), events.py, result_blobs.py
    and the parts of config.py the handlers read.  Every store method a handler
    awaits is a [Call]; [exec] performs it on the state.  A call is one transaction
    of its store, so handlers interleave between calls and not inside them.  Clock
    readings, uuids, tokens, futures and SQLite's row order come from the
    environment of the call. *)

From S2P Require Import QueueStore Scheduler Relay Registry Tasks.

(** ** Configuration *)

Record CoordinatorConfig := {
  cc_site_enabled : bool;              (* relay, site_route and relay_flags are present *)
  cc_long_poll_max_s : Q; cc_poll_sleep_s : Q; cc_chunks_per_unit : nat;
  cc_max_result_payload_bytes : Z; cc_auto_assign_on_enroll : bool;
  cc_speculative_backup_enabled : bool; cc_speculative_tail_max_units : Z;
  cc_speculative_survival_threshold : Q; cc_churn_est_unit_duration_s : Q;
  cc_max_attempts : Z; cc_default_lease_s : Q
}.

(** ** Bounded result storage *)

Definition CHUNK_SIZE : Z := 1024 * 1024.

(** The loop over the pieces of one incoming block of [left] bytes: the count
    that crossed the limit, or the new count. *)
Fixpoint absorb (fuel : nat) (limit received left : Z) : Z + Z :=
  match fuel with
  | O => inr received
  | S fuel =>
      if (left <=? 0)%Z then inr received
      else
        let n := Z.min CHUNK_SIZE left in
        if (limit <? received + n)%Z then inl (received + n)%Z
        else absorb fuel limit (received + n) (left - n)
  end.

Fixpoint absorb_all (limit received : Z) (stream : list bytes) : Z + Z :=
  match stream with
  | [] => inr received
  | block :: rest =>
      let left := Z.of_nat (length block) in
      match absorb (S (Z.to_nat (left / CHUNK_SIZE))) limit received left with
      | inl n => inl n
      | inr n => absorb_all limit n rest
      end
  end.

(** [put]: [inl n] is [ResultPayloadTooLarge] after [n] bytes. *)
Definition results_put (sha256 : bytes → bytes) (limit : Z) (stream : list bytes) (dir : gmap string bytes)
    : gmap string bytes * (Z + string) :=
  match absorb_all limit 0 stream with
  | inl n => (dir, inl n)
  | inr _ =>
      let hex_digest := to_hex (sha256 (concat stream)) in
      match dir !! hex_digest with
      | Some _ => (dir, inr hex_digest)
      | None => (<[hex_digest := concat stream]> dir, inr hex_digest)
      end
  end.

(** ** Non-retryable failures and presence events *)

Definition FLAGS_MAXLEN : Z := 4096.

Definition flags_mark (claim : string) (ids : odict unit) : odict unit := Relay.remember FLAGS_MAXLEN claim tt ids.

Definition flags_take (claim : string) (ids : odict unit) : odict unit * bool :=
  (od_pop claim ids, bool_decide (is_Some (od_get claim ids))).

Definition overrides_apply (event : AgentEvent) (states : gmap agent_id AgentState) : gmap agent_id AgentState :=
  match ev_kind event with
  | USER_RETURNED => <[ev_agent_id event := ACTIVE]> states
  | USER_IDLE => <[ev_agent_id event := IDLE]> states
  | _ => states
  end.

(** ** The state *)

(** [app_revoked_gen] is a history variable: an agent's presence generation at the
    moment it was first revoked.  No handler reads it. *)
Record App := {
  app_reg : RDb; app_queue : Db; app_relay : Relay.World; app_clock : instant;
  app_lock : option nat;               (* the task in agent_liveness_lock *)
  app_overrides : gmap agent_id AgentState; app_events : list AgentEvent; app_flags : odict unit;
  app_results : gmap string bytes; app_inputs : gmap string bytes;
  app_revoked_gen : gmap agent_id Z
}.

Definition initial_app (inputs : gmap string bytes) (max_response_buffer : Z) : App := {|
  app_reg := empty_rdb; app_queue := empty_db; app_relay := Relay.start max_response_buffer; app_clock := 0;
  app_lock := None; app_overrides := ∅; app_events := []; app_flags := []; app_results := ∅;
  app_inputs := inputs; app_revoked_gen := ∅ |}.

Definition set_reg d (s : App) : App := {|
  app_reg := d; app_queue := app_queue s; app_relay := app_relay s; app_clock := app_clock s;
  app_lock := app_lock s; app_overrides := app_overrides s; app_events := app_events s; app_flags := app_flags s;
  app_results := app_results s; app_inputs := app_inputs s; app_revoked_gen := app_revoked_gen s |}.
Definition set_queue d (s : App) : App := {|
  app_reg := app_reg s; app_queue := d; app_relay := app_relay s; app_clock := app_clock s;
  app_lock := app_lock s; app_overrides := app_overrides s; app_events := app_events s; app_flags := app_flags s;
  app_results := app_results s; app_inputs := app_inputs s; app_revoked_gen := app_revoked_gen s |}.
Definition set_relay w (s : App) : App := {|
  app_reg := app_reg s; app_queue := app_queue s; app_relay := w; app_clock := app_clock s;
  app_lock := app_lock s; app_overrides := app_overrides s; app_events := app_events s; app_flags := app_flags s;
  app_results := app_results s; app_inputs := app_inputs s; app_revoked_gen := app_revoked_gen s |}.
Definition set_clock t (s : App) : App := {|
  app_reg := app_reg s; app_queue := app_queue s; app_relay := app_relay s; app_clock := t;
  app_lock := app_lock s; app_overrides := app_overrides s; app_events := app_events s; app_flags := app_flags s;
  app_results := app_results s; app_inputs := app_inputs s; app_revoked_gen := app_revoked_gen s |}.
Definition set_lock l (s : App) : App := {|
  app_reg := app_reg s; app_queue := app_queue s; app_relay := app_relay s; app_clock := app_clock s;
  app_lock := l; app_overrides := app_overrides s; app_events := app_events s; app_flags := app_flags s;
  app_results := app_results s; app_inputs := app_inputs s; app_revoked_gen := app_revoked_gen s |}.
Definition set_overrides o (s : App) : App := {|
  app_reg := app_reg s; app_queue := app_queue s; app_relay := app_relay s; app_clock := app_clock s;
  app_lock := app_lock s; app_overrides := o; app_events := app_events s; app_flags := app_flags s;
  app_results := app_results s; app_inputs := app_inputs s; app_revoked_gen := app_revoked_gen s |}.
Definition set_events es (s : App) : App := {|
  app_reg := app_reg s; app_queue := app_queue s; app_relay := app_relay s; app_clock := app_clock s;
  app_lock := app_lock s; app_overrides := app_overrides s; app_events := es; app_flags := app_flags s;
  app_results := app_results s; app_inputs := app_inputs s; app_revoked_gen := app_revoked_gen s |}.
Definition set_flags f (s : App) : App := {|
  app_reg := app_reg s; app_queue := app_queue s; app_relay := app_relay s; app_clock := app_clock s;
  app_lock := app_lock s; app_overrides := app_overrides s; app_events := app_events s; app_flags := f;
  app_results := app_results s; app_inputs := app_inputs s; app_revoked_gen := app_revoked_gen s |}.
Definition set_results r (s : App) : App := {|
  app_reg := app_reg s; app_queue := app_queue s; app_relay := app_relay s; app_clock := app_clock s;
  app_lock := app_lock s; app_overrides := app_overrides s; app_events := app_events s; app_flags := app_flags s;
  app_results := r; app_inputs := app_inputs s; app_revoked_gen := app_revoked_gen s |}.
Definition set_inputs i (s : App) : App := {|
  app_reg := app_reg s; app_queue := app_queue s; app_relay := app_relay s; app_clock := app_clock s;
  app_lock := app_lock s; app_overrides := app_overrides s; app_events := app_events s; app_flags := app_flags s;
  app_results := app_results s; app_inputs := i; app_revoked_gen := app_revoked_gen s |}.
Definition set_revoked_gen g (s : App) : App := {|
  app_reg := app_reg s; app_queue := app_queue s; app_relay := app_relay s; app_clock := app_clock s;
  app_lock := app_lock s; app_overrides := app_overrides s; app_events := app_events s; app_flags := app_flags s;
  app_results := app_results s; app_inputs := app_inputs s; app_revoked_gen := g |}.

(** [async with agent_liveness_lock] left by task [i], normally or by an
    exception. *)
Definition release (i : nat) (s : App) : App :=
  if bool_decide (app_lock s = Some i) then set_lock None s else s.

(** ** Calls *)

(** Writing methods of the registry. *)
Inductive RegOp : Type → Type :=
  | RRegister (request : RegisterRequest) (host : string) : RegOp RegisterResponse
  | RHeartbeat (agent : agent_id) (hb : Heartbeat) : RegOp unit
  | RSetState (agent : agent_id) (st : AgentState) : RegOp unit
  | RPresence (agent : agent_id) (kind : string) (seq : Z) : RegOp Z
  | RBump (agent : agent_id) : RegOp Z
  | RRevoke (agent : agent_id) : RegOp unit
  | RSetAssignments (agent : agent_id) (models : list model_id) : RegOp unit
  | RCreateToken (mode : string) : RegOp string
  | RRevokeToken (id : string) : RegOp bool
  | RCreateKey (name : string) (allowlist : option (list model_id)) (rpm daily : option Z) : RegOp string
  | RPutModel (manifest : ModelManifest) (blob_path : string) : RegOp unit.

(** Methods of the queue. *)
Inductive QueueOp : Type → Type :=
  | QLeaseNext (agent : agent_id) (models : list model_id) : QueueOp (option WorkUnitLease)
  | QBackupCandidates (agent : agent_id) (models : list model_id) (tail : Z) : QueueOp (list BackupCandidate)
  | QLeaseBackup (agent : agent_id) (uid : unit_id) : QueueOp (option WorkUnitLease)
  | QComplete (agent : agent_id) (attempt : Z) (result : WorkResult) : QueueOp bool
  | QUploadAttempt (agent : agent_id) (uid : unit_id) : QueueOp (option Z)
  | QBind (agent : agent_id) (uid : unit_id) (attempt : Z) (digest ref : string) : QueueOp bool
  | QRequeueAgent (agent : agent_id) : QueueOp nat
  | QRequeueExpired : QueueOp nat
  | QSubmit (job : JobSubmit) (units : list WorkUnitSpec) : QueueOp job_id
  | QJobStatus (id : job_id) : QueueOp (option JobStatus)
  | QCompletedRef (uid : unit_id) : QueueOp (option string).

Inductive Call : Type → Type :=
  | GetNow : Call instant
  | GetMonotonic : Call Q
  | SleepUntil (t : instant) : Call unit
  | Acquire : Call unit
  | Release : Call unit
  | RegRead {X} (f : RDb → X) : Call X
  | RegDo {X} (o : RegOp X) : Call (RegistryError + X)
  | QueueDo {X} (o : QueueOp X) : Call (QueueError + X)
  | RelayRead {X} (f : Broker → X) : Call X
  | RelayDo (c : Relay.Call) : Call (list Task * option RelayError)
  | RelayTask (t : Task) : Call (list Task * option RelayError)
  | RelayClaim (agent : agent_id) (gen : Z) : Call (nat * option RelayError)
  | AwaitFuture (fut : nat) : Call (option string)
  | ResultsPut (stream : list bytes) : Call (Z + string)
  | ReadInput (name : string) : Call (option bytes)
  | StoreInput (name : string) (blob : bytes) : Call unit
  | HasResult (name : string) : Call bool
  | WriteEvent (event : AgentEvent) : Call unit
  | ApplyOverride (event : AgentEvent) : Call unit
  | OverrideFor (agent : agent_id) : Call (option AgentState)
  | MarkFlag (claim : string) : Call unit
  | AuthAgent (sha256 : bytes → bytes) (token : string) : Call (RegistryError + option agent_id)
  | AuthKey (sha256 : bytes → bytes) (rconfig : RegistryConfig) (token : string) : Call (option ApiKeyInfo).

Record Env := {
  e_now : instant; e_mono : Q; e_uuid : string; e_token : string; e_fut : nat; e_timeout : bool;
  e_rows : RowOrder
}.

(** Time does not run backwards, and what is drawn is fresh. *)
Definition env_ok (env : Env) (s : App) : Prop :=
  (app_clock s ≤ e_now env)%Z ∧ jobs (app_queue s) !! e_uuid env = None ∧
  futures (w_broker (app_relay s)) !! e_fut env = None.

#[export] Instance Task_eq_dec : EqDecision Task.
Proof. solve_decision. Defined.

(** The awaits still under way after [t] has run. *)
Fixpoint remove_first (t : Task) (l : list Task) : option (list Task) :=
  match l with
  | [] => None
  | t' :: l => if bool_decide (t' = t) then Some l else cons t' <$> remove_first t l
  end.

Section Exec.
  Context (sha256 : bytes → bytes) (rconfig : RegistryConfig) (cfg : CoordinatorConfig).

Definition run_reg {X} (env : Env) (o : RegOp X) : Eff RDb RegistryError X :=
  match o in RegOp X return Eff RDb RegistryError X with
  | RRegister req host => register_agent sha256 rconfig req host (e_now env) (e_uuid env) (e_token env)
  | RHeartbeat a hb => record_heartbeat a hb (e_now env)
  | RSetState a st => set_agent_state a st (e_now env)
  | RPresence a kind seq => apply_presence_event a kind seq (e_now env)
  | RBump a => bump_presence_generation a
  | RRevoke a => revoke_agent a (e_now env)
  | RSetAssignments a ms => set_assignments a ms
  | RCreateToken mode => create_enrollment_token sha256 mode (e_token env) (e_now env)
  | RRevokeToken id => revoke_enrollment_token id (e_now env)
  | RCreateKey n al rpm dl => create_api_key sha256 n al rpm dl (e_token env) (e_now env)
  | RPutModel m blob => put_model m blob true (e_now env)
  end.

Definition run_queue {X} (env : Env) (o : QueueOp X) : Eff Db QueueError X :=
  match o in QueueOp X return Eff Db QueueError X with
  | QLeaseNext a ms => @lease_next (cc_default_lease_s cfg) (e_rows env) a ms (e_now env)
  | QBackupCandidates a ms tail => backup_candidates a ms tail
  | QLeaseBackup a uid => lease_backup (cc_max_attempts cfg) (cc_default_lease_s cfg) a uid (e_now env)
  | QComplete a n res => complete_unit a n res (e_now env)
  | QUploadAttempt a uid => result_upload_attempt a uid
  | QBind a uid n digest ref => bind_result_payload a uid n digest ref (e_now env)
  | QRequeueAgent a => requeue_agent (cc_max_attempts cfg) a (e_now env)
  | QRequeueExpired => requeue_expired (cc_max_attempts cfg) (e_now env)
  | QSubmit job units => submit_job job units false (e_uuid env) (e_now env)
  | QJobStatus id => job_status id
  | QCompletedRef uid => completed_result_ref uid
  end.

(** The history variable at a revocation. *)
Definition note_revoked {X} (o : RegOp X) (s : App) : App :=
  match o with
  | RRevoke a =>
      match od_get a (r_agents (app_reg s)) with
      | Some row =>
          if bool_decide (ar_revoked_at row = None)
          then set_revoked_gen (<[a := ar_presence_generation row]> (app_revoked_gen s)) s else s
      | None => s
      end
  | _ => s
  end.

(** The exception a blocked [_ResponseStream.write] ends with. *)
Definition task_error (t : Task) (now : Q) (b : Broker) : option RelayError :=
  match t with
  | TWrite c chunk deadline =>
      w ← objs b !! c;
      match (stream_write chunk deadline now (w_stream w)).2 with
      | PastDeadline => Some expired_error
      | Terminated reason => Some (RelayStateError reason None)
      | _ => None
      end
  | _ => None
  end.

(** Performing a call for task [i]; [None] while it blocks. *)
Definition exec X (i : nat) (env : Env) (c : Call X) (s0 : App) : option (App * X) :=
  let s := set_clock (e_now env) s0 in
  let b := w_broker (app_relay s) in
  match c in Call X return option (App * X) with
  | GetNow => Some (s, e_now env)
  | GetMonotonic => Some (s, e_mono env)
  | SleepUntil t => if (e_now env <? t)%Z then None else Some (s, tt)
  | Acquire => match app_lock s with None => Some (set_lock (Some i) s, tt) | Some _ => None end
  | Release => Some (release i s, tt)
  | RegRead f => Some (s, f (app_reg s))
  | RegDo o =>
      let '(d, r) := run_reg env o (app_reg s) in
      Some (set_reg d (note_revoked o s), r)
  | QueueDo o =>
      let '(d, r) := run_queue env o (app_queue s) in
      Some (set_queue d s, r)
  | RelayRead f => Some (s, f b)
  | RelayDo c =>
      let '(b', tasks, r) := Relay.run_call c (e_mono env) b in
      Some (set_relay {| Relay.w_broker := b'; Relay.w_tasks := Relay.w_tasks (app_relay s) ++ tasks |} s, (tasks, r))
  | RelayTask t =>
      match remove_first t (Relay.w_tasks (app_relay s)), Relay.run_task t (e_mono env) b with
      | Some rest, Some (b', tasks) =>
          Some (set_relay {| Relay.w_broker := b'; Relay.w_tasks := rest ++ tasks |} s,
                (tasks, task_error t (e_mono env) b))
      | _, _ => None
      end
  | RelayClaim a gen =>
      let '(b', tasks, r) := Relay.claim a gen (e_fut env) b in
      Some (set_relay {| Relay.w_broker := b'; Relay.w_tasks := Relay.w_tasks (app_relay s) ++ tasks |} s, (e_fut env, r))
  | AwaitFuture fut =>
      match futures b !! fut with
      | Some (Resolved claim) => Some (s, if e_timeout env then None else Some claim)
      | Some Pending_ =>
          if e_timeout env
          then Some (set_relay {| Relay.w_broker := wait_timeout fut b; Relay.w_tasks := Relay.w_tasks (app_relay s) |} s, None)
          else None
      | _ => Some (s, None)
      end
  | ResultsPut stream =>
      let '(dir, r) := results_put sha256 (cc_max_result_payload_bytes cfg) stream (app_results s) in
      Some (set_results dir s, r)
  | ReadInput name => Some (s, app_inputs s !! name)
  | StoreInput name blob =>
      Some (match app_inputs s !! name with
            | Some _ => s
            | None => set_inputs (<[name := blob]> (app_inputs s)) s
            end, tt)
  | HasResult name => Some (s, bool_decide (is_Some (app_results s !! name)))
  | WriteEvent event => Some (set_events (app_events s ++ [event]) s, tt)
  | ApplyOverride event => Some (set_overrides (overrides_apply event (app_overrides s)) s, tt)
  | OverrideFor a => Some (s, app_overrides s !! a)
  | MarkFlag claim => Some (set_flags (flags_mark claim (app_flags s)) s, tt)
  | AuthAgent sha256 token => Some (s, Registry.authenticate_agent sha256 token (app_reg s))
  | AuthKey sha256 rconfig token => Some (s, authenticate_api_key sha256 rconfig token (app_reg s))
  end.
End Exec.
