(* ===== verification/AgentRoutes.v ===== *)
(** * The routes agents call

    Models src/packages/fallow-coordinator/src/fallow_coordinator/app/
    agent_routes.py and deps.py, and [authenticate_agent] of httpauth.py, as
    programs over the calls of [CoordinatorState].  An exception no handler catches
    is the answer [Crash]. *)

From S2P Require Import QueueStore Scheduler Relay Registry Tasks HttpAuth.
From S2P Require Export CoordinatorState.

(** ** Answers *)

(** Why a fit sweep left an agent alone. *)
Inductive SkipReason :=
  | AlreadyAssigned (models : list model_id)
  | DoesNotFit (r : FitReport)
  | RevokedMeanwhile.

(** A row of the site's fleet status; the heartbeat age in tenths of a second. *)
Record SiteAgentStatus := {
  sa_agent_id : agent_id; sa_enrollment_mode : EnrollmentMode; sa_transport : Transport;
  sa_heartbeat_age_ds : Z; sa_presence_state : string; sa_presence_generation : Z; sa_available : bool;
  sa_ready_replicas : nat; sa_last_claim : option ClaimOutcome
}.

Inductive Body :=
  | NoBody
  | Detail (message : string)
  | BRegistered (r : RegisterResponse)
  | BHeartbeat (r : HeartbeatResponse)
  | BLease (l : WorkUnitLease)
  | BResultRef (digest : string)
  | BBytes (b : bytes)
  | BClaim (claim : string) (gen port : Z) (request : RelayRequest) (deadline_ms : Z)
  | BToken (token : string)
  | BKey (key : string)
  | BTokens (l : list EnrollmentTokenInfo)
  | BAgents (l : list AgentSnapshot)
  | BRevoked (l : list RevokedAgentInfo)
  | BModels (l : list ModelManifest)
  | BFit (r : FitReport)
  | BUnfit (model : model_id) (agent : agent_id) (r : FitReport)
  | BSweep (assigned kept : list agent_id) (skipped : list (agent_id * SkipReason)) (offline : list agent_id)
  | BBundles (tokens : list string)
  | BFleet (rows : list SiteAgentStatus)
  | BJob (s : JobStatus)
  | BFile (name : string).

Inductive Response :=
  | Resp (status : Z) (body : Body)
  | Crash
  | Exhausted.                         (* a bounded loop of the model ran out; never an answer *)

Abbreviation H := (Handler Call Response).

Definition fails {A} (status : Z) (detail : string) : H A := respond_with (Resp status (Detail detail)).

(** A call whose exception is not caught. *)
Definition unwrap {E A} (r : E + A) : H A := match r with inl _ => respond_with Crash | inr a => mret a end.

Definition REVOKED_DEVICE_TOKEN_DETAIL : string := "device token revoked".

Definition chunk_bytes : nat := Z.to_nat MAX_RESPONSE_CHUNK_BYTES.

(** [_split_response] *)
Fixpoint split_loop (fuel : nat) (chunk : bytes) : list bytes :=
  match fuel, chunk with
  | S fuel, _ :: _ => take chunk_bytes chunk :: split_loop fuel (drop chunk_bytes chunk)
  | _, _ => []
  end.
Definition split_response (chunk : bytes) : list bytes := split_loop (length chunk) chunk.

(** [_relay_error_status] *)
Definition relay_error_status (e : RelayError) : Z :=
  match e with
  | RelayStateError _ (Some EGone) => 410
  | RelayStateError _ (Some EUnknown) => 404
  | _ => 409
  end.

(** [now.hour] *)
Definition hour_of (now : instant) : Z := ((now / 3600000000) mod 24)%Z.

(** [next((s for s in snapshots if s.agent_id == agent_id), None)] *)
Definition snapshot_of (agent : agent_id) (l : list AgentSnapshot) : option AgentSnapshot :=
  head (filter (λ a, as_agent_id a = agent) l).

(** [snapshot.model_copy(update={"state": override})] *)
Definition with_state (st : AgentState) (a : AgentSnapshot) : AgentSnapshot := {|
  as_agent_id := as_agent_id a; as_host := as_host a; as_state := st; as_suspect := as_suspect a;
  as_caps := as_caps a; as_mem_available_mb := as_mem_available_mb a; as_gpus := as_gpus a;
  as_replicas := as_replicas a; as_user_idle_s := as_user_idle_s a; as_serving_paused := as_serving_paused a;
  as_predicted_idle_remaining_s := as_predicted_idle_remaining_s a;
  as_predicted_idle_confidence := as_predicted_idle_confidence a |}.

Definition ready_models (a : AgentSnapshot) : list model_id :=
  rs_model_id <$> filter (λ r, rs_state r = READY) (as_replicas a).

Section AgentRoutes.
  Context (sha256 : bytes → bytes) (rconfig : RegistryConfig) (cfg : CoordinatorConfig)
          (churn : option ChurnModel).

(** ** Authentication *)

Definition authenticate (authorization : option string) : H agent_id :=
  match extract_bearer authorization with
  | None => fails 401 "missing bearer token"
  | Some token =>
      r ← call (AuthAgent sha256 token);
      match r with
      | inl _ => fails 401 REVOKED_DEVICE_TOKEN_DETAIL
      | inr None => fails 401 "invalid device token"
      | inr (Some agent) => mret agent
      end
  end.

Definition authenticate_admin (authorization : option string) : H ApiKeyInfo :=
  match extract_bearer authorization with
  | None => fails 401 "missing admin key"
  | Some token =>
      info ← call (AuthKey sha256 rconfig token);
      match info with
      | None => fails 401 "unknown admin key"
      | Some info => if ki_is_admin info then mret info else fails 403 "admin scope required"
      end
  end.

Definition authorize_self (agent : agent_id) (authorization : option string) : H unit :=
  caller ← authenticate authorization;
  if bool_decide (caller = agent) then mret tt else fails 403 "device token does not match agent id".

(** The resolver of factory.py: the generation of a relayed agent's route. *)
Definition site_generation (agent : agent_id) (d : RDb) : option Z :=
  match site_route agent d with
  | Some (SITE_RELAY, gen) => Some gen
  | _ => None
  end.

(** [async with state.agent_liveness_lock: await c] *)
Definition locked {X} (c : Call X) : H X :=
  call Acquire ;;
  x ← call c;
  call Release ;;
  mret x.

Definition agent_snapshot (agent : agent_id) : H (option AgentSnapshot) :=
  now ← call GetNow;
  snapshots ← call (RegRead (snapshots rconfig now));
  match snapshot_of agent snapshots with
  | None => mret None
  | Some snapshot =>
      override ← call (OverrideFor agent);
      match override with
      | Some st =>
          mret (Some (if bool_decide (st = as_state snapshot) then snapshot else with_state st snapshot))
      | None => mret (Some snapshot)
      end
  end.

(** ** The broker's methods, with the awaits each performs after its locked
    section.  A write may end in a deadline, which closes the stream. *)

Fixpoint run_each (follow_up : list Task → H (option RelayError)) (tasks : list Task) : H (option RelayError) :=
  match tasks with
  | [] => mret None
  | t :: rest =>
      r ← call (RelayTask t);
      follow_up r.1 ;;
      match r.2 with
      | Some e => mret (Some e)
      | None => run_each follow_up rest
      end
  end.

Fixpoint run_tasks (depth : nat) (tasks : list Task) : H (option RelayError) :=
  match depth with
  | O => mret None
  | S depth => run_each (run_tasks depth) tasks
  end.

Definition relay (c : Relay.Call) : H (option RelayError) :=
  r ← call (RelayDo c);
  e ← run_tasks 3 r.1;
  mret (match r.2 with Some err => Some err | None => e end).

(** [broker.claim]: [inl] is its exception. *)
Definition relay_claim (agent : agent_id) (gen : Z) : H (RelayError + option string) :=
  r ← call (RelayClaim agent gen);
  match r with
  | (_, Some e) => mret (inl e)
  | (fut, None) =>
      claim ← call (AwaitFuture fut);
      match claim with
      | Some c => mret (inr (Some c))
      | None => relay (Abandon agent fut) ;; mret (inr None)
      end
  end.

(** ** Presence *)

(** [_fence_site_presence] *)
Definition fence_site_presence (agent : agent_id) (event : AgentEvent) : H bool :=
  if negb (cc_site_enabled cfg) then mret false
  else
    route ← call (RegRead (site_generation agent));
    match route with
    | None => mret false
    | Some _ =>
        match sequence ← ev_detail event !! "sequence"; py_int sequence with
        | None => mret false
        | Some sequence =>
            let kind := if bool_decide (ev_kind event = USER_RETURNED) then "user_returned" else "user_idle" in
            r ← locked (RegDo (RPresence agent kind sequence));
            generation ← unwrap r;
            relay (Invalidate agent generation kind) ;;
            mret true
        end
    end.

(** [_fence_site_heartbeat] *)
Definition fence_site_heartbeat (agent : agent_id) : H unit :=
  if negb (cc_site_enabled cfg) then mret tt
  else
    route ← call (RegRead (site_generation agent));
    match route with
    | None => mret tt
    | Some _ =>
        snapshot ← agent_snapshot agent;
        match snapshot with
        | None => mret tt
        | Some a =>
            if bool_decide (as_state a = IDLE) && negb (as_serving_paused a) then mret tt
            else
              pending ← call (RelayRead (has_pending agent));
              if negb pending then mret tt
              else
                r ← call (RegDo (RBump agent));
                generation ← unwrap r;
                relay (Invalidate agent generation "heartbeat_paused") ;;
                mret tt
        end
    end.

(** ** The routes *)

(** [_auto_assign_on_enroll]; its exceptions are logged and dropped. *)
Definition auto_assign_on_enroll (agent : agent_id) (caps : DeviceCaps) : H unit :=
  desired ← call (RegRead (desired_models agent));
  if negb (bool_decide (desired = [])) then mret tt
  else
    models ← call (RegRead list_models);
    match select_model_for_agent (capacity_snapshot agent caps) models with
    | None => mret tt
    | Some chosen => call (RegDo (RSetAssignments agent [mm_model_id chosen])) ;; mret tt
    end.

Definition register (request : RegisterRequest) (host : string) : H Response :=
  r ← call (RegDo (RRegister request host));
  match r with
  | inl (ProtocolMismatchError _ _) => fails 409 "protocol version mismatch"
  | inl EnrollmentTokenError => fails 401 "invalid or used enrollment token"
  | inl _ => respond_with Crash
  | inr response =>
      (if cc_auto_assign_on_enroll cfg
       then auto_assign_on_enroll (rp_agent_id response) (rr_caps request) else mret tt) ;;
      mret (Resp 201 (BRegistered response))
  end.

Definition heartbeat (agent : agent_id) (hb : Heartbeat) (authorization : option string) : H Response :=
  authorize_self agent authorization ;;
  r ← locked (RegDo (RHeartbeat agent hb));
  match r with
  | inl (UnknownAgentError _) => fails 404 "unknown agent"
  | inl _ => respond_with Crash
  | inr _ =>
      fence_site_heartbeat agent ;;
      desired ← call (RegRead (desired_models agent));
      mret (Resp 200 (BHeartbeat {| hr_desired_models := desired; hr_revoked_lease_ids := []; hr_config := None |}))
  end.

Definition events (agent : agent_id) (event : AgentEvent) (authorization : option string) : H Response :=
  authorize_self agent authorization ;;
  call (WriteEvent event) ;;
  call (ApplyOverride event) ;;
  (if bool_decide (ev_kind event = USER_RETURNED) || bool_decide (ev_kind event = USER_IDLE) then
     handled ← fence_site_presence agent event;
     if handled : bool then mret tt
     else
       let target := if bool_decide (ev_kind event = USER_RETURNED) then ACTIVE else IDLE in
       r ← locked (RegDo (RSetState agent target));
       unwrap r
   else mret tt) ;;
  mret (Resp 202 NoBody).

(** [_try_backup_lease] *)
Definition try_backup_lease (agent : agent_id) (leasable : list model_id) : H (option WorkUnitLease) :=
  match cc_speculative_backup_enabled cfg, churn with
  | true, Some model =>
      r ← call (QueueDo (QBackupCandidates agent leasable (cc_speculative_tail_max_units cfg)));
      candidates ← unwrap r;
      if bool_decide (length candidates = 0%nat) then mret None
      else
        now ← call GetNow;
        holders ← call (RegRead (snapshots rconfig now));
        now' ← call GetNow;
        let tail := (λ c, {| tu_work_unit_id := bc_work_unit_id c; tu_holder_agent_id := bc_holder_agent_id c;
                             tu_est_duration_s := bc_est_duration_s c |}) <$> candidates in
        match choose_backup_unit (list_to_map (reverse ((λ a, (as_agent_id a, a)) <$> holders))) model (hour_of now')
                (cc_speculative_survival_threshold cfg) (cc_churn_est_unit_duration_s cfg) tail with
        | None => mret None
        | Some uid => r ← call (QueueDo (QLeaseBackup agent uid)); unwrap r
        end
  | _, _ => mret None
  end.

(** [_try_lease] *)
Definition try_lease (agent : agent_id) : H (option Response) :=
  snapshot ← agent_snapshot agent;
  match snapshot with
  | None => mret None
  | Some a =>
      let leasable := select_for_poll a (ready_models a) in
      if bool_decide (leasable = []) then mret None
      else
        r ← call (QueueDo (QLeaseNext agent leasable));
        lease ← unwrap r;
        lease ← match lease with
                | Some l => mret (Some l)
                | None => try_backup_lease agent leasable
                end;
        mret ((λ l, Resp 200 (BLease l)) <$> lease)
  end.

(** [_long_poll]: the loop, which sleeps between attempts until the deadline. *)
Fixpoint long_poll_loop (fuel : nat) (agent : agent_id) (deadline : instant) : H Response :=
  match fuel with
  | O => mret Exhausted
  | S fuel =>
      lease_response ← try_lease agent;
      match lease_response with
      | Some response => mret response
      | None =>
          now ← call GetNow;
          if (deadline <=? now)%Z then mret (Resp 204 NoBody)
          else
            call (SleepUntil (now + timedelta_us (cc_poll_sleep_s cfg))) ;;
            long_poll_loop fuel agent deadline
      end
  end.

(** Attempts before the deadline is certainly past: one per sleep that fits in
    the longest poll, and the first and the last. *)
Definition poll_fuel : nat :=
  Z.to_nat (timedelta_us (cc_long_poll_max_s cfg) / timedelta_us (cc_poll_sleep_s cfg) + 2).

Definition long_poll (agent : agent_id) (timeout : Q) : H Response :=
  let budget := py_min2 (py_max2 timeout 0) (cc_long_poll_max_s cfg) in
  now ← call GetNow;
  long_poll_loop poll_fuel agent (now + timedelta_us budget).

Definition work (agent : agent_id) (timeout : Q) (authorization : option string) : H Response :=
  authorize_self agent authorization ;;
  long_poll agent timeout.

Definition result (agent : agent_id) (uid : unit_id) (res : WorkResult) (attempt : Z) (authorization : option string)
    : H Response :=
  authorize_self agent authorization ;;
  if negb (bool_decide (uid = wr_work_unit_id res)) then fails 409 "result unit does not match request path"
  else
    r ← call (QueueDo (QComplete agent attempt res));
    accepted ← unwrap r;
    if negb accepted then fails 409 "work-unit result was not accepted" else mret (Resp 200 NoBody).

Definition payload (agent : agent_id) (uid : unit_id) (attempt : Z) (stream : list bytes) (authorization : option string)
    : H Response :=
  authorize_self agent authorization ;;
  r ← call (QueueDo (QUploadAttempt agent uid));
  current ← unwrap r;
  if negb (bool_decide (current = Some attempt)) then fails 409 "work-unit lease changed"
  else
    digest ← call (ResultsPut stream);
    match digest with
    | inl _ => fails 413 "result payload exceeded the limit"
    | inr digest =>
        r ← call (QueueDo (QBind agent uid attempt digest digest));
        accepted ← unwrap r;
        if negb accepted then fails 409 "work-unit lease changed during upload"
        else mret (Resp 200 (BResultRef digest))
    end.

Definition unit_input (uid : unit_id) (authorization : option string) : H Response :=
  authenticate authorization ;;
  blob ← call (ReadInput uid);
  match blob with
  | None => fails 404 "unknown work-unit input"
  | Some b => mret (Resp 200 (BBytes b))
  end.

(** ** The relay routes *)

Definition MAX_CLAIM_WAIT_S : Q := 25.
Definition DEADLINE_MS_MAX : Z := 300000.

(** [_claim_payload] *)
Definition claim_payload (claim : string) (gen : Z) (w : Work) (monotonic : Q) : Body :=
  BClaim claim gen (w_replica_port w) (w_request w)
    (Z.max 1 (Z.min DEADLINE_MS_MAX (round_half_even ((w_deadline w - monotonic) * 1000)))).

Definition site_mounted {A} (p : H A) : H A := if cc_site_enabled cfg then p else respond_with (Resp 404 (Detail "Not Found")).

Definition inference_claim (agent : agent_id) (authorization : option string) : H Response :=
  site_mounted (
  authorize_self agent authorization ;;
  route ← call (RegRead (site_generation agent));
  match route with
  | None => fails 404 "agent is not a site relay agent"
  | Some gen =>
      r ← relay_claim agent gen;
      match r with
      | inl (RelayStateError _ _) => mret (Resp 204 NoBody)
      | inl RelayRequestTooLarge => respond_with Crash
      | inr None => mret (Resp 204 NoBody)
      | inr (Some claim) =>
          w ← call (RelayRead (λ b, objs b !! claim));
          monotonic ← call GetMonotonic;
          match w with
          | Some w => mret (Resp 200 (claim_payload claim gen w monotonic))
          | None => respond_with Crash
          end
      end
  end).

(** The pieces of the upload, in order, until one is refused. *)
Fixpoint write_pieces (agent : agent_id) (claim : string) (gen : Z) (pieces : list bytes) : H (option RelayError) :=
  match pieces with
  | [] => mret None
  | piece :: rest =>
      e ← relay (Write agent claim gen piece);
      match e with
      | Some e => mret (Some e)
      | None => write_pieces agent claim gen rest
      end
  end.

(** [aborted]: the upload breaks off after [chunks]. *)
Definition inference_response (agent : agent_id) (claim : string) (gen status : Z) (content_type : string)
    (chunks : list bytes) (aborted : bool) (authorization : option string) : H Response :=
  site_mounted (
  authorize_self agent authorization ;;
  e ← relay (StartResponse agent claim gen status content_type);
  match e with
  | Some e => mret (Resp (relay_error_status e) NoBody)
  | None =>
      e ← write_pieces agent claim gen (chunks ≫= split_response);
      match e with
      | Some e => mret (Resp (relay_error_status e) NoBody)
      | None =>
          if aborted then relay (Fail_ agent claim gen "cancelled") ;; respond_with Crash
          else
            e ← relay (Finish agent claim gen);
            match e with
            | Some e => mret (Resp (relay_error_status e) NoBody)
            | None => mret (Resp 202 NoBody)
            end
      end
  end).

Definition inference_failure (agent : agent_id) (claim : string) (gen : Z) (code : string) (retryable : bool)
    (authorization : option string) : H Response :=
  site_mounted (
  authorize_self agent authorization ;;
  (if negb retryable then call (MarkFlag claim) else mret tt) ;;
  e ← relay (Fail_ agent claim gen code);
  match e with
  | Some e => mret (Resp (relay_error_status e) NoBody)
  | None => mret (Resp 202 NoBody)
  end).
End AgentRoutes.
