(* ===== verification/AdminRoutes.v ===== *)
(** * The operator's routes and the background loops

    Models src/packages/fallow-coordinator/src/fallow_coordinator/: app/admin_routes.py
    (the retrieval routes apart), site/router.py, app/background.py and
    scheduler/dispatch.py, and the requests the coordinator serves.  A background
    loop is a sequence of requests, one per iteration. *)

From S2P Require Import QueueStore Scheduler Relay Registry Tasks HttpAuth.
From S2P Require Export AgentRoutes Chunker.

(** [_is_sha256] *)
Definition is_sha256 (value : string) : bool :=
  let cs := String.list_ascii_of_string value in (length cs =? 64)%nat && forallb is_hex cs.

(** ** The fleet view *)

(** [_presence_state] *)
Definition presence_name (snapshot : option AgentSnapshot) : string :=
  match snapshot with
  | None => "offline"
  | Some a =>
      if as_serving_paused a then "reclaimed"
      else match as_state a with IDLE => "idle" | ACTIVE => "active" | DRAINING => "draining" end
  end.

(** [_available] *)
Definition available (snapshot : option AgentSnapshot) : bool :=
  match snapshot with
  | None => false
  | Some a => bool_decide (as_state a = IDLE) && negb (as_suspect a) && negb (as_serving_paused a)
  end.

(** [_ready_replicas] *)
Definition ready_replicas (snapshot : option AgentSnapshot) : nat :=
  match snapshot with None => 0 | Some a => length (filter (λ r, rs_state r = READY) (as_replicas a)) end.

(** One row of [fleet_status]. *)
Definition fleet_row (e : SiteFleetEntry) (snapshot : option AgentSnapshot) (claim : option ClaimOutcome)
    : SiteAgentStatus := {|
  sa_agent_id := sf_agent_id e; sa_enrollment_mode := sf_enrollment_mode e; sa_transport := sf_transport e;
  sa_heartbeat_age_ds := round_half_even (sf_heartbeat_age_s e * 10);
  sa_presence_state := if sf_revoked e then "revoked" else presence_name snapshot;
  sa_presence_generation := sf_presence_generation e; sa_available := available snapshot;
  sa_ready_replicas := ready_replicas snapshot; sa_last_claim := claim |}.

Section AdminRoutes.
  Context (sha256 : bytes → bytes) (rconfig : RegistryConfig) (cfg : CoordinatorConfig)
          (set_order : list agent_id → list agent_id).
  Notation admin := (authenticate_admin sha256 rconfig).

(** ** Tokens, keys and models *)

Definition create_enrollment_token (authorization : option string) : H Response :=
  admin authorization ;;
  r ← call (RegDo (RCreateToken "legacy"));
  token ← unwrap r;
  mret (Resp 201 (BToken token)).

Definition list_enrollment_tokens (authorization : option string) : H Response :=
  admin authorization ;;
  l ← call (RegRead Registry.list_enrollment_tokens);
  mret (Resp 200 (BTokens l)).

Definition revoke_enrollment_token (id : string) (authorization : option string) : H Response :=
  admin authorization ;;
  r ← call (RegDo (RRevokeToken id));
  match r with
  | inl EnrollmentTokenError => fails 404 "malformed or ambiguous enrollment token id"
  | inl _ => respond_with Crash
  | inr true => mret (Resp 204 NoBody)
  | inr false => fails 404 "unknown or already spent enrollment token"
  end.

Definition create_api_key (name : string) (allowlist : option (list model_id)) (rpm daily : option Z)
    (authorization : option string) : H Response :=
  admin authorization ;;
  r ← call (RegDo (RCreateKey name allowlist rpm daily));
  key ← unwrap r;
  mret (Resp 201 (BKey key)).

Definition list_agents (authorization : option string) : H Response :=
  admin authorization ;;
  now ← call GetNow;
  l ← call (RegRead (snapshots rconfig now));
  mret (Resp 200 (BAgents l)).

Definition list_revoked (authorization : option string) : H Response :=
  admin authorization ;;
  l ← call (RegRead list_revoked_agents);
  mret (Resp 200 (BRevoked l)).

Definition list_models_route (authorization : option string) : H Response :=
  admin authorization ;;
  l ← call (RegRead list_models);
  mret (Resp 200 (BModels l)).

(** [blob_exists]: [Path(body.blob_path).is_file()]. *)
Definition register_model (manifest : ModelManifest) (blob_path : string) (blob_exists : bool)
    (authorization : option string) : H Response :=
  admin authorization ;;
  if negb blob_exists then fails 422 "blob_path not found"
  else
    r ← call (RegDo (RPutModel manifest blob_path));
    unwrap r ;;
    mret (Resp 201 NoBody).

(** ** Revoking an agent *)

(** [_is_relay_agent] *)
Definition is_relay_agent (agent : agent_id) : H bool :=
  if negb (cc_site_enabled cfg) then mret false
  else
    t ← call (RegRead (agent_transport agent));
    mret (bool_decide (t = Some SITE_RELAY)).

(** [_evict_from_relay] *)
Definition evict_from_relay (agent : agent_id) : H unit :=
  r ← call (RegDo (RBump agent));
  generation ← unwrap r;
  relay (Invalidate agent generation "revoked") ;;
  mret tt.

Definition revoke_agent_route (agent : agent_id) (authorization : option string) : H Response :=
  admin authorization ;;
  relayed ← is_relay_agent agent;
  r ← call (RegDo (RRevoke agent));
  match r with
  | inl (UnknownAgentError _) => fails 404 "unknown agent"
  | inl _ => respond_with Crash
  | inr _ =>
      r ← call (RegDo (RSetAssignments agent []));
      unwrap r ;;
      (if relayed : bool then evict_from_relay agent else mret tt) ;;
      mret (Resp 204 NoBody)
  end.

(** ** Assignments *)

Definition agent_fit (agent : agent_id) (model : model_id) (authorization : option string) : H Response :=
  admin authorization ;;
  manifest ← call (RegRead (get_manifest model));
  match manifest with
  | None => fails 404 "unknown model"
  | Some manifest =>
      now ← call GetNow;
      l ← call (RegRead (snapshots rconfig now));
      match snapshot_of agent l with
      | None => fails 404 "unknown or offline agent"
      | Some a => mret (Resp 200 (BFit (model_fit manifest a)))
      end
  end.

(** The loop of [_reject_unfit_assignment] over the sorted targets. *)
Fixpoint reject_unfit (manifest : ModelManifest) (model : model_id) (live : list AgentSnapshot)
    (targets : list agent_id) : H unit :=
  match targets with
  | [] => mret tt
  | agent :: rest =>
      match last (filter (λ a, as_agent_id a = agent) live) with
      | None => reject_unfit manifest model live rest
      | Some a =>
          desired ← call (RegRead (desired_models agent));
          if bool_decide (model ∈ desired) then reject_unfit manifest model live rest
          else
            let report := model_fit manifest a in
            if negb (fr_fits report) then respond_with (Resp 409 (BUnfit model agent report))
            else reject_unfit manifest model live rest
      end
  end.

(** [_reject_unfit_assignment] *)
Definition reject_unfit_assignment (model : model_id) (agents : list agent_id) : H unit :=
  manifest ← call (RegRead (get_manifest model));
  match manifest with
  | None => mret tt
  | Some manifest =>
      if bool_decide (agents = []) then mret tt
      else
        now ← call GetNow;
        live ← call (RegRead (snapshots rconfig now));
        reject_unfit manifest model live (py_sorted id (remove_dups agents))
  end.

(** The loop of [_replace_model_assignment]. *)
Fixpoint replace_each (model : model_id) (targets : list agent_id) (agents : list agent_id) : H unit :=
  match agents with
  | [] => mret tt
  | agent :: rest =>
      desired ← call (RegRead (desired_models agent));
      let current : gset string := list_to_set desired in
      let updated : gset string := if bool_decide (agent ∈ targets) then current ∪ {[model]} else current ∖ {[model]} in
      (if bool_decide (updated = current) then mret tt
       else
         r ← call (RegDo (RSetAssignments agent (py_sorted id (elements updated))));
         unwrap r) ;;
      replace_each model targets rest
  end.

(** [_replace_model_assignment]: the set is walked in the order [set_order]. *)
Definition replace_model_assignment (model : model_id) (agents : list agent_id) : H unit :=
  now ← call GetNow;
  online ← call (RegRead (snapshots rconfig now));
  offline ← call (RegRead (list_offline rconfig now));
  replace_each model agents (set_order ((as_agent_id <$> online) ++ offline ++ agents)).

Definition set_assignments_route (model : model_id) (agents : list agent_id) (authorization : option string) : H Response :=
  admin authorization ;;
  reject_unfit_assignment model agents ;;
  replace_model_assignment model agents ;;
  mret (Resp 204 NoBody).

(** The loop of [fit_assignments]. *)
Fixpoint fit_each (manifest : ModelManifest) (model : model_id) (agents : list AgentSnapshot)
    (assigned kept : list agent_id) (skipped : list (agent_id * SkipReason))
    : H (list agent_id * list agent_id * list (agent_id * SkipReason)) :=
  match agents with
  | [] => mret (assigned, kept, skipped)
  | a :: rest =>
      let agent := as_agent_id a in
      desired ← call (RegRead (desired_models agent));
      if bool_decide (model ∈ desired) then fit_each manifest model rest assigned (kept ++ [agent]) skipped
      else if negb (bool_decide (desired = []))
      then fit_each manifest model rest assigned kept (skipped ++ [(agent, AlreadyAssigned (py_sorted id desired))])
      else
        let report := model_fit manifest a in
        if negb (fr_fits report)
        then fit_each manifest model rest assigned kept (skipped ++ [(agent, DoesNotFit report)])
        else
          r ← call (RegDo (RSetAssignments agent [model]));
          unwrap r ;;
          desired' ← call (RegRead (desired_models agent));
          if bool_decide (model ∈ desired')
          then fit_each manifest model rest (assigned ++ [agent]) kept skipped
          else fit_each manifest model rest assigned kept (skipped ++ [(agent, RevokedMeanwhile)])
  end.

(** [tuple(sorted(set(offline) - revoked))] *)
Definition offline_only (revoked : list RevokedAgentInfo) (offline : list agent_id) : list agent_id :=
  py_sorted id (filter (λ a, a ∉ (ri_agent_id <$> revoked)) (remove_dups offline)).

Definition fit_assignments (model : model_id) (authorization : option string) : H Response :=
  admin authorization ;;
  manifest ← call (RegRead (get_manifest model));
  match manifest with
  | None => fails 404 "unknown model"
  | Some manifest =>
      now ← call GetNow;
      live ← call (RegRead (snapshots rconfig now));
      out ← fit_each manifest model (py_sorted as_agent_id live) [] [] [];
      revoked ← call (RegRead list_revoked_agents);
      offline ← call (RegRead (list_offline rconfig now));
      mret (Resp 200 (BSweep out.1.1 out.1.2 out.2 (offline_only revoked offline)))
  end.

(** ** Jobs *)

Fixpoint store_inputs (files : list (string * bytes)) : H unit :=
  match files with
  | [] => mret tt
  | (name, blob) :: rest => call (StoreInput name blob) ;; store_inputs rest
  end.

(** [payload]: what is found at [job.payload_ref]. *)
Definition submit_job_route (job : JobSubmit) (payload : Payload) (authorization : option string) : H Response :=
  admin authorization ;;
  match chunk_job sha256 job payload (cc_chunks_per_unit cfg) with
  | inl _ => fails 422 "payload cannot be split into work units"
  | inr units =>
      store_inputs (snd <$> units) ;;
      r ← call (QueueDo (QSubmit job (fst <$> units)));
      id ← unwrap r;
      r ← call (QueueDo (QJobStatus id));
      status ← unwrap r;
      match status with
      | None => fails 500 "job vanished after submit"
      | Some st => mret (Resp 201 (BJob st))
      end
  end.

Definition job_status_route (id : job_id) (authorization : option string) : H Response :=
  admin authorization ;;
  r ← call (QueueDo (QJobStatus id));
  status ← unwrap r;
  match status with
  | None => fails 404 "unknown job"
  | Some st => mret (Resp 200 (BJob st))
  end.

Definition work_unit_payload (uid : unit_id) (authorization : option string) : H Response :=
  admin authorization ;;
  r ← call (QueueDo (QCompletedRef uid));
  ref ← unwrap r;
  match ref with
  | Some ref =>
      if negb (is_sha256 ref) then fails 404 "work-unit payload not found"
      else
        found ← call (HasResult ref);
        if found : bool then mret (Resp 200 (BFile ref)) else fails 404 "work-unit payload not found"
  | None => fails 404 "work-unit payload not found"
  end.

(** ** Site Mode *)

(** One single-use token per bundle. *)
Fixpoint mint_tokens (count : nat) : H (list string) :=
  match count with
  | O => mret []
  | S count =>
      r ← call (RegDo (RCreateToken "site"));
      token ← unwrap r;
      rest ← mint_tokens count;
      mret (token :: rest)
  end.

Definition join_bundles (count : nat) (authorization : option string) : H Response :=
  if negb (cc_site_enabled cfg) then respond_with (Resp 404 (Detail "Not Found"))
  else
    admin authorization ;;
    tokens ← mint_tokens count;
    mret (Resp 201 (BBundles tokens)).

Fixpoint fleet_rows (live : list AgentSnapshot) (entries : list SiteFleetEntry) : H (list SiteAgentStatus) :=
  match entries with
  | [] => mret []
  | e :: rest =>
      claim ← call (RelayRead (last_claim_of (sf_agent_id e)));
      rows ← fleet_rows live rest;
      mret (fleet_row e (last (filter (λ a, as_agent_id a = sf_agent_id e) live)) claim :: rows)
  end.

Definition fleet_status (authorization : option string) : H Response :=
  if negb (cc_site_enabled cfg) then respond_with (Resp 404 (Detail "Not Found"))
  else
    admin authorization ;;
    now ← call GetNow;
    live ← call (RegRead (snapshots rconfig now));
    entries ← call (RegRead (site_fleet now));
    rows ← fleet_rows live entries;
    mret (Resp 200 (BFleet rows)).

(** ** Background loops *)

(** [DispatchLoop.tick] *)
Definition tick : H Response :=
  r ← call (QueueDo QRequeueExpired);
  mret (match r with inl _ => Crash | inr _ => Resp 200 NoBody end).

(** [_invalidate_offline_relay] *)
Definition invalidate_offline_relay (agent : agent_id) : H unit :=
  if negb (cc_site_enabled cfg) then mret tt
  else
    route ← call (RegRead (site_generation agent));
    match route with
    | None => mret tt
    | Some _ =>
        pending ← call (RelayRead (has_pending agent));
        if negb pending then mret tt
        else
          r ← call (RegDo (RBump agent));
          generation ← unwrap r;
          relay (Invalidate agent generation "offline") ;;
          mret tt
    end.

Fixpoint evict_each (agents : list agent_id) : H unit :=
  match agents with
  | [] => mret tt
  | agent :: rest =>
      r ← call (QueueDo (QRequeueAgent agent));
      unwrap r ;;
      invalidate_offline_relay agent ;;
      evict_each rest
  end.

(** One iteration of [offline_eviction_loop]: an exception ends the sweep, and the
    lock is left either way. *)
Definition offline_eviction : H Response :=
  call Acquire ;;
  now ← call GetNow;
  offline ← call (RegRead (list_offline rconfig now));
  swept ← prog_bind (evict_each offline) (λ r, mret (M := H) r);
  call Release ;;
  mret (match swept with inl _ => Crash | inr _ => Resp 200 NoBody end).
End AdminRoutes.

(** ** Requests *)

Inductive Request :=
  | PostRegister (request : RegisterRequest) (host : string)
  | PostHeartbeat (agent : agent_id) (hb : Heartbeat) (auth : option string)
  | PostEvent (agent : agent_id) (event : AgentEvent) (auth : option string)
  | GetWork (agent : agent_id) (timeout : Q) (auth : option string)
  | PostResult (agent : agent_id) (uid : unit_id) (res : WorkResult) (attempt : Z) (auth : option string)
  | PostPayload (agent : agent_id) (uid : unit_id) (attempt : Z) (stream : list bytes) (auth : option string)
  | GetInput (uid : unit_id) (auth : option string)
  | GetClaim (agent : agent_id) (auth : option string)
  | PostResponse (agent : agent_id) (claim : string) (gen status : Z) (content_type : string)
      (chunks : list bytes) (aborted : bool) (auth : option string)
  | PostFailure (agent : agent_id) (claim : string) (gen : Z) (code : string) (retryable : bool) (auth : option string)
  | PostToken (auth : option string)
  | GetTokens (auth : option string)
  | DeleteToken (id : string) (auth : option string)
  | PostRevoke (agent : agent_id) (auth : option string)
  | PostKey (name : string) (allowlist : option (list model_id)) (rpm daily : option Z) (auth : option string)
  | GetAgents (auth : option string)
  | GetRevoked (auth : option string)
  | GetModels (auth : option string)
  | PostModel (manifest : ModelManifest) (blob_path : string) (blob_exists : bool) (auth : option string)
  | GetFit (agent : agent_id) (model : model_id) (auth : option string)
  | PutAssignments (model : model_id) (agents : list agent_id) (auth : option string)
  | PostFit (model : model_id) (auth : option string)
  | PostJob (job : JobSubmit) (payload : Payload) (auth : option string)
  | GetJob (id : job_id) (auth : option string)
  | GetPayload (uid : unit_id) (auth : option string)
  | PostJoinBundles (count : nat) (auth : option string)
  | GetFleet (auth : option string)
  | DispatchTick
  | EvictionSweep.

Section Requests.
  Context (sha256 : bytes → bytes) (rconfig : RegistryConfig) (cfg : CoordinatorConfig)
          (churn : option ChurnModel) (set_order : list agent_id → list agent_id).

Definition route (r : Request) : H Response :=
  match r with
  | PostRegister req host => register cfg req host
  | PostHeartbeat a hb auth => heartbeat sha256 rconfig cfg a hb auth
  | PostEvent a e auth => events sha256 cfg a e auth
  | GetWork a t auth => work sha256 rconfig cfg churn a t auth
  | PostResult a u res n auth => result sha256 a u res n auth
  | PostPayload a u n stream auth => payload sha256 a u n stream auth
  | GetInput u auth => unit_input sha256 u auth
  | GetClaim a auth => inference_claim sha256 cfg a auth
  | PostResponse a c g st ct chunks ab auth => inference_response sha256 cfg a c g st ct chunks ab auth
  | PostFailure a c g code re auth => inference_failure sha256 cfg a c g code re auth
  | PostToken auth => create_enrollment_token sha256 rconfig auth
  | GetTokens auth => list_enrollment_tokens sha256 rconfig auth
  | DeleteToken id auth => revoke_enrollment_token sha256 rconfig id auth
  | PostRevoke a auth => revoke_agent_route sha256 rconfig cfg a auth
  | PostKey n al rpm dl auth => create_api_key sha256 rconfig n al rpm dl auth
  | GetAgents auth => list_agents sha256 rconfig auth
  | GetRevoked auth => list_revoked sha256 rconfig auth
  | GetModels auth => list_models_route sha256 rconfig auth
  | PostModel m b ex auth => register_model sha256 rconfig m b ex auth
  | GetFit a m auth => agent_fit sha256 rconfig a m auth
  | PutAssignments m l auth => set_assignments_route sha256 rconfig set_order m l auth
  | PostFit m auth => fit_assignments sha256 rconfig m auth
  | PostJob job p auth => submit_job_route sha256 rconfig cfg job p auth
  | GetJob id auth => job_status_route sha256 rconfig id auth
  | GetPayload u auth => work_unit_payload sha256 rconfig u auth
  | PostJoinBundles n auth => join_bundles sha256 rconfig cfg n auth
  | GetFleet auth => fleet_status sha256 rconfig cfg auth
  | DispatchTick => tick
  | EvictionSweep => offline_eviction rconfig cfg
  end.

Definition serve (r : Request) : Prog Call Response := run_handler (route r).
End Requests.
