(* ===== verification/CoordinatorInv.v ===== *)
(** * The coordinator's invariant

    What every interleaving of handlers, background loops and gateway activity
    keeps: each store is in a state its own methods reach; the relay's in-memory
    generation fence never leads the durable generation; relay claims carry
    generations from before their agent's revocation; stored blobs are named by
    their digest.  Each call keeps it under the precondition [permitted], and never
    surprises a task that holds the liveness lock. *)

From S2P Require Import QueueSteps Scheduler RelaySpec RegistrySpec Tasks HttpAuth.
From S2P Require Export AdminRoutes.

(** ** Generations in the broker *)

(** A waiter or a claim of [agent] carries generation [g]. *)
Definition issued (b : Broker) (agent : agent_id) (g : Z) : Prop :=
  (∃ slots f, waiters b !! agent = Some slots ∧ (f, g) ∈ slots) ∨
  (∃ c w, objs b !! c = Some w ∧ w_agent_id w = agent ∧ w_generation w = g).

(** No fence moved and no generation appeared. *)
Definition no_issue (b b' : Broker) : Prop :=
  generation b' = generation b ∧ ∀ agent g, issued b' agent g → issued b agent g.

#[export] Instance no_issue_preorder : PreOrder no_issue.
Proof. split; [by split | intros b1 b2 b3 [A1 A2] [B1 B2]; split; [congruence | auto]]. Qed.

Lemma no_issue_intro b b' :
  generation b' = generation b →
  (∀ a slots' p, waiters b' !! a = Some slots' → p ∈ slots' → ∃ slots, waiters b !! a = Some slots ∧ p ∈ slots) →
  (∀ c w', objs b' !! c = Some w' →
     ∃ w, objs b !! c = Some w ∧ w_agent_id w' = w_agent_id w ∧ w_generation w' = w_generation w) →
  no_issue b b'.
Proof.
  intros Hg Hw Ho. split; [done |]. intros a g [(slots' & f & Hs & Hf) | (c & w' & Hc & <- & <-)].
  - destruct (Hw _ _ _ Hs Hf) as (slots & ? & ?). left. eauto.
  - destruct (Ho _ _ Hc) as (w & ? & -> & ->). right. eauto.
Qed.

Lemma no_issue_futures x b : no_issue b (set_futures x b).
Proof. apply no_issue_intro; [done | eauto | eauto]. Qed.

Lemma no_issue_obj c f b :
  (∀ w, w_agent_id (f w) = w_agent_id w ∧ w_generation (f w) = w_generation w) →
  no_issue b (set_objs (alter f c (objs b)) b).
Proof.
  intros Hf. apply no_issue_intro; [done | eauto |]. intros c' w'. cbn. destruct (decide (c = c')) as [<- |].
  - rewrite lookup_alter_eq. intros (w & -> & ->)%fmap_Some. destruct (Hf w). eauto.
  - rewrite lookup_alter_ne by done. eauto.
Qed.

Lemma no_issue_insert c w w' b :
  objs b !! c = Some w → w_agent_id w' = w_agent_id w → w_generation w' = w_generation w →
  no_issue b (set_objs (<[c := w']> (objs b)) b).
Proof.
  intros Hc Ha Hg. apply no_issue_intro; [done | eauto |]. intros c' x. cbn.
  rewrite lookup_insert_Some. intros [[<- <-] | [_ Hx]]; eauto.
Qed.

Lemma terminate_no_issue c st reason b : no_issue b (terminate c st reason b).1.
Proof.
  unfold terminate. destruct (objs b !! c) as [w |] eqn:Hc; [| done]. destruct (is_terminal_state _); [done |].
  apply no_issue_intro; [done | eauto |]. intros c' x. cbn. rewrite lookup_insert_Some. intros [[<- <-] | [_ Hx]]; eauto.
Qed.

Lemma drop_done_subset futs slots p : p ∈ drop_done futs slots → p ∈ slots.
Proof.
  induction slots as [| [f g] slots IH]; [done |]. cbn. destruct (is_done _); [| done]. intros Hp. right. auto.
Qed.

Lemma waiters_subset agent f b :
  (∀ slots p, p ∈ f slots → p ∈ slots) → no_issue b (set_waiters (alter f agent (waiters b)) b).
Proof.
  intros Hf. apply no_issue_intro; [done | | eauto]. intros a slots' p. cbn. destruct (decide (agent = a)) as [<- |].
  - rewrite lookup_alter_eq. intros (slots & -> & ->)%fmap_Some Hp. eauto.
  - rewrite lookup_alter_ne by done. eauto.
Qed.

Lemma waiters_replace agent slots' b :
  (∀ p, p ∈ slots' → p ∈ default [] (waiters b !! agent)) → no_issue b (set_waiters (<[agent := slots']> (waiters b)) b).
Proof.
  intros Hf. apply no_issue_intro; [done | | eauto]. intros a slots p. cbn.
  rewrite lookup_insert_Some. intros [[<- <-] | [_ Ha]] Hp; [| eauto]. apply Hf in Hp.
  destruct (waiters b !! agent) as [old |]; [eauto | by apply elem_of_nil in Hp].
Qed.

Lemma upload_no_issue agent c gen now body b :
  (∀ w b1, objs b1 !! c = Some w → no_issue b1 (body w b1).1.1) → no_issue b (upload agent c gen now body b).1.1.
Proof.
  intros Hbody. unfold upload. destruct (check agent c gen b) as [e | w] eqn:Hck; [done |].
  assert (Hw : objs b !! c = Some w).
  { unfold check in Hck. destruct (bool_decide (c ∈ works b)); [| by repeat case_match].
    destruct (objs b !! c) as [w0 |]; [| done]. repeat case_match; by simplify_eq. }
  destruct (w_deadline w <=?q now); [| by apply Hbody].
  pose proof (terminate_no_issue c Relay.Failed (Some DEADLINE_EXPIRED) b) as Ht.
  destruct (terminate c _ _ b) as [b' closing] eqn:Heq. cbn in Ht. destruct closing; [done |].
  unfold terminate in Heq. rewrite Hw in Heq. destruct (is_terminal_state (w_state w)); simplify_eq. by apply Hbody.
Qed.

Lemma invalidate_one_no_issue agent newer reason st c : no_issue st.1 (invalidate_one agent newer reason st c).1.
Proof.
  destruct st as [b tasks]. unfold invalidate_one. destruct (objs b !! c) as [w |]; [| done].
  destruct (_ && _); [| done]. pose proof (terminate_no_issue c Invalid (Some reason) b) as Ht.
  by destruct (terminate c _ _ b).
Qed.

Lemma invalidate_loop_no_issue agent newer reason cs st :
  no_issue st.1 (fold_left (invalidate_one agent newer reason) cs st).1.
Proof.
  revert st; induction cs as [| c cs IH]; intros st; cbn; [done |]. etransitivity; [apply invalidate_one_no_issue | apply IH].
Qed.

Lemma offer_no_issue agent port request deadline id b : no_issue b (offer agent port request deadline id b).1.1.
Proof.
  unfold offer. destruct (_ <? _)%Z; [done |]. destruct (_ || _ || _); [done |].
  assert (H1 : no_issue b (set_waiters (alter (drop_done (futures b)) agent (waiters b)) b)).
  { apply waiters_subset. intros slots p. apply drop_done_subset. }
  set (b1 := set_waiters _ b) in *. destruct (default [] (waiters b1 !! agent)) as [| [fut gen] slots] eqn:Hs; [done |].
  assert (H2 : no_issue b1 (set_waiters (<[agent := slots]> (waiters b1)) b1)).
  { apply waiters_replace. intros p Hp. rewrite Hs. by right. }
  etransitivity; [exact H1 |]. set (b2 := set_waiters _ b1) in *.
  destruct (_ <? _)%Z; cbn; [etransitivity; [exact H2 | apply no_issue_futures] |].
  split; [exact (proj1 H2) |]. intros a g [(slots' & f & Hw & Hf) | (c & w & Hc & Ha & Hg)].
  - apply (proj2 H2). left. eauto.
  - cbn [objs] in Hc. rewrite lookup_insert_Some in Hc. destruct Hc as [[<- <-] | [_ Hc]]; [| apply (proj2 H2); right; eauto].
    cbn in Ha, Hg. subst a g. left. destruct (waiters b1 !! agent) as [old |] eqn:Ho; cbn in Hs; [| done]. subst old.
    exists ((fut, gen) :: slots), fut. split; [done | by left].
Qed.

Lemma abandon_no_issue agent fut b : no_issue b (abandon_waiter agent fut b).1.1.
Proof.
  unfold abandon_waiter. set (b1 := set_waiters _ b).
  assert (H1 : no_issue b b1).
  { apply waiters_replace. intros p Hp. by apply list_elem_of_filter in Hp as [_ ?]. }
  change (futures b1) with (futures b). destruct (futures b !! fut) as [[| c |] |]; try done; cbn.
  pose proof (terminate_no_issue c Relay.Failed (Some "cancelled") b1) as Ht. destruct (terminate c _ _ b1). cbn in *.
  by etransitivity.
Qed.

Lemma wait_timeout_no_issue fut b : no_issue b (wait_timeout fut b).
Proof. unfold wait_timeout. destruct (futures b !! fut) as [[] |]; done. Qed.

Lemma terminating_no_issue c st reason (tasks : bool → list Task) b :
  no_issue b (let '(b', closing) := terminate c st reason b in (b', tasks closing, @None RelayError)).1.1.
Proof. pose proof (terminate_no_issue c st reason b) as Ht. by destruct (terminate c st reason b). Qed.

Lemma next_no_issue c b b' r : next_chunk c b = Some (b', r) → no_issue b b'.
Proof.
  unfold next_chunk. intros Hn. destruct (objs b !! c) as [w |] eqn:Hw; [| done]. cbn in Hn.
  destruct (stream_read (w_stream w)) as [[s x] |]; [| done]. cbn in Hn. simplify_eq. by apply no_issue_insert with w.
Qed.

(** Only a claim and a fence raise generations. *)
Definition raises (c : Relay.Call) : bool :=
  match c with ClaimCall _ _ _ | Invalidate _ _ _ => true | _ => false end.

Lemma run_call_no_issue c now b : raises c = false → no_issue b (Relay.run_call c now b).1.1.
Proof.
  destruct c; intros Hr; cbn in Hr |- *; try done.
  - apply offer_no_issue.
  - apply wait_timeout_no_issue.
  - apply abandon_no_issue.
  - apply upload_no_issue. intros w b1 Hw. destruct (negb _); [done |]. by apply no_issue_insert with w.
  - unfold Relay.write. destruct (_ <? _)%Z; [done |]. apply upload_no_issue. intros w b1 Hw. by destruct (negb _).
  - apply upload_no_issue. intros w b1 Hw. destruct (negb _); [done |].
    apply (terminating_no_issue _ _ _ (λ closing, close_task closing claim "eof")).
  - unfold Relay.fail. destruct (negb _); [done |]. apply upload_no_issue. intros w b1 Hw.
    apply (terminating_no_issue _ _ _ (λ closing, close_task closing claim code)).
  - unfold disconnect. pose proof (terminate_no_issue claim Invalid (Some "client_disconnect") b) as Ht.
    by destruct (terminate claim _ _ b).
  - destruct (next_chunk claim b) as [[b' r] |] eqn:Hn; [| done]. by eapply next_no_issue.
Qed.

Lemma run_task_no_issue t now b b' tasks : Relay.run_task t now b = Some (b', tasks) → no_issue b b'.
Proof.
  destruct t as [c terminal | c chunk deadline | c]; cbn.
  - intros [= <- <-]. by apply no_issue_obj.
  - destruct (objs b !! c) as [w |] eqn:Hw; [| done]. cbn. destruct (stream_write _ _ _ _) as [s r].
    destruct r; intros ?; simplify_eq; by apply no_issue_insert with w.
  - intros [= Ht]. unfold deadline_terminate in Ht. destruct (bool_decide _); [| by simplify_eq].
    pose proof (terminate_no_issue c Relay.Failed (Some DEADLINE_EXPIRED) b) as Hn.
    destruct (terminate c _ _ b) as [b1 closing]. by simplify_eq.
Qed.

(** What a claim and a fence add. *)
Lemma claim_issue agent gen fut b :
  let b' := (Relay.claim agent gen fut b).1.1 in
  (∀ a g, issued b' a g → issued b a g ∨ a = agent ∧ g = gen) ∧
  (∀ a f, generation b' !! a = Some f →
     generation b !! a = Some f ∨ a = agent ∧ f = Z.max (default 0%Z (generation b !! agent)) gen).
Proof.
  unfold Relay.claim. destruct (_ <? _)%Z; cbn; [by auto |]. split.
  - intros a g [(slots & f & Hw & Hf) | ?]; [| left; right; done]. cbn in Hw.
    rewrite lookup_insert_Some in Hw. destruct Hw as [[<- <-] | [_ Hw]]; [| left; left; eauto].
    apply elem_of_app in Hf as [Hf | Hf%list_elem_of_singleton]; [| simplify_eq; by right].
    left. left. destruct (waiters b !! agent) as [old |] eqn:Ho; [| by apply elem_of_nil in Hf]. eauto.
  - intros a f. rewrite lookup_insert_Some. intros [[<- <-] | [_ ?]]; auto.
Qed.

Lemma invalidate_issue agent newer reason b :
  let b' := (invalidate_agent agent newer reason b).1 in
  (∀ a g, issued b' a g → issued b a g) ∧
  (∀ a f, generation b' !! a = Some f →
     generation b !! a = Some f ∨ a = agent ∧ f = Z.max (default 0%Z (generation b !! agent)) newer).
Proof.
  unfold invalidate_agent. set (b1 := set_generation _ b).
  pose proof (invalidate_loop_no_issue agent newer reason (works b1) (b1, [])) as [Hg Hi].
  destruct (fold_left _ _ _) as [b2 tasks]. cbn [fst] in *.
  assert (H3 : no_issue b2 (set_waiters
    (if bool_decide (filter (λ p, (newer ≤ p.2)%Z) (default [] (waiters b2 !! agent)) = [])
     then delete agent (waiters b2)
     else <[agent := filter (λ p, (newer ≤ p.2)%Z) (default [] (waiters b2 !! agent))]> (waiters b2)) b2)).
  { destruct (bool_decide _).
    - apply no_issue_intro; [done | | eauto]. intros a slots p. cbn. rewrite lookup_delete_Some. intros [_ ?]; eauto.
    - apply waiters_replace. intros p Hp. by apply list_elem_of_filter in Hp as [_ ?]. }
  split.
  - intros a g Hiss. assert (issued b1 a g) by (apply Hi, (proj2 H3); exact Hiss). done.
  - intros a f. cbn. rewrite Hg. cbn. rewrite lookup_insert_Some. intros [[<- <-] | [_ ?]]; auto.
Qed.

(** ** The registry's agents under a call *)

(** The row a call updates, and how. *)
Definition reg_touch (c : RCall) : option (agent_id * (AgentRow → AgentRow)) :=
  match c with
  | RevokeAgent a now => Some (a, with_revoked now)
  | HeartbeatCall a hb now => Some (a, with_heartbeat hb now)
  | SetState a st now => Some (a, λ row,
      with_presence st (ar_serving_paused row) (ar_presence_sequence row) (ar_presence_generation row) now row)
  | Presence a kind seq now => Some (a, present_row kind seq now)
  | Bump a => Some (a, λ row,
      with_presence (ar_state row) (ar_serving_paused row) (ar_presence_sequence row)
        (ar_presence_generation row + 1) (ar_last_seen row) row)
  | _ => None
  end.

Lemma assign_each_agents agent models d :
  r_agents (for_each (λ m, modify (assign_one agent m)) models d : RDb * (RegistryError + unit)).1 = r_agents d.
Proof.
  revert d; induction models as [| m models IH]; intros d; [done |]. cbn [for_each].
  unfold mbind at 1, eff_bind at 1, modify at 1. cbv beta iota. rewrite IH. unfold assign_one. by destruct (_ || _).
Qed.

Lemma save_quotas_agents items d : r_agents (save_quota_snapshots items d).1 = r_agents d.
Proof.
  unfold save_quota_snapshots. revert d; induction items as [| q items IH]; intros d; [done |]. cbn [for_each].
  unfold mbind, eff_bind, gets, modify. cbv beta iota. destruct (missing _ _); [done |]. etransitivity; [apply IH | done].
Qed.

Lemma presence_state_eq a kind seq now d :
  r_agents (apply_presence_event a kind seq now d).1 = r_agents d ∨
  r_agents (apply_presence_event a kind seq now d).1 = od_alter (present_row kind seq now) a (r_agents d).
Proof.
  unfold apply_presence_event. destruct (_ || _); [by left |]. right.
  unfold mbind, eff_bind, gets, modify. cbv beta iota. by destruct (generation_of a _).
Qed.

Lemma bump_state a d :
  (bump_presence_generation a d).1 =
  on_agents (od_alter (λ row, with_presence (ar_state row) (ar_serving_paused row) (ar_presence_sequence row)
    (ar_presence_generation row + 1) (ar_last_seen row) row) a) d.
Proof.
  unfold bump_presence_generation. unfold mbind at 1, eff_bind at 1.
  pose proof (update_agent_state a (λ row, with_presence (ar_state row) (ar_serving_paused row)
    (ar_presence_sequence row) (ar_presence_generation row + 1) (ar_last_seen row) row) d) as Hs.
  by destruct (update_agent _ _ d) as [d1 [e | u]].
Qed.

(** Where the agents' table changes, if at all. *)
Lemma reg_call_agents sha256 config c d :
  reg_ok d →
  r_agents (reg_call sha256 config c d) = r_agents d ∨
  (∃ a f, reg_touch c = Some (a, f) ∧ r_agents (reg_call sha256 config c d) = od_alter f a (r_agents d)) ∨
  (∃ a row, od_get a (r_agents d) = None ∧ ar_revoked_at row = None ∧
     r_agents (reg_call sha256 config c d) = r_agents d ++ [(a, row)]).
Proof.
  intros Hok. destruct c; cbn [reg_call reg_touch].
  - left. unfold Registry.create_enrollment_token. destruct (mode_of mode); [| done].
    unfold mbind, eff_bind, gets, modify. cbv beta iota. by destruct (missing _ _).
  - left. unfold Registry.revoke_enrollment_token. destruct (normalize_token_id id); [done |].
    unfold mbind, eff_bind, gets, modify. cbv beta iota. by destruct (token_matches_of _ d) as [| h [| ? ?]].
  - right; left. do 2 eexists. split; [done |]. unfold revoke_agent. by rewrite update_agent_state.
  - left. unfold Registry.create_api_key. destruct (_ || _); [done |].
    unfold mbind, eff_bind, gets, modify. cbv beta iota. by destruct (missing _ _).
  - destruct (register_cases sha256 config request host now agent device_token d Hok)
      as [(e & -> & _) | (t & resp & _ & _ & Hn & -> & _)]; [by left |].
    right; right. by exists agent, (new_agent sha256 (rr_caps request) host device_token (tk_mode t) now).
  - right; left. do 2 eexists. split; [done |]. unfold record_heartbeat. by rewrite update_agent_state.
  - right; left. do 2 eexists. split; [done |]. unfold set_agent_state. by rewrite update_agent_state.
  - destruct (presence_state_eq agent kind seq now d) as [-> | ->]; [by left |]. right; left. by do 2 eexists.
  - right; left. do 2 eexists. split; [done |]. by rewrite bump_state.
  - left. apply save_quotas_agents.
  - by left.
  - left. unfold set_assignments. unfold mbind at 1, eff_bind at 1, modify at 1. cbv beta iota. by rewrite assign_each_agents.
Qed.

Lemma reg_call_rows sha256 config c d a row' :
  reg_ok d → od_get a (r_agents (reg_call sha256 config c d)) = Some row' →
  (∃ row, od_get a (r_agents d) = Some row ∧ (row' = row ∨ ∃ f, reg_touch c = Some (a, f) ∧ row' = f row)) ∨
  od_get a (r_agents d) = None ∧ ar_revoked_at row' = None.
Proof.
  intros Hok. destruct (reg_call_agents sha256 config c d Hok) as [-> | [(a0 & f & Ht & ->) | (a0 & row0 & Hn & Hr & ->)]].
  - left. eauto.
  - rewrite od_get_alter. destruct (bool_decide (a = a0)) eqn:Ha; [| left; eauto]. reflect_bools. subst a0.
    intros (row & Hrow & ->)%fmap_Some. left. exists row. split; [done |]. right. eauto.
  - rewrite od_get_app. destruct (od_get a (r_agents d)) as [row |] eqn:Hg; [intros [= <-]; left; eauto |].
    cbn. destruct (bool_decide (a = a0)); [intros [= <-] | done]. by right.
Qed.

(** An agent that stays silent stays offline. *)
Lemma is_offline_later rconfig t t' row row' :
  (t ≤ t')%Z → ar_last_seen row' = ar_last_seen row → is_offline rconfig t row = true → is_offline rconfig t' row' = true.
Proof.
  intros Ht Hs. unfold is_offline, age_s. rewrite Hs. intros Hoff. reflect_bools. apply Qlt_bool_true.
  eapply Qlt_le_trans; [exact Hoff |]. unfold Qdiv. apply Qmult_le_compat_r; [| by vm_compute]. rewrite <- Zle_Qle. lia.
Qed.

(** ** Who a request is *)

Definition auth_of (r : Request) : option string :=
  match r with
  | PostHeartbeat _ _ auth | PostEvent _ _ auth | GetWork _ _ auth | PostResult _ _ _ _ auth
  | PostPayload _ _ _ _ auth | GetInput _ auth | GetClaim _ auth | PostResponse _ _ _ _ _ _ _ auth
  | PostFailure _ _ _ _ _ auth | PostToken auth | GetTokens auth | DeleteToken _ auth | PostRevoke _ auth
  | PostKey _ _ _ _ auth | GetAgents auth | GetRevoked auth | GetModels auth | PostModel _ _ _ auth
  | GetFit _ _ auth | PutAssignments _ _ auth | PostFit _ auth | PostJob _ _ auth | GetJob _ auth
  | GetPayload _ auth | PostJoinBundles _ auth | GetFleet auth => auth
  | PostRegister _ _ | DispatchTick | EvictionSweep => None
  end.

Section Invariant.
  Context (sha256 : bytes → bytes) (rconfig : RegistryConfig) (cfg : CoordinatorConfig) (mb : Z).
  Notation hash := (hash_token sha256).
  Notation agents s := (r_agents (app_reg s)).
  Notation broker s := (Relay.w_broker (app_relay s)).

(** The request carries the device token of [agent]. *)
Definition speaks_for (r : Request) (agent : agent_id) (s : App) : Prop :=
  ∃ token row, extract_bearer (auth_of r) = Some token ∧
    od_get agent (agents s) = Some row ∧ ar_device_token_hash row = hash token.

(** The request carries the operator's key. *)
Definition is_operator (r : Request) : Prop :=
  ∃ token, extract_bearer (auth_of r) = Some token ∧ hash token = hash (rc_admin_key rconfig).

(** [g] is at most the durable generation of [agent], and at most the one it had
    when it was revoked. *)
Definition durable (agent : agent_id) (g : Z) (s : App) : Prop :=
  ∃ row, od_get agent (agents s) = Some row ∧ (g ≤ ar_presence_generation row)%Z.

Definition before_revocation (agent : agent_id) (g : Z) (s : App) : Prop :=
  ∀ g', app_revoked_gen s !! agent = Some g' → (g ≤ g')%Z.

Definition offline_now (agent : agent_id) (s : App) : Prop :=
  ∃ row, od_get agent (agents s) = Some row ∧ is_offline rconfig (app_clock s) row = true.

(** ** The invariant *)

Record app_ok (s : App) : Prop := {
  ao_queue : QueueSteps.reachable (cc_max_attempts cfg) (cc_default_lease_s cfg) (app_queue s);
  ao_reg : reg_reachable sha256 rconfig (app_reg s);
  ao_relay : Relay.reachable mb (app_relay s);
  ao_fence a g : generation (broker s) !! a = Some g → durable a g s;
  ao_issued a g : issued (broker s) a g → before_revocation a g s;
  ao_revoked a row : od_get a (agents s) = Some row → ar_revoked_at row ≠ None → is_Some (app_revoked_gen s !! a);
  ao_history a g : app_revoked_gen s !! a = Some g →
    ∃ row, od_get a (agents s) = Some row ∧ ar_revoked_at row ≠ None ∧ (g ≤ ar_presence_generation row)%Z;
  ao_inputs n b : app_inputs s !! n = Some b → n = hexdigest sha256 b;
  ao_results n b : app_results s !! n = Some b → n = hexdigest sha256 b
}.

(** ** How the state may change *)

Record app_grows (s s' : App) : Prop := {
  ag_reg : reg_grows (app_reg s) (app_reg s');
  ag_relay : bevolves (broker s) (broker s');
  ag_clock : (app_clock s ≤ app_clock s')%Z;
  ag_history a g : app_revoked_gen s !! a = Some g → app_revoked_gen s' !! a = Some g;
  ag_late a row g : od_get a (agents s) = Some row → app_revoked_gen s !! a = None →
    app_revoked_gen s' !! a = Some g → (ar_presence_generation row ≤ g)%Z;
  ag_inputs : app_inputs s ⊆ app_inputs s';
  ag_results : app_results s ⊆ app_results s'
}.

(** No agent was heard from. *)
Definition unheard (s s' : App) : Prop :=
  ∀ a row, od_get a (agents s) = Some row →
    ∃ row', od_get a (agents s') = Some row' ∧ ar_last_seen row' = ar_last_seen row.

Definition app_rely (i : nat) (s s' : App) : Prop :=
  app_grows s s' ∧ (app_lock s = Some i → app_lock s' = Some i ∧ unheard s s').

#[export] Instance app_grows_preorder : PreOrder app_grows.
Proof.
  split.
  - intros s. split; try done. congruence.
  - intros s1 s2 s3 [A1 A2 A3 A4 A5 A6 A7] [B1 B2 B3 B4 B5 B6 B7]. split; [| by etransitivity | lia | eauto | | by etransitivity | by etransitivity].
    + by etransitivity.
    + intros a row g Hr Hn Hg. destruct (gr_agents _ _ A1 a row Hr) as (row2 & Hr2 & E).
      pose proof (rg_generation _ _ E). destruct (app_revoked_gen s2 !! a) as [g2 |] eqn:H2.
      * pose proof (A5 a row g2 Hr Hn H2). rewrite (B4 a g2 H2) in Hg. simplify_eq. lia.
      * pose proof (B5 a row2 g Hr2 H2 Hg). lia.
Qed.

#[export] Instance app_rely_preorder i : PreOrder (app_rely i).
Proof.
  split.
  - intros s. split; [done |]. intros Hl. split; [done |]. intros a row Hr. by exists row.
  - intros s1 s2 s3 [A1 A2] [B1 B2]. split; [by etransitivity |]. intros Hl.
    destruct (A2 Hl) as [Hl2 U1]. destruct (B2 Hl2) as [Hl3 U2]. split; [done |]. intros a row Hr.
    destruct (U1 a row Hr) as (r2 & Hr2 & E). destruct (U2 a r2 Hr2) as (r3 & ? & ?). exists r3. split; [done | congruence].
Qed.

Lemma rely_grows i s s' : app_rely i s s' → app_grows s s'.
Proof. by intros []. Qed.

(** *** Facts that last *)

Lemma speaks_for_grows r a s s' : app_grows s s' → speaks_for r a s → speaks_for r a s'.
Proof.
  intros G (token & row & Ht & Hr & Hh). destruct (gr_agents _ _ (ag_reg _ _ G) a row Hr) as (row' & Hr' & E).
  exists token, row'. split_and!; [done | done |]. by rewrite (rg_hash _ _ E).
Qed.

Lemma durable_grows a g s s' : app_grows s s' → durable a g s → durable a g s'.
Proof.
  intros G (row & Hr & Hg). destruct (gr_agents _ _ (ag_reg _ _ G) a row Hr) as (row' & Hr' & E).
  pose proof (rg_generation _ _ E). exists row'. split; [done | lia].
Qed.

Lemma before_grows a g s s' : app_grows s s' → durable a g s → before_revocation a g s → before_revocation a g s'.
Proof.
  intros G (row & Hr & Hg) Hb g' Hg'. destruct (app_revoked_gen s !! a) as [g0 |] eqn:H0.
  - rewrite (ag_history _ _ G a g0 H0) in Hg'. simplify_eq. by apply Hb.
  - pose proof (ag_late _ _ G a row g' Hr H0 Hg'). lia.
Qed.

Lemma fenced_grows a g s s' : app_grows s s' → fenced a g (broker s) → fenced a g (broker s').
Proof. intros G. apply fenced_evolves, (ag_relay _ _ G). Qed.

Lemma ok_broker s : app_ok s → broker_ok (broker s).
Proof. intros Hs. apply (RelaySpec.reachable_ok mb _ (ao_relay _ Hs)). Qed.

Lemma ok_reg s : app_ok s → reg_ok (app_reg s).
Proof. intros Hs. eapply reg_reachable_ok, (ao_reg _ Hs). Qed.

(** Generations in the broker are durable: a waiter's and a claim's are below the
    fence. *)
Lemma issued_durable s a g : app_ok s → issued (broker s) a g → durable a g s.
Proof.
  intros Hs Hi. assert (∃ f, generation (broker s) !! a = Some f ∧ (g ≤ f)%Z) as (f & Hf & Hg).
  { destruct Hi as [(slots & f & Hw & Hin) | (c & w & Hc & <- & <-)].
    - by destruct (bo_waiters _ (ok_broker s Hs) _ _ _ _ Hw Hin) as [? _].
    - by apply (bo_gen _ (ok_broker s Hs) c w). }
  destruct (ao_fence _ Hs a f Hf) as (row & Hr & ?). exists row. split; [done | lia].
Qed.
End Invariant.
