(* ===== verification/CoordinatorSound.v ===== *)
(** * Every call keeps the coordinator's invariant

    Under its precondition a call preserves [app_ok], lets the state grow only as
    [app_grows] says, and leaves alone what another task protects with the
    liveness lock; so do the parts of the coordinator that run beside the handlers:
    the gateway's use of the relay, quota snapshots and document ingestion. *)

From S2P Require Import QueueSteps RelaySpec RegistrySpec Tasks HttpAuth.
From S2P Require Export CoordinatorInv.

(** ** Calls as steps of their stores *)

Definition rcall_of {X} (env : Env) (o : RegOp X) : RCall :=
  match o with
  | RRegister req host => Register req host (e_now env) (e_uuid env) (e_token env)
  | RHeartbeat a hb => HeartbeatCall a hb (e_now env)
  | RSetState a st => SetState a st (e_now env)
  | RPresence a kind seq => Presence a kind seq (e_now env)
  | RBump a => Bump a
  | RRevoke a => RevokeAgent a (e_now env)
  | RSetAssignments a ms => SetAssignments a ms
  | RCreateToken mode => CreateToken mode (e_token env) (e_now env)
  | RRevokeToken id => RevokeToken id (e_now env)
  | RCreateKey n al rpm dl => CreateKey n al rpm dl (e_token env) (e_now env)
  | RPutModel m blob => PutModel m blob true (e_now env)
  end.

Lemma run_reg_call {X} sha256 rconfig env (o : RegOp X) d :
  (run_reg sha256 rconfig env o d).1 = reg_call sha256 rconfig (rcall_of env o) d.
Proof. by destruct o. Qed.

Lemma eff_discard {S E A} (m : Eff S E A) s s' r : m s = (s', r) → ∃ r', (m ;; mret tt) s = (s', r').
Proof. unfold mbind, eff_bind. intros ->. destruct r; by eexists. Qed.

Lemma run_queue_step {X} cfg env (o : QueueOp X) d d' r :
  jobs d !! e_uuid env = None → run_queue cfg env o d = (d', r) →
  rtc (queue_step (cc_max_attempts cfg) (cc_default_lease_s cfg)) d d'.
Proof.
  intros Hf. assert (Hstep : ∀ (c : qcall) (A : Type) (m : Eff Db QueueError A) r0,
    fresh_id_ok d c → m d = (d', r0) →
    QueueSteps.run_call (cc_max_attempts cfg) (cc_default_lease_s cfg) (e_rows env) c = (m ;; mret tt) →
    rtc (queue_step (cc_max_attempts cfg) (cc_default_lease_s cfg)) d d').
  { intros c A m r0 Hc Hm Hrun. destruct (eff_discard m d d' r0 Hm) as [r' Hr]. apply rtc_once. exists c.
    apply (qstep_intro _ _ c d d' (e_rows env) r'); [done |]. by rewrite Hrun. }
  destruct o; cbn [run_queue]; intros Hrun.
  - by eapply (Hstep (LeaseNext agent models (e_now env))).
  - unfold backup_candidates, mret, eff_ret, gets in Hrun. destruct models; by injection Hrun as <- <-.
  - by eapply (Hstep (LeaseBackup agent uid (e_now env))).
  - by eapply (Hstep (CompleteUnit agent attempt result (e_now env))).
  - by injection Hrun as <- <-.
  - by eapply (Hstep (BindResultPayload agent uid attempt digest ref (e_now env))).
  - by eapply (Hstep (RequeueAgent agent (e_now env))).
  - by eapply (Hstep (RequeueExpired (e_now env))).
  - by eapply (Hstep (SubmitJob job units false (e_uuid env) (e_now env))).
  - by injection Hrun as <- <-.
  - by injection Hrun as <- <-.
Qed.

Lemma remove_first_split t l rest : remove_first t l = Some rest → ∃ l1 l2, l = l1 ++ t :: l2 ∧ rest = l1 ++ l2.
Proof.
  revert rest; induction l as [| t' l IH]; intros rest; cbn; [done |].
  destruct (bool_decide (t' = t)) eqn:Ht; reflect_bools.
  - intros [= <-]. subst. by exists [], l.
  - intros (rest' & Hr & ->)%fmap_Some. destruct (IH rest' Hr) as (l1 & l2 & -> & ->). by exists (t' :: l1), l2.
Qed.

Section Sound.
  Context (sha256 : bytes → bytes) (rconfig : RegistryConfig) (cfg : CoordinatorConfig) (mb : Z).
  Notation agents s := (r_agents (app_reg s)).
  Notation broker s := (Relay.w_broker (app_relay s)).
  Notation app_ok := (app_ok sha256 rconfig cfg mb).
  Notation speaks_for := (speaks_for sha256).
  Notation is_operator := (is_operator sha256 rconfig).

(** ** Preconditions *)

(** The agent a route is for. *)
Definition path_agent (r : Request) : option agent_id :=
  match r with
  | PostHeartbeat a _ _ | PostEvent a _ _ | GetWork a _ _ | PostResult a _ _ _ _ | PostPayload a _ _ _ _
  | GetClaim a _ | PostResponse a _ _ _ _ _ _ _ | PostFailure a _ _ _ _ _ => Some a
  | _ => None
  end.

(** A request that has authenticated, a registration, or an iteration of a
    background loop. *)
Definition admitted (r : Request) (s : App) : Prop :=
  (∃ a, speaks_for r a s) ∨ is_operator r ∨ (∃ req host, r = PostRegister req host) ∨ r = DispatchTick ∨ r = EvictionSweep.

(** The request carries the device token of the agent its path names. *)
Definition speaks_for_path (r : Request) (s : App) : Prop := ∃ a, path_agent r = Some a ∧ speaks_for r a s.

(** What a request must have shown before a call made for it. *)
Definition reg_permitted {X} (r : Request) (i : nat) (o : RegOp X) (s : App) : Prop :=
  match o with
  | RHeartbeat a _ | RSetState a _ | RPresence a _ _ => app_lock s = Some i ∧ speaks_for r a s
  | RBump a => speaks_for r a s ∨ is_operator r ∨ r = EvictionSweep
  | RSetAssignments _ _ => is_operator r ∨ ∃ req host, r = PostRegister req host
  | RRegister _ _ => ∃ req host, r = PostRegister req host
  | RRevoke _ | RCreateToken _ | RRevokeToken _ | RCreateKey _ _ _ _ | RPutModel _ _ => is_operator r
  end.

Definition queue_permitted {X} (r : Request) (i : nat) (o : QueueOp X) (s : App) : Prop :=
  match o with
  | QLeaseNext a _ | QBackupCandidates a _ _ | QLeaseBackup a _ | QComplete a _ _ | QUploadAttempt a _
  | QBind a _ _ _ _ => speaks_for r a s
  | QRequeueAgent a => r = EvictionSweep ∧ app_lock s = Some i ∧ offline_now rconfig a s
  | QRequeueExpired => r = DispatchTick
  | QSubmit _ _ | QJobStatus _ | QCompletedRef _ => is_operator r
  end.

Definition relay_permitted (r : Request) (c : Relay.Call) (s : App) : Prop :=
  match c with
  | Invalidate a g _ => durable a g s ∧ (speaks_for r a s ∨ is_operator r ∨ r = EvictionSweep)
  | Abandon a _ | StartResponse a _ _ _ _ | Write a _ _ _ | Finish a _ _ | Fail_ a _ _ _ => speaks_for r a s
  | _ => False
  end.

(** Before a request has authenticated it may read the clock and look up the token
    it carries, and nothing else. *)
Definition permitted (r : Request) (i : nat) X (c : Call X) (s : App) : Prop :=
  match c with
  | GetNow | GetMonotonic | SleepUntil _ => True
  | AuthAgent _ token | AuthKey _ _ token => extract_bearer (auth_of r) = Some token
  | RegDo o => reg_permitted r i o s
  | QueueDo o => queue_permitted r i o s
  | RelayDo c => relay_permitted r c s
  | RelayClaim a g => speaks_for r a s ∧ durable a g s ∧ before_revocation a g s
  | StoreInput name blob => is_operator r ∧ name = hexdigest sha256 blob
  | ResultsPut _ | ReadInput _ | AwaitFuture _ => ∃ a, speaks_for r a s
  | WriteEvent _ | ApplyOverride _ | MarkFlag _ => speaks_for_path r s
  | OverrideFor a => speaks_for r a s
  | HasResult _ => is_operator r
  | Acquire | Release | RegRead _ | RelayRead _ | RelayTask _ => admitted r s
  end.

Lemma admitted_agent r a s : speaks_for r a s → admitted r s.
Proof. left. by exists a. Qed.
Lemma admitted_operator r s : is_operator r → admitted r s.
Proof. right. by left. Qed.
Lemma admitted_register req host s : admitted (PostRegister req host) s.
Proof. do 2 right. left. by do 2 eexists. Qed.
Lemma admitted_loop r s : r = DispatchTick ∨ r = EvictionSweep → admitted r s.
Proof. by do 3 right. Qed.
Lemma path_speaker r a s : path_agent r = Some a → speaks_for r a s → speaks_for_path r s.
Proof. by exists a. Qed.

Lemma relay_permitted_admitted r c s : relay_permitted r c s → admitted r s.
Proof. unfold admitted. destruct c; cbn; naive_solver. Qed.

(** ** Pieces of a step *)

Definition steps_ok (i : nat) (s s' : App) : Prop :=
  app_ok s' ∧ app_grows s s' ∧ ∀ j, j ≠ i → app_rely j s s'.

Lemma steps_ok_intro i s s' :
  app_ok s' → app_grows s s' → app_lock s' = app_lock s → unheard s s' ∨ app_lock s = Some i → steps_ok i s s'.
Proof.
  intros Hok Hg Hl Hu. split_and!; [done | done |]. intros j Hj. split; [done |]. intros Hlj.
  destruct Hu as [Hu | Hi]; [by rewrite Hl | congruence].
Qed.

Lemma steps_ok_trans i s1 s2 s3 : steps_ok i s1 s2 → (app_ok s2 → steps_ok i s2 s3) → steps_ok i s1 s3.
Proof.
  intros (A1 & A2 & A3) H23. destruct (H23 A1) as (B1 & B2 & B3).
  split_and!; [done | by etransitivity | intros j Hj; etransitivity; [by apply A3 | by apply B3]].
Qed.

Lemma unheard_same s s' : agents s' = agents s → unheard s s'.
Proof. intros Ha a row Hr. exists row. by rewrite Ha. Qed.

Lemma steps_ok_refl i s : app_ok s → steps_ok i s s.
Proof. intros Hok. apply steps_ok_intro; [done | done | done |]. left. by apply unheard_same. Qed.

(** A change outside the stores. *)
Lemma steps_ok_frame i s s' :
  app_ok s → app_reg s' = app_reg s → app_queue s' = app_queue s → app_relay s' = app_relay s →
  app_revoked_gen s' = app_revoked_gen s → app_lock s' = app_lock s → (app_clock s ≤ app_clock s')%Z →
  app_inputs s ⊆ app_inputs s' → app_results s ⊆ app_results s' →
  (∀ n b, app_inputs s' !! n = Some b → n = hexdigest sha256 b) →
  (∀ n b, app_results s' !! n = Some b → n = hexdigest sha256 b) → steps_ok i s s'.
Proof.
  intros [O1 O2 O3 O4 O5 O6 O7 O8 O9] Hr Hq Hw Hh Hl Hc Hi Hre Hin Hres.
  apply steps_ok_intro; [| | done | left; apply unheard_same; congruence].
  - split; rewrite ?Hr, ?Hq, ?Hw, ?Hh; try done; unfold durable, before_revocation; rewrite ?Hr, ?Hh; done.
  - split; rewrite ?Hr, ?Hw, ?Hh; try done. congruence.
Qed.

Lemma clock_steps i s t : app_ok s → (app_clock s ≤ t)%Z → steps_ok i s (set_clock t s).
Proof. intros Hok Ht. apply steps_ok_frame; try done; apply Hok. Qed.

(** *** The registry *)

Lemma reg_steps i s c :
  app_ok s → (∀ a now, c ≠ RevokeAgent a now) →
  (app_lock s = Some i ∨ ∀ a f row, reg_touch c = Some (a, f) → ar_last_seen (f row) = ar_last_seen row) →
  steps_ok i s (set_reg (reg_call sha256 rconfig c (app_reg s)) s).
Proof.
  intros Hok Hc Hseen. pose proof (ok_reg _ _ _ _ s Hok) as Hreg.
  destruct (reg_call_ok sha256 rconfig c (app_reg s) Hreg) as [Hreg' Hgrow].
  set (s' := set_reg _ s).
  assert (Hg : app_grows s s').
  { split; try done. cbn. intros a row g _ Hn. congruence. }
  apply steps_ok_intro; [| done | done |].
  - destruct Hok as [O1 O2 O3 O4 O5 O6 O7 O8 O9]. split; try done; cbn.
    + apply (rtc_r _ (app_reg s)); [done | by exists c].
    + intros a g Hf. apply (durable_grows a g s s' Hg). by apply O4.
    + intros a row' Hr' Hrev. destruct (reg_call_rows _ _ c _ a row' Hreg Hr') as [(row & Hr & Hcase) | [_ Hn]]; [| done].
      apply (O6 a row); [done |]. destruct Hcase as [-> | (f & Ht & ->)]; [done |].
      destruct c; cbn in Ht; simplify_eq; cbn in *; try done; [by destruct (Hc a now) |].
      unfold present_row in Hrev. by destruct (_ <? _)%Z.
    + intros a g Hh. destruct (O7 a g Hh) as (row & Hr & Hrev & Hle).
      destruct (gr_agents _ _ Hgrow a row Hr) as (row' & Hr' & E). exists row'. split_and!; [done | | pose proof (rg_generation _ _ E); lia].
      destruct (ar_revoked_at row) as [at_ |] eqn:Ha; [| done]. by rewrite (rg_revoked _ _ E at_ Ha).
  - destruct Hseen as [? | Hseen]; [by right |]. left. intros a row Hr.
    destruct (gr_agents _ _ Hgrow a row Hr) as (row' & Hr' & E). exists row'. split; [done |].
    destruct (reg_call_rows _ _ c _ a row' Hreg Hr') as [(row0 & Hr0 & Hcase) | [Hn _]]; simplify_eq.
    destruct Hcase as [-> | (f & Ht & ->)]; [done |]. by eapply Hseen.
Qed.

Lemma revoke_steps i s a now :
  app_ok s →
  steps_ok i s (set_reg (reg_call sha256 rconfig (RevokeAgent a now) (app_reg s)) (note_revoked (RRevoke a) s)).
Proof.
  intros Hok. pose proof (ok_reg _ _ _ _ s Hok) as Hreg.
  destruct (reg_call_ok sha256 rconfig (RevokeAgent a now) (app_reg s) Hreg) as [Hreg' Hgrow].
  set (d' := reg_call _ _ _ _) in *. set (s' := set_reg d' _).
  assert (Hh : app_revoked_gen s' = match od_get a (agents s) with
    | Some row => if bool_decide (ar_revoked_at row = None)
                  then <[a := ar_presence_generation row]> (app_revoked_gen s) else app_revoked_gen s
    | None => app_revoked_gen s end).
  { unfold s', note_revoked. destruct (od_get a (agents s)) as [row |]; [| done]. by destruct (bool_decide _). }
  assert (Hlock : app_lock s' = app_lock s ∧ app_clock s' = app_clock s ∧ app_relay s' = app_relay s ∧
                  app_queue s' = app_queue s ∧ app_inputs s' = app_inputs s ∧ app_results s' = app_results s).
  { unfold s', note_revoked. destruct (od_get a (agents s)) as [row |]; [| done]. by destruct (bool_decide _). }
  destruct Hlock as (Hl & Hcl & Hrel & Hq & Hin & Hres).
  assert (Hold : ∀ a' g, app_revoked_gen s !! a' = Some g → app_revoked_gen s' !! a' = Some g).
  { intros a' g Ha'. rewrite Hh. destruct (od_get a (agents s)) as [row |] eqn:Hr; [| done].
    destruct (bool_decide _) eqn:Hb; [| done]. reflect_bools. rewrite lookup_insert_ne; [done |]. intros <-.
    destruct (ao_history _ _ _ _ _ Hok a g Ha') as (row' & ? & Hrev & _). simplify_eq. }
  assert (Hnew : ∀ a' g, app_revoked_gen s !! a' = None → app_revoked_gen s' !! a' = Some g →
    a' = a ∧ ∃ row, od_get a (agents s) = Some row ∧ ar_revoked_at row = None ∧ g = ar_presence_generation row).
  { intros a' g Hn Ha'. rewrite Hh in Ha'. destruct (od_get a (agents s)) as [row |] eqn:Hr; [| congruence].
    destruct (bool_decide _) eqn:Hb; [| congruence]. reflect_bools. rewrite lookup_insert_Some in Ha'.
    destruct Ha' as [[<- <-] | [_ ?]]; [| congruence]. split; [done |]. eauto. }
  assert (Hg : app_grows s s').
  { split; rewrite ?Hrel, ?Hcl, ?Hin, ?Hres; try done. intros a' row g Hr Hn Ha'.
    destruct (Hnew a' g Hn Ha') as (-> & row' & ? & _ & ->). by simplify_eq. }
  assert (Hag : agents s' = od_alter (with_revoked now) a (agents s)).
  { change (agents s') with (r_agents d'). unfold d'. cbn. unfold revoke_agent. by rewrite update_agent_state. }
  apply steps_ok_intro; [| done | done |].
  - destruct Hok as [O1 O2 O3 O4 O5 O6 O7 O8 O9]. split; rewrite ?Hq, ?Hrel, ?Hin, ?Hres; try done.
    + apply (rtc_r _ (app_reg s)); [done | by exists (RevokeAgent a now)].
    + intros a' g Hf. apply (durable_grows a' g s s' Hg). by apply O4.
    + intros a' g Hi. apply (before_grows a' g s s' Hg); [| by apply O5]. by apply (issued_durable sha256 rconfig cfg mb).
    + intros a' row'. rewrite Hag, od_get_alter. destruct (bool_decide (a' = a)) eqn:Ha; reflect_bools.
      * subst a'. intros (row & Hr & ->)%fmap_Some _. rewrite Hh, Hr.
        destruct (bool_decide _) eqn:Hb; reflect_bools; [rewrite lookup_insert_eq; by eexists |]. by apply (O6 a row).
      * intros Hr Hrev. destruct (O6 a' row' Hr Hrev) as [g Hg']. exists g. by apply Hold.
    + intros a' g Ha'. destruct (app_revoked_gen s !! a') as [g0 |] eqn:H0.
      * rewrite (Hold a' g0 H0) in Ha'. simplify_eq. destruct (O7 a' g H0) as (row & Hr & Hrev & Hle).
        destruct (gr_agents _ _ Hgrow a' row Hr) as (row' & Hr' & E). exists row'.
        split_and!; [done | | pose proof (rg_generation _ _ E); lia].
        destruct (ar_revoked_at row) as [at_ |] eqn:Hat; [| done]. by rewrite (rg_revoked _ _ E at_ Hat).
      * destruct (Hnew a' g H0 Ha') as (-> & row & Hr & _ & ->). exists (with_revoked now row).
        rewrite Hag, od_get_alter, bool_decide_eq_true_2, Hr by done. by split_and!.
  - left. intros a' row Hr. rewrite Hag, od_get_alter. destruct (bool_decide (a' = a)); [| by exists row].
    rewrite Hr. cbn. by eexists.
Qed.

(** *** The relay *)

Lemma relay_steps i s w' :
  app_ok s → Relay.step (app_relay s) w' →
  (∀ a g, generation (Relay.w_broker w') !! a = Some g → durable a g s) →
  (∀ a g, issued (Relay.w_broker w') a g → before_revocation a g s) → steps_ok i s (set_relay w' s).
Proof.
  intros Hok Hstep Hfence Hissued.
  destruct (RelaySpec.step_ok _ _ (proj1 (RelaySpec.reachable_ok mb _ (ao_relay _ _ _ _ _ Hok))) Hstep) as [_ Hev].
  apply steps_ok_intro; [| | done | left; by apply unheard_same].
  - destruct Hok as [O1 O2 O3 O4 O5 O6 O7 O8 O9]. split; try done. cbn. by eapply rtc_r.
  - split; try done. cbn. congruence.
Qed.

Lemma quiet_relay_steps i s w' :
  app_ok s → Relay.step (app_relay s) w' → no_issue (broker s) (Relay.w_broker w') → steps_ok i s (set_relay w' s).
Proof.
  intros Hok Hstep [Hg Hi]. apply relay_steps; [done | done | |].
  - intros a g. rewrite Hg. apply (ao_fence _ _ _ _ _ Hok).
  - intros a g Hiss. by apply (ao_issued _ _ _ _ _ Hok), Hi.
Qed.

(** The fence after a claim or an invalidation at a durable generation. *)
Lemma fence_durable s a a' g f :
  app_ok s → durable a g s →
  generation (broker s) !! a' = Some f ∨ a' = a ∧ f = Z.max (default 0%Z (generation (broker s) !! a)) g → durable a' f s.
Proof.
  intros Hok Hd [Hf | [-> ->]]; [by apply (ao_fence _ _ _ _ _ Hok) |]. destruct Hd as (row & Hr & Hg). exists row. split; [done |].
  destruct (generation (broker s) !! a) as [f0 |] eqn:Hf; cbn.
  - destruct (ao_fence _ _ _ _ _ Hok a f0 Hf) as (row' & ? & ?). simplify_eq. lia.
  - pose proof (ao_generation _ (ro_rows _ (ok_reg _ _ _ _ s Hok) a row Hr)). lia.
Qed.

Lemma call_step s c now b' tasks r :
  Relay.fresh c (broker s) → Relay.run_call c now (broker s) = (b', tasks, r) →
  Relay.step (app_relay s) {| Relay.w_broker := b'; Relay.w_tasks := Relay.w_tasks (app_relay s) ++ tasks |}.
Proof. intros Hf Hrun. by apply (Relay.step_call c now (app_relay s) b' tasks r). Qed.

Lemma relay_do_steps r i s c now b' tasks e :
  app_ok s → relay_permitted r c s → Relay.run_call c now (broker s) = (b', tasks, e) →
  steps_ok i s (set_relay {| Relay.w_broker := b'; Relay.w_tasks := Relay.w_tasks (app_relay s) ++ tasks |} s).
Proof.
  intros Hok Hp Hrun. destruct (raises c) eqn:Hr.
  - destruct c as [| | | | | | | | a g reason | |]; try done. destruct Hp as [Hd _].
    pose proof (invalidate_issue a g reason (broker s)) as [Hi Hf]. cbn in Hrun.
    destruct (invalidate_agent a g reason (broker s)) as [b1 t1] eqn:Hinv. cbn in Hi, Hf. simplify_eq.
    apply relay_steps; [done | | |].
    + apply (call_step s (Invalidate a g reason) now b' tasks None); [done |]. cbn. by rewrite Hinv.
    + intros a' f Ha'. apply (fence_durable s a a' g f Hok Hd). by apply Hf.
    + intros a' g' Hiss. apply (ao_issued _ _ _ _ _ Hok). by apply Hi.
  - apply quiet_relay_steps; [done | |].
    + eapply call_step; [| done]. by destruct c.
    + pose proof (run_call_no_issue c now (broker s) Hr) as Hn. by rewrite Hrun in Hn.
Qed.

Lemma relay_claim_steps i s a g fut b' tasks e :
  app_ok s → durable a g s → before_revocation a g s → futures (broker s) !! fut = None →
  Relay.claim a g fut (broker s) = (b', tasks, e) →
  steps_ok i s (set_relay {| Relay.w_broker := b'; Relay.w_tasks := Relay.w_tasks (app_relay s) ++ tasks |} s).
Proof.
  intros Hok Hd Hb Hf Hrun. pose proof (claim_issue a g fut (broker s)) as [Hi Hg]. rewrite Hrun in Hi, Hg. cbn in Hi, Hg.
  apply relay_steps; [done | | |].
  - by apply (call_step s (ClaimCall a g fut) 0 b' tasks e).
  - intros a' f Ha'. apply (fence_durable s a a' g f Hok Hd). by apply Hg.
  - intros a' g' Hiss. destruct (Hi a' g' Hiss) as [? | [-> ->]]; [by apply (ao_issued _ _ _ _ _ Hok) | done].
Qed.

Lemma relay_task_steps i s t now rest b' tasks :
  app_ok s → remove_first t (Relay.w_tasks (app_relay s)) = Some rest → Relay.run_task t now (broker s) = Some (b', tasks) →
  steps_ok i s (set_relay {| Relay.w_broker := b'; Relay.w_tasks := rest ++ tasks |} s).
Proof.
  intros Hok Hrem Hrun. destruct (remove_first_split _ _ _ Hrem) as (l1 & l2 & Hl & ->).
  apply quiet_relay_steps; [done | | by eapply run_task_no_issue].
  rewrite <- (assoc_L (++) l1 l2 tasks). by eapply Relay.step_task.
Qed.

Lemma timeout_steps i s fut :
  app_ok s →
  steps_ok i s (set_relay {| Relay.w_broker := wait_timeout fut (broker s); Relay.w_tasks := Relay.w_tasks (app_relay s) |} s).
Proof.
  intros Hok. apply quiet_relay_steps; [done | | apply wait_timeout_no_issue].
  rewrite <- (app_nil_r (Relay.w_tasks (app_relay s))). by apply (call_step s (GiveUp fut) 0 _ [] None).
Qed.

(** *** The queue *)

Lemma queue_steps i s d :
  app_ok s → rtc (queue_step (cc_max_attempts cfg) (cc_default_lease_s cfg)) (app_queue s) d →
  steps_ok i s (set_queue d s).
Proof.
  intros Hok Hr. apply steps_ok_intro; [| | done | left; by apply unheard_same].
  - destruct Hok as [O1 O2 O3 O4 O5 O6 O7 O8 O9]. split; try done. cbn. unfold QueueSteps.reachable in *; by etransitivity.
  - split; try done. cbn. congruence.
Qed.

(** *** The lock *)

Lemma lock_ok l s : app_ok s → app_ok (set_lock l s) ∧ app_grows s (set_lock l s).
Proof. intros [O1 O2 O3 O4 O5 O6 O7 O8 O9]. split; split; try done. cbn. congruence. Qed.

Lemma acquire_steps i s : app_ok s → app_lock s = None → steps_ok i s (set_lock (Some i) s).
Proof.
  intros Hok Hl. destruct (lock_ok (Some i) s Hok) as [Hok' Hg]. split_and!; [done | done |].
  intros j Hj. split; [done |]. congruence.
Qed.

Lemma release_steps i s : app_ok s → steps_ok i s (release i s).
Proof.
  intros Hok. unfold release. destruct (bool_decide _) eqn:Hl; [| by apply steps_ok_refl]. reflect_bools.
  destruct (lock_ok None s Hok) as [Hok' Hg]. split_and!; [done | done |]. intros j Hj. split; [done |]. congruence.
Qed.

(** *** Stored blobs *)

Lemma results_steps i s stream dir r :
  app_ok s → results_put sha256 (cc_max_result_payload_bytes cfg) stream (app_results s) = (dir, r) →
  steps_ok i s (set_results dir s).
Proof.
  intros Hok. unfold results_put. destruct (absorb_all _ _ _).
  { intros [= <- <-]. apply steps_ok_frame; try done; apply Hok. }
  destruct (app_results s !! _) as [b |] eqn:Hb; intros [= <- <-].
  { apply steps_ok_frame; try done; apply Hok. }
  apply steps_ok_frame; try done; cbn.
  - by apply insert_subseteq.
  - apply Hok.
  - intros n b. rewrite lookup_insert_Some. intros [[<- <-] | [_ ?]]; [done |]. by apply (ao_results _ _ _ _ _ Hok).
Qed.

Lemma input_steps i s name blob :
  app_ok s → name = hexdigest sha256 blob →
  steps_ok i s (match app_inputs s !! name with
                | Some _ => s
                | None => set_inputs (<[name := blob]> (app_inputs s)) s
                end).
Proof.
  intros Hok ->. destruct (app_inputs s !! _) as [b |] eqn:Hb; [by apply steps_ok_refl |].
  apply steps_ok_frame; try done; cbn.
  - by apply insert_subseteq.
  - intros n b. rewrite lookup_insert_Some. intros [[<- <-] | [_ ?]]; [done |]. by apply (ao_inputs _ _ _ _ _ Hok).
  - apply Hok.
Qed.

(** ** Every call *)

Lemma permitted_clock r i X (c : Call X) t s :
  (app_clock s ≤ t)%Z → permitted r i X c s → permitted r i X c (set_clock t s).
Proof.
  intros Ht. destruct c as [| | | | | | X o | X o | | | | | | | | | | | | | | |]; try done. cbn. destruct o; cbn; try done.
  intros (? & ? & row & Hr & Hoff). split_and!; [done | done |]. exists row. split; [done |]. cbn.
  by apply (is_offline_later rconfig (app_clock s) t row row).
Qed.

Lemma reg_do_steps {X} r i env (o : RegOp X) s :
  app_ok s → reg_permitted r i o s →
  steps_ok i s (set_reg (run_reg sha256 rconfig env o (app_reg s)).1 (note_revoked o s)).
Proof.
  intros Hok Hp. rewrite run_reg_call. destruct o; cbn [note_revoked]; try (apply reg_steps; [done | done |]);
    cbn in Hp; try (left; apply Hp); try (right; intros a0 f row; cbn; intros [= <- <-]; done); try (by right).
  by apply revoke_steps.
Qed.

Theorem exec_sound r i X (c : Call X) env s s' x :
  app_ok s → permitted r i X c s → env_ok env s → exec sha256 rconfig cfg X i env c s = Some (s', x) → steps_ok i s s'.
Proof.
  intros Hok Hp (Hc & Hjob & Hfut) Hx. apply (permitted_clock r i X c (e_now env) s Hc) in Hp.
  apply (steps_ok_trans i s (set_clock (e_now env) s)); [by apply clock_steps |]. intros Hok1.
  unfold exec in Hx. set (s1 := set_clock (e_now env) s) in *.
  destruct c; cbn in Hp; try (simplify_eq; by apply steps_ok_refl).
  - destruct (_ <? _)%Z; simplify_eq. by apply steps_ok_refl.
  - destruct (app_lock s1) eqn:Hl; simplify_eq. by apply acquire_steps.
  - simplify_eq. by apply release_steps.
  - pose proof (reg_do_steps r i env o s1 Hok1 Hp) as Hs. destruct (run_reg _ _ env o (app_reg s1)). by simplify_eq.
  - destruct (run_queue cfg env o (app_queue s1)) as [d res] eqn:Hq. simplify_eq. apply queue_steps; [done |].
    by eapply run_queue_step.
  - destruct (Relay.run_call c _ _) as [[b' tasks] e] eqn:Hrun. simplify_eq. by eapply relay_do_steps.
  - destruct (remove_first t _) as [rest |] eqn:Hrem; [| done].
    destruct (Relay.run_task t _ _) as [[b' tasks] |] eqn:Hrun; simplify_eq. by eapply relay_task_steps.
  - destruct (Relay.claim agent gen _ _) as [[b' tasks] e] eqn:Hrun. simplify_eq. destruct Hp as (_ & Hd & Hb).
    by eapply relay_claim_steps.
  - destruct (futures _ !! fut) as [[| cl |] |]; simplify_eq; try (by apply steps_ok_refl).
    destruct (e_timeout env); simplify_eq. by apply timeout_steps.
  - destruct (results_put _ _ stream _) as [dir res] eqn:Hput. simplify_eq. by eapply results_steps.
  - simplify_eq. apply input_steps; [done | apply Hp].
  - simplify_eq. apply steps_ok_frame; try done; apply Hok1.
  - simplify_eq. apply steps_ok_frame; try done; apply Hok1.
  - simplify_eq. apply steps_ok_frame; try done; apply Hok1.
Qed.
End Sound.

Create HintDb entitled.
#[export] Hint Resolve admitted_agent admitted_operator admitted_register admitted_loop path_speaker : entitled.
