(* ===== verification/CoordinatorLogic.v ===== *)
(** * Hoare triples for the coordinator's handlers

    A triple [{P} p {Q}] of a handler serving request [r] as task [i]: started in a
    state with [P], among any other tasks, it makes only permitted calls, gives only
    answers that meet the request's postcondition, and reaches [Q] when it returns.
    Assertions must survive the other tasks: [Growing] ones survive everything,
    [Held] ones survive as long as the liveness lock is held. *)

From S2P Require Import QueueSteps RelaySpec RegistrySpec Tasks HttpAuth.
From S2P Require Export CoordinatorSound.

Class Growing (K : App → Prop) : Prop := growing s s' : app_grows s s' → K s → K s'.

Class Held (K : App → Prop) : Prop :=
  held s s' : app_grows s s' → app_lock s' = app_lock s → unheard s s' → K s → K s'.

Class Stable (i : nat) (K : App → Prop) : Prop := stable s s' : app_rely i s s' → K s → K s'.

#[export] Instance growing_held K : Growing K → Held K.
Proof. intros HK s s' G _ _. by apply HK. Qed.
#[export] Instance growing_stable i K : Growing K → Stable i K.
Proof. intros HK s s' [G _]. by apply HK. Qed.
#[export] Instance growing_const (P : Prop) : Growing (λ _, P).
Proof. by intros s s' _. Qed.
#[export] Instance growing_and K K' : Growing K → Growing K' → Growing (λ s, K s ∧ K' s).
Proof. intros H1 H2 s s' G [A B]. split; [by eapply H1 | by eapply H2]. Qed.
#[export] Instance growing_or K K' : Growing K → Growing K' → Growing (λ s, K s ∨ K' s).
Proof. intros H1 H2 s s' G [A | B]; [left; by eapply H1 | right; by eapply H2]. Qed.
#[export] Instance growing_imp (P : Prop) K : Growing K → Growing (λ s, P → K s).
Proof. intros H1 s s' G A Hp. eapply H1; [done | by apply A]. Qed.
#[export] Instance growing_all {A} (K : A → App → Prop) : (∀ a, Growing (K a)) → Growing (λ s, ∀ a, K a s).
Proof. intros H1 s s' G HK a. by eapply H1. Qed.
#[export] Instance growing_ex {A} (K : A → App → Prop) : (∀ a, Growing (K a)) → Growing (λ s, ∃ a, K a s).
Proof. intros H1 s s' G [a HK]. exists a. by eapply H1. Qed.

#[export] Instance speaks_for_growing sha256 r a : Growing (speaks_for sha256 r a).
Proof. intros s s'. apply speaks_for_grows. Qed.
#[export] Instance durable_growing a g : Growing (durable a g).
Proof. intros s s'. apply durable_grows. Qed.

(** A generation a claim may be made at. *)
Definition claimable (a : agent_id) (g : Z) (s : App) : Prop := durable a g s ∧ before_revocation a g s.

#[export] Instance claimable_growing a g : Growing (claimable a g).
Proof. intros s s' G [Hd Hb]. split; [by eapply durable_grows | by eapply before_grows]. Qed.

(** [agent] was revoked, and its generation then. *)
Definition revoked_at_gen (a : agent_id) (g : Z) (s : App) : Prop := app_revoked_gen s !! a = Some g.

#[export] Instance revoked_at_gen_growing a g : Growing (revoked_at_gen a g).
Proof. intros s s' G. apply (ag_history _ _ G). Qed.

Definition fence_at (a : agent_id) (g : Z) (s : App) : Prop := fenced a g (Relay.w_broker (app_relay s)).

#[export] Instance fence_at_growing a g : Growing (fence_at a g).
Proof. intros s s'. apply fenced_grows. Qed.

Definition has_transport (a : agent_id) (t : Transport) (s : App) : Prop :=
  ∃ row, od_get a (r_agents (app_reg s)) = Some row ∧ ar_transport row = t.

#[export] Instance has_transport_growing a t : Growing (has_transport a t).
Proof.
  intros s s' G (row & Hr & Ht). destruct (gr_agents _ _ (ag_reg _ _ G) a row Hr) as (row' & Hr' & E).
  exists row'. split; [done |]. by rewrite (rg_transport _ _ E).
Qed.

Definition stored (name : string) (s : App) : Prop := is_Some (app_results s !! name).

#[export] Instance stored_growing name : Growing (stored name).
Proof. intros s s' G [b Hb]. exists b. eapply lookup_weaken; [done | apply (ag_results _ _ G)]. Qed.

Definition clock_past (t : instant) (s : App) : Prop := (t ≤ app_clock s)%Z.

#[export] Instance clock_past_growing t : Growing (clock_past t).
Proof. intros s s' G Ht. pose proof (ag_clock _ _ G). unfold clock_past in *. lia. Qed.

(** The lock, and what is known while it is held. *)
Definition holding (i : nat) (s : App) : Prop := app_lock s = Some i.

Lemma held_stable i K : Held K → (∀ s, K s → holding i s) → Stable i K.
Proof.
  intros HK Hl s s' [G L] Hs. pose proof (Hl s Hs) as Hi. destruct (L Hi) as [Hi' U]. eapply HK; [done | | done | done].
  unfold holding in Hi. congruence.
Qed.

#[export] Instance holding_held i : Held (holding i).
Proof. intros s s' _ Hl _ Hi. unfold holding in *. congruence. Qed.
#[export] Instance held_and K K' : Held K → Held K' → Held (λ s, K s ∧ K' s).
Proof. intros H1 H2 s s' G L U [A B]. split; [by eapply H1 | by eapply H2]. Qed.

#[export] Instance offline_held rconfig a : Held (offline_now rconfig a).
Proof.
  intros s s' G _ U (row & Hr & Hoff). destruct (U a row Hr) as (row' & Hr' & Hs). exists row'. split; [done |].
  eapply is_offline_later; [apply (ag_clock _ _ G) | done | done].
Qed.

#[export] Instance offline_all_held rconfig l : Held (λ s, Forall (λ a, offline_now rconfig a s) l).
Proof.
  intros s s' G L U HF. eapply Forall_impl; [done |]. intros a. by eapply (offline_held rconfig a).
Qed.

(** Assertions a task keeps through its own calm calls: those that last, and those
    under the lock it holds. *)
Class Kept (i : nat) (K : App → Prop) : Prop := kept : Growing K ∨ Held K ∧ ∀ s, K s → holding i s.

#[export] Instance growing_kept i K : Growing K → Kept i K.
Proof. by left. Qed.
#[export] Instance kept_stable i K : Kept i K → Stable i K.
Proof. intros [? | [? ?]]; [apply _ | by apply held_stable]. Qed.
#[export] Instance kept_and i K K' : Kept i K → Growing K' → Kept i (λ s, K s ∧ K' s).
Proof. intros [? | [? Hl]] ?; [left; apply _ | right]. split; [apply _ |]. intros s [Hs _]. by apply Hl. Qed.

#[export] Instance kept_holding i K : Held K → Kept i (λ s, K s ∧ holding i s).
Proof. intros HK. right. split; [apply _ | by intros s [_ ?]]. Qed.

#[export] Instance kept_lock i : Kept i (holding i).
Proof. right. split; [apply _ | done]. Qed.

(** Calls that neither touch the lock nor hear from an agent. *)
Definition calm {X} (c : Call X) : bool :=
  match c with
  | Acquire | Release => false
  | RegDo (RHeartbeat _ _) | RegDo (RSetState _ _) | RegDo (RPresence _ _ _) => false
  | _ => true
  end.

Section Logic.
  Context (sha256 : bytes → bytes) (rconfig : RegistryConfig) (cfg : CoordinatorConfig) (mb : Z)
          (post : Request → Response → App → Prop).
  Notation app_ok := (app_ok sha256 rconfig cfg mb).
  Notation permitted := (permitted sha256 rconfig).
  Notation exec := (exec sha256 rconfig cfg).
  Notation okh := (okh exec env_ok app_ok app_grows app_rely permitted post).

Definition triple {A} (r : Request) (i : nat) (P : App → Prop) (p : H A) (Q : A → App → Prop) : Prop :=
  ∀ s, app_ok s → P s → okh r i Q p s.

Lemma exec_lock X i env (c : Call X) s s' x :
  app_ok s → calm c = true → exec X i env c s = Some (s', x) → app_lock s' = app_lock s ∧ unheard s s'.
Proof.
  intros Hok Hc Hx. assert (Hsame : ∀ s', app_reg s' = app_reg s → unheard s s').
  { intros s0 Hr. apply unheard_same. by rewrite Hr. }
  unfold CoordinatorState.exec in Hx. set (s1 := set_clock (e_now env) s) in *.
  destruct c as [| | | | | | X o | X o | | | | | | | | | | | | | | |]; cbn in Hc; try done; try (by simplify_eq; auto).
  - destruct (_ <? _)%Z; simplify_eq; auto.
  - assert (Hok1 : app_ok s1) by (destruct Hok; by split).
    destruct (run_reg _ _ env o (app_reg s1)) as [d res] eqn:Hrun. simplify_eq.
    assert (Hl : app_lock (set_reg d (note_revoked o s1)) = app_lock s).
    { cbn. destruct o; cbn; try done. destruct (od_get _ _); [by destruct (bool_decide _) | done]. }
    split; [done |]. pose proof (run_reg_call sha256 rconfig env o (app_reg s1)) as Hd. rewrite Hrun in Hd. cbn [fst] in Hd.
    assert (Hu : unheard s1 (set_reg d (note_revoked o s1))); [| exact Hu].
    intros a row Hr. pose proof (ok_reg _ _ _ _ s1 Hok1) as Hreg.
    destruct (reg_call_ok sha256 rconfig (rcall_of env o) (app_reg s1) Hreg) as [_ Hgrow].
    destruct (gr_agents _ _ Hgrow a row Hr) as (row' & Hr' & E). exists row'. cbn. rewrite Hd. split; [done |].
    destruct (reg_call_rows _ _ (rcall_of env o) _ a row' Hreg Hr') as [(row0 & Hr0 & Hcase) | [Hn _]]; simplify_eq.
    destruct Hcase as [-> | (f & Ht & ->)]; [done |]. destruct o; cbn in Hc, Ht; by simplify_eq.
  - destruct (run_queue _ _ _ _). simplify_eq. auto.
  - destruct (Relay.run_call _ _ _) as [[? ?] ?]. simplify_eq. auto.
  - destruct (remove_first _ _); [| done]. destruct (Relay.run_task _ _ _) as [[? ?] |]; simplify_eq. auto.
  - destruct (Relay.claim _ _ _ _) as [[? ?] ?]. simplify_eq. auto.
  - destruct (futures _ !! fut) as [[] |]; simplify_eq; auto. destruct (e_timeout env); simplify_eq. auto.
  - destruct (results_put _ _ _ _). simplify_eq. auto.
  - simplify_eq. destruct (app_inputs _ !! name); auto.
Qed.

Section Rules.
  Context (r : Request) (i : nat).
  Notation ht := (triple r i).

Lemma triple_bind {A B} P R (Q : B → App → Prop) (p : H A) (f : A → H B) :
  ht P p R → (∀ a, ht (R a) (f a) Q) → ht P (p ≫= f) Q.
Proof.
  intros Hp Hf s Hok Hs. apply okh_bind; [apply _ |]. eapply okh_mono; [by apply Hp |].
  intros a s' Hok' HR. by apply Hf.
Qed.

(** A step that leaves what is known alone. *)
Lemma triple_seq {A B} K (Q : B → App → Prop) (p : H A) (f : A → H B) :
  ht K p (λ _, K) → (∀ a, ht K (f a) Q) → ht K (p ≫= f) Q.
Proof. apply triple_bind. Qed.

Lemma triple_conseq {A} P P' (Q Q' : A → App → Prop) (p : H A) :
  ht P' p Q' → (∀ s, app_ok s → P s → P' s) → (∀ a s, app_ok s → Q' a s → Q a s) → ht P p Q.
Proof. intros Hp HP HQ s Hok Hs. eapply okh_mono; [apply Hp; auto | auto]. Qed.

Lemma triple_pre {A} P' P (Q : A → App → Prop) (p : H A) : (∀ s, app_ok s → P s → P' s) → ht P' p Q → ht P p Q.
Proof. intros HP Hp. by eapply triple_conseq. Qed.

Lemma triple_frame {A} K P (Q : A → App → Prop) (p : H A) :
  Growing K → ht P p Q → ht (λ s, P s ∧ K s) p (λ a s, Q a s ∧ K s).
Proof.
  intros HK Hp s Hok [Hs Hk]. eapply ok_mono; [eapply ok_frame with (K := K); [| | exact (Hp s Hok Hs) | done] |].
  - intros s1 s2 [G _]. by apply HK.
  - intros s1 s2 G. by apply HK.
  - intros [e | a] s' _ [? ?]; done.
Qed.

Lemma triple_ret {A} P (Q : A → App → Prop) a : Stable i P → (∀ s, app_ok s → P s → Q a s) → ht P (mret a) Q.
Proof. intros HP HQ s Hok Hs. apply okh_ret. intros s1 Hr Hok1. apply HQ; [done |]. by eapply HP. Qed.

Lemma triple_respond {A} P (Q : A → App → Prop) e :
  Stable i P → (∀ s, app_ok s → P s → post r e s) → ht P (respond_with e) Q.
Proof.
  intros HP He s Hok Hs. apply okh_respond; [apply _ |]. intros s1 Hr Hok1. apply He; [done |]. by eapply HP.
Qed.

Lemma triple_call {X} P (Q : X → App → Prop) (c : Call X) :
  Stable i P → (∀ x, Stable i (Q x)) →
  (∀ s, app_ok s → P s → permitted r i X c s ∧
     ∀ env s' x, env_ok env s → exec X i env c s = Some (s', x) → app_ok s' → app_grows s s' → Q x s') →
  ht P (call c) Q.
Proof.
  intros HP HQ Hc s Hok Hs. apply okh_call. intros s1 Hr Hok1. destruct (Hc s1 Hok1) as [Hpre Hx]; [by eapply HP |].
  split; [done |]. intros env s2 x He Hex Hok2 Hg s3 Hr3 Hok3. eapply HQ; [done |]. by eapply Hx.
Qed.

(** What is known for good survives any permitted call; what is known under the
    lock, any calm one. *)
Lemma triple_keep {X} K (c : Call X) :
  Growing K → (∀ s, app_ok s → K s → permitted r i X c s) → ht K (call c) (λ _, K).
Proof.
  intros HK Hc. apply triple_call; [apply _ | apply _ |]. intros s Hok Hs. split; [auto |]. intros env s' x _ _ _ Hg. by eapply HK.
Qed.

Lemma triple_calm {X} K (c : Call X) :
  Held K → (∀ s, K s → holding i s) → calm c = true → (∀ s, app_ok s → K s → permitted r i X c s) →
  ht K (call c) (λ _, K).
Proof.
  intros HK Hl Hcalm Hc. pose proof (held_stable i K HK Hl). apply triple_call; [done | done |].
  intros s Hok Hs. split; [auto |]. intros env s' x _ Hx _ Hg. destruct (exec_lock _ _ _ _ _ _ _ Hok Hcalm Hx). by eapply HK.
Qed.

Lemma triple_kept {X} K (c : Call X) :
  Kept i K → calm c = true → (∀ s, app_ok s → K s → permitted r i X c s) → ht K (call c) (λ _, K).
Proof. intros [HK | [HK Hl]] Hc Hp; [by apply triple_keep | by apply triple_calm]. Qed.

(** A calm call that establishes something lasting. *)
Lemma triple_learn {X} K (c : Call X) (L : X → App → Prop) :
  Kept i K → (∀ x, Growing (L x)) → calm c = true → (∀ s, app_ok s → K s → permitted r i X c s) →
  (∀ s env s' x, app_ok s → K s → env_ok env s → exec X i env c s = Some (s', x) → app_ok s' → app_grows s s' → L x s') →
  ht K (call c) (λ x s, K s ∧ L x s).
Proof.
  intros HK HL Hc Hp Hx. apply triple_call; [apply _ | apply _ |]. intros s Hok Hs. split; [auto |].
  intros env s' x He Hex Hok' Hg. split; [| exact (Hx s env s' x Hok Hs He Hex Hok' Hg)].
  destruct HK as [HK | [HK Hl]]; [by eapply HK |]. destruct (exec_lock _ _ _ _ _ _ _ Hok Hc Hex). by eapply HK.
Qed.

(** A call that only reads the registry. *)
Lemma triple_read_learn {X} K (c : Call X) (f : RDb → X) (L : X → App → Prop) :
  Kept i K → (∀ x, Growing (L x)) → calm c = true →
  (∀ env s, exec X i env c s = Some (set_clock (e_now env) s, f (app_reg s))) →
  (∀ s, app_ok s → K s → permitted r i X c s) → (∀ s, app_ok s → K s → L (f (app_reg s)) s) →
  ht K (call c) (λ x s, K s ∧ L x s).
Proof.
  intros HK HL Hc Hx Hp Hf. apply triple_learn; [done | done | done | done |].
  intros s env s' x Hok Hs _ Hex _ Hg. rewrite Hx in Hex. simplify_eq. eapply HL; [exact Hg |]. by apply Hf.
Qed.

End Rules.
End Logic.
