(* ===== verification/CoordinatorHelpers.v ===== *)
(** * The coordinator's handlers: promises and shared pieces

    What an answer promises, and triples for the helpers the routes share:
    authentication, the broker's methods with the awaits after them, generation
    bumps, locked registry calls and the presence fences. *)

From S2P Require Import QueueSteps Scheduler RelaySpec RegistrySpec Tasks HttpAuth.
From S2P Require Export CoordinatorLogic.

(** ** What answers promise *)

Definition operator_only (r : Request) : bool :=
  match r with
  | PostToken _ | GetTokens _ | DeleteToken _ _ | PostRevoke _ _ | PostKey _ _ _ _ _ | GetAgents _ | GetRevoked _
  | GetModels _ | PostModel _ _ _ _ | GetFit _ _ _ | PutAssignments _ _ _ | PostFit _ _ | PostJob _ _ _ | GetJob _ _
  | GetPayload _ _ | PostJoinBundles _ _ | GetFleet _ => true
  | _ => false
  end.

Definition succeeded (a : Response) : Prop := match a with Resp st _ => (200 ≤ st < 300)%Z | _ => False end.

(** The request names an agent to revoke that is registered. *)
Definition names_registered (r : Request) (s : App) : Prop :=
  match r with PostRevoke a _ => is_Some (od_get a (r_agents (app_reg s))) | _ => True end.

Definition revoked_now (a : agent_id) (s : App) : Prop :=
  ∃ row, od_get a (r_agents (app_reg s)) = Some row ∧ ar_revoked_at row ≠ None.

#[export] Instance revoked_now_growing a : Growing (revoked_now a).
Proof.
  intros s s' G (row & Hr & Hn). destruct (gr_agents _ _ (ag_reg _ _ G) a row Hr) as (row' & Hr' & E).
  exists row'. split; [done |]. destruct (ar_revoked_at row) as [t |] eqn:Ht; [| done]. by rewrite (rg_revoked _ _ E t Ht).
Qed.

(** The request speaks for an agent that is revoked. *)
Definition agent_barred (r : Request) (s : App) : Prop := ∃ a, path_agent r = Some a ∧ revoked_now a s.

(** [known] and [barred]: [names_registered] and [agent_barred] held when the
    request arrived. *)
Section Promises.
  Context (sha256 : bytes → bytes) (rconfig : RegistryConfig) (cfg : CoordinatorConfig) (known barred : bool).

(** [agent] is revoked; a relayed one has no claim left at or below the generation
    it was revoked at, and none can form. *)
Definition revoked_out (agent : agent_id) (s : App) : Prop :=
  ∃ g t, revoked_at_gen agent g s ∧ has_transport agent t s ∧
    (known = true → cc_site_enabled cfg = true → t = SITE_RELAY → ∃ g', (g < g')%Z ∧ fence_at agent g' s).

Definition request_promise (r : Request) (a : Response) (s : App) : Prop :=
  match r with
  | PostRevoke agent _ => succeeded a → revoked_out agent s
  | PostPayload _ _ _ stream _ => ∀ d, a = Resp 200 (BResultRef d) →
      d = hexdigest sha256 (concat stream) ∧ stored d s ∧
      (Z.of_nat (length (concat stream)) ≤ cc_max_result_payload_bytes cfg)%Z
  | GetInput uid _ => ∀ b, a = Resp 200 (BBytes b) → uid = hexdigest sha256 b
  | _ => True
  end.

Definition promise (r : Request) (a : Response) (s : App) : Prop :=
  a ≠ Exhausted ∧
  (succeeded a → (∀ agent, path_agent r = Some agent → barred = false ∧ speaks_for sha256 r agent s) ∧
                 (operator_only r = true → is_operator sha256 rconfig r)) ∧
  request_promise r a s.

#[export] Instance revoked_out_growing agent : Growing (revoked_out agent).
Proof. apply _. Qed.

#[export] Instance promise_growing r a : Growing (promise r a).
Proof. unfold promise. apply growing_and; [apply _ |]. apply growing_and; [apply _ |]. unfold request_promise. destruct r; apply _. Qed.

Lemma promise_refused r a s : a ≠ Exhausted → ~ succeeded a → promise r a s.
Proof.
  intros He Hn. split_and!; [done | done |]. destruct r; cbn; try done; intros x ->; by destruct Hn.
Qed.
End Promises.

(** Rounding to microseconds is monotone. *)
Lemma round_half_even_mono x y : (x <= y)%Q → (round_half_even x ≤ round_half_even y)%Z.
Proof.
  intros Hxy. pose proof (Qfloor_resp_le _ _ Hxy) as Hf.
  destruct (Z.eq_dec (Qfloor x) (Qfloor y)) as [He | Hne].
  - unfold round_half_even. rewrite He. set (f := Qfloor y) in *.
    destruct ((x - inject_Z f) <?q (1 # 2)) eqn:H1, ((y - inject_Z f) <?q (1 # 2)) eqn:H2,
      ((1 # 2) <?q (x - inject_Z f)) eqn:H3, ((1 # 2) <?q (y - inject_Z f)) eqn:H4, (Z.even f);
      try lia; reflect_bools; exfalso; lra.
  - assert (round_half_even x ≤ Qfloor x + 1 ∧ Qfloor y ≤ round_half_even y)%Z; [| lia].
    unfold round_half_even. repeat case_match; lia.
Qed.

Lemma timedelta_us_mono x y : (x <= y)%Q → (timedelta_us x ≤ timedelta_us y)%Z.
Proof. intros Hxy. apply round_half_even_mono. apply Qmult_le_compat_r; [done | by vm_compute]. Qed.

Section Handlers.
  Context (sha256 : bytes → bytes) (rconfig : RegistryConfig) (cfg : CoordinatorConfig) (mb : Z) (known barred : bool).
  Notation app_ok := (app_ok sha256 rconfig cfg mb).
  Notation speaks_for := (speaks_for sha256).
  Notation is_operator := (is_operator sha256 rconfig).
  Notation promise := (promise sha256 rconfig cfg known barred).
  Notation permitted := (permitted sha256 rconfig).
  Notation exec := (exec sha256 rconfig cfg).

Section Request.
  Context (r : Request) (i : nat).
  Notation ht := (triple sha256 rconfig cfg mb promise r i).

(** *** Shared steps *)

Lemma ht_refuse {A} K (Q : A → App → Prop) a :
  Stable i K → a ≠ Exhausted → ~ succeeded a → ht K (respond_with a) Q.
Proof. intros HK He Hn. apply triple_respond; [done |]. intros s _ _. by apply promise_refused. Qed.

Lemma ht_fails {A} K (Q : A → App → Prop) st d :
  Stable i K → (300 ≤ st)%Z → ht K (fails st d) Q.
Proof. intros HK Hst. apply ht_refuse; [done | done |]. cbn. lia. Qed.

Lemma ht_unwrap {E A} K (x : E + A) : Stable i K → ht K (unwrap x) (λ a s, K s ∧ x = inr a).
Proof.
  intros HK. destruct x as [e | a]; [apply ht_refuse; [done | done | by intros []] |].
  by apply triple_ret.
Qed.

Lemma unwrap_ok {E A} K K' (x : E + A) : Stable i K → (∀ s, K' s → K s) → ht K' (unwrap x) (λ _, K).
Proof.
  intros HK Hpre. eapply triple_conseq; [apply (ht_unwrap K); done | by intros s _ ?; apply Hpre | by intros ? s _ [? _]].
Qed.

Lemma authenticate_ok : ht (λ _, True) (authenticate sha256 (auth_of r)) (speaks_for r).
Proof.
  unfold authenticate. destruct (extract_bearer (auth_of r)) as [token |] eqn:Hb; [| apply ht_fails; [apply _ | lia]].
  eapply triple_bind; [apply (triple_read_learn _ _ _ _ _ _ _ _ _ (Registry.authenticate_agent sha256 token)
    (λ x s, match x with inr (Some a) => speaks_for r a s | _ => True end)); [apply _ | | done | done | done |] |].
  - intros [e | [a |]]; apply _.
  - intros s Hok _. unfold Registry.authenticate_agent. destruct (head _) as [[a row] |] eqn:Hh; [| done].
    destruct (live _); [| done]. apply head_Some_elem_of, list_elem_of_filter in Hh as [Hhash Hin].
    exists token, row. split_and!; [done | | done]. apply elem_of_od_get; [| done]. apply (ok_reg _ _ _ _ s Hok).
  - intros [e | [a |]]; [apply ht_fails; [apply _ | lia] | | apply ht_fails; [apply _ | lia]].
    apply triple_ret; [apply _ |]. by intros s _ [_ ?].
Qed.

Lemma authorize_ok a : ht (λ _, True) (authorize_self sha256 a (auth_of r)) (λ _, speaks_for r a).
Proof.
  unfold authorize_self. eapply triple_bind; [apply authenticate_ok |]. intros caller.
  destruct (bool_decide (caller = a)) eqn:Hc; [| apply ht_fails; [apply _ | lia]]. reflect_bools. subst caller.
  apply triple_ret; [apply _ | done].
Qed.

(** A revoked agent's token opens nothing. *)
Lemma authorize_revoked a : ht (revoked_now a) (authorize_self sha256 a (auth_of r)) (λ _ _, False).
Proof.
  unfold authorize_self, authenticate. destruct (extract_bearer (auth_of r)) as [token |] eqn:Htok; [| apply ht_fails; [apply _ | lia]].
  eapply triple_bind with (R := λ caller s, caller ≠ a).
  - eapply triple_bind; [apply (triple_read_learn _ _ _ _ _ _ _ _ _ (Registry.authenticate_agent sha256 token)
      (λ x _, x ≠ inr (Some a))); [apply _ | apply _ | done | done | done |] |].
    + intros s Hok (row & Hr & Hn). unfold Registry.authenticate_agent.
      destruct (head _) as [[a' row'] |] eqn:Hh; [| done]. destruct (live _) eqn:Hl; [| done]. intros [= ->].
      apply head_Some_elem_of, list_elem_of_filter in Hh as [_ Hin].
      apply elem_of_od_get in Hin; [| apply (ok_reg _ _ _ _ s Hok)]. unfold live in Hl. cbn in Hl. reflect_bools. by simplify_eq.
    + intros [e | [b |]]; cbn beta; [apply ht_fails; [apply _ | lia] | | apply ht_fails; [apply _ | lia]].
      apply triple_ret; [apply _ |]. intros s _ [_ Hb] ->. done.
  - intros caller. cbn beta. destruct (bool_decide (caller = a)) eqn:Hc; [| apply ht_fails; [apply _ | lia]]. reflect_bools. by intros s _ ?.
Qed.

Lemma admin_ok : ht (λ _, True) (authenticate_admin sha256 rconfig (auth_of r)) (λ _ _, is_operator r).
Proof.
  unfold authenticate_admin. destruct (extract_bearer (auth_of r)) as [token |] eqn:Hb; [| apply ht_fails; [apply _ | lia]].
  eapply triple_bind; [apply (triple_read_learn _ _ _ _ _ _ _ _ _ (authenticate_api_key sha256 rconfig token)
    (λ x s, ∀ info, x = Some info → ki_is_admin info = true → is_operator r)); [apply _ | apply _ | done | done | done |] |].
  - intros s _ _ info. unfold authenticate_api_key, token_matches. destruct (bool_decide _) eqn:Hm; reflect_bools.
    + intros _ _. by exists token.
    + intros (k & _ & ->)%fmap_Some. done.
  - intros [info |]; [| apply ht_fails; [apply _ | lia]]. destruct (ki_is_admin info) eqn:Ha; [| apply ht_fails; [apply _ | lia]].
    apply triple_ret; [apply _ |]. intros s _ [_ Ho]. by eapply Ho.
Qed.

(** *** The relay's methods *)

Lemma run_each_ok K follow_up tasks :
  Kept i K → (∀ s, app_ok s → K s → admitted sha256 rconfig r s) →
  (∀ ts, ht K (follow_up ts) (λ _, K)) → ht K (run_each follow_up tasks) (λ _, K).
Proof.
  intros HK Hp Hf. induction tasks as [| t tasks IH]; cbn [run_each]; [by apply triple_ret; [apply _ |] |].
  eapply triple_bind; [by apply triple_kept |]. intros [ts e]. cbn [fst snd]. eapply triple_bind; [apply Hf |]. intros ?. cbn beta.
  destruct e; [by apply triple_ret; [apply _ |] | apply IH].
Qed.

Lemma run_tasks_ok K depth tasks :
  Kept i K → (∀ s, app_ok s → K s → admitted sha256 rconfig r s) → ht K (run_tasks depth tasks) (λ _, K).
Proof.
  intros HK Hp. revert tasks; induction depth as [| depth IH]; intros tasks; cbn [run_tasks];
    [by apply triple_ret; [apply _ |] | by apply run_each_ok].
Qed.

(** A method of the broker that leaves something lasting behind. *)
Lemma relay_learn K (L : App → Prop) c :
  Kept i K → Growing L → (∀ s, app_ok s → K s → relay_permitted sha256 rconfig r c s) →
  (∀ s now b' tasks e, app_ok s → K s → Relay.run_call c now (Relay.w_broker (app_relay s)) = (b', tasks, e) →
     ∀ s', Relay.w_broker (app_relay s') = b' → L s') →
  ht K (relay c) (λ _ s, K s ∧ L s).
Proof.
  intros HK HL Hp Hrun. unfold relay. eapply triple_bind.
  - apply (triple_learn _ _ _ _ _ _ _ _ _ (λ _, L)); [done | done | done | done |].
    intros s env s' x Hok Hs _ Hx _ _. cbn in Hx. destruct (Relay.run_call c _ _) as [[b' tasks] e] eqn:Hc. simplify_eq.
    by eapply (Hrun s (e_mono env) b' tasks e Hok Hs Hc).
  - intros [tasks e]. cbn [fst snd]. eapply triple_bind; [apply run_tasks_ok; [apply _ |] |].
    + intros s Hok [Hs _]. by eapply relay_permitted_admitted, Hp.
    + intros x. by apply triple_ret; [apply _ |].
Qed.

Lemma relay_ok K c :
  Kept i K → (∀ s, app_ok s → K s → relay_permitted sha256 rconfig r c s) → ht K (relay c) (λ _, K).
Proof.
  intros HK Hp. eapply triple_conseq; [apply (relay_learn K (λ _, True) c); [done | apply _ | done | done] | done |].
  by intros ? s _ [? _].
Qed.

(** Raising the fence to a durable generation. *)
Lemma invalidate_ok K a g reason :
  Kept i K → (∀ s, app_ok s → K s → durable a g s ∧ (speaks_for r a s ∨ is_operator r ∨ r = EvictionSweep)) →
  ht K (relay (Invalidate a g reason)) (λ _ s, K s ∧ fence_at a g s).
Proof.
  intros HK Hp. apply relay_learn; [done | apply _ | done |].
  intros s now b' tasks e Hok _ Hrun s' Hs'. unfold fence_at. rewrite Hs'. cbn in Hrun.
  pose proof (invalidate_fenced a g reason _ (ok_broker _ _ _ _ s Hok)) as Hf.
  destruct (invalidate_agent a g reason _). by simplify_eq.
Qed.

(** *** Generations *)

Lemma site_generation_claimable s a g :
  app_ok s → site_generation a (app_reg s) = Some g → claimable a g s.
Proof.
  intros Hok. unfold site_generation, site_route. pose proof (ok_reg _ _ _ _ s Hok) as Hreg.
  rewrite od_get_filter by apply Hreg. destruct (od_get a (r_agents (app_reg s))) as [row |] eqn:Hr; [| done].
  destruct (decide _) as [Hl |]; [| done]. unfold live in Hl. cbn in Hl. reflect_bools. cbn.
  destruct (ar_transport row); [done |]. intros [= <-]. split; [by exists row |].
  intros g' Hg'. destruct (ao_history _ _ _ _ _ Hok a g' Hg') as (row' & ? & Hrev & _). by simplify_eq.
Qed.

Lemma bump_result s env s' a g :
  app_ok s → exec _ i env (RegDo (RBump a)) s = Some (s', inr g) →
  ∃ row, od_get a (r_agents (app_reg s)) = Some row ∧ g = (ar_presence_generation row + 1)%Z ∧ durable a g s'.
Proof.
  intros Hok. cbn. unfold bump_presence_generation, update_agent. unfold mbind, eff_bind, gets, modify, raise, mret, eff_ret.
  cbv beta iota. destruct (missing a (r_agents (app_reg s))) eqn:Hm; [done |]. intros [= <- Hg].
  unfold missing in Hm. reflect_bools. destruct (od_get a (r_agents (app_reg s))) as [row |] eqn:Hr; [| done].
  exists row. split; [done |]. unfold generation_of in Hg. cbn in Hg. rewrite od_get_alter, bool_decide_eq_true_2, Hr in Hg by done.
  cbn in Hg. split; [done |]. unfold durable. cbn. rewrite od_get_alter, bool_decide_eq_true_2, Hr by done. cbn.
  eexists. split; [done |]. cbn. lia.
Qed.

(** Bump the durable generation and fence the broker at it. *)
Lemma bump_and_fence K a reason (P : Z → Prop) :
  Kept i K → (∀ s, app_ok s → K s → speaks_for r a s ∨ is_operator r ∨ r = EvictionSweep) →
  (∀ s row, app_ok s → K s → od_get a (r_agents (app_reg s)) = Some row → P (ar_presence_generation row + 1)%Z) →
  ht K (x ← call (RegDo (RBump a)); g ← unwrap x; relay (Invalidate a g reason) ;; mret tt)
    (λ _ s, K s ∧ ∃ g, P g ∧ fence_at a g s).
Proof.
  intros HK Hauth HP. eapply triple_bind; [apply (triple_learn _ _ _ _ _ _ _ _ _
    (λ x s, ∀ g, x = inr g → P g ∧ durable a g s)); [done | apply _ | done | done |] |].
  { intros s env s' x Hok Hs _ Hx _ _ g ->. destruct (bump_result s env s' a g Hok Hx) as (row & Hr & -> & Hd).
    split; [by eapply HP | done]. }
  intros x. cbn beta. eapply triple_bind; [apply ht_unwrap; apply _ |]. intros g. cbn beta.
  apply (triple_pre _ _ _ _ _ _ _ (λ s, K s ∧ P g ∧ durable a g s)).
  { intros s _ [[Hs Hg] Hx]. destruct (Hg g Hx). by split_and!. }
  eapply triple_bind; [apply invalidate_ok; [apply _ |] |].
  - intros s Hok (Hs & _ & Hd). split; [done | by apply Hauth].
  - intros ?. cbn beta. apply triple_ret; [apply _ |]. intros s _ ((Hs & HPg & _) & Hf). eauto.
Qed.

(** *** Helpers of the routes *)

Lemma agent_snapshot_ok K a : Kept i K → (∀ s, K s → speaks_for r a s) → ht K (agent_snapshot rconfig a) (λ _, K).
Proof.
  intros HK Ha. unfold agent_snapshot. eapply triple_bind; [by apply triple_kept |]. intros now. cbn beta.
  eapply triple_bind; [apply triple_kept; [done | done | by cbn; eauto with entitled] |]. intros l. cbn beta.
  destruct (snapshot_of a l); [| by apply triple_ret; [apply _ |]].
  eapply triple_bind; [apply triple_kept; [done | done | by cbn; auto] |]. intros [st |]; cbn beta; by apply triple_ret; [apply _ |].
Qed.

(** A registry call under the liveness lock. *)
Lemma locked_ok {X} K (o : RegOp X) (L : RegistryError + X → App → Prop) :
  Growing K → (∀ x, Growing (L x)) → (∀ s, app_ok s → K s → admitted sha256 rconfig r s) →
  (∀ s, app_ok s → K s → holding i s → reg_permitted sha256 rconfig r i o s) →
  (∀ s env s' x, app_ok s → exec _ i env (RegDo o) s = Some (s', x) → L x s') →
  ht K (locked (RegDo o)) (λ x s, K s ∧ L x s).
Proof.
  intros HK HL Had Hp Hx. unfold locked. eapply triple_bind.
  { apply (triple_call _ _ _ _ _ _ _ _ (λ _ s, K s ∧ holding i s)); [apply _ | apply _ |]. intros s Hok Hs. split; [by apply Had |].
    intros env s' x _ Hex _ Hg. split; [by eapply HK |]. cbn in Hex. destruct (app_lock s); by simplify_eq. }
  intros ?. cbn beta. eapply triple_bind.
  { apply (triple_call _ _ _ _ _ _ _ _ (λ x s, K s ∧ L x s)); [apply _ | apply _ |]. intros s Hok [Hs Hl]. split; [by apply Hp |].
    intros env s' x _ Hex _ Hg. split; [by eapply HK | by eapply Hx]. }
  intros x. cbn beta. eapply triple_bind; [apply triple_keep; [apply _ | intros s Hok [Hs _]; by apply Had] |]. intros ?. cbn beta.
  by apply triple_ret; [apply _ |].
Qed.

(** The generation a presence event leaves behind. *)
Lemma presence_result s env s' a kind seq g :
  exec _ i env (RegDo (RPresence a kind seq)) s = Some (s', inr g) → durable a g s'.
Proof.
  cbn. unfold apply_presence_event. destruct (_ || _); [done |]. unfold mbind, eff_bind, gets, modify, raise, mret, eff_ret.
  cbv beta iota. destruct (generation_of a _) as [g0 |] eqn:Hg; [| done]. intros [= <- <-].
  unfold generation_of in Hg. apply fmap_Some in Hg as (row & Hr & ->). by exists row.
Qed.

Lemma fence_presence_ok a event :
  ht (speaks_for r a) (fence_site_presence cfg a event) (λ _, speaks_for r a).
Proof.
  unfold fence_site_presence. destruct (negb _); [by apply triple_ret; [apply _ |] |].
  eapply triple_bind; [apply triple_keep; [apply _ | by cbn; eauto with entitled] |]. intros [g |]; cbn beta; [| by apply triple_ret; [apply _ |]].
  destruct (_ ≫= _) as [seq |]; [| by apply triple_ret; [apply _ |]].
  eapply triple_bind.
  { apply (locked_ok (speaks_for r a) _ (λ x s, ∀ g, x = inr g → durable a g s)); [apply _ | apply _ | by eauto with entitled | done |].
    intros s env s' x _ Hx g' ->. by eapply presence_result. }
  intros x. cbn beta. eapply triple_bind; [apply ht_unwrap; apply _ |]. intros g'. cbn beta.
  apply (triple_pre _ _ _ _ _ _ _ (λ s, speaks_for r a s ∧ durable a g' s)).
  { intros s _ [[Hs Hd] Hx]. split; [done | by apply Hd]. }
  eapply triple_bind; [apply invalidate_ok; [apply _ |]; intros s _ [? ?]; by auto |]. intros ?. cbn beta.
  apply triple_ret; [apply _ |]. by intros s _ [[? _] _].
Qed.

Lemma fence_heartbeat_ok a :
  ht (speaks_for r a) (fence_site_heartbeat rconfig cfg a) (λ _, speaks_for r a).
Proof.
  unfold fence_site_heartbeat. destruct (negb _); [by apply triple_ret; [apply _ |] |].
  eapply triple_bind; [apply triple_keep; [apply _ | by cbn; eauto with entitled] |]. intros [g |]; cbn beta; [| by apply triple_ret; [apply _ |]].
  eapply triple_bind; [apply agent_snapshot_ok; [apply _ | done] |]. intros [sn |]; cbn beta; [| by apply triple_ret; [apply _ |]].
  destruct (_ && _); [by apply triple_ret; [apply _ |] |].
  eapply triple_bind; [apply triple_keep; [apply _ | by cbn; eauto with entitled] |]. intros [|]; cbn [negb]; [| by apply triple_ret; [apply _ |]].
  eapply triple_conseq; [apply (bump_and_fence (speaks_for r a) a _ (λ _, True)); [apply _ | by auto | done] | done |].
  by intros ? s _ [? _].
Qed.
End Request.
End Handlers.
