(* ===== verification/CoordinatorHandlers.v ===== *)
(** * The coordinator's handlers, one by one

    A triple per route and background loop: among any other tasks it makes only
    permitted calls and its answer keeps its promise. *)

From S2P Require Import QueueSteps Scheduler RelaySpec RegistrySpec Tasks HttpAuth.
From S2P Require Export CoordinatorHelpers.

(** A permitted call that leaves what is known alone, and the rest of the handler. *)
Ltac ht_call := eapply triple_bind; [apply triple_kept;
  [apply _ | done | by cbn; intros; destruct_and?; eauto with entitled] | intros ?; cbn beta].
Ltac ht_unwrap := eapply triple_bind; [apply ht_unwrap; apply _ | intros ?; cbn beta].
Ltac ht_answer := apply triple_ret; [apply _ |].

(** ** Stored results *)

Lemma absorb_le fuel limit received left n :
  (0 ≤ left)%Z → (left / CHUNK_SIZE < Z.of_nat fuel)%Z → (received ≤ limit)%Z →
  absorb fuel limit received left = inr n → n = (received + left)%Z ∧ (n ≤ limit)%Z.
Proof.
  revert received left; induction fuel as [| fuel IH]; intros received left Hl Hf Hr; cbn [absorb].
  { pose proof (Z.div_pos left CHUNK_SIZE Hl eq_refl). lia. }
  destruct (left <=? 0)%Z eqn:H0; reflect_bools; [intros [= <-]; lia |].
  destruct (limit <? _)%Z eqn:H1; reflect_bools; [done |]. intros Hn.
  destruct (Z.le_gt_cases left CHUNK_SIZE) as [Hs | Hb].
  - rewrite Z.min_r in Hn, H1 by done. rewrite Z.sub_diag in Hn.
    assert (Hd : absorb fuel limit (received + left) 0 = inr (received + left)%Z) by (by destruct fuel).
    rewrite Hd in Hn. injection Hn as <-. lia.
  - rewrite Z.min_l in Hn, H1 by lia. destruct (IH (received + CHUNK_SIZE) (left - CHUNK_SIZE) ltac:(lia))%Z; [| lia | done | lia].
    pose proof (Z.div_add left (-1) CHUNK_SIZE ltac:(by vm_compute)).
    replace (left - CHUNK_SIZE)%Z with (left + -1 * CHUNK_SIZE)%Z by lia. lia.
Qed.

Lemma absorb_all_le limit received stream n :
  (received ≤ limit)%Z → absorb_all limit received stream = inr n →
  n = (received + Z.of_nat (length (concat stream)))%Z ∧ (n ≤ limit)%Z.
Proof.
  revert received; induction stream as [| block rest IH]; intros received Hr; cbn [absorb_all concat].
  { intros [= <-]. cbn. lia. }
  destruct (absorb _ _ _ _) as [m | m] eqn:Ha; [done |]. intros Hn.
  apply absorb_le in Ha as [-> Hm]; [| lia | | done].
  - destruct (IH _ Hm Hn) as [-> Hle]. rewrite length_app. lia.
  - pose proof (Z.div_pos (Z.of_nat (length block)) CHUNK_SIZE ltac:(lia) eq_refl). lia.
Qed.

(** An accepted payload is stored under its digest and within the limit. *)
Lemma results_put_spec sha256 limit stream dir dir' d :
  (0 ≤ limit)%Z → results_put sha256 limit stream dir = (dir', inr d) →
  d = hexdigest sha256 (concat stream) ∧ is_Some (dir' !! d) ∧ (Z.of_nat (length (concat stream)) ≤ limit)%Z.
Proof.
  intros Hl. unfold results_put. destruct (absorb_all _ _ _) as [n | n] eqn:Ha; [done |].
  destruct (absorb_all_le _ _ _ _ Hl Ha) as [-> Hle].
  destruct (dir !! _) as [b |] eqn:Hb; intros [= <- <-]; split_and!; try done; try lia.
  rewrite lookup_insert_eq. by eexists.
Qed.

Section Handlers.
  Context (sha256 : bytes → bytes) (rconfig : RegistryConfig) (cfg : CoordinatorConfig) (mb : Z) (known barred : bool)
          (churn : option ChurnModel) (set_order : list agent_id → list agent_id).
  Context (poll_sleep_pos : (0 < timedelta_us (cc_poll_sleep_s cfg))%Z) (long_poll_pos : (0 <= cc_long_poll_max_s cfg)%Q)
          (payload_limit_pos : (0 ≤ cc_max_result_payload_bytes cfg)%Z).
  Notation app_ok := (app_ok sha256 rconfig cfg mb).
  Notation speaks_for := (speaks_for sha256).
  Notation is_operator := (is_operator sha256 rconfig).
  Notation promise := (promise sha256 rconfig cfg known barred).
  Notation permitted := (permitted sha256 rconfig).
  Notation exec := (exec sha256 rconfig cfg).
  Notation ht := (triple sha256 rconfig cfg mb promise).
  Notation done_ r := (λ a s, promise r a s).

(** What is owed by a route with no promise of its own. *)
Lemma agent_promise r agent a s :
  path_agent r = Some agent → operator_only r = false → a ≠ Exhausted → request_promise sha256 cfg known r a s → barred = false →
  speaks_for r agent s → promise r a s.
Proof. intros Hp Ho He Hq Hb Hs. split_and!; [done | | done]. intros _. split; [| by rewrite Ho]. intros b. rewrite Hp. by intros [= <-]. Qed.

Lemma operator_promise r a s :
  path_agent r = None → a ≠ Exhausted → request_promise sha256 cfg known r a s → is_operator r → promise r a s.
Proof. intros Hp He Hq Ho. split_and!; [done | | done]. intros _. split; [by rewrite Hp | done]. Qed.

(** A route that begins by checking the device token against the path. *)
Lemma agent_route r i a (p : H Response) :
  path_agent r = Some a → (barred = false → ht r i (speaks_for r a) p (done_ r)) →
  ht r i (λ s, barred = true → revoked_now a s) (authorize_self sha256 a (auth_of r) ;; p) (done_ r).
Proof.
  intros Hp Hbody. destruct barred eqn:Hb.
  - eapply triple_bind; [eapply triple_pre; [| apply authorize_revoked]; by auto |]. intros ? s _ [].
  - eapply triple_bind; [eapply triple_pre; [| apply authorize_ok]; done |]. intros ?. by apply Hbody.
Qed.

(** *** Agents *)

Lemma register_ok i req host :
  let r := PostRegister req host in ht r i (λ _, True) (register cfg req host) (done_ r).
Proof.
  intros r. unfold register. ht_call. destruct a as [e | resp].
  { destruct e; first [apply ht_fails; [apply _ | lia] | apply ht_refuse; [apply _ | done | by intros []]]. }
  apply triple_seq.
  - destruct (cc_auto_assign_on_enroll cfg); [| ht_answer; done].
    unfold auto_assign_on_enroll. ht_call. destruct (negb _); [ht_answer; done |]. ht_call.
    destruct (select_model_for_agent _ _); [| ht_answer; done].
    eapply triple_bind; [apply triple_kept; [apply _ | done | intros; right; by do 2 eexists] |]. intros ?. ht_answer; done.
  - intros ?. ht_answer. done.
Qed.

Lemma heartbeat_ok i a hb auth :
  let r := PostHeartbeat a hb auth in ht r i (λ s, barred = true → revoked_now a s) (heartbeat sha256 rconfig cfg a hb auth) (done_ r).
Proof.
  intros r. unfold heartbeat. apply (agent_route r i a); [done |]. intros Hbar.
  eapply triple_bind; [apply (locked_ok sha256 rconfig cfg mb known barred r i (speaks_for r a) _ (λ _ _, True));
    [apply _ | apply _ | by eauto with entitled | done | done] |].
  intros [e | u]; cbn beta.
  { destruct e; first [apply ht_fails; [apply _ | lia] | apply ht_refuse; [apply _ | done | by intros []]]. }
  eapply triple_bind; [eapply triple_pre; [| apply fence_heartbeat_ok]; by intros s _ [? _] |]. intros ?. cbn beta.
  ht_call. ht_answer. intros s _ Hs. by eapply agent_promise.
Qed.

Lemma events_ok i a event auth :
  let r := PostEvent a event auth in ht r i (λ s, barred = true → revoked_now a s) (events sha256 cfg a event auth) (done_ r).
Proof.
  intros r. unfold events. apply (agent_route r i a); [done |]. intros Hbar.
  ht_call. ht_call. apply triple_seq.
  - destruct (_ || _); [| ht_answer; done]. eapply triple_bind; [apply fence_presence_ok |]. intros [|]; cbn beta; [ht_answer; done |].
    eapply triple_bind; [apply (locked_ok sha256 rconfig cfg mb known barred r i (speaks_for r a) _ (λ _ _, True));
    [apply _ | apply _ | by eauto with entitled | done | done] |].
    intros x. cbn beta. apply unwrap_ok; [apply _ | by intros s [? _]].
  - intros ?. cbn beta. ht_answer. intros s _ Hs. by eapply agent_promise.
Qed.

Lemma try_backup_ok r i a models K :
  Growing K → (∀ s, K s → speaks_for r a s) → ht r i K (try_backup_lease rconfig cfg churn a models) (λ _, K).
Proof.
  intros HK Ha. unfold try_backup_lease. destruct (cc_speculative_backup_enabled cfg); [| ht_answer; done].
  destruct churn as [model |]; [| ht_answer; done]. ht_call. apply triple_seq; [by apply unwrap_ok; [apply _ |] |]. intros l.
  destruct (bool_decide _); [ht_answer; done |]. ht_call. ht_call. ht_call.
  destruct (choose_backup_unit _ _ _ _ _ _); [| ht_answer; done]. ht_call. by apply unwrap_ok; [apply _ |].
Qed.

Definition leased (a : Response) : Prop := ∃ l, a = Resp 200 (BLease l).

Lemma try_lease_ok r i a K :
  Growing K → (∀ s, K s → speaks_for r a s) →
  ht r i K (try_lease rconfig cfg churn a) (λ x s, K s ∧ ∀ resp, x = Some resp → leased resp).
Proof.
  intros HK Ha. unfold try_lease. apply triple_seq; [apply agent_snapshot_ok; [apply _ | done] |]. intros [sn |]; [| ht_answer; done].
  destruct (bool_decide _); [ht_answer; done |]. ht_call. apply triple_seq; [by apply unwrap_ok; [apply _ |] |]. intros lease.
  apply triple_seq; [destruct lease; [ht_answer; done | by apply try_backup_ok] |]. intros l. ht_answer.
  intros s _ Hs. split; [done |]. intros resp. destruct l; cbn; [| done]. intros [= <-]. by eexists.
Qed.

Lemma long_poll_loop_ok i a timeout auth deadline fuel t :
  let r := GetWork a timeout auth in
  barred = false → (0 < fuel)%nat → (deadline ≤ t + (Z.of_nat fuel - 1) * timedelta_us (cc_poll_sleep_s cfg))%Z →
  ht r i (λ s, speaks_for r a s ∧ clock_past t s) (long_poll_loop rconfig cfg churn fuel a deadline) (done_ r).
Proof.
  intros r Hbar. revert t; induction fuel as [| fuel IH]; intros t H0 Hd; [lia |]. cbn [long_poll_loop].
  eapply triple_bind; [apply try_lease_ok; [apply _ | by intros s [? _]] |]. intros [resp |]; cbn beta.
  { ht_answer. intros s _ [[Hs _] Hl]. destruct (Hl resp eq_refl) as [l ->]. by eapply agent_promise. }
  eapply triple_bind; [apply (triple_learn _ _ _ _ _ _ _ _ _ (λ now s, clock_past now s ∧ (t ≤ now)%Z));
    [apply _ | apply _ | done | done |] |].
  { intros s env s' now _ [[_ Ht] _] (He & _) [= <- <-] _ _. unfold clock_past in *. cbn. lia. }
  intros now. cbn beta. destruct (deadline <=? now)%Z eqn:Hnow; reflect_bools.
  { ht_answer. intros s _ [[[Hs _] _] _]. by eapply agent_promise. }
  eapply triple_bind; [apply (triple_learn _ _ _ _ _ _ _ _ _
    (λ _ s, clock_past (now + timedelta_us (cc_poll_sleep_s cfg))%Z s)); [apply _ | apply _ | done | done |] |].
  { intros s env s' x _ _ _. cbn. destruct (_ <? _)%Z eqn:Hlt; reflect_bools; [done |]. intros [= <-] _ _. unfold clock_past. cbn. lia. }
  intros ?. cbn beta. intros s Hok ((((Hs & _) & _) & _ & Ht) & Hpast).
  apply (IH (now + timedelta_us (cc_poll_sleep_s cfg))%Z); [| | done | done]; nia.
Qed.

Lemma work_ok i a timeout auth :
  let r := GetWork a timeout auth in ht r i (λ s, barred = true → revoked_now a s) (work sha256 rconfig cfg churn a timeout auth) (done_ r).
Proof.
  intros r. unfold work. apply (agent_route r i a); [done |]. intros Hbar.
  unfold long_poll. set (budget := py_min2 _ _).
  assert (Hb : (timedelta_us budget ≤ timedelta_us (cc_long_poll_max_s cfg))%Z).
  { apply timedelta_us_mono. unfold budget, py_min2. destruct (_ <?q _) eqn:Hq; reflect_bools; lra. }
  assert (Hm : (0 ≤ timedelta_us (cc_long_poll_max_s cfg))%Z) by (by apply (timedelta_us_mono 0)).
  eapply triple_bind; [apply (triple_learn _ _ _ _ _ _ _ _ _ clock_past); [apply _ | apply _ | done | done |] |].
  { intros s env s' now _ _ _ [= <- <-] _ _. unfold clock_past. cbn. lia. }
  intros now. cbn beta. unfold poll_fuel. set (dl := timedelta_us (cc_long_poll_max_s cfg)) in *.
  set (dt := timedelta_us (cc_poll_sleep_s cfg)) in *. pose proof (Z.div_pos dl dt Hm poll_sleep_pos).
  pose proof (Z.mul_succ_div_gt dl dt poll_sleep_pos).
  apply long_poll_loop_ok; [done | lia |]. fold dt. rewrite Z2Nat.id by lia. lia.
Qed.

Lemma result_ok i a uid res n auth :
  let r := PostResult a uid res n auth in ht r i (λ s, barred = true → revoked_now a s) (result sha256 a uid res n auth) (done_ r).
Proof.
  intros r. unfold result. apply (agent_route r i a); [done |]. intros Hbar.
  destruct (negb _); [apply ht_fails; [apply _ | lia] |]. ht_call. apply triple_seq; [by apply unwrap_ok; [apply _ |] |].
  intros [|]; [| apply ht_fails; [apply _ | lia]]. ht_answer. intros s _ Hs. by eapply agent_promise.
Qed.

Lemma payload_ok i a uid n stream auth :
  let r := PostPayload a uid n stream auth in ht r i (λ s, barred = true → revoked_now a s) (payload sha256 a uid n stream auth) (done_ r).
Proof.
  intros r. unfold payload. apply (agent_route r i a); [done |]. intros Hbar.
  ht_call. apply triple_seq; [by apply unwrap_ok; [apply _ |] |]. intros current.
  destruct (negb _); [apply ht_fails; [apply _ | lia] |].
  eapply triple_bind; [apply (triple_learn _ _ _ _ _ _ _ _ _ (λ x s, ∀ d, x = inr d →
    d = hexdigest sha256 (concat stream) ∧ stored d s ∧
    (Z.of_nat (length (concat stream)) ≤ cc_max_result_payload_bytes cfg)%Z)); [apply _ | apply _ | done | by cbn; eauto |] |].
  { intros s env s' x _ _ _ Hx _ _ d ->. cbn in Hx. destruct (results_put _ _ _ _) as [dir y] eqn:Hput. injection Hx as <- ->.
    by eapply results_put_spec. }
  intros [m | d]; cbn beta; [apply ht_fails; [apply _ | lia] |].
  eapply triple_bind; [apply triple_kept; [apply _ | done | by cbn; intros s _ [? _]] |]. intros b. cbn beta.
  apply triple_seq; [by apply unwrap_ok; [apply _ |] |]. intros [|]; cbn [negb]; [| apply ht_fails; [apply _ | lia]].
  ht_answer. intros s _ [Hs Hd]. eapply agent_promise; try done. cbn. intros d' [= <-]. by apply Hd.
Qed.

Lemma unit_input_ok i uid auth :
  let r := GetInput uid auth in ht r i (λ _, True) (unit_input sha256 uid auth) (done_ r).
Proof.
  intros r. unfold unit_input. eapply triple_bind; [apply (authenticate_ok sha256 rconfig cfg mb known barred r i) |]. intros a. cbn beta.
  eapply triple_bind; [apply (triple_learn _ _ _ _ _ _ _ _ _ (λ x _, ∀ b, x = Some b → uid = hexdigest sha256 b));
    [apply _ | apply _ | done | by cbn; eauto |] |].
  { intros s env s' x Hok _ _ [= <- <-] _ _ b Hb. by apply (ao_inputs _ _ _ _ _ Hok). }
  intros [b |]; cbn beta; [| apply ht_fails; [apply _ | lia]]. ht_answer. intros s _ [_ Hb].
  split_and!; [done | done |]. cbn. intros b' [= <-]. by apply Hb.
Qed.

(** *** The relay routes *)

Lemma relay_answer r i a e K :
  Growing K → path_agent r = Some a → operator_only r = false → (∀ resp s, request_promise sha256 cfg known r resp s) → barred = false →
  (∀ s, K s → speaks_for r a s) → ht r i K (mret (Resp (relay_error_status e) NoBody)) (done_ r).
Proof. intros HK Hp Ho Hq Hb Ha. ht_answer. intros s _ Hs. eapply agent_promise; eauto. Qed.

Lemma mounted_ok r i P (p : H Response) Q : Growing P → ht r i P p Q → ht r i P (site_mounted cfg p) Q.
Proof. intros HP Hp. unfold site_mounted. destruct (cc_site_enabled cfg); [done |]. apply ht_refuse; [apply _ | done | cbn; lia]. Qed.

Lemma relay_claim_ok r i a g :
  ht r i (λ s, speaks_for r a s ∧ claimable a g s) (relay_claim a g) (λ _, speaks_for r a).
Proof.
  unfold relay_claim. eapply triple_bind; [apply triple_kept; [apply _ | done |] |].
  { intros s _ (Ha & Hd & Hb). done. }
  intros [fut [e |]]; cbn beta iota; [ht_answer; by intros s _ [? _] |]. ht_call.
  destruct a0 as [c |]; [ht_answer; by intros s _ [? _] |].
  apply triple_seq; [apply relay_ok; [apply _ | by intros s _ [? _]] |]. intros ?. ht_answer. by intros s _ [? _].
Qed.

Lemma inference_claim_ok i a auth :
  let r := GetClaim a auth in ht r i (λ s, barred = true → revoked_now a s) (inference_claim sha256 cfg a auth) (done_ r).
Proof.
  intros r. unfold inference_claim. apply mounted_ok; [apply _ |].
  apply (agent_route r i a); [done |]. intros Hbar.
  eapply triple_bind; [apply (triple_read_learn _ _ _ _ _ _ _ _ _ (site_generation a)
    (λ x s, ∀ g, x = Some g → claimable a g s)); [apply _ | apply _ | done | done | by cbn; eauto with entitled |] |].
  { intros s Hok _ g Hg. by eapply site_generation_claimable. }
  intros [g |]; cbn beta; [| apply ht_fails; [apply _ | lia]].
  eapply triple_bind; [eapply triple_pre; [| apply (relay_claim_ok r i a g)] |].
  { intros s _ [Hs Hg]. split; [done | by apply Hg]. }
  intros [e | [claim |]]; cbn beta iota.
  - destruct e; [ht_answer; intros s _ Hs; by eapply agent_promise | apply ht_refuse; [apply _ | done | by intros []]].
  - ht_call. ht_call. destruct a0 as [w |]; [| apply ht_refuse; [apply _ | done | by intros []]].
    ht_answer. intros s _ Hs. by eapply agent_promise.
  - ht_answer. intros s _ Hs. by eapply agent_promise.
Qed.

Lemma write_pieces_ok r i a c g pieces :
  ht r i (speaks_for r a) (write_pieces a c g pieces) (λ _, speaks_for r a).
Proof.
  induction pieces as [| x pieces IH]; cbn [write_pieces]; [ht_answer; done |].
  apply triple_seq; [by apply relay_ok; [apply _ |] |]. intros [e |]; [ht_answer; done | done].
Qed.

Lemma inference_response_ok i a c g st ct chunks ab auth :
  let r := PostResponse a c g st ct chunks ab auth in
  ht r i (λ s, barred = true → revoked_now a s) (inference_response sha256 cfg a c g st ct chunks ab auth) (done_ r).
Proof.
  intros r. unfold inference_response. apply mounted_ok; [apply _ |].
  apply (agent_route r i a); [done |]. intros Hbar.
  apply triple_seq; [by apply relay_ok; [apply _ |] |]. intros [e |]; [apply (relay_answer r i a); [apply _ | done..] |].
  apply triple_seq; [apply write_pieces_ok |]. intros [e |]; [apply (relay_answer r i a); [apply _ | done..] |].
  destruct ab.
  - apply triple_seq; [by apply relay_ok; [apply _ |] |]. intros ?. apply ht_refuse; [apply _ | done | by intros []].
  - apply triple_seq; [by apply relay_ok; [apply _ |] |]. intros [e |]; [apply (relay_answer r i a); [apply _ | done..] |].
    ht_answer. intros s _ Hs. by eapply agent_promise.
Qed.

Lemma inference_failure_ok i a c g code re auth :
  let r := PostFailure a c g code re auth in
  ht r i (λ s, barred = true → revoked_now a s) (inference_failure sha256 cfg a c g code re auth) (done_ r).
Proof.
  intros r. unfold inference_failure. apply mounted_ok; [apply _ |].
  apply (agent_route r i a); [done |]. intros Hbar.
  apply triple_seq; [destruct (negb re); [apply triple_kept; [apply _ | done | by cbn; eauto with entitled] | ht_answer; done] |]. intros ?.
  apply triple_seq; [by apply relay_ok; [apply _ |] |]. intros [e |]; [apply (relay_answer r i a); [apply _ | done..] |].
  ht_answer. intros s _ Hs. by eapply agent_promise.
Qed.

(** *** The operator *)

(** A route behind the operator's key with no promise of its own. *)
Lemma operator_route r i (p : H Response) :
  path_agent r = None → (∀ resp s, request_promise sha256 cfg known r resp s) →
  ht r i (λ _, is_operator r) p (λ a _, is_operator r ∧ a ≠ Exhausted) →
  ht r i (λ _, True) (authenticate_admin sha256 rconfig (auth_of r) ;; p) (done_ r).
Proof.
  intros Hp Hq Hbody. eapply triple_bind; [apply admin_ok |]. intros ?. eapply triple_conseq; [exact Hbody | done |].
  intros resp s _ [Ho He]. by apply operator_promise.
Qed.

Ltac op_seq := apply triple_seq; [by apply unwrap_ok; [apply _ |] |]; intros ?.
Ltac op_fails := apply ht_fails; [apply _ | lia].

Lemma simple_operator_ok i :
  (∀ auth, let r := PostToken auth in
     ht r i (λ _, True) (create_enrollment_token sha256 rconfig auth) (done_ r)) ∧
  (∀ auth, let r := GetTokens auth in ht r i (λ _, True) (list_enrollment_tokens sha256 rconfig auth) (done_ r)) ∧
  (∀ id auth, let r := DeleteToken id auth in
     ht r i (λ _, True) (revoke_enrollment_token sha256 rconfig id auth) (done_ r)) ∧
  (∀ n al rpm dl auth, let r := PostKey n al rpm dl auth in
     ht r i (λ _, True) (create_api_key sha256 rconfig n al rpm dl auth) (done_ r)) ∧
  (∀ auth, let r := GetAgents auth in ht r i (λ _, True) (list_agents sha256 rconfig auth) (done_ r)) ∧
  (∀ auth, let r := GetRevoked auth in ht r i (λ _, True) (list_revoked sha256 rconfig auth) (done_ r)) ∧
  (∀ auth, let r := GetModels auth in ht r i (λ _, True) (list_models_route sha256 rconfig auth) (done_ r)).
Proof.
  split_and!; intros; (apply (operator_route r i); [done | done |]).
  - ht_call. op_seq. by ht_answer.
  - ht_call. by ht_answer.
  - ht_call. destruct a as [e | [|]]; [| by ht_answer | op_fails].
    destruct e; first [op_fails | apply ht_refuse; [apply _ | done | by intros []]].
  - ht_call. op_seq. by ht_answer.
  - ht_call. ht_call. by ht_answer.
  - ht_call. by ht_answer.
  - ht_call. by ht_answer.
Qed.

Lemma register_model_ok i m blob ex auth :
  let r := PostModel m blob ex auth in ht r i (λ _, True) (register_model sha256 rconfig m blob ex auth) (done_ r).
Proof.
  intros r. apply (operator_route r i); [done | done |]. destruct ex; cbn [negb]; [| op_fails]. ht_call. op_seq. by ht_answer.
Qed.

Lemma agent_fit_ok i a m auth :
  let r := GetFit a m auth in ht r i (λ _, True) (agent_fit sha256 rconfig a m auth) (done_ r).
Proof.
  intros r. apply (operator_route r i); [done | done |]. ht_call. destruct a0; [| op_fails]. ht_call. ht_call.
  destruct (snapshot_of _ _); [by ht_answer | op_fails].
Qed.

Lemma reject_unfit_ok r i manifest m live targets :
  ht r i (λ _, is_operator r) (reject_unfit manifest m live targets) (λ _ _, is_operator r).
Proof.
  induction targets as [| a targets IH]; cbn [reject_unfit]; [by ht_answer |]. destruct (last _); [| done].
  ht_call. destruct (bool_decide _); [done |]. destruct (negb _); [| done]. apply ht_refuse; [apply _ | done | cbn; lia].
Qed.

Lemma replace_each_ok r i m targets agents :
  ht r i (λ _, is_operator r) (replace_each m targets agents) (λ _ _, is_operator r).
Proof.
  induction agents as [| a agents IH]; cbn [replace_each]; [by ht_answer |]. ht_call. apply triple_seq; [| done].
  destruct (bool_decide (_ = _)); [by ht_answer |]. ht_call. by apply unwrap_ok; [apply _ |].
Qed.

Lemma set_assignments_ok i m agents auth :
  let r := PutAssignments m agents auth in
  ht r i (λ _, True) (set_assignments_route sha256 rconfig set_order m agents auth) (done_ r).
Proof.
  intros r. apply (operator_route r i); [done | done |]. apply triple_seq.
  - unfold reject_unfit_assignment. ht_call. destruct a; [| by ht_answer]. destruct (bool_decide _); [by ht_answer |].
    ht_call. ht_call. apply reject_unfit_ok.
  - intros ?. apply triple_seq; [| intros ?; by ht_answer]. unfold replace_model_assignment. ht_call. ht_call. ht_call.
    apply replace_each_ok.
Qed.

Lemma fit_each_ok r i manifest m agents assigned kept skipped :
  ht r i (λ _, is_operator r) (fit_each manifest m agents assigned kept skipped) (λ _ _, is_operator r).
Proof.
  revert assigned kept skipped; induction agents as [| a agents IH]; intros assigned kept skipped; cbn [fit_each]; [by ht_answer |].
  ht_call. destruct (bool_decide (m ∈ _)); [apply IH |]. destruct (negb _); [apply IH |]. destruct (negb _); [apply IH |].
  ht_call. op_seq. ht_call. destruct (bool_decide _); apply IH.
Qed.

Lemma fit_assignments_ok i m auth :
  let r := PostFit m auth in ht r i (λ _, True) (fit_assignments sha256 rconfig m auth) (done_ r).
Proof.
  intros r. apply (operator_route r i); [done | done |]. ht_call. destruct a; [| op_fails]. ht_call. ht_call.
  apply triple_seq; [apply fit_each_ok |]. intros ?. ht_call. ht_call. by ht_answer.
Qed.

Lemma store_inputs_ok r i files :
  Forall (λ f, f.1 = hexdigest sha256 f.2) files →
  ht r i (λ _, is_operator r) (store_inputs files) (λ _ _, is_operator r).
Proof.
  induction 1 as [| [name blob] files Hf Hfs IH]; cbn [store_inputs]; [by ht_answer |].
  apply triple_seq; [by apply triple_kept; [apply _ | |] | done].
Qed.

Lemma chunk_job_named job p n units :
  chunk_job sha256 job p n = inr units → Forall (λ f, f.1 = hexdigest sha256 f.2) (snd <$> units).
Proof.
  assert (Hs : ∀ m blobs, Forall (λ f, f.1 = hexdigest sha256 f.2) (snd <$> store_units sha256 m blobs)).
  { intros m blobs. apply Forall_forall. intros f (u & -> & Hu)%list_elem_of_fmap. unfold store_units in Hu.
    rewrite list_elem_of_lookup in Hu. destruct Hu as [k Hk]. rewrite list_lookup_imap in Hk.
    by apply fmap_Some in Hk as (b & _ & ->). }
  unfold chunk_job, chunk_embed, chunk_transcribe.
  destruct (js_kind job); [done | | destruct p as [| | [|] |]]; try done; [| by intros [= <-]].
  destruct (load_embed_texts p) as [e | [| t texts]]; [done | done |]. intros [= <-]. apply Hs.
Qed.

Lemma submit_job_ok i job p auth :
  let r := PostJob job p auth in ht r i (λ _, True) (submit_job_route sha256 rconfig cfg job p auth) (done_ r).
Proof.
  intros r. apply (operator_route r i); [done | done |].
  destruct (chunk_job _ _ _ _) as [e | units] eqn:Hu; [op_fails |].
  apply triple_seq; [by eapply store_inputs_ok, chunk_job_named |]. intros ?. ht_call. op_seq. ht_call.
  apply triple_seq; [by apply unwrap_ok; [apply _ |] |]. intros [st |]; [by ht_answer | op_fails].
Qed.

Lemma job_status_ok i id auth :
  let r := GetJob id auth in ht r i (λ _, True) (job_status_route sha256 rconfig id auth) (done_ r).
Proof.
  intros r. apply (operator_route r i); [done | done |]. ht_call.
  apply triple_seq; [by apply unwrap_ok; [apply _ |] |]. intros [st |]; [by ht_answer | op_fails].
Qed.

Lemma work_unit_payload_ok i uid auth :
  let r := GetPayload uid auth in ht r i (λ _, True) (work_unit_payload sha256 rconfig uid auth) (done_ r).
Proof.
  intros r. apply (operator_route r i); [done | done |]. ht_call.
  apply triple_seq; [by apply unwrap_ok; [apply _ |] |]. intros [ref |]; [| op_fails]. destruct (negb _); [op_fails |].
  ht_call. destruct a0; [by ht_answer | op_fails].
Qed.

Lemma mint_tokens_ok r i n : ht r i (λ _, is_operator r) (mint_tokens n) (λ _ _, is_operator r).
Proof.
  induction n as [| n IH]; cbn [mint_tokens]; [by ht_answer |]. ht_call. op_seq. apply triple_seq; [done |]. intros ?. by ht_answer.
Qed.

Lemma fleet_rows_ok r i live entries : ht r i (λ _, is_operator r) (fleet_rows live entries) (λ _ _, is_operator r).
Proof.
  induction entries as [| e entries IH]; cbn [fleet_rows]; [by ht_answer |]. ht_call. apply triple_seq; [done |]. intros ?. by ht_answer.
Qed.

Lemma site_operator_ok i :
  (∀ n auth, let r := PostJoinBundles n auth in ht r i (λ _, True) (join_bundles sha256 rconfig cfg n auth) (done_ r)) ∧
  (∀ auth, let r := GetFleet auth in ht r i (λ _, True) (fleet_status sha256 rconfig cfg auth) (done_ r)).
Proof.
  split; intros; [unfold join_bundles | unfold fleet_status];
    (destruct (negb _); [apply ht_refuse; [apply _ | done | cbn; lia] |]); (apply (operator_route r i); [done | done |]).
  - apply triple_seq; [apply mint_tokens_ok |]. intros ?. by ht_answer.
  - ht_call. ht_call. ht_call. apply triple_seq; [apply fleet_rows_ok |]. intros ?. by ht_answer.
Qed.

(** *** Revocation *)

(** A revocation that answers leaves its mark in the history, at a generation no
    later one goes below. *)
Lemma revoke_result i s env s' a :
  app_ok s → exec _ i env (RegDo (RRevoke a)) s = Some (s', inr tt) → ∃ g, revoked_at_gen a g s'.
Proof.
  intros Hok. cbn. set (s1 := set_clock (e_now env) s). unfold revoke_agent, update_agent, revoked_at_gen.
  unfold mbind, eff_bind, gets, modify, raise, mret, eff_ret. cbv beta iota.
  destruct (missing a (r_agents (app_reg s))) eqn:Hm; [done |]. intros [= <-].
  unfold missing in Hm. reflect_bools. cbn. destruct (od_get a (r_agents (app_reg s))) as [row |] eqn:Hr; [| done].
  destruct (bool_decide (ar_revoked_at row = None)) eqn:Hb; reflect_bools; cbn.
  - rewrite lookup_insert_eq. by eexists.
  - by destruct (ao_revoked _ _ _ _ _ Hok a row Hr Hb) as [g ?]; exists g.
Qed.

Lemma revoked_gen_below s a g row :
  app_ok s → revoked_at_gen a g s → od_get a (r_agents (app_reg s)) = Some row → (g < ar_presence_generation row + 1)%Z.
Proof.
  intros Hok Hg Hr. destruct (ao_history _ _ _ _ _ Hok a g Hg) as (row' & ? & _ & ?). simplify_eq. lia.
Qed.

(** Whether the revocation must reach the relay. *)
Definition relayed_known (a : agent_id) (relayed : bool) (s : App) : Prop :=
  known = true → ∃ t, has_transport a t s ∧ (cc_site_enabled cfg = true → t = SITE_RELAY → relayed = true).

Lemma is_relay_agent_ok r i a :
  ht r i (λ s, is_operator r ∧ (known = true → ∃ t, has_transport a t s)) (is_relay_agent cfg a)
    (λ relayed s, is_operator r ∧ relayed_known a relayed s).
Proof.
  unfold is_relay_agent, relayed_known. destruct (cc_site_enabled cfg); cbn [negb].
  2: { ht_answer. intros s _ [Ho Ht]. split; [done |]. intros Hk. destruct (Ht Hk) as [t ?]. by exists t. }
  eapply triple_bind; [apply (triple_read_learn _ _ _ _ _ _ _ _ _ (agent_transport a)
    (λ x s, known = true → ∃ t, has_transport a t s ∧ x = Some t));
    [apply _ | apply _ | done | done | by cbn; intros ?? [? _]; eauto with entitled |] |].
  - intros s _ [_ Ht] Hk. destruct (Ht Hk) as (t & row & Hr & <-). exists (ar_transport row). split; [by exists row |].
    unfold agent_transport. by rewrite Hr.
  - intros x. cbn beta. ht_answer. intros s _ [[Ho _] Ht]. split; [done |]. intros Hk. destruct (Ht Hk) as (t & Hh & ->).
    exists t. split; [done |]. intros _ ->. done.
Qed.

Lemma evict_ok r i a g relayed :
  ht r i (λ s, (is_operator r ∧ relayed_known a relayed s) ∧ revoked_at_gen a g s)
    (if relayed : bool then evict_from_relay a else mret tt)
    (λ _ s, is_operator r ∧ revoked_out cfg known a s).
Proof.
  assert (Hout : ∀ s, app_ok s → revoked_at_gen a g s → relayed_known a relayed s →
    (relayed = true → ∃ g', (g < g')%Z ∧ fence_at a g' s) → revoked_out cfg known a s).
  { intros s Hok Hg Hrel Hf. destruct (ao_history _ _ _ _ _ Hok a g Hg) as (row & Hr & _).
    exists g, (ar_transport row). split_and!; [done | by exists row |]. intros Hk Hsite Ht.
    destruct (Hrel Hk) as (t & (row' & ? & <-) & Hrelay). simplify_eq. by apply Hf, Hrelay. }
  destruct relayed.
  - eapply triple_conseq; [apply (bump_and_fence sha256 rconfig cfg mb known barred r i
      (λ s, (is_operator r ∧ relayed_known a true s) ∧ revoked_at_gen a g s) a "revoked" (λ g', (g < g')%Z)); [apply _ | |] | done |].
    + intros s _ [[Ho _] _]. by auto.
    + intros s row Hok [_ Hg] Hr. by eapply revoked_gen_below.
    + intros ? s Hok (((Ho & Hrel) & Hg) & Hf). split; [done |]. by apply Hout.
  - ht_answer. intros s Hok [[Ho Hrel] Hg]. split; [done |]. by apply Hout.
Qed.

Lemma revoke_ok i a auth :
  let r := PostRevoke a auth in
  ht r i (λ s, known = true → ∃ t, has_transport a t s) (revoke_agent_route sha256 rconfig cfg a auth) (done_ r).
Proof.
  intros r. unfold revoke_agent_route. eapply triple_bind.
  { eapply triple_pre; [| apply (triple_frame _ _ _ _ _ _ _ (λ s, known = true → ∃ t, has_transport a t s)); [apply _ |];
      apply (admin_ok sha256 rconfig cfg mb known barred r i)]. by auto. }
  intros ?. cbn beta. eapply triple_bind; [apply (is_relay_agent_ok r i a) |]. intros relayed. cbn beta.
  eapply triple_bind; [apply (triple_learn _ _ _ _ _ _ _ _ _ (λ x s, x = inr tt → ∃ g, revoked_at_gen a g s));
    [apply _ | apply _ | done | by intros s _ [? _] |] |].
  { intros s env s' x Hok _ _ Hx _ _ ->. by eapply revoke_result. }
  intros [e | []]; cbn beta.
  { destruct e; first [op_fails | apply ht_refuse; [apply _ | done | by intros []]]. }
  eapply triple_bind; [apply triple_kept; [apply _ | done | by intros s _ [[? _] _]; left] |]. intros x. cbn beta.
  apply triple_seq; [by apply unwrap_ok; [apply _ |] |]. intros ?.
  eapply triple_bind with (R := λ _ s, is_operator r ∧ revoked_out cfg known a s);
    [| intros ?; ht_answer; intros s _ [Ho Hr]; apply operator_promise; [done | done | by intros _ | done]].
  intros s Hok [Hk Hg]. destruct (Hg eq_refl) as [g Hg']. by apply (evict_ok r i a g relayed).
Qed.

(** *** Background loops *)

Lemma list_offline_now now s :
  reg_ok (app_reg s) → clock_past now s →
  Forall (λ a, offline_now rconfig a s) (list_offline rconfig now (app_reg s)).
Proof.
  intros Hreg Hc. apply Forall_forall. intros a ((a' & row) & -> & Hin)%list_elem_of_fmap.
  apply list_elem_of_filter in Hin as [Hoff Hin]. exists row. split; [apply elem_of_od_get; [apply Hreg | done] |].
  by apply (is_offline_later rconfig now (app_clock s) row row).
Qed.

Lemma tick_ok i : ht DispatchTick i (λ _, True) tick (done_ DispatchTick).
Proof. unfold tick. ht_call. ht_answer. intros s _ _. by destruct a. Qed.

Lemma catch_ok {A} r i P (p : H A) Q : ht r i P p Q → ht r i P (prog_bind p (λ x, mret (M := H) x)) (λ _ _, True).
Proof. intros Hp s Hok Hs. apply ok_prog_bind; [apply _ |]. eapply ok_mono; [by apply Hp |]. by intros. Qed.

Lemma evict_each_ok i agents :
  ht EvictionSweep i (λ s, Forall (λ a, offline_now rconfig a s) agents ∧ holding i s) (evict_each cfg agents) (λ _ _, True).
Proof.
  induction agents as [| a agents IH]; cbn [evict_each]; [by ht_answer |].
  eapply triple_bind; [apply triple_kept; [apply _ | done |] |].
  { intros s _ [Ha Hl]. cbn. split_and!; [done | done |]. by inversion Ha. }
  intros x. cbn beta. apply triple_seq; [by apply unwrap_ok; [apply _ |] |]. intros ?.
  apply triple_seq; [| intros ?; eapply triple_pre; [| exact IH]; intros s _ [Ha Hl]; split; [by inversion Ha | done]].
  unfold invalidate_offline_relay. destruct (negb _); [by ht_answer |]. ht_call. destruct a1; [| by ht_answer].
  ht_call. destruct (negb _); [by ht_answer |].
  eapply triple_conseq; [apply (bump_and_fence sha256 rconfig cfg mb known barred EvictionSweep i
    (λ s, Forall (λ a, offline_now rconfig a s) (a :: agents) ∧ holding i s) a "offline" (λ _, True)); [apply _ | by auto | done] | done |].
  by intros ? s _ [? _].
Qed.

Lemma offline_eviction_ok i : ht EvictionSweep i (λ _, True) (offline_eviction rconfig cfg) (done_ EvictionSweep).
Proof.
  unfold offline_eviction. eapply triple_bind.
  { apply (triple_call _ _ _ _ _ _ _ _ (λ _, holding i)); [apply _ | apply _ |]. intros s Hok Hs. split; [by cbn; eauto with entitled |].
    intros env s' x _ Hex _ Hg. cbn in Hex. destruct (app_lock s); by simplify_eq. }
  intros ?. cbn beta. eapply triple_bind with (R := λ now s, clock_past now s ∧ holding i s).
  { apply triple_call; [apply _ | apply _ |]. intros s Hok Hs. split; [done |]. intros env s' x _ [= <- <-] _ _.
    split; [by unfold clock_past; cbn; lia | done]. }
  intros now. cbn beta. eapply triple_bind with (R := λ l s, Forall (λ a, offline_now rconfig a s) l ∧ holding i s).
  { apply triple_call; [apply _ | apply _ |]. intros s Hok [Hc Hl]. split; [by cbn; eauto with entitled |]. intros env s' x (He & _) [= <- <-] _ _.
    split; [| done]. apply (list_offline_now now (set_clock (e_now env) s)); [apply (ok_reg _ _ _ _ s Hok) |].
    unfold clock_past in *. cbn. lia. }
  intros l. cbn beta. eapply triple_bind; [eapply catch_ok, evict_each_ok |]. intros swept. cbn beta.
  apply triple_seq; [apply triple_keep; [apply _ | by cbn; eauto with entitled] |]. intros ?. ht_answer.
  intros s _ _. by destruct swept.
Qed.

(** *** Every request *)

(** What is known of a request when it arrives. *)
Definition arrival (r : Request) (s : App) : Prop :=
  (known = true → names_registered r s) ∧ (barred = true → agent_barred r s).

Lemma route_ok r i : ht r i (arrival r) (route sha256 rconfig cfg churn set_order r) (done_ r).
Proof.
  assert (Hall : ∀ (p : H Response) Q, ht r i (λ _, True) p Q → ht r i (arrival r) p Q).
  { intros p Q Hp. by eapply triple_pre; [| exact Hp]. }
  assert (Hag : ∀ a (p : H Response) Q, path_agent r = Some a →
    ht r i (λ s, barred = true → revoked_now a s) p Q → ht r i (arrival r) p Q).
  { intros a p Q Ha Hp. eapply triple_pre; [| exact Hp]. intros s _ [_ Hb] Hbar. destruct (Hb Hbar) as (a' & ? & ?).
    by simplify_eq. }
  destruct (simple_operator_ok i) as (T1 & T2 & T3 & T4 & T5 & T6 & T7). destruct (site_operator_ok i) as [T8 T9].
  destruct r; cbn [route];
    try (eapply Hag; [done |]; (apply heartbeat_ok || apply events_ok || apply work_ok || apply result_ok || apply payload_ok
      || apply inference_claim_ok || apply inference_response_ok || apply inference_failure_ok));
    try (apply Hall; (apply register_ok || apply unit_input_ok || apply T1 || apply T2 || apply T3 || apply T4 || apply T5
      || apply T6 || apply T7 || apply register_model_ok || apply agent_fit_ok || apply set_assignments_ok
      || apply fit_assignments_ok || apply submit_job_ok || apply job_status_ok || apply work_unit_payload_ok
      || apply T8 || apply T9 || apply tick_ok || apply offline_eviction_ok)).
  eapply triple_pre; [| apply (revoke_ok i agent auth)]. intros s _ [Hk _] Hkn. destruct (Hk Hkn) as [row Hr].
  by exists (ar_transport row), row.
Qed.

Lemma serve_ok r i s :
  app_ok s → arrival r s →
  ok exec env_ok app_ok app_grows app_rely permitted r i (promise r) (serve sha256 rconfig cfg churn set_order r) s.
Proof.
  intros Hok Hk. apply ok_run_handler; [apply _ |]. eapply okh_mono; [by apply route_ok |].
  intros a s' _ Ha s1 [G _] _. by eapply promise_growing.
Qed.
End Handlers.
