(* ===== verification/CoordinatorSpec.v ===== *)
(** * What the coordinator guarantees

    The coordinator as a world of interleaved handlers over the shared state, with
    the gateway, the ingestion service and the clean-up of cancelled requests beside
    them; and what holds in every world it reaches: each store keeps its own
    contract, calls are authorised, eviction only hits agents offline at that
    moment, the relay's fence stays behind the durable generation, revocation is
    final, long polls end. *)

From S2P Require Import QueueSteps Scheduler RelaySpec RegistrySpec Tasks HttpAuth.
From S2P Require Export CoordinatorHandlers.

(** ** Beside the handlers *)

(** The relay methods called by the gateway, and by the clean-up of a cancelled
    claim or upload. *)
Definition beside (c : Relay.Call) : bool :=
  match c with
  | Offer _ _ _ _ _ | Disconnect _ | Next _ | GiveUp _ | Abandon _ _ => true
  | Fail_ _ _ _ code => bool_decide (code = "cancelled")
  | _ => false
  end.

Section Background.
  Context (sha256 : bytes → bytes) (rconfig : RegistryConfig) (cfg : CoordinatorConfig).

Inductive app_background : App → App → Prop :=
  | bg_time s t : (app_clock s ≤ t)%Z → app_background s (set_clock t s)
  | bg_relay s c now b' tasks e :
      beside c = true → Relay.fresh c (Relay.w_broker (app_relay s)) →
      Relay.run_call c now (Relay.w_broker (app_relay s)) = (b', tasks, e) →
      app_background s (set_relay {| Relay.w_broker := b'; Relay.w_tasks := Relay.w_tasks (app_relay s) ++ tasks |} s)
  | bg_task s t now rest b' tasks :
      remove_first t (Relay.w_tasks (app_relay s)) = Some rest →
      Relay.run_task t now (Relay.w_broker (app_relay s)) = Some (b', tasks) →
      app_background s (set_relay {| Relay.w_broker := b'; Relay.w_tasks := rest ++ tasks |} s)
  | bg_flag s claim : app_background s (set_flags (flags_take claim (app_flags s)).1 s)
  | bg_quotas s items : app_background s (set_reg (save_quota_snapshots items (app_reg s)).1 s)
  | bg_input s blob : app_background s
      (match app_inputs s !! hexdigest sha256 blob with
       | Some _ => s
       | None => set_inputs (<[hexdigest sha256 blob := blob]> (app_inputs s)) s
       end)
  | bg_ingest s job units id now :
      jobs (app_queue s) !! id = None →
      app_background s (set_queue (submit_job job units true id now (app_queue s)).1 s)
  | bg_finalized s job n : app_background s (set_queue (mark_job_finalized job n (app_queue s)).1 s).
End Background.

Section Coordinator.
  Context (sha256 : bytes → bytes) (rconfig : RegistryConfig) (cfg : CoordinatorConfig) (mb : Z)
          (churn : option ChurnModel) (set_order : list agent_id → list agent_id).
  Notation app_ok := (app_ok sha256 rconfig cfg mb).
  Notation speaks_for := (speaks_for sha256).
  Notation is_operator := (is_operator sha256 rconfig).
  Notation permitted := (permitted sha256 rconfig).
  Notation exec := (exec sha256 rconfig cfg).

Lemma background_ok s s' : app_ok s → app_background sha256 s s' → app_ok s' ∧ ∀ j, app_rely j s s'.
Proof.
  intros Hok Hb. assert (Hs : ∀ i, steps_ok sha256 rconfig cfg mb i s s').
  { intros i. destruct Hb as [s t Ht | s c now b' tasks e Hc Hf Hrun | s t now rest b' tasks Hrem Hrun | s claim | s items
      | s blob | s job units id now Hid | s job n].
    - by apply clock_steps.
    - apply quiet_relay_steps; [done | by eapply call_step |].
      pose proof (run_call_no_issue c now (Relay.w_broker (app_relay s))) as Hn. rewrite Hrun in Hn. apply Hn. by destruct c.
    - by eapply relay_task_steps.
    - apply steps_ok_frame; try done; apply Hok.
    - by apply (reg_steps sha256 rconfig cfg mb i s (SaveQuotas items)); [| | right].
    - by apply input_steps.
    - apply queue_steps; [done |]. apply rtc_once. exists (SubmitJob job units true id now).
      destruct (submit_job job units true id now (app_queue s)) as [d r] eqn:Hd. destruct (eff_discard _ _ _ _ Hd) as [r' Hr'].
      by apply (qstep_intro _ _ _ _ _ key_row_order r').
    - apply queue_steps; [done |]. apply rtc_once. exists (MarkJobFinalized job n).
      destruct (mark_job_finalized job n (app_queue s)) as [d r] eqn:Hd. destruct (eff_discard _ _ _ _ Hd) as [r' Hr'].
      by apply (qstep_intro _ _ _ _ _ key_row_order r'). }
  split; [apply (Hs 0%nat) |]. intros j. by apply (Hs (S j)).
Qed.

(** ** The world *)

(** A request with what was true of it when it arrived. *)
Definition Tagged : Type := Request * bool * bool.

#[export] Instance names_registered_dec r s : Decision (names_registered r s).
Proof. destruct r; apply _. Defined.

#[export] Instance agent_barred_dec r s : Decision (agent_barred r s).
Proof.
  unfold agent_barred, revoked_now. destruct (path_agent r) as [a |]; [| right; by intros (a & ? & _)].
  destruct (od_get a (r_agents (app_reg s))) as [row |] eqn:Hr; [| right; intros (a' & ? & row & ? & _); congruence].
  destruct (decide (ar_revoked_at row = None)); [right; intros (a' & ? & row' & ? & ?) | left; eauto 8]. by simplify_eq.
Defined.

Definition tag (r : Request) (s : App) : Tagged := (r, bool_decide (names_registered r s), bool_decide (agent_barred r s)).

Definition arrives (t : Tagged) (s : App) : Prop := t = tag t.1.1 s.

(** One step of the coordinator: a request arrives, a handler performs its next
    call, a handler is cancelled and leaves the lock, or something beside them
    acts. *)
Definition coordinator_step :=
  wstep (Req := Tagged) exec env_ok (app_background sha256) release
    (λ t, serve sha256 rconfig cfg churn set_order t.1.1) arrives.

Definition tpromise (t : Tagged) := promise sha256 rconfig cfg t.1.2 t.2 t.1.1.

Definition started (inputs : gmap string bytes) : World Call App Tagged Response := quiet (initial_app inputs mb).

Lemma initial_ok inputs : map_Forall (λ n b, n = hexdigest sha256 b) inputs → app_ok (initial_app inputs mb).
Proof.
  intros Hin. split; cbn; try done; try apply rtc_refl.
Qed.

Section Sound.
  Context (poll_sleep_pos : (0 < timedelta_us (cc_poll_sleep_s cfg))%Z) (long_poll_pos : (0 <= cc_long_poll_max_s cfg)%Q)
          (payload_limit_pos : (0 ≤ cc_max_result_payload_bytes cfg)%Z).

Lemma coordinator_sound :
  Sound exec env_ok (app_background sha256) release (λ t : Tagged, serve sha256 rconfig cfg churn set_order t.1.1) arrives
    app_ok app_grows app_rely (λ t, permitted t.1.1) tpromise.
Proof.
  split.
  - intros [[r known] barred] i X c env s s' x Hok Hp He Hx. by eapply exec_sound.
  - intros i s Hok. destruct (release_steps sha256 rconfig cfg mb i s Hok) as (? & _ & ?). by split.
  - apply background_ok.
  - intros [[r known] barred] i s Hok Ha. apply (ok_reindex _ _ _ _ _ permitted (λ t : Tagged, t.1.1)).
    apply (serve_ok sha256 rconfig cfg mb known barred); try done.
    injection Ha as -> ->. split; intros H; by apply bool_decide_eq_true in H.
Qed.

Context (inputs : gmap string bytes) (inputs_named : map_Forall (λ n b, n = hexdigest sha256 b) inputs).

Definition reached (w : World Call App Tagged Response) : Prop := rtc coordinator_step (started inputs) w.

Lemma reached_trans w w' : reached w → rtc coordinator_step w w' → reached w'.
Proof. unfold reached. intros. by etransitivity. Qed.

Lemma reached_ok w : reached w → app_ok (g_state w).
Proof. intros Hr. eapply reachable_world_ok; [| apply coordinator_sound | apply (initial_ok inputs inputs_named) | exact Hr]. apply _. Qed.

Lemma reached_call w i t X (c : Call X) k :
  reached w → g_tasks w !! i = Some (t, Do c k) → permitted t.1.1 i X c (g_state w).
Proof.
  intros Hr Hi. eapply (reachable_call _ _ _ _ _ _ _ _ _ _ _ coordinator_sound); [| exact Hr | exact Hi].
  by apply initial_ok.
Qed.

Lemma reached_answer w i t a :
  reached w → g_tasks w !! i = Some (t, Ret a) → tpromise t a (g_state w).
Proof.
  intros Hr Hi. eapply (reachable_answer _ _ _ _ _ _ _ _ _ _ _ coordinator_sound); [| exact Hr | exact Hi].
  by apply initial_ok.
Qed.

(** The state only grows. *)
Lemma reached_grows w w' : reached w → rtc coordinator_step w w' → app_grows (g_state w) (g_state w').
Proof.
  intros Hr Hs. induction Hs as [w | w1 w2 w3 Hstep Hs IH]; [done |].
  assert (Hr2 : reached w2) by (by apply (rtc_r _ w1)). etransitivity; [| by apply IH]. pose proof (reached_ok w1 Hr) as Hok.
  inversion Hstep as [i r w Hi Ha Heq | i r X c k env s' x w Hi He Hx Heq | i r p w Hi Heq | s' w Hb Heq]; subst; cbn.
  - done.
  - pose proof (reached_call w1 i r X c k Hr Hi) as Hp.
    by destruct (exec_sound sha256 rconfig cfg mb _ i X c env _ _ x Hok Hp He Hx) as (_ & ? & _).
  - by destruct (release_steps sha256 rconfig cfg mb i _ Hok) as (_ & ? & _).
  - destruct (background_ok _ _ Hok Hb) as [_ Hrely]. by destruct (Hrely 0%nat).
Qed.

(** ** Theorems *)

(** Composition, at the grain of the model: a store method is one committed step, and
    a handler is cancelled between such steps.  However handlers, background loops,
    the gateway and the ingestion service then interleave, the queue, the registry and
    the relay are each in a state their own methods reach.  In the code the methods of
    one connection share its transaction, and a cancelled statement leaves that open. *)
Theorem components_reachable w :
  reached w →
  QueueSteps.reachable (cc_max_attempts cfg) (cc_default_lease_s cfg) (app_queue (g_state w)) ∧
  reg_reachable sha256 rconfig (app_reg (g_state w)) ∧ Relay.reachable mb (app_relay (g_state w)).
Proof. intros Hr. pose proof (reached_ok w Hr) as Hok. split_and!; apply Hok. Qed.

(** Who may have a call made for them. *)
Definition authorised (r : Request) (i : nat) X (c : Call X) (s : App) : Prop :=
  match c with
  | GetNow | GetMonotonic | SleepUntil _ => True
  | AuthAgent _ token | AuthKey _ _ token => extract_bearer (auth_of r) = Some token
  | RegDo o => reg_permitted sha256 rconfig r i o s
  | QueueDo o => queue_permitted sha256 rconfig r i o s
  | RelayDo (Invalidate a _ _) => speaks_for r a s ∨ is_operator r ∨ r = EvictionSweep
  | RelayDo (Abandon a _) | RelayDo (StartResponse a _ _ _ _) | RelayDo (Write a _ _ _)
  | RelayDo (Finish a _ _) | RelayDo (Fail_ a _ _ _) => speaks_for r a s
  | RelayDo _ => False
  | RelayClaim a _ | OverrideFor a => speaks_for r a s
  | StoreInput name blob => is_operator r ∧ name = hexdigest sha256 blob
  | ResultsPut _ | ReadInput _ | AwaitFuture _ => ∃ a, speaks_for r a s
  | WriteEvent _ | ApplyOverride _ | MarkFlag _ => ∃ a, path_agent r = Some a ∧ speaks_for r a s
  | HasResult _ => is_operator r
  | Acquire | Release | RegRead _ | RelayRead _ | RelayTask _ =>
      (∃ a, speaks_for r a s) ∨ is_operator r ∨ (∃ req host, r = PostRegister req host) ∨
      r = DispatchTick ∨ r = EvictionSweep
  end.

Lemma permitted_authorised r i X (c : Call X) s : permitted r i X c s → authorised r i X c s.
Proof. destruct c as [| | | | | | | | c | | | | | | | | | | | | | |]; cbn; try done; [destruct c; cbn; naive_solver | naive_solver]. Qed.

(** C4: No handler acts for somebody it has not authenticated.  Until the bearer token
    of the request has been looked up a handler reads the clock and nothing else, no
    store and no lock.  After that a call that leases, completes, uploads, answers a
    relay claim or records a heartbeat for an agent, or applies an event, is made only
    where the request carries that agent's device token, an agent being heard from only
    under the liveness lock; submitting jobs, publishing models, issuing and revoking
    keys and tokens only for the admin key; requeueing only in the sweep and the tick.
    The agent id inside an event and the claim id a failure names are checked by no
    handler and are no part of this. *)
Theorem calls_authorised w i t X (c : Call X) k :
  reached w → g_tasks w !! i = Some (t, Do c k) → authorised t.1.1 i X c (g_state w).
Proof. intros Hr Hi. by eapply permitted_authorised, reached_call. Qed.

(** C6: An agent's leases are requeued as a whole ([requeue_agent]) only by the eviction
    sweep, holding the liveness lock, and only while the agent is offline: no heartbeat
    slips in between the sweep's check and its effect.  Single leases also end when they
    expire, in the dispatch tick, and a resubmitted job takes over its units: neither
    calls [requeue_agent]. *)
Theorem eviction_current w i t agent k :
  reached w → g_tasks w !! i = Some (t, Do (QueueDo (QRequeueAgent agent)) k) →
  t.1.1 = EvictionSweep ∧ app_lock (g_state w) = Some i ∧ offline_now rconfig agent (g_state w).
Proof. intros Hr Hi. exact (reached_call w i t _ _ k Hr Hi). Qed.

(** The relay's in-memory generation fence never leads the registry: a fenced
    generation is at most the agent's durable presence generation. *)
Theorem fence_never_leads w agent g :
  reached w → generation (Relay.w_broker (app_relay (g_state w))) !! agent = Some g → durable agent g (g_state w).
Proof. intros Hr. apply (ao_fence _ _ _ _ _ (reached_ok w Hr)). Qed.

(** Once the revocation of a registered relayed agent has answered with success, the
    relay holds no live work of that agent, now and in every later state: claims that
    were being set up when it was revoked included.  This takes the bump of the presence
    generation as one committed step; that a registration refused meanwhile can roll it
    back on the shared connection is [RegistrySpec.registration_rollback_loses_write]. *)
Theorem revoked_out_of_relay w i agent auth barred a w' c x :
  reached w → cc_site_enabled cfg = true →
  g_tasks w !! i = Some ((PostRevoke agent auth, true, barred), Ret a) → succeeded a →
  has_transport agent SITE_RELAY (g_state w) → rtc coordinator_step w w' →
  objs (Relay.w_broker (app_relay (g_state w'))) !! c = Some x → w_agent_id x = agent →
  is_terminal_state (w_state x) = true.
Proof.
  intros Hr Hsite Hi Ha (row0 & Hr0 & Ht0) Hs Hc <-. destruct (reached_answer w i _ a Hr Hi) as (_ & _ & Hout).
  destruct (Hout Ha) as (g & t & Hg & (row & Hrow & Ht) & Hf). simplify_eq.
  destruct (Hf eq_refl Hsite Ht0) as (g' & Hlt & Hfence). pose proof (reached_grows w w' Hr Hs) as G.
  destruct (fenced_grows _ _ _ _ G Hfence) as [_ Hlive]. assert (Hr' : reached w') by (by eapply reached_trans).
  destruct (is_terminal_state (w_state x)) eqn:Hterm; [done |].
  pose proof (Hlive c x Hc eq_refl Hterm). apply (ag_history _ _ G) in Hg.
  assert (Hiss : issued (Relay.w_broker (app_relay (g_state w'))) (w_agent_id x) (w_generation x)) by (right; eauto).
  pose proof (ao_issued _ _ _ _ _ (reached_ok w' Hr') _ _ Hiss g Hg). lia.
Qed.

(** A request that arrives for a revoked agent is never answered with success,
    however long it is held. *)
Theorem revoked_refused w i r known agent a :
  reached w → path_agent r = Some agent → g_tasks w !! i = Some ((r, known, true), Ret a) → ~ succeeded a.
Proof.
  intros Hr Hp Hi Ha. destruct (reached_answer w i _ a Hr Hi) as (_ & Hs & _). by destruct (proj1 (Hs Ha) agent Hp).
Qed.

(** A success on an agent's route means the request carried that agent's
    device token; on an operator's route, that it carried the admin key. *)
Theorem success_authenticated w i t a :
  reached w → g_tasks w !! i = Some (t, Ret a) → succeeded a →
  (∀ agent, path_agent t.1.1 = Some agent → speaks_for t.1.1 agent (g_state w)) ∧
  (operator_only t.1.1 = true → is_operator t.1.1).
Proof.
  intros Hr Hi Ha. destruct (reached_answer w i t a Hr Hi) as (_ & Hs & _). destruct (Hs Ha) as [H1 H2].
  split; [| done]. intros agent Hp. by destruct (H1 agent Hp).
Qed.

(** C30: Long polls end: the loop of a work request never outlives its budget of
    attempts, one per sleep that fits in the configured maximum, whatever the other
    handlers do and however time passes. *)
Theorem polls_end w i t a : reached w → g_tasks w !! i = Some (t, Ret a) → a ≠ Exhausted.
Proof. intros Hr Hi. by destruct (reached_answer w i t a Hr Hi). Qed.

(** An upload answered with a reference is stored under the digest of exactly
    the bytes that were sent, within the limit, and stays stored. *)
Theorem payload_stored w i agent uid n stream auth known barred d w' :
  reached w → g_tasks w !! i = Some ((PostPayload agent uid n stream auth, known, barred), Ret (Resp 200 (BResultRef d))) →
  rtc coordinator_step w w' →
  d = hexdigest sha256 (concat stream) ∧ (Z.of_nat (length (concat stream)) ≤ cc_max_result_payload_bytes cfg)%Z ∧
  ∃ b, app_results (g_state w') !! d = Some b ∧ hexdigest sha256 b = d.
Proof.
  intros Hr Hi Hs. destruct (reached_answer w i _ _ Hr Hi) as (_ & _ & Hp). destruct (Hp d eq_refl) as (Hd & [b Hb] & Hle).
  split_and!; [done | done |]. exists b. assert (Hb' : app_results (g_state w') !! d = Some b).
  { eapply lookup_weaken; [exact Hb | apply (ag_results _ _ (reached_grows w w' Hr Hs))]. }
  split; [done |]. symmetry. eapply (ao_results _ _ _ _ _ (reached_ok w' (reached_trans w w' Hr Hs))). done.
Qed.
End Sound.
End Coordinator.

(** ** Runs *)

(** A run as a list of moves: a request arrives; a task runs up to [fuel] calls,
    or until it blocks or answers; the gateway calls the relay. *)
Inductive Move :=
  | Arrive (i : nat) (r : Request)
  | Drive (i : nat) (env : Env) (fuel : nat)
  | Beside (c : Relay.Call) (now : Q).

#[export] Instance relay_fresh_dec c b : Decision (Relay.fresh c b).
Proof. destruct c; apply _. Defined.

Section Play.
  Context (sha256 : bytes → bytes) (rconfig : RegistryConfig) (cfg : CoordinatorConfig)
          (churn : option ChurnModel) (set_order : list agent_id → list agent_id).
  Notation W := (World Call App Tagged Response).
  Notation cstep := (coordinator_step sha256 rconfig cfg churn set_order).

Fixpoint drive (i : nat) (env : Env) (fuel : nat) (w : W) : W :=
  match fuel, g_tasks w !! i with
  | S fuel, Some (t, Do c k) =>
      if bool_decide (env_ok env (g_state w)) then
        match exec sha256 rconfig cfg _ i env c (g_state w) with
        | Some (s', x) => drive i env fuel {| g_state := s'; g_tasks := <[i := (t, k x)]> (g_tasks w) |}
        | None => w
        end
      else w
  | _, _ => w
  end.

Definition move (m : Move) (w : W) : W :=
  match m with
  | Arrive i r =>
      match g_tasks w !! i with
      | None => {| g_state := g_state w;
                   g_tasks := <[i := (tag r (g_state w), serve sha256 rconfig cfg churn set_order r)]> (g_tasks w) |}
      | Some _ => w
      end
  | Drive i env fuel => drive i env fuel w
  | Beside c now =>
      let s := g_state w in
      if beside c && bool_decide (Relay.fresh c (Relay.w_broker (app_relay s))) then
        let '(b', tasks, _) := Relay.run_call c now (Relay.w_broker (app_relay s)) in
        {| g_state := set_relay {| Relay.w_broker := b'; Relay.w_tasks := Relay.w_tasks (app_relay s) ++ tasks |} s;
           g_tasks := g_tasks w |}
      else w
  end.

Definition play (ms : list Move) (w : W) : W := fold_left (λ w m, move m w) ms w.

Lemma drive_steps i env fuel w : rtc cstep w (drive i env fuel w).
Proof.
  revert w; induction fuel as [| fuel IH]; intros w; cbn [drive]; [done |].
  destruct (g_tasks w !! i) as [[t [a | X c k]] |] eqn:Hi; [done | | done].
  destruct (bool_decide _) eqn:He; [| done]. reflect_bools. destruct (exec _ _ _ _ _ _ _ _) as [[s' x] |] eqn:Hx; [| done].
  eapply rtc_l; [| apply IH]. by eapply wstep_call.
Qed.

Lemma move_steps m w : rtc cstep w (move m w).
Proof.
  destruct m as [i r | i env fuel | c now]; cbn [move].
  - destruct (g_tasks w !! i) eqn:Hi; [done |]. apply rtc_once.
    pose proof (wstep_arrive (exec sha256 rconfig cfg) env_ok (app_background sha256) release
      (λ t, serve sha256 rconfig cfg churn set_order t.1.1) arrives i (tag r (g_state w)) w Hi eq_refl) as Hs. exact Hs.
  - apply drive_steps.
  - destruct (beside c) eqn:Hb; [| done]. destruct (bool_decide _) eqn:Hf; [| done]. cbn [andb]. reflect_bools.
    destruct (Relay.run_call _ _ _) as [[b' tasks] e] eqn:Hrun. apply rtc_once. apply wstep_background. by eapply bg_relay.
Qed.

Lemma play_steps ms w : rtc cstep w (play ms w).
Proof.
  revert w; induction ms as [| m ms IH]; intros w; cbn; [done |]. etransitivity; [apply move_steps | apply IH].
Qed.

Lemma play_app ms ms' w : play (ms ++ ms') w = play ms' (play ms w).
Proof. apply fold_left_app. Qed.
End Play.

(** A site of one agent: it joins, claims relay work, is revoked. *)
Definition demo_cfg : CoordinatorConfig := {|
  cc_site_enabled := true; cc_long_poll_max_s := 30; cc_poll_sleep_s := 1 # 2; cc_chunks_per_unit := 2;
  cc_max_result_payload_bytes := 1000; cc_auto_assign_on_enroll := true; cc_speculative_backup_enabled := false;
  cc_speculative_tail_max_units := 4; cc_speculative_survival_threshold := 1 # 2; cc_churn_est_unit_duration_s := 60;
  cc_max_attempts := 3; cc_default_lease_s := 60 |}.

Definition at_ (now : instant) (uuid token : string) (fut : nat) : Env := {|
  e_now := now; e_mono := 0; e_uuid := uuid; e_token := token; e_fut := fut; e_timeout := false; e_rows := key_row_order |}.

Definition operator : option string := Some "Bearer admin".
Definition device : option string := Some "bearer device".

Definition demo_start : World Call App Tagged Response := started 100 ∅.

Notation demo_play := (play plain_sha demo_rc demo_cfg None (λ l, l)).
Notation demo_reached := (reached plain_sha demo_rc demo_cfg 100 None (λ l, l) ∅).

Definition joined : list Move := [
  Arrive 0 (PostJoinBundles 1 operator); Drive 0 (at_ 1 "u0" "join-me" 0) 9;
  Arrive 1 (PostRegister desk_request "10.0.0.2"); Drive 1 (at_ 2 "a" "device" 0) 9;
  Arrive 2 (PostHeartbeat "a" serving_heartbeat device); Drive 2 (at_ 3 "u1" "t" 0) 20 ].

Definition chat_request : RelayRequest := {|
  rq_method := "POST"; rq_path := "/v1/chat/completions"; rq_content_type := "application/json"; rq_body := [] |}.

(** The agent's claim is matched with an offer of the gateway; then the operator
    revokes the agent, and a heartbeat arrives. *)
Definition claimed : list Move := joined ++ [
  Arrive 3 (GetClaim "a" device); Drive 3 (at_ 4 "u2" "t" 1) 9;
  Beside (Offer "a" 8080 chat_request 100 "c") 0;
  Drive 3 (at_ 5 "u3" "t" 2) 9 ].

Definition revoking : list Move := [Arrive 4 (PostRevoke "a" operator); Drive 4 (at_ 6 "u4" "t" 2) 20].
Definition knocking : list Move := [Arrive 5 (PostHeartbeat "a" serving_heartbeat device); Drive 5 (at_ 7 "u5" "t" 2) 20].

(** A job is submitted, its unit leased, its result uploaded; later the agent is
    silent and the sweep begins. *)
Definition demo_job : JobSubmit := {|
  js_kind := EMBED; js_model_id := "m"; js_payload_ref := "corpus.jsonl"; js_params := ∅; js_priority := 0 |}.

Definition demo_unit : unit_id := Eval vm_compute in
  unit_id_of plain_sha "m" (hexdigest plain_sha (String.list_byte_of_string (dump_strings ["hello"]))).

Definition demo_blocks : list bytes := [String.list_byte_of_string "ab"; String.list_byte_of_string "c"].

Definition worked : list Move := joined ++ [
  Arrive 3 (PostJob demo_job (JsonlFile [TextLine "hello"]) operator); Drive 3 (at_ 4 "job" "t" 0) 20;
  Arrive 4 (GetWork "a" 1 device); Drive 4 (at_ 5 "u2" "t" 0) 20;
  Arrive 5 (PostPayload "a" demo_unit 1 demo_blocks device); Drive 5 (at_ 6 "u3" "t" 0) 20 ].

Definition sweeping : list Move := [Arrive 6 EvictionSweep; Drive 6 (at_ 60000000 "u4" "t" 0) 3].

Lemma play_reached ms : demo_reached (demo_play ms demo_start).
Proof. apply play_steps. Qed.

Lemma demo_bounds :
  (0 < timedelta_us (cc_poll_sleep_s demo_cfg))%Z ∧ (0 <= cc_long_poll_max_s demo_cfg)%Q ∧
  (0 ≤ cc_max_result_payload_bytes demo_cfg)%Z ∧ map_Forall (λ n b, n = hexdigest plain_sha b) (∅ : gmap string bytes).
Proof. split_and!; vm_compute; congruence. Qed.

Lemma components_reachable_witness :
  Relay.reachable 100 (app_relay (g_state (demo_play claimed demo_start))).
Proof.
  destruct demo_bounds as (H1 & H2 & H3 & H4).
  exact (proj2 (proj2 (components_reachable plain_sha demo_rc demo_cfg 100 None (λ l, l) H1 H2 H3 ∅ H4
    (demo_play claimed demo_start) (play_reached claimed)))).
Defined.

(** Task [i] is about to requeue the work of [agent]. *)
Definition requeues {X} (agent : agent_id) (c : Call X) : Prop :=
  match c with QueueDo o => match o with QRequeueAgent a => a = agent | _ => False end | _ => False end.

Definition evicting (i : nat) (agent : agent_id) (t : Tagged) (w : World Call App Tagged Response) : Prop :=
  match (g_tasks w !! i : option (Tagged * Prog Call Response)) with
  | Some (t', Do c _) => t' = t ∧ requeues agent c
  | _ => False
  end.

Lemma evicting_task i agent t w :
  evicting i agent t w → ∃ k, g_tasks w !! i = Some (t, Do (QueueDo (QRequeueAgent agent)) k).
Proof.
  unfold evicting. destruct (g_tasks w !! i) as [[t' [a | X c k]] |]; [done | | done].
  intros [-> Hc]. destruct c as [| | | | | | | X o | | | | | | | | | | | | | | |]; cbn in Hc; try done. destruct o; cbn in Hc; try done. subst. by exists k.
Qed.

Lemma calls_authorised_witness :
  authorised plain_sha demo_rc EvictionSweep 6 _ (QueueDo (QRequeueAgent "a"))
    (g_state (demo_play (joined ++ sweeping) demo_start)).
Proof.
  destruct demo_bounds as (H1 & H2 & H3 & H4).
  destruct (evicting_task 6 "a" (EvictionSweep, true, false) (demo_play (joined ++ sweeping) demo_start)) as [k Hk];
    [vm_compute; split; reflexivity |].
  exact (calls_authorised plain_sha demo_rc demo_cfg 100 None (λ l, l) H1 H2 H3 ∅ H4
    (demo_play (joined ++ sweeping) demo_start) 6%nat (EvictionSweep, true, false) _ _ k
    (play_reached (joined ++ sweeping)) Hk).
Defined.

Lemma eviction_current_witness : offline_now demo_rc "a" (g_state (demo_play (joined ++ sweeping) demo_start)).
Proof.
  destruct demo_bounds as (H1 & H2 & H3 & H4).
  destruct (evicting_task 6 "a" (EvictionSweep, true, false) (demo_play (joined ++ sweeping) demo_start)) as [k Hk];
    [vm_compute; split; reflexivity |].
  exact (proj2 (proj2 (eviction_current plain_sha demo_rc demo_cfg 100 None (λ l, l) H1 H2 H3 ∅ H4
    (demo_play (joined ++ sweeping) demo_start) 6%nat (EvictionSweep, true, false) "a" k
    (play_reached (joined ++ sweeping)) Hk))).
Defined.

Lemma fence_never_leads_witness : durable "a" 1 (g_state (demo_play (claimed ++ revoking) demo_start)).
Proof.
  destruct demo_bounds as (H1 & H2 & H3 & H4).
  apply (fence_never_leads plain_sha demo_rc demo_cfg 100 None (λ l, l) H1 H2 H3 ∅ H4
    (demo_play (claimed ++ revoking) demo_start)).
  - apply play_reached.
  - vm_compute. reflexivity.
Defined.

Lemma revoked_out_of_relay_witness :
  ∃ x, objs (Relay.w_broker (app_relay (g_state (demo_play (claimed ++ revoking) demo_start)))) !! "c" = Some x ∧
    is_terminal_state (w_state x) = true.
Proof.
  destruct demo_bounds as (H1 & H2 & H3 & H4). set (w := demo_play (claimed ++ revoking) demo_start).
  assert (Hx : (λ x, w_agent_id x) <$> objs (Relay.w_broker (app_relay (g_state w))) !! "c" = Some "a") by (vm_compute; reflexivity).
  apply fmap_Some in Hx as (x & Hx & Ha). exists x. split; [exact Hx |].
  apply (revoked_out_of_relay plain_sha demo_rc demo_cfg 100 None (λ l, l) H1 H2 H3 ∅ H4
    w 4%nat "a" operator false (Resp 204 NoBody) w "c" x).
  - apply play_reached.
  - reflexivity.
  - vm_compute. reflexivity.
  - vm_compute. split; congruence.
  - eexists. vm_compute. split; reflexivity.
  - apply rtc_refl.
  - exact Hx.
  - symmetry. exact Ha.
Defined.

Lemma revoked_refused_witness : ~ succeeded (Resp 401 (Detail REVOKED_DEVICE_TOKEN_DETAIL)).
Proof.
  destruct demo_bounds as (H1 & H2 & H3 & H4).
  apply (revoked_refused plain_sha demo_rc demo_cfg 100 None (λ l, l) H1 H2 H3 ∅ H4
    (demo_play (claimed ++ revoking ++ knocking) demo_start) 5%nat (PostHeartbeat "a" serving_heartbeat device) true "a").
  - apply play_reached.
  - reflexivity.
  - vm_compute. reflexivity.
Defined.

Lemma success_authenticated_witness : is_operator plain_sha demo_rc (PostRevoke "a" operator).
Proof.
  destruct demo_bounds as (H1 & H2 & H3 & H4).
  apply (success_authenticated plain_sha demo_rc demo_cfg 100 None (λ l, l) H1 H2 H3 ∅ H4
    (demo_play (claimed ++ revoking) demo_start) 4%nat (PostRevoke "a" operator, true, false) (Resp 204 NoBody)).
  - apply play_reached.
  - vm_compute. reflexivity.
  - vm_compute. split; congruence.
  - reflexivity.
Defined.

(** A poll that finds nothing, until its budget of half a second is over. *)
Definition polling : list Move := joined ++ [
  Arrive 3 (GetWork "a" (1 # 2) device); Drive 3 (at_ 4 "u2" "t" 0) 20; Drive 3 (at_ 600000 "u2" "t" 0) 20 ].

Lemma polls_end_witness : Resp 204 NoBody ≠ Exhausted.
Proof.
  destruct demo_bounds as (H1 & H2 & H3 & H4).
  apply (polls_end plain_sha demo_rc demo_cfg 100 None (λ l, l) H1 H2 H3 ∅ H4
    (demo_play polling demo_start) 3%nat (GetWork "a" (1 # 2) device, true, false)).
  - apply play_reached.
  - vm_compute. reflexivity.
Defined.

Lemma payload_stored_witness :
  ∃ b, app_results (g_state (demo_play (worked ++ sweeping) demo_start)) !! "616263" = Some b ∧ hexdigest plain_sha b = "616263".
Proof.
  destruct demo_bounds as (H1 & H2 & H3 & H4).
  apply (payload_stored plain_sha demo_rc demo_cfg 100 None (λ l, l) H1 H2 H3 ∅ H4
    (demo_play worked demo_start) 5%nat "a" demo_unit 1 demo_blocks device true false "616263").
  - apply play_reached.
  - vm_compute. reflexivity.
  - rewrite play_app. apply play_steps.
Defined.
